(* ===== verification/_CoqProject ===== *)
-Q . S2P
Prelude.v
Effects.v
Util.v
Serialise.v
Hash.v
Names.v
FileSystem.v
FileOps.v
Archive.v
References.v
StorePath.v
Derivations.v
Closure.v
LocalStore.v
GCRoots.v
GC.v
Wire.v
GCReport.v
PathLocks.v
StoreFiles.v
Optimise.v
AddToStore.v
Export.v
Verify.v
AddRoots.v
Globals.v
GoalData.v
Goals.v
GoalInv.v
GoalWorld.v
GoalSteps.v
GoalHoare.v
GoalWork.v
GoalStates.v
GoalBuild.v
GoalSubst.v
GoalRun.v
GoalTop.v
GoalEdges.v
BuildOutputs.v
Daemon.v
Remote.v
RemoteConn.v
RemoteOps.v
RemoteSpec.v
RemoteRefines.v
RemoteGreeting.v
RemoteLocal.v
NixExpr.v
Eval.v
Primops.v
PrimDerivation.v
BaseEnv.v
EvalLocal.v
EvalMemory.v
EvalScope.v
EvalSafe.v
EvalForce.v
EvalAttrs.v
EvalSound.v
EvalOps.v
EvalCalls.v
EvalStep.v
PrimSafe.v
EvalApprox.v
EvalBase.v
PrimBounds.v
