(* ===== verification/Prelude.v ===== *)
(** * A verification development for the Nix package manager

    Nix (the C++ sources under src/src) keeps packages in a store: a directory of
    immutable objects whose names contain hashes, with a database of the valid
    ones and their references.  This library models the part of the program that
    the store depends on, from the byte formats up to the garbage collector, and
    proves what makes it correct.

    ** The program and its model

    The sources are layered, and so are the files (each opens with its own
    description).

    - libutil.  [Util.v]: the string, path and parsing helpers of util.cc
      ([canonPath], [tokenizeString], [parseString], ...).  [Serialise.v]: sinks,
      sources and the wire format (serialise.cc), over descriptors whose [read]
      and [write] transfer as much as the operating system chooses.  [Hash.v]:
      hashes, their base-16 and base-32 forms and hash sinks (hash.cc); the digest
      functions are a parameter (class [HashAlgo]).  [FileSystem.v] and
      [FileOps.v]: the file system the code runs on and the operations of util.cc
      that read and change it.  [Archive.v]: the archive format (archive.cc), its
      dumper, its parser and the sink that restores.
    - libexpr.  [Names.v]: derivation names and version comparison (names.cc).
      [NixExpr.v]: the abstract syntax and the binding of variables (nixexpr.cc).
      [Eval.v]: the evaluator (eval.cc) on an explicit memory of values, environments
      and attribute sets, in which thunks are overwritten by their values.
      [Primops.v], [PrimDerivation.v] and [BaseEnv.v]: the built-in functions, among
      them the one that instantiates derivations, and the initial environment
      (primops.cc); class [EvalStore] is what they use of the store, and
      [EvalLocal.v] the instance of the local store.  The proofs are in
      [EvalMemory.v] (the invariant of the memory), [EvalScope.v], [EvalSafe.v],
      [EvalForce.v], [EvalAttrs.v], [EvalSound.v], [EvalOps.v], [EvalCalls.v],
      [EvalStep.v], [PrimSafe.v] (the built-in functions), [EvalApprox.v] and [EvalBase.v] (the base environment) and [PrimBounds.v].
    - libstore.  [References.v]: the scan for references (references.cc).
      [StorePath.v]: computing and checking store paths, and the registration
      text (store-api.cc).  [Derivations.v]: derivations, their text form and
      their hash modulo fixed-output inputs (derivations.cc).  [Closure.v]:
      closures and topological sorting (misc.cc) on any store: the class
      [StoreAPI] has the queries, [StoreLaws] what the algorithms rely on.
      [LocalStore.v]: the tables of schema.sql, the SQL statements as functions on
      them, and the queries, registration and invalidation of local-store.cc; it
      is an instance of [StoreLaws].  [GCRoots.v], [GC.v] and [GCReport.v]: the
      garbage collector (gc.cc), which uses all of the above.  [PathLocks.v]: the
      locks between processes (pathlocks.cc) as a step system.  [StoreFiles.v]: the
      state of a process that writes to the store, with its locks, temporary roots
      and the metadata of store objects.  [Optimise.v]: hard-linking equal files
      (optimise-store.cc).  [AddToStore.v]: adding files, dumps and texts;
      [Export.v]: exporting and importing paths; [Verify.v]: verifying the store and
      upgrading its old database (all local-store.cc).  [AddRoots.v]: adding
      permanent roots (gc.cc).  [Globals.v]: the settings (globals.cc).
    - The worker protocol, by which a client uses the store of a daemon.  [Wire.v]:
      the protocol numbers, the two ends of a connection, and class [StoreOps], the
      interface of a store.  [Daemon.v]: the daemon (nix-daemon.cc) on any store.
      [Remote.v]: the store of the client (remote-store.cc).  [RemoteConn.v] runs a
      client with a daemon: the two are deterministic and each only reads what the
      other has flushed, so a connection is run by giving the client all that the
      daemon answers to what the client has sent so far.  [RemoteOps.v] has the
      operations as data, on the store itself and through the protocol; the proofs
      are in [RemoteSpec.v], [RemoteRefines.v] and [RemoteGreeting.v], and
      [RemoteLocal.v] puts the local store behind a daemon.

    - The scheduler of builds and substitutions (build.cc).  [GoalData.v]: the classes
      [Goal], [DerivationGoal], [SubstitutionGoal] and [Worker], the goals as shared objects
      on a heap with strong and weak pointers, and class [World], what the goals use of the
      store, of files and of processes.  [Goals.v]: every state of both kinds of goals, the
      loop of the worker, and [buildPaths], [ensurePath] and [repairPath].  The proofs:
      [GoalInv.v] has the invariant of the scheduler and [WorldLaws], what it relies on;
      [GoalWorld.v] a small world that obeys the laws; [GoalSteps.v] and [GoalHoare.v]
      the steps of the operations and [GoalWork.v] the rules for a goal at work;
      [GoalStates.v], [GoalBuild.v] and [GoalSubst.v] the states of the goals;
      [GoalRun.v] the loop, [GoalTop.v] the operations of the store, and [GoalEdges.v] two
      corners in which the scheduler does not do what it should.
      [BuildOutputs.v]: what is done with the outputs of a builder, on the local store; it is
      what the scheduler calls [w_collectOutputs].

    State is explicit: pure code returns a [result] (a value, an exception with
    its class, or [NoFuel]); code that changes shared state and can be interrupted
    by an exception that is caught later (the collector, the operations that write to
    the store) is in the monad of [Effects.v], where an exception keeps the state.  A [std::string] is a list of
    8-bit characters, a [std::set] or [std::map] of strings is a [gset] or [gmap]
    that is visited in the order of its keys ([set_iter], [map_iter]), machine
    integers are [Z] with their wrap-around ([u32], [u64], [i32]).

    ** What the theorems show

    - Round trips: archives ([Archive.dump_restore_roundtrip]), hashes
      ([Hash.parse_print_hash]), derivations
      ([Derivations.parse_unparse_derivation]), registration text, the wire format,
      integers, tokens.
    - Exactness: the reference scan finds exactly the occurring hash parts
      ([References.scanForReferences_exact]); closures are the reachable sets;
      [topoSortPaths] sorts or reports a cycle; [findRoots] finds exactly the
      roots; [deletePath] removes exactly a tree; store paths are what the
      specification says and collide only with the hash.
    - Invariants: registration and invalidation keep the database closed under
      references, and do exactly what they say on every outcome.
    - Safety of the collector ([GC.collectGarbage_safe]): whatever happens, nothing
      reachable from a root is lost.
    - Locks: in every interleaving no two processes hold the lock on one path, and
      locks do not deadlock ([PathLocks.pathlocks_exclusive],
      [PathLocks.pathlocks_no_deadlock]); a process that is killed while it deletes a lock file breaks the
      first ([PathLocks.killed_process_breaks_exclusion]).
    - Adding to the store ([AddToStore.addToStore_copies] and the theorems after it):
      the path computed from the contents becomes valid with exactly those contents,
      and the objects of all valid paths stay the ones whose hashes are registered;
      metadata becomes canonical, temporary roots are seen by the collector, and
      deduplication does not change contents.
    - Moving between stores ([Export.export_import]): a path that is exported and
      imported elsewhere is valid there with the same tree, references and deriver.
    - Verifying, without repair ([Verify.verifyStore_exact]): verification removes exactly the missing
      paths, fills in hashes and sizes that were not computed and finds exactly the modified paths;
      [Verify.verifyStore_chain_fails] says on which stores it gives up.
    - Roots: a root that was added is found ([AddRoots.addPermRoot_found]).
    - The evaluator: on what the parser and [bindVars] produce
      it never uses memory that is not there or that holds something else and fails no assertion, for every
      set of built-in functions that are safe themselves ([EvalStep.eval_safe]), as most of them are
      ([PrimSafe.primops_safe]); so evaluation in the real base environment goes right as
      long as it calls none of the others ([EvalBase.eval_toplevel_safe]).  Variables are found by lexical scope
      ([EvalScope.lookupVar_lexical]).  [PrimBounds.force_failed_thunk] is what can go wrong
      with the others, and [PrimBounds.retry_undefined] a program with which it does; overflow of
      [int] is an exception of its own ([PrimBounds.prim_div_range]).
    - Evaluator and store: the derivations that the evaluator instantiates have the
      output paths that are computed from their hash, or from the declared hash
      ([PrimDerivation.instantiate_outputs]), and are those that the store
      accepts ([EvalLocal.instantiated_accepted]).
    - The worker protocol ([RemoteRefines.remote_refines]): every operation of a
      client has the result, the exception and the effect on the store that the
      operation has on the store of the daemon.  The greeting connects the two and
      passes on the settings of the client, its overrides as untrusted
      ([RemoteGreeting.openConnection_connects]); an error of the daemon when it opens
      the store does not reach the client ([RemoteGreeting.startup_error_lost]).
    - Building ([GoalTop.buildPaths_built], [GoalTop.ensurePath_valid]): when a build
      returns without an error, every path that was asked for is valid.  The scheduler keeps
      its invariant and the limit on the number of builds, which is one when the setting is zero
      ([GoalTop.worker_invariant]); no assertion of it fails ([GoalTop.build_goals_asserts]) but the
      one that some goal is awake, and the loop stops there, or because no build can be started, only when the
      goals wait for each other in a cycle or for any other to finish, or want to build and
      the setting is zero ([GoalTop.build_goals_deadlock]).  These are for builds without
      a hook, because the setting is off or [NIX_BUILD_HOOK] is not set, and without timeouts ([plain]): with
      both timeouts an assertion can fail ([GoalEdges.both_timeouts_assert]).  A path that nobody can produce counts
      as built ([GoalEdges.no_substituter_built]); [GoalTop.failed_substitution_blocks] is a build that ends in the assertion.
    - The outputs of a build ([BuildOutputs.computeClosure_exact],
      [BuildOutputs.collectOutputs_exact]): exactly the outputs that pass the checks become valid, with the references
      that occur in them; [BuildOutputs.redirected_missing] is a build whose failure is not caught.
    - Errors: what each parser rejects, and the inputs on which the code does not
      do what it means to (entries without a name, strings with NUL, unterminated
      strings, version components beyond [int]).

    ** Fuel

    Loops and recursions that are not structural take fuel, and [NoFuel] (or
    [Stuck]) is a result of its own: a theorem that ends in [Ok], [Done] or an
    exception says that the fuel given is enough.  Bounds that the code has (the
    size of a buffer, of a file system, of the set of valid paths) are computed by
    the callers; where the program itself may not return ([parseString] on an
    unterminated string) that is the theorem.  A program of the expression language
    need not terminate: [evaluator n] unrolls the recursion of the evaluator [n]
    times, and its theorems are for every [n].  The loops of the protocol end with the
    input: the daemon has as much fuel as it has bytes to read, and the theorems give a
    number of messages from which on the client has its answer.  A build need not end
    either: [run n] is at most [n] rounds of the loop of the worker, and its theorems are for
    every [n].  A goal is destroyed with the goals that only it keeps alive ([drop_ptrs]), with
    fuel for the number of goals.

    ** What is not modelled

    Concurrency other than the locks (each operation runs alone), access checks of
    the operating system other than [chown], the SQLite and OpenSSL libraries behind
    their documented behaviour, logging, the lexer and parser of the
    expression language (generated), the built-in functions [import], [toXML] and
    [filterSource] (parameters), how a builder is set up and run (the processes, users, chroots and
    log files of build.cc) and the other side of a build hook, the daemon's handling of signals and its
    loop over connections, the substituters, and the command-line programs. *)

From Stdlib Require Import ZArith Lia Ascii String.
From stdpp Require Import base strings sorting numbers gmap sets list.

(** ** Byte strings

    [std::string] is a sequence of bytes that may contain NUL, so it is a list
    of 8-bit characters.  [$"abc"] is the literal [abc]. *)

Declare Scope nix_scope.
Delimit Scope nix_scope with nix.
Open Scope nix_scope.

Abbreviation str := (list ascii).

Definition lit (s : string) : str := list_ascii_of_string s.
Arguments lit : simpl never.

Notation "$ s" := (lit s%string)
  (at level 1, s constr at level 0, format "$ s") : nix_scope.

(** The value of a character as an [unsigned char], and its inverse (which
    keeps the low eight bits, as the conversion to [unsigned char] does). *)
Definition byte_val (c : ascii) : Z := Z.of_N (N_of_ascii c).
Definition byte_of (z : Z) : ascii := ascii_of_N (Z.to_N (z mod 256)).

Definition NUL : ascii := ascii_of_N 0.
(** [s[s.size()]] of a [const string] is NUL. *)
#[export] Instance ascii_inhabited : Inhabited ascii := populate NUL.
Definition NL : ascii := ascii_of_N 10.
Definition CR : ascii := ascii_of_N 13.
Definition TAB : ascii := ascii_of_N 9.
Definition DQUOTE : ascii := ascii_of_N 34.
Definition BSLASH : ascii := ascii_of_N 92.

(** Character classes of the "C" locale. *)
Definition in_range (lo hi : Z) (c : ascii) : bool :=
  (lo <=? byte_val c)%Z && (byte_val c <=? hi)%Z.
Definition isdigit (c : ascii) : bool := in_range 48 57 c.
Definition isupper (c : ascii) : bool := in_range 65 90 c.
Definition islower (c : ascii) : bool := in_range 97 122 c.
Definition isalpha (c : ascii) : bool := isupper c || islower c.
Definition isxdigit (c : ascii) : bool :=
  isdigit c || in_range 65 70 c || in_range 97 102 c.
(** [isspace]: space and the control characters 9 to 13. *)
Definition isspace (c : ascii) : bool := in_range 9 13 c || in_range 32 32 c.

Definition char_eqb (a b : ascii) : bool := bool_decide (a = b).
Definition str_eqb (a b : str) : bool := bool_decide (a = b).

(** ** Exceptions and results

    One class per C++ exception class the modelled code throws; a failed
    [assert], [abort()] and an exception of the C++ library are classes of
    their own, and so are undefined behaviour, and waiting for a peer that waits too,
    which nothing catches.  The payload is the message. *)

Inductive exn_class : Type :=
| eError | eSysError | eEndOfFile | eSerialisationError | eBuildError | eSubstError
| ePathInUse | eUsageError | eGCLimitReached | eAssertion | eAbort | eOutOfRange | eBadAlloc
| eEvalError | eTypeError | eAssertionError | eThrownError | eEvalAbort | eImportError | eUndefined | eOverflow | eBlocked.

Record exn : Type := Exn { exn_kind : exn_class; exn_msg : str }.

#[export] Instance exn_class_eq_dec : EqDecision exn_class.
Proof. solve_decision. Defined.
#[export] Instance exn_eq_dec : EqDecision exn.
Proof. solve_decision. Defined.

(** The outcome of running code: a value, an exception, or (for loops that
    are not structurally recursive) more iterations than the fuel allows.  A
    theorem whose conclusion is [Ok _] therefore also says that the code
    returns. *)
Inductive result (A : Type) : Type :=
| Ok (a : A)
| Throw (e : exn)
| NoFuel.
Arguments Ok {_} _.
Arguments Throw {_} _.
Arguments NoFuel {_}.

#[export] Instance result_eq_dec `{EqDecision A} : EqDecision (result A).
Proof. solve_decision. Defined.

#[export] Instance result_ret : MRet result := fun _ a => Ok a.
#[export] Instance result_bind : MBind result := fun _ _ f m =>
  match m with Ok a => f a | Throw e => Throw e | NoFuel => NoFuel end.
#[export] Instance result_fmap : FMap result := fun _ _ f m =>
  match m with Ok a => Ok (f a) | Throw e => Throw e | NoFuel => NoFuel end.

Definition throw {A} (k : exn_class) (msg : str) : result A := Throw (Exn k msg).
Definition error {A} (msg : str) : result A := throw eError msg.
Definition assert_ (b : bool) : result unit :=
  if b then Ok tt else throw eAssertion ($"assertion failed").

(** A loop over a container whose body may throw. *)
Fixpoint foldM {A B} (f : B -> A -> result B) (b : B) (l : list A) : result B :=
  match l with
  | [] => Ok b
  | a :: l => b' ← f b a; foldM f b' l
  end.

(** [string(s, pos, n)] and [string(s, pos)] of the C++ library. *)
Definition substr (s : str) (pos n : nat) : result str :=
  if (pos <=? length s)%nat then Ok (take n (drop pos s))
  else throw eOutOfRange ($"basic_string::basic_string").
Definition substr_from (s : str) (pos : nat) : result str :=
  if (pos <=? length s)%nat then Ok (drop pos s)
  else throw eOutOfRange ($"basic_string::basic_string").

(** [s.find(c)], [s.find(c, pos)] and [s.rfind(c)]; [None] is [npos]. *)
Fixpoint str_find (c : ascii) (s : str) : option nat :=
  match s with
  | [] => None
  | x :: s => if char_eqb x c then Some 0%nat else S <$> str_find c s
  end.
Definition str_find_from (c : ascii) (s : str) (pos : nat) : option nat :=
  (fun i => (pos + i)%nat) <$> str_find c (drop pos s).
Fixpoint str_rfind (c : ascii) (s : str) : option nat :=
  match s with
  | [] => None
  | x :: s =>
      match str_rfind c s with
      | Some i => Some (S i)
      | None => if char_eqb x c then Some 0%nat else None
      end
  end.

(** ** Machine integers *)

Definition u8 (z : Z) : Z := z mod 2 ^ 8.
Definition u32 (z : Z) : Z := z mod 2 ^ 32.
Definition u64 (z : Z) : Z := z mod 2 ^ 64.
Definition i32 (z : Z) : Z := (z + 2 ^ 31) mod 2 ^ 32 - 2 ^ 31.

(** ** The order of [std::string]

    [operator<] compares the bytes as unsigned characters, left to right. *)

Fixpoint str_leb (a b : str) : bool :=
  match a, b with
  | [], _ => true
  | _ :: _, [] => false
  | x :: a, y :: b =>
      if (byte_val x <? byte_val y)%Z then true
      else if (byte_val y <? byte_val x)%Z then false
      else str_leb a b
  end.
Definition str_ltb (a b : str) : bool := negb (str_leb b a).
Definition str_le (a b : str) : Prop := str_leb a b = true.

#[export] Instance str_le_dec a b : Decision (str_le a b).
Proof. unfold str_le. apply _. Defined.

(** ** Iterating over [std::set] and [std::map]

    A [std::set<string>] is a [gset str], a [std::map<string, V>] a
    [gmap str V]; a [foreach] over one visits the keys in increasing order. *)

Definition set_iter (X : gset str) : list str := merge_sort str_le (elements X).

Definition key_le {V} (p q : str * V) : Prop := str_le p.1 q.1.
#[export] Instance key_le_dec {V} (p q : str * V) : Decision (key_le p q).
Proof. unfold key_le. apply _. Defined.
Definition map_iter {V} (m : gmap str V) : list (str * V) :=
  merge_sort key_le (map_to_list m).

(** * Lemmas *)

(** ** Automation *)

Create HintDb nix.
Create Rewrite HintDb nix.

(** Case analysis on the [Ok] outcome of a sequence of calls. *)
Lemma bind_Ok {A B} (m : result A) (f : A -> result B) b :
  m ≫= f = Ok b <-> exists a, m = Ok a /\ f a = Ok b.
Proof.
  destruct m as [a|e|]; cbn; split.
  - intros Hf. by exists a.
  - by intros (a' & [= ->] & Hf).
  - done.
  - by intros (? & ? & ?).
  - done.
  - by intros (? & ? & ?).
Qed.

Lemma bind_ret {A B} (a : A) (f : A -> result B) : Ok a ≫= f = f a.
Proof. done. Qed.

Ltac inv_ok :=
  repeat match goal with
  | H : (_ ≫= _) = Ok _ |- _ => apply bind_Ok in H as (? & ? & H)
  | H : Ok _ = Ok _ |- _ => injection H as H
  | H : Throw _ = Ok _ |- _ => discriminate H
  | H : NoFuel = Ok _ |- _ => discriminate H
  | H : throw _ _ = Ok _ |- _ => discriminate H
  | H : error _ = Ok _ |- _ => discriminate H
  end; simplify_eq.

(** Turn the boolean tests of the code into propositions. *)
Ltac reflect :=
  repeat match goal with
  | H : (_ && _) = true |- _ => apply andb_true_iff in H as [??]
  | H : (_ || _) = false |- _ => apply orb_false_iff in H as [??]
  | H : negb _ = true |- _ => apply negb_true_iff in H
  | H : negb _ = false |- _ => apply negb_false_iff in H
  | H : (_ <? _)%Z = true |- _ => apply Z.ltb_lt in H
  | H : (_ <? _)%Z = false |- _ => apply Z.ltb_ge in H
  | H : (_ <=? _)%Z = true |- _ => apply Z.leb_le in H
  | H : (_ <=? _)%Z = false |- _ => apply Z.leb_gt in H
  | H : (_ =? _)%Z = true |- _ => apply Z.eqb_eq in H
  | H : (_ =? _)%Z = false |- _ => apply Z.eqb_neq in H
  | H : (_ <=? _)%nat = true |- _ => apply Nat.leb_le in H
  | H : (_ <=? _)%nat = false |- _ => apply Nat.leb_gt in H
  | H : (_ <? _)%nat = true |- _ => apply Nat.ltb_lt in H
  | H : (_ <? _)%nat = false |- _ => apply Nat.ltb_ge in H
  | H : (_ =? _)%nat = true |- _ => apply Nat.eqb_eq in H
  | H : (_ =? _)%nat = false |- _ => apply Nat.eqb_neq in H
  | H : char_eqb _ _ = true |- _ => apply bool_decide_eq_true in H
  | H : char_eqb _ _ = false |- _ => apply bool_decide_eq_false in H
  | H : str_eqb _ _ = true |- _ => apply bool_decide_eq_true in H
  | H : str_eqb _ _ = false |- _ => apply bool_decide_eq_false in H
  | H : bool_decide _ = true |- _ => apply bool_decide_eq_true in H
  | H : bool_decide _ = false |- _ => apply bool_decide_eq_false in H
  end.

Lemma char_eqb_refl c : char_eqb c c = true.
Proof. by apply bool_decide_eq_true. Qed.
Lemma str_eqb_refl s : str_eqb s s = true.
Proof. by apply bool_decide_eq_true. Qed.
Lemma char_eqb_ne a b : a <> b -> char_eqb a b = false.
Proof. apply bool_decide_eq_false_2. Qed.
Lemma str_eqb_ne a b : a <> b -> str_eqb a b = false.
Proof. apply bool_decide_eq_false_2. Qed.

#[export] Hint Rewrite char_eqb_refl str_eqb_refl @bind_ret : nix.

(** ** Bytes *)

Lemma byte_val_bound c : (0 <= byte_val c < 256)%Z.
Proof.
  unfold byte_val. pose proof (N_ascii_bounded c). lia.
Qed.

Lemma byte_of_val c : byte_of (byte_val c) = c.
Proof.
  unfold byte_of. rewrite Z.mod_small by apply byte_val_bound.
  unfold byte_val. rewrite N2Z.id. apply ascii_N_embedding.
Qed.

Lemma byte_val_of z : byte_val (byte_of z) = (z mod 256)%Z.
Proof.
  unfold byte_val, byte_of. pose proof (Z.mod_pos_bound z 256).
  rewrite N_ascii_embedding; [rewrite Z2N.id|]; lia.
Qed.

Lemma byte_val_of_small z : (0 <= z < 256)%Z -> byte_val (byte_of z) = z.
Proof. intros. by rewrite byte_val_of, Z.mod_small. Qed.

#[export] Instance byte_val_inj : Inj (=) (=) byte_val.
Proof. intros a b H. by rewrite <- (byte_of_val a), <- (byte_of_val b), H. Qed.

(** ** The order is total *)

#[export] Instance str_le_total : Total str_le.
Proof.
  unfold str_le. intros a. induction a as [|x a IH]; intros [|y b]; cbn; auto.
  destruct (Z.ltb_spec (byte_val x) (byte_val y)); auto.
  destruct (Z.ltb_spec (byte_val y) (byte_val x)); auto.
Qed.

#[export] Instance str_le_trans : Transitive str_le.
Proof.
  unfold str_le. intros a. induction a as [|x a IH]; intros [|y b] [|z c]; cbn; try done.
  destruct (Z.ltb_spec (byte_val x) (byte_val y)), (Z.ltb_spec (byte_val y) (byte_val z)),
    (Z.ltb_spec (byte_val x) (byte_val z)), (Z.ltb_spec (byte_val y) (byte_val x)),
    (Z.ltb_spec (byte_val z) (byte_val y)), (Z.ltb_spec (byte_val z) (byte_val x));
    try done; try lia; eauto.
Qed.

#[export] Instance str_le_antisymm : AntiSymm (=) str_le.
Proof.
  unfold str_le. intros a. induction a as [|x a IH]; intros [|y b]; cbn; try done.
  destruct (Z.ltb_spec (byte_val x) (byte_val y)),
    (Z.ltb_spec (byte_val y) (byte_val x)); try done; try lia.
  intros. f_equal; [apply (inj byte_val); lia | auto].
Qed.

Lemma str_le_refl s : str_le s s.
Proof. destruct (total str_le s s); done. Qed.

Lemma str_ltb_irrefl s : str_ltb s s = false.
Proof. unfold str_ltb. apply negb_false_iff, str_le_refl. Qed.

Lemma str_ltb_trichotomy a b : str_ltb a b = true \/ a = b \/ str_ltb b a = true.
Proof.
  unfold str_ltb. destruct (str_leb b a) eqn:H1; auto.
  destruct (str_leb a b) eqn:H2; auto.
  right; left. by apply (anti_symm str_le).
Qed.

Lemma str_ltb_trans a b c : str_ltb a b = true -> str_ltb b c = true -> str_ltb a c = true.
Proof.
  unfold str_ltb. rewrite !negb_true_iff. intros H1 H2.
  destruct (str_leb c a) eqn:H; auto.
  destruct (total str_le a b) as [Hab|Hba]; [|by unfold str_le in *; congruence].
  assert (str_le c b) as E by (by transitivity a). unfold str_le in E. congruence.
Qed.

#[export] Instance key_le_total {V} : Total (@key_le V).
Proof. intros p q. apply (total str_le). Qed.
#[export] Instance key_le_trans {V} : Transitive (@key_le V).
Proof. intros p q r. apply (transitivity (R := str_le)). Qed.

(** ** Ordered iteration visits exactly the elements *)

Lemma set_iter_perm X : set_iter X ≡ₚ elements X.
Proof. apply merge_sort_Permutation. Qed.

Lemma elem_of_set_iter x X : x ∈ set_iter X <-> x ∈ X.
Proof. rewrite set_iter_perm. apply elem_of_elements. Qed.

Lemma NoDup_set_iter X : NoDup (set_iter X).
Proof. rewrite set_iter_perm. apply NoDup_elements. Qed.

Lemma list_to_set_iter X : list_to_set (set_iter X) = X.
Proof. apply set_eq. intros x. by rewrite elem_of_list_to_set, elem_of_set_iter. Qed.

Lemma set_iter_empty : set_iter ∅ = [].
Proof. reflexivity. Qed.

Lemma map_iter_perm {V} (m : gmap str V) : map_iter m ≡ₚ map_to_list m.
Proof. apply merge_sort_Permutation. Qed.

Lemma elem_of_map_iter {V} (k : str) (v : V) (m : gmap str V) : (k, v) ∈ map_iter m <-> m !! k = Some v.
Proof. rewrite map_iter_perm. apply elem_of_map_to_list. Qed.

Lemma NoDup_map_iter {V} (m : gmap str V) : NoDup (map_iter m).*1.
Proof. rewrite map_iter_perm. apply NoDup_fst_map_to_list. Qed.

Lemma list_to_map_iter {V} (m : gmap str V) : list_to_map (map_iter m) = m.
Proof.
  symmetry. apply list_to_map_flip. symmetry. apply map_iter_perm.
Qed.

Lemma length_map_iter {V} (m : gmap str V) : length (map_iter m) = size m.
Proof. by rewrite map_iter_perm, length_map_to_list. Qed.

(** Rebuilding a map from its iteration. *)
Lemma foldl_insert {V} (l : list (str * V)) : forall m : gmap str V, NoDup l.*1 ->
  foldl (fun acc i => <[i.1 := i.2]> acc) m l = list_to_map l ∪ m.
Proof.
  induction l as [|[k v] l IH]; intros m Hnd; cbn; [by rewrite (left_id_L ∅ (∪))|].
  apply NoDup_cons in Hnd as [Hk Hnd]. rewrite IH by done. rewrite <- insert_union_l.
  symmetry. apply insert_union_r. by apply not_elem_of_list_to_map_1.
Qed.

Lemma foldl_map_iter {V} (m : gmap str V) :
  foldl (fun acc i => <[i.1 := i.2]> acc) ∅ (map_iter m) = m.
Proof.
  rewrite foldl_insert by apply NoDup_map_iter. by rewrite (right_id_L ∅ (∪)), list_to_map_iter.
Qed.

(** ** Machine integers that fit *)

Lemma u8_small z : (0 <= z < 256)%Z -> u8 z = z.
Proof. intros. unfold u8. apply Z.mod_small. lia. Qed.
Lemma u32_small z : (0 <= z < 2 ^ 32)%Z -> u32 z = z.
Proof. intros. unfold u32. apply Z.mod_small. lia. Qed.
Lemma u64_small z : (0 <= z < 2 ^ 64)%Z -> u64 z = z.
Proof. intros. unfold u64. apply Z.mod_small. lia. Qed.

(** ** Assembling an integer from shifted bytes *)

Lemma lor_shiftl_add a b k :
  (0 <= k)%Z -> (0 <= a < 2 ^ k)%Z -> Z.lor a (Z.shiftl b k) = (a + b * 2 ^ k)%Z.
Proof.
  intros Hk Ha. rewrite <- Z.shiftl_mul_pow2 by done. rewrite <- Z.add_lor_land.
  enough (Z.land a (Z.shiftl b k) = 0%Z) as -> by lia.
  apply Z.bits_inj'. intros n Hn. rewrite Z.land_spec, Z.bits_0.
  destruct (Z.lt_ge_cases n k) as [H|H].
  - by rewrite Z.shiftl_spec_low, andb_false_r.
  - rewrite <- (Z.mod_small a (2 ^ k)), Z.mod_pow2_bits_high by lia. done.
Qed.

(** The byte that [(n >> k) & 0xff] selects. *)
Lemma byte_shift n k :
  (0 <= k)%Z -> byte_val (byte_of (Z.land (Z.shiftr n k) 255)) = ((n / 2 ^ k) mod 256)%Z.
Proof.
  intros Hk. rewrite byte_val_of. change 255%Z with (Z.ones 8).
  rewrite Z.land_ones, Z.shiftr_div_pow2 by lia. by rewrite Z.mod_mod by lia.
Qed.
