(* ===== verification/Effects.v ===== *)
(** * State and exceptions

    Code that changes a shared state and may throw: unlike in [result], the state
    at the time of an exception is kept, because a handler goes on with it. *)

From Stdlib Require Import ZArith Lia Ascii.
From stdpp Require Import base strings sorting numbers gmap sets list.
From S2P Require Import Prelude.

Inductive outcome (S A : Type) : Type :=
| Done (a : A) (s : S)
| Raised (e : exn) (s : S)
| Stuck.
Arguments Done {_ _} _ _.
Arguments Raised {_ _} _ _.
Arguments Stuck {_ _}.

Definition done_b {S A} (o : outcome S A) : bool := match o with Done _ _ => true | _ => false end.

Definition M (S A : Type) : Type := S -> outcome S A.

#[export] Instance M_ret {S} : MRet (M S) := fun _ a s => Done a s.
#[export] Instance M_bind {S} : MBind (M S) := fun _ _ f m s =>
  match m s with Done a s => f a s | Raised e s => Raised e s | Stuck => Stuck end.

Section Ops.
Context {S : Type}.

Definition gets {A} (f : S -> A) : M S A := fun s => Done (f s) s.
Definition modify (f : S -> S) : M S unit := fun s => Done tt (f s).
Definition raise {A} (k : exn_class) (msg : str) : M S A := fun s => Raised (Exn k msg) s.

Definition rethrow {A} (e : exn) : M S A := fun s => Raised e s.
Definition stuck {A} : M S A := fun _ => Stuck.

(** A call that changes the state only when it succeeds. *)
Definition update (f : S -> result S) : M S unit := fun s =>
  match f s with Ok s' => Done tt s' | Throw e => Raised e s | NoFuel => Stuck end.

(** A call that does not change the state. *)
Definition lift {A} (r : S -> result A) : M S A := fun s =>
  match r s with Ok a => Done a s | Throw e => Raised e s | NoFuel => Stuck end.

(** A loop. *)
Fixpoint forM {A} (f : A -> M S unit) (l : list A) : M S unit :=
  match l with
  | [] => mret tt
  | a :: l => _ ← f a; forM f l
  end.

(** [try m catch (class & e) h] *)
Definition try_catch {A} (p : exn_class -> bool) (m : M S A) (h : exn -> M S A) : M S A := fun s =>
  match m s with
  | Raised e s => if p (exn_kind e) then h e s else Raised e s
  | o => o
  end.
End Ops.

(** The classes that [catch (Error &)] catches: not those of the C++ library, failed
    assertions, undefined behaviour and the overflow of a signed integer. *)
Definition is_Error (k : exn_class) : bool :=
  match k with eAssertion | eAbort | eOutOfRange | eBadAlloc | eUndefined | eOverflow | eBlocked => false | _ => true end.

(** Running code on a part of the state. *)
Definition zoom {S T A} (get : T -> S) (put : S -> T -> T) (m : M S A) : M T A := fun t =>
  match m (get t) with
  | Done a s => Done a (put s t)
  | Raised e s => Raised e (put s t)
  | Stuck => Stuck
  end.

(** ** Reasoning

    [triple P m Q X]: started in a state with [P], the code leaves [Q] when it
    returns and [X] when it throws.  Running out of fuel is neither; that the code
    does not is proved separately. *)

Definition triple {S A} (P : S -> Prop) (m : M S A) (Q : A -> S -> Prop) (X : exn -> S -> Prop) : Prop :=
  forall s, P s -> match m s with Done a s' => Q a s' | Raised e s' => X e s' | Stuck => True end.

Section TripleTheory.
Context {S : Type}.
Implicit Types P : S -> Prop.
Implicit Types X : exn -> S -> Prop.

Lemma triple_ret {A} P (a : A) (Q : A -> S -> Prop) X : (forall s, P s -> Q a s) -> triple P (mret a) Q X.
Proof. intros H s Hs. by apply H. Qed.

Lemma triple_bind {A B} P (m : M S A) (f : A -> M S B) R Q X :
  triple P m R X -> (forall a, triple (R a) (f a) Q X) -> triple P (m ≫= f) Q X.
Proof.
  intros Hm Hf s Hs. unfold mbind, M_bind. specialize (Hm s Hs). destruct (m s) as [a s'|e s'|]; [|done..].
  by apply Hf.
Qed.

Lemma triple_gets {A} P (f : S -> A) Q X : (forall s, P s -> Q (f s) s) -> triple P (gets f) Q X.
Proof. intros H s Hs. by apply H. Qed.

Lemma triple_modify P (f : S -> S) Q X : (forall s, P s -> Q tt (f s)) -> triple P (modify f) Q X.
Proof. intros H s Hs. by apply H. Qed.

Lemma triple_raise {A} P k msg (Q : A -> S -> Prop) X : (forall s, P s -> X (Exn k msg) s) -> triple P (raise k msg) Q X.
Proof. intros H s Hs. by apply H. Qed.

Lemma triple_lift {A} P (r : S -> result A) Q X :
  (forall s a, P s -> r s = Ok a -> Q a s) -> (forall s e, P s -> r s = Throw e -> X e s) -> triple P (lift r) Q X.
Proof. intros HQ HX s Hs. unfold lift. destruct (r s) as [a|e|] eqn:E; auto. Qed.

Lemma triple_update P (f : S -> result S) Q X :
  (forall s s', P s -> f s = Ok s' -> Q tt s') -> (forall s e, P s -> f s = Throw e -> X e s) -> triple P (update f) Q X.
Proof. intros HQ HX s Hs. unfold update. destruct (f s) as [a|e|] eqn:E; eauto. Qed.

Lemma triple_pre {A} P P' (m : M S A) Q X : triple P' m Q X -> (forall s, P s -> P' s) -> triple P m Q X.
Proof. intros Hm HP s Hs. by apply Hm, HP. Qed.

(** A fact of the precondition that does not depend on the state. *)
Lemma triple_pure {A} P (φ : Prop) (m : M S A) Q X : (φ -> triple P m Q X) -> triple (fun s => P s /\ φ) m Q X.
Proof. intros Hm s [Hs Hφ]. by apply Hm. Qed.

Lemma triple_post {A} P (m : M S A) Q Q' X : triple P m Q' X -> (forall a s, Q' a s -> Q a s) -> triple P m Q X.
Proof. intros Hm HQ s Hs. specialize (Hm s Hs). destruct (m s); auto. Qed.

Lemma triple_forM {A} P (f : A -> M S unit) l X :
  (forall a, a ∈ l -> triple P (f a) (fun _ => P) X) -> triple P (forM f l) (fun _ => P) X.
Proof.
  induction l as [|a l IH]; intros Hf; cbn [forM]; [by apply triple_ret|].
  eapply triple_bind; [apply Hf; left|]. intros []. apply IH. intros b Hb. apply Hf. by right.
Qed.

Lemma triple_try {A} P p (m : M S A) h Q X Y :
  triple P m Q Y -> (forall e, p (exn_kind e) = true -> triple (Y e) (h e) Q X) ->
  (forall e s, p (exn_kind e) = false -> Y e s -> X e s) -> triple P (try_catch p m h) Q X.
Proof.
  intros Hm Hh HX s Hs. specialize (Hm s Hs). unfold try_catch. destruct (m s) as [a s'|e s'|]; [done| |done].
  destruct (p (exn_kind e)) eqn:E; [|by apply HX]. by apply Hh.
Qed.

(** A stateful loop whose steps return. *)
Lemma forM_app {A} (f : A -> M S unit) l k s : forM f (l ++ k) s = (forM f l ≫= fun _ => forM f k) s.
Proof.
  revert s. induction l as [|a l IH]; intros s; cbn [app forM]; [done|].
  unfold mbind, M_bind in *. destruct (f a s) as [u s'|e s'|]; [|done..]. by rewrite IH.
Qed.
End TripleTheory.

(** ** Running

    Rules to execute code on a given state. *)

Section Run.
Context {S : Type}.

Lemma run_bind_Done {A B} (m : M S A) (f : A -> M S B) s b s2 : (m ≫= f) s = Done b s2 -> exists a s1, m s = Done a s1 /\ f a s1 = Done b s2.
Proof. unfold mbind, M_bind. destruct (m s) as [a s1| |]; [|done..]. eauto. Qed.
Lemma run_bind {A B} (m : M S A) (f : A -> M S B) s a s1 : m s = Done a s1 -> (m ≫= f) s = f a s1.
Proof. intros E. unfold mbind, M_bind. by rewrite E. Qed.

Lemma run_raise {A B} (m : M S A) (f : A -> M S B) s e s1 : m s = Raised e s1 -> (m ≫= f) s = Raised e s1.
Proof. intros E. unfold mbind, M_bind. by rewrite E. Qed.

Lemma run_gets {A B} (g : S -> A) (f : A -> M S B) s : (gets g ≫= f) s = f (g s) s.
Proof. done. Qed.

Lemma run_modify {B} (g : S -> S) (f : unit -> M S B) s : (modify g ≫= f) s = f tt (g s).
Proof. done. Qed.

Lemma run_ret {A B} (a : A) (f : A -> M S B) s : ((mret a : M S A) ≫= f) s = f a s.
Proof. done. Qed.

Lemma run_lift {A B} (r : S -> result A) (f : A -> M S B) s a : r s = Ok a -> (lift r ≫= f) s = f a s.
Proof. intros E. unfold mbind, M_bind, lift. by rewrite E. Qed.

Lemma run_zoom {T A} (get : T -> S) put (m : M S A) t a s : m (get t) = Done a s -> zoom get put m t = Done a (put s t).
Proof. intros E. unfold zoom. by rewrite E. Qed.
End Run.
