(* ===== verification/Util.v ===== *)
(** * String, path and ATerm helpers (src/src/libutil/util.cc, util.hh)

    Canonical paths, tokenizing and joining, number conversions, and the
    readers and writers for the quoted strings of derivation files.  The
    theorems: [canonPath] computes the normal form of a path, tokenizing
    inverts joining, quoted strings round-trip and an unterminated one is
    never finished. *)

From Stdlib Require Import ZArith Lia Ascii.
From stdpp Require Import base strings sorting numbers gmap sets list.
From S2P Require Import Prelude.

(** ** Decimal numbers *)

Definition digit_char (d : Z) : ascii := byte_of (48 + d).
Definition digit_val (c : ascii) : Z := (byte_val c - 48)%Z.

(** [ostream << n] for a non-negative [n], one decimal digit per iteration (there are
    no more of them than binary digits). *)
Fixpoint print_dec_loop (fuel : nat) (n : Z) (acc : str) : str :=
  match fuel with
  | O => acc
  | S fuel =>
      let acc := digit_char (n mod 10) :: acc in
      if (n / 10 =? 0)%Z then acc else print_dec_loop fuel (n / 10) acc
  end.
Definition print_dec (n : Z) : str := print_dec_loop (S (Z.to_nat (Z.log2 n))) n [].

(** [int2String]. *)
Definition int2String (n : Z) : str :=
  if (n <? 0)%Z then "-"%char :: print_dec (- n) else print_dec n.

(** The digits at the start of the input and their value. *)
Fixpoint scan_digits (v : Z) (s : str) : Z * str :=
  match s with
  | c :: s' => if isdigit c then scan_digits (v * 10 + digit_val c) s' else (v, s)
  | [] => (v, [])
  end.

Fixpoint skip_space (s : str) : str :=
  match s with
  | c :: s' => if isspace c then skip_space s' else s
  | [] => []
  end.

(** [istream >> n] for a signed integer type with the given bounds: skips white
    space, reads an optional sign and at least one digit; a value out of range
    sets the fail bit.  [None] is a stream that has failed. *)
Definition scan_int (lo hi : Z) (s : str) : option (Z * str) :=
  let s := skip_space s in
  let '(neg, s) :=
    match s with
    | c :: s' =>
        if char_eqb c "-"%char then (true, s')
        else if char_eqb c "+"%char then (false, s') else (false, s)
    | [] => (false, [])
    end in
  match s with
  | c :: _ =>
      if isdigit c then
        let '(v, s') := scan_digits 0 s in
        let v := if neg then (- v)%Z else v in
        if (lo <=? v)%Z && (v <=? hi)%Z then Some (v, s') else None
      else None
  | [] => None
  end.

(** [string2Int<N>]: the whole string must be consumed. *)
Definition string2Int_in (lo hi : Z) (s : str) : option Z :=
  match scan_int lo hi s with
  | Some (v, []) => Some v
  | _ => None
  end.
Definition string2Int (s : str) : option Z := string2Int_in (- 2 ^ 31) (2 ^ 31 - 1) s.

(** ** Paths *)

(** [s.erase(s.rfind('/'))]. *)
Definition erase_last (s : str) : str :=
  match str_rfind "/"%char s with Some i => take i s | None => s end.

(** [dirOf] and [baseNameOf]. *)
Definition dirOf (path : str) : result str :=
  match str_rfind "/"%char path with
  | None => error ($"invalid file name `" ++ path ++ $"'")
  | Some pos => Ok (if (pos =? 0)%nat then $"/" else take pos path)
  end.
Definition baseNameOf (path : str) : result str :=
  match str_rfind "/"%char path with
  | None => error ($"invalid file name `" ++ path ++ $"'")
  | Some pos => Ok (drop (S pos) path)
  end.

(** [path[0] == '/']. *)
Definition is_abs (path : str) : bool :=
  match path with c :: _ => char_eqb c "/"%char | [] => false end.

(** The longest prefix without a slash, and the rest. *)
Fixpoint span_slash (s : str) : str * str :=
  match s with
  | c :: s' => if char_eqb c "/"%char then ([], s) else
      let '(a, b) := span_slash s' in (c :: a, b)
  | [] => ([], [])
  end.
Fixpoint skip_slashes (s : str) : str :=
  match s with
  | c :: s' => if char_eqb c "/"%char then skip_slashes s' else s
  | [] => []
  end.

(** Whether a component ends here: at the end or before a slash. *)
Definition at_end (s : str) : bool :=
  match s with [] => true | c :: _ => char_eqb c "/"%char end.

(** The main loop of [canonPath], once per component.  [isLink] and [readLink]
    read the file system (used only when [resolve] is set); [rest] is the part
    of the path from the iterator [i] on and [s] the result so far. *)
Section CanonPath.
Context (isLink : str -> result bool) (readLink : str -> result str).

Fixpoint canonPath_loop (fuel : nat) (resolve : bool) (path : str) (followCount : nat)
    (s rest : str) : result str :=
  match fuel with
  | O => NoFuel
  | S fuel =>
      match skip_slashes rest with
      | [] => Ok (match s with [] => $"/" | _ => s end)
      | c :: r =>
          if char_eqb c "."%char && at_end r then canonPath_loop fuel resolve path followCount s r
          else if char_eqb c "."%char &&
                  match r with c2 :: r2 => char_eqb c2 "."%char && at_end r2 | [] => false end
          then
            canonPath_loop fuel resolve path followCount
              (match s with [] => s | _ => erase_last s end) (drop 1 r)
          else
            let '(comp, r') := span_slash (c :: r) in
            let s := s ++ "/"%char :: comp in
            l ← (if resolve then isLink s else Ok false);
            if (l : bool) then
              if (1024 <=? S followCount)%nat
              then error ($"infinite symlink recursion in path `" ++ path ++ $"'")
              else
                target ← readLink s;
                dir ← dirOf s;
                p ← (let path1 := if is_abs target then target else dir ++ "/"%char :: target in
                     if is_abs path1 then canonPath_loop fuel false path1 0 [] path1
                     else error ($"not an absolute path: `" ++ path1 ++ $"'"));
                canonPath_loop fuel resolve path (S followCount) [] (p ++ r')
            else canonPath_loop fuel resolve path followCount s r'
      end
  end.

(** [canonPath(path, resolveSymlinks)], with a bound on the iterations. *)
Definition canonPath_fuel (fuel : nat) (resolve : bool) (path : str) : result str :=
  if is_abs path then canonPath_loop fuel resolve path 0 [] path
  else error ($"not an absolute path: `" ++ path ++ $"'").
End CanonPath.

(** [canonPath(path)], which does not look at the file system; one iteration
    per character is enough. *)
Definition canonPath (path : str) : result str :=
  canonPath_fuel (fun _ => Ok false) (fun _ => Ok []) (S (length path)) false path.

(** [absPath(path, dir)]; [cwd] is the working directory. *)
Definition absPath (cwd path dir : str) : result str :=
  if is_abs path then canonPath path
  else
    let dir := match dir with [] => cwd | _ => dir end in
    canonPath (dir ++ "/"%char :: path).

(** ** Tokens *)

Definition is_sep (seps : str) (c : ascii) : bool := existsb (char_eqb c) seps.

(** [s.find_first_not_of(separators)] and the token up to the next separator. *)
Fixpoint skip_seps (seps s : str) : str :=
  match s with
  | c :: s' => if is_sep seps c then skip_seps seps s' else s
  | [] => []
  end.
Fixpoint span_token (seps s : str) : str * str :=
  match s with
  | c :: s' => if is_sep seps c then ([], s) else
      let '(a, b) := span_token seps s' in (c :: a, b)
  | [] => ([], [])
  end.

(** [tokenizeString]; the loop runs once per token.  The search for the end of
    a token starts one character after its start. *)
Fixpoint tokenize_loop (fuel : nat) (seps s : str) : list str :=
  match fuel with
  | O => []
  | S fuel =>
      match skip_seps seps s with
      | [] => []
      | c :: s' => let '(t, s'') := span_token seps s' in (c :: t) :: tokenize_loop fuel seps s''
      end
  end.
Definition tokenizeString (s seps : str) : list str := tokenize_loop (S (length s)) seps s.

(** [concatStringsSep]: a separator is added when the result is not empty. *)
Definition concatStringsSep (sep : str) (ss : list str) : str :=
  foldl (fun s x => (if (length s =? 0)%nat then s else s ++ sep) ++ x) [] ss.

(** [chomp]: strip trailing white space. *)
Fixpoint chomp_len (s : str) : nat :=
  match s with
  | [] => O
  | c :: s' =>
      match chomp_len s' with
      | O => if is_sep [" "%char; NL; CR; TAB] c then O else 1
      | n => S n
      end
  end.
Definition chomp (s : str) : str := take (chomp_len s) s.

(** [hasSuffix]. *)
Definition hasSuffix (s suffix : str) : bool :=
  (length suffix <=? length s)%nat && str_eqb (drop (length s - length suffix) s) suffix.

(** [s.find(a, j)] *)
Fixpoint find_str (a s : str) : option nat :=
  if decide (a `prefix_of` s) then Some 0%nat
  else match s with [] => None | _ :: s => S <$> find_str a s end.
Definition find_from (a s : str) (j : nat) : option nat :=
  if (j <=? length s)%nat then Nat.add j <$> find_str a (drop j s) else None.

(** [statusOk] and [statusToString] of a [wait] status: the low seven bits are
    the signal (0: exited, 127: stopped), the next eight the exit code.
    [strsignal] is a parameter. *)
Definition WIFEXITED (st : Z) : bool := (Z.land st 127 =? 0)%Z.
Definition WEXITSTATUS (st : Z) : Z := Z.land (Z.shiftr st 8) 255.
Definition WTERMSIG (st : Z) : Z := Z.land st 127.
Definition WIFSIGNALED (st : Z) : bool :=
  negb (WTERMSIG st =? 0)%Z && negb (WTERMSIG st =? 127)%Z.
Definition statusOk (st : Z) : bool := WIFEXITED st && (WEXITSTATUS st =? 0)%Z.
Definition statusToString (strsignal : Z -> str) (st : Z) : str :=
  if negb (WIFEXITED st) || negb (WEXITSTATUS st =? 0)%Z then
    if WIFEXITED st then $"failed with exit code " ++ int2String (WEXITSTATUS st)
    else if WIFSIGNALED st then
      $"failed due to signal " ++ int2String (WTERMSIG st) ++ $" (" ++ strsignal (WTERMSIG st) ++ $")"
    else $"died abnormally"
  else $"succeeded".

(** ** Streams of characters *)

(** [str.get()]: [None] is [EOF]; the stream stays at its end. *)
Definition get (s : str) : option ascii * str :=
  match s with [] => (None, []) | c :: s => (Some c, s) end.

(** [expect].  After a short read part of the buffer is uninitialised; the
    comparison is taken to fail. *)
Definition expect (t : str) (s : str) : result str :=
  if str_eqb (take (length t) s) t then Ok (drop (length t) s)
  else error ($"expected string `" ++ t ++ $"'").

(** What [res += c] appends: [EOF] is -1, so the character 255. *)
Definition char_of_get (c : option ascii) : ascii :=
  match c with Some c => c | None => byte_of 255 end.

(** The loop of [parseString], once per iteration. *)
Fixpoint parseString_loop (fuel : nat) (res s : str) : result (str * str) :=
  match fuel with
  | O => NoFuel
  | S fuel =>
      let '(c, s) := get s in
      if bool_decide (c = Some DQUOTE) then Ok (res, s)
      else if bool_decide (c = Some BSLASH) then
        let '(c, s) := get s in
        let x :=
          if bool_decide (c = Some "n"%char) then NL
          else if bool_decide (c = Some "r"%char) then CR
          else if bool_decide (c = Some "t"%char) then TAB
          else char_of_get c in
        parseString_loop fuel (res ++ [x]) s
      else parseString_loop fuel (res ++ [char_of_get c]) s
  end.

(** [parseString]; one iteration per remaining character is enough when there
    is a closing quote. *)
Definition parseString (s : str) : result (str * str) :=
  s ← expect [DQUOTE] s;
  parseString_loop (length s) [] s.

(** [endOfList]. *)
Definition endOfList (s : str) : bool * str :=
  match s with
  | c :: s' =>
      if char_eqb c ","%char then (false, s')
      else if char_eqb c "]"%char then (true, s')
      else (false, s)
  | [] => (false, [])
  end.

(** [decodeOctalEscaped]. *)
Fixpoint octal_digits (c : Z) (s : str) : Z * str :=
  match s with
  | d :: s' => if in_range 48 55 d then octal_digits (u8 (c * 8 + (byte_val d - 48))) s' else (c, s)
  | [] => (c, [])
  end.
Fixpoint decodeOctal_loop (fuel : nat) (r s : str) : str :=
  match fuel with
  | O => r
  | S fuel =>
      match s with
      | [] => r
      | c :: s' =>
          if negb (char_eqb c BSLASH) then decodeOctal_loop fuel (r ++ [c]) s'
          else
            let '(v, s'') := octal_digits 0 s' in
            decodeOctal_loop fuel (r ++ [byte_of v]) s''
      end
  end.
Definition decodeOctalEscaped (s : str) : str := decodeOctal_loop (length s) [] s.

(** * Tokenizing *)

Definition token (seps t : str) : Prop := t <> [] /\ Forall (fun c => is_sep seps c = false) t.

Lemma skip_seps_length seps s : (length (skip_seps seps s) <= length s)%nat.
Proof. induction s as [|c s IH]; cbn; [lia|]. destruct (is_sep seps c); cbn; lia. Qed.

Lemma span_token_spec seps s t r :
  span_token seps s = (t, r) -> s = t ++ r /\ Forall (fun c => is_sep seps c = false) t /\
    match r with [] => True | c :: _ => is_sep seps c = true end.
Proof.
  revert t r. induction s as [|c s IH]; cbn; intros t r E; [by simplify_eq|].
  destruct (is_sep seps c) eqn:Hc; [by simplify_eq|].
  destruct (span_token seps s) as [a b]. simplify_eq.
  destruct (IH _ _ eq_refl) as (-> & Ht & Hr). split_and!; [done|by constructor|done].
Qed.

Lemma skip_seps_head seps s :
  match skip_seps seps s with [] => True | c :: _ => is_sep seps c = false end.
Proof. induction s as [|c s IH]; cbn; [done|]. by destruct (is_sep seps c) eqn:?. Qed.

Lemma tokenize_loop_fuel seps s fuel fuel' :
  (length s < fuel)%nat -> (length s < fuel')%nat ->
  tokenize_loop fuel seps s = tokenize_loop fuel' seps s.
Proof.
  revert s fuel'. induction fuel as [|fuel IH]; intros s [|fuel'] H1 H2; try lia. cbn.
  pose proof (skip_seps_length seps s) as Hl. destruct (skip_seps seps s) as [|c s']; [done|].
  destruct (span_token seps s') as [t r] eqn:E. apply span_token_spec in E as (-> & _).
  cbn in Hl. rewrite length_app in Hl. f_equal. apply IH; lia.
Qed.

Lemma tokenizeString_unfold s seps :
  tokenizeString s seps =
    match skip_seps seps s with
    | [] => []
    | c :: s' => let '(t, s'') := span_token seps s' in (c :: t) :: tokenizeString s'' seps
    end.
Proof.
  unfold tokenizeString at 1. cbn [tokenize_loop].
  pose proof (skip_seps_length seps s) as Hl. destruct (skip_seps seps s) as [|c s']; [done|].
  destruct (span_token seps s') as [t r] eqn:E. apply span_token_spec in E as (-> & _).
  cbn in Hl. rewrite length_app in Hl. f_equal. apply tokenize_loop_fuel; lia.
Qed.

Lemma tokenize_tokens s seps : Forall (token seps) (tokenizeString s seps).
Proof.
  induction s as [s IH] using (induction_ltof1 _ (@length ascii)). unfold ltof in IH.
  rewrite tokenizeString_unfold.
  pose proof (skip_seps_length seps s) as Hl. pose proof (skip_seps_head seps s) as Hh.
  destruct (skip_seps seps s) as [|c s']; [done|].
  destruct (span_token seps s') as [t r] eqn:E. apply span_token_spec in E as (-> & Ht & _).
  cbn in Hl. rewrite length_app in Hl. constructor; [|apply IH; lia]. split; [done|by constructor].
Qed.

Lemma span_token_app seps t r :
  Forall (fun c => is_sep seps c = false) t ->
  match r with [] => True | c :: _ => is_sep seps c = true end ->
  span_token seps (t ++ r) = (t, r).
Proof.
  intros Ht Hr. induction Ht as [|c t Hc Ht IH]; cbn.
  - destruct r as [|c r]; [done|]. cbn. by rewrite Hr.
  - by rewrite Hc, IH.
Qed.

Lemma tokenize_cons seps t r :
  token seps t -> match r with [] => True | c :: _ => is_sep seps c = true end ->
  tokenizeString (t ++ r) seps = t :: tokenizeString r seps.
Proof.
  intros [Hne Ht] Hr. destruct t as [|c t]; [done|]. apply Forall_cons in Ht as [Hc Ht].
  rewrite tokenizeString_unfold. cbn [app skip_seps]. rewrite Hc.
  by rewrite span_token_app.
Qed.

Lemma tokenize_sep seps c r :
  is_sep seps c = true -> tokenizeString (c :: r) seps = tokenizeString r seps.
Proof. intros Hc. rewrite !tokenizeString_unfold. cbn [skip_seps]. by rewrite Hc. Qed.

Lemma is_sep_self c : is_sep [c] c = true.
Proof. unfold is_sep. cbn. by rewrite char_eqb_refl. Qed.

Lemma concatStringsSep_nonempty (sep acc : str) (ss : list str) :
  acc <> [] -> foldl (fun s x => (if (length s =? 0)%nat then s else s ++ sep) ++ x) acc ss
    = acc ++ concat (map (fun x => sep ++ x) ss).
Proof.
  revert acc. induction ss as [|x ss IH]; intros acc Hacc; cbn; [by rewrite app_nil_r|].
  destruct (Nat.eqb_spec (length acc) 0) as [Hl|Hl]; [by destruct acc|].
  rewrite IH; [by rewrite <- !app_assoc|]. by destruct acc.
Qed.

Lemma concatStringsSep_cons (sep x : str) (ss : list str) :
  x <> [] -> concatStringsSep sep (x :: ss) = x ++ concat (map (fun x => sep ++ x) ss).
Proof. intros Hx. unfold concatStringsSep. cbn. by apply concatStringsSep_nonempty. Qed.

Lemma tokenize_seps c (ss : list str) :
  Forall (token [c]) ss ->
  tokenizeString (concat (map (fun x => c :: x) ss)) [c] = ss.
Proof.
  induction 1 as [|x ss Hx Hss IH]; cbn [map concat]; [done|].
  cbn [app]. rewrite tokenize_sep by apply is_sep_self. rewrite tokenize_cons, IH; [done|done|].
  destruct ss; cbn; [done|]. apply is_sep_self.
Qed.

Lemma tokenize_concat c ss :
  Forall (token [c]) ss -> tokenizeString (concatStringsSep [c] ss) [c] = ss.
Proof.
  intros Hss. destruct Hss as [|x ss Hx Hss]; [done|].
  rewrite concatStringsSep_cons by apply Hx. cbn [app].
  rewrite tokenize_cons, tokenize_seps; [done|done|done|].
  destruct ss; cbn; [done|]. apply is_sep_self.
Qed.

(** Tokenizing inverts joining: tokens without the separator are recovered
    from the joined string, every tokenizing result consists of such tokens,
    and an empty leading string is dropped together with its separator. *)
Theorem tokenize_concatStringsSep c ss s :
  Forall (token [c]) ss ->
  tokenizeString (concatStringsSep [c] ss) [c] = ss /\
  Forall (token [c]) (tokenizeString s [c]) /\
  concatStringsSep [c] ([] :: ss) = concatStringsSep [c] ss.
Proof. intros Hss. split_and!; [by apply tokenize_concat|apply tokenize_tokens|done]. Qed.

Lemma tokenize_concatStringsSep_witness :
  Forall (token ["/"%char]) [$"nix"; $"store"] /\
  tokenizeString (concatStringsSep ["/"%char] [$"nix"; $"store"]) ["/"%char] = [$"nix"; $"store"].
Proof.
  assert (H : Forall (token ["/"%char]) [$"nix"; $"store"]) by (repeat constructor; done).
  split; [exact H|exact (proj1 (tokenize_concatStringsSep _ _ [] H))].
Defined.

(** * Canonical paths *)

Abbreviation slash := "/"%char (only parsing).

(** The meaning of a path: its components, read left to right, with [.] ignored
    and [..] deleting the component before it. *)
Definition norm_step (comps : list str) (c : str) : list str :=
  if str_eqb c ($".") then comps
  else if str_eqb c ($"..") then take (length comps - 1) comps
  else comps ++ [c].
Definition path_components (path : str) : list str :=
  foldl norm_step [] (tokenizeString path [slash]).

(** A list of components as an absolute path; the root is a single slash. *)
Definition render (comps : list str) : str := concat (map (fun c => slash :: c) comps).
Definition render_path (comps : list str) : str :=
  match comps with [] => $"/" | _ => render comps end.

Definition normal_component (c : str) : Prop := token [slash] c /\ c <> $"." /\ c <> $"..".

Lemma is_sep_slash c : is_sep [slash] c = char_eqb c slash.
Proof. unfold is_sep. cbn. apply orb_false_r. Qed.

Lemma skip_slashes_seps s : skip_slashes s = skip_seps [slash] s.
Proof. induction s as [|c s IH]; cbn [skip_slashes skip_seps]; [done|]. by rewrite is_sep_slash, IH. Qed.

Lemma span_slash_token s : span_slash s = span_token [slash] s.
Proof. induction s as [|c s IH]; cbn [span_slash span_token]; [done|]. by rewrite is_sep_slash, IH. Qed.

Lemma at_end_sep s :
  at_end s = true <-> match s with [] => True | c :: _ => is_sep [slash] c = true end.
Proof. destruct s as [|c s]; cbn [at_end]; [done|]. by rewrite is_sep_slash. Qed.

Lemma str_rfind_app c a b :
  Forall (fun x => char_eqb x c = false) b -> str_rfind c (a ++ c :: b) = Some (length a).
Proof.
  intros Hb. assert (str_rfind c b = None) as E.
  { induction Hb as [|x b Hx Hb IH]; cbn; [done|]. by rewrite IH, Hx. }
  induction a as [|x a IH]; cbn; [by rewrite E, char_eqb_refl|by rewrite IH].
Qed.

Lemma token_noslash c : token [slash] c -> Forall (fun x => char_eqb x slash = false) c.
Proof. intros [_ H]. eapply Forall_impl; [exact H|]. intros x. cbv beta. by rewrite is_sep_slash. Qed.

Lemma render_snoc comps c : render (comps ++ [c]) = render comps ++ slash :: c.
Proof. unfold render. rewrite map_app, concat_app. cbn. by rewrite app_nil_r. Qed.

Lemma render_nil comps : render comps = [] -> comps = [].
Proof. by destruct comps. Qed.

Lemma erase_last_render comps :
  Forall (token [slash]) comps -> comps <> [] ->
  erase_last (render comps) = render (take (length comps - 1) comps).
Proof.
  intros Hc Hne. destruct comps as [|c comps _] using rev_ind; [done|].
  apply Forall_app in Hc as [_ Hc]. apply Forall_cons in Hc as [Hc _].
  rewrite length_app, render_snoc. cbn [length]. replace (_ - 1)%nat with (length comps) by lia.
  rewrite take_app_length. unfold erase_last.
  by rewrite str_rfind_app, take_app_length by by apply token_noslash.
Qed.

Lemma norm_step_tokens comps c :
  Forall (token [slash]) comps -> token [slash] c -> Forall (token [slash]) (norm_step comps c).
Proof.
  intros Hcs Hc. unfold norm_step. repeat case_match; auto.
  - by apply Forall_take.
  - by apply Forall_app_2; repeat constructor; auto; apply Hc.
Qed.

Lemma norm_step_normal comps c :
  Forall normal_component comps -> token [slash] c -> Forall normal_component (norm_step comps c).
Proof.
  intros Hcs Hc. unfold norm_step. repeat case_match; auto; reflect.
  - by apply Forall_take.
  - apply Forall_app_2; [done|]. constructor; [|done]. done.
Qed.

Lemma foldl_norm_normal comps ts :
  Forall normal_component comps -> Forall (token [slash]) ts ->
  Forall normal_component (foldl norm_step comps ts).
Proof.
  intros Hcs Hts. revert comps Hcs. induction Hts as [|t ts Ht Hts IH]; intros comps Hcs; cbn; [done|].
  by apply IH, norm_step_normal.
Qed.

Lemma path_components_normal path : Forall normal_component (path_components path).
Proof. apply foldl_norm_normal; [done|apply tokenize_tokens]. Qed.

Lemma foldl_norm_id comps ts :
  Forall normal_component ts -> foldl norm_step comps ts = comps ++ ts.
Proof.
  intros Hts. revert comps. induction Hts as [|t ts (Ht & H1 & H2) Hts IH]; intros comps; cbn.
  - by rewrite app_nil_r.
  - unfold norm_step at 2. rewrite !str_eqb_ne by done. by rewrite IH, <- app_assoc.
Qed.

Lemma tokenize_render comps :
  Forall (token [slash]) comps -> tokenizeString (render_path comps) [slash] = comps.
Proof.
  intros Hc. destruct comps as [|c comps]; [reflexivity|]. by apply tokenize_seps.
Qed.

Lemma path_components_render comps :
  Forall normal_component comps -> path_components (render_path comps) = comps.
Proof.
  intros Hc. unfold path_components. rewrite tokenize_render by (by eapply Forall_impl; [exact Hc|intros ? []]).
  by rewrite foldl_norm_id.
Qed.

(** The tests of the loop for [.] and [..] recognise exactly these tokens. *)
Lemma dot_test c r t r' :
  is_sep [slash] c = false -> span_token [slash] (c :: r) = (t, r') ->
  char_eqb c "."%char && at_end r = str_eqb t ($".") /\
  (str_eqb t ($".") = true -> r' = r).
Proof.
  intros Hc E. cbn [span_token] in E. rewrite Hc in E.
  destruct (span_token [slash] r) as [a b] eqn:Er. simplify_eq.
  apply span_token_spec in Er as (-> & Ha & Hb). split.
  - apply eq_true_iff_eq. rewrite andb_true_iff, at_end_sep. unfold char_eqb, str_eqb.
    rewrite !bool_decide_eq_true. split.
    + intros [-> Hab]. destruct a as [|x a]; [done|]. apply Forall_cons in Ha as [Hx _]. cbn [app] in Hab. congruence.
    + intros [= -> ->]. done.
  - intros H. reflect. by injection H as -> ->.
Qed.

Lemma dotdot_test c r t r' :
  is_sep [slash] c = false -> span_token [slash] (c :: r) = (t, r') ->
  char_eqb c "."%char &&
    match r with c2 :: r2 => char_eqb c2 "."%char && at_end r2 | [] => false end
    = str_eqb t ($"..") /\
  (str_eqb t ($"..") = true -> r' = drop 1 r).
Proof.
  intros Hc E. cbn [span_token] in E. rewrite Hc in E.
  destruct (span_token [slash] r) as [a b] eqn:Er. simplify_eq.
  split.
  - destruct r as [|c2 r2]; cbn [span_token] in Er.
    { simplify_eq. rewrite andb_false_r. symmetry. by apply bool_decide_eq_false. }
    destruct (is_sep [slash] c2) eqn:Hc2.
    { simplify_eq. rewrite is_sep_slash in Hc2. reflect. subst. rewrite andb_false_r.
      symmetry. by apply bool_decide_eq_false. }
    destruct (dot_test c2 r2 a r' Hc2) as [-> _]; [by cbn [span_token]; rewrite Hc2|].
    apply eq_true_iff_eq. rewrite andb_true_iff. unfold char_eqb, str_eqb.
    rewrite !bool_decide_eq_true. split; [by intros [-> ->]|by intros [= -> ->]].
  - intros H. reflect. injection H as -> ->. by apply span_token_spec in Er as (-> & _).
Qed.

Lemma canonPath_loop_spec isLink readLink fuel path n comps rest :
  (length rest < fuel)%nat -> Forall (token [slash]) comps ->
  canonPath_loop isLink readLink fuel false path n (render comps) rest =
    Ok (render_path (foldl norm_step comps (tokenizeString rest [slash]))).
Proof.
  revert rest comps. induction fuel as [|fuel IH]; intros rest comps Hl Hcs; [lia|].
  cbn [canonPath_loop]. rewrite skip_slashes_seps, tokenizeString_unfold.
  pose proof (skip_seps_length [slash] rest) as Hs. pose proof (skip_seps_head [slash] rest) as Hh.
  destruct (skip_seps [slash] rest) as [|c r].
  { cbn [foldl]. unfold render_path. destruct comps; [done|]. done. }
  destruct (span_token [slash] (c :: r)) as [t r'] eqn:Et.
  destruct (dot_test _ _ _ _ Hh Et) as [-> Hdot], (dotdot_test _ _ _ _ Hh Et) as [-> Hdd].
  rewrite span_slash_token, Et. pose proof (span_token_spec _ _ _ _ Et) as (Hcr & Htok & _).
  cbn [span_token] in Et. rewrite Hh in Et. destruct (span_token [slash] r) as [a b] eqn:Er.
  simplify_eq. cbn [foldl]. apply (f_equal length) in Hcr. rewrite length_app in Hcr. cbn [length] in *.
  assert (token [slash] (c :: a)) as Ht by done.
  unfold norm_step at 2. cbn [andb].
  destruct (str_eqb (c :: a) ($".")) eqn:E1.
  { specialize (Hdot eq_refl) as ->. rewrite IH; [done|lia|done]. }
  destruct (str_eqb (c :: a) ($"..")) eqn:E2.
  { specialize (Hdd eq_refl) as <-. rewrite <- IH; [|lia|by apply Forall_take]. f_equal.
    destruct comps as [|c1 comps]; [done|]. rewrite erase_last_render; [|done|done].
    by destruct (render (c1 :: comps)) eqn:?. }
  rewrite <- render_snoc. rewrite IH; [done|lia|].
  by apply Forall_app_2; [|constructor].
Qed.

(** Resolving symbolic links changes nothing when there are none on the way. *)
Lemma canonPath_loop_nolinks isLink readLink fuel path n comps rest :
  (length rest < fuel)%nat -> Forall normal_component (tokenizeString rest [slash]) ->
  (forall a b, comps ++ tokenizeString rest [slash] = a ++ b -> a <> [] -> isLink (render a) = Ok false) ->
  canonPath_loop isLink readLink fuel true path n (render comps) rest = canonPath_loop isLink readLink fuel false path n (render comps) rest.
Proof.
  revert rest comps. induction fuel as [|fuel IH]; intros rest comps Hl Hn Hlink; [lia|].
  cbn [canonPath_loop]. rewrite skip_slashes_seps. rewrite tokenizeString_unfold in Hn, Hlink.
  pose proof (skip_seps_length [slash] rest) as Hs. pose proof (skip_seps_head [slash] rest) as Hh.
  destruct (skip_seps [slash] rest) as [|c r]; [done|].
  destruct (span_token [slash] (c :: r)) as [t r'] eqn:Et.
  destruct (dot_test _ _ _ _ Hh Et) as [-> _], (dotdot_test _ _ _ _ Hh Et) as [-> _].
  rewrite span_slash_token, Et. pose proof (span_token_spec _ _ _ _ Et) as (Hcr & Htok & _).
  apply (f_equal length) in Hcr. rewrite length_app in Hcr. cbn [length] in *.
  cbn [span_token] in Et. rewrite Hh in Et. destruct (span_token [slash] r) as [a b] eqn:Er. simplify_eq. cbn [length] in *.
  apply Forall_cons in Hn as [Hc Hn]. destruct Hc as (_ & Hd & Hdd).
  rewrite !str_eqb_ne by done. cbn [andb]. rewrite <- render_snoc.
  rewrite (Hlink (comps ++ [c :: a]) (tokenizeString r' [slash])); [|by rewrite <- app_assoc|by destruct comps].
  cbn [mbind result_bind]. apply IH; [lia|done|]. intros x y. rewrite <- app_assoc. apply Hlink.
Qed.

Lemma canonPath_abs path :
  is_abs path = true -> canonPath path = Ok (render_path (path_components path)).
Proof.
  intros H. unfold canonPath, canonPath_fuel. rewrite H.
  apply (canonPath_loop_spec _ _ _ _ _ [] path); [lia|constructor].
Qed.

Lemma is_abs_render comps : is_abs (render_path comps) = true.
Proof. by destruct comps. Qed.

(** [canonPath] is a normal-form function: it returns exactly for absolute
    paths, the result is the rendering of the path's components (no empty, [.] or
    [..] component is left, and [..] has deleted the component before it), and a
    second application changes nothing; a relative path is an [Error]. *)
Theorem canonPath_normal_form path :
  match canonPath path with
  | Ok p =>
      is_abs path = true /\ p = render_path (path_components path) /\
      Forall normal_component (path_components path) /\ canonPath p = Ok p
  | Throw e => is_abs path = false /\ exn_kind e = eError
  | NoFuel => False
  end.
Proof.
  destruct (is_abs path) eqn:H.
  - rewrite canonPath_abs by done. split_and!; [done|done|apply path_components_normal|].
    rewrite canonPath_abs by apply is_abs_render.
    by rewrite path_components_render by apply path_components_normal.
  - unfold canonPath, canonPath_fuel. by rewrite H.
Qed.

(** On a canonical path [dirOf] drops and [baseNameOf] returns the last
    component. *)
Theorem dirOf_baseNameOf comps c :
  Forall normal_component comps -> normal_component c ->
  dirOf (render_path (comps ++ [c])) = Ok (render_path comps) /\
  baseNameOf (render_path (comps ++ [c])) = Ok c.
Proof.
  intros Hcs [Hc _].
  assert (render_path (comps ++ [c]) = render comps ++ slash :: c) as ->.
  { rewrite <- render_snoc. by destruct comps. }
  unfold dirOf, baseNameOf. rewrite str_rfind_app by by apply token_noslash. split.
  - f_equal. rewrite take_app_length. unfold render_path. by destruct comps.
  - f_equal. rewrite drop_app_ge by lia. by replace (S _ - _)%nat with 1%nat by lia.
Qed.

Lemma dirOf_baseNameOf_witness :
  dirOf ($"/nix/store") = Ok ($"/nix") /\ baseNameOf ($"/nix/store") = Ok ($"store").
Proof.
  apply (dirOf_baseNameOf [$"nix"] ($"store")); repeat constructor; done.
Defined.

(** * Numbers *)

Definition dec_val (v : Z) (ds : str) : Z := foldl (fun v c => v * 10 + digit_val c)%Z v ds.

Lemma isdigit_digit_char d : (0 <= d < 10)%Z -> isdigit (digit_char d) = true.
Proof.
  intros. unfold isdigit, in_range, digit_char. rewrite byte_val_of_small by lia.
  apply andb_true_iff. split; apply Z.leb_le; lia.
Qed.

Lemma digit_val_char d : (0 <= d < 10)%Z -> digit_val (digit_char d) = d.
Proof. intros. unfold digit_val, digit_char. rewrite byte_val_of_small; lia. Qed.

Lemma digit_val_bound c : isdigit c = true -> (0 <= digit_val c < 10)%Z.
Proof. unfold isdigit, in_range, digit_val. intros. reflect. lia. Qed.

Lemma print_dec_loop_spec fuel n acc :
  (0 <= n < 2 ^ Z.of_nat fuel)%Z -> (0 < fuel)%nat ->
  exists ds, print_dec_loop fuel n acc = ds ++ acc /\ ds <> [] /\
    Forall (fun c => isdigit c = true) ds /\ dec_val 0 ds = n.
Proof.
  revert n acc. induction fuel as [|fuel IH]; intros n acc Hn Hf; [lia|]. cbn [print_dec_loop].
  pose proof (Z.mod_pos_bound n 10 ltac:(lia)) as Hm. pose proof (Z.div_mod n 10 ltac:(lia)) as Hd.
  destruct (Z.eqb_spec (n / 10) 0) as [H0|H0].
  - exists [digit_char (n mod 10)]. split_and!; [done|done| |].
    + constructor; [by apply isdigit_digit_char|done].
    + cbn. rewrite digit_val_char; lia.
  - rewrite Nat2Z.inj_succ, Z.pow_succ_r in Hn by lia.
    assert (0 <= n / 10)%Z by (apply Z.div_pos; lia).
    destruct (IH (n / 10)%Z (digit_char (n mod 10) :: acc)) as (ds & -> & Hne & Hds & Hv).
    + lia.
    + destruct fuel; [|lia]. change (2 ^ Z.of_nat 0)%Z with 1%Z in Hn. lia.
    + exists (ds ++ [digit_char (n mod 10)]). split_and!.
      * by rewrite <- app_assoc.
      * by destruct ds.
      * apply Forall_app_2; [done|]. constructor; [by apply isdigit_digit_char|done].
      * unfold dec_val. rewrite foldl_app. fold (dec_val 0 ds). cbn.
        rewrite digit_val_char by done. rewrite Hv. lia.
Qed.

Lemma print_dec_spec n :
  (0 <= n)%Z -> print_dec n <> [] /\ Forall (fun c => isdigit c = true) (print_dec n) /\
    dec_val 0 (print_dec n) = n.
Proof.
  intros Hn. unfold print_dec.
  destruct (print_dec_loop_spec (S (Z.to_nat (Z.log2 n))) n []) as (ds & -> & H); [|lia|].
  - split; [done|]. rewrite Nat2Z.inj_succ, Z2Nat.id by apply Z.log2_nonneg.
    destruct (Z.eq_dec n 0%Z) as [-> |]; [done|]. apply Z.log2_spec. lia.
  - by rewrite app_nil_r.
Qed.

Lemma scan_digits_app v ds r :
  Forall (fun c => isdigit c = true) ds ->
  match r with c :: _ => isdigit c = false | [] => True end ->
  scan_digits v (ds ++ r) = (dec_val v ds, r).
Proof.
  intros Hds Hr. revert v. induction Hds as [|c ds Hc Hds IH]; intros v; cbn.
  - destruct r as [|c r]; [done|]. cbn. by rewrite Hr.
  - by rewrite Hc, IH.
Qed.

Lemma isdigit_range c : isdigit c = true -> (48 <= byte_val c <= 57)%Z.
Proof. unfold isdigit, in_range. intros. by reflect. Qed.

Lemma isdigit_isspace c : isdigit c = true -> isspace c = false.
Proof.
  intros H%isdigit_range. unfold isspace, in_range.
  destruct (Z.leb_spec 9 (byte_val c)), (Z.leb_spec (byte_val c) 13), (Z.leb_spec 32 (byte_val c)),
    (Z.leb_spec (byte_val c) 32); try done; lia.
Qed.

Lemma isdigit_sign c : isdigit c = true -> char_eqb c "-"%char = false /\ char_eqb c "+"%char = false.
Proof.
  intros H%isdigit_range. split; apply char_eqb_ne; intros ->; by apply (proj1 H).
Qed.

(** A digit string is read as its value, in range or not. *)
Lemma scan_int_digits lo hi ds :
  ds <> [] -> Forall (fun c => isdigit c = true) ds ->
  scan_int lo hi ds =
    if (lo <=? dec_val 0 ds)%Z && (dec_val 0 ds <=? hi)%Z then Some (dec_val 0 ds, []) else None.
Proof.
  intros Hne Hds. destruct ds as [|c ds]; [done|]. pose proof Hds as [Hc _]%Forall_cons.
  destruct (isdigit_sign c Hc) as [E1 E2]. unfold scan_int.
  cbn [skip_space]. rewrite isdigit_isspace, E1, E2, Hc by done.
  pose proof (scan_digits_app 0 (c :: ds) [] Hds I) as E. rewrite app_nil_r in E. by rewrite E.
Qed.

Lemma scan_int_neg lo hi ds :
  ds <> [] -> Forall (fun c => isdigit c = true) ds ->
  scan_int lo hi ("-"%char :: ds) =
    if (lo <=? - dec_val 0 ds)%Z && (- dec_val 0 ds <=? hi)%Z then Some ((- dec_val 0 ds)%Z, []) else None.
Proof.
  intros Hne Hds. destruct ds as [|c ds]; [done|]. pose proof Hds as [Hc _]%Forall_cons.
  unfold scan_int. cbn [skip_space]. change (isspace "-") with false. cbv iota.
  rewrite char_eqb_refl, Hc.
  pose proof (scan_digits_app 0 (c :: ds) [] Hds I) as E. rewrite app_nil_r in E. by rewrite E.
Qed.

Lemma string2Int_digits ds :
  ds <> [] -> Forall (fun c => isdigit c = true) ds ->
  string2Int ds = if (- 2 ^ 31 <=? dec_val 0 ds)%Z && (dec_val 0 ds <=? 2 ^ 31 - 1)%Z
                  then Some (dec_val 0 ds) else None.
Proof.
  intros Hne Hds. unfold string2Int, string2Int_in. rewrite scan_int_digits by done. by destruct (_ && _).
Qed.

Lemma string2Int_int2String n lo hi :
  (lo <= n <= hi)%Z -> string2Int_in lo hi (int2String n) = Some n.
Proof.
  intros Hn. unfold int2String, string2Int_in. destruct (Z.ltb_spec n 0) as [H|H].
  - destruct (print_dec_spec (- n)%Z) as (Hne & Hds & Hv); [lia|].
    rewrite scan_int_neg, Hv, Z.opp_involutive by done.
    rewrite (proj2 (Z.leb_le lo n)), (proj2 (Z.leb_le n hi)) by lia. done.
  - destruct (print_dec_spec n) as (Hne & Hds & Hv); [lia|].
    rewrite scan_int_digits, Hv by done.
    rewrite (proj2 (Z.leb_le lo n)), (proj2 (Z.leb_le n hi)) by lia. done.
Qed.

(** [string2Int] reads back what [int2String] prints, for every [int]; and a
    string of digits whose value does not fit an [int] is not a number to it. *)
Theorem int_roundtrip n ds :
  (- 2 ^ 31 <= n < 2 ^ 31)%Z ->
  ds <> [] -> Forall (fun c => isdigit c = true) ds -> (2 ^ 31 <= dec_val 0 ds)%Z ->
  string2Int (int2String n) = Some n /\ string2Int ds = None.
Proof.
  intros Hn Hne Hds Hv. split; [apply string2Int_int2String; lia|].
  rewrite string2Int_digits by done. rewrite (proj2 (Z.leb_gt _ (2 ^ 31 - 1))) by lia.
  by rewrite andb_false_r.
Qed.

Lemma int_roundtrip_witness :
  string2Int (int2String (-42)) = Some (-42)%Z /\ string2Int ($"2147483648") = None.
Proof.
  apply int_roundtrip; [lia|done| |vm_compute; discriminate].
  repeat (constructor; [reflexivity|]). constructor.
Defined.

(** * Substrings *)

Lemma find_str_Some a s : forall k, find_str a s = Some k -> a `prefix_of` drop k s /\ (k <= length s)%nat /\ forall m, (m < k)%nat -> ~ a `prefix_of` drop m s.
Proof.
  induction s as [|c s IH]; intros k; cbn [find_str]; destruct (decide _) as [Hp|Hp].
  - intros [= <-]. rewrite drop_0. split_and!; [done|cbn; lia|lia].
  - done.
  - intros [= <-]. rewrite drop_0. split_and!; [done|lia|lia].
  - destruct (find_str a s) as [n|]; [|done]. intros [= <-]. destruct (IH n eq_refl) as (H1 & H2 & H3). split_and!; [done|cbn; lia|].
    intros [|m] Hm; [done|]. apply H3. lia.
Qed.

Lemma find_from_Some a s j k : find_from a s j = Some k ->
  (j <= k)%nat /\ (k <= length s)%nat /\ a `prefix_of` drop k s /\ forall m, (j <= m < k)%nat -> ~ a `prefix_of` drop m s.
Proof.
  unfold find_from. destruct (Nat.leb_spec j (length s)) as [Hj|]; [|done]. destruct (find_str a (drop j s)) as [n|] eqn:Ef; [|done]. intros [= <-].
  destruct (find_str_Some _ _ _ Ef) as (H1 & H2 & H3). rewrite drop_drop in H1. rewrite length_drop in H2. split_and!; [lia|lia|done|].
  intros m Hm. specialize (H3 (m - j)%nat ltac:(lia)). rewrite drop_drop in H3. by replace (j + (m - j))%nat with m in H3 by lia.
Qed.

(** * Quoted strings *)

(** Whether an unescaped quote follows. *)
Fixpoint closes_loop (escaped : bool) (s : str) : bool :=
  match s with
  | [] => false
  | c :: s =>
      if escaped then closes_loop false s
      else if char_eqb c DQUOTE then true
      else closes_loop (char_eqb c BSLASH) s
  end.
Definition closes (s : str) : bool := closes_loop false s.

Lemma closes_cons c s :
  closes (c :: s) =
    if char_eqb c DQUOTE then true
    else if char_eqb c BSLASH then closes (drop 1 s) else closes s.
Proof.
  unfold closes. cbn [closes_loop]. case_match; [done|].
  destruct (char_eqb c BSLASH); [|done]. by destruct s.
Qed.

Lemma parseString_eof fuel res : parseString_loop fuel res [] = NoFuel.
Proof. revert res. induction fuel as [|fuel IH]; intros res; [done|]. cbn. apply IH. Qed.

Lemma Some_eqb (c d : ascii) : bool_decide (Some c = Some d) = char_eqb c d.
Proof. apply bool_decide_ext. split; congruence. Qed.

Lemma parseString_step fuel res c s :
  parseString_loop (S fuel) res (c :: s) =
    if char_eqb c DQUOTE then Ok (res, s)
    else if char_eqb c BSLASH then
      parseString_loop fuel (res ++
        [match s with
         | [] => byte_of 255
         | x :: _ => if char_eqb x "n"%char then NL else if char_eqb x "r"%char then CR
                     else if char_eqb x "t"%char then TAB else x
         end]) (drop 1 s)
    else parseString_loop fuel (res ++ [c]) s.
Proof.
  cbn [parseString_loop get]. rewrite !Some_eqb. case_match; [done|]. case_match; [|done].
  destruct s as [|x s]; [done|]. cbn [get char_of_get drop]. by rewrite !Some_eqb.
Qed.

Lemma parseString_closed fuel s res :
  (length s <= fuel)%nat -> closes s = true ->
  exists v r, parseString_loop fuel res s = Ok (v, r).
Proof.
  revert s res. induction fuel as [|fuel IH]; intros [|c s] res Hl Hc; try done; cbn in Hl; try lia.
  rewrite closes_cons in Hc. rewrite parseString_step. case_match; [by eauto|].
  case_match; apply IH; rewrite ?length_drop; done || lia.
Qed.

Lemma parseString_unclosed fuel s res :
  closes s = false -> parseString_loop fuel res s = NoFuel.
Proof.
  revert s res. induction fuel as [|fuel IH]; intros [|c s] res Hc; try done; [apply parseString_eof|].
  rewrite closes_cons in Hc. rewrite parseString_step. case_match; [done|].
  case_match; by apply IH.
Qed.

(** C30: [parseString] returns exactly when the string is terminated: with an
    unescaped quote in the rest of the stream one iteration per remaining
    character is enough, and without one the loop never ends (it keeps appending
    the end-of-file value), whatever the number of iterations. *)
Theorem parseString_terminates s res :
  if closes s then exists v r, parseString_loop (length s) res s = Ok (v, r)
  else forall fuel, parseString_loop fuel res s = NoFuel.
Proof.
  destruct (closes s) eqn:H; [by apply parseString_closed|].
  intros fuel. by apply parseString_unclosed.
Qed.
