(* ===== verification/Serialise.v ===== *)
(** * Sinks, sources and the wire format (src/src/libutil/serialise.cc)

    [Sink] and [Source] are the abstract classes of serialise.hh, given by the
    operations the subclasses implement; [SinkLaws] and [SourceLaws] say what
    their users rely on.  The buffered implementations over a file descriptor
    and the string implementations are instances.  Everything written on top
    of a sink or read from a source (integers, padded strings, string lists)
    is proved against the laws alone, so it holds for every implementation. *)

From Stdlib Require Import ZArith Lia Ascii.
From stdpp Require Import base strings sorting numbers gmap sets list.
From S2P Require Import Prelude.

(** ** Interfaces *)

(** [Sink::operator ()]. *)
Class Sink (S : Type) : Type := sink_write : S -> str -> result S.

(** A chunk that every sink can take: its length fits an [unsigned int], also
    after the 32 bytes that the reference scanner adds to an index. *)
Abbreviation chunk_max := (2 ^ 32 - 32)%Z.
Definition chunk_ok (d : str) : Prop := (Z.of_nat (length d) < chunk_max)%Z.

(** What a sink promises: [sink_rep s l] says that the bytes [l] were
    accepted so far, and writing adds the chunk at their end. *)
Class SinkLaws (S : Type) `{Sink S} : Type := {
  sink_rep : S -> str -> Prop;
  sink_write_law s l d :
    sink_rep s l -> chunk_ok d -> exists s', sink_write s d = Ok s' /\ sink_rep s' (l ++ d) }.

(** [Source::read]: up to [n] bytes. *)
Class Source (S : Type) : Type := source_read : nat -> S -> result (str * S).

(** What a source promises: [source_rem s] are the bytes still to come, as far as
    they are known; a read returns at least one and at most [n] of them. *)
Class SourceLaws (S : Type) `{Source S} : Type := {
  source_ok : S -> Prop;
  source_rem : S -> str;
  source_read_some n s :
    source_ok s -> (0 < n)%nat -> source_rem s <> [] ->
    exists d s', source_read n s = Ok (d, s') /\ d <> [] /\ (length d <= n)%nat /\
      source_rem s = d ++ source_rem s' /\ source_ok s' }.

(** A source that is complete: at its end a read throws [EndOfFile]. *)
Class SourceEof (S : Type) `{SourceLaws S} : Prop :=
  source_read_eof n s : source_ok s -> (0 < n)%nat -> source_rem s = [] ->
    exists msg, source_read n s = Throw (Exn eEndOfFile msg).

(** ** File descriptors

    The operating system chooses how many bytes a [read] or [write] call
    transfers and may interrupt it: [sched] lists these choices for the calls
    to come (none listed: everything asked for). *)

Inductive io_choice : Type :=
| IoBytes (n : nat)  (** transfer at most [S n] bytes *)
| IoEINTR            (** fail with [EINTR] *)
| IoFail.            (** fail with another error *)

Record Fd : Type := mkFd { fd_data : str; fd_sched : list io_choice }.

(** The outcome of one system call. *)
Inductive sysret (A : Type) : Type := SysOk (a : A) | SysEINTR | SysFail.
Arguments SysOk {_} _.
Arguments SysEINTR {_}.
Arguments SysFail {_}.

(** [::read(fd, buf, n)] of a descriptor whose unread bytes are [fd_data]. *)
Definition sys_read (n : nat) (fd : Fd) : sysret str * Fd :=
  match fd_sched fd with
  | [] => (SysOk (take n (fd_data fd)), mkFd (drop n (fd_data fd)) [])
  | IoBytes k :: sched =>
      let m := Nat.min n (S k) in
      (SysOk (take m (fd_data fd)), mkFd (drop m (fd_data fd)) sched)
  | IoEINTR :: sched => (SysEINTR, mkFd (fd_data fd) sched)
  | IoFail :: sched => (SysFail, mkFd (fd_data fd) sched)
  end.

(** [::write(fd, buf, n)] to a descriptor whose written bytes are [fd_data];
    the result is the number of bytes taken. *)
Definition sys_write (d : str) (fd : Fd) : sysret nat * Fd :=
  match fd_sched fd with
  | [] => (SysOk (length d), mkFd (fd_data fd ++ d) [])
  | IoBytes k :: sched =>
      let m := Nat.min (length d) (S k) in
      (SysOk m, mkFd (fd_data fd ++ take m d) sched)
  | IoEINTR :: sched => (SysEINTR, mkFd (fd_data fd) sched)
  | IoFail :: sched => (SysFail, mkFd (fd_data fd) sched)
  end.

(** [readFull] (util.cc): the loop runs once per system call. *)
Fixpoint readFull_loop (fuel : nat) (acc : str) (count : nat) (fd : Fd) : result (str * Fd) :=
  match count with
  | O => Ok (acc, fd)
  | _ =>
      match fuel with
      | O => NoFuel
      | S fuel =>
          match sys_read count fd with
          | (SysEINTR, fd) => readFull_loop fuel acc count fd
          | (SysFail, _) => throw eSysError ($"reading from file")
          | (SysOk [], _) => throw eEndOfFile ($"unexpected end-of-file")
          | (SysOk d, fd) => readFull_loop fuel (acc ++ d) (count - length d) fd
          end
      end
  end.
Definition readFull (count : nat) (fd : Fd) : result (str * Fd) :=
  readFull_loop (count + length (fd_sched fd)) [] count fd.

(** [writeFull] (util.cc). *)
Fixpoint writeFull_loop (fuel : nat) (d : str) (fd : Fd) : result Fd :=
  match d with
  | [] => Ok fd
  | _ =>
      match fuel with
      | O => NoFuel
      | S fuel =>
          match sys_write d fd with
          | (SysEINTR, fd) => writeFull_loop fuel d fd
          | (SysFail, _) => throw eSysError ($"writing to file")
          | (SysOk n, fd) => writeFull_loop fuel (drop n d) fd
          end
      end
  end.
Definition writeFull (d : str) (fd : Fd) : result Fd :=
  writeFull_loop (length d + length (fd_sched fd)) d fd.

(** ** Sinks *)

(** [StringSink]. *)
Record StringSink : Type := mkStringSink { ss_s : str }.
#[export] Instance StringSink_sink : Sink StringSink :=
  fun s d => Ok (mkStringSink (ss_s s ++ d)).

(** [BufferedSink] over an unbuffered [write]; [bs_buffer] holds the first
    [bufPos] bytes of the buffer. *)
Record BufferedSink (W : Type) : Type :=
  mkBufferedSink { bs_bufSize : nat; bs_buffer : str; bs_under : W }.
Arguments mkBufferedSink {W} _ _ _.
Arguments bs_bufSize {W} _.
Arguments bs_buffer {W} _.
Arguments bs_under {W} _.

Definition default_bufSize : nat := Z.to_nat 32768.

Section BufferedSink.
Context {W : Type} (write : W -> str -> result W).

(** [BufferedSink::flush]. *)
Definition BufferedSink_flush (s : BufferedSink W) : result (BufferedSink W) :=
  match bs_buffer s with
  | [] => Ok s
  | _ =>
      w ← write (bs_under s) (bs_buffer s);
      Ok (mkBufferedSink (bs_bufSize s) [] w)
  end.

(** [BufferedSink::operator ()]: the loop, once per iteration. *)
Fixpoint BufferedSink_loop (fuel : nat) (data : str) (s : BufferedSink W) :
    result (BufferedSink W) :=
  match data with
  | [] => Ok s
  | _ =>
      match fuel with
      | O => NoFuel
      | S fuel =>
          if (bs_bufSize s <=? length (bs_buffer s) + length data)%nat then
            s ← BufferedSink_flush s;
            w ← write (bs_under s) data;
            Ok (mkBufferedSink (bs_bufSize s) (bs_buffer s) w)
          else
            let n :=
              if (bs_bufSize s <? length (bs_buffer s) + length data)%nat
              then (bs_bufSize s - length (bs_buffer s))%nat else length data in
            let s := mkBufferedSink (bs_bufSize s) (bs_buffer s ++ take n data) (bs_under s) in
            s ← (if (length (bs_buffer s) =? bs_bufSize s)%nat then BufferedSink_flush s else Ok s);
            BufferedSink_loop fuel (drop n data) s
      end
  end.
Definition BufferedSink_write (s : BufferedSink W) (data : str) : result (BufferedSink W) :=
  BufferedSink_loop (S (length data)) data s.
End BufferedSink.

(** [FdSink]: a buffered sink whose [write] is [writeFull]. *)
Abbreviation FdSink := (BufferedSink Fd).
Definition FdSink_write (fd : Fd) (d : str) : result Fd := writeFull d fd.
#[export] Instance FdSink_sink : Sink FdSink := BufferedSink_write FdSink_write.

(** ** Sources *)

(** [Source::operator ()]: exactly [len] bytes. *)
Section ReadExactly.
Context {S : Type} `{Source S}.
Fixpoint source_get_loop (fuel : nat) (acc : str) (len : nat) (s : S) : result (str * S) :=
  match len with
  | O => Ok (acc, s)
  | _ =>
      match fuel with
      | O => NoFuel
      | Datatypes.S fuel =>
          '(d, s) ← source_read len s;
          source_get_loop fuel (acc ++ d) (len - length d) s
      end
  end.
Definition source_get (len : nat) (s : S) : result (str * S) := source_get_loop len [] len s.
End ReadExactly.

(** [StringSource]. *)
Record StringSource : Type := mkStringSource { src_s : str; src_pos : nat }.
#[export] Instance StringSource_source : Source StringSource := fun len src =>
  if (src_pos src =? length (src_s src))%nat then throw eEndOfFile ($"end of string reached")
  else
    let d := take len (drop (src_pos src) (src_s src)) in
    Ok (d, mkStringSource (src_s src) (src_pos src + length d)).

(** [BufferedSource] over [readUnbuffered]. *)
Record BufferedSource (U : Type) : Type := mkBufferedSource {
  bsrc_bufSize : nat; bsrc_bufPosIn : nat; bsrc_bufPosOut : nat;
  bsrc_buffer : str; bsrc_under : U }.
Arguments mkBufferedSource {U} _ _ _ _ _.
Arguments bsrc_bufSize {U} _.
Arguments bsrc_bufPosIn {U} _.
Arguments bsrc_bufPosOut {U} _.
Arguments bsrc_buffer {U} _.
Arguments bsrc_under {U} _.

(** [BufferedSource::read]. *)
Definition BufferedSource_read {U} (readUnbuffered : nat -> U -> result (str * U))
    (len : nat) (s : BufferedSource U) : result (str * BufferedSource U) :=
  s ← (if (bsrc_bufPosIn s =? 0)%nat then
         '(d, u) ← readUnbuffered (bsrc_bufSize s) (bsrc_under s);
         Ok (mkBufferedSource (bsrc_bufSize s) (length d) (bsrc_bufPosOut s) d u)
       else Ok s);
  let avail := (bsrc_bufPosIn s - bsrc_bufPosOut s)%nat in
  let n := if (avail <? len)%nat then avail else len in
  let d := take n (drop (bsrc_bufPosOut s) (bsrc_buffer s)) in
  let out := (bsrc_bufPosOut s + n)%nat in
  if (bsrc_bufPosIn s =? out)%nat
  then Ok (d, mkBufferedSource (bsrc_bufSize s) 0 0 (bsrc_buffer s) (bsrc_under s))
  else Ok (d, mkBufferedSource (bsrc_bufSize s) (bsrc_bufPosIn s) out (bsrc_buffer s) (bsrc_under s)).

(** [FdSource::readUnbuffered]: retries interrupted reads. *)
Fixpoint readUnbuffered_loop (fuel : nat) (n : nat) (fd : Fd) : result (str * Fd) :=
  match fuel with
  | O => NoFuel
  | S fuel =>
      match sys_read n fd with
      | (SysEINTR, fd) => readUnbuffered_loop fuel n fd
      | (SysFail, _) => throw eSysError ($"reading from file")
      | (SysOk [], _) => throw eEndOfFile ($"unexpected end-of-file")
      | (SysOk d, fd) => Ok (d, fd)
      end
  end.
Definition FdSource_readUnbuffered (n : nat) (fd : Fd) : result (str * Fd) :=
  readUnbuffered_loop (S (length (fd_sched fd))) n fd.

Abbreviation FdSource := (BufferedSource Fd).
#[export] Instance FdSource_source : Source FdSource := BufferedSource_read FdSource_readUnbuffered.

(** ** Writing *)

Definition zero8 : str := replicate 8 NUL.

Section Write.
Context {S : Type} `{Sink S}.

(** [writePadding]. *)
Definition writePadding (len : nat) (sink : S) : result S :=
  if (len mod 8 =? 0)%nat then Ok sink
  else sink_write sink (take (8 - len mod 8) zero8).

(** [writeInt]: the argument is an [unsigned int]. *)
Definition writeInt (n : Z) (sink : S) : result S :=
  let n := u32 n in
  sink_write sink
    [byte_of (Z.land n 255); byte_of (Z.land (Z.shiftr n 8) 255);
     byte_of (Z.land (Z.shiftr n 16) 255); byte_of (Z.land (Z.shiftr n 24) 255);
     NUL; NUL; NUL; NUL].

(** [writeLongLong]: the argument is an [unsigned long long]. *)
Definition writeLongLong (n : Z) (sink : S) : result S :=
  let n := u64 n in
  sink_write sink
    [byte_of (Z.land n 255); byte_of (Z.land (Z.shiftr n 8) 255);
     byte_of (Z.land (Z.shiftr n 16) 255); byte_of (Z.land (Z.shiftr n 24) 255);
     byte_of (Z.land (Z.shiftr n 32) 255); byte_of (Z.land (Z.shiftr n 40) 255);
     byte_of (Z.land (Z.shiftr n 48) 255); byte_of (Z.land (Z.shiftr n 56) 255)].

(** [writeString]. *)
Definition writeString (s : str) (sink : S) : result S :=
  sink ← writeInt (Z.of_nat (length s)) sink;
  sink ← sink_write sink s;
  writePadding (length s) sink.

(** [writeStrings] on a list of strings ([Paths]) and on a set ([PathSet]). *)
Definition writeStrings (ss : list str) (sink : S) : result S :=
  sink ← writeInt (Z.of_nat (length ss)) sink;
  foldM (fun sink s => writeString s sink) sink ss.
Definition writeStringSet (ss : gset str) (sink : S) : result S :=
  sink ← writeInt (Z.of_nat (size ss)) sink;
  foldM (fun sink s => writeString s sink) sink (set_iter ss).
End Write.

(** ** Reading *)

Section Read.
Context {S : Type} `{Source S}.

(** [readPadding]. *)
Definition readPadding (len : nat) (src : S) : result S :=
  if (len mod 8 =? 0)%nat then Ok src
  else
    '(zero, src) ← source_get (8 - len mod 8) src;
    if forallb (fun c => char_eqb c NUL) zero then Ok src
    else throw eSerialisationError ($"non-zero padding").

Definition buf_val (buf : str) (i : nat) : Z := byte_val (buf !!! i).

(** [readInt]. *)
Definition readInt (src : S) : result (Z * S) :=
  '(buf, src) ← source_get 8 src;
  if negb (buf_val buf 4 =? 0)%Z || negb (buf_val buf 5 =? 0)%Z
     || negb (buf_val buf 6 =? 0)%Z || negb (buf_val buf 7 =? 0)%Z
  then throw eSerialisationError ($"implementation cannot deal with > 32-bit integers")
  else
    Ok (u32 (Z.lor (Z.lor (Z.lor (buf_val buf 0) (Z.shiftl (buf_val buf 1) 8))
          (Z.shiftl (buf_val buf 2) 16)) (Z.shiftl (buf_val buf 3) 24)), src).

(** [readLongLong]. *)
Definition readLongLong (src : S) : result (Z * S) :=
  '(buf, src) ← source_get 8 src;
  Ok (Z.lor (Z.lor (Z.lor (Z.lor (Z.lor (Z.lor (Z.lor (buf_val buf 0)
        (Z.shiftl (buf_val buf 1) 8)) (Z.shiftl (buf_val buf 2) 16))
        (Z.shiftl (buf_val buf 3) 24)) (Z.shiftl (buf_val buf 4) 32))
        (Z.shiftl (buf_val buf 5) 40)) (Z.shiftl (buf_val buf 6) 48))
        (Z.shiftl (buf_val buf 7) 56), src).

(** [readString(buf, max, source)]: at most [max] bytes. *)
Definition readString_max (max : nat) (src : S) : result (str * S) :=
  '(len, src) ← readInt src;
  if (Z.of_nat max <? len)%Z then error ($"string is too long")
  else
    '(buf, src) ← source_get (Z.to_nat len) src;
    src ← readPadding (Z.to_nat len) src;
    Ok (buf, src).

(** [readString(source)]. *)
Definition readString (src : S) : result (str * S) :=
  '(len, src) ← readInt src;
  '(buf, src) ← source_get (Z.to_nat len) src;
  src ← readPadding (Z.to_nat len) src;
  Ok (buf, src).

(** [readStrings] into a list and into a set. *)
Fixpoint readStrings_loop (count : nat) (src : S) : result (list str * S) :=
  match count with
  | O => Ok ([], src)
  | Datatypes.S count =>
      '(s, src) ← readString src;
      '(ss, src) ← readStrings_loop count src;
      Ok (s :: ss, src)
  end.
Definition readStrings (src : S) : result (list str * S) :=
  '(count, src) ← readInt src;
  readStrings_loop (Z.to_nat count) src.
Definition readStringSet (src : S) : result (gset str * S) :=
  '(ss, src) ← readStrings src;
  Ok (list_to_set ss, src).
End Read.

(** * The byte format *)

(** The encodings that the writers produce and the readers accept. *)
Definition enc_int (n : Z) : str :=
  [byte_of n; byte_of (n / 2 ^ 8); byte_of (n / 2 ^ 16); byte_of (n / 2 ^ 24);
   NUL; NUL; NUL; NUL].
Definition enc_longlong (n : Z) : str :=
  [byte_of n; byte_of (n / 2 ^ 8); byte_of (n / 2 ^ 16); byte_of (n / 2 ^ 24);
   byte_of (n / 2 ^ 32); byte_of (n / 2 ^ 40); byte_of (n / 2 ^ 48); byte_of (n / 2 ^ 56)].
Definition enc_padding (len : nat) : str :=
  if (len mod 8 =? 0)%nat then [] else replicate (8 - len mod 8) NUL.
Definition enc_string (s : str) : str :=
  enc_int (Z.of_nat (length s)) ++ s ++ enc_padding (length s).
Definition enc_strings (ss : list str) : str :=
  enc_int (Z.of_nat (length ss)) ++ concat (map enc_string ss).

(** ** Specifications of writers and readers *)

(** [writes f d]: on every sink, [f] adds the bytes [d]. *)
Definition writes {S} `{SinkLaws S} (f : S -> result S) (d : str) : Prop :=
  forall s l, sink_rep s l -> exists s', f s = Ok s' /\ sink_rep s' (l ++ d).

(** [reads f d a]: on every source that continues with the bytes [d], [f]
    consumes exactly these and returns [a]. *)
Definition reads {S} `{SourceLaws S} {A} (f : S -> result (A * S)) (d : str) (a : A) : Prop :=
  forall s rest, source_ok s -> source_rem s = d ++ rest ->
    exists s', f s = Ok (a, s') /\ source_ok s' /\ source_rem s' = rest.

Section WriteSpecs.
Context {S : Type} `{SinkLaws S}.
Implicit Types f g : S -> result S.

Lemma writes_nil : writes (fun s : S => Ok s) [].
Proof. intros s l Hl. exists s. by rewrite app_nil_r. Qed.

Lemma writes_bind f g d e : writes f d -> writes g e -> writes (fun s => f s ≫= g) (d ++ e).
Proof.
  intros Hf Hg s l Hl. destruct (Hf s l Hl) as (s1 & E1 & R1).
  destruct (Hg s1 _ R1) as (s2 & E2 & R2). exists s2. rewrite E1. cbn.
  rewrite app_assoc. done.
Qed.

Lemma writes_foldM {A} (f : S -> A -> result S) (enc : A -> str) (l : list A) :
  (forall a, a ∈ l -> writes (fun s => f s a) (enc a)) ->
  writes (fun s => foldM f s l) (concat (map enc l)).
Proof.
  induction l as [|a l IH]; intros Hf; [apply writes_nil|]. cbn.
  apply (writes_bind (fun s => f s a) (fun s => foldM f s l)); [apply Hf; left|].
  apply IH. intros b Hb. apply Hf. by right.
Qed.

Lemma sink_writes d : chunk_ok d -> writes (fun s : S => sink_write s d) d.
Proof. intros Hd s l Hl. by apply sink_write_law. Qed.

Lemma chunk_ok_le d e : chunk_ok d -> (length e <= length d)%nat -> chunk_ok e.
Proof. unfold chunk_ok. lia. Qed.

Lemma chunk_ok_8 d : (length d <= 8)%nat -> chunk_ok d.
Proof. unfold chunk_ok. lia. Qed.

Lemma writePadding_writes len : writes (fun s : S => writePadding len s) (enc_padding len).
Proof.
  unfold writePadding, enc_padding. destruct (len mod 8 =? 0)%nat; [apply writes_nil|].
  unfold zero8. rewrite take_replicate, Nat.min_l by lia. apply sink_writes, chunk_ok_8.
  rewrite length_replicate. lia.
Qed.

Lemma byte_of_land n k : (0 <= k)%Z ->
  byte_of (Z.land (Z.shiftr n k) 255) = byte_of (n / 2 ^ k).
Proof.
  intros Hk. apply (inj byte_val). by rewrite byte_shift, byte_val_of by done.
Qed.
Lemma byte_of_land0 n : byte_of (Z.land n 255) = byte_of n.
Proof. rewrite <- (Z.shiftr_0_r n) at 1. rewrite byte_of_land by lia. by rewrite Z.div_1_r. Qed.

Lemma writeInt_writes n :
  (0 <= n < 2 ^ 32)%Z -> writes (fun s : S => writeInt n s) (enc_int n).
Proof.
  intros Hn. unfold writeInt, enc_int. rewrite u32_small by done.
  rewrite byte_of_land0, !byte_of_land by lia. by apply sink_writes, chunk_ok_8.
Qed.

Lemma writeLongLong_writes n :
  (0 <= n < 2 ^ 64)%Z -> writes (fun s : S => writeLongLong n s) (enc_longlong n).
Proof.
  intros Hn. unfold writeLongLong, enc_longlong. rewrite u64_small by done.
  rewrite byte_of_land0, !byte_of_land by lia. by apply sink_writes, chunk_ok_8.
Qed.

Lemma writeString_writes x : chunk_ok x -> writes (fun s : S => writeString x s) (enc_string x).
Proof.
  intros Hx. unfold writeString, enc_string.
  apply (writes_bind (writeInt _) (fun s => sink_write s x ≫= writePadding (length x))).
  - apply writeInt_writes. unfold chunk_ok in Hx. lia.
  - apply (writes_bind (fun s => sink_write s x) (writePadding _)).
    + by apply sink_writes.
    + apply writePadding_writes.
Qed.

Lemma writeStrings_writes ss :
  (Z.of_nat (length ss) < 2 ^ 32)%Z -> Forall chunk_ok ss ->
  writes (fun s : S => writeStrings ss s) (enc_strings ss).
Proof.
  intros Hl Hss. unfold writeStrings, enc_strings. apply (writes_bind (writeInt _)).
  - apply writeInt_writes. lia.
  - apply writes_foldM. intros x Hx. apply writeString_writes.
    rewrite Forall_forall in Hss. by apply Hss.
Qed.

Lemma writeStringSet_writes ss :
  (Z.of_nat (size ss) < 2 ^ 32)%Z -> Forall chunk_ok (set_iter ss) ->
  writes (fun s : S => writeStringSet ss s) (enc_strings (set_iter ss)).
Proof.
  intros Hl Hss. unfold writeStringSet, enc_strings.
  replace (length (set_iter ss)) with (size ss) by by rewrite set_iter_perm.
  apply (writes_bind (writeInt _)).
  - apply writeInt_writes. lia.
  - apply writes_foldM. intros x Hx. apply writeString_writes.
    rewrite Forall_forall in Hss. by apply Hss.
Qed.
End WriteSpecs.

Lemma lor_bytes4 b0 b1 b2 b3 :
  (0 <= b0 < 256 -> 0 <= b1 < 256 -> 0 <= b2 < 256 -> 0 <= b3 < 256 ->
  Z.lor (Z.lor (Z.lor b0 (Z.shiftl b1 8)) (Z.shiftl b2 16)) (Z.shiftl b3 24)
  = b0 + b1 * 2 ^ 8 + b2 * 2 ^ 16 + b3 * 2 ^ 24)%Z.
Proof.
  intros. rewrite (lor_shiftl_add b0), (lor_shiftl_add (b0 + _)), lor_shiftl_add by lia. done.
Qed.

Lemma lor_bytes8 v b4 b5 b6 b7 :
  (0 <= v < 2 ^ 32 -> 0 <= b4 < 256 -> 0 <= b5 < 256 -> 0 <= b6 < 256 -> 0 <= b7 < 256 ->
  Z.lor (Z.lor (Z.lor (Z.lor v (Z.shiftl b4 32)) (Z.shiftl b5 40)) (Z.shiftl b6 48))
    (Z.shiftl b7 56)
  = v + b4 * 2 ^ 32 + b5 * 2 ^ 40 + b6 * 2 ^ 48 + b7 * 2 ^ 56)%Z.
Proof.
  intros. rewrite (lor_shiftl_add v) by lia.
  rewrite (lor_shiftl_add (v + _)) by lia. rewrite (lor_shiftl_add (v + _ + _)) by lia.
  by rewrite lor_shiftl_add by lia.
Qed.

Lemma le_digits4 n :
  (0 <= n < 2 ^ 32 ->
  n mod 256 + (n / 2 ^ 8) mod 256 * 2 ^ 8 + (n / 2 ^ 16) mod 256 * 2 ^ 16
    + (n / 2 ^ 24) mod 256 * 2 ^ 24 = n)%Z.
Proof.
  intros Hn. change (2 ^ 16)%Z with (2 ^ 8 * 2 ^ 8)%Z.
  change (2 ^ 24)%Z with (2 ^ 8 * 2 ^ 8 * 2 ^ 8)%Z. rewrite <- !Z.div_div by lia.
  change (2 ^ 8)%Z with 256%Z. change (2 ^ 32)%Z with 4294967296%Z in Hn.
  Z.div_mod_to_equations. lia.
Qed.

Lemma le_digits8 n :
  (0 <= n < 2 ^ 64 ->
  n mod 256 + (n / 2 ^ 8) mod 256 * 2 ^ 8 + (n / 2 ^ 16) mod 256 * 2 ^ 16
    + (n / 2 ^ 24) mod 256 * 2 ^ 24 + (n / 2 ^ 32) mod 256 * 2 ^ 32
    + (n / 2 ^ 40) mod 256 * 2 ^ 40 + (n / 2 ^ 48) mod 256 * 2 ^ 48
    + (n / 2 ^ 56) mod 256 * 2 ^ 56 = n)%Z.
Proof.
  intros Hn. pose proof (Z.div_mod n (2 ^ 32) ltac:(lia)) as Hdm.
  pose proof (le_digits4 (n mod 2 ^ 32) (Z.mod_pos_bound n (2 ^ 32) ltac:(lia))) as Hlo.
  pose proof (le_digits4 (n / 2 ^ 32)) as Hhi.
  specialize (Hhi ltac:(split; [apply Z.div_pos|apply Z.div_lt_upper_bound]; lia)).
  rewrite !Z.div_div in Hhi by lia.
  change (2 ^ 32 * 2 ^ 8)%Z with (2 ^ 40)%Z in Hhi. change (2 ^ 32 * 2 ^ 16)%Z with (2 ^ 48)%Z in Hhi.
  change (2 ^ 32 * 2 ^ 24)%Z with (2 ^ 56)%Z in Hhi.
  assert (forall k, 0 <= k <= 24 -> (n mod 2 ^ 32 / 2 ^ k) mod 256 = (n / 2 ^ k) mod 256)%Z as Hk.
  { intros k Hk. change 256%Z with (2 ^ 8)%Z. rewrite <- !Z.land_ones, <- !Z.shiftr_div_pow2 by lia.
    apply Z.bits_inj'. intros i Hi. rewrite !Z.land_spec, !Z.shiftr_spec, Z.land_spec by lia.
    destruct (Z.lt_ge_cases i 8).
    - rewrite (Z.ones_spec_low 32) by lia. by rewrite andb_true_r.
    - by rewrite (Z.ones_spec_high 8), !andb_false_r by lia. }
  rewrite (Hk 8%Z), (Hk 16%Z), (Hk 24%Z) in Hlo by lia.
  pose proof (Hk 0%Z ltac:(lia)) as H0. rewrite !Z.div_1_r in H0. rewrite H0 in Hlo. lia.
Qed.

Section ReadSpecs.
Context {S : Type} `{SourceLaws S}.

Lemma reads_ret {A} (a : A) : reads (fun s : S => Ok (a, s)) [] a.
Proof. intros s rest Hs Hr. by exists s. Qed.

Lemma reads_bind {A B} (f : S -> result (A * S)) (g : A -> S -> result (B * S)) d e a b :
  reads f d a -> reads (g a) e b -> reads (fun s => '(x, s) ← f s; g x s) (d ++ e) b.
Proof.
  intros Hf Hg s rest Hs Hr. rewrite <- app_assoc in Hr.
  destruct (Hf s _ Hs Hr) as (s1 & E1 & O1 & R1).
  destruct (Hg s1 _ O1 R1) as (s2 & E2 & O2 & R2). exists s2. by rewrite E1.
Qed.

Lemma source_get_loop_spec fuel acc len (s : S) d rest :
  source_ok s -> (len <= fuel)%nat -> length d = len -> source_rem s = d ++ rest ->
  exists s', source_get_loop fuel acc len s = Ok (acc ++ d, s') /\
    source_ok s' /\ source_rem s' = rest.
Proof.
  revert acc len s d. induction fuel as [|fuel IH]; intros acc len s d Hs Hf Hl Hr.
  { destruct d; cbn in Hl; [|lia]. subst len. exists s. by rewrite app_nil_r. }
  destruct len as [|len]; cbn [source_get_loop].
  { destruct d; [|done]. exists s. by rewrite app_nil_r. }
  destruct (source_read_some (Datatypes.S len) s) as (e & s1 & E1 & He & Hle & Hr1 & Hs1);
    [done|lia|by rewrite Hr; destruct d|].
  rewrite E1. cbn [mbind result_bind]. rewrite Hr in Hr1.
  assert (d = e ++ drop (length e) d) as Hd.
  { rewrite <- (take_drop (length e) d) at 1. f_equal.
    apply (f_equal (take (length e))) in Hr1.
    rewrite take_app_le, take_app_length in Hr1 by lia. done. }
  destruct (IH (acc ++ e) (Datatypes.S len - length e)%nat s1 (drop (length e) d))
    as (s' & E' & O' & R').
  - done.
  - destruct e; cbn in *; [done|lia].
  - rewrite length_drop. lia.
  - rewrite Hd, <- app_assoc in Hr1. by apply app_inv_head in Hr1.
  - exists s'. rewrite E'. rewrite Hd at 2. by rewrite app_assoc.
Qed.

Lemma source_get_reads d : reads (fun s : S => source_get (length d) s) d d.
Proof. intros s rest Hs Hr. by apply (source_get_loop_spec _ [] _ s d rest). Qed.

Lemma source_get_loop_eof `{!SourceEof S} fuel acc len (s : S) :
  source_ok s -> (len <= fuel)%nat -> (length (source_rem s) < len)%nat ->
  exists msg, source_get_loop fuel acc len s = Throw (Exn eEndOfFile msg).
Proof.
  revert acc len s. induction fuel as [|fuel IH]; intros acc len s Hs Hf Hl; [lia|].
  destruct len as [|len]; [lia|]. cbn [source_get_loop].
  destruct (decide (source_rem s = [])) as [Hn|Hn].
  { destruct (source_read_eof (Datatypes.S len) s Hs ltac:(lia) Hn) as [msg E].
    exists msg. by rewrite E. }
  destruct (source_read_some (Datatypes.S len) s) as (e & s1 & E1 & He & Hle & Hr1 & Hs1);
    [done|lia|done|].
  rewrite E1. cbn [mbind result_bind]. apply IH; [done| |].
  - destruct e; cbn in *; [done|lia].
  - rewrite Hr1, length_app in Hl. lia.
Qed.

Lemma source_get_eof `{!SourceEof S} len (s : S) :
  source_ok s -> (length (source_rem s) < len)%nat ->
  exists msg, source_get len s = Throw (Exn eEndOfFile msg).
Proof. intros. by apply source_get_loop_eof. Qed.

Lemma readPadding_spec len (s : S) rest :
  source_ok s -> source_rem s = enc_padding len ++ rest ->
  exists s', readPadding len s = Ok s' /\ source_ok s' /\ source_rem s' = rest.
Proof.
  intros Hs Hr. unfold readPadding, enc_padding in *.
  destruct (len mod 8 =? 0)%nat; [by exists s|].
  destruct (source_get_reads (replicate (8 - len mod 8) NUL) s rest Hs Hr) as (s' & E & O & R).
  rewrite length_replicate in E. rewrite E. exists s'. cbn [mbind result_bind].
  rewrite (proj2 (forallb_forall _ _)); [done|].
  intros c Hc. apply list_elem_of_In, elem_of_replicate in Hc as [-> _]. apply char_eqb_refl.
Qed.

Lemma readInt_reads n : (0 <= n < 2 ^ 32)%Z -> reads (fun s : S => readInt s) (enc_int n) n.
Proof.
  intros Hn s rest Hs Hr.
  destruct (source_get_reads (enc_int n) s rest Hs Hr) as (s' & E & O & R).
  exists s'. split; [|done]. unfold readInt. change 8%nat with (length (enc_int n)).
  rewrite E. cbn [mbind result_bind]. unfold buf_val, enc_int.
  cbn [lookup_total list_lookup_total].
  change (byte_val NUL) with 0%Z. cbn [Z.eqb negb orb]. do 2 f_equal.
  rewrite lor_bytes4, !byte_val_of by apply byte_val_bound. rewrite le_digits4 by done.
  by apply u32_small.
Qed.

Lemma readLongLong_reads n :
  (0 <= n < 2 ^ 64)%Z -> reads (fun s : S => readLongLong s) (enc_longlong n) n.
Proof.
  intros Hn s rest Hs Hr.
  destruct (source_get_reads (enc_longlong n) s rest Hs Hr) as (s' & E & O & R).
  exists s'. split; [|done]. unfold readLongLong. change 8%nat with (length (enc_longlong n)).
  rewrite E. cbn [mbind result_bind]. unfold buf_val, enc_longlong.
  cbn [lookup_total list_lookup_total]. do 2 f_equal.
  rewrite lor_bytes4 by apply byte_val_bound. rewrite lor_bytes8, !byte_val_of.
  - by apply le_digits8.
  - pose proof (byte_val_bound (byte_of n)). pose proof (byte_val_bound (byte_of (n / 2 ^ 8))).
    pose proof (byte_val_bound (byte_of (n / 2 ^ 16))).
    pose proof (byte_val_bound (byte_of (n / 2 ^ 24))). lia.
  - apply byte_val_bound.
  - apply byte_val_bound.
  - apply byte_val_bound.
  - apply byte_val_bound.
Qed.

Lemma readString_reads x : chunk_ok x -> reads (fun s : S => readString s) (enc_string x) x.
Proof.
  intros Hx. unfold readString, enc_string. apply (reads_bind readInt _ _ _ (Z.of_nat (length x))).
  { apply readInt_reads. unfold chunk_ok in Hx. lia. }
  rewrite Nat2Z.id. apply reads_bind with (a := x); [apply source_get_reads|].
  intros s rest Hs Hr. destruct (readPadding_spec _ s rest Hs Hr) as (s' & E & O & R).
  exists s'. by rewrite E.
Qed.

Lemma readStrings_loop_reads ss :
  Forall chunk_ok ss ->
  reads (fun s : S => readStrings_loop (length ss) s) (concat (map enc_string ss)) ss.
Proof.
  induction 1 as [|x ss Hx Hss IH]; cbn [length readStrings_loop map concat]; [apply reads_ret|].
  apply (reads_bind readString _ _ _ x); [by apply readString_reads|].
  rewrite <- (app_nil_r (concat _)).
  apply (reads_bind (readStrings_loop _) _ _ _ ss); [done|apply reads_ret].
Qed.

Lemma readStrings_reads ss :
  (Z.of_nat (length ss) < 2 ^ 32)%Z -> Forall chunk_ok ss ->
  reads (fun s : S => readStrings s) (enc_strings ss) ss.
Proof.
  intros Hl Hss. unfold readStrings, enc_strings.
  apply (reads_bind readInt _ _ _ (Z.of_nat (length ss))); [apply readInt_reads; lia|].
  rewrite Nat2Z.id. by apply readStrings_loop_reads.
Qed.

Lemma readStringSet_reads ss :
  (Z.of_nat (size ss) < 2 ^ 32)%Z -> Forall chunk_ok (set_iter ss) ->
  reads (fun s : S => readStringSet s) (enc_strings (set_iter ss)) ss.
Proof.
  intros Hl Hss. unfold readStringSet. rewrite <- (app_nil_r (enc_strings _)).
  apply (reads_bind readStrings _ _ _ (set_iter ss)).
  - apply readStrings_reads; [|done]. by rewrite set_iter_perm.
  - rewrite list_to_set_iter. apply reads_ret.
Qed.
End ReadSpecs.

Create HintDb serialise.
#[export] Hint Resolve writes_nil writes_bind sink_writes writePadding_writes writeInt_writes
  writeLongLong_writes writeString_writes writeStrings_writes chunk_ok_8 : serialise.
#[export] Hint Resolve reads_ret reads_bind readInt_reads readLongLong_reads
  readString_reads readStrings_reads : serialise.

(** * The implementations satisfy the interfaces *)

(** ** Strings *)

#[export] Program Instance StringSink_laws : SinkLaws StringSink := {|
  sink_rep s l := ss_s s = l |}.
Next Obligation. intros s l d <- _. by exists (mkStringSink (ss_s s ++ d)). Qed.

#[export] Program Instance StringSource_laws : SourceLaws StringSource := {|
  source_ok s := (src_pos s <= length (src_s s))%nat;
  source_rem s := drop (src_pos s) (src_s s) |}.
Next Obligation.
  intros n [s pos] Hok Hn Hrem. cbn in *.
  assert (pos < length s)%nat as Hpos.
  { destruct (decide (pos < length s)%nat); [done|]. destruct Hrem. apply drop_ge. lia. }
  unfold source_read, StringSource_source. cbn.
  destruct (Nat.eqb_spec pos (length s)); [lia|].
  eexists _, _. split; [done|]. cbn. rewrite length_take, length_drop. split_and!.
  - intros E%(f_equal length). rewrite length_take, length_drop in E. cbn in E. lia.
  - lia.
  - rewrite <- (take_drop n (drop pos s)) at 1. f_equal. rewrite drop_drop.
    destruct (decide (n <= length s - pos)%nat) as [Hle|Hgt].
    + by rewrite Nat.min_l by lia.
    + rewrite Nat.min_r, !drop_ge by lia. done.
  - lia.
Qed.
#[export] Instance StringSource_eof : SourceEof StringSource.
Proof.
  intros n [s pos] Hok Hn Hrem. cbn in *. apply (f_equal length) in Hrem.
  rewrite length_drop in Hrem. cbn in Hrem.
  unfold source_read, StringSource_source. cbn.
  destruct (Nat.eqb_spec pos (length s)); [by eexists|lia].
Qed.

(** ** File descriptors *)

(** No call fails for a reason other than an interrupt. *)
Definition sched_ok (sched : list io_choice) : Prop := IoFail ∉ sched.

Lemma sched_ok_cons c sched : sched_ok (c :: sched) -> c <> IoFail /\ sched_ok sched.
Proof. unfold sched_ok. rewrite not_elem_of_cons. intros [? ?]. split; [by intros ->|done]. Qed.

Lemma sched_ok_nil : sched_ok [].
Proof. apply not_elem_of_nil. Qed.

#[local] Hint Resolve sched_ok_nil : core.

Lemma writeFull_loop_spec fuel d fd :
  sched_ok (fd_sched fd) -> (length d + length (fd_sched fd) <= fuel)%nat ->
  exists fd', writeFull_loop fuel d fd = Ok fd' /\ fd_data fd' = fd_data fd ++ d /\
    sched_ok (fd_sched fd').
Proof.
  revert d fd. induction fuel as [|fuel IH]; intros d [data sched] Hok Hf.
  { destruct d; [|cbn in Hf; lia]. eexists. cbn. by rewrite app_nil_r. }
  destruct d as [|c d]; [eexists; cbn; by rewrite app_nil_r|].
  cbn [writeFull_loop]. unfold sys_write. cbn [fd_sched fd_data] in *.
  destruct sched as [|[k| |] sched].
  - rewrite skipn_all. destruct (IH [] (mkFd (data ++ c :: d) [])) as (fd' & E & Hd & Ho);
      [done|cbn in *; lia|].
    exists fd'. cbn in Hd. by rewrite app_nil_r in Hd.
  - apply sched_ok_cons in Hok as [_ Hok].
    set (m := Nat.min (length (c :: d)) (S k)).
    destruct (IH (drop m (c :: d)) (mkFd (data ++ take m (c :: d)) sched)) as (fd' & E & Hd & Ho).
    + done.
    + rewrite length_drop. unfold m. cbn in *. lia.
    + exists fd'. cbn [fd_data] in Hd. by rewrite <- app_assoc, take_drop in Hd.
  - apply sched_ok_cons in Hok as [_ Hok]. apply (IH _ (mkFd data sched)); [done|cbn in *; lia].
  - by apply sched_ok_cons in Hok as [? _].
Qed.

(** The unbuffered end of an [FdSink]. *)
Definition fd_rep (fd : Fd) (l : str) : Prop := fd_data fd = l /\ sched_ok (fd_sched fd).

Lemma FdSink_write_law fd l d :
  fd_rep fd l -> exists fd', FdSink_write fd d = Ok fd' /\ fd_rep fd' (l ++ d).
Proof.
  intros [<- Hok]. unfold FdSink_write, writeFull.
  destruct (writeFull_loop_spec _ d fd Hok (Nat.le_refl _)) as (fd' & E & Hd & Ho). by exists fd'.
Qed.

(** ** Buffering is transparent *)

Section BufferedSinkLaws.
Context {W : Type} (write : W -> str -> result W) (rep : W -> str -> Prop).
Hypothesis write_law : forall w l d, rep w l -> chunk_ok d ->
  exists w', write w d = Ok w' /\ rep w' (l ++ d).

(** The bytes accepted are those written through, then the buffer. *)
Definition buffered_rep (s : BufferedSink W) (l : str) : Prop :=
  (length (bs_buffer s) < bs_bufSize s)%nat /\ (Z.of_nat (bs_bufSize s) < chunk_max)%Z /\
  exists l0, rep (bs_under s) l0 /\ l = l0 ++ bs_buffer s.

Lemma flush_law s l :
  buffered_rep s l -> exists s', BufferedSink_flush write s = Ok s' /\
    rep (bs_under s') l /\ bs_buffer s' = [] /\ bs_bufSize s' = bs_bufSize s.
Proof.
  intros (Hb & Hc & l0 & Hr & ->). unfold BufferedSink_flush.
  destruct (bs_buffer s) as [|c b] eqn:Eb.
  { exists s. by rewrite app_nil_r. }
  destruct (write_law (bs_under s) l0 (c :: b) Hr) as (w' & E & R).
  { unfold chunk_ok. lia. }
  rewrite E. by eexists.
Qed.

Lemma buffered_write_law s l d :
  buffered_rep s l -> chunk_ok d ->
  exists s', BufferedSink_write write s d = Ok s' /\ buffered_rep s' (l ++ d).
Proof.
  intros HR Hd. unfold BufferedSink_write. cbn [BufferedSink_loop].
  destruct d as [|c d]; [exists s; by rewrite app_nil_r|].
  destruct (Nat.leb_spec (bs_bufSize s) (length (bs_buffer s) + length (c :: d))) as [Hle|Hgt].
  - destruct (flush_law s l HR) as (s1 & E1 & R1 & B1 & S1). rewrite E1. cbn [mbind result_bind].
    destruct (write_law _ _ (c :: d) R1 Hd) as (w & E2 & R2). rewrite E2. cbn [mbind result_bind].
    eexists. split; [done|]. destruct HR as (Hb & Hc & _). unfold buffered_rep. cbn.
    rewrite B1, S1. split_and!; [cbn; lia|done|]. eexists. by rewrite app_nil_r.
  - destruct (Nat.ltb_spec (bs_bufSize s) (length (bs_buffer s) + length (c :: d))); [lia|].
    rewrite firstn_all, skipn_all. cbn [bs_buffer bs_bufSize bs_under].
    rewrite length_app. destruct (Nat.eqb_spec (length (bs_buffer s) + length (c :: d)) (bs_bufSize s));
      [lia|]. cbn [mbind result_bind BufferedSink_loop].
    destruct HR as (Hb & Hc & l0 & Hr & ->).
    destruct (length (c :: d)) eqn:El; [done|]. eexists. split; [done|].
    unfold buffered_rep. cbn. rewrite length_app. split_and!; [cbn in *; lia|done|].
    exists l0. split; [done|]. by rewrite app_assoc.
Qed.
End BufferedSinkLaws.

#[export] Program Instance FdSink_laws : SinkLaws FdSink := {| sink_rep := buffered_rep fd_rep |}.
Next Obligation.
  intros s l d HR Hd. apply (buffered_write_law FdSink_write fd_rep); [|done|done].
  intros w l0 e Hw _. by apply FdSink_write_law.
Qed.

(** ** Buffered reading *)

Lemma readUnbuffered_loop_some fuel n fd :
  sched_ok (fd_sched fd) -> (length (fd_sched fd) < fuel)%nat -> (0 < n)%nat ->
  fd_data fd <> [] ->
  exists d fd', readUnbuffered_loop fuel n fd = Ok (d, fd') /\ d <> [] /\ (length d <= n)%nat /\
    fd_data fd = d ++ fd_data fd' /\ sched_ok (fd_sched fd').
Proof.
  revert fd. induction fuel as [|fuel IH]; intros [data sched] Hok Hf Hn Hd; [lia|].
  cbn [readUnbuffered_loop]. unfold sys_read. cbn [fd_sched fd_data] in *.
  assert (forall m, (0 < m <= n)%nat -> exists c d, take m data = c :: d /\ length (c :: d) <= n)%nat
    as Htake.
  { intros m Hm. destruct data as [|c data]; [done|]. destruct m; [lia|].
    exists c, (take m data). split; [done|]. cbn. rewrite length_take. lia. }
  destruct sched as [|[k| |] sched].
  - destruct (Htake n) as (c & d & E & Hlen); [lia|]. rewrite E. eexists _, _. split; [done|].
    cbn [fd_data fd_sched]. rewrite <- E. split_and!; [by rewrite E|by rewrite E| |done].
    symmetry. apply take_drop.
  - apply sched_ok_cons in Hok as [_ Hok].
    destruct (Htake (Nat.min n (S k))) as (c & d & E & Hlen); [lia|]. rewrite E.
    eexists _, _. split; [done|]. cbn [fd_data fd_sched]. rewrite <- E.
    split_and!; [by rewrite E|by rewrite E| |done]. symmetry. apply take_drop.
  - apply sched_ok_cons in Hok as [_ Hok].
    apply (IH (mkFd data sched)); [done|cbn in *; lia|done|done].
  - by apply sched_ok_cons in Hok as [? _].
Qed.

Lemma readUnbuffered_loop_eof fuel n fd :
  sched_ok (fd_sched fd) -> (length (fd_sched fd) < fuel)%nat -> fd_data fd = [] ->
  exists msg, readUnbuffered_loop fuel n fd = Throw (Exn eEndOfFile msg).
Proof.
  revert fd. induction fuel as [|fuel IH]; intros [data sched] Hok Hf Hd; [lia|].
  cbn [readUnbuffered_loop]. unfold sys_read. cbn [fd_sched fd_data] in *. subst data.
  destruct sched as [|[k| |] sched].
  - rewrite take_nil. by eexists.
  - rewrite take_nil. by eexists.
  - apply sched_ok_cons in Hok as [_ Hok]. apply (IH (mkFd [] sched)); [done|cbn in *; lia|done].
  - by apply sched_ok_cons in Hok as [? _].
Qed.

(** The buffer of a source holds unread bytes only between its two positions,
    and is refilled exactly when it has none. *)
Record FdSource_ok (s : FdSource) : Prop := {
  fso_size : (0 < bsrc_bufSize s)%nat;
  fso_sched : sched_ok (fd_sched (bsrc_under s));
  fso_in : bsrc_bufPosIn s = 0%nat \/ bsrc_bufPosIn s = length (bsrc_buffer s);
  fso_out : bsrc_bufPosIn s = 0%nat /\ bsrc_bufPosOut s = 0%nat \/
    (bsrc_bufPosOut s < bsrc_bufPosIn s)%nat }.

Definition FdSource_rem (s : FdSource) : str :=
  take (bsrc_bufPosIn s - bsrc_bufPosOut s) (drop (bsrc_bufPosOut s) (bsrc_buffer s))
  ++ fd_data (bsrc_under s).

(** Reading from a buffer that holds at least one unread byte. *)
Lemma BufferedSource_take n (s : FdSource) :
  FdSource_ok s -> (0 < bsrc_bufPosIn s)%nat -> (0 < n)%nat ->
  exists d s', BufferedSource_read FdSource_readUnbuffered n s = Ok (d, s') /\ d <> [] /\
    (length d <= n)%nat /\ FdSource_rem s = d ++ FdSource_rem s' /\ FdSource_ok s'.
Proof.
  intros [Hsz Hsch Hin Hout] Hpos Hn. unfold BufferedSource_read.
  destruct (Nat.eqb_spec (bsrc_bufPosIn s) 0); [lia|]. cbn [mbind result_bind].
  destruct s as [sz pin pout buf fd]; cbn [bsrc_bufSize bsrc_bufPosIn bsrc_bufPosOut bsrc_buffer bsrc_under] in *.
  destruct Hin as [Hin|Hin]; subst pin; [lia|]. destruct Hout as [[? ?]|Hout]; [lia|].
  set (m := if (length buf - pout <? n)%nat then (length buf - pout)%nat else n).
  assert (0 < m <= length buf - pout /\ m <= n)%nat as [Hm Hmn].
  { unfold m. destruct (Nat.ltb_spec (length buf - pout) n); lia. }
  clearbody m.
  assert (length (take m (drop pout buf)) = m) as Hlen.
  { rewrite length_take, length_drop. lia. }
  assert (take m (drop pout buf) <> []) as Hne.
  { intros E. rewrite E in Hlen. cbn in Hlen. lia. }
  assert (FdSource_rem (mkBufferedSource sz (length buf) pout buf fd) =
    take m (drop pout buf) ++ drop (pout + m) buf ++ fd_data fd) as Hrem.
  { unfold FdSource_rem. cbn. rewrite <- length_drop, firstn_all, <- drop_drop, app_assoc, take_drop.
    done. }
  destruct (Nat.eqb_spec (length buf) (pout + m)) as [Heq|Hneq]; eexists _, _;
    (split; [done|]); rewrite Hrem; (split_and!; [done|by rewrite Hlen| |]).
  - rewrite (drop_ge buf (pout + m)) by lia. unfold FdSource_rem. cbn. done.
  - split; cbn; auto.
  - f_equal. unfold FdSource_rem. cbn. by rewrite <- length_drop, firstn_all.
  - split; cbn; auto. right. lia.
Qed.

#[export] Program Instance FdSource_laws : SourceLaws FdSource := {|
  source_ok := FdSource_ok; source_rem := FdSource_rem |}.
Next Obligation.
  intros n s Hok Hn Hrem. unfold source_read, FdSource_source.
  destruct (Nat.eq_dec (bsrc_bufPosIn s) 0) as [Hz|Hnz]; [|apply BufferedSource_take; auto; lia].
  pose proof Hok as [Hsz Hsch Hin Hout]. destruct Hout as [[_ Hpo]| ?]; [|lia].
  unfold FdSource_rem in Hrem. rewrite Hz, Hpo in Hrem. cbn in Hrem.
  destruct (readUnbuffered_loop_some (S (length (fd_sched (bsrc_under s)))) (bsrc_bufSize s)
    (bsrc_under s)) as (b & fd' & E & Hb & Hbl & Hdata & Hs'); [done|lia|done|done|].
  assert (0 < length b)%nat by (destruct b; cbn; [done|lia]).
  destruct (BufferedSource_take n (mkBufferedSource (bsrc_bufSize s) (length b) 0 b fd'))
    as (d & s' & E' & R'); [split; cbn; auto|done|done|].
  exists d, s'. split.
  - rewrite <- E'. unfold BufferedSource_read at 1. rewrite Hz, Hpo. cbn [Nat.eqb].
    unfold FdSource_readUnbuffered at 1. rewrite E. cbn [mbind result_bind].
    unfold BufferedSource_read. cbn [bsrc_bufPosIn].
    destruct (Nat.eqb_spec (length b) 0); [lia|]. done.
  - destruct R' as (? & ? & Hr & ?). split_and!; try done. rewrite <- Hr.
    unfold FdSource_rem. rewrite Hz, Hpo. cbn. by rewrite Nat.sub_0_r, firstn_all, drop_0.
Qed.
#[export] Instance FdSource_eof : SourceEof FdSource.
Proof.
  intros n s [Hsz Hsch Hin Hout] Hn Hrem. cbn in Hrem. unfold FdSource_rem in Hrem.
  apply app_eq_nil in Hrem as [Hbuf Hdata].
  assert (bsrc_bufPosIn s = 0%nat) as Hz.
  { destruct Hout as [[? _]|Hlt]; [done|]. destruct Hin as [? |Hi]; [done|].
    apply (f_equal length) in Hbuf. rewrite length_take, length_drop in Hbuf. cbn in Hbuf. lia. }
  unfold source_read, FdSource_source, BufferedSource_read. rewrite Hz. cbn [Nat.eqb].
  destruct (readUnbuffered_loop_eof (S (length (fd_sched (bsrc_under s)))) (bsrc_bufSize s)
    (bsrc_under s)) as [msg E]; [done|lia|done|].
  exists msg. unfold FdSource_readUnbuffered. by rewrite E.
Qed.

(** ** Fresh objects *)

(** [FdSink(fd)] and [FdSource(fd)], with buffers of the given size (32 KiB by
    default). *)
Definition mkFdSink (size : nat) (fd : Fd) : FdSink := mkBufferedSink size [] fd.
Definition mkFdSource (size : nat) (fd : Fd) : FdSource := mkBufferedSource size 0 0 [] fd.

Lemma mkFdSink_rep size data sched :
  (0 < size)%nat -> (Z.of_nat size < chunk_max)%Z -> sched_ok sched ->
  sink_rep (mkFdSink size (mkFd data sched)) data.
Proof. intros. split_and!; [done|done|]. exists data. by rewrite app_nil_r. Qed.

Lemma mkFdSource_ok size data sched :
  (0 < size)%nat -> sched_ok sched ->
  source_ok (mkFdSource size (mkFd data sched)) /\ source_rem (mkFdSource size (mkFd data sched)) = data.
Proof. intros. split; [split; cbn; auto|done]. Qed.

(** * Properties *)

(** A buffered sink loses, duplicates and reorders nothing: after any
    sequence of writes followed by a flush, the bytes that reached the file
    descriptor are the concatenation of the chunks, however the operating
    system splits or interrupts the [write] calls. *)
Theorem FdSink_transparent size data sched chunks :
  (0 < size)%nat -> (Z.of_nat size < chunk_max)%Z -> sched_ok sched -> Forall chunk_ok chunks ->
  exists s1 s2,
    foldM sink_write (mkFdSink size (mkFd data sched)) chunks = Ok s1 /\
    BufferedSink_flush FdSink_write s1 = Ok s2 /\
    fd_data (bs_under s2) = data ++ concat chunks /\ bs_buffer s2 = [].
Proof.
  intros Hs Hs' Hok Hch.
  destruct (writes_foldM sink_write id chunks) with (s := mkFdSink size (mkFd data sched)) (l := data)
    as (s1 & E1 & R1).
  - intros d Hd. apply sink_writes. rewrite Forall_forall in Hch. by apply Hch.
  - by apply mkFdSink_rep.
  - rewrite map_id in R1.
    destruct (flush_law FdSink_write fd_rep) with (s := s1) (l := data ++ concat chunks)
      as (s2 & E2 & [D2 _] & B2 & _); [intros; by apply FdSink_write_law|done|].
    exists s1, s2. done.
Qed.

(** String lists survive the trip through a pipe: what [writeStrings]
    sends through a buffered descriptor sink, [readStrings] reads back from a
    buffered descriptor source, leaving exactly the bytes that follow.  This
    holds for all buffer sizes and all ways in which the operating system
    splits and interrupts the reads and writes. *)
Theorem strings_roundtrip ss rest size1 size2 sched1 sched2 :
  (Z.of_nat (length ss) < 2 ^ 32)%Z -> Forall chunk_ok ss ->
  (0 < size1)%nat -> (Z.of_nat size1 < chunk_max)%Z -> (0 < size2)%nat ->
  sched_ok sched1 -> sched_ok sched2 ->
  exists s1 s2 s3,
    writeStrings ss (mkFdSink size1 (mkFd [] sched1)) = Ok s1 /\
    BufferedSink_flush FdSink_write s1 = Ok s2 /\
    readStrings (mkFdSource size2 (mkFd (fd_data (bs_under s2) ++ rest) sched2)) = Ok (ss, s3) /\
    source_rem s3 = rest.
Proof.
  intros Hl Hss H1 H1' H2 Hok1 Hok2.
  destruct (writeStrings_writes ss Hl Hss (mkFdSink size1 (mkFd [] sched1)) [])
    as (s1 & E1 & R1); [by apply mkFdSink_rep|].
  destruct (flush_law FdSink_write fd_rep) with (s := s1) (l := enc_strings ss)
    as (s2 & E2 & [D2 _] & _); [intros; by apply FdSink_write_law|done|].
  destruct (mkFdSource_ok size2 (enc_strings ss ++ rest) sched2 H2 Hok2) as [O R].
  destruct (readStrings_reads ss Hl Hss _ rest O R) as (s3 & E3 & _ & R3).
  exists s1, s2, s3. by rewrite D2.
Qed.

(** [readInt] on every input, for every source: too few bytes give
    [EndOfFile]; a value that needs more than 32 bits gives
    [SerialisationError]; otherwise the little-endian value of the first four
    bytes, after consuming exactly eight. *)
Theorem readInt_spec {S} `{SourceLaws S} `{!SourceEof S} (s : S) :
  source_ok s ->
  match source_rem s with
  | b0 :: b1 :: b2 :: b3 :: b4 :: b5 :: b6 :: b7 :: rest =>
      if forallb (fun c => char_eqb c NUL) [b4; b5; b6; b7] then
        exists s', readInt s = Ok ((byte_val b0 + byte_val b1 * 2 ^ 8 + byte_val b2 * 2 ^ 16
          + byte_val b3 * 2 ^ 24)%Z, s') /\ source_ok s' /\ source_rem s' = rest
      else exists msg, readInt s = Throw (Exn eSerialisationError msg)
  | _ => exists msg, readInt s = Throw (Exn eEndOfFile msg)
  end.
Proof.
  intros Hs. unfold readInt.
  destruct (source_rem s) as [|b0 [|b1 [|b2 [|b3 [|b4 [|b5 [|b6 [|b7 rest]]]]]]]] eqn:Hr;
    try (destruct (source_get_eof 8 s Hs) as [msg E]; [rewrite Hr; cbn; lia|];
         exists msg; by rewrite E).
  destruct (source_get_reads [b0; b1; b2; b3; b4; b5; b6; b7] s rest Hs Hr) as (s' & E & O & R).
  cbn [length] in E. rewrite E. cbn [mbind result_bind]. unfold buf_val.
  cbn [lookup_total list_lookup_total forallb].
  assert (forall c, negb (byte_val c =? 0)%Z = negb (char_eqb c NUL)) as Hnul.
  { intros c. f_equal. unfold char_eqb. change 0%Z with (byte_val NUL).
    destruct (Z.eqb_spec (byte_val c) (byte_val NUL)) as [He|He]; symmetry.
    - apply bool_decide_eq_true. by apply (inj byte_val).
    - apply bool_decide_eq_false. by intros ->. }
  rewrite !Hnul, andb_true_r, <- !negb_andb, <- !andb_assoc.
  destruct (_ && _); cbn [negb]; [|by eexists].
  exists s'. rewrite lor_bytes4 by apply byte_val_bound. split; [|done].
  pose proof (byte_val_bound b0). pose proof (byte_val_bound b1).
  pose proof (byte_val_bound b2). pose proof (byte_val_bound b3). by rewrite u32_small by lia.
Qed.

(** * Witnesses *)

Definition sample_sched : list io_choice := [IoBytes 2; IoEINTR; IoBytes 0].

Lemma sample_sched_ok : sched_ok sample_sched.
Proof. unfold sched_ok, sample_sched. rewrite !not_elem_of_cons. by split_and!; try apply not_elem_of_nil. Qed.

Lemma FdSink_transparent_witness :
  exists s1 s2, foldM sink_write (mkFdSink 4 (mkFd [] sample_sched)) [$"abc"; $"defgh"] = Ok s1 /\
    BufferedSink_flush FdSink_write s1 = Ok s2 /\ fd_data (bs_under s2) = $"abcdefgh".
Proof.
  destruct (FdSink_transparent 4 [] sample_sched [$"abc"; $"defgh"]) as (s1 & s2 & H1 & H2 & H3 & _).
  - lia.
  - lia.
  - exact sample_sched_ok.
  - repeat constructor; vm_compute; done.
  - exists s1, s2. split_and!; [exact H1|exact H2|exact H3].
Defined.

Lemma strings_roundtrip_witness :
  exists s1 s2 s3,
    writeStrings [$"a"; $"bc"] (mkFdSink 4 (mkFd [] sample_sched)) = Ok s1 /\
    BufferedSink_flush FdSink_write s1 = Ok s2 /\
    readStrings (mkFdSource 3 (mkFd (fd_data (bs_under s2) ++ $"!") sample_sched))
      = Ok ([$"a"; $"bc"], s3) /\ source_rem s3 = $"!".
Proof.
  apply (strings_roundtrip [$"a"; $"bc"] ($"!") 4 3 sample_sched sample_sched);
    [cbn; lia|repeat constructor; vm_compute; done|lia|lia|lia|exact sample_sched_ok
    |exact sample_sched_ok].
Defined.

Lemma readInt_spec_witness : exists msg, readInt (mkStringSource ($"short") 0) = Throw (Exn eEndOfFile msg).
Proof. exact (readInt_spec (mkStringSource ($"short") 0) (Nat.le_0_l _)). Defined.
