(* ===== verification/Hash.v ===== *)
(** * Hashes and their textual representations (src/src/libutil/hash.cc)

    The [Hash] object, its base-16 and base-32 printers and parsers (with the
    in-place big-number division, multiplication and addition they are built
    from), [compressHash] and the hash-type names.  The theorems: the bignum
    routines compute on little-endian base-256 numbers, both representations
    round-trip, the base-32 parser accepts exactly the numbers that fit; a
    [HashSink], a file read in blocks and a string give the same hash. *)

From Stdlib Require Import ZArith Lia Ascii.
From stdpp Require Import base strings sorting numbers gmap sets list.
From S2P Require Import Prelude Serialise.

Local Open Scope Z_scope.

Inductive HashType : Type := htUnknown | htMD5 | htSHA1 | htSHA256.

#[export] Instance HashType_eq_dec : EqDecision HashType.
Proof. solve_decision. Defined.

Definition md5HashSize : nat := 16.
Definition sha1HashSize : nat := 20.
Definition sha256HashSize : nat := 32.
Definition maxHashSize : nat := 32.

(** [struct Hash]: [hash] is the array [unsigned char hash[maxHashSize]]. *)
Record Hash : Type := mkHash { hashSize : nat; hash : list Z; type : HashType }.

#[export] Instance Hash_eq_dec : EqDecision Hash.
Proof. solve_decision. Defined.

(** [Hash::Hash()]. *)
Definition Hash_default : Hash := mkHash 0 (replicate maxHashSize 0) htUnknown.

(** The sizes [Hash::Hash(HashType)] chooses from. *)
Definition hashTypeSize (ht : HashType) : option nat :=
  match ht with
  | htMD5 => Some md5HashSize
  | htSHA1 => Some sha1HashSize
  | htSHA256 => Some sha256HashSize
  | htUnknown => None
  end.

(** [Hash::Hash(HashType)]. *)
Definition Hash_new (ht : HashType) : result Hash :=
  match hashTypeSize ht with
  | None => error ($"unknown hash type")
  | Some n =>
      _ ← assert_ (n <=? maxHashSize)%nat;
      Ok (mkHash n (replicate maxHashSize 0) ht)
  end.

(** [Hash::operator ==]: compares the sizes and the first [hashSize] bytes,
    not the types. *)
Definition Hash_eqb (h h2 : Hash) : bool :=
  if (hashSize h =? hashSize h2)%nat
  then forallb (fun i => (hash h !!! i =? hash h2 !!! i)) (seq 0 (hashSize h))
  else false.

(** [Hash::operator !=]. *)
Definition Hash_neqb (h h2 : Hash) : bool := negb (Hash_eqb h h2).

(** [Hash::operator <]. *)
Fixpoint Hash_ltb_loop (h h2 : Hash) (ps : list nat) : bool :=
  match ps with
  | [] => false
  | i :: ps =>
      if hash h !!! i <? hash h2 !!! i then true
      else if hash h2 !!! i <? hash h !!! i then false
      else Hash_ltb_loop h h2 ps
  end.
Definition Hash_ltb (h h2 : Hash) : bool := Hash_ltb_loop h h2 (seq 0 (hashSize h)).

Definition base16Chars : str := $"0123456789abcdef".

(** [printHash]. *)
Definition printHash (h : Hash) : str :=
  flat_map (fun i =>
    [base16Chars !!! Z.to_nat (Z.shiftr (hash h !!! i) 4);
     base16Chars !!! Z.to_nat (Z.land (hash h !!! i) 15)]) (seq 0 (hashSize h)).

(** The value of a hexadecimal digit, as [istream >> std::hex] reads it. *)
Definition hex_val (c : ascii) : Z :=
  if isdigit c then byte_val c - 48
  else if in_range 97 102 c then byte_val c - 97 + 10
  else byte_val c - 65 + 10.

Fixpoint parseHash_loop (s : str) (ps : list nat) (bytes : list Z) : result (list Z) :=
  match ps with
  | [] => Ok bytes
  | i :: ps =>
      s2 ← substr s (i * 2) 2;
      if negb (isxdigit (s2 !!! 0%nat)) || negb (isxdigit (s2 !!! 1%nat))
      then error ($"invalid hash `" ++ s ++ $"'")
      else
        let n := hex_val (s2 !!! 0%nat) * 16 + hex_val (s2 !!! 1%nat) in
        parseHash_loop s ps (<[i := u8 n]> bytes)
  end.

(** [parseHash]. *)
Definition parseHash (ht : HashType) (s : str) : result Hash :=
  h ← Hash_new ht;
  if negb (length s =? hashSize h * 2)%nat
  then error ($"invalid hash `" ++ s ++ $"'")
  else
    bytes ← parseHash_loop s (seq 0 (hashSize h)) (hash h);
    Ok (mkHash (hashSize h) bytes (type h)).

(** [divMod]: the first loop skips the leading zero bytes, the second divides
    the remaining ones in place.  The argument [n] is [pos + 1]. *)
Fixpoint divMod_skip (bytes : list Z) (n : nat) : nat :=
  match n with
  | O => O
  | S pos => if bytes !!! pos =? 0 then divMod_skip bytes pos else n
  end.
Fixpoint divMod_loop (n : nat) (bytes : list Z) (borrow y : Z) : Z * list Z :=
  match n with
  | O => (borrow, bytes)
  | S pos =>
      let s := u32 (bytes !!! pos + u32 (Z.shiftl borrow 8)) in
      let d := s / y in
      divMod_loop pos (<[pos := u8 d]> bytes) (s mod y) y
  end.
Definition divMod (bytes : list Z) (y : Z) : Z * list Z :=
  let '(borrow, bytes') := divMod_loop (divMod_skip bytes maxHashSize) bytes 0 y in
  (u8 borrow, bytes').

(** [hashLength32], in [unsigned int] arithmetic. *)
Definition hashLength32 (h : Hash) : Z :=
  u32 (u32 (u32 (Z.of_nat (hashSize h) * 8) - 1) / 5 + 1).

Definition base32Chars : str := $"0123456789abcdfghijklmnpqrsvwxyz".

(** The loop of [printHash32]; the argument [n] is [pos + 1]. *)
Fixpoint printHash32_loop (n : nat) (bytes : list Z) (s : str) : list Z * str :=
  match n with
  | O => (bytes, s)
  | S pos =>
      let '(digit, bytes') := divMod bytes 32 in
      printHash32_loop pos bytes' (<[pos := base32Chars !!! Z.to_nat digit]> s)
  end.

(** [printHash32], with the [assert] that nothing is left of the number. *)
Definition printHash32 (h : Hash) : result str :=
  let len := Z.to_nat (hashLength32 h) in
  let '(bytes, s) := printHash32_loop len (hash h) (replicate len "0"%char) in
  _ ← assert_ (forallb (fun i => bytes !!! i =? 0) (seq 0 maxHashSize));
  Ok s.

(** [printHash16or32]. *)
Definition printHash16or32 (h : Hash) : result str :=
  if bool_decide (type h = htMD5) then Ok (printHash h) else printHash32 h.

(** [mul]: multiply the first [n] bytes by [y] in place; the result is the
    last carry. *)
Fixpoint mul_loop (bytes : list Z) (n : nat) (y carry : Z) : Z * list Z :=
  match n, bytes with
  | S n, b :: bs =>
      let m := u32 (b * y + carry) in
      let '(c, bs') := mul_loop bs n y (u8 (Z.shiftr m 8)) in
      (c, Z.land m 255 :: bs')
  | _, _ => (carry, bytes)
  end.
Definition mul (bytes : list Z) (y : Z) (maxSize : nat) : bool * list Z :=
  let '(c, bs) := mul_loop bytes maxSize y 0 in (negb (c =? 0), bs).

(** [add], with its early exit from the loop. *)
Fixpoint add_loop (bytes : list Z) (n : nat) (carry : Z) : Z * list Z :=
  match n, bytes with
  | S n, b :: bs =>
      let m := u32 (b + carry) in
      let carry' := u8 (Z.shiftr m 8) in
      if carry' =? 0 then (carry', Z.land m 255 :: bs)
      else let '(c, bs') := add_loop bs n carry' in (c, Z.land m 255 :: bs')
  | _, _ => (carry, bytes)
  end.
Definition add (bytes : list Z) (y : Z) (maxSize : nat) : bool * list Z :=
  let '(c, bs) := add_loop bytes maxSize y in (negb (c =? 0), bs).

(** The inner loop of [parseHash32]: the index of [c] in the alphabet, or its
    size when there is none. *)
Fixpoint base32_digit (chars : str) (c : ascii) : nat :=
  match chars with
  | [] => O
  | x :: chars => if char_eqb x c then O else S (base32_digit chars c)
  end.

Definition parseHash32_step (s : str) (n : nat) (bytes : list Z) (c : ascii) : result (list Z) :=
  let digit := base32_digit base32Chars c in
  if (32 <=? digit)%nat then error ($"invalid base-32 hash `" ++ s ++ $"'")
  else
    let '(over, bytes1) := mul bytes 32 n in
    if over then error ($"base-32 hash `" ++ s ++ $"' is too large")
    else
      let '(over, bytes2) := add bytes1 (Z.of_nat digit) n in
      if over then error ($"base-32 hash `" ++ s ++ $"' is too large")
      else Ok bytes2.

(** [parseHash32]. *)
Definition parseHash32 (ht : HashType) (s : str) : result Hash :=
  h ← Hash_new ht;
  bytes ← foldM (parseHash32_step s (hashSize h)) (hash h) s;
  Ok (mkHash (hashSize h) bytes (type h)).

(** [printHashType] and [parseHashType]. *)
Definition printHashType (ht : HashType) : result str :=
  match ht with
  | htMD5 => Ok ($"md5")
  | htSHA1 => Ok ($"sha1")
  | htSHA256 => Ok ($"sha256")
  | htUnknown => error ($"cannot print unknown hash type")
  end.
Definition parseHashType (s : str) : HashType :=
  if str_eqb s ($"md5") then htMD5
  else if str_eqb s ($"sha1") then htSHA1
  else if str_eqb s ($"sha256") then htSHA256
  else htUnknown.

(** [parseHash16or32]: the length decides the representation. *)
Definition parseHash16or32 (ht : HashType) (s : str) : result Hash :=
  h ← Hash_new ht;
  if (length s =? hashSize h * 2)%nat then parseHash ht s
  else if Z.of_nat (length s) =? hashLength32 h then parseHash32 ht s
  else
    t ← printHashType ht;
    error ($"hash `" ++ s ++ $"' has wrong length for hash type `" ++ t ++ $"'").

(** [isHash]. *)
Definition isHash (s : str) : bool :=
  if negb (length s =? 32)%nat then false
  else forallb (fun i => isdigit (s !!! i) || in_range 97 102 (s !!! i)) (seq 0 32).

(** [compressHash]. *)
Definition compressHash (h : Hash) (newSize : nat) : Hash :=
  mkHash newSize
    (foldl (fun bytes i =>
       <[(i mod newSize)%nat := Z.lxor (bytes !!! (i mod newSize)%nat) (hash h !!! i)]> bytes)
       (hash Hash_default) (seq 0 (hashSize h)))
    (type Hash_default).

(** * Reference semantics: little-endian base-256 numbers *)

Definition byte (b : Z) : Prop := 0 <= b < 256.

Fixpoint le_val (l : list Z) : Z :=
  match l with [] => 0 | b :: l => b + 256 * le_val l end.

(** A well-formed hash object: 32 byte values, zero from [hashSize] on. *)
Record hash_wf (h : Hash) : Prop := {
  wf_length : length (hash h) = maxHashSize;
  wf_bytes : Forall byte (hash h);
  wf_size : (hashSize h <= maxHashSize)%nat;
  wf_pad : drop (hashSize h) (hash h) = replicate (maxHashSize - hashSize h) 0 }.

(** The hash object that a constructor for type [ht] can produce. *)
Definition hash_ok (h : Hash) : Prop :=
  hash_wf h /\ hashTypeSize (type h) = Some (hashSize h).

Lemma le_val_app a b : le_val (a ++ b) = le_val a + 256 ^ Z.of_nat (length a) * le_val b.
Proof.
  induction a as [|x a IH]; cbn [app le_val length]; [cbn; lia|].
  rewrite IH, Nat2Z.inj_succ, Z.pow_succ_r by lia. lia.
Qed.

Lemma le_val_bound l : Forall byte l -> 0 <= le_val l < 256 ^ Z.of_nat (length l).
Proof.
  induction 1 as [|b l Hb Hl IH]; cbn [le_val length]; [cbn; lia|].
  rewrite Nat2Z.inj_succ, Z.pow_succ_r by lia. unfold byte in Hb. lia.
Qed.

Lemma le_val_inj a b :
  Forall byte a -> Forall byte b -> length a = length b -> le_val a = le_val b -> a = b.
Proof.
  intros Ha. revert b. induction Ha as [|x a Hx Ha IH]; intros [|y b] Hb Hl He; try done.
  inversion Hb; subst. cbn [le_val length] in *. unfold byte in *.
  assert (x = y) as -> by lia. f_equal. apply IH; [done|lia|lia].
Qed.

Lemma le_val_zeros n : le_val (replicate n 0) = 0.
Proof. induction n as [|n IH]; cbn [replicate le_val]; lia. Qed.

Lemma le_val_zero_inv l : Forall byte l -> le_val l = 0 -> Forall (fun b => b = 0) l.
Proof.
  induction 1 as [|b l Hb Hl IH]; cbn [le_val]; constructor;
    pose proof (le_val_bound l Hl); unfold byte in *; [lia|apply IH; lia].
Qed.

(** The bytes of a number, lowest first. *)
Fixpoint le_bytes (n : nat) (v : Z) : list Z :=
  match n with O => [] | S n => v mod 256 :: le_bytes n (v / 256) end.

Lemma le_bytes_length n v : length (le_bytes n v) = n.
Proof. revert v. induction n; intros; cbn; auto. Qed.

Lemma le_bytes_byte n v : Forall byte (le_bytes n v).
Proof.
  revert v. induction n as [|n IH]; intros; cbn; constructor; auto.
  apply Z.mod_pos_bound. lia.
Qed.

Lemma le_val_bytes n v : 0 <= v < 256 ^ Z.of_nat n -> le_val (le_bytes n v) = v.
Proof.
  revert v. induction n as [|n IH]; intros v Hv; cbn [le_bytes le_val].
  - cbn in Hv. lia.
  - rewrite Nat2Z.inj_succ, Z.pow_succ_r in Hv by lia.
    rewrite IH by (split; [apply Z.div_pos; lia|apply Z.div_lt_upper_bound; lia]).
    pose proof (Z.div_mod v 256). lia.
Qed.

Lemma byte_lookup l i : Forall byte l -> (i < length l)%nat -> byte (l !!! i).
Proof.
  intros Hl Hi. rewrite Forall_lookup in Hl. apply (Hl i).
  by apply list_lookup_lookup_total_lt.
Qed.

(** ** Division *)

Lemma divMod_skip_zero bytes n y :
  (n <= length bytes)%nat -> 0 < y < 256 ->
  divMod_loop (divMod_skip bytes n) bytes 0 y = divMod_loop n bytes 0 y.
Proof.
  intros Hn Hy. induction n as [|pos IH]; cbn [divMod_skip]; [done|].
  destruct (Z.eqb_spec (bytes !!! pos) 0) as [Hz|]; [|done].
  rewrite IH by lia. cbn [divMod_loop]. rewrite Hz.
  change (Z.shiftl 0 8) with 0. change (u32 (0 + u32 0)) with 0.
  rewrite Z.div_0_l, Z.mod_0_l by lia. change (u8 0) with 0.
  rewrite list_insert_id; [done|]. rewrite <- Hz.
  apply list_lookup_lookup_total_lt. lia.
Qed.

Lemma take_insert_S {A} `{Inhabited A} (l : list A) n (x : A) :
  (n < length l)%nat -> take (S n) (<[n := x]> l) = take n l ++ [x].
Proof.
  intros Hn. rewrite (take_S_r _ _ x) by by apply list_lookup_insert_eq.
  by rewrite take_insert_ge by lia.
Qed.

Lemma take_S_total {A} `{Inhabited A} (l : list A) n :
  (n < length l)%nat -> take (S n) l = take n l ++ [l !!! n].
Proof. intros Hn. by apply take_S_r, list_lookup_lookup_total_lt. Qed.

Lemma divMod_loop_spec n bytes borrow y r bytes' :
  0 < y < 256 -> 0 <= borrow < y -> Forall byte bytes -> (n <= length bytes)%nat ->
  divMod_loop n bytes borrow y = (r, bytes') ->
  Forall byte bytes' /\ length bytes' = length bytes /\ drop n bytes' = drop n bytes /\
  0 <= r < y /\
  borrow * 256 ^ Z.of_nat n + le_val (take n bytes) = y * le_val (take n bytes') + r.
Proof.
  intros Hy. revert bytes borrow. induction n as [|pos IH]; intros bytes borrow Hb Hl Hn Heq.
  { cbn in Heq. simplify_eq. rewrite !take_0. cbn [le_val]. split_and!; try done; lia. }
  cbn [divMod_loop] in Heq. rewrite Z.shiftl_mul_pow2 in Heq by lia.
  pose proof (byte_lookup bytes pos Hl ltac:(lia)) as Hbyte. unfold byte in Hbyte.
  rewrite (u32_small (borrow * 2 ^ 8)), u32_small in Heq by lia.
  remember (bytes !!! pos + borrow * 2 ^ 8) as s eqn:Hs.
  assert (0 <= s / y < 256) as Hd.
  { split; [apply Z.div_pos; lia|]. apply Z.div_lt_upper_bound; lia. }
  rewrite u8_small in Heq by done.
  pose proof (Z.mod_pos_bound s y ltac:(lia)) as Hm.
  apply IH in Heq as (Hl' & Hlen & Hdrop & Hr & Hval); [|done| |by rewrite length_insert; lia];
    [|by apply Forall_insert].
  rewrite length_insert in Hlen.
  assert (bytes' !!! pos = s / y) as Hpos.
  { apply list_lookup_total_correct. rewrite <- (Nat.add_0_r pos), <- lookup_drop, Hdrop,
      lookup_drop, Nat.add_0_r. apply list_lookup_insert_eq. lia. }
  split_and!; [done|done| |lia|lia|].
  { apply (f_equal (drop 1)) in Hdrop. rewrite !drop_drop in Hdrop.
    rewrite Nat.add_1_r in Hdrop. rewrite Hdrop, drop_insert_lt by lia. done. }
  rewrite !take_S_total, !le_val_app, Hpos by lia.
  rewrite take_insert_ge in Hval by lia.
  rewrite !length_take, !Nat.min_l by lia. cbn [le_val].
  rewrite Nat2Z.inj_succ, Z.pow_succ_r by lia.
  pose proof (Z.div_mod s y ltac:(lia)) as Hdm.
  replace (bytes !!! pos) with (y * (s / y) + s mod y - borrow * 2 ^ 8) by lia. nia.
Qed.

(** [divMod] divides the little-endian number by [y]. *)
Lemma divMod_spec bytes y r bytes' :
  0 < y < 256 -> Forall byte bytes -> length bytes = maxHashSize ->
  divMod bytes y = (r, bytes') ->
  Forall byte bytes' /\ length bytes' = maxHashSize /\
  r = le_val bytes mod y /\ le_val bytes' = le_val bytes / y.
Proof.
  intros Hy Hb Hl. unfold divMod.
  rewrite divMod_skip_zero by lia.
  destruct (divMod_loop maxHashSize bytes 0 y) as [r0 bs] eqn:Heq. intros [= <- <-].
  apply divMod_loop_spec in Heq as (Hbs & Hlen & _ & Hr & Hval); [|lia..|done|lia].
  rewrite !firstn_all2 in Hval by lia. rewrite u8_small by lia.
  split_and!; [done|lia| |].
  - apply Z.mod_unique_pos with (q := le_val bs); lia.
  - apply Z.div_unique_pos with (r := r0); lia.
Qed.

(** ** Base-32 numbers *)

Definition b32 (c : ascii) : Z := Z.of_nat (base32_digit base32Chars c).
Definition be32_from (v : Z) (s : str) : Z := foldl (fun v c => v * 32 + b32 c) v s.
Definition be32_val (s : str) : Z := be32_from 0 s.
Definition be32_valid (s : str) : bool := forallb (fun c => b32 c <? 32) s.

Lemma be32_from_app v a b : be32_from v (a ++ b) = be32_from (be32_from v a) b.
Proof. apply foldl_app. Qed.

Lemma b32_nonneg c : 0 <= b32 c.
Proof. unfold b32. lia. Qed.

Lemma be32_from_ge v s : 0 <= v -> v <= be32_from v s.
Proof.
  revert v. induction s as [|c s IH]; intros v Hv; cbn; [lia|].
  pose proof (b32_nonneg c). etransitivity; [|apply IH]; lia.
Qed.

Lemma b32_char d : 0 <= d < 32 -> b32 (base32Chars !!! Z.to_nat d) = d.
Proof.
  intros Hd.
  assert (forallb (fun i => b32 (base32Chars !!! i) =? Z.of_nat i) (seq 0 32) = true) as H
    by (vm_compute; reflexivity).
  rewrite forallb_forall in H. specialize (H (Z.to_nat d)).
  rewrite in_seq, Z.eqb_eq, Z2Nat.id in H by lia. apply H. lia.
Qed.

Lemma be32_valid_app a b : be32_valid (a ++ b) = be32_valid a && be32_valid b.
Proof. apply forallb_app. Qed.

(** *** Printing *)

Lemma printHash32_loop_spec n bytes s bytes' s' :
  Forall byte bytes -> length bytes = maxHashSize -> (n <= length s)%nat ->
  printHash32_loop n bytes s = (bytes', s') ->
  Forall byte bytes' /\ length bytes' = maxHashSize /\
  le_val bytes' = le_val bytes / 32 ^ Z.of_nat n /\
  length s' = length s /\ drop n s' = drop n s /\
  be32_valid (take n s') = true /\ be32_val (take n s') = le_val bytes mod 32 ^ Z.of_nat n.
Proof.
  revert bytes s. induction n as [|pos IH]; intros bytes s Hb Hl Hn Heq.
  { cbn in Heq. simplify_eq. rewrite take_0, Z.div_1_r, Z.mod_1_r. done. }
  cbn [printHash32_loop] in Heq. destruct (divMod bytes 32) as [digit bs] eqn:Hd.
  apply divMod_spec in Hd as (Hbs & Hlen & -> & Hv); [|lia|done|done].
  apply IH in Heq as (Hb' & Hl' & Hv' & Hs & Hdrop & Hval & Hbe);
    [|done|done|rewrite length_insert; lia].
  rewrite length_insert in Hs.
  pose proof (Z.mod_pos_bound (le_val bytes) 32 ltac:(lia)) as Hm.
  assert (s' !!! pos = base32Chars !!! Z.to_nat (le_val bytes mod 32)) as Hpos.
  { apply list_lookup_total_correct. rewrite <- (Nat.add_0_r pos), <- lookup_drop, Hdrop,
      lookup_drop, Nat.add_0_r. apply list_lookup_insert_eq. lia. }
  rewrite Nat2Z.inj_succ, Z.pow_succ_r by lia. rewrite !take_S_total, Hpos by lia.
  split_and!; [done|done| |lia| | |].
  - rewrite Hv', Hv, Z.div_div by lia. done.
  - apply (f_equal (drop 1)) in Hdrop. rewrite !drop_drop, Nat.add_1_r in Hdrop.
    by rewrite Hdrop, drop_insert_lt by lia.
  - rewrite be32_valid_app, Hval. cbn. rewrite b32_char by lia.
    apply andb_true_iff. split; [apply Z.ltb_lt; lia|done].
  - unfold be32_val in *. rewrite be32_from_app, Hbe, Hv. cbn. rewrite b32_char by lia.
    rewrite Z.rem_mul_r by lia. lia.
Qed.

Lemma hashLength32_val h :
  (0 < hashSize h <= maxHashSize)%nat ->
  hashLength32 h = (Z.of_nat (hashSize h) * 8 - 1) / 5 + 1.
Proof.
  intros H. unfold hashLength32, maxHashSize in *.
  rewrite (u32_small (Z.of_nat _ * 8)), (u32_small (_ - 1)) by lia.
  apply u32_small. pose proof (Z.div_mod (Z.of_nat (hashSize h) * 8 - 1) 5).
  pose proof (Z.mod_pos_bound (Z.of_nat (hashSize h) * 8 - 1) 5). lia.
Qed.

Lemma pow_256_32 n m : 0 <= 8 * n <= 5 * m -> 256 ^ n <= 32 ^ m.
Proof.
  intros H. change 256 with (2 ^ 8). change 32 with (2 ^ 5).
  rewrite <- !Z.pow_mul_r by lia. apply Z.pow_le_mono_r; lia.
Qed.

Lemma hash_wf_split h :
  hash_wf h -> hash h = take (hashSize h) (hash h) ++ replicate (maxHashSize - hashSize h) 0.
Proof. intros W. rewrite <- (wf_pad h W). symmetry. apply take_drop. Qed.

Lemma hash_wf_val h :
  hash_wf h -> 0 <= le_val (hash h) < 256 ^ Z.of_nat (hashSize h).
Proof.
  intros W. rewrite (hash_wf_split h W), le_val_app, le_val_zeros, Z.mul_0_r, Z.add_0_r.
  pose proof (le_val_bound (take (hashSize h) (hash h)) (Forall_take _ _ _ (wf_bytes h W))) as B.
  rewrite length_take, Nat.min_l in B by (rewrite (wf_length h W); apply W). done.
Qed.

(** The printer never trips its [assert], and prints the number that the
    bytes stand for with exactly [hashLength32] digits. *)
Lemma printHash32_value h :
  hash_wf h -> (0 < hashSize h)%nat ->
  exists s, printHash32 h = Ok s /\ Z.of_nat (length s) = hashLength32 h /\
    be32_valid s = true /\ be32_val s = le_val (hash h).
Proof.
  intros W Hpos. unfold printHash32.
  pose proof (hashLength32_val h (conj Hpos (wf_size h W))) as Hlen.
  set (len := Z.to_nat (hashLength32 h)).
  pose proof (Z.div_mod (Z.of_nat (hashSize h) * 8 - 1) 5 ltac:(lia)) as Hdm.
  pose proof (Z.mod_pos_bound (Z.of_nat (hashSize h) * 8 - 1) 5 ltac:(lia)) as Hm.
  assert (Z.of_nat len = hashLength32 h) as HL by (unfold len; lia).
  destruct (printHash32_loop len (hash h) (replicate len "0"%char)) as [bs s] eqn:E.
  apply printHash32_loop_spec in E as (Hb & Hl & Hv & Hs & _ & Hval & Hbe);
    [|apply W|apply W|by rewrite length_replicate].
  rewrite length_replicate in Hs. rewrite <- Hs, firstn_all in Hval, Hbe.
  pose proof (hash_wf_val h W) as Hbound.
  pose proof (pow_256_32 (Z.of_nat (hashSize h)) (Z.of_nat len) ltac:(lia)) as Hpow.
  rewrite Z.div_small in Hv by lia. rewrite Hs, Z.mod_small in Hbe by lia.
  exists s. split_and!; [|lia|done|done].
  replace (forallb (fun i => bs !!! i =? 0) (seq 0 maxHashSize)) with true; [done|].
  symmetry. apply forallb_forall. intros i [_ Hi]%in_seq. apply Z.eqb_eq.
  pose proof (le_val_zero_inv bs Hb Hv) as Hz. rewrite Forall_lookup in Hz.
  apply (Hz i). apply list_lookup_lookup_total_lt. lia.
Qed.

(** *** Parsing *)

Lemma land_255 m : 0 <= m -> Z.land m 255 = m mod 256.
Proof. intros. change 255 with (Z.ones 8). by rewrite Z.land_ones by lia. Qed.

Lemma shiftr_8 m : Z.shiftr m 8 = m / 256.
Proof. by rewrite Z.shiftr_div_pow2 by lia. Qed.

(** What [mul] and [add] share: a loop over the first [n] bytes that moves an
    excess [c] out at the top. *)
Definition carries (n : nat) (bytes bytes' : list Z) (v c : Z) : Prop :=
  Forall byte bytes' /\ length bytes' = length bytes /\ drop n bytes' = drop n bytes /\
  v = le_val (take n bytes') + 256 ^ Z.of_nat n * c.

Lemma carries_cons n b bs bs' v c x :
  byte x -> carries n bs bs' v c -> carries (S n) (b :: bs) (x :: bs') (x + 256 * v) c.
Proof.
  intros Hx (Hb & Hl & Hd & ->). unfold carries.
  rewrite Nat2Z.inj_succ, Z.pow_succ_r by lia. cbn.
  split_and!; [by constructor|lia|done|lia].
Qed.

Lemma mul_loop_spec n bytes y carry c bytes' :
  0 < y < 256 -> 0 <= carry < y -> Forall byte bytes -> (n <= length bytes)%nat ->
  mul_loop bytes n y carry = (c, bytes') ->
  0 <= c < y /\ carries n bytes bytes' (le_val (take n bytes) * y + carry) c.
Proof.
  intros Hy. revert bytes carry c bytes'.
  induction n as [|n IH]; intros bytes carry c bytes' Hc Hb Hn Heq.
  { assert (mul_loop bytes 0 y carry = (carry, bytes)) as E by by destruct bytes.
    rewrite E in Heq. simplify_eq. split; [done|]. split_and!; try done.
    rewrite take_0. cbn [le_val]. change (256 ^ Z.of_nat 0) with 1. lia. }
  destruct bytes as [|b bs]; [cbn in Hn; lia|].
  apply Forall_cons_iff in Hb as [Hb Hbs]. unfold byte in Hb. cbn [mul_loop] in Heq.
  rewrite u32_small, shiftr_8 in Heq by nia. rewrite land_255 in Heq by nia.
  assert (0 <= (b * y + carry) / 256 < y) as Hc'.
  { split; [apply Z.div_pos; nia|]. apply Z.div_lt_upper_bound; nia. }
  rewrite u8_small in Heq by lia.
  destruct (mul_loop bs n y _) as [c0 bs'] eqn:E. simplify_eq.
  apply IH in E as [Hc0 HC]; [|done|done|cbn in Hn; lia]. split; [done|].
  apply (carries_cons n b _ _ _ _ ((b * y + carry) mod 256)) in HC;
    [|apply Z.mod_pos_bound; lia].
  cbn [take le_val]. pose proof (Z.div_mod (b * y + carry) 256 ltac:(lia)).
  replace ((b + 256 * le_val (take n bs)) * y + carry) with
    ((b * y + carry) mod 256 + 256 * (le_val (take n bs) * y + (b * y + carry) / 256)) by nia.
  done.
Qed.

Lemma add_loop_spec n bytes carry c bytes' :
  0 <= carry < 256 -> Forall byte bytes -> (n <= length bytes)%nat ->
  add_loop bytes n carry = (c, bytes') ->
  0 <= c /\ carries n bytes bytes' (le_val (take n bytes) + carry) c.
Proof.
  revert bytes carry c bytes'.
  induction n as [|n IH]; intros bytes carry c bytes' Hc Hb Hn Heq.
  { assert (add_loop bytes 0 carry = (carry, bytes)) as E by by destruct bytes.
    rewrite E in Heq. simplify_eq. split; [lia|]. split_and!; try done.
    rewrite take_0. cbn [le_val]. change (256 ^ Z.of_nat 0) with 1. lia. }
  destruct bytes as [|b bs]; [cbn in Hn; lia|].
  apply Forall_cons_iff in Hb as [Hb Hbs]. unfold byte in Hb. cbn [add_loop] in Heq.
  rewrite u32_small, shiftr_8, land_255 in Heq by lia.
  assert (0 <= (b + carry) / 256 < 2) as Hc'.
  { split; [apply Z.div_pos; lia|]. apply Z.div_lt_upper_bound; lia. }
  rewrite u8_small in Heq by lia.
  pose proof (Z.div_mod (b + carry) 256 ltac:(lia)) as Hdm.
  assert (byte ((b + carry) mod 256)) by (apply Z.mod_pos_bound; lia).
  cbn [take le_val].
  replace (b + 256 * le_val (take n bs) + carry) with
    ((b + carry) mod 256 + 256 * (le_val (take n bs) + (b + carry) / 256)) by lia.
  destruct (Z.eqb_spec ((b + carry) / 256) 0) as [Hz|Hz].
  - simplify_eq. rewrite Hz. split; [lia|]. apply carries_cons; [done|].
    split_and!; [done..|lia].
  - destruct (add_loop bs n _) as [c0 bs'] eqn:E. simplify_eq.
    apply IH in E as [Hc0 HC]; [|lia|done|cbn in Hn; lia]. split; [done|].
    by apply carries_cons.
Qed.

(** The number under construction: [n] significant bytes, zeros above. *)
Definition bytes_ok (n : nat) (bytes : list Z) : Prop :=
  length bytes = maxHashSize /\ Forall byte bytes /\
  drop n bytes = replicate (maxHashSize - n) 0.

Lemma bytes_ok_carries n bytes bytes' v :
  bytes_ok n bytes -> carries n bytes bytes' v 0 -> bytes_ok n bytes' /\ le_val (take n bytes') = v.
Proof.
  intros (Hl & Hb & Hd) (Hb' & Hl' & Hd' & ->). rewrite Z.mul_0_r, Z.add_0_r.
  split; [|done]. split_and!; [lia|done|congruence].
Qed.

Lemma bytes_ok_bound n bytes :
  bytes_ok n bytes -> (n <= maxHashSize)%nat -> 0 <= le_val (take n bytes) < 256 ^ Z.of_nat n.
Proof.
  intros (Hl & Hb & _) Hn. pose proof (le_val_bound (take n bytes) (Forall_take _ _ _ Hb)) as B.
  by rewrite length_take, Nat.min_l in B by lia.
Qed.

Lemma carries_overflow n bytes bytes' v c :
  (n <= maxHashSize)%nat -> length bytes = maxHashSize ->
  carries n bytes bytes' v c -> 0 <= c -> c = 0 /\ v < 256 ^ Z.of_nat n \/ 0 < c /\ 256 ^ Z.of_nat n <= v.
Proof.
  intros Hn Hlen (Hb & Hl & _ & ->) Hc.
  pose proof (le_val_bound (take n bytes') (Forall_take _ _ _ Hb)) as B.
  rewrite length_take, Nat.min_l in B by lia.
  destruct (decide (c = 0)) as [->|]; [left; lia|right; nia].
Qed.

Lemma parseHash32_step_spec n s bytes c :
  bytes_ok n bytes -> (n <= maxHashSize)%nat ->
  match parseHash32_step s n bytes c with
  | Ok bs => bytes_ok n bs /\ b32 c < 32 /\
      le_val (take n bs) = le_val (take n bytes) * 32 + b32 c
  | Throw e => exn_kind e = eError /\
      (32 <= b32 c \/ 256 ^ Z.of_nat n <= le_val (take n bytes) * 32 + b32 c)
  | NoFuel => False
  end.
Proof.
  intros HB Hn. pose proof HB as (Hl & Hb & _). unfold parseHash32_step.
  pose proof (b32_nonneg c) as Hc.
  destruct (Nat.leb_spec 32 (base32_digit base32Chars c)) as [Hd|Hd].
  { cbn. split; [done|]. left. unfold b32. lia. }
  assert (b32 c < 32) as Hc' by (unfold b32; lia).
  unfold mul. destruct (mul_loop bytes n 32 0) as [c1 b1] eqn:E1.
  apply mul_loop_spec in E1 as [Hc1 HC1]; [|lia|lia|done|lia].
  rewrite Z.add_0_r in HC1.
  destruct (carries_overflow _ _ _ _ _ Hn Hl HC1 ltac:(lia)) as [[-> Hv]|[Hp Hv]].
  2: { destruct (Z.eqb_spec c1 0); [lia|]. cbn. split; [done|]. right. lia. }
  cbn. destruct (bytes_ok_carries _ _ _ _ HB HC1) as [HB1 Hv1]. pose proof HB1 as (Hl1 & Hb1 & _).
  unfold add. destruct (add_loop b1 n (Z.of_nat _)) as [c2 b2] eqn:E2.
  apply add_loop_spec in E2 as [Hc2 HC2]; [|unfold b32 in *; lia|done|lia].
  fold (b32 c) in HC2. rewrite Hv1 in HC2.
  destruct (carries_overflow _ _ _ _ _ Hn Hl1 HC2 ltac:(lia)) as [[-> Hv2]|[Hp Hv2]].
  2: { destruct (Z.eqb_spec c2 0); [lia|]. cbn. split; [done|]. right. lia. }
  cbn. destruct (bytes_ok_carries _ _ _ _ HB1 HC2) as [HB2 Hv3]. done.
Qed.

Lemma parseHash32_fold_spec n s0 s bytes :
  bytes_ok n bytes -> (n <= maxHashSize)%nat ->
  match foldM (parseHash32_step s0 n) bytes s with
  | Ok bs => bytes_ok n bs /\ be32_valid s = true /\
      le_val (take n bs) = be32_from (le_val (take n bytes)) s
  | Throw e => exn_kind e = eError /\
      (be32_valid s = false \/ 256 ^ Z.of_nat n <= be32_from (le_val (take n bytes)) s)
  | NoFuel => False
  end.
Proof.
  intros HB Hn. revert bytes HB. induction s as [|c s IH]; intros bytes HB; [done|].
  cbn [foldM be32_valid forallb]. unfold be32_from. cbn [foldl].
  fold (be32_from (le_val (take n bytes) * 32 + b32 c) s).
  pose proof (parseHash32_step_spec n s0 bytes c HB Hn) as HS.
  pose proof (bytes_ok_bound n bytes HB Hn) as Hbound. pose proof (b32_nonneg c).
  destruct (parseHash32_step s0 n bytes c) as [b1|e|]; [| |done].
  - destruct HS as (HB1 & Hc & Hv). cbn [mbind result_bind]. rewrite <- Hv.
    specialize (IH b1 HB1). rewrite (proj2 (Z.ltb_lt _ _)) by done. cbn [andb].
    destruct (foldM _ _ _); naive_solver.
  - cbn. destruct HS as [He [Hc|Hv]]; (split; [done|]).
    + left. by rewrite (proj2 (Z.ltb_ge _ _)) by lia.
    + right. pose proof (be32_from_ge (le_val (take n bytes) * 32 + b32 c) s ltac:(lia)). lia.
Qed.

(** The hash object of type [ht] that holds the number [v]. *)
Definition hash_of_val (ht : HashType) (n : nat) (v : Z) : Hash :=
  mkHash n (le_bytes n v ++ replicate (maxHashSize - n) 0) ht.

Lemma hashTypeSize_bound ht n : hashTypeSize ht = Some n -> (0 < n <= maxHashSize)%nat.
Proof. destruct ht; intros [= <-]; vm_compute; lia. Qed.

Lemma Hash_new_known ht n :
  hashTypeSize ht = Some n -> Hash_new ht = Ok (mkHash n (replicate maxHashSize 0) ht).
Proof. destruct ht; cbn; intros; simplify_eq; done. Qed.

Lemma bytes_ok_zero n : (n <= maxHashSize)%nat -> bytes_ok n (replicate maxHashSize 0).
Proof.
  intros Hn. split_and!; [done| |by rewrite drop_replicate].
  apply Forall_replicate. unfold byte. lia.
Qed.

Lemma bytes_ok_of_val n bs :
  (n <= maxHashSize)%nat -> bytes_ok n bs ->
  bs = le_bytes n (le_val (take n bs)) ++ replicate (maxHashSize - n) 0.
Proof.
  intros Hn HB. pose proof (bytes_ok_bound n bs HB Hn) as B. destruct HB as (Hl & Hb & Hd).
  rewrite <- Hd, <- (take_drop n bs) at 1. f_equal.
  apply le_val_inj; [by apply Forall_take|apply le_bytes_byte| |by rewrite le_val_bytes].
  rewrite le_bytes_length, length_take. lia.
Qed.

Lemma parseHash32_cases ht n s :
  hashTypeSize ht = Some n ->
  match parseHash32 ht s with
  | Ok h => be32_valid s = true /\ be32_val s < 256 ^ Z.of_nat n /\
      h = hash_of_val ht n (be32_val s)
  | Throw e => exn_kind e = eError /\ (be32_valid s = false \/ 256 ^ Z.of_nat n <= be32_val s)
  | NoFuel => False
  end.
Proof.
  intros Hht. unfold parseHash32. rewrite (Hash_new_known _ _ Hht).
  cbn [mbind result_bind hashSize hash type].
  pose proof (hashTypeSize_bound _ _ Hht) as Hn.
  pose proof (parseHash32_fold_spec n s s _ (bytes_ok_zero n ltac:(lia)) ltac:(lia)) as HS.
  rewrite take_replicate, le_val_zeros in HS. fold (be32_val s) in HS.
  destruct (foldM _ _ _) as [bs|e|]; [|done|done].
  destruct HS as (HB & Hv & Hval). pose proof (bytes_ok_bound n bs HB ltac:(lia)).
  split_and!; [done|lia|]. unfold hash_of_val. f_equal. rewrite <- Hval.
  apply bytes_ok_of_val; [lia|done].
Qed.

Lemma hash_of_val_id h : hash_ok h -> hash_of_val (type h) (hashSize h) (le_val (hash h)) = h.
Proof.
  intros [W Hht]. pose proof (hash_wf_val h W) as Hb.
  pose proof (hash_wf_split h W) as Hsplit. pose proof (wf_length h W) as Hl.
  pose proof (wf_size h W) as Hn.
  assert (bytes_ok (hashSize h) (hash h)) as HB by (split_and!; apply W).
  apply bytes_ok_of_val in HB; [|done].
  assert (le_val (take (hashSize h) (hash h)) = le_val (hash h)) as Hv.
  { rewrite Hsplit at 2. rewrite le_val_app, le_val_zeros. lia. }
  rewrite Hv in HB. destruct h; unfold hash_of_val; cbn in *. by rewrite <- HB.
Qed.

(** The base-32 parser, completely: for a known hash type it returns the
    number written in base 32 exactly when every character is in the alphabet
    and the number fits in the hash, and throws [Error] otherwise. *)
Theorem parseHash32_spec ht n s :
  hashTypeSize ht = Some n ->
  (be32_valid s = true /\ be32_val s < 256 ^ Z.of_nat n /\
    parseHash32 ht s = Ok (hash_of_val ht n (be32_val s))) \/
  ((be32_valid s = false \/ 256 ^ Z.of_nat n <= be32_val s) /\
    exists msg, parseHash32 ht s = Throw (Exn eError msg)).
Proof.
  intros Hht. pose proof (parseHash32_cases ht n s Hht) as HC.
  destruct (parseHash32 ht s) as [h|[k msg]|]; [| |done].
  - left. destruct HC as (? & ? & ->). done.
  - right. destruct HC as [Hk HC]. cbn in Hk. subst k. eauto.
Qed.

Lemma parse_print_hash32 h :
  hash_ok h -> exists s, printHash32 h = Ok s /\ Z.of_nat (length s) = hashLength32 h /\
    parseHash32 (type h) s = Ok h.
Proof.
  intros [W Hht]. pose proof (hashTypeSize_bound _ _ Hht) as Hn.
  destruct (printHash32_value h W ltac:(lia)) as (s & Hs & Hlen & Hvalid & Hval).
  exists s. split_and!; [done|done|].
  pose proof (parseHash32_cases _ _ s Hht) as HC. pose proof (hash_wf_val h W).
  rewrite Hvalid, Hval in HC. destruct (parseHash32 _ _); [| |done].
  - destruct HC as (_ & _ & ->). by rewrite hash_of_val_id.
  - destruct HC as [_ [|]]; [done|lia].
Qed.

(** *** Base 16 *)

Lemma base16_char d :
  0 <= d < 16 -> let c := base16Chars !!! Z.to_nat d in isxdigit c = true /\ hex_val c = d.
Proof.
  intros Hd c.
  assert (forallb (fun i => let c := base16Chars !!! i in
    isxdigit c && (hex_val c =? Z.of_nat i)) (seq 0 16) = true) as H by (vm_compute; reflexivity).
  rewrite forallb_forall in H. specialize (H (Z.to_nat d)).
  rewrite in_seq, andb_true_iff, Z.eqb_eq, Z2Nat.id in H by lia. apply H. lia.
Qed.

Lemma nibbles b : byte b ->
  0 <= Z.shiftr b 4 < 16 /\ 0 <= Z.land b 15 < 16 /\ Z.shiftr b 4 * 16 + Z.land b 15 = b.
Proof.
  unfold byte. intros Hb. rewrite Z.shiftr_div_pow2 by lia.
  change 15 with (Z.ones 4). rewrite Z.land_ones by lia. change (2 ^ 4) with 16.
  pose proof (Z.div_mod b 16). pose proof (Z.mod_pos_bound b 16).
  lia.
Qed.

Lemma flat_map_pairs {A} (f : nat -> list A) n i :
  (forall j, length (f j) = 2%nat) -> (i <= n)%nat ->
  drop (i * 2) (flat_map f (seq 0 n)) = flat_map f (seq i (n - i)).
Proof.
  intros Hf Hi. replace n with (i + (n - i))%nat at 1 by lia.
  rewrite seq_app, flat_map_app. cbn.
  assert (forall k, length (flat_map f (seq k i)) = i * 2)%nat as Hl.
  { clear Hi. induction i as [|i IH]; intros k; cbn; [done|].
    rewrite length_app, Hf, IH. lia. }
  rewrite <- (Hl 0%nat). apply drop_app_length.
Qed.

Lemma length_printHash h : length (printHash h) = (hashSize h * 2)%nat.
Proof.
  unfold printHash. generalize (seq 0 (hashSize h)), (length_seq (hashSize h) 0).
  intros l <-. induction l as [|i l IH]; cbn in *; [done|]. by rewrite IH.
Qed.

Lemma printHash_substr h i :
  (i < hashSize h)%nat ->
  substr (printHash h) (i * 2) 2 =
    Ok [base16Chars !!! Z.to_nat (Z.shiftr (hash h !!! i) 4);
        base16Chars !!! Z.to_nat (Z.land (hash h !!! i) 15)].
Proof.
  intros Hi. unfold substr. rewrite length_printHash, (proj2 (Nat.leb_le _ _)) by lia.
  unfold printHash. rewrite flat_map_pairs by (done || lia).
  replace (hashSize h - i)%nat with (S (hashSize h - S i)) by lia. done.
Qed.

Lemma parseHash_loop_print h i k bytes :
  hash_wf h -> (i + k = hashSize h)%nat -> length bytes = maxHashSize ->
  parseHash_loop (printHash h) (seq i k) bytes =
    Ok (take i bytes ++ take k (drop i (hash h)) ++ drop (i + k) bytes).
Proof.
  intros W. pose proof (wf_length h W) as HL. pose proof (wf_size h W) as HS.
  revert i bytes. induction k as [|k IH]; intros i bytes Hik Hl.
  { rewrite take_0, Nat.add_0_r, app_nil_l, take_drop. done. }
  cbn [seq parseHash_loop]. rewrite printHash_substr by lia. cbn [mbind result_bind].
  pose proof (byte_lookup (hash h) i (wf_bytes h W) ltac:(lia)) as Hb.
  destruct (nibbles _ Hb) as (H1 & H2 & H3).
  destruct (base16_char _ H1) as [X1 V1], (base16_char _ H2) as [X2 V2].
  cbn [lookup_total list_lookup_total]. rewrite X1, X2, V1, V2, H3, u8_small by done.
  cbn [negb orb]. rewrite IH by (try rewrite length_insert; lia). f_equal.
  rewrite take_insert_S, drop_insert_lt, <- app_assoc, <- Nat.add_succ_comm by lia.
  rewrite (drop_S (hash h) (hash h !!! i) i) by (apply list_lookup_lookup_total_lt; lia). done.
Qed.

Lemma parse_print_hash16 h : hash_ok h -> parseHash (type h) (printHash h) = Ok h.
Proof.
  intros [W Hht]. unfold parseHash. rewrite (Hash_new_known _ _ Hht).
  cbn [mbind result_bind hashSize hash type].
  rewrite length_printHash, Nat.eqb_refl. cbn [negb].
  pose proof (wf_length h W). pose proof (wf_size h W). pose proof (wf_pad h W) as Hpad.
  rewrite parseHash_loop_print by (done || by rewrite length_replicate).
  cbn [mbind result_bind]. rewrite Nat.add_0_l, drop_replicate, take_0, drop_0, app_nil_l.
  rewrite <- Hpad, take_drop. by destruct h.
Qed.

Lemma hash_ok_lengths h :
  hash_ok h -> Z.of_nat (hashSize h * 2) <> hashLength32 h.
Proof.
  intros [_ Hht]. unfold hashLength32.
  destruct (type h); inversion Hht; vm_compute; discriminate.
Qed.

Lemma hashLength32_size h h' : hashSize h = hashSize h' -> hashLength32 h = hashLength32 h'.
Proof. intros E. unfold hashLength32. by rewrite E. Qed.

(** C29: the textual representations of a hash round-trip, for every hash
    object a constructor can produce.  Base-32 printing returns (its final
    [assert] holds) exactly [hashLength32] digits; [parseHash] reads base 16,
    [parseHash32] base 32, and [parseHash16or32] tells the two apart by their
    length alone. *)
Theorem parse_print_hash h :
  hash_ok h ->
  parseHash (type h) (printHash h) = Ok h /\
  parseHash16or32 (type h) (printHash h) = Ok h /\
  exists s, printHash32 h = Ok s /\ Z.of_nat (length s) = hashLength32 h /\
    parseHash32 (type h) s = Ok h /\ parseHash16or32 (type h) s = Ok h.
Proof.
  intros HO. pose proof HO as [W Hht]. pose proof (hash_ok_lengths h HO) as Hne.
  destruct (parse_print_hash32 h HO) as (s & Hs & Hlen & H32).
  unfold parseHash16or32. rewrite (Hash_new_known _ _ Hht).
  cbn [mbind result_bind hashSize hash type].
  rewrite length_printHash, Nat.eqb_refl, parse_print_hash16 by done.
  split_and!; [done..|]. exists s. split_and!; [done..|].
  destruct (Nat.eqb_spec (length s) (hashSize h * 2)); [lia|].
  by rewrite (hashLength32_size _ h), Hlen, Z.eqb_refl by done.
Qed.

(** ** Compression *)

Definition xor_at (n i : nat) (src : list Z) (a : Z) (j : nat) : Z :=
  if (j mod n =? i)%nat then Z.lxor a (src !!! j) else a.

Lemma compress_fold n (src bytes : list Z) js i :
  (0 < n <= length bytes)%nat -> (i < n)%nat ->
  foldl (fun bytes j =>
    <[(j mod n)%nat := Z.lxor (bytes !!! (j mod n)%nat) (src !!! j)]> bytes) bytes js !!! i
  = foldl (xor_at n i src) (bytes !!! i) js.
Proof.
  intros Hn Hi. revert bytes Hn. induction js as [|j js IH]; intros bytes Hn; cbn; [done|].
  pose proof (Nat.mod_upper_bound j n ltac:(lia)).
  rewrite IH by (rewrite length_insert; lia). f_equal. unfold xor_at.
  destruct (Nat.eqb_spec (j mod n) i) as [->|Hne].
  - by rewrite list_lookup_total_insert_eq by lia.
  - by rewrite list_lookup_total_insert_ne.
Qed.

Lemma compress_length n (src bytes : list Z) js :
  length (foldl (fun bytes j =>
    <[(j mod n)%nat := Z.lxor (bytes !!! (j mod n)%nat) (src !!! j)]> bytes) bytes js)
  = length bytes.
Proof.
  revert bytes. induction js as [|j js IH]; intros bytes; cbn; [done|].
  by rewrite IH, length_insert.
Qed.

Lemma lxor_byte a b : byte a -> byte b -> byte (Z.lxor a b).
Proof.
  unfold byte. intros Ha Hb. split; [apply Z.lxor_nonneg; lia|].
  destruct (decide (Z.lxor a b = 0)) as [->|Hne]; [lia|].
  assert (0 < Z.lxor a b) by (pose proof (proj2 (Z.lxor_nonneg a b)); lia).
  change 256 with (2 ^ 8). apply Z.log2_lt_pow2; [done|].
  eapply Z.le_lt_trans; [apply Z.log2_lxor; lia|].
  assert (forall c, 0 <= c < 256 -> Z.log2 c < 8) as Hlog.
  { intros c Hc. destruct (decide (c = 0)) as [->|]; [cbn; lia|].
    apply Z.log2_lt_pow2; lia. }
  apply Z.max_lub_lt; apply Hlog; lia.
Qed.

Lemma compress_bytes n (src bytes : list Z) js :
  Forall byte bytes -> length bytes = maxHashSize -> Forall byte src -> (0 < n <= maxHashSize)%nat ->
  Forall (fun j => (j < length src)%nat) js ->
  Forall byte (foldl (fun bytes j =>
    <[(j mod n)%nat := Z.lxor (bytes !!! (j mod n)%nat) (src !!! j)]> bytes) bytes js) /\
  drop n (foldl (fun bytes j =>
    <[(j mod n)%nat := Z.lxor (bytes !!! (j mod n)%nat) (src !!! j)]> bytes) bytes js)
  = drop n bytes.
Proof.
  intros Hb Hl Hsrc Hn Hjs. revert bytes Hb Hl.
  induction Hjs as [|j js Hj Hjs IH]; intros bytes Hb Hl; cbn; [done|].
  pose proof (Nat.mod_upper_bound j n ltac:(lia)).
  destruct (IH (<[(j mod n)%nat := Z.lxor (bytes !!! (j mod n)%nat) (src !!! j)]> bytes)) as [IH1 IH2].
  - apply Forall_insert; [done|]. apply lxor_byte; apply byte_lookup; (done || lia).
  - by rewrite length_insert.
  - split; [done|]. rewrite IH2. by apply drop_insert_lt.
Qed.

Lemma compressHash_wf h n :
  hash_wf h -> (0 < n <= maxHashSize)%nat -> hash_wf (compressHash h n).
Proof.
  intros W Hn. unfold compressHash.
  assert (Forall (fun j => (j < length (hash h))%nat) (seq 0 (hashSize h))) as Hjs.
  { apply Forall_seq. intros j Hj. rewrite (wf_length h W). pose proof (wf_size h W). lia. }
  assert (Forall byte (replicate maxHashSize 0)) as Hz by (apply Forall_replicate; unfold byte; lia).
  destruct (compress_bytes n (hash h) (replicate maxHashSize 0) _ Hz eq_refl (wf_bytes h W) Hn Hjs)
    as [H1 H2].
  split; cbn [hash hashSize].
  - rewrite compress_length. done.
  - done.
  - lia.
  - cbn [hash Hash_default]. rewrite H2. apply drop_replicate.
Qed.

(** The 20-byte hash of a store path folds all 32 bytes of the SHA-256
    hash: byte [i] is the exclusive or of bytes [i] and [i + 20] (it is not a
    prefix of the hash), and the result is a well-formed hash object. *)
Theorem compressHash_20 h i :
  hash_wf h -> hashSize h = 32%nat -> (i < 20)%nat ->
  hash_wf (compressHash h 20) /\ hashSize (compressHash h 20) = 20%nat /\
  hash (compressHash h 20) !!! i =
    if (i <? 12)%nat then Z.lxor (hash h !!! i) (hash h !!! (i + 20)%nat) else hash h !!! i.
Proof.
  intros W Hs Hi. split_and!; [apply compressHash_wf; [done|unfold maxHashSize; lia]|done|].
  unfold compressHash. cbn [hash]. rewrite compress_fold by (cbn; lia). rewrite Hs.
  do 20 (destruct i as [|i]; [cbv [seq foldl]; cbn -[Z.lxor]; rewrite ?Z.lxor_0_l; done|]). lia.
Qed.

(** ** Equality *)

(** [operator ==] on well-formed hashes of the same type decides equality
    of the objects, and [operator !=] is its negation. *)
Theorem Hash_eqb_spec h h2 :
  hash_wf h -> hash_wf h2 -> type h = type h2 ->
  (Hash_eqb h h2 = true <-> h = h2) /\ Hash_neqb h h2 = negb (Hash_eqb h h2).
Proof.
  intros W W2 Ht. split; [|done]. unfold Hash_eqb.
  destruct (Nat.eqb_spec (hashSize h) (hashSize h2)) as [Hs|Hs]; [|split; [done|by intros ->]].
  rewrite forallb_forall. split; [|intros -> i _; apply Z.eqb_refl].
  intros HE. assert (hash h = hash h2) as E.
  { rewrite (hash_wf_split h W), (hash_wf_split h2 W2), Hs. f_equal.
    apply list_eq. intros i. destruct (decide (i < hashSize h2)%nat) as [Hi|Hi].
    - rewrite !lookup_take_lt by done. specialize (HE i).
      rewrite in_seq, Z.eqb_eq in HE. pose proof (wf_size h2 W2).
      rewrite !list_lookup_lookup_total_lt by (rewrite ?(wf_length h W), ?(wf_length h2 W2); lia).
      f_equal. apply HE. lia.
    - by rewrite !lookup_take_ge by lia. }
  destruct h, h2; cbn in *; by subst.
Qed.

(** ** Names of hash types *)

Lemma parse_print_hashType ht s : printHashType ht = Ok s -> parseHashType s = ht.
Proof. destruct ht; cbn; intros; simplify_eq; reflexivity. Qed.

(** * Hash functions

    MD5, SHA-1 and SHA-256 come from OpenSSL ([HAVE_OPENSSL]); they are a
    parameter: a context type with its three operations. *)

Class HashAlgo : Type := {
  Ctx : Type;
  ctx_init : HashType -> Ctx;
  ctx_update : HashType -> Ctx -> str -> Ctx;
  ctx_final : HashType -> Ctx -> list Z }.

(** Documented behaviour: a digest has the size of its type and depends only
    on the concatenation of the data passed to the update calls. *)
Class HashAlgoLaws `{HashAlgo} : Prop := {
  final_length ht n c : hashTypeSize ht = Some n -> length (ctx_final ht c) = n;
  final_bytes ht c : Forall byte (ctx_final ht c);
  final_chunks ht chunks :
    ctx_final ht (foldl (ctx_update ht) (ctx_init ht) chunks)
    = ctx_final ht (ctx_update ht (ctx_init ht) (concat chunks)) }.

Section HashFunctions.
Context `{HA : HashAlgo}.

(** [update]: the length is converted to [unsigned int]. *)
Definition hash_update (ht : HashType) (c : Ctx) (data : str) : Ctx :=
  ctx_update ht c (take (Z.to_nat (u32 (Z.of_nat (length data)))) data).

(** [finish]: the digest is written to the start of [hash.hash]. *)
Definition hash_finish (ht : HashType) (c : Ctx) (h : Hash) : Hash :=
  let d := ctx_final ht c in mkHash (hashSize h) (d ++ drop (length d) (hash h)) (type h).

(** [hashString]. *)
Definition hashString (ht : HashType) (s : str) : result Hash :=
  h ← Hash_new ht;
  Ok (hash_finish ht (hash_update ht (ctx_init ht) s) h).

(** The loop of [hashFile]: blocks of at most 8192 bytes until the end of
    the file; an interrupted read is an error like any other. *)
Definition hashFile_block : nat := Z.to_nat 8192.
Fixpoint hashFile_loop (fuel : nat) (ht : HashType) (c : Ctx) (fd : Fd) : result Ctx :=
  match fuel with
  | O => NoFuel
  | S fuel =>
      match sys_read hashFile_block fd with
      | (SysOk [], _) => Ok c
      | (SysOk d, fd) => hashFile_loop fuel ht (hash_update ht c d) fd
      | (_, _) => throw eSysError ($"reading file")
      end
  end.

(** [hashFile] of an opened file. *)
Definition hashFile (ht : HashType) (fd : Fd) : result Hash :=
  h ← Hash_new ht;
  c ← hashFile_loop (S (length (fd_data fd))) ht (ctx_init ht) fd;
  Ok (hash_finish ht c h).

(** [HashSink]: a buffered sink that feeds a context and counts bytes. *)
Record HashState : Type := mkHashState { hs_ht : HashType; hs_ctx : Ctx; hs_bytes : Z }.
Abbreviation HashSink := (BufferedSink HashState).

Definition HashSink_new (ht : HashType) : HashSink :=
  mkBufferedSink default_bufSize [] (mkHashState ht (ctx_init ht) 0).

(** [HashSink::write]. *)
Definition HashSink_write (w : HashState) (data : str) : result HashState :=
  Ok (mkHashState (hs_ht w) (hash_update (hs_ht w) (hs_ctx w) data)
        (u64 (hs_bytes w + Z.of_nat (length data)))).

#[export] Instance HashSink_sink : Sink HashSink := BufferedSink_write HashSink_write.

(** [HashSink::finish]. *)
Definition HashSink_finish (s : HashSink) : result (Hash * Z) :=
  s ← BufferedSink_flush HashSink_write s;
  h ← Hash_new (hs_ht (bs_under s));
  Ok (hash_finish (hs_ht (bs_under s)) (hs_ctx (bs_under s)) h, hs_bytes (bs_under s)).

(** [HashSink::currentHash]: works on a copy of the context, so the sink
    stays usable. *)
Definition HashSink_currentHash (s : HashSink) : result ((Hash * Z) * HashSink) :=
  s ← BufferedSink_flush HashSink_write s;
  h ← Hash_new (hs_ht (bs_under s));
  Ok ((hash_finish (hs_ht (bs_under s)) (hs_ctx (bs_under s)) h, hs_bytes (bs_under s)), s).

(** The hash of a byte sequence, fed in one update of any length. *)
Definition hash_of_bytes (ht : HashType) (n : nat) (l : str) : Hash :=
  hash_finish ht (ctx_update ht (ctx_init ht) l) (mkHash n (replicate maxHashSize 0) ht).
End HashFunctions.

Arguments HashState {HA}.

Section HashTheory.
Context `{HA : HashAlgo} {HL : HashAlgoLaws}.

Lemma hash_update_small ht c d : chunk_ok d -> hash_update ht c d = ctx_update ht c d.
Proof.
  unfold chunk_ok, hash_update. intros Hd. by rewrite u32_small, Nat2Z.id, firstn_all by lia.
Qed.

Lemma hash_of_bytes_ok ht n l : hashTypeSize ht = Some n -> hash_ok (hash_of_bytes ht n l).
Proof.
  intros Hn. pose proof (hashTypeSize_bound _ _ Hn) as B. unfold hash_of_bytes, hash_finish.
  cbn [hashSize hash type]. set (d := ctx_final _ _).
  assert (length d = n) as Hd by by apply final_length.
  split; [|done]. split; cbn [hashSize hash type].
  - rewrite length_app, length_drop, length_replicate. lia.
  - apply Forall_app. split; [apply final_bytes|]. apply Forall_drop, Forall_replicate.
    unfold byte. lia.
  - lia.
  - rewrite <- Hd, drop_app_length. apply drop_replicate.
Qed.

Lemma hash_finish_chunks ht n chunks :
  hash_finish ht (foldl (ctx_update ht) (ctx_init ht) chunks) (mkHash n (replicate maxHashSize 0) ht)
  = hash_of_bytes ht n (concat chunks).
Proof. unfold hash_of_bytes, hash_finish. by rewrite final_chunks. Qed.

(** A context that was fed the bytes [l] in some chunks, and counted them. *)
Definition hashstate_rep (ht : HashType) (w : HashState) (l : str) : Prop :=
  hs_ht w = ht /\ hs_bytes w = u64 (Z.of_nat (length l)) /\
  exists chunks, concat chunks = l /\ hs_ctx w = foldl (ctx_update ht) (ctx_init ht) chunks.

Lemma HashSink_write_law ht w l d :
  hashstate_rep ht w l -> chunk_ok d ->
  exists w', HashSink_write w d = Ok w' /\ hashstate_rep ht w' (l ++ d).
Proof.
  intros (<- & Hb & chunks & Hl & Hc) Hd. eexists. split; [done|]. split_and!; [done| |].
  - cbn. rewrite Hb, length_app, Nat2Z.inj_add. unfold u64. by rewrite Zplus_mod_idemp_l.
  - exists (chunks ++ [d]). rewrite concat_app, foldl_app, <- Hl, <- Hc. cbn.
    by rewrite app_nil_r, hash_update_small.
Qed.

#[export] Program Instance HashSink_laws : SinkLaws (BufferedSink HashState) := {|
  sink_rep s l := buffered_rep (hashstate_rep (hs_ht (bs_under s))) s l |}.
Next Obligation.
  intros s l d HR Hd.
  destruct (buffered_write_law HashSink_write (hashstate_rep (hs_ht (bs_under s))))
    with (s := s) (l := l) (d := d) as (s' & E & R'); [apply HashSink_write_law|done|done|].
  exists s'. split; [done|]. pose proof R' as (? & ? & ? & (Ht & _) & _). by rewrite Ht.
Qed.

Lemma HashSink_new_rep ht : sink_rep (HashSink_new ht) [].
Proof.
  split_and!; [cbn; unfold default_bufSize; lia|cbn; unfold default_bufSize; lia|].
  exists []. split; [|done]. split_and!; [done|done|]. by exists [].
Qed.

Lemma HashSink_finish_rep ht n s l :
  hs_ht (bs_under s) = ht -> hashTypeSize ht = Some n -> sink_rep s l ->
  HashSink_finish s = Ok (hash_of_bytes ht n l, u64 (Z.of_nat (length l))).
Proof.
  intros Hht Hn HR. cbn in HR. rewrite Hht in HR. unfold HashSink_finish.
  destruct (flush_law HashSink_write (hashstate_rep ht)) with (s := s) (l := l)
    as (s' & E & (Ht & Hb & chunks & Hl & Hc) & _); [apply HashSink_write_law|done|].
  rewrite E. cbn [mbind result_bind]. rewrite Ht, (Hash_new_known _ _ Hn).
  cbn [mbind result_bind]. by rewrite Hb, Hc, hash_finish_chunks, Hl.
Qed.

(** The same laws for the sinks of one hash type. *)
#[program] Definition HashSink_laws_at (ht : HashType) : SinkLaws (BufferedSink HashState) := {|
  sink_rep := buffered_rep (hashstate_rep ht) |}.
Next Obligation.
  intros ht s l d HR Hd.
  destruct (buffered_write_law HashSink_write (hashstate_rep ht)) with (s := s) (l := l) (d := d)
    as (s' & E & R'); [apply HashSink_write_law|done|done|]. by exists s'.
Qed.

Lemma HashSink_finish_at ht n s l :
  hashTypeSize ht = Some n -> sink_rep (SinkLaws := HashSink_laws_at ht) s l ->
  HashSink_finish s = Ok (hash_of_bytes ht n l, u64 (Z.of_nat (length l))).
Proof.
  intros Hn HR. pose proof HR as (? & ? & ? & (Ht & _) & _).
  apply HashSink_finish_rep; [done|done|]. cbn. by rewrite Ht.
Qed.

Lemma HashSink_new_at ht : sink_rep (SinkLaws := HashSink_laws_at ht) (HashSink_new ht) [].
Proof. apply (HashSink_new_rep ht). Qed.

Lemma hashString_bytes ht n l :
  hashTypeSize ht = Some n -> chunk_ok l -> hashString ht l = Ok (hash_of_bytes ht n l).
Proof.
  intros Hn Hl. unfold hashString. rewrite (Hash_new_known _ _ Hn). cbn [mbind result_bind].
  by rewrite hash_update_small.
Qed.

Lemma HashSink_ht_write s d s' :
  sink_write (S := BufferedSink HashState) s d = Ok s' -> hs_ht (bs_under s') = hs_ht (bs_under s).
Proof.
  assert (forall (s s' : BufferedSink HashState), BufferedSink_flush HashSink_write s = Ok s' ->
    hs_ht (bs_under s') = hs_ht (bs_under s)) as Hfl.
  { intros t t' E. unfold BufferedSink_flush in E.
    destruct (bs_buffer t); cbn in E; by inv_ok. }
  unfold sink_write, HashSink_sink, BufferedSink_write.
  generalize (S (length d)) as fuel. intros fuel. revert s d.
  induction fuel as [|fuel IH]; intros s d E; cbn in E; [by destruct d; inv_ok|].
  destruct d as [|c d]; [by inv_ok|].
  destruct (_ <=? _)%nat; inv_ok.
  { unfold HashSink_write in *. inv_ok. cbn. by apply Hfl. }
  apply IH in E. rewrite E. clear E.
  match goal with H : (if ?b then _ else _) = Ok _ |- _ => destruct b; inv_ok end; [|done].
  by match goal with H : BufferedSink_flush _ _ = Ok _ |- _ => apply Hfl in H end.
Qed.

Lemma HashSink_ht_foldM chunks (s s' : BufferedSink HashState) :
  foldM sink_write s chunks = Ok s' -> hs_ht (bs_under s') = hs_ht (bs_under s).
Proof.
  revert s. induction chunks as [|d chunks IH]; intros s E; cbn [foldM] in E; inv_ok; [done|].
  rewrite (IH _ E). by eapply HashSink_ht_write.
Qed.

(** Every read transfers something. *)
Definition sched_plain (sched : list io_choice) : Prop :=
  Forall (fun c => match c with IoBytes _ => True | _ => False end) sched.

Lemma sys_read_plain n fd :
  sched_plain (fd_sched fd) -> (0 < n)%nat ->
  exists d fd', sys_read n fd = (SysOk d, fd') /\ fd_data fd = d ++ fd_data fd' /\
    (d = [] -> fd_data fd = []) /\ (length d <= n)%nat /\ sched_plain (fd_sched fd').
Proof.
  destruct fd as [data sched]. unfold sys_read. cbn. intros Hs Hn.
  destruct Hs as [|[k| |] sched Hc Hs]; [|cbn|done|done].
  - exists (take n data), (mkFd (drop n data) []). cbn. rewrite take_drop, length_take.
    split_and!; [done|done| |lia|constructor]. intros E. destruct n, data; try done; lia.
  - set (m := Nat.min n (S k)). exists (take m data), (mkFd (drop m data) sched). cbn.
    rewrite take_drop, length_take. split_and!; [done|done| |lia|done].
    intros E. assert (0 < m)%nat by lia. destruct m, data; try done; lia.
Qed.

Lemma hashFile_loop_spec fuel ht c fd :
  sched_plain (fd_sched fd) -> (length (fd_data fd) < fuel)%nat ->
  exists chunks, concat chunks = fd_data fd /\
    hashFile_loop fuel ht c fd = Ok (foldl (ctx_update ht) c chunks).
Proof.
  revert c fd. induction fuel as [|fuel IH]; intros c fd Hs Hf; [lia|]. cbn [hashFile_loop].
  destruct (sys_read_plain hashFile_block fd Hs) as (d & fd' & E & Hd & Hnil & Hlen & Hs').
  { unfold hashFile_block. lia. }
  rewrite E. destruct d as [|b d].
  { exists []. by rewrite (Hnil eq_refl). }
  rewrite hash_update_small by (unfold chunk_ok, hashFile_block in *; lia).
  destruct (IH (ctx_update ht c (b :: d)) fd') as (chunks & Hc & El); [done| |].
  { rewrite Hd, length_app in Hf. cbn in Hf. lia. }
  exists ((b :: d) :: chunks). rewrite El. cbn [concat foldl]. by rewrite Hc.
Qed.

(** [hashFile] hashes the whole contents of the file, whatever amounts
    its block reads return, and terminates. *)
Theorem hashFile_correct ht n data sched :
  hashTypeSize ht = Some n -> sched_plain sched ->
  hashFile ht (mkFd data sched) = Ok (hash_of_bytes ht n data) /\
  (chunk_ok data -> hashFile ht (mkFd data sched) = hashString ht data).
Proof.
  intros Hn Hs. assert (hashFile ht (mkFd data sched) = Ok (hash_of_bytes ht n data)) as E.
  { unfold hashFile. rewrite (Hash_new_known _ _ Hn). cbn [mbind result_bind].
    destruct (hashFile_loop_spec (S (length data)) ht (ctx_init ht) (mkFd data sched))
      as (chunks & Hc & El); [done|cbn; lia|].
    cbn [fd_data] in *. rewrite El. cbn [mbind result_bind].
    by rewrite hash_finish_chunks, Hc. }
  split; [done|]. intros Hd. by rewrite E, (hashString_bytes ht n).
Qed.

(** Hashing through a [HashSink] gives the hash of the concatenation of
    everything written to it (the hash [hashString] gives) and counts the
    bytes modulo 2^64, whatever the chunks and the buffering; the result is a
    well-formed hash of the requested type. *)
Theorem HashSink_correct ht n chunks :
  hashTypeSize ht = Some n -> Forall chunk_ok chunks ->
  exists s h, foldM sink_write (HashSink_new ht) chunks = Ok s /\
    HashSink_finish s = Ok (h, u64 (Z.of_nat (length (concat chunks)))) /\ hash_ok h /\
    (chunk_ok (concat chunks) -> hashString ht (concat chunks) = Ok h).
Proof.
  intros Hn Hch.
  destruct (writes_foldM sink_write id chunks) with (s := HashSink_new ht) (l := @nil ascii)
    as (s & E & R).
  - intros d Hd. apply sink_writes. rewrite Forall_forall in Hch. by apply Hch.
  - apply HashSink_new_rep.
  - rewrite map_id in R. cbn [app] in R. exists s, (hash_of_bytes ht n (concat chunks)).
    pose proof (HashSink_ht_foldM _ _ _ E) as Ht. cbn in Ht.
    split_and!; [done|by apply HashSink_finish_rep|by apply hash_of_bytes_ok|].
    intros. by apply hashString_bytes.
Qed.
End HashTheory.

(** * A concrete hash algorithm, to evaluate the definitions

    An additive checksum: not a cryptographic hash, but it satisfies the
    documented interface. *)

Definition checksum (l : str) : Z := foldr (fun c z => (byte_val c + z) mod 256) 0 l.
#[local] Instance checksum_algo : HashAlgo := {|
  Ctx := str;
  ctx_init _ := [];
  ctx_update _ c d := c ++ d;
  ctx_final ht c := replicate (default 0%nat (hashTypeSize ht)) (checksum c) |}.

Lemma checksum_byte l : byte (checksum l).
Proof. destruct l; cbn; [unfold byte; lia|]. apply Z.mod_pos_bound. lia. Qed.

#[local] Instance checksum_laws : HashAlgoLaws.
Proof.
  split.
  - intros ht n c Hn. cbn. by rewrite Hn, length_replicate.
  - intros ht c. cbn. apply Forall_replicate, checksum_byte.
  - intros ht chunks. cbn. do 2 f_equal.
    assert (forall c, foldl (fun c d => c ++ d) c chunks = c ++ concat chunks) as E.
    { induction chunks as [|d ds IH]; intros c; cbn; [by rewrite app_nil_r|].
      by rewrite IH, app_assoc. }
    apply (E []).
Qed.

(** * Witnesses *)

Definition sample_hash : Hash := mkHash 32 (map Z.of_nat (seq 100 32)) htSHA256.

Lemma sample_hash_ok : hash_ok sample_hash.
Proof.
  split; [|done]. split; cbn; [done| |unfold maxHashSize; lia|done].
  repeat constructor; unfold byte; lia.
Qed.

Lemma parse_print_hash_witness :
  hash_ok sample_hash /\ parseHash htSHA256 (printHash sample_hash) = Ok sample_hash.
Proof. split; [exact sample_hash_ok|]. apply (parse_print_hash sample_hash sample_hash_ok). Defined.

Lemma parseHash32_spec_witness :
  exists msg, parseHash32 htMD5 ($"zzzzzzzzzzzzzzzzzzzzzzzzzz") = Throw (Exn eError msg).
Proof.
  destruct (parseHash32_spec htMD5 16 ($"zzzzzzzzzzzzzzzzzzzzzzzzzz") eq_refl)
    as [(_ & H & _)|(_ & H)]; [vm_compute in H; discriminate H|exact H].
Defined.

Lemma compressHash_20_witness : hash (compressHash sample_hash 20) !!! 0%nat = Z.lxor 100 120.
Proof.
  rewrite (proj2 (proj2 (compressHash_20 sample_hash 0 (proj1 sample_hash_ok) eq_refl
    ltac:(lia)))). reflexivity.
Defined.

Lemma Hash_eqb_spec_witness : Hash_eqb sample_hash sample_hash = true.
Proof.
  apply (proj1 (Hash_eqb_spec sample_hash sample_hash (proj1 sample_hash_ok)
    (proj1 sample_hash_ok) eq_refl)). reflexivity.
Defined.

Lemma HashSink_correct_witness :
  exists s h, foldM sink_write (HashSink_new htSHA1) [$"ab"; $""; $"c"] = Ok s /\
    HashSink_finish s = Ok (h, 3).
Proof.
  destruct (HashSink_correct htSHA1 20 [$"ab"; $""; $"c"] eq_refl) as (s & h & H1 & H2 & _).
  { repeat constructor; vm_compute; done. }
  exists s, h. split; [exact H1|exact H2].
Defined.

Lemma hashFile_correct_witness :
  hashFile htMD5 (mkFd ($"hello") [IoBytes 1; IoBytes 0]) = hashString htMD5 ($"hello").
Proof.
  apply (proj2 (hashFile_correct htMD5 16 ($"hello") [IoBytes 1; IoBytes 0] eq_refl
    ltac:(repeat constructor))). vm_compute. done.
Defined.
