(* ===== verification/Names.v ===== *)
(** * Package names and versions (src/src/libexpr/names.cc, names.hh)

    Splitting a derivation name into name and version, matching against a
    selector, and the comparison of versions.  The theorems: the comparison is
    the lexicographic order of the versions' components under a strict weak
    order of components, hence a total preorder, and it always terminates;
    joining a split name gives the name back. *)

From Stdlib Require Import ZArith Lia Ascii.
From stdpp Require Import base strings sorting numbers gmap sets list.
From S2P Require Import Prelude Util.

(** ** Derivation names *)

Record DrvName : Type := mkDrvName {
  fullName : str; name : str; version : str; hits : Z }.

(** The constructor without argument leaves [hits] indeterminate. *)
Definition DrvName_default (indeterminate : Z) : DrvName := mkDrvName [] [] [] indeterminate.

(** The loop of the constructor, from position [i] on; [s] is the rest. *)
Fixpoint split_name (i : nat) (s : str) : option nat :=
  match s with
  | [] => None
  | c :: s' =>
      match s' with
      | d :: _ => if char_eqb c "-"%char && negb (isalpha d) then Some i else split_name (S i) s'
      | [] => None
      end
  end.

Definition DrvName_new (s : str) : DrvName :=
  match split_name 0 s with
  | Some i => mkDrvName s (take i s) (drop (S i) s) 0
  | None => mkDrvName s s [] 0
  end.

Definition matches (self n : DrvName) : bool :=
  if negb (str_eqb (name self) ($"*")) && negb (str_eqb (name self) (name n)) then false
  else if negb (str_eqb (version self) []) && negb (str_eqb (version self) (version n)) then false
  else true.

Definition drvNamesFromArgs (opArgs : list str) : list DrvName :=
  foldl (fun result i => result ++ [DrvName_new i]) [] opArgs.

(** ** Versions *)

Definition is_dot_dash (c : ascii) : bool := char_eqb c "."%char || char_eqb c "-"%char.

Fixpoint skip_dots (p : str) : str :=
  match p with c :: p' => if is_dot_dash c then skip_dots p' else p | [] => [] end.
(** [while (p != end && test( *p )) s += *p++] *)
Fixpoint span (test : ascii -> bool) (p : str) : str * str :=
  match p with
  | c :: p' => if test c then let '(a, b) := span test p' in (c :: a, b) else ([], p)
  | [] => ([], [])
  end.

(** [nextComponent]: the component and the new position of the iterator. *)
Definition nextComponent (p : str) : str * str :=
  match skip_dots p with
  | [] => ([], [])
  | c :: p' =>
      if isdigit c then span isdigit (c :: p')
      else span (fun c => negb (isdigit c) && negb (is_dot_dash c)) (c :: p')
  end.

Definition componentsLT (c1 c2 : str) : bool :=
  match string2Int c1, string2Int c2 with
  | Some n1, Some n2 => (n1 <? n2)%Z
  | n1, n2 =>
      let c1Num := bool_decide (n1 <> None) in
      let c2Num := bool_decide (n2 <> None) in
      if str_eqb c1 [] && c2Num then true
      else if str_eqb c1 ($"pre") && negb (str_eqb c2 ($"pre")) then true
      else if str_eqb c2 ($"pre") then false
      else if c2Num then true
      else if c1Num then false
      else str_ltb c1 c2
  end.

Fixpoint compareVersions_loop (fuel : nat) (p1 p2 : str) : result Z :=
  match fuel with
  | O => NoFuel
  | S fuel =>
      match p1, p2 with
      | [], [] => Ok 0%Z
      | _, _ =>
          let '(c1, p1) := nextComponent p1 in
          let '(c2, p2) := nextComponent p2 in
          if componentsLT c1 c2 then Ok (-1)%Z
          else if componentsLT c2 c1 then Ok 1%Z
          else compareVersions_loop fuel p1 p2
      end
  end.

(** [compareVersions]; every iteration consumes at least one character. *)
Definition compareVersions (v1 v2 : str) : result Z :=
  compareVersions_loop (S (length v1 + length v2)) v1 v2.

(** * The order of components *)

(** A component's place in the order: [pre] comes first, then the strings that
    are not numbers (the empty one, which stands for a missing component, first
    among them), then the numbers by value. *)
Definition comp_key (c : str) : Z * Z * str :=
  match string2Int c with
  | Some n => (2, n, [])%Z
  | None => if str_eqb c ($"pre") then (0, 0, [])%Z else (1, 0, c)%Z
  end.

Definition key_ltb (k1 k2 : Z * Z * str) : bool :=
  let '(a, n, s) := k1 in let '(b, m, t) := k2 in
  (a <? b)%Z || (a =? b)%Z && ((n <? m)%Z || (n =? m)%Z && str_ltb s t).

Lemma componentsLT_key c1 c2 : componentsLT c1 c2 = key_ltb (comp_key c1) (comp_key c2).
Proof.
  unfold componentsLT, comp_key, key_ltb.
  destruct (string2Int c1) as [n1|] eqn:H1, (string2Int c2) as [n2|] eqn:H2; cbn [bool_decide].
  - rewrite str_ltb_irrefl, andb_false_r, orb_false_r. done.
  - destruct (str_eqb c1 []) eqn:E1; reflect; [by subst|].
    destruct (str_eqb c1 ($"pre")) eqn:E2; reflect; [by subst|].
    by destruct (str_eqb c2 ($"pre")).
  - destruct (str_eqb c1 []) eqn:E1; reflect; [by subst|].
    destruct (str_eqb c2 ($"pre")) eqn:E2; reflect; [by subst|].
    destruct (str_eqb c1 ($"pre")) eqn:E3; done.
  - rewrite andb_false_r. destruct (str_eqb c1 ($"pre")), (str_eqb c2 ($"pre")) eqn:E; try done.
Qed.

Abbreviation key := (Z * Z * str)%type.

Lemma key_ltb_irrefl (k : key) : key_ltb k k = false.
Proof. destruct k as [[a n] s]. cbn. rewrite str_ltb_irrefl, !Z.ltb_irrefl, !andb_false_r. done. Qed.

Lemma key_ltb_spec (k1 k2 : key) :
  key_ltb k1 k2 = true <->
    (k1.1.1 < k2.1.1 \/ k1.1.1 = k2.1.1 /\
      (k1.1.2 < k2.1.2 \/ k1.1.2 = k2.1.2 /\ str_ltb k1.2 k2.2 = true))%Z.
Proof.
  destruct k1 as [[a n] s], k2 as [[b m] t]. cbn.
  by rewrite orb_true_iff, andb_true_iff, orb_true_iff, andb_true_iff, !Z.ltb_lt, !Z.eqb_eq.
Qed.

Lemma key_ltb_trans (k1 k2 k3 : key) :
  key_ltb k1 k2 = true -> key_ltb k2 k3 = true -> key_ltb k1 k3 = true.
Proof.
  rewrite !key_ltb_spec. intros [H1|(-> & [H1|(-> & H1)])] [H2|(H2 & H3)]; try lia.
  right. split; [done|]. destruct H3 as [H3|(H3 & H4)]; [lia|]. right.
  split; [done|]. by eapply str_ltb_trans.
Qed.

Lemma key_ltb_connected (k1 k2 : key) :
  key_ltb k1 k2 = false -> key_ltb k2 k1 = false -> k1 = k2.
Proof.
  intros H1 H2. apply not_true_iff_false in H1, H2. rewrite key_ltb_spec in H1, H2.
  destruct k1 as [[a n] s], k2 as [[b m] t]. cbn in *.
  assert (a = b) as -> by (destruct (Z.lt_trichotomy a b) as [|[|]]; tauto).
  assert (n = m) as -> by (destruct (Z.lt_trichotomy n m) as [|[|]]; tauto).
  destruct (str_ltb_trichotomy s t) as [H|[-> |H]]; tauto.
Qed.

(** ** Lexicographic order of infinite sequences of keys *)

Definition lex_lt (f g : nat -> key) : Prop :=
  exists k, (forall i, (i < k)%nat -> f i = g i) /\ key_ltb (f k) (g k) = true.
Definition lex_eq (f g : nat -> key) : Prop := forall i, f i = g i.

Lemma lex_lt_irrefl f g : lex_eq f g -> lex_lt f g -> False.
Proof. intros H (k & _ & Hk). rewrite H, key_ltb_irrefl in Hk. done. Qed.

Lemma lex_lt_trans f g h : lex_lt f g -> lex_lt g h -> lex_lt f h.
Proof.
  intros (k & Hk & Lk) (l & Hl & Ll). exists (k `min` l)%nat. split.
  { intros i Hi. rewrite Hk, Hl by lia. done. }
  destruct (Nat.lt_trichotomy k l) as [H|[-> |H]].
  - rewrite Nat.min_l by lia. by rewrite <- Hl.
  - rewrite Nat.min_id. by eapply key_ltb_trans.
  - rewrite Nat.min_r by lia. by rewrite Hk.
Qed.

Lemma lex_lt_proper f f' g g' : lex_eq f f' -> lex_eq g g' -> lex_lt f g -> lex_lt f' g'.
Proof.
  intros Hf Hg (k & Hk & Lk). exists k. split; [intros i Hi; rewrite <- Hf, <- Hg; auto|].
  by rewrite <- Hf, <- Hg.
Qed.

(** * The components of a version *)

Lemma skip_dots_length p : (length (skip_dots p) <= length p)%nat.
Proof. induction p as [|c p IH]; cbn; [lia|]. case_match; cbn; lia. Qed.

Lemma skip_dots_head p : match skip_dots p with [] => True | c :: _ => is_dot_dash c = false end.
Proof. induction p as [|c p IH]; cbn [skip_dots]; [done|]. by destruct (is_dot_dash c) eqn:?. Qed.

Lemma span_app test p a b :
  span test p = (a, b) -> p = a ++ b /\ Forall (fun c => test c = true) a /\
    match b with [] => True | c :: _ => test c = false end.
Proof.
  revert a b. induction p as [|c p IH]; cbn; intros a b E; [by simplify_eq|].
  destruct (test c) eqn:Hc; [|by simplify_eq].
  destruct (span test p) as [a' b']. simplify_eq.
  destruct (IH _ _ eq_refl) as (-> & Ha & Hb). split_and!; [done|by constructor|done].
Qed.

Lemma nextComponent_shrinks p :
  p <> [] -> (length (snd (nextComponent p)) < length p)%nat.
Proof.
  intros Hp. unfold nextComponent. pose proof (skip_dots_length p) as Hl.
  pose proof (skip_dots_head p) as Hh. destruct (skip_dots p) as [|c p'].
  { destruct p; [done|cbn; lia]. }
  cbn [length] in Hl. case_match eqn:Hd.
  all: destruct (span _ (c :: p')) as [a b] eqn:E; pose proof (span_app _ _ _ _ E) as (E' & _ & _);
    cbn [span] in E; rewrite ?Hd, ?Hh in E; cbn [negb andb] in E;
    destruct (span _ p') in E; simplify_eq; cbn [snd].
  all: apply (f_equal length) in E'; rewrite length_app in E'; cbn in E'; lia.
Qed.

(** The components of a version as a list, and by index, where the empty
    component stands for a missing one. *)
Fixpoint components_loop (fuel : nat) (p : str) : list str :=
  match fuel, p with
  | S fuel, _ :: _ => let '(c, p') := nextComponent p in c :: components_loop fuel p'
  | _, _ => []
  end.
Definition components (v : str) : list str := components_loop (length v) v.
Definition component (v : str) (i : nat) : str := nth i (components v) [].
Definition version_keys (v : str) (i : nat) : key := comp_key (component v i).

Lemma components_loop_fuel fuel fuel' p :
  (length p <= fuel)%nat -> (length p <= fuel')%nat ->
  components_loop fuel p = components_loop fuel' p.
Proof.
  revert fuel' p. induction fuel as [|fuel IH]; intros [|fuel'] [|c p] H1 H2; cbn in *; try lia; try done.
  pose proof (nextComponent_shrinks (c :: p) ltac:(done)) as Hs.
  destruct (nextComponent (c :: p)) as [c' p']. cbn in Hs. f_equal. apply IH; lia.
Qed.

Lemma components_next p c p' :
  p <> [] -> nextComponent p = (c, p') -> components p = c :: components p'.
Proof.
  intros Hp E. pose proof (nextComponent_shrinks p Hp) as Hs. rewrite E in Hs. cbn [snd] in Hs.
  unfold components at 1. destruct p as [|x p]; [done|]. cbn [length components_loop]. rewrite E.
  f_equal. apply components_loop_fuel; cbn in *; lia.
Qed.

Lemma component_next p c p' :
  nextComponent p = (c, p') -> component p 0 = c /\ (forall i, component p (S i) = component p' i).
Proof.
  intros E. destruct p as [|x p].
  - cbn in E. simplify_eq. split; [done|]. intros i. unfold component. cbn. by destruct i.
  - unfold component. by rewrite (components_next (x :: p) c p') by done.
Qed.

Lemma component_nil i : component [] i = [].
Proof. unfold component. cbn. by destruct i. Qed.

(** ** The loop computes the lexicographic order *)

Inductive cmp_spec (f g : nat -> key) : Z -> Prop :=
| cmp_lt : lex_lt f g -> cmp_spec f g (-1)
| cmp_gt : lex_lt g f -> cmp_spec f g 1
| cmp_eq : lex_eq f g -> cmp_spec f g 0.

Lemma lex_lt_cons f g f' g' :
  f 0%nat = g 0%nat -> (forall i, f (S i) = f' i) -> (forall i, g (S i) = g' i) ->
  lex_lt f' g' -> lex_lt f g.
Proof.
  intros H0 Hf Hg (k & Hk & Lk). exists (S k). split; [|by rewrite Hf, Hg].
  intros [|i] Hi; [done|]. rewrite Hf, Hg. apply Hk. lia.
Qed.

Lemma compareVersions_loop_spec fuel p1 p2 :
  (length p1 + length p2 < fuel)%nat ->
  exists r, compareVersions_loop fuel p1 p2 = Ok r /\ cmp_spec (version_keys p1) (version_keys p2) r.
Proof.
  revert p1 p2. induction fuel as [|fuel IH]; intros p1 p2 Hl; [lia|].
  destruct (decide (p1 = [] /\ p2 = [])) as [[-> ->]|Hne].
  { exists 0%Z. split; [done|]. by constructor. }
  assert (compareVersions_loop (S fuel) p1 p2 =
    let '(c1, p1) := nextComponent p1 in
    let '(c2, p2) := nextComponent p2 in
    if componentsLT c1 c2 then Ok (-1)%Z
    else if componentsLT c2 c1 then Ok 1%Z else compareVersions_loop fuel p1 p2) as ->.
  { destruct p1, p2; try done. by destruct Hne. }
  assert (length (snd (nextComponent p1)) + length (snd (nextComponent p2)) < length p1 + length p2)%nat as Hs.
  { destruct (decide (p1 = [])) as [-> |H1].
    - assert (p2 <> []) as H2 by (intros ->; by apply Hne).
      pose proof (nextComponent_shrinks p2 H2). cbn in *. lia.
    - pose proof (nextComponent_shrinks p1 H1). destruct (decide (p2 = [])) as [-> |H2].
      + cbn. lia.
      + pose proof (nextComponent_shrinks p2 H2). lia. }
  destruct (nextComponent p1) as [c1 p1'] eqn:E1, (nextComponent p2) as [c2 p2'] eqn:E2.
  destruct (component_next _ _ _ E1) as [F1 G1], (component_next _ _ _ E2) as [F2 G2].
  cbn [snd] in Hs. rewrite !componentsLT_key.
  destruct (key_ltb (comp_key c1) (comp_key c2)) eqn:L1.
  { exists (-1)%Z. split; [done|]. constructor. exists 0%nat. unfold version_keys. rewrite F1, F2.
    split; [lia|done]. }
  destruct (key_ltb (comp_key c2) (comp_key c1)) eqn:L2.
  { exists 1%Z. split; [done|]. constructor. exists 0%nat. unfold version_keys. rewrite F1, F2.
    split; [lia|done]. }
  pose proof (key_ltb_connected _ _ L1 L2) as Hk.
  destruct (IH p1' p2' ltac:(lia)) as (r & -> & Hr). exists r. split; [done|].
  assert (version_keys p1 0 = version_keys p2 0) as H0 by (unfold version_keys; by rewrite F1, F2).
  assert (forall i, version_keys p1 (S i) = version_keys p1' i) as K1
    by (intros i; unfold version_keys; by rewrite G1).
  assert (forall i, version_keys p2 (S i) = version_keys p2' i) as K2
    by (intros i; unfold version_keys; by rewrite G2).
  destruct Hr as [H|H|H]; constructor.
  - by eapply lex_lt_cons.
  - by eapply lex_lt_cons.
  - intros [|i]; [done|]. by rewrite K1, K2.
Qed.

Lemma compareVersions_cmp v1 v2 :
  exists r, compareVersions v1 v2 = Ok r /\ cmp_spec (version_keys v1) (version_keys v2) r.
Proof. apply compareVersions_loop_spec. lia. Qed.

Lemma cmp_spec_det f g r r' : cmp_spec f g r -> cmp_spec f g r' -> r = r'.
Proof.
  assert (lex_lt f g -> lex_lt g f -> False) as Hasym.
  { intros H1 H2. eapply (lex_lt_irrefl f f); [done|]. by eapply lex_lt_trans. }
  assert (forall h h', lex_eq h h' -> lex_lt h' h -> False) as Hirr.
  { intros h h' H. apply lex_lt_irrefl. intros i. by rewrite H. }
  intros [] []; try done; exfalso; eauto using lex_lt_irrefl.
Qed.

Lemma compareVersions_iff v1 v2 r :
  compareVersions v1 v2 = Ok r <-> cmp_spec (version_keys v1) (version_keys v2) r.
Proof.
  destruct (compareVersions_cmp v1 v2) as (r' & -> & Hr'). split; [by intros [= <-]|].
  intros Hr. f_equal. by eapply cmp_spec_det.
Qed.

(** [compareVersions] returns on every pair of versions, and its result is the
    lexicographic comparison of the two sequences of components (with empty
    components where one version is shorter): -1 exactly when at the first position
    where the components are not equivalent the first version's is the lesser in
    [componentsLT], 1 when it is the greater, and 0 when there is no such position. *)
Theorem compareVersions_lexicographic v1 v2 :
  let equiv i := componentsLT (component v1 i) (component v2 i) = false /\
                 componentsLT (component v2 i) (component v1 i) = false in
  exists r, compareVersions v1 v2 = Ok r /\
    ((r = -1)%Z <-> exists k, (forall i, (i < k)%nat -> equiv i) /\
                      componentsLT (component v1 k) (component v2 k) = true) /\
    ((r = 1)%Z <-> exists k, (forall i, (i < k)%nat -> equiv i) /\
                     componentsLT (component v2 k) (component v1 k) = true) /\
    ((r = 0)%Z <-> forall i, equiv i).
Proof.
  intros equiv.
  assert (forall i, equiv i <-> version_keys v1 i = version_keys v2 i) as Heq.
  { intros i. unfold equiv. rewrite !componentsLT_key. split.
    - intros [H1 H2]. by apply key_ltb_connected.
    - unfold version_keys. intros ->. by rewrite key_ltb_irrefl. }
  destruct (compareVersions_cmp v1 v2) as (r & -> & Hr). exists r. split; [done|].
  assert (forall r', r = r' <-> cmp_spec (version_keys v1) (version_keys v2) r') as Hiff.
  { intros r'. split; [by intros <-|by apply cmp_spec_det]. }
  rewrite !Hiff. setoid_rewrite Heq. setoid_rewrite componentsLT_key. split_and!; split.
  - inversion 1; auto.
  - by constructor.
  - inversion 1 as [|Hlt|]. destruct Hlt as (k & Hk & Lk). exists k. split; [|done]. intros i Hi. symmetry. auto.
  - intros (k & Hk & Lk). constructor. exists k. split; [|done]. intros i Hi. symmetry. auto.
  - inversion 1; auto.
  - by constructor.
Qed.

(** The comparison of versions is a total preorder with opposite signs for
    swapped arguments: a version equals itself, swapping negates, and "not newer
    than" is transitive (so sorting and picking the newest version are
    meaningful). *)
Theorem compareVersions_preorder v1 v2 v3 :
  compareVersions v1 v1 = Ok 0%Z /\
  (forall r, compareVersions v1 v2 = Ok r -> compareVersions v2 v1 = Ok (- r)%Z) /\
  (forall r s, compareVersions v1 v2 = Ok r -> compareVersions v2 v3 = Ok s ->
     (r <= 0)%Z -> (s <= 0)%Z -> compareVersions v1 v3 = Ok (Z.min r s)).
Proof.
  split_and!; [by apply compareVersions_iff; constructor| |]; setoid_rewrite compareVersions_iff.
  - intros r []; constructor; auto. intros i; auto.
  - intros r s [H1|H1|H1] [H2|H2|H2]; try lia; intros _ _; constructor.
    + by eapply lex_lt_trans.
    + by eapply lex_lt_proper.
    + eapply lex_lt_proper; [|done|exact H2]. intros i; auto.
    + intros i. by rewrite H1.
Qed.

(** The orders the documentation of [nix-env] promises. *)
Example compare_examples :
  (compareVersions ($"1.0") ($"2.3"), compareVersions ($"2.1") ($"2.3"),
   compareVersions ($"2.3") ($"2.3"), compareVersions ($"2.5") ($"2.3"),
   compareVersions ($"3.1") ($"2.3"), compareVersions ($"2.3.1") ($"2.3"),
   compareVersions ($"2.3.1") ($"2.3a"), compareVersions ($"2.3pre1") ($"2.3"),
   compareVersions ($"2.3pre3") ($"2.3pre12"), compareVersions ($"2.3a") ($"2.3c"),
   compareVersions ($"2.3pre1") ($"2.3c"))
  = (Ok (-1), Ok (-1), Ok 0, Ok 1, Ok 1, Ok 1, Ok 1, Ok (-1), Ok (-1), Ok (-1), Ok (-1))%Z.
Proof. reflexivity. Qed.

(** A component of digits beyond the range of [int] is not compared as a
    number: it comes before every component that is one, so a version with a
    larger date or build number counts as older. *)
Theorem huge_component_older ds n :
  ds <> [] -> Forall (fun c => isdigit c = true) ds -> (2 ^ 31 <= dec_val 0 ds)%Z ->
  string2Int n <> None -> componentsLT ds n = true.
Proof.
  intros Hne Hds Hv Hn. rewrite componentsLT_key. unfold comp_key.
  assert (string2Int ds = None) as ->.
  { rewrite string2Int_digits by done. rewrite (proj2 (Z.leb_gt _ (2 ^ 31 - 1))) by lia.
    by rewrite andb_false_r. }
  destruct (string2Int n); [|done]. by destruct (str_eqb ds ($"pre")).
Qed.

Lemma huge_component_older_witness : componentsLT ($"20120101120000") ($"1") = true.
Proof.
  apply huge_component_older; [done| |vm_compute; discriminate|vm_compute; discriminate].
  repeat (constructor; [reflexivity|]). constructor.
Defined.

(** * Splitting names *)

Lemma split_name_spec i s :
  match split_name i s with
  | Some j => exists n d v, s = n ++ "-"%char :: d :: v /\ j = (i + length n)%nat /\ isalpha d = false /\
      (forall k, (k < length n)%nat -> s !! k = Some "-"%char -> exists x, s !! S k = Some x /\ isalpha x = true)
  | None => forall k x, s !! k = Some "-"%char -> s !! S k = Some x -> isalpha x = true
  end.
Proof.
  revert i. induction s as [|c s IH]; intros i; cbn [split_name]; [done|].
  destruct s as [|d s']; [intros [|k] x H1 H2; cbn in *; done|].
  destruct (char_eqb c "-"%char && negb (isalpha d)) eqn:E.
  { reflect. subst. exists [], d, s'. split_and!; [done|cbn; lia|done|]. cbn. lia. }
  assert (forall x, c = "-"%char -> d = x -> isalpha x = true) as H0.
  { intros x -> ->. rewrite char_eqb_refl in E. by apply negb_false_iff. }
  specialize (IH (S i)). destruct (split_name (S i) (d :: s')) as [j|].
  - destruct IH as (n & d' & v & Es & Ej & Hd & Hn). exists (c :: n), d', v.
    split_and!; [by rewrite Es|cbn; lia|done|]. intros [|k] Hk.
    + intros [= ->]. exists d. split; [done|]. by apply H0.
    + cbn in Hk. apply Hn. lia.
  - intros [|k] x; [intros [= ->] [= ->]; by apply H0|apply IH].
Qed.

(** [i] is a dash of [s] followed by a character that is not a letter. *)
Definition split_point (s : str) (i : nat) : Prop :=
  s !! i = Some "-"%char /\ exists x, s !! S i = Some x /\ isalpha x = false.

(** A derivation name is split at its first dash that is followed by a
    character other than a letter, and only there: name, dash and version give the
    full name back, the version is not empty, and no earlier dash is such a split
    point; without one the whole string is the name and the version is empty.  A
    selector without version matches every version of its name. *)
Theorem DrvName_new_spec s :
  let n := DrvName_new s in
  fullName n = s /\ hits n = 0%Z /\
  (if decide (version n = []) then name n = s /\ (forall i, ~ split_point s i)
   else s = name n ++ "-"%char :: version n /\ split_point s (length (name n)) /\
        (forall i, (i < length (name n))%nat -> ~ split_point s i)) /\
  (forall v, version n = [] -> matches n (mkDrvName v s v 0) = true).
Proof.
  unfold DrvName_new. pose proof (split_name_spec 0 s) as Hs.
  destruct (split_name 0 s) as [j|].
  - destruct Hs as (n & d & v & -> & -> & Hd & Hn). cbn [fullName hits version name Nat.add].
    rewrite take_app_length, drop_app_ge by lia. replace (S _ - _)%nat with 1%nat by lia.
    cbn [drop]. destruct (decide (d :: v = [])) as [|_]; [done|]. split_and!; try done.
    + split; [by rewrite lookup_app_r, Nat.sub_diag by lia|]. exists d. rewrite lookup_app_r by lia. by replace (S _ - _)%nat with 1%nat by lia.
    + intros i Hi (H1 & x & H2 & H3). destruct (Hn i Hi H1) as (y & Hy & Hy'). congruence.
  - cbn [fullName hits version name]. rewrite decide_True by done. split_and!; try done; [|].
    + intros i (H1 & x & H2 & H3). by rewrite (Hs _ _ H1 H2) in H3.
    + intros v _. unfold matches. cbn. by rewrite str_eqb_refl, andb_false_r.
Qed.

Lemma drvNamesFromArgs_map args : drvNamesFromArgs args = map DrvName_new args.
Proof.
  enough (forall acc, foldl (fun result i => result ++ [DrvName_new i]) acc args
                      = acc ++ map DrvName_new args) as H by apply H.
  induction args as [|a args IH]; intros acc; cbn; [by rewrite app_nil_r|].
  by rewrite IH, <- app_assoc.
Qed.
