(* ===== verification/FileSystem.v ===== *)
(** * The file system as the store code sees it

    The part of POSIX that archive.cc, util.cc and the store use: a file system
    maps absolute paths, in canonical form and without symbolic links among their
    directories, to inodes.  The functions of src/src/libutil/util.cc on top of it
    ([readLink], [readDirectory], [readFile], [pathExists], [_deletePath]) are
    translated; the system calls they use are defined here after their
    specification. *)

From Stdlib Require Import ZArith Lia Ascii.
From stdpp Require Import base strings sorting numbers gmap sets list.
From S2P Require Import Prelude Util.

Inductive inode : Type :=
| IReg (mode : Z) (data : str)
| IDir
| ILnk (target : str)
| IOther.

Abbreviation FileSys := (gmap str inode).

#[export] Instance inode_eq_dec : EqDecision inode.
Proof. solve_decision. Defined.

(** [path + "/" + name] *)
Definition child (path name : str) : str := path ++ slash :: name.

(** A name a directory can hold. *)
Definition name_ok (n : str) : bool := negb (str_eqb n []) && forallb (fun c => negb (char_eqb c slash)) n.

(** The name under which [k] is an entry of the directory [path]. *)
Definition child_name (path k : str) : option str :=
  let n := drop (S (length path)) k in
  if str_eqb k (child path n) && name_ok n then Some n else None.

(** [k] is [path] or below it. *)
Definition underb (path k : str) : bool :=
  str_eqb k path || str_eqb (take (S (length path)) k) (path ++ [slash]).

(** ** System calls *)

Definition lstat (fs : FileSys) (path : str) : result inode :=
  match fs !! path with
  | Some i => Ok i
  | None => throw eSysError ($"getting attributes of path `" ++ path ++ $"'")
  end.

(** The directory that has to exist for an entry to be created. *)
Definition parent_ok (fs : FileSys) (path : str) : bool :=
  match str_rfind slash path with
  | Some O => true
  | Some i => bool_decide (fs !! take i path = Some IDir)
  | None => false
  end.

(** [mkdir], [symlink] and [open] with [O_CREAT | O_EXCL] fail when the name is
    taken or the parent is not a directory. *)
Definition can_create (fs : FileSys) (path : str) : bool :=
  bool_decide (fs !! path = None) && parent_ok fs path.

Definition sys_create (fs : FileSys) (path : str) (i : inode) : option FileSys :=
  if can_create fs path then Some (<[path := i]> fs) else None.

(** [write] at an offset; a gap is filled with zeros. *)
Definition write_at (data : str) (off : nat) (d : str) : str :=
  take off (data ++ replicate (off - length data) NUL) ++ d ++ drop (off + length d) data.

(** [posix_fallocate(fd, 0, len)] extends the file with zeros. *)
Definition extend (data : str) (len : nat) : str := data ++ replicate (len - length data) NUL.

Definition S_IXUSR : Z := 64.
Definition S_IXANY : Z := 73.   (* S_IXUSR | S_IXGRP | S_IXOTH *)

(** ** util.cc *)

Definition readLink (fs : FileSys) (path : str) : result str :=
  match fs !! path with
  | Some (ILnk t) => Ok t
  | Some _ => error ($"`" ++ path ++ $"' is not a symlink")
  | None => throw eSysError ($"getting status of `" ++ path ++ $"'")
  end.

(** [readDirectory]: the entries, in the order of the directory. *)
Definition readDirectory (fs : FileSys) (path : str) : result (list str) :=
  match fs !! path with
  | Some IDir => Ok (omap (child_name path) (map_to_list fs).*1)
  | _ => throw eSysError ($"opening directory `" ++ path ++ $"'")
  end.

Definition pathExists (fs : FileSys) (path : str) : bool := bool_decide (fs !! path <> None).

(** * Lemmas *)

Definition under (path k : str) : Prop := k = path \/ exists r, k = path ++ slash :: r.

Lemma underb_under path k : underb path k = true <-> under path k.
Proof.
  unfold underb, under, str_eqb. rewrite orb_true_iff, !bool_decide_eq_true. split.
  - intros [-> |H]; [by left|right]. exists (drop (S (length path)) k).
    rewrite <- (take_drop (S (length path)) k) at 1. by rewrite H, <- app_assoc.
  - intros [-> |[r ->]]; [by left|right].
    replace (path ++ slash :: r) with ((path ++ [slash]) ++ r) by (by rewrite <- app_assoc).
    apply take_app_length'. rewrite length_app. cbn. lia.
Qed.

#[export] Instance under_dec path k : Decision (under path k).
Proof. refine (cast_if (decide (underb path k = true))); by rewrite <- underb_under. Defined.

Lemma under_refl p : under p p.
Proof. by left. Qed.

Lemma under_child p n : under p (child p n).
Proof. right. by exists n. Qed.

Lemma under_trans p q k : under p q -> under q k -> under p k.
Proof.
  intros [-> |[r ->]] [-> |[r' ->]]; [by left|right; eauto|right; eauto|right].
  exists (r ++ slash :: r'). by rewrite <- app_assoc.
Qed.

Lemma not_under_child p n : ~ under (child p n) p.
Proof.
  unfold under, child. intros [E|[r E]]; apply (f_equal length) in E;
    rewrite !length_app in E; cbn in E; lia.
Qed.

Lemma name_ok_spec n :
  name_ok n = true <-> n <> [] /\ Forall (fun c => char_eqb c slash = false) n.
Proof.
  unfold name_ok. rewrite andb_true_iff, negb_true_iff. unfold str_eqb.
  rewrite bool_decide_eq_false, forallb_forall, Forall_forall.
  setoid_rewrite negb_true_iff. by setoid_rewrite list_elem_of_In.
Qed.

Lemma child_name_spec p k n : child_name p k = Some n <-> k = child p n /\ name_ok n = true.
Proof.
  unfold child_name. split.
  - destruct (_ && _) eqn:E; [|done]. intros [= <-]. by reflect.
  - intros [-> Hn]. assert (drop (S (length p)) (child p n) = n) as ->.
    { unfold child. rewrite drop_app_ge by lia. by replace (S _ - _)%nat with 1%nat by lia. }
    by rewrite str_eqb_refl, Hn.
Qed.

(** Two slash-free names whose subtrees share a path are the same. *)
Lemma split_slash (n m r s : str) :
  Forall (fun c => char_eqb c slash = false) n -> Forall (fun c => char_eqb c slash = false) m ->
  (r = [] \/ exists r', r = slash :: r') -> (s = [] \/ exists s', s = slash :: s') ->
  n ++ r = m ++ s -> n = m.
Proof.
  intros Hn Hm. revert m Hm r s. induction Hn as [|c n Hc Hn IH]; intros [|d m] Hm r s Hr Hs E; cbn in E.
  - done.
  - apply Forall_cons in Hm as [Hd _]. destruct Hr as [-> |[r' ->]]; [done|]. injection E as <- _.
    by rewrite char_eqb_refl in Hd.
  - destruct Hs as [-> |[s' ->]]; [done|]. injection E as -> _. by rewrite char_eqb_refl in Hc.
  - apply Forall_cons in Hm as [_ Hm]. injection E as -> E. f_equal. by apply (IH m Hm r s).
Qed.

Lemma under_child_inj p n m k :
  name_ok n = true -> name_ok m = true -> under (child p n) k -> under (child p m) k -> n = m.
Proof.
  rewrite !name_ok_spec. intros [_ Hn] [_ Hm] H1 H2.
  assert (forall q, under (child p q) k -> exists r, k = p ++ slash :: q ++ r /\ (r = [] \/ exists r', r = slash :: r')) as Hsplit.
  { unfold under, child. intros q [-> |[r ->]].
    - exists []. rewrite app_nil_r. eauto.
    - exists (slash :: r). rewrite <- app_assoc. eauto. }
  apply Hsplit in H1 as (r & -> & Hr). apply Hsplit in H2 as (s & E & Hs).
  apply app_inv_head in E. injection E as E. by apply (split_slash n m r s).
Qed.

Lemma readDirectory_spec fs path names :
  readDirectory fs path = Ok names ->
  fs !! path = Some IDir /\ NoDup names /\
  (forall n, n ∈ names <-> name_ok n = true /\ fs !! child path n <> None).
Proof.
  unfold readDirectory. destruct (fs !! path) as [[]|]; try done. intros [= <-]. split_and!; [done| |].
  - assert (NoDup (map_to_list fs).*1) as Hnd by apply NoDup_fst_map_to_list.
    revert Hnd. generalize (map_to_list fs).*1. intros l. induction 1 as [|k l Hk Hl IH]; cbn; [constructor|].
    destruct (child_name path k) as [n|] eqn:E; [|done]. constructor; [|done].
    rewrite list_elem_of_omap. intros (k' & Hk' & E'). apply child_name_spec in E as [-> _], E' as [-> _]. done.
  - intros n. rewrite list_elem_of_omap. split.
    + intros (k & Hk & [-> Hn]%child_name_spec). split; [done|].
      apply list_elem_of_fmap in Hk as ([k' i] & Ek & Hk%elem_of_map_to_list). cbn in Ek. subst. by rewrite Hk.
    + intros [Hn Hk]. destruct (fs !! child path n) as [i|] eqn:E; [|done].
      exists (child path n). split; [|by apply child_name_spec].
      apply list_elem_of_fmap. exists (child path n, i). split; [done|]. by apply elem_of_map_to_list.
Qed.

Lemma parent_ok_child fs p n :
  name_ok n = true -> p <> [] -> parent_ok fs (child p n) = bool_decide (fs !! p = Some IDir).
Proof.
  intros [_ Hn]%name_ok_spec Hp. unfold parent_ok, child. rewrite str_rfind_app by done.
  rewrite take_app_length. by destruct p.
Qed.
