(* ===== verification/FileOps.v ===== *)
(** * File operations that change the file system (src/src/libutil/util.cc)

    [_deletePath] and [deletePath], [deletePathWrapped] of build.cc, [createDirs],
    [readFile] and [writeFile], and the system calls they use.  Permissions and the
    immutable flag are not modelled: a call fails only when the objects it needs
    are missing or in the way.  [st_nlink] and [st_blocks] of an object, which only
    determine the number of bytes reported, are parameters.

    The theorem: deleting a path of a well-formed file system returns and removes
    exactly what is below the path. *)

From Stdlib Require Import ZArith Lia Ascii.
From stdpp Require Import base strings sorting numbers gmap sets list.
From S2P Require Import Prelude Effects Util FileSystem.

(** ** System calls *)

Definition children (fs : FileSys) (path : str) : list str := omap (child_name path) (map_to_list fs).*1.

(** [remove]: [unlink] for a file, [rmdir] for an empty directory. *)
Definition sys_remove (fs : FileSys) (path : str) : option FileSys :=
  match fs !! path with
  | None => None
  | Some IDir => match children fs path with [] => Some (delete path fs) | _ => None end
  | Some _ => Some (delete path fs)
  end.

Definition is_dir (i : inode) : bool := match i with IDir => true | _ => false end.

(** What is below a path. *)
Definition subtree (path : str) (fs : FileSys) : FileSys := filter (fun ki : str * inode => under path ki.1) fs.
Definition without (path : str) (fs : FileSys) : FileSys := filter (fun ki : str * inode => ~ under path ki.1) fs.

(** [rename]: the object with everything below it; an existing target is replaced
    when it is a file and the source is one, or an empty directory and the source
    is a directory. *)
Definition moved (a b k : str) : str := b ++ drop (length a) k.
Definition can_replace (fs : FileSys) (i : inode) (b : str) : bool :=
  match fs !! b with
  | None => parent_ok fs b
  | Some IDir => is_dir i && match children fs b with [] => true | _ => false end
  | Some _ => negb (is_dir i)
  end.
Definition sys_rename (fs : FileSys) (a b : str) : option FileSys :=
  match fs !! a with
  | None => None
  | Some i =>
      if str_eqb a b then Some fs
      else if can_replace fs i b && negb (underb a b)
      then Some (list_to_map (prod_map (moved a b) id <$> map_to_list (subtree a fs)) ∪ without b (without a fs))
      else None
  end.

(** ** util.cc *)

Section Util.
Context (st_nlink st_blocks : FileSys -> str -> Z).

(** [_deletePath], on the file system and [bytesFreed]; [makeMutable] and making
    the directory writable change nothing here. *)
Fixpoint _deletePath (fuel : nat) (path : str) : M (FileSys * Z) unit :=
  match fuel with
  | O => stuck
  | S fuel =>
      st ← lift (fun s => lstat (fst s) path);
      _ ← modify (fun s => if negb (is_dir st) && (st_nlink (fst s) path =? 1)%Z
                           then (fst s, u64 (snd s + st_blocks (fst s) path * 512)) else s);
      _ ← (if is_dir st then
             names ← lift (fun s => readDirectory (fst s) path);
             forM (fun i => _deletePath fuel (child path i)) names
           else mret tt);
      update (fun s => match sys_remove (fst s) path with
                       | Some fs => Ok (fs, snd s)
                       | None => throw eSysError ($"cannot unlink `" ++ path ++ $"'")
                       end)
  end.
Definition deletePath_fuel (fs : FileSys) : nat := S (size fs).
Definition deletePath (path : str) : M (FileSys * Z) unit :=
  _ ← modify (fun s => (fst s, 0%Z));
  fs ← gets fst;
  _deletePath (deletePath_fuel fs) path.

(** [deletePathWrapped] of build.cc; [useHelper] is [settings.buildUsersGroup != ""
    && !amPrivileged()], and [getOwnership] only changes owners. *)
Definition deletePathWrapped (useHelper : bool) (path : str) : M (FileSys * Z) unit :=
  try_catch (fun k => bool_decide (k = eSysError)) (deletePath path)
    (fun e => if useHelper then deletePath path else rethrow e).

(** [createDirs]: the directories created, outermost first. *)
Fixpoint createDirs (fuel : nat) (path : str) : M FileSys (list str) :=
  if str_eqb path [slash] then mret []
  else
    st ← gets (fun fs => fs !! path);
    match st with
    | Some i => if is_dir i then mret [] else raise eError ($"`" ++ path ++ $"' is not a directory")
    | None =>
        match fuel with
        | O => stuck
        | S fuel =>
            parent ← lift (fun _ => dirOf path);
            created ← createDirs fuel parent;
            _ ← update (fun fs => match sys_create fs path IDir with
                                  | Some fs => Ok fs
                                  | None => throw eSysError ($"creating directory `" ++ path ++ $"'")
                                  end);
            mret (created ++ [path])
        end
    end.
End Util.

(** * Well-formed file systems

    Every object has a name in a directory; the root directory is implicit. *)

Definition fs_wf (fs : FileSys) : Prop :=
  forall k, fs !! k <> None -> exists d n, k = child d n /\ name_ok n = true /\ (d = [] \/ fs !! d = Some IDir).

(** A test for it. *)
Definition fs_wfb (fs : FileSys) : bool :=
  forallb (fun ki : str * inode =>
    match str_rfind slash ki.1 with
    | Some pos => name_ok (drop (S pos) ki.1) && ((pos =? 0)%nat || bool_decide (fs !! take pos ki.1 = Some IDir))
    | None => false
    end) (map_to_list fs).

Lemma str_rfind_split c s pos : str_rfind c s = Some pos -> s = take pos s ++ c :: drop (S pos) s.
Proof.
  revert pos. induction s as [|x s IH]; intros pos E; [done|]. cbn [str_rfind] in E.
  destruct (str_rfind c s) as [i|].
  - injection E as <-. cbn. f_equal. by apply IH.
  - destruct (char_eqb x c) eqn:Ex; [|done]. injection E as <-. reflect. by subst.
Qed.

Lemma fs_wfb_ok fs : fs_wfb fs = true -> fs_wf fs.
Proof.
  unfold fs_wfb. rewrite forallb_forall. intros H k Hk. destruct (fs !! k) as [i|] eqn:E; [|done].
  specialize (H (k, i)). cbn in H. destruct (str_rfind slash k) as [pos|] eqn:Er.
  - exists (take pos k), (drop (S pos) k). apply str_rfind_split in Er.
    assert (name_ok (drop (S pos) k) && ((pos =? 0)%nat || bool_decide (fs !! take pos k = Some IDir)) = true) as Hb
      by (apply H, list_elem_of_In, elem_of_map_to_list, E).
    apply andb_true_iff in Hb as [Hn Hd]. split_and!; [done|done|]. apply orb_true_iff in Hd as [Hd|Hd]; reflect; [left|by right].
    by subst.
  - exfalso. assert (false = true) by (apply H, list_elem_of_In, elem_of_map_to_list, E). done.
Qed.

Lemma lookup_without p fs k : without p fs !! k = if decide (under p k) then None else fs !! k.
Proof.
  unfold without. destruct (decide (under p k)) as [Hu|Hu].
  - apply map_lookup_filter_None. right. intros i _ Hn. by apply Hn.
  - destruct (fs !! k) as [i|] eqn:E; [by apply map_lookup_filter_Some|]. apply map_lookup_filter_None. by left.
Qed.

Lemma under_child_split p d n : name_ok n = true -> under p (child d n) -> child d n = p \/ under p d.
Proof.
  intros [_ Hn]%name_ok_spec [->|[r E]]; [by left|right]. unfold child in E. revert d E.
  induction p as [|c p IH]; intros d E.
  - destruct d as [|c d]; [by left|]. injection E as -> E. right. exists d. done.
  - destruct d as [|c' d]; cbn in E.
    + injection E as <- E. exfalso. rewrite E in Hn. apply Forall_app in Hn as [_ Hn]. by inversion Hn.
    + injection E as -> E. destruct (IH d E) as [-> |[r' ->]]; [by left|right; by exists r'].
Qed.

Lemma under_length p k : under p k -> (length p <= length k)%nat.
Proof. intros [-> |[r ->]]; [done|]. rewrite length_app. lia. Qed.

Lemma child_nonnil p n : child p n <> [].
Proof. by destruct p. Qed.

(** What is strictly below a path is at or below one of its entries. *)
Lemma below_entry fs p : fs_wf fs -> p <> [] -> forall k, fs !! k <> None -> under p k -> k <> p ->
  exists n, name_ok n = true /\ fs !! child p n <> None /\ under (child p n) k.
Proof.
  intros Hwf Hp k. remember (length k) as m eqn:Em. revert k Em. induction m as [m IH] using lt_wf_ind.
  intros k -> Hk Hu Hne. destruct (Hwf k Hk) as (d & n & -> & Hn & Hd).
  destruct (under_child_split p d n Hn Hu) as [?|Hud]; [done|].
  destruct (decide (d = p)) as [-> |Hdp]; [exists n; split_and!; [done|done|apply under_refl]|].
  destruct Hd as [-> |Hd]; [by apply under_length in Hud; destruct p; [|cbn in Hud; lia]|].
  assert (length d < length (child d n))%nat as Hlen by (unfold child; rewrite length_app; cbn; lia).
  destruct (IH (length d) Hlen d eq_refl) as (n' & Hn' & Hc & Hu'); [congruence|done|done|].
  exists n'. split_and!; [done|done|]. eapply under_trans; [done|apply under_child].
Qed.

Lemma without_wf p fs : fs_wf fs -> fs_wf (without p fs).
Proof.
  intros Hwf k. rewrite lookup_without. destruct (decide (under p k)) as [|Hu]; [done|]. intros Hk.
  destruct (Hwf k Hk) as (d & n & -> & Hn & Hd). exists d, n. split_and!; [done|done|].
  destruct Hd as [-> |Hd]; [by left|right]. rewrite lookup_without. rewrite decide_False; [done|].
  intros Hud. apply Hu. eapply under_trans; [done|apply under_child].
Qed.

Lemma without_comm p q fs : without p (without q fs) = without q (without p fs).
Proof. apply map_eq. intros k. rewrite !lookup_without. by repeat case_decide. Qed.

(** Removing the entries of a directory one after the other. *)
Definition without_all (ps : list str) (fs : FileSys) : FileSys := foldl (fun fs p => without p fs) fs ps.

Lemma lookup_without_all ps : forall fs k,
  without_all ps fs !! k = if decide (Exists (fun p => under p k) ps) then None else fs !! k.
Proof.
  induction ps as [|p ps IH]; intros fs k; cbn [without_all foldl].
  { rewrite decide_False; [done|]. by inversion 1. }
  fold (without_all ps (without p fs)). rewrite IH, lookup_without.
  destruct (decide (under p k)) as [Hp|Hp], (decide (Exists (fun p => under p k) ps)) as [Hs|Hs].
  - by rewrite decide_True by (by left).
  - by rewrite decide_True by (by left).
  - by rewrite decide_True by (by right).
  - rewrite decide_False; [done|]. rewrite Exists_cons. by intros [|].
Qed.

Lemma without_entries fs p names :
  fs_wf fs -> p <> [] -> (forall n, n ∈ names <-> name_ok n = true /\ fs !! child p n <> None) -> fs !! p <> None ->
  delete p (without_all (child p <$> names) fs) = without p fs /\
  children (without_all (child p <$> names) fs) p = [] /\
  without_all (child p <$> names) fs !! p = fs !! p.
Proof.
  intros Hwf Hp Hnames Hfs.
  assert (Hk : forall k, fs !! k <> None -> under p k -> k <> p -> Exists (fun q => under q k) (child p <$> names)).
  { intros k Hk Hu Hne. destruct (below_entry fs p Hwf Hp k Hk Hu Hne) as (n & Hn & Hc & Hu').
    apply Exists_exists. exists (child p n). split; [|done]. apply list_elem_of_fmap. exists n. split; [done|]. by apply Hnames. }
  assert (Hout : forall k, Exists (fun q => under q k) (child p <$> names) -> under p k /\ k <> p).
  { intros k (q & (n & -> & _)%list_elem_of_fmap & Hu)%Exists_exists. split.
    - eapply under_trans; [apply under_child|done].
    - intros ->. by apply not_under_child in Hu. }
  split_and!.
  - apply map_eq. intros k. rewrite lookup_delete, lookup_without_all, lookup_without.
    destruct (decide (p = k)) as [<- |Hne]; [by rewrite decide_True by apply under_refl|].
    destruct (decide (Exists _ _)) as [He|He].
    + by rewrite decide_True by (by apply Hout).
    + destruct (decide (under p k)) as [Hu|]; [|done]. destruct (fs !! k) eqn:E; [|done].
      destruct He. apply Hk; congruence.
  - unfold children. apply elem_of_nil_inv. intros n (k & Hkin & [-> Hn]%child_name_spec)%list_elem_of_omap.
    apply list_elem_of_fmap in Hkin as ([k i] & Ek & Hin%elem_of_map_to_list). cbn in Ek. subst k.
    rewrite lookup_without_all in Hin. case_decide as He; [done|]. destruct He.
    apply Hk; [congruence|apply under_child|]. intros E. apply (f_equal length) in E. unfold child in E.
    rewrite length_app in E. cbn in E. lia.
  - rewrite lookup_without_all. rewrite decide_False; [done|]. intros He%Hout. by destruct He.
Qed.

Lemma child_inj p q n m : name_ok n = true -> name_ok m = true -> child p n = child q m -> p = q /\ n = m.
Proof.
  intros [_ Hn]%name_ok_spec [_ Hm]%name_ok_spec E. assert (length p = length q) as Hl.
  { pose proof (f_equal (str_rfind slash) E) as Hr. unfold child in Hr. rewrite !str_rfind_app in Hr by done. by injection Hr. }
  unfold child in E. apply app_inj_1 in E as [-> E]; [|done]. by injection E.
Qed.

Lemma nothing_below fs p k : fs_wf fs -> p <> [] -> fs !! p <> Some IDir -> under p k -> k <> p -> fs !! k = None.
Proof.
  intros Hwf Hp Hn Hu Hne. destruct (fs !! k) as [i|] eqn:Ek; [|done]. exfalso.
  destruct (below_entry fs p Hwf Hp k) as (m & Hm & Hc & _); [congruence|done|done|].
  destruct (Hwf _ Hc) as (d & m' & Ed & Hm' & Hd). apply child_inj in Ed as [<- <-]; [|done..]. by destruct Hd.
Qed.

Lemma file_leaf fs p : fs_wf fs -> p <> [] -> fs !! p <> None -> fs !! p <> Some IDir -> without p fs = delete p fs.
Proof.
  intros Hwf Hp Hin Hd. apply map_eq. intros k. rewrite lookup_without, lookup_delete.
  destruct (decide (p = k)) as [<- |Hne]; [by rewrite decide_True by apply under_refl|].
  destruct (decide (under p k)) as [Hu|]; [|done]. destruct (fs !! k) eqn:E; [|done]. exfalso.
  destruct (below_entry fs p Hwf Hp k) as (n & Hn & Hc & _); [congruence|done|done|].
  destruct (Hwf _ Hc) as (d & m & Ed & Hm & Hdd). apply child_inj in Ed as [<- <-]; [|done..].
  by destruct Hdd.
Qed.

Lemma lookup_subtree p fs k : subtree p fs !! k = if decide (under p k) then fs !! k else None.
Proof.
  unfold subtree. destruct (decide (under p k)) as [Hu|Hu].
  - destruct (fs !! k) as [i|] eqn:E; [by apply map_lookup_filter_Some|]. apply map_lookup_filter_None. by left.
  - apply map_lookup_filter_None. by right.
Qed.

Lemma subtree_mono p fs fs' : fs ⊆ fs' -> subtree p fs ⊆ subtree p fs'.
Proof.
  rewrite !map_subseteq_spec. intros Hsub k i. rewrite !lookup_subtree. case_decide; [apply Hsub|done].
Qed.

Lemma without_subseteq p fs : without p fs ⊆ fs.
Proof. apply map_filter_subseteq. Qed.

Lemma subtree_child_size p n fs : fs !! p <> None -> (size (subtree (child p n) fs) < size (subtree p fs))%nat.
Proof.
  intros Hp. destruct (fs !! p) as [i|] eqn:E; [|done].
  assert (subtree p fs !! p = Some i) as Hpi by (by rewrite lookup_subtree, decide_True by apply under_refl).
  assert (subtree (child p n) fs ⊆ delete p (subtree p fs)) as Hsub%map_subseteq_size.
  { apply map_subseteq_spec. intros k j. rewrite lookup_delete, !lookup_subtree.
    destruct (decide (under (child p n) k)) as [Hu|]; [|done]. intros Hj. rewrite decide_False.
    - rewrite decide_True; [done|]. eapply under_trans; [apply under_child|done].
    - intros <-. by apply not_under_child in Hu. }
  rewrite map_size_delete_Some in Hsub by (by exists i).
  assert (size (subtree p fs) <> 0)%nat; [|lia]. rewrite map_size_ne_0_lookup. exists p. by exists i.
Qed.

(** ** Renaming *)

Lemma under_prefix a k : under a k -> exists r, k = a ++ r.
Proof. intros [-> |[r ->]]; [exists []; by rewrite app_nil_r|by eexists]. Qed.

Lemma moved_app a b r : moved a b (a ++ r) = b ++ r.
Proof. unfold moved. by rewrite drop_app_length. Qed.

Lemma moved_under a b k : under a k -> under b (moved a b k).
Proof.
  intros [-> |[r ->]].
  - left. unfold moved. by rewrite drop_all, app_nil_r.
  - right. exists r. by rewrite moved_app.
Qed.

Lemma lookup_moved a b fs j i :
  (list_to_map (prod_map (moved a b) id <$> map_to_list (subtree a fs)) : FileSys) !! j = Some i <->
  exists k, under a k /\ fs !! k = Some i /\ j = moved a b k.
Proof.
  set (l := prod_map (moved a b) id <$> map_to_list (subtree a fs)).
  assert (Hl : forall j i, (j, i) ∈ l <-> exists k, under a k /\ fs !! k = Some i /\ j = moved a b k).
  { clear j i. intros j i. unfold l. rewrite list_elem_of_fmap. split.
    - intros ([k i'] & [= -> ->] & Hin%elem_of_map_to_list). rewrite lookup_subtree in Hin. case_decide; [|done].
      exists k. done.
    - intros (k & Hu & Hk & ->). exists (k, i). split; [done|]. apply elem_of_map_to_list.
      by rewrite lookup_subtree, decide_True. }
  rewrite <- Hl. symmetry. apply elem_of_list_to_map. unfold l. rewrite <- list_fmap_compose.
  apply (NoDup_fmap_2_strong (fst ∘ prod_map (moved a b) id)).
  - intros [k1 i1] [k2 i2] H1%elem_of_map_to_list H2%elem_of_map_to_list E. cbn in E.
    rewrite lookup_subtree in H1, H2. destruct (decide (under a k1)) as [U1|], (decide (under a k2)) as [U2|]; [|done..].
    destruct (under_prefix a k1 U1) as [r1 ->], (under_prefix a k2 U2) as [r2 ->].
    rewrite !moved_app in E. apply app_inv_head in E as ->. congruence.
  - apply NoDup_map_to_list.
Qed.

Lemma sys_rename_lookup fs a b fs' :
  sys_rename fs a b = Some fs' -> a <> b ->
  fs !! a <> None /\ (forall k, under a k -> fs' !! moved a b k = fs !! k) /\
  (forall k, ~ under b k -> fs' !! k = if decide (under a k) then None else fs !! k) /\
  (forall k, under b k -> fs' !! k <> None -> exists k', under a k' /\ k = moved a b k') /\ ~ under a b.
Proof.
  unfold sys_rename. destruct (fs !! a) as [i|] eqn:E; [|done]. intros Hr Hab.
  unfold str_eqb in Hr. rewrite bool_decide_eq_false_2 in Hr by done.
  destruct (can_replace fs i b && negb (underb a b)) eqn:Ec; [|done]. injection Hr as <-.
  apply andb_true_iff in Ec as [_ Hnu]. apply negb_true_iff in Hnu.
  assert (~ under a b) as Hab' by (rewrite <- underb_under; congruence).
  set (mv := list_to_map _ : FileSys).
  assert (Hmv : forall j, mv !! j <> None -> under b j).
  { intros j Hj. destruct (mv !! j) as [x|] eqn:Ej; [|done]. apply lookup_moved in Ej as (k & Hu & _ & ->). by apply moved_under. }
  split_and!; [done| | | |done].
  - intros k Hu. destruct (fs !! k) as [x|] eqn:Ek.
    + apply lookup_union_Some_l. apply lookup_moved. by exists k.
    + apply lookup_union_None. split.
      * destruct (mv !! moved a b k) as [x|] eqn:Ej; [|done]. apply lookup_moved in Ej as (k' & Hu' & Hk' & Em).
        destruct (under_prefix a k Hu) as [r ->], (under_prefix a k' Hu') as [r' ->].
        rewrite !moved_app in Em. apply app_inv_head in Em as ->. congruence.
      * rewrite lookup_without. by rewrite decide_True by (by apply moved_under).
  - intros k Hk. rewrite lookup_union_r.
    + by rewrite lookup_without, decide_False, lookup_without by done.
    + destruct (mv !! k) eqn:Ej; [|done]. destruct Hk. apply Hmv. congruence.
  - intros k Hu Hk. destruct (mv !! k) as [x|] eqn:Ej.
    + apply lookup_moved in Ej as (k' & Hu' & _ & ->). by exists k'.
    + rewrite lookup_union_r, lookup_without, decide_True in Hk by done. done.
Qed.

(** Moving a new file to a free name or over an old file. *)
Lemma rename_over fs tmp p j fs2 :
  fs_wf fs -> fs !! tmp = None -> tmp <> [] -> p <> [] -> fs !! p <> Some IDir -> tmp <> p ->
  sys_rename (<[tmp := j]> fs) tmp p = Some fs2 -> fs2 = <[p := j]> fs.
Proof.
  intros Hwf Htmp Htn Hpn Hp Hne Hr.
  assert (Hbelow : forall k, under tmp k -> fs !! k = None).
  { intros k Hk. destruct (decide (k = tmp)) as [-> |Hkt]; [done|]. apply (nothing_below fs tmp k); [done|done|by rewrite Htmp|done|done]. }
  destruct (sys_rename_lookup _ _ _ _ Hr Hne) as (_ & Hmv & Hout & Hback & _). apply map_eq. intros k.
  destruct (decide (p = k)) as [<- |Hpk].
  { rewrite lookup_insert_eq. replace p with (moved tmp p tmp) at 1 by (unfold moved; by rewrite drop_all, app_nil_r).
    rewrite Hmv by apply under_refl. apply lookup_insert_eq. }
  rewrite lookup_insert_ne by done. destruct (decide (under p k)) as [Hu|Hu].
  - rewrite (nothing_below fs p k Hwf Hpn Hp Hu) by (by apply not_eq_sym).
    destruct (fs2 !! k) as [x|] eqn:Ek; [|done]. destruct (Hback k Hu ltac:(congruence)) as (k' & Hk' & ->).
    rewrite Hmv in Ek by done. rewrite lookup_insert_ne in Ek; [by rewrite Hbelow in Ek|]. intros <-.
    apply Hpk. unfold moved. by rewrite drop_all, app_nil_r.
  - rewrite Hout by done. destruct (decide (under tmp k)) as [Ht|Ht]; [by rewrite Hbelow|]. rewrite lookup_insert_ne; [done|].
    intros <-. apply Ht, under_refl.
Qed.

Lemma not_under_parent d n : ~ under (child d n) d.
Proof. apply not_under_child. Qed.

Lemma sys_rename_wf fs a d n fs' :
  fs_wf fs -> a <> [] -> a <> child d n -> name_ok n = true -> d <> [] ->
  sys_rename fs a (child d n) = Some fs' -> fs_wf fs'.
Proof.
  intros Hwf Ha Hab Hn Hd Hr. pose proof (sys_rename_lookup fs a (child d n) fs' Hr Hab) as (Hin & Hmv & Hout & Hback & Hnu).
  assert (fs !! d = Some IDir) as Hdir.
  { unfold sys_rename in Hr. destruct (fs !! a) as [i|]; [|done]. unfold str_eqb in Hr. rewrite bool_decide_eq_false_2 in Hr by done.
    destruct (can_replace fs i (child d n)) eqn:Ec; [|done]. unfold can_replace in Ec.
    destruct (fs !! child d n) as [j|] eqn:Eb.
    - destruct (Hwf (child d n)) as (d' & n' & E & Hn' & Hd'); [congruence|]. apply child_inj in E as [<- <-]; [|done..].
      by destruct Hd'.
    - rewrite parent_ok_child in Ec by done. by apply bool_decide_eq_true in Ec. }
  intros k Hk. destruct (decide (under (child d n) k)) as [Hu|Hu].
  - destruct (Hback k Hu Hk) as (k' & Hu' & ->). rewrite Hmv in Hk by done. destruct (decide (k' = a)) as [-> |Hka].
    + exists d, n. unfold moved. rewrite drop_all, app_nil_r. split_and!; [done|done|right].
      rewrite Hout by apply not_under_child. rewrite decide_False; [done|]. intros Hud. apply Hnu.
      eapply under_trans; [done|apply under_child].
    + destruct (Hwf k' Hk) as (d' & n' & -> & Hn' & Hd'). destruct (under_child_split a d' n' Hn' Hu') as [?|Hud]; [done|].
      exists (moved a (child d n) d'), n'. split_and!; [|done|].
      * destruct (under_prefix a d' Hud) as [r ->]. unfold child at 2. rewrite <- app_assoc, !moved_app. unfold child.
        by rewrite <- !app_assoc.
      * right. rewrite Hmv by done. destruct Hd' as [-> |]; [|done]. by apply under_length in Hud; destruct a; cbn in Hud; [|lia].
  - rewrite Hout in Hk by done. case_decide as Hua; [done|]. destruct (Hwf k Hk) as (d' & n' & -> & Hn' & Hd').
    exists d', n'. split_and!; [done|done|]. destruct Hd' as [-> |Hd']; [by left|right]. rewrite Hout.
    + rewrite decide_False; [done|]. intros Hud. apply Hua. eapply under_trans; [done|apply under_child].
    + intros Hud. apply Hu. eapply under_trans; [done|apply under_child].
Qed.

Section DeletePath.
Context (st_nlink st_blocks : FileSys -> str -> Z).
Abbreviation del := (_deletePath st_nlink st_blocks).

Lemma delete_entries fuel p names : forall fs b,
  (forall fs b q, fs_wf fs -> q <> [] -> fs !! q <> None -> (size (subtree q fs) <= fuel)%nat ->
     exists b', del fuel q (fs, b) = Done tt (without q fs, b')) ->
  fs_wf fs -> NoDup names ->
  (forall n, n ∈ names -> name_ok n = true /\ fs !! child p n <> None /\ (size (subtree (child p n) fs) <= fuel)%nat) ->
  exists b', forM (fun i => del fuel (child p i)) names (fs, b) = Done tt (without_all (child p <$> names) fs, b').
Proof.
  induction names as [|n names IH]; intros fs b Hdel Hwf Hnd Hin; [by exists b|].
  apply NoDup_cons in Hnd as [Hnn Hnd]. destruct (Hin n) as (Hn & Hc & Hs); [left|].
  destruct (Hdel fs b (child p n) Hwf (child_nonnil p n) Hc Hs) as [b1 E1].
  cbn [forM]. unfold mbind, M_bind. rewrite E1.
  destruct (IH (without (child p n) fs) b1) as [b2 E2]; [done|by apply without_wf|done| |by exists b2].
  intros m Hm. destruct (Hin m) as (Hnm & Hcm & Hsm); [by right|]. split_and!; [done| |].
  - rewrite lookup_without, decide_False; [done|]. intros Hu. destruct Hnn.
    by rewrite (under_child_inj p n m (child p m) Hn Hnm Hu (under_refl _)).
  - etrans; [|exact Hsm]. apply map_subseteq_size, subtree_mono, without_subseteq.
Qed.

Lemma _deletePath_spec fuel : forall fs b p,
  fs_wf fs -> p <> [] -> fs !! p <> None -> (size (subtree p fs) <= fuel)%nat ->
  exists b', del fuel p (fs, b) = Done tt (without p fs, b').
Proof.
  induction fuel as [|fuel IH]; intros fs b p Hwf Hp Hin Hsz.
  { destruct (fs !! p) as [i|] eqn:E; [|done]. exfalso.
    assert (size (subtree p fs) <> 0)%nat; [|lia]. rewrite map_size_ne_0_lookup. exists p. exists i.
    by rewrite lookup_subtree, decide_True by apply under_refl. }
  cbn [_deletePath]. unfold mbind, M_bind, lift, modify, lstat. cbn [fst].
  destruct (fs !! p) as [i|] eqn:E; [|done]. set (s1 := if _ && _ then _ else _).
  assert (exists b1, s1 = (fs, b1)) as [b1 ->] by (unfold s1; case_match; eauto).
  destruct (is_dir i) eqn:Ed.
  - destruct i; try done. cbn [fst].
    assert (exists names, readDirectory fs p = Ok names) as [names En] by (unfold readDirectory; rewrite E; eauto).
    destruct (readDirectory_spec fs p names En) as (_ & Hnd & Hnames). rewrite En.
    destruct (delete_entries fuel p names fs b1) as [b2 E2]; [done|done|done| |].
    { intros n [Hn Hc]%Hnames. split_and!; [done|done|]. pose proof (subtree_child_size p n fs ltac:(congruence)). lia. }
    rewrite E2. unfold update, sys_remove. cbn [fst snd].
    destruct (without_entries fs p names Hwf Hp Hnames ltac:(congruence)) as (H1 & H2 & H3).
    rewrite H3, E, H2, H1. by exists b2.
  - unfold mret, M_ret, update, sys_remove. cbn [fst snd]. rewrite E, file_leaf by (done || congruence || (intros ?; destruct i; naive_solver)).
    exists b1. by destruct i.
Qed.

(** The outcomes of [deletePath]. *)
Lemma deletePath_spec fs b p :
  fs_wf fs -> p <> [] ->
  match deletePath st_nlink st_blocks p (fs, b) with
  | Done _ (fs', _) => fs !! p <> None /\ fs' = without p fs /\ fs_wf fs'
  | Raised e (fs', _) => exn_kind e = eSysError /\ fs !! p = None /\ fs' = fs
  | Stuck => False
  end.
Proof.
  intros Hwf Hp. unfold deletePath, mbind, M_bind, modify, gets. cbn [fst].
  destruct (fs !! p) as [i|] eqn:E.
  - destruct (_deletePath_spec (deletePath_fuel fs) fs 0 p) as [b' ->]; [done|done|congruence| |].
    { unfold deletePath_fuel. pose proof (map_subseteq_size _ _ (map_filter_subseteq (fun ki : str * inode => under p ki.1) fs)).
      unfold subtree. lia. }
    split_and!; [done|done|by apply without_wf].
  - unfold deletePath_fuel. cbn [_deletePath]. unfold mbind, M_bind, lift, lstat. cbn [fst]. by rewrite E.
Qed.

Lemma deletePathWrapped_spec useHelper fs b p :
  fs_wf fs -> p <> [] ->
  match deletePathWrapped st_nlink st_blocks useHelper p (fs, b) with
  | Done _ (fs', _) => fs !! p <> None /\ fs' = without p fs /\ fs_wf fs'
  | Raised e (fs', _) => exn_kind e = eSysError /\ fs !! p = None /\ fs' = fs
  | Stuck => False
  end.
Proof.
  intros Hwf Hp. unfold deletePathWrapped, try_catch. pose proof (deletePath_spec fs b p Hwf Hp) as H.
  destruct (deletePath _ _ _ _) as [u s|e [fs' b']|]; [done| |done]. destruct H as (Hk & Hn & ->).
  rewrite Hk, bool_decide_eq_true_2 by done. destruct useHelper; [|done].
  pose proof (deletePath_spec fs b' p Hwf Hp) as H. by destruct (deletePath _ _ _ _) as [u [] |e' []|].
Qed.

(** Deleting a path of a well-formed file system returns, removes exactly the
    object and everything below it, and leaves a well-formed file system; when there
    is no such object it throws a system error and changes nothing. *)
Theorem deletePath_exact fs b p :
  fs_wf fs -> p <> [] ->
  match deletePath st_nlink st_blocks p (fs, b) with
  | Done _ (fs', _) => fs !! p <> None /\ fs' = without p fs /\ fs_wf fs'
  | Raised e (fs', _) => exn_kind e = eSysError /\ fs !! p = None /\ fs' = fs
  | Stuck => False
  end.
Proof. apply deletePath_spec. Qed.
End DeletePath.

Definition sample_tree : FileSys :=
  {[ $"/t" := IDir; $"/t/a" := IDir; $"/t/a/f" := IReg 420 ($"x"); $"/t/l" := ILnk ($"/"); $"/ta" := IDir ]}.

Lemma sample_tree_wf : fs_wf sample_tree.
Proof. apply fs_wfb_ok. vm_compute. reflexivity. Qed.

Lemma deletePath_exact_witness :
  match deletePath (fun _ _ => 1%Z) (fun _ _ => 8%Z) ($"/t") (sample_tree, 0%Z) with
  | Done _ (fs', b) => fs' = without ($"/t") sample_tree
  | _ => False
  end.
Proof.
  assert (done_b (deletePath (fun _ _ => 1%Z) (fun _ _ => 8%Z) ($"/t") (sample_tree, 0%Z)) = true) as E
    by (vm_compute; reflexivity).
  pose proof (deletePath_exact (fun _ _ => 1%Z) (fun _ _ => 8%Z) sample_tree 0 ($"/t") sample_tree_wf ltac:(discriminate)) as H.
  destruct (deletePath _ _ _ _) as [u [fs' b]|e s|]; [|discriminate E..].
  destruct H as (_ & H & _). exact H.
Defined.
