(* ===== verification/Archive.v ===== *)
(** * Nix archives (src/src/libutil/archive.cc, archive.hh, hashPath of hash.cc)

    Dumping a file system object as an archive and restoring it.  The dump is
    written to any [Sink]; the parser reads any [Source] and drives any
    [ParseSink]; [RestoreSink] is the parse sink that recreates the object.  The
    theorems: the dump of an object is the canonical encoding of its tree, parsing
    that encoding calls the sink exactly with the events of the tree, and restoring
    a dump recreates the tree and touches nothing else. *)

From Stdlib Require Import ZArith Lia Ascii.
From stdpp Require Import base strings sorting numbers gmap sets list.
From S2P Require Import Prelude Util Serialise Hash FileSystem.

Definition archiveVersion1 : str := $"nix-archive-1".

(** [sizeof(buf)] of the copy loops. *)
Definition copy_bufSize : nat := Z.to_nat 65536.

(** ** Dumping *)

Section Dump.
Context {S : Type} `{Sink S}.
(** [sched path] are the choices of the operating system for the reads of the file
    opened at [path]; [filter] is the [PathFilter]. *)
Context (fs : FileSys) (sched : str -> list io_choice) (filter : str -> bool).

(** The copy loop of [dumpContents], once per block. *)
Fixpoint dumpContents_loop (fuel : nat) (left : nat) (fd : Fd) (sink : S) : result S :=
  match left with
  | O => Ok sink
  | _ =>
      match fuel with
      | O => NoFuel
      | Datatypes.S fuel =>
          let n := if (copy_bufSize <? left)%nat then copy_bufSize else left in
          '(buf, fd) ← readFull n fd;
          sink ← sink_write sink buf;
          dumpContents_loop fuel (left - n) fd sink
      end
  end.
Definition dumpContents (path : str) (size : nat) (sink : S) : result S :=
  sink ← writeString ($"contents") sink;
  sink ← writeLongLong (Z.of_nat size) sink;
  match fs !! path with
  | Some (IReg _ data) =>
      sink ← dumpContents_loop size size (mkFd data (sched path)) sink;
      writePadding size sink
  | _ => throw eSysError ($"opening file `" ++ path ++ $"'")
  end.

(** [dumpEntries], given [dump] for the entries; [dumpEntry] is the body of its
    loop for an entry the filter accepts. *)
Definition dumpEntry (dump : str -> S -> result S) (path : str) (sink : S) (i : str) : result S :=
  sink ← writeString ($"entry") sink;
  sink ← writeString ($"(") sink;
  sink ← writeString ($"name") sink;
  sink ← writeString i sink;
  sink ← writeString ($"node") sink;
  sink ← dump (child path i) sink;
  writeString ($")") sink.
Definition dumpEntries (dump : str -> S -> result S) (path : str) (sink : S) : result S :=
  names ← readDirectory fs path;
  foldM (fun sink i =>
    if filter (child path i) then dumpEntry dump path sink i else Ok sink)
    sink (merge_sort str_le names).

(** [dump]; the fuel bounds the depth of the tree. *)
Fixpoint dump (fuel : nat) (path : str) (sink : S) : result S :=
  match fuel with
  | O => NoFuel
  | Datatypes.S fuel =>
      st ← lstat fs path;
      sink ← writeString ($"(") sink;
      sink ← match st with
        | IReg mode data =>
            sink ← writeString ($"type") sink;
            sink ← writeString ($"regular") sink;
            sink ← (if negb (Z.land mode S_IXUSR =? 0)%Z then
                      sink ← writeString ($"executable") sink;
                      writeString ($"") sink
                    else Ok sink);
            dumpContents path (length data) sink
        | IDir =>
            sink ← writeString ($"type") sink;
            sink ← writeString ($"directory") sink;
            dumpEntries (dump fuel) path sink
        | ILnk _ =>
            sink ← writeString ($"type") sink;
            sink ← writeString ($"symlink") sink;
            sink ← writeString ($"target") sink;
            target ← readLink fs path;
            writeString target sink
        | IOther => error ($"file `" ++ path ++ $"' has an unknown type")
        end;
      writeString ($")") sink
  end.

Definition dumpPath (fuel : nat) (path : str) (sink : S) : result S :=
  sink ← writeString archiveVersion1 sink;
  dump fuel path sink.
End Dump.

(** ** Parsing *)

(** The virtual functions of [ParseSink]. *)
Class ParseSink (K : Type) : Type := {
  createDirectory : str -> K -> result K;
  createRegularFile : str -> K -> result K;
  isExecutable : K -> result K;
  preallocateContents : Z -> K -> result K;
  receiveContents : str -> K -> result K;
  createSymlink : str -> str -> K -> result K }.

(** The base class, whose functions do nothing. *)
#[export] Instance null_parse_sink : ParseSink unit := {|
  createDirectory _ k := Ok k; createRegularFile _ k := Ok k; isExecutable k := Ok k;
  preallocateContents _ k := Ok k; receiveContents _ k := Ok k; createSymlink _ _ k := Ok k |}.

Definition badArchive {A} (s : str) : result A := throw eSerialisationError ($"bad archive: " ++ s).

Inductive node_type : Type := tpUnknown | tpRegular | tpDirectory | tpSymlink.
#[export] Instance node_type_eq_dec : EqDecision node_type.
Proof. solve_decision. Defined.

Section Parse.
Context {K S : Type} `{ParseSink K} `{Source S}.

(** [parseEntry], given [parse] for the node: what an iteration does with the field
    [s] it has read ([loop] is the next iteration, with the name), and the loop. *)
Definition parseEntry_field (parse : str -> K -> S -> result (K * S))
    (loop : str -> K -> S -> result (K * S)) (path name s : str) (sink : K) (source : S) :
    result (K * S) :=
  if str_eqb s ($")") then Ok (sink, source)
  else if str_eqb s ($"name") then
    '(name, source) ← readString source;
    loop name sink source
  else if str_eqb s ($"node") then
    if str_eqb s [] then badArchive ($"entry name missing")
    else
      '(sink, source) ← parse (child path name) sink source;
      loop name sink source
  else badArchive ($"unknown field " ++ s).
Fixpoint parseEntry_loop (parse : str -> K -> S -> result (K * S)) (fuel : nat)
    (path name : str) (sink : K) (source : S) : result (K * S) :=
  match fuel with
  | O => NoFuel
  | Datatypes.S fuel =>
      '(s, source) ← readString source;
      parseEntry_field parse (parseEntry_loop parse fuel path) path name s sink source
  end.
Definition parseEntry (parse : str -> K -> S -> result (K * S)) (fuel : nat)
    (path : str) (sink : K) (source : S) : result (K * S) :=
  '(s, source) ← readString source;
  if negb (str_eqb s ($"(")) then badArchive ($"expected open tag")
  else parseEntry_loop parse fuel path [] sink source.

(** The copy loop of [parseContents], once per block. *)
Fixpoint parseContents_loop (fuel : nat) (left : Z) (sink : K) (source : S) : result (K * S) :=
  if (left =? 0)%Z then Ok (sink, source)
  else
    match fuel with
    | O => NoFuel
    | Datatypes.S fuel =>
        let n := if (left <? Z.of_nat copy_bufSize)%Z then left else Z.of_nat copy_bufSize in
        '(buf, source) ← source_get (Z.to_nat n) source;
        sink ← receiveContents buf sink;
        parseContents_loop fuel (left - n) sink source
    end.
Definition parseContents (sink : K) (source : S) : result (K * S) :=
  '(size, source) ← readLongLong source;
  sink ← preallocateContents size sink;
  '(sink, source) ← parseContents_loop (Z.to_nat size) size sink source;
  source ← readPadding (Z.to_nat size) source;
  Ok (sink, source).

(** The loop of [parse] over the fields of a node: what an iteration does with the
    field [s] it has read ([loop] is the next iteration), and the loop. *)
Definition parse_field (parse : str -> K -> S -> result (K * S)) (efuel : nat)
    (loop : node_type -> K -> S -> result (K * S)) (path : str) (type : node_type) (s : str)
    (sink : K) (source : S) : result (K * S) :=
  if str_eqb s ($")") then Ok (sink, source)
  else if str_eqb s ($"type") then
    if negb (bool_decide (type = tpUnknown)) then badArchive ($"multiple type fields")
    else
      '(t, source) ← readString source;
      if str_eqb t ($"regular") then
        sink ← createRegularFile path sink;
        loop tpRegular sink source
      else if str_eqb t ($"directory") then
        sink ← createDirectory path sink;
        loop tpDirectory sink source
      else if str_eqb t ($"symlink") then loop tpSymlink sink source
      else badArchive ($"unknown file type " ++ t)
  else if str_eqb s ($"contents") && bool_decide (type = tpRegular) then
    '(sink, source) ← parseContents sink source;
    loop type sink source
  else if str_eqb s ($"executable") && bool_decide (type = tpRegular) then
    '(_, source) ← readString source;
    sink ← isExecutable sink;
    loop type sink source
  else if str_eqb s ($"entry") && bool_decide (type = tpDirectory) then
    '(sink, source) ← parseEntry parse efuel path sink source;
    loop type sink source
  else if str_eqb s ($"target") && bool_decide (type = tpSymlink) then
    '(target, source) ← readString source;
    sink ← createSymlink path target sink;
    loop type sink source
  else badArchive ($"unknown field " ++ s).
Fixpoint parse_fields (parse : str -> K -> S -> result (K * S)) (efuel fuel : nat)
    (path : str) (type : node_type) (sink : K) (source : S) : result (K * S) :=
  match fuel with
  | O => NoFuel
  | Datatypes.S fuel =>
      '(s, source) ← readString source;
      parse_field parse efuel (parse_fields parse efuel fuel path) path type s sink source
  end.

(** [parse]; the fuel bounds the depth and the number of fields of a node. *)
Fixpoint parse (fuel : nat) (path : str) (sink : K) (source : S) : result (K * S) :=
  match fuel with
  | O => NoFuel
  | Datatypes.S fuel =>
      '(s, source) ← readString source;
      if negb (str_eqb s ($"(")) then badArchive ($"expected open tag")
      else parse_fields (parse fuel) fuel fuel path tpUnknown sink source
  end.

(** [parseDump]: a [SerialisationError] of the first read is caught. *)
Definition parseDump (fuel : nat) (sink : K) (source : S) : result (K * S) :=
  match readString source with
  | Ok (version, source) =>
      if str_eqb version archiveVersion1 then parse fuel [] sink source
      else badArchive ($"input doesn't look like a Nix archive")
  | Throw (Exn eSerialisationError _) => badArchive ($"input doesn't look like a Nix archive")
  | Throw e => Throw e
  | NoFuel => NoFuel
  end.
End Parse.

(** ** Restoring *)

(** What [posix_fallocate] does: it may not be there or not be supported by the
    file system ([FallocNone]), or fail. *)
Inductive falloc : Type := FallocDone | FallocNone | FallocFail.

(** [RestoreSink]: the file system it changes, the destination, and the open
    file with its offset. *)
Record RestoreSink : Type := mkRestoreSink {
  rs_fs : FileSys; rs_dst : str; rs_fd : option (str * nat) }.

Section Restore.
Context (umask : Z) (posix_fallocate : Z -> falloc).

Definition rs_createDirectory (path : str) (k : RestoreSink) : result RestoreSink :=
  let p := rs_dst k ++ path in
  match sys_create (rs_fs k) p IDir with
  | Some fs => Ok (mkRestoreSink fs (rs_dst k) (rs_fd k))
  | None => throw eSysError ($"creating directory `" ++ p ++ $"'")
  end.

Definition rs_createRegularFile (path : str) (k : RestoreSink) : result RestoreSink :=
  let p := rs_dst k ++ path in
  match sys_create (rs_fs k) p (IReg (Z.land 438 (Z.lnot umask)) []) with
  | Some fs => Ok (mkRestoreSink fs (rs_dst k) (Some (p, 0%nat)))
  | None => throw eSysError ($"creating file `" ++ p ++ $"'")
  end.

(** The file the descriptor refers to. *)
Definition rs_file (k : RestoreSink) : option (str * nat * Z * str) :=
  '(p, off) ← rs_fd k;
  match rs_fs k !! p with Some (IReg mode data) => Some (p, off, mode, data) | _ => None end.

Definition rs_isExecutable (k : RestoreSink) : result RestoreSink :=
  match rs_file k with
  | Some (p, off, mode, data) =>
      Ok (mkRestoreSink (<[p := IReg (Z.lor mode S_IXANY) data]> (rs_fs k)) (rs_dst k) (rs_fd k))
  | None => throw eSysError ($"fstat")
  end.

Definition rs_preallocateContents (len : Z) (k : RestoreSink) : result RestoreSink :=
  if (len =? 0)%Z then Ok k
  else
    match posix_fallocate len with
    | FallocNone => Ok k
    | FallocFail => throw eSysError ($"preallocating file of " ++ print_dec len ++ $" bytes")
    | FallocDone =>
        match rs_file k with
        | Some (p, off, mode, data) =>
            Ok (mkRestoreSink (<[p := IReg mode (extend data (Z.to_nat len))]> (rs_fs k))
                  (rs_dst k) (rs_fd k))
        | None => throw eSysError ($"preallocating file of " ++ print_dec len ++ $" bytes")
        end
    end.

(** [writeFull] at the descriptor's offset. *)
Definition rs_receiveContents (d : str) (k : RestoreSink) : result RestoreSink :=
  match rs_file k with
  | Some (p, off, mode, data) =>
      Ok (mkRestoreSink (<[p := IReg mode (write_at data off d)]> (rs_fs k))
            (rs_dst k) (Some (p, (off + length d)%nat)))
  | None => match d with [] => Ok k | _ => throw eSysError ($"writing to file") end
  end.

Definition rs_createSymlink (path target : str) (k : RestoreSink) : result RestoreSink :=
  let p := rs_dst k ++ path in
  match sys_create (rs_fs k) p (ILnk target) with
  | Some fs => Ok (mkRestoreSink fs (rs_dst k) (rs_fd k))
  | None => throw eSysError ($"creating symlink `" ++ p ++ $"'")
  end.

#[local] Instance restore_sink : ParseSink RestoreSink := {|
  createDirectory := rs_createDirectory; createRegularFile := rs_createRegularFile;
  isExecutable := rs_isExecutable; preallocateContents := rs_preallocateContents;
  receiveContents := rs_receiveContents; createSymlink := rs_createSymlink |}.

Definition restorePath {S} `{Source S} (fuel : nat) (fs : FileSys) (path : str) (source : S) :
    result (FileSys * S) :=
  '(k, source) ← parseDump fuel (mkRestoreSink fs path None) source;
  Ok (rs_fs k, source).
End Restore.

(** [hashPath] (hash.cc). *)
Definition hashPath `{HashAlgo} (ht : HashType) (fs : FileSys) (sched : str -> list io_choice)
    (filter : str -> bool) (fuel : nat) (path : str) : result (Hash * Z) :=
  sink ← dumpPath fs sched filter fuel path (HashSink_new ht);
  HashSink_finish sink.

(** * Trees and their encoding *)

(** The file system objects an archive describes. *)
#[warnings="-register-all"]
Inductive node : Type :=
| NReg (executable : bool) (contents : str)
| NLnk (target : str)
| NDir (entries : list (str * node)).

(** Induction with the hypothesis for every entry. *)
Fixpoint node_ind' (P : node -> Prop)
    (Hreg : forall x c, P (NReg x c)) (Hlnk : forall t, P (NLnk t))
    (Hdir : forall es, Forall (fun e => P e.2) es -> P (NDir es)) (t : node) : P t :=
  match t with
  | NReg x c => Hreg x c
  | NLnk t => Hlnk t
  | NDir es =>
      Hdir es ((fix go (es : list (str * node)) : Forall (fun e => P e.2) es :=
        match es with
        | [] => Forall_nil_2 _
        | e :: es => Forall_cons_2 _ e es (node_ind' P Hreg Hlnk Hdir e.2) (go es)
        end) es)
  end.

(** The format that archive.cc writes: nested parenthesised lists of strings. *)
Fixpoint enc_node (t : node) : str :=
  enc_string ($"(") ++
  match t with
  | NReg x c =>
      enc_string ($"type") ++ enc_string ($"regular") ++
      (if x then enc_string ($"executable") ++ enc_string ($"") else []) ++
      enc_string ($"contents") ++ enc_longlong (Z.of_nat (length c)) ++ c ++ enc_padding (length c)
  | NLnk t =>
      enc_string ($"type") ++ enc_string ($"symlink") ++ enc_string ($"target") ++ enc_string t
  | NDir es =>
      enc_string ($"type") ++ enc_string ($"directory") ++
      concat (map (fun e =>
        enc_string ($"entry") ++ enc_string ($"(") ++ enc_string ($"name") ++ enc_string e.1 ++
        enc_string ($"node") ++ enc_node e.2 ++ enc_string ($")")) es)
  end ++
  enc_string ($")").
Definition enc_archive (t : node) : str := enc_string archiveVersion1 ++ enc_node t.

(** The tree at a path of the file system, its directories in sorted order,
    without the entries the filter rejects; the fuel bounds the depth. *)
Fixpoint tree_of (fs : FileSys) (filter : str -> bool) (fuel : nat) (path : str) : option node :=
  match fuel with
  | O => None
  | S fuel =>
      match fs !! path with
      | Some (IReg mode data) => Some (NReg (negb (Z.land mode S_IXUSR =? 0)%Z) data)
      | Some (ILnk t) => Some (NLnk t)
      | Some IDir =>
          match readDirectory fs path with
          | Ok names =>
              NDir <$> mapM (fun n => pair n <$> tree_of fs filter fuel (child path n))
                (base.filter (fun n => filter (child path n) = true) (merge_sort str_le names))
          | _ => None
          end
      | _ => None
      end
  end.

(** Names, targets and contents within the limits of the format. *)
Fixpoint node_bounded (t : node) : Prop :=
  match t with
  | NReg _ c => (Z.of_nat (length c) < 2 ^ 64)%Z
  | NLnk t => chunk_ok t
  | NDir es => foldr (fun e P => chunk_ok e.1 /\ node_bounded e.2 /\ P) True es
  end.

(** ** Dumping writes the encoding *)

Lemma readFull_loop_spec fuel acc count fd :
  sched_ok (fd_sched fd) -> (count <= length (fd_data fd))%nat ->
  (count + length (fd_sched fd) <= fuel)%nat ->
  exists fd', readFull_loop fuel acc count fd = Ok (acc ++ take count (fd_data fd), fd') /\
    fd_data fd' = drop count (fd_data fd) /\ sched_ok (fd_sched fd').
Proof.
  revert acc count fd. induction fuel as [|fuel IH]; intros acc count [data sched] Hs Hc Hf; cbn in *.
  { destruct count; [|lia]. eexists. by rewrite take_0, app_nil_r. }
  destruct count as [|count]; [eexists; by rewrite take_0, app_nil_r|].
  set (n := S count) in *.
  assert (forall m sched', (0 < m <= n)%nat -> sched_ok sched' -> (n - m + length sched' <= fuel)%nat ->
    exists fd', match take m data with
      | [] => throw eEndOfFile ($"unexpected end-of-file")
      | _ => readFull_loop fuel (acc ++ take m data) (n - length (take m data)) (mkFd (drop m data) sched')
      end = Ok (acc ++ take n data, fd') /\ fd_data fd' = drop n data /\ sched_ok (fd_sched fd')) as Hstep.
  { intros m sched' Hm Hs' Hf'. destruct (take m data) as [|c d] eqn:E.
    { apply (f_equal length) in E. rewrite length_take in E. cbn in E. lia. }
    rewrite <- E. rewrite length_take, Nat.min_l by lia.
    destruct (IH (acc ++ take m data) (n - m)%nat (mkFd (drop m data) sched')) as (fd' & -> & Hd & Hs'');
      cbn [fd_data fd_sched] in *; [done|rewrite length_drop; lia|lia|].
    exists fd'. rewrite <- app_assoc, Hd, drop_drop. split_and!; [|do 2 f_equal; lia|done].
    do 3 f_equal. replace n with (m + (n - m))%nat at 2 by lia. apply take_take_drop. }
  unfold sys_read. cbn [fd_sched fd_data]. destruct sched as [|[k| |] sched].
  - apply Hstep; [lia|done|cbn in *; lia].
  - apply sched_ok_cons in Hs as [_ Hs]. apply Hstep; [lia|done|cbn in *; lia].
  - apply sched_ok_cons in Hs as [_ Hs]. apply (IH acc n (mkFd data sched)); [done|done|cbn in *; lia].
  - by apply sched_ok_cons in Hs as [? _].
Qed.

Lemma readFull_spec count fd :
  sched_ok (fd_sched fd) -> (count <= length (fd_data fd))%nat ->
  exists fd', readFull count fd = Ok (take count (fd_data fd), fd') /\
    fd_data fd' = drop count (fd_data fd) /\ sched_ok (fd_sched fd').
Proof. intros. by apply (readFull_loop_spec _ []). Qed.

Section DumpSpec.
Context {S : Type} `{SinkLaws S}.
Context (fs : FileSys) (sched : str -> list io_choice) (filter : str -> bool).
Hypothesis sched_fine : forall p, sched_ok (sched p).

Lemma dumpContents_loop_writes fuel data fd :
  fd_data fd = data -> sched_ok (fd_sched fd) -> (length data <= fuel)%nat ->
  writes (fun s : S => dumpContents_loop fuel (length data) fd s) data.
Proof.
  revert data fd. induction fuel as [|fuel IH]; intros data fd Hd Hs Hf.
  { destruct data; [|cbn in Hf; lia]. apply writes_nil. }
  destruct data as [|c data']; [apply writes_nil|]. set (data := c :: data') in *.
  assert (0 < length data)%nat as Hlen by (cbn; lia).
  set (n := if (copy_bufSize <? length data)%nat then copy_bufSize else length data).
  assert (0 < n <= length data /\ n <= copy_bufSize)%nat as [Hn Hn'].
  { unfold n. destruct (Nat.ltb_spec copy_bufSize (length data)); unfold copy_bufSize in *; lia. }
  destruct (readFull_spec n fd) as (fd' & E & Hd' & Hs'); [done|rewrite Hd; lia|].
  rewrite Hd in E, Hd'.
  intros s l Hl.
  destruct (sink_writes (take n data)) with (s := s) (l := l) as (s1 & E1 & R1); [|done|].
  { unfold chunk_ok. rewrite length_take. unfold copy_bufSize in *. lia. }
  destruct (IH (drop n data) fd' Hd' Hs') with (s := s1) (l := l ++ take n data) as (s2 & E2 & R2).
  { rewrite length_drop. lia. }
  { done. }
  exists s2. rewrite <- app_assoc, take_drop in R2. split; [|done].
  rewrite length_drop in E2. rewrite <- E2.
  destruct (length data) eqn:Hl0; [lia|]. cbn [dumpContents_loop]. fold n.
  rewrite E. cbn [mbind result_bind]. rewrite E1. done.
Qed.

Lemma dumpContents_writes path mode data :
  fs !! path = Some (IReg mode data) -> (Z.of_nat (length data) < 2 ^ 64)%Z ->
  writes (fun s : S => dumpContents fs sched path (length data) s)
    (enc_string ($"contents") ++ enc_longlong (Z.of_nat (length data)) ++ data ++ enc_padding (length data)).
Proof.
  intros E Hd. unfold dumpContents. rewrite E.
  apply writes_bind; [by apply writeString_writes|].
  apply writes_bind; [apply writeLongLong_writes; lia|].
  apply writes_bind; [|apply writePadding_writes].
  apply dumpContents_loop_writes; [done|apply sched_fine|lia].
Qed.

Lemma writeLit_writes (x : str) : (length x <? 256)%nat = true -> writes (fun s : S => writeString x s) (enc_string x).
Proof. intros Hx. reflect. apply writeString_writes. unfold chunk_ok. lia. Qed.
End DumpSpec.

(** Write the next literal of the encoding. *)
Ltac write_lit := apply writes_bind; [apply writeLit_writes; reflexivity|].

Section DumpSpec2.
Context {S : Type} `{SinkLaws S}.
Context (fs : FileSys) (sched : str -> list io_choice) (filter : str -> bool).
Hypothesis sched_fine : forall p, sched_ok (sched p).

Lemma foldM_filter {A B} (P : A -> bool) (f : B -> A -> result B) b l :
  foldM (fun b a => if P a then f b a else Ok b) b l = foldM f b (base.filter (fun a => P a = true) l).
Proof.
  revert b. induction l as [|a l IH]; intros b; cbn [foldM]; [done|]. rewrite filter_cons.
  destruct (decide (P a = true)) as [E|E]; [rewrite E|apply not_true_is_false in E; rewrite E].
  - cbn [foldM]. destruct (f b a); [apply IH|done..].
  - apply IH.
Qed.

Lemma dump_writes fuel path t :
  tree_of fs filter fuel path = Some t -> node_bounded t ->
  writes (fun s : S => dump fs sched filter fuel path s) (enc_node t).
Proof.
  revert path t. induction fuel as [|fuel IH]; intros path t Ht Hb; [done|].
  cbn [tree_of] in Ht. cbn [dump]. unfold lstat.
  destruct (fs !! path) as [[mode data| |target| ]|] eqn:Ei; try done; simplify_eq; cbn [mbind result_bind enc_node].
  - write_lit. apply writes_bind; [|by apply writeLit_writes]. cbn in Hb. repeat write_lit.
    apply writes_bind; [|by eapply dumpContents_writes].
    destruct (Z.land mode S_IXUSR =? 0)%Z; cbn [negb]; [apply writes_nil|].
    write_lit. by apply writeLit_writes.
  - destruct (readDirectory fs path) as [names| |] eqn:En; try done.
    apply fmap_Some in Ht as (es & Hes & ->). cbn [enc_node].
    write_lit. apply writes_bind; [|by apply writeLit_writes]. repeat write_lit.
    unfold dumpEntries. rewrite En. cbn [mbind result_bind].
    intros s l. rewrite (foldM_filter (fun n => filter (child path n))). revert s l.
    apply mapM_Some in Hes. cbn in Hb. revert Hes Hb.
    generalize (base.filter (fun n => filter (child path n) = true) (merge_sort str_le names)) as fns.
    induction 1 as [|n e fns es He Hes IHes]; intros Hb; [apply writes_nil|].
    cbn [map concat foldM]. apply fmap_Some in He as (t & Ht & ->). cbn in Hb.
    destruct Hb as (Hn & Hbt & Hb). cbn [fst snd].
    apply (writes_bind (fun s => dumpEntry _ _ s n)); [|exact (IHes Hb)].
    unfold dumpEntry. repeat write_lit.
    apply writes_bind; [by apply writeString_writes|]. write_lit.
    apply writes_bind; [by apply IH|by apply writeLit_writes].
  - write_lit. apply writes_bind; [|by apply writeLit_writes]. repeat write_lit.
    unfold readLink. rewrite Ei. cbn [mbind result_bind]. by apply writeString_writes.
Qed.

Lemma dumpPath_writes fuel path t :
  tree_of fs filter fuel path = Some t -> node_bounded t ->
  writes (fun s : S => dumpPath fs sched filter fuel path s) (enc_archive t).
Proof.
  intros. unfold dumpPath, enc_archive. write_lit. by apply dump_writes.
Qed.
End DumpSpec2.

(** ** Parsing an encoding drives the sink with the tree's events *)

Inductive event : Type :=
| EvDirectory (path : str)
| EvRegular (path : str)
| EvExecutable
| EvPreallocate (size : Z)
| EvContents (data : str)
| EvSymlink (path target : str).

Definition run_event {K} `{ParseSink K} (k : K) (e : event) : result K :=
  match e with
  | EvDirectory p => createDirectory p k
  | EvRegular p => createRegularFile p k
  | EvExecutable => isExecutable k
  | EvPreallocate n => preallocateContents n k
  | EvContents d => receiveContents d k
  | EvSymlink p t => createSymlink p t k
  end.
Definition run_events {K} `{ParseSink K} (es : list event) (k : K) : result K := foldM run_event k es.

(** Contents arrive in blocks. *)
Fixpoint blocks_loop (fuel : nat) (data : str) : list str :=
  match fuel, data with
  | S fuel, _ :: _ => take copy_bufSize data :: blocks_loop fuel (drop copy_bufSize data)
  | _, _ => []
  end.
Definition blocks (data : str) : list str := blocks_loop (length data) data.

Fixpoint node_events (path : str) (t : node) : list event :=
  match t with
  | NReg x c =>
      [EvRegular path] ++ (if x then [EvExecutable] else []) ++
      [EvPreallocate (Z.of_nat (length c))] ++ map EvContents (blocks c)
  | NLnk t => [EvSymlink path t]
  | NDir es => EvDirectory path :: concat (map (fun e => node_events (child path e.1) e.2) es)
  end.

(** Enough fuel for a node: its fields and its depth. *)
Fixpoint node_fuel (t : node) : nat :=
  match t with
  | NDir es => 5 + foldr (fun e n => 1 + node_fuel e.2 + n) 0 es
  | _ => 5
  end.

Lemma foldM_app {A B} (f : B -> A -> result B) b l1 l2 :
  foldM f b (l1 ++ l2) = (b' ← foldM f b l1; foldM f b' l2).
Proof.
  revert b. induction l1 as [|a l1 IH]; intros b; cbn [foldM app]; [done|].
  destruct (f b a); cbn [mbind result_bind]; [apply IH|done|done].
Qed.

Lemma result_bind_assoc {A B C} (m : result A) (f : A -> result B) (g : B -> result C) :
  (m ≫= f) ≫= g = m ≫= (fun a => f a ≫= g).
Proof. by destruct m. Qed.

Section Parses.
Context {K S : Type} `{ParseSink K} `{SourceLaws S}.

(** [parses f d es]: on every source that continues with [d], [f] consumes
    exactly these bytes and its effect on the sink is that of the events. *)
Definition parses (f : K -> S -> result (K * S)) (d : str) (es : list event) : Prop :=
  forall s rest, source_ok s -> source_rem s = d ++ rest ->
    exists s', source_ok s' /\ source_rem s' = rest /\
      forall k, f k s = (k' ← run_events es k; Ok (k', s')).

Lemma parses_ret : parses (fun k s => Ok (k, s)) [] [].
Proof. intros s rest Hs Hr. by exists s. Qed.

Lemma parses_bind f g d1 d2 e1 e2 :
  parses f d1 e1 -> parses g d2 e2 ->
  parses (fun k s => '(k, s) ← f k s; g k s) (d1 ++ d2) (e1 ++ e2).
Proof.
  intros Hf Hg s rest Hs Hr. rewrite <- app_assoc in Hr.
  destruct (Hf s _ Hs Hr) as (s1 & O1 & R1 & E1).
  destruct (Hg s1 _ O1 R1) as (s2 & O2 & R2 & E2). exists s2. split_and!; [done|done|].
  intros k. rewrite E1. unfold run_events. rewrite foldM_app, !result_bind_assoc.
  destruct (foldM run_event k e1); [|done|done]. apply E2.
Qed.

Lemma parses_read {A} (r : S -> result (A * S)) g d1 d2 es a :
  reads r d1 a -> parses (g a) d2 es ->
  parses (fun k s => '(x, s) ← r s; g x k s) (d1 ++ d2) es.
Proof.
  intros Hr Hg s rest Hs Hd. rewrite <- app_assoc in Hd.
  destruct (Hr s _ Hs Hd) as (s1 & E1 & O1 & R1).
  destruct (Hg s1 _ O1 R1) as (s2 & O2 & R2 & E2). exists s2. split_and!; [done|done|].
  intros k. rewrite E1. apply E2.
Qed.

Lemma parses_event e (g : K -> S -> result (K * S)) d es :
  parses g d es -> parses (fun k s => k ← run_event k e; g k s) d (e :: es).
Proof.
  intros Hg s rest Hs Hd. destruct (Hg s rest Hs Hd) as (s2 & O2 & R2 & E2). exists s2.
  split_and!; [done|done|]. intros k. unfold run_events. cbn [foldM]. rewrite result_bind_assoc.
  destruct (run_event k e); [|done|done]. apply E2.
Qed.

Lemma readLit_reads (x : str) : (length x <? 256)%nat = true -> reads (fun s : S => readString s) (enc_string x) x.
Proof. intros Hx. reflect. apply readString_reads. unfold chunk_ok. lia. Qed.

Lemma parseContents_loop_parses fuel data :
  (length data <= fuel)%nat ->
  parses (parseContents_loop fuel (Z.of_nat (length data))) data (map EvContents (blocks_loop fuel data)).
Proof.
  revert data. induction fuel as [|fuel IH]; intros data Hf.
  { destruct data; [|cbn in Hf; lia]. apply parses_ret. }
  destruct data as [|c data']; [apply parses_ret|]. set (data := c :: data') in *.
  assert (0 < length data)%nat as Hlen by (cbn; lia).
  set (m := Nat.min copy_bufSize (length data)).
  assert (take copy_bufSize data = take m data /\ drop copy_bufSize data = drop m data) as [Et Ed].
  { unfold m. destruct (Nat.le_ge_cases copy_bufSize (length data)).
    - by rewrite Nat.min_l by lia.
    - rewrite Nat.min_r by lia. by rewrite !take_ge, !drop_ge by lia. }
  assert (0 < m)%nat as Hm by (unfold m, copy_bufSize in *; lia).
  intros s rest Hs Hr. rewrite <- (take_drop m data) in Hr. rewrite <- app_assoc in Hr.
  destruct (source_get_reads (take m data) s _ Hs Hr) as (s1 & E1 & O1 & R1).
  destruct (IH (drop m data)) with (s := s1) (rest := rest) as (s2 & O2 & R2 & E2); [|done|done|].
  { rewrite length_drop. lia. }
  exists s2. split_and!; [done|done|]. intros k. cbn [parseContents_loop].
  destruct (Z.eqb_spec (Z.of_nat (length data)) 0); [lia|].
  assert ((if (Z.of_nat (length data) <? Z.of_nat copy_bufSize)%Z then Z.of_nat (length data)
           else Z.of_nat copy_bufSize) = Z.of_nat m) as ->.
  { unfold m. destruct (Z.ltb_spec (Z.of_nat (length data)) (Z.of_nat copy_bufSize)); lia. }
  rewrite length_take, Nat.min_l in E1 by (unfold m; lia).
  rewrite Nat2Z.id, E1. cbn [mbind result_bind].
  change (blocks_loop (Datatypes.S fuel) data)
    with (take copy_bufSize data :: blocks_loop fuel (drop copy_bufSize data)).
  rewrite Et, Ed. cbn [map]. unfold run_events in *. cbn [foldM run_event]. rewrite result_bind_assoc.
  destruct (receiveContents (take m data) k); [|done|done]. cbn [mbind result_bind].
  rewrite <- E2, length_drop. f_equal. unfold m. lia.
Qed.

Lemma parseContents_parses data :
  (Z.of_nat (length data) < 2 ^ 64)%Z ->
  parses parseContents (enc_longlong (Z.of_nat (length data)) ++ data ++ enc_padding (length data))
    ([EvPreallocate (Z.of_nat (length data))] ++ map EvContents (blocks data)).
Proof.
  intros Hd. unfold parseContents.
  apply (parses_read readLongLong) with (a := Z.of_nat (length data)); [apply readLongLong_reads; lia|].
  apply (parses_event (EvPreallocate _)). rewrite <- (app_nil_r (map EvContents _)).
  apply parses_bind; [rewrite Nat2Z.id; by apply parseContents_loop_parses|].
  intros s rest Hs Hr. rewrite Nat2Z.id. destruct (readPadding_spec _ s rest Hs Hr) as (s' & E & O & R).
  exists s'. split_and!; [done|done|]. intros k. by rewrite E.
Qed.

Lemma fields_read rec ef fuel path ty x d es :
  (length x <? 256)%nat = true ->
  parses (parse_field rec ef (parse_fields rec ef fuel path) path ty x) d es ->
  parses (parse_fields rec ef (Datatypes.S fuel) path ty) (enc_string x ++ d) es.
Proof.
  intros Hx Hp. exact (parses_read readString _ _ _ _ x (readLit_reads x Hx) Hp).
Qed.

Lemma entry_read rec fuel path name x d es :
  (length x <? 256)%nat = true ->
  parses (parseEntry_field rec (parseEntry_loop rec fuel path) path name x) d es ->
  parses (parseEntry_loop rec (Datatypes.S fuel) path name) (enc_string x ++ d) es.
Proof.
  intros Hx Hp. exact (parses_read readString _ _ _ _ x (readLit_reads x Hx) Hp).
Qed.
End Parses.

(** Evaluate the tests of field names against literals. *)
Ltac eval_tests :=
  repeat match goal with
  | |- context [str_eqb ?a ?b] =>
      let v := eval vm_compute in (str_eqb a b) in change (str_eqb a b) with v
  | |- context [bool_decide (?a = ?b :> node_type)] =>
      let v := eval vm_compute in (bool_decide (a = b)) in change (bool_decide (a = b)) with v
  end; cbn [negb andb].

Section ParseNode.
Context {K S : Type} `{ParseSink K} `{SourceLaws S}.

Lemma parseEntry_parses rec fuel path n d es :
  (4 <= fuel)%nat -> chunk_ok n -> parses (K := K) (S := S) (rec (child path n)) d es ->
  parses (parseEntry rec fuel path)
    (enc_string ($"(") ++ enc_string ($"name") ++ enc_string n ++ enc_string ($"node") ++ d ++
     enc_string ($")")) es.
Proof.
  intros Hf Hn Hp. do 4 (destruct fuel as [|fuel]; [lia|]). unfold parseEntry.
  apply (parses_read readString) with (a := $"("); [by apply readLit_reads|]. eval_tests.
  apply entry_read; [done|]. unfold parseEntry_field. eval_tests.
  apply (parses_read readString) with (a := n); [by apply readString_reads|].
  apply entry_read; [done|]. unfold parseEntry_field. eval_tests.
  rewrite <- (app_nil_r es). apply parses_bind; [done|].
  rewrite <- (app_nil_r (enc_string _)). apply entry_read; [done|].
  unfold parseEntry_field. eval_tests. apply parses_ret.
Qed.

Lemma close_node rec ef fuel path ty :
  (0 < fuel)%nat -> parses (K := K) (S := S) (parse_fields rec ef fuel path ty) (enc_string ($")")) [].
Proof.
  intros Hf. destruct fuel as [|fuel]; [lia|]. rewrite <- (app_nil_r (enc_string _)).
  apply fields_read; [done|]. unfold parse_field. eval_tests. apply parses_ret.
Qed.

Lemma node_bounded_dir es :
  node_bounded (NDir es) <-> Forall (fun e => chunk_ok e.1 /\ node_bounded e.2) es.
Proof.
  cbn. induction es as [|e es IH]; cbn; [by split; [constructor|]|].
  rewrite Forall_cons, IH. tauto.
Qed.

Lemma node_fuel_dir es fuel :
  (node_fuel (NDir es) <= Datatypes.S fuel)%nat ->
  (length es + 4 <= fuel)%nat /\ Forall (fun e => node_fuel e.2 <= fuel)%nat es.
Proof.
  cbn. intros Hf. split.
  - enough (length es <= foldr (fun e n => 1 + node_fuel e.2 + n) 0 es)%nat by (cbn in *; lia).
    clear. induction es as [|e es IH]; cbn in *; lia.
  - revert fuel Hf. induction es as [|e es IH]; intros fuel Hf; cbn in *; constructor; [lia|].
    apply IH. lia.
Qed.

Lemma parse_entries ef fuel path (es : list (str * node)) :
  (length es < fuel)%nat -> (4 <= ef)%nat ->
  Forall (fun e => chunk_ok e.1 /\
    parses (K := K) (S := S) (parse ef (child path e.1)) (enc_node e.2) (node_events (child path e.1) e.2)) es ->
  parses (K := K) (S := S) (parse_fields (parse ef) ef fuel path tpDirectory)
    (concat (map (fun e =>
        enc_string ($"entry") ++ enc_string ($"(") ++ enc_string ($"name") ++ enc_string e.1 ++
        enc_string ($"node") ++ enc_node e.2 ++ enc_string ($")")) es) ++ enc_string ($")"))
    (concat (map (fun e => node_events (child path e.1) e.2) es)).
Proof.
  intros Hf Hef Hes. revert fuel Hf. induction Hes as [|e es [Hn He] Hes IH]; intros fuel Hf.
  { by apply close_node. }
  destruct fuel as [|fuel]; [cbn in Hf; lia|]. cbn [map concat]. rewrite <- !app_assoc.
  apply fields_read; [done|]. unfold parse_field. eval_tests.
  replace (_ ++ _ ++ _ ++ _ ++ _ ++ _ ++ concat _ ++ _)
    with ((enc_string ($"(") ++ enc_string ($"name") ++ enc_string e.1 ++ enc_string ($"node") ++
           enc_node e.2 ++ enc_string ($")")) ++
          (concat (map (fun e =>
             enc_string ($"entry") ++ enc_string ($"(") ++ enc_string ($"name") ++ enc_string e.1 ++
             enc_string ($"node") ++ enc_node e.2 ++ enc_string ($")")) es) ++ enc_string ($")")))
    by (by rewrite <- !app_assoc).
  apply parses_bind; [by apply parseEntry_parses|]. apply IH. cbn in Hf. lia.
Qed.

Lemma parse_parses t : forall fuel path,
  node_bounded t -> (node_fuel t <= fuel)%nat ->
  parses (K := K) (S := S) (parse fuel path) (enc_node t) (node_events path t).
Proof.
  assert (Hopen : forall fuel path d es,
    parses (K := K) (S := S) (parse_fields (parse fuel) fuel fuel path tpUnknown) d es ->
    parses (K := K) (S := S) (parse (Datatypes.S fuel) path) (enc_string ($"(") ++ d) es).
  { intros fuel path d es Hp. apply (parses_read readString _ _ _ _ ($"(")); [by apply readLit_reads|done]. }
  induction t as [x c|t|es IH] using node_ind'; intros [|fuel] path Hb Hf;
    try (cbn in Hf; lia); cbn [enc_node node_events].
  - cbn in Hf. do 4 (destruct fuel as [|fuel]; [lia|]). cbn in Hb. apply Hopen. rewrite <- !app_assoc.
    apply fields_read; [done|]. unfold parse_field at 1. eval_tests.
    apply (parses_read readString) with (a := $"regular"); [by apply readLit_reads|]. eval_tests.
    apply (parses_event (EvRegular path)).
    assert (forall fl, (2 <= fl)%nat -> parses (K := K) (S := S)
      (parse_fields (parse (4 + fuel)) (4 + fuel) fl path tpRegular)
      (enc_string ($"contents") ++ enc_longlong (Z.of_nat (length c)) ++ c ++ enc_padding (length c) ++ enc_string ($")"))
      ([EvPreallocate (Z.of_nat (length c))] ++ map EvContents (blocks c))) as Hc.
    { intros [|fl] Hfl; [lia|]. apply fields_read; [done|]. unfold parse_field at 1. eval_tests.
      rewrite !(app_assoc _ _ (enc_string _)), <- (app_nil_r (_ ++ map _ _)).
      apply parses_bind; [by apply parseContents_parses|]. apply close_node. lia. }
    destruct x; cbn [app]; [|apply Hc; lia]. rewrite <- app_assoc.
    apply fields_read; [done|]. unfold parse_field at 1. eval_tests.
    apply (parses_read readString) with (a := $""); [by apply readLit_reads|].
    apply (parses_event EvExecutable). apply Hc. lia.
  - cbn in Hf. do 4 (destruct fuel as [|fuel]; [lia|]). cbn in Hb. apply Hopen. rewrite <- !app_assoc.
    apply fields_read; [done|]. unfold parse_field at 1. eval_tests.
    apply (parses_read readString) with (a := $"symlink"); [by apply readLit_reads|]. eval_tests.
    apply fields_read; [done|]. unfold parse_field at 1. eval_tests.
    apply (parses_read readString) with (a := t); [by apply readString_reads|].
    apply (parses_event (EvSymlink path t)). apply close_node. lia.
  - apply node_fuel_dir in Hf as [Hf Hfs]. rewrite node_bounded_dir in Hb.
    destruct fuel as [|fuel]; [lia|]. apply Hopen. rewrite <- !app_assoc.
    apply fields_read; [done|]. unfold parse_field at 1. eval_tests.
    apply (parses_read readString) with (a := $"directory"); [by apply readLit_reads|]. eval_tests.
    apply (parses_event (EvDirectory path)). apply parse_entries; [lia|lia|].
    rewrite Forall_forall in *. intros e He. destruct (Hb e He) as [Hn Hbe].
    split; [done|]. apply IH; auto.
Qed.
End ParseNode.

(** ** Restoring *)

(** The trees a dump produces: names without slashes, sorted, no two the same. *)
Fixpoint node_sorted (t : node) : Prop :=
  match t with
  | NDir es =>
      StronglySorted str_le es.*1 /\ NoDup es.*1 /\
      foldr (fun e P => name_ok e.1 = true /\ node_sorted e.2 /\ P) True es
  | _ => True
  end.

Lemma node_sorted_dir es :
  node_sorted (NDir es) <->
    StronglySorted str_le es.*1 /\ NoDup es.*1 /\ Forall (fun e => name_ok e.1 = true /\ node_sorted e.2) es.
Proof.
  cbn. do 2 apply and_iff_compat_l. induction es as [|e es IH]; cbn; [by split; [constructor|]|].
  rewrite Forall_cons, IH. tauto.
Qed.

Section RestoreSpec.
Context (umask : Z) (posix_fallocate : Z -> falloc).
Hypothesis falloc_fine : forall n, posix_fallocate n <> FallocFail.
#[local] Existing Instance restore_sink.

Definition file_mode (x : bool) : Z :=
  let m := Z.land 438 (Z.lnot umask) in if x then Z.lor m S_IXANY else m.

(** The inodes of a restored tree. *)
Fixpoint install (p : str) (t : node) : FileSys :=
  match t with
  | NReg x c => {[p := IReg (file_mode x) c]}
  | NLnk t => {[p := ILnk t]}
  | NDir es => <[p := IDir]> (foldr (fun e m => install (child p e.1) e.2 ∪ m) ∅ es)
  end.
Definition install_entries (p : str) (es : list (str * node)) : FileSys :=
  foldr (fun e m => install (child p e.1) e.2 ∪ m) ∅ es.

Lemma install_entries_some p es k i :
  install_entries p es !! k = Some i -> exists e, e ∈ es /\ install (child p e.1) e.2 !! k = Some i.
Proof.
  induction es as [|e es IH]; cbn; [done|]. fold (install_entries p es).
  rewrite lookup_union_Some_raw. intros [H|[_ H]].
  - exists e. split; [left|done].
  - destruct (IH H) as (e' & He' & H'). exists e'. split; [by right|done].
Qed.

Lemma install_under t : forall p k i, install p t !! k = Some i -> under p k.
Proof.
  induction t as [x c|t|es IH] using node_ind'; intros p k i; cbn [install].
  - rewrite lookup_singleton_Some. intros [-> _]. apply under_refl.
  - rewrite lookup_singleton_Some. intros [-> _]. apply under_refl.
  - rewrite lookup_insert_Some. intros [[-> _]|[_ H]]; [apply under_refl|].
    apply install_entries_some in H as (e & He & H). rewrite Forall_forall in IH.
    eapply under_trans; [apply under_child|by eapply IH].
Qed.

Lemma install_not_under t p k : ~ under p k -> install p t !! k = None.
Proof.
  intros Hk. destruct (install p t !! k) as [i|] eqn:E; [|done]. by apply install_under in E.
Qed.

Lemma install_root t p : install p t !! p <> None.
Proof. destruct t; cbn [install]; by rewrite ?lookup_singleton_eq, ?lookup_insert_eq. Qed.

Lemma install_entries_under p es n t k :
  NoDup es.*1 -> Forall (fun e => name_ok e.1 = true) es -> (n, t) ∈ es -> under (child p n) k ->
  install_entries p es !! k = install (child p n) t !! k.
Proof.
  intros Hnd Hok Hin Hk. induction es as [|[m u] es IH]; [by apply elem_of_nil in Hin|].
  apply Forall_cons in Hok as [Hm Hok]. cbn in Hnd, Hm. apply NoDup_cons in Hnd as [Hnm Hnd].
  cbn. fold (install_entries p es). apply elem_of_cons in Hin as [[= -> ->]|Hin].
  - destruct (install (child p m) u !! k) as [i|] eqn:E.
    + by apply lookup_union_Some_l.
    + rewrite lookup_union_r by done. destruct (install_entries p es !! k) as [i|] eqn:E'; [|done].
      apply install_entries_some in E' as ([n' t'] & Hin & H'%install_under). cbn in H'.
      rewrite Forall_forall in Hok. pose proof (Hok _ Hin) as Hn'. cbn in Hn'.
      destruct Hnm. rewrite (under_child_inj p m n' k Hm Hn' Hk H').
      apply list_elem_of_fmap. by exists (n', t').
  - rewrite lookup_union_r; [by apply IH|]. apply install_not_under. intros Hk'.
    rewrite Forall_forall in Hok. pose proof (Hok _ Hin) as Hn. cbn in Hn.
    rewrite (under_child_inj p n m k Hn Hm Hk Hk') in Hin.
    destruct Hnm. apply list_elem_of_fmap. by exists (m, t).
Qed.

Lemma file_mode_exec x : negb (Z.land (file_mode x) S_IXUSR =? 0)%Z = x.
Proof.
  assert (Z.land (Z.land 438 (Z.lnot umask)) S_IXUSR = 0%Z) as E.
  { rewrite (Z.land_comm 438), <- Z.land_assoc. change (Z.land 438 S_IXUSR) with 0%Z. apply Z.land_0_r. }
  unfold file_mode. destruct x; [|by rewrite E]. rewrite Z.land_lor_distr_l, E. done.
Qed.

Fixpoint node_depth (t : node) : nat :=
  match t with
  | NDir es => S (foldr (fun e n => node_depth e.2 `max` n) O es)
  | _ => 1
  end.

Lemma node_depth_dir es fuel :
  (node_depth (NDir es) <= S fuel)%nat -> Forall (fun e => node_depth e.2 <= fuel)%nat es.
Proof.
  cbn. intros Hf. assert (foldr (fun e n => node_depth e.2 `max` n) O es <= fuel)%nat as Hf' by lia.
  clear Hf. induction es as [|e es IH]; cbn in *; constructor; [lia|]. apply IH. lia.
Qed.

Lemma tree_of_install t : forall p fs fuel,
  node_sorted t -> (node_depth t <= fuel)%nat ->
  (forall k, under p k -> fs !! k = install p t !! k) ->
  tree_of fs (fun _ => true) fuel p = Some t.
Proof.
  induction t as [x c|t|es IH] using node_ind'; intros p fs [|fuel] Hs Hf Hfs; try (cbn in Hf; lia).
  - cbn [tree_of]. rewrite Hfs by apply under_refl. cbn. rewrite lookup_singleton_eq.
    by rewrite file_mode_exec.
  - cbn [tree_of]. rewrite Hfs by apply under_refl. cbn. by rewrite lookup_singleton_eq.
  - apply node_depth_dir in Hf. apply node_sorted_dir in Hs as (Hsort & Hnd & Hok).
    pose proof (Hfs p (under_refl p)) as Hp. cbn in Hp. rewrite lookup_insert_eq in Hp.
    cbn [tree_of]. rewrite Hp. destruct (readDirectory fs p) as [names| |] eqn:En;
      [|unfold readDirectory in En; by rewrite Hp in En..].
    apply readDirectory_spec in En as (_ & Hnd' & Hnames).
    assert (forall e, e ∈ es -> forall k, under (child p e.1) k -> fs !! k = install (child p e.1) e.2 !! k) as Hsub.
    { intros [n t] He k Hk. rewrite Hfs by (eapply under_trans; [apply under_child|done]).
      cbn [install]. rewrite lookup_insert_ne by (intros <-; by apply not_under_child in Hk).
      apply install_entries_under; [done| |done|done].
      eapply Forall_impl; [exact Hok|]. by intros ? []. }
    assert (merge_sort str_le names = es.*1) as ->.
    { apply (StronglySorted_unique str_le); [by apply (StronglySorted_merge_sort str_le)|done|].
      rewrite merge_sort_Permutation. apply NoDup_Permutation; [done|done|]. intros n. rewrite Hnames.
      split.
      - intros [Hn Hk]. rewrite Hfs in Hk by apply under_child. cbn [install] in Hk.
        rewrite lookup_insert_ne in Hk.
        2:{ intros E. apply (not_under_child p n). left. exact E. }
        destruct (install_entries p es !! child p n) as [i|] eqn:Ei; [|by unfold install_entries in Ei].
        apply install_entries_some in Ei as ([m t] & Hin & Hu%install_under).
        rewrite Forall_forall in Hok. destruct (Hok _ Hin) as [Hm _]. cbn in Hu, Hm.
        rewrite (under_child_inj p n m _ Hn Hm (under_refl _) Hu). apply list_elem_of_fmap. by exists (m, t).
      - intros ([m t] & -> & Hin)%list_elem_of_fmap. rewrite Forall_forall in Hok.
        destruct (Hok _ Hin) as [Hm _]. split; [done|].
        rewrite (Hsub _ Hin) by apply under_refl. apply install_root. }
    assert (base.filter (fun _ : str => true = true) es.*1 = es.*1) as ->.
    { clear. induction es.*1 as [|n l IHl]; [done|]. rewrite filter_cons, decide_True by done. by rewrite IHl. }
    apply fmap_Some. exists es. split; [|done]. apply mapM_Some.
    clear Hp Hfs Hsort Hnd Hnd' Hnames. induction es as [|[n t] es IHes]; [constructor|].
    apply Forall_cons in IH as [IHt IH]. apply Forall_cons in Hf as [Hft Hf].
    apply Forall_cons in Hok as [[Hn Ht] Hok]. cbn [fmap list_fmap fst]. constructor.
    + rewrite (IHt (child p n) fs fuel); [done|done|done|]. apply (Hsub (n, t)). left.
    + apply IHes; [done|done|done|]. intros e He. apply Hsub. by right.
Qed.

Lemma concat_blocks_loop fuel data : (length data <= fuel)%nat -> concat (blocks_loop fuel data) = data.
Proof.
  revert data. induction fuel as [|fuel IH]; intros [|c data] Hf; cbn [length] in Hf; [done|lia|done|].
  set (d := c :: data). change (blocks_loop (S fuel) d)
    with (take copy_bufSize d :: blocks_loop fuel (drop copy_bufSize d)).
  cbn [concat]. rewrite IH; [apply take_drop|]. rewrite length_drop. unfold copy_bufSize, d. cbn [length]. lia.
Qed.

Lemma write_at_end w r d : write_at (w ++ r) (length w) d = w ++ d ++ drop (length d) r.
Proof.
  unfold write_at. rewrite <- app_assoc, take_app_length. do 2 f_equal.
  rewrite drop_app_ge by lia. f_equal. lia.
Qed.

Abbreviation restore_events := (run_events (K := RestoreSink) (H := restore_sink umask posix_fallocate)).

Lemma run_blocks bs : forall w r fs dst p m,
  fs !! p = Some (IReg m (w ++ r)) ->
  restore_events (map EvContents bs) (mkRestoreSink fs dst (Some (p, length w))) =
    Ok (mkRestoreSink (<[p := IReg m (w ++ concat bs ++ drop (length (concat bs)) r)]> fs) dst
          (Some (p, (length w + length (concat bs))%nat))).
Proof.
  induction bs as [|b bs IH]; intros w r fs dst p m Hp.
  { cbn. rewrite drop_0, insert_id, Nat.add_0_r by done. done. }
  unfold run_events in *. cbn [map foldM run_event].
  cbn [receiveContents restore_sink]. unfold rs_receiveContents, rs_file.
  cbn [rs_fd rs_fs rs_dst mbind option_bind]. rewrite Hp. cbn [mbind result_bind].
  rewrite write_at_end, app_assoc, <- length_app. rewrite (IH (w ++ b) (drop (length b) r) _ _ _ m).
  2:{ by rewrite lookup_insert_eq. }
  rewrite insert_insert_eq. cbn [concat]. rewrite !length_app, drop_drop, <- !app_assoc. by rewrite Nat.add_assoc.
Qed.

Lemma run_regular fs dst fd path x c :
  can_create fs (dst ++ path) = true ->
  exists fd', restore_events (node_events path (NReg x c)) (mkRestoreSink fs dst fd) =
    Ok (mkRestoreSink (<[dst ++ path := IReg (file_mode x) c]> fs) dst fd').
Proof.
  intros Hc. set (p := dst ++ path).
  assert (Hpre : forall fs m, fs !! p = Some (IReg m []) ->
    exists r, (length r <= length c)%nat /\
      rs_preallocateContents posix_fallocate (Z.of_nat (length c)) (mkRestoreSink fs dst (Some (p, 0%nat))) =
      Ok (mkRestoreSink (<[p := IReg m r]> fs) dst (Some (p, 0%nat)))).
  { intros fs' m Hp. unfold rs_preallocateContents.
    destruct (Z.eqb_spec (Z.of_nat (length c)) 0); [exists []; rewrite insert_id by done; split; [cbn; lia|done]|].
    destruct (posix_fallocate _) eqn:E; [|exists []; rewrite insert_id by done; split; [cbn; lia|done]|by destruct (falloc_fine _ E)].
    unfold rs_file. cbn [rs_fd rs_fs mbind option_bind]. rewrite Hp. unfold extend. cbn [app length rs_dst].
    eexists. split; [|done]. rewrite length_replicate. lia. }
  assert (Hrest : forall fs m, fs !! p = Some (IReg m []) ->
    restore_events ([EvPreallocate (Z.of_nat (length c))] ++ map EvContents (blocks c))
      (mkRestoreSink fs dst (Some (p, 0%nat))) =
    Ok (mkRestoreSink (<[p := IReg m c]> fs) dst (Some (p, length c)))).
  { intros fs' m Hp. destruct (Hpre fs' m Hp) as (r & Hr & E). unfold run_events. cbn [app foldM run_event].
    cbn [preallocateContents restore_sink]. rewrite E. cbn [mbind result_bind].
    pose proof (run_blocks (blocks c) [] r (<[p := IReg m r]> fs') dst p m) as Hb.
    unfold run_events in Hb. cbn [length app] in Hb. rewrite Hb by apply lookup_insert_eq.
    rewrite insert_insert_eq. unfold blocks. rewrite concat_blocks_loop by done.
    rewrite drop_ge, app_nil_r by done. done. }
  exists (Some (p, length c)). cbn [node_events]. unfold run_events. cbn [app foldM run_event].
  cbn [createRegularFile restore_sink]. unfold rs_createRegularFile, sys_create.
  cbn [rs_fs rs_dst]. fold p. fold p in Hc. rewrite Hc. cbn [mbind result_bind].
  unfold run_events in Hrest. cbn [app foldM run_event] in Hrest. destruct x; cbn [app foldM run_event].
  - cbn [isExecutable restore_sink]. unfold rs_isExecutable, rs_file.
    cbn [rs_fs rs_dst rs_fd mbind option_bind]. rewrite lookup_insert_eq. cbn [mbind result_bind].
    rewrite insert_insert_eq. erewrite Hrest by apply lookup_insert_eq. by rewrite insert_insert_eq.
  - erewrite Hrest by apply lookup_insert_eq. by rewrite insert_insert_eq.
Qed.

(** The destination and everything below it are free. *)
Definition fresh (fs : FileSys) (p : str) : Prop := forall k, under p k -> fs !! k = None.

Lemma child_app dst path n : dst ++ child path n = child (dst ++ path) n.
Proof. unfold child. by rewrite app_assoc. Qed.

Lemma can_create_fresh fs p : fresh fs p -> parent_ok fs p = true -> can_create fs p = true.
Proof.
  intros Hf Hp. unfold can_create. rewrite Hp, bool_decide_eq_true_2; [done|]. apply Hf, under_refl.
Qed.

Lemma run_leaf fs dst fd path (i : inode) e :
  (forall k, run_event (H := restore_sink umask posix_fallocate) k e =
     match sys_create (rs_fs k) (rs_dst k ++ path) i with
     | Some fs => Ok (mkRestoreSink fs (rs_dst k) (rs_fd k))
     | None => run_event (H := restore_sink umask posix_fallocate) k e
     end) ->
  can_create fs (dst ++ path) = true ->
  run_event (H := restore_sink umask posix_fallocate) (mkRestoreSink fs dst fd) e =
    Ok (mkRestoreSink (<[dst ++ path := i]> fs) dst fd).
Proof. intros E Hc. rewrite E. unfold sys_create. cbn [rs_fs rs_dst rs_fd]. by rewrite Hc. Qed.

Lemma install_entries_disjoint p n t es :
  name_ok n = true -> n ∉ es.*1 -> Forall (fun e => name_ok e.1 = true) es ->
  install_entries p es ##ₘ install (child p n) t.
Proof.
  intros Hn Hnin Hok. apply map_disjoint_spec. intros k i j H1 H2%install_under.
  apply install_entries_some in H1 as ([m u] & Hin & H1%install_under).
  rewrite Forall_forall in Hok. pose proof (Hok _ Hin) as Hm. cbn in Hm, H1.
  apply Hnin. rewrite (under_child_inj p n m k Hn Hm H2 H1). apply list_elem_of_fmap. by exists (m, u).
Qed.

Definition run_node_ok (t : node) : Prop := forall path fs dst fd,
  dst <> [] -> node_sorted t -> fresh fs (dst ++ path) -> parent_ok fs (dst ++ path) = true ->
  exists fd', restore_events (node_events path t) (mkRestoreSink fs dst fd) =
    Ok (mkRestoreSink (install (dst ++ path) t ∪ fs) dst fd').

Lemma run_entries es : Forall (fun e => run_node_ok e.2) es -> forall path fs dst fd,
  dst <> [] -> NoDup es.*1 -> Forall (fun e => name_ok e.1 = true /\ node_sorted e.2) es ->
  fs !! (dst ++ path) = Some IDir ->
  (forall e, e ∈ es -> fresh fs (child (dst ++ path) e.1)) ->
  exists fd', restore_events (concat (map (fun e => node_events (child path e.1) e.2) es)) (mkRestoreSink fs dst fd) =
    Ok (mkRestoreSink (install_entries (dst ++ path) es ∪ fs) dst fd').
Proof.
  induction 1 as [|[n t] es Ht Hes IH]; intros path fs dst fd Hdst Hnd Hok Hp Hfresh.
  { exists fd. cbn. by rewrite (left_id_L ∅ (∪)). }
  apply Forall_cons in Hok as [[Hn Hst] Hok]. cbn in Hnd, Hn, Hst. apply NoDup_cons in Hnd as [Hnin Hnd].
  set (p := dst ++ path) in *.
  destruct (Ht (child path n) fs dst fd) as (fd1 & E1); cbn [snd]; rewrite ?child_app; [done|done| | |].
  { apply (Hfresh (n, t)). left. }
  { rewrite parent_ok_child; [by apply bool_decide_eq_true|done|]. unfold p. by destruct dst. }
  destruct (IH path (install (child p n) t ∪ fs) dst fd1) as (fd2 & E2); [done|done|done| | |].
  { rewrite lookup_union_r; [done|]. apply install_not_under, not_under_child. }
  { intros [m u] Hin k Hk. rewrite lookup_union_None. split; [|apply (Hfresh (m, u)); [by right|done]].
    apply install_not_under. intros Hk'. rewrite Forall_forall in Hok.
    destruct (Hok _ Hin) as [Hm _]. cbn in Hm, Hk. destruct Hnin.
    rewrite (under_child_inj p n m k Hn Hm Hk' Hk). apply list_elem_of_fmap. by exists (m, u). }
  exists fd2. unfold run_events in *. cbn [snd] in E1. cbn [map concat fst snd]. rewrite foldM_app, E1, child_app.
  fold p. cbn [mbind result_bind]. rewrite E2. fold p. do 2 f_equal.
  cbn. fold (install_entries p es). rewrite (assoc_L (∪)). f_equal. apply map_union_comm.
  apply install_entries_disjoint; [done|done|]. eapply Forall_impl; [exact Hok|]. by intros ? [].
Qed.

Lemma run_node t : run_node_ok t.
Proof.
  induction t as [x c|t|es IH] using node_ind'; intros path fs dst fd Hdst Hs Hfr Hp;
    pose proof (can_create_fresh _ _ Hfr Hp) as Hc.
  - destruct (run_regular fs dst fd path x c Hc) as (fd' & E). exists fd'. rewrite E.
    cbn [install]. by rewrite insert_union_singleton_l.
  - exists fd. cbn [node_events install]. unfold run_events. cbn [foldM].
    rewrite (run_leaf _ _ _ path (ILnk t)); [by rewrite insert_union_singleton_l| |done].
    intros k. cbn. unfold rs_createSymlink. by destruct (sys_create _ _ _).
  - apply node_sorted_dir in Hs as (_ & Hnd & Hok). cbn [node_events]. unfold run_events. cbn [foldM].
    rewrite (run_leaf _ _ _ path IDir); [|intros k; cbn; unfold rs_createDirectory; by destruct (sys_create _ _ _)|done].
    cbn [mbind result_bind]. set (p := dst ++ path) in *.
    destruct (run_entries es IH path (<[p := IDir]> fs) dst fd) as (fd' & E); [done|done|done| | |].
    + apply lookup_insert_eq.
    + intros e He k Hk. rewrite lookup_insert_ne by (intros <-; by apply not_under_child in Hk).
      apply Hfr. eapply under_trans; [apply under_child|done].
    + exists fd'. unfold run_events in E. rewrite E. fold p. do 2 f_equal. cbn [install].
      rewrite <- insert_union_l. symmetry. apply insert_union_r.
      apply eq_None_not_Some. intros [i (e & He & Hu%install_under)%install_entries_some].
      by apply not_under_child in Hu.
Qed.
End RestoreSpec.

Lemma parseDump_parses {K S} `{ParseSink K} `{SourceLaws S} t fuel :
  node_bounded t -> (node_fuel t <= fuel)%nat ->
  parses (K := K) (S := S) (parseDump fuel) (enc_archive t) (node_events [] t).
Proof.
  intros Hb Hf s rest Hs Hr. unfold enc_archive in Hr. rewrite <- app_assoc in Hr.
  destruct (readLit_reads archiveVersion1 eq_refl s _ Hs Hr) as (s1 & E1 & O1 & R1).
  destruct (parse_parses t fuel [] Hb Hf s1 rest O1 R1) as (s2 & O2 & R2 & E2).
  exists s2. split_and!; [done|done|]. intros k. unfold parseDump. rewrite E1, str_eqb_refl. apply E2.
Qed.

Lemma StronglySorted_filter {A} (R : A -> A -> Prop) (P : A -> Prop) `{forall x, Decision (P x)} l :
  StronglySorted R l -> StronglySorted R (base.filter P l).
Proof.
  induction 1 as [|a l Hl IH Ha]; [constructor|]. rewrite filter_cons. case_decide; [|done].
  constructor; [done|]. rewrite Forall_forall in *. intros x [_ Hx]%list_elem_of_filter. by apply Ha.
Qed.

Lemma tree_of_sorted fs filter fuel path t :
  tree_of fs filter fuel path = Some t -> node_sorted t /\ (node_depth t <= fuel)%nat.
Proof.
  revert path t. induction fuel as [|fuel IH]; intros path t Ht; [done|]. cbn [tree_of] in Ht.
  destruct (fs !! path) as [[mode data| |target| ]|] eqn:Ei; simplify_eq; try (split; [done|cbn; lia]).
  destruct (readDirectory fs path) as [names| |] eqn:En; try done.
  apply readDirectory_spec in En as (_ & Hnd & Hnames).
  apply fmap_Some in Ht as (es & Hes & ->). apply mapM_Some in Hes.
  set (ns := base.filter _ _) in Hes.
  assert (es.*1 = ns /\ Forall (fun e => node_sorted e.2 /\ node_depth e.2 <= fuel)%nat es) as [Hns Hsub].
  { clear -IH Hes. induction Hes as [|n e ns es He Hes [IHn IHs]]; [done|].
    apply fmap_Some in He as (t & Ht & ->). cbn. rewrite IHn. split; [done|].
    constructor; [|done]. by apply (IH (child path n)). }
  assert (ns `sublist_of` merge_sort str_le names) as Hsl by apply sublist_filter.
  split.
  - apply node_sorted_dir. rewrite Hns. split_and!.
    + apply StronglySorted_filter. by apply (StronglySorted_merge_sort str_le).
    + eapply sublist_NoDup; [|exact Hsl]. by rewrite merge_sort_Permutation.
    + rewrite Forall_forall in *. intros e He. split; [|by apply Hsub].
      assert (e.1 ∈ ns) as Hn by (rewrite <- Hns; apply list_elem_of_fmap; by exists e).
      apply (list_elem_of_filter _ _ _) in Hn as [_ Hn]. rewrite merge_sort_Permutation in Hn.
      by apply Hnames in Hn as [Hn _].
  - cbn. apply le_n_S. clear -Hsub. induction Hsub as [|e es [_ He] Hes IHes]; cbn; lia.
Qed.

Lemma restore_encoding umask posix_fallocate {S} `{SourceLaws S} t fuel fs dst (src : S) rest :
  (forall n, posix_fallocate n <> FallocFail) ->
  node_bounded t -> node_sorted t -> (node_fuel t <= fuel)%nat ->
  dst <> [] -> fresh fs dst -> parent_ok fs dst = true ->
  source_ok src -> source_rem src = enc_archive t ++ rest ->
  exists src', source_ok src' /\ source_rem src' = rest /\
    restorePath umask posix_fallocate fuel fs dst src = Ok (install umask dst t ∪ fs, src').
Proof.
  intros Hfa Hb Hst Hf Hdst Hfr Hp Hs Hr.
  destruct (parseDump_parses (K := RestoreSink) (H := restore_sink umask posix_fallocate) t fuel Hb Hf src rest Hs Hr)
    as (src' & O & R & E). exists src'. split_and!; [done|done|].
  unfold restorePath. rewrite E.
  destruct (run_node umask posix_fallocate Hfa t [] fs dst None) as (fd' & E');
    rewrite ?app_nil_r; [done|done|done|done|].
  rewrite E'. cbn. by rewrite app_nil_r.
Qed.

Lemma tree_of_restored umask t fs dst fuel :
  node_sorted t -> fresh fs dst -> (node_depth t <= fuel)%nat ->
  tree_of (install umask dst t ∪ fs) (fun _ => true) fuel dst = Some t.
Proof.
  intros Hst Hfr Hf. apply (tree_of_install umask); [done|done|]. intros k Hk.
  destruct (install umask dst t !! k) as [i|] eqn:E; [by apply lookup_union_Some_l|].
  rewrite lookup_union_r by done. by apply Hfr.
Qed.

(** * The theorems *)

(** C11: dumping an object and restoring the dump recreates it: for every file
    system object whose tree the filter selects, every sink, and every source that
    delivers the dump, restoring to a free destination in an existing directory
    succeeds, the tree at the destination equals the dumped one (contents,
    executable bits, link targets, names), nothing outside the destination
    changes, and exactly the dump is consumed.  This holds whether or not space
    is preallocated. *)
Theorem dump_restore_roundtrip {S1} `{SinkLaws S1} {S2} `{SourceLaws S2}
    umask posix_fallocate fs sched filter depth fuel path t (sink : S1) l fs2 dst :
  (forall n, posix_fallocate n <> FallocFail) -> (forall p, sched_ok (sched p)) ->
  tree_of fs filter depth path = Some t -> node_bounded t -> (node_fuel t <= fuel)%nat ->
  dst <> [] -> fresh fs2 dst -> parent_ok fs2 dst = true -> sink_rep sink l ->
  exists sink' d, dumpPath fs sched filter depth path sink = Ok sink' /\ sink_rep sink' (l ++ d) /\
  forall (src : S2) rest, source_ok src -> source_rem src = d ++ rest ->
    exists fs3 src', restorePath umask posix_fallocate fuel fs2 dst src = Ok (fs3, src') /\
      source_rem src' = rest /\ tree_of fs3 (fun _ => true) depth dst = Some t /\
      (forall k, ~ under dst k -> fs3 !! k = fs2 !! k).
Proof.
  intros Hfa Hsc Ht Hb Hf Hdst Hfr Hp Hl.
  destruct (tree_of_sorted _ _ _ _ _ Ht) as [Hst Hd].
  destruct (dumpPath_writes fs sched filter Hsc depth path t Ht Hb sink l Hl) as (sink' & E & R).
  exists sink', (enc_archive t). split_and!; [done|done|]. intros src rest Hs Hr.
  destruct (restore_encoding umask posix_fallocate t fuel fs2 dst src rest) as (src' & O & R' & E'); try done.
  exists (install umask dst t ∪ fs2), src'. split_and!; [done|done|by apply tree_of_restored|].
  intros k Hk. apply lookup_union_r. by apply install_not_under.
Qed.

(** [parseDump] on the archive of a tree, from any source and into any parse
    sink: it returns, consumes exactly the archive, and its effect on the sink is
    the tree's sequence of calls, contents in blocks of at most 64 KiB. *)
Theorem parseDump_events {K S} `{ParseSink K} `{SourceLaws S} t fuel (src : S) rest :
  node_bounded t -> (node_fuel t <= fuel)%nat ->
  source_ok src -> source_rem src = enc_archive t ++ rest ->
  exists src', source_rem src' = rest /\
    forall k : K, parseDump fuel k src = (k' ← run_events (node_events [] t) k; Ok (k', src')).
Proof.
  intros Hb Hf Hs Hr.
  destruct (parseDump_parses (K := K) t fuel Hb Hf src rest Hs Hr) as (src' & _ & R & E). by exists src'.
Qed.

(** Archives are canonical: different trees have different archives. *)
Theorem enc_archive_inj t1 t2 :
  node_bounded t1 -> node_bounded t2 -> node_sorted t1 -> node_sorted t2 ->
  enc_archive t1 = enc_archive t2 -> t1 = t2.
Proof.
  intros Hb1 Hb2 Hs1 Hs2 E. set (dst := $"/x").
  set (fuel := (node_fuel t1 + node_fuel t2)%nat).
  set (src := mkStringSource (enc_archive t1) 0).
  assert (fresh ∅ dst) as Hfr by (intros k _; apply lookup_empty).
  destruct (restore_encoding 0 (fun _ => FallocNone) t1 fuel ∅ dst src [])
    as (s1 & _ & _ & E1); try done; [unfold fuel; lia|cbn; lia|by rewrite app_nil_r|].
  destruct (restore_encoding 0 (fun _ => FallocNone) t2 fuel ∅ dst src [])
    as (s2 & _ & _ & E2); try done; [unfold fuel; lia|cbn; lia|by rewrite <- E, app_nil_r|].
  rewrite E1 in E2. injection E2 as E2 _. rewrite !(right_id_L ∅ (∪)) in E2.
  assert (forall d, (node_depth t1 <= d)%nat -> (node_depth t2 <= d)%nat -> Some t1 = Some t2) as Hd.
  { intros d H1 H2. rewrite <- (tree_of_restored 0 t1 ∅ dst d Hs1 Hfr H1).
    rewrite <- (tree_of_restored 0 t2 ∅ dst d Hs2 Hfr H2). by rewrite !(right_id_L ∅ (∪)), E2. }
  specialize (Hd (node_depth t1 + node_depth t2)%nat ltac:(lia) ltac:(lia)). congruence.
Qed.

Lemma hashPath_run `{HA : HashAlgo} {HL : HashAlgoLaws} ht n fs sched filter fuel path t :
  hashTypeSize ht = Some n -> (forall p, sched_ok (sched p)) ->
  tree_of fs filter fuel path = Some t -> node_bounded t ->
  hashPath ht fs sched filter fuel path =
    Ok (hash_of_bytes ht n (enc_archive t), u64 (Z.of_nat (length (enc_archive t)))).
Proof.
  intros Hn Hsc Ht Hb. unfold hashPath.
  destruct (dumpPath_writes (H0 := HashSink_laws_at ht) fs sched filter Hsc fuel path t Ht Hb
    (HashSink_new ht) []) as (s & E & R); [apply HashSink_new_at|].
  rewrite E. cbn [mbind result_bind]. by apply HashSink_finish_at.
Qed.

(** [hashPath] is the hash of the archive, so it depends only on the tree
    the filter selects: names, contents, executable bits and link targets, and not
    on the location or on how the files are read. *)
Theorem hashPath_tree `{HA : HashAlgo} {HL : HashAlgoLaws} ht n fs sched filter fuel path t :
  hashTypeSize ht = Some n -> (forall p, sched_ok (sched p)) ->
  tree_of fs filter fuel path = Some t -> node_bounded t ->
  hashPath ht fs sched filter fuel path =
    Ok (hash_of_bytes ht n (enc_archive t), u64 (Z.of_nat (length (enc_archive t)))).
Proof. apply hashPath_run. Qed.

(** An entry without a name is accepted: the check for it tests the field tag
    instead of the name, so the node is created with an empty name. *)
Theorem entry_name_missing_accepted {K S} `{ParseSink K} `{SourceLaws S} t fuel path :
  node_bounded t -> (node_fuel t <= fuel)%nat -> (2 <= fuel)%nat ->
  parses (K := K) (S := S) (parseEntry (parse fuel) fuel path)
    (enc_string ($"(") ++ enc_string ($"node") ++ enc_node t ++ enc_string ($")"))
    (node_events (path ++ $"/") t).
Proof.
  intros Hb Hf Hf2. unfold parseEntry.
  apply (parses_read readString) with (a := $"("); [by apply readLit_reads|]. eval_tests.
  destruct fuel as [|[|fuel]]; [lia|lia|].
  apply entry_read; [done|]. unfold parseEntry_field at 1. eval_tests.
  rewrite <- (app_nil_r (node_events _ _)). apply parses_bind; [by apply parse_parses|].
  rewrite <- (app_nil_r (enc_string _)). apply entry_read; [done|].
  unfold parseEntry_field. eval_tests. apply parses_ret.
Qed.

(** ** Witnesses *)

Definition sample_node : node :=
  NDir [($"bin", NDir [($"hello", NReg true ($"#! /bin/sh"))]); ($"doc", NReg false []);
        ($"lib", NLnk ($"bin"))].

(** A file system with the sample at [/a], and an empty directory [/b]. *)
Definition sample_fs : FileSys := <[$"/b" := IDir]> (install 18 ($"/a") sample_node).

Lemma sample_bounded : node_bounded sample_node.
Proof. repeat split; vm_compute; reflexivity. Qed.

Lemma sample_tree : tree_of sample_fs (fun _ => true) 3 ($"/a") = Some sample_node.
Proof. vm_compute. reflexivity. Qed.

Lemma sample_fresh : fresh sample_fs ($"/b/x").
Proof.
  intros k Hk. unfold sample_fs. rewrite lookup_insert_ne.
  2:{ intros <-. apply underb_under in Hk. by vm_compute in Hk. }
  apply install_not_under. intros Hk2.
  destruct Hk as [-> |[r ->]]; destruct Hk2 as [E|[r' E]]; vm_compute in E; discriminate E.
Qed.

Lemma dump_restore_roundtrip_witness :
  exists sink' d, dumpPath sample_fs (fun _ => []) (fun _ => true) 3 ($"/a") (mkStringSink []) = Ok sink' /\
    ss_s sink' = [] ++ d /\
    exists fs3 src', restorePath 18 (fun _ => FallocDone) 30 sample_fs ($"/b/x") (mkStringSource d 0) = Ok (fs3, src') /\
      tree_of fs3 (fun _ => true) 3 ($"/b/x") = Some sample_node.
Proof.
  destruct (dump_restore_roundtrip (S1 := StringSink) (S2 := StringSource) 18 (fun _ => FallocDone)
    sample_fs (fun _ => []) (fun _ => true) 3 30 ($"/a") sample_node (mkStringSink []) []
    sample_fs ($"/b/x")) as (s & d & E & R & Hr);
    [done|intros; apply sched_ok_nil|exact sample_tree|exact sample_bounded|cbn; lia|done|exact sample_fresh
    |reflexivity|done|].
  exists s, d. split; [exact E|]. split; [exact R|].
  destruct (Hr (mkStringSource d 0) []) as (fs3 & src' & E' & _ & Ht & _);
    [cbn; lia|by rewrite app_nil_r|]. exists fs3, src'. split; [exact E'|exact Ht].
Defined.

Lemma parseDump_events_witness :
  exists src', source_rem src' = [] /\
    parseDump (K := unit) 30 tt (mkStringSource (enc_archive sample_node) 0) =
      (k' ← run_events (node_events [] sample_node) tt; Ok (k', src')).
Proof.
  destruct (parseDump_events (K := unit) sample_node 30 (mkStringSource (enc_archive sample_node) 0) [])
    as (src' & R & E); [exact sample_bounded|cbn; lia|cbn; lia|by rewrite app_nil_r|].
  exists src'. split; [exact R|apply E].
Defined.

Lemma enc_archive_inj_witness : node_bounded sample_node /\ node_sorted sample_node /\ sample_node = sample_node.
Proof.
  assert (node_sorted sample_node) as Hs by exact (proj1 (tree_of_sorted _ _ _ _ _ sample_tree)).
  split; [exact sample_bounded|]. split; [exact Hs|].
  exact (enc_archive_inj _ _ sample_bounded sample_bounded Hs Hs eq_refl).
Defined.

Lemma hashPath_tree_witness :
  exists h, hashPath (H := checksum_algo) htSHA256 sample_fs (fun _ => []) (fun _ => true) 3 ($"/a") = Ok h.
Proof.
  eexists. eapply (hashPath_tree (HA := checksum_algo) (HL := checksum_laws) htSHA256 32);
    [reflexivity|intros; apply sched_ok_nil|exact sample_tree|exact sample_bounded].
Defined.

Lemma entry_name_missing_accepted_witness :
  parses (K := unit) (S := StringSource) (parseEntry (parse 5) 5 ($"/a"))
    (enc_string ($"(") ++ enc_string ($"node") ++ enc_node (NReg false []) ++ enc_string ($")"))
    [EvRegular ($"/a/"); EvPreallocate 0].
Proof.
  apply (entry_name_missing_accepted (K := unit) (S := StringSource) (NReg false []) 5 ($"/a")); cbn; lia.
Defined.

(** An archive has more bytes than fields. *)
Lemma length_enc_int n : length (enc_int n) = 8%nat.
Proof. reflexivity. Qed.

Lemma enc_string_length x : (8 <= length (enc_string x))%nat.
Proof. unfold enc_string. rewrite length_app, length_enc_int. lia. Qed.

Lemma node_fuel_length t : (node_fuel t <= length (enc_node t))%nat.
Proof.
  induction t as [x c|t|es IH] using node_ind'; cbn [enc_node node_fuel]; rewrite length_app;
    pose proof (enc_string_length ($"(")) as H1; [lia..|].
  rewrite !length_app. assert (foldr (fun (e : str * node) n => 1 + node_fuel e.2 + n) 0 es <=
    length (concat (map (fun e : str * node => enc_string ($"entry") ++ enc_string ($"(") ++ enc_string ($"name") ++ enc_string e.1 ++
        enc_string ($"node") ++ enc_node e.2 ++ enc_string ($")")) es)))%nat; [|lia].
  clear H1. induction IH as [|e es He _ IHes]; [done|]. cbn [foldr map concat]. rewrite !length_app.
  pose proof (enc_string_length ($"entry")). lia.
Qed.
