(* ===== verification/References.v ===== *)
(** * Scanning for references (src/src/libstore/references.cc)

    The scanner looks for the hash parts of store paths in the dump of an object,
    as it streams by in chunks.  The theorem: what it finds is exactly the set of
    hash parts (of valid characters) that occur as substrings of the whole dump,
    however the dump is cut into chunks, and the hash it returns is that of the
    dump. *)

From Stdlib Require Import ZArith Lia Ascii.
From stdpp Require Import base strings sorting numbers gmap sets list.
From S2P Require Import Prelude Util Serialise Hash FileSystem Archive.

Definition refLength : nat := 32.

(** [isBase32[(unsigned char) c]] *)
Definition isBase32 (c : ascii) : bool := existsb (char_eqb c) base32Chars.

(** The inner loop of [search] from [j] down: the last position of the window
    whose character is not in the alphabet. *)
Fixpoint last_bad (s : str) (i : nat) (j : nat) : option nat :=
  match j with
  | O => None
  | S j => if negb (isBase32 (s !!! (i + j)%nat)) then Some j else last_bad s i j
  end.

(** [search]: the indices are [unsigned int]s. *)
Fixpoint search_loop (fuel : nat) (s : str) (len i : Z) (hashes seen : gset str) :
    result (gset str * gset str) :=
  if (u32 (i + Z.of_nat refLength) <=? len)%Z then
    match fuel with
    | O => NoFuel
    | S fuel =>
        match last_bad s (Z.to_nat i) refLength with
        | Some j => search_loop fuel s len (u32 (i + Z.of_nat j + 1)) hashes seen
        | None =>
            let ref := take refLength (drop (Z.to_nat i) s) in
            if decide (ref ∈ hashes)
            then search_loop fuel s len (u32 (i + 1)) (hashes ∖ {[ref]}) ({[ref]} ∪ seen)
            else search_loop fuel s len (u32 (i + 1)) hashes seen
        end
    end
  else Ok (hashes, seen).
Definition search (s : str) (len : Z) (hashes seen : gset str) : result (gset str * gset str) :=
  search_loop (S (Z.to_nat (u32 len))) s (u32 len) 0 hashes seen.

Section RefScan.
Context `{HA : HashAlgo}.

Record RefScanSink : Type := mkRefScanSink {
  rsk_hashSink : BufferedSink HashState; rsk_hashes : gset str; rsk_seen : gset str; rsk_tail : str }.

Definition RefScanSink_new : RefScanSink := mkRefScanSink (HashSink_new htSHA256) ∅ ∅ [].

(** [RefScanSink::operator ()]. *)
Definition RefScanSink_write (k : RefScanSink) (data : str) : result RefScanSink :=
  hs ← sink_write (rsk_hashSink k) data;
  let len := length data in
  let tail := rsk_tail k in
  let s := tail ++ take (if (refLength <? len)%nat then refLength else len) data in
  '(hashes, seen) ← search s (Z.of_nat (length s)) (rsk_hashes k) (rsk_seen k);
  '(hashes, seen) ← search data (Z.of_nat len) hashes seen;
  let tailLen := if (len <=? refLength)%nat then len else refLength in
  let keep := if (length tail <? refLength - tailLen)%nat then 0%nat
              else (length tail - (refLength - tailLen))%nat in
  Ok (mkRefScanSink hs hashes seen (drop keep tail ++ drop (len - tailLen) data)).

#[export] Instance RefScanSink_sink : Sink RefScanSink := RefScanSink_write.

(** The loop of [scanForReferences] that collects the hash parts. *)
Definition collect_ref (st : gset str * gmap str str) (i : str) : result (gset str * gmap str str) :=
  let '(hashes, backMap) := st in
  baseName ← baseNameOf i;
  match str_find "-"%char baseName with
  | None => error ($"bad reference `" ++ i ++ $"'")
  | Some pos =>
      let s := take pos baseName in
      _ ← assert_ (length s =? refLength)%nat;
      _ ← assert_ (bool_decide (backMap !! s = None));
      Ok ({[s]} ∪ hashes, <[s := i]> backMap)
  end.

(** The loop that maps the hashes found back to store paths. *)
Definition map_back (backMap : gmap str str) (found : gset str) (i : str) : result (gset str) :=
  match backMap !! i with
  | None => throw eAbort ($"abort")
  | Some j => Ok ({[j]} ∪ found)
  end.

Definition scanForReferences (fs : FileSys) (sched : str -> list io_choice) (fuel : nat)
    (path : str) (refs : gset str) : result (gset str * (Hash * Z)) :=
  '(hashes, backMap) ← foldM collect_ref (∅, ∅) (set_iter refs);
  let k := RefScanSink_new in
  k ← dumpPath fs sched (fun _ => true) fuel path
        (mkRefScanSink (rsk_hashSink k) hashes (rsk_seen k) (rsk_tail k));
  found ← foldM (map_back backMap) ∅ (set_iter (rsk_seen k));
  hash ← HashSink_finish (rsk_hashSink k);
  Ok (found, hash).
End RefScan.

(** * One search *)

(** The candidate reference at an offset. *)
Definition window (s : str) (i : nat) : option str :=
  if (i + refLength <=? length s)%nat && forallb isBase32 (take refLength (drop i s))
  then Some (take refLength (drop i s)) else None.
Definition windows (s : str) (i : nat) : gset str :=
  list_to_set (omap (window s) (seq i (length s - i))).

Lemma windows_step s i :
  windows s i = match window s i with Some w => {[w]} ∪ windows s (S i) | None => windows s (S i) end.
Proof.
  unfold windows. destruct (length s - i)%nat as [|n] eqn:E.
  - replace (length s - S i)%nat with 0%nat by lia. cbn. unfold window.
    destruct (Nat.leb_spec (i + refLength) (length s)); [unfold refLength in *; lia|done].
  - replace (length s - S i)%nat with n by lia. cbn. by destruct (window s i).
Qed.

Lemma window_bad s i j k :
  s !! j = Some k -> isBase32 k = false -> (i <= j < i + refLength)%nat -> window s i = None.
Proof.
  intros Hj Hk Hij. unfold window. destruct (_ <=? _)%nat; [|done]. cbn [andb].
  destruct (forallb _ _) eqn:E; [|done]. rewrite forallb_forall in E.
  enough (isBase32 k = true) by congruence. apply E, list_elem_of_In, list_elem_of_lookup. exists (j - i)%nat.
  rewrite lookup_take_lt by lia. rewrite lookup_drop. by replace (i + (j - i))%nat with j by lia.
Qed.

Lemma windows_skip s j k n : forall i,
  s !! j = Some k -> isBase32 k = false -> (i + n = S j)%nat -> (n <= refLength)%nat ->
  windows s i = windows s (S j).
Proof.
  induction n as [|n IH]; intros i Hj Hk Hn Hl; [by replace i with (S j) by lia|].
  rewrite windows_step, (window_bad s i j k) by (done || lia). apply IH; [done|done|lia|lia].
Qed.

Lemma windows_end s i : (length s < i + refLength)%nat -> windows s i = ∅.
Proof.
  intros Hi. unfold windows. apply set_eq. intros x. rewrite elem_of_list_to_set, list_elem_of_omap.
  split; [|set_solver]. intros (j & Hj%elem_of_seq & Hw). unfold window in Hw.
  destruct (Nat.leb_spec (j + refLength) (length s)); [lia|done].
Qed.

Lemma last_bad_spec s i n :
  (i + n <= length s)%nat ->
  match last_bad s i n with
  | Some j => (j < n)%nat /\ exists c, s !! (i + j)%nat = Some c /\ isBase32 c = false
  | None => forallb isBase32 (take n (drop i s)) = true
  end.
Proof.
  induction n as [|n IH]; intros Hn; cbn [last_bad]; [done|].
  destruct (lookup_lt_is_Some_2 s (i + n)) as [c Hc]; [lia|].
  rewrite (list_lookup_total_correct _ _ _ Hc). destruct (isBase32 c) eqn:E; cbn [negb].
  - specialize (IH ltac:(lia)). destruct (last_bad s i n) as [j|]; [destruct IH; split; [lia|done]|].
    rewrite (take_S_r _ _ c) by (by rewrite lookup_drop). rewrite forallb_app, IH. cbn. by rewrite E.
  - split; [lia|]. by exists c.
Qed.

Lemma search_loop_spec s fuel : forall i hashes seen,
  (Z.of_nat (length s) + Z.of_nat refLength < 2 ^ 32)%Z -> (i <= length s)%nat ->
  (length s < i + fuel)%nat ->
  search_loop fuel s (Z.of_nat (length s)) (Z.of_nat i) hashes seen =
    Ok (hashes ∖ windows s i, (hashes ∩ windows s i) ∪ seen).
Proof.
  induction fuel as [|fuel IH]; intros i hashes seen Hl Hi Hf.
  all: cbn [search_loop]; rewrite u32_small by lia;
    destruct (Z.leb_spec (Z.of_nat i + Z.of_nat refLength) (Z.of_nat (length s))) as [H|H];
    [|rewrite windows_end by lia; do 2 f_equal; set_solver].
  { unfold refLength in *. lia. }
  rewrite Nat2Z.id. pose proof (last_bad_spec s i refLength ltac:(lia)) as Hb.
  destruct (last_bad s i refLength) as [j|].
  - destruct Hb as (Hj & c & Hc & Hbad). rewrite u32_small by lia.
    replace (Z.of_nat i + Z.of_nat j + 1)%Z with (Z.of_nat (S (i + j))) by lia.
    rewrite IH by lia. by rewrite (windows_skip s (i + j) c (S j) i) by (done || lia).
  - rewrite u32_small by (unfold refLength in *; lia).
    replace (Z.of_nat i + 1)%Z with (Z.of_nat (S i)) by lia.
    rewrite (windows_step s i). unfold window. rewrite (proj2 (Nat.leb_le _ _)), Hb by lia. cbn [andb].
    set (w := take refLength (drop i s)). case_decide as Hw; rewrite IH by (unfold refLength in *; lia).
    + do 2 f_equal; [set_solver|]. apply set_eq. intros x.
      destruct (decide (x = w)); set_solver.
    + do 2 f_equal; set_solver.
Qed.

Lemma search_spec s hashes seen :
  (Z.of_nat (length s) < chunk_max)%Z ->
  search s (Z.of_nat (length s)) hashes seen = Ok (hashes ∖ windows s 0, (hashes ∩ windows s 0) ∪ seen).
Proof.
  intros Hl. unfold search. rewrite u32_small, Nat2Z.id by lia.
  apply (search_loop_spec s _ 0); unfold refLength; lia.
Qed.

(** * The stream *)

(** [w] is a string of 32 characters of the alphabet. *)
Definition hash_part (w : str) : Prop := length w = refLength /\ forallb isBase32 w = true.

Definition occurs (w s : str) : Prop := exists a b, s = a ++ w ++ b.

Lemma elem_of_windows w s : w ∈ windows s 0 <-> hash_part w /\ occurs w s.
Proof.
  unfold windows. rewrite elem_of_list_to_set, list_elem_of_omap, Nat.sub_0_r. split.
  - intros (i & Hi & Hw). unfold window in Hw.
    destruct (_ && _) eqn:E; [|done]. injection Hw as <-. reflect. split; [split; [|done]|].
    + rewrite length_take, length_drop. lia.
    + exists (take i s), (drop refLength (drop i s)). by rewrite !take_drop.
  - intros ((Hl & Hb) & a & b & ->). exists (length a). rewrite !length_app. split.
    { apply elem_of_seq. unfold refLength in *. lia. }
    unfold window. rewrite drop_app_length, <- Hl, take_app_length, Hb, !length_app.
    by rewrite (proj2 (Nat.leb_le _ _)) by lia.
Qed.

Definition stream_tail (s : str) : str := drop (length s - refLength) s.

Lemma occurs_mid w p s q : occurs w s -> occurs w (p ++ s ++ q).
Proof. intros (a & b & ->). exists (p ++ a), (b ++ q). by rewrite <- !app_assoc. Qed.

(** A reference in the stream so far and the new chunk lies in one of them or in
    the end of the stream joined with the start of the chunk. *)
Lemma windows_app L d :
  windows (L ++ d) 0 = windows L 0 ∪ (windows (stream_tail L ++ take refLength d) 0 ∪ windows d 0).
Proof.
  apply set_eq. intros w. rewrite !elem_of_union, !elem_of_windows. split.
  - intros [Hw (a & b & E)]. pose proof Hw as [Hl _]. 
    cut (occurs w L \/ occurs w (stream_tail L ++ take refLength d) \/ occurs w d); [tauto|].
    pose proof (f_equal (fun s => take refLength (drop (length a) s)) E) as Hwin. cbv beta in Hwin.
    rewrite (drop_app_length a), <- Hl, take_app_length, Hl in Hwin.
    destruct (decide (length a + refLength <= length L)%nat) as [H1|H1].
    { left. rewrite drop_app_le, take_app_le in Hwin by (rewrite ?length_drop; lia).
      exists (take (length a) L), (drop refLength (drop (length a) L)). by rewrite <- Hwin, !take_drop. }
    right. destruct (decide (length L <= length a)%nat) as [H2|H2].
    { right. rewrite drop_app_ge in Hwin by lia.
      exists (take (length a - length L) d), (drop refLength (drop (length a - length L) d)).
      by rewrite <- Hwin, !take_drop. }
    left. rewrite drop_app_le in Hwin by lia.
    set (i := (length a - (length L - refLength))%nat).
    assert (drop i (stream_tail L) = drop (length a) L) as Ed.
    { unfold stream_tail. rewrite drop_drop. f_equal. unfold i. lia. }
    exists (take i (stream_tail L)), (drop refLength (drop (length a) L ++ take refLength d)).
    assert (take refLength (drop (length a) L ++ take refLength d) = w) as <-.
    { rewrite <- Hwin, !take_app, take_take. do 2 f_equal. lia. }
    rewrite take_drop, <- Ed, app_assoc, take_drop. done.
  - intros H. split; [tauto|]. destruct H as [[_ H]|[[_ H]|[_ H]]].
    + rewrite <- (app_nil_l (L ++ d)). by apply occurs_mid.
    + apply (occurs_mid w (take (length L - refLength) L) _ (drop refLength d)) in H.
      rewrite <- !app_assoc, take_drop, app_assoc in H. unfold stream_tail in H. by rewrite take_drop in H.
    + rewrite <- (app_nil_r d). by apply occurs_mid.
Qed.

Lemma stream_tail_app L d :
  let tailLen := if (length d <=? refLength)%nat then length d else refLength in
  let tail := stream_tail L in
  let keep := if (length tail <? refLength - tailLen)%nat then 0%nat
              else (length tail - (refLength - tailLen))%nat in
  drop keep tail ++ drop (length d - tailLen) d = stream_tail (L ++ d).
Proof.
  cbv zeta. unfold stream_tail. rewrite length_app, length_drop, drop_drop.
  destruct (Nat.leb_spec (length d) refLength) as [H|H].
  - rewrite Nat.sub_diag, drop_0. rewrite drop_app_le by lia. do 2 f_equal.
    destruct (Nat.ltb_spec (length L - (length L - refLength)) (refLength - length d)); lia.
  - rewrite Nat.sub_diag, Nat.sub_0_r. cbn [Nat.ltb Nat.leb].
    rewrite drop_ge by lia. rewrite drop_app_ge by lia. cbn [app]. f_equal. lia.
Qed.

Section RefScanTheory.
Context `{HA : HashAlgo} {HL : HashAlgoLaws}.

(** After the bytes [l], of the hash parts [H0]: those that occurred are in
    [seen] and the others in [hashes]. *)
Definition refscan_rep (H0 : gset str) (k : RefScanSink) (l : str) : Prop :=
  sink_rep (SinkLaws := HashSink_laws_at htSHA256) (rsk_hashSink k) l /\
  rsk_seen k = H0 ∩ windows l 0 /\ rsk_hashes k = H0 ∖ windows l 0 /\ rsk_tail k = stream_tail l.

#[program] Definition RefScanSink_laws (H0 : gset str) : SinkLaws RefScanSink := {|
  sink_rep := refscan_rep H0 |}.
Next Obligation.
  intros H0 k l d (Hh & Hs & Hr & Ht) Hd.
  destruct (sink_write_law (SinkLaws := HashSink_laws_at htSHA256) (rsk_hashSink k) l d Hh Hd) as (hs & E & R).
  unfold sink_write at 1, RefScanSink_sink, RefScanSink_write. rewrite E. cbn [mbind result_bind].
  assert (take (if (refLength <? length d)%nat then refLength else length d) d = take refLength d) as ->.
  { destruct (Nat.ltb_spec refLength (length d)); [done|]. by rewrite !take_ge by lia. }
  rewrite search_spec.
  2:{ rewrite length_app, length_take, Ht. unfold stream_tail. rewrite length_drop. unfold refLength. lia. }
  cbn [mbind result_bind]. rewrite search_spec by exact Hd. cbn [mbind result_bind].
  eexists. split; [reflexivity|]. split_and!; cbn [rsk_hashSink rsk_seen rsk_hashes rsk_tail]; [done| | |].
  - rewrite (windows_app l d), Hs, Hr, Ht.
    generalize (windows l 0) (windows (stream_tail l ++ take refLength d) 0) (windows d 0).
    intros A B C. apply set_eq. intros w. set_unfold. destruct (decide (w ∈ A)), (decide (w ∈ B)); tauto.
  - rewrite (windows_app l d), Hr, Ht. set_solver.
  - rewrite Ht. apply stream_tail_app.
Qed.

(** The hash part of a store path. *)
Definition path_hash (p : str) : option str :=
  match baseNameOf p with
  | Ok b =>
      pos ← str_find "-"%char b;
      if (length (take pos b) =? refLength)%nat then Some (take pos b) else None
  | _ => None
  end.

(** The references have hash parts, and no two the same. *)
Definition refs_ok (refs : gset str) : Prop :=
  (forall p, p ∈ refs -> path_hash p <> None) /\
  (forall p q, p ∈ refs -> q ∈ refs -> path_hash p = path_hash q -> p = q).

Lemma collect_ref_step hashes bm p h :
  path_hash p = Some h -> bm !! h = None ->
  collect_ref (hashes, bm) p = Ok ({[h]} ∪ hashes, <[h := p]> bm).
Proof.
  unfold path_hash, collect_ref. intros Hp Hb. destruct (baseNameOf p) as [b| |]; try done.
  cbn [mbind result_bind option_bind] in *. destruct (str_find "-"%char b) as [pos|]; [|done].
  cbn [mbind option_bind] in Hp. destruct (length (take pos b) =? refLength)%nat; [|done]. injection Hp as ->.
  cbn [assert_ mbind result_bind]. by rewrite bool_decide_eq_true_2.
Qed.

Lemma collect_refs_spec l : forall bm : gmap str str,
  NoDup l -> (forall p, p ∈ l -> exists h, path_hash p = Some h /\ bm !! h = None) ->
  (forall p q, p ∈ l -> q ∈ l -> path_hash p = path_hash q -> p = q) ->
  exists bm', foldM collect_ref (dom bm, bm) l = Ok (dom bm', bm') /\
    forall h p, bm' !! h = Some p <-> bm !! h = Some p \/ p ∈ l /\ path_hash p = Some h.
Proof.
  induction l as [|p l IH]; intros bm Hnd Hok Hinj.
  { exists bm. split; [done|]. intros h p. set_solver. }
  apply NoDup_cons in Hnd as [Hnin Hnd]. destruct (Hok p) as (h & Hp & Hb); [left|].
  cbn [foldM]. rewrite (collect_ref_step _ _ _ _ Hp Hb). cbn [mbind result_bind].
  replace ({[h]} ∪ dom bm) with (dom (<[h := p]> bm)) by (by rewrite dom_insert_L).
  destruct (IH (<[h := p]> bm)) as (bm' & E & Hbm'); [done| | |].
  - intros q Hq. destruct (Hok q) as (h' & Hq' & Hb'); [by right|]. exists h'. split; [done|].
    rewrite lookup_insert_ne; [done|]. intros ->. apply Hnin.
    rewrite (Hinj p q); [done|left|by right|congruence].
  - intros q r Hq Hr. apply Hinj; by right.
  - exists bm'. split; [done|]. intros h' q. rewrite Hbm', lookup_insert_Some, elem_of_cons.
    split; [naive_solver|]. intros [Hq|[[-> |Hq] Hh]]; [|naive_solver|naive_solver].
    left. right. split; [|done]. intros ->. congruence.
Qed.

Lemma map_back_spec (bm : gmap str str) l : forall acc,
  (forall h, h ∈ l -> bm !! h <> None) ->
  exists found, foldM (map_back bm) acc l = Ok found /\
    forall p, p ∈ found <-> p ∈ acc \/ exists h, h ∈ l /\ bm !! h = Some p.
Proof.
  induction l as [|h l IH]; intros acc Hl.
  { exists acc. split; [done|]. set_solver. }
  destruct (bm !! h) as [p|] eqn:E; [|by exfalso; apply (Hl h); [left|]].
  assert (map_back bm acc h = Ok ({[p]} ∪ acc)) as Es by (unfold map_back; by rewrite E).
  cbn [foldM]. rewrite Es. cbn [mbind result_bind]. destruct (IH ({[p]} ∪ acc)) as (found & E' & Hf).
  { intros h' Hh'. apply Hl. by right. }
  exists found. split; [done|]. intros q. rewrite Hf. set_solver.
Qed.

Lemma scanForReferences_run fs sched fuel path t refs :
  refs_ok refs -> (forall p, sched_ok (sched p)) ->
  tree_of fs (fun _ => true) fuel path = Some t -> node_bounded t ->
  exists found, scanForReferences fs sched fuel path refs =
      Ok (found, (hash_of_bytes htSHA256 32 (enc_archive t), u64 (Z.of_nat (length (enc_archive t))))) /\
    forall p, p ∈ found <-> p ∈ refs /\ exists h, path_hash p = Some h /\
      forallb isBase32 h = true /\ occurs h (enc_archive t).
Proof.
  intros [Hok Hinj] Hsc Ht Hb. unfold scanForReferences.
  destruct (collect_refs_spec (set_iter refs) ∅) as (bm & E & Hbm).
  { apply NoDup_set_iter. }
  { intros p Hp%elem_of_set_iter. specialize (Hok p Hp). destruct (path_hash p) as [h|]; [|done].
    exists h. by rewrite lookup_empty. }
  { intros p q Hp%elem_of_set_iter Hq%elem_of_set_iter. by apply Hinj. }
  rewrite dom_empty_L in E. rewrite E. cbn [mbind result_bind rsk_hashSink rsk_seen rsk_tail RefScanSink_new].
  destruct (dumpPath_writes (H0 := RefScanSink_laws (dom bm)) fs sched (fun _ => true) Hsc fuel path t Ht Hb
    (mkRefScanSink (HashSink_new htSHA256) (dom bm) ∅ []) []) as (k & E1 & Hh & Hs & _ & _).
  { split_and!; [apply HashSink_new_at|cbn; set_solver|cbn; set_solver|done]. }
  rewrite E1. cbn [mbind result_bind].
  destruct (map_back_spec bm (set_iter (rsk_seen k)) ∅) as (found & E2 & Hf).
  { intros h Hh'%elem_of_set_iter. rewrite Hs in Hh'. apply elem_of_intersection in Hh' as [Hd _].
    by apply elem_of_dom in Hd as [p ->]. }
  rewrite E2. cbn [mbind result_bind]. rewrite (HashSink_finish_at htSHA256 32 _ _ eq_refl Hh).
  exists found. split; [done|]. intros p. rewrite Hf. setoid_rewrite elem_of_set_iter. rewrite Hs.
  setoid_rewrite elem_of_intersection. setoid_rewrite elem_of_windows. setoid_rewrite Hbm.
  setoid_rewrite elem_of_set_iter. split.
  - intros [He|(h & [_ [[_ Hb32] Ho]] & [He|[Hp Hh']])];
      [by apply not_elem_of_empty in He|by rewrite lookup_empty in He|].
    split; [done|]. by exists h.
  - intros (Hp & h & Hh' & Hb32 & Ho). right. exists h. split; [|by right]. split.
    { apply elem_of_dom. exists p. apply Hbm. right. by rewrite elem_of_set_iter. }
    split; [|done]. split; [|done]. unfold path_hash in Hh'. destruct (baseNameOf p) as [b| |]; try done.
    destruct (str_find _ b) as [pos|]; [|done]. cbn [mbind option_bind] in Hh'.
    destruct (Nat.eqb_spec (length (take pos b)) refLength); by simplify_eq.
Qed.

(** C12: the reference scan is exact: for every object and every set of candidate
    store paths with distinct hash parts, [scanForReferences] returns the
    candidates whose hash part consists of base-32 characters and occurs as a
    substring of the object's dump, no matter how the dump was cut into chunks
    (also across chunk boundaries), together with the hash and the size of the
    dump. *)
Theorem scanForReferences_exact fs sched fuel path t refs :
  refs_ok refs -> (forall p, sched_ok (sched p)) ->
  tree_of fs (fun _ => true) fuel path = Some t -> node_bounded t ->
  exists found, scanForReferences fs sched fuel path refs =
      Ok (found, (hash_of_bytes htSHA256 32 (enc_archive t), u64 (Z.of_nat (length (enc_archive t))))) /\
    forall p, p ∈ found <-> p ∈ refs /\ exists h, path_hash p = Some h /\
      forallb isBase32 h = true /\ occurs h (enc_archive t).
Proof. apply scanForReferences_run. Qed.
End RefScanTheory.

(** ** Witness *)

Definition sample_ref : str := $"/nix/store/00000000000000000000000000000000-hello".

Definition scan_fs : FileSys :=
  {[$"/f" := IReg 0 ($"exec /nix/store/00000000000000000000000000000000-hello/bin/hello")]}.

Lemma scanForReferences_exact_witness :
  exists found h, scanForReferences (HA := checksum_algo) scan_fs (fun _ => []) 1 ($"/f") {[sample_ref]} = Ok (found, h) /\
    sample_ref ∈ found.
Proof.
  destruct (scanForReferences_exact (HA := checksum_algo) (HL := checksum_laws) scan_fs (fun _ => []) 1 ($"/f")
    (NReg false ($"exec /nix/store/00000000000000000000000000000000-hello/bin/hello")) {[sample_ref]})
    as (found & E & Hf).
  - split; [intros p ->%elem_of_singleton; vm_compute; discriminate|set_solver].
  - intros; apply sched_ok_nil.
  - vm_compute. reflexivity.
  - vm_compute. reflexivity.
  - exists found. eexists. split; [exact E|]. apply Hf. split; [set_solver|].
    exists ($"00000000000000000000000000000000"). split; [vm_compute; reflexivity|].
    split; [vm_compute; reflexivity|].
    exists (enc_string archiveVersion1 ++ enc_string ($"(") ++ enc_string ($"type") ++ enc_string ($"regular") ++
      enc_string ($"contents") ++ enc_longlong 64 ++ $"exec /nix/store/").
    exists ($"-hello/bin/hello" ++ enc_string ($")")). vm_compute. reflexivity.
Defined.
