(* ===== verification/StorePath.v ===== *)
(** * Store paths (src/src/libstore/store-api.cc)

    The form of store paths, how they are computed from what they name, and the
    text format in which valid paths are registered.  The theorems: a computed
    path is a store path with a hash part the reference scanner recognises and
    gives its name back; the string whose hash names the path determines kind,
    hash and name; registrations round-trip. *)

From Stdlib Require Import ZArith Lia Ascii.
From stdpp Require Import base strings sorting numbers gmap sets list.
From S2P Require Import Prelude Util Serialise Hash FileSystem Archive References.

(** [settings.nixStore] is a parameter of the functions that use it. *)
Section Store.
Context (nixStore : str).

Definition isInStore (path : str) : bool :=
  is_abs path
  && str_eqb (take (length nixStore) path) nixStore
  && (length nixStore + 2 <=? length path)%nat
  && char_eqb (path !!! length nixStore) slash.

Definition isStorePath (path : str) : bool :=
  isInStore path && bool_decide (str_find_from slash path (S (length nixStore)) = None).

Definition assertStorePath (path : str) : result unit :=
  if isStorePath path then Ok tt
  else error ($"path `" ++ path ++ $"' is not in the Nix store").

Definition toStorePath (path : str) : result str :=
  if negb (isInStore path) then error ($"path `" ++ path ++ $"' is not in the Nix store")
  else
    match str_find_from slash path (S (length nixStore)) with
    | None => Ok path
    | Some pos => Ok (take pos path)
    end.

(** [followLinksToStore]: the loop follows links until the path is in the store,
    one link per iteration; it need not end. *)
Definition isLink (fs : FileSys) (path : str) : result bool :=
  match fs !! path with
  | Some (ILnk _) => Ok true
  | Some _ => Ok false
  | None => throw eSysError ($"getting status of `" ++ path ++ $"'")
  end.
Fixpoint followLinks_loop (fuel : nat) (fs : FileSys) (cwd path : str) : result str :=
  match fuel with
  | O => NoFuel
  | S fuel =>
      if isInStore path then Ok path
      else
        l ← isLink fs path;
        if negb l then Ok path
        else
          target ← readLink fs path;
          dir ← dirOf path;
          path ← absPath cwd target dir;
          followLinks_loop fuel fs cwd path
  end.
Definition followLinksToStore (fuel : nat) (fs : FileSys) (cwd _path : str) : result str :=
  path ← absPath cwd _path [];
  path ← followLinks_loop fuel fs cwd path;
  if negb (isInStore path) then error ($"path `" ++ path ++ $"' is not in the Nix store")
  else Ok path.
Definition followLinksToStorePath (fuel : nat) (fs : FileSys) (cwd path : str) : result str :=
  p ← followLinksToStore fuel fs cwd path;
  toStorePath p.

Definition storePathToName (path : str) : result str :=
  _ ← assertStorePath path;
  substr_from path (length nixStore + 34).

(** [checkStoreName]. *)
Definition validStoreChars : str := $"+-._?=".
Definition store_char_ok (c : ascii) : bool :=
  in_range 65 90 c || in_range 97 122 c || in_range 48 57 c
  || bool_decide (str_find c validStoreChars <> None).
Definition checkStoreName (name : str) : result unit :=
  if str_eqb (take 1 name) ($".") then error ($"illegal name: `" ++ name ++ $"'")
  else
    foldM (fun _ c =>
      if store_char_ok c then Ok tt
      else error ($"invalid character `" ++ [c] ++ $"' in name `" ++ name ++ $"'")) tt name.

Section Make.
Context `{HA : HashAlgo}.

(** The string [s] of [makeStorePath]. *)
Definition fingerprint (type : str) (hash : Hash) (name : str) : str :=
  type ++ $":sha256:" ++ printHash hash ++ $":" ++ nixStore ++ $":" ++ name.

Definition makeStorePath (type : str) (hash : Hash) (name : str) : result str :=
  let s := fingerprint type hash name in
  _ ← checkStoreName name;
  h ← hashString htSHA256 s;
  h32 ← printHash32 (compressHash h 20);
  Ok (nixStore ++ $"/" ++ h32 ++ $"-" ++ name).

Definition makeOutputPath (id : str) (hash : Hash) (name : str) : result str :=
  makeStorePath ($"output:" ++ id) hash (name ++ (if str_eqb id ($"out") then [] else $"-" ++ id)).

Definition makeFixedOutputPath (recursive : bool) (hashAlgo : HashType) (hash : Hash) (name : str) : result str :=
  if bool_decide (hashAlgo = htSHA256) && recursive then makeStorePath ($"source") hash name
  else
    t ← printHashType hashAlgo;
    h ← hashString htSHA256 ($"fixed:out:" ++ (if recursive then $"r:" else []) ++ t ++ $":" ++ printHash hash ++ $":");
    makeStorePath ($"output:out") h name.

(** [computeStorePathForPath] of an object of the file system. *)
Definition computeStorePathForPath (fs : FileSys) (sched : str -> list io_choice) (fuel : nat)
    (filter : str -> bool) (srcPath : str) (recursive : bool) (hashAlgo : HashType) :
    result (str * Hash) :=
  h ← (if recursive then fst <$> hashPath hashAlgo fs sched filter fuel srcPath
       else match fs !! srcPath with
            | Some (IReg _ data) => hashFile hashAlgo (mkFd data (sched srcPath))
            | _ => throw eSysError ($"opening file `" ++ srcPath ++ $"'")
            end);
  name ← baseNameOf srcPath;
  dstPath ← makeFixedOutputPath recursive hashAlgo h name;
  Ok (dstPath, h).

Definition text_type (references : gset str) : str :=
  foldl (fun type i => type ++ $":" ++ i) ($"text") (set_iter references).
Definition computeStorePathForText (name s : str) (references : gset str) : result str :=
  hash ← hashString htSHA256 s;
  makeStorePath (text_type references) hash name.
End Make.
End Store.

(** ** Registrations *)

Record ValidPathInfo : Type := mkValidPathInfo {
  path : str; deriver : str; vhash : Hash; references : gset str;
  registrationTime : Z; narSize : Z; vid : Z }.

(** [ValidPathInfo()]; [id] is not initialised. *)
Definition ValidPathInfo_default (indeterminate : Z) : ValidPathInfo :=
  mkValidPathInfo [] [] Hash_default ∅ 0 0 indeterminate.

(** [StoreAPI::makeValidityRegistration] for a store whose [queryPathInfo] is given. *)
Definition makeValidityRegistration (queryPathInfo : str -> result ValidPathInfo)
    (paths : gset str) (showDerivers showHash : bool) : result str :=
  foldM (fun s i =>
    let s := s ++ i ++ [NL] in
    info ← queryPathInfo i;
    let s := if showHash then s ++ printHash (vhash info) ++ [NL] ++ print_dec (narSize info) ++ [NL] else s in
    let deriver := if showDerivers then deriver info else [] in
    let s := s ++ deriver ++ [NL] in
    let s := s ++ print_dec (Z.of_nat (size (references info))) ++ [NL] in
    Ok (foldl (fun s j => s ++ j ++ [NL]) s (set_iter (references info)))) [] (set_iter paths).

(** An input stream: the rest of its characters and its [eof] and [fail] flags. *)
Record istream : Type := mkIstream { is_rest : str; is_eof : bool; is_fail : bool }.

Fixpoint span_line (s : str) : str * option str :=
  match s with
  | [] => ([], None)
  | c :: s => if char_eqb c NL then ([], Some s) else let '(l, r) := span_line s in (c :: l, r)
  end.

(** [getline(str, x)]; on a stream that is at its end or has failed, [x] keeps its
    value [old] and the fail flag is set.  Extracting nothing sets it too. *)
Definition getline (old : str) (st : istream) : str * istream :=
  if is_eof st || is_fail st then (old, mkIstream (is_rest st) (is_eof st) true)
  else
    match span_line (is_rest st) with
    | (l, Some r) => (l, mkIstream r false false)
    | (l, None) => (l, mkIstream [] true (bool_decide (l = [])))
    end.

(** [string2Int<unsigned long long>]: a minus sign negates modulo 2^64. *)
Definition string2Int_u64 (s : str) : option Z :=
  u64 <$> string2Int_in (- (2 ^ 64 - 1)) (2 ^ 64 - 1) s.

(** The loop [while (n--)], which a negative [n] does not end. *)
Fixpoint read_refs (n : nat) (s : str) (refs : gset str) (st : istream) : gset str * istream :=
  match n with
  | O => (refs, st)
  | S n => let '(s, st) := getline s st in read_refs n s ({[s]} ∪ refs) st
  end.

Definition decodeValidPathInfo (indeterminate : Z) (st : istream) (hashGiven : bool) :
    result (ValidPathInfo * istream) :=
  let '(p, st) := getline [] st in
  if is_eof st then Ok (ValidPathInfo_default indeterminate, st)
  else
    '(h, nar, st) ←
      (if hashGiven then
         let '(s, st) := getline [] st in
         h ← parseHash htSHA256 s;
         let '(s, st) := getline s st in
         match string2Int_u64 s with
         | None => error ($"number expected")
         | Some n => Ok (h, n, st)
         end
       else Ok (Hash_default, 0%Z, st));
    let '(d, st) := getline [] st in
    let '(s, st) := getline [] st in
    match string2Int s with
    | None => error ($"number expected")
    | Some n =>
        if (n <? 0)%Z then NoFuel
        else
          let '(refs, st) := read_refs (Z.to_nat n) s ∅ st in
          if is_fail st || is_eof st then error ($"missing input")
          else Ok (mkValidPathInfo p d h refs 0 nar indeterminate, st)
    end.

Definition showPaths (paths : gset str) : str :=
  foldl (fun s i => (if (length s =? 0)%nat then s else s ++ $", ") ++ $"`" ++ i ++ $"'") []
    (set_iter paths).

(** * Names *)

Lemma foldM_unit_ok {A} (P : A -> bool) (e : A -> exn) l :
  (foldM (fun _ c => if P c then Ok tt else Throw (e c)) tt l = Ok tt /\ forallb P l = true) \/
  (exists c, c ∈ l /\ P c = false /\ foldM (fun _ c => if P c then Ok tt else Throw (e c)) tt l = Throw (e c)).
Proof.
  induction l as [|c l IH]; cbn; [by left|]. destruct (P c) eqn:E; cbn.
  - destruct IH as [IH|(d & Hd & IH)]; [by left|]. right. exists d. split; [by right|done].
  - right. exists c. split; [left|done].
Qed.

Definition store_name (name : str) : bool :=
  negb (str_eqb (take 1 name) ($".")) && forallb store_char_ok name.

Lemma checkStoreName_spec name :
  if store_name name then checkStoreName name = Ok tt
  else exists msg, checkStoreName name = Throw (Exn eError msg).
Proof.
  unfold store_name, checkStoreName, error, throw. destruct (str_eqb _ _); cbn [negb andb]; [by eexists|].
  destruct (foldM_unit_ok store_char_ok
    (fun c => Exn eError ($"invalid character `" ++ [c] ++ $"' in name `" ++ name ++ $"'")) name)
    as [[-> ->]|(c & Hc & Hbad & Ht)]; [done|].
  destruct (forallb store_char_ok name) eqn:E; [|by eexists].
  rewrite forallb_forall in E. apply list_elem_of_In, E in Hc. congruence.
Qed.

(** Facts about single characters, by going through all 256. *)
Lemma ascii_forall (P : ascii -> bool) :
  forallb (fun n => P (ascii_of_nat n)) (seq 0 256) = true -> forall c, P c = true.
Proof.
  rewrite forallb_forall. intros H c. rewrite <- (ascii_nat_embedding c). apply H, in_seq.
  pose proof (nat_ascii_bounded c). lia.
Qed.

Lemma isBase32_b32 c : isBase32 c = (b32 c <? 32)%Z.
Proof.
  apply eqb_prop. revert c. apply (ascii_forall (fun c => eqb (isBase32 c) (b32 c <? 32)%Z)).
  vm_compute. reflexivity.
Qed.

Lemma isBase32_plain c : isBase32 c = true -> char_eqb c slash = false /\ char_eqb c "-"%char = false.
Proof.
  intros H. split; apply char_eqb_ne; intros ->; by vm_compute in H.
Qed.

Lemma store_char_plain c :
  store_char_ok c = true -> char_eqb c slash = false /\ char_eqb c ":"%char = false /\ char_eqb c NL = false.
Proof.
  intros H. split_and!; apply char_eqb_ne; intros ->; by vm_compute in H.
Qed.

Lemma forallb_Forall {A} (P : A -> bool) l : forallb P l = true <-> Forall (fun x => P x = true) l.
Proof. rewrite forallb_forall, Forall_forall. by setoid_rewrite list_elem_of_In. Qed.

Lemma be32_valid_isBase32 s : be32_valid s = forallb isBase32 s.
Proof. unfold be32_valid. induction s as [|c s IH]; cbn; [done|]. by rewrite IH, isBase32_b32. Qed.

Lemma str_find_none c s : Forall (fun x => char_eqb x c = false) s -> str_find c s = None.
Proof. induction 1 as [|x s Hx Hs IH]; cbn; [done|]. by rewrite Hx, IH. Qed.

Lemma str_find_app c a b : Forall (fun x => char_eqb x c = false) a -> str_find c (a ++ c :: b) = Some (length a).
Proof. induction 1 as [|x a Hx Ha IH]; cbn; [by rewrite char_eqb_refl|]. by rewrite Hx, IH. Qed.

(** The file name of a computed store path. *)
Definition store_base (h name : str) : str := h ++ "-"%char :: name.

Section StoreTheory.
Context (nixStore : str) (store_abs : is_abs nixStore = true).

Lemma store_base_plain h name :
  forallb isBase32 h = true -> store_name name = true ->
  Forall (fun x => char_eqb x slash = false) (store_base h name).
Proof.
  unfold store_base, store_name. intros Hh Hn. reflect. rewrite forallb_Forall in *.
  apply Forall_app_2; [|constructor; [done|]]; eapply Forall_impl; try done; cbv beta; intros c Hc;
    [by apply isBase32_plain|by apply store_char_plain].
Qed.

Lemma store_path_parts h name :
  length h = refLength -> forallb isBase32 h = true -> store_name name = true ->
  let p := nixStore ++ slash :: store_base h name in
  isStorePath nixStore p = true /\ storePathToName nixStore p = Ok name /\
  baseNameOf p = Ok (store_base h name) /\ path_hash p = Some h.
Proof.
  intros Hl Hh Hn p. pose proof (store_base_plain h name Hh Hn) as Hplain.
  assert (Hlb : length (store_base h name) = (refLength + 1 + length name)%nat).
  { unfold store_base. rewrite length_app, Hl. cbn [length]. lia. }
  assert (isInStore nixStore p = true) as Hin.
  { unfold isInStore, p. rewrite take_app_length, str_eqb_refl, length_app.
    rewrite lookup_total_app_r, Nat.sub_diag by lia. cbn [length]. rewrite Hlb.
    rewrite (proj2 (Nat.leb_le _ _)) by (unfold refLength; lia).
    destruct nixStore; [done|]. cbn in *. by rewrite store_abs. }
  assert (isStorePath nixStore p = true) as Hsp.
  { unfold isStorePath. rewrite Hin. apply bool_decide_eq_true. unfold str_find_from, p.
    rewrite drop_app_ge by lia. replace (S _ - _)%nat with 1%nat by lia. cbn [drop].
    by rewrite str_find_none. }
  assert (baseNameOf p = Ok (store_base h name)) as Hbase.
  { unfold baseNameOf, p. rewrite str_rfind_app by done. rewrite drop_app_ge by lia.
    by replace (S _ - _)%nat with 1%nat by lia. }
  split_and!; [done| |done|].
  - unfold storePathToName, assertStorePath. rewrite Hsp. cbn [mbind result_bind]. unfold substr_from, p.
    rewrite length_app. cbn [length]. rewrite Hlb, (proj2 (Nat.leb_le _ _)) by (unfold refLength; lia).
    f_equal. rewrite drop_app_ge by lia. replace (length nixStore + 34 - length nixStore)%nat with (S (length h + 1)) by (rewrite Hl; unfold refLength; lia).
    cbn [drop]. unfold store_base. rewrite drop_app_ge by lia. by replace (_ - _)%nat with 1%nat by lia.
  - unfold path_hash. rewrite Hbase. unfold store_base. rewrite str_find_app.
    2:{ rewrite forallb_Forall in Hh. eapply Forall_impl; [exact Hh|]. intros c Hc. by apply isBase32_plain. }
    cbn [mbind option_bind]. by rewrite take_app_length, Hl, Nat.eqb_refl.
Qed.

Context `{HA : HashAlgo} {HL : HashAlgoLaws}.

(** The hash part of the path with a fingerprint. *)
Definition path_digest (f : str) : Hash := compressHash (hash_of_bytes htSHA256 32 f) 20.

Lemma compressHash_eq a b n :
  hash (compressHash a n) = hash (compressHash b n) -> compressHash a n = compressHash b n.
Proof. unfold compressHash. cbn [hash]. by intros ->. Qed.

Lemma path_digest_eq f g : hash (path_digest f) = hash (path_digest g) -> path_digest f = path_digest g.
Proof. apply compressHash_eq. Qed.

Lemma path_digest_wf f : hash_wf (path_digest f).
Proof. apply compressHash_wf; [|unfold maxHashSize; lia]. by apply hash_of_bytes_ok. Qed.

Lemma path_digest_print f :
  exists h, printHash32 (path_digest f) = Ok h /\ length h = refLength /\ forallb isBase32 h = true /\
    be32_val h = le_val (hash (path_digest f)).
Proof.
  pose proof (path_digest_wf f) as W.
  destruct (printHash32_value (path_digest f) W) as (h & E & Hl & Hv & Hval); [cbn; lia|].
  exists h. rewrite <- be32_valid_isBase32. split_and!; [done| |done|done].
  assert (hashLength32 (path_digest f) = 32%Z) as E32.
  { transitivity (hashLength32 (mkHash 20 [] htUnknown)); [by apply hashLength32_size|reflexivity]. }
  unfold refLength. lia.
Qed.

Lemma makeStorePath_ok type h name :
  store_name name = true -> chunk_ok (fingerprint nixStore type h name) ->
  exists h32, printHash32 (path_digest (fingerprint nixStore type h name)) = Ok h32 /\
    length h32 = refLength /\ forallb isBase32 h32 = true /\
    makeStorePath nixStore type h name = Ok (nixStore ++ slash :: store_base h32 name).
Proof.
  intros Hn Hc. destruct (path_digest_print (fingerprint nixStore type h name)) as (h32 & E & Hl & Hb & _).
  exists h32. split_and!; [exact E|exact Hl|exact Hb|]. unfold makeStorePath.
  pose proof (checkStoreName_spec name) as Hname. rewrite Hn in Hname. rewrite Hname, bind_ret.
  rewrite (hashString_bytes htSHA256 32 _ eq_refl Hc), bind_ret.
  fold (path_digest (fingerprint nixStore type h name)). by rewrite E, bind_ret.
Qed.

(** [makeStorePath] returns for every acceptable name, and the path it computes
    is a store path from which the name can be read back and whose hash part
    (base-32 of the folded SHA-256 hash of the fingerprint) is what the reference
    scanner will look for; every other name is an [Error]. *)
Theorem makeStorePath_spec type h name :
  chunk_ok (fingerprint nixStore type h name) ->
  if store_name name then
    exists p h32, makeStorePath nixStore type h name = Ok p /\
      isStorePath nixStore p = true /\ storePathToName nixStore p = Ok name /\
      path_hash p = Some h32 /\ hash_part h32 /\
      printHash32 (path_digest (fingerprint nixStore type h name)) = Ok h32
  else exists msg, makeStorePath nixStore type h name = Throw (Exn eError msg).
Proof.
  intros Hc. destruct (store_name name) eqn:Hn.
  - destruct (makeStorePath_ok type h name Hn Hc) as (h32 & E & Hl & Hb & Ep).
    destruct (store_path_parts h32 name Hl Hb Hn) as (H1 & H2 & _ & H3).
    eexists _, h32. split_and!; [exact Ep|done|done|done|done|done].
  - pose proof (checkStoreName_spec name) as Hname. rewrite Hn in Hname. destruct Hname as [msg Hm].
    exists msg. unfold makeStorePath. by rewrite Hm.
Qed.

Lemma printHash_inj h1 h2 : hash_ok h1 -> hash_ok h2 -> type h1 = type h2 -> printHash h1 = printHash h2 -> h1 = h2.
Proof.
  intros H1 H2 Ht E. pose proof (parse_print_hash16 h1 H1) as P1. pose proof (parse_print_hash16 h2 H2) as P2.
  rewrite E, Ht, P2 in P1. congruence.
Qed.

Lemma fingerprint_inj type1 h1 name1 type2 h2 name2 :
  hash_ok h1 -> hash_ok h2 -> type h1 = type h2 -> store_name name1 = true -> store_name name2 = true ->
  fingerprint nixStore type1 h1 name1 = fingerprint nixStore type2 h2 name2 ->
  type1 = type2 /\ h1 = h2 /\ name1 = name2.
Proof.
  intros H1 H2 Ht Hn1 Hn2 E.
  assert (forall n, store_name n = true -> Forall (fun x => char_eqb x ":"%char = false) n) as Hnc.
  { intros n Hn. unfold store_name in Hn. reflect. rewrite forallb_Forall in *.
    eapply Forall_impl; [done|]. intros c Hc. by apply store_char_plain. }
  set (pre t h := t ++ $":sha256:" ++ printHash h ++ $":" ++ nixStore).
  assert (forall t h n, fingerprint nixStore t h n = pre t h ++ ":"%char :: n) as Hf.
  { intros. unfold fingerprint, pre. by rewrite <- !app_assoc. }
  rewrite !Hf in E.
  assert (length (pre type1 h1) = length (pre type2 h2)) as Hlen.
  { pose proof (str_rfind_app ":"%char (pre type1 h1) name1 (Hnc _ Hn1)) as R1.
    rewrite E, str_rfind_app in R1 by auto. congruence. }
  apply app_inj_1 in E as [Ep [= ->]]; [|done]. unfold pre in Ep.
  assert (length (printHash h1) = length (printHash h2)) as Hlp.
  { rewrite !length_printHash. destruct H1 as [_ S1], H2 as [_ S2]. rewrite Ht in S1. congruence. }
  apply app_inj_2 in Ep as [-> Ep]; [|rewrite !length_app; lia].
  apply app_inv_head in Ep. apply app_inj_1 in Ep as [Ep _]; [|done].
  split_and!; [done|by apply printHash_inj|done].
Qed.

(** C27: two store paths coincide only for a reason: if computations for two
    (kind, hash, name) triples give the same path, the names are the same, and
    either the triples are equal or two different fingerprints have the same
    folded SHA-256 hash.  So sources, texts and outputs cannot be made to collide
    without a collision of the hash function. *)
Theorem makeStorePath_collision type1 h1 name1 type2 h2 name2 p :
  hash_ok h1 -> hash_ok h2 -> type h1 = type h2 ->
  chunk_ok (fingerprint nixStore type1 h1 name1) -> chunk_ok (fingerprint nixStore type2 h2 name2) ->
  makeStorePath nixStore type1 h1 name1 = Ok p -> makeStorePath nixStore type2 h2 name2 = Ok p ->
  name1 = name2 /\
  (type1 = type2 /\ h1 = h2 \/
   fingerprint nixStore type1 h1 name1 <> fingerprint nixStore type2 h2 name2 /\
   path_digest (fingerprint nixStore type1 h1 name1) = path_digest (fingerprint nixStore type2 h2 name2)).
Proof.
  intros H1 H2 Ht C1 C2 E1 E2.
  assert (forall t h n, makeStorePath nixStore t h n = Ok p -> store_name n = true) as Hname.
  { intros t h n E. pose proof (checkStoreName_spec n) as Hn. destruct (store_name n); [done|].
    destruct Hn as [msg Hn]. unfold makeStorePath in E. by rewrite Hn in E. }
  pose proof (Hname _ _ _ E1) as N1. pose proof (Hname _ _ _ E2) as N2.
  destruct (makeStorePath_ok type1 h1 name1 N1 C1) as (a & Pa & La & Ba & Ea).
  destruct (makeStorePath_ok type2 h2 name2 N2 C2) as (b & Pb & Lb & Bb & Eb).
  rewrite E1 in Ea. rewrite E2 in Eb. injection Ea as ->. injection Eb as Ep.
  apply app_inv_head in Ep. injection Ep as Ep. apply app_inj_1 in Ep as [-> [= ->]]; [|by rewrite La, Lb].
  split; [done|].
  destruct (decide (fingerprint nixStore type1 h1 name2 = fingerprint nixStore type2 h2 name2)) as [Ef|Nf].
  - left. destruct (fingerprint_inj type1 h1 name2 type2 h2 name2) as (-> & -> & _); done.
  - right. split; [done|].
    destruct (path_digest_print (fingerprint nixStore type1 h1 name2)) as (a' & Pa' & _ & _ & Va).
    destruct (path_digest_print (fingerprint nixStore type2 h2 name2)) as (b' & Pb' & _ & _ & Vb).
    assert (a' = b') as -> by congruence. rewrite Va in Vb.
    set (d1 := path_digest (fingerprint nixStore type1 h1 name2)) in *.
    set (d2 := path_digest (fingerprint nixStore type2 h2 name2)) in *.
    assert (hash_wf d1 /\ hash_wf d2) as [W1 W2] by (split; apply path_digest_wf).
    assert (hash d1 = hash d2) as Eh.
    { apply le_val_inj; [apply W1|apply W2| |done]. by rewrite (wf_length d1 W1), (wf_length d2 W2). }
    by apply path_digest_eq.
Qed.
End StoreTheory.

(** * Registrations *)

Definition plain_line (s : str) : Prop := Forall (fun c => char_eqb c NL = false) s.

(** What a registration entry can carry. *)
Definition info_ok (i : ValidPathInfo) : Prop :=
  plain_line (path i) /\ plain_line (deriver i) /\ hash_ok (vhash i) /\ type (vhash i) = htSHA256 /\
  (0 <= narSize i < 2 ^ 64)%Z /\ (Z.of_nat (size (references i)) < 2 ^ 31)%Z /\
  (forall r, r ∈ references i -> plain_line r).

Definition enc_lines (ls : list str) : str := concat (map (fun l => l ++ [NL]) ls).

(** One entry of a registration, with hash and deriver. *)
Definition enc_info (i : ValidPathInfo) : str :=
  enc_lines ([path i; printHash (vhash i); print_dec (narSize i); deriver i;
              print_dec (Z.of_nat (size (references i)))] ++ set_iter (references i)).

(** [decodeValidPathInfo] called [n] times in a row. *)
Fixpoint decode_infos (n : nat) (ind : Z) (st : istream) : result (list ValidPathInfo * istream) :=
  match n with
  | O => Ok ([], st)
  | S n =>
      '(i, st) ← decodeValidPathInfo ind st true;
      '(is', st) ← decode_infos n ind st;
      Ok (i :: is', st)
  end.

Lemma span_line_app l r : plain_line l -> span_line (l ++ NL :: r) = (l, Some r).
Proof. induction 1 as [|c l Hc Hl IH]; cbn [app span_line]; [done|]. by rewrite Hc, IH. Qed.

Lemma getline_app old l r :
  plain_line l -> getline old (mkIstream (l ++ NL :: r) false false) = (l, mkIstream r false false).
Proof. intros Hl. unfold getline. cbn [is_eof is_fail is_rest orb]. by rewrite span_line_app. Qed.

Lemma read_refs_app ls : forall s refs r, Forall plain_line ls ->
  read_refs (length ls) s refs (mkIstream (enc_lines ls ++ r) false false) =
    (list_to_set ls ∪ refs, mkIstream r false false).
Proof.
  induction ls as [|l ls IH]; intros s refs r Hls; cbn [length read_refs enc_lines map concat].
  { f_equal. set_solver. }
  apply Forall_cons in Hls as [Hl Hls]. rewrite <- !app_assoc. cbn [app].
  rewrite getline_app by done. fold (enc_lines ls). rewrite IH by done. f_equal. set_solver.
Qed.

Lemma digit_plain c : isdigit c = true -> char_eqb c NL = false.
Proof. intros H. apply char_eqb_ne. intros ->. by vm_compute in H. Qed.

Lemma print_dec_plain n : (0 <= n)%Z -> plain_line (print_dec n).
Proof.
  intros Hn. destruct (print_dec_spec n Hn) as (_ & Hd & _). eapply Forall_impl; [exact Hd|].
  apply digit_plain.
Qed.

Lemma printHash_plain h : hash_ok h -> plain_line (printHash h).
Proof.
  intros [W _]. unfold printHash, plain_line. apply Forall_forall. intros c Hc.
  apply list_elem_of_In, in_flat_map in Hc as (i & [_ Hi]%in_seq & Hc).
  assert (forall d, (0 <= d < 16)%Z -> char_eqb (base16Chars !!! Z.to_nat d) NL = false) as H16.
  { intros d Hd. assert (forallb (fun i => negb (char_eqb (base16Chars !!! i) NL)) (seq 0 16) = true) as Ha
      by (vm_compute; reflexivity).
    rewrite forallb_forall in Ha. apply negb_true_iff, Ha, in_seq. lia. }
  pose proof (byte_lookup (hash h) i (wf_bytes h W)) as Hb.
  rewrite (wf_length h W) in Hb. pose proof (wf_size h W). specialize (Hb ltac:(lia)). unfold byte in Hb.
  destruct Hc as [<-|[<-|[]]]; apply H16.
  - rewrite Z.shiftr_div_pow2 by lia. change (2 ^ 4)%Z with 16%Z. split; [apply Z.div_pos; lia|apply Z.div_lt_upper_bound; lia].
  - change 15%Z with (Z.ones 4). rewrite Z.land_ones by lia. apply Z.mod_pos_bound. lia.
Qed.

Lemma string2Int_u64_print n : (0 <= n < 2 ^ 64)%Z -> string2Int_u64 (print_dec n) = Some n.
Proof.
  intros Hn. unfold string2Int_u64. pose proof (string2Int_int2String n (- (2 ^ 64 - 1)) (2 ^ 64 - 1)) as H.
  unfold int2String in H. destruct (Z.ltb_spec n 0); [lia|]. rewrite H by lia. cbn [fmap option_fmap option_map].
  by rewrite u64_small.
Qed.

Lemma string2Int_print n : (0 <= n < 2 ^ 31)%Z -> string2Int (print_dec n) = Some n.
Proof.
  intros Hn. pose proof (string2Int_int2String n (- 2 ^ 31) (2 ^ 31 - 1)) as H.
  unfold int2String in H. destruct (Z.ltb_spec n 0); [lia|]. apply H. lia.
Qed.

(** The entry that decoding gives back. *)
Definition decoded (ind : Z) (i : ValidPathInfo) : ValidPathInfo :=
  mkValidPathInfo (path i) (deriver i) (vhash i) (references i) 0 (narSize i) ind.

Lemma decode_enc_info ind i r :
  info_ok i ->
  decodeValidPathInfo ind (mkIstream (enc_info i ++ r) false false) true =
    Ok (decoded ind i, mkIstream r false false).
Proof.
  intros (Hp & Hd & Hh & Ht & Hn & Hsz & Hr). unfold decodeValidPathInfo, enc_info, enc_lines.
  rewrite map_app, concat_app. cbn [map concat]. rewrite app_nil_r, <- !app_assoc. cbn [app].
  rewrite getline_app by done. cbn [is_eof].
  rewrite getline_app by by apply printHash_plain. rewrite <- Ht, parse_print_hash16 by done.
  cbn [mbind result_bind]. rewrite getline_app by (apply print_dec_plain; lia).
  rewrite string2Int_u64_print by done. cbn [mbind result_bind].
  rewrite getline_app by done. rewrite getline_app by (apply print_dec_plain; lia).
  rewrite string2Int_print by lia. destruct (Z.ltb_spec (Z.of_nat (size (references i))) 0); [lia|].
  rewrite Nat2Z.id. fold (enc_lines (set_iter (references i))).
  replace (size (references i)) with (length (set_iter (references i))) by (by rewrite set_iter_perm).
  rewrite read_refs_app.
  2:{ apply Forall_forall. intros x Hx%elem_of_set_iter. auto. }
  cbn [is_fail is_eof orb]. rewrite list_to_set_iter, (right_id_L ∅ (∪)). done.
Qed.

Lemma foldl_lines s l : foldl (fun s j => s ++ j ++ [NL]) s l = s ++ enc_lines l.
Proof.
  revert s. induction l as [|x l IH]; intros s; cbn; [by rewrite app_nil_r|].
  rewrite IH. unfold enc_lines. by rewrite <- !app_assoc.
Qed.

Lemma registration_enc query (l : list str) : forall s infos,
  Forall2 (fun p i => query p = Ok i /\ path i = p) l infos ->
  foldM (fun s i =>
    let s := s ++ i ++ [NL] in
    info ← query i;
    let s := s ++ printHash (vhash info) ++ [NL] ++ print_dec (narSize info) ++ [NL] in
    let deriver := deriver info in
    let s := s ++ deriver ++ [NL] in
    let s := s ++ print_dec (Z.of_nat (size (references info))) ++ [NL] in
    Ok (foldl (fun s j => s ++ j ++ [NL]) s (set_iter (references info)))) s l =
  Ok (s ++ concat (map enc_info infos)).
Proof.
  intros s infos H. revert s. induction H as [|p i l infos [Hq Hp] Hl IH]; intros s; cbn [foldM map concat].
  { by rewrite app_nil_r. }
  rewrite Hq. cbn [mbind result_bind]. rewrite IH, foldl_lines. f_equal. unfold enc_info, enc_lines.
  rewrite map_app, concat_app. cbn [map concat]. rewrite Hp, app_nil_r, <- !app_assoc. done.
Qed.

(** Registrations round-trip: the text that [makeValidityRegistration] writes
    for a set of paths (with hashes and derivers) is read back by as many calls of
    [decodeValidPathInfo], in the order of the paths, with the same path, hash,
    size, deriver and references, and whatever follows is left in the stream. *)
Theorem registration_roundtrip query paths rest ind :
  (forall p, p ∈ paths -> exists i, query p = Ok i /\ path i = p /\ info_ok i) ->
  exists s infos, makeValidityRegistration query paths true true = Ok s /\
    Forall2 (fun p i => query p = Ok i) (set_iter paths) infos /\
    decode_infos (length infos) ind (mkIstream (s ++ rest) false false) =
      Ok (map (decoded ind) infos, mkIstream rest false false).
Proof.
  intros Hq.
  assert (exists infos, Forall2 (fun p i => query p = Ok i /\ path i = p) (set_iter paths) infos /\
    Forall info_ok infos) as (infos & H2 & Hok).
  { assert (forall p, p ∈ set_iter paths -> exists i, query p = Ok i /\ path i = p /\ info_ok i) as Hq'
      by (intros p Hp%elem_of_set_iter; auto).
    revert Hq'. clear Hq. generalize (set_iter paths) as l. induction l as [|p l IH]; intros Hq; [by exists []|].
    destruct (Hq p) as (i & H1 & H2 & H3); [left|]. destruct IH as (infos & H4 & H5); [intros; apply Hq; by right|].
    exists (i :: infos). split; by constructor. }
  exists (concat (map enc_info infos)), infos. split_and!.
  - unfold makeValidityRegistration. by rewrite (registration_enc query _ [] infos).
  - eapply Forall2_impl; [exact H2|]. by intros ? ? [].
  - clear H2 Hq. induction Hok as [|i infos Hi Hok IH]; [done|].
    cbn [length decode_infos map concat]. rewrite <- app_assoc, decode_enc_info by done.
    cbn [mbind result_bind]. by rewrite IH.
Qed.

(** ** Witnesses *)

Definition sample_store : str := $"/nix/store".

Lemma makeStorePath_spec_witness :
  exists p h32, makeStorePath (HA := checksum_algo) sample_store ($"source") sample_hash ($"hello-2.1") = Ok p /\
    isStorePath sample_store p = true /\ storePathToName sample_store p = Ok ($"hello-2.1") /\
    path_hash p = Some h32 /\ hash_part h32.
Proof.
  destruct (makeStorePath_spec (HA := checksum_algo) (HL := checksum_laws) sample_store eq_refl ($"source") sample_hash ($"hello-2.1"))
    as (p & h32 & H1 & H2 & H3 & H4 & H5 & _); [vm_compute; reflexivity|].
  exists p, h32. split_and!; assumption.
Defined.

Lemma makeStorePath_collision_witness :
  exists p, makeStorePath (HA := checksum_algo) sample_store ($"source") sample_hash ($"x") = Ok p /\ $"x" = $"x".
Proof.
  destruct (makeStorePath_ok (HA := checksum_algo) (HL := checksum_laws) sample_store
    ($"source") sample_hash ($"x") eq_refl eq_refl) as (h & _ & _ & _ & E).
  set (p := sample_store ++ slash :: store_base h ($"x")) in E.
  exists p. split; [exact E|].
  exact (proj1 (makeStorePath_collision (HA := checksum_algo) (HL := checksum_laws) sample_store
    ($"source") sample_hash ($"x") ($"source") sample_hash ($"x") p sample_hash_ok sample_hash_ok eq_refl
    eq_refl eq_refl E E)).
Defined.

Definition sample_info : ValidPathInfo :=
  mkValidPathInfo ($"/nix/store/a") ($"/nix/store/b.drv") sample_hash {[ $"/nix/store/c" ]} 0 120 0.

Lemma registration_roundtrip_witness :
  exists s infos, makeValidityRegistration (fun _ => Ok sample_info) {[ $"/nix/store/a" ]} true true = Ok s /\
    decode_infos (length infos) 0 (mkIstream (s ++ []) false false) =
      Ok (map (decoded 0) infos, mkIstream [] false false).
Proof.
  destruct (registration_roundtrip (fun _ => Ok sample_info) {[ $"/nix/store/a" ]} [] 0) as (s & infos & H1 & _ & H2).
  - intros p ->%elem_of_singleton. exists sample_info. split; [reflexivity|]. split; [reflexivity|].
    split_and!; try (vm_compute; reflexivity); try exact sample_hash_ok.
    + repeat (constructor; [reflexivity|]). constructor.
    + repeat (constructor; [reflexivity|]). constructor.
    + vm_compute; discriminate.
    + intros r Hr. cbn [references sample_info] in Hr. apply elem_of_singleton in Hr as ->. repeat (constructor; [reflexivity|]). constructor.
  - exists s, infos. split; assumption.
Defined.
