(* ===== verification/Derivations.v ===== *)
(** * Derivations (src/src/libstore/derivations.cc, derivations.hh)

    The abstract syntax of derivations, their text form, the hash of a derivation
    modulo fixed-output inputs with its memo table, and paths with selected
    outputs.  The theorems: the text form round-trips, the memo table never changes
    a result and the recursion ends on every acyclic store, replacing a
    fixed-output input by an equivalent one keeps the hash, and selections of
    outputs round-trip. *)

From Stdlib Require Import ZArith Lia Ascii.
From stdpp Require Import base strings sorting numbers gmap sets list.
From S2P Require Import Prelude Util Serialise Hash FileSystem Archive References StorePath.

Definition drvExtension : str := $".drv".

Record DerivationOutput : Type := mkDerivationOutput {
  out_path : str; out_hashAlgo : str; out_hash : str }.

Record Derivation : Type := mkDerivation {
  outputs : gmap str DerivationOutput;
  inputDrvs : gmap str (gset str);
  inputSrcs : gset str;
  platform : str;
  builder : str;
  args : list str;
  env : gmap str str }.

(** [DerivationOutput::parseHashInfo]. *)
Definition parseHashInfo (o : DerivationOutput) : result (bool * HashType * Hash) :=
  let algo := out_hashAlgo o in
  let recursive := str_eqb (take 2 algo) ($"r:") in
  let algo := if recursive then drop 2 algo else algo in
  let hashType := parseHashType algo in
  if bool_decide (hashType = htUnknown) then error ($"unknown hash algorithm `" ++ algo ++ $"'")
  else
    h ← parseHash hashType (out_hash o);
    Ok (recursive, hashType, h).

(** ** Printing *)

(** What [printString] does with one character. *)
Definition escape (c : ascii) : str :=
  if char_eqb c DQUOTE || char_eqb c BSLASH then [BSLASH; c]
  else if char_eqb c NL then [BSLASH; "n"%char]
  else if char_eqb c CR then [BSLASH; "r"%char]
  else if char_eqb c TAB then [BSLASH; "t"%char]
  else [c].

(** The loop of [printString] runs over [s.c_str()], so it stops at the first NUL. *)
Fixpoint printString_loop (s : str) : str :=
  match s with
  | [] => []
  | c :: s => if char_eqb c NUL then [] else escape c ++ printString_loop s
  end.
Definition printString (res s : str) : str := res ++ [DQUOTE] ++ printString_loop s ++ [DQUOTE].

(** A loop that appends elements to [res] with commas between them. *)
Definition print_seq {A} (elem : str -> A -> str) (res : str) (l : list A) : str :=
  snd (foldl (fun '(first, res) a =>
    (false, elem (if (first : bool) then res else res ++ [","%char]) a)) (true, res) l).

Definition printStrings (res : str) (l : list str) : str :=
  print_seq printString (res ++ ["["%char]) l ++ ["]"%char].

Definition print_output (s : str) (i : str * DerivationOutput) : str :=
  let s := printString (s ++ ["("%char]) (fst i) in
  let s := printString (s ++ [","%char]) (out_path (snd i)) in
  let s := printString (s ++ [","%char]) (out_hashAlgo (snd i)) in
  let s := printString (s ++ [","%char]) (out_hash (snd i)) in
  s ++ [")"%char].
Definition print_inputDrv (s : str) (i : str * gset str) : str :=
  let s := printString (s ++ ["("%char]) (fst i) in
  let s := printStrings (s ++ [","%char]) (set_iter (snd i)) in
  s ++ [")"%char].
Definition print_env (s : str) (i : str * str) : str :=
  let s := printString (s ++ ["("%char]) (fst i) in
  let s := printString (s ++ [","%char]) (snd i) in
  s ++ [")"%char].

Definition unparseDerivation (drv : Derivation) : str :=
  let s := $"Derive([" in
  let s := print_seq print_output s (map_iter (outputs drv)) in
  let s := print_seq print_inputDrv (s ++ $"],[") (map_iter (inputDrvs drv)) in
  let s := printStrings (s ++ $"],") (set_iter (inputSrcs drv)) in
  let s := printString (s ++ $",") (platform drv) in
  let s := printString (s ++ $",") (builder drv) in
  let s := printStrings (s ++ $",") (args drv) in
  let s := print_seq print_env (s ++ $",[") (map_iter (env drv)) in
  s ++ $"])".

(** ** Parsing

    A parser takes the rest of the stream and returns a value and what is left. *)

Definition parsePath (str : str) : result (list ascii * list ascii) :=
  '(s, str) ← parseString str;
  if is_abs s then Ok (s, str) else error ($"bad path `" ++ s ++ $"' in derivation").

(** [while (!endOfList(str)) acc = body(acc, str)]; every iteration that returns
    consumes at least one character. *)
Fixpoint parse_list {A} (body : A -> str -> result (A * str)) (fuel : nat) (acc : A) (s : str) :
    result (A * str) :=
  match fuel with
  | O => NoFuel
  | S fuel =>
      let '(e, s) := endOfList s in
      if (e : bool) then Ok (acc, s)
      else
        '(acc, s) ← body acc s;
        parse_list body fuel acc s
  end.

Definition parseStrings (s : str) (arePaths : bool) : result (gset str * str) :=
  parse_list (fun res s =>
    '(x, s) ← (if arePaths then parsePath s else parseString s);
    Ok ({[x]} ∪ res, s)) (S (length s)) ∅ s.

Definition parse_output (acc : gmap str DerivationOutput) (s : str) :
    result (gmap str DerivationOutput * str) :=
  s ← expect ($"(") s; '(id, s) ← parseString s;
  s ← expect ($",") s; '(p, s) ← parsePath s;
  s ← expect ($",") s; '(a, s) ← parseString s;
  s ← expect ($",") s; '(h, s) ← parseString s;
  s ← expect ($")") s;
  Ok (<[id := mkDerivationOutput p a h]> acc, s).

Definition parse_inputDrv (acc : gmap str (gset str)) (s : str) : result (gmap str (gset str) * str) :=
  s ← expect ($"(") s;
  '(drvPath, s) ← parsePath s;
  s ← expect ($",[") s;
  '(outs, s) ← parseStrings s false;
  s ← expect ($")") s;
  Ok (<[drvPath := outs]> acc, s).

Definition parse_arg (acc : list str) (s : str) : result (list str * str) :=
  '(x, s) ← parseString s;
  Ok (acc ++ [x], s).

Definition parse_env (acc : gmap str str) (s : str) : result (gmap str str * str) :=
  s ← expect ($"(") s; '(name, s) ← parseString s;
  s ← expect ($",") s; '(value, s) ← parseString s;
  s ← expect ($")") s;
  Ok (<[name := value]> acc, s).

Definition parseDerivation (s : str) : result Derivation :=
  let fuel := S (length s) in
  str ← expect ($"Derive([") s;
  '(outputs, str) ← parse_list parse_output fuel ∅ str;
  str ← expect ($",[") str;
  '(inputDrvs, str) ← parse_list parse_inputDrv fuel ∅ str;
  str ← expect ($",[") str; '(inputSrcs, str) ← parseStrings str true;
  str ← expect ($",") str; '(platform, str) ← parseString str;
  str ← expect ($",") str; '(builder, str) ← parseString str;
  str ← expect ($",[") str;
  '(args, str) ← parse_list parse_arg fuel [] str;
  str ← expect ($",[") str;
  '(env, str) ← parse_list parse_env fuel ∅ str;
  str ← expect ($")") str;
  Ok (mkDerivation outputs inputDrvs inputSrcs platform builder args env).

(** ** Hashes modulo fixed outputs *)

Definition isDerivation (fileName : str) : bool := hasSuffix fileName drvExtension.

(** [outputs.begin()] of a map with one element. *)
Definition isFixedOutputDrv (drv : Derivation) : bool :=
  match map_iter (outputs drv) with
  | [(id, o)] => str_eqb id ($"out") && negb (str_eqb (out_hash o) [])
  | _ => false
  end.

Definition with_inputDrvs (drv : Derivation) (inputs : gmap str (gset str)) : Derivation :=
  mkDerivation (outputs drv) inputs (inputSrcs drv) (platform drv) (builder drv) (args drv) (env drv).

Section Modulo.
Context `{HA : HashAlgo}.
(** What the function uses of the store: validity and the contents of files. *)
Context (isValidPath : str -> bool) (readFile : str -> result str).

(** The hash of a fixed-output derivation. *)
Definition fixed_hash (drv : Derivation) : result Hash :=
  match map_iter (outputs drv) with
  | (_, o) :: _ =>
      hashString htSHA256 ($"fixed:out:" ++ out_hashAlgo o ++ $":" ++ out_hash o ++ $":" ++ out_path o)
  | [] => throw eOutOfRange ($"outputs.begin()")
  end.

(** [hashDerivationModulo]: [memo] is the global [drvHashes]; looking an entry up
    with [operator []] creates it.  The fuel bounds the depth of the recursion. *)
Fixpoint hashDerivationModulo (fuel : nat) (drv : Derivation) (memo : gmap str Hash) :
    result (Hash * gmap str Hash) :=
  match fuel with
  | O => NoFuel
  | S fuel =>
      if isFixedOutputDrv drv then
        h ← fixed_hash drv;
        Ok (h, memo)
      else
        '(inputs2, memo) ← foldM (fun '(inputs2, memo) '(p, outs) =>
            let h := default Hash_default (memo !! p) in
            let memo := <[p := h]> memo in
            '(h, memo) ←
              (if bool_decide (type h = htUnknown) then
                 _ ← assert_ (isValidPath p);
                 contents ← readFile p;
                 drv2 ← parseDerivation contents;
                 '(h, memo) ← hashDerivationModulo fuel drv2 memo;
                 Ok (h, <[p := h]> memo)
               else Ok (h, memo));
            Ok (<[printHash h := outs]> inputs2, memo)) (∅, memo) (map_iter (inputDrvs drv));
        h ← hashString htSHA256 (unparseDerivation (with_inputDrvs drv inputs2));
        Ok (h, memo)
  end.
End Modulo.

(** [writeDerivation], given the store's [addTextToStore]. *)
Section Write.
Context `{HA : HashAlgo} (nixStore : str) (readOnlyMode : bool).
Definition drv_references (drv : Derivation) : gset str :=
  foldl (fun refs i => {[fst i]} ∪ refs) (inputSrcs drv) (map_iter (inputDrvs drv)).
Definition writeDerivation {St} (addTextToStore : St -> str -> str -> gset str -> bool -> result (str * St))
    (st : St) (drv : Derivation) (name : str) (repair : bool) : result (str * St) :=
  let references := drv_references drv in
  let suffix := name ++ drvExtension in
  let contents := unparseDerivation drv in
  if readOnlyMode then
    p ← computeStorePathForText nixStore suffix contents references;
    Ok (p, st)
  else addTextToStore st suffix contents references repair.
End Write.

(** ** Paths with outputs *)

Definition parseDrvPathWithOutputs (s : str) : str * gset str :=
  match str_find "!"%char s with
  | None => (s, ∅)
  | Some n => (take n s, list_to_set (tokenizeString (drop (S n) s) ($",")))
  end.

Definition makeDrvPathWithOutputs (drvPath : str) (outputs : gset str) : str :=
  if decide (outputs = ∅) then drvPath
  else drvPath ++ $"!" ++ concatStringsSep ($",") (set_iter outputs).

Definition wantOutput (output : str) (wanted : gset str) : bool :=
  bool_decide (wanted = ∅) || bool_decide (output ∈ wanted).

(** * The text form *)

(** What the printing functions append. *)
Definition quoted (s : str) : str := [DQUOTE] ++ printString_loop s ++ [DQUOTE].
Definition join {A} (enc : A -> str) (l : list A) : str :=
  match l with
  | [] => []
  | a :: l => enc a ++ concat (map (fun b => $"," ++ enc b) l)
  end.
Definition enc_list (l : list str) : str := $"[" ++ join quoted l ++ $"]".
Definition enc_output (i : str * DerivationOutput) : str :=
  $"(" ++ quoted i.1 ++ $"," ++ quoted (out_path i.2) ++ $"," ++ quoted (out_hashAlgo i.2) ++ $"," ++
  quoted (out_hash i.2) ++ $")".
Definition enc_inputDrv (i : str * gset str) : str :=
  $"(" ++ quoted i.1 ++ $"," ++ enc_list (set_iter i.2) ++ $")".
Definition enc_env (i : str * str) : str := $"(" ++ quoted i.1 ++ $"," ++ quoted i.2 ++ $")".
Definition enc_drv (drv : Derivation) : str :=
  $"Derive([" ++ join enc_output (map_iter (outputs drv)) ++ $"]" ++
  $",[" ++ join enc_inputDrv (map_iter (inputDrvs drv)) ++ $"]" ++
  $"," ++ enc_list (set_iter (inputSrcs drv)) ++
  $"," ++ quoted (platform drv) ++ $"," ++ quoted (builder drv) ++
  $"," ++ enc_list (args drv) ++
  $",[" ++ join enc_env (map_iter (env drv)) ++ $"]" ++ $")".

Lemma print_seq_join {A} (elem : str -> A -> str) enc res l :
  (forall s a, elem s a = s ++ enc a) -> print_seq elem res l = res ++ join enc l.
Proof.
  intros He. unfold print_seq. destruct l as [|a l]; cbn [foldl join]; [by rewrite app_nil_r|].
  rewrite He, app_assoc. generalize (res ++ enc a) as s. induction l as [|b l IH]; intros s; cbn [foldl map concat].
  - by rewrite app_nil_r.
  - rewrite He, IH, <- !app_assoc. done.
Qed.

Lemma printStrings_enc res l : printStrings res l = res ++ enc_list l.
Proof.
  unfold printStrings, enc_list. rewrite (print_seq_join _ quoted) by done. by rewrite <- !app_assoc.
Qed.

Lemma unparseDerivation_enc drv : unparseDerivation drv = enc_drv drv.
Proof.
  unfold unparseDerivation, enc_drv, printString. rewrite !printStrings_enc.
  rewrite (print_seq_join print_output enc_output).
  2:{ intros. unfold print_output, enc_output, printString, quoted. by rewrite <- !app_assoc. }
  rewrite (print_seq_join print_inputDrv enc_inputDrv).
  2:{ intros. unfold print_inputDrv, enc_inputDrv, printString, quoted. rewrite printStrings_enc.
      by rewrite <- !app_assoc. }
  rewrite (print_seq_join print_env enc_env).
  2:{ intros. unfold print_env, enc_env, printString, quoted. by rewrite <- !app_assoc. }
  unfold quoted. rewrite <- !app_assoc. reflexivity.
Qed.

(** ** Strings *)

Definition no_nul (s : str) : Prop := Forall (fun c => char_eqb c NUL = false) s.

Lemma expect_app t r : expect t (t ++ r) = Ok r.
Proof. unfold expect. by rewrite take_app_length, str_eqb_refl, drop_app_length. Qed.

Lemma parseString_loop_escaped c fuel res r :
  parseString_loop (S fuel) res (escape c ++ r) = parseString_loop fuel (res ++ [c]) r.
Proof.
  unfold escape. destruct (char_eqb c DQUOTE) eqn:E1; cbn [orb].
  { reflect. subst. cbn [app]. by rewrite parseString_step. }
  destruct (char_eqb c BSLASH) eqn:E2; [reflect; subst; cbn [app]; by rewrite parseString_step|].
  destruct (char_eqb c NL) eqn:E3; [reflect; subst; cbn [app]; by rewrite parseString_step|].
  destruct (char_eqb c CR) eqn:E4; [reflect; subst; cbn [app]; by rewrite parseString_step|].
  destruct (char_eqb c TAB) eqn:E5; [reflect; subst; cbn [app]; by rewrite parseString_step|].
  cbn [app]. by rewrite parseString_step, E1, E2.
Qed.

Lemma parseString_loop_printed s : forall fuel res r,
  no_nul s -> (length s < fuel)%nat ->
  parseString_loop fuel res (printString_loop s ++ DQUOTE :: r) = Ok (res ++ s, r).
Proof.
  induction s as [|c s IH]; intros [|fuel] res r Hs Hf; cbn [length] in Hf; try lia.
  - cbn [printString_loop app]. rewrite parseString_step, char_eqb_refl. by rewrite app_nil_r.
  - apply Forall_cons in Hs as [Hc Hs]. cbn [printString_loop]. rewrite Hc, <- app_assoc.
    rewrite parseString_loop_escaped, IH by (done || lia). by rewrite <- app_assoc.
Qed.

Lemma length_escape c : (1 <= length (escape c))%nat.
Proof. unfold escape. repeat case_match; cbn; lia. Qed.

Lemma length_printString_loop s : no_nul s -> (length s <= length (printString_loop s))%nat.
Proof.
  induction 1 as [|c s Hc Hs IH]; cbn [printString_loop length]; [lia|]. rewrite Hc, length_app.
  pose proof (length_escape c). lia.
Qed.

Lemma parseString_quoted s r : no_nul s -> parseString (quoted s ++ r) = Ok (s, r).
Proof.
  intros Hs. unfold parseString, quoted. rewrite <- app_assoc, expect_app. cbn [mbind result_bind].
  rewrite <- app_assoc. cbn [app]. apply (parseString_loop_printed s _ []); [done|].
  rewrite length_app. cbn [length]. pose proof (length_printString_loop s Hs). lia.
Qed.

Lemma parsePath_quoted s r : no_nul s -> is_abs s = true -> parsePath (quoted s ++ r) = Ok (s, r).
Proof. intros Hs Ha. unfold parsePath. rewrite parseString_quoted by done. cbn [mbind result_bind]. by rewrite Ha. Qed.

(** ** Lists *)

(** An encoding that does not look like the end of a list or a comma. *)
Definition starts_ok (s : str) : Prop :=
  match s with c :: _ => char_eqb c ","%char = false /\ char_eqb c "]"%char = false | [] => False end.

Lemma endOfList_starts s r : starts_ok s -> endOfList (s ++ r) = (false, s ++ r).
Proof. destruct s as [|c s]; [done|]. intros [H1 H2]. cbn [app endOfList]. by rewrite H1, H2. Qed.

Lemma parse_list_join {A B} (body : B -> str -> result (B * str)) (enc : A -> str) (upd : B -> A -> B) l r :
  (forall a, a ∈ l -> starts_ok (enc a) /\ forall acc r, body acc (enc a ++ r) = Ok (upd acc a, r)) ->
  forall fuel acc, (length l < fuel)%nat ->
  parse_list body fuel acc (join enc l ++ $"]" ++ r) = Ok (foldl upd acc l, r).
Proof.
  intros Hl. assert (Htail : forall l, (forall a, a ∈ l -> forall acc r, body acc (enc a ++ r) = Ok (upd acc a, r)) ->
    forall fuel acc, (length l < fuel)%nat ->
    parse_list body fuel acc (concat (map (fun b => $"," ++ enc b) l) ++ $"]" ++ r) = Ok (foldl upd acc l, r)).
  { clear l Hl. induction l as [|a l IH]; intros Hl [|fuel] acc Hf; cbn [length] in Hf; try lia.
    - cbn [map concat parse_list]. change ($"]" ++ r) with ("]"%char :: r). cbn [app endOfList]. reflexivity.
    - cbn [map concat parse_list]. rewrite <- !app_assoc.
      change ($"," ++ enc a ++ concat (map (fun b => $"," ++ enc b) l) ++ $"]" ++ r)
        with (","%char :: enc a ++ concat (map (fun b => $"," ++ enc b) l) ++ $"]" ++ r).
      cbn [endOfList]. rewrite char_eqb_refl. rewrite Hl by left. cbn [mbind result_bind foldl].
      apply IH; [intros; apply Hl; by right|lia]. }
  destruct l as [|a l]; intros [|fuel] acc Hf; cbn [length] in Hf; try lia.
  - reflexivity.
  - cbn [join parse_list]. rewrite <- app_assoc. destruct (Hl a) as [Hs Hb]; [left|].
    rewrite endOfList_starts by done. rewrite Hb. cbn [mbind result_bind foldl].
    apply Htail; [|lia]. intros b Hb'. apply Hl. by right.
Qed.

Lemma length_join {A} (enc : A -> str) l : (forall a, starts_ok (enc a)) -> (length l <= length (join enc l))%nat.
Proof.
  intros Hs. assert (forall a, 1 <= length (enc a))%nat as H1.
  { intros a. specialize (Hs a). destruct (enc a); [done|cbn; lia]. }
  destruct l as [|a l]; cbn [join length]; [lia|]. rewrite length_app. specialize (H1 a) as Ha.
  enough (length l <= length (concat (map (fun b => $"," ++ enc b) l)))%nat by lia.
  clear a Ha. induction l as [|b l IH]; cbn [map concat length]; [lia|]. rewrite !length_app.
  change (length ($",")) with 1%nat. lia.
Qed.

Lemma foldl_set_iter (X : gset str) : foldl (fun res x => {[x]} ∪ res) ∅ (set_iter X) = X.
Proof.
  enough (forall l (Y : gset str), foldl (fun res x => {[x]} ∪ res) Y l = list_to_set l ∪ Y) as H.
  { by rewrite H, (right_id_L ∅ (∪)), list_to_set_iter. }
  induction l as [|x l IH]; intros Y; cbn; [by rewrite (left_id_L ∅ (∪))|]. rewrite IH. set_solver.
Qed.

Lemma foldl_snoc {A} (l : list A) : forall acc, foldl (fun acc x => acc ++ [x]) acc l = acc ++ l.
Proof. induction l as [|x l IH]; intros acc; cbn; [by rewrite app_nil_r|]. by rewrite IH, <- app_assoc. Qed.

(** A derivation the text form can carry: no NUL in any string, and the paths
    absolute. *)
Definition path_ok (p : str) : Prop := no_nul p /\ is_abs p = true.
Record drv_ok (drv : Derivation) : Prop := {
  ok_outputs : forall id o, outputs drv !! id = Some o ->
    no_nul id /\ path_ok (out_path o) /\ no_nul (out_hashAlgo o) /\ no_nul (out_hash o);
  ok_inputDrvs : forall p outs, inputDrvs drv !! p = Some outs -> path_ok p /\ forall x, x ∈ outs -> no_nul x;
  ok_inputSrcs : forall p, p ∈ inputSrcs drv -> path_ok p;
  ok_platform : no_nul (platform drv);
  ok_builder : no_nul (builder drv);
  ok_args : Forall no_nul (args drv);
  ok_env : forall n v, env drv !! n = Some v -> no_nul n /\ no_nul v }.

(** Read the next expected token and the string after it. *)
Ltac read_next :=
  repeat first
    [ rewrite expect_app; cbn [mbind result_bind]
    | rewrite parsePath_quoted by tauto; cbn [mbind result_bind]
    | rewrite parseString_quoted by tauto; cbn [mbind result_bind] ].

Lemma parse_output_enc id o acc r :
  no_nul id -> path_ok (out_path o) -> no_nul (out_hashAlgo o) -> no_nul (out_hash o) ->
  parse_output acc (enc_output (id, o) ++ r) = Ok (<[id := o]> acc, r).
Proof.
  intros H1 [H2 H2'] H3 H4. unfold parse_output, enc_output. cbn [fst snd]. rewrite <- !app_assoc.
  read_next. by destruct o.
Qed.

Lemma parseStrings_enc (X : gset str) arePaths r :
  (forall x, x ∈ X -> no_nul x /\ (arePaths = true -> is_abs x = true)) ->
  parseStrings (join quoted (set_iter X) ++ $"]" ++ r) arePaths = Ok (X, r).
Proof.
  intros HX. unfold parseStrings.
  rewrite (parse_list_join _ quoted (fun res x => {[x]} ∪ res)).
  - by rewrite foldl_set_iter.
  - intros x Hx%elem_of_set_iter. split; [done|]. intros acc r'. destruct (HX x Hx) as [Hn Ha].
    destruct arePaths; by read_next.
  - rewrite length_app. pose proof (length_join quoted (set_iter X) ltac:(done)). lia.
Qed.

Lemma parse_inputDrv_enc p outs acc r :
  path_ok p -> (forall x, x ∈ outs -> no_nul x) ->
  parse_inputDrv acc (enc_inputDrv (p, outs) ++ r) = Ok (<[p := outs]> acc, r).
Proof.
  intros [H1 H1'] H2. unfold parse_inputDrv, enc_inputDrv, enc_list. cbn [fst snd]. rewrite <- !app_assoc.
  read_next. change ($"," ++ $"[" ++ ?x) with ($",[" ++ x). read_next.
  rewrite parseStrings_enc by (intros x Hx; split; [auto|done]). cbn [mbind result_bind]. by read_next.
Qed.

Lemma parse_env_enc n v acc r :
  no_nul n -> no_nul v -> parse_env acc (enc_env (n, v) ++ r) = Ok (<[n := v]> acc, r).
Proof.
  intros H1 H2. unfold parse_env, enc_env. cbn [fst snd]. rewrite <- !app_assoc. by read_next.
Qed.

Lemma enc_starts_ok :
  (forall s, starts_ok (quoted s)) /\ (forall i, starts_ok (enc_output i)) /\
  (forall i, starts_ok (enc_inputDrv i)) /\ (forall i, starts_ok (enc_env i)).
Proof. done. Qed.

Lemma parse_enc_drv drv : drv_ok drv -> parseDerivation (enc_drv drv) = Ok drv.
Proof.
  intros [Ho Hi Hs Hp Hb Ha He]. unfold parseDerivation. set (fuel := S (length (enc_drv drv))).
  assert (Hfuel : (length (map_iter (outputs drv)) < fuel /\ length (map_iter (inputDrvs drv)) < fuel /\
    length (args drv) < fuel /\ length (map_iter (env drv)) < fuel)%nat).
  { unfold fuel, enc_drv, enc_list. rewrite !length_app. destruct enc_starts_ok as (S1 & S2 & S3 & S4).
    pose proof (length_join enc_output (map_iter (outputs drv)) S2).
    pose proof (length_join enc_inputDrv (map_iter (inputDrvs drv)) S3).
    pose proof (length_join quoted (args drv) S1).
    pose proof (length_join enc_env (map_iter (env drv)) S4). lia. }
  destruct Hfuel as (F1 & F2 & F3 & F4). clearbody fuel. unfold enc_drv, enc_list. rewrite <- !app_assoc.
  read_next. rewrite (parse_list_join _ enc_output (fun acc i => <[i.1 := i.2]> acc)) by
    (done || (intros [id o] Hin%elem_of_map_iter; split; [done|]; intros; destruct (Ho id o Hin) as (?&?&?&?); by apply parse_output_enc)).
  cbn [mbind result_bind]. read_next.
  rewrite (parse_list_join _ enc_inputDrv (fun acc i => <[i.1 := i.2]> acc)) by
    (done || (intros [p outs] Hin%elem_of_map_iter; split; [done|]; intros; destruct (Hi p outs Hin); by apply parse_inputDrv_enc)).
  cbn [mbind result_bind]. change ($"," ++ $"[" ++ ?x) with ($",[" ++ x). read_next.
  rewrite parseStrings_enc by (intros x Hx; destruct (Hs x Hx); done).
  cbn [mbind result_bind]. read_next. change ($"," ++ $"[" ++ ?x) with ($",[" ++ x). read_next.
  rewrite (parse_list_join _ quoted (fun acc x => acc ++ [x])).
  2:{ intros x Hx. split; [done|]. intros acc r. rewrite Forall_forall in Ha. specialize (Ha x Hx).
      unfold parse_arg. by read_next. }
  2:{ done. }
  cbn [mbind result_bind]. read_next.
  rewrite (parse_list_join _ enc_env (fun acc i => <[i.1 := i.2]> acc)) by
    (done || (intros [n v] Hin%elem_of_map_iter; split; [done|]; intros; destruct (He n v Hin); by apply parse_env_enc)).
  cbn [mbind result_bind]. rewrite <- (app_nil_r ($")")). read_next.
  rewrite !foldl_map_iter, foldl_snoc. by destruct drv.
Qed.

(** C13: the text form of derivations round-trips: parsing what [unparseDerivation]
    prints gives the derivation back, for every derivation without NUL characters
    whose paths are absolute; in particular the text determines the derivation. *)
Theorem parse_unparse_derivation drv :
  drv_ok drv -> parseDerivation (unparseDerivation drv) = Ok drv.
Proof. intros H. rewrite unparseDerivation_enc. by apply parse_enc_drv. Qed.

(** A NUL character ends a string in the text form: what follows it is lost,
    so two derivations that differ only there have the same text and hash. *)
Theorem printString_truncates_at_nul s t res :
  no_nul s -> printString res (s ++ NUL :: t) = printString res s.
Proof.
  intros Hs. unfold printString. f_equal. f_equal. f_equal.
  induction Hs as [|c s Hc Hs IH]; cbn [app printString_loop]; [by rewrite char_eqb_refl|].
  by rewrite Hc, IH.
Qed.

(** * Hashes modulo fixed outputs *)

Section ModuloTheory.
Context `{HA : HashAlgo}.
Context (isValidPath : str -> bool) (readFile : str -> result str).

(** The derivation stored at a path. *)
Definition drv_at (p : str) : result Derivation :=
  _ ← assert_ (isValidPath p);
  contents ← readFile p;
  parseDerivation contents.

(** The definition without the memo table. *)
Definition mask_input (rec : Derivation -> result Hash) (inputs2 : gmap str (gset str))
    (i : str * gset str) : result (gmap str (gset str)) :=
  drv2 ← drv_at i.1;
  h ← rec drv2;
  Ok (<[printHash h := i.2]> inputs2).
Fixpoint hash_modulo (fuel : nat) (drv : Derivation) : result Hash :=
  match fuel with
  | O => NoFuel
  | S fuel =>
      if isFixedOutputDrv drv then fixed_hash drv
      else
        inputs2 ← foldM (mask_input (hash_modulo fuel)) ∅ (map_iter (inputDrvs drv));
        hashString htSHA256 (unparseDerivation (with_inputDrvs drv inputs2))
  end.

(** The entries of the table that are in use are hashes of what is stored. *)
Definition memo_ok (memo : gmap str Hash) : Prop :=
  forall p h, memo !! p = Some h -> type h <> htUnknown ->
    exists drv fuel, drv_at p = Ok drv /\ hash_modulo fuel drv = Ok h.

Lemma foldM_mono {A B} (f g : B -> A -> result B) b l b' :
  (forall b a b', a ∈ l -> f b a = Ok b' -> g b a = Ok b') -> foldM f b l = Ok b' -> foldM g b l = Ok b'.
Proof.
  revert b. induction l as [|a l IH]; intros b Hfg; cbn [foldM]; [done|].
  intros H. apply bind_Ok in H as (b1 & H1 & H2). rewrite (Hfg b a b1) by (left || done).
  cbn [mbind result_bind]. apply IH; [|done]. intros. apply Hfg; [by right|done].
Qed.

Lemma hash_modulo_mono fuel fuel' drv h :
  hash_modulo fuel drv = Ok h -> (fuel <= fuel')%nat -> hash_modulo fuel' drv = Ok h.
Proof.
  revert fuel' drv h. induction fuel as [|fuel IH]; intros [|fuel'] drv h H Hle; try done; [lia|].
  cbn [hash_modulo] in *. destruct (isFixedOutputDrv drv); [done|].
  apply bind_Ok in H as (m & Hm & H). apply bind_Ok. exists m. split; [|done].
  eapply foldM_mono; [|exact Hm]. intros m1 [p outs] m2 _ E. unfold mask_input in *.
  apply bind_Ok in E as (d & Hd & E). apply bind_Ok in E as (hd & Hh & E).
  rewrite Hd. cbn [mbind result_bind]. rewrite (IH fuel' d hd Hh) by lia. done.
Qed.

Lemma hash_modulo_det fuel1 fuel2 drv h1 h2 :
  hash_modulo fuel1 drv = Ok h1 -> hash_modulo fuel2 drv = Ok h2 -> h1 = h2.
Proof.
  intros H1 H2. apply (hash_modulo_mono _ (fuel1 + fuel2)) in H1, H2; [congruence|lia|lia].
Qed.

Lemma hashString_type ht s h : hashString ht s = Ok h -> type h = ht.
Proof.
  unfold hashString, Hash_new. destruct (hashTypeSize ht); [|done]. intros H.
  apply bind_Ok in H as (h0 & H0 & H). apply bind_Ok in H0 as (? & _ & [= <-]). by injection H as <-.
Qed.

Lemma hash_modulo_type fuel drv h : hash_modulo fuel drv = Ok h -> type h = htSHA256.
Proof.
  destruct fuel as [|fuel]; cbn [hash_modulo]; [done|]. destruct (isFixedOutputDrv drv).
  - unfold fixed_hash. destruct (map_iter (outputs drv)) as [|[id o] l]; [done|]. apply hashString_type.
  - intros H. apply bind_Ok in H as (m & _ & H). by apply hashString_type in H.
Qed.

(** The memo table never changes a result. *)
Lemma hashDerivationModulo_memo fuel drv h memo :
  memo_ok memo -> hash_modulo fuel drv = Ok h ->
  exists memo', hashDerivationModulo isValidPath readFile fuel drv memo = Ok (h, memo') /\ memo_ok memo'.
Proof.
  revert drv h memo. induction fuel as [|fuel IH]; intros drv h memo Hmemo H; [done|].
  cbn [hash_modulo hashDerivationModulo] in *. destruct (isFixedOutputDrv drv).
  { rewrite H. cbn [mbind result_bind]. by exists memo. }
  apply bind_Ok in H as (m & Hm & H).
  match goal with |- context [foldM ?f (∅, memo) _] => set (step := f) end.
  assert (Hfold : forall l m0 m memo, memo_ok memo ->
    foldM (mask_input (hash_modulo fuel)) m0 l = Ok m ->
    exists memo', foldM step (m0, memo) l = Ok (m, memo') /\ memo_ok memo').
  { clear memo Hmemo m Hm H. induction l as [|[p outs] l IHl]; intros m0 m memo Hmemo Hm; cbn [foldM] in *.
    { injection Hm as <-. by exists memo. }
    apply bind_Ok in Hm as (m1 & H1 & Hm). unfold mask_input in H1. cbn [fst snd] in H1.
    apply bind_Ok in H1 as (d & Hd & H1). apply bind_Ok in H1 as (h1 & Hh1 & [= <-]).
    enough (exists memo1, step (m0, memo) (p, outs) = Ok (<[printHash h1 := outs]> m0, memo1) /\ memo_ok memo1)
      as (memo1 & E & Hok1).
    { rewrite E. cbn [mbind result_bind]. by apply IHl. }
    unfold step. set (h0 := default Hash_default (memo !! p)).
    assert (memo_ok (<[p := h0]> memo)) as Hmemo1.
    { intros q hq Hq Ht. destruct (decide (p = q)) as [<-|Hne]; [|rewrite lookup_insert_ne in Hq by done; eauto].
      rewrite lookup_insert_eq in Hq. injection Hq as <-. unfold h0 in *.
      destruct (memo !! p) as [hp|] eqn:Ep; [by apply (Hmemo p)|done]. }
    destruct (bool_decide (type h0 = htUnknown)) eqn:Et; reflect.
    - destruct (IH d h1 (<[p := h0]> memo) Hmemo1 Hh1) as (memo2 & E2 & Hok2).
      exists (<[p := h1]> memo2). unfold drv_at in Hd. apply bind_Ok in Hd as ([] & Ha & Hd).
      apply bind_Ok in Hd as (c & Hc & Hd). rewrite Ha. cbn [mbind result_bind]. rewrite Hc.
      cbn [mbind result_bind]. rewrite Hd. cbn [mbind result_bind]. rewrite E2. cbn [mbind result_bind].
      split; [done|]. intros q hq Hq Ht. destruct (decide (p = q)) as [<-|Hne].
      + rewrite lookup_insert_eq in Hq. injection Hq as <-. exists d, fuel. split; [|done].
        unfold drv_at. rewrite Ha. cbn [mbind result_bind]. rewrite Hc. done.
      + rewrite lookup_insert_ne in Hq by done. by apply (Hok2 q).
    - exists (<[p := h0]> memo). split; [|done]. cbn [mbind result_bind].
      destruct (Hmemo1 p h0) as (d' & f & Hd' & Hf); [apply lookup_insert_eq|done|].
      rewrite Hd in Hd'. injection Hd' as <-. by rewrite (hash_modulo_det _ _ _ _ _ Hf Hh1). }
  destruct (Hfold _ _ _ memo Hmemo Hm) as (memo' & E & Hok). exists memo'.
  rewrite E. cbn [mbind result_bind]. rewrite H. done.
Qed.

(** Every input is a stored derivation, and the inputs of inputs come before it in
    some order: the store is closed and acyclic. *)
Definition inputs_below (P : str -> Prop) (rank : str -> nat) (n : nat) (drv : Derivation) : Prop :=
  forall p outs, inputDrvs drv !! p = Some outs -> P p /\ (rank p < n)%nat.
Definition acyclic (P : str -> Prop) (rank : str -> nat) : Prop :=
  forall p, P p -> exists drv, drv_at p = Ok drv /\ inputs_below P rank (rank p) drv.

Lemma hashString_known ht n s : hashTypeSize ht = Some n -> exists h, hashString ht s = Ok h.
Proof. intros Hn. unfold hashString. rewrite (Hash_new_known _ _ Hn). by eexists. Qed.

Lemma fixed_hash_ok drv : isFixedOutputDrv drv = true -> exists h, fixed_hash drv = Ok h.
Proof.
  unfold isFixedOutputDrv, fixed_hash. destruct (map_iter (outputs drv)) as [|[id o] l]; [done|].
  intros _. by apply (hashString_known htSHA256 32).
Qed.

Lemma mask_input_ok rec m p outs d h :
  drv_at p = Ok d -> rec d = Ok h -> mask_input rec m (p, outs) = Ok (<[printHash h := outs]> m).
Proof. intros Hd Hh. unfold mask_input. cbn [fst snd]. rewrite Hd. cbn [mbind result_bind]. by rewrite Hh. Qed.

Lemma hash_modulo_total P rank n : acyclic P rank -> forall drv,
  inputs_below P rank n drv -> exists h, hash_modulo (S n) drv = Ok h.
Proof.
  intros Hac. induction n as [n IH] using (well_founded_induction lt_wf). intros drv Hdrv.
  cbn [hash_modulo]. destruct (isFixedOutputDrv drv) eqn:Hfix; [by apply fixed_hash_ok|].
  enough (exists m, foldM (mask_input (hash_modulo n)) ∅ (map_iter (inputDrvs drv)) = Ok m) as (m & ->).
  { cbn [mbind result_bind]. by apply (hashString_known htSHA256 32). }
  assert (forall p outs, (p, outs) ∈ map_iter (inputDrvs drv) -> P p /\ (rank p < n)%nat) as Hl.
  { intros p outs Hin%elem_of_map_iter. by apply (Hdrv p outs). }
  revert Hl. generalize (map_iter (inputDrvs drv)) as l. generalize (∅ : gmap str (gset str)) as m0.
  intros m0 l. revert m0. induction l as [|[p outs] l IHl]; intros m0 Hl; cbn [foldM]; [by eexists|].
  destruct (Hl p outs) as [HP Hr]; [left|]. destruct (Hac p HP) as (d & Hd & Hbelow).
  destruct (IH (rank p) Hr d Hbelow) as (h & Hh). apply (hash_modulo_mono _ n) in Hh; [|lia].
  rewrite (mask_input_ok _ _ _ _ _ _ Hd Hh). cbn [mbind result_bind].
  apply IHl. intros. apply (Hl p0 outs0). by right.
Qed.

(** C28: on a closed, acyclic store [hashDerivationModulo] returns a SHA-256 hash
    for every derivation over it (the recursion is no deeper than the dependency
    graph), and the memo table, once its entries are right, neither changes the
    result nor acquires a wrong entry. *)
Theorem hashDerivationModulo_total P rank n drv memo :
  acyclic P rank -> inputs_below P rank n drv -> memo_ok memo ->
  exists h memo', hashDerivationModulo isValidPath readFile (S n) drv memo = Ok (h, memo') /\
    hash_modulo (S n) drv = Ok h /\ type h = htSHA256 /\ memo_ok memo'.
Proof.
  intros Hac Hdrv Hmemo. destruct (hash_modulo_total P rank n Hac drv Hdrv) as (h & Hh).
  destruct (hashDerivationModulo_memo _ _ _ memo Hmemo Hh) as (memo' & E & Hok).
  exists h, memo'. split_and!; [done|done|by eapply hash_modulo_type|done].
Qed.

(** ** Replacing fixed-output inputs *)

(** The hash that stands for an input. *)
Definition input_hash (fuel : nat) (p : str) : result Hash := drv_at p ≫= hash_modulo fuel.

Lemma mask_inputs fuel (mask : str -> str) l : forall m,
  (forall p outs, (p, outs) ∈ l -> exists h, input_hash fuel p = Ok h /\ mask p = printHash h) ->
  foldM (mask_input (hash_modulo fuel)) m l = Ok (foldl (fun acc i => <[i.1 := i.2]> acc) m (prod_map mask id <$> l)).
Proof.
  induction l as [|[p outs] l IH]; intros m Hl; [done|].
  destruct (Hl p outs) as (h & Hh & Hm); [left|]. cbn [foldM].
  unfold input_hash in Hh. apply bind_Ok in Hh as (d & Hd & Hh).
  rewrite (mask_input_ok _ _ _ _ _ _ Hd Hh). cbn [mbind result_bind]. rewrite IH by (intros; apply (Hl p0 outs0); by right).
  cbn. by rewrite Hm.
Qed.

Lemma foldl_insert_perm (l1 l2 : list (str * gset str)) :
  NoDup l1.*1 -> l1 ≡ₚ l2 ->
  foldl (fun acc i => <[i.1 := i.2]> acc) (∅ : gmap str (gset str)) l1 = foldl (fun acc i => <[i.1 := i.2]> acc) ∅ l2.
Proof.
  intros Hnd Hp. rewrite !foldl_insert, !(right_id_L ∅ (∪)).
  - by apply list_to_map_proper.
  - by rewrite <- Hp.
  - done.
Qed.

(** A fixed-output input may be exchanged for another derivation with the same
    outputs (say, a different download location) without changing the hash modulo
    of its users, provided the hashes of the inputs are pairwise different; so
    the users' output paths do not change. *)
Theorem fixed_output_replacement fuel drv p p' outs d d' memo :
  isFixedOutputDrv drv = false ->
  inputDrvs drv !! p = Some outs -> inputDrvs drv !! p' = None ->
  drv_at p = Ok d -> drv_at p' = Ok d' ->
  isFixedOutputDrv d = true -> isFixedOutputDrv d' = true -> outputs d = outputs d' ->
  (forall q o, inputDrvs drv !! q = Some o -> exists h, input_hash (S fuel) q = Ok h) ->
  (forall q1 q2 o1 o2 h1 h2, inputDrvs drv !! q1 = Some o1 -> inputDrvs drv !! q2 = Some o2 ->
     input_hash (S fuel) q1 = Ok h1 -> input_hash (S fuel) q2 = Ok h2 -> printHash h1 = printHash h2 -> q1 = q2) ->
  memo_ok memo ->
  exists h memo1 memo2,
    hashDerivationModulo isValidPath readFile (S (S fuel)) drv memo = Ok (h, memo1) /\
    hashDerivationModulo isValidPath readFile (S (S fuel))
      (with_inputDrvs drv (<[p' := outs]> (delete p (inputDrvs drv)))) memo = Ok (h, memo2).
Proof.
  intros Hfix Hp Hp' Hd Hd' Hf Hf' Ho Hall Hinj Hmemo.
  set (drv' := with_inputDrvs drv (<[p' := outs]> (delete p (inputDrvs drv)))).
  assert (input_hash (S fuel) p' = input_hash (S fuel) p) as Hsame.
  { unfold input_hash. rewrite Hd, Hd'. cbn [mbind result_bind hash_modulo]. rewrite Hf, Hf'.
    unfold fixed_hash. by rewrite Ho. }
  set (mask q := match input_hash (S fuel) q with Ok h => printHash h | _ => [] end).
  assert (forall q o, inputDrvs drv !! q = Some o -> exists h, input_hash (S fuel) q = Ok h /\ mask q = printHash h) as Hmask.
  { intros q o Hq. destruct (Hall q o Hq) as (h & Hh). exists h. unfold mask. by rewrite Hh. }
  set (rest := map_to_list (delete p (inputDrvs drv))).
  assert (map_iter (inputDrvs drv) ≡ₚ (p, outs) :: rest) as P1.
  { rewrite map_iter_perm. rewrite <- (insert_delete_id (inputDrvs drv) p outs Hp) at 1.
    apply map_to_list_insert, lookup_delete_eq. }
  assert (map_iter (inputDrvs drv') ≡ₚ (p', outs) :: rest) as P2.
  { rewrite map_iter_perm. apply map_to_list_insert. rewrite lookup_delete_ne; [done|]. intros ->. congruence. }
  set (l1 := prod_map mask id <$> map_iter (inputDrvs drv)). set (l2 := prod_map mask id <$> map_iter (inputDrvs drv')).
  assert (l1 ≡ₚ l2) as Hperm.
  { unfold l1, l2. rewrite P1, P2. cbn. unfold mask at 1 3. by rewrite Hsame. }
  assert (NoDup l1.*1) as Hnd.
  { unfold l1. rewrite <- list_fmap_compose. change (fst ∘ prod_map mask id) with (mask ∘ @fst str (gset str)).
    rewrite list_fmap_compose. apply NoDup_fmap_2_strong; [|apply NoDup_map_iter].
    intros q1 q2 Hq1 Hq2 E. apply list_elem_of_fmap in Hq1 as ([? o1] & -> & Hq1%elem_of_map_iter).
    apply list_elem_of_fmap in Hq2 as ([? o2] & -> & Hq2%elem_of_map_iter). cbn in *.
    destruct (Hmask _ _ Hq1) as (h1 & Hh1 & M1), (Hmask _ _ Hq2) as (h2 & Hh2 & M2).
    eapply Hinj; [exact Hq1|exact Hq2|exact Hh1|exact Hh2|congruence]. }
  set (m := foldl (fun acc i => <[i.1 := i.2]> acc) (∅ : gmap str (gset str)) l1).
  destruct (hashString_known htSHA256 32 (unparseDerivation (with_inputDrvs drv m)) eq_refl) as (h & Hh).
  assert (hash_modulo (S (S fuel)) drv = Ok h) as E1.
  { cbn [hash_modulo]. rewrite Hfix. fold (hash_modulo (S fuel)). rewrite (mask_inputs (S fuel) mask).
    - exact Hh.
    - intros q o Hq%elem_of_map_iter. by apply Hmask with (o := o). }
  assert (hash_modulo (S (S fuel)) drv' = Ok h) as E2.
  { cbn [hash_modulo]. change (isFixedOutputDrv drv') with (isFixedOutputDrv drv). rewrite Hfix.
    fold (hash_modulo (S fuel)). rewrite (mask_inputs (S fuel) mask).
    - cbn [mbind result_bind]. fold l2. rewrite <- (foldl_insert_perm l1 l2 Hnd Hperm). exact Hh.
    - intros q o Hq. rewrite P2 in Hq. apply elem_of_cons in Hq as [[= -> ->]|Hq].
      + destruct (Hmask p outs Hp) as (hp & Hhp & Mp). exists hp. rewrite Hsame. unfold mask in *. by rewrite Hsame.
      + unfold rest in Hq. apply elem_of_map_to_list in Hq. apply lookup_delete_Some in Hq as [_ Hq].
        by apply Hmask with (o := o). }
  destruct (hashDerivationModulo_memo _ _ _ memo Hmemo E1) as (memo1 & H1 & _).
  destruct (hashDerivationModulo_memo _ _ _ memo Hmemo E2) as (memo2 & H2 & _).
  by exists h, memo1, memo2.
Qed.
End ModuloTheory.

(** * Selected outputs *)

(** A derivation path with selected outputs round-trips: for a path without
    exclamation mark and output names that are not empty and contain no comma,
    [parseDrvPathWithOutputs] gives back what [makeDrvPathWithOutputs] combined. *)
Theorem drvPathWithOutputs_roundtrip drvPath outs :
  Forall (fun c => char_eqb c "!"%char = false) drvPath ->
  (forall o, o ∈ outs -> token [","%char] o) ->
  parseDrvPathWithOutputs (makeDrvPathWithOutputs drvPath outs) = (drvPath, outs).
Proof.
  intros Hp Ho. unfold makeDrvPathWithOutputs, parseDrvPathWithOutputs. case_decide as He.
  - subst. by rewrite str_find_none.
  - change ($"!" ++ ?x) with ("!"%char :: x). rewrite str_find_app by done.
    rewrite take_app_length, drop_app_ge by lia. replace (S _ - _)%nat with 1%nat by lia. cbn [drop]. rewrite drop_0.
    assert (tokenizeString (concatStringsSep ($",") (set_iter outs)) ($",") = set_iter outs) as ->.
    { apply (tokenize_concat ","%char), Forall_forall. intros o Hin%elem_of_set_iter. auto. }
    by rewrite list_to_set_iter.
Qed.

(** ** Witnesses *)

Definition sample_fixed (url : str) : Derivation :=
  mkDerivation {[ $"out" := mkDerivationOutput ($"/nix/store/src") ($"sha256") ($"abc") ]} ∅ ∅
    ($"builtin") ($"/bin/fetch") [] {[ $"url" := url ]}.
Definition sample_drv : Derivation :=
  mkDerivation {[ $"out" := mkDerivationOutput ($"/nix/store/o") [] [] ]}
    {[ $"/p.drv" := {[ $"out" ]} ]} {[ $"/src" ]} ($"i686-linux") ($"/bin/sh") [ $"-e"; $"x" ] {[ $"name" := $"hello" ]}.

Ltac solve_drv_ok :=
  split; cbn;
  [ intros ?? [<- <-]%lookup_singleton_Some; repeat split; repeat (constructor; [reflexivity|]); constructor
  | intros ??; try (intros [<- <-]%lookup_singleton_Some; split;
      [repeat split; repeat (constructor; [reflexivity|]); constructor
      |intros ? ->%elem_of_singleton; repeat (constructor; [reflexivity|]); constructor])
  | intros ?; try (intros ->%elem_of_singleton; repeat split; repeat (constructor; [reflexivity|]); constructor)
  | repeat (constructor; [reflexivity|]); constructor
  | repeat (constructor; [reflexivity|]); constructor
  | repeat (constructor; [repeat (constructor; [reflexivity|]); constructor|]); constructor
  | intros ?? [<- <-]%lookup_singleton_Some; split; repeat (constructor; [reflexivity|]); constructor ].

Lemma sample_drv_ok : drv_ok sample_drv.
Proof. solve_drv_ok. Qed.

Lemma sample_fixed_ok url : no_nul url -> drv_ok (sample_fixed url).
Proof.
  intros Hu. split; cbn; try done.
  - intros ?? [<- <-]%lookup_singleton_Some; repeat split; repeat (constructor; [reflexivity|]); constructor.
  - repeat (constructor; [reflexivity|]); constructor.
  - repeat (constructor; [reflexivity|]); constructor.
  - intros ?? [<- <-]%lookup_singleton_Some. split; [|done]. repeat (constructor; [reflexivity|]); constructor.
Qed.

Lemma parse_unparse_derivation_witness :
  parseDerivation (unparseDerivation sample_drv) = Ok sample_drv.
Proof. exact (parse_unparse_derivation sample_drv sample_drv_ok). Defined.

Lemma printString_truncates_at_nul_witness :
  printString [] ($"ab" ++ NUL :: $"cd") = printString [] ($"ab").
Proof. apply printString_truncates_at_nul. repeat (constructor; [reflexivity|]); constructor. Defined.

(** A store with two download derivations that differ only in the location. *)
Definition sample_read (p : str) : result str :=
  Ok (unparseDerivation (sample_fixed (if str_eqb p ($"/p.drv") then $"http" else $"ftp"))).

Lemma sample_drv_at p :
  drv_at (fun _ => true) sample_read p = Ok (sample_fixed (if str_eqb p ($"/p.drv") then $"http" else $"ftp")).
Proof.
  unfold drv_at, sample_read. cbn [assert_ mbind result_bind]. rewrite unparseDerivation_enc.
  apply parse_enc_drv, sample_fixed_ok. destruct (str_eqb _ _); repeat (constructor; [reflexivity|]); constructor.
Qed.

Lemma hashDerivationModulo_total_witness :
  exists h memo', hashDerivationModulo (HA := checksum_algo) (fun _ => true) sample_read 2 sample_drv ∅ = Ok (h, memo') /\
    type h = htSHA256.
Proof.
  destruct (hashDerivationModulo_total (HA := checksum_algo) (fun _ => true) sample_read
    (fun _ => True) (fun _ => 0%nat) 1 sample_drv ∅) as (h & memo' & E & _ & Ht & _).
  - intros p _. eexists. split; [apply sample_drv_at|]. intros q o Hq. cbn in Hq. by rewrite lookup_empty in Hq.
  - intros p outs _. split; [done|lia].
  - intros p h Hp. by rewrite lookup_empty in Hp.
  - exists h, memo'. split; [exact E|exact Ht].
Defined.

Lemma fixed_output_replacement_witness :
  exists h memo1 memo2,
    hashDerivationModulo (HA := checksum_algo) (fun _ => true) sample_read 2 sample_drv ∅ = Ok (h, memo1) /\
    hashDerivationModulo (HA := checksum_algo) (fun _ => true) sample_read 2
      (with_inputDrvs sample_drv (<[$"/q.drv" := {[ $"out" ]}]> (delete ($"/p.drv") (inputDrvs sample_drv)))) ∅ = Ok (h, memo2).
Proof.
  apply (fixed_output_replacement (HA := checksum_algo) (fun _ => true) sample_read 0 sample_drv
    ($"/p.drv") ($"/q.drv") {[ $"out" ]} (sample_fixed ($"http")) (sample_fixed ($"ftp"))).
  - reflexivity.
  - apply lookup_singleton_eq.
  - apply lookup_singleton_ne. discriminate.
  - exact (sample_drv_at ($"/p.drv")).
  - exact (sample_drv_at ($"/q.drv")).
  - reflexivity.
  - reflexivity.
  - reflexivity.
  - intros q o _. unfold input_hash. rewrite sample_drv_at. cbn [mbind result_bind].
    destruct (str_eqb q ($"/p.drv")); eexists; reflexivity.
  - intros q1 q2 o1 o2 h1 h2 H1 H2 _ _ _.
    cbn [inputDrvs sample_drv] in H1, H2. apply lookup_singleton_Some in H1 as [<- _]. apply lookup_singleton_Some in H2 as [<- _]. reflexivity.
  - intros p h Hp. by rewrite lookup_empty in Hp.
Defined.

Lemma drvPathWithOutputs_roundtrip_witness :
  parseDrvPathWithOutputs (makeDrvPathWithOutputs ($"/p.drv") {[ $"out"; $"dev" ]}) = ($"/p.drv", {[ $"out"; $"dev" ]}).
Proof.
  apply drvPathWithOutputs_roundtrip.
  - repeat (constructor; [reflexivity|]); constructor.
  - intros o Ho. apply elem_of_union in Ho as [->%elem_of_singleton| ->%elem_of_singleton];
      (split; [discriminate|repeat (constructor; [reflexivity|]); constructor]).
Defined.
