(* ===== verification/Closure.v ===== *)
(** * Closures and topological sorting (src/src/libstore/misc.cc)

    The functions of misc.cc work on any store: [StoreAPI] has the queries they
    use, and [StoreLaws] what they rely on (a set of valid paths, closed under
    references).  The theorems, for every store that satisfies the laws:
    [computeFSClosure] returns and computes the set of reachable paths;
    [topoSortPaths] returns the paths ordered so that every path comes before the
    paths it refers to, unless there is a cycle, which it reports. *)

From Stdlib Require Import ZArith Lia Ascii Relations.
From stdpp Require Import base strings sorting numbers gmap sets list.
From S2P Require Import Prelude Util Serialise Hash FileSystem Archive References StorePath Derivations.

(** ** The interface *)

(** The queries of [StoreAPI] that are used here; those whose result "is not
    cleared" return what they add. *)
Class StoreAPI (St : Type) : Type := {
  isValidPath : St -> str -> result bool;
  queryReferences : St -> str -> result (gset str);
  queryReferrers : St -> str -> result (gset str);
  queryDerivationOutputs : St -> str -> result (gset str) }.

Class StoreLaws (St : Type) `{StoreAPI St} : Type := {
  store_ok : St -> Prop;
  valid : St -> gset str;
  refs_of : St -> str -> gset str;
  outs_of : St -> str -> gset str;
  isValidPath_law st p : store_ok st -> isValidPath st p = Ok (bool_decide (p ∈ valid st));
  queryReferences_law st p : store_ok st -> p ∈ valid st -> queryReferences st p = Ok (refs_of st p);
  refs_valid st p : store_ok st -> p ∈ valid st -> refs_of st p ⊆ valid st;
  queryReferrers_law st p : store_ok st -> p ∈ valid st ->
    exists R, queryReferrers st p = Ok R /\ forall q, q ∈ R <-> q ∈ valid st /\ p ∈ refs_of st q;
  queryDerivationOutputs_law st p : store_ok st -> p ∈ valid st ->
    queryDerivationOutputs st p = Ok (outs_of st p) }.

(** ** misc.cc *)

Section Misc.
Context {St : Type} `{StoreAPI St}.

(** [computeFSClosure]; the recursion is no deeper than there are paths not yet
    visited. *)
Fixpoint computeFSClosure (fuel : nat) (store : St) (flipDirection includeOutputs : bool)
    (storePath : str) (paths : gset str) : result (gset str) :=
  if decide (storePath ∈ paths) then Ok paths
  else
    match fuel with
    | O => NoFuel
    | S fuel =>
        let paths := {[storePath]} ∪ paths in
        references ← (if flipDirection then queryReferrers store storePath
                      else queryReferences store storePath);
        paths ← (if includeOutputs && isDerivation storePath then
                   outputs ← queryDerivationOutputs store storePath;
                   foldM (fun paths i =>
                     v ← isValidPath store i;
                     if (v : bool) then computeFSClosure fuel store flipDirection true i paths
                     else Ok paths) paths (set_iter outputs)
                 else Ok paths);
        foldM (fun paths i => computeFSClosure fuel store flipDirection includeOutputs i paths)
          paths (set_iter references)
    end.

(** [findOutput]. *)
Fixpoint findOutput_loop (l : list (str * DerivationOutput)) (id : str) : result str :=
  match l with
  | [] => error ($"derivation has no output `" ++ id ++ $"'")
  | (i, o) :: l => if str_eqb i id then Ok (out_path o) else findOutput_loop l id
  end.
Definition findOutput (drv : Derivation) (id : str) : result str :=
  findOutput_loop (map_iter (outputs drv)) id.

(** The state of the search: [visited], [sorted] and [parents]. *)
Record dfs : Type := mkDfs { visited : gset str; sorted : list str; parents : gset str }.

Fixpoint dfsVisit (fuel : nat) (store : St) (paths : gset str) (path : str) (d : dfs) : result dfs :=
  if decide (path ∈ parents d) then
    throw eBuildError ($"cycle detected in the references of `" ++ path ++ $"'")
  else if decide (path ∈ visited d) then Ok d
  else
    match fuel with
    | O => NoFuel
    | S fuel =>
        let d := mkDfs ({[path]} ∪ visited d) (sorted d) ({[path]} ∪ parents d) in
        v ← isValidPath store path;
        references ← (if (v : bool) then queryReferences store path else Ok ∅);
        d ← foldM (fun d i =>
              if negb (str_eqb i path) && bool_decide (i ∈ paths)
              then dfsVisit fuel store paths i d else Ok d) d (set_iter references);
        Ok (mkDfs (visited d) (path :: sorted d) (parents d ∖ {[path]}))
    end.

(** [topoSortPaths]; no recursion visits more paths than there are. *)
Definition topoSortPaths (store : St) (paths : gset str) : result (list str) :=
  d ← foldM (fun d i => dfsVisit (size paths) store paths i d) (mkDfs ∅ [] ∅) (set_iter paths);
  Ok (sorted d).
End Misc.

(** * Closures *)

Section ClosureTheory.
Context {St : Type} `{StoreLaws St}.
Context (st : St) (st_ok : store_ok st) (flip outs : bool).

(** The edges that [computeFSClosure] follows. *)
Definition edge (p q : str) : Prop :=
  p ∈ valid st /\ q ∈ valid st /\
  ((if flip then p ∈ refs_of st q else q ∈ refs_of st p) \/
   (outs = true /\ isDerivation p = true /\ q ∈ outs_of st p)).

Abbreviation reach := (clos_refl_trans str edge).

(** What one call adds. *)
Definition closure_step (p : str) (V V' : gset str) : Prop :=
  V ⊆ V' /\ p ∈ V' /\ (forall x, x ∈ V' -> x ∈ V \/ reach p x) /\
  (forall x y, x ∈ V' -> x ∉ V -> edge x y -> y ∈ V') /\ V' ⊆ valid st ∪ V.

(** What a loop over some successors adds. *)
Definition closure_steps (ps : list str) (V V' : gset str) : Prop :=
  V ⊆ V' /\ (forall p, p ∈ ps -> p ∈ V') /\ (forall x, x ∈ V' -> x ∈ V \/ exists p, p ∈ ps /\ reach p x) /\
  (forall x y, x ∈ V' -> x ∉ V -> edge x y -> y ∈ V') /\ V' ⊆ valid st ∪ V.

Lemma closure_loop (f : str -> gset str -> result (gset str)) ps : forall V,
  (forall p V', p ∈ ps -> V ⊆ V' -> exists V'', f p V' = Ok V'' /\ closure_step p V' V'') ->
  exists V', foldM (fun V p => f p V) V ps = Ok V' /\ closure_steps ps V V'.
Proof.
  induction ps as [|p ps IH]; intros V Hf; cbn [foldM].
  { exists V. split; [done|]. split_and!; set_solver. }
  destruct (Hf p V) as (V1 & E1 & S1 & Hp1 & R1 & C1 & B1); [left|done|].
  rewrite E1. cbn [mbind result_bind].
  destruct (IH V1) as (V2 & E2 & S2 & Hp2 & R2 & C2 & B2).
  { intros q V' Hq HV'. apply Hf; [by right|]. set_solver. }
  exists V2. split; [done|]. split_and!.
  - set_solver.
  - intros q [-> |Hq]%elem_of_cons; [set_solver|auto].
  - intros x Hx. destruct (R2 x Hx) as [Hx1|(q & Hq & Hr)].
    + destruct (R1 x Hx1); [by left|]. right. exists p. split; [left|done].
    + right. exists q. split; [by right|done].
  - intros x y Hx HxV Hxy. destruct (decide (x ∈ V1)) as [Hx1|Hx1]; [|by apply (C2 x)].
    apply S2. by apply (C1 x).
  - set_solver.
Qed.

Lemma closure_filter (P : str -> bool) (f : str -> gset str -> result (gset str)) ps V :
  foldM (fun V p => v ← Ok (P p); if (v : bool) then f p V else Ok V) V ps =
  foldM (fun V p => f p V) V (filter (fun p => P p = true) ps).
Proof.
  revert V. induction ps as [|p ps IH]; intros V; cbn [foldM]; [done|]. rewrite filter_cons.
  cbn [mbind result_bind]. destruct (decide (P p = true)) as [E|E];
    [rewrite E|apply not_true_is_false in E; rewrite E].
  - cbn [foldM]. destruct (f p V); [apply IH|done..].
  - apply IH.
Qed.

Lemma foldM_ext {A B} (f g : B -> A -> result B) b l :
  (forall b a, a ∈ l -> f b a = g b a) -> foldM f b l = foldM g b l.
Proof.
  revert b. induction l as [|a l IH]; intros b Hfg; cbn [foldM]; [done|].
  rewrite Hfg by left. destruct (g b a); cbn [mbind result_bind]; [|done..]. apply IH. intros. apply Hfg. by right.
Qed.

Lemma unvisited_size (p : str) (V V' : gset str) (n : nat) :
  p ∈ valid st -> p ∉ V -> {[p]} ∪ V ⊆ V' -> (size (valid st ∖ V) <= S n)%nat -> (size (valid st ∖ V') <= n)%nat.
Proof.
  intros Hp HpV HV' Hn. assert (valid st ∖ V' ⊂ valid st ∖ V) as Hsub.
  { split; [set_solver|]. intros Hc. apply (not_elem_of_empty (C := gset str) p). set_solver. }
  apply subset_size in Hsub. lia.
Qed.

Lemma computeFSClosure_step fuel : forall p V,
  p ∈ valid st -> (size (valid st ∖ V) <= fuel)%nat ->
  exists V', computeFSClosure fuel st flip outs p V = Ok V' /\ closure_step p V V'.
Proof.
  induction fuel as [|fuel IH]; intros p V Hp Hsz; cbn [computeFSClosure];
    destruct (decide (p ∈ V)) as [HpV|HpV].
  1,3: exists V; split; [done|]; split_and!; set_solver.
  { exfalso. assert (p ∈ valid st ∖ V) as Hx by set_solver.
    apply (size_non_empty_iff (valid st ∖ V)); [set_solver|lia]. }
  set (V1 := {[p]} ∪ V).
  assert (Hrec : forall q V', q ∈ valid st -> V1 ⊆ V' ->
    exists V'', computeFSClosure fuel st flip outs q V' = Ok V'' /\ closure_step q V' V'').
  { intros q V' Hq HV'. apply IH; [done|]. by eapply (unvisited_size p V V'). }
  (* the references *)
  assert (exists R, (if flip then queryReferrers st p else queryReferences st p) = Ok R /\
    forall q, q ∈ R <-> q ∈ valid st /\ (if flip then p ∈ refs_of st q else q ∈ refs_of st p)) as (R & ER & HR).
  { destruct flip; [by apply queryReferrers_law|]. exists (refs_of st p). split; [by apply queryReferences_law|].
    intros q. split; [|tauto]. intros Hq. split; [by eapply refs_valid|done]. }
  rewrite ER. cbn [mbind result_bind].
  (* the outputs *)
  set (O := if outs && isDerivation p then filter (fun q => bool_decide (q ∈ valid st) = true) (set_iter (outs_of st p)) else []).
  assert (HO : forall q, q ∈ O -> edge p q).
  { intros q Hq. unfold O in Hq. destruct outs eqn:Eo, (isDerivation p) eqn:Ed; cbn in Hq; try by apply elem_of_nil in Hq.
    apply list_elem_of_filter in Hq as [Hv Hq%elem_of_set_iter]. reflect. split_and!; [done|done|]. by right. }
  destruct (closure_loop (computeFSClosure fuel st flip outs) O V1) as (V2 & E2 & S2 & Hp2 & R2 & C2 & B2).
  { intros q V' Hq HV'. apply Hrec; [|done]. by destruct (HO q Hq) as (_ & ? & _). }
  assert ((if outs && isDerivation p then
             outputs ← queryDerivationOutputs st p;
             foldM (fun paths i => v ← isValidPath st i;
               if (v : bool) then computeFSClosure fuel st flip true i paths else Ok paths) V1 (set_iter outputs)
           else Ok V1) = Ok V2) as ->.
  { unfold O in E2. destruct (outs && isDerivation p) eqn:Eo; [|done].
    rewrite queryDerivationOutputs_law by done. cbn [mbind result_bind]. rewrite <- E2.
    rewrite <- (closure_filter (fun q => bool_decide (q ∈ valid st))). apply foldM_ext. intros V' q _.
    rewrite isValidPath_law by done. apply andb_true_iff in Eo as [-> _]. done. }
  cbn [mbind result_bind].
  destruct (closure_loop (computeFSClosure fuel st flip outs) (set_iter R) V2) as (V3 & E3 & S3 & Hp3 & R3 & C3 & B3).
  { intros q V' Hq%elem_of_set_iter HV'. apply Hrec; [by apply HR|]. set_solver. }
  exists V3. split; [done|]. split_and!.
  - set_solver.
  - set_solver.
  - intros x Hx. destruct (R3 x Hx) as [Hx2|(q & Hq%elem_of_set_iter & Hr)].
    + destruct (R2 x Hx2) as [Hx1|(q & Hq & Hr)].
      * apply elem_of_union in Hx1 as [->%elem_of_singleton|Hx1]; [right; apply rt_refl|by left].
      * right. eapply rt_trans; [apply rt_step, HO, Hq|done].
    + right. apply HR in Hq as [Hq Hq']. eapply rt_trans; [apply rt_step|done]. split_and!; [done|done|by left].
  - intros x y Hx HxV Hxy. destruct (decide (x ∈ V2)) as [Hx2|Hx2]; [|by apply (C3 x)].
    destruct (decide (x ∈ V1)) as [Hx1|Hx1]; [|apply S3; by apply (C2 x)].
    assert (x = p) as -> by set_solver. destruct Hxy as (Hv & Hy & [He|(Ho & Hd & He)]).
    + apply Hp3, elem_of_set_iter, HR. done.
    + apply S3, Hp2. unfold O. rewrite Ho, Hd. apply list_elem_of_filter. rewrite elem_of_set_iter.
      by rewrite bool_decide_eq_true.
  - set_solver.
Qed.

(** The closure, as the other components use it. *)
Lemma computeFSClosure_spec p :
  p ∈ valid st ->
  exists V, computeFSClosure (size (valid st)) st flip outs p ∅ = Ok V /\ forall x, x ∈ V <-> reach p x.
Proof.
  intros Hp. destruct (computeFSClosure_step (size (valid st)) p ∅ Hp) as (V & E & S & HpV & R & C & B).
  { by rewrite difference_empty_L. }
  exists V. split; [done|]. intros x. split.
  - intros Hx. destruct (R x Hx); [set_solver|done].
  - intros Hr. apply clos_rt_rt1n in Hr. revert HpV. clear E Hp R.
    induction Hr as [|a b c Hab Hbc IH]; [done|]. intros Ha. apply IH. by apply (C a); [|set_solver|].
Qed.

(** C18: [computeFSClosure] returns, for every valid path and every store, and the
    set it computes from nothing is exactly the set of paths reachable from the
    path along references (or referrers, when flipped), and along outputs of
    derivations when these are included. *)
Theorem computeFSClosure_reachable p :
  p ∈ valid st ->
  exists V, computeFSClosure (size (valid st)) st flip outs p ∅ = Ok V /\ forall x, x ∈ V <-> reach p x.
Proof. apply computeFSClosure_spec. Qed.
End ClosureTheory.

(** * Topological sorting *)

Section TopoTheory.
Context {St : Type} `{StoreLaws St}.
Context (st : St) (st_ok : store_ok st) (paths : gset str).

(** The references that the sort looks at. *)
Definition tedge (x y : str) : Prop := x ∈ paths /\ x ∈ valid st /\ y ∈ refs_of st x /\ y <> x /\ y ∈ paths.
Abbreviation treach := (clos_trans str tedge).

(** Every path comes before what it refers to. *)
Definition ordered (l : list str) : Prop :=
  forall l1 x l2, l = l1 ++ x :: l2 -> forall y, tedge x y -> y ∈ l2.

Record dfs_ok (d : dfs) : Prop := {
  ok_visited : visited d ⊆ paths;
  ok_parents : parents d ⊆ visited d;
  ok_nodup : NoDup (sorted d);
  ok_sorted : forall x, x ∈ sorted d <-> x ∈ visited d /\ x ∉ parents d;
  ok_ordered : ordered (sorted d) }.

Lemma ordered_cons x l : (forall y, tedge x y -> y ∈ l) -> ordered l -> ordered (x :: l).
Proof.
  intros Hx Hl [|z l1] y l2 E; injection E as -> ->; [done|]. by apply (Hl l1).
Qed.

(** The outcome of visiting the paths [ps] in a state [d]. *)
Definition visit_post (ps : list str) (d : dfs) (r : result dfs) : Prop :=
  match r with
  | Ok d' => dfs_ok d' /\ visited d ⊆ visited d' /\ parents d' = parents d /\
      forall p, p ∈ ps -> p ∈ visited d' /\ p ∉ parents d
  | Throw e => exn_kind e = eBuildError /\ exists x, treach x x
  | NoFuel => False
  end.

Lemma visit_loop (f : str -> dfs -> result dfs) ps : forall d, dfs_ok d ->
  (forall p d', p ∈ ps -> dfs_ok d' -> visited d ⊆ visited d' -> parents d' = parents d -> visit_post [p] d' (f p d')) ->
  visit_post ps d (foldM (fun d p => f p d) d ps).
Proof.
  induction ps as [|p ps IH]; intros d Hd Hf; cbn [foldM].
  { split_and!; [done|done|done|]. intros p Hp. by apply elem_of_nil in Hp. }
  pose proof (Hf p d ltac:(left) Hd ltac:(done) ltac:(done)) as Hp.
  destruct (f p d) as [d1|e|]; cbn [mbind result_bind]; [|done..].
  destruct Hp as (Hd1 & Hv1 & Hp1 & Hin1).
  assert (visit_post ps d1 (foldM (fun d p => f p d) d1 ps)) as Hps.
  { apply IH; [done|]. intros q d' Hq Hd' Hv' Hp'. apply Hf; [by right|done|set_solver|congruence]. }
  destruct (foldM _ d1 ps) as [d2|e|]; [|done..]. destruct Hps as (Hd2 & Hv2 & Hp2 & Hin2).
  split_and!; [done|set_solver|congruence|]. intros q [-> |Hq]%elem_of_cons.
  - destruct (Hin1 p) as [H1 H2]; [left|]. split; [by apply Hv2|done].
  - destruct (Hin2 q Hq) as [H1 H2]. split; [done|congruence].
Qed.

Lemma foldM_filter_test (P : str -> bool) (f : str -> dfs -> result dfs) ps d :
  foldM (fun d i => if P i then f i d else Ok d) d ps = foldM (fun d i => f i d) d (filter (fun i => P i = true) ps).
Proof. apply (foldM_filter P (fun d i => f i d)). Qed.

Lemma dfsVisit_spec fuel : forall p d,
  dfs_ok d -> p ∈ paths -> (forall q, q ∈ parents d -> treach q p) -> (size (paths ∖ visited d) <= fuel)%nat ->
  visit_post [p] d (dfsVisit fuel st paths p d).
Proof.
  induction fuel as [|fuel IH]; intros p d Hd Hp Hpar Hsz; cbn [dfsVisit];
    (destruct (decide (p ∈ parents d)) as [Hpp|Hpp]; [split; [done|]; exists p; by apply Hpar|]);
    (destruct (decide (p ∈ visited d)) as [Hpv|Hpv];
      [split_and!; [done|done|done|]; intros q ->%list_elem_of_singleton; done|]).
  { apply (size_non_empty_iff (paths ∖ visited d)); [|lia]. intros He. apply (not_elem_of_empty (C := gset str) p).
    rewrite <- He. by apply elem_of_difference. }
  set (d0 := mkDfs ({[p]} ∪ visited d) (sorted d) ({[p]} ∪ parents d)).
  assert (dfs_ok d0) as Hd0.
  { destruct Hd as [H1 H2 H3 H4 H5]. split; cbn; [set_solver|set_solver|done| |done].
    intros x. rewrite H4. split; [|set_solver]. intros [Hx Hx']. split; [set_solver|].
    rewrite not_elem_of_union, not_elem_of_singleton. split; [|done]. by intros ->. }
  rewrite isValidPath_law by done. cbn [mbind result_bind].
  assert (exists R, (if bool_decide (p ∈ valid st) then queryReferences st p else Ok ∅) = Ok R /\
    forall y, tedge p y <-> y ∈ R /\ y <> p /\ y ∈ paths) as (R & -> & HR).
  { case_bool_decide as Hv.
    - exists (refs_of st p). split; [by apply queryReferences_law|]. unfold tedge. naive_solver.
    - exists ∅. split; [done|]. unfold tedge. set_solver. }
  cbn [mbind result_bind].
  rewrite (foldM_filter_test (fun i => negb (str_eqb i p) && bool_decide (i ∈ paths)) (dfsVisit fuel st paths)).
  set (ps := filter _ (set_iter R)).
  assert (Hps : forall y, y ∈ ps <-> tedge p y).
  { intros y. unfold ps. rewrite list_elem_of_filter, elem_of_set_iter, HR, andb_true_iff, negb_true_iff.
    unfold str_eqb. rewrite bool_decide_eq_false, bool_decide_eq_true. tauto. }
  pose proof (visit_loop (dfsVisit fuel st paths) ps d0 Hd0) as Hloop.
  destruct (foldM (fun d i => dfsVisit fuel st paths i d) d0 ps) as [d1|e|]; cbn [mbind result_bind].
  2,3: apply Hloop; clear Hloop. 1: destruct Hloop as (Hd1 & Hv1 & Hp1 & Hin1).
  1,3,4: intros y d' Hy%Hps Hd' Hv' Hp'; apply IH;
    [done|by destruct Hy as (_ & _ & _ & _ & ?)| |].
  1,3,5: rewrite Hp'; cbn; intros q [->%elem_of_singleton|Hq]%elem_of_union;
    [by apply t_step|eapply t_trans; [by apply Hpar|by apply t_step]].
  1-3: cbn in Hv'; assert (paths ∖ visited d' ⊂ paths ∖ visited d) as Hsub
      by (split; [set_solver|]; intros Hc; apply (not_elem_of_empty (C := gset str) p); set_solver);
    apply subset_size in Hsub; lia.
  cbn in Hp1, Hv1. destruct Hd1 as [H1 H2 H3 H4 H5].
  assert (p ∈ visited d1) as Hpv1 by set_solver.
  assert (Hpar1 : parents d1 ∖ {[p]} = parents d) by (rewrite Hp1; set_solver).
  split_and!; cbn; [|set_solver|done|].
  - rewrite Hpar1. split; cbn; rewrite ?Hpar1; [done|set_solver| | |].
    + constructor; [|done]. rewrite H4, Hp1. set_solver.
    + intros x. rewrite elem_of_cons, H4, Hp1. split.
      * intros [-> |[Hx Hx']]; [done|]. set_solver.
      * intros [Hx Hx']. destruct (decide (x = p)) as [-> |Hne]; [by left|right]. set_solver.
    + apply ordered_cons; [|done]. intros y Hy. rewrite H4. destruct (Hin1 y) as [Hyv Hyp]; [by apply Hps|].
      split; [done|]. by rewrite Hp1.
  - intros q ->%list_elem_of_singleton. done.
Qed.

Lemma ordered_acyclic l : NoDup l -> ordered l -> forall x y l1 l2, l = l1 ++ x :: l2 -> treach x y -> y ∈ l2.
Proof.
  intros Hnd Ho x y l1 l2 E Hr. revert l1 l2 E. apply clos_trans_t1n in Hr.
  induction Hr as [x y Hxy|x y z Hxy Hyz IH]; intros l1 l2 E; [by apply (Ho l1 x l2 E)|].
  pose proof (Ho l1 x l2 E y Hxy) as Hy. apply list_elem_of_split in Hy as (m1 & m2 & ->).
  specialize (IH (l1 ++ x :: m1) m2). rewrite <- app_assoc in IH. specialize (IH E).
  apply elem_of_app. right. by right.
Qed.

Lemma treach_source x y : treach x y -> x ∈ paths.
Proof. induction 1 as [x y [Hx _]|]; done. Qed.

(** The outcome of the sort, as the other components use it. *)
Lemma topoSortPaths_spec :
  match topoSortPaths st paths with
  | Ok l => NoDup l /\ (forall x, x ∈ l <-> x ∈ paths) /\ ordered l /\ (forall x, ~ treach x x)
  | Throw e => exn_kind e = eBuildError /\ exists x, treach x x
  | NoFuel => False
  end.
Proof.
  unfold topoSortPaths.
  assert (visit_post (set_iter paths) (mkDfs ∅ [] ∅)
    (foldM (fun d i => dfsVisit (size paths) st paths i d) (mkDfs ∅ [] ∅) (set_iter paths))) as Hpost.
  { apply (visit_loop (dfsVisit (size paths) st paths)).
    - split; cbn; try set_solver; [constructor|]. intros [|? l1] x l2 E; discriminate.
    - intros p d' Hp%elem_of_set_iter Hd' _ Hpar. cbn in Hpar. apply dfsVisit_spec; [done|done| |].
      + rewrite Hpar. set_solver.
      + apply subseteq_size. set_solver. }
  destruct (foldM _ _ _) as [d|e|]; cbn [mbind result_bind]; [|done..].
  destruct Hpost as ([H1 H2 H3 H4 H5] & _ & Hpar & Hin). cbn in Hpar.
  assert (forall x, x ∈ sorted d <-> x ∈ paths) as Hsorted.
  { intros x. rewrite H4, Hpar. split; [set_solver|]. intros Hx. split; [|set_solver].
    by apply Hin, elem_of_set_iter. }
  split_and!; [done|done|done|]. intros x Hx.
  assert (x ∈ sorted d) as Hxs.
  { by apply Hsorted, (treach_source x x). }
  apply list_elem_of_split in Hxs as (l1 & l2 & E).
  pose proof (ordered_acyclic _ H3 H5 x x l1 l2 E Hx) as Hx2.
  rewrite E in H3. apply NoDup_app in H3 as (_ & _ & H3). apply NoDup_cons in H3 as [H3 _]. done.
Qed.

(** C19: [topoSortPaths] either returns the given paths, each once, with every path
    before the paths of the set that it refers to (self-references aside), and then
    their references have no cycle; or it throws [BuildError], and then there is
    one.  It always returns or throws. *)
Theorem topoSortPaths_correct :
  match topoSortPaths st paths with
  | Ok l => NoDup l /\ (forall x, x ∈ l <-> x ∈ paths) /\ ordered l /\ (forall x, ~ treach x x)
  | Throw e => exn_kind e = eBuildError /\ exists x, treach x x
  | NoFuel => False
  end.
Proof. exact topoSortPaths_spec. Qed.
End TopoTheory.
