(* ===== verification/LocalStore.v ===== *)
(** * The local store's database (src/src/libstore/local-store.cc, schema.sql)

    The tables of the SQLite database, the prepared statements of [openDB] as
    functions on them (with the constraints, the trigger and the cascades of
    schema.sql), and the operations of [LocalStore] that run them.  A transaction
    that throws is rolled back: the state is then the one before.  A statement that
    finds the database busy is retried by the caller's loop and is not modelled;
    strings bound to statements are taken to be free of NUL.

    The theorems: the database invariant (unique paths, references and outputs
    between registered paths only, well-formed rows) is kept by every operation;
    registering makes paths valid with the given information; invalidating removes
    exactly an unreferenced path; and the local store implements the interface
    that the algorithms of misc.cc are proved against. *)

From Stdlib Require Import ZArith Lia Ascii Relations.
From stdpp Require Import base strings sorting numbers gmap sets list.
From S2P Require Import Prelude Util Serialise Hash FileSystem Archive References StorePath Derivations Closure.

(** ** Tables *)

Record row : Type := mkRow {
  r_path : str; r_hash : str; r_time : Z; r_deriver : option str; r_narSize : option Z }.

Record DB : Type := mkDB {
  db_valid : gmap Z row;          (** ValidPaths, by id *)
  db_next : Z;                    (** the next id (autoincrement) *)
  db_refs : gset (Z * Z);         (** Refs: referrer, reference *)
  db_outs : gmap (Z * str) str;   (** DerivationOutputs: drv, id -> path *)
  db_failed : gmap str Z }.       (** FailedPaths: path -> time *)

(** The global [drvHashes] goes with the database. *)
Record LocalStore : Type := mkLocalStore { ls_db : DB; ls_memo : gmap str Hash }.

Definition set_valid (v : gmap Z row) (n : Z) (db : DB) : DB := mkDB v n (db_refs db) (db_outs db) (db_failed db).
Definition set_refs (r : gset (Z * Z)) (db : DB) : DB := mkDB (db_valid db) (db_next db) r (db_outs db) (db_failed db).
Definition set_outs (o : gmap (Z * str) str) (db : DB) : DB := mkDB (db_valid db) (db_next db) (db_refs db) o (db_failed db).
Definition set_failed (f : gmap str Z) (db : DB) : DB := mkDB (db_valid db) (db_next db) (db_refs db) (db_outs db) f.
Definition with_db (st : LocalStore) (db : DB) : LocalStore := mkLocalStore db (ls_memo st).

Definition sqlite_error {A} (msg : str) : result A := error msg.

(** ** Statements *)

(** [select ... from ValidPaths where path = ?] *)
Definition sql_path (db : DB) (p : str) : option (Z * row) :=
  head (filter (fun ir => r_path (snd ir) = p) (map_to_list (db_valid db))).

(** [insert into ValidPaths ...]: the path must be new; the id is the next one. *)
Definition stmtRegisterValidPath (db : DB) (r : row) : result (Z * DB) :=
  match sql_path db (r_path r) with
  | Some _ => sqlite_error ($"registering valid path `" ++ r_path r ++ $"' in database")
  | None => Ok (db_next db, set_valid (<[db_next db := r]> (db_valid db)) (db_next db + 1)%Z db)
  end.

(** [update ValidPaths set narSize = ?, hash = ? where path = ?] *)
Definition stmtUpdatePathInfo (db : DB) (nar : option Z) (h p : str) : DB :=
  match sql_path db p with
  | Some (i, r) =>
      set_valid (<[i := mkRow (r_path r) h (r_time r) (r_deriver r) nar]> (db_valid db)) (db_next db) db
  | None => db
  end.

(** [insert or replace into Refs ...]: both must be ids of valid paths. *)
Definition stmtAddReference (db : DB) (referrer reference : Z) : result DB :=
  if bool_decide (is_Some (db_valid db !! referrer)) && bool_decide (is_Some (db_valid db !! reference))
  then Ok (set_refs ({[(referrer, reference)]} ∪ db_refs db) db)
  else sqlite_error ($"adding reference to database").

(** [select path from Refs join ValidPaths on reference = id where referrer = ?] *)
Definition stmtQueryReferences (db : DB) (i : Z) : gset str :=
  list_to_set (omap (fun ab : Z * Z => if (ab.1 =? i)%Z then r_path <$> db_valid db !! ab.2 else None)
    (elements (db_refs db))).

(** [select path from Refs join ValidPaths on referrer = id where reference = (select id ...)] *)
Definition stmtQueryReferrers (db : DB) (p : str) : gset str :=
  match sql_path db p with
  | None => ∅
  | Some (i, _) =>
      list_to_set (omap (fun ab : Z * Z => if (ab.2 =? i)%Z then r_path <$> db_valid db !! ab.1 else None)
        (elements (db_refs db)))
  end.

(** [delete from ValidPaths where path = ?]: the trigger removes a self-reference,
    the row's own references and outputs are deleted with it, and a reference from
    another row restricts. *)
Definition stmtInvalidatePath (db : DB) (p : str) : result DB :=
  match sql_path db p with
  | None => Ok db
  | Some (i, _) =>
      let refs := filter (fun ab : Z * Z => ab <> (i, i)) (db_refs db) in
      if bool_decide (set_Exists (fun ab : Z * Z => ab.2 = i) refs)
      then sqlite_error ($"invalidating path `" ++ p ++ $"' in database")
      else Ok (mkDB (delete i (db_valid db)) (db_next db)
                 (filter (fun ab : Z * Z => ab.1 <> i) refs)
                 (filter (fun ko : (Z * str) * str => ko.1.1 <> i) (db_outs db))
                 (db_failed db))
  end.

(** [insert or replace into DerivationOutputs ...] *)
Definition stmtAddDerivationOutput (db : DB) (drv : Z) (id p : str) : result DB :=
  if bool_decide (is_Some (db_valid db !! drv)) then Ok (set_outs (<[(drv, id) := p]> (db_outs db)) db)
  else sqlite_error ($"adding derivation output in database").

(** [select v.id, v.path from DerivationOutputs d join ValidPaths v on d.drv = v.id where d.path = ?] *)
Definition stmtQueryValidDerivers (db : DB) (p : str) : gset str :=
  list_to_set (omap (fun ko : (Z * str) * str => if str_eqb ko.2 p then r_path <$> db_valid db !! ko.1.1 else None)
    (map_to_list (db_outs db))).

(** [select id, path from DerivationOutputs where drv = ?] *)
Definition stmtQueryDerivationOutputs (db : DB) (i : Z) : list (str * str) :=
  omap (fun ko : (Z * str) * str => if (ko.1.1 =? i)%Z then Some (ko.1.2, ko.2) else None) (map_to_list (db_outs db)).

(** [select path from ValidPaths where path >= ? limit 1], in the order of the index. *)
Definition all_paths (db : DB) : gset str := list_to_set ((r_path ∘ snd) <$> map_to_list (db_valid db)).
Definition stmtQueryPathFromHashPart (db : DB) (prefix : str) : option str :=
  head (filter (fun p => str_leb prefix p = true) (set_iter (all_paths db))).

(** ** Operations *)

Section Ops.
Context (nixStore : str).

Definition ls_isValidPath (st : LocalStore) (p : str) : result bool :=
  Ok (bool_decide (is_Some (sql_path (ls_db st) p))).

Definition parseHashField (p s : str) : result Hash :=
  match str_find ":"%char s with
  | None => error ($"corrupt hash `" ++ s ++ $"' in valid-path entry for `" ++ p ++ $"'")
  | Some colon =>
      let ht := parseHashType (take colon s) in
      if bool_decide (ht = htUnknown)
      then error ($"unknown hash type `" ++ take colon s ++ $"' in valid-path entry for `" ++ p ++ $"'")
      else parseHash ht (drop (S colon) s)
  end.

(** [queryPathInfo]; the id and the time are read and bound as 32-bit integers. *)
Definition queryPathInfo (st : LocalStore) (p : str) : result ValidPathInfo :=
  _ ← assertStorePath nixStore p;
  match sql_path (ls_db st) p with
  | None => error ($"path `" ++ p ++ $"' is not valid")
  | Some (i, r) =>
      h ← parseHashField p (r_hash r);
      Ok (mkValidPathInfo p (default [] (r_deriver r)) h (stmtQueryReferences (ls_db st) (i32 i))
            (i32 (r_time r)) (u64 (default 0%Z (r_narSize r))) (i32 i))
  end.

Definition queryValidPathId (st : LocalStore) (p : str) : result Z :=
  match sql_path (ls_db st) p with
  | Some (i, _) => Ok (i32 i)
  | None => error ($"path `" ++ p ++ $"' is not valid")
  end.

Definition queryValidPaths (st : LocalStore) (paths : gset str) : result (gset str) :=
  foldM (fun res i => v ← ls_isValidPath st i; Ok (if (v : bool) then {[i]} ∪ res else res)) ∅ (set_iter paths).
Definition queryAllValidPaths (st : LocalStore) : gset str := all_paths (ls_db st).

Definition ls_queryReferences (st : LocalStore) (p : str) : result (gset str) :=
  references <$> queryPathInfo st p.
Definition ls_queryReferrers (st : LocalStore) (p : str) : result (gset str) :=
  _ ← assertStorePath nixStore p;
  Ok (stmtQueryReferrers (ls_db st) p).
Definition queryDeriver (st : LocalStore) (p : str) : result str := deriver <$> queryPathInfo st p.
Definition queryPathHash (st : LocalStore) (p : str) : result Hash := vhash <$> queryPathInfo st p.
Definition queryValidDerivers (st : LocalStore) (p : str) : result (gset str) :=
  _ ← assertStorePath nixStore p;
  Ok (stmtQueryValidDerivers (ls_db st) p).
Definition ls_queryDerivationOutputs (st : LocalStore) (p : str) : result (gset str) :=
  i ← queryValidPathId st p;
  Ok (list_to_set (stmtQueryDerivationOutputs (ls_db st) i).*2).
Definition queryDerivationOutputNames (st : LocalStore) (p : str) : result (gset str) :=
  i ← queryValidPathId st p;
  Ok (list_to_set (stmtQueryDerivationOutputs (ls_db st) i).*1).

Definition queryPathFromHashPart (st : LocalStore) (hashPart : str) : result str :=
  if negb (length hashPart =? 32)%nat then error ($"invalid hash part")
  else
    let prefix := nixStore ++ slash :: hashPart in
    match stmtQueryPathFromHashPart (ls_db st) prefix with
    | None => Ok []
    | Some s => Ok (if str_eqb (take (length prefix) s) prefix then s else [])
    end.

(** The local store as a [StoreAPI]. *)
#[local] Instance LocalStore_api : StoreAPI LocalStore := {|
  isValidPath := ls_isValidPath; queryReferences := ls_queryReferences;
  queryReferrers := ls_queryReferrers; queryDerivationOutputs := ls_queryDerivationOutputs |}.

(** ** Registration

    [readFile] gives the contents of files of the store, [now] is [time(0)], and
    [dfuel] bounds the depth of [hashDerivationModulo]. *)
Context `{HA : HashAlgo} (readFile : str -> result str) (now : Z) (dfuel : nat).

Definition valid_in (st : LocalStore) (p : str) : bool := bool_decide (is_Some (sql_path (ls_db st) p)).

(** The test of one output in [checkDerivationOutputs]. *)
Definition check_output (drv : Derivation) (drvPath id outPath : str) (o : DerivationOutput) : result unit :=
  if negb (str_eqb (out_path o) outPath) || negb (bool_decide (env drv !! id = Some outPath))
  then error ($"derivation `" ++ drvPath ++ $"' has incorrect output `" ++ out_path o ++ $"', should be `" ++ outPath ++ $"'")
  else Ok tt.

(** The copy of a derivation with its output paths and their variables blanked. *)
Definition mask_outputs (drv : Derivation) : Derivation :=
  mkDerivation ((fun o => mkDerivationOutput [] (out_hashAlgo o) (out_hash o)) <$> outputs drv)
    (inputDrvs drv) (inputSrcs drv) (platform drv) (builder drv) (args drv)
    (foldl (fun e i => <[fst i := []]> e) (env drv) (map_iter (outputs drv))).

Definition checkDerivationOutputs (st : LocalStore) (drvPath : str) (drv : Derivation) : result LocalStore :=
  drvName ← storePathToName nixStore drvPath;
  _ ← assert_ (isDerivation drvName);
  let drvName := take (length drvName - length drvExtension) drvName in
  if isFixedOutputDrv drv then
    match outputs drv !! ($"out") with
    | None => error ($"derivation `" ++ drvPath ++ $"' does not have an output named `out'")
    | Some out =>
        '(recursive, ht, h) ← parseHashInfo out;
        outPath ← makeFixedOutputPath nixStore recursive ht h drvName;
        _ ← check_output drv drvPath ($"out") outPath out;
        Ok st
    end
  else
    '(h, memo) ← hashDerivationModulo (valid_in st) readFile dfuel (mask_outputs drv) (ls_memo st);
    _ ← foldM (fun _ i =>
          outPath ← makeOutputPath nixStore (fst i) h drvName;
          check_output drv drvPath (fst i) outPath (snd i)) tt (map_iter (outputs drv));
    Ok (mkLocalStore (ls_db st) memo).

Definition info_row (info : ValidPathInfo) : row :=
  mkRow (path info) ($"sha256:" ++ printHash (vhash info))
    (i32 (if (registrationTime info =? 0)%Z then now else registrationTime info))
    (if str_eqb (deriver info) [] then None else Some (deriver info))
    (if (narSize info =? 0)%Z then None else Some (narSize info)).

Definition addValidPath (st : LocalStore) (info : ValidPathInfo) (checkOutputs : bool) : result (Z * LocalStore) :=
  '(id, db) ← stmtRegisterValidPath (ls_db st) (info_row info);
  let st := with_db st db in
  if isDerivation (path info) then
    contents ← readFile (path info);
    drv ← parseDerivation contents;
    st ← (if checkOutputs then checkDerivationOutputs st (path info) drv else Ok st);
    db ← foldM (fun db i => stmtAddDerivationOutput db (i32 id) (fst i) (out_path (snd i))) (ls_db st) (map_iter (outputs drv));
    Ok (id, with_db st db)
  else Ok (id, st).

Definition addReference (st : LocalStore) (referrer reference : Z) : result LocalStore :=
  db ← stmtAddReference (ls_db st) (i32 referrer) (i32 reference);
  Ok (with_db st db).

(** The two loops of [registerValidPaths], and the transaction. *)
Definition register_path (st : LocalStore) (i : ValidPathInfo) : result LocalStore :=
  _ ← assert_ (bool_decide (type (vhash i) = htSHA256));
  v ← ls_isValidPath st (path i);
  if negb v then snd <$> addValidPath st i true else Ok st.
Definition register_refs (st : LocalStore) (i : ValidPathInfo) : result LocalStore :=
  referrer ← queryValidPathId st (path i);
  foldM (fun st j => reference ← queryValidPathId st j; addReference st referrer reference) st (set_iter (references i)).
Definition registerValidPaths (st : LocalStore) (infos : list ValidPathInfo) : result LocalStore :=
  st ← foldM register_path st infos;
  st ← foldM register_refs st infos;
  _ ← topoSortPaths st (list_to_set (map path infos));
  Ok st.
Definition registerValidPath (st : LocalStore) (info : ValidPathInfo) : result LocalStore :=
  registerValidPaths st [info].

Definition updatePathInfo (st : LocalStore) (info : ValidPathInfo) : LocalStore :=
  with_db st (stmtUpdatePathInfo (ls_db st)
    (if (narSize info =? 0)%Z then None else Some (narSize info))
    ($"sha256:" ++ printHash (vhash info)) (path info)).

(** ** Invalidation *)

Definition invalidatePath (st : LocalStore) (p : str) : result LocalStore :=
  db ← stmtInvalidatePath (ls_db st) p;
  Ok (mkLocalStore db (delete p (ls_memo st))).

Definition invalidatePathChecked (st : LocalStore) (p : str) : result LocalStore :=
  _ ← assertStorePath nixStore p;
  v ← ls_isValidPath st p;
  if (v : bool) then
    referrers ← ls_queryReferrers st p;
    let referrers := referrers ∖ {[p]} in
    if negb (bool_decide (referrers = ∅))
    then throw ePathInUse ($"cannot delete path `" ++ p ++ $"' because it is in use by " ++ showPaths referrers)
    else invalidatePath st p
  else Ok st.

(** ** Failed paths *)

Definition hasPathFailed (st : LocalStore) (p : str) : bool := bool_decide (is_Some (db_failed (ls_db st) !! p)).
Definition registerFailedPath (st : LocalStore) (p : str) : LocalStore :=
  if hasPathFailed st p then st
  else with_db st (set_failed (<[p := i32 now]> (db_failed (ls_db st))) (ls_db st)).
Definition queryFailedPaths (st : LocalStore) : gset str := dom (db_failed (ls_db st)).

(** [delete from FailedPaths where ?1 = '*' or path = ?1 or path in (select d.path ...)] *)
Definition stmtClearFailedPath (db : DB) (p : str) : DB :=
  let outs := match sql_path db p with
              | Some (i, _) => list_to_set (stmtQueryDerivationOutputs db i).*2
              | None => (∅ : gset str)
              end in
  set_failed (filter (fun kt : str * Z => ~ (p = $"*" \/ kt.1 = p \/ kt.1 ∈ outs)) (db_failed db)) db.
Definition clearFailedPaths (st : LocalStore) (paths : gset str) : LocalStore :=
  with_db st (foldl stmtClearFailedPath (ls_db st) (set_iter paths)).
End Ops.

(** * The database invariant *)

Definition hash_field (s : str) : Prop :=
  exists h, hash_ok h /\ type h = htSHA256 /\ s = $"sha256:" ++ printHash h.

Record db_ok (nixStore : str) (db : DB) : Prop := {
  ok_ids : forall i r, db_valid db !! i = Some r -> (0 < i < db_next db)%Z;
  ok_next : (0 < db_next db <= 2 ^ 31)%Z;
  ok_unique : forall i j r s, db_valid db !! i = Some r -> db_valid db !! j = Some s -> r_path r = r_path s -> i = j;
  ok_refs : forall a b, (a, b) ∈ db_refs db -> is_Some (db_valid db !! a) /\ is_Some (db_valid db !! b);
  ok_outs : forall a k p, db_outs db !! (a, k) = Some p -> is_Some (db_valid db !! a);
  ok_rows : forall i r, db_valid db !! i = Some r -> isStorePath nixStore (r_path r) = true /\ hash_field (r_hash r) }.

(** The path [p] is registered, and [p] refers to [q]. *)
Definition db_path (db : DB) (i : Z) (p : str) : Prop := exists r, db_valid db !! i = Some r /\ r_path r = p.
Definition db_ref (db : DB) (p q : str) : Prop :=
  exists i j, db_path db i p /\ db_path db j q /\ (i, j) ∈ db_refs db.

Section DBTheory.
Context (nixStore : str).
Abbreviation db_ok := (db_ok nixStore).

Lemma sql_path_some db p i r :
  db_ok db -> sql_path db p = Some (i, r) <-> db_valid db !! i = Some r /\ r_path r = p.
Proof.
  intros Hok. unfold sql_path. split.
  - intros E. apply head_Some_elem_of, list_elem_of_filter in E as [E Hin].
    apply elem_of_map_to_list in Hin. done.
  - intros [Hi Hp]. set (l := filter _ _).
    assert (forall jr, jr ∈ l -> jr = (i, r)) as Hl.
    { intros [j s] [Hjp Hj]%list_elem_of_filter. apply elem_of_map_to_list in Hj. cbn in Hjp.
      assert (i = j) as <- by (eapply (ok_unique _ db Hok); [done|done|congruence]). congruence. }
    assert ((i, r) ∈ l) as Hin by (apply list_elem_of_filter; split; [done|by apply elem_of_map_to_list]).
    destruct l as [|jr l]; [by apply elem_of_nil in Hin|]. cbn. f_equal. apply Hl. left.
Qed.

Lemma sql_path_none db p : sql_path db p = None <-> forall i r, db_valid db !! i = Some r -> r_path r <> p.
Proof.
  unfold sql_path. rewrite head_None. split.
  - intros E i r Hi Hp. assert ((i, r) ∈ @nil (Z * row)) as Hin; [|by apply elem_of_nil in Hin].
    rewrite <- E. apply list_elem_of_filter. split; [done|by apply elem_of_map_to_list].
  - intros H. apply elem_of_nil_inv. intros [i r] [Hp Hin%elem_of_map_to_list]%list_elem_of_filter. by apply (H i r).
Qed.

Lemma elem_of_all_paths db p : p ∈ all_paths db <-> exists i, db_path db i p.
Proof.
  unfold all_paths, db_path. rewrite elem_of_list_to_set, list_elem_of_fmap. split.
  - intros ([i r] & -> & Hin%elem_of_map_to_list). by exists i, r.
  - intros (i & r & Hi & <-). exists (i, r). split; [done|by apply elem_of_map_to_list].
Qed.

Lemma sql_path_valid db p : is_Some (sql_path db p) <-> p ∈ all_paths db.
Proof.
  rewrite elem_of_all_paths. split.
  - intros [[i r] E]. unfold sql_path in E. apply head_Some_elem_of, list_elem_of_filter in E as [E Hin%elem_of_map_to_list].
    by exists i, r.
  - intros (i & r & Hi & Hp). destruct (sql_path db p) as [x|] eqn:E; [by exists x|].
    rewrite sql_path_none in E. by destruct (E i r).
Qed.

Lemma db_path_unique db i j p : db_ok db -> db_path db i p -> db_path db j p -> i = j.
Proof. intros Hok (r & Hi & Hp) (s & Hj & Hq). eapply (ok_unique _ db Hok); [done|done|congruence]. Qed.

Lemma sql_path_db_path db p i : db_ok db -> (exists r, sql_path db p = Some (i, r)) <-> db_path db i p.
Proof. intros Hok. unfold db_path. by setoid_rewrite sql_path_some. Qed.

Lemma elem_of_references db i p q :
  db_ok db -> db_path db i p -> q ∈ stmtQueryReferences db i <-> db_ref db p q.
Proof.
  intros Hok Hi. unfold stmtQueryReferences, db_ref. rewrite elem_of_list_to_set, list_elem_of_omap. split.
  - intros ([a b] & Hab%elem_of_elements & E). cbn in E. destruct (Z.eqb_spec a i) as [-> |]; [|done].
    apply fmap_Some in E as (s & Hb & ->). exists i, b. split_and!; [done|by exists s|done].
  - intros (i' & j & Hi' & (s & Hj & <-) & Hij). rewrite (db_path_unique db i' i p Hok Hi' Hi) in Hij.
    exists (i, j). split; [by apply elem_of_elements|]. cbn. rewrite Z.eqb_refl, Hj. done.
Qed.

Lemma elem_of_referrers db p q : db_ok db -> q ∈ stmtQueryReferrers db p <-> db_ref db q p.
Proof.
  intros Hok. unfold stmtQueryReferrers, db_ref. destruct (sql_path db p) as [[i r]|] eqn:E.
  - apply sql_path_some in E as [Hi Hp]; [|done].
    assert (db_path db i p) as Hip by (by exists r). rewrite elem_of_list_to_set, list_elem_of_omap. split.
    + intros ([a b] & Hab%elem_of_elements & Eab). cbn in Eab. destruct (Z.eqb_spec b i) as [-> |]; [|done].
      apply fmap_Some in Eab as (s & Ha & ->). exists a, i. split_and!; [by exists s|done|done].
    + intros (a & j & (s & Ha & <-) & Hj & Haj). rewrite (db_path_unique db j i p Hok Hj Hip) in Haj.
      exists (a, i). split; [by apply elem_of_elements|]. cbn. rewrite Z.eqb_refl, Ha. done.
  - split; [set_solver|]. intros (a & j & _ & (s & Hj & Hp) & _). rewrite sql_path_none in E. by destruct (E j s).
Qed.

Lemma i32_small i : (0 <= i < 2 ^ 31)%Z -> i32 i = i.
Proof. intros Hi. unfold i32. rewrite Z.mod_small by lia. lia. Qed.

Lemma i32_id db i p : db_ok db -> db_path db i p -> i32 i = i.
Proof.
  intros Hok (r & Hi & _). pose proof (ok_ids _ db Hok i r Hi). pose proof (ok_next _ db Hok).
  apply i32_small. lia.
Qed.

Lemma parseHashField_ok p h :
  hash_ok h -> type h = htSHA256 -> parseHashField p ($"sha256:" ++ printHash h) = Ok h.
Proof.
  intros Hh Ht. unfold parseHashField. change (str_find ":" ($"sha256:" ++ printHash h)) with (Some 6%nat).
  cbv iota zeta. change (take 6 ($"sha256:" ++ printHash h)) with ($"sha256").
  change (drop 7 ($"sha256:" ++ printHash h)) with (printHash h).
  change (parseHashType ($"sha256")) with htSHA256. rewrite bool_decide_eq_false_2 by done.
  by rewrite <- Ht, parse_print_hash16.
Qed.

Definition ls_ok (st : LocalStore) : Prop := db_ok (ls_db st).
Definition ls_refs (st : LocalStore) (p : str) : gset str :=
  match sql_path (ls_db st) p with Some (i, _) => stmtQueryReferences (ls_db st) i | None => ∅ end.
Definition ls_outs (st : LocalStore) (p : str) : gset str :=
  match sql_path (ls_db st) p with
  | Some (i, _) => list_to_set (stmtQueryDerivationOutputs (ls_db st) i).*2
  | None => ∅
  end.

Lemma elem_of_ls_refs st p q : ls_ok st -> q ∈ ls_refs st p <-> db_ref (ls_db st) p q.
Proof.
  intros Hok. unfold ls_refs. destruct (sql_path (ls_db st) p) as [[i r]|] eqn:E.
  - apply sql_path_some in E as [Hi Hp]; [|done]. apply elem_of_references; [done|]. by exists r.
  - split; [set_solver|]. intros (a & b & (r & Ha & Hp) & _). rewrite sql_path_none in E. by destruct (E a r).
Qed.

Lemma valid_path_row st p :
  ls_ok st -> p ∈ all_paths (ls_db st) ->
  exists i r h, sql_path (ls_db st) p = Some (i, r) /\ db_path (ls_db st) i p /\
    isStorePath nixStore p = true /\ hash_ok h /\ type h = htSHA256 /\ r_hash r = $"sha256:" ++ printHash h.
Proof.
  intros Hok Hp. apply sql_path_valid in Hp as [[i r] E]. pose proof E as E'. apply sql_path_some in E' as [Hi Hp]; [|done].
  destruct (ok_rows _ _ Hok i r Hi) as [Hs (h & Hh & Ht & Hf)]. exists i, r, h. subst p. split_and!; try done. by exists r.
Qed.

Lemma queryPathInfo_valid st p :
  ls_ok st -> p ∈ all_paths (ls_db st) ->
  exists i r h, db_valid (ls_db st) !! i = Some r /\ r_path r = p /\ r_hash r = $"sha256:" ++ printHash h /\ hash_ok h /\
    queryPathInfo nixStore st p = Ok (mkValidPathInfo p (default [] (r_deriver r)) h (ls_refs st p)
      (i32 (r_time r)) (u64 (default 0%Z (r_narSize r))) i).
Proof.
  intros Hok Hp. destruct (valid_path_row st p Hok Hp) as (i & r & h & E & Hi & Hs & Hh & Ht & Hf).
  pose proof E as E'. apply sql_path_some in E' as [Hir Hrp]; [|done].
  exists i, r, h. split_and!; [done|done|done|done|].
  unfold queryPathInfo, assertStorePath, ls_refs. rewrite Hs. cbn [mbind result_bind]. rewrite E, Hf.
  rewrite parseHashField_ok by done. cbn [mbind result_bind]. by rewrite (i32_id (ls_db st) i p).
Qed.

(** The local store implements the interface of the algorithms in misc.cc. *)
#[local] Existing Instance LocalStore_api.
#[program] Definition LocalStore_laws : StoreLaws LocalStore (H := LocalStore_api nixStore) := {|
  store_ok := ls_ok; valid st := all_paths (ls_db st); refs_of := ls_refs; outs_of := ls_outs |}.
Next Obligation.
  intros st p Hok. cbn. unfold ls_isValidPath. f_equal. apply bool_decide_ext, sql_path_valid.
Qed.
Next Obligation.
  intros st p Hok Hp. cbn. unfold ls_queryReferences.
  destruct (queryPathInfo_valid st p Hok Hp) as (i & r & h & _ & _ & _ & _ & E). by rewrite E.
Qed.
Next Obligation.
  intros st p Hok Hp q Hq. apply elem_of_ls_refs in Hq as (i & j & _ & Hj & _); [|done].
  apply elem_of_all_paths. by exists j.
Qed.
Next Obligation.
  intros st p Hok Hp. destruct (valid_path_row st p Hok Hp) as (i & r & h & E & Hi & Hs & _).
  exists (stmtQueryReferrers (ls_db st) p). cbn. unfold ls_queryReferrers, assertStorePath. rewrite Hs.
  split; [done|]. intros q. rewrite elem_of_referrers, elem_of_ls_refs by done. split; [|tauto].
  intros Hq. split; [|done]. destruct Hq as (a & b & Ha & _). apply elem_of_all_paths. by exists a.
Qed.
Next Obligation.
  intros st p Hok Hp. destruct (valid_path_row st p Hok Hp) as (i & r & h & E & Hi & _).
  cbn. unfold ls_queryDerivationOutputs, queryValidPathId, ls_outs. rewrite E. cbn [mbind result_bind].
  by rewrite (i32_id (ls_db st) i p).
Qed.

(** * Registration *)

Context `{HA : HashAlgo} (readFile : str -> result str) (now : Z) (dfuel : nat).

Lemma foldM_inv {A B} (P : B -> Prop) (f : B -> A -> result B) l : forall b b',
  (forall b a b', a ∈ l -> P b -> f b a = Ok b' -> P b') -> P b -> foldM f b l = Ok b' -> P b'.
Proof.
  induction l as [|a l IH]; intros b b' Hf Hb E; cbn [foldM] in E; [by injection E as <-|].
  apply bind_Ok in E as (b1 & E1 & E). eapply IH; [|by eapply (Hf b a); [left|..]|exact E].
  intros c x c' Hx. apply Hf. by right.
Qed.

(** Only the table of outputs differs. *)
Definition same_but_outs (db db' : DB) : Prop :=
  db_valid db' = db_valid db /\ db_next db' = db_next db /\ db_refs db' = db_refs db /\ db_failed db' = db_failed db.

Lemma same_but_outs_ok db db' :
  same_but_outs db db' -> (forall a k p, db_outs db' !! (a, k) = Some p -> is_Some (db_valid db !! a)) ->
  db_ok db -> db_ok db'.
Proof.
  intros (Hv & Hn & Hr & _) Ho [H1 H2 H3 H4 H5 H6]. split; rewrite ?Hv, ?Hn, ?Hr; try done.
Qed.

Lemma checkDerivationOutputs_db st drvPath drv st' :
  checkDerivationOutputs nixStore readFile dfuel st drvPath drv = Ok st' -> ls_db st' = ls_db st.
Proof.
  unfold checkDerivationOutputs. intros E. apply bind_Ok in E as (n & _ & E). apply bind_Ok in E as (u & _ & E).
  destruct (isFixedOutputDrv drv).
  - destruct (outputs drv !! _); [|done]. apply bind_Ok in E as ([[rec ht] h] & _ & E).
    apply bind_Ok in E as (o & _ & E). apply bind_Ok in E as (u' & _ & [= <-]). done.
  - apply bind_Ok in E as ([h memo] & _ & E). apply bind_Ok in E as (u' & _ & [= <-]). done.
Qed.

Lemma add_outputs_spec db id l db' :
  is_Some (db_valid db !! id) -> db_ok db ->
  foldM (fun db (i : str * DerivationOutput) => stmtAddDerivationOutput db id (fst i) (out_path (snd i))) db l = Ok db' ->
  same_but_outs db db' /\ db_ok db'.
Proof.
  intros Hid Hok E. refine (foldM_inv (fun d => same_but_outs db d /\ db_ok d) _ l db db' _ _ E); [|by split].
  intros b i b' _ [(Hv & Hn & Hr & Hf) Hb] Es. unfold stmtAddDerivationOutput in Es.
  case_bool_decide; [|done]. injection Es as <-. split; [done|].
  eapply same_but_outs_ok; [| |exact Hb]; [done|]. cbn. intros a k p.
  destruct (decide ((id, fst i) = (a, k))) as [[= <- <-]|Hne]; [done|].
  rewrite lookup_insert_ne by done. apply (ok_outs _ b Hb).
Qed.

Lemma insert_row_ok db r :
  db_ok db -> (db_next db < 2 ^ 31)%Z -> sql_path db (r_path r) = None ->
  isStorePath nixStore (r_path r) = true -> hash_field (r_hash r) ->
  db_ok (set_valid (<[db_next db := r]> (db_valid db)) (db_next db + 1) db).
Proof.
  intros Hok Hn Hnew Hs Hh. assert (db_valid db !! db_next db = None) as Hfree.
  { destruct (db_valid db !! db_next db) as [r'|] eqn:E; [|done]. apply (ok_ids _ db Hok) in E. lia. }
  assert (forall a, is_Some (db_valid db !! a) -> is_Some (<[db_next db := r]> (db_valid db) !! a)) as Hkeep.
  { intros a [x Hx]. exists x. rewrite lookup_insert_ne; [done|]. intros <-. congruence. }
  rewrite sql_path_none in Hnew. destruct Hok as [H1 H2 H3 H4 H5 H6]. split; cbn.
  - intros i x [[<- <-]|[_ Hx]]%lookup_insert_Some; [lia|]. apply H1 in Hx. lia.
  - lia.
  - intros i j x y [[<- <-]|[Hi Hx]]%lookup_insert_Some [[<- <-]|[Hj Hy]]%lookup_insert_Some Hp;
      [done|by destruct (Hnew j y)|by destruct (Hnew i x)|by eapply H3].
  - intros a b Hab. destruct (H4 a b Hab). auto.
  - intros a k p Hp. eauto.
  - intros i x [[<- <-]|[_ Hx]]%lookup_insert_Some; [done|]. by apply (H6 i).
Qed.

(** What [register_path] does to the rows. *)
Record registered (i : ValidPathInfo) (st st' : LocalStore) : Prop := {
  rg_ok : ls_ok st';
  rg_next : (db_next (ls_db st') <= db_next (ls_db st) + 1)%Z;
  rg_refs : db_refs (ls_db st') = db_refs (ls_db st);
  rg_old : forall id r, db_valid (ls_db st) !! id = Some r -> db_valid (ls_db st') !! id = Some r;
  rg_new : forall id r, db_valid (ls_db st') !! id = Some r ->
    db_valid (ls_db st) !! id = Some r \/ (r = info_row now i /\ path i ∉ all_paths (ls_db st));
  rg_path : path i ∈ all_paths (ls_db st') }.

Definition info_fits (i : ValidPathInfo) : Prop := isStorePath nixStore (path i) = true /\ hash_ok (vhash i).

Lemma register_path_spec st i st' :
  ls_ok st -> info_fits i -> (db_next (ls_db st) < 2 ^ 31)%Z ->
  register_path nixStore readFile now dfuel st i = Ok st' -> registered i st st'.
Proof.
  intros Hok [Hs Hh] Hn E. unfold register_path in E. apply bind_Ok in E as (u & Ha & E).
  assert (type (vhash i) = htSHA256) as Ht.
  { unfold assert_ in Ha. by case_bool_decide. }
  unfold ls_isValidPath in E. cbn [mbind result_bind] in E.
  destruct (bool_decide (is_Some (sql_path (ls_db st) (path i)))) eqn:Ev; cbn [negb] in E.
  { injection E as <-. reflect. apply sql_path_valid in Ev. split; auto. lia. }
  reflect. assert (sql_path (ls_db st) (path i) = None) as Hnew by (by destruct (sql_path _ _); [destruct Ev|]).
  assert (path i ∉ all_paths (ls_db st)) as Hnin by (by rewrite <- sql_path_valid, Hnew).
  unfold addValidPath, stmtRegisterValidPath in E. change (r_path (info_row now i)) with (path i) in E.
  rewrite Hnew in E. cbn [mbind result_bind] in E.
  set (db1 := set_valid _ _ _) in E.
  assert (db_ok db1) as Hok1.
  { apply insert_row_ok; [done|done|done|done|]. exists (vhash i). done. }
  assert (forall st2, same_but_outs db1 (ls_db st2) -> ls_ok st2 -> registered i st st2) as Hfin.
  { intros st2 (Hv & Hnx & Hr & _) Hok2. split; [done|rewrite Hnx; cbn; lia|by rewrite Hr| | |].
    - intros id r Hid. rewrite Hv. cbn. rewrite lookup_insert_ne; [done|].
      intros <-. apply (ok_ids _ _ Hok) in Hid. lia.
    - intros id r. rewrite Hv. cbn. intros [[<- <-]|[_ Hr']]%lookup_insert_Some; [by right|by left].
    - apply elem_of_all_paths. exists (db_next (ls_db st)), (info_row now i). rewrite Hv. cbn.
      by rewrite lookup_insert_eq. }
  destruct (isDerivation (path i)).
  2:{ injection E as <-. by apply Hfin. }
  destruct (readFile (path i)) as [contents| |]; [|done..]. cbn [mbind result_bind] in E.
  destruct (parseDerivation contents) as [drv| |]; [|done..]. cbn [mbind result_bind] in E.
  destruct (checkDerivationOutputs _ _ _ _ _ _) as [st1| |] eqn:Ec; [|done..].
  apply checkDerivationOutputs_db in Ec. cbn [ls_db with_db] in Ec. cbn [mbind result_bind] in E.
  destruct (foldM _ (ls_db st1) _) as [db2| |] eqn:Ef; [|done..]. injection E as <-.
  rewrite Ec, i32_small in Ef by (pose proof (ok_next _ _ Hok); lia).
  apply add_outputs_spec in Ef as [Hsame Hok2]; [by apply Hfin| |done].
  exists (info_row now i). cbn. by rewrite lookup_insert_eq.
Qed.

(** What adding references from the path [p] to those of [R] does. *)
Record referred (p : str) (R : str -> Prop) (st st' : LocalStore) : Prop := {
  rf_ok : ls_ok st';
  rf_valid : db_valid (ls_db st') = db_valid (ls_db st);
  rf_refs : forall a b, db_ref (ls_db st') a b <-> db_ref (ls_db st) a b \/ (a = p /\ R b);
  rf_in : forall q, R q -> q ∈ all_paths (ls_db st) }.

Lemma queryValidPathId_spec st p i : ls_ok st -> queryValidPathId st p = Ok i -> db_path (ls_db st) i p.
Proof.
  intros Hok. unfold queryValidPathId. destruct (sql_path (ls_db st) p) as [[j r]|] eqn:E; [|done]. intros [= <-].
  apply sql_path_some in E as [Hj Hp]; [|done]. assert (db_path (ls_db st) j p) as Hjp by (by exists r).
  by rewrite (i32_id (ls_db st) j p).
Qed.

Lemma db_path_valid db db' i p : db_valid db' = db_valid db -> db_path db' i p <-> db_path db i p.
Proof. intros E. unfold db_path. by rewrite E. Qed.

Lemma all_paths_valid db db' : db_valid db' = db_valid db -> all_paths db' = all_paths db.
Proof. intros E. unfold all_paths. by rewrite E. Qed.

Lemma addReference_spec st i p j q st' :
  ls_ok st -> db_path (ls_db st) i p -> db_path (ls_db st) j q -> addReference st i j = Ok st' ->
  referred p (eq q) st st'.
Proof.
  intros Hok Hi Hj E. unfold addReference, stmtAddReference in E.
  rewrite (i32_id (ls_db st) i p), (i32_id (ls_db st) j q) in E by done.
  destruct (_ && _) eqn:Eb; [|done]. reflect. injection E as <-. split; cbn.
  - destruct Hok as [H1 H2 H3 H4 H5 H6]. split; cbn; try done.
    intros a b [[= -> ->]%elem_of_singleton|Hab]%elem_of_union; [done|by apply H4].
  - done.
  - intros a b. unfold db_ref. cbn. split.
    + intros (x & y & Hx & Hy & [[= -> ->]%elem_of_singleton|Hxy]%elem_of_union); [right|left; by exists x, y].
      destruct Hi as (r & Hr & <-), Hx as (r' & Hr' & <-), Hj as (s & Hs & <-), Hy as (s' & Hs' & <-).
      cbn in *. split; congruence.
    + intros [(x & y & Hx & Hy & Hxy)|[-> <-]]; [exists x, y; set_solver|]. exists i, j. split_and!; [done|done|set_solver].
  - intros b <-. apply elem_of_all_paths. by exists j.
Qed.

Lemma register_refs_spec st i st' :
  ls_ok st -> register_refs st i = Ok st' -> referred (path i) (fun q => q ∈ references i) st st'.
Proof.
  intros Hok E. unfold register_refs in E. apply bind_Ok in E as (id & Eid & E).
  apply queryValidPathId_spec in Eid; [|done].
  assert (Hl : forall l st0, ls_ok st0 -> db_path (ls_db st0) id (path i) ->
    foldM (fun st j => reference ← queryValidPathId st j; addReference st id reference) st0 l = Ok st' ->
    referred (path i) (fun q => q ∈ l) st0 st').
  { clear E Eid Hok st. induction l as [|j l IH]; intros st Hok Hid E; cbn [foldM] in E.
    { injection E as <-. split; [done|done| |]; set_solver. }
    apply bind_Ok in E as (st1 & E1 & E). apply bind_Ok in E1 as (jid & Ej & E1).
    apply queryValidPathId_spec in Ej; [|done].
    destruct (addReference_spec st id (path i) jid j st1 Hok Hid Ej E1) as [Hok1 Hv1 Hr1 Hin1].
    destruct (IH st1 Hok1) as [Hok2 Hv2 Hr2 Hin2]; [by rewrite (db_path_valid (ls_db st))|done|].
    split; [done|congruence| |].
    - intros a b. rewrite Hr2, Hr1, elem_of_cons. naive_solver.
    - intros q [-> |Hq]%elem_of_cons; [by apply Hin1|]. rewrite <- (all_paths_valid (ls_db st) (ls_db st1)) by done. auto. }
  destruct (Hl _ st Hok Eid E) as [H1 H2 H3 H4]. split; [done|done| |].
  - intros a b. by rewrite H3, elem_of_set_iter.
  - intros q Hq. by apply H4, elem_of_set_iter.
Qed.

(** The state after both loops. *)
Record registration (infos : list ValidPathInfo) (st st' : LocalStore) : Prop := {
  rn_ok : ls_ok st';
  rn_old : forall id r, db_valid (ls_db st) !! id = Some r -> db_valid (ls_db st') !! id = Some r;
  rn_new : forall id r, db_valid (ls_db st') !! id = Some r ->
    db_valid (ls_db st) !! id = Some r \/
    exists i, i ∈ infos /\ r = info_row now i /\ path i ∉ all_paths (ls_db st);
  rn_valid : forall p, p ∈ all_paths (ls_db st') <-> p ∈ all_paths (ls_db st) \/ exists i, i ∈ infos /\ path i = p;
  rn_refs : forall p q, db_ref (ls_db st') p q <->
    db_ref (ls_db st) p q \/ exists i, i ∈ infos /\ path i = p /\ q ∈ references i;
  rn_closed : forall i q, i ∈ infos -> q ∈ references i -> q ∈ all_paths (ls_db st') }.

Lemma db_ref_mono db db' p q :
  (forall id r, db_valid db !! id = Some r -> db_valid db' !! id = Some r) -> db_refs db' = db_refs db ->
  db_ok db -> db_ok db' -> db_ref db' p q <-> db_ref db p q.
Proof.
  intros Hold Hr Hok Hok'. unfold db_ref. rewrite Hr. split.
  - intros (a & b & Ha & Hb & Hab). exists a, b. destruct (ok_refs _ db Hok a b Hab) as [[ra Ra] [rb Rb]].
    split_and!; [| |done].
    + destruct Ha as (r & Hr' & <-). exists ra. split; [done|]. apply Hold in Ra. congruence.
    + destruct Hb as (r & Hr' & <-). exists rb. split; [done|]. apply Hold in Rb. congruence.
  - intros (a & b & (ra & Ra & <-) & (rb & Rb & <-) & Hab). exists a, b. split_and!; [| |done].
    + exists ra. auto.
    + exists rb. auto.
Qed.

Lemma register_paths_spec infos : forall st st1,
  ls_ok st -> Forall info_fits infos -> (db_next (ls_db st) + Z.of_nat (length infos) <= 2 ^ 31)%Z ->
  foldM (register_path nixStore readFile now dfuel) st infos = Ok st1 ->
  ls_ok st1 /\ db_refs (ls_db st1) = db_refs (ls_db st) /\
  (forall id r, db_valid (ls_db st) !! id = Some r -> db_valid (ls_db st1) !! id = Some r) /\
  (forall id r, db_valid (ls_db st1) !! id = Some r ->
    db_valid (ls_db st) !! id = Some r \/ exists i, i ∈ infos /\ r = info_row now i /\ path i ∉ all_paths (ls_db st)) /\
  (forall i, i ∈ infos -> path i ∈ all_paths (ls_db st1)).
Proof.
  induction infos as [|i infos IH]; intros st st1 Hok Hfit Hn E; cbn [foldM] in E.
  { injection E as <-. split_and!; [done|done|done|by left|]. intros i Hi. by apply elem_of_nil in Hi. }
  apply Forall_cons in Hfit as [Hi Hfit]. apply bind_Ok in E as (st0 & E0 & E). cbn [length] in Hn.
  apply register_path_spec in E0 as [H1 H2 H3 H4 H5 H6]; [|done|done|lia].
  apply IH in E as (K1 & K2 & K3 & K4 & K5); [|done|done|lia].
  assert (Hsub : forall p, p ∈ all_paths (ls_db st) -> p ∈ all_paths (ls_db st0)).
  { intros p (id & r & Hr & <-)%elem_of_all_paths. apply elem_of_all_paths. exists id, r. auto. }
  split_and!; [done|congruence|auto| |].
  - intros id r Hr. destruct (K4 id r Hr) as [Hr0|(k & Hk & -> & Hnk)].
    + destruct (H5 id r Hr0) as [Hr1|[-> Hni]]; [by left|]. right. exists i. split; [left|done].
    + right. exists k. split; [by right|]. split; [done|]. auto.
  - intros k [-> |Hk]%elem_of_cons; [|auto]. apply elem_of_all_paths in H6 as (id & r & Hr & Hp).
    apply elem_of_all_paths. exists id, r. auto.
Qed.

Lemma register_all_refs_spec infos : forall st st',
  ls_ok st -> foldM register_refs st infos = Ok st' ->
  ls_ok st' /\ db_valid (ls_db st') = db_valid (ls_db st) /\
  (forall p q, db_ref (ls_db st') p q <-> db_ref (ls_db st) p q \/ exists i, i ∈ infos /\ path i = p /\ q ∈ references i) /\
  (forall i q, i ∈ infos -> q ∈ references i -> q ∈ all_paths (ls_db st)).
Proof.
  induction infos as [|i infos IH]; intros st st' Hok E; cbn [foldM] in E.
  { injection E as <-. split_and!; [done|done| |set_solver]. intros p q. split; [by left|].
    intros [H|(i & Hi & _)]; [done|]. by apply elem_of_nil in Hi. }
  apply bind_Ok in E as (st0 & E0 & E). apply register_refs_spec in E0 as [H1 H2 H3 H4]; [|done].
  apply IH in E as (K1 & K2 & K3 & K4); [|done]. split_and!; [done|congruence| |].
  - intros p q. rewrite K3, H3. split.
    + intros [[H|[-> H]]|(k & Hk & H)]; [by left|right; exists i; split; [left|done]|right; exists k; split; [by right|done]].
    + intros [H|(k & [-> |Hk]%elem_of_cons & <- & Hq)]; [by left; left|by left; right|right; by exists k].
  - intros k q [-> |Hk]%elem_of_cons Hq; [by apply H4|]. rewrite <- (all_paths_valid (ls_db st) (ls_db st0)) by done.
    by apply (K4 k).
Qed.

Lemma registration_loops st infos st1 st2 :
  ls_ok st -> Forall info_fits infos -> (db_next (ls_db st) + Z.of_nat (length infos) <= 2 ^ 31)%Z ->
  foldM (register_path nixStore readFile now dfuel) st infos = Ok st1 -> foldM register_refs st1 infos = Ok st2 ->
  registration infos st st2.
Proof.
  intros Hok Hfit Hn E1 E2.
  apply register_paths_spec in E1 as (H1 & H2 & H3 & H4 & H5); [|done|done|done].
  apply register_all_refs_spec in E2 as (K1 & K2 & K3 & K4); [|done].
  split; rewrite ?K2; [done|done|done| | |].
  - intros p. rewrite (all_paths_valid (ls_db st1)) by done. split.
    + intros (id & r & Hr & <-)%elem_of_all_paths. destruct (H4 id r Hr) as [Hr0|(i & Hi & -> & _)].
      * left. apply elem_of_all_paths. by exists id, r.
      * right. by exists i.
    + intros [(id & r & Hr & <-)%elem_of_all_paths|(i & Hi & <-)]; [|auto]. apply elem_of_all_paths. exists id, r. auto.
  - intros p q. rewrite K3, (db_ref_mono (ls_db st) (ls_db st1)) by done. done.
  - intros i q Hi Hq. rewrite (all_paths_valid (ls_db st1)) by done. by apply (K4 i).
Qed.

Lemma registerValidPaths_spec st infos st' :
  ls_ok st -> Forall info_fits infos -> (db_next (ls_db st) + Z.of_nat (length infos) <= 2 ^ 31)%Z ->
  registerValidPaths nixStore readFile now dfuel st infos = Ok st' -> registration infos st st'.
Proof.
  intros Hok Hfit Hn E. unfold registerValidPaths in E. apply bind_Ok in E as (st1 & E1 & E).
  apply bind_Ok in E as (st2 & E2 & E). apply bind_Ok in E as (l & _ & [= <-]). by apply (registration_loops st infos st1).
Qed.

(** C14: registering a batch of paths keeps the database invariant, makes exactly
    the given paths valid in addition, keeps every existing row, adds exactly the
    given references, and all of these are to valid paths (the set of valid paths
    stays closed); a new path can be queried back with the hash, size and deriver
    it was registered with. *)
Theorem registerValidPaths_correct st infos st' :
  ls_ok st -> Forall info_fits infos -> (db_next (ls_db st) + Z.of_nat (length infos) <= 2 ^ 31)%Z ->
  registerValidPaths nixStore readFile now dfuel st infos = Ok st' ->
  registration infos st st' /\
  (NoDup (map path infos) -> forall i, i ∈ infos -> path i ∉ all_paths (ls_db st) -> (0 <= narSize i < 2 ^ 64)%Z ->
    exists info, queryPathInfo nixStore st' (path i) = Ok info /\ vhash info = vhash i /\
      deriver info = deriver i /\ narSize info = narSize i /\ references info = references i).
Proof.
  intros Hok Hfit Hn E. pose proof (registerValidPaths_spec st infos st' Hok Hfit Hn E) as HR.
  split; [done|]. destruct HR as [R1 R2 R3 R4 R5 R6]. intros Hnd i Hi Hnew Hnar.
  destruct (queryPathInfo_valid st' (path i) R1) as (id & r & h & Hr & Hp & Hh & Hhok & Eq); [apply R4; right; by exists i|].
  eexists. split; [exact Eq|]. cbn [vhash deriver narSize references].
  assert (Hinj : forall k, k ∈ infos -> path k = path i -> k = i).
  { intros k Hk Hpk. apply list_elem_of_lookup in Hi as [a Ha]. apply list_elem_of_lookup in Hk as [b Hb].
    rewrite NoDup_alt in Hnd. assert (a = b) as <-; [|congruence].
    apply (Hnd a b (path i)); rewrite list_lookup_fmap; [by rewrite Ha|by rewrite Hb, <- Hpk]. }
  destruct (R3 id r Hr) as [Hr0|(k & Hk & -> & _)].
  { destruct Hnew. apply elem_of_all_paths. by exists id, r. }
  cbn in Hp. rewrite (Hinj k Hk Hp) in *. unfold info_row in *. cbn [r_hash r_deriver r_narSize] in *.
  rewrite Forall_forall in Hfit. destruct (Hfit i Hi) as [_ Hhi]. split_and!.
  - symmetry. apply app_inv_head in Hh.
    assert (type h = htSHA256 /\ type (vhash i) = htSHA256) as [T1 T2].
    { split.
      - unfold queryPathInfo in Eq. apply bind_Ok in Eq as (u & _ & Eq). destruct (sql_path _ _) as [[j s]|] eqn:Es; [|done].
        apply sql_path_some in Es as [Hj Hjp]; [|done]. destruct (ok_rows _ _ R1 j s Hj) as [_ (h' & Hh' & Ht' & Hs')].
        rewrite Hs', parseHashField_ok in Eq by done. cbn in Eq. congruence.
      - unfold registerValidPaths in E. apply bind_Ok in E as (st1 & E1 & _). clear -E1 Hi. revert st E1.
        induction infos as [|k infos IH]; intros st E1; [by apply elem_of_nil in Hi|]. cbn [foldM] in E1.
        apply bind_Ok in E1 as (st0 & E0 & E1). apply elem_of_cons in Hi as [-> |Hi]; [|by eapply IH].
        unfold register_path, assert_ in E0. apply bind_Ok in E0 as (u & Ha & _). by case_bool_decide. }
    apply printHash_inj; [done|done|congruence|congruence].
  - destruct (str_eqb (deriver i) []) eqn:Ed; reflect; [by rewrite Ed|done].
  - destruct (Z.eqb_spec (narSize i) 0) as [-> |]; [done|]. cbn. by apply u64_small.
  - apply set_eq. intros q. rewrite elem_of_ls_refs by done. rewrite R5. split.
    + intros [(a & b & Ha & _)|(k' & Hk' & Hpk & Hq)].
      * destruct Hnew. apply elem_of_all_paths. by exists a.
      * by rewrite (Hinj k' Hk' Hpk) in Hq.
    + intros Hq. right. by exists i.
Qed.

(** A batch that [registerValidPaths] accepts up to cycles: no derivations (whose
    outputs would have to be checked too), SHA-256 hashes, references to paths that
    are valid or in the batch. *)
Definition plain_info (i : ValidPathInfo) : Prop := type (vhash i) = htSHA256 /\ isDerivation (path i) = false.
Definition batch_closed (st : LocalStore) (infos : list ValidPathInfo) : Prop :=
  forall i q, i ∈ infos -> q ∈ references i -> q ∈ all_paths (ls_db st) \/ exists j, j ∈ infos /\ path j = q.

Lemma register_path_plain st i : plain_info i -> exists st', register_path nixStore readFile now dfuel st i = Ok st'.
Proof.
  intros [Ht Hd]. unfold register_path, assert_, ls_isValidPath. rewrite (bool_decide_eq_true_2 (type (vhash i) = htSHA256)) by done. cbn [mbind result_bind].
  case_bool_decide as Hv; cbn [negb]; [by eexists|]. unfold addValidPath, stmtRegisterValidPath.
  change (r_path (info_row now i)) with (path i). destruct (sql_path (ls_db st) (path i)); [by destruct Hv|].
  cbn [mbind result_bind]. rewrite Hd. by eexists.
Qed.

Lemma register_paths_plain infos : forall st, Forall plain_info infos ->
  exists st', foldM (register_path nixStore readFile now dfuel) st infos = Ok st'.
Proof.
  induction infos as [|i infos IH]; intros st Hp; cbn [foldM]; [by eexists|].
  apply Forall_cons in Hp as [Hi Hp]. destruct (register_path_plain st i Hi) as [st1 ->]. by apply IH.
Qed.

Lemma queryValidPathId_valid st p :
  ls_ok st -> p ∈ all_paths (ls_db st) -> exists i, queryValidPathId st p = Ok i /\ db_path (ls_db st) i p.
Proof.
  intros Hok Hp. destruct (queryValidPathId st p) as [i| |] eqn:E.
  - exists i. split; [done|]. by apply queryValidPathId_spec.
  - apply sql_path_valid in Hp as [[i r] Hs]. unfold queryValidPathId in E. by rewrite Hs in E.
  - unfold queryValidPathId in E. by destruct (sql_path (ls_db st) p) as [[]|].
Qed.

Lemma register_refs_total infos : forall st, ls_ok st ->
  (forall i, i ∈ infos -> path i ∈ all_paths (ls_db st) /\ forall q, q ∈ references i -> q ∈ all_paths (ls_db st)) ->
  exists st', foldM register_refs st infos = Ok st'.
Proof.
  assert (Hl : forall l st id p, ls_ok st -> db_path (ls_db st) id p -> (forall q, q ∈ l -> q ∈ all_paths (ls_db st)) ->
    exists st', foldM (fun st j => reference ← queryValidPathId st j; addReference st id reference) st l = Ok st').
  { induction l as [|j l IH]; intros st id p Hok Hid Hl; cbn [foldM]; [by eexists|].
    destruct (queryValidPathId_valid st j Hok) as (jid & -> & Hj); [apply Hl; left|]. rewrite bind_ret.
    destruct (addReference st id jid) as [st1| |] eqn:E.
    2,3: exfalso; unfold addReference, stmtAddReference in E;
      rewrite (i32_id (ls_db st) id p), (i32_id (ls_db st) jid j) in E by done;
      destruct Hid as (r & Hr & _), Hj as (s & Hs & _);
      rewrite !bool_decide_eq_true_2 in E by (by eexists); done.
    rewrite bind_ret. destruct (addReference_spec st id p jid j st1 Hok Hid Hj E) as [Hok1 Hv _ _].
    apply (IH st1 id p Hok1); [by rewrite (db_path_valid (ls_db st))|].
    intros q Hq. rewrite (all_paths_valid (ls_db st)) by done. apply Hl. by right. }
  induction infos as [|i infos IH]; intros st Hok Hin; cbn [foldM]; [by eexists|].
  assert (exists st1, register_refs st i = Ok st1) as [st1 E].
  { destruct (Hin i) as [Hp Hq]; [left|]. unfold register_refs.
    destruct (queryValidPathId_valid st (path i) Hok Hp) as (id & -> & Hid). rewrite bind_ret.
    apply (Hl _ st id (path i)); [done|done|]. intros q Hq'%elem_of_set_iter. auto. }
  rewrite E, bind_ret. apply register_refs_spec in E as [Hok1 Hv _ _]; [|done]. apply IH; [done|].
  intros j Hj. rewrite (all_paths_valid (ls_db st)) by done. apply Hin. by right.
Qed.

(** The references between paths of a batch, once they are registered. *)
Definition batch_ref (st : LocalStore) (infos : list ValidPathInfo) (p q : str) : Prop :=
  p <> q /\ (exists i, i ∈ infos /\ path i = p) /\ (exists j, j ∈ infos /\ path j = q) /\
  (db_ref (ls_db st) p q \/ exists i, i ∈ infos /\ path i = p /\ q ∈ references i).

Lemma tedge_batch st infos st' : registration infos st st' ->
  forall p q, tedge (H0 := LocalStore_laws) st' (list_to_set (map path infos)) p q <-> batch_ref st infos p q.
Proof.
  intros HR p q. unfold tedge, batch_ref. cbn [valid refs_of LocalStore_laws].
  rewrite elem_of_ls_refs, (rn_refs _ _ _ HR), !elem_of_list_to_set, !list_elem_of_fmap by apply HR.
  rewrite (rn_valid _ _ _ HR). split.
  - intros ((i & -> & Hi) & _ & Href & Hne & (j & -> & Hj)). split_and!; [done|by exists i|by exists j|done].
  - intros (Hne & (i & Hi & <-) & (j & Hj & <-) & Href). split_and!; [by exists i|right; by exists i|done|done|by exists j].
Qed.

Lemma registerValidPaths_outcome st infos :
  ls_ok st -> Forall info_fits infos -> Forall plain_info infos -> batch_closed st infos ->
  (db_next (ls_db st) + Z.of_nat (length infos) <= 2 ^ 31)%Z ->
  match registerValidPaths nixStore readFile now dfuel st infos with
  | Ok st' => registration infos st st' /\ forall p, ~ clos_trans str (batch_ref st infos) p p
  | Throw e => exn_kind e = eBuildError /\ exists p, clos_trans str (batch_ref st infos) p p
  | NoFuel => False
  end.
Proof.
  intros Hok Hfit Hplain Hclosed Hn. destruct (register_paths_plain infos st Hplain) as [st1 E1].
  pose proof (register_paths_spec infos st st1 Hok Hfit Hn E1) as (H1 & H2 & H3 & H4 & H5).
  destruct (register_refs_total infos st1 H1) as [st2 E2].
  { intros i Hi. split; [by apply H5|]. intros q Hq. destruct (Hclosed i q Hi Hq) as [Hv|(j & Hj & <-)]; [|by apply H5].
    apply elem_of_all_paths in Hv as (id & r & Hr & <-). apply elem_of_all_paths. exists id, r. auto. }
  pose proof (registration_loops st infos st1 st2 Hok Hfit Hn E1 E2) as HR.
  unfold registerValidPaths. rewrite E1, bind_ret, E2, bind_ret.
  pose proof (topoSortPaths_spec (H0 := LocalStore_laws) st2 (rn_ok _ _ _ HR) (list_to_set (map path infos))) as Ht.
  assert (Hcl : forall p q, clos_trans str (tedge (H0 := LocalStore_laws) st2 (list_to_set (map path infos))) p q <->
    clos_trans str (batch_ref st infos) p q).
  { intros p q. split; (induction 1 as [|x y z _ IH1 _ IH2]; [apply t_step; by apply (tedge_batch _ _ _ HR)|by apply t_trans with y]). }
  destruct (topoSortPaths _ _) as [l|e|]; [|destruct Ht as (He & p & Hp)|done].
  - cbn. split; [done|]. destruct Ht as (_ & _ & _ & Ht). intros p Hp. by apply (Ht p), Hcl.
  - split; [done|]. exists p. by apply Hcl.
Qed.

(** A batch of plain paths whose references are valid or in the batch is
    registered unless the references between its paths form a cycle (a path that
    refers to itself aside); a cycle is reported as [BuildError], and it is the
    only reason for a failure. *)
Theorem registerValidPaths_total st infos :
  ls_ok st -> Forall info_fits infos -> Forall plain_info infos -> batch_closed st infos ->
  (db_next (ls_db st) + Z.of_nat (length infos) <= 2 ^ 31)%Z ->
  match registerValidPaths nixStore readFile now dfuel st infos with
  | Ok st' => registration infos st st' /\ forall p, ~ clos_trans str (batch_ref st infos) p p
  | Throw e => exn_kind e = eBuildError /\ exists p, clos_trans str (batch_ref st infos) p p
  | NoFuel => False
  end.
Proof. apply registerValidPaths_outcome. Qed.

(** * Invalidation *)

(** What removing the row of [p] does. *)
Record invalidated_db (p : str) (db db' : DB) : Prop := {
  iv_ok : db_ok db';
  iv_rows : forall i r, db_valid db' !! i = Some r <-> db_valid db !! i = Some r /\ r_path r <> p;
  iv_refs : forall a b, db_ref db' a b <-> db_ref db a b /\ a <> p;
  iv_failed : db_failed db' = db_failed db }.

Lemma invalidated_paths p db db' : invalidated_db p db db' -> all_paths db' = all_paths db ∖ {[p]}.
Proof using nixStore.
  intros HI. apply set_eq. intros q. rewrite elem_of_difference, elem_of_singleton, !elem_of_all_paths. split.
  - intros (i & r & [Hr Hp]%(iv_rows _ _ _ HI) & <-). split; [by exists i, r|done].
  - intros [(i & r & Hr & <-) Hne]. exists i, r. split; [|done]. by apply (iv_rows _ _ _ HI).
Qed.

(** The [on delete restrict] of the table of references does not fire when only
    the path itself refers to it. *)
Lemma only_self_referrer db p i : db_ok db -> db_path db i p ->
  (forall q, db_ref db q p -> q = p) -> ~ set_Exists (fun ab : Z * Z => ab.2 = i) (filter (fun ab => ab <> (i, i)) (db_refs db)).
Proof using nixStore.
  intros Hok Hi Hself ([a b] & [Hne Hab]%elem_of_filter & Hb). cbn in Hb. subst b.
  destruct (ok_refs _ db Hok a i Hab) as [[ra Ra] _]. assert (db_path db a (r_path ra)) as Ha by (by exists ra).
  rewrite (Hself (r_path ra)) in Ha by (by exists a, i). rewrite (db_path_unique db a i p) in Hne by done. done.
Qed.

Lemma stmtInvalidatePath_spec db p :
  db_ok db -> (forall q, db_ref db q p -> q = p) ->
  exists db', stmtInvalidatePath db p = Ok db' /\ invalidated_db p db db'.
Proof using nixStore.
  clear readFile now dfuel HA. intros Hok Hself. unfold stmtInvalidatePath. destruct (sql_path db p) as [[i r]|] eqn:E.
  2:{ rewrite sql_path_none in E. exists db. split; [done|]. split; [done| | |done].
      - intros j s. split; [|tauto]. intros Hj. split; [done|by apply (E j)].
      - intros a b. split; [|tauto]. intros Hab. split; [done|]. intros ->. destruct Hab as (x & y & (s & Hs & Hp) & _).
        by apply (E x s). }
  apply sql_path_some in E as [Hi Hp]; [|done]. assert (db_path db i p) as Hip by (by exists r).
  pose proof (only_self_referrer db p i Hok Hip Hself) as Hno. rewrite bool_decide_eq_false_2 by done.
  eexists. split; [done|].
  assert (Hrows : forall j s, delete i (db_valid db) !! j = Some s <-> db_valid db !! j = Some s /\ r_path s <> p).
  { intros j s. rewrite lookup_delete_Some. split.
    - intros [Hj Hs]. split; [done|]. intros Es. apply Hj. symmetry. by apply (db_path_unique db j i p); [done|exists s|].
    - intros [Hs Hne]. split; [|done]. intros <-. congruence. }
  assert (Hne : forall a b, (a, b) ∈ db_refs db -> a <> i -> b <> i).
  { intros a b Hab Ha ->. apply Hno. exists (a, i). split; [|done]. apply elem_of_filter. split; [congruence|done]. }
  assert (Hkeep : forall a, a <> i -> is_Some (db_valid db !! a) -> is_Some (delete i (db_valid db) !! a))
    by (intros a Ha Hs; by rewrite lookup_delete_ne).
  split; cbn [db_valid db_failed]; [|done| |done].
  - pose proof Hok as [H1 H2 H3 H4 H5 H6]. split; cbn.
    + intros j s [Hj _]%Hrows. by apply (H1 j s).
    + done.
    + intros j k s t [Hj _]%Hrows [Hk _]%Hrows. by apply H3.
    + intros a b [Ha [_ Hab]%elem_of_filter]%elem_of_filter. cbn in Ha. destruct (H4 a b Hab). eauto.
    + intros a k q [Hq Ha]%map_lookup_filter_Some. cbn in Ha. apply Hkeep; [done|]. by eapply H5.
    + intros j s [Hj _]%Hrows. by apply (H6 j).
  - intros a b. unfold db_ref, db_path. cbn [db_valid db_refs]. split.
    + intros (x & y & (s & [Hs Hsp]%Hrows & <-) & (t & [Ht _]%Hrows & <-) & [_ [_ Hxy]%elem_of_filter]%elem_of_filter).
      split; [|done]. exists x, y. split_and!; [by exists s|by exists t|done].
    + intros [(x & y & (s & Hs & <-) & (t & Ht & <-) & Hxy) Hap].
      assert (x <> i) as Hx by (intros ->; congruence). pose proof (Hne x y Hxy Hx) as Hy.
      exists x, y. split_and!; [exists s|exists t|].
      * by rewrite lookup_delete_ne by done.
      * by rewrite lookup_delete_ne by done.
      * apply elem_of_filter. split; [done|]. apply elem_of_filter. split; [congruence|done].
Qed.

Lemma invalidatePathChecked_Ok st p :
  ls_ok st -> isStorePath nixStore p = true -> (forall q, db_ref (ls_db st) q p -> q = p) ->
  exists st', invalidatePathChecked nixStore st p = Ok st' /\ invalidated_db p (ls_db st) (ls_db st').
Proof using nixStore.
  intros Hok Hs Hself. destruct (stmtInvalidatePath_spec (ls_db st) p Hok Hself) as (db' & Edb & HI).
  unfold invalidatePathChecked, ls_queryReferrers, assertStorePath, ls_isValidPath. rewrite Hs. cbn [mbind result_bind].
  case_bool_decide as Hv.
  - cbn [mbind result_bind]. rewrite bool_decide_eq_true_2.
    2:{ apply set_eq. intros q. rewrite elem_of_difference, elem_of_referrers, elem_of_singleton by done.
        split; [|set_solver]. intros [Hq Hne]. by destruct Hne; apply Hself. }
    cbn [negb]. unfold invalidatePath. rewrite Edb. eexists. split; [done|]. done.
  - exists st. split; [done|]. unfold stmtInvalidatePath in Edb.
    destruct (sql_path (ls_db st) p) eqn:E; [by destruct Hv|]. by injection Edb as <-.
Qed.

(** The outcomes of [invalidatePathChecked]. *)
Lemma invalidatePathChecked_outcome st p :
  ls_ok st ->
  match invalidatePathChecked nixStore st p with
  | Ok st' => isStorePath nixStore p = true /\ (forall q, db_ref (ls_db st) q p -> q = p) /\
      invalidated_db p (ls_db st) (ls_db st') /\ all_paths (ls_db st') = all_paths (ls_db st) ∖ {[p]}
  | Throw e => (exn_kind e = eError /\ isStorePath nixStore p = false) \/
      (exn_kind e = ePathInUse /\ exists q, q <> p /\ db_ref (ls_db st) q p)
  | NoFuel => False
  end.
Proof using nixStore.
  intros Hok. destruct (isStorePath nixStore p) eqn:Hs.
  2:{ unfold invalidatePathChecked, assertStorePath. rewrite Hs. cbn. by left. }
  destruct (decide (set_Exists (fun q => q <> p) (stmtQueryReferrers (ls_db st) p))) as [(q & Hq & Hne)|Hno].
  - rewrite elem_of_referrers in Hq by done.
    unfold invalidatePathChecked, ls_queryReferrers, assertStorePath, ls_isValidPath. rewrite Hs. cbn [mbind result_bind].
    rewrite bool_decide_eq_true_2.
    2:{ apply sql_path_valid, elem_of_all_paths. destruct Hq as (a & b & _ & Hb & _). by exists b. }
    cbn [mbind result_bind]. rewrite bool_decide_eq_false_2; [right; by split; [|exists q]|].
    intros He. apply (not_elem_of_empty (C := gset str) q). rewrite <- He. apply elem_of_difference.
    rewrite elem_of_referrers, elem_of_singleton by done. done.
  - assert (forall q, db_ref (ls_db st) q p -> q = p) as Hself.
    { intros q Hq. destruct (decide (q = p)) as [|Hne]; [done|]. destruct Hno. exists q. by rewrite elem_of_referrers. }
    destruct (invalidatePathChecked_Ok st p Hok Hs Hself) as (st' & -> & HI). split_and!; [done|done|done|].
    by apply invalidated_paths.
Qed.

(** C15: [invalidatePathChecked] fails exactly on something that is not a store path
    and on a path another path refers to, with [PathInUse] and without changing
    the database; otherwise it removes exactly the row and the references of the
    path, and the invariant (hence the closure of the valid paths) is kept. *)
Theorem invalidatePathChecked_spec st p :
  ls_ok st ->
  match invalidatePathChecked nixStore st p with
  | Ok st' => isStorePath nixStore p = true /\ (forall q, db_ref (ls_db st) q p -> q = p) /\
      invalidated_db p (ls_db st) (ls_db st') /\ all_paths (ls_db st') = all_paths (ls_db st) ∖ {[p]}
  | Throw e => (exn_kind e = eError /\ isStorePath nixStore p = false) \/
      (exn_kind e = ePathInUse /\ exists q, q <> p /\ db_ref (ls_db st) q p)
  | NoFuel => False
  end.
Proof using nixStore. apply invalidatePathChecked_outcome. Qed.

(** The remaining writers keep the invariant. *)
Lemma updatePathInfo_ok st info :
  ls_ok st -> hash_ok (vhash info) -> type (vhash info) = htSHA256 -> ls_ok (updatePathInfo st info).
Proof.
  intros Hok Hh Ht. unfold ls_ok, updatePathInfo, stmtUpdatePathInfo. cbn.
  destruct (sql_path (ls_db st) (path info)) as [[i r]|] eqn:E; [|done].
  apply sql_path_some in E as [Hi Hp]; [|done]. set (r' := mkRow _ _ _ _ _).
  assert (Hold : forall j s, <[i := r']> (db_valid (ls_db st)) !! j = Some s ->
    exists s', db_valid (ls_db st) !! j = Some s' /\ r_path s' = r_path s /\ (r_hash s = r_hash s' \/ s = r')).
  { intros j s [[<- <-]|[_ Hs]]%lookup_insert_Some; [exists r|exists s]; split_and!; try done; [by right|by left]. }
  assert (Hkeep : forall a, is_Some (db_valid (ls_db st) !! a) -> is_Some (<[i := r']> (db_valid (ls_db st)) !! a)).
  { intros a Ha. rewrite lookup_insert_is_Some. destruct (decide (i = a)); eauto. }
  destruct Hok as [H1 H2 H3 H4 H5 H6]. split; cbn.
  - intros j s (s' & Hs & _)%Hold. by apply (H1 j s').
  - done.
  - intros j k s t (s' & Hs & <- & _)%Hold (t' & Ht' & <- & _)%Hold. by apply H3.
  - intros a b Hab. destruct (H4 a b Hab). auto.
  - intros a k q Hq. eauto.
  - intros j s (s' & Hs & <- & Hh')%Hold. destruct (H6 j s' Hs) as [Hsp Hf]. split; [done|].
    destruct Hh' as [-> | ->]; [done|]. by exists (vhash info).
Qed.

Lemma set_failed_ok f db : db_ok db -> db_ok (set_failed f db).
Proof. intros [H1 H2 H3 H4 H5 H6]. by split. Qed.

Lemma registerFailedPath_ok st p : ls_ok st -> ls_ok (registerFailedPath now st p).
Proof. intros Hok. unfold registerFailedPath. case_match; [done|]. by apply set_failed_ok. Qed.

Lemma clearFailedPaths_ok st paths : ls_ok st -> ls_ok (clearFailedPaths st paths).
Proof.
  unfold ls_ok, clearFailedPaths. cbn. generalize (ls_db st) (set_iter paths). intros db l. revert db.
  induction l as [|p l IH]; intros db Hok; cbn; [done|]. apply IH. by apply set_failed_ok.
Qed.
End DBTheory.

(** ** Witnesses *)

Definition empty_store : LocalStore := mkLocalStore (mkDB ∅ 1 ∅ ∅ ∅) ∅.
Definition path_a : str := $"/nix/store/abc-a".
Definition path_b : str := $"/nix/store/abd-b".
Definition info_a : ValidPathInfo := mkValidPathInfo path_a [] sample_hash {[path_a; path_b]} 0 120 0.
Definition info_b : ValidPathInfo := mkValidPathInfo path_b [] sample_hash ∅ 0 120 0.
Definition sample_infos : list ValidPathInfo := [info_a; info_b].
Definition no_files (p : str) : result str := throw eSysError p.
Definition sample_registration : result LocalStore :=
  registerValidPaths (HA := checksum_algo) sample_store no_files 1000 0 empty_store sample_infos.
Definition sample_db : LocalStore := match sample_registration with Ok st => st | _ => empty_store end.

Lemma empty_store_ok : ls_ok sample_store empty_store.
Proof. split; cbn; [by intros ? ? ?|lia|by intros ? ? ? ? ?|by intros ? ? ?|by intros ? ? ? ?|by intros ? ? ?]. Qed.

Lemma sample_infos_fit : Forall (info_fits sample_store) sample_infos.
Proof. repeat constructor; try (by vm_compute); apply sample_hash_ok. Qed.

Lemma sample_registration_ok : sample_registration = Ok sample_db.
Proof. vm_compute. reflexivity. Qed.

Lemma sample_db_ok : ls_ok sample_store sample_db.
Proof.
  apply (rn_ok _ 1000 sample_infos empty_store). eapply (registerValidPaths_spec (HA := checksum_algo) sample_store no_files 1000 0).
  - apply empty_store_ok.
  - apply sample_infos_fit.
  - vm_compute. discriminate.
  - apply sample_registration_ok.
Qed.

Lemma registerValidPaths_correct_witness :
  exists info, queryPathInfo sample_store sample_db path_a = Ok info /\ narSize info = 120%Z /\
    references info = {[path_a; path_b]}.
Proof.
  destruct (registerValidPaths_correct (HA := checksum_algo) sample_store no_files 1000 0 empty_store sample_infos sample_db
    empty_store_ok sample_infos_fit ltac:(vm_compute; discriminate) sample_registration_ok) as [_ H].
  destruct (H ltac:(apply (bool_decide_unpack (NoDup (map path sample_infos))); vm_compute; exact I) info_a ltac:(left)
    ltac:(apply (bool_decide_unpack (path_a ∉ all_paths (ls_db empty_store))); vm_compute; exact I)
    ltac:(vm_compute; split; [discriminate|reflexivity])) as (info & H1 & _ & _ & H2 & H3).
  exists info. split; [exact H1|]. split; [exact H2|exact H3].
Defined.

Lemma sample_infos_closed : batch_closed empty_store sample_infos.
Proof.
  intros i q Hi Hq. right. unfold sample_infos in *. setoid_rewrite elem_of_cons. rewrite !elem_of_cons, elem_of_nil in Hi.
  destruct Hi as [-> |[-> |[]]]; cbn [references info_a info_b] in Hq; [|set_solver].
  assert (q = path_a \/ q = path_b) as [-> | ->] by set_solver; [exists info_a|exists info_b]; split; auto. right. left.
Qed.

Lemma registerValidPaths_total_witness :
  match sample_registration with
  | Ok st' => all_paths (ls_db st') = {[path_a; path_b]} /\ forall p, ~ clos_trans str (batch_ref empty_store sample_infos) p p
  | _ => False
  end.
Proof.
  pose proof (registerValidPaths_total (HA := checksum_algo) sample_store no_files 1000 0 empty_store sample_infos
    empty_store_ok sample_infos_fit ltac:(repeat constructor) sample_infos_closed
    ltac:(vm_compute; discriminate)) as H.
  fold sample_registration in H. rewrite sample_registration_ok in *. destruct H as [_ H]. split; [|exact H].
  apply (bool_decide_unpack (all_paths (ls_db sample_db) = {[path_a; path_b]})). vm_compute. exact I.
Defined.

Lemma invalidatePathChecked_spec_witness :
  match invalidatePathChecked sample_store sample_db path_a with
  | Ok st' => all_paths (ls_db st') = all_paths (ls_db sample_db) ∖ {[path_a]}
  | _ => False
  end.
Proof.
  pose proof (invalidatePathChecked_spec sample_store sample_db path_a sample_db_ok) as H.
  destruct (invalidatePathChecked sample_store sample_db path_a) as [st'|e|] eqn:E; vm_compute in E; [|discriminate..].
  destruct H as (_ & _ & _ & H). exact H.
Defined.

(** The closure and the sort on the local store. *)
Lemma computeFSClosure_reachable_witness :
  exists V, computeFSClosure (H := LocalStore_api sample_store) (size (all_paths (ls_db sample_db))) sample_db false false path_a ∅ = Ok V /\
    path_b ∈ V.
Proof.
  destruct (computeFSClosure_reachable (H0 := LocalStore_laws sample_store) sample_db sample_db_ok false false path_a)
    as (V & E & H).
  - apply (bool_decide_unpack (path_a ∈ all_paths (ls_db sample_db))). vm_compute. exact I.
  - exists V. split; [exact E|]. apply H. apply rt_step. split; [|split; [|left]].
    + apply (bool_decide_unpack (path_a ∈ all_paths (ls_db sample_db))). vm_compute. exact I.
    + apply (bool_decide_unpack (path_b ∈ all_paths (ls_db sample_db))). vm_compute. exact I.
    + apply (bool_decide_unpack (path_b ∈ ls_refs sample_db path_a)). vm_compute. exact I.
Defined.

Lemma topoSortPaths_correct_witness :
  match topoSortPaths (H := LocalStore_api sample_store) sample_db {[path_a; path_b]} with
  | Ok l => l = [path_a; path_b] /\ NoDup l
  | _ => False
  end.
Proof.
  pose proof (topoSortPaths_correct (H0 := LocalStore_laws sample_store) sample_db sample_db_ok {[path_a; path_b]}) as H.
  destruct (topoSortPaths sample_db _) as [l|e|] eqn:E; vm_compute in E; [|discriminate..].
  destruct H as [H _]. split; [|exact H]. injection E as <-. reflexivity.
Defined.
