(* ===== verification/GCRoots.v ===== *)
(** * The roots of the garbage collector (src/src/libstore/gc.cc)

    [findRoots], which follows the links below the gcroots directory,
    [addAdditionalRoots] and [readTempRoots].  The theorem: [findRoots] returns, and
    it finds exactly the links to valid store paths that are below the directory or
    one indirection away from a link below it; all it changes is that it removes
    links through which no root can be found. *)

From Stdlib Require Import ZArith Lia Ascii Relations.
From stdpp Require Import base strings sorting numbers gmap sets list.
From S2P Require Import Prelude Effects Util Serialise Hash FileSystem FileOps Archive References StorePath Derivations Closure LocalStore.

(** [std::map<Path, Path>], from links to store paths. *)
Definition Roots : Type := gmap str str.
#[export] Instance Roots_lookup : Lookup str str Roots := fun k (m : gmap str str) => m !! k.
#[export] Instance Roots_insert : Insert str str Roots := fun k v (m : gmap str str) => <[k := v]> m.
#[export] Instance Roots_empty : Empty Roots := (∅ : gmap str str).

Lemma Roots_insert_Some (m : Roots) k v l x :
  <[k := v]> m !! l = Some x <-> (k = l /\ v = x) \/ (k <> l /\ m !! l = Some x).
Proof. exact (lookup_insert_Some (m : gmap str str) k l v x). Qed.

Section Roots.
Context (nixStore nixStateDir cwd : str).

Definition gcRootsDir : str := $"gcroots".
Definition tempRootsDir : str := $"temproots".

(** [findRoots] over a tree, on the file system and the [Roots] found.  The system
    errors that can happen here ([ENOENT], [ENOTDIR]) are the ones it ignores. *)
Fixpoint findRoots_in (fuel : nat) (ls : LocalStore) (path : str) (recurseSymlinks deleteStale : bool) :
    M (FileSys * Roots) unit :=
  match fuel with
  | O => stuck
  | S fuel =>
      try_catch (fun k => bool_decide (k = eSysError))
        (st ← lift (fun s => lstat (fst s) path);
         match st with
         | IDir =>
             names ← lift (fun s => readDirectory (fst s) path);
             forM (fun i => findRoots_in fuel ls (child path i) recurseSymlinks deleteStale) names
         | ILnk _ =>
             target ← lift (fun s => t ← readLink (fst s) path; d ← dirOf path; absPath cwd t d);
             if isInStore nixStore target then
               storePath ← lift (fun _ => toStorePath nixStore target);
               v ← lift (fun _ => ls_isValidPath ls storePath);
               if (v : bool) then modify (fun s => (fst s, <[path := storePath]> (snd s))) else mret tt
             else if recurseSymlinks then
               e ← gets (fun s => pathExists (fst s) target);
               if (e : bool) then findRoots_in fuel ls target false deleteStale
               else if deleteStale then modify (fun s => (delete path (fst s), snd s))
               else mret tt
             else mret tt
         | _ => mret tt
         end)
        (fun _ => mret tt)
  end.
Definition rootsDir : result str := canonPath (nixStateDir ++ slash :: gcRootsDir).
(** The depth is at most that of the root tree and, after one link, of another. *)
Definition roots_fuel (fs : FileSys) : nat := 2 * S (size fs) + 1.
Definition findRoots (ls : LocalStore) (deleteStale : bool) : M (FileSys * Roots) unit :=
  dir ← lift (fun _ => rootsDir);
  fs ← gets fst;
  findRoots_in (roots_fuel fs) ls dir true deleteStale.

(** [addAdditionalRoots] and the body of its loop; [finder] is what the program run
    by [runProgram] prints, or [None] when [NIX_ROOT_FINDER] is empty. *)
Definition addRootLine (ls : LocalStore) (roots : gset str) (i : str) : result (gset str) :=
  if isInStore nixStore i then
    path ← toStorePath nixStore i;
    v ← ls_isValidPath ls path;
    Ok (if negb (bool_decide (path ∈ roots)) && v then {[path]} ∪ roots else roots)
  else Ok roots.
Definition addAdditionalRoots (ls : LocalStore) (finder : option (result str)) (roots : gset str) : result (gset str) :=
  match finder with
  | None => Ok roots
  | Some output =>
      out ← output;
      foldM (addRootLine ls) roots (tokenizeString out [NL])
  end.

(** The loop of [readTempRoots] over the contents of a file: the strings that end
    with NUL. *)
Fixpoint extract_roots (fuel : nat) (contents : str) (tempRoots : gset str) : result (gset str) :=
  match str_find NUL contents with
  | None => Ok tempRoots
  | Some e =>
      match fuel with
      | O => NoFuel
      | S fuel =>
          _ ← assertStorePath nixStore (take e contents);
          extract_roots fuel (drop (S e) contents) ({[take e contents]} ∪ tempRoots)
      end
  end.

(** [readTempRoots] and the body of its loop; [ownerAlive] says whether a write lock
    on a file is refused. *)
Definition readTempRootFile (ownerAlive : str -> bool) (path : str) : M (FileSys * gset str) unit :=
  f ← gets (fun s => fst s !! path);
  match f with
  | None => mret tt
  | Some (IReg _ contents) =>
      if ownerAlive path
      then update (fun s => roots ← extract_roots (length contents) contents (snd s); Ok (fst s, roots))
      else modify (fun s => (delete path (fst s), snd s))
  | Some _ => raise eSysError ($"opening temporary roots file `" ++ path ++ $"'")
  end.
Definition readTempRoots (ownerAlive : str -> bool) : M (FileSys * gset str) unit :=
  let dir := nixStateDir ++ slash :: tempRootsDir in
  files ← lift (fun s => readDirectory (fst s) dir);
  forM (fun i => readTempRootFile ownerAlive (child dir i)) files.
End Roots.

(** * Which roots there are *)

Section RootTheory.
Context (nixStore nixStateDir cwd : str) (ls : LocalStore).

(** Where the link at [path] with the given target leads. *)
Definition resolve (path target : str) : result str := d ← dirOf path; absPath cwd target d.

Definition is_valid (p : str) : Prop := p ∈ all_paths (ls_db ls).

(** [l] is a link into the valid store path [sp]. *)
Definition root_link (fs : FileSys) (l sp : str) : Prop :=
  exists tgt t, fs !! l = Some (ILnk tgt) /\ resolve l tgt = Ok t /\ isInStore nixStore t = true /\
    toStorePath nixStore t = Ok sp /\ is_valid sp.

(** The root links that are found from a path; a link that does not lead into the
    store is followed once. *)
Inductive found (fs : FileSys) : bool -> str -> str -> str -> Prop :=
| found_link rec path sp : root_link fs path sp -> found fs rec path path sp
| found_dir rec path n l sp : fs !! path = Some IDir -> name_ok n = true -> found fs rec (child path n) l sp ->
    found fs rec path l sp
| found_follow path tgt t l sp : fs !! path = Some (ILnk tgt) -> resolve path tgt = Ok t -> isInStore nixStore t = false ->
    found fs false t l sp -> found fs true path l sp.

(** A link through which nothing is found, and a file system that lacks some. *)
Definition useless (fs : FileSys) (k : str) : Prop :=
  exists tgt t, fs !! k = Some (ILnk tgt) /\ resolve k tgt = Ok t /\ isInStore nixStore t = false /\
    forall l sp, ~ found fs false t l sp.
Definition pruned (dir : str) (fs fs' : FileSys) : Prop :=
  forall k, fs' !! k = fs !! k \/ (fs' !! k = None /\ useless fs k /\ under dir k).

Lemma found_exists fs rec path l sp : found fs rec path l sp -> fs !! path <> None.
Proof. intros [? ? ? (? & ? & -> & _)|? ? ? ? ? -> _ _|? ? ? ? ? -> _ _ _]; done. Qed.

Lemma found_root fs rec path l sp : found fs rec path l sp -> root_link fs l sp.
Proof. induction 1; done. Qed.

Lemma root_link_fun fs l sp sp' : root_link fs l sp -> root_link fs l sp' -> sp = sp'.
Proof. intros (t1 & t2 & H1 & H2 & _ & H3 & _) (u1 & u2 & K1 & K2 & _ & K3 & _). congruence. Qed.

Lemma useless_not_found fs rec k l sp : useless fs k -> ~ found fs rec k l sp.
Proof.
  intros (tgt & t & H1 & H2 & H3 & H4) Hf. inversion Hf as [? ? ? (u & v & K1 & K2 & K3 & _)|? ? ? ? ? K|? u v ? ? K1 K2 K3 K4]; subst.
  - congruence.
  - congruence.
  - rewrite H1 in K1. injection K1 as <-. rewrite H2 in K2. injection K2 as <-. by apply (H4 l sp).
Qed.

Lemma pruned_found dir fs fs' rec path l sp : pruned dir fs fs' -> found fs rec path l sp -> found fs' rec path l sp.
Proof.
  intros Hp Hf.
  assert (Hkeep : forall rec k l sp, found fs rec k l sp -> fs' !! k = fs !! k).
  { intros r k l' sp' Hk. destruct (Hp k) as [?|(_ & Hu & _)]; [done|]. by destruct (useless_not_found _ _ _ _ _ Hu Hk). }
  induction Hf as [rec path sp Hr|rec path n l sp Hd Hn Hf IH|path tgt t l sp Hl Ht Hs Hf IH].
  - apply found_link. destruct Hr as (tgt & t & H1 & Hr). exists tgt, t. split; [|done].
    rewrite (Hkeep true path path sp); [done|]. apply found_link. by exists tgt, t.
  - apply (found_dir _ _ _ n); [|done|done]. rewrite (Hkeep rec path l sp); [done|]. by apply (found_dir _ _ _ n).
  - apply (found_follow _ _ tgt t); [|done|done|done]. rewrite (Hkeep true path l sp); [done|]. by apply (found_follow _ _ tgt t).
Qed.

Lemma pruned_sub dir fs fs' k i : pruned dir fs fs' -> fs' !! k = Some i -> fs !! k = Some i.
Proof. intros Hp E. destruct (Hp k) as [?|(? & _)]; congruence. Qed.

(** ** Paths of a well-formed file system are absolute *)

Lemma wf_abs fs : fs_wf fs -> forall k, fs !! k <> None -> is_abs k = true.
Proof.
  intros Hwf k. remember (length k) as m eqn:Em. revert k Em. induction m as [m IH] using lt_wf_ind.
  intros k -> Hk. destruct (Hwf k Hk) as (d & n & -> & Hn & Hd). destruct Hd as [-> |Hd]; [apply char_eqb_refl|].
  assert (length d < length (child d n))%nat as Hlt by (unfold child; rewrite length_app; cbn; lia).
  pose proof (IH _ Hlt d eq_refl ltac:(congruence)) as Ha. by destruct d.
Qed.

Lemma resolve_ok fs k tgt : fs_wf fs -> fs !! k <> None -> exists t, resolve k tgt = Ok t.
Proof.
  intros Hwf Hk. pose proof (wf_abs fs Hwf k Hk) as Ha. destruct (Hwf k Hk) as (d & n & -> & [_ Hn]%name_ok_spec & Hd).
  unfold resolve, dirOf, absPath. unfold child at 1. rewrite str_rfind_app by done. rewrite bind_ret.
  destruct (is_abs tgt) eqn:Et; [by eexists; apply canonPath_abs|]. eexists. apply canonPath_abs.
  unfold child in *. destruct d as [|c d]; [done|].
  change (length (c :: d) =? 0)%nat with false. cbv iota. rewrite take_app_length. done.
Qed.

(** ** The search *)

Context (dir : str) (fs0 : FileSys) (wf0 : fs_wf fs0).

Definition need (rec : bool) (path : str) : nat :=
  (size (subtree path fs0) + (if rec then S (size fs0) else 0) + 1)%nat.

Definition consistent (m : Roots) : Prop := forall l sp, m !! l = Some sp -> root_link fs0 l sp.

(** The search from the paths [ps] adds exactly the roots found there. *)
Definition finds (rec : bool) (ps : list str) (m : Roots) (o : outcome (FileSys * Roots) unit) : Prop :=
  exists (fs' : FileSys) (m' : Roots), o = Done tt (fs', m') /\ pruned dir fs0 fs' /\
    forall l sp, m' !! l = Some sp <-> m !! l = Some sp \/ exists p, p ∈ ps /\ found fs0 rec p l sp.

Lemma finds_none (rec : bool) (path : str) (fs : FileSys) (m : Roots) :
  pruned dir fs0 fs -> (forall l sp, ~ found fs0 rec path l sp) -> finds rec [path] m (Done tt (fs, m)).
Proof.
  intros Hp Hn. exists fs, m. split_and!; [done|done|]. intros l sp. split; [by left|].
  intros [?|(p & ->%list_elem_of_singleton & Hf)]; [done|]. by destruct (Hn l sp).
Qed.

Lemma finds_consistent (rec : bool) (ps : list str) (m m' : Roots) :
  consistent m -> (forall l sp, m' !! l = Some sp <-> m !! l = Some sp \/ exists p, p ∈ ps /\ found fs0 rec p l sp) ->
  consistent m'.
Proof. intros Hm Hf l sp [?|(p & _ & Hp)]%Hf; [by apply Hm|by eapply found_root]. Qed.

Lemma finds_loop (rec : bool) (f : str -> M (FileSys * Roots) unit) (ps : list str) : forall (fs : FileSys) (m : Roots),
  pruned dir fs0 fs -> consistent m ->
  (forall (p : str) (fs : FileSys) (m : Roots), p ∈ ps -> pruned dir fs0 fs -> consistent m -> finds rec [p] m (f p (fs, m))) ->
  finds rec ps m (forM f ps (fs, m)).
Proof.
  induction ps as [|p ps IH]; intros fs m Hp Hm Hf; cbn [forM].
  { exists fs, m. split_and!; [done|done|]. intros l sp. split; [by left|]. intros [?|(p & Hin & _)]; [done|by apply elem_of_nil in Hin]. }
  destruct (Hf p fs m) as (fs1 & m1 & E1 & Hp1 & H1); [left|done|done|]. unfold mbind, M_bind. rewrite E1.
  destruct (IH fs1 m1 Hp1) as (fs2 & m2 & E2 & Hp2 & H2); [by eapply finds_consistent| |].
  { intros q fs' m' Hq. apply Hf. by right. }
  exists fs2, m2. split_and!; [done|done|]. intros l sp. rewrite H2, H1. setoid_rewrite elem_of_cons.
  setoid_rewrite elem_of_nil. naive_solver.
Qed.

Lemma toStorePath_ok t : isInStore nixStore t = true -> exists sp, toStorePath nixStore t = Ok sp.
Proof. intros H. unfold toStorePath. rewrite H. cbn [negb]. case_match; eauto. Qed.

(** A directory: what is found in its entries. *)
Lemma found_entries fs rec path names l sp :
  pruned dir fs0 fs -> readDirectory fs path = Ok names ->
  found fs0 rec path l sp <-> exists p, p ∈ (child path <$> names) /\ found fs0 rec p l sp.
Proof.
  intros Hp En. destruct (readDirectory_spec fs path names En) as (Hd & _ & Hn).
  pose proof (pruned_sub _ _ _ _ _ Hp Hd) as Hd0. split.
  - intros Hf. inversion Hf as [? ? ? (u & v & K & _)|? ? n ? ? _ Hok Hfn|? ? ? ? ? K]; subst; [congruence| |congruence].
    exists (child path n). split; [|done]. apply list_elem_of_fmap. exists n. split; [done|]. apply Hn. split; [done|].
    by eapply found_exists, pruned_found.
  - intros (p & (n & -> & [Hok _]%Hn)%list_elem_of_fmap & Hf). by apply (found_dir _ _ _ n).
Qed.

(** A link into the store. *)
Lemma finds_root_link (rec : bool) (path tgt t : str) (fs : FileSys) (m : Roots) :
  pruned dir fs0 fs -> consistent m -> fs0 !! path = Some (ILnk tgt) -> resolve path tgt = Ok t -> isInStore nixStore t = true ->
  finds rec [path] m
    ((storePath ← lift (fun _ => toStorePath nixStore t);
      v ← lift (fun _ => ls_isValidPath ls storePath);
      if (v : bool) then modify (fun s => (fst s, <[path := storePath]> (snd s))) else mret tt) (fs, m)).
Proof.
  intros Hp Hm Hl Ht Hs. destruct (toStorePath_ok t Hs) as [sp0 Esp].
  unfold mbind, M_bind, lift. rewrite Esp. unfold ls_isValidPath.
  assert (Hinv : forall l sp, found fs0 rec path l sp <-> l = path /\ sp = sp0 /\ is_valid sp0).
  { intros l sp. split.
    - intros Hf. inversion Hf as [? ? ? (u & v & K1 & K2 & K3 & K4 & K5)|? ? ? ? ? K|? u v ? ? K1 K2 K3]; subst; [|congruence|congruence].
      rewrite Hl in K1. injection K1 as <-. rewrite Ht in K2. injection K2 as <-. rewrite Esp in K4. by injection K4 as <-.
    - intros (-> & -> & Hv). apply found_link. by exists tgt, t. }
  case_bool_decide as Hv; rewrite sql_path_valid in Hv.
  - exists fs, (<[path := sp0]> m). split_and!; [done|done|]. intros l sp. rewrite Roots_insert_Some. split.
    + intros [[<- <-]|[_ ?]]; [|by left]. right. exists path. split; [left|by apply Hinv].
    + intros [Hml|(p & ->%list_elem_of_singleton & (-> & -> & _)%Hinv)]; [|by left].
      destruct (decide (path = l)) as [<- |]; [left|by right]. split; [done|].
      apply (root_link_fun fs0 path); [by exists tgt, t|by apply Hm].
  - apply finds_none; [done|]. intros l sp (_ & _ & ?)%Hinv. done.
Qed.

Lemma found_follow_inv path tgt t l sp : fs0 !! path = Some (ILnk tgt) -> resolve path tgt = Ok t -> isInStore nixStore t = false ->
  forall rec, found fs0 rec path l sp <-> rec = true /\ found fs0 false t l sp.
Proof.
  intros Hl Ht Hs rec. split.
  - intros Hf. inversion Hf as [? ? ? (u & v & K1 & K2 & K3 & K4 & K5)|? ? ? ? ? K|? u v ? ? K1 K2 K3 K4]; subst; [congruence|congruence|].
    rewrite Hl in K1. injection K1 as <-. rewrite Ht in K2. by injection K2 as <-.
  - intros [-> Hf]. by apply (found_follow _ _ tgt t).
Qed.

Lemma finds_try (rec : bool) (ps : list str) (m : Roots) (p : exn_class -> bool) (b : M (FileSys * Roots) unit) (h : exn -> M (FileSys * Roots) unit) (s : FileSys * Roots) :
  finds rec ps m (b s) -> finds rec ps m (try_catch p b h s).
Proof. intros (fs' & m' & E & H). exists fs', m'. unfold try_catch. by rewrite E. Qed.

Lemma findRoots_in_spec deleteStale fuel : forall (rec : bool) (path : str) (fs : FileSys) (m : Roots),
  pruned dir fs0 fs -> consistent m -> (rec = true -> under dir path) -> (need rec path <= fuel)%nat ->
  finds rec [path] m (findRoots_in nixStore cwd fuel ls path rec deleteStale (fs, m)).
Proof.
  induction fuel as [|fuel IH]; intros rec path fs m Hp Hm Hdir Hneed; [unfold need in Hneed; lia|].
  cbn [findRoots_in]. destruct (fs !! path) as [i|] eqn:Ei.
  2:{ unfold try_catch, mbind, M_bind, lift, lstat. cbn [fst]. rewrite Ei. apply finds_none; [done|].
      intros l sp Hf. by apply (pruned_found _ _ _ _ _ _ _ Hp), found_exists in Hf. }
  pose proof (pruned_sub _ _ _ _ _ Hp Ei) as Ei0. assert (Hsz : fs0 !! path <> None) by congruence.
  apply finds_try. unfold mbind at 1, M_bind at 1, lift at 1, lstat. cbn [fst]. rewrite Ei.
  destruct i as [mode data| |tgt|].
  1,4: apply finds_none; [done|]; intros l sp Hf;
    inversion Hf as [? ? ? (u & v & K1 & _)|? ? ? ? ? K|? u v ? ? K1]; congruence.
  - destruct (readDirectory fs path) as [names| |] eqn:En; [|unfold readDirectory in En; by rewrite Ei in En..].
    unfold mbind, M_bind, lift. cbn [fst]. rewrite En.
    destruct (finds_loop rec (fun p => findRoots_in nixStore cwd fuel ls p rec deleteStale) (child path <$> names) fs m)
      as (fs' & m' & E' & Hp' & H'); [done|done| |].
    { intros p fs1 m1 (n & -> & Hn)%list_elem_of_fmap Hp1 Hm1. apply IH; [done|done| |].
      - intros Hr. eapply under_trans; [by apply Hdir|apply under_child].
      - unfold need in *. pose proof (subtree_child_size path n fs0 Hsz). lia. }
    exists fs', m'. split_and!; [|done|].
    + rewrite <- E'. clear. generalize (fs, m). induction names as [|n names IHn]; intros s; cbn [forM fmap list_fmap]; [done|].
      unfold mbind, M_bind. destruct (findRoots_in _ _ _ _ _ _ _ s); [apply IHn|done..].
    + intros l sp. rewrite H', <- (found_entries fs rec path names) by done.
      split; (intros [?|Hx]; [by left|right]).
      * by exists path; split; [left|].
      * destruct Hx as (p & ->%list_elem_of_singleton & Hx). done.
  - destruct (resolve_ok fs0 path tgt wf0 Hsz) as [t Et].
    unfold mbind at 1, M_bind at 1, lift at 1, readLink. cbn [fst]. rewrite Ei. rewrite bind_ret.
    change (d ← dirOf path; absPath cwd tgt d) with (resolve path tgt). rewrite Et.
    destruct (isInStore nixStore t) eqn:Es; [by apply (finds_root_link rec path tgt t)|].
    pose proof (fun l sp => found_follow_inv path tgt t l sp Ei0 Et Es rec) as Hinv.
    destruct rec; [|apply finds_none; [done|]; by intros l sp [? _]%Hinv].
    unfold mbind, M_bind, gets, pathExists. cbn [fst].
    case_bool_decide as Hex.
    + destruct (IH false t fs m Hp Hm) as (fs' & m' & E' & Hp' & H'); [done| |].
      { unfold need in *. pose proof (map_subseteq_size _ _ (map_filter_subseteq (fun ki : str * inode => under t ki.1) fs0)).
        unfold subtree at 1. lia. }
      exists fs', m'. split_and!; [done|done|]. intros l sp. rewrite H'.
      split; (intros [?|(p & ->%list_elem_of_singleton & Hx)]; [by left|right]).
      * exists path. split; [left|by apply Hinv].
      * exists t. split; [left|by apply Hinv].
    + assert (forall l sp, ~ found fs0 false t l sp) as Hnone.
      { intros l sp Hf. by apply (pruned_found _ _ _ _ _ _ _ Hp), found_exists in Hf. }
      destruct deleteStale; [|apply finds_none; [done|]; by intros l sp [_ ?%Hnone]%Hinv].
      apply finds_none; [|by intros l sp [_ ?%Hnone]%Hinv]. cbn [fst snd]. intros k.
      destruct (decide (path = k)) as [<- |Hne]; [|rewrite lookup_delete_ne by done; apply Hp].
      right. rewrite lookup_delete_eq. split_and!; [done| |by apply Hdir]. exists tgt, t. done.
Qed.
End RootTheory.

(** ** The theorem *)

Section RootResults.
Context (nixStore nixStateDir cwd : str) (ls : LocalStore).
Context (state_abs : is_abs nixStateDir = true).

(** The canonical path of the gcroots directory. *)
Definition gcroots : str := render_path (path_components (nixStateDir ++ slash :: gcRootsDir)).

Lemma rootsDir_ok : rootsDir nixStateDir = Ok gcroots.
Proof. unfold rootsDir. apply canonPath_abs. by destruct nixStateDir. Qed.

Lemma findRoots_spec deleteStale fs :
  fs_wf fs ->
  exists fs' roots, findRoots nixStore nixStateDir cwd ls deleteStale (fs, ∅) = Done tt (fs', roots) /\
    (forall l sp, roots !! l = Some sp <-> found nixStore cwd ls fs true gcroots l sp) /\
    pruned nixStore cwd ls gcroots fs fs'.
Proof.
  intros Hwf. unfold findRoots. unfold mbind at 1, M_bind at 1, lift at 1. rewrite rootsDir_ok.
  unfold mbind, M_bind, gets. cbn [fst].
  destruct (findRoots_in_spec nixStore cwd ls gcroots fs Hwf deleteStale (roots_fuel fs) true gcroots fs ∅) as (fs' & m & E & Hp & Hm).
  - intros k. by left.
  - intros l sp Hl. done.
  - intros _. apply under_refl.
  - unfold need, roots_fuel. pose proof (map_subseteq_size _ _ (map_filter_subseteq (fun ki : str * inode => under gcroots ki.1) fs)).
    unfold subtree at 1. lia.
  - exists fs', m. split_and!; [done| |done]. intros l sp. rewrite Hm. split.
    + intros [Hl|(p & ->%list_elem_of_singleton & Hf)]; [done|done].
    + intros Hf. right. exists gcroots. split; [left|done].
Qed.

(** C24: [findRoots] returns on every well-formed file system; the roots are exactly
    the links into valid store paths that are below the gcroots directory or one
    indirection away from a link there, each with the store path it points into; and
    the only change is the removal of links below the directory through which no
    root can be found. *)
Theorem findRoots_exact deleteStale fs :
  fs_wf fs ->
  exists fs' roots, findRoots nixStore nixStateDir cwd ls deleteStale (fs, ∅) = Done tt (fs', roots) /\
    (forall l sp, roots !! l = Some sp <-> found nixStore cwd ls fs true gcroots l sp) /\
    pruned nixStore cwd ls gcroots fs fs'.
Proof. apply findRoots_spec. Qed.

End RootResults.

(** Removing links, or other objects that are not directories, keeps a file system
    well formed. *)
Lemma removed_wf fs fs' :
  fs_wf fs -> (forall k, fs' !! k = fs !! k \/ (fs' !! k = None /\ fs !! k <> Some IDir)) -> fs_wf fs'.
Proof.
  intros Hwf Hr k Hk. destruct (Hr k) as [E|[E _]]; [|congruence]. rewrite E in Hk.
  destruct (Hwf k Hk) as (d & n & -> & Hn & Hd). exists d, n. split_and!; [done|done|].
  destruct Hd as [-> |Hd]; [by left|right]. destruct (Hr d) as [-> |[_ ?]]; done.
Qed.

Lemma pruned_wf nixStore cwd ls dir fs fs' : fs_wf fs -> pruned nixStore cwd ls dir fs fs' -> fs_wf fs'.
Proof.
  intros Hwf Hp. apply (removed_wf fs); [done|]. intros k. destruct (Hp k) as [?|(? & (tgt & t & Hk & _) & _)]; [by left|right].
  split; [done|congruence].
Qed.

(** ** Temporary roots *)

Section TempRoots.
Context (nixStore nixStateDir : str).

(** The strings of a file that are ended by NUL. *)
Fixpoint nul_strings (cur s : str) : list str :=
  match s with
  | [] => []
  | c :: s => if char_eqb c NUL then cur :: nul_strings [] s else nul_strings (cur ++ [c]) s
  end.

Lemma nul_strings_find s : forall cur,
  nul_strings cur s = match str_find NUL s with
                      | None => []
                      | Some e => (cur ++ take e s) :: nul_strings [] (drop (S e) s)
                      end.
Proof.
  induction s as [|c s IH]; intros cur; cbn [nul_strings str_find]; [done|].
  destruct (char_eqb c NUL) eqn:E; [cbn; by rewrite app_nil_r|]. rewrite IH.
  destruct (str_find NUL s) as [e|]; cbn; [|done]. by rewrite <- app_assoc.
Qed.

Lemma extract_roots_spec fuel : forall contents T,
  (length contents <= fuel)%nat ->
  match extract_roots nixStore fuel contents T with
  | Ok T' => T' = list_to_set (nul_strings [] contents) ∪ T
  | Throw e => exn_kind e = eError /\ exists p, p ∈ nul_strings [] contents /\ isStorePath nixStore p = false
  | NoFuel => False
  end.
Proof.
  induction fuel as [|fuel IH]; intros contents T Hf; cbn [extract_roots]; rewrite nul_strings_find.
  { destruct contents; [|cbn in Hf; lia]. cbn. set_solver. }
  destruct (str_find NUL contents) as [e|] eqn:E; [|set_solver]. cbn [app].
  unfold assertStorePath. destruct (isStorePath nixStore (take e contents)) eqn:Es; cbn [mbind result_bind].
  2:{ split; [done|]. exists (take e contents). split; [left|done]. }
  assert (length (drop (S e) contents) <= fuel)%nat as Hl.
  { rewrite length_drop. destruct contents; [done|]. cbn in *. lia. }
  specialize (IH (drop (S e) contents) ({[take e contents]} ∪ T) Hl).
  destruct (extract_roots _ _ _ _) as [T'|ex|]; [set_solver| |done].
  destruct IH as (Hk & p & Hp & Hn). split; [done|]. exists p. split; [by right|done].
Qed.

Definition temproots : str := nixStateDir ++ slash :: tempRootsDir.

Context (ownerAlive : str -> bool).

(** The temporary roots of a file, and of all running processes. *)
Definition temp_root_in (fs : FileSys) (k p : str) : Prop :=
  exists mode contents, fs !! k = Some (IReg mode contents) /\ ownerAlive k = true /\ p ∈ nul_strings [] contents.
Definition temp_root (fs : FileSys) (p : str) : Prop :=
  exists i, name_ok i = true /\ temp_root_in fs (child temproots i) p.

(** What [readTempRoots] may do to the files: remove stale ones. *)
Definition stale_removed (fs fs' : FileSys) : Prop :=
  forall k, fs' !! k = fs !! k \/ (fs' !! k = None /\ fs !! k <> Some IDir /\ under temproots k /\ ownerAlive k = false).

(** Reading the files [ks]. *)
Definition reads_roots (fs : FileSys) (ks : list str) (T : gset str) (o : outcome (FileSys * gset str) unit) : Prop :=
  match o with
  | Done _ (fs', T') => stale_removed fs fs' /\ forall p, p ∈ T' <-> p ∈ T \/ exists k, k ∈ ks /\ temp_root_in fs k p
  | Raised _ (fs', _) => stale_removed fs fs'
  | Stuck => False
  end.

Lemma readTempRootFile_spec fs fs1 T i :
  stale_removed fs fs1 ->
  reads_roots fs [child temproots i] T (readTempRootFile nixStore ownerAlive (child temproots i) (fs1, T)).
Proof.
  intros H1. set (k := child temproots i). unfold readTempRootFile, mbind, M_bind, gets. cbn [fst].
  assert (Hskip : forall fs2, stale_removed fs fs2 ->
    (forall mode contents, fs !! k = Some (IReg mode contents) -> ownerAlive k = false) ->
    reads_roots fs [k] T (Done tt (fs2, T))).
  { intros fs2 H2 Hno. split; [done|]. intros p. split; [by left|].
    intros [?|(k' & ->%list_elem_of_singleton & mode & contents & Hc & Ha & _)]; [done|]. by rewrite (Hno mode contents) in Ha. }
  assert (Hsame : fs1 !! k = fs !! k \/ ownerAlive k = false) by (destruct (H1 k) as [?|(_ & _ & _ & ?)]; auto).
  destruct (fs1 !! k) as [[mode contents| |tgt|]|] eqn:Ek; try exact H1.
  - destruct (ownerAlive k) eqn:Ea.
    + unfold update. cbn [fst snd]. pose proof (extract_roots_spec (length contents) contents T ltac:(lia)) as He.
      destruct (extract_roots _ _ _ _) as [T1|ex|]; cbn [mbind result_bind]; [|exact H1|done].
      split; [done|]. intros p. rewrite He, elem_of_union, elem_of_list_to_set. destruct Hsame as [Hs|?]; [|done].
      split.
      * intros [Hp|?]; [right|by left]. exists k. split; [left|]. by exists mode, contents.
      * intros [?|(k' & ->%list_elem_of_singleton & m & c & Hc & _ & Hp)]; [by right|left]. congruence.
    + unfold modify. cbn [fst snd]. apply Hskip; [|done]. intros j.
      destruct (decide (k = j)) as [<- |Hne]; [|rewrite lookup_delete_ne by done; apply H1].
      right. rewrite lookup_delete_eq. split_and!; [done| |apply under_child|done].
      destruct (H1 k) as [E|(E & _)]; congruence.
  - apply Hskip; [done|]. intros mode contents Hc. destruct Hsame; [congruence|done].
Qed.

Lemma readTempRootFiles_spec fs l : forall fs1 T, stale_removed fs fs1 ->
  reads_roots fs (child temproots <$> l) T (forM (fun i => readTempRootFile nixStore ownerAlive (child temproots i)) l (fs1, T)).
Proof.
  induction l as [|i l IH]; intros fs1 T H1; cbn [forM].
  { split; [done|]. intros p. split; [by left|]. intros [?|(k & Hk & _)]; [done|by apply elem_of_nil in Hk]. }
  unfold mbind, M_bind. pose proof (readTempRootFile_spec fs fs1 T i H1) as Hi.
  destruct (readTempRootFile _ _ _ _) as [u [fs2 T2]|e [fs2 T2]|]; [|done..]. destruct Hi as [H2 HT2].
  specialize (IH fs2 T2 H2). destruct (forM _ l _) as [u' [fs3 T3]|e [fs3 T3]|]; [|done..]. destruct IH as [H3 HT3].
  split; [done|]. intros p. rewrite HT3, HT2. cbn [fmap list_fmap]. setoid_rewrite elem_of_cons.
  setoid_rewrite elem_of_nil. naive_solver.
Qed.

Lemma readTempRoots_spec fs :
  match readTempRoots nixStore nixStateDir ownerAlive (fs, ∅) with
  | Done _ (fs', T) => stale_removed fs fs' /\ forall p, p ∈ T <-> temp_root fs p
  | Raised _ (fs', _) => stale_removed fs fs'
  | Stuck => False
  end.
Proof.
  unfold readTempRoots. unfold mbind at 1, M_bind at 1, lift at 1. cbn [fst]. fold temproots.
  destruct (readDirectory fs temproots) as [files|e|] eqn:Er.
  2:{ intros k. by left. }
  2:{ unfold readDirectory in Er. by repeat case_match. }
  destruct (readDirectory_spec fs temproots files Er) as (_ & _ & Hfiles).
  pose proof (readTempRootFiles_spec fs files fs ∅ ltac:(by left)) as Hl.
  destruct (forM _ files (fs, ∅)) as [u [fs' T]|e [fs' T]|]; [|done..]. destruct Hl as [Hs HT]. split; [done|].
  intros p. rewrite HT. unfold temp_root. split.
  - intros [?|(k & (i & -> & Hi)%list_elem_of_fmap & Hk)]; [set_solver|]. exists i. split; [by apply Hfiles|done].
  - intros (i & Hi & Hk). right. exists (child temproots i). split; [|done]. apply list_elem_of_fmap. exists i. split; [done|].
    apply Hfiles. split; [done|]. destruct Hk as (? & ? & Hk & _). congruence.
Qed.
End TempRoots.
