(* ===== verification/GC.v ===== *)
(** * The garbage collector (src/src/libstore/gc.cc)

    The collector as code on a world of the database, the file system and its own
    state [GCState]; an exception keeps the state, since [collectGarbage] catches
    [GCLimitReached] and goes on.  One process runs: acquiring the global lock and
    the locks on files of temporary roots has no effect here, and [ownerAlive] says
    which of these files are locked by a running process.  [makeMutable] and
    [vacuumDB] change nothing that is modelled.

    The theorems: whatever happens (also when the collector stops at its limit or
    throws), no path reachable from a root is invalidated or loses its files; and
    without a limit the collector deletes or returns exactly the paths that are not
    kept alive. *)

From Stdlib Require Import ZArith Lia Ascii Relations.
From stdpp Require Import base strings sorting numbers gmap sets list.
From S2P Require Import Prelude Effects Util Serialise Hash FileSystem FileOps Archive References StorePath Derivations Closure LocalStore GCRoots.

(** ** Options, results and state *)

Inductive GCAction : Type := gcReturnLive | gcReturnDead | gcDeleteDead | gcDeleteSpecific.
#[export] Instance GCAction_eq_dec : EqDecision GCAction.
Proof. solve_decision. Defined.

Record GCOptions : Type := mkGCOptions {
  action : GCAction; ignoreLiveness : bool; pathsToDelete : gset str; maxFreed : Z }.
Definition GCOptions_default : GCOptions := mkGCOptions gcDeleteDead false ∅ (2 ^ 64 - 1).

Record GCResults : Type := mkGCResults { res_paths : gset str; bytesFreed : Z }.
Definition GCResults_default : GCResults := mkGCResults ∅ 0.

Record GCState : Type := mkGCState {
  options : GCOptions; results : GCResults;
  roots : gset str; tempRoots : gset str; deleted : gset str; live : gset str; invalidated : gset str;
  gcKeepOutputs : bool; gcKeepDerivations : bool; bytesInvalidated : Z }.

Record world : Type := mkWorld { w_ls : LocalStore; w_fs : FileSys; w_gc : GCState }.

Definition set_ls (ls : LocalStore) (w : world) : world := mkWorld ls (w_fs w) (w_gc w).
Definition set_fs (fs : FileSys) (w : world) : world := mkWorld (w_ls w) fs (w_gc w).
Definition on_gc (f : GCState -> GCState) (w : world) : world := mkWorld (w_ls w) (w_fs w) (f (w_gc w)).

Definition set_results (f : GCResults -> GCResults) (g : GCState) : GCState :=
  mkGCState (options g) (f (results g)) (roots g) (tempRoots g) (deleted g) (live g) (invalidated g)
    (gcKeepOutputs g) (gcKeepDerivations g) (bytesInvalidated g).
Definition add_path (p : str) (r : GCResults) : GCResults := mkGCResults ({[p]} ∪ res_paths r) (bytesFreed r).
Definition add_freed (b : Z) (r : GCResults) : GCResults := mkGCResults (res_paths r) (u64 (bytesFreed r + b)).
Definition add_deleted (p : str) (g : GCState) : GCState :=
  mkGCState (options g) (results g) (roots g) (tempRoots g) ({[p]} ∪ deleted g) (live g) (invalidated g)
    (gcKeepOutputs g) (gcKeepDerivations g) (bytesInvalidated g).
Definition add_live (p : str) (g : GCState) : GCState :=
  mkGCState (options g) (results g) (roots g) (tempRoots g) (deleted g) ({[p]} ∪ live g) (invalidated g)
    (gcKeepOutputs g) (gcKeepDerivations g) (bytesInvalidated g).
Definition add_invalidated (p : str) (g : GCState) : GCState :=
  mkGCState (options g) (results g) (roots g) (tempRoots g) (deleted g) (live g) ({[p]} ∪ invalidated g)
    (gcKeepOutputs g) (gcKeepDerivations g) (bytesInvalidated g).
Definition add_bytesInvalidated (b : Z) (g : GCState) : GCState :=
  mkGCState (options g) (results g) (roots g) (tempRoots g) (deleted g) (live g) (invalidated g)
    (gcKeepOutputs g) (gcKeepDerivations g) (u64 (bytesInvalidated g + b)).

Definition shouldDelete (a : GCAction) : bool := bool_decide (a = gcDeleteDead) || bool_decide (a = gcDeleteSpecific).

Definition S_IWUSR : Z := 128.

Section GC.
Context (nixStore linksDir nixStateDir cwd pid : str).
Context (st_nlink st_blocks st_mode : FileSys -> str -> Z) (useHelper : bool).

Definition isActiveTempFile (state : GCState) (path suffix : str) : bool :=
  hasSuffix path suffix && bool_decide (take (length path - length suffix) path ∈ tempRoots state).

Definition deleteGarbage (path : str) : M world unit :=
  b ← (fun w =>
    match deletePathWrapped st_nlink st_blocks useHelper path (w_fs w, 0%Z) with
    | Done _ s => Done (snd s) (set_fs (fst s) w)
    | Raised e s => Raised e (set_fs (fst s) w)
    | Stuck => Stuck
    end);
  modify (on_gc (set_results (add_freed b))).

(** [chmod], which follows symbolic links; the directories' modes are not kept. *)
Fixpoint sys_chmod (links : nat) (fs : FileSys) (path : str) (mode : Z) : option FileSys :=
  match fs !! path with
  | None => if str_eqb path [slash] then Some fs else None
  | Some (IReg _ d) => Some (<[path := IReg (Z.land mode 4095) d]> fs)
  | Some (ILnk t) =>
      match links with
      | O => None
      | S links =>
          match dirOf path ≫= absPath cwd t with
          | Ok t => sys_chmod links fs t mode
          | _ => None
          end
      end
  | Some _ => Some fs
  end.
Definition maxLinks : nat := 40.

(** The loop over [todo] of [tryToDelete]: the derivers and outputs that have to be
    deleted together with a path. *)
Fixpoint component_loop (fuel : nat) (ls : LocalStore) (keepDerivations keepOutputs : bool)
    (todo paths : gset str) : result (gset str) :=
  match set_iter todo with
  | [] => Ok paths
  | p :: _ =>
      match fuel with
      | O => NoFuel
      | S fuel =>
          _ ← assertStorePath nixStore p;
          let todo := todo ∖ {[p]} in
          if decide (p ∈ paths) then component_loop fuel ls keepDerivations keepOutputs todo paths
          else
            let paths := {[p]} ∪ paths in
            todo ← (if keepDerivations && isDerivation p then
                      outputs ← ls_queryDerivationOutputs ls p;
                      foldM (fun todo i => v ← ls_isValidPath ls i; Ok (if (v : bool) then {[i]} ∪ todo else todo))
                        todo (set_iter outputs)
                    else Ok todo);
            todo ← (if keepOutputs then
                      derivers ← queryValidDerivers nixStore ls p;
                      Ok (derivers ∪ todo)
                    else Ok todo);
            component_loop fuel ls keepDerivations keepOutputs todo paths
      end
  end.
Definition component_fuel (ls : LocalStore) : nat :=
  let n := size (all_paths (ls_db ls)) in S (S n * S n).

(** The referrers of a set of paths. *)
Definition all_referrers (ls : LocalStore) (paths : gset str) : result (gset str) :=
  foldM (fun referrers i =>
    v ← ls_isValidPath ls i;
    if (v : bool) then r ← ls_queryReferrers nixStore ls i; Ok (r ∪ referrers) else Ok referrers) ∅ (set_iter paths).

(** The loop over the referrers: whether all that are not in [paths] were deleted. *)
Fixpoint delete_referrers (try : str -> M world bool) (paths : gset str) (l : list str) : M world bool :=
  match l with
  | [] => mret true
  | i :: l =>
      if decide (i ∈ paths) then delete_referrers try paths l
      else
        b ← try i;
        if (b : bool) then delete_referrers try paths l else mret false
  end.

(** The body of the loop over [pathsSorted]; [mode] is [st.st_mode] of the path that
    [tryToDelete] was called for, if that is a directory. *)
Definition gc_tmp (i : str) : str := i ++ $"-gc-" ++ pid.
Definition invalidate_step (i : str) : M world unit :=
  update (fun w => ls ← invalidatePathChecked nixStore (w_ls w) i; Ok (set_ls ls w)).
Definition rename_away (i : str) (mode : Z) : M world unit :=
  _ ← update (fun w => match sys_chmod maxLinks (w_fs w) i (Z.lor mode S_IWUSR) with
                       | Some fs => Ok (set_fs fs w)
                       | None => throw eSysError ($"making `" ++ i ++ $"' writable")
                       end);
  _ ← update (fun w => match sys_rename (w_fs w) i (gc_tmp i) with
                       | Some fs => Ok (set_fs fs w)
                       | None => throw eSysError ($"unable to rename `" ++ i ++ $"' to `" ++ gc_tmp i ++ $"'")
                       end);
  modify (on_gc (add_invalidated (gc_tmp i))).
Definition remove_one (mode : option Z) (i : str) : M world unit :=
  v ← lift (fun w => ls_isValidPath (w_ls w) i);
  _ ← (if (v : bool) then
         match mode with
         | Some mode =>
             info ← lift (fun w => queryPathInfo nixStore (w_ls w) i);
             _ ← modify (on_gc (add_bytesInvalidated (narSize info)));
             _ ← invalidate_step i;
             rename_away i mode
         | None =>
             _ ← invalidate_step i;
             deleteGarbage i
         end
       else deleteGarbage i);
  g ← gets w_gc;
  if (u64 (bytesFreed (results g) + bytesInvalidated g) >? maxFreed (options g))%Z
  then raise eGCLimitReached [] else mret tt.
Definition delete_one (mode : option Z) (i : str) : M world unit :=
  g ← gets w_gc;
  _ ← (if shouldDelete (action (options g)) then remove_one mode i else mret tt);
  _ ← modify (on_gc (add_deleted i));
  if bool_decide (action (options g) = gcReturnLive) then mret tt
  else modify (on_gc (set_results (add_path i))).

(** [isLive:] of [tryToDelete]. *)
Definition mark_live (i : str) : M world unit :=
  _ ← modify (on_gc (add_live i));
  g ← gets w_gc;
  if bool_decide (action (options g) = gcReturnLive) then modify (on_gc (set_results (add_path i))) else mret tt.

Definition is_live (paths : gset str) : M world bool :=
  _ ← forM mark_live (set_iter paths);
  mret false.

Fixpoint tryToDelete (fuel : nat) (path : str) : M world bool :=
  match fuel with
  | O => stuck
  | S fuel =>
      if str_eqb path linksDir then mret true
      else
        w ← gets id;
        match w_fs w !! path with
        | None => mret true
        | Some st =>
            let g := w_gc w in
            if decide (path ∈ deleted g) then mret true
            else if decide (path ∈ live g) then mret false
            else
              let mode := if is_dir st then Some (st_mode (w_fs w) path) else None in
              v ← lift (fun w => ls_isValidPath (w_ls w) path);
              if negb v && (isActiveTempFile g path ($".lock") || isActiveTempFile g path ($".chroot")) then mret false
              else
                paths ← (if (v : bool) then
                           lift (fun w => component_loop (component_fuel (w_ls w)) (w_ls w)
                                   (gcKeepDerivations g) (gcKeepOutputs g) {[path]} ∅)
                         else mret {[path]});
                if negb (bool_decide (paths ∩ roots g = ∅)) then is_live paths
                else
                  referrers ← lift (fun w => all_referrers (w_ls w) paths);
                  ok ← delete_referrers (tryToDelete fuel) paths (set_iter referrers);
                  if negb ok then is_live paths
                  else
                    pathsSorted ← lift (fun w => topoSortPaths (H := LocalStore_api nixStore) (w_ls w) paths);
                    _ ← forM (delete_one mode) pathsSorted;
                    mret true
        end
  end.

(** [removeUnusedLinks]; the statistics it prints are left out. *)
Definition removeUnusedLinks : M world unit :=
  names ← lift (fun w => readDirectory (w_fs w) linksDir);
  forM (fun name =>
    let path := child linksDir name in
    _ ← lift (fun w => lstat (w_fs w) path);
    n ← gets (fun w => (st_nlink (w_fs w) path, st_blocks (w_fs w) path));
    if negb (fst n =? 1)%Z then mret tt
    else
      _ ← update (fun w => match w_fs w !! path with
                           | Some IDir | None => throw eSysError ($"deleting `" ++ path ++ $"'")
                           | Some _ => Ok (set_fs (delete path (w_fs w)) w)
                           end);
      modify (on_gc (set_results (add_freed (snd n * 512))))) names.

(** ** [collectGarbage]

    [settings] are [gc-keep-outputs] and [gc-keep-derivations]; [shuffle] is what
    [random_shuffle] does; [fuel] bounds the depth of [tryToDelete]. *)
Context (keepOutputs keepDerivations : bool) (finder : option (result str)) (ownerAlive : str -> bool)
  (shuffle : list str -> list str).

Definition initial_state (opts : GCOptions) (res : GCResults) : GCState :=
  let off := bool_decide (action opts = gcDeleteSpecific) && ignoreLiveness opts in
  mkGCState opts res ∅ ∅ ∅ ∅ ∅ (keepOutputs && negb off) (keepDerivations && negb off) 0.

Definition set_roots (r t : gset str) (g : GCState) : GCState :=
  mkGCState (options g) (results g) r t (deleted g) (live g) (invalidated g)
    (gcKeepOutputs g) (gcKeepDerivations g) (bytesInvalidated g).

(** Finding the roots. *)
Definition gather_roots (opts : GCOptions) : M world unit :=
  ls ← gets w_ls;
  rootMap ← (if ignoreLiveness opts then mret ∅
             else (fun w =>
               match findRoots nixStore nixStateDir cwd ls true (w_fs w, ∅) with
               | Done _ s => Done (snd s) (set_fs (fst s) w)
               | Raised e s => Raised e (set_fs (fst s) w)
               | Stuck => Stuck
               end));
  let roots := list_to_set (map_iter rootMap).*2 in
  roots ← (if ignoreLiveness opts then mret roots else lift (fun _ => addAdditionalRoots nixStore ls finder roots));
  temp ← (fun w =>
    match readTempRoots nixStore nixStateDir ownerAlive (w_fs w, ∅) with
    | Done _ s => Done (snd s) (set_fs (fst s) w)
    | Raised e s => Raised e (set_fs (fst s) w)
    | Stuck => Stuck
    end);
  modify (on_gc (set_roots (temp ∪ roots) temp)).

(** Reading the store: invalid entries are tried at once, the valid ones are
    collected. *)
Fixpoint delete_invalid (fuel : nat) (names : list str) (entries : list str) : M world (list str) :=
  match names with
  | [] => mret entries
  | name :: names =>
      let path := child nixStore name in
      v ← lift (fun w => ls_isValidPath (w_ls w) path);
      if (v : bool) then delete_invalid fuel names (entries ++ [path])
      else _ ← tryToDelete fuel path; delete_invalid fuel names entries
  end.

Definition delete_all (fuel : nat) : M world unit :=
  try_catch (fun k => bool_decide (k = eGCLimitReached))
    (names ← lift (fun w => readDirectory (w_fs w) nixStore);
     entries ← delete_invalid fuel names [];
     forM (fun i => _ ← tryToDelete fuel i; mret tt) (shuffle entries))
    (fun _ => mret tt).

Definition delete_specific (fuel : nat) (opts : GCOptions) : M world unit :=
  forM (fun i =>
    _ ← lift (fun _ => assertStorePath nixStore i);
    b ← tryToDelete fuel i;
    if negb b then raise eError ($"cannot delete path `" ++ i ++ $"' since it is still alive") else mret tt)
    (set_iter (pathsToDelete opts)).

(** After the lock is released. *)
Definition clean_up (opts : GCOptions) : M world unit :=
  inv ← gets (fun w => invalidated (w_gc w));
  _ ← forM deleteGarbage (set_iter inv);
  if shouldDelete (action opts) then removeUnusedLinks else mret tt.

Definition collectGarbage (fuel : nat) (opts : GCOptions) (res : GCResults) : M world unit :=
  _ ← modify (on_gc (fun _ => initial_state opts res));
  _ ← gather_roots opts;
  _ ← (if bool_decide (action opts = gcDeleteSpecific) then delete_specific fuel opts
       else if (maxFreed opts >? 0)%Z then delete_all fuel else mret tt);
  clean_up opts.
End GC.

(** * Store paths in the file system *)

Lemma str_find_none_inv c s : str_find c s = None -> Forall (fun x => char_eqb x c = false) s.
Proof.
  induction s as [|x s IH]; cbn; [constructor|]. destruct (char_eqb x c) eqn:E; [done|].
  destruct (str_find c s); [done|]. constructor; auto.
Qed.

Lemma isStorePath_child nixStore p : is_abs nixStore = true ->
  isStorePath nixStore p = true <-> exists n, p = child nixStore n /\ name_ok n = true.
Proof.
  intros Habs. unfold isStorePath, isInStore. rewrite !andb_true_iff, bool_decide_eq_true, Nat.leb_le. split.
  - intros [[[[_ Hpre] Hlen] Hsl] Hfind]. reflect. exists (drop (S (length nixStore)) p).
    assert (p = child nixStore (drop (S (length nixStore)) p)) as Hp.
    { unfold child. rewrite <- (take_drop (length nixStore) p) at 1. rewrite Hpre. f_equal.
      apply drop_S. rewrite <- Hsl. apply list_lookup_lookup_total_lt. lia. }
    split; [done|]. apply name_ok_spec. split.
    + intros E. apply (f_equal length) in E. rewrite length_drop in E. cbn in E. lia.
    + unfold str_find_from in Hfind. destruct (str_find slash _) eqn:E; [done|]. by apply str_find_none_inv in E.
  - intros (n & -> & [Hn Hs]%name_ok_spec). unfold child. rewrite take_app_length, length_app, str_eqb_refl.
    cbn [length]. split_and!; [|done|destruct n; [done|cbn; lia]| |].
    + by destruct nixStore.
    + rewrite list_lookup_total_middle by done. apply char_eqb_refl.
    + unfold str_find_from. rewrite drop_app_ge by lia. replace (S (length nixStore) - length nixStore)%nat with 1%nat by lia.
      cbn. by rewrite str_find_none.
Qed.

(** * Safety *)

(** The contents of an object, up to the mode of a regular file. *)
Definition content (i : inode) : inode := match i with IReg _ d => IReg 0 d | i => i end.
Definition same_at (fs fs' : FileSys) (k : str) : Prop := content <$> fs' !! k = content <$> fs !! k.

Lemma same_at_trans fs1 fs2 fs3 k : same_at fs1 fs2 k -> same_at fs2 fs3 k -> same_at fs1 fs3 k.
Proof. unfold same_at. congruence. Qed.

Lemma same_at_dir fs fs' k : same_at fs fs' k -> fs !! k = Some IDir -> fs' !! k = Some IDir.
Proof. unfold same_at. intros H E. rewrite E in H. destruct (fs' !! k) as [[]|]; naive_solver. Qed.

Lemma same_at_none fs fs' k : same_at fs fs' k -> fs' !! k <> None -> fs !! k <> None.
Proof. unfold same_at. intros H E E'. rewrite E' in H. by destruct (fs' !! k). Qed.

Lemma same_wf fs fs' : (forall k, same_at fs fs' k) -> fs_wf fs -> fs_wf fs'.
Proof.
  intros Hs Hwf k Hk. destruct (Hwf k (same_at_none fs fs' k (Hs k) Hk)) as (d & n & -> & Hn & Hd).
  exists d, n. split_and!; [done|done|]. destruct Hd as [-> |Hd]; [by left|right]. by apply (same_at_dir fs fs').
Qed.

Lemma sys_chmod_same cwd links : forall fs p m fs', sys_chmod cwd links fs p m = Some fs' -> forall k, same_at fs fs' k.
Proof.
  induction links as [|links IH]; intros fs p m fs' E k; cbn [sys_chmod] in E;
    destruct (fs !! p) as [[]|] eqn:Ep; try done;
    try (case_match; [injection E as <-; done|done]); try (injection E as <-; try done).
  1,2: unfold same_at; destruct (decide (p = k)) as [<- |Hne];
    [by rewrite lookup_insert_eq, Ep|by rewrite lookup_insert_ne].
  destruct (_ ≫= _) as [t| |]; [|done..]. by apply (IH _ _ _ _ E).
Qed.

Section Safety.
Context (nixStore linksDir nixStateDir cwd pid : str).
Context (st_nlink st_blocks st_mode : FileSys -> str -> Z) (useHelper : bool).
Context (abs : is_abs nixStore = true) (pid_ok : Forall (fun c => char_eqb c slash = false) pid).
(** The store and the files when the collection starts, and the roots. *)
Context (ls0 : LocalStore) (fs0 : FileSys) (R : gset str).

Abbreviation valid_in w := (all_paths (ls_db (w_ls w))).
Abbreviation valid0 := (all_paths (ls_db ls0)).
Abbreviation tmp := (gc_tmp pid).

(** No valid path or root has the name that a valid path is renamed to. *)
Context (tmp_fresh : forall i p, i ∈ valid0 -> p ∈ valid0 \/ p ∈ R -> p <> tmp i).

(** The store paths whose files must not be touched. *)
Definition guarded (w : world) (p : str) : Prop := isStorePath nixStore p = true /\ (p ∈ valid_in w \/ p ∈ R).

Record gc_inv (w : world) : Prop := {
  gi_ls : ls_ok nixStore (w_ls w);
  gi_fs : fs_wf (w_fs w);
  gi_roots : roots (w_gc w) = R;
  gi_rows : forall id r, db_valid (ls_db (w_ls w)) !! id = Some r -> db_valid (ls_db ls0) !! id = Some r;
  gi_refs : forall p q, p ∈ valid_in w -> db_ref (ls_db ls0) p q -> db_ref (ls_db (w_ls w)) p q;
  gi_kept : forall r, r ∈ R -> r ∈ valid0 -> r ∈ valid_in w;
  gi_files : forall p k, guarded w p -> under p k -> same_at fs0 (w_fs w) k;
  gi_tmp : forall t, t ∈ invalidated (w_gc w) -> exists i, i ∈ valid0 /\ t = tmp i }.

Lemma gi_valid w p : gc_inv w -> p ∈ valid_in w -> p ∈ valid0.
Proof.
  intros HI (id & r & Hr & <-)%elem_of_all_paths. apply elem_of_all_paths. exists id, r. split; [|done]. by apply (gi_rows _ HI).
Qed.

Lemma guarded_child w p : guarded w p -> exists n, p = child nixStore n /\ name_ok n = true.
Proof. intros [Hs _]. by apply isStorePath_child. Qed.

Lemma guarded_tmp w p i : gc_inv w -> guarded w p -> i ∈ valid0 -> p <> tmp i.
Proof. intros HI [_ Hp] Hi. apply tmp_fresh; [done|]. destruct Hp as [Hp|]; [left; by apply (gi_valid w)|by right]. Qed.

Lemma nixStore_nonnil : nixStore <> [].
Proof. by destruct nixStore. Qed.

Lemma tmp_child n : name_ok n = true -> tmp (child nixStore n) = child nixStore (n ++ $"-gc-" ++ pid) /\ name_ok (n ++ $"-gc-" ++ pid) = true.
Proof.
  intros [Hn Hs]%name_ok_spec. split; [unfold gc_tmp, child; by rewrite <- app_assoc|]. apply name_ok_spec. split.
  - by destruct n.
  - rewrite !Forall_app. split_and!; [done| |done]. repeat (constructor; [done|]). constructor.
Qed.

(** Different store paths have disjoint trees. *)
Lemma store_disjoint n m k : name_ok n = true -> name_ok m = true -> child nixStore n <> child nixStore m ->
  under (child nixStore n) k -> ~ under (child nixStore m) k.
Proof. intros Hn Hm Hne H1 H2. apply Hne. f_equal. by eapply under_child_inj. Qed.

Lemma gc_inv_on_gc f w :
  gc_inv w -> roots (f (w_gc w)) = roots (w_gc w) ->
  (forall t, t ∈ invalidated (f (w_gc w)) -> exists i, i ∈ valid0 /\ t = tmp i) -> gc_inv (on_gc f w).
Proof. intros [H1 H2 H3 H4 H5 H6 H7 H8] Hr Hi. split; cbn; congruence || done. Qed.

(** Changing files outside of the trees of valid paths. *)
Lemma gc_inv_set_fs fs w :
  gc_inv w -> fs_wf fs -> (forall p k, guarded w p -> under p k -> same_at (w_fs w) fs k) -> gc_inv (set_fs fs w).
Proof.
  intros [H1 H2 H3 H4 H5 H6 H7 H8] Hwf Hs. split; cbn; try done.
  intros p k Hp Hk. eapply same_at_trans; [by apply (H7 p)|by apply (Hs p)].
Qed.

Lemma triple_gc_inv_on_gc f :
  (forall g, roots (f g) = roots g) -> (forall g, invalidated (f g) = invalidated g) ->
  triple gc_inv (modify (on_gc f)) (fun _ => gc_inv) (fun _ => gc_inv).
Proof.
  intros Hr Hi. apply triple_modify. intros w HI. apply gc_inv_on_gc; [done|done|]. rewrite Hi. apply HI.
Qed.

Lemma deleteGarbage_inv n :
  name_ok n = true -> child nixStore n ∉ R ->
  triple (fun w => gc_inv w /\ child nixStore n ∉ valid_in w) (deleteGarbage st_nlink st_blocks useHelper (child nixStore n))
    (fun _ => gc_inv) (fun _ => gc_inv).
Proof.
  intros Hn HnR. unfold deleteGarbage. eapply triple_bind; [|intros b; by apply triple_gc_inv_on_gc].
  intros w [HI Hnv]. pose proof (deletePathWrapped_spec st_nlink st_blocks useHelper (w_fs w) 0 (child nixStore n)
    (gi_fs _ HI) (child_nonnil _ _)) as H.
  destruct (deletePathWrapped _ _ _ _ _) as [u [fs' b]|e [fs' b]|]; [| |done].
  - destruct H as (_ & -> & Hwf). cbn. apply gc_inv_set_fs; [done|done|]. intros p k Hp Hk.
    destruct (guarded_child w p Hp) as (m & -> & Hm). unfold same_at. rewrite lookup_without, decide_False; [done|].
    apply (store_disjoint m n); [done|done| |done]. intros E. rewrite E in Hp. by destruct Hp as [_ []].
  - destruct H as (_ & _ & ->). by destruct w.
Qed.

Lemma store_path_child i : isStorePath nixStore i = true -> exists n, i = child nixStore n /\ name_ok n = true.
Proof. by apply isStorePath_child. Qed.

Lemma invalidate_step_inv i :
  i ∉ R -> triple gc_inv (invalidate_step nixStore i) (fun _ w => gc_inv w /\ i ∉ valid_in w) (fun _ => gc_inv).
Proof.
  intros HiR. apply triple_update; [|by intros w e HI _].
  intros w w' HI E. apply bind_Ok in E as (ls & E & [= <-]).
  pose proof (invalidatePathChecked_outcome nixStore (w_ls w) i (gi_ls _ HI)) as H. rewrite E in H.
  destruct H as (_ & _ & HV & Hall). cbn [w_ls set_ls]. rewrite Hall. split; [|set_solver].
  destruct HI as [H1 H2 H3 H4 H5 H6 H7 H8]. split; cbn [w_ls w_fs w_gc set_ls]; try done.
  - apply (iv_ok _ _ _ _ HV).
  - intros id r [Hr _]%(iv_rows _ _ _ _ HV). auto.
  - intros p q. rewrite Hall. intros [Hp Hne]%elem_of_difference Hq. apply (iv_refs _ _ _ _ HV). split; [auto|set_solver].
  - intros r Hr Hr0. rewrite Hall. apply elem_of_difference. split; [auto|]. set_solver.
  - intros p k [Hs Hp]. apply H7. split; [done|]. cbn in Hp. rewrite Hall in Hp. set_solver.
Qed.

Lemma rename_away_inv n mode :
  name_ok n = true -> child nixStore n ∉ R -> child nixStore n ∈ valid0 ->
  triple (fun w => gc_inv w /\ child nixStore n ∉ valid_in w) (rename_away cwd pid (child nixStore n) mode)
    (fun _ => gc_inv) (fun _ => gc_inv).
Proof.
  intros Hn HnR Hv0. unfold rename_away. destruct (tmp_child n Hn) as [Et Htn].
  eapply (triple_bind _ _ _ (fun _ w => gc_inv w /\ child nixStore n ∉ valid_in w)).
  { apply triple_update; [|by intros w e [HI _] _]. intros w w' [HI Hnv] E.
    destruct (sys_chmod _ _ _ _ _) as [fs'|] eqn:Ec; [|done]. injection E as <-. split; [|done].
    pose proof (sys_chmod_same _ _ _ _ _ _ Ec) as Hs. apply gc_inv_set_fs; [done|by eapply same_wf, gi_fs|done]. }
  intros []. eapply (triple_bind _ _ _ (fun _ => gc_inv)).
  2:{ intros []. apply triple_modify. intros w HI. apply gc_inv_on_gc; [done|done|]. cbn.
      intros t [->%elem_of_singleton|Ht]%elem_of_union; [by exists (child nixStore n)|by apply (gi_tmp _ HI)]. }
  apply triple_update; [|by intros w e [HI _] _]. intros w w' [HI Hnv] E.
  destruct (sys_rename _ _ _) as [fs'|] eqn:Er; [|done]. injection E as <-.
  assert (child nixStore n <> tmp (child nixStore n)) as Hne.
  { intros E. apply (f_equal length) in E. unfold gc_tmp in E. rewrite !length_app in E.
    change (length ($"-gc-")) with 4%nat in E. lia. }
  destruct (sys_rename_lookup _ _ _ _ Er Hne) as (_ & _ & Hout & _). rewrite Et in *.
  apply gc_inv_set_fs; [done| |].
  - eapply (sys_rename_wf (w_fs w)); [apply HI|apply child_nonnil|done|done|apply nixStore_nonnil|done].
  - intros p k Hp Hk. destruct (guarded_child w p Hp) as (m & -> & Hm). unfold same_at. rewrite Hout, decide_False; [done| |].
    + apply (store_disjoint m n); [done|done| |done]. intros E'. rewrite E' in Hp. by destruct Hp as [_ []].
    + apply (store_disjoint m _ k Hm Htn); [|done]. rewrite <- Et. by apply (guarded_tmp w).
Qed.

Lemma remove_one_inv mode i :
  isStorePath nixStore i = true -> i ∉ R ->
  triple gc_inv (remove_one nixStore cwd pid st_nlink st_blocks useHelper mode i) (fun _ => gc_inv) (fun _ => gc_inv).
Proof.
  intros (n & -> & Hn)%store_path_child HiR. unfold remove_one.
  eapply (triple_bind _ _ _ (fun v w => gc_inv w /\ (if v : bool then child nixStore n ∈ valid_in w else child nixStore n ∉ valid_in w))).
  { apply triple_lift; [|by intros w e HI _]. intros w v HI [= <-]. split; [done|].
    case_bool_decide as Hv; rewrite sql_path_valid in Hv; done. }
  intros v. eapply (triple_bind _ _ _ (fun _ => gc_inv)).
  2:{ intros []. eapply (triple_bind _ _ _ (fun _ => gc_inv)); [by apply triple_gets|]. intros g.
      case_match; [by apply triple_raise|by apply triple_ret]. }
  destruct v; [|by apply deleteGarbage_inv].
  apply (triple_pre _ (fun w => gc_inv w /\ child nixStore n ∈ valid0)).
  2:{ intros w [HI Hv]. split; [done|by eapply gi_valid]. }
  apply triple_pure. intros Hv0. destruct mode as [mode|].
  - eapply (triple_bind _ _ _ (fun _ => gc_inv)); [by apply triple_lift|]. intros info.
    eapply triple_bind; [by apply triple_gc_inv_on_gc|]. intros [].
    eapply triple_bind; [by apply invalidate_step_inv|]. intros []. by apply rename_away_inv.
  - eapply triple_bind; [by apply invalidate_step_inv|]. intros []. by apply deleteGarbage_inv.
Qed.

Lemma delete_one_inv mode i :
  isStorePath nixStore i = true -> i ∉ R ->
  triple gc_inv (delete_one nixStore cwd pid st_nlink st_blocks useHelper mode i) (fun _ => gc_inv) (fun _ => gc_inv).
Proof.
  intros Hs HiR. unfold delete_one. eapply (triple_bind _ _ _ (fun _ => gc_inv)); [by apply triple_gets|]. intros g.
  eapply (triple_bind _ _ _ (fun _ => gc_inv)).
  { case_match; [by apply remove_one_inv|by apply triple_ret]. }
  intros []. eapply triple_bind; [by apply triple_gc_inv_on_gc|]. intros [].
  case_match; [by apply triple_ret|by apply triple_gc_inv_on_gc].
Qed.

Lemma is_live_inv paths : triple gc_inv (is_live paths) (fun _ => gc_inv) (fun _ => gc_inv).
Proof.
  unfold is_live. eapply (triple_bind _ _ _ (fun _ => gc_inv)); [|intros []; by apply triple_ret]. apply triple_forM. intros i _.
  unfold mark_live. eapply triple_bind; [by apply triple_gc_inv_on_gc|]. intros [].
  eapply (triple_bind _ _ _ (fun _ => gc_inv)); [by apply triple_gets|]. intros g.
  case_match; [by apply triple_gc_inv_on_gc|by apply triple_ret].
Qed.

Lemma component_loop_store fuel ls kd ko : forall todo paths paths',
  (forall i, i ∈ paths -> isStorePath nixStore i = true) ->
  component_loop nixStore fuel ls kd ko todo paths = Ok paths' -> forall i, i ∈ paths' -> isStorePath nixStore i = true.
Proof.
  induction fuel as [|fuel IH]; intros todo paths paths' Hp E; cbn [component_loop] in E;
    destruct (set_iter todo) as [|p l]; try (by injection E as <-); [done|].
  apply bind_Ok in E as (u & Ea & E). unfold assertStorePath in Ea. destruct (isStorePath nixStore p) eqn:Es; [|done].
  destruct (decide (p ∈ paths)); [by eapply IH|].
  apply bind_Ok in E as (t1 & _ & E). apply bind_Ok in E as (t2 & _ & E). eapply IH; [|exact E]. set_solver.
Qed.

Lemma all_referrers_spec ls paths refs :
  ls_ok nixStore ls -> all_referrers nixStore ls paths = Ok refs ->
  forall r, r ∈ refs <-> exists i, i ∈ paths /\ i ∈ all_paths (ls_db ls) /\ db_ref (ls_db ls) r i.
Proof.
  intros Hok. clear -Hok. unfold all_referrers. setoid_rewrite <- elem_of_set_iter at 2.
  assert (Hl : forall l acc refs, foldM (fun referrers i => v ← ls_isValidPath ls i;
      if (v : bool) then r ← ls_queryReferrers nixStore ls i; Ok (r ∪ referrers) else Ok referrers) acc l = Ok refs ->
    forall r, r ∈ refs <-> r ∈ acc \/ exists i, i ∈ l /\ i ∈ all_paths (ls_db ls) /\ db_ref (ls_db ls) r i).
  { induction l as [|i l IH]; intros acc refs' E r; cbn [foldM] in E.
    { injection E as <-. split; [by left|]. intros [?|(i & Hi & _)]; [done|by apply elem_of_nil in Hi]. }
    apply bind_Ok in E as (acc' & E1 & E). rewrite (IH _ _ E). clear IH E. unfold ls_isValidPath in E1. cbn [mbind result_bind] in E1.
    setoid_rewrite elem_of_cons. case_bool_decide as Hv; rewrite sql_path_valid in Hv.
    - unfold ls_queryReferrers in E1. apply bind_Ok in E1 as (R1 & E1 & [= <-]). apply bind_Ok in E1 as (u & _ & [= <-]).
      rewrite elem_of_union, elem_of_referrers by done. naive_solver.
    - injection E1 as <-. naive_solver. }
  intros E r. rewrite (Hl _ _ _ E r). set_solver.
Qed.

Lemma delete_referrers_inv try paths l :
  (forall i, i ∈ l -> triple gc_inv (try i) (fun _ => gc_inv) (fun _ => gc_inv)) ->
  triple gc_inv (delete_referrers try paths l) (fun _ => gc_inv) (fun _ => gc_inv).
Proof.
  induction l as [|i l IH]; intros Ht; cbn [delete_referrers]; [by apply triple_ret|].
  assert (triple gc_inv (delete_referrers try paths l) (fun _ => gc_inv) (fun _ => gc_inv)) as Hl
    by (apply IH; intros; apply Ht; by right).
  destruct (decide (i ∈ paths)); [done|]. eapply triple_bind; [apply Ht; left|]. intros []; [done|by apply triple_ret].
Qed.

Lemma tryToDelete_inv fuel : forall path, isStorePath nixStore path = true ->
  triple gc_inv (tryToDelete nixStore linksDir cwd pid st_nlink st_blocks st_mode useHelper fuel path)
    (fun _ => gc_inv) (fun _ => gc_inv).
Proof.
  induction fuel as [|fuel IH]; intros path Hs; cbn [tryToDelete]; [by intros w HI|].
  case_match; [by apply triple_ret|].
  eapply (triple_bind _ _ _ (fun v w => gc_inv w /\ v = w)); [by apply triple_gets|]. intros w0.
  apply (triple_pre _ (fun w => gc_inv w /\ gc_inv w0)); [|by intros w [HI ->]].
  apply triple_pure. intros HI0%gi_roots.
  destruct (w_fs w0 !! path) as [st|]; [|by apply triple_ret].
  destruct (decide (path ∈ deleted (w_gc w0))); [by apply triple_ret|].
  destruct (decide (path ∈ live (w_gc w0))); [by apply triple_ret|].
  set (mode := if is_dir st then _ else _). clearbody mode.
  eapply (triple_bind _ _ _ (fun _ => gc_inv)); [by apply triple_lift|]. intros v.
  case_match; [by apply triple_ret|].
  eapply (triple_bind _ _ _ (fun paths w => gc_inv w /\ forall i, i ∈ paths -> isStorePath nixStore i = true)).
  { destruct v.
    - apply triple_lift; [|done]. intros w paths HI E. split; [done|]. by eapply component_loop_store; [|exact E].
    - apply triple_ret. intros w HI. split; [done|]. by intros i ->%elem_of_singleton. }
  intros paths. apply triple_pure. intros Hsp.
  destruct (bool_decide (paths ∩ roots (w_gc w0) = ∅)) eqn:Er; cbn [negb]; [|apply is_live_inv].
  apply bool_decide_eq_true in Er. rewrite HI0 in Er.
  eapply (triple_bind _ _ _ (fun refs w => gc_inv w /\ forall i, i ∈ refs -> isStorePath nixStore i = true)).
  { apply triple_lift; [|done]. intros w refs HI E. split; [done|]. intros i Hi.
    rewrite (all_referrers_spec _ _ _ (gi_ls _ HI) E) in Hi. destruct Hi as (j & _ & _ & (a & b & (r & Hr & <-) & _)).
    by apply (ok_rows _ _ (gi_ls _ HI) a r). }
  intros refs. apply triple_pure. intros Hrp.
  eapply triple_bind.
  { apply delete_referrers_inv. intros i Hi%elem_of_set_iter. apply IH. auto. }
  intros ok. destruct ok; cbn [negb]; [|apply is_live_inv].
  eapply (triple_bind _ _ _ (fun l w => gc_inv w /\ forall i, i ∈ l -> i ∈ paths)).
  { apply triple_lift; [|done]. intros w l HI E. split; [done|]. intros i Hi.
    pose proof (topoSortPaths_spec (H0 := LocalStore_laws nixStore) (w_ls w) (gi_ls _ HI) paths) as Ht. rewrite E in Ht.
    by apply Ht. }
  intros l. apply triple_pure. intros Hlp.
  eapply (triple_bind _ _ _ (fun _ => gc_inv)); [|intros []; by apply triple_ret].
  apply triple_forM. intros i Hi. apply delete_one_inv; [auto|]. set_solver.
Qed.

(** ** The phases of [collectGarbage] *)

Context (links_dir : linksDir = child nixStore ($".links")) (links_invalid : (linksDir ∉ valid0) /\ linksDir ∉ R).
Context (ls0_ok : ls_ok nixStore ls0) (shuffle : list str -> list str) (shuffle_perm : forall l, shuffle l ≡ₚ l).

Abbreviation try_delete := (tryToDelete nixStore linksDir cwd pid st_nlink st_blocks st_mode useHelper).

Lemma delete_invalid_inv fuel names : forall entries, (forall n, n ∈ names -> name_ok n = true) ->
  (forall i, i ∈ entries -> isStorePath nixStore i = true) ->
  triple gc_inv (delete_invalid nixStore linksDir cwd pid st_nlink st_blocks st_mode useHelper fuel names entries)
    (fun l w => gc_inv w /\ forall i, i ∈ l -> isStorePath nixStore i = true) (fun _ => gc_inv).
Proof.
  induction names as [|n names IH]; intros entries Hn He; cbn [delete_invalid]; [by apply triple_ret|].
  assert (isStorePath nixStore (child nixStore n) = true) as Hs.
  { apply isStorePath_child; [done|]. exists n. split; [done|]. apply Hn. left. }
  assert (Hn' : forall m, m ∈ names -> name_ok m = true) by (intros m Hm; apply Hn; by right).
  eapply (triple_bind _ _ _ (fun _ => gc_inv)); [by apply triple_lift|]. intros [].
  - apply IH; [done|]. intros i [Hi| ->%list_elem_of_singleton]%elem_of_app; auto.
  - eapply (triple_bind _ _ _ (fun _ => gc_inv)); [by apply tryToDelete_inv|]. intros _. by apply IH.
Qed.

Lemma delete_all_inv fuel :
  triple gc_inv (delete_all nixStore linksDir cwd pid st_nlink st_blocks st_mode useHelper shuffle fuel)
    (fun _ => gc_inv) (fun _ => gc_inv).
Proof.
  apply (triple_try _ _ _ _ _ _ (fun _ => gc_inv)); [|intros e _; by apply triple_ret|done].
  eapply (triple_bind _ _ _ (fun names w => gc_inv w /\ forall n, n ∈ names -> name_ok n = true)).
  { apply triple_lift; [|done]. intros w names HI E. split; [done|]. intros n Hn. by apply (readDirectory_spec _ _ _ E). }
  intros names. apply triple_pure. intros Hn. eapply triple_bind; [by apply delete_invalid_inv; [|set_solver]|].
  intros entries. apply triple_pure. intros He. apply triple_forM. intros i Hi. rewrite shuffle_perm in Hi.
  eapply (triple_bind _ _ _ (fun _ => gc_inv)); [by apply tryToDelete_inv, He|]. intros _. by apply triple_ret.
Qed.

Lemma delete_specific_inv fuel opts :
  triple gc_inv (delete_specific nixStore linksDir cwd pid st_nlink st_blocks st_mode useHelper fuel opts)
    (fun _ => gc_inv) (fun _ => gc_inv).
Proof.
  apply triple_forM. intros i _.
  eapply (triple_bind _ _ _ (fun _ w => gc_inv w /\ isStorePath nixStore i = true)).
  { apply triple_lift; [|done]. intros w u HI E. split; [done|]. unfold assertStorePath in E. by destruct (isStorePath nixStore i). }
  intros _. apply triple_pure. intros Hs. eapply (triple_bind _ _ _ (fun _ => gc_inv)); [by apply tryToDelete_inv|].
  intros []; [by apply triple_ret|by apply triple_raise].
Qed.

Lemma removeUnusedLinks_inv :
  triple gc_inv (removeUnusedLinks linksDir st_nlink st_blocks) (fun _ => gc_inv) (fun _ => gc_inv).
Proof.
  unfold removeUnusedLinks. eapply (triple_bind _ _ _ (fun _ => gc_inv)); [by apply triple_lift|]. intros names.
  apply triple_forM. intros n _. eapply (triple_bind _ _ _ (fun _ => gc_inv)); [by apply triple_lift|]. intros _.
  eapply (triple_bind _ _ _ (fun _ => gc_inv)); [by apply triple_gets|]. intros nb.
  case_match; [by apply triple_ret|]. eapply (triple_bind _ _ _ (fun _ => gc_inv)); [|intros []; by apply triple_gc_inv_on_gc].
  apply triple_update; [|done]. intros w w' HI E. set (k := child linksDir n) in *.
  assert (w_fs w !! k <> Some IDir /\ w' = set_fs (delete k (w_fs w)) w) as [Hk ->].
  { destruct (w_fs w !! k) as [[]|]; try done; by injection E as <-. }
  apply gc_inv_set_fs; [done| |].
  - apply (removed_wf (w_fs w)); [apply HI|]. intros j. destruct (decide (k = j)) as [<- |Hne].
    + right. by rewrite lookup_delete_eq.
    + left. by rewrite lookup_delete_ne.
  - intros p j Hp Hj. destruct (guarded_child w p Hp) as (m & -> & Hm). unfold same_at.
    rewrite lookup_delete_ne; [done|]. intros <-. apply (store_disjoint m ($".links") k Hm eq_refl); [|done|].
    + rewrite <- links_dir. intros Hml. rewrite Hml in Hp. destruct links_invalid as [L1 L2].
      destruct Hp as [_ [Hp|Hp]]; [|done]. apply L1. by apply (gi_valid w).
    + rewrite <- links_dir. apply under_child.
Qed.

Lemma clean_up_inv opts :
  triple gc_inv (clean_up linksDir st_nlink st_blocks useHelper opts) (fun _ => gc_inv) (fun _ => gc_inv).
Proof.
  unfold clean_up.
  eapply (triple_bind _ _ _ (fun inv w => gc_inv w /\ forall t, t ∈ inv -> exists i, i ∈ valid0 /\ t = tmp i)).
  { apply triple_gets. intros w HI. split; [done|]. apply HI. }
  intros inv. apply triple_pure. intros Hinv. eapply (triple_bind _ _ _ (fun _ => gc_inv)).
  2:{ intros _. case_match; [apply removeUnusedLinks_inv|by apply triple_ret]. }
  apply triple_forM. intros t Ht%elem_of_set_iter. destruct (Hinv t Ht) as (i & Hi & ->).
  pose proof Hi as (id & r & Hr & Hri)%elem_of_all_paths.
  destruct (ok_rows _ _ ls0_ok id r Hr) as [Hs _]. rewrite Hri in Hs.
  destruct (store_path_child i Hs) as (n & -> & Hn). destruct (tmp_child n Hn) as [Et Htn]. rewrite Et.
  assert (Hfresh : ~ (tmp (child nixStore n) ∈ valid0 \/ tmp (child nixStore n) ∈ R)).
  { intros Hv. by apply (tmp_fresh (child nixStore n) (tmp (child nixStore n)) Hi Hv). }
  rewrite Et in Hfresh.
  eapply triple_pre; [apply deleteGarbage_inv; [done|tauto]|]. intros w HI. split; [done|]. intros Hv.
  apply (gi_valid w) in Hv; [|done]. tauto.
Qed.

(** What is reachable from a root is still there, with its row and its files. *)
Definition kept (w : world) (p : str) : Prop :=
  p ∈ valid_in w /\
  (forall id r, db_valid (ls_db ls0) !! id = Some r -> r_path r = p -> db_valid (ls_db (w_ls w)) !! id = Some r) /\
  (forall k, under p k -> same_at fs0 (w_fs w) k).

Lemma gc_inv_kept w r p :
  gc_inv w -> r ∈ R -> r ∈ valid0 -> clos_refl_trans str (db_ref (ls_db ls0)) r p -> kept w p.
Proof.
  intros HI Hr Hv Hrp. assert (p ∈ valid_in w) as Hp.
  { apply clos_rt_rtn1 in Hrp. induction Hrp as [|y z Hyz _ IH]; [by apply (gi_kept _ HI)|].
    apply (gi_refs _ HI y z) in Hyz as (a & b & _ & Hb & _); [|done]. apply elem_of_all_paths. by exists b. }
  split_and!; [done| |].
  - intros id row Hrow Ep. apply elem_of_all_paths in Hp as (id' & row' & Hrow' & Ep').
    pose proof (gi_rows _ HI _ _ Hrow') as H0. assert (id' = id) as ->; [|congruence].
    eapply (ok_unique _ _ ls0_ok); [done|done|congruence].
  - intros k Hk. apply (gi_files _ HI p); [|done]. split; [|by left].
    apply elem_of_all_paths in Hp as (id & row & Hrow & <-). by apply (ok_rows _ _ (gi_ls _ HI) id row).
Qed.
End Safety.

(** ** The roots that are gathered *)

Section Gather.
Context (nixStore nixStateDir cwd : str) (finder : option (result str)) (ownerAlive : str -> bool).
Context (state_abs : is_abs nixStateDir = true).

(** A root that the program of [addAdditionalRoots] prints. *)
Definition extra_root (ls : LocalStore) (r : str) : Prop :=
  exists out i, finder = Some (Ok out) /\ i ∈ tokenizeString out [NL] /\ isInStore nixStore i = true /\
    toStorePath nixStore i = Ok r /\ r ∈ all_paths (ls_db ls).

Definition is_root (w : world) (r : str) : Prop :=
  (exists l, found nixStore cwd (w_ls w) (w_fs w) true (gcroots nixStateDir) l r) \/ extra_root (w_ls w) r \/
  temp_root nixStateDir ownerAlive (w_fs w) r.

Lemma addRootLine_spec ls T i :
  exists T', addRootLine nixStore ls T i = Ok T' /\
    forall r, r ∈ T' <-> r ∈ T \/ (isInStore nixStore i = true /\ toStorePath nixStore i = Ok r /\ r ∈ all_paths (ls_db ls)).
Proof.
  unfold addRootLine. destruct (isInStore nixStore i) eqn:Ei.
  - destruct (toStorePath_ok nixStore i Ei) as [sp ->]. eexists. split; [done|]. intros r.
    rewrite <- (sql_path_valid (ls_db ls) r). repeat case_bool_decide; naive_solver set_solver.
  - exists T. split; [done|]. naive_solver.
Qed.

Lemma addRootLines_spec ls l : forall T,
  exists T', foldM (addRootLine nixStore ls) T l = Ok T' /\
    forall r, r ∈ T' <-> r ∈ T \/ exists i, i ∈ l /\ isInStore nixStore i = true /\ toStorePath nixStore i = Ok r /\ r ∈ all_paths (ls_db ls).
Proof.
  induction l as [|i l IH]; intros T; cbn [foldM].
  { exists T. split; [done|]. intros r. split; [by left|]. intros [?|(i & Hi & _)]; [done|by apply elem_of_nil in Hi]. }
  destruct (addRootLine_spec ls T i) as (T1 & -> & H1). rewrite bind_ret. destruct (IH T1) as (T2 & -> & H2).
  exists T2. split; [done|]. intros r. rewrite H2, H1. setoid_rewrite elem_of_cons. naive_solver.
Qed.

Lemma addAdditionalRoots_spec ls T :
  match addAdditionalRoots nixStore ls finder T with
  | Ok T' => forall r, r ∈ T' <-> r ∈ T \/ extra_root ls r
  | Throw e => finder = Some (Throw e)
  | NoFuel => finder = Some NoFuel
  end.
Proof.
  unfold addAdditionalRoots, extra_root. destruct finder as [[out|e|]|]; [|done|done|].
  - rewrite bind_ret. destruct (addRootLines_spec ls (tokenizeString out [NL]) T) as (T' & -> & HT'). intros r. rewrite HT'. naive_solver.
  - intros r. split; [by left|]. intros [?|(? & ? & ? & _)]; done.
Qed.

(** Nothing outside of the root directories is changed. *)
Definition gathered (w w' : world) : Prop :=
  w_ls w' = w_ls w /\ fs_wf (w_fs w') /\
  forall k, ~ under (gcroots nixStateDir) k -> ~ under (temproots nixStateDir) k -> w_fs w' !! k = w_fs w !! k.

Lemma temp_root_pruned ls fs fs' p :
  pruned nixStore cwd ls (gcroots nixStateDir) fs fs' ->
  temp_root nixStateDir ownerAlive fs' p <-> temp_root nixStateDir ownerAlive fs p.
Proof.
  intros Hp. unfold temp_root, temp_root_in.
  assert (forall k m c, fs' !! k = Some (IReg m c) <-> fs !! k = Some (IReg m c)) as Hk.
  { intros k m c. destruct (Hp k) as [-> |(Hn & (tgt & t & Hl & _) & _)]; [done|]. rewrite Hn, Hl. done. }
  setoid_rewrite Hk. done.
Qed.

Lemma gather_roots_spec opts w :
  fs_wf (w_fs w) -> ignoreLiveness opts = false ->
  match gather_roots nixStore nixStateDir cwd finder ownerAlive opts w with
  | Done _ w' => gathered w w' /\ invalidated (w_gc w') = invalidated (w_gc w) /\ forall r, r ∈ roots (w_gc w') <-> is_root w r
  | Raised _ w' => gathered w w'
  | Stuck => finder = Some NoFuel
  end.
Proof.
  intros Hwf Hig. unfold gather_roots. rewrite Hig.
  unfold mbind at 1, M_bind at 1, gets at 1. unfold mbind at 1, M_bind at 1.
  destruct (findRoots_spec nixStore nixStateDir cwd (w_ls w) state_abs true (w_fs w) Hwf) as (fs1 & rs & -> & Hrs & Hp).
  cbn [fst snd]. unfold mbind at 1, M_bind at 1, lift at 1. cbv zeta.
  assert (gathered w (set_fs fs1 w)) as H1.
  { split_and!; [done|by eapply pruned_wf|]. intros k Hk _. cbn. destruct (Hp k) as [?|(_ & _ & ?)]; done. }
  pose proof (addAdditionalRoots_spec (w_ls w) (list_to_set (map_iter rs).*2)) as HT.
  destruct (addAdditionalRoots _ _ _ _) as [T|e|]; [|done..].
  unfold mbind, M_bind. cbn [w_fs set_fs].
  pose proof (readTempRoots_spec nixStore nixStateDir ownerAlive fs1) as Ht.
  destruct (readTempRoots _ _ _ _) as [u [fs2 T2]|e [fs2 T2]|]; [| |done].
  - destruct Ht as [Hst HT2]. cbn [fst snd]. unfold modify. cbn. split_and!; [|done|].
    + destruct H1 as (_ & Hw1 & H1). split_and!; [done| |].
      * cbn. apply (removed_wf fs1); [done|]. intros k. destruct (Hst k) as [?|(? & ? & _)]; auto.
      * intros k Hk1 Hk2. cbn. rewrite <- (H1 k) by done. destruct (Hst k) as [?|(_ & _ & ? & _)]; done.
    + intros r. rewrite elem_of_union, HT2, HT, elem_of_list_to_set, (temp_root_pruned (w_ls w) (w_fs w)) by done.
      unfold is_root. assert (r ∈ (map_iter rs).*2 <-> exists l, rs !! l = Some r) as ->.
      { rewrite list_elem_of_fmap. split.
        - intros ([l x] & -> & Hin). exists l. by apply elem_of_map_iter.
        - intros [l Hl]. exists (l, r). split; [done|]. by apply elem_of_map_iter. }
      setoid_rewrite Hrs. tauto.
  - cbn [fst snd]. destruct H1 as (_ & Hw1 & H1). split_and!; [done| |].
    + cbn. apply (removed_wf fs1); [done|]. intros k. destruct (Ht k) as [?|(? & ? & _)]; auto.
    + intros k Hk1 Hk2. cbn. rewrite <- (H1 k) by done. destruct (Ht k) as [?|(_ & _ & ? & _)]; done.
Qed.
End Gather.

(** ** The collector *)

Section Main.
Context (nixStore nixStateDir cwd pid : str).
Context (st_nlink st_blocks st_mode : FileSys -> str -> Z) (useHelper : bool).
Context (keepOutputs keepDerivations : bool) (finder : option (result str)) (ownerAlive : str -> bool)
  (shuffle : list str -> list str).
Abbreviation linksDir := (child nixStore ($".links")).
Abbreviation collect := (collectGarbage nixStore linksDir nixStateDir cwd pid st_nlink st_blocks st_mode useHelper
  keepOutputs keepDerivations finder ownerAlive shuffle).

(** What the collector relies on. *)
Record gc_pre (w : world) : Prop := {
  gp_store : is_abs nixStore = true;
  gp_state : is_abs nixStateDir = true;
  gp_pid : Forall (fun c => char_eqb c slash = false) pid;
  gp_shuffle : forall l, shuffle l ≡ₚ l;
  gp_ls : ls_ok nixStore (w_ls w);
  gp_fs : fs_wf (w_fs w);
  gp_apart : forall k, under nixStore k -> ~ under (gcroots nixStateDir) k /\ ~ under (temproots nixStateDir) k;
  gp_tmp : forall i p, i ∈ all_paths (ls_db (w_ls w)) ->
    p ∈ all_paths (ls_db (w_ls w)) \/ is_root nixStore nixStateDir cwd finder ownerAlive w p -> p <> gc_tmp pid i;
  gp_links : linksDir ∉ all_paths (ls_db (w_ls w));
  gp_links_root : ~ is_root nixStore nixStateDir cwd finder ownerAlive w linksDir }.

(** The roots with everything they refer to are kept, and so are the files of
    roots that are not valid (yet). *)
Definition roots_kept (w w' : world) : Prop :=
  forall r, is_root nixStore nixStateDir cwd finder ownerAlive w r ->
    (r ∈ all_paths (ls_db (w_ls w)) -> forall p, clos_refl_trans str (db_ref (ls_db (w_ls w))) r p -> kept (w_ls w) (w_fs w) w' p) /\
    (isStorePath nixStore r = true -> forall k, under r k -> same_at (w_fs w) (w_fs w') k).

Lemma under_store k p : is_abs nixStore = true -> isStorePath nixStore p = true -> under p k -> under nixStore k.
Proof.
  intros Ha (n & -> & _)%isStorePath_child Hk; [|done]. eapply under_trans; [apply under_child|done].
Qed.

Lemma gathered_same w w' p k :
  gc_pre w -> gathered nixStateDir w w' -> isStorePath nixStore p = true -> under p k -> same_at (w_fs w) (w_fs w') k.
Proof.
  intros HP (_ & _ & Hk) Hs Hu. destruct (gp_apart _ HP k) as [H1 H2]; [by eapply under_store; [apply HP|..]|].
  unfold same_at. by rewrite (Hk k H1 H2).
Qed.

Lemma gathered_inv w w' R :
  gc_pre w -> gathered nixStateDir w w' -> roots (w_gc w') = R -> invalidated (w_gc w') = ∅ ->
  gc_inv nixStore pid (w_ls w) (w_fs w) R w'.
Proof.
  intros HP Hg Hr Hi. pose proof Hg as (Hls & Hwf & _). split; rewrite ?Hls.
  - apply HP.
  - done.
  - done.
  - done.
  - done.
  - done.
  - intros p k [Hs _] Hu. by eapply gathered_same.
  - rewrite Hi. set_solver.
Qed.

Lemma gathered_kept w w' : gc_pre w -> gathered nixStateDir w w' -> roots_kept w w'.
Proof.
  intros HP Hg r Hr. pose proof Hg as (Hls & _ & _). split.
  - intros Hv p Hp. assert (p ∈ all_paths (ls_db (w_ls w))) as Hpv.
    { apply clos_rt_rtn1 in Hp. destruct Hp as [|y z (a & b & _ & Hb & _) _]; [done|]. apply elem_of_all_paths. by exists b. }
    split_and!; [by rewrite Hls|by rewrite Hls|]. intros k Hk. eapply gathered_same; [done|done| |done].
    apply elem_of_all_paths in Hpv as (id & row & Hrow & <-). by apply (ok_rows _ _ (gp_ls _ HP) id row).
  - intros Hs k Hk. by eapply gathered_same.
Qed.

Lemma collect_gathered fuel opts w R :
  gc_pre w -> (forall r, r ∈ R <-> is_root nixStore nixStateDir cwd finder ownerAlive w r) ->
  triple (gc_inv nixStore pid (w_ls w) (w_fs w) R)
    (_ ← (if bool_decide (action opts = gcDeleteSpecific)
          then delete_specific nixStore linksDir cwd pid st_nlink st_blocks st_mode useHelper fuel opts
          else if (maxFreed opts >? 0)%Z
          then delete_all nixStore linksDir cwd pid st_nlink st_blocks st_mode useHelper shuffle fuel else mret tt);
     clean_up linksDir st_nlink st_blocks useHelper opts)
    (fun _ => gc_inv nixStore pid (w_ls w) (w_fs w) R) (fun _ => gc_inv nixStore pid (w_ls w) (w_fs w) R).
Proof.
  intros HP HR. assert (forall i p, i ∈ all_paths (ls_db (w_ls w)) -> p ∈ all_paths (ls_db (w_ls w)) \/ p ∈ R -> p <> gc_tmp pid i) as Htmp.
  { intros i p Hi Hp. apply (gp_tmp _ HP i p Hi). by rewrite <- HR. }
  assert ((linksDir ∉ all_paths (ls_db (w_ls w))) /\ linksDir ∉ R) as Hlinks.
  { split; [apply HP|]. rewrite HR. apply HP. }
  eapply (triple_bind _ _ _ (fun _ => gc_inv nixStore pid (w_ls w) (w_fs w) R)).
  - case_match; [apply delete_specific_inv; (done || apply HP)|]. case_match; [|by apply triple_ret].
    apply delete_all_inv; (done || apply HP).
  - intros _. apply clean_up_inv; (done || apply HP).
Qed.

(** C1: the garbage collector is safe.  Whatever it is asked to do (unless liveness
    is ignored), and whether it finishes, stops at its limit or fails with an
    exception anywhere: every path reachable from a root (a link found from the
    gcroots directory, a line printed by the root finder, a temporary root of a
    running process) is still valid, with its database row and with all its files
    unchanged (up to the mode of regular files); and the files of a root that is not
    valid yet are unchanged too. *)
Theorem collectGarbage_safe fuel opts res w :
  gc_pre w -> ignoreLiveness opts = false ->
  match collect fuel opts res w with
  | Done _ w' | Raised _ w' => roots_kept w w'
  | Stuck => True
  end.
Proof.
  intros HP Hig. unfold collectGarbage. unfold mbind at 1, M_bind at 1, modify at 1. unfold mbind at 1, M_bind at 1.
  set (w1 := on_gc _ w).
  pose proof (gather_roots_spec nixStore nixStateDir cwd finder ownerAlive (gp_state _ HP) opts w1 (gp_fs _ HP) Hig) as Hg.
  destruct (gather_roots _ _ _ _ _ _ _) as [u w2|e w2|]; [| |done].
  2:{ by apply gathered_kept. }
  destruct Hg as (Hg & Hinv & HR).
  pose proof (collect_gathered fuel opts w (roots (w_gc w2)) HP HR w2 (gathered_inv w w2 _ HP Hg eq_refl Hinv)) as Ht.
  assert (Hfin : forall w', gc_inv nixStore pid (w_ls w) (w_fs w) (roots (w_gc w2)) w' -> roots_kept w w').
  { intros w' HI r Hr. apply HR in Hr. split.
    - intros Hv p Hp. eapply (gc_inv_kept nixStore pid); [apply HP|exact HI|exact Hr|exact Hv|exact Hp].
    - intros Hs k Hk. apply (gi_files _ _ _ _ _ _ HI r); [|done]. split; [done|by right]. }
  unfold mbind, M_bind in Ht |- *. destruct (match _ with Done _ _ => _ | _ => _ end); [by apply Hfin|by apply Hfin|done].
Qed.
End Main.

(** ** Witness: a store with two paths, one of them a root *)

Definition gc_fs : FileSys :=
  list_to_map [($"/nix", IDir); ($"/nix/store", IDir); ($"/nix/store/.links", IDir);
    (path_a, IDir); (path_a ++ $"/f", IReg 292 ($"x")); (path_b, IReg 292 ($"y"));
    ($"/nix/store/junk", IDir);
    ($"/nix/var", IDir); ($"/nix/var/nix", IDir); ($"/nix/var/nix/temproots", IDir); ($"/nix/var/nix/gcroots", IDir);
    ($"/nix/var/nix/gcroots/b", ILnk path_b); ($"/nix/var/nix/gcroots/stale", ILnk ($"/home/gone"))].
Definition gc_world : world :=
  mkWorld sample_db gc_fs (mkGCState GCOptions_default GCResults_default ∅ ∅ ∅ ∅ ∅ false false 0).
Definition gc_run : outcome world unit :=
  collectGarbage sample_store (child sample_store ($".links")) ($"/nix/var/nix") ($"/") ($"42")
    (fun _ _ => 1%Z) (fun _ _ => 8%Z) (fun _ _ => 365%Z) false false true None (fun _ => true) (fun l => l)
    10 GCOptions_default GCResults_default gc_world.

(** The run deletes the unreferenced path and the junk, and keeps the root. *)
Definition gc_run_ok : bool :=
  match gc_run with
  | Done _ w => bool_decide (all_paths (ls_db (w_ls w)) = {[path_b]}) && bool_decide (w_fs w !! path_a = None)
      && bool_decide (w_fs w !! ($"/nix/store/junk") = None) && bool_decide (w_fs w !! path_b = Some (IReg 292 ($"y")))
      && bool_decide (res_paths (results (w_gc w)) = {[path_a; $"/nix/store/junk"]})
  | _ => false
  end.
Example gc_run_result : gc_run_ok = true.
Proof. vm_compute. reflexivity. Qed.

Lemma gc_roots_valid r :
  is_root sample_store ($"/nix/var/nix") ($"/") None (fun _ => true) gc_world r -> r ∈ all_paths (ls_db sample_db).
Proof.
  intros [(l & Hf)|[(out & i & Ho & _)|(i & _ & mode & contents & Hc & _)]].
  - by apply found_root in Hf as (tgt & t & _ & _ & _ & _ & Hv).
  - done.
  - exfalso. cbn [w_fs gc_world] in Hc. unfold gc_fs in Hc. apply elem_of_list_to_map_2 in Hc.
    repeat (apply elem_of_cons in Hc as [Hc|Hc]; [discriminate Hc|]). by apply elem_of_nil in Hc.
Qed.

Lemma gc_world_pre : gc_pre sample_store ($"/nix/var/nix") ($"/") ($"42") None (fun _ => true) (fun l => l) gc_world.
Proof.
  split.
  - reflexivity.
  - reflexivity.
  - repeat (constructor; [reflexivity|]). constructor.
  - done.
  - apply sample_db_ok.
  - apply fs_wfb_ok. vm_compute. reflexivity.
  - change (gcroots ($"/nix/var/nix")) with ($"/nix/var/nix/gcroots"). intros k Hk.
    split; (intros Hk'; destruct Hk as [-> |[r ->]], Hk' as [E|[r' E]]; discriminate).
  - intros i p Hi Hp. assert (p ∈ all_paths (ls_db sample_db)) as Hpv by (destruct Hp as [|Hp]; [done|by apply gc_roots_valid]).
    cbn [w_ls gc_world] in Hi. assert (all_paths (ls_db sample_db) = {[path_a; path_b]}) as E
      by (apply (bool_decide_unpack (all_paths (ls_db sample_db) = {[path_a; path_b]})); vm_compute; exact I).
    rewrite E in Hi, Hpv. apply elem_of_union in Hi, Hpv. rewrite !elem_of_singleton in Hi, Hpv.
    destruct Hi as [-> | ->], Hpv as [-> | ->]; vm_compute; discriminate.
  - cbn [w_ls gc_world]. apply (bool_decide_unpack (child sample_store ($".links") ∉ all_paths (ls_db sample_db))). vm_compute. exact I.
  - intros Hr%gc_roots_valid. revert Hr.
    apply (bool_decide_unpack (child sample_store ($".links") ∉ all_paths (ls_db sample_db))). vm_compute. exact I.
Qed.

Lemma gc_root_b : is_root sample_store ($"/nix/var/nix") ($"/") None (fun _ => true) gc_world path_b.
Proof.
  left. exists ($"/nix/var/nix/gcroots/b"). change (gcroots ($"/nix/var/nix")) with ($"/nix/var/nix/gcroots").
  eapply (found_dir _ _ _ _ _ _ ($"b")); [vm_compute; reflexivity|reflexivity|]. apply found_link.
  exists path_b, path_b. split_and!; vm_compute; reflexivity.
Qed.

Lemma collectGarbage_safe_witness :
  match gc_run with
  | Done _ w' => kept sample_db gc_fs w' path_b
  | _ => False
  end.
Proof.
  assert (done_b gc_run = true) as E by (vm_compute; reflexivity).
  pose proof (collectGarbage_safe sample_store ($"/nix/var/nix") ($"/") ($"42") (fun _ _ => 1%Z) (fun _ _ => 8%Z) (fun _ _ => 365%Z)
    false false true None (fun _ => true) (fun l => l) 10 GCOptions_default GCResults_default gc_world gc_world_pre eq_refl) as H.
  fold gc_run in H. destruct gc_run as [u w'|e w'|]; [|discriminate E..].
  apply (H path_b gc_root_b); [|apply rt_refl].
  apply (bool_decide_unpack (path_b ∈ all_paths (ls_db sample_db))). vm_compute. exact I.
Defined.

(** The links of the example. *)
Lemma findRoots_exact_witness :
  exists fs' roots, findRoots sample_store ($"/nix/var/nix") ($"/") sample_db true (gc_fs, ∅) = Done tt (fs', roots) /\
    roots !! ($"/nix/var/nix/gcroots/b") = Some path_b.
Proof.
  destruct (findRoots_exact sample_store ($"/nix/var/nix") ($"/") sample_db eq_refl true gc_fs (gp_fs _ _ _ _ _ _ _ _ gc_world_pre))
    as (fs' & rs & E & Hf & _).
  exists fs', rs. split; [exact E|]. apply Hf.
  eapply (found_dir _ _ _ _ _ _ ($"b")); [vm_compute; reflexivity|reflexivity|]. apply found_link.
  exists path_b, path_b. split_and!; vm_compute; reflexivity.
Defined.
