(* ===== verification/Wire.v ===== *)
(** * The two ends of a connection (src/src/libstore/worker-protocol.hh, remote-store.cc)

    A process reads from a socket the bytes that have arrived ([Sock]) and writes to
    it through a buffered sink ([Out], the class [FdSink] of serialise.hh), so that
    what it has not flushed has not been sent.  Reading when nothing has arrived waits:
    the class [eBlocked].  [StoreOps] has the operations of the class [StoreAPI] of
    store-api.hh; an operation is a [script]: besides changing the store it may
    write to standard error, to a sink, and read from a source. *)

From Stdlib Require Import ZArith Lia Ascii.
From stdpp Require Import base strings sorting numbers gmap sets list.
From S2P Require Import Prelude Effects Util Serialise Hash FileSystem FileOps Archive StorePath GCRoots GC.

(** ** Sockets *)

Record Sock : Type := mkSock { sk_in : str; sk_open : bool }.

(** [FdSource]: its buffering is transparent ([FdSource_laws]). *)
#[export] Instance Sock_source : Source Sock := fun n s =>
  match sk_in s with
  | [] => if sk_open s then throw eBlocked ($"waiting for data") else throw eEndOfFile ($"unexpected end-of-file")
  | d => Ok (take n d, mkSock (drop n d) (sk_open s))
  end.

(** Reading does not change whether the other side is there. *)
#[program] Definition Sock_laws (b : bool) : SourceLaws Sock := {| source_ok s := sk_open s = b; source_rem := sk_in |}.
Next Obligation.
  intros b n [d b'] Hb Hn Hd. cbn in *. destruct d as [|c d]; [done|]. eexists _, _. split; [done|]. split_and!; [|..|done].
  - by destruct n; [lia|].
  - rewrite length_take. lia.
  - cbn [sk_in]. by rewrite take_drop.
Qed.
#[export] Instance Sock_live : SourceLaws Sock := Sock_laws true.

(** A buffered sink on a descriptor; [bs_under] is what has been sent. *)
Abbreviation Out := (BufferedSink str).
Definition send (w d : str) : result str := Ok (w ++ d).
#[export] Instance Out_sink : Sink Out := BufferedSink_write send.
Definition sent_rep (w l : str) : Prop := w = l.
Lemma send_law w l d : sent_rep w l -> chunk_ok d -> exists w', send w d = Ok w' /\ sent_rep w' (l ++ d).
Proof. intros -> _. by eexists. Qed.

(** Writing keeps the size of the buffer. *)
Lemma flush_size s s' : BufferedSink_flush send s = Ok s' -> bs_bufSize s' = bs_bufSize s.
Proof. unfold BufferedSink_flush, send. destruct (bs_buffer s); cbn; by intros [= <-]. Qed.
Lemma write_loop_size fuel : forall d s s', BufferedSink_loop send fuel d s = Ok s' -> bs_bufSize s' = bs_bufSize s.
Proof.
  induction fuel as [|fuel IH]; intros [|c d] s s' Hw; cbn [BufferedSink_loop] in Hw; try by simplify_eq.
  destruct (_ <=? _)%nat.
  - destruct (BufferedSink_flush send s) as [s1| |] eqn:E; [|done..]. cbn in Hw. simplify_eq. cbn. by eapply flush_size.
  - destruct (_ =? _)%nat; [|by apply IH in Hw].
    destruct (BufferedSink_flush send _) as [s1| |] eqn:E; [|done..]. cbn [mbind result_bind] in Hw. apply IH in Hw. apply flush_size in E. by rewrite Hw, E.
Qed.

#[export] Program Instance Out_laws : SinkLaws Out := {| sink_rep s l := buffered_rep sent_rep s l /\ bs_bufSize s = default_bufSize |}.
Next Obligation.
  intros s l d [HR Hs] Hd. destruct (buffered_write_law send sent_rep send_law s l d HR Hd) as (s' & E & R). exists s'. split; [done|]. split; [done|].
  rewrite <- Hs. by eapply write_loop_size.
Qed.

(** A sink that has been flushed. *)
Definition flushed (w : str) : Out := mkBufferedSink default_bufSize [] w.

Lemma sink_rep_flushed w : sink_rep (flushed w) w.
Proof. split; [|done]. split_and!; cbn -[Z.to_nat]; unfold default_bufSize; [lia|lia|]. exists w. by rewrite app_nil_r. Qed.

Lemma flush_sent (s : Out) l : sink_rep s l -> BufferedSink_flush send s = Ok (flushed l).
Proof.
  intros [HR Hs]. destruct (flush_law send sent_rep send_law s l HR) as ([z b u] & E & R & B & Z). rewrite E. cbn in *.
  unfold flushed. by rewrite <- Hs, <- Z, B, R.
Qed.

(** ** The protocol *)

Definition WORKER_MAGIC_1 : Z := 0x6e697863.
Definition WORKER_MAGIC_2 : Z := 0x6478696f.
Definition PROTOCOL_VERSION : Z := 0x10c.
Definition GET_PROTOCOL_MAJOR (x : Z) : Z := Z.land x 0xff00.
Definition GET_PROTOCOL_MINOR (x : Z) : Z := Z.land x 0x00ff.

Definition STDERR_NEXT : Z := 0x6f6c6d67.
Definition STDERR_READ : Z := 0x64617461.
Definition STDERR_WRITE : Z := 0x64617416.
Definition STDERR_LAST : Z := 0x616c7473.
Definition STDERR_ERROR : Z := 0x63787470.

Inductive WorkerOp : Type :=
| wopQuit | wopIsValidPath | wopHasSubstitutes | wopQueryPathHash | wopQueryReferences | wopQueryReferrers
| wopAddToStore | wopAddTextToStore | wopBuildPaths | wopEnsurePath | wopAddTempRoot | wopAddIndirectRoot
| wopSyncWithGC | wopFindRoots | wopExportPath | wopQueryDeriver | wopSetOptions | wopCollectGarbage
| wopQuerySubstitutablePathInfo | wopQueryDerivationOutputs | wopQueryAllValidPaths | wopQueryFailedPaths
| wopClearFailedPaths | wopQueryPathInfo | wopImportPaths | wopQueryDerivationOutputNames | wopQueryPathFromHashPart
| wopQuerySubstitutablePathInfos | wopQueryValidPaths | wopQuerySubstitutablePaths.

#[export] Instance WorkerOp_eq_dec : EqDecision WorkerOp.
Proof. solve_decision. Defined.

Definition wop_num (op : WorkerOp) : Z :=
  match op with
  | wopQuit => 0 | wopIsValidPath => 1 | wopHasSubstitutes => 3 | wopQueryPathHash => 4 | wopQueryReferences => 5 | wopQueryReferrers => 6
  | wopAddToStore => 7 | wopAddTextToStore => 8 | wopBuildPaths => 9 | wopEnsurePath => 10 | wopAddTempRoot => 11 | wopAddIndirectRoot => 12
  | wopSyncWithGC => 13 | wopFindRoots => 14 | wopExportPath => 16 | wopQueryDeriver => 18 | wopSetOptions => 19 | wopCollectGarbage => 20
  | wopQuerySubstitutablePathInfo => 21 | wopQueryDerivationOutputs => 22 | wopQueryAllValidPaths => 23 | wopQueryFailedPaths => 24
  | wopClearFailedPaths => 25 | wopQueryPathInfo => 26 | wopImportPaths => 27 | wopQueryDerivationOutputNames => 28 | wopQueryPathFromHashPart => 29
  | wopQuerySubstitutablePathInfos => 30 | wopQueryValidPaths => 31 | wopQuerySubstitutablePaths => 32
  end%Z.

Definition all_wops : list WorkerOp :=
  [wopQuit; wopIsValidPath; wopHasSubstitutes; wopQueryPathHash; wopQueryReferences; wopQueryReferrers;
   wopAddToStore; wopAddTextToStore; wopBuildPaths; wopEnsurePath; wopAddTempRoot; wopAddIndirectRoot;
   wopSyncWithGC; wopFindRoots; wopExportPath; wopQueryDeriver; wopSetOptions; wopCollectGarbage;
   wopQuerySubstitutablePathInfo; wopQueryDerivationOutputs; wopQueryAllValidPaths; wopQueryFailedPaths;
   wopClearFailedPaths; wopQueryPathInfo; wopImportPaths; wopQueryDerivationOutputNames; wopQueryPathFromHashPart;
   wopQuerySubstitutablePathInfos; wopQueryValidPaths; wopQuerySubstitutablePaths].

(** The case of the [switch] that a number selects. *)
Definition wop_of (n : Z) : option WorkerOp := list_find (fun op => wop_num op = n) all_wops ≫= fun x => Some x.2.

Lemma wop_of_num op : wop_of (wop_num op) = Some op.
Proof. by destruct op. Qed.
Lemma wop_num_range op : (0 <= wop_num op < 2 ^ 32)%Z.
Proof. destruct op; cbn; lia. Qed.

(** [readStorePath] and [readStorePaths]. *)
Section ReadPaths.
Context (nixStore : str) {S : Type} `{Source S}.
Definition readStorePath (from : S) : result (str * S) :=
  '(path, from) ← readString from;
  _ ← assertStorePath nixStore path;
  Ok (path, from).
Definition readStorePathSet (from : S) : result (gset str * S) :=
  '(paths, from) ← readStringSet from;
  _ ← foldM (fun _ p => assertStorePath nixStore p) tt (set_iter paths);
  Ok (paths, from).
Definition readStorePathList (from : S) : result (list str * S) :=
  '(paths, from) ← readStrings from;
  _ ← foldM (fun _ p => assertStorePath nixStore p) tt paths;
  Ok (paths, from).
End ReadPaths.

(** ** The operations of a store *)

Record SubstitutablePathInfo : Type := mkSubstInfo {
  sub_deriver : str; sub_references : gset str; sub_downloadSize : Z; sub_narSize : Z }.
Abbreviation SubstitutablePathInfos := (gmap str SubstitutablePathInfo).

(** A run of an operation: what it writes to standard error and to the sink it was
    given, in order; what it reads from the source it was given, and how it goes on
    with the bytes, or with the exception that the source throws; and its outcome. *)
Inductive script (St A : Type) : Type :=
| SEnd (r : outcome St A)
| SLog (msg : str) (k : script St A)
| SData (d : str) (k : script St A)
| SRead (n : nat) (k : result str -> script St A).
Arguments SEnd {_ _} _.
Arguments SLog {_ _} _ _.
Arguments SData {_ _} _ _.
Arguments SRead {_ _} _ _.

Abbreviation storeOp St A := (St -> script St A).

(** The virtual functions of [StoreAPI], and [LocalStore::addToStoreFromDump]. *)
Class StoreOps (St : Type) : Type := {
  so_isValidPath : str -> storeOp St bool;
  so_queryValidPaths : gset str -> storeOp St (gset str);
  so_queryAllValidPaths : storeOp St (gset str);
  so_queryPathInfo : str -> storeOp St ValidPathInfo;
  so_queryPathHash : str -> storeOp St Hash;
  so_queryReferences : str -> storeOp St (gset str);
  so_queryReferrers : str -> storeOp St (gset str);
  so_queryDeriver : str -> storeOp St str;
  so_queryDerivationOutputs : str -> storeOp St (gset str);
  so_queryDerivationOutputNames : str -> storeOp St (gset str);
  so_queryPathFromHashPart : str -> storeOp St str;
  so_querySubstitutablePaths : gset str -> storeOp St (gset str);
  so_querySubstitutablePathInfos : gset str -> storeOp St SubstitutablePathInfos;
  so_addToStoreFromDump : str -> str -> bool -> HashType -> storeOp St str;
  so_addTextToStore : str -> str -> gset str -> storeOp St str;
  so_exportPath : str -> bool -> storeOp St unit;
  so_importPaths : bool -> storeOp St (list str);
  so_buildPaths : gset str -> storeOp St unit;
  so_ensurePath : str -> storeOp St unit;
  so_addTempRoot : str -> storeOp St unit;
  so_addIndirectRoot : str -> storeOp St unit;
  so_syncWithGC : storeOp St unit;
  so_findRoots : storeOp St (gmap str str);
  so_collectGarbage : GCOptions -> storeOp St GCResults;
  so_queryFailedPaths : storeOp St (gset str);
  so_clearFailedPaths : gset str -> storeOp St unit }.

(** ** Reading and writing paths *)

Section PathSpecs.
Context (nixStore : str).
Definition store_path_ok (p : str) : Prop := isStorePath nixStore p = true /\ chunk_ok p.
Definition strings_ok (ps : gset str) : Prop := (Z.of_nat (size ps) < 2 ^ 32)%Z /\ Forall chunk_ok (set_iter ps).
Definition store_paths_ok (ps : gset str) : Prop := (Z.of_nat (size ps) < 2 ^ 32)%Z /\ Forall store_path_ok (set_iter ps).

Lemma store_paths_strings ps : store_paths_ok ps -> strings_ok ps.
Proof. intros [? Hf]. split; [done|]. eapply Forall_impl; [exact Hf|]. by intros p [_ ?]. Qed.

Lemma assert_paths ps : Forall store_path_ok ps -> foldM (fun _ p => assertStorePath nixStore p) tt ps = Ok tt.
Proof. induction 1 as [|p ps [Hp _] _ IH]; [done|]. cbn. unfold assertStorePath. by rewrite Hp. Qed.

Context {S : Type} `{SourceLaws S}.
Lemma readStorePath_reads p : store_path_ok p -> reads (fun s : S => readStorePath nixStore s) (enc_string p) p.
Proof.
  intros [Hp Hc] s rest Hs Hr. destruct (readString_reads p Hc s rest Hs Hr) as (s' & E & R). exists s'.
  unfold readStorePath, assertStorePath. rewrite E. cbn. by rewrite Hp.
Qed.
Lemma readStorePathSet_reads ps : store_paths_ok ps -> reads (fun s : S => readStorePathSet nixStore s) (enc_strings (set_iter ps)) ps.
Proof.
  intros Hp s rest Hs Hr. destruct (store_paths_strings ps Hp) as [H1 H2]. destruct (readStringSet_reads ps H1 H2 s rest Hs Hr) as (s' & E & R).
  exists s'. unfold readStorePathSet. rewrite E. cbn [mbind result_bind]. rewrite assert_paths; [done|apply Hp].
Qed.
Lemma readStorePathList_reads ps : (Z.of_nat (length ps) < 2 ^ 32)%Z -> Forall store_path_ok ps ->
  reads (fun s : S => readStorePathList nixStore s) (enc_strings ps) ps.
Proof.
  intros H1 Hp s rest Hs Hr. destruct (readStrings_reads ps H1 ltac:(eapply Forall_impl; [exact Hp|]; by intros p [_ ?]) s rest Hs Hr) as (s' & E & R).
  exists s'. unfold readStorePathList. rewrite E. cbn [mbind result_bind]. by rewrite assert_paths.
Qed.
End PathSpecs.
