(* ===== verification/GCReport.v ===== *)
(** * What the garbage collector reports (src/src/libstore/gc.cc)

    With [gcReturnLive] and [gcReturnDead] the collector changes nothing and returns
    a set of paths.  When neither gc-keep-outputs nor gc-keep-derivations is set,
    references have no cycles and the valid paths exist, it returns, and the set is
    exactly that of the valid paths that are, or are not, reachable from the roots.
    With gc-keep-derivations alone (the default) there is no such characterisation:
    the result depends on the order in which the paths are tried, which is random. *)

From Stdlib Require Import ZArith Lia Ascii Relations.
From stdpp Require Import base strings sorting numbers gmap sets list.
From S2P Require Import Prelude Effects Util Serialise Hash FileSystem FileOps Archive References StorePath Derivations Closure LocalStore GCRoots GC.

Section Report.
Context (nixStore cwd pid : str).
Context (st_nlink st_blocks st_mode : FileSys -> str -> Z) (useHelper : bool) (shuffle : list str -> list str).
Context (ls : LocalStore) (fs : FileSys) (opts : GCOptions) (R temp : gset str).
Abbreviation valid := (all_paths (ls_db ls)).
Abbreviation ref := (db_ref (ls_db ls)).
Abbreviation linksDir := (child nixStore ($".links")).

(** A reference to another path. *)
Definition sref (p q : str) : Prop := p <> q /\ ref p q.

Context (abs : is_abs nixStore = true) (shuffle_perm : forall l, shuffle l ≡ₚ l).
Context (ok : ls_ok nixStore ls) (wf : fs_wf fs).
Context (on_disk : forall p, p ∈ valid -> fs !! p <> None) (links_invalid : linksDir ∉ valid).
Context (acyclic : forall p, ~ clos_trans str sref p p).
Context (report : action opts = gcReturnDead \/ action opts = gcReturnLive).

Definition reachable (p : str) : Prop := exists r, r ∈ R /\ clos_refl_trans str ref r p.

(** ** Reachability *)

Lemma rt_sref x y : clos_refl_trans str ref x y -> clos_refl_trans str sref x y.
Proof.
  induction 1 as [x y Hxy| |x y z _ IH1 _ IH2]; [|apply rt_refl|by eapply rt_trans].
  destruct (decide (x = y)) as [-> |Hne]; [apply rt_refl|by apply rt_step].
Qed.

Lemma no_cycle p i : sref i p -> ~ clos_refl_trans str ref p i.
Proof.
  intros Hi Hp%rt_sref. apply (acyclic p). apply clos_rt_t with i; [done|]. by apply t_step.
Qed.

Lemma reachable_step p : reachable p -> p ∈ R \/ exists q, q <> p /\ ref q p /\ reachable q.
Proof.
  intros (r & Hr & Hp). apply clos_rt_rtn1 in Hp. induction Hp as [|y z Hyz Hry IH]; [by left|].
  destruct (decide (y = z)) as [-> |Hne]; [done|]. right. exists y. split_and!; [done|done|]. exists r. split; [done|].
  by apply clos_rtn1_rt.
Qed.

Lemma reachable_ref p q : reachable p -> ref p q -> reachable q.
Proof. intros (r & Hr & Hp) Hpq. exists r. split; [done|]. eapply rt_trans; [done|by apply rt_step]. Qed.

(** The set of the paths that lead to a path. *)
Definition is_upset (p : str) (V : gset str) : Prop := forall x, x ∈ V <-> clos_refl_trans str ref x p.

Lemma upset_exists p : p ∈ valid -> exists V, is_upset p V.
Proof.
  intros Hp. destruct (computeFSClosure_spec (H0 := LocalStore_laws nixStore) ls ok true false p Hp) as (V & _ & HV).
  exists V. intros x. rewrite HV.
  assert (He : forall a b, edge (H0 := LocalStore_laws nixStore) ls true false a b <-> ref b a).
  { intros a b. unfold edge. cbn [Closure.valid refs_of LocalStore_laws]. rewrite elem_of_ls_refs by done.
    split; [naive_solver|]. intros Hab. split_and!; [| |by left].
    - destruct Hab as (i & j & _ & Hj & _). apply elem_of_all_paths. by exists j.
    - destruct Hab as (i & j & Hi & _). apply elem_of_all_paths. by exists i. }
  clear Hp HV. split.
  - induction 1 as [a b Hab| |a b c _ IH1 _ IH2]; [apply rt_step; by apply He|apply rt_refl|by apply rt_trans with b].
  - induction 1 as [a b Hab| |a b c _ IH1 _ IH2]; [apply rt_step; by apply He|apply rt_refl|by apply rt_trans with b].
Qed.

Lemma upset_smaller p i V Vi : is_upset p V -> is_upset i Vi -> sref i p -> (size Vi < size V)%nat.
Proof.
  intros HV HVi Hi. apply subset_size. split.
  - intros x Hx. apply HV. eapply rt_trans; [by apply HVi|]. apply rt_step, Hi.
  - intros Hsub. assert (p ∈ V) as Hp by (apply HV, rt_refl). apply Hsub in Hp. by apply HVi, (no_cycle p i) in Hp.
Qed.

(** ** The state while reporting *)

Record reporting (res0 : gset str) (w : world) : Prop := {
  rp_ls : w_ls w = ls;
  rp_fs : w_fs w = fs;
  rp_opts : options (w_gc w) = opts;
  rp_roots : roots (w_gc w) = R;
  rp_keep : gcKeepOutputs (w_gc w) = false /\ gcKeepDerivations (w_gc w) = false;
  rp_dead : forall p, p ∈ deleted (w_gc w) -> p ∈ valid -> ~ reachable p;
  rp_live : forall p, p ∈ live (w_gc w) -> reachable p;
  rp_paths : res_paths (results (w_gc w)) =
    res0 ∪ (if bool_decide (action opts = gcReturnLive) then live (w_gc w) else deleted (w_gc w)) }.

Context (res0 : gset str).
Abbreviation rep := (reporting res0).

(** What is known after a path has been tried. *)
Definition tried (w w' : world) : Prop :=
  rep w' /\ deleted (w_gc w) ⊆ deleted (w_gc w') /\ live (w_gc w) ⊆ live (w_gc w').
Definition decided (p : str) (b : bool) (w' : world) : Prop :=
  if b then p ∈ deleted (w_gc w') else p ∈ live (w_gc w').

Lemma mark_live_run p w :
  mark_live p w = Done tt (if bool_decide (action (options (w_gc w)) = gcReturnLive)
    then on_gc (set_results (add_path p)) (on_gc (add_live p) w) else on_gc (add_live p) w).
Proof. unfold mark_live, mbind, M_bind, modify, gets. cbn. by case_match. Qed.

Lemma delete_one_run mode p w :
  shouldDelete (action (options (w_gc w))) = false ->
  delete_one nixStore cwd pid st_nlink st_blocks useHelper mode p w =
  Done tt (if bool_decide (action (options (w_gc w)) = gcReturnLive) then on_gc (add_deleted p) w
    else on_gc (set_results (add_path p)) (on_gc (add_deleted p) w)).
Proof.
  intros Hs. unfold delete_one, mbind, M_bind, modify, gets. rewrite Hs. cbn. by case_match.
Qed.

Lemma is_live_report p w : rep w -> reachable p -> exists w', is_live {[p]} w = Done false w' /\ tried w w' /\ p ∈ live (w_gc w').
Proof.
  intros [H1 H2 H3 H4 H5 H6 H7 H8] Hp. unfold is_live.
  replace (set_iter {[p]}) with [p] by (unfold set_iter; by rewrite elements_singleton).
  cbn [forM]. unfold mbind, M_bind. rewrite mark_live_run, H3. unfold mret, M_ret. eexists. split; [done|].
  destruct (bool_decide (action opts = gcReturnLive)) eqn:Ea;
    (split; [|cbn; set_solver]); (split_and!; [|cbn; set_solver|cbn; set_solver]); split; cbn; try done;
    try (rewrite Ea, H8; set_solver); intros q [->%elem_of_singleton|Hq]%elem_of_union; auto.
Qed.

Lemma delete_one_report mode p w :
  rep w -> (p ∈ valid -> ~ reachable p) ->
  exists w', delete_one nixStore cwd pid st_nlink st_blocks useHelper mode p w = Done tt w' /\ tried w w' /\ p ∈ deleted (w_gc w').
Proof.
  intros [H1 H2 H3 H4 H5 H6 H7 H8] Hp.
  rewrite delete_one_run, H3 by (rewrite H3; by destruct report as [-> | ->]). eexists. split; [done|].
  destruct (bool_decide (action opts = gcReturnLive)) eqn:Ea;
    (split; [|cbn; set_solver]); (split_and!; [|cbn; set_solver|cbn; set_solver]); split; cbn; try done;
    try (rewrite Ea, H8; set_solver); intros q [->%elem_of_singleton|Hq]%elem_of_union; auto.
Qed.

(** Only one path at a time is considered. *)
Lemma component_single p fuel : isStorePath nixStore p = true -> (2 <= fuel)%nat ->
  component_loop nixStore fuel ls false false {[p]} ∅ = Ok {[p]}.
Proof.
  intros Hs Hf. destruct fuel as [|[|fuel]]; [lia|lia|]. cbn [component_loop].
  replace (set_iter {[p]}) with [p] by (unfold set_iter; by rewrite elements_singleton).
  unfold assertStorePath. rewrite Hs. cbn [mbind result_bind andb].
  rewrite decide_False by set_solver. rewrite difference_diag_L, union_empty_r_L. by rewrite set_iter_empty.
Qed.

Lemma topo_single p : topoSortPaths (H := LocalStore_api nixStore) ls {[p]} = Ok [p].
Proof.
  pose proof (topoSortPaths_spec (H0 := LocalStore_laws nixStore) ls ok {[p]}) as Ht.
  destruct (topoSortPaths _ _) as [l|e|]; [| |done].
  - f_equal. destruct Ht as (Hnd & Hl & _). apply Permutation_singleton_r. apply NoDup_Permutation; [done|apply NoDup_singleton|].
    intros x. rewrite Hl. set_solver.
  - exfalso. destruct Ht as (_ & x & Hx). clear -Hx.
    assert (forall a b, clos_trans str (tedge (H0 := LocalStore_laws nixStore) ls {[p]}) a b -> False) as Hno; [|by apply (Hno x x)].
    induction 1 as [a b (Ha & _ & _ & Hne & Hb)|]; [|done]. set_solver.
Qed.

Abbreviation try_delete := (tryToDelete nixStore linksDir cwd pid st_nlink st_blocks st_mode useHelper).

Lemma referrers_report (try : str -> M world bool) p l : forall w,
  rep w ->
  (forall i w, i ∈ l -> i <> p -> rep w -> exists b w', try i w = Done b w' /\ tried w w' /\ decided i b w') ->
  exists b w', delete_referrers try {[p]} l w = Done b w' /\ tried w w' /\
    if b then forall i, i ∈ l -> i <> p -> i ∈ deleted (w_gc w') else exists i, i ∈ l /\ i <> p /\ i ∈ live (w_gc w').
Proof.
  induction l as [|i l IH]; intros w Hw Htry; cbn [delete_referrers].
  { exists true, w. split_and!; [done|by split_and!|]. intros i Hi. by apply elem_of_nil in Hi. }
  assert (Htry' : forall j w, j ∈ l -> j <> p -> rep w -> exists b w', try j w = Done b w' /\ tried w w' /\ decided j b w')
    by (intros; apply Htry; [by right|done|done]).
  destruct (decide (i ∈ {[p]})) as [->%elem_of_singleton|Hne].
  { destruct (IH w Hw Htry') as (b & w' & E & Ht & Hb). exists b, w'. split_and!; [done|done|]. destruct b.
    - intros j [-> |Hj]%elem_of_cons Hjp; [done|auto].
    - destruct Hb as (j & Hj & Hx). exists j. split; [by right|done]. }
  rewrite elem_of_singleton in Hne. destruct (Htry i w) as (b & w1 & E1 & (Hw1 & Hd1 & Hl1) & Hb); [left|done|done|].
  unfold mbind, M_bind. rewrite E1. destruct b.
  2:{ exists false, w1. split_and!; [done|by split_and!|]. exists i. split_and!; [left|done|done]. }
  destruct (IH w1 Hw1 Htry') as (b & w' & E & (Hw' & Hd' & Hl') & Hb').
  exists b, w'. split_and!; [done|split_and!; [done|set_solver|set_solver]|]. destruct b.
  - intros j [-> |Hj]%elem_of_cons Hjp; [by apply Hd'|auto].
  - destruct Hb' as (j & Hj & Hx). exists j. split; [by right|done].
Qed.

Lemma valid_store p : p ∈ valid -> isStorePath nixStore p = true.
Proof. intros (id & r & Hr & <-)%elem_of_all_paths. by apply (ok_rows _ _ ok id r). Qed.

Lemma all_referrers_total p : p ∈ valid -> exists refs, all_referrers nixStore ls {[p]} = Ok refs /\ forall r, r ∈ refs <-> ref r p.
Proof.
  intros Hp. assert (exists refs, all_referrers nixStore ls {[p]} = Ok refs) as [refs E].
  { unfold all_referrers. replace (set_iter {[p]}) with [p] by (unfold set_iter; by rewrite elements_singleton).
    cbn [foldM]. unfold ls_isValidPath, ls_queryReferrers, assertStorePath. rewrite valid_store by done. cbn [mbind result_bind].
    case_bool_decide; by eexists. }
  exists refs. split; [done|]. intros r. rewrite (all_referrers_spec nixStore _ _ _ ok E). set_solver.
Qed.

(** A valid path is decided correctly. *)
Lemma tryToDelete_report fuel : forall p V w,
  rep w -> p ∈ valid -> is_upset p V -> (size V <= fuel)%nat ->
  exists b w', try_delete fuel p w = Done b w' /\ tried w w' /\ decided p b w'.
Proof.
  induction fuel as [|fuel IH]; intros p V w Hw Hp HV Hsz.
  { exfalso. assert (p ∈ V) as HpV by (apply HV, rt_refl). apply (size_non_empty_iff V); [set_solver|lia]. }
  cbn [tryToDelete]. unfold str_eqb. rewrite bool_decide_eq_false_2 by (intros ->; done).
  unfold mbind at 1, M_bind at 1, gets at 1. pose proof Hw as [H1 H2 H3 H4 [H5 H5'] H6 H7 H8]. cbn [id]. rewrite H2.
  destruct (fs !! p) as [st|] eqn:Est; [|by destruct (on_disk p Hp)].
  destruct (decide (p ∈ deleted (w_gc w))); [by exists true, w; split_and!|].
  destruct (decide (p ∈ live (w_gc w))); [by exists false, w; split_and!|].
  cbv zeta. unfold mbind at 1, M_bind at 1, lift at 1, ls_isValidPath. rewrite H1.
  rewrite bool_decide_eq_true_2 by (by apply sql_path_valid). cbn [negb andb].
  unfold mbind at 1, M_bind at 1, lift at 1. rewrite H1, H5, H5'.
  rewrite component_single by (by apply valid_store || (unfold component_fuel; lia)). rewrite H4.
  destruct (bool_decide ({[p]} ∩ R = ∅)) eqn:Er; cbn [negb].
  2:{ apply bool_decide_eq_false in Er. assert (p ∈ R) as HpR by (destruct (decide (p ∈ R)); [done|set_solver]).
      destruct (is_live_report p w Hw) as (w' & E & Ht & Hl); [by exists p; split; [|apply rt_refl]|].
      by exists false, w'. }
  apply bool_decide_eq_true in Er. assert (p ∉ R) as HpR by set_solver.
  unfold mbind at 1, M_bind at 1, lift at 1. rewrite H1. destruct (all_referrers_total p Hp) as (refs & -> & Hrefs).
  unfold mbind at 1, M_bind at 1.
  destruct (referrers_report (try_delete fuel) p (set_iter refs) w Hw) as (b & w1 & -> & (Hw1 & Hd1 & Hl1) & Hb).
  { intros i w1 Hi%elem_of_set_iter Hne Hw1. apply Hrefs in Hi as Hip.
    assert (i ∈ valid) as Hiv by (destruct Hip as (a & c & Ha & _); apply elem_of_all_paths; by exists a).
    destruct (upset_exists i Hiv) as [Vi HVi]. apply (IH i Vi); [done|done|done|].
    pose proof (upset_smaller p i V Vi HV HVi (conj Hne Hip)). lia. }
  destruct b; cbn [negb].
  2:{ destruct Hb as (i & Hi%elem_of_set_iter & Hne & Hil). apply Hrefs in Hi.
      destruct (is_live_report p w1 Hw1) as (w' & E & (Hw' & Hd' & Hl') & Hl).
      { eapply reachable_ref; [|done]. by apply (rp_live _ _ Hw1). }
      exists false, w'. split_and!; [done|split_and!; [done|set_solver|set_solver]|done]. }
  unfold mbind at 1, M_bind at 1, lift at 1. rewrite (rp_ls _ _ Hw1), topo_single. cbn [forM].
  destruct (delete_one_report (if is_dir st then Some (st_mode fs p) else None) p w1 Hw1) as (w2 & E2 & (Hw2 & Hd2 & Hl2) & Hp2).
  { intros _ Hre. destruct (reachable_step p Hre) as [?|(q & Hqp & Hq & Hqr)]; [done|].
    assert (q ∈ deleted (w_gc w1)) as Hqd by (apply Hb; [by apply elem_of_set_iter, Hrefs|done]).
    apply (rp_dead _ _ Hw1 q Hqd); [|done]. destruct Hq as (a & c & Ha & _). apply elem_of_all_paths. by exists a. }
  unfold mbind, M_bind. rewrite E2. exists true, w2. split_and!; [done|split_and!; [done|set_solver|set_solver]|done].
Qed.

(** An entry of the store that is not valid. *)
Lemma all_referrers_invalid p : p ∉ valid -> all_referrers nixStore ls {[p]} = Ok ∅.
Proof.
  intros Hp. unfold all_referrers. replace (set_iter {[p]}) with [p] by (unfold set_iter; by rewrite elements_singleton).
  cbn [foldM]. unfold ls_isValidPath. cbn [mbind result_bind]. by rewrite bool_decide_eq_false_2 by (by rewrite sql_path_valid).
Qed.

Lemma tryToDelete_invalid fuel p w :
  rep w -> p ∉ valid -> exists b w', try_delete (S fuel) p w = Done b w' /\ tried w w'.
Proof.
  intros Hw Hp. cbn [tryToDelete]. destruct (str_eqb p linksDir); [by exists true, w; split_and!|].
  unfold mbind at 1, M_bind at 1, gets at 1. pose proof Hw as [H1 H2 H3 H4 [H5 H5'] H6 H7 H8]. cbn [id]. rewrite H2.
  destruct (fs !! p) as [st|]; [|by exists true, w; split_and!].
  destruct (decide (p ∈ deleted (w_gc w))); [by exists true, w; split_and!|].
  destruct (decide (p ∈ live (w_gc w))); [by exists false, w; split_and!|].
  cbv zeta. unfold mbind at 1, M_bind at 1, lift at 1, ls_isValidPath. rewrite H1.
  rewrite bool_decide_eq_false_2 by (by rewrite sql_path_valid). cbn [negb andb].
  destruct (_ || _); [by exists false, w; split_and!|].
  unfold mbind at 1, M_bind at 1, mret at 1, M_ret at 1. rewrite H4.
  destruct (bool_decide ({[p]} ∩ R = ∅)) eqn:Er; cbn [negb].
  2:{ apply bool_decide_eq_false in Er. assert (p ∈ R) as HpR by (destruct (decide (p ∈ R)); [done|set_solver]).
      destruct (is_live_report p w Hw) as (w' & E & Ht & _); [by exists p; split; [|apply rt_refl]|]. by exists false, w'. }
  unfold mbind at 1, M_bind at 1, lift at 1. rewrite H1, all_referrers_invalid by done. rewrite set_iter_empty.
  cbn [delete_referrers]. unfold mbind at 1, M_bind at 1, mret at 1, M_ret at 1. cbn [negb].
  unfold mbind at 1, M_bind at 1, lift at 1. rewrite H1, topo_single. cbn [forM].
  destruct (delete_one_report (if is_dir st then Some (st_mode fs p) else None) p w Hw) as (w2 & E2 & Ht & _); [done|].
  unfold mbind, M_bind. rewrite E2. by exists true, w2.
Qed.

Lemma tried_trans w1 w2 w3 : tried w1 w2 -> tried w2 w3 -> tried w1 w3.
Proof. intros (_ & H1 & H2) (H3 & H4 & H5). split_and!; [done|set_solver|set_solver]. Qed.

Lemma tried_refl w : rep w -> tried w w.
Proof. intros Hw. unfold tried. by split_and!. Qed.

Lemma delete_invalid_report fuel names : forall entries w,
  rep w -> (0 < fuel)%nat ->
  exists w', delete_invalid nixStore linksDir cwd pid st_nlink st_blocks st_mode useHelper fuel names entries w =
    Done (entries ++ filter (fun p => p ∈ valid) (child nixStore <$> names)) w' /\ tried w w'.
Proof.
  induction names as [|n names IH]; intros entries w Hw Hf; cbn [delete_invalid fmap list_fmap].
  { exists w. rewrite app_nil_r. split; [done|by apply tried_refl]. }
  rewrite filter_cons. unfold mbind at 1, M_bind at 1, lift at 1, ls_isValidPath. rewrite (rp_ls _ _ Hw).
  destruct (decide (child nixStore n ∈ valid)) as [Hv|Hv].
  - rewrite bool_decide_eq_true_2 by (by apply sql_path_valid).
    destruct (IH (entries ++ [child nixStore n]) w Hw Hf) as (w' & E & Ht). exists w'. rewrite <- app_assoc in E. done.
  - rewrite bool_decide_eq_false_2 by (by rewrite sql_path_valid). destruct fuel as [|fuel]; [lia|].
    destruct (tryToDelete_invalid fuel (child nixStore n) w Hw Hv) as (b & w1 & E1 & Ht1).
    unfold mbind, M_bind. rewrite E1. destruct (IH entries w1 (proj1 Ht1) Hf) as (w' & E & Ht). exists w'.
    split; [done|by eapply tried_trans].
Qed.

Lemma delete_entries_report fuel l : forall w,
  rep w -> (size valid <= fuel)%nat -> (forall i, i ∈ l -> i ∈ valid) ->
  exists w', forM (fun i => _ ← try_delete fuel i; mret tt) l w = Done tt w' /\ tried w w' /\
    forall i, i ∈ l -> i ∈ deleted (w_gc w') \/ i ∈ live (w_gc w').
Proof.
  induction l as [|i l IH]; intros w Hw Hf Hl; cbn [forM].
  { exists w. split_and!; [done|by apply tried_refl|]. intros i Hi. by apply elem_of_nil in Hi. }
  assert (i ∈ valid) as Hi by (apply Hl; left). destruct (upset_exists i Hi) as [V HV].
  destruct (tryToDelete_report fuel i V w Hw Hi HV) as (b & w1 & E1 & Ht1 & Hb).
  { etrans; [|exact Hf]. apply subseteq_size. intros x Hx%HV. apply clos_rt_rt1n in Hx.
    destruct Hx as [|y z (a & c & Ha & _) _]; [done|]. apply elem_of_all_paths. by exists a. }
  unfold mbind, M_bind. rewrite E1. unfold mret, M_ret.
  destruct (IH w1 (proj1 Ht1) Hf) as (w' & E & Ht & Hd); [intros j Hj; apply Hl; by right|].
  exists w'. split_and!; [done|by eapply tried_trans|]. intros j [-> |Hj]%elem_of_cons; [|auto].
  destruct Ht as (_ & Hd' & Hl'). destruct b; [left; by apply Hd'|right; by apply Hl'].
Qed.

(** C26: with [gcReturnDead] or [gcReturnLive], when neither outputs nor derivations
    are kept for each other, references have no cycle and every valid path exists,
    the collector's pass over the store returns, changes neither the database nor
    the files, and the paths it adds to the results are, among the valid ones,
    exactly those that cannot, or can, be reached from a root along references. *)
Theorem delete_all_reports fuel w :
  reporting res0 w -> fs !! nixStore = Some IDir -> (size valid < fuel)%nat ->
  exists w', delete_all nixStore linksDir cwd pid st_nlink st_blocks st_mode useHelper shuffle fuel w = Done tt w' /\
    w_ls w' = ls /\ w_fs w' = fs /\
    forall p, p ∈ valid ->
      p ∈ res_paths (results (w_gc w')) <->
      p ∈ res0 \/ if bool_decide (action opts = gcReturnLive) then reachable p else ~ reachable p.
Proof.
  intros Hw Hdir Hfuel.
  destruct (readDirectory fs nixStore) as [names| |] eqn:En; [|unfold readDirectory in En; by rewrite Hdir in En..].
  destruct (readDirectory_spec _ _ _ En) as (_ & _ & Hnames).
  destruct (delete_invalid_report fuel names [] w Hw ltac:(lia)) as (w1 & E1 & Ht1).
  set (entries := filter _ _) in E1. cbn [app] in E1.
  destruct (delete_entries_report fuel (shuffle entries) w1 (proj1 Ht1) ltac:(lia)) as (w2 & E2 & Ht2 & Hd2).
  { intros i Hi. rewrite shuffle_perm in Hi. by apply list_elem_of_filter in Hi as [? _]. }
  exists w2. destruct Ht2 as ([L1 L2 L3 L4 L5 L6 L7 L8] & _). split_and!; [|done|done|].
  - unfold delete_all, try_catch. unfold mbind at 1, M_bind at 1, lift at 1. rewrite (rp_fs _ _ Hw), En.
    unfold mbind at 1, M_bind at 1. rewrite E1, E2. done.
  - intros p Hp. rewrite L8, elem_of_union.
    assert (p ∈ deleted (w_gc w2) \/ p ∈ live (w_gc w2)) as Hdec.
    { apply Hd2. rewrite shuffle_perm. apply list_elem_of_filter. split; [done|].
      pose proof (on_disk p Hp) as Hd. apply valid_store in Hp as (n & -> & Hn)%isStorePath_child; [|done].
      apply list_elem_of_fmap. exists n. split; [done|]. by apply Hnames. }
    case_bool_decide; split; (intros [?|Hx]; [by left|right]); try by auto.
    + destruct Hdec as [Hdd|]; [|done]. by apply L6 in Hdd.
    + destruct Hdec as [|Hl]; [done|]. by apply L7 in Hl.
Qed.
End Report.

(** * Keeping derivations but not outputs

    A store with a derivation that is a root, and its output, which is not. *)

Definition drv_path : str := $"/nix/store/abc-x.drv".
Definition out_path_x : str := $"/nix/store/abd-x".
Definition hash_text : str := $"sha256:" ++ printHash sample_hash.
Definition drv_db : DB :=
  mkDB {[ 1%Z := mkRow drv_path hash_text 1000 None (Some 120%Z); 2%Z := mkRow out_path_x hash_text 1000 (Some drv_path) (Some 120%Z) ]}
    3 ∅ {[ (1%Z, $"out") := out_path_x ]} ∅.
Definition drv_fs : FileSys :=
  list_to_map [($"/nix", IDir); ($"/nix/store", IDir); ($"/nix/store/.links", IDir);
    (drv_path, IReg 292 ($"Derive(...)")); (out_path_x, IDir);
    ($"/nix/var", IDir); ($"/nix/var/nix", IDir); ($"/nix/var/nix/temproots", IDir); ($"/nix/var/nix/gcroots", IDir);
    ($"/nix/var/nix/gcroots/x", ILnk drv_path)].
Definition report_run (keepDerivations : bool) (shuffle : list str -> list str) : outcome world unit :=
  collectGarbage sample_store (child sample_store ($".links")) ($"/nix/var/nix") ($"/") ($"42")
    (fun _ _ => 1%Z) (fun _ _ => 8%Z) (fun _ _ => 365%Z) false false keepDerivations None (fun _ => true) shuffle
    10 (mkGCOptions gcReturnDead false ∅ (2 ^ 64 - 1)) GCResults_default
    (mkWorld (mkLocalStore drv_db ∅) drv_fs (mkGCState GCOptions_default GCResults_default ∅ ∅ ∅ ∅ ∅ false false 0)).

(** Whether the output is reported as dead. *)
Definition reports_dead (o : outcome world unit) : option bool :=
  match o with Done _ w => Some (bool_decide (out_path_x ∈ res_paths (results (w_gc w)))) | _ => None end.

(** With gc-keep-derivations set and gc-keep-outputs not set, whether an output
    that nothing refers to is garbage depends on the random order in which the
    collector tries the paths: tried before its derivation, which is a root, it is
    reported as dead; tried after it, it has been marked live together with the
    derivation.  Without gc-keep-derivations it is dead in both orders. *)
Theorem keep_derivations_order_dependent :
  reports_dead (report_run true (fun l => l)) <> reports_dead (report_run true (@rev str)) /\
  (reports_dead (report_run true (fun l => l)) = Some true \/ reports_dead (report_run true (@rev str)) = Some true) /\
  reports_dead (report_run false (fun l => l)) = Some true /\ reports_dead (report_run false (@rev str)) = Some true.
Proof. vm_compute. split_and!; auto; discriminate. Qed.

(** ** Witness *)

Definition report_world : world :=
  mkWorld sample_db gc_fs (mkGCState (mkGCOptions gcReturnDead false ∅ (2 ^ 64 - 1)) GCResults_default {[path_b]} ∅ ∅ ∅ ∅ false false 0).

Lemma sample_refs_acyclic p : ~ clos_trans str (sref sample_db) p p.
Proof.
  assert (forall x y, sref sample_db x y -> x = path_a /\ y = path_b) as Hs.
  { intros x y [Hne Hr]. assert (y ∈ ls_refs sample_db x) as Hy by (by apply (elem_of_ls_refs sample_store), Hr; apply sample_db_ok).
    assert (x ∈ all_paths (ls_db sample_db)) as Hx by (destruct Hr as (a & b & Ha & _); apply elem_of_all_paths; by exists a).
    assert (all_paths (ls_db sample_db) = {[path_a; path_b]}) as E
      by (apply (bool_decide_unpack (all_paths (ls_db sample_db) = {[path_a; path_b]})); vm_compute; exact I).
    rewrite E in Hx. apply elem_of_union in Hx as [->%elem_of_singleton | ->%elem_of_singleton].
    - assert (ls_refs sample_db path_a = {[path_a; path_b]}) as E'
        by (apply (bool_decide_unpack (ls_refs sample_db path_a = {[path_a; path_b]})); vm_compute; exact I).
      rewrite E' in Hy. apply elem_of_union in Hy as [->%elem_of_singleton | ->%elem_of_singleton]; [|exact (conj eq_refl eq_refl)]. exact (False_ind _ (Hne eq_refl)).
    - assert (ls_refs sample_db path_b = ∅) as E'
        by (apply (bool_decide_unpack (ls_refs sample_db path_b = ∅)); vm_compute; exact I).
      rewrite E' in Hy. exact (False_ind _ (not_elem_of_empty y Hy)). }
  assert (forall x y, clos_trans str (sref sample_db) x y -> x = path_a /\ y = path_b) as Ht.
  { induction 1 as [x y Hxy|x y z _ [H1 H2] _ [H3 H4]]; [by apply Hs|exact (conj H1 H4)]. }
  intros Hp. apply Ht in Hp as [-> Hp]. revert Hp. apply (bool_decide_unpack (path_a <> path_b)). vm_compute. exact I.
Qed.

Lemma sample_valid_paths : all_paths (ls_db sample_db) = {[path_a; path_b]}.
Proof. apply (bool_decide_unpack (all_paths (ls_db sample_db) = {[path_a; path_b]})). vm_compute. exact I. Qed.

Lemma sample_on_disk p : p ∈ all_paths (ls_db sample_db) -> gc_fs !! p <> None.
Proof.
  rewrite sample_valid_paths. intros [->%elem_of_singleton | ->%elem_of_singleton]%elem_of_union.
  - apply (bool_decide_unpack (gc_fs !! path_a <> None)). vm_compute. exact I.
  - apply (bool_decide_unpack (gc_fs !! path_b <> None)). vm_compute. exact I.
Qed.

Lemma sample_links_invalid : child sample_store ($".links") ∉ all_paths (ls_db sample_db).
Proof. apply (bool_decide_unpack (child sample_store ($".links") ∉ all_paths (ls_db sample_db))). vm_compute. exact I. Qed.

Lemma report_world_reporting :
  reporting sample_db gc_fs (mkGCOptions gcReturnDead false ∅ (2 ^ 64 - 1)) {[path_b]} ∅ report_world.
Proof.
  split; try reflexivity; [split; reflexivity| |].
  - intros p Hp. exact (False_ind _ (not_elem_of_empty p Hp)).
  - intros p Hp. exact (False_ind _ (not_elem_of_empty p Hp)).
Qed.

Lemma delete_all_reports_witness :
  exists w', delete_all sample_store (child sample_store ($".links")) ($"/") ($"42") (fun _ _ => 1%Z) (fun _ _ => 8%Z) (fun _ _ => 365%Z)
      false (fun l => l) 10 report_world = Done tt w' /\
    (path_a ∈ res_paths (results (w_gc w')) <-> path_a ∈ (∅ : gset str) \/ ~ reachable sample_db {[path_b]} path_a).
Proof.
  destruct (delete_all_reports sample_store ($"/") ($"42") (fun _ _ => 1%Z) (fun _ _ => 8%Z) (fun _ _ => 365%Z) false (fun l => l)
    sample_db gc_fs (mkGCOptions gcReturnDead false ∅ (2 ^ 64 - 1)) {[path_b]} eq_refl (fun l => reflexivity l)
    sample_db_ok (gp_fs _ _ _ _ _ _ _ _ gc_world_pre) sample_on_disk sample_links_invalid sample_refs_acyclic (or_introl eq_refl)
    ∅ 10%nat report_world report_world_reporting) as (w' & E & _ & _ & H).
  - apply (bool_decide_unpack (gc_fs !! sample_store = Some IDir)). vm_compute. exact I.
  - apply (bool_decide_unpack (size (all_paths (ls_db sample_db)) < 10)%nat). vm_compute. exact I.
  - exists w'. split; [exact E|]. apply (H path_a).
    apply (bool_decide_unpack (path_a ∈ all_paths (ls_db sample_db))). vm_compute. exact I.
Defined.
