(* ===== verification/PathLocks.v ===== *)
(** * Locks on store paths (src/src/libstore/pathlocks.cc)

    A process that writes a store path locks the file [path.lock] next to it, and
    removes that file when it is done, so a process that waited for the lock may
    get a lock on a file that is no longer there; the size of the file tells.  The
    model has any number of processes, each with one [PathLocks] object, and
    interleaves their system calls: names, inodes and the locks of fcntl(2) are
    shared.

    The theorems: no two processes hold the lock of the same path, whatever the
    interleaving ([pathlocks_exclusive]); processes that wait for each other's
    locks cannot all be blocked, because the locks are taken in the order of the
    paths ([pathlocks_no_deadlock]); a process that is killed between the two
    steps of [deleteLockFile] breaks exclusion ([killed_process_breaks_exclusion]). *)

From Stdlib Require Import ZArith Lia Ascii.
From stdpp Require Import base strings sorting numbers gmap sets list.
From S2P Require Import Prelude.

Definition lockPath (path : str) : str := path ++ $".lock".

(** ** The shared state

    [names] are the lock files, [inodes] the name each inode was created under and
    its size, [owner] the process with an exclusive lock on an inode. *)
Record shared : Type := mkShared {
  names : gmap str nat; inodes : gmap nat (str * nat); owner : gmap nat nat; next : nat }.

Definition set_owner (o : gmap nat nat) (sh : shared) : shared := mkShared (names sh) (inodes sh) o (next sh).

(** Closing a descriptor releases the locks the process has on the inode. *)
Definition sys_close (p i : nat) (sh : shared) : shared :=
  if bool_decide (owner sh !! i = Some p) then set_owner (delete i (owner sh)) sh else sh.

(** [openLockFile(path, true)] *)
Definition openLockFile (lp : str) (sh : shared) : nat * shared :=
  match names sh !! lp with
  | Some i => (i, sh)
  | None => (next sh, mkShared (<[lp := next sh]> (names sh)) (<[next sh := (lp, 0)]> (inodes sh)) (owner sh) (S (next sh)))
  end.

(** What [fcntl] with [F_SETLK] and a write lock answers. *)
Inductive lock_result : Type := LockGranted | LockRefused.
Definition lockFile (p i : nat) (sh : shared) : lock_result * shared :=
  match owner sh !! i with
  | Some q => if (q =? p)%nat then (LockGranted, sh) else (LockRefused, sh)
  | None => (LockGranted, set_owner (<[i := p]> (owner sh)) sh)
  end.

(** The two steps of [deleteLockFile]. *)
Definition deleteLockFile_unlink (lp : str) (sh : shared) : shared :=
  mkShared (delete lp (names sh)) (inodes sh) (owner sh) (next sh).
Definition deleteLockFile_write (i : nat) (sh : shared) : shared :=
  mkShared (names sh) (alter (prod_map id S) i (inodes sh)) (owner sh) (next sh).

(** ** A process

    Where it is: outside of [lockPaths]; before opening the next lock file, with
    the descriptor of a stale one; before locking the file it opened; before
    checking its size; with all locks; in [unlock], before the next descriptor,
    and after the two steps of [deleteLockFile]. *)
Inductive pc : Type :=
| PIdle | PTry (old : option nat) | POpened (i : nat) | PLocked (i : nat) | PHold | PUnlock | PUnlinked | PMarked.

(** The rest of [paths], [fds], [deletePaths] and the argument [wait]. *)
Record proc : Type := mkProc {
  p_pc : pc; p_want : list str; p_fds : list (nat * str); p_del : bool; p_wait : bool }.
Definition at_pc (c : pc) (pr : proc) : proc := mkProc c (p_want pr) (p_fds pr) (p_del pr) (p_wait pr).
Definition with_fds (c : pc) (fds : list (nat * str)) (pr : proc) : proc := mkProc c (p_want pr) fds (p_del pr) (p_wait pr).

Definition lockedPaths (pr : proc) : list str := (p_fds pr).*2.

(** The next system call of [unlock]. *)
Definition unlock_go (p : nat) (pr : proc) (sh : shared) : option (proc * shared) :=
  match p_pc pr with
  | PUnlock =>
      match p_fds pr with
      | [] => Some (mkProc PIdle [] [] (p_del pr) (p_wait pr), sh)
      | (i, lp) :: fds =>
          if p_del pr then Some (at_pc PUnlinked pr, deleteLockFile_unlink lp sh)
          else Some (with_fds PUnlock fds pr, sys_close p i sh)
      end
  | PUnlinked =>
      match p_fds pr with
      | [] => None
      | (i, lp) :: _ => Some (at_pc PMarked pr, deleteLockFile_write i sh)
      end
  | PMarked =>
      match p_fds pr with
      | [] => None
      | (i, lp) :: fds => Some (with_fds PUnlock fds pr, sys_close p i sh)
      end
  | _ => None
  end.

(** The next system call of [lockPaths] or [unlock]; [None] when the process waits
    for a lock, or is not in them. *)
Definition lock_go (p : nat) (pr : proc) (sh : shared) : option (proc * shared) :=
  match p_pc pr with
  | PIdle | PHold => None
  | PTry old =>
      match p_want pr with
      | [] => Some (at_pc PHold pr, sh)
      | path :: _ =>
          if bool_decide (lockPath path ∈ lockedPaths pr)
          then Some (at_pc PUnlock pr, sh)   (* throws; the destructor unlocks *)
          else
            let '(i, sh) := openLockFile (lockPath path) sh in
            Some (at_pc (POpened i) pr, match old with Some j => sys_close p j sh | None => sh end)
      end
  | POpened i =>
      match lockFile p i sh with
      | (LockGranted, sh) => Some (at_pc (PLocked i) pr, sh)
      | (LockRefused, sh) => if p_wait pr then None else Some (at_pc PUnlock pr, sh)
      end
  | PLocked i =>
      match p_want pr with
      | [] => None
      | path :: want =>
          if bool_decide ((snd <$> inodes sh !! i) = Some 0)
          then Some (mkProc (PTry None) want (p_fds pr ++ [(i, lockPath path)]) (p_del pr) (p_wait pr), sh)
          else Some (at_pc (PTry (Some i)) pr, sh)
      end
  | PUnlock | PUnlinked | PMarked => unlock_go p pr sh
  end.

(** What the program may do: call [lockPaths], go on in it, call [setDeletion] or
    [unlock]. *)
Inductive action : Type :=
| ALockPaths (paths : gset str) (wait : bool) | AGo | ASetDeletion (b : bool) | AUnlock.

Definition setDeletion (b : bool) (pr : proc) : proc := mkProc (p_pc pr) (p_want pr) (p_fds pr) b (p_wait pr).

Definition act (p : nat) (a : action) (pr : proc) (sh : shared) : option (proc * shared) :=
  match a with
  | AGo => lock_go p pr sh
  | ALockPaths paths wait =>
      match p_pc pr, p_fds pr with
      | PIdle, [] => Some (mkProc (PTry None) (set_iter paths) [] (p_del pr) wait, sh)
      | _, _ => None
      end
  | ASetDeletion b =>
      match p_pc pr with
      | PIdle | PHold => Some (setDeletion b pr, sh)
      | _ => None
      end
  | AUnlock => match p_pc pr with PHold => Some (at_pc PUnlock pr, sh) | _ => None end
  end.

(** ** The system *)

Record system : Type := mkSystem { procs : gmap nat proc; sh : shared }.

Definition sys_act (s : system) (pa : nat * action) : option system :=
  match procs s !! pa.1 with
  | None => None
  | Some pr =>
      match act pa.1 pa.2 pr (sh s) with
      | Some (pr', sh') => Some (mkSystem (<[pa.1 := pr']> (procs s)) sh')
      | None => None
      end
  end.

Definition idle_proc : proc := mkProc PIdle [] [] false true.
Definition initial (s : system) : Prop :=
  (forall p pr, procs s !! p = Some pr -> pr = idle_proc) /\ sh s = mkShared ∅ ∅ ∅ 0.

(** A process is killed: the system closes its descriptors. *)
Definition kill (p : nat) (s : system) : system :=
  mkSystem (delete p (procs s)) (set_owner (filter (fun io => io.2 <> p) (owner (sh s))) (sh s)).

(** A process may be killed anywhere but between the two steps of [deleteLockFile]. *)
Inductive reachable : system -> Prop :=
| reach_init s : initial s -> reachable s
| reach_step s pa s' : reachable s -> sys_act s pa = Some s' -> reachable s'
| reach_kill s p pr : reachable s -> procs s !! p = Some pr -> p_pc pr <> PUnlinked -> reachable (kill p s).

(** The lock files a process holds locks on; while the first descriptor is being
    disposed of, its lock is no longer one. *)
Definition holding (pr : proc) : list (nat * str) :=
  match p_pc pr with PUnlinked | PMarked => tail (p_fds pr) | _ => p_fds pr end.

(** * The invariant *)

Definition str_lt (a b : str) : Prop := str_ltb a b = true.
#[export] Instance str_lt_dec a b : Decision (str_lt a b).
Proof. unfold str_lt. apply _. Defined.

Lemma lockPath_inj a b : lockPath a = lockPath b -> a = b.
Proof. apply app_inv_tail. Qed.

(** The process has an exclusive lock on the inode. *)
Definition owns (pr : proc) (i : nat) : Prop :=
  i ∈ (p_fds pr).*1 \/ p_pc pr = PLocked i \/ p_pc pr = PTry (Some i).

(** The process is about to mark the inode, which it has unlinked. *)
Definition unlinking (pr : proc) (i : nat) (lp : str) : Prop :=
  p_pc pr = PUnlinked /\ exists fds, p_fds pr = (i, lp) :: fds.

(** The lock files taken are those of the paths before the ones still wanted. *)
Definition ordered (pr : proc) : Prop :=
  exists taken, lockedPaths pr = lockPath <$> taken /\ StronglySorted str_lt (taken ++ p_want pr).

Definition pc_ok (p : nat) (pr : proc) (sh : shared) : Prop :=
  match p_pc pr with
  | PIdle => p_fds pr = []
  | PTry old => ordered pr /\
      (forall i, old = Some i -> owner sh !! i = Some p /\ (i ∉ (p_fds pr).*1) /\ p_want pr <> [] /\ exists lp n, inodes sh !! i = Some (lp, S n))
  | POpened i => ordered pr /\ exists path want n, p_want pr = path :: want /\ inodes sh !! i = Some (lockPath path, n)
  | PLocked i => ordered pr /\ owner sh !! i = Some p /\ (i ∉ (p_fds pr).*1) /\
      exists path want n, p_want pr = path :: want /\ inodes sh !! i = Some (lockPath path, n)
  | PHold | PUnlock => True
  | PUnlinked => exists i lp fds, p_fds pr = (i, lp) :: fds /\ inodes sh !! i = Some (lp, 0) /\ names sh !! lp <> Some i
  | PMarked => exists i lp fds n, p_fds pr = (i, lp) :: fds /\ inodes sh !! i = Some (lp, S n)
  end.

Record proc_ok (p : nat) (pr : proc) (sh : shared) : Prop := {
  po_fds : forall i lp, (i, lp) ∈ p_fds pr -> owner sh !! i = Some p /\ exists n, inodes sh !! i = Some (lp, n);
  po_names : forall i lp, (i, lp) ∈ holding pr -> names sh !! lp = Some i;
  po_nodup : NoDup (p_fds pr).*2;
  po_pc : pc_ok p pr sh }.

Record shared_ok (sh : shared) : Prop := {
  so_names : forall lp i, names sh !! lp = Some i -> inodes sh !! i = Some (lp, 0);
  so_next : forall i x, inodes sh !! i = Some x -> (i < next sh)%nat;
  so_owner : forall i p, owner sh !! i = Some p -> is_Some (inodes sh !! i) }.

(** What a process relies on when another one runs. *)
Record frame (p : nat) (a b : shared) : Prop := {
  fr_owner : forall i, owner a !! i = Some p -> owner b !! i = Some p;
  fr_inode : forall i lp n, inodes a !! i = Some (lp, n) ->
    exists n', inodes b !! i = Some (lp, n') /\ (owner a !! i = Some p -> n' = n) /\ (n <= n')%nat;
  fr_name : forall i lp, names a !! lp = Some i -> owner a !! i = Some p -> names b !! lp = Some i;
  fr_lost : forall i lp n, inodes a !! i = Some (lp, n) -> names b !! lp = Some i -> names a !! lp = Some i }.

Lemma holding_fds pr x : x ∈ holding pr -> x ∈ p_fds pr.
Proof. unfold holding. destruct (p_pc pr); try done; destruct (p_fds pr); try done; by right. Qed.

Lemma proc_ok_frame p pr a b : frame p a b -> proc_ok p pr a -> proc_ok p pr b.
Proof.
  intros [F1 F2 F3 F4] [H1 H2 H3 H4].
  assert (Hfds : forall i lp, (i, lp) ∈ p_fds pr -> owner b !! i = Some p /\ exists n, inodes b !! i = Some (lp, n)).
  { intros i lp Hin. destruct (H1 i lp Hin) as (Ho & n & Hn). destruct (F2 i lp n Hn) as (n' & Hn' & _). eauto. }
  split; [done| |done|].
  - intros i lp Hin. apply F3; [by apply H2|]. by apply holding_fds, H1 in Hin as [? _].
  - unfold pc_ok in *. destruct (p_pc pr) as [|old|i|i| | | |]; try done.
    + destruct H4 as [Ho Hold]. split; [done|]. intros i Hi. destruct (Hold i Hi) as (Hw & Hni & Hnw & lp & n & Hn).
      split_and!; [by apply F1|done|done|]. destruct (F2 i lp (S n) Hn) as (n' & Hn' & _ & Hle). destruct n' as [|n']; [lia|]. by exists lp, n'.
    + destruct H4 as (Ho & path & want & n & Hw & Hn). split; [done|]. destruct (F2 _ _ _ Hn) as (n' & Hn' & _). by exists path, want, n'.
    + destruct H4 as (Ho & Hw & Hni & path & want & n & Hwant & Hn). split_and!; [done|by apply F1|done|].
      destruct (F2 _ _ _ Hn) as (n' & Hn' & _). by exists path, want, n'.
    + destruct H4 as (i & lp & fds & Hf & Hi & Hn). exists i, lp, fds. destruct (F2 _ _ _ Hi) as (n' & Hn' & He & _).
      assert (n' = 0%nat) as -> by (apply He, (H1 i lp); rewrite Hf; left). split_and!; [done|done|].
      intros Hx. by apply Hn, (F4 i lp 0%nat).
    + destruct H4 as (i & lp & fds & n & Hf & Hi). destruct (F2 _ _ _ Hi) as (n' & Hn' & _ & Hle).
      destruct n' as [|n']; [lia|]. by exists i, lp, fds, n'.
Qed.

(** ** The primitive operations *)

Lemma frame_refl p sh : frame p sh sh.
Proof. split; try done. intros i lp n H. exists n. split_and!; [done|done|lia]. Qed.

Lemma frame_trans p a b c : frame p a b -> frame p b c -> frame p a c.
Proof.
  intros [A1 A2 A3 A4] [B1 B2 B3 B4]. split.
  - eauto.
  - intros i lp n H. destruct (A2 i lp n H) as (n1 & H1 & E1 & L1). destruct (B2 i lp n1 H1) as (n2 & H2 & E2 & L2).
    exists n2. split_and!; [done| |lia]. intros Ho. rewrite E2 by eauto. eauto.
  - eauto.
  - intros i lp n H Hc. destruct (A2 i lp n H) as (n1 & H1 & _). eauto.
Qed.

Lemma frame_close p q i sh : p <> q -> frame p sh (sys_close q i sh).
Proof.
  intros Hne. unfold sys_close. case_bool_decide as Ho; [|apply frame_refl]. split; cbn; try done.
  - intros j Hj. destruct (decide (i = j)) as [<- |]; [congruence|]. by rewrite lookup_delete_ne.
  - intros j lp n H. exists n. split_and!; [done|done|lia].
Qed.

Lemma close_ok q i sh : shared_ok sh -> shared_ok (sys_close q i sh).
Proof.
  intros [H1 H2 H3]. unfold sys_close. case_bool_decide; split; cbn; try done.
  intros j p Hj%lookup_delete_Some. destruct Hj as [_ Hj]. by eapply H3.
Qed.

Lemma close_owner q i sh j p : owner (sys_close q i sh) !! j = Some p -> owner sh !! j = Some p /\ (j = i -> p <> q).
Proof.
  unfold sys_close. case_bool_decide as Ho; cbn.
  - intros [Hne Hj]%lookup_delete_Some. split; [done|]. congruence.
  - intros Hj. split; [done|]. congruence.
Qed.

Lemma close_names q i sh : names (sys_close q i sh) = names sh.
Proof. unfold sys_close. by case_bool_decide. Qed.
Lemma close_inodes q i sh : inodes (sys_close q i sh) = inodes sh.
Proof. unfold sys_close. by case_bool_decide. Qed.
Lemma close_other q i sh j p : owner sh !! j = Some p -> j <> i -> owner (sys_close q i sh) !! j = Some p.
Proof. intros Hj Hne. unfold sys_close. case_bool_decide; [|done]. cbn. by rewrite lookup_delete_ne. Qed.

Lemma open_ok lp sh i sh' : shared_ok sh -> openLockFile lp sh = (i, sh') ->
  shared_ok sh' /\ inodes sh' !! i = Some (lp, 0) /\ owner sh' = owner sh /\ (forall p, frame p sh sh') /\
  (forall j l, names sh !! l = Some j -> names sh' !! l = Some j) /\
  (forall j l, inodes sh' !! j = Some (l, 0) -> names sh' !! l = Some j \/ inodes sh !! j = Some (l, 0)).
Proof.
  intros [H1 H2 H3]. unfold openLockFile. destruct (names sh !! lp) as [j|] eqn:E; intros [= <- <-].
  { split_and!; auto using frame_refl. by split. }
  assert (Hf : forall x, inodes sh !! next sh <> Some x) by (intros x Hx%H2; lia).
  assert (Hi : forall j x, inodes sh !! j = Some x -> <[next sh := (lp, 0)]> (inodes sh) !! j = Some x).
  { intros j x Hj. rewrite lookup_insert_ne; [done|]. intros <-. by destruct (Hf x). }
  assert (Hn : forall j l, names sh !! l = Some j -> <[lp := next sh]> (names sh) !! l = Some j).
  { intros j l Hj. rewrite lookup_insert_ne; [done|]. congruence. }
  split_and!; cbn; [split; cbn| | | | |]; try done.
  - intros l j Hl%lookup_insert_Some. destruct Hl as [[<- <-]|[_ Hl]]; [apply lookup_insert_eq|auto].
  - intros j x Hj%lookup_insert_Some. destruct Hj as [[<- _]|[_ Hj]]; [lia|]. apply H2 in Hj. lia.
  - intros j p Hj%H3. destruct Hj as [x Hj]. exists x. auto.
  - apply lookup_insert_eq.
  - intros p. split; cbn; try done; [|auto|].
    + intros j l n Hj. exists n. split_and!; [auto|done|lia].
    + intros j l n Hj Hl%lookup_insert_Some. destruct Hl as [[_ <-]|[_ Hl]]; [|done]. by destruct (Hf _ Hj).
  - intros j l Hj%lookup_insert_Some. destruct Hj as [[<- [= <-]]|[_ Hj]]; [left; apply lookup_insert_eq|by right].
Qed.

Lemma lock_granted p i sh sh' : lockFile p i sh = (LockGranted, sh') ->
  owner sh' !! i = Some p /\ (owner sh !! i = None \/ owner sh !! i = Some p) /\ names sh' = names sh /\ inodes sh' = inodes sh /\ next sh' = next sh /\
  (forall j q, owner sh' !! j = Some q -> (j = i /\ q = p) \/ owner sh !! j = Some q) /\ (forall q, frame q sh sh').
Proof.
  unfold lockFile. destruct (owner sh !! i) as [q|] eqn:E.
  - destruct (Nat.eqb_spec q p) as [-> |]; intros [= <-]. split_and!; auto using frame_refl.
  - intros [= <-]. cbn. split_and!; auto; [apply lookup_insert_eq| |].
    + intros j q Hj%lookup_insert_Some. destruct Hj as [[<- <-]|[_ ?]]; auto.
    + intros q. split; cbn; try done.
      * intros j Hj. rewrite lookup_insert_ne; [done|]. congruence.
      * intros j l n Hj. exists n. split_and!; [done|done|lia].
Qed.

Lemma lock_refused p i sh sh' : lockFile p i sh = (LockRefused, sh') -> sh' = sh /\ exists q, owner sh !! i = Some q /\ q <> p.
Proof.
  unfold lockFile. destruct (owner sh !! i) as [q|]; [|done]. destruct (Nat.eqb_spec q p); [done|]. intros [= <-]. eauto.
Qed.

Lemma unlink_frame p q lp i sh :
  p <> q -> names sh !! lp = Some i -> owner sh !! i = Some q -> frame p sh (deleteLockFile_unlink lp sh).
Proof.
  intros Hne Hl Ho. split; cbn; try done.
  - intros j l n Hj. exists n. split_and!; [done|done|lia].
  - intros j l Hj Hw. rewrite lookup_delete_ne; [done|]. congruence.
  - intros j l n Hj [_ ?]%lookup_delete_Some. done.
Qed.

Lemma unlink_ok lp sh : shared_ok sh -> shared_ok (deleteLockFile_unlink lp sh).
Proof. intros [H1 H2 H3]. split; cbn; [|done|done]. intros l i [_ ?]%lookup_delete_Some. by apply H1. Qed.

Lemma write_frame p q i sh : p <> q -> owner sh !! i = Some q -> frame p sh (deleteLockFile_write i sh).
Proof.
  intros Hne Ho. split; cbn; try done. intros j l n Hj. destruct (decide (i = j)) as [<- |Hij].
  - exists (S n). rewrite lookup_alter_eq, Hj. split_and!; [done|congruence|lia].
  - exists n. rewrite lookup_alter_ne by done. split_and!; [done|done|lia].
Qed.

Lemma write_ok i lp n sh : shared_ok sh -> inodes sh !! i = Some (lp, n) -> names sh !! lp <> Some i -> shared_ok (deleteLockFile_write i sh).
Proof.
  intros [H1 H2 H3] Hi Hn. split; cbn.
  - intros l j Hl. pose proof (H1 l j Hl) as Hj. rewrite lookup_alter_ne; [done|]. intros ->. rewrite Hi in Hj. by simplify_eq.
  - intros j x Hj. destruct (decide (i = j)) as [<- |]; [by apply (H2 i (lp, n))|]. rewrite lookup_alter_ne in Hj by done. eauto.
  - intros j p [x Hx]%H3. destruct (decide (i = j)) as [<- |]; [|rewrite lookup_alter_ne by done; eauto].
    rewrite lookup_alter_eq, Hx. by eexists.
Qed.

(** ** One step *)

Record step_ok (q : nat) (pr pr' : proc) (sh sh' : shared) : Prop := {
  sk_shared : shared_ok sh';
  sk_proc : proc_ok q pr' sh';
  sk_frame : forall p, p <> q -> frame p sh sh';
  sk_lost : forall i lp, inodes sh' !! i = Some (lp, 0) -> names sh' !! lp = Some i \/ unlinking pr' i lp \/
    (inodes sh !! i = Some (lp, 0) /\ names sh !! lp <> Some i /\ ~ unlinking pr i lp);
  sk_owner : forall i p, owner sh' !! i = Some p -> (p = q /\ owns pr' i) \/ (p <> q /\ owner sh !! i = Some p) }.

Section Step.
Context (q : nat) (pr : proc) (sh : shared).
Context (Hsh : shared_ok sh) (Hpr : proc_ok q pr sh) (Hown : forall i, owner sh !! i = Some q -> owns pr i).
Context (Hlost : forall i lp, inodes sh !! i = Some (lp, 0) -> owner sh !! i = Some q -> names sh !! lp = Some i \/ unlinking pr i lp).

Lemma lost_same i lp : p_pc pr <> PUnlinked -> inodes sh !! i = Some (lp, 0) ->
  names sh !! lp = Some i \/ (inodes sh !! i = Some (lp, 0) /\ names sh !! lp <> Some i /\ ~ unlinking pr i lp).
Proof.
  intros Hpc Hi. destruct (decide (names sh !! lp = Some i)); [by left|right]. split_and!; [done|done|]. by intros [? _].
Qed.

Lemma own_cases i p : owner sh !! i = Some p -> (p = q /\ owns pr i) \/ (p <> q /\ owner sh !! i = Some p).
Proof. intros H. destruct (decide (p = q)) as [-> |]; auto. Qed.

(** A step that changes nothing shared, to a place that is not [PUnlinked]. *)
Lemma step_local pr' :
  p_pc pr <> PUnlinked -> p_pc pr <> PMarked -> p_pc pr' <> PUnlinked -> p_pc pr' <> PMarked -> p_fds pr' = p_fds pr ->
  (forall i, owns pr i -> owns pr' i) -> pc_ok q pr' sh -> step_ok q pr pr' sh sh.
Proof.
  intros H1 H2 H3 H4 Hf Ho Hc. destruct Hpr as [P1 P2 P3 P4].
  assert (holding pr' = holding pr) as Hh by (unfold holding; rewrite Hf; destruct (p_pc pr), (p_pc pr'); done).
  split; [done| |intros; apply frame_refl| |].
  - split; [by rewrite Hf|by rewrite Hh|by rewrite Hf|done].
  - intros i lp Hi. destruct (lost_same i lp H1 Hi); auto.
  - intros i p [[-> ?]|?]%own_cases; auto.
Qed.

Lemma ordered_fresh path want : ordered pr -> p_want pr = path :: want -> lockPath path ∉ lockedPaths pr.
Proof.
  intros (taken & Ht & Hs) Hw. rewrite Ht, Hw in *. intros (x & E%lockPath_inj & Hx)%list_elem_of_fmap. subst x.
  apply StronglySorted_app_1_elem_of with (x1 := path) (x2 := path) in Hs; [|done|left].
  unfold str_lt in Hs. by rewrite str_ltb_irrefl in Hs.
Qed.

Lemma open_step path want old i sh1 :
  p_pc pr = PTry old -> p_want pr = path :: want -> openLockFile (lockPath path) sh = (i, sh1) ->
  step_ok q pr (at_pc (POpened i) pr) sh (match old with Some j => sys_close q j sh1 | None => sh1 end).
Proof.
  intros Hpc Hw Eo. destruct (open_ok _ _ _ _ Hsh Eo) as (Hsh1 & Hi & Hown1 & Hfr & Hnm & Hin).
  pose proof (proc_ok_frame q pr sh sh1 (Hfr q) Hpr) as [P1 P2 P3 P4].
  unfold pc_ok in P4. rewrite Hpc in P4. destruct P4 as [Hord Hold].
  set (sh2 := match old with Some j => _ | None => _ end).
  assert (Hnames : names sh2 = names sh1) by (subst sh2; destruct old; [apply close_names|done]).
  assert (Hinodes : inodes sh2 = inodes sh1) by (subst sh2; destruct old; [apply close_inodes|done]).
  assert (Hkeep : forall j p, owner sh1 !! j = Some p -> (forall k, old = Some k -> j <> k) -> owner sh2 !! j = Some p).
  { intros j p Hj Hk. subst sh2. destruct old as [k|]; [|done]. apply close_other; [done|]. by apply Hk. }
  assert (Hown2 : forall j p, owner sh2 !! j = Some p -> owner sh1 !! j = Some p /\ forall k, old = Some k -> j = k -> p <> q).
  { intros j p Hj. subst sh2. destruct old as [k|]; [|done]. apply close_owner in Hj as [? Hk]. split; [done|].
    intros k' [= <-]. done. }
  split.
  - subst sh2. destruct old; [by apply close_ok|done].
  - split; cbn.
    + intros j lp Hj. rewrite Hinodes. destruct (P1 j lp Hj) as [Ho Hn]. split; [|done]. apply Hkeep; [done|].
      intros k -> ->. destruct (Hold k eq_refl) as (_ & Hni & _). apply Hni, list_elem_of_fmap. by exists (k, lp).
    + unfold holding in *. cbn. rewrite Hpc in P2. by rewrite Hnames.
    + done.
    + unfold pc_ok. cbn. split; [done|]. exists path, want, 0%nat. rewrite Hinodes. done.
  - intros p Hne. apply frame_trans with sh1; [done|]. subst sh2. destruct old; [by apply frame_close|apply frame_refl].
  - intros j lp. rewrite Hinodes, Hnames. intros Hj. destruct (Hin j lp Hj) as [?|Hj0]; [by left|].
    destruct (lost_same j lp) as [?|?]; [congruence|done|left; by apply Hnm|by auto].
  - intros j p Hj. destruct (Hown2 j p Hj) as [Hj1 Hk]. rewrite Hown1 in Hj1. destruct (own_cases j p Hj1) as [[-> Ho]|?]; [left|by right].
    split; [done|]. destruct Ho as [?|[?|Ho]]; [by left|congruence|]. rewrite Hpc in Ho. injection Ho as ->. by destruct (Hk j eq_refl eq_refl).
Qed.

Lemma lock_step i sh1 :
  p_pc pr = POpened i -> lockFile q i sh = (LockGranted, sh1) -> step_ok q pr (at_pc (PLocked i) pr) sh sh1.
Proof.
  intros Hpc El. destruct (lock_granted _ _ _ _ El) as (Hi & Hor & Hnm & Hin & Hnx & Ho & Hfr).
  pose proof (proc_ok_frame q pr sh sh1 (Hfr q) Hpr) as [P1 P2 P3 P4].
  unfold pc_ok in P4. rewrite Hpc in P4. destruct P4 as (Hord & path & want & n & Hw & Hn).
  split; [destruct Hsh as [S1 S2 S3]; split; rewrite ?Hnm, ?Hin, ?Hnx; try done| |auto| |].
  - intros j p [[-> ->]|Hj]%Ho; [rewrite <- Hin; by eexists|by eapply S3].
  - split; [done| |done|].
    + unfold holding in *. cbn. by rewrite Hpc in P2.
    + unfold pc_ok. cbn. split_and!; [done|done| |by exists path, want, n].
      intros ([j lp] & -> & Hj)%list_elem_of_fmap. cbn in *. pose proof (ordered_fresh path want Hord Hw) as Hf. apply Hf.
      destruct (P1 _ _ Hj) as (_ & m & Hm). rewrite Hn in Hm. injection Hm as <- _.
      apply list_elem_of_fmap. by exists (j, lockPath path).
  - intros j lp. rewrite Hin, Hnm. intros Hj. destruct (lost_same j lp); [congruence|done|by left|by auto].
  - intros j p [[-> ->]|Hj]%Ho; [left; split; [done|]; right; by left|].
    destruct (own_cases j p Hj) as [[-> [?|[?|?]]]|?]; [left; split; [done|by left]|congruence|congruence|by right].
Qed.

Lemma ordered_take path want i : ordered pr -> p_want pr = path :: want ->
  ordered (mkProc (PTry None) want (p_fds pr ++ [(i, lockPath path)]) (p_del pr) (p_wait pr)).
Proof.
  intros (taken & Ht & Hs) Hw. exists (taken ++ [path]). unfold lockedPaths in *. cbn. rewrite !fmap_app, Ht.
  split; [done|]. by rewrite Hw, (cons_middle path) in Hs; rewrite <- app_assoc.
Qed.

Lemma check_step i path want :
  p_pc pr = PLocked i -> p_want pr = path :: want -> (snd <$> inodes sh !! i) = Some 0 ->
  step_ok q pr (mkProc (PTry None) want (p_fds pr ++ [(i, lockPath path)]) (p_del pr) (p_wait pr)) sh sh.
Proof.
  intros Hpc Hw Hz. destruct Hpr as [P1 P2 P3 P4]. unfold pc_ok in P4. rewrite Hpc in P4.
  destruct P4 as (Hord & Ho & Hni & path' & want' & n & Hw' & Hn). rewrite Hw in Hw'. injection Hw' as <- <-.
  rewrite Hn in Hz. injection Hz as ->.
  assert (names sh !! lockPath path = Some i) as Hname by (destruct (Hlost i _ Hn Ho) as [?|[? _]]; [done|congruence]).
  split; [done| |intros; apply frame_refl| |].
  - split; cbn [p_fds].
    + intros j lp [Hj|[= -> ->]%list_elem_of_singleton]%elem_of_app; [by apply P1|]. split; [done|by exists 0%nat].
    + intros j lp [Hj|[= -> ->]%list_elem_of_singleton]%elem_of_app; [|done]. apply P2. unfold holding. by rewrite Hpc.
    + rewrite fmap_app. apply NoDup_app. split_and!; [done| |apply NoDup_singleton].
      intros x Hx ->%list_elem_of_singleton. by apply (ordered_fresh path want Hord Hw).
    + unfold pc_ok. cbn. split; [by apply ordered_take|done].
  - intros j lp Hj. destruct (lost_same j lp); [congruence|done|by left|by auto].
  - intros j p [[-> [?|[E|?]]]|?]%own_cases; [left; split; [done|left]|left; split; [done|left]|congruence|by right];
      cbn [p_fds]; rewrite fmap_app; apply elem_of_app; [by left|right]. rewrite Hpc in E. injection E as ->. left.
Qed.

(** Closing the first descriptor in [unlock]. *)
Lemma close_step i lp fds :
  p_pc pr = PUnlock \/ p_pc pr = PMarked -> p_fds pr = (i, lp) :: fds ->
  step_ok q pr (with_fds PUnlock fds pr) sh (sys_close q i sh).
Proof.
  intros Hpc Hf. destruct Hpr as [P1 P2 P3 P4]. rewrite Hf in *. cbn [fmap list_fmap snd] in P3. apply NoDup_cons in P3 as [Hnl P3].
  assert (Hi : forall j l, (j, l) ∈ fds -> j <> i).
  { intros j l Hj ->. destruct (P1 i lp) as (_ & n & Hn); [left|]. destruct (P1 i l) as (_ & m & Hm); [by right|].
    rewrite Hn in Hm. injection Hm as <- _. apply Hnl, list_elem_of_fmap. by exists (i, lp). }
  split; [by apply close_ok| |intros; by apply frame_close| |].
  - split; cbn.
    + intros j l Hj. rewrite close_inodes. destruct (P1 j l) as [Ho Hn]; [by right|]. split; [|done]. apply close_other; eauto.
    + intros j l Hj. rewrite close_names. apply P2. unfold holding. rewrite Hf. destruct Hpc as [-> | ->]; [by right|done].
    + done.
    + done.
  - intros j l. rewrite close_inodes, close_names. intros Hj. destruct (lost_same j l); [by destruct Hpc; congruence|done|by left|by auto].
  - intros j p [Hj Hne]%close_owner. destruct (own_cases j p Hj) as [[-> Ho]|?]; [left|by right]. split; [done|]. left. cbn [p_fds with_fds].
    destruct Ho as [Hin|Ho]; [|destruct Hpc, Ho; congruence]. rewrite Hf in Hin. apply elem_of_cons in Hin as [-> |?]; [|done].
    by destruct (Hne eq_refl).
Qed.

Lemma unlink_step i lp fds :
  p_pc pr = PUnlock -> p_fds pr = (i, lp) :: fds -> step_ok q pr (at_pc PUnlinked pr) sh (deleteLockFile_unlink lp sh).
Proof.
  intros Hpc Hf. destruct Hpr as [P1 P2 P3 P4].
  assert (names sh !! lp = Some i) as Hn by (apply P2; unfold holding; rewrite Hpc, Hf; left).
  destruct (P1 i lp) as (Ho & n & Hi); [rewrite Hf; left|].
  split; [by apply unlink_ok| |intros p Hne; by apply (unlink_frame p q lp i)| |].
  - split; [done| |done|].
    + unfold holding. cbn. rewrite Hf. cbn. intros j l Hj. rewrite lookup_delete_ne.
      * apply P2. unfold holding. rewrite Hpc, Hf. by right.
      * intros <-. rewrite Hf in P3. apply NoDup_cons in P3 as [P3 _]. apply P3, list_elem_of_fmap. by exists (j, lp).
    + unfold pc_ok. cbn. exists i, lp, fds. split_and!; [done|by apply so_names|]. by rewrite lookup_delete_eq.
  - intros j l Hj. cbn in *. destruct (decide (l = lp)) as [-> |Hl].
    + destruct (decide (j = i)) as [-> |Hji]; [right; left; split; [done|by exists fds]|].
      right. right. split_and!; [done|congruence|]. intros [? _]. congruence.
    + rewrite lookup_delete_ne by done. destruct (lost_same j l); [congruence|done|by left|by auto].
  - intros j p [[-> [?|[?|?]]]|?]%own_cases; [left; split; [done|by left]|congruence|congruence|by right].
Qed.

Lemma write_step i lp fds :
  p_pc pr = PUnlinked -> p_fds pr = (i, lp) :: fds -> step_ok q pr (at_pc PMarked pr) sh (deleteLockFile_write i sh).
Proof.
  intros Hpc Hf. destruct Hpr as [P1 P2 P3 P4]. unfold pc_ok in P4. rewrite Hpc, Hf in P4.
  destruct P4 as (i' & lp' & fds' & [= <- <- <-] & Hi & Hn). destruct (P1 i lp) as (Ho & _); [rewrite Hf; left|].
  split; [by eapply write_ok| |intros p Hne; by apply (write_frame p q)| |].
  - split; cbn [at_pc p_fds p_pc].
    + intros j l Hj. destruct (P1 j l Hj) as (Hoj & n & Hj'). split; [done|]. cbn.
      destruct (decide (i = j)) as [<- |]; [exists (S n); by rewrite lookup_alter_eq, Hj'|exists n; by rewrite lookup_alter_ne].
    + unfold holding in *. cbn. by rewrite Hpc in P2.
    + done.
    + unfold pc_ok. cbn. exists i, lp, fds, 0%nat. rewrite lookup_alter_eq, Hi. done.
  - intros j l. cbn. intros Hj. destruct (decide (i = j)) as [<- |Hne]; [rewrite lookup_alter_eq, Hi in Hj; done|].
    rewrite lookup_alter_ne in Hj by done. destruct (decide (names sh !! l = Some j)); [by left|right; right].
    split_and!; [done|done|]. intros [_ [fds'' E]]. rewrite Hf in E. congruence.
  - intros j p [[-> [?|[?|?]]]|?]%own_cases; [left; split; [done|by left]|congruence|congruence|by right].
Qed.

(** A step to [PUnlock] without changing anything. *)
Lemma to_unlock_step : p_pc pr <> PUnlinked -> p_pc pr <> PMarked -> (forall i, owns pr i -> i ∈ (p_fds pr).*1) ->
  step_ok q pr (at_pc PUnlock pr) sh sh.
Proof. intros H1 H2 Ho. apply step_local; try done. intros i Hi. left. by apply Ho. Qed.

Lemma go_step pr' sh' : lock_go q pr sh = Some (pr', sh') -> step_ok q pr pr' sh sh'.
Proof.
  unfold lock_go, unlock_go. pose proof (po_pc _ _ _ Hpr) as Hc. unfold pc_ok in Hc.
  destruct (p_pc pr) as [|old|i|i| | | |] eqn:Hpc; try done.
  - destruct Hc as [Hord Hold]. destruct (p_want pr) as [|path want] eqn:Hw.
    + intros [= <- <-]. destruct old as [i|].
      * by destruct (Hold i eq_refl) as (_ & _ & ? & _).
      * apply step_local; try done; [congruence|congruence|]. intros i [?|[?|?]]; [by left|congruence|congruence].
    + rewrite bool_decide_eq_false_2 by (by apply (ordered_fresh path want)).
      destruct (openLockFile (lockPath path) sh) as [i sh1] eqn:Eo. intros [= <- <-]. by apply (open_step path want).
  - destruct (lockFile q i sh) as [[|] sh1] eqn:El; [intros [= <- <-]; by apply lock_step|].
    apply lock_refused in El as [-> _]. destruct (p_wait pr); [done|]. intros [= <- <-].
    apply to_unlock_step; [congruence|congruence|]. intros j [?|[?|?]]; [done|congruence|congruence].
  - destruct Hc as (Hord & Ho & Hni & path & want & n & Hw & Hn). rewrite Hw.
    case_bool_decide as Hz; intros [= <- <-]; [by apply (check_step i path want)|].
    apply step_local; try done; [congruence|congruence| |].
    + intros j [?|[E|E]]; [by left| |congruence]. rewrite Hpc in E. injection E as ->. right. by right.
    + unfold pc_ok. cbn. split; [done|]. intros j [= <-]. split_and!; [done|done|by rewrite Hw|]. exists (lockPath path).
      rewrite Hn in Hz. cbn in Hz. destruct n as [|n]; [done|]. by exists n.
  - destruct (p_fds pr) as [|[i lp] fds] eqn:Hf.
    + intros [= <- <-]. apply step_local; try done; [congruence|congruence|]. intros i [Hi|[?|?]]; [|congruence|congruence].
      rewrite Hf in Hi. by apply elem_of_nil in Hi.
    + destruct (p_del pr); intros [= <- <-]; [by apply (unlink_step i lp fds)|]. apply (close_step i lp); auto.
  - destruct (p_fds pr) as [|[i lp] fds] eqn:Hf; [done|]. intros [= <- <-]. by apply (write_step i lp fds).
  - destruct (p_fds pr) as [|[i lp] fds] eqn:Hf; [done|]. intros [= <- <-]. apply (close_step i lp); auto.
Qed.

Lemma sorted_set_iter (X : gset str) : StronglySorted str_lt (set_iter X).
Proof.
  assert (StronglySorted str_le (set_iter X)) as Hs by (apply (StronglySorted_merge_sort str_le)).
  pose proof (NoDup_set_iter X) as Hn. induction Hs as [|x l Hs IH Hx]; [constructor|].
  apply NoDup_cons in Hn as [Hxl Hn]. constructor; [by apply IH|]. rewrite Forall_forall in *. intros y Hy.
  pose proof (Hx y Hy) as Hle. unfold str_lt, str_ltb. destruct (str_leb y x) eqn:E; [|done].
  assert (x = y) as -> by (by apply (anti_symm str_le)). done.
Qed.

Lemma act_step a pr' sh' : act q a pr sh = Some (pr', sh') -> step_ok q pr pr' sh sh'.
Proof.
  destruct a as [paths wait| |b|]; cbn; [|apply go_step| |].
  - destruct (p_pc pr) eqn:Hpc; try done. destruct (p_fds pr) eqn:Hf; [|done]. intros [= <- <-].
    apply step_local; try done; [congruence|congruence| |].
    + intros i [Hi|[?|?]]; [|congruence|congruence]. rewrite Hf in Hi. by apply elem_of_nil in Hi.
    + unfold pc_ok. cbn. split; [|done]. exists []. split; [done|]. apply sorted_set_iter.
  - pose proof (po_pc _ _ _ Hpr) as Hc. unfold pc_ok in Hc. destruct (p_pc pr) eqn:Hpc; try done; intros [= <- <-];
      apply step_local; unfold pc_ok; cbn; rewrite ?Hpc; try done.
  - destruct (p_pc pr) eqn:Hpc; try done. intros [= <- <-].
    apply to_unlock_step; [congruence|congruence|]. intros j [?|[?|?]]; [done|congruence|congruence].
Qed.
End Step.

(** ** The system *)

Record inv (s : system) : Prop := {
  iv_shared : shared_ok (sh s);
  iv_proc : forall p pr, procs s !! p = Some pr -> proc_ok p pr (sh s);
  iv_lost : forall i lp, inodes (sh s) !! i = Some (lp, 0) ->
    names (sh s) !! lp = Some i \/ exists p pr, procs s !! p = Some pr /\ unlinking pr i lp;
  iv_owner : forall i p, owner (sh s) !! i = Some p -> exists pr, procs s !! p = Some pr /\ owns pr i }.

Lemma unlinking_owner s p pr i lp : inv s -> procs s !! p = Some pr -> unlinking pr i lp -> owner (sh s) !! i = Some p.
Proof. intros [_ Hp _ _] Hpr [_ [fds Hf]]. apply (po_fds p pr (sh s) (Hp p pr Hpr) i lp). rewrite Hf. left. Qed.

Lemma initial_inv s : initial s -> inv s.
Proof.
  intros [Hp Hs]. split; rewrite ?Hs; cbn.
  - split; cbn; intros x y; by rewrite lookup_empty.
  - intros p pr ->%Hp. split; cbn; try done; [..|constructor]; intros i lp Hi; by apply elem_of_nil in Hi.
  - intros i lp. by rewrite lookup_empty.
  - intros i p. by rewrite lookup_empty.
Qed.

Lemma sys_act_inv s pa s' : inv s -> sys_act s pa = Some s' -> inv s'.
Proof.
  intros Hinv. unfold sys_act. destruct pa as [q a]. cbn [fst snd]. destruct (procs s !! q) as [pr|] eqn:Eq; [|done].
  destruct (act q a pr (sh s)) as [[pr' sh']|] eqn:Ea; [|done]. intros [= <-].
  pose proof Hinv as [I1 I2 I3 I4].
  assert (step_ok q pr pr' (sh s) sh') as [S1 S2 S3 S4 S5].
  { apply (act_step q pr (sh s) I1 (I2 q pr Eq)) in Ea; [done| |].
    - intros i Hi. destruct (I4 i q Hi) as (pr0 & E0 & Ho). congruence.
    - intros i lp Hi Ho. destruct (I3 i lp Hi) as [?|(p & pr0 & Hp & Hu)]; [by left|right].
      pose proof (unlinking_owner s p pr0 i lp Hinv Hp Hu) as Ho'. assert (p = q) as -> by congruence. congruence. }
  split; cbn [procs sh]; [done| | |].
  - intros p pr0 [[<- <-]|[Hne Hp]]%lookup_insert_Some; [done|]. apply (proc_ok_frame p pr0 (sh s)); auto.
  - intros i lp Hi. destruct (S4 i lp Hi) as [?|[Hu|(Hi0 & Hn0 & Hu0)]]; [by left|right..].
    + exists q, pr'. by rewrite lookup_insert_eq.
    + destruct (I3 i lp Hi0) as [?|(p & pr0 & Hp & Hu)]; [done|]. exists p, pr0. rewrite lookup_insert_ne; [done|]. congruence.
  - intros i p Hi. destruct (S5 i p Hi) as [[-> Ho]|[Hne Ho]]; [exists pr'; by rewrite lookup_insert_eq|].
    destruct (I4 i p Ho) as (pr0 & Hp & Ho'). exists pr0. by rewrite lookup_insert_ne.
Qed.

Lemma kill_inv s q qr : inv s -> procs s !! q = Some qr -> p_pc qr <> PUnlinked -> inv (kill q s).
Proof.
  intros [I1 I2 I3 I4] Hq Hpc.
  assert (Ho : forall i p, owner (sh (kill q s)) !! i = Some p <-> owner (sh s) !! i = Some p /\ p <> q)
    by (intros i p; apply map_lookup_filter_Some).
  split.
  - destruct I1 as [S1 S2 S3]. split; [done|done|]. intros i p [Hi _]%Ho. by eapply S3.
  - cbn. intros p pr [Hne Hp]%lookup_delete_Some. apply (proc_ok_frame p pr (sh s)); [|by apply I2]. split; try done.
    + intros i Hi. by apply Ho.
    + intros i lp n Hi. exists n. split_and!; [done|done|lia].
  - intros i lp Hi. destruct (I3 i lp Hi) as [?|(p & pr & Hp & Hu)]; [by left|right]. exists p, pr. split; [|done].
    apply lookup_delete_Some. split; [|done]. intros ->. destruct Hu as [Hu _]. congruence.
  - intros i p [Hi Hne]%Ho. destruct (I4 i p Hi) as (pr & Hp & Hw). exists pr. split; [|done]. by apply lookup_delete_Some.
Qed.

Lemma reachable_inv s : reachable s -> inv s.
Proof. induction 1; [by apply initial_inv|by eapply sys_act_inv|by eapply kill_inv]. Qed.

(** C21: whatever the interleaving of the system calls of any number of processes
    that lock, unlock and delete lock files, and wherever they are killed except
    between unlinking a lock file and marking it, no two processes hold the lock of
    the same path. *)
Theorem pathlocks_exclusive s p q pr qr lp :
  reachable s -> procs s !! p = Some pr -> procs s !! q = Some qr ->
  lp ∈ (holding pr).*2 -> lp ∈ (holding qr).*2 -> p = q.
Proof.
  intros [_ I2 _ _]%reachable_inv Hp Hq ([i l] & -> & Hi)%list_elem_of_fmap ([j l'] & E & Hj)%list_elem_of_fmap. cbn in E. subst l'.
  pose proof (po_names _ _ _ (I2 p pr Hp) i l Hi) as Ni. pose proof (po_names _ _ _ (I2 q qr Hq) j l Hj) as Nj.
  destruct (po_fds _ _ _ (I2 p pr Hp) i l (holding_fds _ _ Hi)) as [Oi _].
  destruct (po_fds _ _ _ (I2 q qr Hq) j l (holding_fds _ _ Hj)) as [Oj _]. congruence.
Qed.

(** ** No deadlock *)

(** The process waits for the lock of a path. *)
Definition waits_for (p : nat) (pr : proc) (sh : shared) (path : str) : Prop :=
  exists i want q, p_pc pr = POpened i /\ p_want pr = path :: want /\ owner sh !! i = Some q /\ q <> p.

Lemma go_or_wait p pr sh : proc_ok p pr sh ->
  p_pc pr = PIdle \/ p_pc pr = PHold \/ is_Some (lock_go p pr sh) \/ exists path, waits_for p pr sh path.
Proof.
  intros [P1 P2 P3 P4]. unfold pc_ok in P4. unfold lock_go, unlock_go, waits_for. destruct (p_pc pr) as [|old|i|i| | | |]; auto.
  - right. right. left. destruct (p_want pr); [by eexists|]. case_bool_decide; [by eexists|]. destruct (openLockFile _ _). by eexists.
  - right. right. destruct P4 as (_ & path & want & n & Hw & _).
    destruct (lockFile p i sh) as [[|] sh'] eqn:El; [left; by eexists|]. apply lock_refused in El as [-> (q & Hq & Hne)].
    destruct (p_wait pr); [right|left; by eexists]. exists path, i, want, q. done.
  - right. right. left. destruct P4 as (_ & _ & _ & path & want & n & -> & _). case_bool_decide; by eexists.
  - right. right. left. destruct (p_fds pr) as [|[i lp] fds]; [by eexists|]. destruct (p_del pr); by eexists.
  - right. right. left. destruct P4 as (i & lp & fds & -> & _). by eexists.
  - right. right. left. destruct P4 as (i & lp & fds & n & -> & _). by eexists.
Qed.

(** The process that holds what another waits for is itself waiting for a later
    path, or not waiting. *)
Lemma waits_increase s p pr path : inv s -> procs s !! p = Some pr -> waits_for p pr (sh s) path ->
  exists q qr, procs s !! q = Some qr /\ p_pc qr <> PIdle /\ forall path', waits_for q qr (sh s) path' -> str_lt path path'.
Proof.
  intros [I1 I2 I3 I4] Hp (i & want & q & Hpc & Hw & Ho & Hne). destruct (I4 i q Ho) as (qr & Hq & Hown). exists q, qr.
  pose proof (I2 q qr Hq) as [Q1 Q2 Q3 Q4]. unfold pc_ok in Q4. split_and!; [done| |].
  - intros E. rewrite E in Q4. destruct Hown as [Hi|[?|?]]; [|congruence|congruence]. rewrite Q4 in Hi. by apply elem_of_nil in Hi.
  - intros path' (j & want' & r & Hpcq & Hwq & _). rewrite Hpcq in Q4. destruct Q4 as ((taken & Ht & Hs) & _).
    destruct Hown as [Hi|[?|?]]; [|congruence|congruence]. apply list_elem_of_fmap in Hi as ([i' lp] & -> & Hi). cbn in *.
    pose proof (po_pc _ _ _ (I2 p pr Hp)) as Hc. unfold pc_ok in Hc. rewrite Hpc, Hw in Hc.
    destruct Hc as (_ & path0 & want0 & n & [= <- <-] & Hn). destruct (Q1 i' lp Hi) as (_ & m & Hm). rewrite Hn in Hm. injection Hm as <- _.
    assert (lockPath path ∈ lockedPaths qr) as Hin by (apply list_elem_of_fmap; by exists (i', lockPath path)).
    rewrite Ht in Hin. apply list_elem_of_fmap in Hin as (x & ->%lockPath_inj & Hx). rewrite Hwq in Hs.
    eapply StronglySorted_app_1_elem_of; [exact Hs|exact Hx|left].
Qed.

(** The paths that are wanted next. *)
Definition wanted (s : system) : gset str := list_to_set (omap (head ∘ p_want) (map_to_list (procs s)).*2).
Definition later (s : system) (path : str) : gset str := filter (fun x => str_lt path x) (wanted s).

Lemma waits_wanted s p pr path : procs s !! p = Some pr -> waits_for p pr (sh s) path -> path ∈ wanted s.
Proof.
  intros Hp (i & want & q & _ & Hw & _). apply elem_of_list_to_set, list_elem_of_omap. exists pr. split; [|cbn; by rewrite Hw].
  apply list_elem_of_fmap. exists (p, pr). split; [done|]. by apply elem_of_map_to_list.
Qed.

Lemma wait_ends s p pr path : inv s -> procs s !! p = Some pr -> waits_for p pr (sh s) path ->
  exists q qr, procs s !! q = Some qr /\ p_pc qr <> PIdle /\ (p_pc qr = PHold \/ is_Some (lock_go q qr (sh s))).
Proof.
  intros Hinv. remember (size (later s path)) as n eqn:En. revert p pr path En.
  induction n as [n IH] using lt_wf_ind. intros p pr path -> Hp Hwait.
  destruct (waits_increase s p pr path Hinv Hp Hwait) as (q & qr & Hq & Hpc & Hinc).
  destruct (go_or_wait q qr (sh s)) as [?|[?|[?|[path' Hwait']]]]; [by apply Hinv|done|exists q, qr; auto..|].
  pose proof (Hinc path' Hwait') as Hlt. apply (IH (size (later s path'))) with q qr path'; [|done|done|done].
  apply subset_size. split.
  - intros x [Hx ?]%elem_of_filter. apply elem_of_filter. split; [|done]. by eapply str_ltb_trans.
  - intros Hsub. assert (path' ∈ later s path) as [Hx _]%Hsub%elem_of_filter.
    { apply elem_of_filter. split; [done|]. by eapply waits_wanted. }
    unfold str_lt in Hx. by rewrite str_ltb_irrefl in Hx.
Qed.

(** C22: processes that take several locks cannot wait for each other in a circle: in
    every reachable state in which some process is busy with its locks, some process
    that is busy is in its critical section or can make its next system call. *)
Theorem pathlocks_no_deadlock s p pr :
  reachable s -> procs s !! p = Some pr -> p_pc pr <> PIdle ->
  exists q qr, procs s !! q = Some qr /\ p_pc qr <> PIdle /\ (p_pc qr = PHold \/ is_Some (lock_go q qr (sh s))).
Proof.
  intros Hinv%reachable_inv Hp Hpc.
  destruct (go_or_wait p pr (sh s)) as [?|[?|[?|[path Hwait]]]]; [by apply Hinv|done|exists p, pr; auto..|].
  by apply (wait_ends s p pr path).
Qed.

(** ** Examples *)

Definition run (s : system) (l : list (nat * action)) : option system :=
  foldl (fun s pa => s ≫= fun s => sys_act s pa) (Some s) l.

Definition sample_path : str := $"/nix/store/abc-a".
Definition three : system :=
  mkSystem (list_to_map [(1, idle_proc); (2, idle_proc); (3, idle_proc)]) (mkShared ∅ ∅ ∅ 0).
Definition go (p : nat) (n : nat) : list (nat * action) := replicate n (p, AGo).

Lemma run_app l1 l2 s : run s (l1 ++ l2) = s ← run s l1; run s l2.
Proof. unfold run. rewrite foldl_app. destruct (foldl _ _ l1) as [s1|]; [done|]. cbn. by induction l2. Qed.

Lemma run_one s q a pr pr' sh' : procs s !! q = Some pr -> act q a pr (sh s) = Some (pr', sh') ->
  run s [(q, a)] = Some (mkSystem (<[q := pr']> (procs s)) sh').
Proof. intros Hq Ha. cbn. unfold sys_act. cbn. by rewrite Hq, Ha. Qed.

(** A process that has opened a file of size 0 that nobody has locked takes the lock. *)
Lemma take_lock s q pr i path want lp : procs s !! q = Some pr -> p_pc pr = POpened i -> p_want pr = path :: want ->
  owner (sh s) !! i = None -> inodes (sh s) !! i = Some (lp, 0) ->
  run s (go q 2) = Some (mkSystem (<[q := mkProc (PTry None) want (p_fds pr ++ [(i, lockPath path)]) (p_del pr) (p_wait pr)]> (procs s))
                           (set_owner (<[i := q]> (owner (sh s))) (sh s))).
Proof.
  intros Hq Hpc Hw Ho Hi. change (go q 2) with ([(q, AGo)] ++ [(q, AGo)]). rewrite run_app.
  rewrite (run_one s q AGo pr (at_pc (PLocked i) pr) (set_owner (<[i := q]> (owner (sh s))) (sh s)) Hq).
  2:{ cbn. unfold lock_go. rewrite Hpc. unfold lockFile. by rewrite Ho. }
  cbn [mbind option_bind]. erewrite run_one; [|apply lookup_insert_eq|].
  - cbn [procs sh]. by rewrite insert_insert_eq.
  - cbn. unfold lock_go. cbn. rewrite Hw, Hi. done.
Qed.

(** An idle process that asks for one path opens its lock file. *)
Lemma open_lock s r pr path i sh' : procs s !! r = Some pr -> p_pc pr = PIdle -> p_fds pr = [] -> openLockFile (lockPath path) (sh s) = (i, sh') ->
  run s [(r, ALockPaths {[path]} true); (r, AGo)] = Some (mkSystem (<[r := mkProc (POpened i) [path] [] (p_del pr) true]> (procs s)) sh').
Proof.
  intros Hr Hpc Hf Ho. change [(r, ALockPaths {[path]} true); (r, AGo)] with ([(r, ALockPaths {[path]} true)] ++ [(r, AGo)]). rewrite run_app.
  rewrite (run_one s r _ pr (mkProc (PTry None) [path] [] (p_del pr) true) (sh s) Hr).
  2:{ cbn. rewrite Hpc, Hf. assert (set_iter {[path]} = [path]) as -> by (apply Permutation_singleton_r; rewrite set_iter_perm; by rewrite elements_singleton). done. }
  cbn [mbind option_bind]. erewrite run_one; [|apply lookup_insert_eq|].
  - cbn [procs sh]. by rewrite insert_insert_eq.
  - cbn. by rewrite Ho.
Qed.

(** The file that is opened is not locked when the one of that name is not. *)
Lemma open_free lp sh i sh' : shared_ok sh -> (forall j, names sh !! lp = Some j -> owner sh !! j = None) -> openLockFile lp sh = (i, sh') -> owner sh' !! i = None.
Proof.
  intros [H1 H2 H3] Hf. unfold openLockFile. destruct (names sh !! lp) as [j|]; intros [= <- <-]; [by apply Hf|]. cbn.
  destruct (owner sh !! next sh) as [x|] eqn:E; [|done]. apply H3 in E as [y Hy]. apply H2 in Hy. lia.
Qed.

(** C31: a process must not be killed between the two steps of [deleteLockFile].  In every
    reachable state in which a process [p] has unlinked the lock file of a path and not yet
    written to it, while [q] has that file open and waits for its lock and nobody has
    locked the path through a new file: when [p] is killed, [q] gets the lock on the deleted file, which does not look
    stale, and any idle process [r] that then asks for the path gets a lock on a new
    file, so that both hold the lock of the path. *)
Theorem killed_process_breaks_exclusion s p q r pr qr rr i lp :
  reachable s -> p <> q -> p <> r -> q <> r -> procs s !! p = Some pr -> procs s !! q = Some qr -> procs s !! r = Some rr ->
  unlinking pr i lp -> p_pc qr = POpened i -> p_pc rr = PIdle -> (forall j, names (sh s) !! lp = Some j -> owner (sh s) !! j = None) ->
  exists path s' qr' rr', lp = lockPath path /\
    run (kill p s) (go q 2 ++ [(r, ALockPaths {[path]} true); (r, AGo)] ++ go r 2) = Some s' /\
    procs s' !! q = Some qr' /\ lp ∈ (holding qr').*2 /\ procs s' !! r = Some rr' /\ lp ∈ (holding rr').*2.
Proof.
  intros Hre%reachable_inv Hpq Hpr Hqr Ep Eq Er Hu Hqc Hrc Hfree. pose proof (unlinking_owner s p pr i lp Hre Ep Hu) as Hown. destruct Hre as [I1 I2 _ _].
  pose proof (po_pc _ _ _ (I2 p pr Ep)) as Hpp. pose proof (po_pc _ _ _ (I2 q qr Eq)) as Hqp. pose proof (po_pc _ _ _ (I2 r rr Er)) as Hrf.
  unfold pc_ok in *. destruct Hu as [Hu (fds & Hf)]. rewrite Hu in Hpp. rewrite Hqc in Hqp. rewrite Hrc in Hrf.
  destruct Hpp as (i' & lp' & fds' & Hf' & Hi & Hn), Hqp as (_ & path & want & n & Hw & Hi'). rewrite Hf in Hf'. injection Hf' as <- <- <-.
  rewrite Hi in Hi'. injection Hi' as -> <-. set (o := filter (fun io => io.2 <> p) (owner (sh s))).
  assert (Ho : forall j x, o !! j = Some x <-> owner (sh s) !! j = Some x /\ x <> p) by (intros j x; apply map_lookup_filter_Some).
  assert (Hoi : o !! i = None) by (destruct (o !! i) as [x|] eqn:E; [|done]; apply Ho in E as [E ?]; congruence).
  set (sh2 := set_owner (<[i := q]> o) (sh s)). destruct (openLockFile (lockPath path) sh2) as [j sh3] eqn:E3.
  assert (S2 : shared_ok sh2).
  { destruct I1 as [S1 S2 S3]. split; [done|done|]. cbn. intros k x [[<- _]|[_ [Hk _]%Ho]]%lookup_insert_Some; [by eexists|by eapply S3]. }
  assert (F2 : owner sh3 !! j = None).
  { apply (open_free _ _ _ _ S2) in E3; [done|]. cbn. intros k Hk. rewrite lookup_insert_ne by congruence.
    destruct (o !! k) as [x|] eqn:E; [|done]. apply Ho in E as [E _]. by rewrite (Hfree k Hk) in E. }
  destruct (open_ok _ _ _ _ S2 E3) as (_ & Hj & _).
  eexists path, _, _, _. split; [done|]. rewrite run_app. erewrite (take_lock (kill p s) q qr i path want); [|by apply lookup_delete_Some|done..].
  cbn [mbind option_bind procs sh kill]. rewrite run_app. change (set_owner (<[i:=q]> o) (set_owner o (sh s))) with sh2.
  erewrite open_lock; [|cbn; rewrite lookup_insert_ne by done; by apply lookup_delete_Some|done|done|exact E3].
  cbn [mbind option_bind procs]. erewrite take_lock; [|apply lookup_insert_eq|done|done|exact F2|exact Hj].
  cbn [procs p_want p_fds p_del p_wait]. rewrite insert_insert_eq. split; [done|]. cbn [procs]. rewrite lookup_insert_ne by done. rewrite !lookup_insert_eq.
  split_and!; [done| |done|]; cbn; [rewrite fmap_app; apply elem_of_app; right|]; by left.
Qed.

Lemma run_reachable l : forall s s', reachable s -> run s l = Some s' -> reachable s'.
Proof.
  unfold run. induction l as [|pa l IH]; cbn; intros s s' Hs; [by intros [= <-]|].
  destruct (sys_act s pa) as [s1|] eqn:E; [apply IH; by eapply reach_step|].
  clear. assert (foldl (fun s pa => s ≫= fun s => sys_act s pa) None l = @None system) as -> by (induction l; done). done.
Qed.

Lemma three_reachable : reachable three.
Proof.
  apply reach_init. split; [|done]. intros p pr H. unfold three in H. cbn [procs] in H.
  apply elem_of_list_to_map_2 in H. by repeat (apply elem_of_cons in H as [[= -> ->]|H]; [done|]); apply elem_of_nil in H.
Qed.

(** Process 1 holds the lock, process 2 waits for it. *)
Definition one_waits : list (nat * action) :=
  [(1, ALockPaths {[sample_path]} true)] ++ go 1 4 ++ [(2, ALockPaths {[sample_path]} true)] ++ go 2 1.
Definition waiting_system : system := default three (run three one_waits).
Definition proc_of (p : nat) : proc := default idle_proc (procs waiting_system !! p).

Lemma waiting_reachable : reachable waiting_system.
Proof. apply (run_reachable one_waits three); [exact three_reachable|]. vm_compute. reflexivity. Qed.

Lemma pathlocks_exclusive_witness :
  procs waiting_system !! 1 = Some (proc_of 1) /\ lockPath sample_path ∈ (holding (proc_of 1)).*2 /\ 1 = 1.
Proof.
  assert (lockPath sample_path ∈ (holding (proc_of 1)).*2) as H
    by (apply (bool_decide_unpack (lockPath sample_path ∈ (holding (proc_of 1)).*2)); vm_compute; exact I).
  assert (procs waiting_system !! 1 = Some (proc_of 1)) as E by (vm_compute; reflexivity).
  split; [exact E|]. split; [exact H|].
  exact (pathlocks_exclusive waiting_system 1 1 (proc_of 1) (proc_of 1) _ waiting_reachable E E H H).
Defined.

Lemma pathlocks_no_deadlock_witness :
  lock_go 2 (proc_of 2) (sh waiting_system) = None /\
  exists q qr, procs waiting_system !! q = Some qr /\ p_pc qr <> PIdle /\ (p_pc qr = PHold \/ is_Some (lock_go q qr (sh waiting_system))).
Proof.
  split; [vm_compute; reflexivity|].
  apply (pathlocks_no_deadlock waiting_system 2 (proc_of 2) waiting_reachable); vm_compute; [reflexivity|discriminate].
Defined.

(** Process 1 has taken the lock while 2 waits for it, and has unlinked the lock file. *)
Definition until_unlink : list (nat * action) := one_waits ++ [(1, ASetDeletion true); (1, AUnlock)] ++ go 1 1.
Definition unlinked_system : system := default three (run three until_unlink).
Definition unlinked_proc (p : nat) : proc := default idle_proc (procs unlinked_system !! p).

Lemma killed_process_breaks_exclusion_witness :
  exists path s' qr' rr', lockPath sample_path = lockPath path /\
    run (kill 1 unlinked_system) (go 2 2 ++ [(3, ALockPaths {[path]} true); (3, AGo)] ++ go 3 2) = Some s' /\
    procs s' !! 2 = Some qr' /\ lockPath sample_path ∈ (holding qr').*2 /\ procs s' !! 3 = Some rr' /\ lockPath sample_path ∈ (holding rr').*2.
Proof.
  apply (killed_process_breaks_exclusion unlinked_system 1 2 3 (unlinked_proc 1) (unlinked_proc 2) (unlinked_proc 3) 0 (lockPath sample_path)).
  - apply (run_reachable until_unlink three); [exact three_reachable|]. vm_compute. reflexivity.
  - discriminate.
  - discriminate.
  - discriminate.
  - vm_compute. reflexivity.
  - vm_compute. reflexivity.
  - vm_compute. reflexivity.
  - split; [vm_compute; reflexivity|]. exists []. vm_compute. reflexivity.
  - vm_compute. reflexivity.
  - vm_compute. reflexivity.
  - intros j. vm_compute. discriminate.
Defined.
