(* ===== verification/StoreFiles.v ===== *)
(** * Files, locks and temporary roots of a process that uses the store

    What the operations of local-store.cc that write to the store share: [readFile],
    [writeFile] and [createTempDir] (src/src/libutil/util.cc); the metadata of store
    objects ([canonicalisePathMetaData], local-store.cc); the locks of one process
    on the paths it writes (pathlocks.cc; [PathLocks.v] has the interplay of several
    processes); and its temporary roots ([addTempRoot], gc.cc).

    The theorems: [canonicalisePathMetaData] returns and leaves every object of the
    tree with canonical metadata and the tree itself as it was; a temporary root
    that a process has added is one the garbage collector reads. *)

From Stdlib Require Import ZArith Lia Ascii Relations.
From stdpp Require Import base strings sorting numbers gmap sets list.
From S2P Require Import Prelude Effects Util Serialise Hash FileSystem FileOps Archive References StorePath Derivations Closure LocalStore GCRoots GC PathLocks.

(** ** The machine a process runs on *)

(** What [lutimes] does. *)
Inductive lutimes_result : Type := LutimesDone | LutimesENOSYS | LutimesFail.
#[export] Instance lutimes_result_eq_dec : EqDecision lutimes_result.
Proof. solve_decision. Defined.

(** Settings, the identity of the process, and the choices of the operating system:
    how reads return, which counts it reports, how [posix_fallocate] and [lutimes]
    behave, the time, the tests of config.h. *)
Record Env : Type := mkEnv {
  nixStore : str; nixStateDir : str; nixConfDir : str; tmpDir : str; cwd : str;
  pid : str; euid : Z; privileged : bool; useHelper : bool; umask : Z; now : Z;
  autoOptimiseStore : bool; have_lchown : bool; have_lutimes : bool; lutimes : lutimes_result;
  posix_fallocate : Z -> falloc; sched : str -> list io_choice;
  st_nlink : FileSys -> str -> Z; st_blocks : FileSys -> str -> Z; st_ino : FileSys -> str -> Z }.

(** Owner, modification time and (for directories) mode of an object; of a path
    where there is none, what the next object created there gets. *)
Record attr : Type := mkAttr { a_uid : Z; a_mtime : Z; a_dmode : Z }.

(** ** System calls that follow symbolic links *)

Section Files.
Context (E : Env).

Fixpoint follow (links : nat) (fs : FileSys) (path : str) : option str :=
  match fs !! path with
  | Some (ILnk t) =>
      match links with
      | O => None
      | S links =>
          match dirOf path ≫= absPath (cwd E) t with
          | Ok q => follow links fs q
          | _ => None
          end
      end
  | _ => Some path
  end.

(** [open] with [O_CREAT]: the path of the file, and the file system with it. *)
Definition sys_open_creat (mode : Z) (fs : FileSys) (path : str) : option (str * FileSys) :=
  match follow maxLinks fs path with
  | None => None
  | Some q =>
      match fs !! q with
      | Some (IReg _ _) => Some (q, fs)
      | None => if parent_ok fs q then Some (q, <[q := IReg (Z.land mode (Z.lnot (umask E))) []]> fs) else None
      | Some _ => None
      end
  end.

Definition sys_unlink (fs : FileSys) (path : str) : FileSys :=
  match fs !! path with Some IDir | None => fs | Some _ => delete path fs end.

(** ** util.cc *)

Definition readFile (fs : FileSys) (path : str) : result str :=
  match follow maxLinks fs path with
  | Some q => match fs !! q with
              | Some (IReg _ data) => Ok data
              | Some IDir => throw eSysError ($"reading from file")
              | _ => throw eSysError ($"opening file `" ++ path ++ $"'")
              end
  | None => throw eSysError ($"opening file `" ++ path ++ $"'")
  end.

Definition writeFile (path s : str) : M FileSys unit :=
  update (fun fs =>
    match sys_open_creat 438 fs path with
    | Some (q, fs) => Ok (alter (fun i => match i with IReg m _ => IReg m s | _ => i end) q fs)
    | None => throw eSysError ($"opening file `" ++ path ++ $"'")
    end).

(** [createTempDir(tmpRoot, "nix", true, true, 0755)] with the counter; it tries the
    next number while the name is taken.  The fuel bounds the components that
    [canonPath] looks at and the names that are tried. *)
Definition tempName (fuel : nat) (fs : FileSys) (tmpRoot : str) (counter : Z) : result str :=
  r ← canonPath_fuel (isLink fs) (readLink fs) fuel true (match tmpRoot with [] => tmpDir E | _ => tmpRoot end);
  Ok (r ++ $"/nix-" ++ pid E ++ "-"%char :: int2String counter).
Fixpoint createTempDir (fuel : nat) (tmpRoot : str) : M (FileSys * Z) str :=
  match fuel with
  | O => stuck
  | S fuel =>
      fs ← gets fst;
      counter ← gets snd;
      t ← lift (fun _ => tempName fuel fs tmpRoot counter);
      _ ← modify (fun s => (fst s, i32 (snd s + 1)));
      match sys_create fs t IDir with
      | Some fs => _ ← modify (fun s => (fs, snd s)); mret t
      | None =>
          if bool_decide (fs !! t <> None) then createTempDir fuel tmpRoot
          else raise eSysError ($"creating directory `" ++ t ++ $"'")
      end
  end.

(** ** Metadata (local-store.cc) *)

Abbreviation fstate := (FileSys * (str -> attr))%type.

Definition mtimeStore : Z := 1.

(** The permission bits that [lstat] reports. *)
Definition st_perm (i : inode) (a : attr) : Z :=
  match i with IReg m _ => m | IDir => a_dmode a | ILnk _ => 511 | IOther => 0 end.
Definition is_lnk (i : inode) : bool := match i with ILnk _ => true | _ => false end.

Definition set_attr (path : str) (f : attr -> attr) (at_ : str -> attr) : str -> attr :=
  fun k => if str_eqb k path then f (at_ k) else at_ k.

(** The mode that an object gets. *)
Definition canon_mode (m : Z) : Z := Z.lor 292 (if (Z.land m S_IXUSR =? 0)%Z then 0 else 73).
Definition set_perm (m : Z) (path : str) (s : fstate) : fstate :=
  match fst s !! path with
  | Some (IReg _ d) => (<[path := IReg m d]> (fst s), snd s)
  | Some IDir => (fst s, set_attr path (fun a => mkAttr (a_uid a) (a_mtime a) m) (snd s))
  | _ => s
  end.

(** The three steps on one object: its owner, mode and modification time. *)
Definition fix_owner (path : str) (st : inode) : M fstate unit :=
  a ← gets (fun s => snd s path);
  if (a_uid a =? euid E)%Z then mret tt
  else if negb (have_lchown E) && is_lnk st then mret tt
  else if privileged E then modify (fun s => (fst s, set_attr path (fun a => mkAttr (euid E) (a_mtime a) (a_dmode a)) (snd s)))
  else raise eSysError ($"changing owner of `" ++ path ++ $"'").
Definition fix_mode (path : str) (st : inode) (a : attr) : M fstate unit :=
  if is_lnk st then mret tt
  else
    let mode := st_perm st a in
    if negb (mode =? 292)%Z && negb (mode =? 365)%Z then modify (set_perm (canon_mode mode) path) else mret tt.
Definition fix_mtime (path : str) (st : inode) (a : attr) : M fstate unit :=
  if (a_mtime a =? mtimeStore)%Z then mret tt
  else
    let set := modify (fun s => (fst s, set_attr path (fun a => mkAttr (a_uid a) mtimeStore (a_dmode a)) (snd s))) in
    if have_lutimes E then
      match lutimes E with
      | LutimesDone => set
      | LutimesENOSYS => if is_lnk st then mret tt else set
      | LutimesFail => raise eSysError ($"changing modification time of `" ++ path ++ $"'")
      end
    else if is_lnk st then mret tt else set.

Definition fix_all (path : str) (st : inode) (a : attr) : M fstate unit :=
  _ ← fix_owner path st;
  _ ← fix_mode path st a;
  fix_mtime path st a.

Fixpoint canonicalisePathMetaData_in (fuel : nat) (path : str) (recurse : bool) : M fstate unit :=
  match fuel with
  | O => stuck
  | S fuel =>
      st ← lift (fun s => lstat (fst s) path);
      a ← gets (fun s => snd s path);
      _ ← lift (fun _ => assert_ (match st with IOther => false | _ => true end));
      _ ← fix_all path st a;
      if recurse && is_dir st then
        names ← lift (fun s => readDirectory (fst s) path);
        forM (fun i => canonicalisePathMetaData_in fuel (child path i) true) names
      else mret tt
  end.
Definition canonicalisePathMetaData (path : str) : M fstate unit :=
  fs ← gets fst;
  _ ← canonicalisePathMetaData_in (S (size fs)) path true;
  st ← lift (fun s => lstat (fst s) path);
  a ← gets (fun s => snd s path);
  if (a_uid a =? euid E)%Z then mret tt
  else
    _ ← lift (fun _ => assert_ (is_lnk st));
    raise eError ($"wrong ownership of top-level store path `" ++ path ++ $"'").
End Files.

(** * What canonicalisation does *)

Section Canon.
Context (E : Env).
Abbreviation fstate := (FileSys * (str -> attr))%type.

(** The object that [fix_mode] leaves, and its attributes. *)
Definition perm_of (m : Z) : Z := if (m =? 292)%Z || (m =? 365)%Z then m else canon_mode m.
Definition canon_inode (i : inode) : inode := match i with IReg m d => IReg (perm_of m) d | _ => i end.
Definition canon_attr (i : inode) (a : attr) : attr :=
  mkAttr (if have_lchown E || negb (is_lnk i) then euid E else a_uid a)
    (if (have_lutimes E && bool_decide (lutimes E = LutimesDone)) || negb (is_lnk i) then mtimeStore else a_mtime a)
    (if is_dir i then perm_of (a_dmode a) else a_dmode a).

(** The process may give itself the objects it does not own. *)
Definition may_own (i : inode) (a : attr) : Prop :=
  privileged E = true \/ a_uid a = euid E \/ (have_lchown E = false /\ is_lnk i = true).

(** From [s] to [s'] exactly the objects in [D] have been canonicalised. *)
Definition canoned (D : str -> Prop) (s s' : fstate) : Prop := forall k,
  (D k -> fst s' !! k = canon_inode <$> fst s !! k /\
     match fst s !! k with Some i => snd s' k = canon_attr i (snd s k) | None => snd s' k = snd s k end) /\
  (~ D k -> fst s' !! k = fst s !! k /\ snd s' k = snd s k).

Lemma canoned_step (D1 D2 D : str -> Prop) `{forall k, Decision (D1 k), forall k, Decision (D2 k)} s s1 s2 :
  canoned D1 s s1 -> canoned D2 s1 s2 -> (forall k, D1 k -> ~ D2 k) -> (forall k, D k <-> D1 k \/ D2 k) -> canoned D s s2.
Proof.
  intros H1 H2 Hd HD k. destruct (H1 k) as [A1 A2], (H2 k) as [B1 B2]. rewrite HD.
  destruct (decide (D1 k)) as [Hk|Hk].
  - destruct (B2 (Hd k Hk)) as [-> ->]. split; [intros _; by apply A1|tauto].
  - destruct (A2 Hk) as [A3 A4]. rewrite A3, A4 in *. split; [intros [?|?]; [done|by apply B1]|]. intros Hn. apply B2. tauto.
Qed.

Lemma canoned_refl s (D : str -> Prop) : (forall k, ~ D k) -> canoned D s s.
Proof. intros Hn k. split; [intros Hk; by destruct (Hn k)|done]. Qed.

(** Only the objects that exist matter. *)
Lemma canoned_iff (D D' : str -> Prop) `{forall k, Decision (D k), forall k, Decision (D' k)} s s' :
  (forall k, fst s !! k <> None -> D k <-> D' k) -> canoned D s s' -> canoned D' s s'.
Proof.
  intros HD Hc k. destruct (Hc k) as [H1 H2]. destruct (fst s !! k) as [i|] eqn:Ek.
  - rewrite <- Ek in *. rewrite <- HD by congruence. done.
  - assert (fst s' !! k = None /\ snd s' k = snd s k) as [-> ->]; [|done].
    destruct (decide (D k)); [by apply H1|by apply H2].
Qed.

Lemma canon_inode_dir i : canon_inode i = IDir <-> i = IDir.
Proof. by destruct i. Qed.

Lemma canoned_wf D s s' : (forall k, Decision (D k)) -> canoned D s s' -> fs_wf (fst s) -> fs_wf (fst s').
Proof.
  intros Hdec Hc Hwf k Hk.
  assert (Hl : forall k, fst s' !! k = fst s !! k \/ fst s' !! k = canon_inode <$> fst s !! k).
  { intros j. destruct (Hc j) as [H1 H2]. destruct (decide (D j)); [right; by apply H1|left; by apply H2]. }
  destruct (Hwf k) as (d & n & -> & Hn & Hd).
  { intros E0. destruct (Hl k) as [E1|E1]; rewrite E0 in E1; done. }
  exists d, n. split_and!; [done|done|]. destruct Hd as [-> |Hd]; [by left|right].
  destruct (Hl d) as [-> | ->]; rewrite Hd; done.
Qed.

Lemma canoned_dom D s s' : (forall k, Decision (D k)) -> canoned D s s' -> dom (fst s') = dom (fst s).
Proof.
  intros Hdec Hc. apply set_eq. intros k. rewrite !elem_of_dom. destruct (Hc k) as [H1 H2].
  destruct (decide (D k)); [destruct H1 as [-> _]; [done|]; by rewrite fmap_is_Some|by destruct H2 as [-> _]].
Qed.

(** One object. *)
Lemma fix_owner_run path st fs at0 : may_own st (at0 path) ->
  exists at1, fix_owner E path st (fs, at0) = Done tt (fs, at1) /\
    at1 path = mkAttr (a_uid (canon_attr st (at0 path))) (a_mtime (at0 path)) (a_dmode (at0 path)) /\
    forall k, k <> path -> at1 k = at0 k.
Proof.
  intros Hown. unfold fix_owner, mbind, M_bind, gets. cbn [snd canon_attr a_uid].
  destruct (Z.eqb_spec (a_uid (at0 path)) (euid E)) as [Hu|Hu].
  - exists at0. split_and!; [done| |done]. destruct (at0 path); cbn in *. subst. by destruct (_ || _).
  - destruct (have_lchown E) eqn:Hl, (is_lnk st) eqn:Hi; cbn [negb andb orb].
    3:{ exists at0. split_and!; [done| |done]. by destruct (at0 path). }
    all: assert (privileged E = true) as -> by (destruct Hown as [?|[?|[? ?]]]; congruence).
    all: eexists; split_and!; [done| |]; unfold set_attr; [by rewrite str_eqb_refl|].
    all: intros k Hk; by rewrite str_eqb_ne.
Qed.

Lemma fix_mode_run path st fs at0 a : fs !! path = Some st -> a_dmode (at0 path) = a_dmode a ->
  exists at1, fix_mode path st a (fs, at0) = Done tt (<[path := canon_inode st]> fs, at1) /\
    at1 path = mkAttr (a_uid (at0 path)) (a_mtime (at0 path)) (a_dmode (canon_attr st a)) /\
    forall k, k <> path -> at1 k = at0 k.
Proof.
  intros Hst Ha.
  assert (Hid : <[path := st]> fs = fs) by (by apply insert_id).
  assert (Hat : at0 path = mkAttr (a_uid (at0 path)) (a_mtime (at0 path)) (a_dmode a)) by (rewrite <- Ha; by destruct (at0 path)).
  unfold fix_mode. destruct st as [m d| |t|]; cbn [is_lnk st_perm canon_inode canon_attr is_dir a_dmode]; unfold perm_of.
  - exists at0. split_and!; [|done|done].
    destruct (m =? 292)%Z, (m =? 365)%Z; cbn [negb andb orb]; rewrite ?Hid; try done.
    unfold modify, set_perm. cbn [fst snd]. by rewrite Hst.
  - rewrite Hid. destruct (a_dmode a =? 292)%Z, (a_dmode a =? 365)%Z; cbn [negb andb orb]; try (exists at0; done).
    unfold modify, set_perm. cbn [fst snd]. rewrite Hst. eexists. split_and!; [done| |]; unfold set_attr.
    + by rewrite str_eqb_refl.
    + intros k Hk. by rewrite str_eqb_ne.
  - rewrite Hid. by exists at0.
  - rewrite Hid. exists at0. split_and!; [|done|done]. cbn. unfold modify, set_perm. cbn [fst snd]. by rewrite Hst.
Qed.

Lemma fix_mtime_run path st fs at0 a : a_mtime (at0 path) = a_mtime a -> (have_lutimes E = true -> lutimes E <> LutimesFail) ->
  exists at1, fix_mtime E path st a (fs, at0) = Done tt (fs, at1) /\
    at1 path = mkAttr (a_uid (at0 path)) (a_mtime (canon_attr st a)) (a_dmode (at0 path)) /\
    forall k, k <> path -> at1 k = at0 k.
Proof.
  intros Ha Hlu. unfold fix_mtime. cbn [canon_attr a_mtime].
  assert (Hskip : forall m, m = a_mtime a -> exists at1, mret (M := M (FileSys * (str -> attr))) tt (fs, at0) = Done tt (fs, at1) /\
    at1 path = mkAttr (a_uid (at0 path)) m (a_dmode (at0 path)) /\ forall k, k <> path -> at1 k = at0 k).
  { intros m ->. exists at0. split_and!; [done| |done]. rewrite <- Ha. by destruct (at0 path). }
  destruct (Z.eqb_spec (a_mtime a) mtimeStore) as [Hm|Hm]; [apply Hskip; rewrite Hm; by destruct (_ || _)|].
  set (set := modify _).
  assert (exists at1, set (fs, at0) = Done tt (fs, at1) /\
    at1 path = mkAttr (a_uid (at0 path)) mtimeStore (a_dmode (at0 path)) /\ forall k, k <> path -> at1 k = at0 k) as Hset.
  { eexists. split_and!; [done| |]; unfold set_attr; [by rewrite str_eqb_refl|]. intros k Hk. by rewrite str_eqb_ne. }
  destruct (have_lutimes E); cbn [andb orb]; [|destruct (is_lnk st); [by apply Hskip|done]].
  destruct (lutimes E); cbn [bool_decide]; [rewrite bool_decide_eq_true_2 by done; done| |by destruct (Hlu eq_refl)].
  rewrite bool_decide_eq_false_2 by done. destruct (is_lnk st); [by apply Hskip|done].
Qed.

Lemma fix_object path st s :
  fst s !! path = Some st -> may_own st (snd s path) -> (have_lutimes E = true -> lutimes E <> LutimesFail) ->
  exists s', fix_all E path st (snd s path) s = Done tt s' /\ canoned (eq path) s s'.
Proof.
  intros Hst Hown Hlu. destruct s as [fs at0]. cbn [fst snd] in *.
  destruct (fix_owner_run path st fs at0 Hown) as (at1 & E1 & P1 & O1).
  destruct (fix_mode_run path st fs at1 (at0 path) Hst) as (at2 & E2 & P2 & O2); [by rewrite P1|].
  destruct (fix_mtime_run path st (<[path := canon_inode st]> fs) at2 (at0 path)) as (at3 & E3 & P3 & O3); [by rewrite P2, P1|done|].
  exists (<[path := canon_inode st]> fs, at3). split.
  - unfold fix_all, mbind, M_bind. by rewrite E1, E2, E3.
  - intros k. cbn [fst snd]. split.
    + intros <-. rewrite lookup_insert_eq, Hst. split; [done|]. rewrite P3, P2, P1. done.
    + intros Hk. rewrite lookup_insert_ne, O3, O2, O1 by done. done.
Qed.

(** The objects can be canonicalised. *)
Definition canon_pre (s : fstate) (path : str) : Prop :=
  forall k i, under path k -> fst s !! k = Some i -> i <> IOther /\ may_own i (snd s k).

Lemma canon_pre_other D s s' path : canoned D s s' -> (forall k, under path k -> ~ D k) -> canon_pre s path -> canon_pre s' path.
Proof. intros Hc Hd Hp k i Hk. destruct (Hc k) as [_ Hs]. destruct (Hs (Hd k Hk)) as [-> ->]. by apply Hp. Qed.

Context (Hlu : have_lutimes E = true -> lutimes E <> LutimesFail).

Lemma canon_entries (fs0 : FileSys) f path names : forall s,
  (forall n s, n ∈ names -> fs_wf (fst s) -> fst s !! child path n <> None -> canon_pre s (child path n) -> dom (fst s) = dom fs0 ->
     exists s', f (child path n) s = Done tt s' /\ canoned (under (child path n)) s s') ->
  dom (fst s) = dom fs0 -> fs_wf (fst s) -> NoDup names -> (forall n, n ∈ names -> name_ok n = true /\ fst s !! child path n <> None /\ canon_pre s (child path n)) ->
  exists s', forM (fun n => f (child path n)) names s = Done tt s' /\
    canoned (fun k => Exists (fun n => under (child path n) k) names) s s'.
Proof.
  induction names as [|n names IH]; intros s Hf Hdom Hwf Hnd Hin.
  { exists s. split; [done|]. apply canoned_refl. intros k Hk. by inversion Hk. }
  apply NoDup_cons in Hnd as [Hn Hnd]. destruct (Hin n) as (Hok & Hex & Hpre); [left|].
  destruct (Hf n s) as (s1 & E1 & C1); [left|done|done|done|done|]. cbn [forM]. unfold mbind, M_bind. rewrite E1.
  assert (Hdis : forall m k, m ∈ names -> under (child path m) k -> ~ under (child path n) k).
  { intros m k Hm Hk Hk'. destruct (Hin m) as (Hmok & _); [by right|]. destruct Hn.
    by rewrite (under_child_inj path n m k Hok Hmok Hk' Hk). }
  destruct (IH s1) as (s2 & E2 & C2).
  - intros m s' Hm. apply Hf. by right.
  - rewrite (canoned_dom (under (child path n)) s s1 _ C1). done.
  - eapply (canoned_wf (under (child path n))); [apply _|done|done].
  - done.
  - intros m Hm. destruct (Hin m) as (Hmok & Hmex & Hmpre); [by right|]. split_and!; [done| |].
    + destruct (C1 (child path m)) as [_ Hs]. destruct Hs as [-> _]; [|done]. apply (Hdis m); [done|apply under_refl].
    + eapply canon_pre_other; [done| |done]. intros k. by apply Hdis.
  - exists s2. split; [done|]. apply (canoned_step (under (child path n)) (fun k => Exists (fun n => under (child path n) k) names) _ s s1 s2 C1 C2).
    + intros k Hk (m & Hm & Hmk)%Exists_exists. by apply (Hdis m k).
    + intros k. by rewrite Exists_cons.
Qed.

Lemma canon_in_spec fs0 fuel : forall path s,
  dom (fst s) = dom fs0 -> fs_wf (fst s) -> path <> [] -> fst s !! path <> None -> canon_pre s path ->
  (size (subtree path fs0) <= fuel)%nat ->
  exists s', canonicalisePathMetaData_in E fuel path true s = Done tt s' /\ canoned (under path) s s'.
Proof.
  induction fuel as [|fuel IH]; intros path s Hdom Hwf Hpath Hex Hpre Hsz.
  { exfalso. assert (size (subtree path fs0) <> 0)%nat; [|lia]. rewrite map_size_ne_0_lookup. exists path.
    rewrite lookup_subtree, decide_True by apply under_refl. apply elem_of_dom. rewrite <- Hdom. apply elem_of_dom. by apply not_eq_None_Some. }
  cbn [canonicalisePathMetaData_in]. unfold mbind at 1, M_bind at 1, lift at 1, lstat.
  destruct (fst s !! path) as [st|] eqn:Est; [|done].
  unfold mbind at 1, M_bind at 1, gets at 1. destruct (Hpre path st (under_refl path) Est) as [Hno Hown].
  unfold mbind at 1, M_bind at 1, lift at 1. assert (assert_ (match st with IOther => false | _ => true end) = Ok tt) as -> by (by destruct st).
  destruct (fix_object path st s Est Hown Hlu) as (s1 & E1 & C1). unfold mbind at 1, M_bind at 1. rewrite E1. cbn [andb].
  assert (Hdec : forall k : str, Decision (path = k)) by (intros; apply _).
  assert (Hst1 : fst s1 !! path = Some (canon_inode st)) by (destruct (C1 path) as [H _]; destruct (H eq_refl) as [-> _]; by rewrite Est).
  pose proof (canoned_wf _ _ _ Hdec C1 Hwf) as Hwf1. pose proof (canoned_dom _ _ _ Hdec C1) as Hdom1.
  destruct (is_dir st) eqn:Ed.
  2:{ exists s1. split; [done|]. intros k. destruct (C1 k) as [H1 H2]. split; [|intros Hk; apply H2; intros <-; by destruct Hk; left].
      intros Hk. destruct (decide (path = k)) as [<- |Hne]; [by apply H1|]. destruct (H2 Hne) as [-> ->].
      assert (fst s !! k = None) as ->; [|done]. assert (without path (fst s) !! k = delete path (fst s) !! k) as Hl
        by (rewrite file_leaf; [done|done|done|congruence|intros Hd; rewrite Est in Hd; injection Hd as ->; done]).
      rewrite lookup_without, decide_True, lookup_delete_ne in Hl by done. done. }
  destruct st; try done. cbn [canon_inode] in Hst1.
  assert (exists names, readDirectory (fst s1) path = Ok names) as [names En] by (unfold readDirectory; rewrite Hst1; eauto).
  destruct (readDirectory_spec _ _ _ En) as (_ & Hnd & Hnames).
  unfold mbind, M_bind, lift. rewrite En.
  assert (Hother : forall n, n ∈ names -> canon_pre s1 (child path n)).
  { intros n Hn. eapply canon_pre_other; [exact C1| |].
    - intros k Hk ->. by apply not_under_child in Hk.
    - intros k i Hk. apply Hpre. eapply under_trans; [apply under_child|done]. }
  destruct (canon_entries fs0 (fun p => canonicalisePathMetaData_in E fuel p true) path names s1) as (s2 & E2 & C2).
  - intros n s' [Hn Hc]%Hnames Hwf' Hex' Hpre' Hdom'. apply IH; [done|done|apply child_nonnil|done|done|].
    assert (fs0 !! path <> None) as H0 by (rewrite <- not_elem_of_dom, <- Hdom, not_elem_of_dom; congruence).
    pose proof (subtree_child_size path n fs0 H0). lia.
  - congruence.
  - done.
  - done.
  - intros n Hn. split_and!; [by apply Hnames|by apply Hnames|by apply Hother].
  - exists s2. split; [done|]. set (D2 := fun k => Exists (fun n => under (child path n) k) names) in C2.
    apply (canoned_iff (fun k => path = k \/ D2 k)); [intros k; unfold D2; apply _|intros k; apply _| |].
    + intros k Hk. split.
      * intros [<- |(n & _ & Hn)%Exists_exists]; [apply under_refl|]. eapply under_trans; [apply under_child|done].
      * intros Hu. destruct (decide (path = k)) as [|Hne]; [by left|right].
        destruct (below_entry (fst s) path Hwf Hpath k Hk Hu) as (n & Hn & Hc & Hnk); [done|].
        apply Exists_exists. exists n. split; [|done]. apply Hnames. split; [done|].
        by rewrite <- not_elem_of_dom, Hdom1, not_elem_of_dom.
    + eapply (canoned_step (eq path) D2 _ s s1 s2); [exact C1|exact C2| |done].
      intros k <- (n & _ & Hn)%Exists_exists. by apply not_under_child in Hn.
Qed.
End Canon.

(** ** Trees *)

(** What an archive shows of an object. *)
Definition shown (i : inode) : inode :=
  match i with IReg m d => IReg (if (Z.land m S_IXUSR =? 0)%Z then 0 else 1) d | _ => i end.

Lemma shown_dir i : shown i = IDir <-> i = IDir.
Proof. by destruct i. Qed.

(** The names of a directory depend only on which objects there are. *)
Lemma readDirectory_ext fs fs' path names :
  (forall k, under path k -> shown <$> fs' !! k = shown <$> fs !! k) -> readDirectory fs path = Ok names ->
  exists names', readDirectory fs' path = Ok names' /\ merge_sort str_le names' = merge_sort str_le names.
Proof.
  intros Hs En. destruct (readDirectory_spec _ _ _ En) as (Hd & Hnd & Hn).
  assert (fs' !! path = Some IDir) as Hd'.
  { pose proof (Hs path (under_refl path)) as H. rewrite Hd in H. apply fmap_Some in H as (i & Hi & E). symmetry in E. apply shown_dir in E as ->. done. }
  assert (exists names', readDirectory fs' path = Ok names') as [names' En'] by (unfold readDirectory; rewrite Hd'; eauto).
  exists names'. split; [done|]. destruct (readDirectory_spec _ _ _ En') as (_ & Hnd' & Hn').
  apply (StronglySorted_unique str_le); [by apply (StronglySorted_merge_sort str_le)..|].
  rewrite !merge_sort_Permutation. apply NoDup_Permutation; [done|done|]. intros n. rewrite Hn, Hn'.
  pose proof (Hs (child path n) (under_child path n)) as H. destruct (fs !! child path n), (fs' !! child path n); naive_solver.
Qed.

Lemma tree_of_ext fs fs' filter fuel : forall path,
  (forall k, under path k -> shown <$> fs' !! k = shown <$> fs !! k) -> tree_of fs' filter fuel path = tree_of fs filter fuel path.
Proof.
  induction fuel as [|fuel IH]; intros path Hs; [done|]. cbn [tree_of]. pose proof (Hs path (under_refl path)) as Hp.
  destruct (fs !! path) as [i|] eqn:Ei, (fs' !! path) as [i'|] eqn:Ei'; try done.
  destruct i as [m d| |t|], i' as [m' d'| |t'|]; cbn in Hp; try done; try congruence.
  - injection Hp as Hm ->. destruct (Z.land m S_IXUSR =? 0)%Z, (Z.land m' S_IXUSR =? 0)%Z; done.
  - assert (exists names, readDirectory fs path = Ok names) as [names En] by (unfold readDirectory; rewrite Ei; eauto).
    destruct (readDirectory_ext fs fs' path names Hs En) as (names' & En' & Hsort). rewrite En, En', Hsort.
    f_equal. apply mapM_ext. intros n. f_equal. apply IH. intros k Hk. apply Hs.
    eapply under_trans; [apply under_child|done].
Qed.

(** More fuel than the depth does not change the tree; the depth is at most the
    number of objects. *)
Lemma tree_of_fuel fs filter fuel : forall fuel' path t,
  tree_of fs filter fuel path = Some t -> (node_depth t <= fuel')%nat -> tree_of fs filter fuel' path = Some t.
Proof.
  induction fuel as [|fuel IH]; intros fuel' path t Ht Hd; [done|].
  destruct fuel' as [|fuel']; [destruct t; cbn in Hd; lia|]. cbn [tree_of] in *.
  destruct (fs !! path) as [[m d| |tg|]|]; try done. destruct (readDirectory fs path) as [names| |]; try done.
  apply fmap_Some in Ht as (es & Hes & ->). apply node_depth_dir in Hd. apply fmap_Some. exists es. split; [|done].
  apply mapM_Some in Hes. apply mapM_Some. clear -IH Hes Hd. induction Hes as [|n e ns es He Hes IHes]; [constructor|].
  apply Forall_cons in Hd as [Hde Hd]. constructor; [|by apply IHes].
  apply fmap_Some in He as (t & Ht & ->). apply fmap_Some. exists t. split; [|done]. by apply IH.
Qed.

Lemma tree_depth fs filter fuel : forall path t, tree_of fs filter fuel path = Some t -> (node_depth t <= size (subtree path fs))%nat.
Proof.
  induction fuel as [|fuel IH]; intros path t Ht; [done|]. cbn [tree_of] in Ht.
  assert (forall i, fs !! path = Some i -> (1 <= size (subtree path fs))%nat) as Hone.
  { intros i Hi. assert (size (subtree path fs) <> 0)%nat; [|lia]. rewrite map_size_ne_0_lookup. exists path, i.
    by rewrite lookup_subtree, decide_True by apply under_refl. }
  destruct (fs !! path) as [[m d| |tg|]|] eqn:Ei; try done; try (injection Ht as <-; cbn; by eapply Hone).
  destruct (readDirectory fs path) as [names| |]; try done. apply fmap_Some in Ht as (es & Hes & ->).
  apply mapM_Some in Hes. assert (Forall (fun e : str * node => node_depth e.2 < size (subtree path fs))%nat es) as Hall.
  { clear -IH Hes Ei. induction Hes as [|n e ns es He Hes IHes]; [constructor|]. constructor; [|done].
    apply fmap_Some in He as (t & Ht & ->). apply IH in Ht. cbn.
    pose proof (subtree_child_size path n fs ltac:(congruence)). lia. }
  pose proof (Hone _ eq_refl) as H1. destruct (size (subtree path fs)) as [|n]; [lia|]. cbn. apply le_n_S.
  clear -Hall. induction Hall as [|e es He Hes IHes]; cbn; lia.
Qed.

Lemma subtree_size (path : str) (fs : FileSys) : (size (subtree path fs) <= size fs)%nat.
Proof. apply map_subseteq_size, map_filter_subseteq. Qed.

Section CanonTheorem.
Context (E : Env).

Lemma perm_exec m : (Z.land (perm_of m) S_IXUSR =? 0)%Z = (Z.land m S_IXUSR =? 0)%Z.
Proof.
  unfold perm_of. destruct (Z.eqb_spec m 292) as [-> |]; [done|]. destruct (Z.eqb_spec m 365) as [-> |]; [done|]. cbn [orb].
  unfold canon_mode. by destruct (Z.land m S_IXUSR =? 0)%Z.
Qed.

Lemma canon_shown i : shown (canon_inode i) = shown i.
Proof. destruct i; cbn; [by rewrite perm_exec|done..]. Qed.

Lemma canoned_tree path s s' filter fuel q : canoned E (under path) s s' -> tree_of (fst s') filter fuel q = tree_of (fst s) filter fuel q.
Proof.
  intros Hc. apply tree_of_ext. intros k _. destruct (Hc k) as [H1 H2]. destruct (decide (under path k)) as [Hu|Hu].
  - destruct (H1 Hu) as [-> _]. destruct (fst s !! k); cbn; [by rewrite canon_shown|done].
  - by destruct (H2 Hu) as [-> _].
Qed.

Lemma perm_canonical m : perm_of m = 292%Z \/ perm_of m = 365%Z.
Proof.
  unfold perm_of. destruct (Z.eqb_spec m 292) as [-> |]; [by left|]. destruct (Z.eqb_spec m 365) as [-> |]; [by right|]. cbn [orb].
  unfold canon_mode. destruct (Z.land m S_IXUSR =? 0)%Z; [by left|by right].
Qed.

(** The whole of [canonicalisePathMetaData]. *)
Lemma canonicalise_run path s :
  (have_lutimes E = true -> lutimes E <> LutimesFail) -> fs_wf (fst s) -> path <> [] -> fst s !! path <> None -> canon_pre E s path ->
  (have_lchown E = true \/ forall t, fst s !! path <> Some (ILnk t)) ->
  exists s', canonicalisePathMetaData E path s = Done tt s' /\ canoned E (under path) s s'.
Proof.
  intros Hlu Hwf Hpath Hex Hpre Hl. unfold canonicalisePathMetaData, mbind, M_bind, gets, lift, lstat.
  destruct (canon_in_spec E Hlu (fst s) (S (size (fst s))) path s) as (s' & E' & C); [done|done|done|done|done| |].
  { pose proof (subtree_size path (fst s)). lia. }
  rewrite E'. exists s'. split; [|done]. destruct (C path) as [Hc _]. destruct (Hc (under_refl path)) as [H1 H2].
  rewrite H1. destruct (fst s !! path) as [st|] eqn:Est; [|done]. cbn. rewrite H2. cbn [canon_attr a_uid].
  assert (have_lchown E || negb (is_lnk st) = true) as ->.
  { destruct Hl as [-> |Hl]; [done|]. destruct st; cbn; rewrite ?orb_true_r; try done. by destruct (Hl target). }
  by rewrite Z.eqb_refl.
Qed.

(** [canonicalisePathMetaData] on a path whose objects the process owns or may
    take over: it returns; every object of the tree then belongs to the process, has
    the modification time 1 and mode 0444 or 0555 (executable as before); nothing
    outside the tree changes; and the tree itself, hence its archive and its hash,
    is the same. *)
Theorem canonicalisePathMetaData_canonical path s :
  have_lchown E = true -> have_lutimes E = true -> lutimes E = LutimesDone ->
  fs_wf (fst s) -> path <> [] -> fst s !! path <> None -> canon_pre E s path ->
  exists s', canonicalisePathMetaData E path s = Done tt s' /\
    (forall k i, under path k -> fst s !! k = Some i -> exists i', fst s' !! k = Some i' /\ shown i' = shown i /\
       a_uid (snd s' k) = euid E /\ a_mtime (snd s' k) = 1%Z /\
       (is_lnk i' = false -> st_perm i' (snd s' k) = 292%Z \/ st_perm i' (snd s' k) = 365%Z)) /\
    (forall k, ~ under path k -> fst s' !! k = fst s !! k /\ snd s' k = snd s k) /\
    (forall filter fuel q, tree_of (fst s') filter fuel q = tree_of (fst s) filter fuel q).
Proof.
  intros Hc Hu Hl Hwf Hp Hex Hpre.
  destruct (canonicalise_run path s) as (s' & E' & C); [by intros _; rewrite Hl|done|done|done|done|by left|].
  exists s'. split_and!; [done| | |intros; by apply (canoned_tree path)].
  - intros k i Hk Hi. destruct (C k) as [H1 _]. destruct (H1 Hk) as [H2 H3]. rewrite Hi in H2, H3. exists (canon_inode i).
    rewrite H3. cbn [canon_attr a_uid a_mtime a_dmode]. rewrite Hc, Hu, Hl. split_and!; [done|apply canon_shown|done|by rewrite bool_decide_eq_true_2|].
    destruct (Hpre k i Hk Hi) as [Hno _]. destruct i; cbn; intros; try done; apply perm_canonical.
  - intros k Hk. by apply C.
Qed.
End CanonTheorem.

(** * The state of a process *)

(** The database, the files and their attributes, [lockedPaths], the open file of
    temporary roots ([fnTempRoots], while [fdTempRoots] is open), the counter of
    [createTempDir], and [pathContentsGoodCache]. *)
Record sstate : Type := mkS {
  s_ls : LocalStore; s_fs : FileSys; s_attr : str -> attr; s_locked : gset str;
  s_temp : option str; s_counter : Z; s_good : gmap str bool }.

Definition set_sls (ls : LocalStore) (s : sstate) : sstate :=
  mkS ls (s_fs s) (s_attr s) (s_locked s) (s_temp s) (s_counter s) (s_good s).
Definition set_sfs (fs : FileSys) (s : sstate) : sstate :=
  mkS (s_ls s) fs (s_attr s) (s_locked s) (s_temp s) (s_counter s) (s_good s).
Definition set_fattr (fa : FileSys * (str -> attr)) (s : sstate) : sstate :=
  mkS (s_ls s) (fst fa) (snd fa) (s_locked s) (s_temp s) (s_counter s) (s_good s).
Definition set_locked (l : gset str) (s : sstate) : sstate :=
  mkS (s_ls s) (s_fs s) (s_attr s) l (s_temp s) (s_counter s) (s_good s).
Definition set_temp (t : option str) (s : sstate) : sstate :=
  mkS (s_ls s) (s_fs s) (s_attr s) (s_locked s) t (s_counter s) (s_good s).
Definition set_good (g : gmap str bool) (s : sstate) : sstate :=
  mkS (s_ls s) (s_fs s) (s_attr s) (s_locked s) (s_temp s) (s_counter s) g.
Definition set_tmp (fc : FileSys * Z) (s : sstate) : sstate :=
  mkS (s_ls s) (fst fc) (s_attr s) (s_locked s) (s_temp s) (snd fc) (s_good s).

Definition on_fs {A} (m : M FileSys A) : M sstate A := zoom s_fs set_sfs m.
Definition on_fattr {A} (m : M (FileSys * (str -> attr)) A) : M sstate A := zoom (fun s => (s_fs s, s_attr s)) set_fattr m.
Definition on_tmp {A} (m : M (FileSys * Z) A) : M sstate A := zoom (fun s => (s_fs s, s_counter s)) set_tmp m.
(** Deletion, whose count of bytes the caller ignores. *)
Definition on_del (m : M (FileSys * Z) unit) : M sstate unit :=
  zoom (fun s => (s_fs s, 0%Z)) (fun fz s => set_sfs (fst fz) s) m.

Section Process.
Context (E : Env).

(** ** Locks (pathlocks.cc), for a process that finds no lock taken by another *)

(** One iteration of [lockPaths].  A lock file that is not empty would be opened
    again for ever. *)
Definition lock_one (path : str) : M sstate str :=
  let lp := lockPath path in
  locked ← gets s_locked;
  if decide (lp ∈ locked) then raise eError ($"deadlock: trying to re-acquire self-held lock")
  else
    q ← on_fs (fun fs => match sys_open_creat E 384 fs lp with
                         | Some (q, fs) => Done q fs
                         | None => Raised (Exn eSysError ($"opening lock file `" ++ lp ++ $"'")) fs
                         end);
    fs ← gets s_fs;
    match fs !! q with
    | Some (IReg _ []) => _ ← modify (fun s => set_locked ({[lp]} ∪ s_locked s) s); mret lp
    | _ => stuck
    end.

(** [unlock] *)
Definition unlock_one (deletePaths : bool) (s : sstate) (lp : str) : sstate :=
  set_locked (s_locked s ∖ {[lp]}) (if deletePaths then set_sfs (sys_unlink (s_fs s) lp) s else s).
Definition unlock (deletePaths : bool) (fds : list str) (s : sstate) : sstate := foldl (unlock_one deletePaths) s fds.

(** [lockPaths]: when it throws, the destructor releases the locks it has got. *)
Fixpoint lock_loop (paths fds : list str) : M sstate (list str) :=
  match paths with
  | [] => mret fds
  | p :: paths => fun s =>
      match lock_one p s with
      | Done lp s => lock_loop paths (fds ++ [lp]) s
      | Raised e s => Raised e (unlock false fds s)
      | Stuck => Stuck
      end
  end.
Definition lockPaths (paths : gset str) : M sstate (list str) := lock_loop (set_iter paths) [].

(** A block with a [PathLocks] object that ends with [setDeletion(true)]: the
    destructor deletes the lock files, unless the block throws. *)
Definition locked_block (body : M sstate unit) (fds : list str) : M sstate unit := fun s =>
  match body s with
  | Done _ s => Done tt (unlock true fds s)
  | Raised e s => Raised e (unlock false fds s)
  | Stuck => Stuck
  end.
Definition with_locks (paths : gset str) (body : M sstate unit) : M sstate unit :=
  fds ← lockPaths paths;
  locked_block body fds.

(** ** Temporary roots (gc.cc) *)

Definition gcLockName : str := $"gc.lock".

(** [openGCLock]; the lock itself is granted sooner or later. *)
Definition openGCLock : M FileSys unit :=
  update (fun fs =>
    match sys_open_creat E 384 fs (child (nixStateDir E) gcLockName) with
    | Some (_, fs) => Ok fs
    | None => throw eSysError ($"opening global GC lock `" ++ child (nixStateDir E) gcLockName ++ $"'")
    end).

Definition openTempRoots : M sstate unit :=
  let dir := nixStateDir E ++ slash :: tempRootsDir in
  let fn := child dir (pid E) in
  _ ← on_fs (createDirs (length dir) dir);
  _ ← on_fs openGCLock;
  e ← gets (fun s => pathExists (s_fs s) fn);
  _ ← (if (e : bool) then modify (fun s => set_sfs (sys_unlink (s_fs s) fn) s) else mret tt);
  q ← on_fs (fun fs => match sys_open_creat E 384 fs fn with
                       | Some (q, fs) => Done q fs
                       | None => Raised (Exn eSysError ($"opening lock file `" ++ fn ++ $"'")) fs
                       end);
  fs ← gets s_fs;
  match fs !! q with
  | Some (IReg _ []) => modify (set_temp (Some q))
  | _ => stuck
  end.

Definition append (s : str) (i : inode) : inode := match i with IReg m d => IReg m (d ++ s) | _ => i end.

Definition addTempRoot (path : str) : M sstate unit :=
  t ← gets s_temp;
  _ ← (match t with None => openTempRoots | Some _ => mret tt end);
  modify (fun s => match s_temp s with
                   | Some q => set_sfs (alter (append (path ++ [NUL])) q (s_fs s)) s
                   | None => s
                   end).

Definition removeTempRoots (s : sstate) : sstate :=
  match s_temp s with
  | Some q => set_temp None (set_sfs (sys_unlink (s_fs s) (child (nixStateDir E ++ slash :: tempRootsDir) (pid E))) s)
  | None => s
  end.
End Process.

(** ** A temporary root is read by the collector *)

Section TempRootTheory.
Context (E : Env).
Abbreviation gcLock := (child (nixStateDir E) gcLockName).
Abbreviation tdir := (temproots (nixStateDir E)).
Abbreviation fnTempRoots := (child tdir (pid E)).

(** A file of strings that each end with NUL. *)
Definition terminated (d : str) : Prop := d = [] \/ exists d', d = d' ++ [NUL].

(** The directories are there, nothing is in the way of the files, and the file of
    a process that has one is intact. *)
Record roots_ready (s : sstate) : Prop := {
  rr_pid : name_ok (pid E) = true;
  rr_wf : fs_wf (s_fs s);
  rr_dir : s_fs s !! nixStateDir E = Some IDir;
  rr_tdir : s_fs s !! tdir = Some IDir;
  rr_lock : match s_fs s !! gcLock with None | Some (IReg _ _) => True | _ => False end;
  rr_file : s_fs s !! fnTempRoots <> Some IDir;
  rr_open : forall q, s_temp s = Some q -> q = fnTempRoots /\ exists m d, s_fs s !! q = Some (IReg m d) /\ terminated d }.

Lemma nul_strings_app a : forall cur b, nul_strings cur (a ++ NUL :: b) = nul_strings cur (a ++ [NUL]) ++ nul_strings [] b.
Proof.
  induction a as [|c a IH]; intros cur b; cbn [app nul_strings]; [by rewrite char_eqb_refl|].
  destruct (char_eqb c NUL); [cbn; by rewrite IH|apply IH].
Qed.

Lemma nul_strings_one p : forall cur, Forall (fun c => char_eqb c NUL = false) p -> nul_strings cur (p ++ [NUL]) = [cur ++ p].
Proof.
  induction p as [|c p IH]; intros cur Hp; cbn [app nul_strings]; [rewrite char_eqb_refl; by rewrite app_nil_r|].
  apply Forall_cons in Hp as [-> Hp]. rewrite IH by done. by rewrite <- app_assoc.
Qed.

Lemma nul_strings_snoc d p : terminated d -> Forall (fun c => char_eqb c NUL = false) p ->
  nul_strings [] (d ++ p ++ [NUL]) = nul_strings [] d ++ [p].
Proof.
  intros [-> |[d' ->]] Hp; [by apply (nul_strings_one p [])|]. rewrite <- app_assoc. cbn [app].
  rewrite nul_strings_app. f_equal. by apply (nul_strings_one p []).
Qed.

Lemma follow_here links fs p : (forall t, fs !! p <> Some (ILnk t)) -> follow E links fs p = Some p.
Proof. intros Hn. destruct links; cbn [follow]; destruct (fs !! p) as [[]|]; try done; by destruct (Hn target). Qed.

(** Opening a file that is there or can be created. *)
Lemma open_creat_run mode fs p d n :
  p = child d n -> d <> [] -> name_ok n = true -> fs !! d = Some IDir ->
  match fs !! p with None | Some (IReg _ _) => True | _ => False end ->
  exists fs', sys_open_creat E mode fs p = Some (p, fs') /\ (forall k, k <> p -> fs' !! k = fs !! k) /\
    (exists m c, fs' !! p = Some (IReg m c) /\ (fs !! p = None /\ c = [] \/ fs !! p = Some (IReg m c))).
Proof.
  intros -> Hd Hn Hdir Hp. unfold sys_open_creat. rewrite follow_here by (intros t Et; by rewrite Et in Hp).
  destruct (fs !! child d n) as [[m c| | |]|] eqn:Ep; try done.
  - exists fs. split_and!; [done|done|]. exists m, c. auto.
  - rewrite parent_ok_child, bool_decide_eq_true_2 by done. eexists. split_and!; [done| |].
    + intros k Hk. by rewrite lookup_insert_ne.
    + eexists _, _. rewrite lookup_insert_eq. auto.
Qed.

(** Changing a file, or adding one to a directory, keeps a file system well formed. *)
Lemma changed_wf fs fs' p d n :
  fs_wf fs -> p = child d n -> name_ok n = true -> fs !! d = Some IDir -> fs' !! d = Some IDir ->
  fs !! p <> Some IDir -> (forall k, k <> p -> fs' !! k = fs !! k) -> fs_wf fs'.
Proof.
  intros Hwf -> Hn Hd Hd' Hp Hk k Hex. destruct (decide (k = child d n)) as [-> |Hne]; [exists d, n; auto|].
  rewrite Hk in Hex by done. destruct (Hwf k Hex) as (d2 & n2 & -> & Hn2 & Hd2). exists d2, n2. split_and!; [done|done|].
  destruct Hd2 as [-> |Hd2]; [by left|right]. rewrite Hk; [done|]. congruence.
Qed.

Lemma child_ne d n : child d n <> d.
Proof. intros E0. apply (not_under_child d n). left. by symmetry. Qed.

Lemma gcLock_ne : name_ok (pid E) = true -> gcLock <> fnTempRoots /\ gcLock <> tdir /\ nixStateDir E <> fnTempRoots.
Proof.
  intros Hp. split_and!.
  - intros E0%child_inj; [|done|done]. destruct E0 as [E0 _]. by apply (child_ne (nixStateDir E) tempRootsDir).
  - intros E0. by apply (child_inj _ _ gcLockName tempRootsDir) in E0 as [_ ?].
  - intros E0. apply (f_equal length) in E0. unfold child, temproots in E0. rewrite !length_app in E0. cbn in E0. lia.
Qed.

(** Opening the global lock. *)
Lemma openGCLock_run fs :
  nixStateDir E <> [] -> fs_wf fs -> fs !! nixStateDir E = Some IDir ->
  match fs !! gcLock with None | Some (IReg _ _) => True | _ => False end ->
  exists fs', openGCLock E fs = Done tt fs' /\ fs_wf fs' /\ (forall k, k <> gcLock -> fs' !! k = fs !! k) /\
    exists m c, fs' !! gcLock = Some (IReg m c).
Proof.
  intros Hne Hwf Hd Hl. unfold openGCLock, update.
  destruct (open_creat_run 384 fs gcLock (nixStateDir E) gcLockName) as (fs' & Eo & Hk & m & c & Hm & _); [done..|].
  rewrite Eo. exists fs'. split_and!; [done| |done|by exists m, c].
  apply (changed_wf fs fs' gcLock (nixStateDir E) gcLockName); try done; [|intros Ei; by rewrite Ei in Hl].
  rewrite Hk; [done|]. intros E0. symmetry in E0. by apply child_ne in E0.
Qed.

(** Opening the file of temporary roots. *)
Lemma openTempRoots_run s :
  nixStateDir E <> [] -> roots_ready s ->
  exists fs' m, openTempRoots E s = Done tt (set_temp (Some fnTempRoots) (set_sfs fs' s)) /\ fs_wf fs' /\
    (forall k, k <> gcLock -> k <> fnTempRoots -> fs' !! k = s_fs s !! k) /\
    (exists m c, fs' !! gcLock = Some (IReg m c)) /\ fs' !! fnTempRoots = Some (IReg m []).
Proof.
  intros Hst [R1 R2 R3 R4 R5 R6 R7]. destruct (gcLock_ne R1) as (N1 & N2 & N3). unfold openTempRoots. cbv zeta. fold tdir.
  assert (createDirs (length tdir) tdir (s_fs s) = Done [] (s_fs s)) as Ec.
  { unfold temproots, tempRootsDir. rewrite length_app. cbn [length]. rewrite Nat.add_succ_r. cbn [createDirs].
    fold tempRootsDir. fold tdir. rewrite str_eqb_ne.
    - unfold mbind, M_bind, gets. by rewrite R4.
    - unfold temproots. intros E0. apply (f_equal length) in E0. rewrite length_app in E0. cbn [length] in E0. assert (length tempRootsDir = 9%nat) by done. lia. }
  rewrite (run_bind _ _ _ _ _ (run_zoom s_fs set_sfs _ s _ _ Ec)).
  destruct (openGCLock_run (s_fs s) Hst R2 R3 R5) as (fs1 & E1 & W1 & K1 & m1 & c1 & L1).
  rewrite (run_bind _ _ _ _ _ (run_zoom s_fs set_sfs _ (set_sfs (s_fs s) s) _ _ E1)), run_gets.
  assert (Htd1 : fs1 !! tdir = Some IDir) by (rewrite K1; [done|congruence]).
  set (s1 := set_sfs fs1 (set_sfs (s_fs s) s)).
  assert (exists fs2, (if pathExists (s_fs s1) fnTempRoots then modify (fun s => set_sfs (sys_unlink (s_fs s) fnTempRoots) s) else mret tt)
    s1 = Done tt (set_sfs fs2 s) /\ fs2 !! fnTempRoots = None /\ forall k, k <> fnTempRoots -> fs2 !! k = fs1 !! k)
    as (fs2 & E2 & F2 & K2).
  { unfold pathExists, s1. cbn [s_fs set_sfs]. case_bool_decide as Hex.
    - exists (delete fnTempRoots fs1). unfold modify. cbn [s_fs set_sfs]. unfold sys_unlink.
      assert (fs1 !! fnTempRoots <> Some IDir) as Hnd by (rewrite K1; [done|congruence]).
      split_and!; [destruct (fs1 !! fnTempRoots) as [[]|]; done|apply lookup_delete_eq|]. intros k Hk. by rewrite lookup_delete_ne.
    - exists fs1. split_and!; [done| |done]. destruct (fs1 !! fnTempRoots); [by destruct Hex|done]. }
  rewrite (run_bind _ _ _ _ _ E2).
  assert (fs2 !! tdir = Some IDir) as Htd2 by (rewrite K2; [done|]; intros E0; symmetry in E0; by apply child_ne in E0).
  destruct (open_creat_run 384 fs2 fnTempRoots tdir (pid E)) as (fs3 & E3 & K3 & m3 & c3 & F3 & Hc);
    [done|by apply (child_nonnil (nixStateDir E))|done|done|by rewrite F2|].
  destruct Hc as [[_ ->]|Hc]; [|congruence].
  unfold on_fs. erewrite run_bind; [|apply run_zoom; cbn [s_fs set_sfs]; rewrite E3; done].
  rewrite run_gets. cbn [s_fs set_sfs]. rewrite F3.
  exists fs3, m3. split_and!; [done| | |exists m1, c1|done].
  - assert (forall k, k <> fnTempRoots -> fs3 !! k = fs1 !! k) as K13 by (intros k Hk; by rewrite K3, K2).
    apply (changed_wf fs1 fs3 fnTempRoots tdir (pid E)); try done; [|rewrite K1; [done|congruence]].
    rewrite K13; [done|]. intros E0; symmetry in E0; by apply child_ne in E0.
  - intros k Hk1 Hk2. by rewrite K3, K2, K1.
  - by rewrite K3, K2.
Qed.

Lemma addTempRoot_run s p :
  nixStateDir E <> [] -> roots_ready s ->
  exists fs' m d, addTempRoot E p s = Done tt (set_temp (Some fnTempRoots) (set_sfs fs' s)) /\ fs_wf fs' /\
    (forall k, k <> gcLock -> k <> fnTempRoots -> fs' !! k = s_fs s !! k) /\
    match fs' !! gcLock with None | Some (IReg _ _) => True | _ => False end /\
    fs' !! fnTempRoots = Some (IReg m (d ++ p ++ [NUL])) /\ terminated d /\
    (s_temp s = None /\ d = [] \/ s_temp s = Some fnTempRoots /\ s_fs s !! fnTempRoots = Some (IReg m d)).
Proof.
  intros Hst Hr. pose proof Hr as [R1 R2 R3 R4 R5 R6 R7]. destruct (gcLock_ne R1) as (N1 & N2 & N3).
  unfold addTempRoot. rewrite run_gets.
  assert (exists fs1 m d, (match s_temp s with None => openTempRoots E | Some _ => mret tt end) s = Done tt (set_temp (Some fnTempRoots) (set_sfs fs1 s)) /\
    fs_wf fs1 /\ (forall k, k <> gcLock -> k <> fnTempRoots -> fs1 !! k = s_fs s !! k) /\
    match fs1 !! gcLock with None | Some (IReg _ _) => True | _ => False end /\
    fs1 !! fnTempRoots = Some (IReg m d) /\ terminated d /\
    (s_temp s = None /\ d = [] \/ s_temp s = Some fnTempRoots /\ s_fs s !! fnTempRoots = Some (IReg m d)))
    as (fs1 & m & d & E1 & W1 & K1 & L1 & F1 & T1 & C1).
  { destruct (s_temp s) as [q|] eqn:Et.
    - destruct (R7 q eq_refl) as (-> & m & d & Hf & Ht). exists (s_fs s), m, d. split_and!; try done; [|by right].
      unfold mret, M_ret. f_equal. destruct s; cbn in *. by rewrite Et.
    - destruct (openTempRoots_run s Hst Hr) as (fs1 & m & E1 & W1 & K1 & (m' & c & L1) & F1).
      exists fs1, m, []. split_and!; try done; [by rewrite L1|by left|by left]. }
  rewrite (run_bind _ _ _ _ _ E1). unfold modify. cbn [s_temp set_temp s_fs set_sfs].
  exists (alter (append (p ++ [NUL])) fnTempRoots fs1), m, d.
  assert (Hk : forall k, k <> fnTempRoots -> alter (append (p ++ [NUL])) fnTempRoots fs1 !! k = fs1 !! k) by (intros; by rewrite lookup_alter_ne).
  split_and!; [done| | |by rewrite Hk|by rewrite lookup_alter_eq, F1|done|done].
  - apply (changed_wf fs1 _ fnTempRoots tdir (pid E)); [done|done|done| | |by rewrite F1|done].
    + rewrite K1; [done|congruence|]. intros E0; symmetry in E0; by apply child_ne in E0.
    + rewrite Hk, K1; [done|congruence|..]; intros E0; symmetry in E0; by apply child_ne in E0.
  - intros k H1 H2. by rewrite Hk, K1.
Qed.

Lemma roots_ready_kept s s' : roots_ready s ->
  s_temp s' = Some fnTempRoots -> fs_wf (s_fs s') -> (exists m d, s_fs s' !! fnTempRoots = Some (IReg m d) /\ terminated d) ->
  (forall k, under (nixStateDir E) k -> k <> gcLock -> k <> fnTempRoots -> s_fs s' !! k = s_fs s !! k) ->
  match s_fs s' !! gcLock with None | Some (IReg _ _) => True | _ => False end -> roots_ready s'.
Proof.
  intros [R1 R2 R3 R4 R5 R6 R7] Ht Hwf (m & d & Hf & Htm) Hk Hl. destruct (gcLock_ne R1) as (N1 & N2 & N3).
  split; [done|done| | |done|by rewrite Hf|].
  - rewrite Hk; [done|apply under_refl| |done]. intros E0. symmetry in E0. by apply child_ne in E0.
  - rewrite Hk; [done|right; by exists tempRootsDir|congruence|]. intros E0. symmetry in E0. by apply child_ne in E0.
  - intros q Hq. rewrite Ht in Hq. injection Hq as <-. split; [done|]. by exists m, d.
Qed.

(** A store path that a process adds as a temporary root is one: [addTempRoot]
    returns, whether or not the process has a file of temporary roots already, and
    as long as the process is alive [readTempRoots] of the garbage collector finds
    the path and every temporary root of this process from before; besides the file
    itself and the lock of the collector no file changes. *)
Theorem addTempRoot_found s p ownerAlive :
  nixStateDir E <> [] -> roots_ready s -> Forall (fun c => char_eqb c NUL = false) p -> ownerAlive fnTempRoots = true ->
  exists s', addTempRoot E p s = Done tt s' /\ roots_ready s' /\
    temp_root (nixStateDir E) ownerAlive (s_fs s') p /\
    (s_temp s <> None -> forall q, temp_root_in ownerAlive (s_fs s) fnTempRoots q -> temp_root (nixStateDir E) ownerAlive (s_fs s') q) /\
    (forall k, k <> gcLock -> k <> fnTempRoots -> s_fs s' !! k = s_fs s !! k).
Proof.
  intros Hst Hr Hp Ha. destruct (addTempRoot_run s p Hst Hr) as (fs' & m & d & E1 & W & K & L & F & T & C).
  pose proof (nul_strings_snoc d p T Hp) as Hn. pose proof (rr_pid s Hr) as Hpid.
  eexists. split_and!; [exact E1| | | |exact K].
  - apply (roots_ready_kept s); [done|done|done| |intros k _; apply K|done]. exists m, (d ++ p ++ [NUL]). split; [done|].
    right. exists (d ++ p). by rewrite app_assoc.
  - exists (pid E). split; [done|]. exists m, (d ++ p ++ [NUL]). split_and!; [done|done|]. rewrite Hn. apply elem_of_app. right. left.
  - intros Hs q (m' & c & Hf & _ & Hq). destruct C as [[? _]|[_ Hold]]; [done|]. rewrite Hold in Hf. injection Hf as <- <-.
    exists (pid E). split; [done|]. exists m, (d ++ p ++ [NUL]). split_and!; [done|done|]. rewrite Hn. apply elem_of_app. by left.
Qed.
End TempRootTheory.

(** ** Witnesses *)

Definition sample_env : Env :=
  mkEnv ($"/nix/store") ($"/nix/var/nix") ($"/etc/nix") ($"/tmp") ($"/") ($"42") 0 true false 18 1000 false true true LutimesDone
    (fun _ => FallocNone) (fun _ => []) (fun _ _ => 1%Z) (fun _ _ => 8%Z) (fun _ _ => 7%Z).
Definition sample_attr : str -> attr := fun _ => mkAttr 500 1234 493.
Definition sample_state : sstate := mkS sample_db gc_fs sample_attr ∅ None 0 ∅.

Lemma gc_fs_wf : fs_wf gc_fs.
Proof. apply fs_wfb_ok. vm_compute. reflexivity. Qed.

Lemma gc_fs_no_other k i : gc_fs !! k = Some i -> i <> IOther.
Proof.
  intros Hk ->. assert (forallb (fun ki : str * inode => match ki.2 with IOther => false | _ => true end) (map_to_list gc_fs) = true) as H
    by (vm_compute; reflexivity).
  rewrite forallb_forall in H. apply elem_of_map_to_list, list_elem_of_In in Hk. by apply H in Hk.
Qed.

Lemma canonicalisePathMetaData_canonical_witness :
  exists s', canonicalisePathMetaData sample_env path_a (gc_fs, sample_attr) = Done tt s' /\ a_mtime (snd s' path_a) = 1%Z.
Proof.
  destruct (canonicalisePathMetaData_canonical sample_env path_a (gc_fs, sample_attr) eq_refl eq_refl eq_refl gc_fs_wf) as (s' & Er & H & _).
  - discriminate.
  - apply (bool_decide_unpack (gc_fs !! path_a <> None)). vm_compute. exact I.
  - intros k i _ Hk. split; [exact (gc_fs_no_other k i Hk)|left; reflexivity].
  - exists s'. split; [exact Er|].
    destruct (H path_a IDir (under_refl path_a)) as (i' & _ & _ & _ & Hm & _); [|exact Hm].
    apply (bool_decide_unpack (gc_fs !! path_a = Some IDir)). vm_compute. exact I.
Defined.

Lemma sample_ready : roots_ready sample_env sample_state.
Proof.
  split.
  - reflexivity.
  - exact gc_fs_wf.
  - apply (bool_decide_unpack (gc_fs !! ($"/nix/var/nix") = Some IDir)). vm_compute. exact I.
  - apply (bool_decide_unpack (gc_fs !! ($"/nix/var/nix/temproots") = Some IDir)). vm_compute. exact I.
  - vm_compute. exact I.
  - apply (bool_decide_unpack (gc_fs !! ($"/nix/var/nix/temproots/42") <> Some IDir)). vm_compute. exact I.
  - discriminate.
Qed.

Lemma path_a_no_nul : Forall (fun c => char_eqb c NUL = false) path_a.
Proof. apply (bool_decide_unpack (Forall (fun c => char_eqb c NUL = false) path_a)). vm_compute. exact I. Qed.

Lemma addTempRoot_found_witness :
  exists s', addTempRoot sample_env path_a sample_state = Done tt s' /\ temp_root ($"/nix/var/nix") (fun _ => true) (s_fs s') path_a.
Proof.
  destruct (addTempRoot_found sample_env sample_state path_a (fun _ => true) ltac:(discriminate) sample_ready path_a_no_nul eq_refl)
    as (s' & Er & _ & H & _).
  exists s'. split; [exact Er|exact H].
Defined.
