(* ===== verification/Optimise.v ===== *)
(** * Deduplication of the store (src/src/libstore/optimise-store.cc)

    [optimisePath_] replaces every file of a path by a hard link to a file with the
    same archive hash in the links directory, where the first such file is linked.
    A hard link is a second name for the same inode; store files are not written to
    any more, so in the model the second name has an equal inode, and the identity
    of inodes ([st_ino]) and the limit on links are choices of the system.

    The theorem: if the files of the links directory are named after their hashes
    and the hash does not collide on the files there are, optimising changes neither
    the contents, nor the executable bit or target, of any object outside of the
    links directory, however it ends. *)

From Stdlib Require Import ZArith Lia Ascii Relations.
From stdpp Require Import base strings sorting numbers gmap sets list.
From S2P Require Import Prelude Effects Util Serialise Hash FileSystem FileOps Archive References StorePath Derivations Closure LocalStore GCRoots GC PathLocks StoreFiles.

Record OptimiseStats : Type := mkOptimiseStats {
  totalFiles : Z; sameContents : Z; filesLinked : Z; st_bytesFreed : Z; st_blocksFreed : Z }.
Definition OptimiseStats_default : OptimiseStats := mkOptimiseStats 0 0 0 0 0.

(** [link(a, b)] *)
Definition sys_link (fs : FileSys) (a b : str) : option FileSys :=
  match fs !! a with
  | None | Some IDir => None
  | Some i => if can_create fs b then Some (<[b := i]> fs) else None
  end.

Section Optimise.
Context (E : Env) `{HA : HashAlgo}.
(** [CAN_LINK_SYMLINK]; whether [link] or [rename] fails with [EMLINK]; [rand]. *)
Context (can_link_symlink : bool) (emlink_link emlink_rename : FileSys -> str -> bool) (rand : FileSys -> Z).
Abbreviation ostate := (FileSys * (str -> attr) * OptimiseStats)%type.
Abbreviation linksDir := (child (nixStore E) ($".links")).

Definition on_files {A} (m : M (FileSys * (str -> attr)) A) : M ostate A := zoom fst (fun f s => (f, snd s)) m.
Definition count (f : OptimiseStats -> OptimiseStats) : M ostate unit := modify (fun s => (fst s, f (snd s))).

(** [makeWritable]; [chmod] follows a link, and [makeMutable] changes nothing here. *)
Definition makeWritable (path : str) : M ostate unit :=
  st ← lift (fun s => lstat (fst (fst s)) path);
  match st with
  | IDir => modify (fun s => (set_perm (Z.lor (a_dmode (snd (fst s) path)) S_IWUSR) path (fst s), snd s))
  | _ => update (fun s => match sys_chmod (cwd E) maxLinks (fst (fst s)) path (Z.lor (st_perm st (snd (fst s) path)) S_IWUSR) with
                          | Some fs => Ok (fs, snd (fst s), snd s)
                          | None => throw eSysError ($"changing writability of `" ++ path ++ $"'")
                          end)
  end.

(** The destructor of [MakeReadOnly], which ignores exceptions. *)
Definition make_read_only (path : str) (s : ostate) : ostate :=
  if str_eqb path [] then s
  else match on_files (canonicalisePathMetaData_in E 1 path false) s with
       | Done _ s => s
       | Raised _ s => s
       | Stuck => s
       end.
Definition finally_read_only (path : str) (m : M ostate unit) : M ostate unit := fun s =>
  match m s with
  | Done u s => Done u (make_read_only path s)
  | Raised e s => Raised e (make_read_only path s)
  | Stuck => Stuck
  end.

Definition file_size (i : inode) : Z :=
  match i with IReg _ d => Z.of_nat (length d) | ILnk t => Z.of_nat (length t) | _ => 0 end.

(** Replacing [path] by a link to [linkPath]. *)
Definition replace_by_link (path linkPath : str) (st : inode) : M ostate unit :=
  fs ← gets (fun s => fst (fst s));
  let tempLink := nixStore E ++ $"/.tmp-link-" ++ pid E ++ "-"%char :: int2String (rand fs) in
  if emlink_link fs linkPath then mret tt
  else
    match sys_link fs linkPath tempLink with
    | None => raise eSysError ($"cannot link `" ++ tempLink ++ $"' to `" ++ linkPath ++ $"'")
    | Some fs1 =>
        let unlink := modify (fun s : ostate => (sys_unlink fs1 tempLink, snd (fst s), snd s)) in
        if emlink_rename fs1 path then unlink
        else
          match sys_rename fs1 tempLink path with
          | None => _ ← unlink; raise eSysError ($"cannot rename `" ++ tempLink ++ $"' to `" ++ path ++ $"'")
          | Some fs2 =>
              _ ← modify (fun s => (fs2, snd (fst s), snd s));
              count (fun o => mkOptimiseStats (totalFiles o) (sameContents o) (u64 (filesLinked o + 1))
                                (u64 (st_bytesFreed o + file_size st)) (u64 (st_blocksFreed o + st_blocks E fs path)))
          end
    end.

(** A file, after the tests of its type: hash it, and link it. *)
Definition optimise_file (path : str) (st : inode) : M ostate unit :=
  fs ← gets (fun s => fst (fst s));
  '(hash, _) ← lift (fun s => hashPath htSHA256 (fst (fst s)) (sched E) (fun _ => true) (S (size (fst (fst s)))) path);
  _ ← count (fun o => mkOptimiseStats (u64 (totalFiles o + 1)) (sameContents o) (filesLinked o) (st_bytesFreed o) (st_blocksFreed o));
  name ← lift (fun _ => printHash32 hash);
  let linkPath := child linksDir name in
  if negb (pathExists fs linkPath) then
    match sys_link fs path linkPath with
    | Some fs => modify (fun s => (fs, snd (fst s), snd s))
    | None => raise eSysError ($"cannot link `" ++ linkPath ++ $"' to `" ++ path ++ $"'")
    end
  else
    _ ← count (fun o => mkOptimiseStats (totalFiles o) (u64 (sameContents o + 1)) (filesLinked o) (st_bytesFreed o) (st_blocksFreed o));
    if (st_ino E fs path =? st_ino E fs linkPath)%Z then mret tt
    else
      let mustToggle := negb (isStorePath (nixStore E) path) in
      dir ← lift (fun _ => dirOf path);
      _ ← (if mustToggle then makeWritable dir else mret tt);
      finally_read_only (if mustToggle then dir else []) (replace_by_link path linkPath st).

(** Which objects are linked: regular files that are not writable, and links if
    the system can link them. *)
Definition linkable (st : inode) : bool :=
  match st with
  | IReg m _ => (Z.land m S_IWUSR =? 0)%Z
  | ILnk _ => can_link_symlink
  | _ => false
  end.

Fixpoint optimisePath_ (fuel : nat) (path : str) : M ostate unit :=
  match fuel with
  | O => stuck
  | S fuel =>
      st ← lift (fun s => lstat (fst (fst s)) path);
      if is_dir st then
        names ← lift (fun s => readDirectory (fst (fst s)) path);
        forM (fun i => optimisePath_ fuel (child path i)) names
      else if linkable st then optimise_file path st
      else mret tt
  end.

(** [optimisePath] and [optimiseStore], on the state of a process. *)
Definition run_optimise (path : str) (stats : OptimiseStats) : M sstate OptimiseStats := fun s =>
  match optimisePath_ (S (size (s_fs s))) path (s_fs s, s_attr s, stats) with
  | Done _ (f, stats) => Done stats (set_fattr f s)
  | Raised e (f, _) => Raised e (set_fattr f s)
  | Stuck => Stuck
  end.
Definition optimisePath (path : str) : M sstate unit :=
  if autoOptimiseStore E then _ ← run_optimise path OptimiseStats_default; mret tt else mret tt.

Fixpoint optimise_loop (paths : list str) (stats : OptimiseStats) : M sstate OptimiseStats :=
  match paths with
  | [] => mret stats
  | i :: paths =>
      _ ← addTempRoot E i;
      v ← lift (fun s => ls_isValidPath (s_ls s) i);
      if negb v then optimise_loop paths stats
      else stats ← run_optimise i stats; optimise_loop paths stats
  end.
Definition optimiseStore (stats : OptimiseStats) : M sstate OptimiseStats :=
  paths ← gets (fun s => queryAllValidPaths (s_ls s));
  optimise_loop (set_iter paths) stats.
End Optimise.

(** * Optimising preserves contents *)

Section OptimiseTheory.
Context (E : Env) `{HA : HashAlgo} {HL : HashAlgoLaws}.
Context (can_link_symlink : bool) (emlink_link emlink_rename : FileSys -> str -> bool) (rand : FileSys -> Z).
Abbreviation ostate := (FileSys * (str -> attr) * OptimiseStats)%type.
Abbreviation linksDir := (child (nixStore E) ($".links")).

(** The tree of a file or link, and the name it has in the links directory. *)
Definition leaf_node (i : inode) : option node :=
  match i with
  | IReg m d => Some (NReg (negb (Z.land m S_IXUSR =? 0)%Z) d)
  | ILnk t => Some (NLnk t)
  | _ => None
  end.
Definition link_name (t : node) : result str := printHash32 (hash_of_bytes htSHA256 32 (enc_archive t)).

Context (fs0 : FileSys).

(** The files within the limits of the format; the name tells the contents. *)
Definition files_bounded : Prop := forall k i t, fs0 !! k = Some i -> leaf_node i = Some t -> node_bounded t.
Definition names_tell : Prop := forall k1 k2 i1 i2 t1 t2,
  fs0 !! k1 = Some i1 -> fs0 !! k2 = Some i2 -> leaf_node i1 = Some t1 -> leaf_node i2 = Some t2 ->
  link_name t1 = link_name t2 -> t1 = t2.

Record opt_inv (fs : FileSys) : Prop := {
  oi_wf : fs_wf fs;
  oi_same : forall k, ~ under linksDir k -> shown <$> fs !! k = shown <$> fs0 !! k;
  oi_from : forall k i t, fs !! k = Some i -> leaf_node i = Some t -> exists k0 i0, fs0 !! k0 = Some i0 /\ leaf_node i0 = Some t;
  oi_links : forall n i, fs !! child linksDir n = Some i -> exists t, leaf_node i = Some t /\ link_name t = Ok n }.

Lemma leaf_shown i j t : leaf_node i = Some t -> leaf_node j = Some t -> shown i = shown j.
Proof.
  destruct i as [m d| |tg|], j as [m' d'| |tg'|]; cbn; intros Hi Hj; try congruence.
  rewrite <- Hj in Hi. injection Hi as Hx ->. destruct (Z.land m S_IXUSR =? 0)%Z, (Z.land m' S_IXUSR =? 0)%Z; done.
Qed.

Lemma linkable_leaf b i : linkable b i = true -> exists t, leaf_node i = Some t.
Proof. destruct i; cbn; try discriminate; by eexists. Qed.

Lemma leaf_not_dir i t : leaf_node i = Some t -> i <> IDir.
Proof. by destruct i. Qed.

Lemma link_name_ok t : exists n, link_name t = Ok n /\ name_ok n = true.
Proof.
  unfold link_name. destruct (printHash32_value (hash_of_bytes htSHA256 32 (enc_archive t))) as (n & En & Hl & Hv & _).
  - by apply hash_of_bytes_ok.
  - cbn. lia.
  - exists n. split; [done|]. apply name_ok_spec. rewrite be32_valid_isBase32, forallb_Forall in Hv. split.
    + intros ->. rewrite (hashLength32_size _ (mkHash 32 [] htUnknown)) in Hl by done. vm_compute in Hl. done.
    + eapply Forall_impl; [exact Hv|]. intros c Hc. by apply isBase32_plain.
Qed.

(** An object below the links directory is directly in it, or it is the directory. *)
Lemma insert_link fs n i t :
  opt_inv fs -> fs !! linksDir = Some IDir -> fs !! child linksDir n = None -> name_ok n = true ->
  leaf_node i = Some t -> link_name t = Ok n -> (exists k, fs !! k = Some i) -> opt_inv (<[child linksDir n := i]> fs).
Proof.
  intros [W S F L] Hd Hnone Hn Hi Ht [k0 Hk0]. split.
  - apply (changed_wf fs _ (child linksDir n) linksDir n); try done.
    + rewrite lookup_insert_ne; [done|]. apply child_ne.
    + by rewrite Hnone.
    + intros k Hk. by rewrite lookup_insert_ne.
  - intros k Hk. rewrite lookup_insert_ne; [by apply S|]. intros <-. apply Hk, under_child.
  - intros k j t' [[<- <-]|[_ Hj]]%lookup_insert_Some Ht'; [by apply (F k0 i t')|by apply (F k j t')].
  - intros m j [[Em <-]|[_ Hj]]%lookup_insert_Some; [|by apply L].
    unfold child in Em. apply app_inv_head in Em. injection Em as <-. by exists t.
Qed.

(** Replacing a file by one with the same tree. *)
Lemma insert_same fs p i j t :
  opt_inv fs -> ~ under linksDir p -> fs !! p = Some i -> leaf_node i = Some t -> leaf_node j = Some t ->
  (exists k, fs !! k = Some j) -> opt_inv (<[p := j]> fs).
Proof.
  intros [W S F L] Hp Hpi Hi Hj [k0 Hk0]. split.
  - destruct (W p) as (d & n & -> & Hn & Hd); [congruence|]. intros k Hk. destruct (decide (k = child d n)) as [-> |Hne].
    + exists d, n. split_and!; [done|done|]. destruct Hd as [-> |Hd]; [by left|right]. rewrite lookup_insert_ne; [done|]. apply child_ne.
    + rewrite lookup_insert_ne in Hk by done. destruct (W k Hk) as (d2 & n2 & -> & Hn2 & Hd2). exists d2, n2. split_and!; [done|done|].
      destruct Hd2 as [-> |Hd2]; [by left|right]. rewrite lookup_insert_ne; [done|]. intros <-. rewrite Hpi in Hd2.
      by apply (leaf_not_dir i t Hi); injection Hd2.
  - intros k Hk. destruct (decide (p = k)) as [<- |Hne]; [|rewrite lookup_insert_ne by done; by apply S].
    rewrite lookup_insert_eq, <- S, Hpi by done. cbn. f_equal. by apply (leaf_shown j i t).
  - intros k j' t' [[<- <-]|[_ Hj']]%lookup_insert_Some Ht'; [by apply (F k0 j t')|by apply (F k j' t')].
  - intros n j' [[Ep _]|[_ Hj']]%lookup_insert_Some; [|by apply L]. destruct Hp. rewrite Ep. apply under_child.
Qed.

(** However the code ends, the files are as they should be. *)
Definition keeps {A} (o : outcome ostate A) : Prop :=
  match o with Done _ s | Raised _ s => opt_inv (fst (fst s)) | Stuck => True end.

Lemma temp_link_nonnil n : nixStore E ++ $"/.tmp-link-" ++ n <> [].
Proof. intros [_ [E0 _]%app_eq_nil]%app_eq_nil. discriminate E0. Qed.

Lemma replace_by_link_keeps s path n i j t :
  opt_inv (fst (fst s)) -> path <> [] -> ~ under linksDir path -> fst (fst s) !! path = Some i -> leaf_node i = Some t ->
  fst (fst s) !! child linksDir n = Some j -> leaf_node j = Some t ->
  keeps (replace_by_link E emlink_link emlink_rename rand path (child linksDir n) i s).
Proof.
  intros HI Hpn Hpath Hi Hit Hj Hjt. unfold replace_by_link. rewrite run_gets. set (fs := fst (fst s)) in *. cbv zeta.
  set (tmp := nixStore E ++ _). destruct (emlink_link fs _); [exact HI|].
  destruct (sys_link fs (child linksDir n) tmp) as [fs1|] eqn:El; [|exact HI].
  assert (fs !! tmp = None /\ fs1 = <[tmp := j]> fs) as [Hnone ->].
  { unfold sys_link in El. rewrite Hj in El. destruct j as [m d| |tg|]; try done; (destruct (can_create fs tmp) eqn:Ec; [|done]);
      injection El as <-; unfold can_create in Ec; apply andb_true_iff in Ec as [Ec _]; by apply bool_decide_eq_true in Ec. }
  assert (sys_unlink (<[tmp := j]> fs) tmp = fs) as Hun.
  { unfold sys_unlink. rewrite lookup_insert_eq. destruct j; try done; by rewrite delete_insert_id. }
  destruct (emlink_rename _ path); [unfold modify, keeps; cbn [fst snd]; by rewrite Hun|].
  destruct (sys_rename (<[tmp := j]> fs) tmp path) as [fs2|] eqn:Er.
  - rewrite run_modify. unfold count, modify, keeps. cbn [fst snd].
    rewrite (rename_over fs tmp path j fs2 (oi_wf fs HI) Hnone (temp_link_nonnil _) Hpn ltac:(rewrite Hi; intros [= Hx]; by apply (leaf_not_dir _ _ Hit)) ltac:(congruence) Er).
    apply (insert_same fs path i j t); try done. by exists (child linksDir n).
  - rewrite run_modify. unfold raise, keeps. cbn [fst snd]. by rewrite Hun.
Qed.

(** Canonicalising a directory that is not entered changes only its attributes. *)
Lemma canon_dir_only fs at0 path :
  fs !! path = Some IDir ->
  match canonicalisePathMetaData_in E 1 path false (fs, at0) with Done _ s | Raised _ s => fst s = fs | Stuck => True end.
Proof.
  intros Hd. cbn [canonicalisePathMetaData_in]. unfold lstat. rewrite (run_lift _ _ _ IDir) by (cbn; by rewrite Hd). rewrite run_gets.
  rewrite (run_lift _ _ _ tt) by done. unfold fix_all, fix_owner. unfold mbind, M_bind, gets. cbn [fst snd].
  assert (Hrest : forall at1, match (_ ← (_ ← fix_mode path IDir (at0 path); fix_mtime E path IDir (at0 path)); mret tt) (fs, at1) with
    Done _ s | Raised _ s => fst s = fs | Stuck => True end).
  { intros at1. unfold fix_mode, mbind, M_bind. cbn [is_lnk st_perm].
    assert (forall at2, match fix_mtime E path IDir (at0 path) (fs, at2) with Done _ s | Raised _ s => fst s = fs | Stuck => True end) as Hm.
    { intros at2. unfold fix_mtime. destruct (_ =? _)%Z; [done|]. destruct (have_lutimes E); [destruct (lutimes E)|]; done. }
    destruct (_ && _).
    - unfold modify, set_perm. cbn [fst snd]. rewrite Hd. specialize (Hm (set_attr path (fun a => mkAttr (a_uid a) (a_mtime a) (canon_mode (a_dmode (at0 path)))) at1)).
      destruct (fix_mtime _ _ _ _ _); done.
    - unfold mret, M_ret. specialize (Hm at1). destruct (fix_mtime _ _ _ _ _); done. }
  destruct (_ =? _)%Z; [exact (Hrest at0)|]. cbn [is_lnk]. rewrite andb_false_r.
  destruct (privileged E); [|done]. unfold modify. cbn [fst snd].
  exact (Hrest (set_attr path (fun a => mkAttr (euid E) (a_mtime a) (a_dmode a)) at0)).
Qed.

Lemma make_read_only_fs path s : fst (fst s) !! path = Some IDir \/ path = [] -> fst (fst (make_read_only E path s)) = fst (fst s).
Proof.
  intros Hd. unfold make_read_only. destruct (str_eqb path []) eqn:Ep; [done|]. reflect. destruct Hd as [Hd|?]; [|done].
  destruct s as [[fs at0] o]. cbn [fst] in Hd. pose proof (canon_dir_only fs at0 path Hd) as H. unfold on_files, zoom. cbn [fst snd].
  destruct (canonicalisePathMetaData_in E 1 path false (fs, at0)); done.
Qed.

Lemma dirOf_child d n : name_ok n = true -> d <> [] -> dirOf (child d n) = Ok d.
Proof.
  intros [_ Hn]%name_ok_spec Hd. unfold dirOf, child. rewrite str_rfind_app by done. destruct d as [|c d]; [done|].
  change (length (c :: d) =? 0)%nat with false. cbv iota. by rewrite take_app_length.
Qed.

Context (Hsched : forall p, sched_ok (sched E p)) (Hbounded : files_bounded) (Htell : names_tell).

Lemma count_run (f : OptimiseStats -> OptimiseStats) {B} (k : unit -> M ostate B) s : (count f ≫= k) s = k tt (fst s, f (snd s)).
Proof. done. Qed.

Lemma leaf_tree fs path i t fuel : fs !! path = Some i -> leaf_node i = Some t -> tree_of fs (fun _ => true) (S fuel) path = Some t.
Proof. intros Hi Ht. cbn [tree_of]. rewrite Hi. destruct i; try done. Qed.

(** The directory of a file outside of the links directory. *)
Lemma toggled_keeps (d : str) (n : bool) (s : ostate) (m : M ostate unit) :
  opt_inv (fst (fst s)) -> ~ under linksDir d -> fst (fst s) !! d = Some IDir ->
  (forall s', fst (fst s') = fst (fst s) -> keeps (m s')) ->
  keeps ((_ ← (if (n : bool) then makeWritable E d else mret tt); finally_read_only E (if n then d else []) m) s).
Proof.
  intros HI Hnl Hd Hm.
  assert (Hfin : forall s', fst (fst s') = fst (fst s) -> keeps (finally_read_only E (if n then d else []) m s')).
  { intros s' Hs'. unfold finally_read_only. specialize (Hm s' Hs'). unfold keeps in *.
    assert (Hro : forall s1, opt_inv (fst (fst s1)) -> opt_inv (fst (fst (make_read_only E (if n then d else []) s1)))).
    { intros s1 H1. rewrite make_read_only_fs; [done|]. destruct n; [left|by right].
      pose proof (oi_same _ H1 d Hnl) as E1. rewrite <- (oi_same _ HI d Hnl), Hd in E1. apply fmap_Some in E1 as (x & Hx & E1).
      symmetry in E1. apply shown_dir in E1 as ->. done. }
    destruct (m s') as [u s1|e s1|]; [by apply Hro|by apply Hro|done]. }
  destruct n; [|rewrite run_ret; by apply Hfin].
  erewrite run_bind; [apply (Hfin (set_perm (Z.lor (a_dmode (snd (fst s) d)) S_IWUSR) d (fst s), snd s))|].
  - unfold set_perm. cbn [fst]. by rewrite Hd.
  - unfold makeWritable. rewrite (run_lift _ _ _ IDir); [done|]. unfold lstat. by rewrite Hd.
Qed.

Lemma optimise_file_keeps (s : ostate) (d n : str) (i : inode) (t : node) :
  opt_inv (fst (fst s)) -> name_ok n = true -> d <> [] -> ~ under linksDir (child d n) ->
  fst (fst s) !! child d n = Some i -> leaf_node i = Some t ->
  keeps (optimise_file E emlink_link emlink_rename rand (child d n) i s).
Proof.
  intros HI Hn Hdn Hnl Hi Ht. unfold optimise_file. rewrite run_gets. set (fs := fst (fst s)) in *.
  destruct (oi_from fs HI _ _ _ Hi Ht) as (k0 & i0 & Hk0 & Ht0). pose proof (Hbounded k0 i0 t Hk0 Ht0) as Hb.
  assert (hashPath htSHA256 fs (sched E) (fun _ => true) (S (size fs)) (child d n) =
    Ok (hash_of_bytes htSHA256 32 (enc_archive t), u64 (Z.of_nat (length (enc_archive t))))) as Eh.
  { apply hashPath_run; [done|done| |done]. by apply (leaf_tree fs _ i). }
  erewrite run_lift by exact Eh. cbv beta iota. rewrite count_run. destruct (link_name_ok t) as (ln & El & Hln).
  rewrite (run_lift _ _ _ ln) by exact El. cbv zeta. unfold pathExists. case_bool_decide as Hex; cbn [negb].
  2:{ destruct (sys_link fs (child d n) (child linksDir ln)) as [fs'|] eqn:Es; [|exact HI].
      unfold sys_link in Es. rewrite Hi in Es. assert (can_create fs (child linksDir ln) = true /\ fs' = <[child linksDir ln := i]> fs) as [Hc ->].
      { destruct i; [|discriminate Es|..]; (destruct (can_create _ _); [|discriminate Es]); injection Es as <-; split; reflexivity. }
      unfold can_create in Hc. apply andb_true_iff in Hc as [_ Hc]. rewrite parent_ok_child in Hc by (done || apply child_nonnil).
      apply bool_decide_eq_true in Hc. unfold modify, keeps. cbn [fst]. apply (insert_link fs ln i t HI Hc); [|done|done|done|by exists (child d n)].
      destruct (fs !! child linksDir ln); [by destruct Hex|done]. }
  rewrite count_run. destruct (_ =? _)%Z; [exact HI|]. rewrite (run_lift _ _ _ d) by (by apply dirOf_child).
  destruct (fs !! child linksDir ln) as [j|] eqn:Ej; [|done]. destruct (oi_links fs HI ln j Ej) as (t' & Ht' & El').
  assert (t' = t) as ->.
  { destruct (oi_from fs HI _ _ _ Ej Ht') as (k1 & i1 & Hk1 & Ht1). apply (Htell k1 k0 i1 i0 t' t Hk1 Hk0 Ht1 Ht0). congruence. }
  apply toggled_keeps; [exact HI| | |].
  - intros Hu. apply Hnl. eapply under_trans; [done|apply under_child].
  - cbn [fst]. fold fs. destruct (oi_wf fs HI (child d n)) as (d' & n' & E0 & Hn' & Hd'); [congruence|]. apply child_inj in E0 as [<- <-]; [|done..].
    by destruct Hd'.
  - intros s' Hs'. cbn [fst] in Hs'. apply (replace_by_link_keeps s' _ ln i j t); rewrite ?Hs'; try done. apply child_nonnil.
Qed.

Lemma keeps_forM {A} (f : A -> M ostate unit) l : forall s,
  opt_inv (fst (fst s)) -> (forall a s, a ∈ l -> opt_inv (fst (fst s)) -> keeps (f a s)) -> keeps (forM f l s).
Proof.
  induction l as [|a l IH]; intros s Hs Hf; cbn [forM]; [done|]. unfold mbind, M_bind.
  pose proof (Hf a s ltac:(left) Hs) as Ha. destruct (f a s) as [u s1|e s1|]; [|done..].
  apply IH; [done|]. intros b s2 Hb. apply Hf. by right.
Qed.

Lemma optimisePath_keeps fuel : forall (d n : str) (s : ostate),
  opt_inv (fst (fst s)) -> name_ok n = true -> d <> [] -> ~ under linksDir (child d n) -> ~ under (child d n) linksDir ->
  keeps (optimisePath_ E can_link_symlink emlink_link emlink_rename rand fuel (child d n) s).
Proof.
  induction fuel as [|fuel IH]; intros d n s HI Hn Hd Hnl Hnl'; [done|]. cbn [optimisePath_].
  unfold mbind at 1, M_bind at 1, lift at 1, lstat. destruct (fst (fst s) !! child d n) as [i|] eqn:Ei; [|exact HI].
  destruct (is_dir i) eqn:Ed.
  - unfold mbind, M_bind, lift. destruct (readDirectory (fst (fst s)) (child d n)) as [names|e|] eqn:En; [|exact HI|done].
    destruct (readDirectory_spec _ _ _ En) as (_ & _ & Hnames). apply keeps_forM; [done|].
    intros m s1 [Hm _]%Hnames H1. apply IH; [done|done|apply child_nonnil| |].
    + intros Hu. destruct (under_child_split _ _ _ Hm Hu) as [Eu|Hu']; [|done]. apply Hnl'. rewrite <- Eu. apply under_child.
    + intros Hu. apply Hnl'. eapply under_trans; [apply under_child|done].
  - destruct (linkable can_link_symlink i) eqn:El; [|exact HI].
    destruct (linkable_leaf _ i El) as [t Et]. exact (optimise_file_keeps s d n i t HI Hn Hd Hnl Ei Et).
Qed.

(** The files to begin with. *)
Definition links_named : Prop := forall n i, fs0 !! child linksDir n = Some i -> exists t, leaf_node i = Some t /\ link_name t = Ok n.

Lemma opt_inv_start : fs_wf fs0 -> links_named -> opt_inv fs0.
Proof. intros Hwf Hl. split; [done|done| |done]. intros k i t Hi Ht. by exists k, i. Qed.
End OptimiseTheory.

(** C32: deduplication preserves the store: if the files in the links directory are
    named after their hashes, and the hash tells the files of the system apart, then
    optimising a store path, however it ends (a link that fails, too many links, a
    file that cannot be replaced), leaves every object outside of the links directory
    with the contents, executable bit or link target it had, and the files in the
    links directory named after their hashes. *)
Theorem optimisePath_preserves E `{HA : HashAlgo} {HL : HashAlgoLaws} can_link_symlink emlink_link emlink_rename rand fuel n fs at0 stats :
  fs_wf fs -> links_named E fs -> (forall p, sched_ok (sched E p)) -> files_bounded fs -> names_tell fs ->
  nixStore E <> [] -> name_ok n = true -> n <> $".links" ->
  match optimisePath_ E can_link_symlink emlink_link emlink_rename rand fuel (child (nixStore E) n) (fs, at0, stats) with
  | Done _ s | Raised _ s => fs_wf (fst (fst s)) /\ links_named E (fst (fst s)) /\
      forall k, ~ under (child (nixStore E) ($".links")) k -> shown <$> fst (fst s) !! k = shown <$> fs !! k
  | Stuck => True
  end.
Proof.
  intros Hwf Hl Hs Hb Ht Hst Hn Hne.
  pose proof (optimisePath_keeps E can_link_symlink emlink_link emlink_rename rand fs Hs Hb Ht fuel (nixStore E) n (fs, at0, stats)
    (opt_inv_start E fs Hwf Hl) Hn Hst) as H.
  assert (H1 : ~ under (child (nixStore E) ($".links")) (child (nixStore E) n))
    by (intros Hu; apply Hne; symmetry; by apply (under_child_inj (nixStore E) _ n (child (nixStore E) n)); [..|apply under_refl]).
  assert (H2 : ~ under (child (nixStore E) n) (child (nixStore E) ($".links")))
    by (intros Hu; apply Hne; by apply (under_child_inj (nixStore E) n _ (child (nixStore E) ($".links"))); [..|apply under_refl]).
  specialize (H H1 H2). destruct (optimisePath_ _ _ _ _ _ _ _ _) as [u s|e s|]; [destruct H as [W S F L]..|done]; done.
Qed.

(** ** Witness *)

Definition twin_a : str := $"/nix/store/abc-a".
Definition twin_fs : FileSys :=
  list_to_map [($"/nix", IDir); ($"/nix/store", IDir); ($"/nix/store/.links", IDir);
    (twin_a, IDir); (child twin_a ($"x"), IReg 292 ($"data")); (child twin_a ($"y"), IReg 292 ($"data"))].
Definition ino_by_path (fs : FileSys) (p : str) : Z := Z.of_nat (length p).
Definition twin_env : Env :=
  mkEnv ($"/nix/store") ($"/nix/var/nix") ($"/etc/nix") ($"/tmp") ($"/") ($"42") 0 true false 18 1000 true true true LutimesDone
    (fun _ => FallocNone) (fun _ => []) (fun _ _ => 1%Z) (fun _ _ => 8%Z) ino_by_path.
Definition twin_run : outcome (FileSys * (str -> attr) * OptimiseStats) unit :=
  optimisePath_ twin_env (HA := checksum_algo) false (fun _ _ => false) (fun _ _ => false) (fun _ => 0%Z) 3 (child (nixStore twin_env) ($"abc-a"))
    (twin_fs, sample_attr, OptimiseStats_default).

(** The second of two equal files is replaced by a link to the first. *)
Example twin_run_links :
  match twin_run with
  | Done _ s => (totalFiles (snd s) =? 2)%Z && (filesLinked (snd s) =? 1)%Z && (size (fst (fst s)) =? 7)%nat
  | _ => false
  end = true.
Proof. vm_compute. reflexivity. Qed.

Lemma twin_leaf k i t : twin_fs !! k = Some i -> leaf_node i = Some t -> t = NReg false ($"data") /\ ~ under ($"/nix/store/.links/") k.
Proof.
  intros Hk Ht. assert (forallb (fun ki : str * inode => match leaf_node ki.2 with
    | Some (NReg false d) => bool_decide (d = $"data") && negb (underb ($"/nix/store/.links/") ki.1) | None => true | _ => false end) (map_to_list twin_fs) = true) as H
    by (vm_compute; reflexivity).
  rewrite forallb_forall in H. apply elem_of_map_to_list, list_elem_of_In in Hk. apply H in Hk. cbn [snd fst] in Hk. rewrite Ht in Hk.
  destruct t as [[] d| |]; [discriminate Hk| |discriminate Hk..]. apply andb_true_iff in Hk as [Hd Hu].
  apply bool_decide_eq_true in Hd as ->. split; [reflexivity|]. rewrite <- underb_under. apply negb_true_iff in Hu. by rewrite Hu.
Qed.

Lemma twin_links : links_named (HA := checksum_algo) twin_env twin_fs.
Proof.
  intros n i Hi. exfalso. revert Hi.
  assert (forallb (fun ki : str * inode => negb (underb ($"/nix/store/.links") ki.1) || str_eqb ki.1 ($"/nix/store/.links")) (map_to_list twin_fs) = true) as H
    by (vm_compute; reflexivity).
  rewrite forallb_forall in H. intros Hi%elem_of_map_to_list%list_elem_of_In%H. cbn [fst] in Hi.
  apply orb_true_iff in Hi as [Hi|Hi].
  - apply negb_true_iff in Hi. assert (underb ($"/nix/store/.links") (child ($"/nix/store/.links") n) = true) as Hu by (apply underb_under, under_child).
    cbn [nixStore twin_env] in Hi. change (child ($"/nix/store") ($".links")) with ($"/nix/store/.links") in Hi. congruence.
  - apply bool_decide_eq_true in Hi. by apply (child_ne ($"/nix/store/.links") n).
Qed.

Lemma optimisePath_preserves_witness :
  match twin_run with
  | Done _ s | Raised _ s => shown <$> fst (fst s) !! child twin_a ($"y") = Some (IReg 0 ($"data"))
  | Stuck => True
  end.
Proof.
  pose proof (optimisePath_preserves twin_env (HA := checksum_algo) (HL := checksum_laws) false (fun _ _ => false) (fun _ _ => false) (fun _ => 0%Z) 3
    ($"abc-a") twin_fs sample_attr OptimiseStats_default) as H.
  fold twin_run in H. assert (shown <$> twin_fs !! child twin_a ($"y") = Some (IReg 0 ($"data"))) as E by (vm_compute; reflexivity).
  assert (~ under (child (nixStore twin_env) ($".links")) (child twin_a ($"y"))) as Hu.
  { apply (bool_decide_unpack (~ under (child (nixStore twin_env) ($".links")) (child twin_a ($"y")))). vm_compute. exact I. }
  destruct twin_run as [u s|e s|]; [destruct H as (_ & _ & H)..|exact I]; try (rewrite <- E; exact (H _ Hu)).
  all: try exact twin_links.
  all: try (intros p; apply sched_ok_nil).
  all: try (apply fs_wfb_ok; vm_compute; reflexivity).
  all: try (intros k i t Hi Ht; destruct (twin_leaf k i t Hi Ht) as [-> _]; vm_compute; reflexivity).
  all: try (intros k1 k2 i1 i2 t1 t2 H1 H2 L1 L2 _; destruct (twin_leaf k1 i1 t1 H1 L1) as [-> _], (twin_leaf k2 i2 t2 H2 L2) as [-> _]; reflexivity).
  all: try discriminate; try reflexivity.
Defined.
