(* ===== verification/AddToStore.v ===== *)
(** * Adding objects to the store (src/src/libstore/local-store.cc)

    [addToStoreFromDump], [addToStore] and [addTextToStore]: compute the store path
    from the contents, make it a temporary root, lock it, write the object, give it
    canonical metadata, hash it and register it.  One process; an object that
    another process adds meanwhile is not seen.

    The theorem: adding a dump returns the store path of its contents, which is then
    valid and has exactly the contents of the dump; the set of valid paths grows by
    that path only; and the invariant of the store, that the objects of the valid
    paths are the ones whose hashes are registered, is kept. *)

From Stdlib Require Import ZArith Lia Ascii Relations.
From stdpp Require Import base strings sorting numbers gmap sets list.
From S2P Require Import Prelude Effects Util Serialise Hash FileSystem FileOps Archive References StorePath Derivations Closure LocalStore GCRoots GC PathLocks StoreFiles Optimise.

Section AddToStore.
Context (E : Env) `{HA : HashAlgo}.
(** What [optimisePath] depends on, and what a restore that throws has created. *)
Context (can_link_symlink : bool) (emlink_link emlink_rename : FileSys -> str -> bool) (rand : FileSys -> Z).
Context (partial : FileSys -> str -> FileSys).

Definition isValid (p : str) : M sstate bool := lift (fun s => ls_isValidPath (s_ls s) p).

(** [if (pathExists(dstPath)) deletePathWrapped(dstPath)] *)
Definition clear_path (p : str) : M sstate unit :=
  e ← gets (fun s => pathExists (s_fs s) p);
  if (e : bool) then on_del (deletePathWrapped (st_nlink E) (st_blocks E) (useHelper E) p) else mret tt.

(** [restorePath] from a string; the fuel is more than the archive has fields. *)
Definition restore_dump (p dump : str) : M FileSys unit := fun fs =>
  match restorePath (umask E) (posix_fallocate E) (S (length dump)) fs p (mkStringSource dump 0) with
  | Ok (fs, _) => Done tt fs
  | Throw e => Raised e (partial fs p)
  | NoFuel => Stuck
  end.

Definition hash_path (ht : HashType) (p : str) : M sstate (Hash * Z) :=
  lift (fun s => hashPath ht (s_fs s) (sched E) (fun _ => true) (S (size (s_fs s))) p).

(** [registerValidPath], which reads derivations from the store. *)
Definition register (info : ValidPathInfo) : M sstate unit :=
  update (fun s =>
    ls ← registerValidPath (nixStore E) (readFile E (s_fs s)) (now E) (S (size (all_paths (ls_db (s_ls s))))) (s_ls s) info;
    Ok (set_sls ls s)).

(** The end that the three operations share: canonicalise, hash, optimise, register. *)
Definition finish_path (p : str) (hash : M sstate (Hash * Z)) (refs : gset str) (drv : M sstate str) : M sstate unit :=
  _ ← on_fattr (canonicalisePathMetaData E p);
  '(h, n) ← hash;
  _ ← optimisePath E can_link_symlink emlink_link emlink_rename rand p;
  d ← drv;
  register (mkValidPathInfo p d h refs 0 n 0).

(** The block that is run with the lock on the path. *)
Definition write_path (p : str) (repair : bool) (write : M FileSys unit) (hash : M sstate (Hash * Z)) (refs : gset str) : M sstate unit :=
  v ← isValid p;
  if repair || negb v then
    _ ← clear_path p;
    _ ← on_fs write;
    finish_path p hash refs (mret [])
  else mret tt.

Definition addToStoreFromDump (dump name : str) (recursive : bool) (hashAlgo : HashType) (repair : bool) : M sstate str :=
  h ← lift (fun _ => hashString hashAlgo dump);
  dstPath ← lift (fun _ => makeFixedOutputPath (nixStore E) recursive hashAlgo h name);
  _ ← addTempRoot E dstPath;
  v ← isValid dstPath;
  _ ← (if repair || negb v then
         with_locks E {[dstPath]}
           (write_path dstPath repair
              (if recursive then restore_dump dstPath dump else writeFile E dstPath dump)
              (if recursive then
                 h ← lift (fun _ => if bool_decide (hashAlgo = htSHA256) then Ok h else hashString htSHA256 dump);
                 mret (h, u64 (Z.of_nat (length dump)))
               else hash_path htSHA256 dstPath)
              ∅)
       else mret tt);
  mret dstPath.

Definition addToStore (filter : str -> bool) (_srcPath : str) (recursive : bool) (hashAlgo : HashType) (repair : bool) : M sstate str :=
  srcPath ← lift (fun _ => absPath (cwd E) _srcPath []);
  sink ← lift (fun s =>
    if recursive then dumpPath (s_fs s) (sched E) filter (S (size (s_fs s))) srcPath (mkStringSink [])
    else d ← readFile E (s_fs s) srcPath; Ok (mkStringSink d));
  name ← lift (fun _ => baseNameOf srcPath);
  addToStoreFromDump (ss_s sink) name recursive hashAlgo repair.

Definition addTextToStore (name s : str) (refs : gset str) (repair : bool) : M sstate str :=
  dstPath ← lift (fun _ => computeStorePathForText (nixStore E) name s refs);
  _ ← addTempRoot E dstPath;
  v ← isValid dstPath;
  _ ← (if repair || negb v then
         with_locks E {[dstPath]} (write_path dstPath repair (writeFile E dstPath s) (hash_path htSHA256 dstPath) refs)
       else mret tt);
  mret dstPath.
End AddToStore.

(** A run. *)
Definition add_run : outcome sstate str :=
  addToStoreFromDump sample_env (HA := checksum_algo) false (fun _ _ => false) (fun _ _ => false) (fun _ => 0%Z) (fun fs _ => fs)
    (enc_archive sample_node) ($"hello") true htSHA256 false sample_state.

(** * Lemmas *)

Section AddTheory.
Context (E : Env) `{HA : HashAlgo} {HL : HashAlgoLaws}.
Context (can_link_symlink : bool) (emlink_link emlink_rename : FileSys -> str -> bool) (rand : FileSys -> Z).
Context (partial : FileSys -> str -> FileSys).
Abbreviation store := (nixStore E).

(** What the machine has to be like: the store is a directory, new objects belong to
    the process, [posix_fallocate] and [lutimes] do not fail, reads do not fail, and
    files are not deduplicated on the way. *)
Record env_ok : Prop := {
  eo_abs : is_abs store = true;
  eo_state : nixStateDir E <> [];
  eo_apart : forall k, under store k -> ~ under (nixStateDir E) k;
  eo_lutimes : have_lutimes E = true -> lutimes E <> LutimesFail;
  eo_lchown : have_lchown E = true;
  eo_falloc : forall n, posix_fallocate E n <> FallocFail;
  eo_sched : forall p, sched_ok (sched E p);
  eo_plain : autoOptimiseStore E = false }.
Context (HE : env_ok).

Lemma store_nonnil : store <> [].
Proof. pose proof (eo_abs HE). by destruct store. Qed.

Definition owned (s : sstate) (p : str) : Prop := forall k, under p k -> privileged E = true \/ a_uid (s_attr s k) = euid E.

(** ** The steps *)

Lemma fresh_without fs p : fresh (without p fs) p.
Proof. intros k Hk. by rewrite lookup_without, decide_True. Qed.

Lemma absent_without fs p : fs_wf fs -> p <> [] -> fs !! p = None -> without p fs = fs.
Proof.
  intros Hwf Hp Hn. apply map_eq. intros k. rewrite lookup_without. destruct (decide (under p k)) as [Hu|]; [|done].
  destruct (decide (k = p)) as [-> |Hne]; [done|]. symmetry. apply (nothing_below fs p k); [done|done|by rewrite Hn|done|done].
Qed.

Lemma clear_path_run p s : fs_wf (s_fs s) -> p <> [] -> clear_path E p s = Done tt (set_sfs (without p (s_fs s)) s).
Proof.
  intros Hwf Hp. unfold clear_path. rewrite run_gets. unfold pathExists. case_bool_decide as Hex.
  - unfold on_del, zoom. pose proof (deletePathWrapped_spec (st_nlink E) (st_blocks E) (useHelper E) (s_fs s) 0 p Hwf Hp) as H.
    destruct (deletePathWrapped _ _ _ _ _) as [[] [fs b]|e [fs b]|]; [|by destruct H as (_ & ? & _)|done].
    destruct H as (_ & -> & _). done.
  - unfold mret, M_ret. f_equal. rewrite absent_without; [by destruct s|done|done|]. destruct (s_fs s !! p); [by destruct Hex|done].
Qed.

Lemma parent_ok_store fs n : fs !! store = Some IDir -> name_ok n = true -> parent_ok fs (child store n) = true.
Proof. intros Hd Hn. rewrite parent_ok_child by (done || apply store_nonnil). by apply bool_decide_eq_true. Qed.

Lemma restore_dump_run fs p t :
  fresh fs p -> parent_ok fs p = true -> p <> [] -> node_bounded t -> node_sorted t ->
  restore_dump E partial p (enc_archive t) fs = Done tt (install (umask E) p t ∪ fs).
Proof.
  intros Hfr Hp Hpn Hb Hs. unfold restore_dump.
  destruct (restore_encoding (umask E) (posix_fallocate E) t (S (length (enc_archive t))) fs p (mkStringSource (enc_archive t) 0) [])
    as (src' & _ & _ & ->); try done.
  - apply HE.
  - unfold enc_archive. rewrite length_app. pose proof (node_fuel_length t). lia.
  - cbn. lia.
  - by rewrite app_nil_r.
Qed.

Lemma writeFile_run fs p c :
  fresh fs p -> parent_ok fs p = true -> writeFile E p c fs = Done tt (install (umask E) p (NReg false c) ∪ fs).
Proof.
  intros Hfr Hp. pose proof (Hfr p (under_refl p)) as Hn. unfold writeFile, update, sys_open_creat.
  rewrite follow_here by congruence. rewrite Hn, Hp. f_equal. cbn [install]. apply map_eq. intros k.
  destruct (decide (p = k)) as [<- |Hne].
  - rewrite lookup_alter_eq, lookup_insert_eq. symmetry. apply lookup_union_Some_l, lookup_singleton_eq.
  - rewrite lookup_alter_ne, lookup_insert_ne by done. symmetry. apply lookup_union_r. by apply lookup_singleton_ne.
Qed.

(** The objects of a restored tree: each is the root or an entry of a directory. *)
Lemma install_parent t : forall p k i, node_sorted t -> install (umask E) p t !! k = Some i ->
  i <> IOther /\ (k = p \/ exists d n, k = child d n /\ name_ok n = true /\ install (umask E) p t !! d = Some IDir).
Proof.
  induction t as [x c|t|es IH] using node_ind'; intros p k i Hs Hi; cbn [install] in Hi.
  - apply lookup_singleton_Some in Hi as [<- <-]. auto.
  - apply lookup_singleton_Some in Hi as [<- <-]. auto.
  - apply lookup_insert_Some in Hi as [[<- <-]|[Hne Hi]]; [auto|]. fold (install_entries (umask E) p es) in Hi.
    apply install_entries_some in Hi as ([m u] & Hin & Hi). cbn [fst snd] in Hi.
    apply node_sorted_dir in Hs as (_ & Hnd & Hok). rewrite Forall_forall in Hok, IH. destruct (Hok _ Hin) as [Hm Hu]. cbn in Hm, Hu.
    destruct (IH _ Hin (child p m) k i Hu Hi) as [Hno Hk]. split; [done|right]. destruct Hk as [-> |(d & n & -> & Hn & Hd)].
    + exists p, m. cbn [install]. by rewrite lookup_insert_eq.
    + exists d, n. split_and!; [done|done|]. cbn [install]. pose proof (install_under _ _ _ _ _ Hd) as Hud.
      rewrite lookup_insert_ne by (intros <-; by apply not_under_child in Hud). fold (install_entries (umask E) p es).
      rewrite (install_entries_under (umask E) p es m u d); [done|done| |done|done].
      apply Forall_forall. intros e He. by apply Hok.
Qed.

Lemma install_wf fs d n t :
  fs_wf fs -> fs !! d = Some IDir -> name_ok n = true -> node_sorted t -> fresh fs (child d n) -> fs_wf (install (umask E) (child d n) t ∪ fs).
Proof.
  intros Hwf Hd Hn Hs Hfr k Hk. destruct (install (umask E) (child d n) t !! k) as [i|] eqn:Ei.
  - destruct (install_parent t _ _ _ Hs Ei) as [_ [-> |(d' & n' & -> & Hn' & Hd')]].
    + exists d, n. split_and!; [done|done|right]. rewrite lookup_union_r; [done|]. apply install_not_under, not_under_child.
    + exists d', n'. split_and!; [done|done|right]. by apply lookup_union_Some_l.
  - rewrite lookup_union_r in Hk by done. destruct (Hwf k Hk) as (d' & n' & -> & Hn' & Hd'). exists d', n'. split_and!; [done|done|].
    destruct Hd' as [-> |Hd']; [by left|right]. rewrite lookup_union_r; [done|]. apply install_not_under. intros Hu.
    by rewrite (Hfr d' Hu) in Hd'.
Qed.

(** ** Registration of one path *)

Lemma registerValidPath_run readFile now dfuel ls info :
  ls_ok store ls -> isStorePath store (path info) = true -> hash_ok (vhash info) -> type (vhash info) = htSHA256 ->
  isDerivation (path info) = false -> (forall q, q ∈ references info -> q = path info \/ q ∈ all_paths (ls_db ls)) ->
  (db_next (ls_db ls) < 2 ^ 31)%Z ->
  exists ls', registerValidPath store readFile now dfuel ls info = Ok ls' /\ registration store now [info] ls ls'.
Proof.
  intros Hok Hp Hh Ht Hd Hr Hn.
  assert (F1 : Forall (info_fits store) [info]) by (apply Forall_singleton; by split).
  assert (F2 : Forall plain_info [info]) by (apply Forall_singleton; by split).
  assert (F3 : batch_closed ls [info]).
  { intros i q ->%list_elem_of_singleton Hq. destruct (Hr q Hq) as [-> |?]; [right|by left]. exists info. split; [left|done]. }
  pose proof (registerValidPaths_outcome store readFile now dfuel ls [info] Hok F1 F2 F3 ltac:(cbn; lia)) as H.
  assert (Hnc : forall p, ~ clos_trans str (batch_ref ls [info]) p p).
  { intros p Hc. assert (forall x y, clos_trans str (batch_ref ls [info]) x y -> x = path info /\ y = path info /\ False) as Hx.
    { induction 1 as [x y (Hne & (i & ->%list_elem_of_singleton & <-) & (j & ->%list_elem_of_singleton & <-) & _)|x y z _ IH _ _]; [done|].
      by destruct IH as (_ & _ & []). }
    by destruct (Hx p p Hc) as (_ & _ & []). }
  unfold registerValidPath. destruct (registerValidPaths _ _ _ _ _ _) as [ls'|e|].
  - exists ls'. split; [done|]. apply H.
  - exfalso. destruct H as (_ & p & Hc). by apply (Hnc p).
  - done.
Qed.

(** The hash and the size of a tree, as they are registered. *)
Definition nar_hash (t : node) : Hash := hash_of_bytes htSHA256 32 (enc_archive t).
Definition nar_size (t : node) : Z := u64 (Z.of_nat (length (enc_archive t))).
Definition path_info (p d : str) (t : node) (refs : gset str) : ValidPathInfo := mkValidPathInfo p d (nar_hash t) refs 0 (nar_size t) 0.

Lemma hash_path_run p s t : node_bounded t ->
  tree_of (s_fs s) (fun _ => true) (S (size (s_fs s))) p = Some t -> hash_path E htSHA256 p s = Done (nar_hash t, nar_size t) s.
Proof.
  intros Hb Ht. unfold hash_path, lift. rewrite (hashPath_run htSHA256 32 (s_fs s) (sched E) (fun _ => true) _ p t); [done|done|apply HE|done|done].
Qed.

(** What a path needs to be registered. *)
Record path_ready (ls : LocalStore) (p : str) (refs : gset str) : Prop := {
  pr_ls : ls_ok store ls;
  pr_store : isStorePath store p = true;
  pr_plain : isDerivation p = false;
  pr_refs : forall q, q ∈ refs -> q = p \/ q ∈ all_paths (ls_db ls);
  pr_next : (db_next (ls_db ls) < 2 ^ 31)%Z }.

Lemma finish_path_run s p t fuel hash refs drv d :
  path_ready (s_ls s) p refs -> p <> [] -> fs_wf (s_fs s) -> tree_of (s_fs s) (fun _ => true) fuel p = Some t -> node_bounded t ->
  (forall k i, under p k -> s_fs s !! k = Some i -> i <> IOther) -> owned s p ->
  (forall s', tree_of (s_fs s') (fun _ => true) (S (size (s_fs s'))) p = Some t -> hash s' = Done (nar_hash t, nar_size t) s') ->
  (forall s', s_ls s' = s_ls s -> drv s' = Done d s') ->
  exists s', finish_path E can_link_symlink emlink_link emlink_rename rand p hash refs drv s = Done tt s' /\
    registration store (now E) [path_info p d t refs] (s_ls s) (s_ls s') /\
    canoned E (under p) (s_fs s, s_attr s) (s_fs s', s_attr s') /\
    s_locked s' = s_locked s /\ s_temp s' = s_temp s.
Proof.
  intros [P1 P2 P3 P4 P5] Hp Hwf Ht Hb Hno Hown Hhash Hdrv. unfold finish_path.
  destruct (canonicalise_run E p (s_fs s, s_attr s)) as ([fs1 at1] & E1 & C1).
  - apply HE.
  - done.
  - done.
  - cbn [fst]. intros Hn. destruct fuel; cbn [tree_of] in Ht; [done|]. by rewrite Hn in Ht.
  - intros k i Hk Hi. split; [by apply (Hno k)|]. destruct (Hown k Hk); [by left|right; by left].
  - left. apply HE.
  - rewrite (run_bind _ _ _ _ _ (run_zoom (fun s => (s_fs s, s_attr s)) set_fattr _ s _ _ E1)).
    set (s1 := set_fattr (fs1, at1) s).
    assert (Ht1 : tree_of (s_fs s1) (fun _ => true) (S (size (s_fs s1))) p = Some t).
    { cbn [s1 s_fs set_fattr fst]. pose proof (canoned_tree E p _ _ (fun _ => true) fuel p C1) as Hc. cbn [fst] in Hc. rewrite Ht in Hc.
      eapply tree_of_fuel; [exact Hc|]. pose proof (tree_depth _ _ _ _ _ Hc) as Hd. pose proof (subtree_size p fs1). lia. }
    rewrite (run_bind _ _ _ _ _ (Hhash s1 Ht1)). cbv beta iota.
    unfold optimisePath. rewrite (eo_plain HE), run_ret.
    rewrite (run_bind _ _ _ _ _ (Hdrv s1 eq_refl)). unfold register, update.
    destruct (registerValidPath_run (readFile E (s_fs s1)) (now E) (S (size (all_paths (ls_db (s_ls s1))))) (s_ls s1) (path_info p d t refs))
      as (ls' & Er & Hreg); try done.
    { by apply hash_of_bytes_ok. }
    fold (path_info p d t refs). rewrite Er. cbn [mbind result_bind]. eexists. split; [done|]. split_and!; [done|exact C1|done|done].
Qed.

(** The body of the lock: a path that is not valid is written and registered. *)
Lemma write_path_run s n t write hash refs :
  let p := child store n in
  path_ready (s_ls s) p refs -> name_ok n = true -> p ∉ all_paths (ls_db (s_ls s)) -> fs_wf (s_fs s) -> s_fs s !! store = Some IDir ->
  node_bounded t -> node_sorted t -> owned s p ->
  (forall fs, fresh fs p -> parent_ok fs p = true -> write fs = Done tt (install (umask E) p t ∪ fs)) ->
  (forall s', tree_of (s_fs s') (fun _ => true) (S (size (s_fs s'))) p = Some t -> hash s' = Done (nar_hash t, nar_size t) s') ->
  exists s', write_path E can_link_symlink emlink_link emlink_rename rand p false write hash refs s = Done tt s' /\
    registration store (now E) [path_info p [] t refs] (s_ls s) (s_ls s') /\ fs_wf (s_fs s') /\
    tree_of (s_fs s') (fun _ => true) (S (size (s_fs s'))) p = Some t /\
    (forall k, ~ under p k -> s_fs s' !! k = s_fs s !! k) /\ s_locked s' = s_locked s /\ s_temp s' = s_temp s.
Proof.
  intros p Hpr Hn Hnv Hwf Hdir Hb Hs Hown Hwrite Hhash. unfold write_path, isValid. assert (p <> []) as Hp by apply child_nonnil.
  rewrite (run_lift _ _ _ false).
  2:{ unfold ls_isValidPath. f_equal. apply bool_decide_eq_false. by rewrite sql_path_valid. }
  cbn [orb negb]. rewrite (run_bind _ _ _ _ _ (clear_path_run p s Hwf Hp)).
  set (fs1 := without p (s_fs s)). assert (Hdir1 : fs1 !! store = Some IDir).
  { unfold fs1. rewrite lookup_without, decide_False; [done|]. apply not_under_child. }
  pose proof (fresh_without (s_fs s) p) as Hfr. pose proof (without_wf p _ Hwf) as Hwf1. fold fs1 in Hfr, Hwf1.
  pose proof (Hwrite fs1 Hfr (parent_ok_store fs1 n Hdir1 Hn)) as E2.
  rewrite (run_bind _ _ _ _ _ (run_zoom s_fs set_sfs _ (set_sfs fs1 s) _ _ E2)).
  set (fs2 := install (umask E) p t ∪ fs1). set (s2 := set_sfs fs2 (set_sfs fs1 s)).
  assert (Hwf2 : fs_wf fs2) by (by apply install_wf).
  pose proof (tree_of_restored (umask E) t fs1 p (node_depth t) Hs Hfr (Nat.le_refl _)) as Ht2. fold fs2 in Ht2.
  destruct (finish_path_run s2 p t (node_depth t) hash refs (mret [] : M sstate str) []) as (s' & E3 & Hreg & C & Hl & Htm); try done.
  - intros k i Hk Hi. change (fs2 !! k = Some i) in Hi. unfold fs2 in Hi. apply lookup_union_Some_raw in Hi as [Hi|[_ Hi]].
    + by apply (install_parent t _ _ _ Hs) in Hi as [? _].
    + by rewrite Hfr in Hi.
  - exists s'. split; [done|]. split_and!; [done| | | |done|done].
    + by apply (canoned_wf E (under p) _ _ _ C).
    + pose proof (canoned_tree E p _ _ (fun _ => true) (node_depth t) p C) as Hc. cbn [fst s2 s_fs set_sfs] in Hc. rewrite Ht2 in Hc.
      eapply tree_of_fuel; [exact Hc|]. pose proof (tree_depth _ _ _ _ _ Hc) as Hd. pose proof (subtree_size p (s_fs s')). lia.
    + intros k Hk. destruct (C k) as [_ Hc]. destruct (Hc Hk) as [Hck _]. cbn [fst s2 s_fs set_sfs] in Hck. rewrite Hck. unfold fs2, fs1.
      rewrite lookup_union_r by (by apply install_not_under). rewrite lookup_without, decide_False by done. done.
Qed.

(** ** Locking *)

(** The lock file of a path is free. *)
Record lockable (s : sstate) (p : str) : Prop := {
  lk_file : match s_fs s !! lockPath p with None | Some (IReg _ []) => True | _ => False end;
  lk_free : lockPath p ∉ s_locked s }.

Lemma lockPath_child d n : lockPath (child d n) = child d (n ++ $".lock").
Proof. unfold lockPath, child. by rewrite <- app_assoc. Qed.

Lemma lock_name_ok n : name_ok n = true -> name_ok (n ++ $".lock") = true.
Proof.
  rewrite !name_ok_spec. intros [Hn Hf]. split; [by destruct n|]. apply Forall_app. split; [done|].
  apply (bool_decide_unpack (Forall (fun c => char_eqb c slash = false) ($".lock"))). vm_compute. exact I.
Qed.

Lemma lock_not_under d n : name_ok n = true -> ~ under (child d n) (lockPath (child d n)).
Proof.
  intros Hn Hu. rewrite lockPath_child in Hu. pose proof (lock_name_ok n Hn) as Hl.
  pose proof (under_child_inj d n _ _ Hn Hl Hu (under_refl _)) as E0. apply (f_equal length) in E0. rewrite length_app in E0.
  change (length ($".lock")) with 5%nat in E0. lia.
Qed.

Lemma lockPaths_run s n :
  name_ok n = true -> fs_wf (s_fs s) -> s_fs s !! store = Some IDir -> lockable s (child store n) ->
  exists fs' m, lockPaths E {[child store n]} s =
      Done [lockPath (child store n)] (set_locked ({[lockPath (child store n)]} ∪ s_locked s) (set_sfs fs' s)) /\
    fs_wf fs' /\ fs' !! lockPath (child store n) = Some (IReg m []) /\ forall k, k <> lockPath (child store n) -> fs' !! k = s_fs s !! k.
Proof.
  intros Hn Hwf Hd [L1 L2]. set (p := child store n) in *. unfold lockPaths.
  assert (set_iter {[p]} = [p]) as -> by (unfold set_iter; by rewrite elements_singleton).
  cbn [lock_loop]. unfold lock_one. cbv zeta. rewrite run_gets, decide_False by done.
  pose proof (lockPath_child store n) as Elp. pose proof (lock_name_ok n Hn) as Hln. fold p in Elp.
  destruct (open_creat_run E 384 (s_fs s) (lockPath p) store (n ++ $".lock")) as (fs' & Eo & K & m & c & F & Hc);
    [done|apply store_nonnil|done|done|by destruct (s_fs s !! lockPath p) as [[]|]|].
  assert (c = []) as -> by (destruct Hc as [[_ ->]|Hc]; [done|]; rewrite Hc in L1; by destruct c).
  unfold on_fs. erewrite run_bind; [|apply run_zoom; rewrite Eo; done]. rewrite run_gets. cbn [s_fs set_sfs]. rewrite F, run_modify.
  exists fs', m. split_and!; [done| |done|done].
  apply (changed_wf (s_fs s) fs' (lockPath p) store (n ++ $".lock")); [done|done|done|done| |by destruct (s_fs s !! lockPath p) as [[]|]|done].
  rewrite K; [done|]. rewrite Elp. intros E0. symmetry in E0. by apply child_ne in E0.
Qed.

(** The file systems before and after an operation on [p] in the store. *)
Definition store_same (p : str) (fs fs' : FileSys) : Prop :=
  forall k, under store k -> ~ under p k -> k <> lockPath p -> fs' !! k = fs !! k.

(** The state in which an operation starts and ends. *)
Record store_ready (s : sstate) : Prop := {
  sr_roots : roots_ready E s;
  sr_ls : ls_ok store (s_ls s);
  sr_dir : s_fs s !! store = Some IDir }.

(** Everything that the three operations do once they know the path. *)
Definition add_path (p : str) (write : M FileSys unit) (hash : M sstate (Hash * Z)) (refs : gset str) : M sstate str :=
  _ ← addTempRoot E p;
  v ← isValid p;
  _ ← (if false || negb v then
         with_locks E {[p]} (write_path E can_link_symlink emlink_link emlink_rename rand p false write hash refs)
       else mret tt);
  mret p.

Lemma state_not_store k : under store k -> k <> child (nixStateDir E) gcLockName /\ k <> child (temproots (nixStateDir E)) (pid E).
Proof.
  intros Hk. split; intros ->; apply (eo_apart HE _ Hk); [apply under_child|]. unfold child, temproots. right. eexists.
  rewrite <- app_assoc. cbn [app]. done.
Qed.

Lemma addTempRoot_store s p : store_ready s -> Forall (fun c => char_eqb c NUL = false) p ->
  exists s', addTempRoot E p s = Done tt s' /\ store_ready s' /\ s_ls s' = s_ls s /\ s_attr s' = s_attr s /\ s_locked s' = s_locked s /\
    (forall ownerAlive, ownerAlive (child (temproots (nixStateDir E)) (pid E)) = true -> temp_root (nixStateDir E) ownerAlive (s_fs s') p) /\
    forall k, under store k -> s_fs s' !! k = s_fs s !! k.
Proof.
  intros [S1 S2 S3] Hnul. destruct (addTempRoot_run E s p (eo_state HE) S1) as (fs1 & m & d & E1 & W & K & L & F & T & C).
  assert (Hk : forall k, under store k -> fs1 !! k = s_fs s !! k) by (intros k Hk; by apply K; apply state_not_store).
  eexists. split_and!; [exact E1| |done|done|done| |exact Hk].
  - split; [|done|cbn; rewrite Hk; [done|apply under_refl]].
    apply (roots_ready_kept E s); [done|done|done| |intros k _; apply K|done]. exists m, (d ++ p ++ [NUL]). split; [done|].
    right. exists (d ++ p). by rewrite app_assoc.
  - intros ownerAlive Ha. exists (pid E). split; [apply S1|]. exists m, (d ++ p ++ [NUL]). split_and!; [done|done|].
    rewrite nul_strings_snoc by done. apply elem_of_app. right. left.
Qed.

(** [p] has been added with the tree [t] and the deriver [d]. *)
Record added (p d : str) (t : node) (refs : gset str) (s s' : sstate) : Prop := {
  ad_ready : store_ready s';
  ad_reg : registration store (now E) [path_info p d t refs] (s_ls s) (s_ls s');
  ad_tree : tree_of (s_fs s') (fun _ => true) (S (size (s_fs s'))) p = Some t;
  ad_same : store_same p (s_fs s) (s_fs s');
  ad_lock : s_fs s' !! lockPath p = None /\ s_locked s' = s_locked s }.

Lemma add_path_valid s p write hash refs :
  store_ready s -> Forall (fun c => char_eqb c NUL = false) p -> p ∈ all_paths (ls_db (s_ls s)) ->
  exists s', add_path p write hash refs s = Done p s' /\ store_ready s' /\ s_ls s' = s_ls s /\
    forall k, under store k -> s_fs s' !! k = s_fs s !! k.
Proof.
  intros Hs Hnul Hv. destruct (addTempRoot_store s p Hs Hnul) as (s1 & E1 & R1 & L1 & _ & _ & _ & K1).
  exists s1. split_and!; [|done|done|done]. unfold add_path. rewrite (run_bind _ _ _ _ _ E1). unfold isValid.
  rewrite (run_lift _ _ _ true); [done|]. unfold ls_isValidPath. f_equal. apply bool_decide_eq_true. by rewrite sql_path_valid, L1.
Qed.

(** Changes inside the store do not matter to the temporary roots. *)
Lemma roots_ready_store s s' :
  roots_ready E s -> s_temp s' = s_temp s -> fs_wf (s_fs s') -> (forall k, ~ under store k -> s_fs s' !! k = s_fs s !! k) -> roots_ready E s'.
Proof.
  intros [R1 R2 R3 R4 R5 R6 R7] Ht Hwf Hk.
  assert (Hs : forall k, under (nixStateDir E) k -> s_fs s' !! k = s_fs s !! k) by (intros k Hu; apply Hk; intros Hst; by apply (eo_apart HE k)).
  assert (under (nixStateDir E) (child (temproots (nixStateDir E)) (pid E))) as Hf.
  { right. exists (tempRootsDir ++ slash :: pid E). unfold child, temproots. by rewrite <- app_assoc. }
  split; [done|done|by rewrite Hs by apply under_refl|by rewrite Hs by apply under_child|by rewrite Hs by apply under_child|by rewrite Hs|].
  rewrite Ht. intros q Hq. destruct (R7 q Hq) as (-> & m & d & Hd). split; [done|]. exists m, d. by rewrite Hs.
Qed.

(** Releasing the lock. *)
Lemma unlock_run s n m :
  let p := child store n in
  name_ok n = true -> store_ready s -> s_fs s !! lockPath p = Some (IReg m []) ->
  let s' := unlock true [lockPath p] s in
  store_ready s' /\ s_ls s' = s_ls s /\ s_locked s' = s_locked s ∖ {[lockPath p]} /\ s_fs s' = delete (lockPath p) (s_fs s).
Proof.
  intros p Hn [S1 S2 S3] Hl s'. assert (s_fs s' = delete (lockPath p) (s_fs s)) as Hfs.
  { unfold s', unlock. cbn [foldl unlock_one set_locked s_fs set_sfs]. unfold sys_unlink. by rewrite Hl. }
  assert (forall k, k <> lockPath p -> s_fs s' !! k = s_fs s !! k) as Hk by (intros k Hk; rewrite Hfs; by apply lookup_delete_ne).
  assert (lockPath p = child store (n ++ $".lock")) as Elp by apply lockPath_child.
  split_and!; [|done|done|done]. split; [|done|].
  - apply (roots_ready_store s); [done|done| |].
    + rewrite Hfs. apply (removed_wf (s_fs s)); [apply S1|]. intros k. destruct (decide (k = lockPath p)) as [-> |Hne].
      * right. rewrite lookup_delete_eq, Hl. done.
      * left. by apply lookup_delete_ne.
    + intros k Hu. apply Hk. intros ->. apply Hu. rewrite Elp. apply under_child.
  - rewrite Hk; [done|]. rewrite Elp. intros E0. symmetry in E0. by apply child_ne in E0.
Qed.

Lemma tree_of_same fs fs' fuel p t :
  tree_of fs (fun _ => true) fuel p = Some t -> (forall k, under p k -> fs' !! k = fs !! k) -> tree_of fs' (fun _ => true) (S (size fs')) p = Some t.
Proof.
  intros Ht Hk. assert (tree_of fs' (fun _ => true) fuel p = Some t) as Ht' by (rewrite <- Ht; apply tree_of_ext; intros k Hu; by rewrite Hk).
  eapply tree_of_fuel; [exact Ht'|]. pose proof (tree_depth _ _ _ _ _ Ht'). pose proof (subtree_size p fs'). lia.
Qed.

Lemma add_path_new s n t write hash refs :
  let p := child store n in
  store_ready s -> Forall (fun c => char_eqb c NUL = false) p -> name_ok n = true ->
  path_ready (s_ls s) p refs -> p ∉ all_paths (ls_db (s_ls s)) -> lockable s p -> owned s p -> node_bounded t -> node_sorted t ->
  (forall fs, fresh fs p -> parent_ok fs p = true -> write fs = Done tt (install (umask E) p t ∪ fs)) ->
  (forall s', tree_of (s_fs s') (fun _ => true) (S (size (s_fs s'))) p = Some t -> hash s' = Done (nar_hash t, nar_size t) s') ->
  exists s', add_path p write hash refs s = Done p s' /\ added p [] t refs s s'.
Proof.
  intros p Hs Hnul Hn Hpr Hnv [L1 L2] Hown Hb Hst Hwrite Hhash.
  destruct (addTempRoot_store s p Hs Hnul) as (s1 & E1 & [R1 R2 R3] & Ls1 & At1 & Lk1 & _ & K1).
  assert (under store (lockPath p)) as Hul by (unfold p; rewrite lockPath_child; apply under_child).
  destruct (lockPaths_run s1 n Hn (rr_wf E s1 R1) R3) as (fs2 & m & E2 & W2 & F2 & K2); [split; [by rewrite K1|by rewrite Lk1]|].
  fold p in E2, F2, K2. set (s2 := set_locked ({[lockPath p]} ∪ s_locked s1) (set_sfs fs2 s1)).
  assert (Hst2 : fs2 !! store = Some IDir).
  { rewrite K2; [done|]. unfold p. rewrite lockPath_child. intros E0. symmetry in E0. by apply child_ne in E0. }
  destruct (write_path_run s2 n t write hash refs) as (s3 & E3 & Reg & W3 & T3 & K3 & Lk3 & Tm3); try done.
  { cbn. by rewrite Ls1. } { cbn. by rewrite Ls1. } { intros k Hk. cbn. rewrite At1. by apply Hown. }
  fold p in E3, Reg, T3, K3. cbn [s2 s_ls set_locked set_sfs] in Reg. rewrite Ls1 in Reg.
  assert (Hsame3 : forall k, under store k -> ~ under p k -> k <> lockPath p -> s_fs s3 !! k = s_fs s !! k).
  { intros k H1 H2 H3. rewrite K3 by done. cbn. by rewrite K2, K1. }
  assert (Hready3 : store_ready s3).
  { split; [|apply Reg|].
    - apply (roots_ready_store s1); [done|by rewrite Tm3|done|]. intros k Hk. rewrite K3.
      + cbn. apply K2. congruence.
      + intros Hu. apply Hk. eapply under_trans; [apply under_child|done].
    - rewrite K3; [done|]. apply not_under_child. }
  assert (Hl3 : s_fs s3 !! lockPath p = Some (IReg m [])) by (rewrite K3; [done|by apply lock_not_under]).
  destruct (unlock_run s3 n m Hn Hready3 Hl3) as (R4 & Ls4 & Lk4 & F4). fold p in R4, Ls4, Lk4, F4.
  exists (unlock true [lockPath p] s3). split.
  - unfold add_path. rewrite (run_bind _ _ _ _ _ E1). unfold isValid. rewrite (run_lift _ _ _ false).
    2:{ unfold ls_isValidPath. f_equal. apply bool_decide_eq_false. by rewrite sql_path_valid, Ls1. }
    cbn [orb negb]. erewrite run_bind; [done|]. unfold with_locks. rewrite (run_bind _ _ _ _ _ E2). unfold locked_block. fold s2. by rewrite E3.
  - split; [done|by rewrite Ls4| | |].
    + apply (tree_of_same (s_fs s3) _ _ _ _ T3). intros k Hk. rewrite F4. apply lookup_delete_ne. intros <-. by apply (lock_not_under store n Hn).
    + intros k H1 H2 H3. rewrite F4, lookup_delete_ne by done. by apply Hsame3.
    + rewrite F4. split; [apply lookup_delete_eq|]. rewrite Lk4, Lk3. cbn. rewrite Lk1. clear -L2. set_solver.
Qed.

(** ** The path *)

Lemma hashString_sha s : hashString htSHA256 s = Ok (hash_of_bytes htSHA256 32 (take (Z.to_nat (u32 (Z.of_nat (length s)))) s)).
Proof. reflexivity. Qed.

Lemma store_char_nul c : store_char_ok c = true -> char_eqb c NUL = false.
Proof. intros H. apply char_eqb_ne. intros ->. by vm_compute in H. Qed.

Lemma isBase32_nul c : isBase32 c = true -> char_eqb c NUL = false.
Proof. intros H. apply char_eqb_ne. intros ->. by vm_compute in H. Qed.

Lemma makeStorePath_shape type h name p :
  makeStorePath store type h name = Ok p ->
  isStorePath store p = true /\ exists n, p = child store n /\ name_ok n = true /\ Forall (fun c => char_eqb c NUL = false) n.
Proof.
  unfold makeStorePath. pose proof (checkStoreName_spec name) as Hname. destruct (store_name name) eqn:Hn.
  2:{ destruct Hname as [msg Hm]. by rewrite Hm. }
  rewrite Hname, bind_ret, hashString_sha, bind_ret. set (f := take _ _). fold (path_digest f).
  destruct (path_digest_print f) as (h32 & E32 & Hl & Hb & _). rewrite E32, bind_ret.
  change (store ++ $"/" ++ h32 ++ $"-" ++ name) with (store ++ slash :: store_base h32 name). intros [= <-].
  destruct (store_path_parts store (eo_abs HE) h32 name Hl Hb Hn) as (H1 & _). split; [done|].
  exists (store_base h32 name). split_and!; [done| |].
  - apply name_ok_spec. split; [by destruct h32|by apply store_base_plain].
  - unfold store_base, store_name in *. apply andb_true_iff in Hn as [_ Hn]. rewrite forallb_Forall in Hb, Hn.
    apply Forall_app_2; [|constructor; [done|]]; eapply Forall_impl; try done; intros c Hc; [by apply isBase32_nul|by apply store_char_nul].
Qed.

Lemma makeFixedOutputPath_shape recursive ht h name p :
  makeFixedOutputPath store recursive ht h name = Ok p ->
  isStorePath store p = true /\ exists n, p = child store n /\ name_ok n = true /\ Forall (fun c => char_eqb c NUL = false) n.
Proof.
  unfold makeFixedOutputPath. destruct (_ && _); [apply makeStorePath_shape|].
  intros (t & _ & Hp)%bind_Ok. apply bind_Ok in Hp as (h' & _ & Hp). by apply makeStorePath_shape in Hp.
Qed.

(** ** The invariant of the store *)

(** The object of a row is the one that the row describes. *)
Definition row_ok (fs : FileSys) (r : row) : Prop := exists t,
  tree_of fs (fun _ => true) (S (size fs)) (r_path r) = Some t /\ node_bounded t /\
  r_hash r = $"sha256:" ++ printHash (nar_hash t) /\ (r_narSize r = None \/ r_narSize r = Some (nar_size t)).
Definition consistent (s : sstate) : Prop := forall i r, db_valid (ls_db (s_ls s)) !! i = Some r -> row_ok (s_fs s) r.

Lemma row_ok_same fs fs' r : row_ok fs r -> (forall k, under (r_path r) k -> fs' !! k = fs !! k) -> row_ok fs' r.
Proof. intros (t & Ht & Hb & Hh & Hn) Hk. exists t. split_and!; [by apply (tree_of_same fs fs' _ _ _ Ht)|done|done|done]. Qed.

(** Objects of different store paths are apart. *)
Lemma valid_apart s n q k :
  ls_ok store (s_ls s) -> name_ok n = true -> q ∈ all_paths (ls_db (s_ls s)) -> q <> child store n -> under q k ->
  under store k /\ ~ under (child store n) k.
Proof.
  intros Hok Hn (i & r & Hi & <-)%elem_of_all_paths Hne Hk. destruct (ok_rows _ _ Hok i r Hi) as [Hs _].
  apply (isStorePath_child store _ (eo_abs HE)) in Hs as (m & Em & Hm). rewrite Em in *. split.
  - eapply under_trans; [apply under_child|done].
  - intros Hu. apply Hne. f_equal. by apply (under_child_inj store m n k).
Qed.

Lemma valid_lock s n q k :
  ls_ok store (s_ls s) -> name_ok n = true -> q ∈ all_paths (ls_db (s_ls s)) -> lockPath (child store n) ∉ all_paths (ls_db (s_ls s)) ->
  under q k -> k <> lockPath (child store n).
Proof.
  intros Hok Hn Hq Hl Hk ->. rewrite lockPath_child in *.
  destruct (valid_apart s (n ++ $".lock") q (child store (n ++ $".lock"))) as [_ H]; [done|by apply lock_name_ok|done| |done|].
  - intros ->. done.
  - apply H, under_refl.
Qed.

Lemma added_consistent s s' n d t refs :
  let p := child store n in
  ls_ok store (s_ls s) -> name_ok n = true -> consistent s -> p ∉ all_paths (ls_db (s_ls s)) -> lockPath p ∉ all_paths (ls_db (s_ls s)) ->
  node_bounded t -> added p d t refs s s' -> consistent s'.
Proof.
  intros p Hok Hn Hc Hp Hl Hb [A1 A2 A3 A4 A5] i r Hi. destruct (rn_new _ _ _ _ _ A2 i r Hi) as [Hold|(info & ->%list_elem_of_singleton & -> & _)].
  - apply (row_ok_same (s_fs s)); [by apply (Hc i)|]. intros k Hk.
    assert (r_path r ∈ all_paths (ls_db (s_ls s))) as Hq by (apply elem_of_all_paths; by exists i, r).
    destruct (valid_apart s n (r_path r) k) as [H1 H2]; [done|done|done|by intros Eq; rewrite Eq in Hq|done|].
    apply A4; [done|done|]. by apply (valid_lock s n (r_path r)).
  - exists t. unfold info_row, path_info. cbn [r_path r_hash r_narSize path vhash narSize]. split_and!; [done|done|done|].
    destruct (nar_size t =? 0)%Z; auto.
Qed.

(** What the operations promise for the path [p] and the tree [t]: they return [p],
    which is valid afterwards, and keep the invariant of the store; a path that was
    not valid has the tree, its metadata is the given one, and its lock file is gone;
    no other object of the store changes. *)
Definition adds (p : str) (t : node) (refs : gset str) (s : sstate) (o : outcome sstate str) : Prop :=
  exists s', o = Done p s' /\ store_ready s' /\ consistent s' /\
    all_paths (ls_db (s_ls s')) = all_paths (ls_db (s_ls s)) ∪ {[p]} /\
    store_same p (s_fs s) (s_fs s') /\
    (p ∉ all_paths (ls_db (s_ls s)) ->
       tree_of (s_fs s') (fun _ => true) (S (size (s_fs s'))) p = Some t /\ s_fs s' !! lockPath p = None /\
       forall q, db_ref (ls_db (s_ls s')) p q <-> q ∈ refs) /\
    (p ∈ all_paths (ls_db (s_ls s)) -> s_ls s' = s_ls s).

(** What they need of the state. *)
Record add_pre (s : sstate) (p : str) (refs : gset str) : Prop := {
  ap_ready : store_ready s;
  ap_consistent : consistent s;
  ap_nul : Forall (fun c => char_eqb c NUL = false) store;
  ap_plain : isDerivation p = false;
  ap_refs : forall q, q ∈ refs -> q = p \/ q ∈ all_paths (ls_db (s_ls s));
  ap_next : (db_next (ls_db (s_ls s)) < 2 ^ 31)%Z;
  ap_lock : lockable s p;
  ap_lock_invalid : lockPath p ∉ all_paths (ls_db (s_ls s));
  ap_owned : owned s p }.

Lemma added_adds s s' n d t refs :
  let p := child store n in
  add_pre s p refs -> name_ok n = true -> p ∉ all_paths (ls_db (s_ls s)) -> node_bounded t -> added p d t refs s s' -> adds p t refs s (Done p s').
Proof.
  intros p [A1 A2 A3 A4 A5 A6 A7 A8 A9] Hn Hv Hb Ha. pose proof Ha as [B1 B2 B3 B4 [B5 B6]]. exists s'. split_and!; [done|done| | |done| |done].
  - by apply (added_consistent s s' n d t refs (sr_ls s A1)).
  - apply set_eq. intros q. rewrite (rn_valid _ _ _ _ _ B2), elem_of_union, elem_of_singleton. split.
    + intros [?|(i & ->%list_elem_of_singleton & <-)]; [by left|by right].
    + intros [?| ->]; [by left|right]. eexists. split; [left|done].
  - intros _. split_and!; [done|done|]. intros q. rewrite (rn_refs _ _ _ _ _ B2). split.
    + intros [(a & b & Ha' & _)|(i & ->%list_elem_of_singleton & _ & Hq)]; [|done]. destruct Hv. apply elem_of_all_paths. by exists a.
    + intros Hq. right. eexists. split; [left|done].
Qed.

(** Nothing to do for a path that is valid. *)
Lemma valid_adds s s' p t refs :
  ls_ok store (s_ls s) -> consistent s -> p ∈ all_paths (ls_db (s_ls s)) -> store_ready s' -> s_ls s' = s_ls s ->
  (forall k, under store k -> s_fs s' !! k = s_fs s !! k) -> adds p t refs s (Done p s').
Proof.
  intros A1 A2 Hv R' L' K'.
  exists s'. split_and!; [done|done| |rewrite L'; clear -Hv; set_solver|intros k Hk _ _; by apply K'|done|done].
  intros i r Hi. rewrite L' in Hi. apply (row_ok_same (s_fs s)); [by apply (A2 i)|]. intros k Hk. apply K'.
  destruct (ok_rows _ _ A1 i r Hi) as [Hr _]. apply (isStorePath_child store _ (eo_abs HE)) in Hr as (m & Em & _).
  rewrite Em in Hk. eapply under_trans; [apply under_child|done].
Qed.

Lemma add_path_adds s n t write hash refs :
  let p := child store n in
  add_pre s p refs -> isStorePath store p = true -> name_ok n = true -> Forall (fun c => char_eqb c NUL = false) n ->
  node_bounded t -> node_sorted t ->
  (forall fs, fresh fs p -> parent_ok fs p = true -> write fs = Done tt (install (umask E) p t ∪ fs)) ->
  (forall s', tree_of (s_fs s') (fun _ => true) (S (size (s_fs s'))) p = Some t -> hash s' = Done (nar_hash t, nar_size t) s') ->
  adds p t refs s (add_path p write hash refs s).
Proof.
  intros p [A1 A2 A3 A4 A5 A6 A7 A8 A9] Hsp Hn Hnul Hb Hs Hwrite Hhash.
  assert (Forall (fun c => char_eqb c NUL = false) p) as Hpnul by (apply Forall_app; split; [done|by constructor]).
  destruct (decide (p ∈ all_paths (ls_db (s_ls s)))) as [Hv|Hv].
  - destruct (add_path_valid s p write hash refs A1 Hpnul Hv) as (s' & E' & R' & L' & K').
    rewrite E'. by apply (valid_adds s s' p t refs (sr_ls s A1)).
  - destruct (add_path_new s n t write hash refs) as (s' & E' & Ha); try done; [by split; [apply A1|..]|].
    fold p in E'. rewrite E'. apply (added_adds s s' n []); try done; by split.
Qed.

(** The tree that a dump describes. *)
Definition dump_tree (recursive : bool) (dump : str) (t : node) : Prop :=
  if recursive then dump = enc_archive t /\ node_sorted t else t = NReg false dump.

Lemma hash_dump ht dump t h :
  dump = enc_archive t -> chunk_ok dump -> hashString ht dump = Ok h ->
  (if bool_decide (ht = htSHA256) then Ok h else hashString htSHA256 dump) = Ok (nar_hash t).
Proof.
  intros -> Hc Hh. pose proof (hashString_bytes htSHA256 32 _ eq_refl Hc) as Hs. case_bool_decide as Ht; [|done].
  rewrite Ht in Hh. rewrite <- Hh. done.
Qed.

Lemma addToStoreFromDump_adds s dump t name recursive hashAlgo h p :
  add_pre s p ∅ -> node_bounded t -> chunk_ok dump -> dump_tree recursive dump t ->
  hashString hashAlgo dump = Ok h -> makeFixedOutputPath store recursive hashAlgo h name = Ok p ->
  adds p t ∅ s (addToStoreFromDump E can_link_symlink emlink_link emlink_rename rand partial dump name recursive hashAlgo false s).
Proof.
  intros Hpre Hb Hc Hd Hh Hp. destruct (makeFixedOutputPath_shape _ _ _ _ _ Hp) as (Hsp & n & -> & Hn & Hnul).
  unfold addToStoreFromDump. rewrite (run_lift _ _ _ h) by done. rewrite (run_lift _ _ _ (child store n)) by done.
  change (adds (child store n) t ∅ s (add_path (child store n)
    (if recursive then restore_dump E partial (child store n) dump else writeFile E (child store n) dump)
    (if recursive then h ← lift (fun _ => if bool_decide (hashAlgo = htSHA256) then Ok h else hashString htSHA256 dump);
        mret (h, u64 (Z.of_nat (length dump))) else hash_path E htSHA256 (child store n)) ∅ s)).
  destruct recursive.
  - destruct Hd as [-> Hs]. apply add_path_adds; try done.
    + intros fs Hfr Hpo. by apply restore_dump_run; [..|apply child_nonnil| |].
    + intros s' _. by rewrite (run_lift _ _ _ (nar_hash t)) by (by apply hash_dump).
  - cbn in Hd. subst t. apply add_path_adds; try done.
    + intros fs Hfr Hpo. by apply writeFile_run.
    + intros s' Ht. by apply hash_path_run.
Qed.

Lemma dump_string fs filter depth srcPath t :
  tree_of fs filter depth srcPath = Some t -> node_bounded t ->
  dumpPath fs (sched E) filter depth srcPath (mkStringSink []) = Ok (mkStringSink (enc_archive t)).
Proof.
  intros Ht Hb. destruct (dumpPath_writes fs (sched E) filter (eo_sched HE) depth srcPath t Ht Hb (mkStringSink []) []) as ([d] & Ed & Hr); [done|].
  cbn in Hr. by subst.
Qed.
End AddTheory.

(** C20: [addToStore] copies exactly the tree that the filter selects: it returns the
    store path computed from the hash of the tree's archive; that path is valid
    afterwards, and it is the only one that may have become valid; if it was not valid
    before, its object has the same names, contents, executable bits and link targets
    as the source, it refers to nothing, and its lock file is gone.  No other object of
    the store changes, and the store stays consistent: the objects of the valid paths
    are the ones whose hashes and sizes are in the database. *)
Theorem addToStore_copies E `{HA : HashAlgo} {HL : HashAlgoLaws} can_link_symlink emlink_link emlink_rename rand partial
    filter _srcPath srcPath name hashAlgo h p t s :
  env_ok E -> absPath (cwd E) _srcPath [] = Ok srcPath -> baseNameOf srcPath = Ok name ->
  tree_of (s_fs s) filter (S (size (s_fs s))) srcPath = Some t -> node_bounded t -> chunk_ok (enc_archive t) ->
  hashString hashAlgo (enc_archive t) = Ok h -> makeFixedOutputPath (nixStore E) true hashAlgo h name = Ok p ->
  add_pre E s p ∅ ->
  adds E p t ∅ s (addToStore E can_link_symlink emlink_link emlink_rename rand partial filter _srcPath true hashAlgo false s).
Proof.
  intros HE Habs Hbase Ht Hb Hc Hh Hp Hpre. unfold addToStore. rewrite (run_lift _ _ _ srcPath) by done.
  erewrite run_lift by exact (dump_string E HE _ _ _ _ _ Ht Hb). rewrite (run_lift _ _ _ name) by done. cbn [ss_s].
  destruct (tree_of_sorted _ _ _ _ _ Ht) as [Hs _]. by apply (addToStoreFromDump_adds E _ _ _ _ _ HE s (enc_archive t) t name true hashAlgo h p).
Qed.

(** C39: adding a dump: [addToStoreFromDump] with the archive of a tree, or with the
    contents of a file, returns the fixed-output path of the dump, and the path has
    exactly that tree, or that file, as [addToStore_copies] describes. *)
Theorem addToStoreFromDump_correct E `{HA : HashAlgo} {HL : HashAlgoLaws} can_link_symlink emlink_link emlink_rename rand partial
    s dump t name recursive hashAlgo h p :
  env_ok E -> add_pre E s p ∅ -> node_bounded t -> chunk_ok dump -> dump_tree recursive dump t ->
  hashString hashAlgo dump = Ok h -> makeFixedOutputPath (nixStore E) recursive hashAlgo h name = Ok p ->
  adds E p t ∅ s (addToStoreFromDump E can_link_symlink emlink_link emlink_rename rand partial dump name recursive hashAlgo false s).
Proof. intros HE. by apply addToStoreFromDump_adds. Qed.

(** [addTextToStore] returns the path computed from the text and its references;
    it is then valid, its object is a regular file, not executable, with the text as
    its contents, and its references are exactly the given ones, which have to be
    valid. *)
Theorem addTextToStore_correct E `{HA : HashAlgo} {HL : HashAlgoLaws} can_link_symlink emlink_link emlink_rename rand
    s name text refs p :
  env_ok E -> add_pre E s p refs -> chunk_ok text -> computeStorePathForText (nixStore E) name text refs = Ok p ->
  adds E p (NReg false text) refs s (addTextToStore E can_link_symlink emlink_link emlink_rename rand name text refs false s).
Proof.
  intros HE Hpre Hc Hp. pose proof Hp as Hp'. unfold computeStorePathForText in Hp'. apply bind_Ok in Hp' as (h & _ & Hp').
  destruct (makeStorePath_shape E HE _ _ _ _ Hp') as (Hsp & n & -> & Hn & Hnul).
  unfold addTextToStore. rewrite (run_lift _ _ _ (child (nixStore E) n)) by done.
  assert (node_bounded (NReg false text)) as Hb by (cbn; unfold chunk_ok in Hc; lia).
  apply (add_path_adds E can_link_symlink emlink_link emlink_rename rand HE s n (NReg false text)
    (writeFile E (child (nixStore E) n) text) (hash_path E htSHA256 (child (nixStore E) n)) refs Hpre); try done.
  - intros fs Hfr Hpo. by apply writeFile_run.
  - intros s' Ht. by apply hash_path_run.
Qed.


(** ** Witnesses *)

Definition empty_state : sstate := mkS empty_store gc_fs sample_attr ∅ None 0 ∅.

Lemma sample_apart k : under ($"/nix/store") k -> ~ under ($"/nix/var/nix") k.
Proof.
  intros [r Hr]%under_prefix [r' Hr']%under_prefix. rewrite Hr in Hr'. apply (f_equal (take 6)) in Hr'. vm_compute in Hr'. discriminate Hr'.
Qed.

Lemma sample_env_ok : env_ok sample_env.
Proof.
  split; try discriminate; try reflexivity; [exact sample_apart|]. intros p. apply sched_ok_nil.
Qed.

Lemma empty_ready : store_ready sample_env empty_state.
Proof.
  split; [|exact empty_store_ok|].
  - pose proof sample_ready as [R1 R2 R3 R4 R5 R6 R7]. by split.
  - apply (bool_decide_unpack (gc_fs !! ($"/nix/store") = Some IDir)). vm_compute. exact I.
Qed.

Lemma empty_pre p refs :
  isDerivation p = false -> match gc_fs !! lockPath p with None | Some (IReg _ []) => True | _ => False end ->
  (forall q, q ∈ refs -> q = p) -> add_pre (HA := checksum_algo) sample_env empty_state p refs.
Proof.
  intros Hd Hl Hr. split; [exact empty_ready| | |exact Hd| | | | |].
  - intros i r Hi. discriminate Hi.
  - apply (bool_decide_unpack (Forall (fun c => char_eqb c NUL = false) ($"/nix/store"))). vm_compute. exact I.
  - intros q Hq. left. by apply Hr.
  - reflexivity.
  - split; [exact Hl|apply not_elem_of_empty].
  - apply not_elem_of_empty.
  - intros k _. left. reflexivity.
Qed.

Definition tree_a : node := NDir [($"f", NReg false ($"x"))].
Definition hash_a : Hash := default Hash_default (match hashString (HA := checksum_algo) htSHA256 (enc_archive tree_a) with Ok h => Some h | _ => None end).
Definition dst_a : str :=
  match makeFixedOutputPath (HA := checksum_algo) ($"/nix/store") true htSHA256 hash_a ($"abc-a") with Ok p => p | _ => [] end.

Lemma addToStore_copies_witness :
  adds (HA := checksum_algo) sample_env dst_a tree_a ∅ empty_state
    (addToStore (HA := checksum_algo) sample_env false (fun _ _ => false) (fun _ _ => false) (fun _ => 0%Z) (fun fs _ => fs)
       (fun _ => true) path_a true htSHA256 false empty_state).
Proof.
  apply (addToStore_copies sample_env (HA := checksum_algo) (HL := checksum_laws) false (fun _ _ => false) (fun _ _ => false) (fun _ => 0%Z) (fun fs _ => fs)
    (fun _ => true) path_a path_a ($"abc-a") htSHA256 hash_a dst_a tree_a empty_state sample_env_ok).
  - vm_compute. reflexivity.
  - vm_compute. reflexivity.
  - vm_compute. reflexivity.
  - vm_compute. split; [|split; [|exact I]]; reflexivity.
  - vm_compute. reflexivity.
  - vm_compute. reflexivity.
  - vm_compute. reflexivity.
  - apply empty_pre; [vm_compute; reflexivity|vm_compute; exact I|]. intros q Hq. exact (False_ind _ (not_elem_of_empty q Hq)).
Defined.

Lemma addToStoreFromDump_correct_witness :
  adds (HA := checksum_algo) sample_env dst_a tree_a ∅ empty_state
    (addToStoreFromDump (HA := checksum_algo) sample_env false (fun _ _ => false) (fun _ _ => false) (fun _ => 0%Z) (fun fs _ => fs)
       (enc_archive tree_a) ($"abc-a") true htSHA256 false empty_state).
Proof.
  apply (addToStoreFromDump_correct sample_env (HA := checksum_algo) (HL := checksum_laws) false (fun _ _ => false) (fun _ _ => false) (fun _ => 0%Z)
    (fun fs _ => fs) empty_state (enc_archive tree_a) tree_a ($"abc-a") true htSHA256 hash_a dst_a sample_env_ok).
  - apply empty_pre; [vm_compute; reflexivity|vm_compute; exact I|]. intros q Hq. exact (False_ind _ (not_elem_of_empty q Hq)).
  - vm_compute. split; [|split; [|exact I]]; reflexivity.
  - vm_compute. reflexivity.
  - split; [reflexivity|]. apply (proj1 (tree_of_sorted gc_fs (fun _ => true) 3 path_a tree_a ltac:(vm_compute; reflexivity))).
  - vm_compute. reflexivity.
  - vm_compute. reflexivity.
Defined.

Definition dst_text : str :=
  match computeStorePathForText (HA := checksum_algo) ($"/nix/store") ($"text") ($"hi") ∅ with Ok p => p | _ => [] end.

Lemma addTextToStore_correct_witness :
  adds (HA := checksum_algo) sample_env dst_text (NReg false ($"hi")) ∅ empty_state
    (addTextToStore (HA := checksum_algo) sample_env false (fun _ _ => false) (fun _ _ => false) (fun _ => 0%Z) ($"text") ($"hi") ∅ false empty_state).
Proof.
  apply (addTextToStore_correct sample_env (HA := checksum_algo) (HL := checksum_laws) false (fun _ _ => false) (fun _ _ => false) (fun _ => 0%Z)
    empty_state ($"text") ($"hi") ∅ dst_text sample_env_ok).
  - apply empty_pre; [vm_compute; reflexivity|vm_compute; exact I|]. intros q Hq. exact (False_ind _ (not_elem_of_empty q Hq)).
  - vm_compute. reflexivity.
  - vm_compute. reflexivity.
Defined.
