(* ===== verification/Export.v ===== *)
(** * Exporting and importing store paths (src/src/libstore/local-store.cc)

    [exportPath] writes the archive of a path, its name, references and deriver,
    and optionally a signature, to a sink; [importPath] and [importPaths] read them
    from a source, unpack the archive in a temporary directory of the store and
    register the path.  The sinks and sources that hash what passes through them
    ([HashAndWriteSink], [HashAndReadSource]) wrap any sink and source of
    [Serialise.v].  OpenSSL, which signs and verifies, is a parameter.

    The theorems: an export writes exactly the encoding of the path, and nothing is
    exported as valid whose contents have changed; importing what another store
    exported makes the path valid with the same tree and references. *)

From Stdlib Require Import ZArith Lia Ascii Relations.
From stdpp Require Import base strings sorting numbers gmap sets list.
From S2P Require Import Prelude Effects Util Serialise Hash FileSystem FileOps Archive References StorePath Derivations Closure LocalStore GCRoots GC PathLocks StoreFiles Optimise AddToStore Wire.

(** ** Sinks and sources that hash *)

Section HashAnd.
Context `{HA : HashAlgo}.

Record HashAndWriteSink (K : Type) : Type := mkHashAndWriteSink { hw_writeSink : K; hw_hashSink : BufferedSink HashState }.
Arguments mkHashAndWriteSink {K} _ _.
Arguments hw_writeSink {K} _.
Arguments hw_hashSink {K} _.

Definition HashAndWriteSink_new {K} (writeSink : K) : HashAndWriteSink K := mkHashAndWriteSink writeSink (HashSink_new htSHA256).
#[export] Instance HashAndWriteSink_sink {K} `{Sink K} : Sink (HashAndWriteSink K) := fun w data =>
  k ← sink_write (hw_writeSink w) data;
  h ← sink_write (hw_hashSink w) data;
  Ok (mkHashAndWriteSink k h).
Definition currentHash {K} (w : HashAndWriteSink K) : result (Hash * HashAndWriteSink K) :=
  '(h, s) ← HashSink_currentHash (hw_hashSink w);
  Ok (fst h, mkHashAndWriteSink (hw_writeSink w) s).

Record HashAndReadSource (S : Type) : Type := mkHashAndReadSource { hr_readSource : S; hr_hashSink : BufferedSink HashState; hr_hashing : bool }.
Arguments mkHashAndReadSource {S} _ _ _.
Arguments hr_readSource {S} _.
Arguments hr_hashSink {S} _.
Arguments hr_hashing {S} _.

Definition HashAndReadSource_new {S} (readSource : S) : HashAndReadSource S := mkHashAndReadSource readSource (HashSink_new htSHA256) true.
#[export] Instance HashAndReadSource_source {S} `{Source S} : Source (HashAndReadSource S) := fun len r =>
  '(data, s) ← source_read len (hr_readSource r);
  h ← (if hr_hashing r then sink_write (hr_hashSink r) data else Ok (hr_hashSink r));
  Ok (data, mkHashAndReadSource s h (hr_hashing r)).
Definition stop_hashing {S} (r : HashAndReadSource S) : HashAndReadSource S :=
  mkHashAndReadSource (hr_readSource r) (hr_hashSink r) false.
End HashAnd.
Arguments mkHashAndWriteSink {HA K} _ _.
Arguments hw_writeSink {HA K} _.
Arguments hw_hashSink {HA K} _.
Arguments mkHashAndReadSource {HA S} _ _ _.
Arguments hr_readSource {HA S} _.
Arguments hr_hashSink {HA S} _.
Arguments hr_hashing {HA S} _.

Definition EXPORT_MAGIC : Z := 1163413838.

(** ** The operations *)

Section Exporting.
Context (E : Env) `{HA : HashAlgo}.
Context (can_link_symlink : bool) (emlink_link emlink_rename : FileSys -> str -> bool) (rand : FileSys -> Z).
Context (partial : FileSys -> str -> FileSys).
(** [runProgram(OPENSSL_PATH, true, args)], and [getEnv("NIX_HELD_LOCKS")]. *)
Context (openssl : list str -> FileSys -> result str) (heldLocks : str).
Abbreviation store := (nixStore E).

(** A block with an [AutoDelete] object. *)
Definition auto_delete {A} (path : str) (m : M sstate A) : M sstate A := fun s =>
  let delete s := match on_del (deletePath (st_nlink E) (st_blocks E) path) s with Done _ s | Raised _ s => Some s | Stuck => None end in
  match m s with
  | Done a s => match delete s with Some s => Done a s | None => Stuck end
  | Raised e s => match delete s with Some s => Raised e s | None => Stuck end
  | Stuck => Stuck
  end.

Definition checkSecrecy (s : sstate) (path : str) : result unit :=
  match follow E maxLinks (s_fs s) path with
  | Some q =>
      match s_fs s !! q with
      | Some i =>
          if negb (Z.land (st_perm i (s_attr s q)) 63 =? 0)%Z
          then error ($"file `" ++ path ++ $"' should be secret (inaccessible to everybody else)!") else Ok tt
      | None => throw eSysError ($"getting status of `" ++ path ++ $"'")
      end
  | None => throw eSysError ($"getting status of `" ++ path ++ $"'")
  end.

(** The check that the contents have not changed since the path was registered. *)
Definition check_hash (path : str) (hash storedHash : Hash) : result unit :=
  if Hash_neqb hash storedHash then
    zero ← Hash_new (type storedHash);
    if Hash_neqb storedHash zero
    then error ($"hash of path `" ++ path ++ $"' has changed from `" ++ printHash storedHash ++ $"' to `" ++ printHash hash ++ $"'!")
    else Ok tt
  else Ok tt.

Definition make_signature (fuel : nat) (hash : Hash) : M sstate str :=
  tmpDir ← on_tmp (createTempDir E fuel []);
  auto_delete tmpDir
    (let hashFile := tmpDir ++ $"/hash" in
     let secretKey := nixConfDir E ++ $"/signing-key.sec" in
     _ ← on_fs (writeFile E hashFile (printHash hash));
     _ ← lift (fun s => checkSecrecy s secretKey);
     lift (fun s => openssl [$"rsautl"; $"-sign"; $"-inkey"; secretKey; $"-in"; hashFile] (s_fs s))).

Definition exportPath {K} `{Sink K} (fuel : nat) (path : str) (sign : bool) (sink : K) : M sstate K :=
  _ ← lift (fun _ => assertStorePath store path);
  _ ← addTempRoot E path;
  v ← isValid path;
  if negb v then raise eError ($"path `" ++ path ++ $"' is not valid")
  else
    w ← lift (fun s => dumpPath (s_fs s) (sched E) (fun _ => true) (S (size (s_fs s))) path (HashAndWriteSink_new sink));
    '(hash, w) ← lift (fun _ => currentHash w);
    storedHash ← lift (fun s => queryPathHash store (s_ls s) path);
    _ ← lift (fun _ => check_hash path hash storedHash);
    w ← lift (fun _ => writeInt EXPORT_MAGIC w);
    w ← lift (fun _ => writeString path w);
    references ← lift (fun s => ls_queryReferences store (s_ls s) path);
    w ← lift (fun _ => writeStringSet references w);
    deriver ← lift (fun s => queryDeriver store (s_ls s) path);
    w ← lift (fun _ => writeString deriver w);
    if sign then
      '(hash, w) ← lift (fun _ => currentHash w);
      w ← lift (fun _ => writeInt 1 w);
      signature ← make_signature fuel hash;
      w ← lift (fun _ => writeString signature w);
      mret (hw_writeSink w)
    else
      w ← lift (fun _ => writeInt 0 w);
      mret (hw_writeSink w).

(** [exportPaths] (store-api.cc) of this store. *)
Fixpoint exportPaths_loop {K} `{Sink K} (fuel : nat) (paths : list str) (sign : bool) (sink : K) : M sstate K :=
  match paths with
  | [] => mret sink
  | i :: paths =>
      sink ← lift (fun _ => writeInt 1 sink);
      sink ← exportPath fuel i sign sink;
      exportPaths_loop fuel paths sign sink
  end.
Definition exportPaths {K} `{Sink K} (fuel : nat) (paths : list str) (sign : bool) (sink : K) : M sstate K :=
  sink ← exportPaths_loop fuel paths sign sink;
  lift (fun _ => writeInt 0 sink).

Fixpoint createTempDirInStore (fuel : nat) : M sstate str :=
  match fuel with
  | O => stuck
  | S fuel =>
      tmpDir ← on_tmp (createTempDir E fuel store);
      _ ← addTempRoot E tmpDir;
      e ← gets (fun s => pathExists (s_fs s) tmpDir);
      if (e : bool) then mret tmpDir else createTempDirInStore fuel
  end.

(** [rename], which takes the attributes of the objects along. *)
Definition move_attrs (a b : str) (at_ : str -> attr) : str -> attr :=
  fun k => if underb b k then at_ (moved b a k) else at_ k.
Definition rename_object (a b : str) : M sstate unit :=
  update (fun s =>
    match sys_rename (s_fs s) a b with
    | Some fs => Ok (set_fattr (fs, move_attrs a b (s_attr s)) s)
    | None => throw eSysError ($"cannot move `" ++ a ++ $"' to `" ++ b ++ $"'")
    end).

(** The part that is read from the source. *)
Record import_data : Type := mkImport { im_path : str; im_refs : gset str; im_deriver : str }.
Definition read_trailer {S} `{Source S} (src : HashAndReadSource S) : result (import_data * HashAndReadSource S) :=
  '(magic, src) ← readInt src;
  if negb (magic =? EXPORT_MAGIC)%Z then error ($"Nix archive cannot be imported; wrong format")
  else
    '(dstPath, src) ← readStorePath store src;
    '(references, src) ← readStorePathSet store src;
    '(deriver, src) ← readString src;
    _ ← (match deriver with [] => Ok tt | _ => assertStorePath store deriver end);
    Ok (mkImport dstPath references deriver, src).

Definition check_signature {S} `{Source S} (tmpDir dstPath : str) (requireSignature : bool) (hash : Hash)
    (src : HashAndReadSource S) : M sstate (HashAndReadSource S) :=
  '(flag, src) ← lift (fun _ => readInt src);
  let haveSignature := (flag =? 1)%Z in
  if requireSignature && negb haveSignature
  then raise eError ($"imported archive of `" ++ dstPath ++ $"' lacks a signature")
  else if haveSignature then
    '(signature, src) ← lift (fun _ => readString src);
    if requireSignature then
      let sigFile := tmpDir ++ $"/sig" in
      _ ← on_fs (writeFile E sigFile signature);
      hash2 ← lift (fun s => openssl [$"rsautl"; $"-verify"; $"-inkey"; nixConfDir E ++ $"/signing-key.pub"; $"-pubin"; $"-in"; sigFile] (s_fs s));
      if negb (str_eqb (printHash hash) hash2)
      then raise eError ($"signed hash doesn't match actual contents of imported archive; archive could be corrupt, or someone is trying to import a Trojan horse")
      else mret src
    else mret src
  else mret src.

(** [deriver != "" && isValidPath(deriver) ? deriver : ""] *)
Definition valid_deriver (d : str) : M sstate str :=
  match d with
  | [] => mret []
  | _ => v ← isValid d; mret (if (v : bool) then d else [])
  end.

(** The block that is run with the lock on the path, and the lock. *)
Definition import_object (unpacked : str) (d : import_data) : M sstate unit :=
  let dstPath := im_path d in
  v ← isValid dstPath;
  if negb v then
    _ ← clear_path E dstPath;
    _ ← rename_object unpacked dstPath;
    finish_path E can_link_symlink emlink_link emlink_rename rand dstPath (hash_path E htSHA256 dstPath) (im_refs d)
      (valid_deriver (im_deriver d))
  else mret tt.
Definition import_locked (unpacked : str) (d : import_data) : M sstate unit :=
  fds ← (if bool_decide (im_path d ∈ tokenizeString heldLocks [" "%char; TAB; NL; CR]) then mret [] else lockPaths E {[im_path d]});
  locked_block (import_object unpacked d) fds.

Definition restore_from {S} `{Source S} (fuel : nat) (p : str) (src : S) : M FileSys S := fun fs =>
  match restorePath (umask E) (posix_fallocate E) fuel fs p src with
  | Ok (fs, src) => Done src fs
  | Throw e => Raised e (partial fs p)
  | NoFuel => Stuck
  end.

(** With the archive unpacked in the temporary directory. *)
Definition import_unpack {S} `{Source S} (fuel : nat) (requireSignature : bool) (tmpDir : str) (source : S) : M sstate (import_data * S) :=
  src ← on_fs (restore_from fuel (tmpDir ++ $"/unpacked") (HashAndReadSource_new source));
  '(d, src) ← lift (fun _ => read_trailer src);
  '(hash, _) ← lift (fun _ => HashSink_finish (hr_hashSink src));
  src ← check_signature tmpDir (im_path d) requireSignature hash (stop_hashing src);
  mret (d, hr_readSource src).
Definition import_register (tmpDir : str) (d : import_data) : M sstate unit :=
  _ ← addTempRoot E (im_path d);
  v ← isValid (im_path d);
  if negb v then import_locked (tmpDir ++ $"/unpacked") d else mret tt.

Definition importPath {S} `{Source S} (fuel : nat) (requireSignature : bool) (source : S) : M sstate (str * S) :=
  tmpDir ← createTempDirInStore fuel;
  auto_delete tmpDir
    ('(d, source) ← import_unpack fuel requireSignature tmpDir source;
     _ ← import_register tmpDir d;
     mret (im_path d, source)).

Fixpoint importPaths {S} `{Source S} (n fuel : nat) (requireSignature : bool) (source : S) : M sstate (list str * S) :=
  match n with
  | O => stuck
  | Datatypes.S n =>
      '(k, source) ← lift (fun _ => readLongLong source);
      if (k =? 0)%Z then mret ([], source)
      else if negb (k =? 1)%Z then raise eError ($"input doesn't look like something created by `nix-store --export'")
      else
        '(p, source) ← importPath fuel requireSignature source;
        '(res, source) ← importPaths n fuel requireSignature source;
        mret (p :: res, source)
  end.
End Exporting.

(** * Lemmas *)

(** ** Hashing sinks and sources *)

Section HashAndLaws.
Context `{HA : HashAlgo} {HL : HashAlgoLaws}.
Abbreviation sha := (hash_of_bytes htSHA256 32).
Abbreviation hash_rep := (sink_rep (SinkLaws := HashSink_laws_at htSHA256)).

Lemma HashSink_currentHash_at (s : BufferedSink HashState) l : hash_rep s l ->
  exists s', HashSink_currentHash s = Ok ((sha l, u64 (Z.of_nat (length l))), s') /\ hash_rep s' l.
Proof.
  intros HR. pose proof (HashSink_finish_at htSHA256 32 s l eq_refl HR) as Hf. unfold HashSink_finish in Hf. unfold HashSink_currentHash.
  pose proof HR as (Hb & Hc & _).
  destruct (flush_law HashSink_write (hashstate_rep htSHA256)) with (s := s) (l := l) as (s' & E & R & Eb & Es); [apply HashSink_write_law|exact HR|].
  rewrite E in *. cbn [mbind result_bind] in *. destruct (Hash_new _) as [h| |]; [|discriminate Hf..].
  cbn [mbind result_bind] in *. exists s'. split; [congruence|]. split_and!.
  - rewrite Eb, Es. cbn. lia.
  - by rewrite Es.
  - exists l. by rewrite Eb, app_nil_r.
Qed.

(** Everything written since [l0] is hashed. *)
#[program] Definition HashAndWriteSink_laws {K} `{SinkLaws K} (l0 : str) : SinkLaws (HashAndWriteSink K) := {|
  sink_rep w l := sink_rep (hw_writeSink w) (l0 ++ l) /\ hash_rep (hw_hashSink w) l |}.
Next Obligation.
  intros K SK LK l0 w l d [H1 H2] Hd. destruct (sink_write_law _ _ _ H1 Hd) as (k & E1 & R1).
  destruct (sink_write_law (SinkLaws := HashSink_laws_at htSHA256) _ _ _ H2 Hd) as (h & E2 & R2).
  exists (mkHashAndWriteSink k h). unfold sink_write at 1, HashAndWriteSink_sink. rewrite E1. cbn [mbind result_bind]. rewrite E2.
  split; [done|]. by rewrite <- app_assoc in R1.
Qed.

Lemma HashAndWriteSink_new_rep {K} `{SinkLaws K} (sink : K) l0 :
  sink_rep sink l0 -> sink_rep (SinkLaws := HashAndWriteSink_laws l0) (HashAndWriteSink_new sink) [].
Proof. intros Hl. split; [cbn [hw_writeSink HashAndWriteSink_new]; by rewrite app_nil_r|apply HashSink_new_at]. Qed.

Lemma currentHash_run {K} `{SinkLaws K} l0 (w : HashAndWriteSink K) l :
  sink_rep (SinkLaws := HashAndWriteSink_laws l0) w l ->
  exists w', currentHash w = Ok (sha l, w') /\ sink_rep (SinkLaws := HashAndWriteSink_laws l0) w' l.
Proof.
  intros [H1 H2]. destruct (HashSink_currentHash_at _ _ H2) as (s' & Es & Rs). unfold currentHash. rewrite Es. cbn [mbind result_bind].
  eexists. split; [done|]. by split.
Qed.

(** A stream of less than 4 GiB: what has been read while hashing is hashed. *)
Definition hashed {S} `{SourceLaws S} (total : str) (r : HashAndReadSource S) : Prop :=
  hr_hashing r = true -> exists l, l ++ source_rem (hr_readSource r) = total /\ hash_rep (hr_hashSink r) l.
#[program] Definition HashAndReadSource_laws {S} `{SourceLaws S} (b : bool) (total : str) (Ht : chunk_ok total) : SourceLaws (HashAndReadSource S) := {|
  source_ok r := source_ok (hr_readSource r) /\ hr_hashing r = b /\ hashed total r; source_rem r := source_rem (hr_readSource r) |}.
Next Obligation.
  intros S SS LS b total Ht n r (H1 & Hb & H2) Hn Hr. destruct (source_read_some n _ H1 Hn Hr) as (d & s' & E1 & Hd & Hl & Er & O').
  unfold source_read at 1, HashAndReadSource_source. rewrite E1. cbn [mbind result_bind]. destruct (hr_hashing r) eqn:Eh.
  - destruct (H2 Eh) as (l & El & Rl). rewrite Er in El.
    destruct (sink_write_law (SinkLaws := HashSink_laws_at htSHA256) _ _ d Rl) as (h & E2 & R2).
    { apply (chunk_ok_le total); [done|]. rewrite <- El, !length_app. lia. }
    rewrite E2. cbn [mbind result_bind]. eexists _, _. split_and!; [done|done|done|done|done|by rewrite <- Hb|]. intros _. exists (l ++ d).
    cbn [hr_readSource hr_hashSink]. by rewrite <- app_assoc.
  - cbn [mbind result_bind]. eexists _, _. split_and!; [done|done|done|done|done|by rewrite <- Hb|]. intros ?. cbn in *. congruence.
Qed.

Lemma HashAndReadSource_new_ok {S} `{SourceLaws S} (src : S) (Ht : chunk_ok (source_rem src)) :
  source_ok src -> source_ok (SourceLaws := HashAndReadSource_laws true (source_rem src) Ht) (HashAndReadSource_new src).
Proof. intros Ho. split; [done|]. split; [done|]. intros _. exists []. split; [done|apply HashSink_new_at]. Qed.
End HashAndLaws.

(** ** The encoding of an exported path *)

Definition enc_trailer (p : str) (refs : gset str) (d : str) : str :=
  enc_int EXPORT_MAGIC ++ enc_string p ++ enc_strings (set_iter refs) ++ enc_string d.
Definition enc_signature (sig : option str) : str :=
  match sig with None => enc_int 0 | Some x => enc_int 1 ++ enc_string x end.
Definition enc_export (p : str) (t : node) (refs : gset str) (d : str) (sig : option str) : str :=
  enc_archive t ++ enc_trailer p refs d ++ enc_signature sig.

(** The strings fit the format. *)
Record trailer_fits (p : str) (refs : gset str) (d : str) : Prop := {
  tf_path : chunk_ok p;
  tf_refs : Forall chunk_ok (set_iter refs);
  tf_size : (Z.of_nat (size refs) < 2 ^ 32)%Z;
  tf_deriver : chunk_ok d }.

Lemma magic_bound : (0 <= EXPORT_MAGIC < 2 ^ 32)%Z.
Proof. vm_compute. split; [discriminate|reflexivity]. Qed.

Section ExportTheory.
Context (E : Env) `{HA : HashAlgo} {HL : HashAlgoLaws} (HE : env_ok E).
Context (openssl : list str -> FileSys -> result str).
Abbreviation store := (nixStore E).

(** The database of a path, as an export reads it. *)
Record exportable (s : sstate) (p : str) (h : Hash) (refs : gset str) (d : str) : Prop := {
  ex_ready : store_ready E s;
  ex_nul : Forall (fun c => char_eqb c NUL = false) p;
  ex_valid : p ∈ all_paths (ls_db (s_ls s));
  ex_hash : queryPathHash store (s_ls s) p = Ok h;
  ex_refs : ls_queryReferences store (s_ls s) p = Ok refs;
  ex_deriver : queryDeriver store (s_ls s) p = Ok d;
  ex_fits : trailer_fits p refs d }.

Lemma valid_store_path s p : ls_ok store (s_ls s) -> p ∈ all_paths (ls_db (s_ls s)) -> isStorePath store p = true.
Proof. intros Hok (i & r & Hi & <-)%elem_of_all_paths. by destruct (ok_rows _ _ Hok i r Hi) as [? _]. Qed.

Lemma under_valid s p k : ls_ok store (s_ls s) -> p ∈ all_paths (ls_db (s_ls s)) -> under p k -> under store k.
Proof. intros Hok Hp. apply under_store; [apply HE|by apply (valid_store_path s)]. Qed.

(** Everything up to the check of the hash. *)
Lemma export_start {K} `{SinkLaws K} s p h refs d (sink : K) l t (k : Hash * HashAndWriteSink K -> M sstate K) :
  exportable s p h refs d -> sink_rep sink l -> tree_of (s_fs s) (fun _ => true) (S (size (s_fs s))) p = Some t -> node_bounded t ->
  exists s1 w, store_ready E s1 /\ s_ls s1 = s_ls s /\ (forall j, under store j -> s_fs s1 !! j = s_fs s !! j) /\
    sink_rep (SinkLaws := HashAndWriteSink_laws l) w (enc_archive t) /\
    (_ ← lift (fun _ => assertStorePath store p);
     _ ← addTempRoot E p;
     v ← isValid p;
     if negb v then raise eError ($"path `" ++ p ++ $"' is not valid")
     else
       w ← lift (fun s => dumpPath (s_fs s) (sched E) (fun _ => true) (S (size (s_fs s))) p (HashAndWriteSink_new sink));
       hw ← lift (fun _ => currentHash w);
       k hw) s = k (nar_hash t, w) s1.
Proof.
  intros [X1 X2 X3 X4 X5 X6 X7] Hl Ht Hb.
  destruct (addTempRoot_store E HE s p X1 X2) as (s1 & E1 & R1 & L1 & _ & _ & _ & K1).
  assert (Ht1 : tree_of (s_fs s1) (fun _ => true) (S (size (s_fs s1))) p = Some t).
  { apply (tree_of_same (s_fs s) _ _ _ _ Ht). intros j Hj. apply K1. apply (under_valid s p); [apply X1|done|done]. }
  destruct (dumpPath_writes (H0 := HashAndWriteSink_laws l) (s_fs s1) (sched E) (fun _ => true) (eo_sched E HE) (S (size (s_fs s1))) p t Ht1 Hb
    (HashAndWriteSink_new sink) [] (HashAndWriteSink_new_rep sink l Hl)) as (w & Ew & Rw).
  destruct (currentHash_run l w _ Rw) as (w' & Ew' & Rw').
  exists s1, w'. split_and!; [done|done|done|done|].
  rewrite (run_lift _ _ _ tt).
  2:{ unfold assertStorePath. by rewrite (valid_store_path s p) by (done || apply X1). }
  rewrite (run_bind _ _ _ _ _ E1). unfold isValid. rewrite (run_lift _ _ _ true).
  2:{ unfold ls_isValidPath. f_equal. apply bool_decide_eq_true. by rewrite sql_path_valid, L1. }
  cbn [negb]. erewrite run_lift by exact Ew. by erewrite run_lift by exact Ew'.
Qed.

Lemma pathHash_ok s p h : ls_ok store (s_ls s) -> p ∈ all_paths (ls_db (s_ls s)) -> queryPathHash store (s_ls s) p = Ok h ->
  hash_ok h /\ type h = htSHA256.
Proof.
  intros Hok Hp. destruct (valid_path_row store _ p Hok Hp) as (i & r & h' & E1 & _ & Hs & Hh & Ht & Hf).
  unfold queryPathHash, queryPathInfo, assertStorePath. rewrite Hs. cbn [mbind result_bind]. rewrite E1, Hf, parseHashField_ok by done.
  cbn. intros [= <-]. done.
Qed.

Lemma check_hash_run p t h : hash_ok h -> type h = htSHA256 ->
  (h = nar_hash t -> check_hash p (nar_hash t) h = Ok tt) /\
  (h <> nar_hash t -> Hash_new htSHA256 <> Ok h -> exists msg, check_hash p (nar_hash t) h = Throw (Exn eError msg)).
Proof.
  intros [Hwf Hsz] Ht. destruct (hash_of_bytes_ok htSHA256 32 (enc_archive t) eq_refl) as [Nwf _]. fold (nar_hash t) in Nwf.
  destruct (Hash_eqb_spec (nar_hash t) h Nwf Hwf ltac:(by rewrite Ht)) as [Q1 Q2]. unfold check_hash. rewrite Q2.
  destruct (Hash_eqb (nar_hash t) h) eqn:Eq; cbn [negb]; [apply proj1 in Q1; specialize (Q1 eq_refl); by split|].
  split; [intros Hn; discriminate (proj2 Q1 (eq_sym Hn))|]. intros _ Hz. rewrite Ht.
  destruct (Hash_new htSHA256) as [z| |] eqn:Ez; [|discriminate Ez..]. cbn [mbind result_bind].
  assert (hash_wf z /\ type z = htSHA256) as [Zwf Zt].
  { injection Ez as <-. split; [|done]. split; [done| |done|done]. apply (Forall_replicate byte 32 0%Z). done. }
  destruct (Hash_eqb_spec h z Hwf Zwf ltac:(congruence)) as [Z1 Z2]. rewrite Z2.
  destruct (Hash_eqb h z) eqn:Eh; [by destruct Hz; rewrite (proj1 Z1 eq_refl)|]. cbn [negb]. by eexists.
Qed.

Lemma exportPath_run {K} `{SinkLaws K} fuel s p h refs d (sink : K) l t :
  exportable s p h refs d -> sink_rep sink l -> tree_of (s_fs s) (fun _ => true) (S (size (s_fs s))) p = Some t -> node_bounded t ->
  h = nar_hash t ->
  exists s' sink', exportPath E openssl fuel p false sink s = Done sink' s' /\ sink_rep sink' (l ++ enc_export p t refs d None) /\
    store_ready E s' /\ s_ls s' = s_ls s /\ forall j, under store j -> s_fs s' !! j = s_fs s !! j.
Proof.
  intros Hex Hl Ht Hb Hh. pose proof Hex as [X1 X2 X3 X4 X5 X6 [F1 F2 F3 F4]].
  destruct (pathHash_ok s p h (sr_ls E s X1) X3 X4) as [Hok Hty]. destruct (check_hash_run p t h Hok Hty) as [Hck _].
  pose (L := HashAndWriteSink_laws (K := K) l).
  epose proof (export_start s p h refs d sink l t _ Hex Hl Ht Hb) as (s1 & w & R1 & L1 & K1 & Rw & Es).
  unfold exportPath. rewrite Es. clear Es. cbv beta iota. erewrite run_lift by (rewrite L1; exact X4). erewrite run_lift by (by apply Hck).
  destruct (writeInt_writes (H0 := L) EXPORT_MAGIC magic_bound w _ Rw) as (w1 & E1 & R2). erewrite run_lift by exact E1.
  destruct (writeString_writes (H0 := L) p F1 w1 _ R2) as (w2 & E2 & R3). erewrite run_lift by exact E2.
  erewrite run_lift by (rewrite L1; exact X5).
  destruct (writeStringSet_writes (H0 := L) refs F3 F2 w2 _ R3) as (w3 & E3 & R4). erewrite run_lift by exact E3.
  erewrite run_lift by (rewrite L1; exact X6).
  destruct (writeString_writes (H0 := L) d F4 w3 _ R4) as (w4 & E4 & R5). erewrite run_lift by exact E4.
  destruct (writeInt_writes (H0 := L) 0 ltac:(lia) w4 _ R5) as (w5 & E5 & [R6 _]). erewrite run_lift by exact E5.
  exists s1, (hw_writeSink w5). split_and!; [done| |done|done|done].
  unfold enc_export, enc_trailer, enc_signature. rewrite !app_assoc in R6 |- *. exact R6.
Qed.
End ExportTheory.

(** ** Temporary directories in the store *)

Section TempDir.
Context (E : Env) (HE : env_ok E).
Abbreviation store := (nixStore E).

(** The directories above an object are not symbolic links. *)
Lemma ancestors_dirs fs b : forall a, fs_wf fs -> Forall (token [slash]) (a ++ b) -> a <> [] -> b <> [] -> fs !! render (a ++ b) <> None ->
  fs !! render a = Some IDir.
Proof.
  induction b as [|c b IH]; intros a Hwf Ht Ha Hb Hex; [done|].
  assert (fs !! render (a ++ [c]) <> None) as Hc.
  { destruct b as [|c' b]; [done|]. rewrite (IH (a ++ [c])); [done|done|by rewrite <- app_assoc|by destruct a|done|by rewrite <- app_assoc]. }
  rewrite render_snoc in Hc. destruct (Hwf _ Hc) as (d & n & Ed & Hn & Hd). fold (child (render a) c) in Ed.
  assert (name_ok c = true) as Hok.
  { apply Forall_app in Ht as [_ [[Hne Ht] _]%Forall_cons]. apply name_ok_spec. split; [done|]. eapply Forall_impl; [exact Ht|]. cbn.
    intros x Hx. by rewrite <- is_sep_slash. }
  apply child_inj in Ed as [<- <-]; [|done|done]. destruct Hd as [Hd|Hd]; [|done]. by apply render_nil in Hd.
Qed.

Lemma canonPath_resolved fs fuel path :
  fs_wf fs -> canonPath path = Ok path -> fs !! path = Some IDir -> (length path < fuel)%nat ->
  canonPath_fuel (isLink fs) (readLink fs) fuel true path = Ok path.
Proof.
  intros Hwf Hc Hdir Hf. assert (Habs : is_abs path = true).
  { unfold canonPath, canonPath_fuel in Hc. by destruct (is_abs path). }
  rewrite canonPath_abs in Hc by done. injection Hc as Hc. pose proof (path_components_normal path) as Hn.
  set (cs := path_components path) in *. assert (Htok : Forall (token [slash]) cs) by (eapply Forall_impl; [exact Hn|by intros x []]).
  assert (Ets : tokenizeString path [slash] = cs) by (rewrite <- Hc; by apply tokenize_render).
  unfold canonPath_fuel. rewrite Habs. change (@nil ascii) with (render []).
  rewrite canonPath_loop_nolinks; [|done|by rewrite Ets|].
  - rewrite canonPath_loop_spec by done. rewrite Ets, foldl_norm_id by done. cbn [app]. by rewrite Hc.
  - rewrite Ets. cbn [app]. intros a b Eab Ha. rewrite Eab in *. unfold isLink. destruct b as [|c b].
    + rewrite app_nil_r in *. destruct a; [done|]. cbn [render_path] in Hc. by rewrite Hc, Hdir.
    + rewrite (ancestors_dirs fs (c :: b) a); [done|done|done|done|done|]. destruct a; [done|]. cbn [app render_path] in Hc |- *. by rewrite Hc, Hdir.
Qed.

Definition temp_name (c : Z) : str := $"nix-" ++ pid E ++ "-"%char :: int2String c.

Lemma temp_name_ok c : name_ok (pid E) = true -> (0 <= c)%Z -> name_ok (temp_name c) = true.
Proof.
  rewrite !name_ok_spec. intros [_ Hp] Hc. split; [done|]. unfold temp_name. apply Forall_app. split.
  { apply (bool_decide_unpack (Forall (fun x => char_eqb x slash = false) ($"nix-"))). vm_compute. exact I. }
  apply Forall_app. split; [done|]. constructor; [done|]. unfold int2String. rewrite (proj2 (Z.ltb_ge c 0)) by done.
  destruct (print_dec_spec c Hc) as (_ & Hd & _). eapply Forall_impl; [exact Hd|]. intros x Hx. cbn. apply char_eqb_ne. intros ->. by vm_compute in Hx.
Qed.

(** The first [k] names are taken and the next one is free. *)
Record temp_free (fs : FileSys) (c : Z) (k : nat) : Prop := {
  tf_store : canonPath store = Ok store;
  tf_pid : name_ok (pid E) = true;
  tf_counter : (0 <= c /\ c + Z.of_nat k < 2 ^ 31 - 1)%Z;
  tf_taken : forall j, (j < k)%nat -> fs !! child store (temp_name (c + Z.of_nat j)) <> None;
  tf_free : fs !! child store (temp_name (c + Z.of_nat k)) = None }.
Abbreviation tmp_at c k := (child store (temp_name (c + Z.of_nat k))).

Lemma createTempDir_run fs k : forall fuel c, fs_wf fs -> fs !! store = Some IDir -> temp_free fs c k -> (length store + k + 1 < fuel)%nat ->
  createTempDir E fuel store (fs, c) = Done (tmp_at c k) (<[tmp_at c k := IDir]> fs, (c + Z.of_nat k + 1)%Z).
Proof.
  induction k as [|k IH]; intros fuel c Hwf Hd [T1 T2 T3 T4 T5] Hf; (destruct fuel as [|fuel]; [lia|]); cbn [createTempDir].
  all: rewrite run_gets, run_gets; cbn [fst snd]; rewrite (run_lift _ _ _ (child store (temp_name c))).
  2,4: unfold tempName; pose proof (store_nonnil E HE) as Hne; destruct store as [|x st] eqn:Est; [done|]; rewrite <- Est in *;
    rewrite canonPath_resolved by (done || lia); cbn [mbind result_bind]; unfold child, temp_name; cbn; done.
  all: rewrite run_modify; cbn [fst snd]; rewrite i32_small by lia.
  - rewrite Z.add_0_r in *. unfold sys_create, can_create. rewrite T5. cbn [bool_decide].
    rewrite (parent_ok_store E HE) by (done || by apply temp_name_ok; [|lia]). rewrite bool_decide_eq_true_2 by done. cbn [andb].
    rewrite run_modify. done.
  - pose proof (T4 0%nat ltac:(lia)) as T0. rewrite Z.add_0_r in T0. unfold sys_create, can_create.
    rewrite (bool_decide_eq_false_2 (_ = None)) by done. cbn [andb]. rewrite bool_decide_eq_true_2 by done.
    replace (c + Z.of_nat (S k))%Z with (c + 1 + Z.of_nat k)%Z in * by lia. rewrite IH; [done|done|done| |lia].
    split; [done|done|lia| |done]. intros j Hj. specialize (T4 (S j) ltac:(lia)). by replace (c + Z.of_nat (S j))%Z with (c + 1 + Z.of_nat j)%Z in T4 by lia.
Qed.

Abbreviation nul_free := (Forall (fun c => char_eqb c NUL = false)).

Lemma temp_nul c : nul_free store -> nul_free (pid E) -> (0 <= c)%Z -> nul_free (child store (temp_name c)).
Proof.
  intros Hs Hp Hc. unfold child, temp_name. apply Forall_app. split; [done|]. constructor; [done|]. apply Forall_app. split.
  { apply (bool_decide_unpack (nul_free ($"nix-"))). vm_compute. exact I. }
  apply Forall_app. split; [done|]. constructor; [done|]. unfold int2String. rewrite (proj2 (Z.ltb_ge c 0)) by done.
  destruct (print_dec_spec c Hc) as (_ & Hd & _). eapply Forall_impl; [exact Hd|]. intros x Hx. cbn. apply char_eqb_ne. intros ->. by vm_compute in Hx.
Qed.

Lemma createTempDirInStore_run s k fuel :
  store_ready E s -> nul_free store -> nul_free (pid E) -> temp_free (s_fs s) (s_counter s) k -> (length store + k + 2 < fuel)%nat ->
  exists s', createTempDirInStore E fuel s = Done (tmp_at (s_counter s) k) s' /\ store_ready E s' /\
    s_ls s' = s_ls s /\ s_attr s' = s_attr s /\ s_locked s' = s_locked s /\
    forall j, under store j -> s_fs s' !! j = <[tmp_at (s_counter s) k := IDir]> (s_fs s) !! j.
Proof.
  intros Hs N1 N2 Htf Hf. pose proof Hs as [S1 S2 S3]. pose proof Htf as [T1 T2 T3 T4 T5]. pose proof (rr_wf E s S1) as Hwf.
  set (t := tmp_at (s_counter s) k) in *. assert (Hn : name_ok (temp_name (s_counter s + Z.of_nat k)) = true) by (apply temp_name_ok; [done|lia]).
  destruct fuel as [|fuel]; [lia|]. cbn [createTempDirInStore]. unfold on_tmp.
  rewrite (run_bind _ _ _ _ _ (run_zoom (fun s => (s_fs s, s_counter s)) set_tmp _ s _ _ (createTempDir_run (s_fs s) k fuel (s_counter s) Hwf S3 Htf ltac:(lia)))).
  fold t. set (s1 := set_tmp _ s). assert (Hwf1 : fs_wf (<[t := IDir]> (s_fs s))).
  { apply (changed_wf (s_fs s) _ t store (temp_name (s_counter s + Z.of_nat k))); [done|done|done|done| |by rewrite T5|].
    - rewrite lookup_insert_ne; [done|]. apply child_ne.
    - intros j Hj. by rewrite lookup_insert_ne. }
  assert (Hs1 : store_ready E s1).
  { split; [|done|cbn; rewrite lookup_insert_ne; [done|apply child_ne]]. apply (roots_ready_store E HE s); [done|done|done|].
    intros j Hj. cbn. apply lookup_insert_ne. intros <-. apply Hj, under_child. }
  destruct (addTempRoot_store E HE s1 t Hs1) as (s2 & E2 & R2 & L2 & A2 & K2 & _ & F2); [apply temp_nul; [done|done|lia]|].
  exists s2. split_and!; [|done|done|done|done|].
  - rewrite (run_bind _ _ _ _ _ E2), run_gets. unfold pathExists. rewrite bool_decide_eq_true_2; [done|].
    rewrite F2 by apply under_child. cbn. by rewrite lookup_insert_eq.
  - intros j Hj. rewrite F2 by done. done.
Qed.
End TempDir.

(** ** Moving an unpacked object into place *)

(** A tree is the same wherever it is installed. *)
Lemma install_moved umask t : forall a b r, install umask b t !! (b ++ r) = install umask a t !! (a ++ r).
Proof.
  assert (Hroot : forall (i : inode) (a r : str), ({[a := i]} : FileSys) !! (a ++ r) = match r with [] => Some i | _ => None end).
  { intros i a r. destruct r; [rewrite app_nil_r; apply lookup_singleton_eq|]. apply lookup_singleton_ne. intros E0.
    apply (f_equal length) in E0. rewrite length_app in E0. cbn in E0. lia. }
  induction t as [x c|t|es IH] using node_ind'; intros a b r; cbn [install]; [by rewrite !Hroot..|].
  assert (forall m p, (<[p := IDir]> m : FileSys) !! (p ++ r) = match r with [] => Some IDir | _ => m !! (p ++ r) end) as Hins.
  { intros m p. destruct r; [rewrite app_nil_r; apply lookup_insert_eq|]. apply lookup_insert_ne. intros E0.
    apply (f_equal length) in E0. rewrite length_app in E0. cbn in E0. lia. }
  rewrite !Hins. destruct r as [|c0 r0]; [done|]. set (r := c0 :: r0). clear Hins Hroot.
  induction IH as [|e es He _ IHes]; cbn [foldr]; [done|]. rewrite !lookup_union, IHes. f_equal.
  destruct (decide ((slash :: e.1) `prefix_of` r)) as [[r2 ->]|Hn]; [|rewrite !install_not_under; [done|..]].
  - change (b ++ (slash :: e.1) ++ r2) with (b ++ slash :: e.1 ++ r2). change (a ++ (slash :: e.1) ++ r2) with (a ++ slash :: e.1 ++ r2).
    specialize (He (child a e.1) (child b e.1) r2). unfold child in He. rewrite <- !app_assoc in He. exact He.
  - intros [r2 E2]%under_prefix. apply Hn. exists r2. unfold child in E2. rewrite <- app_assoc in E2. by apply app_inv_head in E2.
  - intros [r2 E2]%under_prefix. apply Hn. exists r2. unfold child in E2. rewrite <- app_assoc in E2. by apply app_inv_head in E2.
Qed.

Lemma rename_installed umask fs0 fs' a b t :
  fresh fs0 a -> fresh fs0 b -> a <> b -> sys_rename (install umask a t ∪ fs0) a b = Some fs' -> fs' = install umask b t ∪ fs0.
Proof.
  intros Ha Hb Hne Hr. destruct (sys_rename_lookup _ _ _ _ Hr Hne) as (_ & Hmv & Hout & Hback & _).
  assert (Hin : forall r, under a (a ++ r) -> fs' !! (b ++ r) = install umask b t !! (b ++ r)).
  { intros r Hu. rewrite <- (moved_app a b r), Hmv by done. rewrite moved_app, (install_moved umask t a b r).
    rewrite lookup_union, Ha by done. by destruct (install umask a t !! (a ++ r)). }
  apply map_eq. intros k. destruct (decide (under b k)) as [Hu|Hu].
  - rewrite lookup_union, (Hb k Hu). assert (exists r, k = b ++ r /\ under a (a ++ r)) as (r & -> & Hua).
    { destruct Hu as [-> |[r ->]]; [exists []; rewrite !app_nil_r; split; [done|apply under_refl]|].
      exists (slash :: r). split; [done|]. right. by exists r. }
    rewrite Hin by done. by destruct (install umask b t !! (b ++ r)).
  - rewrite Hout by done. rewrite !lookup_union, (install_not_under umask t b k) by done. case_decide as Hk.
    + by rewrite Ha.
    + by rewrite install_not_under.
Qed.

(** ** Importing *)

Section ImportTheory.
Context (E : Env) `{HA : HashAlgo} {HL : HashAlgoLaws} (HE : env_ok E).
Context (can_link_symlink : bool) (emlink_link emlink_rename : FileSys -> str -> bool) (rand : FileSys -> Z).
Context (partial : FileSys -> str -> FileSys) (openssl : list str -> FileSys -> result str) (heldLocks : str).
Abbreviation store := (nixStore E).

(** Objects of the store with different names are apart. *)
Lemma store_names_apart n m k : name_ok n = true -> name_ok m = true -> n <> m -> under (child store n) k -> ~ under (child store m) k.
Proof. intros Hn Hm Hne H1 H2. apply Hne. by apply (under_child_inj store n m k). Qed.

Abbreviation unpacked tn := (child (child store tn) ($"unpacked")).
Lemma under_unpacked tn k : under (unpacked tn) k -> under (child store tn) k.
Proof. intros H. eapply under_trans; [apply under_child|exact H]. Qed.

(** The deriver is registered when it is valid. *)
Definition import_deriver (ls : LocalStore) (d : str) : str := if decide (d ∈ all_paths (ls_db ls)) then d else [].

Lemma deriver_run s d : d = [] \/ isStorePath store d = true -> ls_ok store (s_ls s) ->
  valid_deriver d s = Done (import_deriver (s_ls s) d) s.
Proof.
  intros Hd Hok. unfold import_deriver, valid_deriver. destruct d as [|c d]; [by destruct (decide _)|]. unfold isValid.
  rewrite (run_lift _ _ _ (bool_decide ((c :: d) ∈ all_paths (ls_db (s_ls s))))).
  - by destruct (decide _); [rewrite bool_decide_eq_true_2|rewrite bool_decide_eq_false_2].
  - unfold ls_isValidPath. f_equal. apply bool_decide_ext, sql_path_valid.
Qed.

Lemma isValid_run s p : isValid p s = Done (bool_decide (p ∈ all_paths (ls_db (s_ls s)))) s.
Proof. unfold isValid, lift, ls_isValidPath. f_equal. apply bool_decide_ext, sql_path_valid. Qed.

Lemma rename_object_run s a n t :
  let p := child store n in
  name_ok n = true -> s_fs s !! store = Some IDir -> a <> p -> ~ under a p -> fresh (s_fs s) p ->
  (forall k, under a k -> s_fs s !! k = install (umask E) a t !! k) ->
  rename_object a p s = Done tt (set_fattr (install (umask E) p t ∪ without a (s_fs s), move_attrs a p (s_attr s)) s).
Proof.
  intros p Hn Hd Hne Hnu Hfr Hin. assert (s_fs s = install (umask E) a t ∪ without a (s_fs s)) as Efs.
  { apply map_eq. intros k. rewrite lookup_union, lookup_without. destruct (decide (under a k)) as [Hk|Hk].
    - rewrite Hin by done. by destruct (install (umask E) a t !! k).
    - rewrite install_not_under by done. by destruct (s_fs s !! k). }
  unfold rename_object, update. destruct (sys_rename (s_fs s) a p) as [fs'|] eqn:Er.
  - rewrite Efs in Er. apply rename_installed in Er as ->; [done|apply fresh_without| |done].
    intros k Hk. rewrite lookup_without. by destruct (decide (under a k)); [|apply Hfr].
  - exfalso. unfold sys_rename in Er. rewrite Hin in Er by apply under_refl. pose proof (install_root (umask E) t a) as Hr.
    destruct (install (umask E) a t !! a) as [i|]; [|done]. unfold str_eqb in Er. rewrite bool_decide_eq_false_2 in Er by done.
    unfold can_replace in Er. rewrite Hfr in Er by apply under_refl. unfold p in Er. rewrite (parent_ok_store E HE) in Er by done. fold p in Er.
    destruct (underb a p) eqn:Eu; [by apply underb_under in Eu|]. by cbn in Er.
Qed.

Lemma import_object_run s n tn t d refs :
  let p := child store n in
  path_ready E (s_ls s) p refs -> name_ok n = true -> name_ok tn = true -> n <> tn -> p ∉ all_paths (ls_db (s_ls s)) ->
  fs_wf (s_fs s) -> s_fs s !! store = Some IDir -> node_bounded t -> node_sorted t -> owned E s (unpacked tn) ->
  d = [] \/ isStorePath store d = true -> (forall k, under (unpacked tn) k -> s_fs s !! k = install (umask E) (unpacked tn) t !! k) ->
  exists s', import_object E can_link_symlink emlink_link emlink_rename rand (unpacked tn) (mkImport p refs d) s = Done tt s' /\
    registration store (now E) [path_info p (import_deriver (s_ls s) d) t refs] (s_ls s) (s_ls s') /\ fs_wf (s_fs s') /\
    tree_of (s_fs s') (fun _ => true) (S (size (s_fs s'))) p = Some t /\
    (forall k, ~ under p k -> ~ under (child store tn) k -> s_fs s' !! k = s_fs s !! k) /\ s_locked s' = s_locked s /\ s_temp s' = s_temp s.
Proof.
  intros p Hpr Hn Htn Hne Hnv Hwf Hdir Hb Hs Hown Hd Hin. unfold import_object. cbn [im_path im_refs im_deriver].
  assert (p <> []) as Hp by apply child_nonnil. rewrite (run_bind _ _ _ _ _ (isValid_run s p)), bool_decide_eq_false_2 by done. cbn [negb].
  rewrite (run_bind _ _ _ _ _ (clear_path_run E p s Hwf Hp)). set (fs1 := without p (s_fs s)). set (s1 := set_sfs fs1 s).
  assert (Hu : forall k, under (unpacked tn) k -> ~ under p k).
  { intros k Hk. apply (store_names_apart tn n); [done|done|congruence|]. by apply under_unpacked. }
  assert (Hdir1 : fs1 !! store = Some IDir) by (unfold fs1; rewrite lookup_without, decide_False; [done|apply not_under_child]).
  rewrite (run_bind _ _ _ _ _ (rename_object_run s1 (unpacked tn) n t Hn Hdir1 ltac:(intros E0; apply (Hu (unpacked tn) (under_refl _)); rewrite E0; apply under_refl)
    ltac:(intros E0; apply (Hu _ E0), under_refl) (fresh_without _ _) ltac:(intros k Hk; cbn; unfold fs1; rewrite lookup_without, decide_False; [by apply Hin|by apply Hu]))).
  cbn [s1 s_fs s_attr set_sfs]. fold p. set (fs2 := without (unpacked tn) fs1). set (s2 := set_fattr _ _).
  assert (Hfr : fresh fs2 p).
  { intros k Hk. unfold fs2. rewrite lookup_without. destruct (decide _); [done|]. by apply fresh_without. }
  assert (Hwf2 : fs_wf (install (umask E) p t ∪ fs2)).
  { apply install_wf; [by apply without_wf, without_wf| |done|done|done]. unfold fs2. rewrite lookup_without, decide_False; [done|].
    intros Hk. apply under_unpacked in Hk. by apply not_under_child in Hk. }
  pose proof (tree_of_restored (umask E) t fs2 p (node_depth t) Hs Hfr (Nat.le_refl _)) as Ht2.
  destruct (finish_path_run E can_link_symlink emlink_link emlink_rename rand HE s2 p t (node_depth t) (hash_path E htSHA256 p) refs
    (valid_deriver d) (import_deriver (s_ls s) d))
    as (s' & E3 & Hreg & C & Hl & Htm); try done.
  - intros k i Hk Hi. change ((install (umask E) p t ∪ fs2) !! k = Some i) in Hi. apply lookup_union_Some_raw in Hi as [Hi|[_ Hi]].
    + by apply (install_parent E t _ _ _ Hs) in Hi as [? _].
    + by rewrite Hfr in Hi.
  - intros k Hk. cbn [s2 s_attr set_fattr snd]. unfold move_attrs. fold p. rewrite (proj2 (underb_under p k) Hk). apply Hown. by apply (moved_under p).
  - intros s' Ht. by apply hash_path_run.
  - intros s' Els. change (s_ls s2) with (s_ls s) in Els. rewrite <- Els. apply deriver_run; [done|]. rewrite Els. apply Hpr.
  - exists s'. split; [exact E3|]. split_and!; [done| | | |done|done].
    + by apply (canoned_wf E (under p) _ _ _ C).
    + pose proof (canoned_tree E p _ _ (fun _ => true) (node_depth t) p C) as Hc. cbn [fst s2 s_fs set_fattr] in Hc. rewrite Ht2 in Hc.
      eapply tree_of_fuel; [exact Hc|]. pose proof (tree_depth _ _ _ _ _ Hc) as Hd2. pose proof (subtree_size p (s_fs s')). lia.
    + intros k Hk Hkt. destruct (C k) as [_ Hc]. destruct (Hc Hk) as [Hck _]. cbn [fst s2 s_fs set_fattr] in Hck. rewrite Hck. unfold fs2, fs1.
      rewrite lookup_union_r by (by apply install_not_under). rewrite !lookup_without, !decide_False; [done|done|]. intros Hk'. by apply Hkt, under_unpacked.
Qed.


Abbreviation spaces := [" "%char; TAB; NL; CR].
Abbreviation import_block := (import_locked E can_link_symlink emlink_link emlink_rename rand heldLocks).

Lemma import_locked_run s n tn t d refs :
  let p := child store n in
  store_ready E s -> path_ready E (s_ls s) p refs -> lockable s p -> p ∉ tokenizeString heldLocks spaces ->
  name_ok n = true -> name_ok tn = true -> n <> tn -> n ++ $".lock" <> tn -> p ∉ all_paths (ls_db (s_ls s)) ->
  node_bounded t -> node_sorted t -> owned E s (unpacked tn) ->
  d = [] \/ isStorePath store d = true -> (forall k, under (unpacked tn) k -> s_fs s !! k = install (umask E) (unpacked tn) t !! k) ->
  exists s', import_block (unpacked tn) (mkImport p refs d) s = Done tt s' /\ store_ready E s' /\
    registration store (now E) [path_info p (import_deriver (s_ls s) d) t refs] (s_ls s) (s_ls s') /\
    tree_of (s_fs s') (fun _ => true) (S (size (s_fs s'))) p = Some t /\ s_fs s' !! lockPath p = None /\ s_locked s' = s_locked s /\
    forall k, ~ under p k -> k <> lockPath p -> ~ under (child store tn) k -> s_fs s' !! k = s_fs s !! k.
Proof.
  intros p [R1 R2 R3] Hpr Hlk Hheld Hn Htn Hne Hlt Hnv Hb Hst Hown Hd Hin. pose proof Hlk as [_ L2].
  assert (lockPath p = child store (n ++ $".lock")) as Elp by apply lockPath_child. pose proof (lock_name_ok n Hn) as Hln.
  destruct (lockPaths_run E HE s n Hn (rr_wf E s R1) R3 Hlk) as (fs2 & m & E2 & W2 & F2 & K2). fold p in E2, F2, K2.
  set (s2 := set_locked ({[lockPath p]} ∪ s_locked s) (set_sfs fs2 s)).
  assert (Hst2 : fs2 !! store = Some IDir).
  { rewrite K2; [done|]. rewrite Elp. intros E0. symmetry in E0. by apply child_ne in E0. }
  assert (Hul : forall k, under (child store tn) k -> k <> lockPath p).
  { intros k Hk ->. rewrite Elp in Hk. apply Hlt. by apply (under_child_inj store _ _ (child store (n ++ $".lock"))); [..|apply under_refl|]. }
  destruct (import_object_run s2 n tn t d refs) as (s3 & E3 & Reg & W3 & T3 & K3 & Lk3 & Tm3); try done.
  { intros k Hk. cbn. rewrite K2; [by apply Hin|]. apply Hul. by apply under_unpacked. }
  fold p in E3, Reg, T3, K3. cbn [s2 s_ls set_locked set_sfs] in Reg.
  assert (Hready3 : store_ready E s3).
  { split; [|apply Reg|].
    - apply (roots_ready_store E HE s); [done|by rewrite Tm3|done|]. intros k Hk. rewrite K3.
      + cbn. apply K2. intros ->. apply Hk. rewrite Elp. apply under_child.
      + intros Hu. apply Hk. eapply under_trans; [apply under_child|done].
      + intros Hu. apply Hk. eapply under_trans; [apply under_child|done].
    - rewrite K3; [done|apply not_under_child|apply not_under_child]. }
  assert (Hl3 : s_fs s3 !! lockPath p = Some (IReg m [])).
  { rewrite K3; [done|by apply lock_not_under|]. intros Hu. by apply (Hul _ Hu). }
  destruct (unlock_run E HE s3 n m Hn Hready3 Hl3) as (R4 & Ls4 & Lk4 & F4). fold p in R4, Ls4, Lk4, F4.
  exists (unlock true [lockPath p] s3). split_and!; [|done|by rewrite Ls4| | | |].
  - unfold import_locked. cbn [im_path]. rewrite bool_decide_eq_false_2 by done. rewrite (run_bind _ _ _ _ _ E2). unfold locked_block. fold s2. by rewrite E3.
  - apply (tree_of_same (s_fs s3) _ _ _ _ T3). intros k Hk. rewrite F4. apply lookup_delete_ne. intros <-. by apply (lock_not_under store n Hn).
  - rewrite F4. apply lookup_delete_eq.
  - rewrite Lk4, Lk3. cbn. clear -L2. set_solver.
  - intros k H1 H2 H3. rewrite F4, lookup_delete_ne, K3 by done. by apply K2.
Qed.

Lemma auto_delete_run {A} path (m : M sstate A) s a s1 :
  m s = Done a s1 -> fs_wf (s_fs s1) -> path <> [] -> auto_delete E path m s = Done a (set_sfs (without path (s_fs s1)) s1).
Proof.
  intros Em Hwf Hp. unfold auto_delete. rewrite Em. unfold on_del, zoom.
  pose proof (deletePath_spec (st_nlink E) (st_blocks E) (s_fs s1) 0 path Hwf Hp) as H.
  destruct (deletePath _ _ _ _) as [u [fs b]|e [fs b]|]; [|..].
  - by destruct H as (_ & -> & _).
  - destruct H as (_ & Hn & ->). cbn [fst]. by rewrite absent_without.
  - done.
Qed.


(** *** Reading *)

(** What the trailer may say. *)
Record trailer_ok (p : str) (refs : gset str) (d : str) : Prop := {
  to_fits : trailer_fits p refs d;
  to_path : isStorePath store p = true;
  to_refs : Forall (fun q => isStorePath store q = true) (set_iter refs);
  to_deriver : d = [] \/ isStorePath store d = true }.

Lemma read_trailer_reads {S} `{Source S} {L : SourceLaws (HashAndReadSource S)} p refs d :
  trailer_ok p refs d -> reads (H0 := L) (fun s : HashAndReadSource S => read_trailer E s) (enc_trailer p refs d) (mkImport p refs d).
Proof.
  intros [[F1 F2 F3 F4] P1 P2 P3] s rest Hs Hr. unfold enc_trailer in Hr. rewrite <- !app_assoc in Hr.
  destruct (readInt_reads EXPORT_MAGIC magic_bound s _ Hs Hr) as (s1 & E1 & O1 & R1).
  destruct (readStorePath_reads store p (conj P1 F1) s1 _ O1 R1) as (s2 & E2 & O2 & R2).
  destruct (readStorePathSet_reads store refs (conj F3 (proj2 (Forall_and _ _) (conj P2 F2))) s2 _ O2 R2) as (s3 & E3 & O3 & R3).
  destruct (readString_reads d F4 s3 _ O3 R3) as (s4 & E4 & O4 & R4). exists s4. split; [|done].
  unfold read_trailer. rewrite E1. cbn [mbind result_bind]. rewrite Z.eqb_refl. cbn [negb]. rewrite E2. cbn [mbind result_bind].
  rewrite E3. cbn [mbind result_bind]. rewrite E4. cbn [mbind result_bind]. destruct d as [|c d]; [done|].
  unfold assertStorePath. by destruct P3 as [?| ->].
Qed.

(** *** The signature *)

Abbreviation verify_args sigFile := [$"rsautl"; $"-verify"; $"-inkey"; nixConfDir E ++ $"/signing-key.pub"; $"-pubin"; $"-in"; sigFile].

(** A signature that is required is there and OpenSSL extracts the hash from it. *)
Definition accepted (requireSignature : bool) (sig : option str) (sigFile : str) (hash : Hash) : Prop :=
  match sig with Some x => chunk_ok x | None => True end /\
  (requireSignature = true -> exists x, sig = Some x /\
     forall fs m, fs !! sigFile = Some (IReg m x) -> openssl (verify_args sigFile) fs = Ok (printHash hash)).

Lemma check_signature_run {S} `{Source S} {L : SourceLaws (HashAndReadSource S)} s tmp n p req sig hash (src : HashAndReadSource S) rest :
  source_ok src -> source_rem src = enc_signature sig ++ rest -> accepted req sig (child tmp ($"sig")) hash ->
  fs_wf (s_fs s) -> tmp = child store n -> s_fs s !! tmp = Some IDir -> fresh (s_fs s) (child tmp ($"sig")) ->
  exists s' src', check_signature E openssl tmp p req hash src s = Done src' s' /\ source_ok src' /\ source_rem src' = rest /\ fs_wf (s_fs s') /\
    s_ls s' = s_ls s /\ s_attr s' = s_attr s /\ s_locked s' = s_locked s /\ s_temp s' = s_temp s /\
    forall k, k <> child tmp ($"sig") -> s_fs s' !! k = s_fs s !! k.
Proof.
  intros Ho Hr [Hc Hacc] Hwf Htmp Hd Hfr. assert (name_ok ($"sig") = true) as Hsn by reflexivity. unfold check_signature.
  destruct sig as [x|]; cbn [enc_signature] in Hr.
  2:{ destruct (readInt_reads 0 ltac:(lia) src _ Ho Hr) as (s1 & E1 & O1 & R1). erewrite run_lift by exact E1. cbv beta iota.
      destruct req; [by destruct (Hacc eq_refl) as (? & ? & _)|]. exists s, s1. by split_and!. }
  rewrite <- app_assoc in Hr. destruct (readInt_reads 1 ltac:(lia) src _ Ho Hr) as (s1 & E1 & O1 & R1).
  destruct (readString_reads x Hc s1 _ O1 R1) as (s2 & E2 & O2 & R2).
  erewrite run_lift by exact E1. cbv beta iota. rewrite Z.eqb_refl, andb_false_r. erewrite run_lift by exact E2. cbv beta iota.
  destruct req; [|exists s, s2; by split_and!]. destruct (Hacc eq_refl) as (x' & [= <-] & Hssl).
  change (tmp ++ $"/sig") with (child tmp ($"sig")). assert (Hpo : parent_ok (s_fs s) (child tmp ($"sig")) = true).
  { rewrite parent_ok_child; [by apply bool_decide_eq_true|done|]. rewrite Htmp. apply child_nonnil. }
  unfold on_fs. rewrite (run_bind _ _ _ _ _ (run_zoom s_fs set_sfs _ s _ _ (writeFile_run E (s_fs s) _ x Hfr Hpo))).
  set (fs' := install _ _ _ ∪ _). erewrite run_lift.
  2:{ cbn [s_fs set_sfs]. eapply Hssl. unfold fs'. cbn [install]. apply lookup_union_Some_l, lookup_singleton_eq. }
  unfold str_eqb. rewrite bool_decide_eq_true_2 by done. cbn [negb]. eexists _, s2. split_and!; [done|done|done| |done|done|done|done|].
  - cbn [s_fs set_sfs]. unfold fs'. by apply install_wf.
  - intros k Hk. cbn. apply lookup_union_r. apply lookup_singleton_ne. done.
Qed.

(** *** Unpacking *)

(** [tmp] is an empty directory of the process. *)
Record temp_dir (s : sstate) (tn : str) : Prop := {
  td_name : name_ok tn = true;
  td_dir : s_fs s !! child store tn = Some IDir;
  td_empty : forall k, under (child store tn) k -> k <> child store tn -> s_fs s !! k = None;
  td_owned : owned E s (child store tn) }.

Lemma unpacked_sub tn n k : name_ok n = true -> under (child (child store tn) n) k -> under (child store tn) k /\ k <> child store tn.
Proof.
  intros Hn Hk. split; [eapply under_trans; [apply under_child|exact Hk]|]. intros ->. by apply not_under_child in Hk.
Qed.

Lemma import_unpack_run {S} `{SourceLaws S} fuel req s tn (source : S) rest p t refs d sig :
  store_ready E s -> temp_dir s tn -> source_ok source -> source_rem source = enc_export p t refs d sig ++ rest -> chunk_ok (source_rem source) ->
  node_bounded t -> node_sorted t -> (node_fuel t <= fuel)%nat -> trailer_ok p refs d ->
  accepted req sig (child (child store tn) ($"sig")) (hash_of_bytes htSHA256 32 (enc_archive t ++ enc_trailer p refs d)) ->
  exists s' source', import_unpack E partial openssl fuel req (child store tn) source s = Done (mkImport p refs d, source') s' /\
    source_ok source' /\ source_rem source' = rest /\ store_ready E s' /\ s_ls s' = s_ls s /\ s_attr s' = s_attr s /\ s_locked s' = s_locked s /\
    (forall k, under (unpacked tn) k -> s_fs s' !! k = install (umask E) (unpacked tn) t !! k) /\
    (forall k, ~ under (child store tn) k -> s_fs s' !! k = s_fs s !! k).
Proof.
  intros Hs [T1 T2 T3 T4] Ho Hr Hck Hb Hso Hf Htr Hacc. pose proof Hs as [S1 S2 S3]. pose proof (rr_wf E s S1) as Hwf.
  assert (Hsub : forall n k, name_ok n = true -> under (child (child store tn) n) k -> s_fs s !! k = None).
  { intros n k Hn Hk. destruct (unpacked_sub tn n k Hn Hk). by apply T3. }
  assert (Hfr : fresh (s_fs s) (unpacked tn)) by (intros k Hk; by apply (Hsub ($"unpacked"))).
  assert (Hpo : parent_ok (s_fs s) (unpacked tn) = true).
  { rewrite parent_ok_child; [by apply bool_decide_eq_true|done|apply child_nonnil]. }
  pose (L1 := HashAndReadSource_laws (S := S) true _ Hck). pose (L2 := HashAndReadSource_laws (S := S) false _ Hck).
  pose proof (HashAndReadSource_new_ok source Hck Ho) as O0. assert (R0 : source_rem (SourceLaws := L1) (HashAndReadSource_new source) =
    enc_archive t ++ enc_trailer p refs d ++ enc_signature sig ++ rest) by (transitivity (source_rem source); [done|]; rewrite Hr; unfold enc_export; by rewrite <- !app_assoc).
  destruct (restore_encoding (H0 := L1) (umask E) (posix_fallocate E) t fuel (s_fs s) (unpacked tn) (HashAndReadSource_new source)
      (enc_trailer p refs d ++ enc_signature sig ++ rest)) as (src1 & O1 & R1 & E1); [apply HE|done|done|done|apply child_nonnil|done|done|exact O0|exact R0|].
  destruct (read_trailer_reads (L := L1) p refs d Htr src1 _ O1 R1) as (src2 & E2 & O2 & R2).
  destruct O2 as (Os2 & Hb2 & Hh2). destruct (Hh2 Hb2) as (l & El & Rl).
  assert (l = enc_archive t ++ enc_trailer p refs d) as ->.
  { cbn in R2. rewrite R2, Hr in El. unfold enc_export in El. rewrite !app_assoc in El. by do 2 apply app_inv_tail in El. }
  pose proof (HashSink_finish_at htSHA256 32 _ _ eq_refl Rl) as E3.
  set (fs2 := install (umask E) (unpacked tn) t ∪ s_fs s). set (s2 := set_sfs fs2 s).
  assert (Hwf2 : fs_wf fs2) by (by apply install_wf).
  assert (Hno : forall k, ~ under (child store tn) k -> fs2 !! k = s_fs s !! k).
  { intros k Hk. apply lookup_union_r, install_not_under. intros Hu. apply Hk. by apply under_unpacked. }
  assert (Hsig : forall k, under (child (child store tn) ($"sig")) k -> ~ under (unpacked tn) k).
  { intros k Hk Hu. discriminate (under_child_inj _ ($"sig") ($"unpacked") k eq_refl eq_refl Hk Hu). }
  destruct (check_signature_run (L := L2) s2 (child store tn) tn p req sig (hash_of_bytes htSHA256 32 (enc_archive t ++ enc_trailer p refs d)) (stop_hashing src2) rest)
    as (s3 & src3 & E4 & O4 & R4 & W4 & Ls4 & At4 & Lk4 & Tm4 & K4); [|exact R2|done|exact Hwf2|done| | |].
  - split; [exact Os2|]. split; [done|]. intros Hx. discriminate Hx.
  - cbn [s2 s_fs set_sfs]. unfold fs2. rewrite lookup_union_r; [done|]. apply install_not_under, not_under_child.
  - intros k Hk. cbn [s2 s_fs set_sfs]. unfold fs2. rewrite lookup_union_r; [by apply (Hsub ($"sig"))|]. apply install_not_under. by apply Hsig.
  - exists s3, (hr_readSource src3). destruct O4 as (O4 & _). split_and!; [|exact O4|exact R4| |done|done|done| |].
    + unfold import_unpack. change (child store tn ++ $"/unpacked") with (unpacked tn). unfold on_fs.
      erewrite run_bind by (apply run_zoom; unfold restore_from; by rewrite E1). erewrite run_lift by exact E2. cbv beta iota.
      erewrite run_lift by exact E3. cbv beta iota. by erewrite run_bind by exact E4.
    + assert (Hk3 : forall k, ~ under (child store tn) k -> s_fs s3 !! k = s_fs s !! k).
      { intros k Hk. rewrite K4; [by apply Hno|]. intros ->. apply Hk, under_child. }
      split; [|by rewrite Ls4|rewrite Hk3; [done|apply not_under_child]]. apply (roots_ready_store E HE s); [done|done|done|].
      intros k Hk. apply Hk3. intros Hu. apply Hk. eapply under_trans; [apply under_child|done].
    + intros k Hk. rewrite K4 by (intros ->; by apply (Hsig _ (under_refl _))). cbn. unfold fs2. rewrite lookup_union, Hfr by done.
      by destruct (install (umask E) (unpacked tn) t !! k).
    + intros k Hk. rewrite K4; [by apply Hno|]. intros ->. apply Hk, under_child.
Qed.

(** *** Registering *)

(** What is needed besides the conditions for adding a path: the name of the
    temporary directory is not the one of the path or of its lock. *)
Record import_pre (s : sstate) (n : str) (refs : gset str) (k : nat) : Prop := {
  ip_add : add_pre E s (child store n) refs;
  ip_name : name_ok n = true;
  ip_nul : Forall (fun c => char_eqb c NUL = false) n;
  ip_pid : Forall (fun c => char_eqb c NUL = false) (pid E);
  ip_temp : temp_free E (s_fs s) (s_counter s) k;
  ip_apart : n <> temp_name E (s_counter s + Z.of_nat k) /\ n ++ $".lock" <> temp_name E (s_counter s + Z.of_nat k);
  ip_owned : owned E s (child store (temp_name E (s_counter s + Z.of_nat k)));
  ip_held : child store n ∉ tokenizeString heldLocks spaces }.

Lemma import_register_run s n tn t d refs :
  let p := child store n in
  store_ready E s -> path_ready E (s_ls s) p refs -> lockable s p -> p ∉ tokenizeString heldLocks spaces ->
  Forall (fun c => char_eqb c NUL = false) p ->
  name_ok n = true -> name_ok tn = true -> n <> tn -> n ++ $".lock" <> tn ->
  node_bounded t -> node_sorted t -> owned E s (unpacked tn) ->
  d = [] \/ isStorePath store d = true -> (forall k, under (unpacked tn) k -> s_fs s !! k = install (umask E) (unpacked tn) t !! k) ->
  exists s', import_register E can_link_symlink emlink_link emlink_rename rand heldLocks (child store tn) (mkImport p refs d) s = Done tt s' /\ store_ready E s' /\
    s_locked s' = s_locked s /\
    (p ∉ all_paths (ls_db (s_ls s)) ->
       registration store (now E) [path_info p (import_deriver (s_ls s) d) t refs] (s_ls s) (s_ls s') /\
       tree_of (s_fs s') (fun _ => true) (S (size (s_fs s'))) p = Some t /\ s_fs s' !! lockPath p = None) /\
    (p ∈ all_paths (ls_db (s_ls s)) -> s_ls s' = s_ls s /\ forall k, under store k -> s_fs s' !! k = s_fs s !! k) /\
    forall k, under store k -> ~ under p k -> k <> lockPath p -> ~ under (child store tn) k -> s_fs s' !! k = s_fs s !! k.
Proof.
  intros p Hs Hpr Hlk Hheld Hnul Hn Htn Hne Hlt Hb Hst Hown Hd Hin.
  destruct (addTempRoot_store E HE s p Hs Hnul) as (s1 & E1 & R1 & Ls1 & At1 & Lk1 & _ & K1).
  unfold import_register. cbn [im_path]. rewrite (run_bind _ _ _ _ _ E1), (run_bind _ _ _ _ _ (isValid_run s1 p)), Ls1.
  case_bool_decide as Hv; cbn [negb].
  - exists s1. split_and!; [done|done|done|done|done|]. intros k Hk _ _ _. by apply K1.
  - assert (under store (lockPath p)) as Hul by (unfold p; rewrite lockPath_child; apply under_child).
    destruct (import_locked_run s1 n tn t d refs R1) as (s2 & E2 & R2 & Reg & T2 & L2 & Lk2 & K2); try done.
    + by rewrite Ls1.
    + destruct Hlk as [H1 H2]. split; [by rewrite K1|by rewrite Lk1].
    + by rewrite Ls1.
    + intros k Hk. rewrite At1. by apply Hown.
    + intros k Hk. rewrite K1; [by apply Hin|]. eapply under_trans; [apply under_child|]. by apply under_unpacked.
    + fold p in E2, Reg, T2, L2, K2. rewrite Ls1 in Reg. exists s2. split_and!; [done|done|by rewrite Lk2|done|done|].
      intros k H1 H2 H3 H4. rewrite K2 by done. by apply K1.
Qed.

Lemma importPath_run {S} `{SourceLaws S} fuel req s n k (source : S) rest t refs d sig :
  let p := child store n in let tn := temp_name E (s_counter s + Z.of_nat k) in
  import_pre s n refs k -> trailer_ok p refs d -> source_ok source -> source_rem source = enc_export p t refs d sig ++ rest -> chunk_ok (source_rem source) ->
  node_bounded t -> node_sorted t -> (node_fuel t <= fuel)%nat -> (length store + k + 2 < fuel)%nat ->
  accepted req sig (child (child store tn) ($"sig")) (hash_of_bytes htSHA256 32 (enc_archive t ++ enc_trailer p refs d)) ->
  exists s' source',
    importPath E can_link_symlink emlink_link emlink_rename rand partial openssl heldLocks fuel req source s = Done (p, source') s' /\
    source_ok source' /\ source_rem source' = rest /\ adds E p t refs s (Done p s') /\ s_fs s' !! child store tn = None /\
    (p ∉ all_paths (ls_db (s_ls s)) -> registration store (now E) [path_info p (import_deriver (s_ls s) d) t refs] (s_ls s) (s_ls s')).
Proof.
  intros p tn [[A1 A2 A3 A4 A5 A6 A7 A8 A9] Hn Hnn Hpid Htf [Hne Hlt] Hown Hheld] Htr Ho Hr Hck Hb Hso Hf1 Hf2 Hacc.
  pose proof Htf as [T1 T2 T3 T4 T5]. assert (Htn : name_ok tn = true) by (apply temp_name_ok; [done|lia]).
  assert (Hfree : forall j, under (child store tn) j -> s_fs s !! j = None).
  { intros j Hj. assert (without (child store tn) (s_fs s) = s_fs s) as Ew.
    { apply absent_without; [apply A1|apply child_nonnil|exact T5]. }
    rewrite <- Ew, lookup_without. by rewrite decide_True. }
  assert (Hpnul : Forall (fun c => char_eqb c NUL = false) p) by (apply Forall_app; split; [done|by constructor]).
  destruct (createTempDirInStore_run E HE s k fuel A1 A3 Hpid Htf Hf2) as (s1 & E1 & R1 & Ls1 & At1 & Lk1 & K1). fold tn in E1, K1.
  assert (Hno1 : forall j, under store j -> ~ under (child store tn) j -> s_fs s1 !! j = s_fs s !! j).
  { intros j H1 H2. rewrite K1 by done. apply lookup_insert_ne. intros <-. apply H2, under_refl. }
  assert (Htd : temp_dir s1 tn).
  { split; [done|rewrite K1 by apply under_child; by rewrite lookup_insert_eq| |intros j Hj; rewrite At1; by apply Hown].
    intros j Hj Hj'. rewrite K1; [rewrite lookup_insert_ne by done; by apply Hfree|]. eapply under_trans; [apply under_child|done]. }
  destruct (import_unpack_run fuel req s1 tn source rest p t refs d sig) as (s2 & source' & E2 & O2 & Rm2 & R2 & Ls2 & At2 & Lk2 & In2 & K2); try done.
  assert (Hul : under store (lockPath p)) by (unfold p; rewrite lockPath_child; apply under_child).
  assert (Hlt' : ~ under (child store tn) (lockPath p)).
  { unfold p. rewrite lockPath_child. intros Hu. apply Hlt.
    by apply (under_child_inj store _ tn (child store (n ++ $".lock"))); [apply lock_name_ok|..|apply under_refl|]. }
  assert (Hpr : path_ready E (s_ls s2) p refs) by (rewrite Ls2, Ls1; split; [apply A1|apply Htr|done|done|done]).
  destruct (import_register_run s2 n tn t d refs R2 Hpr) as (s3 & E3 & R3 & Lk3 & New & Old & K3); try done.
  { destruct A7 as [L1 L2]. split; [by rewrite K2, Hno1|by rewrite Lk2, Lk1]. }
  { intros j Hj. rewrite At2, At1. apply Hown. by apply under_unpacked. }
  { apply Htr. }
  fold p in E3, New, Old, K3. rewrite Ls2, Ls1 in New, Old. set (s4 := set_sfs (without (child store tn) (s_fs s3)) s3).
  assert (Hk4 : forall j, ~ under (child store tn) j -> s_fs s4 !! j = s_fs s3 !! j) by (intros j Hj; cbn; by rewrite lookup_without, decide_False).
  assert (Hgone : forall j, under (child store tn) j -> s_fs s4 !! j = None) by (intros j Hj; cbn; by rewrite lookup_without, decide_True).
  assert (Hready : store_ready E s4).
  { destruct R3 as [Q1 Q2 Q3]. split; [|done|rewrite Hk4; [done|apply not_under_child]]. apply (roots_ready_store E HE s3); [done|done|apply without_wf, Q1|].
    intros j Hj. apply Hk4. intros Hu. apply Hj. eapply under_trans; [apply under_child|done]. }
  exists s4, source'. split_and!; [|done|done| |apply Hgone, under_refl|by intros Hv; apply New].
  - unfold importPath. rewrite (run_bind _ _ _ _ _ E1). apply auto_delete_run; [|apply R3|apply child_nonnil].
    rewrite (run_bind _ _ _ _ _ E2). cbv beta iota. by rewrite (run_bind _ _ _ _ _ E3).
  - destruct (decide (p ∈ all_paths (ls_db (s_ls s)))) as [Hv|Hv].
    + destruct (Old Hv) as [Ls3 K3']. apply (valid_adds E HE s s4 p t refs (sr_ls E s A1) A2 Hv Hready Ls3). intros j Hj.
      destruct (decide (under (child store tn) j)) as [Hu|Hu]; [by rewrite Hgone, Hfree|]. by rewrite Hk4, K3', K2, Hno1.
    + destruct (New Hv) as (Reg & T & L). apply (added_adds E HE s s4 n (import_deriver (s_ls s) d) t refs); [by split|done|done|done|]. fold p. split.
      * done.
      * done.
      * apply (tree_of_same (s_fs s3) _ _ _ _ T). intros j Hj. apply Hk4. by apply (store_names_apart n tn).
      * intros j H1 H2 H3. destruct (decide (under (child store tn) j)) as [Hu|Hu]; [by rewrite Hgone, Hfree|]. by rewrite Hk4, K3, K2, Hno1.
      * split; [by rewrite Hk4|]. cbn. by rewrite Lk3, Lk2, Lk1.
Qed.
End ImportTheory.

(** ** The round trip *)

Section RoundTrip.
Context (E : Env) `{HA : HashAlgo} {HL : HashAlgoLaws} (HE : env_ok E).
Abbreviation store := (nixStore E).

Lemma registered_deriver ls ls' p d t refs :
  registration store (now E) [path_info p d t refs] ls ls' -> p ∉ all_paths (ls_db ls) -> queryDeriver store ls' p = Ok d.
Proof.
  intros Hreg Hp. assert (Hv : p ∈ all_paths (ls_db ls')).
  { apply (rn_valid _ _ _ _ _ Hreg). right. eexists. split; [left|done]. }
  destruct (queryPathInfo_valid store ls' p (rn_ok _ _ _ _ _ Hreg) Hv) as (i & r & h & Hi & Hrp & _ & _ & Eq).
  unfold queryDeriver. rewrite Eq. cbn. f_equal.
  destruct (rn_new _ _ _ _ _ Hreg i r Hi) as [Hold|(info & ->%list_elem_of_singleton & -> & _)].
  - destruct Hp. apply elem_of_all_paths. by exists i, r.
  - unfold info_row, path_info. cbn. by destruct d.
Qed.

(** The tree of a valid path of a consistent store, and the hash that is registered for it. *)
Lemma consistent_tree s p h refs d : consistent s -> exportable E s p h refs d ->
  exists t, tree_of (s_fs s) (fun _ => true) (S (size (s_fs s))) p = Some t /\ node_bounded t /\ h = nar_hash t.
Proof.
  intros Hc [X1 X2 X3 X4 X5 X6 X7]. destruct (queryPathInfo_valid store _ p (sr_ls E s X1) X3) as (i & r & h' & Hi & Hrp & Hf & Hh & Eq).
  unfold queryPathHash in X4. rewrite Eq in X4. cbn in X4. injection X4 as <-.
  destruct (Hc i r Hi) as (t & Ht & Hb & Hn & _). rewrite Hrp in Ht. exists t. split_and!; [done|done|].
  destruct (pathHash_ok E s p h' (sr_ls E s X1) X3) as [_ Hty]; [unfold queryPathHash; by rewrite Eq|].
  rewrite Hf in Hn. apply app_inv_head in Hn. pose proof (parse_print_hash16 h' Hh) as P1. rewrite Hn, Hty in P1.
  pose proof (parse_print_hash16 (nar_hash t) (hash_of_bytes_ok htSHA256 32 _ eq_refl)) as P2.
  change (type (nar_hash t)) with htSHA256 in P2. rewrite P1 in P2. by injection P2.
Qed.

Lemma references_valid s p h refs d : exportable E s p h refs d -> Forall (fun q => isStorePath store q = true) (set_iter refs).
Proof.
  intros [X1 X2 X3 X4 X5 X6 X7]. destruct (queryPathInfo_valid store _ p (sr_ls E s X1) X3) as (i & r & h' & Hi & Hrp & Hf & Hh & Eq).
  unfold ls_queryReferences in X5. rewrite Eq in X5. cbn in X5. injection X5 as <-. apply Forall_forall. intros q Hq.
  rewrite set_iter_perm in Hq. apply elem_of_elements in Hq. apply (elem_of_ls_refs store _ _ _ (sr_ls E s X1)) in Hq as (a & b & _ & Hb & _).
  apply (valid_store_path E s); [apply X1|]. apply elem_of_all_paths. by exists b.
Qed.
End RoundTrip.

(** C23: a path that is exported from one store can be imported into another.  From a
    consistent store [exportPath] returns and writes a stream to the sink (whatever
    the sink is); from any source that delivers the stream, followed by anything,
    [importPath] into another store that has the references (and where the path can be
    added) returns the path and stops exactly at the end of the stream; the path is
    then valid there, with the tree it has in the first store, its references, and its
    deriver if that is valid; nothing else in the store changes, no temporary
    directory is left, and the store stays consistent.  The stream has to be shorter
    than 4 GiB. *)
Theorem export_import E E2 `{HA : HashAlgo} {HL : HashAlgoLaws} openssl can_link_symlink emlink_link emlink_rename rand partial heldLocks
    {K} `{SinkLaws K} {S} `{SourceLaws S} fuel (sink : K) s p h refs d :
  env_ok E -> env_ok E2 -> nixStore E2 = nixStore E -> consistent s -> exportable E s p h refs d ->
  d = [] \/ isStorePath (nixStore E) d = true -> sink_rep sink [] ->
  exists t sink' s' stream,
    tree_of (s_fs s) (fun _ => true) (Datatypes.S (size (s_fs s))) p = Some t /\
    exportPath E openssl fuel p false sink s = Done sink' s' /\ s_ls s' = s_ls s /\ sink_rep sink' stream /\
    forall (source : S) rest s2 n k fuel2,
      source_ok source -> source_rem source = stream ++ rest -> chunk_ok (stream ++ rest) ->
      p = child (nixStore E2) n -> import_pre E2 heldLocks s2 n refs k -> (node_fuel t + length (nixStore E2) + k + 2 < fuel2)%nat ->
      exists source' s2',
        importPath E2 can_link_symlink emlink_link emlink_rename rand partial openssl heldLocks fuel2 false source s2 = Done (p, source') s2' /\
        source_ok source' /\ source_rem source' = rest /\ adds E2 p t refs s2 (Done p s2') /\
        s_fs s2' !! child (nixStore E2) (temp_name E2 (s_counter s2 + Z.of_nat k)) = None /\
        (p ∉ all_paths (ls_db (s_ls s2)) -> queryDeriver (nixStore E2) (s_ls s2') p = Ok (import_deriver (s_ls s2) d)).
Proof.
  intros HE HE2 Estore Hc Hex Hd Hk. destruct (consistent_tree E s p h refs d Hc Hex) as (t & Ht & Hb & Hh).
  destruct (exportPath_run E HE openssl fuel s p h refs d sink [] t Hex Hk Ht Hb Hh) as (s' & sink' & E1 & R1 & _ & L1 & _).
  exists t, sink', s', (enc_export p t refs d None). split_and!; [done|done|done|done|].
  intros source rest s2 n k fuel2 Ho Hr Hck Hp Hpre Hf. destruct (tree_of_sorted _ _ _ _ _ Ht) as [Hso _].
  assert (Htr : trailer_ok E2 p refs d).
  { split; rewrite ?Estore; [apply Hex| |by apply (references_valid E s p h refs d)|done]. apply (valid_store_path E s); apply Hex. }
  rewrite Hp in *. destruct (importPath_run E2 HE2 can_link_symlink emlink_link emlink_rename rand partial openssl heldLocks fuel2 false s2 n k source rest t refs d None)
    as (s2' & source' & E2' & O2 & R2 & A2 & G2 & Reg2); [done|done|done|done|by rewrite Hr|done|done|lia|lia| |].
  { split; [done|]. intros Hx. discriminate Hx. }
  exists source', s2'. split_and!; [done|done|done|done|done|]. intros Hnv. apply (registered_deriver E2 (s_ls s2) _ _ _ t refs); [by apply Reg2|done].
Qed.

(** ** Witness *)

#[local] Existing Instance checksum_algo.
#[local] Existing Instance checksum_laws.

(** A store with one path, and an empty one. *)
Definition info_a : ValidPathInfo := path_info (HA := checksum_algo) path_a [] tree_a ∅.
Definition one_store : LocalStore :=
  match registerValidPath ($"/nix/store") (readFile sample_env gc_fs) 0 1 empty_store info_a with Ok ls => ls | _ => empty_store end.
Definition one_state : sstate := mkS one_store gc_fs sample_attr ∅ None 0 ∅.

Lemma one_registration : registration ($"/nix/store") 0 [info_a] empty_store one_store.
Proof.
  destruct (registerValidPath_run sample_env (readFile sample_env gc_fs) 0 1 empty_store info_a) as (ls & E1 & Hr).
  - exact empty_store_ok.
  - reflexivity.
  - apply hash_of_bytes_ok. reflexivity.
  - reflexivity.
  - vm_compute. reflexivity.
  - intros q Hq. exact (False_ind _ (not_elem_of_empty q Hq)).
  - reflexivity.
  - unfold one_store. change (nixStore sample_env) with ($"/nix/store") in E1. rewrite E1. exact Hr.
Qed.

Lemma one_consistent : consistent (HA := checksum_algo) one_state.
Proof.
  intros i r Hi. destruct (rn_new _ _ _ _ _ one_registration i r Hi) as [Hold|(info & ->%list_elem_of_singleton & -> & _)]; [discriminate Hold|].
  exists tree_a. split_and!; [vm_compute; reflexivity|vm_compute; split; [|split; [|exact I]]; reflexivity|reflexivity|]. right. vm_compute. reflexivity.
Qed.

Definition hash_one : Hash := match queryPathHash ($"/nix/store") one_store path_a with Ok h => h | _ => Hash_default end.

Lemma one_exportable : exportable sample_env one_state path_a hash_one ∅ [].
Proof.
  split.
  - destruct empty_ready as [S1 S2 S3]. split; [|exact (rn_ok _ _ _ _ _ one_registration)|exact S3]. destruct S1 as [R1 R2 R3 R4 R5 R6 R7]. by split.
  - apply (bool_decide_unpack (Forall (fun c => char_eqb c NUL = false) path_a)). vm_compute. exact I.
  - apply (rn_valid _ _ _ _ _ one_registration). right. exists info_a. split; [left|done].
  - vm_compute. reflexivity.
  - vm_compute. reflexivity.
  - vm_compute. reflexivity.
  - split; [vm_compute; reflexivity|constructor|reflexivity|reflexivity].
Qed.

Lemma empty_import_pre : import_pre (HA := checksum_algo) sample_env [] empty_state ($"abc-a") ∅ 0.
Proof.
  split.
  - apply empty_pre; [vm_compute; reflexivity|vm_compute; exact I|]. intros q Hq. exact (False_ind _ (not_elem_of_empty q Hq)).
  - reflexivity.
  - apply (bool_decide_unpack (Forall (fun c => char_eqb c NUL = false) ($"abc-a"))). vm_compute. exact I.
  - apply (bool_decide_unpack (Forall (fun c => char_eqb c NUL = false) ($"42"))). vm_compute. exact I.
  - split; [vm_compute; reflexivity|reflexivity|split; reflexivity|lia|]. 
    apply (bool_decide_unpack (gc_fs !! ($"/nix/store/nix-42-0") = None)). vm_compute. exact I.
  - split; discriminate.
  - intros k _. left. reflexivity.
  - vm_compute. intros Hx. exact (False_ind _ (not_elem_of_nil _ Hx)).
Qed.

Abbreviation run_export := (exportPath sample_env (fun _ _ => Ok []) 0 path_a false (mkStringSink []) one_state).

Lemma export_import_witness :
  exists sink' s' source' s2', run_export = Done sink' s' /\
    importPath sample_env false (fun _ _ => false) (fun _ _ => false) (fun _ => 0%Z) (fun fs _ => fs) (fun _ _ => Ok []) [] 100 false
      (mkStringSource (ss_s sink') 0) empty_state = Done (path_a, source') s2' /\
    tree_of (s_fs s2') (fun _ => true) (S (size (s_fs s2'))) path_a = Some tree_a.
Proof.
  destruct (export_import sample_env sample_env (HA := checksum_algo) (HL := checksum_laws) (fun _ _ => Ok []) false (fun _ _ => false) (fun _ _ => false)
    (fun _ => 0%Z) (fun fs _ => fs) [] (K := StringSink) (S := StringSource) 0 (mkStringSink []) one_state path_a hash_one ∅ [] sample_env_ok sample_env_ok
    eq_refl one_consistent one_exportable ltac:(left; reflexivity) ltac:(reflexivity)) as (t & sink' & s' & stream & Ht & E1 & _ & Hs & Himp).
  assert (Hl : match run_export with Done k _ => (Z.of_nat (length (ss_s k)) <? 1000)%Z | _ => false end = true) by (vm_compute; reflexivity).
  rewrite E1 in Hl. cbn in Hs. subst stream. assert (Some t = Some tree_a) as [= ->] by (rewrite <- Ht; vm_compute; reflexivity).
  destruct (Himp (mkStringSource (ss_s sink') 0) [] empty_state ($"abc-a") 0%nat 100%nat) as (source' & s2' & E2 & _ & _ & A & _).
  - cbn. lia.
  - cbn. by rewrite app_nil_r.
  - rewrite app_nil_r. apply Z.ltb_lt in Hl. unfold chunk_ok. lia.
  - reflexivity.
  - exact empty_import_pre.
  - vm_compute. lia.
  - exists sink', s', source', s2'. split; [exact E1|]. split; [exact E2|]. destruct A as (s3 & [= <-] & _ & _ & _ & _ & An & _).
    apply An. apply not_elem_of_empty.
Defined.
