(* ===== verification/Verify.v ===== *)
(** * Verifying the store (src/src/libstore/local-store.cc)

    [verifyStore] checks that the objects of the valid paths exist, removes from the
    database the paths whose objects have disappeared, and compares the contents of
    the others with their registered hashes; [pathContentsGood] does so for one
    path.  Repairing, which rebuilds a path, is a parameter.

    The theorems: if the objects that have disappeared are only referred to by
    paths whose objects have disappeared as well, verification removes exactly these
    from the database, fills in the hashes and sizes that were not computed, changes nothing else, and reports an
    error exactly when some object does not have its registered hash; whatever happens, no path is
    invalidated whose object exists.  When an object that exists needs one that has
    disappeared, which needs another one that nothing else needs, verification fails with a database error. *)

From Stdlib Require Import ZArith Lia Ascii Relations.
From stdpp Require Import base strings sorting numbers gmap sets list.
From S2P Require Import Prelude Effects Util Serialise Hash FileSystem FileOps Archive References StorePath Derivations Closure LocalStore GCRoots GC PathLocks StoreFiles Optimise AddToStore Export.

(** The local variables of a verification, next to the state of the process. *)
Record verification : Type := mkVerification {
  v_s : sstate; v_done : gset str; v_valid : gset str; v_errors : bool }.
Definition on_s {A} (m : M sstate A) : M verification A :=
  zoom v_s (fun s v => mkVerification s (v_done v) (v_valid v) (v_errors v)) m.
Definition set_errors : M verification unit := modify (fun v => mkVerification (v_s v) (v_done v) (v_valid v) true).

(** A loop that clears a flag. *)
Fixpoint allM {A} (f : A -> M verification bool) (l : list A) : M verification bool :=
  match l with
  | [] => mret true
  | a :: l => b ← f a; r ← allM f l; mret (b && r)
  end.

Section Verify.
Context (E : Env) `{HA : HashAlgo} (repairPath : str -> M sstate unit).
Abbreviation store := (nixStore E).

Definition invalidate (p : str) : M sstate unit :=
  update (fun s => ls ← invalidatePath (s_ls s) p; Ok (set_sls ls s)).

(** [try { repairPath(path) } catch (Error & e) { errors = true }] *)
Definition try_repair (p : str) : M verification unit :=
  try_catch is_Error (on_s (repairPath p)) (fun _ => set_errors).

Fixpoint verifyPath (fuel : nat) (path : str) (names : gset str) (repair : bool) : M verification unit :=
  match fuel with
  | O => stuck
  | S fuel =>
      done ← gets v_done;
      if decide (path ∈ done) then mret tt
      else
        _ ← modify (fun v => mkVerification (v_s v) ({[path]} ∪ v_done v) (v_valid v) (v_errors v));
        if negb (isStorePath store path) then on_s (invalidate path)
        else
          base ← lift (fun _ => baseNameOf path);
          if negb (bool_decide (base ∈ names)) then
            referrers ← lift (fun v => ls_queryReferrers store (s_ls (v_s v)) path);
            canInvalidate ← allM (fun i =>
              if str_eqb i path then mret true
              else
                _ ← verifyPath fuel i names repair;
                valid ← gets v_valid;
                mret (negb (bool_decide (i ∈ valid)))) (set_iter referrers);
            if (canInvalidate : bool) then on_s (invalidate path)
            else if repair then try_repair path else set_errors
          else modify (fun v => mkVerification (v_s v) (v_done v) ({[path]} ∪ v_valid v) (v_errors v))
  end.

(** The check of the contents of one path. *)
Definition nullHash : result Hash := Hash_new htSHA256.
Definition fill_in (info : ValidPathInfo) (null : Hash) (current : Hash * Z) : ValidPathInfo * bool :=
  let '(info, u1) := if Hash_eqb (vhash info) null
    then (mkValidPathInfo (path info) (deriver info) (fst current) (references info) (registrationTime info) (narSize info) (vid info), true)
    else (info, false) in
  if (narSize info =? 0)%Z
  then (mkValidPathInfo (path info) (deriver info) (vhash info) (references info) (registrationTime info) (snd current) (vid info), true)
  else (info, u1).
Definition check_contents (null : Hash) (repair : bool) (i : str) : M verification unit :=
  info ← lift (fun v => queryPathInfo store (s_ls (v_s v)) i);
  current ← on_s (hash_path E (type (vhash info)) i);
  if Hash_neqb (vhash info) null && Hash_neqb (vhash info) (fst current)
  then if repair then on_s (repairPath i) else set_errors
  else
    let '(info, update) := fill_in info null current in
    if update then on_s (modify (fun s => set_sls (updatePathInfo (s_ls s) info) s)) else mret tt.

Definition verifyStore (checkContents repair : bool) : M sstate bool := fun s =>
  let run : M verification unit :=
    _ ← on_s (on_fs (openGCLock E));
    entries ← lift (fun v => readDirectory (s_fs (v_s v)) store);
    validPaths2 ← gets (fun v => queryAllValidPaths (s_ls (v_s v)));
    _ ← forM (fun i => verifyPath (S (size validPaths2)) i (list_to_set entries) repair) (set_iter validPaths2);
    if checkContents then
      null ← lift (fun _ => nullHash);
      validPaths ← gets v_valid;
      forM (fun i => try_catch is_Error (check_contents null repair i) (fun _ => set_errors)) (set_iter validPaths)
    else mret tt in
  match run (mkVerification s ∅ ∅ false) with
  | Done _ v => Done (v_errors v) (v_s v)
  | Raised e v => Raised e (v_s v)
  | Stuck => Stuck
  end.

Definition pathContentsGood (p : str) : M sstate bool :=
  cache ← gets s_good;
  match cache !! p with
  | Some b => mret b
  | None =>
      info ← lift (fun s => queryPathInfo store (s_ls s) p);
      e ← gets (fun s => pathExists (s_fs s) p);
      res ← (if negb e then mret false
             else
               current ← hash_path E (type (vhash info)) p;
               null ← lift (fun _ => nullHash);
               mret (Hash_eqb (vhash info) null || Hash_eqb (vhash info) (fst current)));
      _ ← modify (fun s => set_good (<[p := res]> (s_good s)) s);
      mret res
  end.

Definition markContentsGood (p : str) : M sstate unit := modify (fun s => set_good (<[p := true]> (s_good s)) s).

(** ** The database of Nix 0.12 *)

Context (nixDBPath : str).

Definition queryValidPathsOld (s : sstate) : result (gset str) :=
  entries ← readDirectory (s_fs s) (nixDBPath ++ $"/info");
  foldM (fun paths i =>
    match i with
    | [] => throw eOutOfRange ($"basic_string::at")
    | c :: _ => Ok (if char_eqb c "."%char then paths else {[child store i]} ∪ paths)
    end) ∅ entries.

(** One line of an info file. *)
Definition old_line (p infoFile : str) (res : ValidPathInfo) (i : str) : result ValidPathInfo :=
  match str_find ":"%char i with
  | None => error ($"corrupt line in `" ++ infoFile ++ $"': " ++ i)
  | Some pos =>
      let name := take pos i in
      value ← substr_from i (pos + 2);
      if str_eqb name ($"References") then
        Ok (mkValidPathInfo (path res) (deriver res) (vhash res) (list_to_set (tokenizeString value [" "%char])) (registrationTime res) (narSize res) (vid res))
      else if str_eqb name ($"Deriver") then
        Ok (mkValidPathInfo (path res) value (vhash res) (references res) (registrationTime res) (narSize res) (vid res))
      else if str_eqb name ($"Hash") then
        h ← parseHashField p value;
        Ok (mkValidPathInfo (path res) (deriver res) h (references res) (registrationTime res) (narSize res) (vid res))
      else if str_eqb name ($"Registered-At") then
        Ok (mkValidPathInfo (path res) (deriver res) (vhash res) (references res) (default 0%Z (string2Int value)) (narSize res) (vid res))
      else Ok res
  end.
Definition queryPathInfoOld (s : sstate) (p : str) : result ValidPathInfo :=
  baseName ← baseNameOf p;
  let infoFile := nixDBPath ++ $"/info/" ++ baseName in
  if negb (pathExists (s_fs s) infoFile) then error ($"path `" ++ p ++ $"' is not valid")
  else
    info ← readFile E (s_fs s) infoFile;
    foldM (old_line p infoFile) (mkValidPathInfo p [] Hash_default ∅ 0 0 0) (tokenizeString info [NL]).

(** [upgradeStore6] after the new tables have been created; the transaction is one
    step. *)
Definition upgrade_refs (s : sstate) (st : LocalStore) (i : str) : result LocalStore :=
  info ← queryPathInfoOld s i;
  referrer ← queryValidPathId st i;
  foldM (fun st j => r ← queryValidPathId st j; addReference st referrer r) st (set_iter (references info)).
Definition upgradeStore6 : M sstate unit :=
  update (fun s =>
    validPaths ← queryValidPathsOld s;
    st ← foldM (fun st i =>
      info ← queryPathInfoOld s i;
      '(_, st) ← addValidPath store (readFile E (s_fs s)) (now E) (S (size validPaths)) st info false;
      Ok st) (s_ls s) (set_iter validPaths);
    st ← foldM (upgrade_refs s) st (set_iter validPaths);
    Ok (set_sls st s)).
End Verify.

(** * Lemmas *)

Lemma run_on_s {A} (m : M sstate A) v a s :
  m (v_s v) = Done a s -> on_s m v = Done a (mkVerification s (v_done v) (v_valid v) (v_errors v)).
Proof. intros H. unfold on_s. by rewrite (run_zoom v_s _ m v a s H). Qed.

Section VerifyTheory.
Context (E : Env) `{HA : HashAlgo} {HL : HashAlgoLaws} (HE : env_ok E) (repairPath : str -> M sstate unit).
Abbreviation store := (nixStore E).

(** ** Removing paths from a database *)

(** [db'] is [db] without the paths in [G]. *)
Record shrunk (G : gset str) (db db' : DB) : Prop := {
  sh_ok : db_ok store db';
  sh_rows : forall i r, db_valid db' !! i = Some r <-> db_valid db !! i = Some r /\ r_path r ∉ G;
  sh_refs : forall a b, db_ref db' a b <-> db_ref db a b /\ a ∉ G }.

Lemma shrunk_refl db : db_ok store db -> shrunk ∅ db db.
Proof. intros Hok. split; [done|..]; intros; split; [|tauto| |tauto]; intros H; (split; [done|apply not_elem_of_empty]). Qed.

Lemma shrunk_step G p db db1 db2 : shrunk G db db1 -> invalidated_db store p db1 db2 -> shrunk ({[p]} ∪ G) db db2.
Proof.
  intros [_ S2 S3] [I1 I2 I3 _]. split; [done|..].
  - intros i r. rewrite I2, S2, not_elem_of_union, not_elem_of_singleton. tauto.
  - intros a b. rewrite I3, S3, not_elem_of_union, not_elem_of_singleton. tauto.
Qed.

Lemma shrunk_paths G db db' : shrunk G db db' -> all_paths db' = all_paths db ∖ G.
Proof.
  intros [_ S2 _]. apply set_eq. intros p. rewrite elem_of_difference, !elem_of_all_paths. split.
  - intros (i & r & Hr & <-). apply S2 in Hr as [Hr HG]. split; [by exists i, r|done].
  - intros [(i & r & Hr & <-) HG]. exists i, r. split; [by apply S2|done].
Qed.

(** ** The situation *)

Context (ls : LocalStore) (fs : FileSys) (ls_fine : ls_ok store ls) (names : gset str).
Abbreviation db := (ls_db ls).
Abbreviation V := (all_paths (ls_db ls)).
Definition missing (p : str) : Prop := p ∈ V /\ fs !! p = None.
Definition proper_ref (p q : str) : Prop := p <> q /\ db_ref db p q.
Context (names_spec : forall n, name_ok n = true -> n ∈ names <-> fs !! child store n <> None).
(** Objects that have disappeared are not needed by those that are there, and the
    references have no cycles. *)
Context (needed : forall p q, missing p -> db_ref db q p -> q = p \/ missing q).
Context (acyclic : forall p, ~ clos_trans str proper_ref p p).

Lemma V_child p : p ∈ V -> exists n, p = child store n /\ name_ok n = true.
Proof.
  intros (i & r & Hr & <-)%elem_of_all_paths. apply (isStorePath_child store); [apply HE|]. by destruct (ok_rows _ _ ls_fine i r Hr).
Qed.

Lemma V_names p : p ∈ V -> exists n, baseNameOf p = Ok n /\ isStorePath store p = true /\ (n ∈ names <-> fs !! p <> None).
Proof.
  intros Hp. destruct (V_child p Hp) as (n & -> & Hn). exists n. split_and!.
  - unfold baseNameOf, child. apply name_ok_spec in Hn as [_ Hn]. rewrite str_rfind_app by done. f_equal.
    rewrite drop_app_ge by lia. by replace (S (length store) - length store)%nat with 1%nat by lia.
  - apply (isStorePath_child store); [apply HE|]. by exists n.
  - by apply names_spec.
Qed.

(** The variables in the course of the verification: the paths in [G] have been
    removed. *)
Record vinv (G : gset str) (v : verification) : Prop := {
  vi_db : shrunk G db (ls_db (s_ls (v_s v)));
  vi_fs : s_fs (v_s v) = fs;
  vi_gone : forall p, p ∈ G -> missing p;
  vi_done : v_done v ⊆ V;
  vi_valid : forall p, p ∈ v_valid v <-> p ∈ v_done v /\ fs !! p <> None;
  vi_errors : v_errors v = false }.

(** What a call leaves: only missing paths have been looked at, and removed. *)
Record vstep (G G' : gset str) (v v' : verification) : Prop := {
  vs_G : G ⊆ G';
  vs_done : v_done v ⊆ v_done v';
  vs_new : forall q, q ∈ v_done v' -> q ∈ v_done v \/ q ∈ G' }.

Lemma vstep_refl G v : vstep G G v v.
Proof. split; [done|done|auto]. Qed.
Lemma vstep_trans G1 G2 G3 v1 v2 v3 : vstep G1 G2 v1 v2 -> vstep G2 G3 v2 v3 -> vstep G1 G3 v1 v3.
Proof.
  intros [A1 A2 A3] [B1 B2 B3]. split; [by etrans|by etrans|]. intros q Hq. destruct (B3 q Hq) as [H|H]; [|by right].
  destruct (A3 q H) as [?|?]; [by left|right; by apply B1].
Qed.

Abbreviation tref := (clos_trans str proper_ref).

(** Missing paths that are being processed are needed by the one that is called. *)
Definition stacked (G : gset str) (v : verification) (p : str) : Prop := forall q, q ∈ v_done v -> missing q -> q ∈ G \/ tref p q.

Definition removes (fuel : nat) (p : str) : Prop := forall v G, vinv G v -> missing p -> stacked G v p ->
  (size (V ∖ v_done v) < fuel)%nat ->
  exists v' G', verifyPath E repairPath fuel p names false v = Done tt v' /\ vinv G' v' /\ vstep G G' v v' /\ p ∈ G' /\ p ∈ v_done v'.

(** The loop over the referrers. *)
Lemma referrers_removed fuel p l : (forall i, removes fuel i) -> missing p -> forall v G,
  vinv G v -> p ∈ v_done v -> (forall q, q ∈ v_done v -> missing q -> q ∈ G \/ q = p \/ tref p q) ->
  (forall i, i ∈ l -> db_ref db i p) -> (size (V ∖ v_done v) < fuel)%nat ->
  exists v' G',
    allM (fun i => if str_eqb i p then mret true
                   else _ ← verifyPath E repairPath fuel i names false; valid ← gets v_valid; mret (negb (bool_decide (i ∈ valid)))) l v = Done true v' /\
    vinv G' v' /\ vstep G G' v v' /\ forall i, i ∈ l -> i <> p -> i ∈ G'.
Proof.
  intros IH Hp. induction l as [|i l IHl]; intros v G Hv Hpd Hst Hl Hf; cbn [allM].
  { exists v, G. split_and!; [done|done|apply vstep_refl|]. intros i Hi. by apply not_elem_of_nil in Hi. }
  assert (Hi : db_ref db i p) by (apply Hl; left).
  assert (exists v1 G1, (if str_eqb i p then mret true
      else _ ← verifyPath E repairPath fuel i names false; valid ← gets v_valid; mret (negb (bool_decide (i ∈ valid)))) v = Done true v1 /\
    vinv G1 v1 /\ vstep G G1 v v1 /\ (i <> p -> i ∈ G1)) as (v1 & G1 & E1 & Hv1 & Hs1 & Hi1).
  { unfold str_eqb. case_bool_decide as Hip; [by exists v, G; split_and!; [| |apply vstep_refl|]|].
    destruct (needed p i Hp Hi) as [?|Hmi]; [done|]. assert (Hpr : proper_ref i p) by done.
    destruct (IH i v G Hv Hmi) as (v1 & G1 & E1 & Hv1 & Hs1 & Hi1 & _); [|done|].
    - intros q Hq Hmq. destruct (Hst q Hq Hmq) as [?|[-> |Ht]]; [by left|right; by apply t_step|right].
      eapply t_trans; [by apply t_step|done].
    - exists v1, G1. split_and!; [|done|done|done]. rewrite (run_bind _ _ _ _ _ E1), run_gets.
      rewrite bool_decide_eq_false_2; [done|]. rewrite (vi_valid _ _ Hv1). intros [_ Hex]. apply Hex, Hmi. }
  destruct (IHl v1 G1 Hv1) as (v2 & G2 & E2 & Hv2 & Hs2 & Hi2).
  - by apply (vs_done _ _ _ _ Hs1).
  - intros q Hq Hmq. destruct (vs_new _ _ _ _ Hs1 q Hq) as [Hq'|?]; [|by left].
    destruct (Hst q Hq' Hmq) as [?|?]; [left; by apply (vs_G _ _ _ _ Hs1)|by right].
  - intros j Hj. apply Hl. by right.
  - eapply Nat.le_lt_trans; [|exact Hf]. apply subseteq_size. pose proof (vs_done _ _ _ _ Hs1) as Hd. clear -Hd. set_solver.
  - exists v2, G2. split_and!; [|done|by eapply vstep_trans|].
    + rewrite (run_bind _ _ _ _ _ E1), (run_bind _ _ _ _ _ E2). done.
    + intros j [-> |Hj]%elem_of_cons Hjp; [apply (vs_G _ _ _ _ Hs2); by apply Hi1|by apply Hi2].
Qed.


Lemma verifyPath_removes fuel : forall p, removes fuel p.
Proof.
  induction fuel as [|fuel IH]; intros p v G Hv Hp Hst Hf; [lia|]. cbn [verifyPath]. rewrite run_gets.
  destruct (decide (p ∈ v_done v)) as [Hd|Hd].
  { exists v, G. split_and!; [done|done|apply vstep_refl| |done]. destruct (Hst p Hd Hp) as [?|Ht]; [done|]. by apply acyclic in Ht. }
  rewrite run_modify. set (v1 := mkVerification _ _ _ _). destruct (V_names p (proj1 Hp)) as (n & En & Esp & Hn).
  rewrite Esp. cbn [negb]. rewrite (run_lift _ _ _ n) by done.
  rewrite bool_decide_eq_false_2 by (rewrite Hn; intros Hx; apply Hx, Hp). cbn [negb].
  assert (Hv1 : vinv G v1).
  { destruct Hv as [I1 I2 I3 I4 I5 I6]. split; [done|done|done| | |done].
    - cbn. pose proof (proj1 Hp) as HpV. clear -I4 HpV. set_solver.
    - intros q. cbn. rewrite I5, elem_of_union, elem_of_singleton. split; [tauto|]. intros [[-> |?] Hq]; [by destruct Hq; apply Hp|done]. }
  rewrite (run_lift _ _ _ (stmtQueryReferrers (ls_db (s_ls (v_s v))) p)).
  2:{ unfold ls_queryReferrers, assertStorePath. by rewrite Esp. }
  set (refs := stmtQueryReferrers _ p). assert (Hrefs : forall q, q ∈ set_iter refs <-> db_ref db q p /\ q ∉ G).
  { intros q. rewrite set_iter_perm, elem_of_elements. unfold refs. rewrite (elem_of_referrers store) by apply (vi_db _ _ Hv).
    apply (sh_refs _ _ _ (vi_db _ _ Hv)). }
  destruct (referrers_removed fuel p (set_iter refs) IH Hp v1 G Hv1) as (v2 & G2 & E2 & Hv2 & Hs2 & Hg2).
  - cbn. clear. set_solver.
  - intros q Hq Hmq. cbn in Hq. apply elem_of_union in Hq as [->%elem_of_singleton|Hq]; [right; by left|].
    destruct (Hst q Hq Hmq) as [?|?]; [by left|by right; right].
  - intros i Hi. by apply Hrefs in Hi as [? _].
  - cbn. assert (size (V ∖ ({[p]} ∪ v_done v)) < size (V ∖ v_done v))%nat; [|lia]. apply subset_size.
    pose proof (proj1 Hp) as HpV. clear -HpV Hd. set_solver.
  - rewrite (run_bind _ _ _ _ _ E2). cbv iota.
    destruct (stmtInvalidatePath_spec store (ls_db (s_ls (v_s v2))) p) as (db' & Edb & Hiv); [apply (vi_db _ _ Hv2)| |].
    { intros q Hq. apply (sh_refs _ _ _ (vi_db _ _ Hv2)) in Hq as [Hq HqG]. destruct (decide (q = p)) as [?|Hqp]; [done|].
      exfalso. apply HqG, Hg2; [|done]. apply Hrefs. split; [done|]. intros Hx. apply HqG. by apply (vs_G _ _ _ _ Hs2). }
    unfold on_s, zoom, invalidate, update, invalidatePath. rewrite Edb. cbn [mbind result_bind]. eexists _, ({[p]} ∪ G2).
    split; [done|]. destruct Hv2 as [I1 I2 I3 I4 I5 I6]. split_and!.
    + split; [by eapply shrunk_step|done| |done|done|done]. intros q [->%elem_of_singleton|Hq]%elem_of_union; [done|by apply I3].
    + destruct Hs2 as [A1 A2 A3]. split; cbn; [clear -A1; set_solver|clear -A2; set_solver|]. intros q Hq. destruct (A3 q Hq) as [Hq'|?].
      * apply elem_of_union in Hq' as [->%elem_of_singleton|?]; [right; clear; set_solver|by left].
      * right. by apply elem_of_union_r.
    + clear. set_solver.
    + cbn. apply (vs_done _ _ _ _ Hs2). cbn. clear. set_solver.
Qed.

(** A path whose object is there. *)
Lemma verifyPath_exists fuel p v G : vinv G v -> p ∈ V -> fs !! p <> None -> (0 < fuel)%nat ->
  exists v', verifyPath E repairPath fuel p names false v = Done tt v' /\ vinv G v' /\ v_done v' = {[p]} ∪ v_done v.
Proof.
  intros Hv Hp Hex Hf. destruct fuel as [|fuel]; [lia|]. cbn [verifyPath]. rewrite run_gets. destruct (decide (p ∈ v_done v)) as [Hd|Hd].
  { exists v. split_and!; [done|done|]. clear -Hd. set_solver. }
  rewrite run_modify. destruct (V_names p Hp) as (n & En & Esp & Hn). rewrite Esp. cbn [negb]. rewrite (run_lift _ _ _ n) by done.
  rewrite bool_decide_eq_true_2 by (by apply Hn). cbn [negb]. eexists. split_and!; [done| |done].
  destruct Hv as [I1 I2 I3 I4 I5 I6]. split; [done|done|done| | |done]; cbn.
  - clear -I4 Hp. set_solver.
  - intros q. rewrite !elem_of_union, !elem_of_singleton, I5. split; [intros [-> |[? ?]]; auto|]. intros [[-> |?] ?]; auto.
Qed.

(** All paths: exactly the missing ones are removed. *)
Lemma verify_all l : forall v G, vinv G v -> (forall p, p ∈ l -> p ∈ V) -> (forall q, q ∈ v_done v -> missing q -> q ∈ G) ->
  exists v' G', forM (fun i => verifyPath E repairPath (S (size V)) i names false) l v = Done tt v' /\ vinv G' v' /\
    (forall q, q ∈ v_done v' -> missing q -> q ∈ G') /\ v_done v ⊆ v_done v' /\ (forall p, p ∈ l -> p ∈ v_done v').
Proof.
  induction l as [|p l IH]; intros v G Hv Hl Hst; cbn [forM].
  { exists v, G. split_and!; [done|done|done|done|]. intros p H. by apply not_elem_of_nil in H. }
  assert (HpV : p ∈ V) by (apply Hl; left).
  assert (exists v1 G1, verifyPath E repairPath (S (size V)) p names false v = Done tt v1 /\ vinv G1 v1 /\ v_done v ⊆ v_done v1 /\ p ∈ v_done v1 /\
    (forall q, q ∈ v_done v1 -> missing q -> q ∈ G1)) as (v1 & G1 & E1 & Hv1 & Hd1 & Hp1 & Hst1).
  { destruct (fs !! p) as [i|] eqn:Ep.
    - destruct (verifyPath_exists (S (size V)) p v G Hv HpV) as (v1 & E1 & Hv1 & Hd1); [congruence|lia|]. exists v1, G. rewrite Hd1.
      split_and!; [done|done|clear; set_solver|clear; set_solver|]. intros q [->%elem_of_singleton|Hq]%elem_of_union Hmq; [|by apply Hst].
      destruct Hmq. congruence.
    - assert (Hmp : missing p) by done. destruct (verifyPath_removes (S (size V)) p v G Hv Hmp) as (v1 & G1 & E1 & Hv1 & Hs1 & HpG & Hpd).
      + intros q Hq Hmq. left. by apply Hst.
      + apply Nat.lt_succ_r, subseteq_size. clear. set_solver.
      + exists v1, G1. destruct Hs1 as [A1 A2 A3]. split_and!; [done|done|done|done|].
        intros q Hq Hmq. destruct (A3 q Hq) as [Hq'|?]; [|done]. apply A1. by apply Hst. }
  destruct (IH v1 G1 Hv1) as (v2 & G2 & E2 & Hv2 & Hst2 & Hd2 & Hl2); [intros q Hq; apply Hl; by right|done|].
  exists v2, G2. split_and!; [|done|done|by etrans|].
  - by rewrite (run_bind _ _ _ _ _ E1).
  - intros q [-> |Hq]%elem_of_cons; [by apply Hd2|by apply Hl2].
Qed.

(** ** The contents *)

Lemma null_hash : exists z, nullHash = Ok z /\ hash_wf z /\ type z = htSHA256.
Proof. eexists. split_and!; [done| |done]. split; [done| |done|done]. by apply (Forall_replicate byte 32 0%Z). Qed.

(** The registered hash is that of the object, or was never computed. *)
Definition good_row (fs : FileSys) (r : row) : Prop := exists t h,
  tree_of fs (fun _ => true) (S (size fs)) (r_path r) = Some t /\ parseHashField (r_path r) (r_hash r) = Ok h /\ (nullHash = Ok h \/ h = nar_hash t).

(** What the check makes of a row: a hash or a size that is missing is filled in; a row that is not good is left alone. *)
Definition opt_size (n : Z) : option Z := if (n =? 0)%Z then None else Some n.
Definition verified_row (fs : FileSys) (r : row) : row :=
  match tree_of fs (fun _ => true) (S (size fs)) (r_path r), parseHashField (r_path r) (r_hash r) with
  | Some t, Ok h =>
      if decide (nullHash = Ok h \/ h = nar_hash t) then
        let n := default 0%Z (r_narSize r) in
        mkRow (r_path r) ($"sha256:" ++ printHash (nar_hash t)) (r_time r) (r_deriver r) (opt_size (if (n =? 0)%Z then nar_size t else n))
      else r
  | _, _ => r
  end.
Lemma verified_path fs' r : r_path (verified_row fs' r) = r_path r.
Proof. unfold verified_row. by repeat case_match. Qed.

Definition size_ok (r : row) : Prop := forall n, r_narSize r = Some n -> (0 <= n < 2 ^ 64)%Z.

(** What is filled in, in terms of the two comparisons. *)
Lemma fill_in_cases info null t :
  let c1 := Hash_eqb (vhash info) null in let c2 := (narSize info =? 0)%Z in
  fill_in info null (nar_hash t, nar_size t) =
    (mkValidPathInfo (path info) (deriver info) (if c1 then nar_hash t else vhash info) (references info) (registrationTime info) (if c2 then nar_size t else narSize info) (vid info), c1 || c2).
Proof. intros c1 c2. unfold fill_in. fold c1. destruct c1; cbn [narSize]; fold c2; destruct c2, info; done. Qed.

Lemma sql_path_found ls' i r : ls_ok store ls' -> db_valid (ls_db ls') !! i = Some r -> sql_path (ls_db ls') (r_path r) = Some (i, r).
Proof.
  intros Hok Hi. assert (Hp : r_path r ∈ all_paths (ls_db ls')) by (apply elem_of_all_paths; by exists i, r).
  destruct (valid_path_row store ls' _ Hok Hp) as (j & r' & h & E1 & _). pose proof E1 as E2. apply (sql_path_some store) in E2 as [Hj Hrp]; [|done].
  assert (j = i) as -> by (by apply (ok_unique _ _ Hok _ _ _ _ Hj Hi)). by rewrite Hi in Hj; injection Hj as <-.
Qed.

Lemma check_contents_run null v i r t :
  nullHash = Ok null -> ls_ok store (s_ls (v_s v)) -> db_valid (ls_db (s_ls (v_s v))) !! i = Some r -> s_fs (v_s v) = fs -> size_ok r ->
  tree_of fs (fun _ => true) (S (size fs)) (r_path r) = Some t -> node_bounded t ->
  exists ls' b, check_contents E repairPath null false (r_path r) v = Done tt (mkVerification (set_sls ls' (v_s v)) (v_done v) (v_valid v) (v_errors v || negb b)) /\
    ls_ok store ls' /\ db_valid (ls_db ls') = <[i := verified_row fs r]> (db_valid (ls_db (s_ls (v_s v)))) /\ db_refs (ls_db ls') = db_refs (ls_db (s_ls (v_s v))) /\
    (b = true <-> good_row fs r).
Proof.
  intros Hnull Hok Hi Hfs Hsz Ht Hb. set (p := r_path r) in *. set (ls' := s_ls (v_s v)) in *.
  assert (Hp : p ∈ all_paths (ls_db ls')) by (apply elem_of_all_paths; by exists i, r).
  assert (Hsql : sql_path (ls_db ls') p = Some (i, r)) by (by apply sql_path_found).
  destruct (valid_path_row store ls' p Hok Hp) as (i2 & r2 & h & E2 & _ & Hsp & Hh & Hty & Hf). rewrite Hsql in E2. injection E2 as <- <-.
  assert (Epf : parseHashField p (r_hash r) = Ok h) by (rewrite Hf; by apply parseHashField_ok).
  destruct null_hash as (z & Ez & Zwf & Zt). assert (z = null) as -> by congruence.
  destruct (Hash_eqb_spec h null (proj1 Hh) Zwf ltac:(congruence)) as [Q1 Q2].
  destruct (hash_of_bytes_ok htSHA256 32 (enc_archive t) eq_refl) as [Nwf Nok]. fold (nar_hash t) in Nwf, Nok.
  destruct (Hash_eqb_spec h (nar_hash t) (proj1 Hh) Nwf Hty) as [C1 C2].
  assert (Hg : good_row fs r <-> (h = null \/ h = nar_hash t)).
  { unfold good_row. split; [intros (t' & h' & E1 & E3 & Hc)|intros Hc; exists t, h; split_and!; [done|done|]].
    - fold p in E1. rewrite Ht in E1. injection E1 as <-. fold p in E3. rewrite Epf in E3. injection E3 as <-. rewrite Hnull in Hc. destruct Hc as [[= <-]|?]; auto.
    - rewrite Hnull. destruct Hc as [-> |?]; auto. }
  unfold check_contents, queryPathInfo, assertStorePath.
  erewrite run_lift by (fold ls'; rewrite Hsp; cbn [mbind result_bind]; fold p; rewrite Hsql; rewrite Epf; reflexivity). cbn [vhash]. rewrite Hty.
  assert (Eh : hash_path E htSHA256 p (v_s v) = Done (nar_hash t, nar_size t) (v_s v)) by (by apply hash_path_run; [..|rewrite Hfs]).
  rewrite (run_bind _ _ _ _ _ (run_on_s _ _ _ _ Eh)). cbn [fst]. rewrite Q2, C2. clear Q2 C2.
  assert (Hu : u64 (default 0%Z (r_narSize r)) = default 0%Z (r_narSize r)).
  { apply u64_small. destruct (r_narSize r) as [n|] eqn:En; [by apply Hsz|cbn; lia]. }
  assert (Hsame : set_sls ls' (v_s v) = v_s v) by (unfold ls'; by destruct (v_s v)).
  assert (Hvr : verified_row fs r = if decide (h = null \/ h = nar_hash t) then
    mkRow p ($"sha256:" ++ printHash (nar_hash t)) (r_time r) (r_deriver r) (opt_size (if (default 0%Z (r_narSize r) =? 0)%Z then nar_size t else default 0%Z (r_narSize r))) else r).
  { unfold verified_row. fold p. rewrite Ht, Epf. apply decide_ext. rewrite Hnull. split; (intros [Hx|?]; [left; congruence|by right]). }
  destruct (decide (h = null \/ h = nar_hash t)) as [Hgood|Hbad].
  - assert (negb (Hash_eqb h null) && negb (Hash_eqb h (nar_hash t)) = false) as ->.
    { destruct Hgood as [Hx|Hx]; [apply Q1 in Hx; by rewrite Hx|apply C1 in Hx; rewrite Hx; apply andb_false_r]. }
    rewrite fill_in_cases. cbn [vhash narSize path deriver references registrationTime vid]. rewrite Hu.
    assert ((if Hash_eqb h null then nar_hash t else h) = nar_hash t) as ->.
    { destruct (Hash_eqb h null) eqn:Eq; [done|]. destruct Hgood as [Hx|?]; [apply Q1 in Hx; congruence|done]. }
    destruct (Hash_eqb h null || _) eqn:Eu.
    + eexists (updatePathInfo ls' _), true. rewrite orb_false_r. split_and!; [reflexivity|by apply updatePathInfo_ok| | |by rewrite Hg].
      * cbn. unfold stmtUpdatePathInfo. cbn [path]. rewrite Hsql. cbn. by rewrite Hvr.
      * cbn. unfold stmtUpdatePathInfo. cbn [path]. by rewrite Hsql.
    + apply orb_false_iff in Eu as [Eq En]. exists ls', true. rewrite orb_false_r, Hsame. split_and!; [by destruct v|done| |done|by rewrite Hg].
      rewrite insert_id; [done|]. rewrite Hvr, Hi. f_equal. destruct Hgood as [Hx|<-]; [apply Q1 in Hx; congruence|]. rewrite <- Hf, En. unfold opt_size. rewrite En.
      unfold p. destruct r as [rp rh rt rd [n|]]; cbn in En |- *; [done|discriminate En].
  - assert (negb (Hash_eqb h null) && negb (Hash_eqb h (nar_hash t)) = true) as ->.
    { destruct (Hash_eqb h null) eqn:E3; [destruct Hbad; left; by apply Q1|]. destruct (Hash_eqb h (nar_hash t)) eqn:E4; [destruct Hbad; right; by apply C1|done]. }
    exists ls', false. rewrite Hsame, orb_true_r. split_and!; [done|done|rewrite insert_id; [done|by rewrite Hvr]|done|by rewrite Hg].
Qed.

Lemma check_all null l : nullHash = Ok null -> NoDup l ->
  (forall p, p ∈ l -> exists t, tree_of fs (fun _ => true) (S (size fs)) p = Some t /\ node_bounded t) ->
  forall v, ls_ok store (s_ls (v_s v)) -> (forall p, p ∈ l -> p ∈ all_paths (ls_db (s_ls (v_s v)))) ->
  (forall i r, db_valid (ls_db (s_ls (v_s v))) !! i = Some r -> r_path r ∈ l -> size_ok r) -> s_fs (v_s v) = fs ->
  exists ls' b, forM (fun i => try_catch is_Error (check_contents E repairPath null false i) (fun _ => set_errors)) l v =
      Done tt (mkVerification (set_sls ls' (v_s v)) (v_done v) (v_valid v) b) /\
    ls_ok store ls' /\ db_refs (ls_db ls') = db_refs (ls_db (s_ls (v_s v))) /\
    (forall i, db_valid (ls_db ls') !! i = (fun r => if decide (r_path r ∈ l) then verified_row fs r else r) <$> db_valid (ls_db (s_ls (v_s v))) !! i) /\
    (b = true <-> v_errors v = true \/ exists i r, db_valid (ls_db (s_ls (v_s v))) !! i = Some r /\ r_path r ∈ l /\ ~ good_row fs r).
Proof.
  intros Hnull. induction l as [|p l IH]; intros Hnd Ht v Hok Hl Hsz Hfs; cbn [forM].
  { exists (s_ls (v_s v)), (v_errors v). split_and!; [destruct v as [[] ? ? ?]; done|done|done| |].
    - intros i. destruct (_ !! i) as [r|]; [|done]. cbn. by rewrite decide_False by apply not_elem_of_nil.
    - split; [by left|]. intros [?|(i & r & _ & Hr & _)]; [done|by apply not_elem_of_nil in Hr]. }
  apply NoDup_cons in Hnd as [Hp Hnd]. destruct (Ht p ltac:(left)) as (t & Et & Hb).
  assert (exists i r, db_valid (ls_db (s_ls (v_s v))) !! i = Some r /\ r_path r = p) as (i & r & Hi & <-) by (apply elem_of_all_paths, Hl; left).
  destruct (check_contents_run null v i r t) as (ls1 & b & E1 & Ok1 & R1 & F1 & Hg); try done; [eapply Hsz; [done|left]|].
  set (v1 := mkVerification _ _ _ _) in E1.
  assert (Hrow : forall j s, db_valid (ls_db ls1) !! j = Some s -> r_path s ∈ l -> db_valid (ls_db (s_ls (v_s v))) !! j = Some s).
  { intros j s Hj Hs. rewrite R1 in Hj. apply lookup_insert_Some in Hj as [[<- <-]|[_ Hj]]; [|done]. by rewrite verified_path in Hs. }
  destruct (IH Hnd ltac:(intros q Hq; apply Ht; by right) v1) as (ls2 & b2 & E2 & Ok2 & F2 & R2 & Hb2); [exact Ok1| | |exact Hfs|].
  { intros q Hq. cbn. assert (Hql : q ∈ r_path r :: l) by (by right). apply Hl in Hql as (j & s & Hj & <-)%elem_of_all_paths. apply elem_of_all_paths. exists j, s. split; [|done].
    rewrite R1, lookup_insert_ne; [done|]. intros <-. rewrite Hi in Hj. by injection Hj as <-. }
  { intros j s Hj Hs. cbn in Hj. eapply Hsz; [by apply (Hrow j)|by right]. }
  exists ls2, b2. split_and!; [|done|by rewrite F2| |].
  - erewrite run_bind; [rewrite E2|unfold try_catch; by rewrite E1]. cbn. by destruct (v_s v).
  - intros j. rewrite R2. cbn [v1 v_s s_ls set_sls]. rewrite R1. destruct (decide (i = j)) as [<-|Hne].
    + rewrite lookup_insert_eq, Hi. cbn. rewrite verified_path, decide_False, decide_True by (done || left). done.
    + rewrite lookup_insert_ne by done. destruct (_ !! j) as [s|] eqn:Hj; [|done]. cbn. assert (r_path s <> r_path r) by (intros Heq; by apply Hne, eq_sym, (ok_unique _ _ Hok _ _ _ _ Hj Hi)).
      f_equal. apply decide_ext. rewrite elem_of_cons. tauto.
  - rewrite Hb2. cbn [v1 v_errors v_s s_ls set_sls]. rewrite orb_true_iff, negb_true_iff. split.
    + intros [[?|Hbf]|(j & s & Hj & Hs & Hn)]; [by left|right; exists i, r; split_and!; [done|left|rewrite <- Hg; congruence]|right]. exists j, s. split_and!; [by apply (Hrow j)|by right|done].
    + intros [?|(j & s & Hj & Hs & Hn)]; [by left; left|]. apply elem_of_cons in Hs as [Hs|Hs].
      * assert (j = i) as -> by (by apply (ok_unique _ _ Hok _ _ _ _ Hj Hi)). rewrite Hi in Hj. injection Hj as <-. left; right. rewrite <- Hg in Hn. by destruct b.
      * right. exists j, s. split_and!; [|done|done]. rewrite R1, lookup_insert_ne; [done|]. intros <-. rewrite Hi in Hj. by injection Hj as <-.
Qed.
End VerifyTheory.

Section VerifyTop.
Context (E : Env) `{HA : HashAlgo} {HL : HashAlgoLaws} (HE : env_ok E) (repairPath : str -> M sstate unit).
Abbreviation store := (nixStore E).

(** The situation in which the store is verified. *)
Record verifiable (s : sstate) : Prop := {
  vf_ready : store_ready E s;
  vf_needed : forall p q, missing (s_ls s) (s_fs s) p -> db_ref (ls_db (s_ls s)) q p -> q = p \/ missing (s_ls s) (s_fs s) q;
  vf_acyclic : forall p, ~ clos_trans str (proper_ref (s_ls s)) p p;
  vf_sizes : forall i r, db_valid (ls_db (s_ls s)) !! i = Some r -> size_ok r;
  vf_trees : forall p, p ∈ all_paths (ls_db (s_ls s)) -> s_fs s !! p <> None ->
    exists t, tree_of (s_fs s) (fun _ => true) (S (size (s_fs s))) p = Some t /\ node_bounded t }.

Lemma valid_under s p k : store_ready E s -> p ∈ all_paths (ls_db (s_ls s)) -> under p k -> under store k.
Proof. intros [_ H _]. by apply under_valid. Qed.

Lemma verify_start s : store_ready E s -> exists fs1 entries,
  openGCLock E (s_fs s) = Done tt fs1 /\ readDirectory fs1 store = Ok entries /\
  (forall n, name_ok n = true -> n ∈ (list_to_set entries : gset str) <-> fs1 !! child store n <> None) /\
  (forall k, k <> child (nixStateDir E) gcLockName -> fs1 !! k = s_fs s !! k).
Proof.
  intros Hs. pose proof Hs as [R1 R2 R3]. destruct R1 as [P1 P2 P3 P4 P5 P6 P7].
  destruct (openGCLock_run E (s_fs s) (eo_state E HE) P2 P3 P5) as (fs1 & E1 & W1 & K1 & _).
  assert (fs1 !! store = Some IDir) as Hd by (rewrite K1; [done|apply (state_not_store E HE), under_refl]).
  destruct (readDirectory fs1 store) as [entries| |] eqn:Er.
  - exists fs1, entries. split_and!; [done|done| |done]. intros n Hn. rewrite elem_of_list_to_set.
    apply readDirectory_spec in Er as (_ & _ & Hnames). rewrite Hnames. tauto.
  - unfold readDirectory in Er. by rewrite Hd in Er.
  - unfold readDirectory in Er. by rewrite Hd in Er.
Qed.

Lemma verified_row_same fs1 fs2 r t : tree_of fs1 (fun _ => true) (S (size fs1)) (r_path r) = Some t -> tree_of fs2 (fun _ => true) (S (size fs2)) (r_path r) = Some t ->
  verified_row fs1 r = verified_row fs2 r /\ (good_row fs1 r <-> good_row fs2 r).
Proof. intros H1 H2. unfold verified_row, good_row. by rewrite H1, H2. Qed.

(** The state after the first loop: the rows that are left are those of the paths found valid. *)
Record first_loop (s : sstate) (fs1 : FileSys) (v1 : verification) : Prop := {
  fp_db : exists G, shrunk E G (ls_db (s_ls s)) (ls_db (s_ls (v_s v1))) /\ forall p, p ∈ G <-> missing (s_ls s) (s_fs s) p;
  fp_fs : s_fs (v_s v1) = fs1;
  fp_same : forall k, k <> child (nixStateDir E) gcLockName -> fs1 !! k = s_fs s !! k;
  fp_valid : forall p, p ∈ set_iter (v_valid v1) <-> p ∈ all_paths (ls_db (s_ls s)) /\ s_fs s !! p <> None;
  fp_errors : v_errors v1 = false }.

Lemma first_loop_run s : verifiable s -> exists fs1 v1, first_loop s fs1 v1 /\
  verifyStore E repairPath true false s =
    match (null ← lift (fun _ => nullHash); validPaths ← gets v_valid;
      forM (fun i => try_catch is_Error (check_contents E repairPath null false i) (fun _ => set_errors)) (set_iter validPaths)) v1 with
    | Done _ v => Done (v_errors v) (v_s v) | Raised e v => Raised e (v_s v) | Stuck => Stuck end.
Proof.
  intros Hvf. destruct (verify_start s (vf_ready _ Hvf)) as (fs1 & entries & E1 & E2 & Hnames & K1). destruct Hvf as [Hs Hn Hac _ _].
  pose proof Hs as [R1 R2 R3]. set (V := all_paths (ls_db (s_ls s))) in *.
  assert (HKV : forall p, p ∈ V -> fs1 !! p = s_fs s !! p) by (intros p Hp; apply K1, (state_not_store E HE), (valid_under s p); [done|done|apply under_refl]).
  assert (Hmiss : forall p, missing (s_ls s) fs1 p <-> missing (s_ls s) (s_fs s) p).
  { intros p. unfold missing. split; intros [Hp Hx]; (split; [done|]); by rewrite (HKV p Hp) in * || rewrite <- (HKV p Hp). }
  set (v0 := mkVerification (set_sfs fs1 s) ∅ ∅ false).
  destruct (verify_all E HE repairPath (s_ls s) fs1 R2 (list_to_set entries) Hnames) with (l := set_iter V) (v := v0) (G := ∅ : gset str)
    as (v1 & G & E3 & [I1 I2 I3 I4 I5 I6] & Hst & _ & Hl).
  { intros p q Hp Hq. destruct (Hn p q) as [?|?]; [by apply Hmiss|done|by left|right; by apply Hmiss]. }
  { done. }
  { split; [by apply shrunk_refl|done|intros p Hp; by apply not_elem_of_empty in Hp|apply empty_subseteq| |done]. intros p. cbn.
    split; [intros Hp|intros [Hp _]]; by apply not_elem_of_empty in Hp. }
  { intros p Hp. by rewrite set_iter_perm, elem_of_elements in Hp. }
  { intros q Hq. cbn in Hq. by apply not_elem_of_empty in Hq. }
  assert (Hdone : forall p, p ∈ v_done v1 <-> p ∈ V).
  { intros p. split; [apply I4|]. intros Hp. apply Hl. by rewrite set_iter_perm, elem_of_elements. }
  exists fs1, v1. split; [split; [|done|done| |done]|].
  - exists G. split; [done|]. intros p. rewrite <- Hmiss. split; [apply I3|]. intros Hp. apply Hst; [|done]. apply Hdone, Hp.
  - intros p. rewrite set_iter_perm, elem_of_elements, I5, Hdone. split; intros [Hp Hx]; (split; [done|]); by rewrite (HKV p Hp) in *.
  - unfold verifyStore. cbv zeta. unfold on_fs. rewrite (run_bind _ _ _ _ _ (run_on_s _ (mkVerification s ∅ ∅ false) _ _ (run_zoom s_fs set_sfs _ s _ _ E1))).
    cbn [v_done v_valid v_errors]. fold v0. erewrite run_lift by exact E2. rewrite run_gets.
    change (queryAllValidPaths (s_ls (v_s v0))) with V. by rewrite (run_bind _ _ _ _ _ E3).
Qed.

Lemma first_loop_rows s fs1 v1 : first_loop s fs1 v1 -> forall i r,
  db_valid (ls_db (s_ls (v_s v1))) !! i = Some r <-> db_valid (ls_db (s_ls s)) !! i = Some r /\ r_path r ∈ set_iter (v_valid v1).
Proof.
  intros [(G & I1 & HG) _ _ Hval _] i r. rewrite (sh_rows _ _ _ _ I1), HG, Hval. unfold missing.
  assert (Hin : db_valid (ls_db (s_ls s)) !! i = Some r -> r_path r ∈ all_paths (ls_db (s_ls s))) by (intros Hi; apply elem_of_all_paths; by exists i, r).
  split; intros [Hi Hr]; (split; [done|]).
  - split; [by apply Hin|]. intros Hx. apply Hr. split; [by apply Hin|done].
  - intros [_ Hx]. by destruct Hr.
Qed.

Lemma first_loop_trees s fs1 v1 p : verifiable s -> first_loop s fs1 v1 -> p ∈ set_iter (v_valid v1) ->
  exists t, tree_of (s_fs s) (fun _ => true) (S (size (s_fs s))) p = Some t /\ tree_of fs1 (fun _ => true) (S (size fs1)) p = Some t /\ node_bounded t.
Proof.
  intros Hvf [_ _ K1 Hval _] [Hp Hx]%Hval. destruct (vf_trees _ Hvf p Hp Hx) as (t & Ht & Hbd). exists t. split_and!; [done| |done].
  apply (tree_of_same (s_fs s) _ _ _ _ Ht). intros k Hk. apply K1, (state_not_store E HE), (valid_under s p); [apply Hvf|done|done].
Qed.

(** Rows of the same paths, and the same pairs of ids: the same references. *)
Lemma db_ref_mapped (f : row -> row) db1 db2 : (forall r, r_path (f r) = r_path r) -> (forall i, db_valid db2 !! i = f <$> db_valid db1 !! i) -> db_refs db2 = db_refs db1 ->
  forall p q, db_ref db2 p q <-> db_ref db1 p q.
Proof.
  intros Hf Hv Hr p q. assert (Hp : forall i x, db_path db2 i x <-> db_path db1 i x).
  { intros i x. unfold db_path. rewrite Hv. split.
    - intros (r & Hr' & <-). apply fmap_Some in Hr' as (r0 & H0 & ->). exists r0. by rewrite Hf.
    - intros (r & H0 & <-). exists (f r). rewrite H0. by rewrite Hf. }
  unfold db_ref. rewrite Hr. setoid_rewrite Hp. done.
Qed.

Lemma verifyStore_run s : verifiable s ->
  exists b s', verifyStore E repairPath true false s = Done b s' /\ ls_ok store (s_ls s') /\
    (forall i r', db_valid (ls_db (s_ls s')) !! i = Some r' <-> exists r, db_valid (ls_db (s_ls s)) !! i = Some r /\ s_fs s !! r_path r <> None /\ r' = verified_row (s_fs s) r) /\
    (forall p q, db_ref (ls_db (s_ls s')) p q <-> db_ref (ls_db (s_ls s)) p q /\ s_fs s !! p <> None) /\
    (forall k, k <> child (nixStateDir E) gcLockName -> s_fs s' !! k = s_fs s !! k) /\
    (b = true <-> exists i r, db_valid (ls_db (s_ls s)) !! i = Some r /\ s_fs s !! r_path r <> None /\ ~ good_row (s_fs s) r).
Proof.
  intros Hvf. destruct (first_loop_run s Hvf) as (fs1 & v1 & Hfp & ->). pose proof (first_loop_rows s fs1 v1 Hfp) as Hrows.
  pose proof (fun p => first_loop_trees s fs1 v1 p Hvf Hfp) as Htree. destruct Hfp as [(G & I1 & HG) I2 K1 Hval I6]. set (l := set_iter (v_valid v1)) in *.
  assert (Hin : forall i r, db_valid (ls_db (s_ls s)) !! i = Some r -> r_path r ∈ all_paths (ls_db (s_ls s))) by (intros i r Hi; apply elem_of_all_paths; by exists i, r).
  assert (Hsame : forall r, r_path r ∈ l -> verified_row fs1 r = verified_row (s_fs s) r /\ (good_row fs1 r <-> good_row (s_fs s) r)).
  { intros r (t & H1 & H2 & _)%Htree. by apply (verified_row_same fs1 (s_fs s) r t). }
  destruct null_hash as (null & En & _). destruct (check_all E HE repairPath fs1 null l En) with (v := v1) as (ls' & b & E4 & Ok4 & F4 & R4 & Hb).
  { apply NoDup_set_iter. }
  { intros p (t & _ & ? & ?)%Htree. by exists t. }
  { apply (sh_ok _ _ _ _ I1). }
  { intros p [(i & r & Hi & <-)%elem_of_all_paths Hx]%Hval. apply elem_of_all_paths. exists i, r. split; [|done]. apply Hrows. split; [done|]. apply Hval. split; [by apply (Hin i)|done]. }
  { intros i r [Hi _]%Hrows _. by apply (vf_sizes _ Hvf i). }
  { done. }
  exists b, (set_sls ls' (v_s v1)). split_and!; [|done| | |intros k Hk; cbn; rewrite I2; by apply K1|].
  - erewrite run_lift by exact En. rewrite run_gets. fold l. by rewrite E4.
  - intros i r'. cbn. rewrite R4, fmap_Some. split.
    + intros (r & [Hi Hr]%Hrows & ->). exists r. rewrite decide_True by done. split_and!; [done|by apply Hval|by apply Hsame].
    + intros (r & Hi & Hx & ->). assert (Hr : r_path r ∈ l) by (apply Hval; split; [by apply (Hin i)|done]). exists r. rewrite decide_True by done.
      split; [by apply Hrows|symmetry; by apply Hsame].
  - intros p q. cbn. assert (Hf : forall r, r_path (if decide (r_path r ∈ l) then verified_row fs1 r else r) = r_path r) by (intros r; case_decide; [apply verified_path|done]).
    rewrite (db_ref_mapped _ _ _ Hf R4 F4), (sh_refs _ _ _ _ I1), HG. unfold missing.
    split; intros [Hr Hx]; (split; [done|]).
    + intros Hn. apply Hx. split; [|done]. destruct Hr as (i & j & (r & Hi & <-) & _). by apply (Hin i).
    + by intros [_ ?].
  - rewrite Hb, I6. split.
    + intros [?|(i & r & [Hi Hr]%Hrows & _ & Hg)]; [done|]. exists i, r. split_and!; [done|by apply Hval|]. by rewrite <- (proj2 (Hsame r Hr)).
    + intros (i & r & Hi & Hx & Hg). right. assert (Hr : r_path r ∈ l) by (apply Hval; split; [by apply (Hin i)|done]). exists i, r.
      split_and!; [by apply Hrows|done|]. by rewrite (proj2 (Hsame r Hr)).
Qed.
End VerifyTop.

(** ** Chains *)

Section Chain.
Context (E : Env) `{HA : HashAlgo} (HE : env_ok E) (repairPath : str -> M sstate unit).
Abbreviation store := (nixStore E).

Definition refused (p : str) : exn := Exn eError ($"invalidating path `" ++ p ++ $"' in database").

(** The outcomes of an invalidation. *)
Lemma stmtInvalidatePath_outcome db p : db_ok store db ->
  match stmtInvalidatePath db p with
  | Ok db' => invalidated_db store p db db' /\ forall q, db_ref db q p -> q = p
  | Throw e => e = refused p
  | NoFuel => False
  end.
Proof.
  intros Hok. assert (Hself : match stmtInvalidatePath db p with Ok _ => forall q, db_ref db q p -> q = p | Throw e => e = refused p | NoFuel => False end).
  { unfold stmtInvalidatePath. destruct (sql_path db p) as [[i r]|] eqn:Es.
    - apply (sql_path_some store) in Es as [Hi Hp]; [|done]. case_bool_decide as Hx; [done|]. intros q (x & y & (rx & Hrx & <-) & Hy & Hxy).
      assert (y = i) as -> by (apply (db_path_unique store db y i p); [done|done|by exists r]).
      destruct (decide (x = i)) as [-> |Hne]; [congruence|]. destruct Hx. exists (x, i). split; [|done]. apply elem_of_filter. split; [congruence|done].
    - intros q (x & y & _ & (r & Hr & Hp) & _). rewrite sql_path_none in Es. by destruct (Es y r Hr). }
  destruct (stmtInvalidatePath db p) as [db'|e|] eqn:Ei; [|done..]. split; [|done].
  destruct (stmtInvalidatePath_spec store db p Hok Hself) as (db2 & E2 & ?). congruence.
Qed.

Context (db : DB) (fs : FileSys) (names : gset str) (a q p : str).
Abbreviation V := (all_paths db).
Context (V_names' : forall x, x ∈ V -> exists n, baseNameOf x = Ok n /\ isStorePath store x = true /\ (n ∈ names <-> fs !! x <> None)).
(** [a] is there and needs [q], which needs [p]; nothing that is there needs [p]. *)
Record chain : Prop := {
  ch_aq : db_ref db a q; ch_qp : db_ref db q p; ch_ne : q <> p;
  ch_a : fs !! a <> None; ch_q : fs !! q = None; ch_p : fs !! p = None;
  ch_only : forall x, db_ref db x p -> x = p \/ fs !! x = None }.
Context (Hch : chain).

(** As long as no exception is thrown, the chain is there. *)
Record held (v : verification) : Prop := {
  hd_ok : db_ok store (ls_db (s_ls (v_s v)));
  hd_sub : forall x y, db_ref (ls_db (s_ls (v_s v))) x y -> db_ref db x y;
  hd_aq : db_ref (ls_db (s_ls (v_s v))) a q;
  hd_qp : db_ref (ls_db (s_ls (v_s v))) q p;
  hd_valid : forall x, x ∈ v_valid v -> fs !! x <> None }.

(** The outcomes of a call: the last path of the chain is not finished. *)
Definition unfinished (x : str) (v : verification) (o : outcome verification unit) : Prop :=
  match o with
  | Done _ v' => held v' /\ v_done v ⊆ v_done v' /\ x ∈ v_done v' /\ (p ∈ v_done v' -> p ∈ v_done v)
  | Raised e _ => exists y, e = refused y
  | Stuck => False
  end.

Lemma held_invalidate v x : held v -> x <> a ->
  match on_s (invalidate x) v with
  | Done _ v' => held v' /\ v_done v' = v_done v /\ x <> p /\ x <> q
  | Raised e _ => e = refused x
  | Stuck => False
  end.
Proof.
  intros [O1 O2 O3 O4 O5] Hxa. unfold on_s, zoom, invalidate, update, invalidatePath. pose proof (stmtInvalidatePath_outcome _ x O1) as Ho.
  destruct (stmtInvalidatePath _ x) as [db'|e|]; cbn [mbind result_bind]; [|done..]. destruct Ho as [[I1 I2 I3 _] Hself].
  assert (Hxq : x <> q) by (intros ->; by apply Hxa, eq_sym, Hself). assert (Hxp : x <> p) by (intros ->; apply (ch_ne Hch); by apply Hself).
  split_and!; [|done|done|done]. split; cbn; [done| | | |done].
  - intros y z [Hyz _]%I3. by apply O2.
  - apply I3. by split.
  - apply I3. split; [done|]. by intros <-.
Qed.

Lemma referrers_unfinished fuel x l : (forall y v, held v -> y ∈ V -> (size (V ∖ v_done v) < fuel)%nat -> unfinished y v (verifyPath E repairPath fuel y names false v)) ->
  (forall y, y ∈ l -> db_ref db y x) -> forall v, held v -> (size (V ∖ v_done v) < fuel)%nat ->
  match allM (fun i => if str_eqb i x then mret true
                 else _ ← verifyPath E repairPath fuel i names false; valid ← gets v_valid; mret (negb (bool_decide (i ∈ valid)))) l v with
  | Done b v' => held v' /\ v_done v ⊆ v_done v' /\ (p ∈ v_done v' -> p ∈ v_done v) /\ (x = p -> b = true)
  | Raised e _ => exists y, e = refused y
  | Stuck => False
  end.
Proof.
  intros IH. induction l as [|i l IHl]; intros Hl v Hv Hf; cbn [allM]; [done|].
  assert (Hi : db_ref db i x) by (apply Hl; left). assert (HiV : i ∈ V) by (destruct Hi as (k & _ & (r & Hr & <-) & _); apply elem_of_all_paths; by exists k, r).
  assert (Hone : match (if str_eqb i x then mret true
      else _ ← verifyPath E repairPath fuel i names false; valid ← gets v_valid; mret (negb (bool_decide (i ∈ valid)))) v with
    | Done b v' => held v' /\ v_done v ⊆ v_done v' /\ (p ∈ v_done v' -> p ∈ v_done v) /\ (x = p -> b = true)
    | Raised e _ => exists y, e = refused y | Stuck => False end).
  { unfold str_eqb. case_bool_decide as Hix; [done|]. specialize (IH i v Hv HiV Hf). unfold mbind, M_bind. destruct (verifyPath _ _ _ i _ _ v) as [u v1|e v1|]; [|done..].
    destruct IH as (H1 & H2 & _ & H4). cbn. split_and!; [done..|]. intros ->. rewrite bool_decide_eq_false_2; [done|]. intros Hvi. apply (hd_valid _ H1) in Hvi.
    destruct (ch_only Hch i Hi); done. }
  unfold mbind at 1, M_bind at 1. revert Hone. match goal with |- match ?o with _ => _ end -> _ => destruct o as [b v1|e v1|] end; [|done..]. intros (H1 & H2 & H3 & H4).
  assert (Hf1 : (size (V ∖ v_done v1) < fuel)%nat) by (eapply Nat.le_lt_trans; [|exact Hf]; apply subseteq_size; clear -H2; set_solver).
  specialize (IHl ltac:(intros y Hy; apply Hl; by right) v1 H1 Hf1). unfold mbind, M_bind. destruct (allM _ l v1) as [b2 v2|e v2|]; [|done..].
  destruct IHl as (K1 & K2 & K3 & K4). cbn. split_and!; [done|by etrans|auto|]. intros Hx. by rewrite H4, K4.
Qed.

Lemma verifyPath_unfinished fuel : forall x v, held v -> x ∈ V -> (size (V ∖ v_done v) < fuel)%nat -> unfinished x v (verifyPath E repairPath fuel x names false v).
Proof.
  induction fuel as [|fuel IH]; intros x v Hv Hx Hf; [lia|]. cbn [verifyPath]. rewrite run_gets. destruct (decide (x ∈ v_done v)) as [Hd|Hd]; [done|].
  rewrite run_modify. set (v1 := mkVerification _ _ _ _). destruct (V_names' x Hx) as (n & En & Esp & Hn). rewrite Esp. cbn [negb]. rewrite (run_lift _ _ _ n) by done.
  assert (Hv1 : held v1) by (by destruct Hv). assert (Hd1 : v_done v ⊆ v_done v1) by (cbn; apply union_subseteq_r). assert (Hxd : x ∈ v_done v1) by (cbn; by apply elem_of_union_l, elem_of_singleton).
  assert (Hp1 : x <> p -> p ∈ v_done v1 -> p ∈ v_done v) by (intros Hxp [->%elem_of_singleton|?]%elem_of_union; done).
  case_bool_decide as Hb; cbn [negb].
  - apply Hn in Hb. cbn. split_and!; [destruct Hv1; split; try done; cbn; intros y [->%elem_of_singleton|Hy]%elem_of_union; auto|done|done|].
    intros Hp. apply Hp1; [|done]. intros ->. apply Hb, Hch.
  - assert (Hmx : fs !! x = None) by (destruct (fs !! x) eqn:Ex; [destruct Hb; by apply Hn|done]).
    rewrite (run_lift _ _ _ (stmtQueryReferrers (ls_db (s_ls (v_s v1))) x)) by (unfold ls_queryReferrers, assertStorePath; by rewrite Esp).
    assert (Hf1 : (size (V ∖ v_done v1) < fuel)%nat).
    { cbn. assert (size (V ∖ ({[x]} ∪ v_done v)) < size (V ∖ v_done v))%nat; [|lia]. apply subset_size. clear -Hx Hd. set_solver. }
    pose proof (referrers_unfinished fuel x (set_iter (stmtQueryReferrers (ls_db (s_ls (v_s v1))) x)) IH) as Hloop.
    specialize (Hloop ltac:(intros y Hy; rewrite set_iter_perm, elem_of_elements in Hy; apply (hd_sub _ Hv1); by apply (elem_of_referrers store) in Hy; [|apply Hv1]) v1 Hv1 Hf1).
    unfold mbind, M_bind. destruct (allM _ _ v1) as [can v2|e v2|]; [|done..]. destruct Hloop as (H1 & H2 & H3 & H4). destruct can.
    + assert (Hxa : x <> a) by (intros ->; by apply (ch_a Hch)). pose proof (held_invalidate v2 x H1 Hxa) as Hi. destruct (on_s (invalidate x) v2) as [u v3|e v3|]; [|by exists x|done].
      destruct Hi as (K1 & K2 & Hxp & _). cbn. rewrite K2. split_and!; [done|by etrans|by apply H2|auto].
    + cbn. destruct H1. split_and!; [by split|by etrans|by apply H2|]. intros Hp. apply Hp1; [|auto]. intros Hxp. by specialize (H4 Hxp).
Qed.

Lemma loop_refused l : forall v, held v -> (forall x, x ∈ l -> x ∈ V) -> (p ∉ v_done v) -> p ∈ l ->
  exists y v', forM (fun i => verifyPath E repairPath (S (size V)) i names false) l v = Raised (refused y) v'.
Proof.
  induction l as [|x l IH]; intros v Hv Hl Hp Hpl; [by apply not_elem_of_nil in Hpl|]. cbn [forM].
  assert (Hf : (size (V ∖ v_done v) < S (size V))%nat) by (apply Nat.lt_succ_r, subseteq_size; clear; set_solver).
  pose proof (verifyPath_unfinished (S (size V)) x v Hv (Hl x ltac:(left)) Hf) as Ho. unfold mbind, M_bind.
  destruct (verifyPath _ _ _ x _ _ v) as [u v1|e v1|]; [|destruct Ho as [y ->]; by exists y, v1|done]. destruct Ho as (H1 & _ & H3 & H4).
  apply IH; [done|intros z Hz; apply Hl; by right|by intros ?%H4|]. apply elem_of_cons in Hpl as [<-|?]; [by apply H4 in H3|done].
Qed.
End Chain.

(** C33: a chain breaks verification.  Let an object that is there refer to a valid path whose object has disappeared, let that one refer to a third path
    whose object has disappeared as well, and let no object that is there refer to the third.  Then [verifyStore] without repair, whatever else
    the store has, does not return: at the latest when it comes to the third path it sees that the second is not among the paths found valid
    and tries to invalidate the third, which the database refuses because the second, which cannot be invalidated, still refers to it; the
    exception ends the verification instead of an error being reported. *)
Theorem verifyStore_chain_fails E `{HA : HashAlgo} {HL : HashAlgoLaws} repairPath checkContents s a q p :
  env_ok E -> store_ready E s -> chain (ls_db (s_ls s)) (s_fs s) a q p ->
  exists y s', verifyStore E repairPath checkContents false s = Raised (Exn eError ($"invalidating path `" ++ y ++ $"' in database")) s'.
Proof.
  intros HE Hs [C1 C2 C3 C4 C5 C6 C7]. destruct (verify_start E HE repairPath s Hs) as (fs1 & entries & E1 & E2 & Hnames & K1). pose proof Hs as [R1 R2 R3].
  set (db := ls_db (s_ls s)) in *. set (v0 := mkVerification (set_sfs fs1 s) ∅ ∅ false).
  assert (HK : forall x, x ∈ all_paths db -> fs1 !! x = s_fs s !! x) by (intros x Hx; apply K1, (state_not_store E HE), (valid_under E HE s x); [done|done|apply under_refl]).
  assert (Hin : forall x y, db_ref db x y -> x ∈ all_paths db /\ y ∈ all_paths db).
  { intros x y (i & j & (r & Hr & <-) & (r' & Hr' & <-) & _). split; apply elem_of_all_paths; [by exists i, r|by exists j, r']. }
  assert (Hch : chain db fs1 a q p).
  { destruct (Hin _ _ C1) as [Ha Hq], (Hin _ _ C2) as [_ Hp]. split; rewrite ?HK by done; try done. intros x Hx. destruct (Hin _ _ Hx) as [Hx' _]. rewrite HK by done. by apply C7. }
  destruct (loop_refused E repairPath db fs1 (list_to_set entries) a q p) with (l := set_iter (all_paths db)) (v := v0) as (y & v' & E3).
  { intros x Hx. by apply (V_names E HE (s_ls s) fs1 R2 _ Hnames). }
  { done. }
  { split; cbn; [exact R2|done|done|done|]. by intros x ?%not_elem_of_empty. }
  { intros x Hx. by rewrite set_iter_perm, elem_of_elements in Hx. }
  { cbn. apply not_elem_of_empty. }
  { rewrite set_iter_perm, elem_of_elements. apply (Hin _ _ C2). }
  exists y, (v_s v'). unfold verifyStore. cbv zeta. unfold on_fs. rewrite (run_bind _ _ _ _ _ (run_on_s _ (mkVerification s ∅ ∅ false) _ _ (run_zoom s_fs set_sfs _ s _ _ E1))).
  cbn [v_done v_valid v_errors]. fold v0. erewrite run_lift by exact E2. rewrite run_gets.
  change (queryAllValidPaths (s_ls (v_s v0))) with (all_paths db). by rewrite (run_raise _ _ _ _ _ E3).
Qed.

(** C25: verification without repair removes exactly what has disappeared, fills in what was never computed, and finds exactly what has
    been modified.  When no object that is there refers to one that has disappeared, and references have no cycles, [verifyStore] with the check of
    contents returns; a path stays in the database if and only if its object exists, with its references, and its row is as before but for a
    missing hash or size, which is computed, unless the contents do not have the registered hash ([verified_row]); the files are untouched (but
    for the lock of the garbage collector); and errors are reported if and only if the contents of some valid path do not have the hash that is registered. *)
Theorem verifyStore_exact E `{HA : HashAlgo} {HL : HashAlgoLaws} repairPath s :
  env_ok E -> verifiable E s ->
  exists b s', verifyStore E repairPath true false s = Done b s' /\ ls_ok (nixStore E) (s_ls s') /\
    (forall i r', db_valid (ls_db (s_ls s')) !! i = Some r' <->
       exists r, db_valid (ls_db (s_ls s)) !! i = Some r /\ s_fs s !! r_path r <> None /\ r' = verified_row (s_fs s) r) /\
    (forall p q, db_ref (ls_db (s_ls s')) p q <-> db_ref (ls_db (s_ls s)) p q /\ s_fs s !! p <> None) /\
    (forall k, k <> child (nixStateDir E) gcLockName -> s_fs s' !! k = s_fs s !! k) /\
    (b = true <-> exists i r, db_valid (ls_db (s_ls s)) !! i = Some r /\ s_fs s !! r_path r <> None /\ ~ good_row (s_fs s) r).
Proof. intros HE Hvf. by apply verifyStore_run. Qed.

(** ** Runs *)

#[local] Existing Instance checksum_algo.
#[local] Existing Instance checksum_laws.

Definition lost_p : str := $"/nix/store/abc-p".
Definition lost_q : str := $"/nix/store/abc-q".
Definition sample_info (p : str) (refs : gset str) : ValidPathInfo := path_info p [] tree_a refs.
Definition verify_sample (infos : list ValidPathInfo) : sstate :=
  mkS (match registerValidPaths ($"/nix/store") (readFile sample_env gc_fs) 0 5 empty_store infos with Ok ls => ls | _ => empty_store end)
    gc_fs sample_attr ∅ None 0 ∅.

Lemma sample_registered (infos : list ValidPathInfo) :
  Forall (fun i => isStorePath ($"/nix/store") (path i) = true /\ isDerivation (path i) = false /\ deriver i = [] /\ hash_ok (vhash i) /\ type (vhash i) = htSHA256) infos ->
  (forall i q, i ∈ infos -> q ∈ references i -> q ∈ map path infos) -> (length infos < 100)%nat ->
  match registerValidPaths ($"/nix/store") (readFile sample_env gc_fs) 0 5 empty_store infos with
  | Ok _ => true | _ => false end = true ->
  registration ($"/nix/store") 0 infos empty_store (s_ls (verify_sample infos)).
Proof.
  intros Hp Hcl Hlen Hok. unfold verify_sample. cbn [s_ls]. rewrite Forall_forall in Hp.
  pose proof (registerValidPaths_outcome ($"/nix/store") (readFile sample_env gc_fs) 0 5 empty_store infos) as H.
  destruct (registerValidPaths _ _ _ _ _ infos) as [ls'|e|]; [|discriminate Hok..]. apply H.
  - exact empty_store_ok.
  - apply Forall_forall. intros i Hi. destruct (Hp i Hi) as (H1 & _ & _ & H4 & _). by split.
  - apply Forall_forall. intros i Hi. destruct (Hp i Hi) as (_ & H2 & _ & _ & H5). by split.
  - intros i q Hi Hq. right. apply Hcl in Hq; [|done]. apply list_elem_of_fmap in Hq as (i' & -> & Hi'). by exists i'.
  - change (db_next (ls_db empty_store)) with 1%Z. lia.
Qed.

(** A path whose hash and size were not computed. *)
Definition null_sha : Hash := match nullHash with Ok h => h | _ => Hash_default end.
Definition blank_info (p : str) : ValidPathInfo := mkValidPathInfo p [] null_sha ∅ 0 0 0.

Lemma sample_infos_ok infos : Forall (fun i => isStorePath ($"/nix/store") (path i) = true /\ isDerivation (path i) = false /\ deriver i = [] /\
  (vhash i = nar_hash tree_a \/ vhash i = null_sha)) infos ->
  Forall (fun i => isStorePath ($"/nix/store") (path i) = true /\ isDerivation (path i) = false /\ deriver i = [] /\ hash_ok (vhash i) /\ type (vhash i) = htSHA256) infos.
Proof.
  intros Hf. eapply Forall_impl; [exact Hf|]. intros i (H1 & H2 & H3 & Hh). do 3 (split; [done|]). destruct Hh as [-> | ->]; (split; [|done]).
  - by apply hash_of_bytes_ok.
  - destruct null_hash as (z & Ez & Zwf & Zt). unfold null_sha. rewrite Ez. split; [done|]. rewrite Zt. injection Ez as <-. done.
Qed.

(** Two objects have disappeared, one of which refers to the other. *)
Definition two_lost : list ValidPathInfo := [sample_info lost_p ∅; sample_info lost_q {[lost_p]}; blank_info path_a].
Definition two_state : sstate := verify_sample two_lost.

Lemma two_registered : registration ($"/nix/store") 0 two_lost empty_store (s_ls two_state).
Proof.
  apply sample_registered.
  - apply sample_infos_ok. repeat (apply Forall_cons; split; [split_and!; [reflexivity..|auto]|]). constructor.
  - intros i q Hi Hq. repeat (apply elem_of_cons in Hi as [-> |Hi]); [..|by apply not_elem_of_nil in Hi]; cbn [references sample_info blank_info path_info] in Hq;
      [by apply not_elem_of_empty in Hq|apply elem_of_singleton in Hq as ->; left|by apply not_elem_of_empty in Hq].
  - cbn. lia.
  - vm_compute. reflexivity.
Qed.

Lemma two_refs p q : db_ref (ls_db (s_ls two_state)) p q -> p = lost_q /\ q = lost_p.
Proof.
  intros [(i & j & (r & Hr & _) & _)|(i & Hi & <- & Hq)]%(rn_refs _ _ _ _ _ two_registered); [discriminate Hr|].
  repeat (apply elem_of_cons in Hi as [-> |Hi]); [..|by apply not_elem_of_nil in Hi]; cbn [references path sample_info blank_info path_info] in *;
    [by apply not_elem_of_empty in Hq|apply elem_of_singleton in Hq as ->; done|by apply not_elem_of_empty in Hq].
Qed.

Lemma two_rows i r : db_valid (ls_db (s_ls two_state)) !! i = Some r -> exists info, info ∈ two_lost /\ r = info_row 0 info.
Proof. intros [Ho|(info & Hi & -> & _)]%(rn_new _ _ _ _ _ two_registered); [discriminate Ho|]. by exists info. Qed.

Lemma two_there i r : db_valid (ls_db (s_ls two_state)) !! i = Some r -> gc_fs !! r_path r <> None -> r = info_row 0 (blank_info path_a).
Proof.
  intros (info & Hi & ->)%two_rows Hx. unfold two_lost in Hi.
  repeat (apply elem_of_cons in Hi as [-> |Hi]); [..|by apply not_elem_of_nil in Hi]; cbn [info_row sample_info path_info path r_path] in *; [..|reflexivity].
  - destruct Hx. apply (bool_decide_unpack (gc_fs !! lost_p = None)). vm_compute. exact I.
  - destruct Hx. apply (bool_decide_unpack (gc_fs !! lost_q = None)). vm_compute. exact I.
Qed.

Lemma two_verifiable : verifiable sample_env two_state.
Proof.
  split.
  - destruct empty_ready as [S1 S2 S3]. split; [|exact (rn_ok _ _ _ _ _ two_registered)|exact S3]. destruct S1 as [R1 R2 R3 R4 R5 R6 R7]. by split.
  - intros p q _ (-> & ->)%two_refs. right. split; [|apply (bool_decide_unpack (gc_fs !! lost_q = None)); vm_compute; exact I].
    apply (rn_valid _ _ _ _ _ two_registered). right. exists (sample_info lost_q {[lost_p]}). split; [right; left|done].
  - intros p Hc. assert (forall x y, clos_trans str (proper_ref (s_ls two_state)) x y -> x = lost_q /\ y = lost_p) as Ht.
    { induction 1 as [x y [_ H]|x y z _ [H1 H2] _ [H3 H4]]; [by apply two_refs|]. rewrite H2 in H3. discriminate H3. }
    destruct (Ht p p Hc) as [H1 H2]. rewrite H1 in H2. discriminate H2.
  - intros i r (info & Hi & ->)%two_rows n Hn. unfold two_lost in Hi.
    repeat (apply elem_of_cons in Hi as [-> |Hi]); [..|by apply not_elem_of_nil in Hi]; vm_compute in Hn; simplify_eq; split; done.
  - intros p (i & r & Hi & <-)%elem_of_all_paths Hx. rewrite (two_there i r Hi Hx). exists tree_a. split; [vm_compute; reflexivity|].
    vm_compute. split; [|split; [|exact I]]; reflexivity.
Qed.

Lemma verifyStore_exact_witness : exists s' i r, verifyStore sample_env (fun _ => stuck) true false two_state = Done false s' /\
  (lost_p ∉ all_paths (ls_db (s_ls s'))) /\ db_valid (ls_db (s_ls s')) !! i = Some r /\ r_path r = path_a /\
  r_hash r = $"sha256:" ++ printHash (nar_hash tree_a) /\ r_narSize r = Some (nar_size tree_a).
Proof.
  destruct (verifyStore_exact sample_env (HA := checksum_algo) (HL := checksum_laws) (fun _ => stuck) two_state sample_env_ok two_verifiable)
    as (b & s' & E1 & Hok & Hrows & _ & _ & Hb).
  assert (Ha : path_a ∈ all_paths (ls_db (s_ls two_state))).
  { apply (rn_valid _ _ _ _ _ two_registered). right. exists (blank_info path_a). split; [right; right; left|done]. }
  apply elem_of_all_paths in Ha as (i & r & Hi & Hr). assert (Hx : gc_fs !! r_path r <> None).
  { rewrite Hr. apply (bool_decide_unpack (gc_fs !! path_a <> None)). vm_compute. exact I. }
  exists s', i, (verified_row gc_fs r). split_and!.
  - rewrite E1. destruct b; [|reflexivity]. destruct (proj1 Hb eq_refl) as (j & r2 & Hj & Hx2 & Hg). destruct Hg.
    rewrite (two_there j r2 Hj Hx2). exists tree_a, null_sha. split_and!; [vm_compute; reflexivity..|]. left. vm_compute. reflexivity.
  - intros (j & r2 & Hj & Hr2)%elem_of_all_paths. apply Hrows in Hj as (r3 & _ & Hx3 & ->). rewrite verified_path in Hr2. rewrite Hr2 in Hx3. apply Hx3.
    apply (bool_decide_unpack (gc_fs !! lost_p = None)). vm_compute. exact I.
  - apply Hrows. exists r. split_and!; [exact Hi|exact Hx|reflexivity].
  - by rewrite verified_path.
  - rewrite (two_there i r Hi Hx). vm_compute. reflexivity.
  - rewrite (two_there i r Hi Hx). vm_compute. reflexivity.
Defined.

(** [path_a] is there and refers to [lost_q], and that one to [lost_p]. *)
Definition chain_infos : list ValidPathInfo := [sample_info lost_p ∅; sample_info lost_q {[lost_p]}; sample_info path_a {[lost_q]}].

Lemma chain_registered : registration ($"/nix/store") 0 chain_infos empty_store (s_ls (verify_sample chain_infos)).
Proof.
  apply sample_registered.
  - apply sample_infos_ok. repeat (apply Forall_cons; split; [split_and!; [reflexivity..|auto]|]). constructor.
  - intros i q Hi Hq. repeat (apply elem_of_cons in Hi as [-> |Hi]); [..|by apply not_elem_of_nil in Hi]; cbn [references sample_info path_info] in Hq;
      [by apply not_elem_of_empty in Hq|apply elem_of_singleton in Hq as ->; left|apply elem_of_singleton in Hq as ->; right; left].
  - cbn. lia.
  - vm_compute. reflexivity.
Qed.

Lemma verifyStore_chain_fails_witness : exists y s',
  verifyStore sample_env (fun _ => stuck) false false (verify_sample chain_infos) = Raised (Exn eError ($"invalidating path `" ++ y ++ $"' in database")) s'.
Proof.
  pose proof (proj2 (rn_refs _ _ _ _ _ chain_registered path_a lost_q)) as H1. pose proof (proj2 (rn_refs _ _ _ _ _ chain_registered lost_q lost_p)) as H2.
  apply (verifyStore_chain_fails sample_env (HA := checksum_algo) (HL := checksum_laws) (fun _ => stuck) false (verify_sample chain_infos) path_a lost_q lost_p sample_env_ok).
  - destruct empty_ready as [S1 S2 S3]. split; [|exact (rn_ok _ _ _ _ _ chain_registered)|exact S3]. destruct S1 as [R1 R2 R3 R4 R5 R6 R7]. by split.
  - split.
    + apply H1. right. exists (sample_info path_a {[lost_q]}). split_and!; [right; right; left|done|change (lost_q ∈ ({[lost_q]} : gset str)); by apply elem_of_singleton].
    + apply H2. right. exists (sample_info lost_q {[lost_p]}). split_and!; [right; left|done|change (lost_p ∈ ({[lost_p]} : gset str)); by apply elem_of_singleton].
    + discriminate.
    + apply (bool_decide_unpack (gc_fs !! path_a <> None)). vm_compute. exact I.
    + apply (bool_decide_unpack (gc_fs !! lost_q = None)). vm_compute. exact I.
    + apply (bool_decide_unpack (gc_fs !! lost_p = None)). vm_compute. exact I.
    + intros x [(i & j & (r & Hr & _) & _)|(i & Hi & <- & Hq)]%(rn_refs _ _ _ _ _ chain_registered); [discriminate Hr|]. right.
      repeat (apply elem_of_cons in Hi as [-> |Hi]); [..|by apply not_elem_of_nil in Hi]; cbn [references path sample_info path_info] in *.
      * by apply not_elem_of_empty in Hq.
      * apply (bool_decide_unpack (gc_fs !! lost_q = None)). vm_compute. exact I.
      * apply elem_of_singleton in Hq. discriminate Hq.
Defined.
