(* ===== verification/AddRoots.v ===== *)
(** * Adding roots of the garbage collector (src/src/libstore/gc.cc)

    [createSymlink], [addIndirectRoot], [addPermRoot] and [syncWithGC].  The theorem:
    a root that has been added is one that [findRoots] finds, directly or through an
    indirection. *)

From Stdlib Require Import ZArith Lia Ascii Relations.
From stdpp Require Import base strings sorting numbers gmap sets list.
From S2P Require Import Prelude Effects Util Serialise Hash FileSystem FileOps Archive References StorePath Derivations Closure LocalStore GCRoots GC PathLocks StoreFiles Optimise AddToStore Export.

Section AddRoots.
Context (E : Env) `{HA : HashAlgo} (rand : FileSys -> Z) (checkRootReachability : bool).
Abbreviation store := (nixStore E).

Definition temp_link (link : str) (r : Z) : str := link ++ $".tmp-" ++ pid E ++ "-"%char :: int2String r.

Definition createSymlink (link target : str) : M FileSys unit :=
  dir ← lift (fun _ => dirOf link);
  _ ← createDirs (length dir) dir;
  r ← gets rand;
  let tempLink := temp_link link r in
  _ ← update (fun fs => match sys_create fs tempLink (ILnk target) with
                        | Some fs => Ok fs
                        | None => throw eSysError ($"symlinking `" ++ tempLink ++ $"' to `" ++ target ++ $"'")
                        end);
  update (fun fs => match sys_rename fs tempLink link with
                    | Some fs => Ok fs
                    | None => throw eSysError ($"cannot rename `" ++ tempLink ++ $"' to `" ++ link ++ $"'")
                    end).

Definition syncWithGC : M sstate unit := on_fs (openGCLock E).

Definition addIndirectRoot (path : str) : M sstate unit :=
  h ← lift (fun _ => hashString htSHA1 path);
  hash ← lift (fun _ => printHash32 h);
  realRoot ← lift (fun _ => canonPath (nixStateDir E ++ slash :: gcRootsDir ++ $"/auto/" ++ hash));
  on_fs (createSymlink realRoot path).

(** [pathExists(gcRoot) && (!isLink(gcRoot) || !isInStore(readLink(gcRoot)))] *)
Definition clobbers (fs : FileSys) (gcRoot : str) : result bool :=
  if negb (pathExists fs gcRoot) then Ok false
  else
    l ← isLink fs gcRoot;
    if negb l then Ok true
    else t ← readLink fs gcRoot; Ok (negb (isInStore store t)).

(** A direct root must be in the gcroots directory. *)
Definition check_outside (gcRoot : str) (allowOutsideRootsDir : bool) : result unit :=
  if allowOutsideRootsDir then Ok tt
  else
    rd ← rootsDir (nixStateDir E);
    if negb (str_eqb (take (S (length rd)) gcRoot) (rd ++ [slash]))
    then error ($"path `" ++ gcRoot ++ $"' is not a valid garbage collector root; it's not in the directory `" ++ rd ++ $"'")
    else Ok tt.

(** The search for the root, which only leads to a warning. *)
Definition check_reachability : M sstate unit :=
  if checkRootReachability
  then fun s => match findRoots store (nixStateDir E) (cwd E) (s_ls s) false (s_fs s, ∅) with
                | Done _ (fs, _) => Done tt (set_sfs fs s)
                | Raised e (fs, _) => Raised e (set_sfs fs s)
                | Stuck => Stuck
                end
  else mret tt.

Definition addPermRoot (_storePath _gcRoot : str) (indirect allowOutsideRootsDir : bool) : M sstate str :=
  storePath ← lift (fun _ => canonPath _storePath);
  gcRoot ← lift (fun _ => canonPath _gcRoot);
  _ ← lift (fun _ => assertStorePath store storePath);
  if isInStore store gcRoot
  then raise eError ($"creating a garbage collector root (" ++ gcRoot ++ $") in the Nix store is forbidden (are you running nix-build inside the store?)")
  else
    _ ← (if indirect then
           c ← lift (fun s => clobbers (s_fs s) gcRoot);
           if (c : bool) then raise eError ($"cannot create symlink `" ++ gcRoot ++ $"'; already exists")
           else
             _ ← on_fs (createSymlink gcRoot storePath);
             addIndirectRoot gcRoot
         else
           _ ← lift (fun _ => check_outside gcRoot allowOutsideRootsDir);
           on_fs (createSymlink gcRoot storePath));
    _ ← check_reachability;
    _ ← syncWithGC;
    mret gcRoot.
End AddRoots.

(** * Lemmas *)

(** ** Creating directories *)

Lemma render_child cs c : render (cs ++ [c]) = child (render cs) c.
Proof. apply render_snoc. Qed.

Lemma token_name_ok c : token [slash] c -> name_ok c = true.
Proof. intros [Hne Ht]. apply name_ok_spec. split; [done|]. eapply Forall_impl; [exact Ht|]. cbn. intros x Hx. by rewrite <- is_sep_slash. Qed.

(** Only directories are created, above the last one. *)
Definition dirs_added (cs : list str) (fs fs' : FileSys) : Prop :=
  forall k, fs' !! k = fs !! k \/ (fs !! k = None /\ fs' !! k = Some IDir /\ exists a b, cs = a ++ b /\ a <> [] /\ k = render a).

Definition no_file_above (cs : list str) (fs : FileSys) : Prop :=
  forall a b, cs = a ++ b -> a <> [] -> fs !! render a = None \/ fs !! render a = Some IDir.

Lemma child_not_root d c : name_ok c = true -> str_eqb (child d c) [slash] = false.
Proof.
  intros [Hc _]%name_ok_spec. apply str_eqb_ne. intros E0. apply (f_equal length) in E0. unfold child in E0. rewrite length_app in E0.
  destruct c; [done|]. cbn in E0. lia.
Qed.

Lemma parent_ok_dir fs d c : name_ok c = true -> d = [] \/ fs !! d = Some IDir -> parent_ok fs (child d c) = true.
Proof.
  intros Hc Hd. destruct d as [|x d].
  - apply name_ok_spec in Hc as [_ Hc]. unfold parent_ok, child. by rewrite str_rfind_app.
  - destruct Hd as [?|Hd]; [done|]. rewrite parent_ok_child by done. by apply bool_decide_eq_true.
Qed.

(** One directory, when the one above it is there. *)
Lemma createDirs_step fs fs1 fuel d c l :
  name_ok c = true -> fs !! child d c = None -> fs_wf fs1 -> d = [] \/ fs1 !! d = Some IDir -> fs1 !! child d c = None ->
  createDirs fuel (match d with [] => [slash] | _ => d end) fs = Done l fs1 ->
  createDirs (S fuel) (child d c) fs = Done (l ++ [child d c]) (<[child d c := IDir]> fs1) /\ fs_wf (<[child d c := IDir]> fs1).
Proof.
  intros Hc Hn Hwf Hd Hn1 E1. split.
  - cbn [createDirs]. rewrite child_not_root by done. rewrite run_gets, Hn.
    rewrite (run_lift _ _ _ (match d with [] => [slash] | _ => d end)).
    2:{ destruct d; [|by apply dirOf_child]. apply name_ok_spec in Hc as [_ Hc]. unfold dirOf, child. by rewrite str_rfind_app. }
    rewrite (run_bind _ _ _ _ _ E1). unfold mbind, M_bind, update, sys_create, can_create.
    rewrite Hn1, bool_decide_eq_true_2, parent_ok_dir by done. done.
  - intros k Hk. destruct (decide (k = child d c)) as [-> |Hnk].
    + exists d, c. split_and!; [done|done|]. destruct Hd as [?|Hd]; [by left|right]. rewrite lookup_insert_ne; [done|apply child_ne].
    + rewrite lookup_insert_ne in Hk by (by apply not_eq_sym). destruct (Hwf k Hk) as (d' & n & -> & Hn' & Hd'). exists d', n.
      split_and!; [done|done|]. destruct Hd' as [-> |Hd']; [by left|right]. rewrite lookup_insert_ne; [done|]. congruence.
Qed.

Lemma render_proper a b c : render a <> child (render (a ++ b)) c.
Proof.
  intros Ek. apply (f_equal length) in Ek. unfold render, child in Ek. rewrite map_app, concat_app, !length_app in Ek. cbn in Ek. lia.
Qed.

Lemma createDirs_run cs : forall fs fuel, fs_wf fs -> Forall (token [slash]) cs -> no_file_above cs fs -> cs <> [] -> (length cs <= fuel)%nat ->
  exists l fs', createDirs fuel (render cs) fs = Done l fs' /\ fs_wf fs' /\ dirs_added cs fs fs' /\
    (forall a b, cs = a ++ b -> a <> [] -> fs' !! render a = Some IDir).
Proof.
  induction cs as [|c cs IH] using rev_ind; intros fs fuel Hwf Ht Hno Hne Hf; [done|].
  pose proof Ht as [Htc [Hc _]%Forall_cons]%Forall_app. pose proof (token_name_ok c Hc) as Hok. rewrite render_child.
  destruct (fs !! child (render cs) c) as [i|] eqn:Ei.
  - destruct (Hno (cs ++ [c]) []) as [Hx|Hd]; [by rewrite app_nil_r|done|rewrite render_child in Hx; congruence|]. rewrite render_child in Hd.
    exists [], fs. split_and!; [|done|intros k; by left|].
    + destruct fuel; cbn [createDirs]; rewrite child_not_root by done; rewrite run_gets; by rewrite Hd.
    + intros a b Eab Ha. destruct b as [|x b]; [rewrite app_nil_r in Eab; by rewrite <- Eab, render_child|].
      apply (ancestors_dirs fs (x :: b)); [done|by rewrite <- Eab|done|done|rewrite <- Eab, render_child; congruence].
  - rewrite length_app in Hf. cbn in Hf. destruct fuel as [|fuel]; [lia|].
    assert (exists l fs1, createDirs fuel (match render cs with [] => [slash] | _ => render cs end) fs = Done l fs1 /\ fs_wf fs1 /\ dirs_added cs fs fs1 /\
      (forall a b, cs = a ++ b -> a <> [] -> fs1 !! render a = Some IDir)) as (l & fs1 & E1 & W1 & D1 & P1).
    { destruct (decide (cs = [])) as [-> |Hcs].
      - exists [], fs. split_and!; [by destruct fuel|done|intros k; by left|]. intros a b Eab Ha. symmetry in Eab. by apply app_eq_nil in Eab as [-> _].
      - destruct (IH fs fuel Hwf Htc) as (l & fs1 & H); [|done|lia|].
        + intros a b Eab Ha. apply (Hno a (b ++ [c])); [by rewrite app_assoc, Eab|done].
        + exists l, fs1. destruct (render cs) eqn:Er; [|done]. by apply render_nil in Er. }
    assert (Hn1 : fs1 !! child (render cs) c = None).
    { destruct (D1 (child (render cs) c)) as [-> |(_ & _ & a & b & Eab & Ha & Ek)]; [done|]. exfalso. rewrite Eab in Ek. by apply (render_proper a b c). }
    destruct (createDirs_step fs fs1 fuel (render cs) c l Hok Ei W1) as [E2 W2]; [|done|done|].
    { destruct (decide (cs = [])) as [-> |Hcs]; [by left|right]. apply (P1 cs []); [by rewrite app_nil_r|done]. }
    exists (l ++ [child (render cs) c]), (<[child (render cs) c := IDir]> fs1). split_and!; [done|done| |].
    + intros k. destruct (decide (k = child (render cs) c)) as [-> |Hnk].
      * right. rewrite lookup_insert_eq. split_and!; [done|done|]. exists (cs ++ [c]), []. rewrite app_nil_r, render_child. split_and!; [done|by destruct cs|done].
      * rewrite lookup_insert_ne by (by apply not_eq_sym). destruct (D1 k) as [?|(H1 & H2 & a & b & -> & Ha & Hk)]; [by left|right].
        split_and!; [done|done|]. exists a, (b ++ [c]). by rewrite app_assoc.
    + intros a b Eab Ha. destruct b as [|x b _] using rev_ind.
      * rewrite app_nil_r in Eab. rewrite <- Eab, render_child. apply lookup_insert_eq.
      * rewrite app_assoc in Eab. apply app_inj_tail in Eab as [-> ->]. rewrite lookup_insert_ne; [by apply (P1 a b)|].
        apply not_eq_sym, render_proper.
Qed.

(** ** Symbolic links *)

Lemma int2String_plain z : Forall (fun c => char_eqb c slash = false) (int2String z).
Proof.
  assert (forall n, (0 <= n)%Z -> Forall (fun c => char_eqb c slash = false) (print_dec n)) as Hd.
  { intros n Hn. destruct (print_dec_spec n Hn) as (_ & Hd & _). eapply Forall_impl; [exact Hd|]. intros x Hx. cbn. apply char_eqb_ne. intros ->.
    by vm_compute in Hx. }
  unfold int2String. destruct (Z.ltb_spec z 0); [constructor; [done|]|]; apply Hd; lia.
Qed.

Lemma not_under_sibling d n m : name_ok n = true -> name_ok m = true -> n <> m -> ~ under (child d n) (child d m).
Proof. intros Hn Hm Hne Hu. apply Hne. by apply (under_child_inj d n m (child d m)); [..|apply under_refl]. Qed.

Section LinkTheory.
Context (E : Env) (rand : FileSys -> Z) (Hpid : name_ok (pid E) = true).

Definition temp_link_name (n : str) (r : Z) : str := n ++ $".tmp-" ++ pid E ++ "-"%char :: int2String r.

Lemma temp_link_child d n r : temp_link E (child d n) r = child d (temp_link_name n r).
Proof. unfold temp_link, temp_link_name, child. by rewrite <- app_assoc. Qed.

Lemma temp_link_name_ok n r : name_ok n = true -> name_ok (temp_link_name n r) = true /\ temp_link_name n r <> n.
Proof.
  intros [Hn1 Hn2]%name_ok_spec. apply name_ok_spec in Hpid as [_ Hp]. split.
  - apply name_ok_spec. split; [by destruct n|]. apply Forall_app. split; [done|]. apply Forall_app. split.
    { apply (bool_decide_unpack (Forall (fun c => char_eqb c slash = false) ($".tmp-"))). vm_compute. exact I. }
    apply Forall_app. split; [done|]. constructor; [done|apply int2String_plain].
  - intros E0. apply (f_equal length) in E0. unfold temp_link_name in E0. rewrite !length_app in E0. change (length ($".tmp-")) with 5%nat in E0. lia.
Qed.

(** A link can be made at the path with the given components. *)
Record linkable_at (cs : list str) (n : str) (fs : FileSys) : Prop := {
  la_dirs : Forall normal_component cs;
  la_name : normal_component n;
  la_some : cs <> [];
  la_above : no_file_above cs fs;
  la_file : fs !! child (render cs) n <> Some IDir;
  la_temp : forall r, fs !! child (render cs) (temp_link_name n r) = None }.

Record linked (cs : list str) (n target : str) (fs fs' : FileSys) : Prop := {
  lk_wf : fs_wf fs';
  lk_link : fs' !! child (render cs) n = Some (ILnk target);
  lk_dirs : forall a b, cs = a ++ b -> a <> [] -> fs' !! render a = Some IDir;
  lk_same : forall k, k <> child (render cs) n ->
    fs' !! k = fs !! k \/ (fs !! k = None /\ fs' !! k = Some IDir /\ exists a b, cs = a ++ b /\ a <> [] /\ k = render a) }.

Lemma normal_tokens cs : Forall normal_component cs -> Forall (token [slash]) cs.
Proof. intros H. eapply Forall_impl; [exact H|]. by intros x []. Qed.

Lemma createSymlink_run cs n target fs : fs_wf fs -> linkable_at cs n fs ->
  exists fs', createSymlink E rand (child (render cs) n) target fs = Done tt fs' /\ linked cs n target fs fs'.
Proof.
  intros Hwf [L1 L2 L3 L4 L5 L6]. pose proof (normal_tokens cs L1) as Ht. pose proof (token_name_ok n (proj1 L2)) as Hn.
  assert (Hr : render cs <> []) by (intros Hx; by apply render_nil in Hx).
  assert (Hlen : (length cs <= length (render cs))%nat).
  { clear. induction cs as [|c cs IH]; [done|]. unfold render in *. cbn. rewrite length_app. cbn in *. lia. }
  destruct (createDirs_run cs fs (length (render cs)) Hwf Ht L4 L3 Hlen) as (l & fs1 & E1 & W1 & D1 & P1).
  unfold createSymlink. rewrite (run_lift _ _ _ (render cs)) by (by apply dirOf_child). rewrite (run_bind _ _ _ _ _ E1), run_gets.
  rewrite temp_link_child. destruct (temp_link_name_ok n (rand fs1) Hn) as [Htn Htne]. set (tmp := child (render cs) (temp_link_name n (rand fs1))).
  assert (Hd1 : fs1 !! render cs = Some IDir) by (apply (P1 cs []); [by rewrite app_nil_r|done]).
  assert (Hchild : forall m, fs !! child (render cs) m = fs1 !! child (render cs) m).
  { intros m. destruct (D1 (child (render cs) m)) as [?|(_ & _ & a & b & Eab & Ha & Ek)]; [done|]. exfalso. rewrite Eab in Ek. by apply (render_proper a b m). }
  assert (Hfree : fs1 !! tmp = None) by (unfold tmp; rewrite <- Hchild; apply L6).
  assert (Hne : tmp <> child (render cs) n) by (intros E0; apply child_inj in E0 as [_ ?]; done).
  unfold mbind, M_bind, update at 1, sys_create, can_create. rewrite Hfree, bool_decide_eq_true_2 by done.
  unfold tmp at 1. rewrite parent_ok_child, bool_decide_eq_true_2 by done. cbn [andb]. fold tmp. unfold update.
  destruct (sys_rename (<[tmp := ILnk target]> fs1) tmp (child (render cs) n)) as [fs2|] eqn:Er.
  - apply rename_over in Er as ->; [|done|done|apply child_nonnil|apply child_nonnil|by rewrite <- Hchild|done].
    eexists. split; [done|]. split.
    + apply (changed_wf fs1 _ (child (render cs) n) (render cs) n); [done|done|done|done| |by rewrite <- Hchild|].
      * rewrite lookup_insert_ne; [done|apply child_ne].
      * intros k Hk. by rewrite lookup_insert_ne by (by apply not_eq_sym).
    + apply lookup_insert_eq.
    + intros a b Eab Ha. rewrite lookup_insert_ne; [by apply (P1 a b)|]. rewrite Eab. apply not_eq_sym, render_proper.
    + intros k Hk. rewrite lookup_insert_ne by (by apply not_eq_sym). apply D1.
  - exfalso. unfold sys_rename in Er. rewrite lookup_insert_eq in Er. rewrite str_eqb_ne in Er by done.
    unfold can_replace in Er. rewrite lookup_insert_ne in Er by done. rewrite <- Hchild in Er.
    assert (underb tmp (child (render cs) n) = false) as Hu.
    { destruct (underb tmp (child (render cs) n)) eqn:Eu; [|done]. apply underb_under in Eu. by apply not_under_sibling in Eu. }
    rewrite Hu in Er. destruct (fs !! child (render cs) n) as [[]|]; try done.
    rewrite parent_ok_child, bool_decide_eq_true_2 in Er; [done| |done|done]. rewrite lookup_insert_ne; [done|apply child_ne].
Qed.
End LinkTheory.

(** ** Finding the root *)

Section FoundTheory.
Context (store cwd : str) (ls : LocalStore).

(** Files do not matter. *)
Lemma found_same fs fs' rec path l sp :
  (forall k, match fs !! k with Some IDir | Some (ILnk _) => fs' !! k = fs !! k | _ => True end) ->
  found store cwd ls fs rec path l sp -> found store cwd ls fs' rec path l sp.
Proof.
  intros Hk. induction 1 as [rec path sp (tgt & t & H1 & H2)|rec path n l sp Hd Hn _ IH|path tgt t l sp H1 H2 H3 _ IH].
  - apply found_link. exists tgt, t. specialize (Hk path). rewrite H1 in Hk. by rewrite Hk.
  - apply (found_dir _ _ _ _ _ _ n); [|done|done]. specialize (Hk path). rewrite Hd in Hk. by rewrite Hk.
  - apply (found_follow _ _ _ _ _ tgt t); [|done|done|done]. specialize (Hk path). rewrite H1 in Hk. by rewrite Hk.
Qed.

(** Down a chain of directories. *)
Lemma found_down fs rec l sp ds : forall cs, Forall normal_component ds ->
  (forall a b, ds = a ++ b -> b <> [] -> fs !! render (cs ++ a) = Some IDir) ->
  found store cwd ls fs rec (render (cs ++ ds)) l sp -> found store cwd ls fs rec (render cs) l sp.
Proof.
  induction ds as [|d ds IH]; intros cs Hn Hd Hf; [by rewrite app_nil_r in Hf|]. apply Forall_cons in Hn as [Hd1 Hn].
  apply (found_dir _ _ _ _ _ _ d).
  - rewrite <- (app_nil_r cs). by apply (Hd [] (d :: ds)).
  - by apply token_name_ok, Hd1.
  - rewrite <- render_child. apply IH; [done| |by rewrite <- app_assoc]. intros a b -> Hb. rewrite <- app_assoc. by apply (Hd (d :: a) b).
Qed.

Lemma canonPath_render cs : Forall normal_component cs -> cs <> [] -> canonPath (render cs) = Ok (render cs).
Proof.
  intros Hn Hne. destruct cs as [|c cs]; [done|]. change (render (c :: cs)) with (render_path (c :: cs)).
  rewrite canonPath_abs by done. by rewrite path_components_render.
Qed.

Lemma resolve_abs d n cs : name_ok n = true -> Forall normal_component cs -> cs <> [] ->
  resolve cwd (child d n) (render cs) = Ok (render cs).
Proof.
  intros Hn Hcs Hne. unfold resolve, dirOf, child. apply name_ok_spec in Hn as [_ Hn]. rewrite str_rfind_app by done. rewrite bind_ret.
  unfold absPath. assert (is_abs (render cs) = true) as -> by (by destruct cs). by apply canonPath_render.
Qed.

Lemma toStorePath_store p : isStorePath store p = true -> isInStore store p = true /\ toStorePath store p = Ok p.
Proof.
  unfold isStorePath, toStorePath. rewrite andb_true_iff, bool_decide_eq_true. intros [H1 H2]. by rewrite H1, H2.
Qed.
End FoundTheory.

Section RootTheory.
Context (E : Env) `{HA : HashAlgo} {HL : HashAlgoLaws} (rand : FileSys -> Z) (checkRootReachability : bool).
Abbreviation store := (nixStore E).

(** The state directory has a canonical name. *)
Context (ss : list str) (ss_normal : Forall normal_component ss) (ss_some : ss <> []) (state_name : nixStateDir E = render ss).
Abbreviation gs := (ss ++ [gcRootsDir]).

Lemma gcroots_normal : normal_component gcRootsDir /\ normal_component ($"auto").
Proof. split; (split; [split; [done|by repeat constructor]|by split]). Qed.

Lemma gcroots_render : gcroots (nixStateDir E) = render gs /\ rootsDir (nixStateDir E) = Ok (render gs).
Proof.
  assert (nixStateDir E ++ slash :: gcRootsDir = render gs) as Er by (rewrite state_name, render_child; done).
  assert (Forall normal_component gs) as Hgs by (apply Forall_app; split; [done|constructor; [apply gcroots_normal|done]]).
  split.
  - unfold gcroots. rewrite Er. assert (render gs = render_path gs) as Erp by (by destruct ss). rewrite Erp, path_components_render by done. done.
  - unfold rootsDir. rewrite Er. apply canonPath_render; [done|by destruct ss].
Qed.

Lemma render_inj a b : Forall (token [slash]) a -> Forall (token [slash]) b -> a <> [] -> b <> [] -> render a = render b -> a = b.
Proof.
  intros Ha Hb Na Nb Er. rewrite <- (tokenize_render a Ha), <- (tokenize_render b Hb). destruct a; [done|]. destruct b; [done|]. cbn [render_path]. by rewrite Er.
Qed.

Lemma under_render a b : under (render a) (render (a ++ b)).
Proof.
  destruct b as [|c b]; [rewrite app_nil_r; apply under_refl|]. right. exists (c ++ render b). unfold render. rewrite map_app, concat_app. done.
Qed.

(** The lock of the collector is not a directory that the links need. *)
Lemma gcLock_apart ds a b : Forall normal_component (gs ++ ds) -> gs ++ ds = a ++ b -> render a <> child (nixStateDir E) gcLockName.
Proof.
  intros Hn Eab Er. rewrite state_name, <- render_child in Er. apply render_inj in Er.
  - subst a. rewrite <- !app_assoc in Eab. apply app_inv_head in Eab. cbn in Eab. by injection Eab.
  - rewrite Eab in Hn. apply Forall_app in Hn as [Hn _]. by apply normal_tokens.
  - apply Forall_app. split; [by apply normal_tokens|]. constructor; [split; [done|by repeat constructor]|done].
  - intros ->. by destruct ss.
  - by destruct ss.
Qed.

(** What is needed of the state: the state directory and the lock. *)
Record sync_ready (fs : FileSys) : Prop := {
  sy_wf : fs_wf fs;
  sy_dir : fs !! nixStateDir E = Some IDir;
  sy_lock : match fs !! child (nixStateDir E) gcLockName with None | Some (IReg _ _) => True | _ => False end }.

Lemma linked_ready ds n target fs fs' : sync_ready fs -> Forall normal_component (gs ++ ds) -> name_ok n = true ->
  linked (gs ++ ds) n target fs fs' -> sync_ready fs'.
Proof.
  intros [S1 S2 S3] Hnorm Hn [K1 K2 K3 K4]. split; [done| |].
  - rewrite state_name. apply (K3 ss ([gcRootsDir] ++ ds)); [by rewrite <- app_assoc|done].
  - destruct (K4 (child (nixStateDir E) gcLockName)) as [-> |(_ & _ & a & b & Eab & _ & Ek)]; [|done|].
    + intros E0. symmetry in E0. apply child_inj in E0 as [E0 _]; [|done|done]. rewrite state_name in E0.
      assert (under (child (render ss) gcRootsDir) (render ss)) as Hu.
      { rewrite <- E0 at 2. rewrite <- render_child. apply under_render. }
      by apply not_under_child in Hu.
    + exfalso. by apply (gcLock_apart ds a b Hnorm Eab).
Qed.

(** The end of [addPermRoot]. *)
Lemma sync_run s gcRoot sp : sync_ready (s_fs s) -> found store (cwd E) (s_ls s) (s_fs s) true (render gs) gcRoot sp ->
  exists s', (_ ← check_reachability E checkRootReachability; _ ← syncWithGC E; mret gcRoot) s = Done gcRoot s' /\ s_ls s' = s_ls s /\ fs_wf (s_fs s') /\
    found store (cwd E) (s_ls s) (s_fs s') true (render gs) gcRoot sp.
Proof.
  intros Hs Hf. assert (Habs : is_abs (nixStateDir E) = true) by (rewrite state_name; by destruct ss).
  assert (exists fs1, check_reachability E checkRootReachability s = Done tt (set_sfs fs1 s) /\ sync_ready fs1 /\ found store (cwd E) (s_ls s) fs1 true (render gs) gcRoot sp) as (fs1 & E1 & [W1 D1 L1] & F1).
  { unfold check_reachability. destruct checkRootReachability; [|exists (s_fs s); by destruct s]. destruct Hs as [S1 S2 S3].
    destruct (findRoots_spec store (nixStateDir E) (cwd E) (s_ls s) Habs false (s_fs s) S1) as (fs' & roots & Ef & _ & Hp).
    rewrite Ef. exists fs'. split_and!; [done| |].
    - split; [by apply (pruned_wf _ _ _ _ _ _ S1 Hp)| |].
      + destruct (Hp (nixStateDir E)) as [-> |(_ & (tgt & t & Hk & _) & _)]; [done|congruence].
      + destruct (Hp (child (nixStateDir E) gcLockName)) as [-> |(-> & _)]; done.
    - rewrite (proj1 gcroots_render) in Hp. by apply (pruned_found store (cwd E) (s_ls s) (render gs) (s_fs s)). }
  destruct (openGCLock_run E fs1) as (fs2 & E2 & W2 & K2 & m & c & H2); [by destruct (nixStateDir E)|done|done|done|].
  exists (set_sfs fs2 (set_sfs fs1 s)). split_and!; [|done|done|].
  - rewrite (run_bind _ _ _ _ _ E1). unfold syncWithGC, on_fs. by rewrite (run_bind _ _ _ _ _ (run_zoom s_fs set_sfs _ (set_sfs fs1 s) _ _ E2)).
  - cbn [s_fs set_sfs]. apply (found_same store (cwd E) (s_ls s) fs1); [|done]. intros k. destruct (decide (k = child (nixStateDir E) gcLockName)) as [-> |Hk].
    + by destruct (fs1 !! child (nixStateDir E) gcLockName) as [[]|].
    + rewrite K2 by done. by destruct (fs1 !! k) as [[]|].
Qed.

(** ** Adding the links *)

(** What adding a root at the path with components [cs] and [n] needs. *)
Record perm_pre (s : sstate) (sp : str) (cs : list str) (n : str) : Prop := {
  pp_pid : name_ok (pid E) = true;
  pp_ready : sync_ready (s_fs s);
  pp_link : linkable_at E cs n (s_fs s);
  pp_canon : canonPath sp = Ok sp;
  pp_store : isStorePath store sp = true;
  pp_valid : sp ∈ all_paths (ls_db (s_ls s));
  pp_outside : isInStore store (child (render cs) n) = false }.

(** A direct root is below the gcroots directory; an indirect one is outside the
    state directory, not in the way, and the link in gcroots/auto can be made. *)
Definition root_place (s : sstate) (cs : list str) (n : str) (indirect : bool) : Prop :=
  if indirect then
    ~ under (nixStateDir E) (child (render cs) n) /\ chunk_ok (child (render cs) n) /\
    (s_fs s !! child (render cs) n = None \/ exists t, s_fs s !! child (render cs) n = Some (ILnk t) /\ isInStore store t = true) /\
    forall hs, printHash32 (hash_of_bytes htSHA1 20 (child (render cs) n)) = Ok hs -> linkable_at E (gs ++ [$"auto"]) hs (s_fs s)
  else exists ds, cs = gs ++ ds.

Lemma root_link_at fs ls cs n sp : normal_component n ->
  fs !! child (render cs) n = Some (ILnk sp) -> canonPath sp = Ok sp -> isStorePath store sp = true -> sp ∈ all_paths (ls_db ls) ->
  root_link store (cwd E) ls fs (child (render cs) n) sp.
Proof.
  intros [Ht _] Hl Hc Hs Hv. destruct (toStorePath_store store sp Hs) as [H1 H2]. exists sp, sp. split_and!; [done| |done|done|done].
  apply token_name_ok, name_ok_spec in Ht as [_ Ht]. unfold resolve, dirOf, child. rewrite str_rfind_app by done. rewrite bind_ret. unfold absPath.
  assert (is_abs sp = true) as ->; [|done]. unfold canonPath, canonPath_fuel in Hc. by destruct (is_abs sp).
Qed.

(** What a link outside the state directory changes there: nothing. *)
Lemma linked_state cs n target fs fs' k :
  linked cs n target fs fs' -> ~ under (nixStateDir E) (child (render cs) n) -> under (nixStateDir E) k -> fs' !! k = fs !! k.
Proof.
  intros [_ _ _ K4] Hout Hk. destruct (K4 k) as [?|(_ & _ & a & b & -> & _ & ->)]; [by intros ->|done|]. exfalso. apply Hout.
  eapply under_trans; [exact Hk|]. eapply under_trans; [apply under_render|apply under_child].
Qed.

(** The directories between gcroots and the link are there. *)
Lemma linked_dirs ds n target fs fs' a b :
  linked (gs ++ ds) n target fs fs' -> ds ++ [n] = a ++ b -> b <> [] -> fs' !! render (gs ++ a) = Some IDir.
Proof.
  intros L Eab Hb. destruct b as [|y b _] using rev_ind; [done|]. rewrite app_assoc in Eab. apply app_inj_tail in Eab as [Eab _].
  apply (lk_dirs _ _ _ _ _ L (gs ++ a) b); [by rewrite <- (app_assoc gs a b), <- Eab|by destruct ss].
Qed.

(** The name of the link in gcroots/auto. *)
Lemma auto_name path hs : printHash32 (hash_of_bytes htSHA1 20 path) = Ok hs -> normal_component hs.
Proof.
  intros Eh. destruct (hash_of_bytes_ok htSHA1 20 path eq_refl) as [W _].
  destruct (printHash32_value _ W) as (x & Ex & Hl & Hv & _); [cbn; lia|]. rewrite Ex in Eh. injection Eh as ->.
  change (hashLength32 _) with 32%Z in Hl. rewrite be32_valid_isBase32, forallb_Forall in Hv. split_and!.
  - split; [by destruct hs|]. eapply Forall_impl; [exact Hv|]. intros c Hc. rewrite is_sep_slash. apply (isBase32_plain c Hc).
  - intros ->. done.
  - intros ->. done.
Qed.

Lemma addIndirect_run s cs n sp : perm_pre s sp cs n -> root_place s cs n true ->
  exists s', (_ ← on_fs (createSymlink E rand (child (render cs) n) sp); addIndirectRoot E rand (child (render cs) n)) s = Done tt s' /\
    s_ls s' = s_ls s /\ sync_ready (s_fs s') /\ found store (cwd E) (s_ls s) (s_fs s') true (render gs) (child (render cs) n) sp.
Proof.
  intros [P1 P2 P3 P4 P5 P6 P7] (Hout & Hck & _ & Hauto). set (gcRoot := child (render cs) n) in *.
  destruct (createSymlink_run E rand P1 cs n sp (s_fs s) (sy_wf _ P2) P3) as (fs1 & E1 & L1). fold gcRoot in E1.
  destruct (hash_of_bytes_ok htSHA1 20 gcRoot eq_refl) as [W _]. destruct (printHash32_value _ W) as (hs & Eh & _); [cbn; lia|].
  pose proof (auto_name _ _ Eh) as Hhs. pose proof (token_name_ok hs (proj1 Hhs)) as Hhn. destruct (Hauto hs Eh) as [A1 A2 A3 A4 A5 A6].
  set (as_ := gs ++ [$"auto"]) in *. set (realRoot := child (render as_) hs).
  assert (Eas : as_ = ss ++ [gcRootsDir; $"auto"]) by (symmetry; apply (app_assoc ss [gcRootsDir] [$"auto"])).
  assert (Hunder : forall k, under (render as_) k -> under (nixStateDir E) k).
  { intros k Hk. rewrite state_name. eapply under_trans; [|exact Hk]. rewrite Eas. apply under_render. }
  assert (Hsame : forall k, under (nixStateDir E) k -> fs1 !! k = s_fs s !! k) by (intros k; by apply (linked_state cs n sp)).
  assert (Hla : linkable_at E as_ hs fs1).
  { split; [done|done|done| | |].
    - intros a b Eab Ha. destruct (decide (fs1 !! render a = s_fs s !! render a)) as [-> |Hne]; [by apply (A4 a b)|].
      destruct (lk_same _ _ _ _ _ L1 (render a)) as [?|(_ & ? & _)]; [|done|by right]. intros Er. apply Hne. apply Hsame.
      destruct (decide (under (nixStateDir E) (render a))) as [?|Hnu]; [done|]. exfalso.
      assert (exists b', ss = a ++ b' /\ b' <> []) as (b' & Ess & Hb').
      { rewrite Eas in Eab. apply app_eq_app in Eab as (x & [[Ex _]|[-> _]]).
        - exists x. split; [done|]. intros ->. apply Hnu. rewrite state_name, Ex, app_nil_r. apply under_refl.
        - destruct Hnu. rewrite state_name. apply under_render. }
      assert (s_fs s !! render a = Some IDir) as Hd.
      { apply (ancestors_dirs _ b'); [apply P2|rewrite <- Ess; by apply normal_tokens|done|done|]. rewrite <- Ess, <- state_name. by rewrite (sy_dir _ P2). }
      apply (la_file _ _ _ _ P3). by rewrite <- Er.
    - rewrite Hsame; [done|]. apply Hunder, under_child.
    - intros r. rewrite Hsame; [done|]. apply Hunder, under_child. }
  destruct (createSymlink_run E rand P1 as_ hs gcRoot fs1 (lk_wf _ _ _ _ _ L1) Hla) as (fs2 & E2 & L2). fold realRoot in E2.
  assert (Hne : gcRoot <> realRoot).
  { intros E0. apply Hout. rewrite E0. apply Hunder, under_child. }
  assert (Hgc : fs2 !! gcRoot = Some (ILnk sp)).
  { pose proof (lk_link _ _ _ _ _ L1) as H1. fold gcRoot in H1. destruct (lk_same _ _ _ _ _ L2 gcRoot Hne) as [-> |(Hx & _)]; [done|congruence]. }
  assert (Hcan : canonPath (nixStateDir E ++ slash :: gcRootsDir ++ $"/auto/" ++ hs) = Ok realRoot).
  { assert (nixStateDir E ++ slash :: gcRootsDir ++ $"/auto/" ++ hs = render (as_ ++ [hs])) as ->.
    { unfold as_. rewrite !render_child, state_name. unfold child. by rewrite <- !app_assoc. }
    rewrite canonPath_render; [by rewrite render_child|apply Forall_app; split; [done|by constructor]|by destruct as_]. }
  exists (set_sfs fs2 (set_sfs fs1 s)). split_and!; [|done| |].
  - unfold on_fs. rewrite (run_bind _ _ _ _ _ (run_zoom s_fs set_sfs _ s _ _ E1)). unfold addIndirectRoot.
    erewrite run_lift by (exact (hashString_bytes htSHA1 20 gcRoot eq_refl Hck)). erewrite run_lift by exact Eh. erewrite run_lift by exact Hcan.
    unfold on_fs. by rewrite (run_zoom s_fs set_sfs _ (set_sfs fs1 s) _ _ E2).
  - cbn [s_fs set_sfs]. apply (linked_ready [$"auto"] hs gcRoot fs1); [|done|done|exact L2]. split; [apply L1| |].
    + rewrite Hsame by apply under_refl. apply P2.
    + rewrite Hsame by apply under_child. apply P2.
  - cbn [s_fs set_sfs]. apply (found_down store (cwd E) (s_ls s) fs2 true gcRoot sp [$"auto"; hs]).
    + constructor; [apply gcroots_normal|by constructor].
    + intros a b. by apply (linked_dirs [$"auto"] hs gcRoot fs1).
    + change [$"auto"; hs] with ([$"auto"] ++ [hs]). rewrite app_assoc, render_child. fold as_ realRoot.
      apply (found_follow _ _ _ _ _ gcRoot gcRoot); [apply L2| |exact P7|].
      * unfold gcRoot at 1 2. rewrite <- render_child. apply resolve_abs; [done| |by destruct cs].
        apply Forall_app. split; [apply P3|constructor; [apply P3|done]].
      * apply found_link. apply root_link_at; [apply P3|done|done|done|done].
Qed.

Lemma addDirect_run s ds n sp : perm_pre s sp (gs ++ ds) n ->
  exists s', on_fs (createSymlink E rand (child (render (gs ++ ds)) n) sp) s = Done tt s' /\
    s_ls s' = s_ls s /\ sync_ready (s_fs s') /\ found store (cwd E) (s_ls s) (s_fs s') true (render gs) (child (render (gs ++ ds)) n) sp.
Proof.
  intros [P1 P2 P3 P4 P5 P6 P7]. destruct (createSymlink_run E rand P1 (gs ++ ds) n sp (s_fs s) (sy_wf _ P2) P3) as (fs1 & E1 & L1).
  pose proof P3 as [A1 A2 A3 A4 A5 A6]. exists (set_sfs fs1 s). split_and!; [|done| |].
  - unfold on_fs. by rewrite (run_zoom s_fs set_sfs _ s _ _ E1).
  - cbn [s_fs set_sfs]. apply (linked_ready ds n sp (s_fs s)); [done|done|by apply token_name_ok, A2|exact L1].
  - cbn [s_fs set_sfs]. apply (found_down store (cwd E) (s_ls s) fs1 true (child (render (gs ++ ds)) n) sp (ds ++ [n])).
    + apply Forall_app in A1 as [_ A1]. apply Forall_app. split; [done|by constructor].
    + intros a b. by apply (linked_dirs _ _ sp (s_fs s)).
    + rewrite app_assoc, render_child. apply found_link. by apply root_link_at; [|apply L1|..].
Qed.

Lemma inside_ok ds n : check_outside E (child (render (gs ++ ds)) n) false = Ok tt.
Proof.
  unfold check_outside. rewrite (proj2 gcroots_render), bind_ret.
  assert (child (render (gs ++ ds)) n = render gs ++ render (ds ++ [n])) as ->.
  { rewrite <- render_child, <- app_assoc. unfold render. by rewrite map_app, concat_app. }
  assert (exists x, render (ds ++ [n]) = slash :: x) as (x & ->) by (destruct ds; by eexists).
  change (slash :: x) with ([slash] ++ x). rewrite app_assoc. replace (S (length (render gs))) with (length (render gs ++ [slash])) by (rewrite length_app; cbn; lia).
  by rewrite take_app_length, str_eqb_refl.
Qed.

Lemma clobbers_free fs p : fs !! p = None \/ (exists t, fs !! p = Some (ILnk t) /\ isInStore store t = true) -> clobbers E fs p = Ok false.
Proof.
  unfold clobbers, pathExists, isLink, readLink. intros [-> |(t & -> & Ht)].
  - done.
  - rewrite bool_decide_eq_true_2 by done. cbn. by rewrite Ht.
Qed.

Lemma addPermRoot_run s sp cs n indirect : perm_pre s sp cs n -> root_place s cs n indirect ->
  exists s', addPermRoot E rand checkRootReachability sp (child (render cs) n) indirect false s = Done (child (render cs) n) s' /\
    s_ls s' = s_ls s /\ fs_wf (s_fs s') /\ found store (cwd E) (s_ls s) (s_fs s') true (gcroots (nixStateDir E)) (child (render cs) n) sp.
Proof.
  intros Hp Hpl. pose proof Hp as [P1 P2 P3 P4 P5 P6 P7]. pose proof P3 as [A1 A2 A3 A4 A5 A6]. rewrite (proj1 gcroots_render).
  assert (Hcan : canonPath (child (render cs) n) = Ok (child (render cs) n)).
  { rewrite <- render_child. apply canonPath_render; [apply Forall_app; split; [done|by constructor]|by destruct cs]. }
  unfold addPermRoot. erewrite run_lift by exact P4. erewrite run_lift by exact Hcan.
  rewrite (run_lift _ _ _ tt) by (unfold assertStorePath; by rewrite P5). rewrite P7.
  destruct indirect.
  - destruct (addIndirect_run s cs n sp Hp Hpl) as (s1 & E1 & Ls1 & R1 & F1). rewrite <- Ls1 in F1.
    destruct (sync_run s1 _ sp R1 F1) as (s2 & E2 & Ls2 & W2 & F2). exists s2. rewrite Ls1 in *. split_and!; [|done|done|done].
    rewrite <- E2. erewrite run_bind; [done|]. rewrite (run_lift _ _ _ false) by apply clobbers_free, Hpl. exact E1.
  - destruct Hpl as [ds ->]. destruct (addDirect_run s ds n sp Hp) as (s1 & E1 & Ls1 & R1 & F1). rewrite <- Ls1 in F1.
    destruct (sync_run s1 _ sp R1 F1) as (s2 & E2 & Ls2 & W2 & F2). exists s2. rewrite Ls1 in *. split_and!; [|done|done|done].
    rewrite <- E2. erewrite run_bind; [done|]. by rewrite (run_lift _ _ _ tt) by apply inside_ok.
Qed.

(** [addPermRoot] makes a root: when the place for the link is free, it returns
    the canonical path of the root, changes nothing in the database, and [findRoots]
    in the state it leaves finds the root with the store path, whether the link is
    itself below the gcroots directory or is reached through the link that
    [addIndirectRoot] makes in gcroots/auto. *)
Theorem addPermRoot_found s sp cs n indirect : perm_pre s sp cs n -> root_place s cs n indirect ->
  exists s' fs' roots, addPermRoot E rand checkRootReachability sp (child (render cs) n) indirect false s = Done (child (render cs) n) s' /\
    s_ls s' = s_ls s /\
    findRoots store (nixStateDir E) (cwd E) (s_ls s') true (s_fs s', ∅) = Done tt (fs', roots) /\ roots !! child (render cs) n = Some sp.
Proof.
  intros Hp Hpl. destruct (addPermRoot_run s sp cs n indirect Hp Hpl) as (s' & E1 & Ls & W & F).
  assert (Habs : is_abs (nixStateDir E) = true) by (rewrite state_name; by destruct ss).
  destruct (findRoots_spec store (nixStateDir E) (cwd E) (s_ls s') Habs true (s_fs s') W) as (fs' & roots & E2 & Hr & _).
  exists s', fs', roots. split_and!; [done|done|done|]. apply Hr. by rewrite Ls.
Qed.
End RootTheory.

(** ** Witness: an indirect root in a home directory *)

Lemma no_file_above_check fs cs :
  forallb (fun i => match fs !! render (take i cs) with None | Some IDir => true | _ => false end) (seq 1 (length cs)) = true -> no_file_above cs fs.
Proof.
  intros H a b -> Ha. rewrite forallb_forall in H. specialize (H (length a)). rewrite take_app_length in H.
  destruct (fs !! render a) as [[]|]; try (by left); try (by right); (discriminate H; apply in_seq; rewrite length_app; destruct a; cbn; [done|lia]).
Qed.

Lemma linkable_new E fs cs n : fs_wf fs -> Forall normal_component cs -> normal_component n -> cs <> [] -> no_file_above cs fs ->
  name_ok (pid E) = true -> fs !! render cs = None -> linkable_at E cs n fs.
Proof.
  intros Hwf Hcs Hn Hne Hno Hpid Hd.
  assert (forall m, name_ok m = true -> fs !! child (render cs) m = None) as Hc.
  { intros m Hm. destruct (fs !! child (render cs) m) eqn:Em; [|done]. destruct (Hwf (child (render cs) m)) as (d & x & E0 & Hx & Hd'); [congruence|].
    apply child_inj in E0 as [<- _]; [|done|done]. destruct Hd' as [Hr|?]; [|congruence]. by apply render_nil in Hr. }
  split; [done|done|done|done| |].
  - rewrite Hc; [done|by apply token_name_ok, Hn].
  - intros r. apply Hc, temp_link_name_ok; [done|by apply token_name_ok, Hn].
Qed.

Abbreviation home := [$"home"; $"u"].
Abbreviation home_root := (child (render home) ($"result")).

Lemma addPermRoot_found_witness :
  exists s' fs' roots, addPermRoot sample_env (HA := checksum_algo) (fun _ => 7%Z) true path_a home_root true false sample_state = Done home_root s' /\
    s_ls s' = sample_db /\
    findRoots ($"/nix/store") ($"/nix/var/nix") ($"/") (s_ls s') true (s_fs s', ∅) = Done tt (fs', roots) /\ roots !! home_root = Some path_a.
Proof.
  assert (forall c, forallb (fun x => negb (is_sep [slash] x)) c && negb (str_eqb c []) && negb (str_eqb c ($".")) && negb (str_eqb c ($"..")) = true -> normal_component c) as Hnc.
  { intros c. rewrite !andb_true_iff, !negb_true_iff, forallb_Forall. intros [[[H1 H2] H3] H4]. split_and!; [split| |].
    - intros ->. by rewrite str_eqb_refl in H2.
    - eapply Forall_impl; [exact H1|]. cbn. intros x. by rewrite negb_true_iff.
    - intros ->. by rewrite str_eqb_refl in H3.
    - intros ->. by rewrite str_eqb_refl in H4. }
  apply (addPermRoot_found sample_env (HA := checksum_algo) (HL := checksum_laws) (fun _ => 7%Z) true [$"nix"; $"var"; $"nix"]
    ltac:(repeat (constructor; [apply Hnc; vm_compute; reflexivity|]); constructor) ltac:(discriminate) eq_refl sample_state path_a home ($"result") true).
  - split; [reflexivity| | |reflexivity|reflexivity| |reflexivity].
    + split; [apply gc_fs_wf|vm_compute; reflexivity|vm_compute; exact I].
    + apply linkable_new; [apply gc_fs_wf| |apply Hnc; reflexivity|discriminate| |reflexivity|vm_compute; reflexivity].
      * repeat (constructor; [apply Hnc; vm_compute; reflexivity|]). constructor.
      * apply no_file_above_check. vm_compute. reflexivity.
    + apply (bool_decide_unpack (path_a ∈ all_paths (ls_db sample_db))). vm_compute. exact I.
  - split_and!.
    + intros [E0|[r E0]]; discriminate E0.
    + apply (bool_decide_unpack (chunk_ok home_root)). vm_compute. exact I.
    + left. vm_compute. reflexivity.
    + intros hs Hh. apply linkable_new; [apply gc_fs_wf| |by apply (auto_name (HA := checksum_algo) (HL := checksum_laws) home_root)|discriminate| |reflexivity|vm_compute; reflexivity].
      * repeat (constructor; [apply Hnc; vm_compute; reflexivity|]). constructor.
      * apply no_file_above_check. vm_compute. reflexivity.
Defined.
