(* ===== verification/Globals.v ===== *)
(** * Settings (src/src/libstore/globals.cc)

    The settings of the program: their defaults, the environment variables and the
    file nix.conf that they are read from, and the map of all named settings, which
    the build hook and the worker protocol pass on.  The directories and the system
    type that the build fixed are parameters. *)

From Stdlib Require Import ZArith Lia Ascii.
From stdpp Require Import base strings sorting numbers gmap sets list.
From S2P Require Import Prelude Util FileSystem StoreFiles.

Abbreviation SettingsMap := (gmap str str).

Record Settings : Type := mkSettings {
  set_nixStore : str; set_nixDataDir : str; set_nixLogDir : str; set_nixStateDir : str; set_nixDBPath : str; set_nixConfDir : str;
  set_nixLibexecDir : str; set_nixBinDir : str;
  keepFailed : bool; keepGoing : bool; tryFallback : bool; buildVerbosity : Z; maxBuildJobs : Z; buildCores : Z; readOnlyMode : bool;
  thisSystem : str; maxSilentTime : Z; buildTimeout : Z; substituters : list str; useBuildHook : bool; printBuildTrace : bool;
  reservedSize : Z; fsyncMetadata : bool; useSQLiteWAL : bool; syncBeforeRegistering : bool; useSubstitutes : bool; buildUsersGroup : str;
  useChroot : bool; dirsInChroot : gset str; impersonateLinux26 : bool; keepLog : bool; compressLog : bool; cacheFailure : bool;
  pollInterval : Z; checkRootReachability : bool; set_gcKeepOutputs : bool; set_gcKeepDerivations : bool; set_autoOptimiseStore : bool;
  envKeepDerivations : bool; settings : SettingsMap; overrides : SettingsMap }.

(** [lvlError] of the verbosity levels. *)
Definition lvlError : Z := 0.

(** [Settings()]; strings and lists start empty. *)
Definition Settings_default (SYSTEM : str) : Settings :=
  mkSettings [] [] [] [] [] [] [] []
    false false false lvlError 1 1 false
    SYSTEM 0 0 [] true false
    (1024 * 1024) true true false true []
    false {[ $"/dev"; $"/dev/pts" ]} false true true false
    5 false false true false
    false ∅ ∅.

(** ** Reading the configuration *)

(** The directories that the build configured. *)
Record BuildDirs : Type := mkBuildDirs {
  NIX_STORE_DIR : str; NIX_DATA_DIR : str; NIX_LOG_DIR : str; NIX_STATE_DIR : str; NIX_CONF_DIR : str; NIX_LIBEXEC_DIR : str; NIX_BIN_DIR : str }.

Section Environment.
(** The process environment. *)
Context (environ : gmap str str) (dirs : BuildDirs).
Definition getEnv (key def : str) : str := default def (environ !! key).

Definition find_substituters (libexec : str) : list str :=
  let subs := getEnv ($"NIX_SUBSTITUTERS") ($"default") in
  if str_eqb subs ($"default") then
    (if negb (str_eqb (getEnv ($"NIX_OTHER_STORES") []) []) then [libexec ++ $"/nix/substituters/copy-from-other-stores.pl"] else []) ++
    [libexec ++ $"/nix/substituters/download-using-manifests.pl"; libexec ++ $"/nix/substituters/download-from-binary-cache.pl"]
  else tokenizeString subs ($":").

Definition processEnvironment (s : Settings) : result Settings :=
  nixStore ← canonPath (getEnv ($"NIX_STORE_DIR") (getEnv ($"NIX_STORE") (NIX_STORE_DIR dirs)));
  nixDataDir ← canonPath (getEnv ($"NIX_DATA_DIR") (NIX_DATA_DIR dirs));
  nixLogDir ← canonPath (getEnv ($"NIX_LOG_DIR") (NIX_LOG_DIR dirs));
  nixStateDir ← canonPath (getEnv ($"NIX_STATE_DIR") (NIX_STATE_DIR dirs));
  let nixDBPath := getEnv ($"NIX_DB_DIR") (nixStateDir ++ $"/db") in
  nixConfDir ← canonPath (getEnv ($"NIX_CONF_DIR") (NIX_CONF_DIR dirs));
  nixLibexecDir ← canonPath (getEnv ($"NIX_LIBEXEC_DIR") (NIX_LIBEXEC_DIR dirs));
  nixBinDir ← canonPath (getEnv ($"NIX_BIN_DIR") (NIX_BIN_DIR dirs));
  let '(mkSettings _ _ _ _ _ _ _ _ kf kg tf bv mj bc ro sys ms bt subs bh pt rs fm wal sb us ug ch dc i26 kl cl cf pi cr ko kd ao ek st ov) := s in
  let old := if str_eqb (getEnv ($"NIX_SUBSTITUTERS") ($"default")) ($"default") then subs else [] in
  Ok (mkSettings nixStore nixDataDir nixLogDir nixStateDir nixDBPath nixConfDir nixLibexecDir nixBinDir
    kf kg tf bv mj bc ro sys ms bt (old ++ find_substituters nixLibexecDir) bh pt rs fm wal sb us ug ch dc i26 kl cl cf pi cr ko kd ao ek st ov).
End Environment.

Definition with_settings (m : SettingsMap) (s : Settings) : Settings :=
  let '(mkSettings a b c d e f g h kf kg tf bv mj bc ro sys ms bt subs bh pt rs fm wal sb us ug ch dc i26 kl cl cf pi cr ko kd ao ek _ ov) := s in
  mkSettings a b c d e f g h kf kg tf bv mj bc ro sys ms bt subs bh pt rs fm wal sb us ug ch dc i26 kl cl cf pi cr ko kd ao ek m ov.

(** The white space that [tokenizeString] splits at by default. *)
Definition blanks : str := [" "%char; TAB; NL; CR].

(** One line, without its comment; [None]: nothing on it. *)
Definition uncomment (line : str) : str := match str_find "#"%char line with Some i => take i line | None => line end.
Definition conf_line (settingsFile line : str) : result (option (str * str)) :=
  let line := uncomment line in
  match tokenizeString line blanks with
  | [] => Ok None
  | name :: eq :: value => if str_eqb eq ($"=") then Ok (Some (name, concatStringsSep ($" ") value))
                           else error ($"illegal configuration line `" ++ line ++ $"' in `" ++ settingsFile ++ $"'")
  | _ => error ($"illegal configuration line `" ++ line ++ $"' in `" ++ settingsFile ++ $"'")
  end.

(** The loop over the characters of the file: up to the next newline. *)
Fixpoint take_line (s : str) : str * str :=
  match s with
  | [] => ([], [])
  | c :: s' => if char_eqb c NL then ([], s') else let '(l, r) := take_line s' in (c :: l, r)
  end.
Fixpoint conf_loop (fuel : nat) (settingsFile contents : str) (m : SettingsMap) : result SettingsMap :=
  match contents with
  | [] => Ok m
  | _ =>
      match fuel with
      | O => NoFuel
      | S fuel =>
          let '(line, rest) := take_line contents in
          o ← conf_line settingsFile line;
          conf_loop fuel settingsFile rest (match o with None => m | Some (name, value) => <[name := value]> m end)
      end
  end.

Definition loadConfFile (E : Env) (fs : FileSys) (s : Settings) : result Settings :=
  let settingsFile := set_nixConfDir s ++ $"/" ++ $"nix.conf" in
  if negb (pathExists fs settingsFile) then Ok s
  else
    contents ← readFile E fs settingsFile;
    m ← conf_loop (length contents) settingsFile contents (settings s);
    Ok (with_settings m s).

(** [Settings::set]. *)
Definition set (name value : str) (s : Settings) : Settings :=
  let '(mkSettings a b c d e f g h kf kg tf bv mj bc ro sys ms bt subs bh pt rs fm wal sb us ug ch dc i26 kl cl cf pi cr ko kd ao ek m ov) := s in
  mkSettings a b c d e f g h kf kg tf bv mj bc ro sys ms bt subs bh pt rs fm wal sb us ug ch dc i26 kl cl cf pi cr ko kd ao ek
    (<[name := value]> m) (<[name := value]> ov).

(** ** Typed settings *)

Section Get.
Context (m : SettingsMap).
Definition get_string (res : str) (name : str) : str := default res (m !! name).
Definition get_bool (res : bool) (name : str) : result bool :=
  match m !! name with
  | None => Ok res
  | Some v =>
      if str_eqb v ($"true") then Ok true else if str_eqb v ($"false") then Ok false
      else error ($"configuration option `" ++ name ++ $"' should be either `true' or `false', not `" ++ v ++ $"'")
  end.
Definition get_paths (res : gset str) (name : str) : gset str :=
  match m !! name with None => res | Some v => list_to_set (tokenizeString v blanks) end.

(** [string2Int<N>] into a signed type of [w] bits, and into an unsigned one, where
    the sign negates modulo [2 ^ w]. *)
Definition string2Signed (w : Z) (s : str) : option Z := string2Int_in (- 2 ^ (w - 1)) (2 ^ (w - 1) - 1) s.
Definition string2Unsigned (w : Z) (s : str) : option Z := (fun n => (n mod 2 ^ w)%Z) <$> string2Int_in (- (2 ^ w - 1)) (2 ^ w - 1) s.
Definition get_num (conv : str -> option Z) (res : Z) (name : str) : result Z :=
  match m !! name with
  | None => Ok res
  | Some v => match conv v with Some n => Ok n | None => error ($"configuration setting `" ++ name ++ $"' should have an integer value") end
  end.
End Get.

(** [Settings::update]; [unsigned int] has 32 bits, [time_t] and [off_t] have 64. *)
Definition update_settings (s : Settings) : result Settings :=
  let '(mkSettings a b c d e f g h kf kg tf bv mj bc ro sys ms bt subs bh pt rs fm wal sb us ug ch dc i26 kl cl cf pi cr ko kd ao ek m ov) := s in
  tf ← get_bool m tf ($"build-fallback");
  mj ← get_num m (string2Unsigned 32) mj ($"build-max-jobs");
  bc ← get_num m (string2Unsigned 32) bc ($"build-cores");
  let sys := get_string m sys ($"system") in
  ms ← get_num m (string2Signed 64) ms ($"build-max-silent-time");
  bt ← get_num m (string2Signed 64) bt ($"build-timeout");
  rs ← get_num m (string2Signed 64) rs ($"gc-reserved-space");
  fm ← get_bool m fm ($"fsync-metadata");
  wal ← get_bool m wal ($"use-sqlite-wal");
  sb ← get_bool m sb ($"sync-before-registering");
  us ← get_bool m us ($"build-use-substitutes");
  let ug := get_string m ug ($"build-users-group") in
  ch ← get_bool m ch ($"build-use-chroot");
  let dc := get_paths m dc ($"build-chroot-dirs") in
  i26 ← get_bool m i26 ($"build-impersonate-linux-26");
  kl ← get_bool m kl ($"build-keep-log");
  cl ← get_bool m cl ($"build-compress-log");
  cf ← get_bool m cf ($"build-cache-failure");
  pi ← get_num m (string2Unsigned 32) pi ($"build-poll-interval");
  cr ← get_bool m cr ($"gc-check-reachability");
  ko ← get_bool m ko ($"gc-keep-outputs");
  kd ← get_bool m kd ($"gc-keep-derivations");
  ao ← get_bool m ao ($"auto-optimise-store");
  ek ← get_bool m ek ($"env-keep-derivations");
  Ok (mkSettings a b c d e f g h kf kg tf bv mj bc ro sys ms bt subs bh pt rs fm wal sb us ug ch dc i26 kl cl cf pi cr ko kd ao ek m ov).

(** [Settings::pack]. *)
Definition pack_entry (s : str) (i : str * str) : result str :=
  if bool_decide (str_find NL i.1 <> None) || bool_decide (str_find "="%char i.1 <> None) || bool_decide (str_find NL i.2 <> None)
  then error ($"illegal option name/value")
  else Ok (s ++ i.1 ++ $"=" ++ i.2 ++ [NL]).
Definition pack (s : Settings) : result str := foldM pack_entry [] (map_iter (settings s)).

(** [Settings::getOverrides]. *)
Definition getOverrides (s : Settings) : SettingsMap := overrides s.
