(* ===== verification/GoalData.v ===== *)
(** * Goals and the worker (src/src/libstore/build.cc, the classes [Goal] and [Worker])

    A build is a graph of goals: a [DerivationGoal] builds the outputs of a derivation,
    a [SubstitutionGoal] fetches a path with a substituter.  A goal waits for other
    goals ([waitees], and [waiters] the other way round), for a build slot, for another
    goal to finish, for a while, or for its child process; the [Worker] keeps these
    sets and calls the goals that are awake.

    Goals are objects on a heap ([goals]) that are shared and counted: they are kept alive by
    the goals that wait for them, by the caller of the worker ([held]) and by the local
    pointers of the code that runs ([locals]); the sets of the worker have weak pointers, which are
    null once the goal has been destroyed.  [drop] is the end of a strong reference.

    What the goals use of the store, the file system, the processes and the other users of the store is
    the class [World]. *)

From Stdlib Require Import ZArith Lia Ascii.
From stdpp Require Import base strings sorting numbers gmap sets list.
From S2P Require Import Prelude Effects Util Hash StorePath Derivations Wire Globals.

(** ** Goals *)

Inductive ExitCode : Type := ecBusy | ecSuccess | ecFailed | ecNoSubstituters.
#[export] Instance ExitCode_eq_dec : EqDecision ExitCode.
Proof. solve_decision. Defined.

(** A build hook: its process, and the descriptors of its messages and of the output
    of the builder. *)
Record HookInstance : Type := mkHook { h_pid : Z; h_from : Z; h_out : Z }.

(** The member functions that [state] points to. *)
Inductive DState : Type :=
| d_init | d_haveDerivation | d_outputsSubstituted | d_closureRepaired | d_inputsRealised | d_tryToBuild | d_buildDone.
Inductive SState : Type := s_init | s_tryNext | s_referencesValid | s_tryToRun | s_finished.
#[export] Instance DState_eq_dec : EqDecision DState.
Proof. solve_decision. Defined.
#[export] Instance SState_eq_dec : EqDecision SState.
Proof. solve_decision. Defined.

(** The members of [DerivationGoal] that the goals themselves use; a [pid] of [-1] is
    [None], and [d_fd] is the read side of [builderOut].  The temporary directory, the
    build user, the log and the chroot belong to the [World]. *)
Record DGoal : Type := mkDGoal {
  drvPath : str; wantedOutputs : gset str; needRestart : bool; g_drv : Derivation;
  inputPaths : gset str; allPaths : gset str; validPaths : gset str;
  d_pid : option Z; d_hook : option HookInstance; fixedOutput : bool; d_state : DState; d_repair : bool }.

Record SGoal : Type := mkSGoal {
  storePath : str; subs : list str; sub : str; hasSubstitute : bool; g_info : SubstitutablePathInfo;
  s_pid : option Z; logPipe : Z; s_repair : bool; destPath : str; s_state : SState }.

Inductive Kind : Type := KDrv (d : DGoal) | KSub (s : SGoal).

(** [Goal], with the lock object of the derived classes ([outputLocks], [outputLock]):
    the lock files it holds, and [deletePaths].  The counters are [unsigned int]; they
    count objects in memory. *)
Record Goal : Type := mkGoal {
  waitees : gset nat; waiters : gset nat; nrFailed : nat; nrNoSubstituters : nat; exitCode : ExitCode;
  locks : list str; deletePaths : bool; kind : Kind }.

Definition with_waitees (x : gset nat) (g : Goal) : Goal :=
  mkGoal x (waiters g) (nrFailed g) (nrNoSubstituters g) (exitCode g) (locks g) (deletePaths g) (kind g).
Definition with_waiters (x : gset nat) (g : Goal) : Goal :=
  mkGoal (waitees g) x (nrFailed g) (nrNoSubstituters g) (exitCode g) (locks g) (deletePaths g) (kind g).
Definition with_failed (f n : nat) (g : Goal) : Goal :=
  mkGoal (waitees g) (waiters g) f n (exitCode g) (locks g) (deletePaths g) (kind g).
Definition with_exit (x : ExitCode) (g : Goal) : Goal :=
  mkGoal (waitees g) (waiters g) (nrFailed g) (nrNoSubstituters g) x (locks g) (deletePaths g) (kind g).
Definition with_locks_of (l : list str) (b : bool) (g : Goal) : Goal :=
  mkGoal (waitees g) (waiters g) (nrFailed g) (nrNoSubstituters g) (exitCode g) l b (kind g).
Definition with_kind (k : Kind) (g : Goal) : Goal :=
  mkGoal (waitees g) (waiters g) (nrFailed g) (nrNoSubstituters g) (exitCode g) (locks g) (deletePaths g) k.

Definition with_wanted (x : gset str) (b : bool) (d : DGoal) : DGoal :=
  mkDGoal (drvPath d) x b (g_drv d) (inputPaths d) (allPaths d) (validPaths d) (d_pid d) (d_hook d) (fixedOutput d) (d_state d) (d_repair d).
Definition with_drv (x : Derivation) (d : DGoal) : DGoal :=
  mkDGoal (drvPath d) (wantedOutputs d) (needRestart d) x (inputPaths d) (allPaths d) (validPaths d) (d_pid d) (d_hook d) (fixedOutput d) (d_state d) (d_repair d).
(** [drv.env[k]], which makes an entry when there is none. *)
Definition touch_env (k : str) (d : DGoal) : DGoal :=
  let v := g_drv d in
  with_drv (mkDerivation (outputs v) (inputDrvs v) (inputSrcs v) (platform v) (builder v) (args v) (<[k := default [] (env v !! k)]> (env v))) d.
Definition with_inputs (i a : gset str) (f : bool) (d : DGoal) : DGoal :=
  mkDGoal (drvPath d) (wantedOutputs d) (needRestart d) (g_drv d) i a (validPaths d) (d_pid d) (d_hook d) f (d_state d) (d_repair d).
Definition with_valid (x : gset str) (d : DGoal) : DGoal :=
  mkDGoal (drvPath d) (wantedOutputs d) (needRestart d) (g_drv d) (inputPaths d) (allPaths d) x (d_pid d) (d_hook d) (fixedOutput d) (d_state d) (d_repair d).
Definition with_child (p : option Z) (h : option HookInstance) (d : DGoal) : DGoal :=
  mkDGoal (drvPath d) (wantedOutputs d) (needRestart d) (g_drv d) (inputPaths d) (allPaths d) (validPaths d) p h (fixedOutput d) (d_state d) (d_repair d).
Definition with_dstate (x : DState) (d : DGoal) : DGoal :=
  mkDGoal (drvPath d) (wantedOutputs d) (needRestart d) (g_drv d) (inputPaths d) (allPaths d) (validPaths d) (d_pid d) (d_hook d) (fixedOutput d) x (d_repair d).

Definition with_subs (l : list str) (d : SGoal) : SGoal :=
  mkSGoal (storePath d) l (sub d) (hasSubstitute d) (g_info d) (s_pid d) (logPipe d) (s_repair d) (destPath d) (s_state d).
Definition with_sub (l : list str) (x : str) (d : SGoal) : SGoal :=
  mkSGoal (storePath d) l x (hasSubstitute d) (g_info d) (s_pid d) (logPipe d) (s_repair d) (destPath d) (s_state d).
Definition with_info (i : SubstitutablePathInfo) (d : SGoal) : SGoal :=
  mkSGoal (storePath d) (subs d) (sub d) true i (s_pid d) (logPipe d) (s_repair d) (destPath d) (s_state d).
Definition with_spid (p : option Z) (fd : Z) (d : SGoal) : SGoal :=
  mkSGoal (storePath d) (subs d) (sub d) (hasSubstitute d) (g_info d) p fd (s_repair d) (destPath d) (s_state d).
Definition with_dest (x : str) (d : SGoal) : SGoal :=
  mkSGoal (storePath d) (subs d) (sub d) (hasSubstitute d) (g_info d) (s_pid d) (logPipe d) (s_repair d) x (s_state d).
Definition with_sstate (x : SState) (d : SGoal) : SGoal :=
  mkSGoal (storePath d) (subs d) (sub d) (hasSubstitute d) (g_info d) (s_pid d) (logPipe d) (s_repair d) (destPath d) x.

(** The constructors [Goal(worker)], [DerivationGoal(...)] and [SubstitutionGoal(...)]. *)
Definition new_goal (k : Kind) : Goal := mkGoal ∅ ∅ 0 0 ecBusy [] false k.
Definition empty_drv : Derivation := mkDerivation ∅ ∅ ∅ [] [] [] ∅.
Definition DerivationGoal (p : str) (wanted : gset str) (repair : bool) : Goal :=
  new_goal (KDrv (mkDGoal p wanted false empty_drv ∅ ∅ ∅ None None false d_init repair)).
Definition SubstitutionGoal (p : str) (repair : bool) : Goal :=
  new_goal (KSub (mkSGoal p [] [] false (mkSubstInfo [] ∅ 0 0) None 0 repair [] s_init)).

(** ** The world *)

Inductive read_result : Type := ReadInterrupted | ReadEOF | ReadData (s : str).

(** Every operation may change the state of the world, also on behalf of other
    processes.  The operations on the builder of a derivation goal are given the number
    of the goal. *)
Class World (St : Type) : Type := {
  (* the store *)
  w_isValidPath : str -> M St bool;
  w_addTempRoot : str -> M St unit;
  w_derivationFromPath : str -> M St Derivation;
  w_computeFSClosure : str -> gset str -> M St (gset str);
  w_pathContentsGood : str -> M St bool;
  w_markContentsGood : str -> M St unit;
  w_hasPathFailed : str -> M St bool;
  w_registerFailedPath : str -> M St unit;
  w_registerValidPath : ValidPathInfo -> M St unit;
  w_querySubstitutablePathInfos : str -> gset str -> M St SubstitutablePathInfos;
  w_optimisePath : str -> M St unit;
  (* the file system *)
  w_pathExists : str -> M St bool;
  w_deletePathWrapped : str -> M St unit;
  w_hashPath : HashType -> str -> M St (Hash * Z);
  w_canonicalisePathMetaData : str -> M St unit;
  w_replaceValidPath : str -> str -> M St unit;
  (* lock files: whether a lock is free, and closing one, perhaps after deleting it *)
  w_lockFile : str -> M St bool;
  w_unlockFile : str -> bool -> M St unit;
  (* processes *)
  w_startBuilder : nat -> DGoal -> M St (Z * Z);
  w_builderGone : nat -> M St unit;
  w_collectOutputs : nat -> DGoal -> Z -> M St unit;
  w_releaseUser : nat -> M St unit;
  w_destroyBuilder : nat -> M St unit;
  w_startSubstituter : str -> str -> str -> M St (Z * Z);
  w_readSubstituter : Z -> M St str;
  w_wait : Z -> M St Z;
  w_kill : Z -> M St unit;
  w_startHook : M St HookInstance;
  w_writeHook : HookInstance -> str -> M St unit;
  w_readHook : HookInstance -> M St str;
  w_acceptHook : HookInstance -> M St unit;
  w_dropHook : HookInstance -> M St unit;
  (* waiting *)
  w_time : M St Z;
  w_select : gset Z -> option Z -> M St (option (gset Z));
  w_read : Z -> M St read_result;
  w_childOutput : nat -> Z -> str -> M St unit;
  w_checkInterrupt : M St unit }.

(** ** The worker *)

Record Child : Type := mkChild {
  c_goal : nat; c_fds : gset Z; c_silence : bool; inBuildSlot : bool; lastOutput : Z }.

Record Worker (St : Type) : Type := mkWorker {
  goals : gmap nat Goal; nextGoal : nat; held : gset nat; locals : list nat;
  topGoals : gset nat; awake : gset nat; wantingToBuild : gset nat; waitingForAnyGoal : gset nat; waitingForAWhile : gset nat;
  children : gmap Z Child; nrLocalBuilds : Z;
  derivationGoals : gmap str nat; substitutionGoals : gmap str nat;
  lastWokenUp : Z; lastWait : Z; permanentFailure : bool;
  w_hook : option HookInstance; lockedPaths : gset str; world : St }.
Arguments mkWorker {_} _ _ _ _ _ _ _ _ _ _ _ _ _ _ _ _ _ _ _.
Arguments goals {_} _. Arguments nextGoal {_} _. Arguments held {_} _. Arguments locals {_} _.
Arguments topGoals {_} _. Arguments awake {_} _. Arguments wantingToBuild {_} _.
Arguments waitingForAnyGoal {_} _. Arguments waitingForAWhile {_} _. Arguments children {_} _.
Arguments nrLocalBuilds {_} _. Arguments derivationGoals {_} _. Arguments substitutionGoals {_} _.
Arguments lastWokenUp {_} _. Arguments lastWait {_} _. Arguments permanentFailure {_} _.
Arguments w_hook {_} _. Arguments lockedPaths {_} _. Arguments world {_} _.

Section Updates.
Context {St : Type}.
Implicit Types w : Worker St.

Definition with_goals (x : gmap nat Goal) w : Worker St :=
  mkWorker x (nextGoal w) (held w) (locals w) (topGoals w) (awake w) (wantingToBuild w) (waitingForAnyGoal w) (waitingForAWhile w)
    (children w) (nrLocalBuilds w) (derivationGoals w) (substitutionGoals w) (lastWokenUp w) (lastWait w) (permanentFailure w) (w_hook w) (lockedPaths w) (world w).
Definition with_new (g : nat) (x : Goal) w : Worker St :=
  mkWorker (<[g := x]> (goals w)) (S g) (held w) (locals w) (topGoals w) (awake w) (wantingToBuild w) (waitingForAnyGoal w) (waitingForAWhile w)
    (children w) (nrLocalBuilds w) (derivationGoals w) (substitutionGoals w) (lastWokenUp w) (lastWait w) (permanentFailure w) (w_hook w) (lockedPaths w) (world w).
Definition with_strong (h : gset nat) (c : list nat) (t : gset nat) w : Worker St :=
  mkWorker (goals w) (nextGoal w) h c t (awake w) (wantingToBuild w) (waitingForAnyGoal w) (waitingForAWhile w)
    (children w) (nrLocalBuilds w) (derivationGoals w) (substitutionGoals w) (lastWokenUp w) (lastWait w) (permanentFailure w) (w_hook w) (lockedPaths w) (world w).
Definition with_locals (c : list nat) w : Worker St := with_strong (held w) c (topGoals w) w.
Definition with_top (t : gset nat) w : Worker St := with_strong (held w) (locals w) t w.
Definition with_held (h : gset nat) w : Worker St := with_strong h (locals w) (topGoals w) w.
Definition with_sets (a b c d : gset nat) w : Worker St :=
  mkWorker (goals w) (nextGoal w) (held w) (locals w) (topGoals w) a b c d
    (children w) (nrLocalBuilds w) (derivationGoals w) (substitutionGoals w) (lastWokenUp w) (lastWait w) (permanentFailure w) (w_hook w) (lockedPaths w) (world w).
Definition with_awake (x : gset nat) w : Worker St := with_sets x (wantingToBuild w) (waitingForAnyGoal w) (waitingForAWhile w) w.
Definition with_wanting (x : gset nat) w : Worker St := with_sets (awake w) x (waitingForAnyGoal w) (waitingForAWhile w) w.
Definition with_any (x : gset nat) w : Worker St := with_sets (awake w) (wantingToBuild w) x (waitingForAWhile w) w.
Definition with_while (x : gset nat) w : Worker St := with_sets (awake w) (wantingToBuild w) (waitingForAnyGoal w) x w.
Definition with_children (c : gmap Z Child) (n : Z) w : Worker St :=
  mkWorker (goals w) (nextGoal w) (held w) (locals w) (topGoals w) (awake w) (wantingToBuild w) (waitingForAnyGoal w) (waitingForAWhile w)
    c n (derivationGoals w) (substitutionGoals w) (lastWokenUp w) (lastWait w) (permanentFailure w) (w_hook w) (lockedPaths w) (world w).
Definition with_maps (d s : gmap str nat) w : Worker St :=
  mkWorker (goals w) (nextGoal w) (held w) (locals w) (topGoals w) (awake w) (wantingToBuild w) (waitingForAnyGoal w) (waitingForAWhile w)
    (children w) (nrLocalBuilds w) d s (lastWokenUp w) (lastWait w) (permanentFailure w) (w_hook w) (lockedPaths w) (world w).
Definition with_times (a b : Z) w : Worker St :=
  mkWorker (goals w) (nextGoal w) (held w) (locals w) (topGoals w) (awake w) (wantingToBuild w) (waitingForAnyGoal w) (waitingForAWhile w)
    (children w) (nrLocalBuilds w) (derivationGoals w) (substitutionGoals w) a b (permanentFailure w) (w_hook w) (lockedPaths w) (world w).
Definition with_failure (b : bool) w : Worker St :=
  mkWorker (goals w) (nextGoal w) (held w) (locals w) (topGoals w) (awake w) (wantingToBuild w) (waitingForAnyGoal w) (waitingForAWhile w)
    (children w) (nrLocalBuilds w) (derivationGoals w) (substitutionGoals w) (lastWokenUp w) (lastWait w) b (w_hook w) (lockedPaths w) (world w).
Definition with_hook (h : option HookInstance) w : Worker St :=
  mkWorker (goals w) (nextGoal w) (held w) (locals w) (topGoals w) (awake w) (wantingToBuild w) (waitingForAnyGoal w) (waitingForAWhile w)
    (children w) (nrLocalBuilds w) (derivationGoals w) (substitutionGoals w) (lastWokenUp w) (lastWait w) (permanentFailure w) h (lockedPaths w) (world w).
Definition with_locked (x : gset str) w : Worker St :=
  mkWorker (goals w) (nextGoal w) (held w) (locals w) (topGoals w) (awake w) (wantingToBuild w) (waitingForAnyGoal w) (waitingForAWhile w)
    (children w) (nrLocalBuilds w) (derivationGoals w) (substitutionGoals w) (lastWokenUp w) (lastWait w) (permanentFailure w) (w_hook w) x (world w).
Definition with_world (x : St) w : Worker St :=
  mkWorker (goals w) (nextGoal w) (held w) (locals w) (topGoals w) (awake w) (wantingToBuild w) (waitingForAnyGoal w) (waitingForAWhile w)
    (children w) (nrLocalBuilds w) (derivationGoals w) (substitutionGoals w) (lastWokenUp w) (lastWait w) (permanentFailure w) (w_hook w) (lockedPaths w) x.

(** [Worker(store)]; [lastWait] is not initialised, and the set of locks belongs to the
    process. *)
Definition Worker_new (indeterminate : Z) (locked : gset str) (x : St) : Worker St :=
  mkWorker ∅ 0 ∅ [] ∅ ∅ ∅ ∅ ∅ ∅ 0 ∅ ∅ 0 indeterminate false None locked x.

(** Whether something other than the heap keeps a goal alive. *)
Definition strong w (g : nat) : bool :=
  bool_decide (g ∈ held w ∪ topGoals w) || bool_decide (g ∈ locals w) ||
  bool_decide (map_Exists (fun _ x => g ∈ waitees x) (goals w)).
End Updates.

(** What [catch (...)] catches. *)
Definition catch_all (k : exn_class) : bool :=
  match k with eAssertion | eAbort | eUndefined | eOverflow | eBlocked => false | _ => true end.

(** Goals of one kind. *)
Definition on_drv (f : DGoal -> DGoal) (g : Goal) : Goal :=
  match kind g with KDrv d => with_kind (KDrv (f d)) g | KSub _ => g end.
Definition on_sub (f : SGoal -> SGoal) (g : Goal) : Goal :=
  match kind g with KSub s => with_kind (KSub (f s)) g | KDrv _ => g end.

(** [DerivationGoal::addWantedOutputs] *)
Definition addWantedOutputs (outputs : gset str) (d : DGoal) : DGoal :=
  if bool_decide (wantedOutputs d = ∅) then d
  else if bool_decide (outputs = ∅) then with_wanted ∅ true d
  else if bool_decide (outputs ⊆ wantedOutputs d) then d
  else with_wanted (wantedOutputs d ∪ outputs) true d.

(** ** The operations of [Goal] and [Worker]

    [order] is the order in which a set of pointers is visited, which depends on the
    addresses. *)
Section Ops.
Context {St : Type} `{WO : World St} (cfg : Settings) (order : gset nat -> list nat).
Abbreviation WK := (Worker St).

Definition worldly {A} (m : M St A) : M WK A := zoom world with_world m.
Definition check (b : bool) (msg : str) : M WK unit := if b then mret tt else raise eAssertion msg.
Definition lock_ptr (g : nat) : M WK (option Goal) := gets (fun w => goals w !! g).
Definition deref (g : nat) : M WK Goal :=
  o ← lock_ptr g;
  match o with Some x => mret x | None => raise eUndefined ($"a goal that was destroyed") end.
Definition upd (g : nat) (f : Goal -> Goal) : M WK unit := modify (fun w => with_goals (alter f g (goals w)) w).

(** [Worker::wakeUp], and the loops that wake up all of a set that are still there. *)
Definition wakeUp (g : nat) : M WK unit := modify (fun w => with_awake ({[g]} ∪ awake w) w).
Definition wake_alive (g : nat) : M WK unit :=
  o ← lock_ptr g;
  match o with Some _ => wakeUp g | None => mret tt end.

Definition addWaitee (g waitee : nat) : M WK unit :=
  _ ← upd g (fun x => with_waitees ({[waitee]} ∪ waitees x) x);
  upd waitee (fun x => with_waiters ({[g]} ∪ waiters x) x).

(** [PathLocks::unlock] *)
Definition unlock_files (files : list str) (del : bool) : M WK unit :=
  forM (fun f => _ ← worldly (w_unlockFile f del); modify (fun w => with_locked (lockedPaths w ∖ {[f]}) w)) files.

Definition childStarted (g : nat) (pid : Z) (fds : gset Z) (slot silence : bool) : M WK unit :=
  now ← worldly w_time;
  modify (fun w => with_children (<[pid := mkChild g fds silence slot now]> (children w))
                     (if slot then u32 (nrLocalBuilds w + 1) else nrLocalBuilds w) w).

Definition childTerminated (pid : Z) : M WK unit :=
  o ← gets (fun w => children w !! pid);
  match o with
  | None => raise eAssertion ($"i != children.end()")
  | Some c =>
      n ← gets nrLocalBuilds;
      _ ← check (negb (inBuildSlot c) || (0 <? n)%Z) ($"nrLocalBuilds > 0");
      _ ← modify (fun w => with_children (delete pid (children w)) (if inBuildSlot c then n - 1 else n) w);
      ws ← gets wantingToBuild;
      _ ← forM wake_alive (order ws);
      modify (with_wanting ∅)
  end.

(** [DerivationGoal::killChild], of a goal with the given child and hook. *)
Definition killChild (pid : option Z) (hook : option HookInstance) : M WK unit :=
  _ ← match pid with Some p => _ ← childTerminated p; worldly (w_kill p) | None => mret tt end;
  match hook with Some h => worldly (w_dropHook h) | None => mret tt end.

(** The destructors: nothing is thrown out of [~DerivationGoal], and the members are
    destroyed after its body; the destructor of [Pid] kills the process of a substituter. *)
Definition destroy (g : nat) (x : Goal) : M WK unit :=
  _ ← match kind x with
      | KDrv d =>
          _ ← try_catch catch_all (_ ← killChild (d_pid d) (d_hook d); worldly (w_destroyBuilder g)) (fun _ => mret tt);
          worldly (w_releaseUser g)
      | KSub s => match s_pid s with Some p => _ ← childTerminated p; worldly (w_kill p) | None => mret tt end
      end;
  unlock_files (locks x) (deletePaths x).

(** A strong pointer to [g] is gone. *)
Fixpoint drop_ptr (n : nat) (g : nat) : M WK unit :=
  match n with
  | O => stuck
  | S n =>
      w ← gets id;
      match goals w !! g with
      | None => mret tt
      | Some x =>
          if strong w g then mret tt
          else
            _ ← modify (fun w => with_goals (delete g (goals w)) w);
            _ ← destroy g x;
            forM (drop_ptr n) (order (waitees x))
      end
  end.
Definition drop_ptrs (gs : gset nat) : M WK unit :=
  n ← gets (fun w => S (size (goals w)));
  forM (drop_ptr n) (order gs).

(** The scope of a local pointer. *)
Definition enter (g : nat) : M WK unit := modify (fun w => with_locals (g :: locals w) w).
Definition leave (g : nat) : M WK unit :=
  _ ← modify (fun w => with_locals (tail (locals w)) w);
  drop_ptrs {[g]}.

Definition waiteeDone (g waitee : nat) (result : ExitCode) : M WK unit :=
  x ← deref g;
  _ ← check (bool_decide (waitee ∈ waitees x)) ($"waitees.find(waitee) != waitees.end()");
  let ws := waitees x ∖ {[waitee]} in
  _ ← upd g (with_waitees ws);
  _ ← upd g (fun x => with_failed
        (if bool_decide (result = ecFailed \/ result = ecNoSubstituters) then S (nrFailed x) else nrFailed x)
        (if bool_decide (result = ecNoSubstituters) then S (nrNoSubstituters x) else nrNoSubstituters x) x);
  if bool_decide (ws = ∅) || (bool_decide (result = ecFailed) && negb (keepGoing cfg)) then
    _ ← forM (fun h => upd h (fun y => with_waiters (waiters y ∖ {[g]}) y)) (order ws);
    _ ← upd g (with_waitees ∅);
    _ ← drop_ptrs ws;
    wakeUp g
  else mret tt.

(** [removeGoal] of the maps, and [Worker::removeGoal].  The caller of the worker holds the
    top-level goals, so erasing them destroys nothing. *)
Definition remove_from (g : nat) (m : gmap str nat) : gmap str nat := filter (fun kv => kv.2 <> g) m.
Definition removeGoal (g : nat) : M WK unit :=
  _ ← modify (fun w => with_maps (remove_from g (derivationGoals w)) (remove_from g (substitutionGoals w)) w);
  x ← deref g;
  top ← gets topGoals;
  _ ← (if bool_decide (g ∈ top) then
         modify (with_top (if bool_decide (exitCode x = ecFailed) && negb (keepGoing cfg) then ∅ else top ∖ {[g]}))
       else mret tt);
  ws ← gets waitingForAnyGoal;
  _ ← forM wake_alive (order ws);
  modify (with_any ∅).

Definition amDone (g : nat) (result : ExitCode) : M WK unit :=
  x ← deref g;
  _ ← check (bool_decide (exitCode x = ecBusy)) ($"exitCode == ecBusy");
  _ ← check (negb (bool_decide (result = ecBusy))) ($"result == ecSuccess || result == ecFailed || result == ecNoSubstituters");
  _ ← upd g (with_exit result);
  _ ← forM (fun h =>
        o ← lock_ptr h;
        match o with Some _ => _ ← enter h; _ ← waiteeDone h g result; leave h | None => mret tt end) (order (waiters x));
  _ ← upd g (with_waiters ∅);
  removeGoal g.

(** [makeDerivationGoal] and [makeSubstitutionGoal] *)
Definition find_goal (m : gmap str nat) (p : str) (w : WK) : option nat :=
  g ← m !! p; _ ← goals w !! g; Some g.
Definition makeDerivationGoal (p : str) (wanted : gset str) (repair : bool) : M WK nat :=
  o ← gets (fun w => find_goal (derivationGoals w) p w);
  match o with
  | None =>
      g ← gets nextGoal;
      _ ← modify (with_new g (DerivationGoal p wanted repair));
      _ ← modify (fun w => with_maps (<[p := g]> (derivationGoals w)) (substitutionGoals w) w);
      _ ← wakeUp g;
      mret g
  | Some g => _ ← upd g (on_drv (addWantedOutputs wanted)); mret g
  end.
Definition makeSubstitutionGoal (p : str) (repair : bool) : M WK nat :=
  o ← gets (fun w => find_goal (substitutionGoals w) p w);
  match o with
  | None =>
      g ← gets nextGoal;
      _ ← modify (with_new g (SubstitutionGoal p repair));
      _ ← modify (fun w => with_maps (derivationGoals w) (<[p := g]> (substitutionGoals w)) w);
      _ ← wakeUp g;
      mret g
  | Some g => mret g
  end.

Definition waitForBuildSlot (g : nat) : M WK unit :=
  n ← gets nrLocalBuilds;
  if (n <? maxBuildJobs cfg)%Z then wakeUp g
  else modify (fun w => with_wanting ({[g]} ∪ wantingToBuild w) w).
Definition waitForAnyGoal (g : nat) : M WK unit := modify (fun w => with_any ({[g]} ∪ waitingForAnyGoal w) w).
Definition waitForAWhile (g : nat) : M WK unit := modify (fun w => with_while ({[g]} ∪ waitingForAWhile w) w).
Definition exitStatus (w : WK) : Z := if permanentFailure w then 100 else 1.

(** ** Locks of a goal: [pathIsLockedByMe], [lockPaths] without waiting, [unlock] and
    [setDeletion_goal] *)
Definition lockName (p : str) : str := p ++ $".lock".
Definition pathIsLockedByMe (p : str) : M WK bool := gets (fun w => bool_decide (lockName p ∈ lockedPaths w)).
Definition unlock_goal (g : nat) : M WK unit :=
  x ← deref g;
  _ ← unlock_files (locks x) (deletePaths x);
  upd g (fun x => with_locks_of [] (deletePaths x) x).
Definition setDeletion_goal (g : nat) : M WK unit := upd g (fun x => with_locks_of (locks x) true x).
Fixpoint lock_all (g : nat) (paths : list str) : M WK bool :=
  match paths with
  | [] => mret true
  | p :: paths =>
      _ ← worldly w_checkInterrupt;
      locked ← gets lockedPaths;
      if bool_decide (lockName p ∈ locked) then raise eError ($"deadlock: trying to re-acquire self-held lock")
      else
        b ← worldly (w_lockFile (lockName p));
        if (b : bool) then
          _ ← upd g (fun x => with_locks_of (locks x ++ [lockName p]) (deletePaths x) x);
          _ ← modify (fun w => with_locked ({[lockName p]} ∪ lockedPaths w) w);
          lock_all g paths
        else _ ← unlock_goal g; mret false
  end.
Definition lockPaths_goal (g : nat) (paths : gset str) : M WK bool :=
  x ← deref g;
  _ ← check (bool_decide (locks x = [])) ($"fds.empty()");
  lock_all g (set_iter paths).
End Ops.
