(* ===== verification/Goals.v ===== *)
(** * The states of the goals and the loop of the worker (src/src/libstore/build.cc)

    [DerivationGoal] goes through [init], [haveDerivation], [outputsSubstituted],
    [inputsRealised], [tryToBuild] and [buildDone] (and [closureRepaired] when it
    repairs); [SubstitutionGoal] through [init], [tryNext], [referencesValid],
    [tryToRun] and [finished].  [run] is [Worker::run], [waitForInput] the wait for
    child processes, and [buildPaths], [ensurePath] and [repairPath] are the operations
    of the store that use them.

    Three operations of [World] are long pieces of code themselves: [w_startBuilder] is
    [startBuilder] after its first check, up to the start of the process,
    [w_collectOutputs] the body of the [try] of [buildDone] ([BuildOutputs.v]), and
    [w_startSubstituter] starts the program of the substituter.  Messages are not modelled, the build trace included. *)

From Stdlib Require Import ZArith Lia Ascii.
From stdpp Require Import base strings sorting numbers gmap sets list.
From S2P Require Import Prelude Effects Util Hash StorePath Derivations Wire Globals GoalData.

Inductive HookReply : Type := rpAccept | rpDecline | rpPostpone.

(** [outputPaths] *)
Definition outputPaths (o : gmap str DerivationOutput) : gset str :=
  foldl (fun acc i => {[out_path i.2]} ∪ acc) ∅ (map_iter o).

Section Goals.
Context {St : Type} `{WO : World St} (cfg : Settings) (order : gset nat -> list nat).
(** Whether 32-bit builds can be done on a 64-bit machine ([CAN_DO_LINUX32_BUILDS]),
    and the variable [NIX_BUILD_HOOK]. *)
Context (linux32 : bool) (NIX_BUILD_HOOK : str).
Abbreviation WK := (Worker St).
Local Abbreviation amDone := (amDone cfg order).
Local Abbreviation killChild := (killChild order).
Local Abbreviation childTerminated := (childTerminated order).

Definition get_drv (g : nat) : M WK DGoal :=
  x ← deref g;
  match kind x with KDrv d => mret d | KSub _ => raise eUndefined ($"not a derivation goal") end.
Definition get_sub (g : nat) : M WK SGoal :=
  x ← deref g;
  match kind x with KSub s => mret s | KDrv _ => raise eUndefined ($"not a substitution goal") end.
Definition upd_drv (g : nat) (f : DGoal -> DGoal) : M WK unit := upd g (on_drv f).
Definition upd_sub (g : nat) (f : SGoal -> SGoal) : M WK unit := upd g (on_sub f).
Definition no_waitees (g : nat) : M WK bool := x ← deref g; mret (bool_decide (waitees x = ∅)).

(** A loop that adds to something. *)
Fixpoint foldM {A B S} (f : B -> A -> M S B) (b : B) (l : list A) : M S B :=
  match l with
  | [] => mret b
  | a :: l => b ← f b a; foldM f b l
  end.

(** ** [DerivationGoal] *)

Definition check_valid_output (wanted : gset str) (returnValid checkHash : bool) (acc : gset str) (i : str * DerivationOutput) : M WK (gset str) :=
  if negb (wantOutput i.1 wanted) then mret acc
  else
    v ← worldly (w_isValidPath (out_path i.2));
    good ← (if (v : bool) then (if checkHash then worldly (w_pathContentsGood (out_path i.2)) else mret true) else mret false);
    mret (if bool_decide (good = returnValid) then {[out_path i.2]} ∪ acc else acc).
Definition checkPathValidity (g : nat) (returnValid checkHash : bool) : M WK (gset str) :=
  d ← get_drv g;
  foldM (check_valid_output (wantedOutputs d) returnValid checkHash) ∅ (map_iter (outputs (g_drv d))).

Definition pathFailed (g : nat) (p : str) : M WK bool :=
  if negb (cacheFailure cfg) then mret false
  else
    b ← worldly (w_hasPathFailed p);
    if negb b then mret false
    else
      _ ← modify (with_failure true);
      _ ← amDone g ecFailed;
      mret true.
(** [foreach ... if (pathFailed(...)) return;] *)
Fixpoint any_failed (g : nat) (ps : list str) : M WK bool :=
  match ps with
  | [] => mret false
  | p :: ps => b ← pathFailed g p; if (b : bool) then mret true else any_failed g ps
  end.

(** Make a goal and wait for it. *)
Definition need_path (g : nat) (repair : bool) (p : str) : M WK unit :=
  h ← makeSubstitutionGoal p repair; addWaitee g h.
Definition need_drv (g : nat) (repair : bool) (i : str * gset str) : M WK unit :=
  h ← makeDerivationGoal i.1 i.2 repair; addWaitee g h.

Definition init_d (g : nat) : M WK unit :=
  if readOnlyMode cfg then raise eError ($"cannot build derivation - no write access to the Nix store")
  else
    d ← get_drv g;
    _ ← need_path g false (drvPath d);
    upd_drv g (with_dstate d_haveDerivation).

(** [haveDerivation], where [next] is [outputsSubstituted]. *)
Definition haveDerivation_with (next : M WK unit) (g : nat) : M WK unit :=
  x ← deref g;
  d ← get_drv g;
  if negb (nrFailed x =? 0)%nat then amDone g ecFailed
  else
    _ ← worldly (w_addTempRoot (drvPath d));
    v ← worldly (w_isValidPath (drvPath d));
    _ ← check v ($"worker.store.isValidPath(drvPath)");
    drv ← worldly (w_derivationFromPath (drvPath d));
    _ ← upd_drv g (with_drv drv);
    _ ← forM (fun i => worldly (w_addTempRoot (out_path i.2))) (map_iter (outputs drv));
    invalidOutputs ← checkPathValidity g false (d_repair d);
    if bool_decide (invalidOutputs = ∅) && negb (d_repair d) then amDone g ecSuccess
    else
      failed ← any_failed g (set_iter invalidOutputs);
      if (failed : bool) then mret tt
      else
        _ ← (if useSubstitutes cfg then forM (need_path g (d_repair d)) (set_iter invalidOutputs) else mret tt);
        b ← no_waitees g;
        if (b : bool) then next else upd_drv g (with_dstate d_outputsSubstituted).

(** The derivations that have an output, of those in [paths]. *)
Definition outputs_to_drv (m : gmap str str) (p : str) : M WK (gmap str str) :=
  if isDerivation p then
    drv ← worldly (w_derivationFromPath p);
    mret (foldl (fun m i => <[out_path i.2 := p]> m) m (map_iter (outputs drv)))
  else mret m.
Definition repair_path (g : nat) (outputsToDrv : gmap str str) (p : str) : M WK unit :=
  good ← worldly (w_pathContentsGood p);
  if (good : bool) then mret tt
  else
    match outputsToDrv !! p with
    | None | Some [] => need_path g true p
    | Some drvPath2 => need_drv g true (drvPath2, ∅)
    end.
Definition repairClosure (g : nat) : M WK unit :=
  d ← get_drv g;
  outputClosure ← foldM (fun acc i => worldly (w_computeFSClosure (out_path i.2) acc)) ∅ (map_iter (outputs (g_drv d)));
  let outputClosure := outputClosure ∖ outputPaths (outputs (g_drv d)) in
  inputClosure ← worldly (w_computeFSClosure (drvPath d) ∅);
  outputsToDrv ← foldM outputs_to_drv ∅ (set_iter inputClosure);
  _ ← forM (repair_path g outputsToDrv) (set_iter outputClosure);
  b ← no_waitees g;
  if (b : bool) then amDone g ecSuccess else upd_drv g (with_dstate d_closureRepaired).

Definition closureRepaired (g : nat) : M WK unit :=
  x ← deref g;
  if (0 <? nrFailed x)%nat then raise eError ($"some paths in the output closure of derivation could not be repaired")
  else amDone g ecSuccess.

Definition input_closure (inDrv : Derivation) (acc : gset str) (j : str) : M WK (gset str) :=
  match outputs inDrv !! j with
  | Some o => worldly (w_computeFSClosure (out_path o) acc)
  | None => raise eError ($"derivation requires non-existent output from input derivation")
  end.
Definition input_drv (acc : gset str) (i : str * gset str) : M WK (gset str) :=
  v ← worldly (w_isValidPath i.1);
  _ ← check v ($"worker.store.isValidPath(i->first)");
  inDrv ← worldly (w_derivationFromPath i.1);
  foldM (input_closure inDrv) acc (set_iter i.2).
Definition inputsRealised (g : nat) : M WK unit :=
  x ← deref g;
  d ← get_drv g;
  if negb (nrFailed x =? 0)%nat then amDone g ecFailed
  else
    let drv := g_drv d in
    ins ← foldM input_drv (inputPaths d) (map_iter (inputDrvs drv));
    ins ← foldM (fun acc p => worldly (w_computeFSClosure p acc)) ins (set_iter (inputSrcs drv));
    _ ← upd_drv g (with_inputs ins (ins ∪ outputPaths (outputs drv) ∪ allPaths d)
          (forallb (fun i => negb (str_eqb (out_hash i.2) [])) (map_iter (outputs drv))));
    _ ← upd_drv g (with_dstate d_tryToBuild);
    wakeUp g.

(** [outputsSubstituted]; the bound [n] is on the number of restarts. *)
Fixpoint outputsSubstituted (n : nat) (g : nat) : M WK unit :=
  x ← deref g;
  d ← get_drv g;
  if (0 <? nrFailed x)%nat && (nrNoSubstituters x <? nrFailed x)%nat && negb (tryFallback cfg) then
    raise eError ($"some substitutes for the outputs of derivation failed; try `--fallback'")
  else
    _ ← upd g (with_failed 0 0);
    if needRestart d then
      _ ← upd_drv g (fun d => with_wanted (wantedOutputs d) false d);
      match n with
      | O => stuck
      | S n => haveDerivation_with (outputsSubstituted n g) g
      end
    else
      invalid ← checkPathValidity g false (d_repair d);
      if bool_decide (invalid = ∅) then (if d_repair d then repairClosure g else amDone g ecSuccess)
      else
        _ ← upd_drv g (fun d => with_wanted ∅ (needRestart d) d);
        _ ← forM (need_drv g (d_repair d)) (map_iter (inputDrvs (g_drv d)));
        _ ← forM (need_path g false) (set_iter (inputSrcs (g_drv d)));
        b ← no_waitees g;
        if (b : bool) then inputsRealised g else upd_drv g (with_dstate d_inputsRealised).

(** A restart clears [needRestart], which only other goals set, so there is at most one
    in a call. *)
Definition haveDerivation (g : nat) : M WK unit := haveDerivation_with (outputsSubstituted 1 g) g.

Definition canBuildLocally (platform : str) : bool :=
  str_eqb platform (thisSystem cfg) ||
  (linux32 && str_eqb platform ($"i686-linux") && str_eqb (thisSystem cfg) ($"x86_64-linux")).

Definition startBuilder (g : nat) : M WK unit :=
  d ← get_drv g;
  if negb (canBuildLocally (platform (g_drv d))) then raise eError ($"a different platform is required to build")
  else
    r ← worldly (w_startBuilder g d);
    _ ← upd_drv g (with_child (Some r.1) None);
    childStarted g r.1 {[r.2]} true true.

(** Skip what the hook says until its reply. *)
Fixpoint hook_reply (n : nat) (h : HookInstance) : M WK str :=
  match n with
  | O => stuck
  | S n =>
      s ← worldly (w_readHook h);
      if str_eqb (take 2 s) ($"# ") then mret (drop 2 s) else hook_reply n h
  end.
Definition with_space (ps : list str) : str := concat (map (fun p => p ++ $" ") ps).
(** [worker.hook], started when there is none. *)
Definition the_hook : M WK HookInstance :=
  o ← gets w_hook;
  match o with
  | Some h => mret h
  | None => h ← worldly w_startHook; _ ← modify (with_hook (Some h)); mret h
  end.
Definition tryBuildHook (n : nat) (g : nat) : M WK HookReply :=
  if negb (useBuildHook cfg) || str_eqb NIX_BUILD_HOOK [] then mret rpDecline
  else
    d ← get_drv g;
    h ← the_hook;
    _ ← upd_drv g (touch_env ($"requiredSystemFeatures"));
    let features := tokenizeString (default [] (env (g_drv d) !! ($"requiredSystemFeatures"))) [" "%char; TAB; NL; CR] in
    _ ← lift (fun _ => foldr (fun f r => _ ← checkStoreName f; r) (Ok tt) features);
    k ← gets nrLocalBuilds;
    _ ← worldly (w_writeHook h ((if (k <? maxBuildJobs cfg)%Z then $"1" else $"0") ++ $" " ++ platform (g_drv d) ++ $" " ++ drvPath d ++
          $" " ++ concatStringsSep ($",") features));
    reply ← hook_reply n h;
    if str_eqb reply ($"decline") then mret rpDecline
    else if str_eqb reply ($"postpone") then mret rpPostpone
    else if negb (str_eqb reply ($"accept")) then raise eError ($"bad hook reply")
    else
      _ ← upd_drv g (with_child (d_pid d) (Some h));
      _ ← modify (with_hook None);
      allInputs ← worldly (w_computeFSClosure (drvPath d) (inputPaths d));
      _ ← worldly (w_writeHook h (with_space (set_iter allInputs)));
      _ ← worldly (w_writeHook h (with_space (map (fun i => out_path i.2) (map_iter (outputs (g_drv d))))));
      _ ← worldly (w_acceptHook h);
      _ ← childStarted g (h_pid h) {[h_from h; h_out h]} false false;
      mret rpAccept.

(** Delete the outputs that exist without being valid. *)
Definition clear_output (i : str * DerivationOutput) : M WK unit :=
  v ← worldly (w_isValidPath (out_path i.2));
  if (v : bool) then mret tt
  else
    e ← worldly (w_pathExists (out_path i.2));
    if (e : bool) then worldly (w_deletePathWrapped (out_path i.2)) else mret tt.

Fixpoint any_locked (ps : list str) : M WK bool :=
  match ps with
  | [] => mret false
  | p :: ps => b ← pathIsLockedByMe p; if (b : bool) then mret true else any_locked ps
  end.

(** The rest of [tryToBuild], after the hook. *)
Definition build_locally (g : nat) (preferLocalBuild : bool) : M WK unit :=
  n ← gets nrLocalBuilds;
  if (maxBuildJobs cfg <=? n)%Z && negb (preferLocalBuild && (n =? 0)%Z) then
    _ ← waitForBuildSlot cfg g;
    unlock_goal g
  else
    b ← try_catch (fun k => bool_decide (k = eBuildError)) (_ ← startBuilder g; mret true)
          (fun _ =>
             _ ← unlock_goal g;
             _ ← worldly (w_releaseUser g);
             _ ← modify (with_failure true);
             _ ← amDone g ecFailed;
             mret false);
    if (b : bool) then upd_drv g (with_dstate d_buildDone) else mret tt.

Definition tryToBuild (n : nat) (g : nat) : M WK unit :=
  d ← get_drv g;
  let outs := outputs (g_drv d) in
  busy ← any_locked (map (fun i => out_path i.2) (map_iter outs));
  if (busy : bool) then waitForAnyGoal g
  else
    got ← lockPaths_goal g (outputPaths outs);
    if negb got then waitForAWhile g
    else
      valid ← checkPathValidity g true (d_repair d);
      _ ← upd_drv g (with_valid valid);
      if (size valid =? size outs)%nat then _ ← setDeletion_goal g; amDone g ecSuccess
      else
        _ ← forM clear_output (map_iter outs);
        failed ← any_failed g (map (fun i => out_path i.2) (map_iter outs));
        if (failed : bool) then mret tt
        else
          _ ← upd_drv g (touch_env ($"preferLocalBuild"));
          let preferLocalBuild := str_eqb (default [] (env (g_drv d) !! ($"preferLocalBuild"))) ($"1") && canBuildLocally (platform (g_drv d)) in
          reply ← (if preferLocalBuild then mret rpDecline else tryBuildHook n g);
          match reply with
          | rpAccept => upd_drv g (with_dstate d_buildDone)
          | rpPostpone => _ ← waitForAWhile g; unlock_goal g
          | rpDecline => build_locally g preferLocalBuild
          end.

(** The handler of [buildDone]. *)
Definition build_failed (g : nat) (d : DGoal) (hook : bool) (status : Z) : M WK unit :=
  _ ← unlock_goal g;
  _ ← worldly (w_releaseUser g);
  let hookError := hook && (negb (WIFEXITED status) || negb (WEXITSTATUS status =? 100)%Z) in
  _ ← (if cacheFailure cfg && negb hookError && negb (fixedOutput d) then
         forM (fun i => worldly (w_registerFailedPath (out_path i.2))) (map_iter (outputs (g_drv d)))
       else mret tt);
  _ ← modify (with_failure (negb hookError && negb (fixedOutput d)));
  amDone g ecFailed.

Definition buildDone (g : nat) : M WK unit :=
  d ← get_drv g;
  let hook := match d_hook d with Some _ => true | None => false end in
  let savedPid := match d_hook d with Some h => h_pid h | None => default (-1)%Z (d_pid d) end in
  status ← worldly (w_wait savedPid);
  _ ← upd_drv g (fun d => with_child (if hook then d_pid d else None) (d_hook d) d);
  _ ← childTerminated savedPid;
  _ ← worldly (w_builderGone g);
  ok ← try_catch (fun k => bool_decide (k = eBuildError))
    (_ ← worldly (w_collectOutputs g d status);
     _ ← setDeletion_goal g;
     _ ← unlock_goal g;
     mret true)
    (fun _ => _ ← build_failed g d hook status; mret false);
  if negb ok then mret tt
  else
    _ ← worldly (w_releaseUser g);
    amDone g ecSuccess.

Definition work_d (n : nat) (g : nat) (d : DGoal) : M WK unit :=
  match d_state d with
  | d_init => init_d g
  | d_haveDerivation => haveDerivation g
  | d_outputsSubstituted => outputsSubstituted 1 g
  | d_closureRepaired => closureRepaired g
  | d_inputsRealised => inputsRealised g
  | d_tryToBuild => tryToBuild n g
  | d_buildDone => buildDone g
  end.

(** ** [SubstitutionGoal] *)

Definition all_valid (ps : list str) : M WK unit :=
  forM (fun p => v ← worldly (w_isValidPath p); check v ($"worker.store.isValidPath(*i)")) ps.

(** The references that are not the path itself. *)
Definition other_references (s : SGoal) : list str := filter (fun p => p <> storePath s) (set_iter (sub_references (g_info s))).

Definition referencesValid (g : nat) : M WK unit :=
  x ← deref g;
  s ← get_sub g;
  if (0 <? nrFailed x)%nat then amDone g ecFailed
  else
    _ ← all_valid (other_references s);
    _ ← upd_sub g (with_sstate s_tryToRun);
    wakeUp g.

Fixpoint tryNext_of (l : list str) (g : nat) : M WK unit :=
  match l with
  | [] => s ← get_sub g; amDone g (if hasSubstitute s then ecFailed else ecNoSubstituters)
  | x :: l =>
      _ ← upd_sub g (with_sub l x);
      s ← get_sub g;
      infos ← worldly (w_querySubstitutablePathInfos x {[storePath s]});
      match (infos : SubstitutablePathInfos) !! storePath s with
      | None => tryNext_of l g
      | Some i =>
          _ ← upd_sub g (with_info i);
          _ ← forM (need_path g false) (other_references (with_info i s));
          b ← no_waitees g;
          if (b : bool) then referencesValid g else upd_sub g (with_sstate s_referencesValid)
      end
  end.
Definition tryNext (g : nat) : M WK unit := s ← get_sub g; tryNext_of (subs s) g.

Definition init_s (g : nat) : M WK unit :=
  s ← get_sub g;
  _ ← worldly (w_addTempRoot (storePath s));
  v ← (if s_repair s then mret false else worldly (w_isValidPath (storePath s)));
  if (v : bool) then amDone g ecSuccess
  else if readOnlyMode cfg then raise eError ($"cannot substitute path - no write access to the Nix store")
  else
    _ ← upd_sub g (with_subs (substituters cfg));
    tryNext g.

Definition tryToRun (g : nat) : M WK unit :=
  n ← gets nrLocalBuilds;
  if ((if (maxBuildJobs cfg =? 0)%Z then 1 else maxBuildJobs cfg) <=? n)%Z then waitForBuildSlot cfg g
  else
    _ ← unlock_goal g;
    _ ← upd g (with_locks_of [] false);
    s ← get_sub g;
    b ← pathIsLockedByMe (storePath s);
    if (b : bool) then waitForAnyGoal g
    else
      got ← lockPaths_goal g {[storePath s]};
      if negb got then waitForAWhile g
      else
        v ← (if s_repair s then mret false else worldly (w_isValidPath (storePath s)));
        if (v : bool) then _ ← setDeletion_goal g; amDone g ecSuccess
        else
          let dest := if s_repair s then storePath s ++ $".tmp" else storePath s in
          _ ← upd_sub g (with_dest dest);
          e ← worldly (w_pathExists dest);
          _ ← (if (e : bool) then worldly (w_deletePathWrapped dest) else mret tt);
          r ← worldly (w_startSubstituter (sub s) (storePath s) dest);
          _ ← upd_sub g (with_spid (Some r.1) r.2);
          _ ← childStarted g r.1 {[r.2]} true true;
          upd_sub g (with_sstate s_finished).

(** The checks of [finished] on what the substituter made. *)
Definition verify_subst (dest expectedHashStr : str) (status : Z) : M WK (Hash * Z) :=
  if negb (statusOk status) then raise eSubstError ($"fetching path failed")
  else
    e ← worldly (w_pathExists dest);
    if negb e then raise eSubstError ($"substitute did not produce path")
    else
      hash ← worldly (w_hashPath htSHA256 dest);
      _ ← (if str_eqb expectedHashStr [] then mret tt
           else
             match str_find_from ":"%char expectedHashStr 0 with
             | None => raise eError ($"bad hash from substituter")
             | Some n =>
                 let ht := parseHashType (take n expectedHashStr) in
                 if bool_decide (ht = htUnknown) then raise eError ($"unknown hash algorithm")
                 else
                   expectedHash ← lift (fun _ => parseHash16or32 ht (drop (S n) expectedHashStr));
                   actualHash ← (if bool_decide (ht = htSHA256) then mret hash.1 else h ← worldly (w_hashPath ht dest); mret h.1);
                   if Hash_neqb expectedHash actualHash then raise eSubstError ($"hash mismatch in downloaded path")
                   else mret tt
             end);
      mret hash.

Definition finished (g : nat) : M WK unit :=
  s ← get_sub g;
  let savedPid := default (-1)%Z (s_pid s) in
  status ← worldly (w_wait savedPid);
  _ ← upd_sub g (fun s => with_spid None (logPipe s) s);
  _ ← childTerminated savedPid;
  expectedHashStr ← (if statusOk status then worldly (w_readSubstituter savedPid) else mret []);
  r ← try_catch (fun k => bool_decide (k = eSubstError))
        (h ← verify_subst (destPath s) expectedHashStr status; mret (Some h)) (fun _ => mret None);
  match r with
  | None => _ ← upd_sub g (with_sstate s_tryNext); wakeUp g
  | Some hash =>
      _ ← worldly (w_canonicalisePathMetaData (destPath s));
      _ ← worldly (w_optimisePath (destPath s));
      _ ← (if s_repair s then worldly (w_replaceValidPath (storePath s) (destPath s)) else mret tt);
      _ ← worldly (w_registerValidPath
            (mkValidPathInfo (storePath s) (sub_deriver (g_info s)) hash.1 (sub_references (g_info s)) 0 hash.2 0));
      _ ← setDeletion_goal g;
      _ ← worldly (w_markContentsGood (storePath s));
      amDone g ecSuccess
  end.

Definition work_s (g : nat) (s : SGoal) : M WK unit :=
  match s_state s with
  | s_init => init_s g
  | s_tryNext => tryNext g
  | s_referencesValid => referencesValid g
  | s_tryToRun => tryToRun g
  | s_finished => finished g
  end.

(** ** [Goal::work], [cancel], [handleChildOutput] and [handleEOF] *)

Definition work_goal (n : nat) (g : nat) : M WK unit :=
  x ← deref g;
  match kind x with KDrv d => work_d n g d | KSub s => work_s g s end.

Definition cancel (g : nat) : M WK unit :=
  x ← deref g;
  _ ← match kind x with
      | KDrv d =>
          _ ← killChild (d_pid d) (d_hook d);
          upd_drv g (with_child None None)
      | KSub s =>
          match s_pid s with
          | Some p => _ ← worldly (w_kill p); _ ← childTerminated p; upd_sub g (fun s => with_spid None (logPipe s) s)
          | None => mret tt
          end
      end;
  amDone g ecFailed.

Definition handleChildOutput (g : nat) (fd : Z) (data : str) : M WK unit :=
  x ← deref g;
  _ ← match kind x with
      | KDrv _ => mret tt
      | KSub s => check (fd =? logPipe s)%Z ($"fd == logPipe.readSide")
      end;
  worldly (w_childOutput g fd data).

Definition handleEOF (g : nat) (fd : Z) : M WK unit :=
  x ← deref g;
  match kind x with
  | KDrv _ => wakeUp g
  | KSub s => if (fd =? logPipe s)%Z then wakeUp g else mret tt
  end.

(** ** [Worker::waitForInput] *)

Definition upd_child (pid : Z) (f : Child -> Child) : M WK unit :=
  modify (fun w => with_children (alter f pid (children w)) (nrLocalBuilds w) w).

Definition sorted_Z (X : gset Z) : list Z := merge_sort Z.le (elements X).

(** The oldest output of the children that are monitored; 0 when there is none. *)
Definition oldest_output (cs : gmap Z Child) : Z :=
  foldl (fun oldest p =>
    match cs !! p with
    | Some c => if c_silence c then (if (oldest =? 0)%Z || (lastOutput c <? oldest)%Z then lastOutput c else oldest) else oldest
    | None => oldest
    end) 0%Z (sorted_Z (dom cs)).

(** The timeout for [select], and [lastWait] and [lastWokenUp] before it. *)
Definition timeout_of (before : Z) (w : WK) : option Z * Z * Z :=
  let wait := if (buildTimeout cfg =? 0)%Z then lastWait w
              else if (lastWait w =? 0)%Z || (before <? lastWait w)%Z then before else lastWait w in
  let t1 := if (buildTimeout cfg =? 0)%Z then None else Some (Z.max 0 (wait + buildTimeout cfg - before)) in
  let oldest := oldest_output (children w) in
  let t2 := if (maxSilentTime cfg =? 0)%Z || (oldest =? 0)%Z then t1
            else let t := Z.max 0 (oldest + maxSilentTime cfg - before) in
                 Some (match t1 with Some u => Z.min t u | None => t end) in
  if bool_decide (waitingForAWhile w = ∅) then (t2, wait, 0%Z)
  else let woken := if (lastWokenUp w =? 0)%Z || (before <? lastWokenUp w)%Z then before else lastWokenUp w in
       (Some (Z.max 0 (woken + pollInterval cfg - before)), wait, woken).

Definition all_fds (cs : gmap Z Child) : gset Z := map_fold (fun _ c acc => c_fds c ∪ acc) ∅ cs.

(** One descriptor that is ready. *)
Definition handle_fd (g : nat) (pid after fd : Z) : M WK unit :=
  r ← worldly (w_read fd);
  match r with
  | ReadInterrupted => mret tt
  | ReadEOF =>
      _ ← handleEOF g fd;
      upd_child pid (fun c => mkChild (c_goal c) (c_fds c ∖ {[fd]}) (c_silence c) (inBuildSlot c) (lastOutput c))
  | ReadData data =>
      _ ← handleChildOutput g fd data;
      upd_child pid (fun c => mkChild (c_goal c) (c_fds c) (c_silence c) (inBuildSlot c) after)
  end.

Definition silent (after : Z) (c : Child) : bool :=
  negb (maxSilentTime cfg =? 0)%Z && c_silence c && (maxSilentTime cfg <=? after - lastOutput c)%Z.

Definition handle_child (ready : gset Z) (before after : Z) (pid : Z) : M WK unit :=
  _ ← worldly w_checkInterrupt;
  o ← gets (fun w => children w !! pid);
  match o with
  | None => mret tt
  | Some c =>
      let g := c_goal c in
      p ← lock_ptr g;
      _ ← check (bool_decide (is_Some p)) ($"goal");
      _ ← enter g;
      _ ← forM (handle_fd g pid after) (sorted_Z (c_fds c ∩ ready));
      c ← gets (fun w => children w !! pid);
      _ ← (if match c with Some c => silent after c | None => false end then cancel g else mret tt);
      _ ← (if negb (buildTimeout cfg =? 0)%Z && (buildTimeout cfg <=? after - before)%Z then cancel g else mret tt);
      leave order g
  end.

Definition wake_sleepers (after : Z) : M WK unit :=
  w ← gets id;
  if negb (bool_decide (waitingForAWhile w = ∅)) && (lastWokenUp w + pollInterval cfg <=? after)%Z then
    _ ← modify (with_times after (lastWait w));
    _ ← forM wake_alive (order (waitingForAWhile w));
    modify (with_while ∅)
  else mret tt.

Definition waitForInput : M WK unit :=
  before ← worldly w_time;
  w ← gets id;
  let t := timeout_of before w in
  _ ← modify (with_times t.2 t.1.2);
  o ← worldly (w_select (all_fds (children w)) t.1.1);
  match o with
  | None => mret tt
  | Some ready =>
      after ← worldly w_time;
      _ ← modify (fun w => with_times (lastWokenUp w) after w);
      pids ← gets (fun w => sorted_Z (dom (children w)));
      _ ← forM (handle_child ready before after) pids;
      wake_sleepers after
  end.

(** ** [Worker::run]

    [n] bounds the number of rounds. *)

Fixpoint work_all (n : nat) (gs : list nat) : M WK unit :=
  match gs with
  | [] => mret tt
  | g :: gs =>
      _ ← worldly w_checkInterrupt;
      o ← lock_ptr g;
      _ ← match o with
          | Some _ => _ ← enter g; _ ← work_goal n g; leave order g
          | None => mret tt
          end;
      top ← gets topGoals;
      if bool_decide (top = ∅) then mret tt else work_all n gs
  end.

Fixpoint work_awake (n : nat) : M WK unit :=
  w ← gets id;
  if bool_decide (awake w = ∅) || bool_decide (topGoals w = ∅) then mret tt
  else
    match n with
    | O => stuck
    | S n' =>
        _ ← modify (with_awake ∅);
        _ ← work_all n (order (awake w));
        work_awake n'
    end.

(** The end of a round of [run]: wait for input, or stop when there is nothing to wait for. *)
Definition loop_wait : M WK unit :=
  w ← gets id;
  if negb (bool_decide (children w = ∅)) || negb (bool_decide (waitingForAWhile w = ∅)) then waitForInput
  else if bool_decide (awake w = ∅) && (maxBuildJobs cfg =? 0)%Z then
    raise eError ($"unable to start any build; either increase `--max-jobs' or enable distributed builds")
  else check (negb (bool_decide (awake w = ∅))) ($"!awake.empty()").

Fixpoint run_loop (n : nat) : M WK unit :=
  match n with
  | O => stuck
  | S n' =>
      _ ← worldly w_checkInterrupt;
      _ ← work_awake n;
      w ← gets id;
      if bool_decide (topGoals w = ∅) then mret tt
      else
        _ ← loop_wait;
        run_loop n'
  end.

Definition run (n : nat) (top : gset nat) : M WK unit :=
  _ ← modify (fun w => with_top (top ∪ topGoals w) w);
  _ ← run_loop n;
  w ← gets id;
  _ ← check (negb (keepGoing cfg) || bool_decide (awake w = ∅)) ($"!settings.keepGoing || awake.empty()");
  _ ← check (negb (keepGoing cfg) || bool_decide (wantingToBuild w = ∅)) ($"!settings.keepGoing || wantingToBuild.empty()");
  check (negb (keepGoing cfg) || bool_decide (children w = ∅)) ($"!settings.keepGoing || children.empty()").

(** ** [LocalStore::buildPaths], [ensurePath] and [repairPath]

    An [Error] with a status is the result [BuildFailed]. *)

Inductive build_result : Type := Built | BuildFailed (failed : gset str) (status : Z).

Definition hold (g : nat) : M WK unit := modify (fun w => with_held ({[g]} ∪ held w) w).

Definition make_top (repair : bool) (i : str) : M WK unit :=
  let i2 := parseDrvPathWithOutputs i in
  g ← (if isDerivation i2.1 then makeDerivationGoal i2.1 i2.2 repair else makeSubstitutionGoal i repair);
  hold g.

Definition goal_path (x : Goal) : str := match kind x with KDrv d => drvPath d | KSub s => storePath s end.

Definition failed_goal (w : WK) (acc : gset str) (g : nat) : gset str :=
  match goals w !! g with
  | Some x => if bool_decide (exitCode x = ecFailed) then {[goal_path x]} ∪ acc else acc
  | None => acc
  end.

Definition build_goals (n : nat) (drvPaths : gset str) (repair : bool) : M WK build_result :=
  _ ← forM (make_top repair) (set_iter drvPaths);
  top ← gets held;
  _ ← run n top;
  w ← gets id;
  let failed := foldl (failed_goal w) ∅ (order top) in
  mret (if bool_decide (failed = ∅) then Built else BuildFailed failed (exitStatus w)).

Definition substitute_goal (n : nat) (p : str) (repair : bool) : M WK build_result :=
  g ← makeSubstitutionGoal p repair;
  _ ← hold g;
  _ ← run n {[g]};
  x ← deref g;
  w ← gets id;
  mret (if bool_decide (exitCode x = ecSuccess) then Built else BuildFailed {[p]} (exitStatus w)).

(** The end of the scope of the worker and of the set of goals, also by an exception. *)
Definition unwind : M WK unit :=
  _ ← modify (with_strong ∅ [] ∅);
  gs ← gets (fun w => dom (goals w));
  _ ← drop_ptrs order gs;
  h ← gets w_hook;
  match h with Some h => worldly (w_dropHook h) | None => mret tt end.

Definition with_worker {A} (indeterminate : Z) (m : M WK A) : M St A := fun st =>
  match m (Worker_new indeterminate ∅ st) with
  | Done a w => match unwind w with Done _ w => Done a (world w) | Raised e w => Raised e (world w) | Stuck => Stuck end
  | Raised e w =>
      if catch_all (exn_kind e) then
        match unwind w with Done _ w => Raised e (world w) | Raised e w => Raised e (world w) | Stuck => Stuck end
      else Raised e (world w)
  | Stuck => Stuck
  end.

Definition buildPaths (n : nat) (indeterminate : Z) (drvPaths : gset str) (repair : bool) : M St build_result :=
  with_worker indeterminate (build_goals n drvPaths repair).

Definition ensurePath (n : nat) (indeterminate : Z) (p : str) : M St build_result :=
  v ← w_isValidPath p;
  if (v : bool) then mret Built else with_worker indeterminate (substitute_goal n p false).

Definition repairPath (n : nat) (indeterminate : Z) (p : str) : M St build_result :=
  with_worker indeterminate (substitute_goal n p true).
End Goals.
