(* ===== verification/GoalInv.v ===== *)
(** * The invariant of the scheduler

    [INV] relates the goals on the heap, the sets of the worker and the world: waiting is
    recorded on both sides, a goal is in at most one of the sets, a goal that has
    finished is in none, a child process belongs to a goal that is there, and a goal that
    has not finished will be woken up; goals that succeeded have made their paths valid.
    [WorldLaws] is what this relies on. *)

From Stdlib Require Import ZArith Lia Ascii.
From stdpp Require Import base strings sorting numbers gmap sets list.
From S2P Require Import Prelude Effects Util Hash StorePath Derivations Wire Globals GoalData Goals.

(** ** What is assumed of the world

    [wv] are the valid paths: none becomes invalid while the goals run, because they are
    temporary roots; [wprocs] are the processes that were not waited for, so that a new
    one has another number; [drv_of] is the derivation in a store path, which does not
    change.  The world does not fail assertions of this program. *)

Section Keeps.
Context {St : Type} (wv : St -> gset str) (wprocs : St -> gset Z).

(** Also when the operation fails. *)
Definition keeps {A} (m : M St A) (Q : A -> St -> Prop) : Prop := forall s : St,
  match m s with
  | Done a s' => wv s ⊆ wv s' /\ wprocs s' = wprocs s /\ Q a s'
  | Raised e s' => catch_all (exn_kind e) = true /\ wv s ⊆ wv s' /\ wprocs s' = wprocs s
  | Stuck => True
  end.

Definition starts (m : M St (Z * Z)) : Prop := forall s,
  match m s with
  | Done a s' => wv s ⊆ wv s' /\ (a.1 ∉ wprocs s) /\ wprocs s' = {[a.1]} ∪ wprocs s
  | Raised e s' => catch_all (exn_kind e) = true /\ wv s ⊆ wv s' /\ wprocs s' = wprocs s
  | Stuck => True
  end.

Definition ends {A} (p : Z) (m : M St A) : Prop := forall s,
  match m s with
  | Done _ s' => wv s ⊆ wv s' /\ wprocs s ∖ {[p]} ⊆ wprocs s'
  | Raised e s' => catch_all (exn_kind e) = true /\ wv s ⊆ wv s' /\ wprocs s ∖ {[p]} ⊆ wprocs s'
  | Stuck => True
  end.
End Keeps.

Abbreviation quiet wv wprocs m := (keeps wv wprocs m (fun _ _ => True)).
Create HintDb world.

Class WorldLaws (St : Type) `{World St} : Type := {
  wv : St -> gset str; wprocs : St -> gset Z; drv_of : str -> Derivation;
  law_isValidPath p : keeps wv wprocs (w_isValidPath p) (fun b s => b = bool_decide (p ∈ wv s));
  law_addTempRoot p : quiet wv wprocs (w_addTempRoot p);
  law_derivationFromPath p : keeps wv wprocs (w_derivationFromPath p) (fun d _ => d = drv_of p);
  law_computeFSClosure p acc : keeps wv wprocs (w_computeFSClosure p acc) (fun r s => p ∈ r /\ acc ⊆ r /\ r ⊆ acc ∪ wv s);
  law_pathContentsGood p : quiet wv wprocs (w_pathContentsGood p);
  law_markContentsGood p : quiet wv wprocs (w_markContentsGood p);
  law_hasPathFailed p : quiet wv wprocs (w_hasPathFailed p);
  law_registerFailedPath p : quiet wv wprocs (w_registerFailedPath p);
  law_registerValidPath i : keeps wv wprocs (w_registerValidPath i) (fun _ s => path i ∈ wv s);
  law_querySubst x ps : quiet wv wprocs (w_querySubstitutablePathInfos x ps);
  law_optimisePath p : quiet wv wprocs (w_optimisePath p);
  law_pathExists p : quiet wv wprocs (w_pathExists p);
  law_deletePathWrapped p : quiet wv wprocs (w_deletePathWrapped p);
  law_hashPath ht p : quiet wv wprocs (w_hashPath ht p);
  law_canonicalise p : quiet wv wprocs (w_canonicalisePathMetaData p);
  law_replaceValidPath p q : quiet wv wprocs (w_replaceValidPath p q);
  law_lockFile p : quiet wv wprocs (w_lockFile p);
  law_unlockFile p b : quiet wv wprocs (w_unlockFile p b);
  law_startBuilder g d : starts wv wprocs (w_startBuilder g d);
  law_builderGone g : quiet wv wprocs (w_builderGone g);
  law_collectOutputs g d status : keeps wv wprocs (w_collectOutputs g d status)
    (fun _ s => forall n o, outputs (g_drv d) !! n = Some o -> out_path o ∈ wv s);
  law_releaseUser g : quiet wv wprocs (w_releaseUser g);
  law_destroyBuilder g : quiet wv wprocs (w_destroyBuilder g);
  law_startSubstituter x p q : starts wv wprocs (w_startSubstituter x p q);
  law_readSubstituter p : quiet wv wprocs (w_readSubstituter p);
  law_wait p : ends wv wprocs p (w_wait p);
  law_kill p : ends wv wprocs p (w_kill p);
  law_dropHook h : quiet wv wprocs (w_dropHook h);
  law_time : quiet wv wprocs w_time /\ forall s, match w_time s with Raised _ _ => False | _ => True end;
  law_select X t : quiet wv wprocs (w_select X t);
  law_read fd : quiet wv wprocs (w_read fd);
  law_childOutput g fd d : quiet wv wprocs (w_childOutput g fd d);
  law_checkInterrupt : quiet wv wprocs w_checkInterrupt }.

#[export] Hint Resolve law_isValidPath law_addTempRoot law_derivationFromPath law_computeFSClosure law_pathContentsGood
  law_markContentsGood law_hasPathFailed law_registerFailedPath law_registerValidPath law_querySubst law_optimisePath
  law_pathExists law_deletePathWrapped law_hashPath law_canonicalise law_replaceValidPath law_lockFile law_unlockFile
  law_builderGone law_collectOutputs law_releaseUser law_destroyBuilder law_readSubstituter law_select law_read
  law_childOutput law_checkInterrupt : world.

(** ** Goals *)

Definition child_pid (x : Goal) : option Z := match kind x with KDrv d => d_pid d | KSub s => s_pid s end.
Definition hook_of (x : Goal) : option HookInstance := match kind x with KDrv d => d_hook d | KSub _ => None end.

(** The child of a goal and, for a substitution goal, the descriptor of its output; what a goal must be to own a
    child process. *)
Definition link (x : Goal) : option Z * option Z := match kind x with KDrv d => (d_pid d, None) | KSub s => (s_pid s, Some (logPipe s)) end.
Definition owns (p : Z) (c : Child) (x : Goal) : Prop := child_pid x = Some p /\ forall s, kind x = KSub s -> c_fds c ⊆ {[logPipe s]}.

Lemma link_child x x' : link x' = link x -> child_pid x' = child_pid x.
Proof. unfold link, child_pid. destruct (kind x), (kind x'); congruence. Qed.
Lemma link_owns p c x x' : link x' = link x -> owns p c x -> owns p c x'.
Proof.
  intros E [H1 H2]. split; [by rewrite (link_child _ _ E)|]. intros s' Hs'. unfold link in E. rewrite Hs' in E.
  destruct (kind x) as [|s]; [done|]. injection E as _ ->. by apply H2.
Qed.

(** What a goal that waits for others will rely on. *)
Inductive need : Type := NDrv (p : str) | NSub (p : str).
Definition need_of (n : need) : str := match n with NDrv p | NSub p => p end.
Definition provides (y : Goal) (n : need) : Prop :=
  match kind y, n with KDrv d, NDrv p => drvPath d = p | KSub s, NSub p => storePath s = p | _, _ => False end.
Definition needs (x : Goal) : list need :=
  match kind x with
  | KDrv d =>
      match d_state d with
      | d_haveDerivation => [NSub (drvPath d)]
      | d_inputsRealised => map (fun i => NDrv i.1) (map_iter (inputDrvs (g_drv d)))
      | _ => []
      end
  | KSub s => match s_state s with s_referencesValid => map NSub (other_references s) | _ => [] end
  end.

(** Requests: a path of [buildPaths] or of [ensurePath]; a goal must make at least the outputs that are asked for. *)
Definition covers (wanted outs : gset str) : Prop := wanted = ∅ \/ (outs <> ∅ /\ outs ⊆ wanted).
Inductive Req : Type := RBuild (i : str) | RFetch (p : str).
Definition serves (x : Goal) (r : Req) : Prop :=
  match r, kind x with
  | RBuild i, KDrv d => let i2 := parseDrvPathWithOutputs i in isDerivation i2.1 = true /\ drvPath d = i2.1 /\ covers (wantedOutputs d) i2.2
  | RBuild i, KSub s => isDerivation (parseDrvPathWithOutputs i).1 = false /\ storePath s = i
  | RFetch p, KSub s => storePath s = p
  | RFetch _, KDrv _ => False
  end.

(** The same goal later. *)
Definition later (x x' : Goal) : Prop :=
  match kind x, kind x' with
  | KDrv d, KDrv d' => drvPath d' = drvPath d /\ (forall outs, covers (wantedOutputs d) outs -> covers (wantedOutputs d') outs)
  | KSub s, KSub s' => storePath s' = storePath s
  | _, _ => False
  end.

Section Inv.
Context {St : Type} `{WO : World St} {WL : WorldLaws St} (cfg : Settings).
Abbreviation WK := (Worker St).
Implicit Types w : WK.

Definition V w : gset str := wv (world w).

Definition wanted_valid (v : gset str) (d : DGoal) : Prop := forall n o,
  outputs (drv_of (drvPath d)) !! n = Some o -> wantOutput n (wantedOutputs d) = true -> out_path o ∈ v.
Definition outputs_valid (v : gset str) (d : DGoal) : Prop := forall n o,
  outputs (drv_of (drvPath d)) !! n = Some o -> out_path o ∈ v.
Definition done_ok (v : gset str) (x : Goal) : Prop :=
  match kind x with
  | KDrv d => drvPath d ∈ v /\ wanted_valid v d
  | KSub s => storePath s ∈ v
  end.
Definition loaded (v : gset str) (d : DGoal) : Prop := outputs (g_drv d) = outputs (drv_of (drvPath d)) /\ drvPath d ∈ v.
Definition st_ok (v : gset str) (x : Goal) : Prop :=
  match kind x with
  | KDrv d =>
      (d_state d = d_buildDone <-> is_Some (d_pid d)) /\ (d_state d <> d_buildDone -> locks x = []) /\
      match d_state d with
      | d_init | d_haveDerivation => True
      | d_outputsSubstituted => loaded v d
      | d_closureRepaired => loaded v d /\ outputs_valid v d
      | _ => loaded v d /\ wantedOutputs d = ∅
      end
  | KSub s => s_state s = s_finished <-> is_Some (s_pid s)
  end.

Definition met w (x : Goal) (n : need) : Prop :=
  need_of n ∈ V w \/ exists h y, h ∈ waitees x /\ goals w !! h = Some y /\ provides y n.

(** In a set of the worker, or in the rest [pend] of the ones it is working through. *)
Definition asleep w (g : nat) : Prop := g ∈ wantingToBuild w \/ g ∈ waitingForAnyGoal w \/ g ∈ waitingForAWhile w.
Definition inq (pend : gset nat) w (g : nat) : Prop := g ∈ awake w \/ g ∈ pend \/ asleep w g.

Definition max_slots : Z := Z.max 1 (maxBuildJobs cfg).

Definition disj (pend : gset nat) w : Prop :=
  awake w ## pend /\ awake w ## wantingToBuild w /\ awake w ## waitingForAnyGoal w /\ awake w ## waitingForAWhile w /\
  pend ## wantingToBuild w /\ pend ## waitingForAnyGoal w /\ pend ## waitingForAWhile w /\
  wantingToBuild w ## waitingForAnyGoal w /\ wantingToBuild w ## waitingForAWhile w /\ waitingForAnyGoal w ## waitingForAWhile w.

(** [R] are the requests that goals serve; [on] says whether the loop has started; [ex] has
    the goal that is working and [fin] one that is telling its waiters that it is done. *)
Record INV (R : list (nat * Req)) (on : bool) (pend ex : gset nat) (fin : option nat) w : Prop := {
  i_fresh g x : goals w !! g = Some x -> (g < nextGoal w)%nat;
  i_qfresh g : inq pend w g -> (g < nextGoal w)%nat;
  i_wfresh g x h : goals w !! g = Some x -> h ∈ waiters x -> (h < nextGoal w)%nat;
  i_waitees g x h : goals w !! g = Some x -> h ∈ waitees x ->
    exists y, goals w !! h = Some y /\ (exitCode y = ecBusy \/ fin = Some h) /\ g ∈ waiters y;
  i_waiters g x h y : goals w !! h = Some y -> g ∈ waiters y -> goals w !! g = Some x -> fin <> Some h -> h ∈ waitees x;
  i_disj : disj pend w;
  i_inq g x : goals w !! g = Some x -> inq pend w g -> waitees x = ∅;
  i_fin g x : goals w !! g = Some x -> exitCode x <> ecBusy ->
    waitees x = ∅ /\ child_pid x = None /\ ~ inq pend w g /\ (exitCode x = ecSuccess -> done_ok (V w) x) /\
    (exitCode x = ecNoSubstituters -> exists s, kind x = KSub s);
  i_run g x p : goals w !! g = Some x -> child_pid x = Some p -> (g ∉ ex) ->
    waitees x = ∅ /\ ~ asleep w g /\ exists c, children w !! p = Some c /\ c_goal c = g;
  i_acc g x : goals w !! g = Some x -> exitCode x = ecBusy -> (g ∉ ex) ->
    inq pend w g \/ waitees x <> ∅ \/ is_Some (child_pid x);
  i_st g x : goals w !! g = Some x -> exitCode x = ecBusy -> (g ∉ ex) -> st_ok (V w) x;
  i_needs g x n : goals w !! g = Some x -> exitCode x = ecBusy -> (g ∉ ex) -> nrFailed x = 0%nat -> n ∈ needs x -> met w x n;
  i_hook g x : goals w !! g = Some x -> hook_of x = None;
  i_dmap p g : derivationGoals w !! p = Some g -> (g < nextGoal w)%nat /\ forall x, goals w !! g = Some x ->
    (exitCode x = ecBusy \/ fin = Some g) /\ provides x (NDrv p);
  i_smap p g : substitutionGoals w !! p = Some g -> (g < nextGoal w)%nat /\ forall x, goals w !! g = Some x ->
    (exitCode x = ecBusy \/ fin = Some g) /\ provides x (NSub p);
  i_child p c : children w !! p = Some c -> inBuildSlot c = true /\ exists x, goals w !! c_goal c = Some x /\ owns p c x;
  i_slots : nrLocalBuilds w = Z.of_nat (size (children w)) /\ (nrLocalBuilds w <= max_slots)%Z;
  i_wanting : wantingToBuild w <> ∅ -> (maxBuildJobs cfg <= nrLocalBuilds w)%Z;
  i_procs : dom (children w) ⊆ wprocs (world w);
  i_locals g : g ∈ locals w -> is_Some (goals w !! g);
  i_held g : g ∈ held w -> is_Some (goals w !! g);
  i_tops : topGoals w ⊆ held w;
  i_top g x : on = true -> g ∈ held w -> goals w !! g = Some x -> exitCode x = ecBusy \/ fin = Some g ->
    g ∈ topGoals w \/ exists h y, h ∈ held w /\ goals w !! h = Some y /\ exitCode y = ecFailed;
  i_reqs g i : (g, i) ∈ R -> g ∈ held w /\ exists x, goals w !! g = Some x /\ serves x i;
  i_tbusy g x : g ∈ topGoals w -> goals w !! g = Some x -> exitCode x = ecBusy \/ fin = Some g;
  i_asked g : g ∈ held w -> exists i, (g, i) ∈ R }.
(** ** What the invariant does not depend on *)

Definition core w := (goals w, nextGoal w, held w, locals w, topGoals w,
  (awake w, wantingToBuild w, waitingForAnyGoal w, waitingForAWhile w), (children w, nrLocalBuilds w, derivationGoals w, substitutionGoals w)).

Lemma done_ok_mono v v' x : v ⊆ v' -> done_ok v x -> done_ok v' x.
Proof. unfold done_ok, wanted_valid. destruct (kind x); set_solver. Qed.

Lemma st_ok_mono v v' x : v ⊆ v' -> st_ok v x -> st_ok v' x.
Proof.
  unfold st_ok, loaded, outputs_valid. intros Hv. destruct (kind x) as [d|s]; [|done].
  intros (H1 & H2 & H3). split_and!; [done..|]. destruct (d_state d); set_solver.
Qed.

Lemma INV_core R on pend ex fin w w' :
  core w' = core w -> V w ⊆ V w' -> dom (children w) ⊆ wprocs (world w') -> INV R on pend ex fin w -> INV R on pend ex fin w'.
Proof.
  intros E Hv Hp I. unfold core in E. injection E as E1 E2 E3 E4 E5 E6 E7 E8 E9 E10 E11 E12 E13.
  assert (Eq : forall g, inq pend w' g <-> inq pend w g) by (intros g; unfold inq, asleep; by rewrite E6, E7, E8, E9).
  assert (Ea : forall g, asleep w' g <-> asleep w g) by (intros g; unfold asleep; by rewrite E7, E8, E9).
  destruct I. split; unfold disj in *; rewrite ?E1, ?E2, ?E3, ?E4, ?E5, ?E6, ?E7, ?E8, ?E9, ?E10, ?E11, ?E12, ?E13; try assumption.
  - intros g. rewrite Eq. auto.
  - intros g x Hx. rewrite Eq. eauto.
  - intros g x Hx Hb. rewrite Eq. destruct (i_fin0 g x Hx Hb) as (? & ? & ? & Hd & ?). split_and!; eauto using done_ok_mono.
  - intros g x p Hx Hc He. rewrite Ea. eauto.
  - intros g x Hx Hb He. rewrite Eq. eauto.
  - eauto using st_ok_mono.
  - intros g x n Hx Hb He Hf Hn. destruct (i_needs0 g x n Hx Hb He Hf Hn) as [?|?]; [left; set_solver|right]. by rewrite E1.
Qed.
End Inv.
