(* ===== verification/GoalWorld.v ===== *)
(** * A small world for goals

    An instance of [World] in which builders and substituters succeed or fail as a table
    says, used to run the scheduler on concrete builds; it obeys [WorldLaws]. *)

From Stdlib Require Import ZArith Lia Ascii.
From stdpp Require Import base strings sorting numbers gmap sets list.
From S2P Require Import Prelude Effects Util Hash StorePath Derivations Wire Globals GoalData Goals GoalInv.

(** The valid paths; the references that a substituter knows for a path; the status
    of the builder or substituter for a path (0 when it is not in the table); lock files that other processes hold,
    with the number of times they are found to be held; the seconds that each [select] takes; the time, the processes
    and what they work on; the paths that failed. *)
Record TW : Type := mkTW {
  tw_valid : gset str; tw_subst : gmap str (gset str); tw_status : gmap str Z;
  tw_foreign : gmap str nat; tw_step : Z; tw_clock : Z; tw_procs : gmap Z str; tw_failed : gset str }.

Definition tw_set_valid (v : gset str) (s : TW) : TW :=
  mkTW v (tw_subst s) (tw_status s) (tw_foreign s) (tw_step s) (tw_clock s) (tw_procs s) (tw_failed s).
Definition tw_set_foreign (m : gmap str nat) (s : TW) : TW :=
  mkTW (tw_valid s) (tw_subst s) (tw_status s) m (tw_step s) (tw_clock s) (tw_procs s) (tw_failed s).
Definition tw_set_clock (t : Z) (s : TW) : TW :=
  mkTW (tw_valid s) (tw_subst s) (tw_status s) (tw_foreign s) (tw_step s) t (tw_procs s) (tw_failed s).
Definition tw_set_procs (m : gmap Z str) (s : TW) : TW :=
  mkTW (tw_valid s) (tw_subst s) (tw_status s) (tw_foreign s) (tw_step s) (tw_clock s) m (tw_failed s).
Definition tw_set_failed (f : gset str) (s : TW) : TW :=
  mkTW (tw_valid s) (tw_subst s) (tw_status s) (tw_foreign s) (tw_step s) (tw_clock s) (tw_procs s) f.

Definition fresh_pid (m : gmap Z str) : Z := 1 + foldr Z.max 0%Z (map fst (map_to_list m)).
Definition start_proc (what : str) : M TW (Z * Z) := fun s =>
  let p := fresh_pid (tw_procs s) in Done (p, p) (tw_set_procs (<[p := what]> (tw_procs s)) s).
Definition wait_proc (pid : Z) : M TW Z := fun s =>
  match tw_procs s !! pid with
  | Some p => Done (default 0%Z (tw_status s !! p)) (tw_set_procs (delete pid (tw_procs s)) s)
  | None => Raised (Exn eSysError ($"cannot get child exit status")) s
  end.
Definition try_lock (lp : str) : M TW bool := fun s =>
  match tw_foreign s !! lp with
  | Some (S n) => Done false (tw_set_foreign (<[lp := n]> (tw_foreign s)) s)
  | _ => Done true s
  end.
Definition collect (d : DGoal) (status : Z) : M TW unit := fun s =>
  if statusOk status then Done tt (tw_set_valid (outputPaths (outputs (g_drv d)) ∪ tw_valid s) s)
  else Raised (Exn eBuildError ($"builder failed")) s.

(** [drvs] are the derivations in the store. *)
Definition TW_world (drvs : gmap str Derivation) : World TW := {|
  w_isValidPath p := gets (fun s => bool_decide (p ∈ tw_valid s));
  w_addTempRoot _ := mret tt;
  w_derivationFromPath p := lift (fun _ => match drvs !! p with Some d => Ok d | None => throw eError ($"error reading derivation") end);
  w_computeFSClosure p acc := lift (fun s => if bool_decide (p ∈ acc) then Ok acc else if bool_decide (p ∈ tw_valid s) then Ok ({[p]} ∪ acc) else throw eError ($"path is not valid"));
  w_pathContentsGood _ := mret true;
  w_markContentsGood _ := mret tt;
  w_hasPathFailed p := gets (fun s => bool_decide (p ∈ tw_failed s));
  w_registerFailedPath p := modify (fun s => tw_set_failed ({[p]} ∪ tw_failed s) s);
  w_registerValidPath i := modify (fun s => tw_set_valid ({[path i]} ∪ tw_valid s) s);
  w_querySubstitutablePathInfos _ ps := gets (fun s => (fun r => mkSubstInfo [] r 0 0) <$> filter (fun kv => kv.1 ∈ ps) (tw_subst s));
  w_optimisePath _ := mret tt;
  w_pathExists _ := mret true;
  w_deletePathWrapped _ := mret tt;
  w_hashPath ht _ := lift (fun _ => h ← Hash_new ht; Ok (h, 0%Z));
  w_canonicalisePathMetaData _ := mret tt;
  w_replaceValidPath _ _ := mret tt;
  w_lockFile := try_lock;
  w_unlockFile _ _ := mret tt;
  w_startBuilder _ d := start_proc (drvPath d);
  w_builderGone _ := mret tt;
  w_collectOutputs _ d status := collect d status;
  w_releaseUser _ := mret tt;
  w_destroyBuilder _ := mret tt;
  w_startSubstituter _ p _ := start_proc p;
  w_readSubstituter _ := mret [];
  w_wait := wait_proc;
  w_kill pid := modify (fun s => tw_set_procs (delete pid (tw_procs s)) s);
  w_startHook := raise eError ($"no hook");
  w_writeHook _ _ := mret tt;
  w_readHook _ := mret [];
  w_acceptHook _ := mret tt;
  w_dropHook _ := mret tt;
  w_time := gets tw_clock;
  w_select fds _ := fun s => Done (Some fds) (tw_set_clock (tw_clock s + tw_step s) s);
  w_read _ := mret ReadEOF;
  w_childOutput _ _ _ := mret tt;
  w_checkInterrupt := mret tt |}.

(** ** Settings and derivations *)

Definition base_cfg : Settings := Settings_default ($"x86_64-linux").
Definition cfg_of (keep fallback : bool) (jobs silent timeout : Z) (cache : bool) (subst : list str) : Settings :=
  mkSettings ($"/s") [] [] [] [] [] [] [] false keep fallback 0 jobs 1 false ($"x86_64-linux") silent timeout subst true false
    0 true true false true [] false ∅ false true true cache 5 false false true false false ∅ ∅.

Definition drv1 (out : str) (ins : gmap str (gset str)) (srcs : gset str) : Derivation :=
  mkDerivation {[ $"out" := mkDerivationOutput out [] [] ]} ins srcs ($"x86_64-linux") ($"/bin/sh") [] ∅.
Definition fixed1 (out : str) : Derivation :=
  mkDerivation {[ $"out" := mkDerivationOutput out ($"sha256") ($"00") ]} ∅ ∅ ($"x86_64-linux") ($"/bin/sh") [] ∅.

(** [/s/b.drv] depends on [/s/a.drv]; [/s/c.drv] makes the output of [/s/a.drv] too. *)
Definition drvs1 : gmap str Derivation :=
  {[ $"/s/a.drv" := drv1 ($"/s/a") ∅ {[ $"/s/src" ]}; $"/s/b.drv" := drv1 ($"/s/b") {[ $"/s/a.drv" := {[ $"out" ]} ]} ∅;
     $"/s/c.drv" := drv1 ($"/s/a") ∅ ∅; $"/s/f.drv" := fixed1 ($"/s/f") ]}.
Definition world1 (subst : gmap str (gset str)) (status : gmap str Z) (step : Z) : TW :=
  mkTW {[ $"/s/a.drv"; $"/s/b.drv"; $"/s/c.drv"; $"/s/f.drv"; $"/s/src" ]} subst status ∅ step 1000 ∅ ∅.

(** ** The laws *)

Lemma elem_of_outputPaths (o : gmap str DerivationOutput) n out : o !! n = Some out -> out_path out ∈ outputPaths o.
Proof.
  intros Hn. unfold outputPaths. assert (Hl : (n, out) ∈ map_iter o) by (by apply elem_of_map_iter). revert Hl. generalize (∅ : gset str).
  induction (map_iter o) as [|i l IH]; intros acc Hl; [by apply not_elem_of_nil in Hl|]. cbn [foldl]. apply elem_of_cons in Hl as [<-|Hl]; [|by apply IH].
  cbn [snd]. clear IH. assert (Hacc : out_path out ∈ {[out_path out]} ∪ acc) by set_solver. revert Hacc. generalize ({[out_path out]} ∪ acc).
  induction l as [|j l IH]; intros a Ha; [done|]. cbn [foldl]. apply IH. by apply elem_of_union_r.
Qed.

Lemma fresh_pid_new (m : gmap Z str) : fresh_pid m ∉ dom m.
Proof.
  intros [x Hx]%elem_of_dom. unfold fresh_pid in Hx. apply elem_of_map_to_list in Hx. set (l := map_to_list m) in *.
  assert (Hle : forall p y, (p, y) ∈ l -> (p <= foldr Z.max 0 (map fst l))%Z).
  { clear. induction l as [|[q z] l IH]; intros p y Hp; [by apply not_elem_of_nil in Hp|]. cbn. apply elem_of_cons in Hp as [[= -> ->]|Hp]; [lia|]. specialize (IH p y Hp). lia. }
  apply Hle in Hx. lia.
Qed.

(** Operations that leave the valid paths and the processes. *)
Ltac law := intros s; cbn; try done; try (case_match; cbn; try done).

Lemma TW_starts what : starts tw_valid (fun s => dom (tw_procs s)) (start_proc what).
Proof. intros s. cbn. split_and!; [done|apply fresh_pid_new|by rewrite dom_insert_L]. Qed.

Lemma TW_ends (p : Z) : ends tw_valid (fun s => dom (tw_procs s)) p (wait_proc p).
Proof. intros s. unfold wait_proc. destruct (tw_procs s !! p); cbn; split_and!; try done; rewrite ?dom_delete_L; clear; set_solver. Qed.

#[export] Instance TW_laws drvs : WorldLaws TW (H := TW_world drvs).
Proof.
  refine {| wv := tw_valid; wprocs s := dom (tw_procs s); drv_of p := default empty_drv (drvs !! p) |}.
  - intros p s. by cbn.
  - law.
  - intros p s. cbn. unfold lift. destruct (drvs !! p); done.
  - intros p acc s. cbn. unfold lift. repeat case_bool_decide; try done; split_and!; try done; set_solver.
  - law.
  - law.
  - law.
  - law.
  - intros i s. cbn. split_and!; [set_solver|done|set_solver].
  - law.
  - law.
  - law.
  - law.
  - intros ht p s. by destruct ht.
  - law.
  - law.
  - intros p s. cbn. unfold try_lock. by destruct (tw_foreign s !! p) as [[|n]|].
  - law.
  - intros g d. apply TW_starts.
  - law.
  - intros g d status s. cbn. unfold collect. destruct (statusOk status); [|done]. split_and!; cbn; [set_solver|done|].
    intros n o Ho. apply elem_of_union_l. by eapply elem_of_outputPaths.
  - law.
  - law.
  - intros x p q. apply TW_starts.
  - law.
  - intros p. apply TW_ends.
  - intros p s. cbn. split; [done|]. by rewrite dom_delete_L.
  - law.
  - split; [law|done].
  - law.
  - law.
  - law.
  - law.
Defined.
