(* ===== verification/GoalSteps.v ===== *)
(** * Steps that keep the invariant of the scheduler

    Each way in which the goals and the worker change their state, one lemma each: what
    the goal that is working does to itself, waiting for another goal, making goals, going
    to sleep, and starting and ending a child process. *)

From Stdlib Require Import ZArith Lia Ascii.
From stdpp Require Import base strings sorting numbers gmap sets list.
From S2P Require Import Prelude Effects Util Hash StorePath Derivations Wire Globals GoalData Goals GoalInv.

(** A change of a goal that the others do not see. *)
Record tame (x x' : Goal) : Prop := {
  t_waitees : waitees x' = waitees x; t_waiters : waiters x' = waiters x; t_exit : exitCode x' = exitCode x;
  t_hook : hook_of x' = hook_of x; t_later : later x x' }.

Lemma later_refl x : later x x.
Proof. unfold later. by destruct (kind x). Qed.
Lemma later_trans x y z : later x y -> later y z -> later x z.
Proof.
  unfold later. destruct (kind x), (kind y), (kind z); try done; [|congruence].
  intros [E1 H1] [E2 H2]. split; [congruence|auto].
Qed.
Lemma later_provides x x' n : later x x' -> provides x n -> provides x' n.
Proof. unfold later, provides. destruct (kind x), (kind x'), n; naive_solver congruence. Qed.
Lemma later_serves x x' i : later x x' -> serves x i -> serves x' i.
Proof. unfold later, serves. destruct i, (kind x), (kind x'); naive_solver congruence. Qed.
#[export] Hint Resolve later_refl later_trans later_provides later_serves : core.

Section Steps.
Context {St : Type} `{WO : World St} {WL : WorldLaws St} (cfg : Settings).
Abbreviation WK := (Worker St).
Implicit Types w : WK.
Local Abbreviation INV := (INV cfg).

(** ** Changes of one goal *)

Lemma alter_present (f : Goal -> Goal) g (m : gmap nat Goal) x : m !! g = Some x -> alter f g m = <[g := f x]> m.
Proof.
  intros E. apply map_eq. intros k. destruct (decide (k = g)) as [->|]; [|by rewrite lookup_alter_ne, lookup_insert_ne].
  by rewrite lookup_alter, lookup_insert, E, decide_True, decide_True.
Qed.

Lemma lookup_put (m : gmap nat Goal) g x' k y :
  <[g := x']> m !! k = Some y -> (k = g /\ y = x') \/ (k <> g /\ m !! k = Some y).
Proof. intros H. apply lookup_insert_Some in H as [[-> <-]|[? ?]]; auto. Qed.

Lemma put_present (m : gmap nat Goal) g x x' k y : m !! g = Some x -> m !! k = Some y ->
  exists y', <[g := x']> m !! k = Some y' /\ ((k = g /\ y = x /\ y' = x') \/ (k <> g /\ y' = y)).
Proof.
  intros Hx Hy. destruct (decide (k = g)) as [->|Hk].
  - exists x'. rewrite lookup_insert, decide_True by done. split; [done|left]. split_and!; congruence.
  - exists y. rewrite lookup_insert_ne by done. auto.
Qed.

Ltac in_union := match goal with |- _ ∈ (if ?b then _ else _) => destruct b; [apply elem_of_union_r|]; assumption end.
Ltac put H := apply lookup_put in H as [[-> ->]|[? H]].

Lemma put_some (m : gmap nat Goal) g x x' k : m !! g = Some x -> is_Some (m !! k) -> is_Some (<[g := x']> m !! k).
Proof. intros Hx [y Hy]. destruct (put_present m g x x' k y Hx Hy) as (y' & E & _). by eexists. Qed.

(** What is true of the goals of a map that differs in one goal. *)
Lemma put_met w g x x' (y : Goal) n : goals w !! g = Some x -> later x x' -> met w y n -> met (with_goals (<[g := x']> (goals w)) w) y n.
Proof.
  intros Hx Hl [?|(h & z & Hh & Hz & Hp)]; [by left|right].
  destruct (put_present (goals w) g x x' h z Hx Hz) as (z' & E & [(-> & -> & ->)|[_ ->]]); eauto 6.
Qed.

Lemma INV_put R on pend ex fin w g x x' :
  goals w !! g = Some x -> exitCode x = ecBusy -> tame x x' ->
  (link x' = link x \/ (g ∈ ex /\ forall p c, children w !! p = Some c -> c_goal c <> g)) ->
  ((g ∉ ex) -> st_ok (V w) x' /\ (nrFailed x' = 0%nat -> forall n, n ∈ needs x' -> met w x' n)) ->
  INV R on pend ex fin w -> INV R on pend ex fin (with_goals (<[g := x']> (goals w)) w).
Proof.
  intros Hx Hb [T1 T2 T3 T4 T5] Hc Hs I. destruct I. split; cbn; try assumption.
  - intros k y Hy. put Hy; eauto.
  - intros k y h Hy. put Hy; [rewrite T2|]; eauto.
  - intros k y h Hy Hh. assert (exists y0, goals w !! k = Some y0 /\ h ∈ waitees y0) as (y0 & Hy0 & Hh0).
    { put Hy; [rewrite T1 in Hh|]; eauto. }
    destruct (i_waitees k y0 h Hy0 Hh0) as (z & Hz & Hbz & Hk).
    destruct (put_present (goals w) g x x' h z Hx Hz) as (z' & E & [(-> & -> & ->)|[_ ->]]); eauto.
    exists x'. split; [done|]. by rewrite T2, T3.
  - intros k y h z Hz Hk Hy Hf. assert (exists z0, goals w !! h = Some z0 /\ k ∈ waiters z0) as (z0 & Hz0 & Hk0).
    { put Hz; [rewrite T2 in Hk|]; eauto. }
    put Hy; [rewrite T1|]; eauto.
  - intros k y Hy. put Hy; [rewrite T1|]; eauto.
  - intros k y Hy Hn. put Hy; [congruence|eauto].
  - intros k y p Hy Hp He. put Hy; [|eauto]. destruct Hc as [Hc%link_child|[? _]]; [|done]. rewrite T1. rewrite Hc in Hp. eauto.
  - intros k y Hy Hn He. put Hy; [|eauto]. rewrite T1. destruct Hc as [Hc%link_child|[? _]]; [|done]. rewrite Hc. eauto.
  - intros k y Hy Hn He. put Hy; [|by eauto]. by apply Hs.
  - intros k y n Hy Hn He Hf Hnd. eapply put_met; [done..|]. put Hy; [|by eauto]. by eapply Hs.
  - intros k y Hy. put Hy; [rewrite T4|]; eauto.
  - intros p k Hk. destruct (i_dmap p k Hk) as [? Hp]. split; [done|]. intros y Hy. put Hy; [|by eauto].
    rewrite T3. destruct (Hp x Hx); eauto.
  - intros p k Hk. destruct (i_smap p k Hk) as [? Hp]. split; [done|]. intros y Hy. put Hy; [|by eauto].
    rewrite T3. destruct (Hp x Hx); eauto.
  - intros p c Hpc. destruct (i_child p c Hpc) as (? & y & Hy & Hp). split; [done|].
    destruct (put_present (goals w) g x x' _ y Hx Hy) as (y' & E & [(Eg & -> & ->)|[_ ->]]); [|eauto].
    exists x'. split; [done|]. destruct Hc as [Hc|[_ Hc]]; [by eapply link_owns|]. by destruct (Hc p c Hpc).
  - intros k Hk. eapply put_some; eauto.
  - intros k Hk. eapply put_some; eauto.
  - intros k y Ho Hk Hy Hf. assert (exists y0, goals w !! k = Some y0 /\ (exitCode y0 = ecBusy \/ fin = Some k)) as (y0 & Hy0 & Hf0).
    { put Hy; [rewrite T3 in Hf|]; eauto. }
    destruct (i_top k y0 Ho Hk Hy0 Hf0) as [?|(h & z & Hh & Hz & Hzf)]; [by left|right].
    destruct (put_present (goals w) g x x' h z Hx Hz) as (z' & E & [(-> & -> & ->)|[_ ->]]); [congruence|eauto 6].
  - intros k i Hki. destruct (i_reqs k i Hki) as (? & y & Hy & Hv). split; [done|].
    destruct (put_present (goals w) g x x' k y Hx Hy) as (y' & E & [(-> & -> & ->)|[_ ->]]); eauto.
  - intros k y Hk Hy. put Hy; [rewrite T3|]; eauto.
Qed.

(** ** The goal that is working *)

Lemma INV_open R on pend ex fin w g : INV R on pend ex fin w -> INV R on pend ({[g]} ∪ ex) fin w.
Proof.
  intros [].
  assert (He : forall k, k ∉ {[g]} ∪ ex -> k ∉ ex) by (intros k Hk Hk'; apply Hk; by apply elem_of_union_r).
  split; eauto.
Qed.

Lemma INV_close R on pend ex fin w g x :
  goals w !! g = Some x -> INV R on pend ({[g]} ∪ ex) fin w ->
  (exitCode x = ecBusy -> inq pend w g \/ waitees x <> ∅ \/ is_Some (child_pid x)) ->
  (exitCode x = ecBusy -> st_ok (V w) x /\ (nrFailed x = 0%nat -> forall n, n ∈ needs x -> met w x n)) ->
  (forall p, child_pid x = Some p -> waitees x = ∅ /\ ~ asleep w g /\ exists c, children w !! p = Some c /\ c_goal c = g) ->
  INV R on pend ex fin w.
Proof.
  intros Hx [] Ha Hs Hr.
  assert (Hd : forall k y, goals w !! k = Some y -> k ∉ ex -> (k = g /\ y = x) \/ k ∉ {[g]} ∪ ex).
  { intros k y Hy Hk. destruct (decide (k = g)) as [->|]; [left; split; congruence|right].
    by intros [->%elem_of_singleton|]%elem_of_union. }
  split; try assumption.
  - intros k y p Hy Hp Hk. destruct (Hd k y Hy Hk) as [[-> ->]|]; eauto.
  - intros k y Hy Hb Hk. destruct (Hd k y Hy Hk) as [[-> ->]|]; eauto.
  - intros k y Hy Hb Hk. destruct (Hd k y Hy Hk) as [[-> ->]|]; [by apply Hs|eauto].
  - intros k y n Hy Hb Hk Hf Hn. destruct (Hd k y Hy Hk) as [[-> ->]|]; [by apply Hs|eauto].
Qed.

(** Going into one of the sets. *)
Lemma INV_queue_open R on pend ex fin w g x a b c d :
  goals w !! g = Some x -> exitCode x = ecBusy -> waitees x = ∅ -> g ∈ ex -> INV R on pend ex fin w ->
  let w' := with_sets a b c d w in
  (forall k, k <> g -> (k ∈ a <-> k ∈ awake w) /\ (k ∈ b <-> k ∈ wantingToBuild w) /\
     (k ∈ c <-> k ∈ waitingForAnyGoal w) /\ (k ∈ d <-> k ∈ waitingForAWhile w)) ->
  disj pend w' -> (b <> ∅ -> (maxBuildJobs cfg <= nrLocalBuilds w)%Z) ->
  INV R on pend ex fin w'.
Proof.
  intros Hx Hb Hw Hge I w' Hk Hd Hbn.
  assert (Hi : forall k, k <> g -> (inq pend w' k <-> inq pend w k) /\ (asleep w' k <-> asleep w k)).
  { intros k Hkg. destruct (Hk k Hkg) as (? & ? & ? & ?). unfold inq, asleep. cbn. tauto. }
  assert (Hg : (g < nextGoal w)%nat) by (destruct I; eauto).
  destruct I. split; cbn; try assumption.
  - intros k Hkq. destruct (decide (k = g)) as [->|]; [done|]. apply i_qfresh. by apply Hi.
  - intros k y Hy Hkq. destruct (decide (k = g)) as [->|]; [congruence|]. eapply i_inq; [done|]. by apply Hi.
  - intros k y Hy Hn'. assert (k <> g) by congruence. destruct (i_fin k y Hy Hn') as (? & ? & Hq' & ? & ?). split_and!; [done..| |done|done].
    intros H'. by apply Hq', Hi.
  - intros k y p Hy Hp He. assert (k <> g) by (by intros ->). destruct (i_run k y p Hy Hp He) as (? & Hq' & ?). split_and!; [done| |done].
    intros H'. by apply Hq', Hi.
  - intros k y Hy Hb' He. assert (k <> g) by (by intros ->). rewrite (proj1 (Hi k ltac:(done))). eauto.
Qed.

Lemma INV_queue R on pend ex fin w g x a b c d :
  goals w !! g = Some x -> exitCode x = ecBusy -> waitees x = ∅ -> INV R on pend ({[g]} ∪ ex) fin w ->
  let w' := with_sets a b c d w in
  (forall k, k <> g -> (k ∈ a <-> k ∈ awake w) /\ (k ∈ b <-> k ∈ wantingToBuild w) /\
     (k ∈ c <-> k ∈ waitingForAnyGoal w) /\ (k ∈ d <-> k ∈ waitingForAWhile w)) ->
  disj pend w' -> inq pend w' g -> (b <> ∅ -> (maxBuildJobs cfg <= nrLocalBuilds w)%Z) ->
  st_ok (V w) x -> (nrFailed x = 0%nat -> forall n, n ∈ needs x -> met w x n) ->
  (forall p, child_pid x = Some p -> ~ asleep w' g /\ exists c, children w !! p = Some c /\ c_goal c = g) ->
  INV R on pend ex fin w'.
Proof.
  intros Hx Hb Hw I w' Hk Hd Hq Hbn Hs Hn Hr. apply (INV_close R on pend ex fin w' g x); cbn; [done| |by auto..|naive_solver].
  eapply INV_queue_open; [exact Hx|done|done|by apply elem_of_union_l, elem_of_singleton|done..].
Qed.

(** ** Waiting for another goal *)

Definition add_edge (g h k : nat) (z : Goal) : Goal :=
  with_waiters (if bool_decide (k = h) then {[g]} ∪ waiters z else waiters z)
    (with_waitees (if bool_decide (k = g) then {[h]} ∪ waitees z else waitees z) z).

Lemma add_edge_lookup g h w k : addWaitee g h w = Done tt (with_goals (alter (fun x => with_waiters ({[g]} ∪ waiters x) x) h
    (alter (fun x => with_waitees ({[h]} ∪ waitees x) x) g (goals w))) w) /\
  alter (fun x => with_waiters ({[g]} ∪ waiters x) x) h (alter (fun x => with_waitees ({[h]} ∪ waitees x) x) g (goals w)) !! k =
  add_edge g h k <$> goals w !! k.
Proof.
  split; [done|]. unfold add_edge. rewrite !lookup_alter.
  repeat case_decide; subst; destruct (goals w !! _) as [[]|]; cbn; repeat case_bool_decide; done.
Qed.

Lemma INV_edge R on pend ex w g x h y m :
  g ∈ ex -> goals w !! g = Some x -> exitCode x = ecBusy -> ~ inq pend w g -> child_pid x = None ->
  goals w !! h = Some y -> exitCode y = ecBusy -> (forall k, m !! k = add_edge g h k <$> goals w !! k) ->
  INV R on pend ex None w -> INV R on pend ex None (with_goals m w).
Proof.
  intros Hge Hx Hb Hq Hc Hy Hby Hm I.
  assert (Ho : forall k z', m !! k = Some z' -> exists z, goals w !! k = Some z /\ z' = add_edge g h k z).
  { intros k z' Hz. rewrite Hm in Hz. by apply fmap_Some in Hz as (z & ? & ->); eauto. }
  assert (Hn : forall k z, goals w !! k = Some z -> m !! k = Some (add_edge g h k z)) by (intros k z Hz; by rewrite Hm, Hz).
  assert (Hs : forall k, is_Some (goals w !! k) -> is_Some (m !! k)) by (intros k [z Hz]; rewrite Hm, Hz; by eexists).
  assert (Hmet : forall z k n, met w z n -> met (with_goals m w) (add_edge g h k z) n).
  { intros z k n [?|(l & u & Hl & Hu & Hp)]; [by left|right]. exists l, (add_edge g h l u). split_and!; [|by apply Hn|done].
    cbn. in_union. }
  destruct I. split; cbn; try assumption.
  - intros k z' Hz. destruct (Ho k z' Hz) as (z & ? & ->). eauto.
  - intros k z' l Hz. destruct (Ho k z' Hz) as (z & Hz0 & ->). cbn. case_bool_decide; [|by eauto].
    rewrite elem_of_union, elem_of_singleton. intros [->|]; eauto.
  - intros k z' l Hz Hl. destruct (Ho k z' Hz) as (z & Hz0 & ->). cbn in Hl.
    assert (l ∈ waitees z \/ (k = g /\ l = h)) as [Hl'|[-> ->]].
    { case_bool_decide; [|by left]. apply elem_of_union in Hl as [->%elem_of_singleton|]; auto. }
    + destruct (i_waitees k z l Hz0 Hl') as (u & Hu & Hbu & Hku). exists (add_edge g h l u). split_and!; [by apply Hn|done|].
      cbn. in_union.
    + exists (add_edge g h h y). split_and!; [by apply Hn|by left|]. cbn. rewrite bool_decide_true by done. by apply elem_of_union_l, elem_of_singleton.
  - intros k z' l u' Hu Hk Hz Hf. destruct (Ho k z' Hz) as (z & Hz0 & ->). destruct (Ho l u' Hu) as (u & Hu0 & ->). cbn in Hk |- *.
    assert (k ∈ waiters u \/ (l = h /\ k = g)) as [Hk'|[-> ->]].
    { case_bool_decide; [|by left]. apply elem_of_union in Hk as [->%elem_of_singleton|]; auto. }
    + pose proof (i_waiters k z l u Hu0 Hk' Hz0 Hf). in_union.
    + rewrite bool_decide_true by done. by apply elem_of_union_l, elem_of_singleton.
  - intros k z' Hz Hkq. destruct (Ho k z' Hz) as (z & Hz0 & ->). cbn. case_bool_decide; [subst; by destruct Hq|exact (i_inq k z Hz0 Hkq)].
  - intros k z' Hz Hne. destruct (Ho k z' Hz) as (z & Hz0 & ->). cbn in *. rewrite bool_decide_false; [exact (i_fin k z Hz0 Hne)|].
    intros ->. congruence.
  - intros k z' p Hz Hp He. destruct (Ho k z' Hz) as (z & Hz0 & ->). cbn in *. rewrite bool_decide_false by (by intros ->). exact (i_run k z p Hz0 Hp He).
  - intros k z' Hz Hbz He. destruct (Ho k z' Hz) as (z & Hz0 & ->). cbn in *. rewrite bool_decide_false by (by intros ->). exact (i_acc k z Hz0 Hbz He).
  - intros k z' Hz Hbz He. destruct (Ho k z' Hz) as (z & Hz0 & ->). exact (i_st k z Hz0 Hbz He).
  - intros k z' n Hz Hbz He Hf Hnd. destruct (Ho k z' Hz) as (z & Hz0 & ->). apply Hmet. exact (i_needs k z n Hz0 Hbz He Hf Hnd).
  - intros k z' Hz. destruct (Ho k z' Hz) as (z & Hz0 & ->). exact (i_hook k z Hz0).
  - intros p k Hk. destruct (i_dmap p k Hk) as [? Hp]. split; [done|]. intros z' Hz. destruct (Ho k z' Hz) as (z & Hz0 & ->). exact (Hp z Hz0).
  - intros p k Hk. destruct (i_smap p k Hk) as [? Hp]. split; [done|]. intros z' Hz. destruct (Ho k z' Hz) as (z & Hz0 & ->). exact (Hp z Hz0).
  - intros p c Hpc. destruct (i_child p c Hpc) as (? & z & Hz & Hp). split; [done|]. exists (add_edge g h (c_goal c) z). split; [by apply Hn|exact Hp].
  - eauto.
  - eauto.
  - intros k z' Ho' Hk Hz Hf. destruct (Ho k z' Hz) as (z & Hz0 & ->). cbn in Hf.
    destruct (i_top k z Ho' Hk Hz0 Hf) as [?|(l & u & Hl & Hu & Hzf)]; [by left|right]. exists l, (add_edge g h l u). auto.
  - intros k i Hki. destruct (i_reqs k i Hki) as (? & z & Hz & Hv). split; [done|]. exists (add_edge g h k z). auto.
  - intros k z' Hk Hz. destruct (Ho k z' Hz) as (z & Hz0 & ->). exact (i_tbusy k z Hk Hz0).
Qed.

(** ** New goals *)

Lemma INV_new R on pend ex fin w K d s :
  let k := nextGoal w in let x := new_goal K in
  child_pid x = None -> hook_of x = None -> needs x = [] -> st_ok (V w) x ->
  (forall p g, d !! p = Some g -> derivationGoals w !! p = Some g \/ (g = k /\ provides x (NDrv p))) ->
  (forall p g, s !! p = Some g -> substitutionGoals w !! p = Some g \/ (g = k /\ provides x (NSub p))) ->
  INV R on pend ex fin w -> INV R on pend ex fin (with_awake ({[k]} ∪ awake w) (with_maps d s (with_new k x w))).
Proof.
  intros k x Hc Hh Hn Hs Hd Hsm I.
  assert (Hk : goals w !! k = None) by (destruct (goals w !! k) eqn:E; [|done]; destruct I; apply i_fresh in E; unfold k in E; lia).
  assert (Hkq : ~ inq pend w k) by (intros Hq; destruct I; apply i_qfresh in Hq; unfold k in Hq; lia).
  set (w' := with_awake _ _).
  assert (Hq : forall g, g <> k -> (inq pend w' g <-> inq pend w g)).
  { intros g Hg. unfold inq, asleep. cbn. rewrite elem_of_union, elem_of_singleton. tauto. }
  assert (Hm : forall g y, goals w !! g = Some y -> goals w' !! g = Some y) by (intros g y Hy; cbn; rewrite lookup_insert_ne; congruence).
  assert (Hmet : forall y n, met w y n -> met w' y n) by (intros y n [?|(h & z & ? & ? & ?)]; [by left|right; eauto 6]).
  destruct I. split; cbn -[w']; try assumption.
  - intros g y Hy. cbn in Hy |- *. put Hy; [lia|]. apply i_fresh in Hy. unfold k in *. lia.
  - intros g Hg. destruct (decide (g = k)) as [->|Hgk]; [cbn; lia|]. apply Hq, i_qfresh in Hg; [|done]. cbn. unfold k in *. lia.
  - intros g y h Hy Hh'. cbn in Hy. put Hy; [by apply not_elem_of_empty in Hh'|]. pose proof (i_wfresh g y h Hy Hh'). cbn. unfold k in *. lia.
  - intros g y h Hy Hh'. cbn in Hy. put Hy; [by apply not_elem_of_empty in Hh'|]. destruct (i_waitees g y h Hy Hh') as (z & Hz & ? & ?). eauto.
  - intros g y h z Hz Hg Hy Hf. cbn in Hz, Hy. put Hz; [by apply not_elem_of_empty in Hg|].
    put Hy; [|by eauto]. pose proof (i_wfresh h z k Hz Hg). unfold k in *. lia.
  - unfold disj, inq, asleep in *. cbn. clear -i_disj Hkq. set_solver.
  - intros g y Hy Hg. cbn in Hy. put Hy; [done|]. eapply i_inq; [done|]. by apply Hq.
  - intros g y Hy Hb. cbn in Hy. put Hy; [done|]. destruct (i_fin g y Hy Hb) as (? & ? & Hq' & ? & ?). split_and!; [done..| |done|done].
    by rewrite Hq.
  - intros g y p Hy Hp He. cbn in Hy. put Hy; [congruence|]. exact (i_run g y p Hy Hp He).
  - intros g y Hy Hb He. cbn in Hy. put Hy; [left; left; cbn; by apply elem_of_union_l, elem_of_singleton|]. rewrite Hq by done. eauto.
  - intros g y Hy Hb He. cbn in Hy. put Hy; [done|]. exact (i_st g y Hy Hb He).
  - intros g y n Hy Hb He Hf Hnd. cbn in Hy. put Hy; [fold x in Hnd; rewrite Hn in Hnd; by apply not_elem_of_nil in Hnd|]. apply Hmet. eauto.
  - intros g y Hy. cbn in Hy. put Hy; eauto.
  - intros p g Hg. destruct (Hd p g Hg) as [Hg'|[-> Hp]].
    + destruct (i_dmap p g Hg') as [? Hp]. split; [unfold k; cbn; lia|]. intros y Hy. cbn in Hy. put Hy; [unfold k in *; lia|eauto].
    + split; [cbn; lia|]. intros y Hy. cbn in Hy. rewrite lookup_insert, decide_True in Hy by done. injection Hy as <-. auto.
  - intros p g Hg. destruct (Hsm p g Hg) as [Hg'|[-> Hp]].
    + destruct (i_smap p g Hg') as [? Hp]. split; [unfold k; cbn; lia|]. intros y Hy. cbn in Hy. put Hy; [unfold k in *; lia|eauto].
    + split; [cbn; lia|]. intros y Hy. cbn in Hy. rewrite lookup_insert, decide_True in Hy by done. injection Hy as <-. auto.
  - intros p c Hpc. destruct (i_child p c Hpc) as (? & y & Hy & ?). eauto.
  - intros g Hg. destruct (i_locals g Hg) as [y Hy]. exists y. eauto.
  - intros g Hg. destruct (i_held g Hg) as [y Hy]. exists y. eauto.
  - intros g y Ho Hg Hy Hf. cbn in Hy, Hg. put Hy; [destruct (i_held _ Hg); congruence|].
    destruct (i_top g y Ho Hg Hy Hf) as [?|(h & z & Hh' & Hz & Hzf)]; [by left|right]. eauto 6.
  - intros g i Hgi. destruct (i_reqs g i Hgi) as (? & y & Hy & ?). eauto.
  - intros g y Hg Hy. cbn in Hy. put Hy; [by left|exact (i_tbusy g y Hg Hy)].
Qed.

(** ** Child processes *)

Lemma INV_start R on pend ex fin w g x p c :
  g ∈ ex -> goals w !! g = Some x -> owns p c x -> children w !! p = None -> p ∈ wprocs (world w) ->
  c_goal c = g -> inBuildSlot c = true -> (nrLocalBuilds w < max_slots cfg)%Z -> INV R on pend ex fin w ->
  INV R on pend ex fin (with_children (<[p := c]> (children w)) (nrLocalBuilds w + 1) w).
Proof.
  intros Hg Hx Hp Hn Hw Hc Hs Hl I. destruct I. split; cbn; try assumption.
  - intros k y q Hy Hq He. destruct (i_run k y q Hy Hq He) as (? & ? & c' & Hc' & ?). split_and!; [done..|].
    exists c'. rewrite lookup_insert_ne by congruence. done.
  - intros q c' Hq. apply lookup_insert_Some in Hq as [[<- <-]|[? Hq]]; [|by eauto]. rewrite Hc. eauto.
  - destruct i_slots as [E ?]. rewrite map_size_insert_None by done. lia.
  - intros Hb. specialize (i_wanting Hb). lia.
  - rewrite dom_insert. by apply union_subseteq; split; [apply singleton_subseteq_l|].
Qed.

(** The child of a goal is gone, and those that want its slot are woken up. *)
Definition detached (p : Z) (a : gset nat) (m : gmap nat Goal) w : WK :=
  with_wanting ∅ (with_awake a (with_children (delete p (children w)) (nrLocalBuilds w - 1) (with_goals m w))).

Lemma disj_wake pend w w' : disj pend w -> wantingToBuild w' = ∅ -> waitingForAnyGoal w' = waitingForAnyGoal w ->
  waitingForAWhile w' = waitingForAWhile w -> (forall k, k ∈ awake w' -> k ∈ awake w \/ k ∈ wantingToBuild w) -> disj pend w'.
Proof. unfold disj. intros (D1 & D2 & D3 & D4 & D5 & D6 & D7 & D8 & D9 & D10) -> -> -> Ha. split_and!; set_solver. Qed.

Lemma INV_term R on pend ex fin w g x p a st :
  let w1 := with_world st w in
  g ∈ ex -> goals w !! g = Some x -> child_pid x = Some p -> (exists c, children w !! p = Some c /\ c_goal c = g) ->
  V w ⊆ V w1 -> dom (children w) ∖ {[p]} ⊆ wprocs st ->
  (forall k, k ∈ a <-> k ∈ awake w \/ (k ∈ wantingToBuild w /\ is_Some (goals w !! k))) ->
  INV R on pend ex fin w -> INV R on pend ex fin (detached p a (goals w) w1).
Proof.
  intros w1 Hg Hx Hp (c & Hc & Hcg) Hv Hw Ha I. set (w' := detached p a _ w1).
  assert (Hq : forall k, inq pend w' k -> inq pend w k).
  { intros k. unfold inq, asleep. cbn. rewrite Ha. clear. set_solver. }
  assert (Hs : forall k, asleep w' k -> asleep w k) by (intros k; unfold asleep; cbn; clear; set_solver).
  assert (Hq' : forall k y, goals w !! k = Some y -> inq pend w k -> inq pend w' k).
  { intros k y Hy. unfold inq, asleep. cbn. rewrite Ha. assert (is_Some (goals w !! k)) by (by eexists). tauto. }
  destruct I. split; cbn -[w']; try assumption.
  - intros k Hk. apply Hq, i_qfresh in Hk. done.
  - apply (disj_wake pend w); [done..|]. intros k Hk. cbn in Hk. apply Ha in Hk. tauto.
  - intros k y Hy Hk. eapply i_inq; [done|]. by apply Hq.
  - intros k y Hy Hb. destruct (i_fin k y Hy Hb) as (? & ? & Hk & ? & ?). split_and!; eauto using done_ok_mono.
  - intros k y q Hy Hyq He. destruct (i_run k y q Hy Hyq He) as (? & ? & c' & Hc' & Hk). split_and!; [done|by eauto|].
    exists c'. split; [|done]. cbn. rewrite lookup_delete_ne; [done|]. intros ->.
    assert (c' = c) as -> by congruence. congruence.
  - intros k y Hy Hb He. destruct (i_acc k y Hy Hb He) as [?|?]; [left|right]; eauto.
  - intros k y Hy Hb He. eauto using st_ok_mono.
  - intros k y n Hy Hb He Hf Hn. destruct (i_needs k y n Hy Hb He Hf Hn) as [?|?]; [left; set_solver|by right].
  - intros q c' Hq'' . cbn in Hq''. apply lookup_delete_Some in Hq'' as [? Hq'']. eauto.
  - destruct i_slots as [E ?]. cbn. rewrite map_size_delete_Some by (by eexists). assert (size (children w) <> 0)%nat; [|lia].
    intros E0%map_size_empty_inv. by rewrite E0 in Hc.
  - cbn. set_solver.
  - cbn. by rewrite dom_delete_L.
Qed.

Lemma INV_detach R on pend ex fin w g x x' p a st :
  let w1 := with_world st w in
  g ∈ ex -> goals w !! g = Some x -> exitCode x = ecBusy -> child_pid x = Some p -> tame x x' ->
  (exists c, children w !! p = Some c /\ c_goal c = g) ->
  V w ⊆ V w1 -> dom (children w) ∖ {[p]} ⊆ wprocs st ->
  (forall k, k ∈ a <-> k ∈ awake w \/ (k ∈ wantingToBuild w /\ is_Some (goals w !! k))) ->
  INV R on pend ex fin w -> INV R on pend ex fin (detached p a (<[g := x']> (goals w)) w1).
Proof.
  intros w1 Hg Hx Hb Hp Ht Hc Hv Hw Ha I.
  pose proof (INV_term R on pend ex fin w g x p a st Hg Hx Hp Hc Hv Hw Ha I) as I'.
  apply (INV_put R on pend ex fin _ g x x') in I'; [done..| |done]. right. split; [done|].
  intros q c Hq Hcg. cbn in Hq. apply lookup_delete_Some in Hq as [Hne Hq]. destruct I.
  destruct (i_child q c Hq) as (_ & y & Hy & Hyq & _). rewrite Hcg in Hy. congruence.
Qed.

(** ** Destroying a goal that nothing points to *)

Lemma INV_delete R on pend ex fin w g x :
  goals w !! g = Some x -> child_pid x = None \/ (forall p c, children w !! p = Some c -> c_goal c <> g) ->
  strong w g = false -> INV R on pend ({[g]} ∪ ex) fin w -> INV R on pend ex fin (with_goals (delete g (goals w)) w).
Proof.
  intros Hx Hc Hst I. unfold strong in Hst. apply orb_false_iff in Hst as [[H1 H2]%orb_false_iff H3].
  apply bool_decide_eq_false in H1, H2, H3.
  assert (Hh : forall k y, goals w !! k = Some y -> g ∉ waitees y).
  { intros k y Hy Hg. apply H3. by exists k, y. }
  assert (Ho : forall k y, delete g (goals w) !! k = Some y -> k <> g /\ goals w !! k = Some y).
  { intros k y Hy. apply lookup_delete_Some in Hy as [? ?]. done. }
  assert (Hn : forall k y, k <> g -> goals w !! k = Some y -> delete g (goals w) !! k = Some y).
  { intros k y Hk Hy. by rewrite lookup_delete_ne. }
  assert (He : forall k, k <> g -> k ∉ ex -> k ∉ {[g]} ∪ ex).
  { intros k Hk Hk' Hk''. by apply elem_of_union in Hk'' as [->%elem_of_singleton|]. }
  assert (Hs : forall k, k ∈ held w ∪ topGoals w \/ k ∈ locals w -> is_Some (goals w !! k) -> is_Some (delete g (goals w) !! k)).
  { intros k Hk [y Hy]. exists y. apply Hn; [|done]. intros ->. by destruct Hk. }
  destruct I. split; cbn; try assumption.
  - intros k y Hy. apply Ho in Hy as [_ Hy]. eauto.
  - intros k y h Hy. apply Ho in Hy as [_ Hy]. eauto.
  - intros k y h Hy Hk. apply Ho in Hy as [_ Hy]. destruct (i_waitees k y h Hy Hk) as (z & Hz & ? & ?). exists z. split_and!; [|done..].
    apply Hn; [|done]. intros ->. exact (Hh k y Hy Hk).
  - intros k y h z Hz Hk Hy Hf. apply Ho in Hz as [_ Hz]. apply Ho in Hy as [_ Hy]. eauto.
  - intros k y Hy. apply Ho in Hy as [_ Hy]. exact (i_inq k y Hy).
  - intros k y Hy. apply Ho in Hy as [_ Hy]. exact (i_fin k y Hy).
  - intros k y p Hy Hp Hk. apply Ho in Hy as [Hkg Hy]. exact (i_run k y p Hy Hp (He k Hkg Hk)).
  - intros k y Hy Hb Hk. apply Ho in Hy as [Hkg Hy]. exact (i_acc k y Hy Hb (He k Hkg Hk)).
  - intros k y Hy Hb Hk. apply Ho in Hy as [Hkg Hy]. exact (i_st k y Hy Hb (He k Hkg Hk)).
  - intros k y n Hy Hb Hk Hf Hnd. apply Ho in Hy as [Hkg Hy]. destruct (i_needs k y n Hy Hb (He k Hkg Hk) Hf Hnd) as [?|(h & z & Hhk & Hz & Hp)];
      [by left|right]. exists h, z. split_and!; [done| |done]. apply Hn; [|done]. intros ->. exact (Hh k y Hy Hhk).
  - intros k y Hy. apply Ho in Hy as [_ Hy]. eauto.
  - intros p k Hk. destruct (i_dmap p k Hk) as [? Hp]. split; [done|]. intros y Hy. apply Ho in Hy as [_ Hy]. eauto.
  - intros p k Hk. destruct (i_smap p k Hk) as [? Hp]. split; [done|]. intros y Hy. apply Ho in Hy as [_ Hy]. eauto.
  - intros p c Hpc. destruct (i_child p c Hpc) as (? & y & Hy & Hp). split; [done|]. exists y. split; [|done]. apply Hn; [|done].
    intros Hcg. destruct Hp as [Hp _]. destruct Hc as [Hc|Hc]; [rewrite Hcg in Hy; congruence|by eapply Hc].
  - intros k Hk. apply Hs; auto.
  - intros k Hk. apply Hs; [left; by apply elem_of_union_l|auto].
  - intros k y Ho' Hk Hy Hf. apply Ho in Hy as [_ Hy]. destruct (i_top k y Ho' Hk Hy Hf) as [?|(h & z & Hhh & Hz & Hzf)]; [by left|right].
    exists h, z. split_and!; [done| |done]. apply Hn; [|done]. intros ->. by apply H1, elem_of_union_l.
  - intros k i Hki. destruct (i_reqs k i Hki) as (? & y & Hy & ?). split; [done|]. exists y. split; [|done]. apply Hn; [|done].
    intros ->. by apply H1, elem_of_union_l.
  - intros k y Hk Hy. apply Ho in Hy as [_ Hy]. exact (i_tbusy k y Hk Hy).
Qed.

(** ** A goal is told that one it waits for is done *)

(** [k] no longer waits for [g], one of its [waitees]; when [clear], for none of the
    others [ws] either. *)
Definition unlink (k : nat) (clear : bool) (ws : gset nat) (f n : nat) (j : nat) (z : Goal) : Goal :=
  with_waiters (if clear && bool_decide (j ∈ ws) then waiters z ∖ {[k]} else waiters z)
    (if bool_decide (j = k) then with_failed f n (with_waitees (if clear then ∅ else ws) z) else z).

Lemma unlink_later k c ws f n j z : later z (unlink k c ws f n j z).
Proof. unfold later, unlink. destruct (bool_decide (j = k)); cbn; by destruct (kind z). Qed.

Lemma INV_unlink R on pend g w k x clear f n m :
  goals w !! k = Some x -> g ∈ waitees x ->
  (forall j, m !! j = unlink k clear (waitees x ∖ {[g]}) f n j <$> goals w !! j) ->
  INV R on pend ∅ (Some g) w -> INV R on pend {[k]} (Some g) (with_goals m w).
Proof.
  intros Hx Hg Hm I. set (ws := waitees x ∖ {[g]}) in *.
  assert (Ho : forall j z', m !! j = Some z' -> exists z, goals w !! j = Some z /\ z' = unlink k clear ws f n j z).
  { intros j z' Hz. rewrite Hm in Hz. by apply fmap_Some in Hz as (z & ? & ->); eauto. }
  assert (Hn : forall j z, goals w !! j = Some z -> m !! j = Some (unlink k clear ws f n j z)) by (intros j z Hz; by rewrite Hm, Hz).
  assert (Hs : forall j, is_Some (goals w !! j) -> is_Some (m !! j)) by (intros j [z Hz]; rewrite Hm, Hz; by eexists).
  assert (Hk : ~ inq pend w k) by (intros Hq; destruct I; rewrite (i_inq k x Hx Hq) in Hg; by apply not_elem_of_empty in Hg).
  assert (Ew : forall j z h, h ∈ waitees (unlink k clear ws f n j z) -> (j <> k /\ h ∈ waitees z) \/ (j = k /\ clear = false /\ h ∈ ws)).
  { intros j z h. cbn. unfold unlink. case_bool_decide; cbn; [|auto]. destruct clear; [by intros ?%not_elem_of_empty|auto]. }
  assert (Ew' : forall j z, j <> k -> waitees (unlink k clear ws f n j z) = waitees z).
  { intros j z Hj. unfold unlink. by rewrite (bool_decide_false (j = k)). }
  assert (Er : forall j z i, i ∈ waiters (unlink k clear ws f n j z) <-> i ∈ waiters z /\ (clear = true -> j ∈ ws -> i <> k)).
  { intros j z i. cbn. destruct clear; cbn; [|naive_solver]. case_bool_decide; [|naive_solver].
    rewrite elem_of_difference, elem_of_singleton. naive_solver. }
  assert (Ex : forall j z, exitCode (unlink k clear ws f n j z) = exitCode z /\ kind (unlink k clear ws f n j z) = kind z /\ locks (unlink k clear ws f n j z) = locks z).
  { intros j z. unfold unlink. by destruct (bool_decide (j = k)). }
  assert (Ec : forall j z, child_pid (unlink k clear ws f n j z) = child_pid z /\ hook_of (unlink k clear ws f n j z) = hook_of z /\
             forall v, st_ok v (unlink k clear ws f n j z) <-> st_ok v z).
  { intros j z. destruct (Ex j z) as (_ & E1 & E2). unfold child_pid, hook_of, st_ok. by rewrite E1, E2. }
  assert (Ne : forall j, j ∉ ({[k]} : gset nat) -> j <> k) by (intros j Hj ->; by apply Hj, elem_of_singleton).
  destruct I. split; cbn; try assumption.
  - intros j z' Hz. destruct (Ho j z' Hz) as (z & ? & ->). eauto.
  - intros j z' h Hz. destruct (Ho j z' Hz) as (z & Hz0 & ->). intros [? _]%Er. eauto.
  - intros j z' h Hz Hh. destruct (Ho j z' Hz) as (z & Hz0 & ->).
    assert (h ∈ waitees z /\ (j = k -> clear = false)) as [Hh' Hc].
    { destruct (Ew j z h Hh) as [[? ?]|(-> & -> & Hh')]; [naive_solver|]. split; [|done]. rewrite Hx in Hz0. injection Hz0 as <-.
      by apply elem_of_difference in Hh' as [? _]. }
    destruct (i_waitees j z h Hz0 Hh') as (u & Hu & Hbu & Hju). exists (unlink k clear ws f n h u). split_and!; [by apply Hn|by rewrite (proj1 (Ex h u))|].
    apply Er. split; [done|]. intros -> _ ->. by specialize (Hc eq_refl).
  - intros j z' h u' Hu Hj Hz Hf. destruct (Ho j z' Hz) as (z & Hz0 & ->). destruct (Ho h u' Hu) as (u & Hu0 & ->).
    apply Er in Hj as [Hj Hc]. pose proof (i_waiters j z h u Hu0 Hj Hz0 Hf) as Hw. destruct (decide (j = k)) as [->|]; [|by rewrite Ew'].
    rewrite Hx in Hz0. injection Hz0 as <-. assert (h ∈ ws) by (apply elem_of_difference; split; [done|]; intros ->%elem_of_singleton; done).
    unfold unlink. rewrite (bool_decide_true (k = k)) by done. cbn. destruct clear; [by destruct (Hc eq_refl ltac:(done))|done].
  - intros j z' Hz Hjq. destruct (Ho j z' Hz) as (z & Hz0 & ->). rewrite Ew' by (by intros ->). exact (i_inq j z Hz0 Hjq).
  - intros j z' Hz Hb. destruct (Ho j z' Hz) as (z & Hz0 & ->). rewrite (proj1 (Ex j z)) in Hb |- *. rewrite (proj1 (Ec j z)).
    destruct (i_fin j z Hz0 Hb) as (H1 & ? & ? & ? & ?). unfold done_ok. rewrite (proj1 (proj2 (Ex j z))). split_and!; [|done..].
    rewrite Ew'; [done|]. intros ->. rewrite Hx in Hz0. injection Hz0 as <-. rewrite H1 in Hg. by apply not_elem_of_empty in Hg.
  - intros j z' p Hz Hp He%Ne. destruct (Ho j z' Hz) as (z & Hz0 & ->). rewrite Ew' by done. rewrite (proj1 (Ec j z)) in Hp.
    exact (i_run j z p Hz0 Hp (not_elem_of_empty j)).
  - intros j z' Hz Hb He%Ne. destruct (Ho j z' Hz) as (z & Hz0 & ->). rewrite Ew' by done. rewrite (proj1 (Ec j z)). rewrite (proj1 (Ex j z)) in Hb.
    exact (i_acc j z Hz0 Hb (not_elem_of_empty j)).
  - intros j z' Hz Hb He%Ne. destruct (Ho j z' Hz) as (z & Hz0 & ->). apply Ec. rewrite (proj1 (Ex j z)) in Hb. exact (i_st j z Hz0 Hb (not_elem_of_empty j)).
  - intros j z' nd Hz Hb He%Ne Hf Hnd. destruct (Ho j z' Hz) as (z & Hz0 & ->). rewrite (proj1 (Ex j z)) in Hb.
    assert (nrFailed z = 0%nat /\ nd ∈ needs z) as [Hf' Hnd'].
    { unfold unlink in Hf, Hnd. by rewrite (bool_decide_false (j = k)) in Hf, Hnd by done. }
    destruct (i_needs j z nd Hz0 Hb (not_elem_of_empty j) Hf' Hnd') as [?|(h & u & Hh & Hu & Hp)]; [by left|right].
    exists h, (unlink k clear ws f n h u). rewrite Ew' by done. split_and!; [done|by apply Hn|]. eapply later_provides; [apply unlink_later|done].
  - intros j z' Hz. destruct (Ho j z' Hz) as (z & Hz0 & ->). rewrite (proj1 (proj2 (Ec j z))). eauto.
  - intros p j Hj. destruct (i_dmap p j Hj) as [? Hp]. split; [done|]. intros z' Hz. destruct (Ho j z' Hz) as (z & Hz0 & ->). rewrite (proj1 (Ex j z)).
    destruct (Hp z Hz0). split; [done|]. eapply later_provides; [apply unlink_later|done].
  - intros p j Hj. destruct (i_smap p j Hj) as [? Hp]. split; [done|]. intros z' Hz. destruct (Ho j z' Hz) as (z & Hz0 & ->). rewrite (proj1 (Ex j z)).
    destruct (Hp z Hz0). split; [done|]. eapply later_provides; [apply unlink_later|done].
  - intros p c Hpc. destruct (i_child p c Hpc) as (? & z & Hz & Hp). split; [done|]. exists (unlink k clear ws f n (c_goal c) z).
    split; [by apply Hn|]. eapply link_owns, Hp. unfold link. by rewrite (proj1 (proj2 (Ex (c_goal c) z))).
  - eauto.
  - eauto.
  - intros j z' Ho' Hj Hz Hf. destruct (Ho j z' Hz) as (z & Hz0 & ->). rewrite (proj1 (Ex j z)) in Hf.
    destruct (i_top j z Ho' Hj Hz0 Hf) as [?|(h & u & Hh & Hu & Hzf)]; [by left|right]. exists h, (unlink k clear ws f n h u). rewrite (proj1 (Ex h u)). auto.
  - intros j i Hji. destruct (i_reqs j i Hji) as (? & z & Hz & Hv). split; [done|]. exists (unlink k clear ws f n j z). split; [by apply Hn|].
    eapply later_serves; [apply unlink_later|done].
  - intros j z' Hj Hz. destruct (Ho j z' Hz) as (z & Hz0 & ->). rewrite (proj1 (Ex j z)). exact (i_tbusy j z Hj Hz0).
Qed.

(** ** A goal is done *)

Lemma INV_exit R on pend w g x r :
  goals w !! g = Some x -> exitCode x = ecBusy -> waitees x = ∅ -> child_pid x = None -> ~ inq pend w g ->
  r <> ecBusy -> (r = ecSuccess -> done_ok (V w) x) -> (r = ecNoSubstituters -> exists s, kind x = KSub s) ->
  INV R on pend {[g]} None w -> INV R on pend ∅ (Some g) (with_goals (<[g := with_exit r x]> (goals w)) w).
Proof.
  intros Hx Hb Hw Hc Hq Hr Hd Hns I. set (x' := with_exit r x).
  assert (Hl : later x x') by exact (later_refl x).
  assert (He : forall k, k <> g -> k ∉ ({[g]} : gset nat)) by (intros k Hk ?%elem_of_singleton; done).
  destruct I. split; cbn; try assumption.
  - intros k y Hy. put Hy; eauto.
  - intros k y h Hy. put Hy; cbn; eauto.
  - intros k y h Hy Hh. assert (exists y0, goals w !! k = Some y0 /\ h ∈ waitees y0) as (y0 & Hy0 & Hh0) by (put Hy; eauto).
    destruct (i_waitees k y0 h Hy0 Hh0) as (z & Hz & Hbz & Hk).
    destruct (put_present (goals w) g x x' h z Hx Hz) as (z' & E & [(-> & -> & ->)|[_ ->]]); [eauto|exists z; naive_solver].
  - intros k y h z Hz Hk Hy Hf. assert (exists z0, goals w !! h = Some z0 /\ k ∈ waiters z0) as (z0 & Hz0 & Hk0) by (put Hz; eauto).
    put Hy; cbn; eauto.
  - intros k y Hy. put Hy; cbn; [done|exact (i_inq k y Hy)].
  - intros k y Hy Hn. put Hy; [|exact (i_fin k y Hy Hn)]. split_and!; [done|done|done| |]; cbn; [exact Hd|exact Hns].
  - intros k y p Hy Hp _. put Hy; [cbn in Hp; change (child_pid x = Some p) in Hp; congruence|]. eauto.
  - intros k y Hy Hn _. put Hy; [done|]. exact (i_acc k y Hy Hn ltac:(auto)).
  - intros k y Hy Hn _. put Hy; [done|]. exact (i_st k y Hy Hn ltac:(auto)).
  - intros k y n Hy Hn _ Hf Hnd. put Hy; [done|]. eapply put_met; [done..|]. eauto.
  - intros k y Hy. put Hy; [exact (i_hook g x Hx)|eauto].
  - intros p k Hk. destruct (i_dmap p k Hk) as [? Hp]. split; [done|]. intros y Hy. put Hy; [|naive_solver]. destruct (Hp x Hx); eauto.
  - intros p k Hk. destruct (i_smap p k Hk) as [? Hp]. split; [done|]. intros y Hy. put Hy; [|naive_solver]. destruct (Hp x Hx); eauto.
  - intros p c Hpc. destruct (i_child p c Hpc) as (? & y & Hy & Hp). split; [done|].
    destruct (put_present (goals w) g x x' _ y Hx Hy) as (y' & E & [(Eg & -> & ->)|[_ ->]]); [destruct Hp; congruence|eauto].
  - intros k Hk. eapply put_some; eauto.
  - intros k Hk. eapply put_some; eauto.
  - intros k y Ho Hk Hy Hf. assert (exists y0, goals w !! k = Some y0 /\ exitCode y0 = ecBusy) as (y0 & Hy0 & Hf0).
    { put Hy; [eauto|]. exists y. split; [done|]. destruct Hf; [done|congruence]. }
    destruct (i_top k y0 Ho Hk Hy0 (or_introl Hf0)) as [?|(h & z & Hh & Hz & Hzf)]; [by left|right].
    exists h, z. split_and!; [done| |done]. rewrite lookup_insert_ne; [done|]. congruence.
  - intros k i Hki. destruct (i_reqs k i Hki) as (? & y & Hy & Hv). split; [done|].
    destruct (put_present (goals w) g x x' k y Hx Hy) as (y' & E & [(-> & -> & ->)|[_ ->]]); eauto.
  - intros k y Hk Hy. put Hy; [by right|]. destruct (i_tbusy k y Hk Hy); [by left|done].
Qed.

(** Nobody waits for it any more, and it is forgotten. *)
Lemma INV_forget R on pend w g x d s t :
  goals w !! g = Some x -> exitCode x <> ecBusy -> (forall k y, goals w !! k = Some y -> g ∉ waitees y) ->
  (forall p k, d !! p = Some k -> derivationGoals w !! p = Some k /\ k <> g) ->
  (forall p k, s !! p = Some k -> substitutionGoals w !! p = Some k /\ k <> g) ->
  (g ∉ t) -> t ⊆ topGoals w -> (forall k, k ∈ topGoals w -> k <> g -> k ∈ t \/ (g ∈ topGoals w /\ exitCode x = ecFailed)) ->
  INV R on pend ∅ (Some g) w ->
  INV R on pend ∅ None (with_top t (with_maps d s (with_goals (<[g := with_waiters ∅ x]> (goals w)) w))).
Proof.
  intros Hx Hb Hw Hd Hsm Hgt0 Ht Ht' I. set (x' := with_waiters ∅ x).
  assert (Hl : later x x') by exact (later_refl x).
  destruct I. split; cbn; try assumption.
  - intros k y Hy. put Hy; eauto.
  - intros k y h Hy Hh. put Hy; [by apply not_elem_of_empty in Hh|eauto].
  - intros k y h Hy Hh. assert (exists y0, goals w !! k = Some y0 /\ h ∈ waitees y0) as (y0 & Hy0 & Hh0) by (put Hy; eauto).
    destruct (i_waitees k y0 h Hy0 Hh0) as (z & Hz & Hbz & Hk). assert (h <> g) by (intros ->; exact (Hw k y0 Hy0 Hh0)).
    exists z. rewrite lookup_insert_ne by done. split_and!; [done| |done]. left. destruct Hbz; [done|congruence].
  - intros k y h z Hz Hk Hy Hf. put Hz; [by apply not_elem_of_empty in Hk|]. put Hy; cbn; eapply i_waiters; eauto; congruence.
  - intros k y Hy. put Hy; cbn; [exact (i_inq g x Hx)|exact (i_inq k y Hy)].
  - intros k y Hy Hn. put Hy; [exact (i_fin g x Hx Hn)|exact (i_fin k y Hy Hn)].
  - intros k y p Hy Hp He. put Hy; [exact (i_run g x p Hx Hp He)|exact (i_run k y p Hy Hp He)].
  - intros k y Hy Hn He. put Hy; [done|exact (i_acc k y Hy Hn He)].
  - intros k y Hy Hn He. put Hy; [done|exact (i_st k y Hy Hn He)].
  - intros k y n Hy Hn He Hf Hnd. put Hy; [done|]. exact (put_met w g x x' y n Hx Hl (i_needs k y n Hy Hn He Hf Hnd)).
  - intros k y Hy. put Hy; [exact (i_hook g x Hx)|eauto].
  - intros p k Hk. destruct (Hd p k Hk) as [Hk' Hkg]. destruct (i_dmap p k Hk') as [? Hp]. split; [done|]. intros y Hy. put Hy; [done|].
    destruct (Hp y Hy) as [[?|?] ?]; [by auto|congruence].
  - intros p k Hk. destruct (Hsm p k Hk) as [Hk' Hkg]. destruct (i_smap p k Hk') as [? Hp]. split; [done|]. intros y Hy. put Hy; [done|].
    destruct (Hp y Hy) as [[?|?] ?]; [by auto|congruence].
  - intros p c Hpc. destruct (i_child p c Hpc) as (? & y & Hy & Hp). split; [done|].
    destruct (put_present (goals w) g x x' _ y Hx Hy) as (y' & E & [(Eg & -> & ->)|[_ ->]]); eauto.
  - intros k Hk. eapply put_some; eauto.
  - intros k Hk. eapply put_some; eauto.
  - by etrans.
  - intros k y Ho Hk Hy Hf. destruct Hf as [Hf|]; [|done]. put Hy; [done|].
    destruct (i_top k y Ho Hk Hy (or_introl Hf)) as [Hkt|(h & z & Hh & Hz & Hzf)].
    + destruct (Ht' k Hkt ltac:(done)) as [?|[Hgt Hgf]]; [by left|right]. exists g, x'.
      rewrite lookup_insert, decide_True by done. split_and!; [|done|done]. exact (i_tops g Hgt).
    + right. destruct (put_present (goals w) g x x' h z Hx Hz) as (z' & E & [(-> & -> & ->)|[_ ->]]); eauto 6.
  - intros k i Hki. destruct (i_reqs k i Hki) as (? & y & Hy & Hv). split; [done|].
    destruct (put_present (goals w) g x x' k y Hx Hy) as (y' & E & [(-> & -> & ->)|[_ ->]]); eauto.
  - intros k y Hk Hy. put Hy; [done|]. destruct (i_tbusy k y (Ht k Hk) Hy); [by left|congruence].
Qed.

(** Waking up goals: everything in a set that is still there becomes awake. *)
Lemma INV_wake R on pend ex fin w a b c d :
  let w' := with_sets a b c d w in
  (forall k, inq pend w' k -> inq pend w k) -> (forall k, asleep w' k -> asleep w k) ->
  (forall k y, goals w !! k = Some y -> inq pend w k -> inq pend w' k) -> disj pend w' ->
  (b <> ∅ -> wantingToBuild w <> ∅) ->
  INV R on pend ex fin w -> INV R on pend ex fin w'.
Proof.
  intros w' Hq Hs Hq' Hd Hb []. split; cbn -[w']; try assumption; eauto.
  - intros k y Hy Hn. destruct (i_fin k y Hy Hn) as (? & ? & Hk & ? & ?). split_and!; eauto.
  - intros k y p Hy Hp He. destruct (i_run k y p Hy Hp He) as (? & ? & ?). split_and!; eauto.
  - intros k y Hy Hn He. destruct (i_acc k y Hy Hn He) as [?|?]; [left|right]; eauto.
Qed.
End Steps.
