(* ===== verification/GoalHoare.v ===== *)
(** * The operations of goals and worker keep the invariant

    Triples for the operations of [GoalData.v], up to [amDone]: destroying goals, telling
    the goals that wait, and making goals to wait for. *)

From Stdlib Require Import ZArith Lia Ascii.
From stdpp Require Import base strings sorting numbers gmap sets list.
From S2P Require Import Prelude Effects Util Hash StorePath Derivations Wire Globals GoalData Goals GoalInv GoalSteps.

Section Hoare.
Context {St : Type} `{WO : World St} {WL : WorldLaws St} (cfg : Settings) (order : gset nat -> list nat).
(** Every pointer of a set is visited once. *)
Context (order_perm : forall X, order X ≡ₚ elements X).
Abbreviation WK := (Worker St).
Implicit Types w : WK.
Implicit Types I : WK -> Prop.
Local Abbreviation INV := (INV cfg).

Lemma elem_of_order k X : k ∈ order X <-> k ∈ X.
Proof. by rewrite order_perm, elem_of_elements. Qed.
Lemma NoDup_order X : NoDup (order X).
Proof. rewrite order_perm. apply NoDup_elements. Qed.

(** ** The world *)

Definition ext w w' : Prop := core w' = core w /\ V w ⊆ V w' /\ wprocs (world w') = wprocs (world w).
Definition stable I : Prop := forall w w', ext w w' -> I w -> I w'.

(** An exception that is not the failure of an assertion, with the state it leaves. *)
Definition okX I (e : exn) w : Prop := catch_all (exn_kind e) = true /\ I w.
Definition anyX : exn -> WK -> Prop := okX (fun _ => True).

Lemma triple_X {A} P (m : M WK A) Q X X' : triple P m Q X -> (forall e w, X e w -> X' e w) -> triple P m Q X'.
Proof. intros H HX w Hw. specialize (H w Hw). destruct (m w); auto. Qed.
Lemma triple_any {A} P (m : M WK A) Q I : triple P m Q (okX I) -> triple P m Q anyX.
Proof. intros H. eapply triple_X; [done|]. by intros e w [? _]. Qed.

Lemma stable_INV R on pend ex fin : stable (INV R on pend ex fin).
Proof.
  intros w w' (E & Hv & Hp) HI. apply (INV_core cfg R on pend ex fin w w'); [done|done| |done]. rewrite Hp. destruct HI. exact i_procs.
Qed.

Lemma stable_and I J : stable I -> stable J -> stable (fun w => I w /\ J w).
Proof. intros HI HJ w w' E [? ?]. split; [by eapply HI|by eapply HJ]. Qed.

Lemma triple_worldly {A} I (m : M St A) Q : stable I -> keeps wv wprocs m Q ->
  triple I (worldly m) (fun a w => I w /\ Q a (world w)) (okX I).
Proof.
  intros HI Hm w Hw. unfold worldly, zoom. specialize (Hm (world w)). destruct (m (world w)) as [a s|e s|]; [| |done].
  - destruct Hm as (H1 & H2 & H3). split; [|done]. by apply (HI w).
  - destruct Hm as (H0 & H1 & H2). split; [done|]. by apply (HI w).
Qed.
Lemma triple_quiet {A} I (m : M St A) : stable I -> quiet wv wprocs m -> triple I (worldly m) (fun _ => I) (okX I).
Proof. intros HI Hm. eapply triple_post; [by apply triple_worldly|]. by intros a w [? _]. Qed.

Lemma keeps_quiet {A} (m : M St A) Q : keeps wv wprocs m Q -> quiet wv wprocs m.
Proof. intros H s. specialize (H s). destruct (m s); naive_solver. Qed.

Lemma triple_misc I f X : stable I -> (forall w, ext w (f w)) -> triple I (modify f) (fun _ => I) X.
Proof. intros HI Hf w Hw. by apply (HI w). Qed.

Lemma ext_refl w : ext w w.
Proof. done. Qed.

Lemma triple_unlock_files I l b : stable I -> triple I (unlock_files l b) (fun _ => I) (okX I).
Proof.
  intros HI. apply triple_forM. intros f _. eapply triple_bind; [apply triple_quiet; [done|apply law_unlockFile]|]. intros ?.
  apply triple_misc; [done|]. by intros w.
Qed.

Lemma run_goal {B} g x (f : Goal -> M WK B) w : goals w !! g = Some x -> (deref g ≫= f) w = f x w.
Proof. intros E. apply run_bind. unfold deref, lock_ptr. by rewrite run_gets, E. Qed.

Lemma run_upd {B} g F (f : unit -> M WK B) w : (upd g F ≫= f) w = f tt (with_goals (alter F g (goals w)) w).
Proof. done. Qed.

(** Waking up those of a list that are there. *)
Lemma wake_run l w : exists a, forM wake_alive l w = Done tt (with_awake a w) /\
  forall k, k ∈ a <-> k ∈ awake w \/ (k ∈ l /\ is_Some (goals w !! k)).
Proof.
  revert w. induction l as [|g l IH]; intros w; cbn [forM].
  - exists (awake w). split; [by destruct w|]. intros k. rewrite elem_of_nil. tauto.
  - destruct (goals w !! g) as [x|] eqn:Ex.
    + destruct (IH (with_awake ({[g]} ∪ awake w) w)) as (a & E & Ha). exists a. split.
      * erewrite run_bind; [exact E|]. unfold wake_alive. unfold lock_ptr. rewrite run_gets, Ex. done.
      * intros k. rewrite Ha. cbn. rewrite elem_of_union, elem_of_singleton, elem_of_cons. split; [|naive_solver].
        intros [[->|?]|[? ?]]; [right; split; [by left|by eexists]|by left|right; auto].
    + destruct (IH w) as (a & E & Ha). exists a. split.
      * erewrite run_bind; [exact E|]. unfold wake_alive, lock_ptr. by rewrite run_gets, Ex.
      * intros k. rewrite Ha, elem_of_cons. split; [naive_solver|]. intros [?|[[->|?] [y Hy]]]; [by left|congruence|right; split; [done|by eexists]].
Qed.

Lemma childTerminated_run p c w :
  children w !! p = Some c -> inBuildSlot c = true -> (0 < nrLocalBuilds w)%Z ->
  exists a, childTerminated order p w = Done tt (detached p a (goals w) w) /\
    forall k, k ∈ a <-> k ∈ awake w \/ (k ∈ wantingToBuild w /\ is_Some (goals w !! k)).
Proof.
  intros Hc Hs Hn. set (w1 := with_children (delete p (children w)) (nrLocalBuilds w - 1) w).
  destruct (wake_run (order (wantingToBuild w)) w1) as (a & E & Ha). exists a. split.
  - unfold childTerminated. rewrite run_gets, Hc, run_gets, Hs. cbn [negb orb]. rewrite (proj2 (Z.ltb_lt _ _) Hn).
    unfold check. rewrite run_ret, run_modify, run_gets. change (with_children _ _ w) with w1. erewrite run_bind; [|exact E]. done.
  - intros k. rewrite Ha. by rewrite elem_of_order.
Qed.

(** ** Destroying goals *)

(** What is left after pointers were dropped. *)
Record shrinks w w' : Prop := {
  sh_goals k x : goals w' !! k = Some x -> goals w !! k = Some x;
  sh_kept k : k ∈ locals w \/ k ∈ held w -> goals w' !! k = goals w !! k;
  sh_same : (locals w', held w', topGoals w', nextGoal w', derivationGoals w', substitutionGoals w') =
            (locals w, held w, topGoals w, nextGoal w, derivationGoals w, substitutionGoals w);
  sh_inq pend k : inq pend w' k -> inq pend w k;
  sh_asleep k : asleep w' k -> asleep w k;
  sh_V : V w ⊆ V w' }.

Lemma shrinks_refl w : shrinks w w.
Proof. by split. Qed.
Lemma shrinks_trans w1 w2 w3 : shrinks w1 w2 -> shrinks w2 w3 -> shrinks w1 w3.
Proof.
  intros [A1 A2 A3 A4 A5 A6] [B1 B2 B3 B4 B5 B6]. injection A3 as E1 E2 E3 E4 E5 E6. split; eauto; [| |by etrans].
  - intros k Hk. rewrite B2, A2; [done..|]. by rewrite E1, E2.
  - rewrite B3. congruence.
Qed.
Lemma ext_shrinks w w' : ext w w' -> shrinks w w'.
Proof.
  intros (E & Hv & _). unfold core in E. injection E as E1 E2 E3 E4 E5 E6 E7 E8 E9 E10 E11 E12 E13.
  split; unfold inq, asleep; rewrite ?E1, ?E2, ?E3, ?E4, ?E5, ?E6, ?E7, ?E8, ?E9; auto. congruence.
Qed.

Definition dropping R on pend ex fin w0 w : Prop :=
  INV R on pend ex fin w /\ shrinks w0 w /\ (forall k, k ∈ ex -> k ∈ locals w).

Lemma stable_dropping R on pend ex fin w0 : stable (dropping R on pend ex fin w0).
Proof.
  intros w w' E (H1 & H2 & H3). split_and!; [by eapply stable_INV|eapply shrinks_trans; [done|by apply ext_shrinks]|].
  destruct E as (E & _). unfold core in E. injection E as _ _ _ E4 _ _ _ _ _ _ _ _ _. by rewrite E4.
Qed.

(** Ending a process that is no longer a child. *)
Lemma triple_kill R on pend ex fin w0 p :
  triple (fun w => dropping R on pend ex fin w0 w /\ children w !! p = None) (worldly (w_kill p)) (fun _ => dropping R on pend ex fin w0)
    (okX (dropping R on pend ex fin w0)).
Proof.
  intros w ((H1 & H2 & H3) & Hp). unfold worldly, zoom.
  assert (Hk : forall s, wv (world w) ⊆ wv s -> wprocs (world w) ∖ {[p]} ⊆ wprocs s -> dropping R on pend ex fin w0 (with_world s w)).
  { intros s Hv Hw. split_and!; [|eapply shrinks_trans; [done|by split]|done].
    apply (INV_core cfg R on pend ex fin w); [done|done| |done]. destruct H1. etrans; [|exact Hw].
    apply subseteq_difference_r; [|exact i_procs]. apply disjoint_singleton_r. by apply not_elem_of_dom. }
  pose proof (law_kill p (world w)) as Hl. destruct (w_kill p (world w)) as [a s|e s|]; [| |done].
  - destruct Hl as [Hv Hw]. by apply Hk.
  - destruct Hl as (He & Hv & Hw). split; [done|]. by apply Hk.
Qed.

Lemma dropping_delete R on pend ex fin w0 w g x :
  dropping R on pend ex fin w0 w -> goals w !! g = Some x -> strong w g = false -> child_pid x = None ->
  dropping R on pend ex fin w0 (with_goals (delete g (goals w)) w).
Proof.
  intros (H1 & H2 & H3) Hx Hs Hc. split_and!; [|eapply shrinks_trans; [done|]|done].
  - apply INV_delete with (x := x); [done|by left|done|by apply INV_open].
  - unfold strong in Hs. apply orb_false_iff in Hs as [[Hs1 Hs2]%orb_false_iff _]. apply bool_decide_eq_false in Hs1, Hs2.
    split; [|..|done|done|done|done]; cbn.
    + intros k y Hy. by apply lookup_delete_Some in Hy as [_ ?].
    + intros k Hk. apply lookup_delete_ne. intros <-. destruct Hk; [done|]. by apply Hs1, elem_of_union_l.
Qed.

Lemma dropping_detach R on pend ex fin w0 w g x p :
  dropping R on pend ex fin w0 w -> goals w !! g = Some x -> strong w g = false -> child_pid x = Some p ->
  exists w', childTerminated order p (with_goals (delete g (goals w)) w) = Done tt w' /\ dropping R on pend ex fin w0 w' /\ children w' !! p = None.
Proof.
  intros (H1 & H2 & H3) Hx Hs Hp.
  assert (Hst := Hs). unfold strong in Hst. apply orb_false_iff in Hst as [[Hs1 Hs2]%orb_false_iff _]. apply bool_decide_eq_false in Hs1, Hs2.
  assert (Hge : g ∉ ex) by (intros Hg; by apply Hs2, H3).
  assert (exists c, children w !! p = Some c /\ c_goal c = g) as (c & Hc & Hcg) by (destruct H1; destruct (i_run g x p Hx Hp Hge) as (_ & _ & ?); done).
  assert (Hna : ~ asleep w g) by (destruct H1; by destruct (i_run g x p Hx Hp Hge) as (_ & ? & _)).
  assert (Hbs : inBuildSlot c = true) by (destruct H1; by destruct (i_child p c Hc)).
  assert (Hn : (0 < nrLocalBuilds w)%Z).
  { destruct H1. destruct i_slots as [E _]. assert (size (children w) <> 0)%nat; [|lia]. intros E0%map_size_empty_inv. by rewrite E0 in Hc. }
  destruct (childTerminated_run p c (with_goals (delete g (goals w)) w) Hc Hbs Hn) as (a & E & Ha). eexists. split; [exact E|].
  assert (Ha' : forall k, k ∈ a <-> k ∈ awake w \/ (k ∈ wantingToBuild w /\ is_Some (goals w !! k))).
  { intros k. rewrite Ha. cbn. destruct (decide (k = g)) as [->|]; [|by rewrite lookup_delete_ne].
    rewrite lookup_delete, decide_True by done. split; [|intros [?|[Hk _]]; [by left|by destruct Hna; left]]. intros [?|[_ [? ?]]]; [by left|done]. }
  pose proof (INV_term cfg R on pend ({[g]} ∪ ex) fin w g x p a (world w) (elem_of_union_l _ _ _ (elem_of_singleton_2 _ _ eq_refl)) Hx Hp
    (ex_intro _ c (conj Hc Hcg)) (reflexivity _) ltac:(destruct H1; etrans; [apply subseteq_difference_l, i_procs|done]) Ha' (INV_open cfg R on pend ex fin w g H1)) as I'.
  split; [|cbn; by rewrite lookup_delete, decide_True].
  split_and!; [|eapply shrinks_trans; [done|]|done].
  - apply (INV_delete cfg R on pend ex fin _ g x) in I'; [exact I'|done| |exact Hs]. right.
    intros q c' Hq Hq'. cbn in Hq. apply lookup_delete_Some in Hq as [Hne Hq]. destruct H1. destruct (i_child q c' Hq) as (_ & y & Hy & Hyq & _).
    rewrite Hq' in Hy. congruence.
  - split; cbn; [|..|done| | |done].
    + intros k y Hy. by apply lookup_delete_Some in Hy as [_ ?].
    + intros k Hk. apply lookup_delete_ne. intros <-. destruct Hk; [done|]. by apply Hs1, elem_of_union_l.
    + intros pend' k. unfold inq, asleep. cbn. rewrite Ha'. clear. set_solver.
    + intros k. unfold asleep. cbn. clear. set_solver.
Qed.

Definition deleted R on pend ex fin w0 (g : nat) (x : Goal) w' : Prop := exists w,
  w' = with_goals (delete g (goals w)) w /\ dropping R on pend ex fin w0 w /\ goals w !! g = Some x /\ strong w g = false.

Lemma triple_end_child R on pend ex fin w0 g x :
  triple (deleted R on pend ex fin w0 g x)
    (match child_pid x with Some p => _ ← childTerminated order p; worldly (w_kill p) | None => mret tt end)
    (fun _ => dropping R on pend ex fin w0) (okX (dropping R on pend ex fin w0)).
Proof.
  intros w' (w & -> & Hd & Hx & Hs). destruct (child_pid x) as [p|] eqn:Hp.
  - destruct (dropping_detach R on pend ex fin w0 w g x p Hd Hx Hs Hp) as (w1 & E & Hd' & Hn).
    rewrite (run_bind _ _ _ _ _ E). apply triple_kill. done.
  - by eapply dropping_delete.
Qed.

Lemma triple_destroy R on pend ex fin w0 g x :
  triple (deleted R on pend ex fin w0 g x) (destroy order g x) (fun _ => dropping R on pend ex fin w0) anyX.
Proof.
  pose proof (stable_dropping R on pend ex fin w0) as Hst. pose proof (triple_end_child R on pend ex fin w0 g x) as Hc. unfold destroy.
  eapply triple_bind with (R := fun _ => dropping R on pend ex fin w0); [|intros ?; eapply triple_any; by apply triple_unlock_files].
  assert (Hh : forall w', deleted R on pend ex fin w0 g x w' -> hook_of x = None).
  { intros w' (w & _ & (HI & _) & Hx & _). destruct HI. exact (i_hook g x Hx). }
  unfold child_pid in Hc. unfold hook_of in Hh. destruct (kind x) as [d|sg]; [|eapply triple_any; exact Hc].
  eapply triple_bind with (R := fun _ => dropping R on pend ex fin w0); [|intros ?; eapply triple_any; apply triple_quiet; [done|apply law_releaseUser]].
  eapply triple_try with (Y := okX (dropping R on pend ex fin w0)); [|intros e He; apply triple_ret; by intros w [_ ?]|by intros e w He [Hce _]; rewrite Hce in He].
  eapply triple_bind; [|intros ?; apply triple_quiet; [done|apply law_destroyBuilder]].
  intros w' Hw'. specialize (Hc w' Hw'). rewrite (Hh w' Hw'). unfold killChild.
  destruct (d_pid d) as [p|]; [|exact Hc]. unfold mbind at 1, M_bind at 1. by destruct ((_ ← childTerminated order p; worldly (w_kill p)) w').
Qed.

Lemma triple_drop R on pend ex fin w0 n : forall g,
  triple (dropping R on pend ex fin w0) (drop_ptr order n g) (fun _ => dropping R on pend ex fin w0) anyX.
Proof.
  induction n as [|n IH]; intros g w Hw; [done|]. cbn [drop_ptr]. rewrite run_gets. cbn [id].
  destruct (goals w !! g) as [x|] eqn:Hx; [|done]. destruct (strong w g) eqn:Hs; [done|]. rewrite run_modify.
  apply (triple_bind (deleted R on pend ex fin w0 g x) _ _ (fun _ => dropping R on pend ex fin w0)); [apply triple_destroy| |by exists w].
  intros ?. apply triple_forM. intros h _. apply IH.
Qed.

Lemma triple_drops R on pend ex fin w0 gs :
  triple (dropping R on pend ex fin w0) (drop_ptrs order gs) (fun _ => dropping R on pend ex fin w0) anyX.
Proof.
  eapply triple_bind with (R := fun _ => dropping R on pend ex fin w0); [by apply triple_gets|]. intros n. apply triple_forM. intros g _. apply triple_drop.
Qed.

(** [enter] and [leave] *)
Lemma INV_locals R on pend ex fin w l : (forall k, k ∈ l -> is_Some (goals w !! k)) ->
  INV R on pend ex fin w -> INV R on pend ex fin (with_locals l w).
Proof. intros Hl []. split; try assumption. Qed.

Lemma triple_leave R on pend ex fin g l w0 :
  triple (fun w => INV R on pend ex fin w /\ locals w = g :: l /\ (forall k, k ∈ ex -> k ∈ l) /\ shrinks w0 (with_locals l w)) (leave order g)
    (fun _ w => INV R on pend ex fin w /\ locals w = l /\ shrinks w0 w) anyX.
Proof.
  intros w (HI & Hl & He & Hs). unfold leave. rewrite run_modify. rewrite Hl. cbn [tail].
  assert (Hd : dropping R on pend ex fin (with_locals l w) (with_locals l w)).
  { split_and!; [|apply shrinks_refl|done]. apply INV_locals; [|done]. intros k Hk. destruct HI. apply i_locals. rewrite Hl. by right. }
  pose proof (triple_drops R on pend ex fin (with_locals l w) {[g]} _ Hd) as Ht. destruct (drop_ptrs order {[g]} (with_locals l w)) as [a w'|e w'|]; [|done..].
  destruct Ht as (HI' & Hs' & _). split_and!; [done| |by eapply shrinks_trans]. pose proof (sh_same _ _ Hs') as Es. injection Es as -> _ _ _ _ _. done.
Qed.

(** ** Telling a goal that waits *)

Lemma upds_run (F : Goal -> Goal) l : (forall z, F (F z) = F z) -> forall w, exists m,
  forM (fun h => upd h F) l w = Done tt (with_goals m w) /\ forall j, m !! j = (if bool_decide (j ∈ l) then F else id) <$> goals w !! j.
Proof.
  intros HF. induction l as [|h l IH]; intros w; cbn [forM].
  - exists (goals w). split; [by destruct w|]. intros j. rewrite bool_decide_false by apply not_elem_of_nil. by destruct (goals w !! j).
  - destruct (IH (with_goals (alter F h (goals w)) w)) as (m & E & Hm). exists m. split; [exact E|]. intros j. rewrite Hm. cbn. rewrite lookup_alter.
    case_decide; subst; repeat case_bool_decide; destruct (goals w !! _); cbn; rewrite ?HF; try done; set_solver.
Qed.

Definition count_failed (r : ExitCode) (x : Goal) : nat :=
  if bool_decide (r = ecFailed \/ r = ecNoSubstituters) then S (nrFailed x) else nrFailed x.
Definition count_none (r : ExitCode) (x : Goal) : nat := if bool_decide (r = ecNoSubstituters) then S (nrNoSubstituters x) else nrNoSubstituters x.
Definition gives_up (r : ExitCode) (ws : gset nat) : bool := bool_decide (ws = ∅) || (bool_decide (r = ecFailed) && negb (keepGoing cfg)).

Lemma waiteeDone_run k g r w x :
  goals w !! k = Some x -> g ∈ waitees x ->
  let ws := waitees x ∖ {[g]} in
  exists m, (forall j, m !! j = unlink k (gives_up r ws) ws (count_failed r x) (count_none r x) j <$> goals w !! j) /\
    waiteeDone cfg order k g r w = (if gives_up r ws then (_ ← drop_ptrs order ws; wakeUp k) (with_goals m w) else Done tt (with_goals m w)).
Proof.
  intros Hx Hg ws. unfold waiteeDone. rewrite (run_goal _ _ _ _ Hx). rewrite (bool_decide_true (g ∈ waitees x)) by done. unfold check. rewrite run_ret.
  cbv zeta. fold ws. fold (gives_up r ws). rewrite !run_upd.
  set (w1 := with_goals _ (with_goals _ w)).
  assert (H1 : forall j, goals w1 !! j = unlink k false ws (count_failed r x) (count_none r x) j <$> goals w !! j).
  { intros j. cbn. rewrite !lookup_alter. unfold unlink. cbn. destruct (decide (k = j)) as [<-|Hj].
    - by rewrite Hx, (bool_decide_true (k = k)), decide_True by done.
    - rewrite (bool_decide_false (j = k)) by done. destruct (goals w !! j) as [[]|]; done. }
  destruct (gives_up r ws); [|by exists (goals w1)].
  destruct (upds_run (fun y => with_waiters (waiters y ∖ {[k]}) y) (order ws) (fun z => ltac:(unfold with_waiters; cbn; f_equal; set_solver)) w1) as (m & E & Hm).
  exists (alter (with_waitees ∅) k m). split.
  - intros j. rewrite lookup_alter, !Hm, !H1. unfold unlink. cbn [andb].
    rewrite !(bool_decide_ext _ _ (elem_of_order _ ws)).
    destruct (decide (k = j)) as [<-|Hj].
    + rewrite (bool_decide_true (k = k)) by done. rewrite Hx. cbn. destruct (bool_decide (k ∈ ws)); done.
    + rewrite (bool_decide_false (j = k)) by done. destruct (goals w !! j) as [[]|]; [|done]. cbn. destruct (bool_decide (j ∈ ws)); done.
  - by rewrite (run_bind _ _ _ _ _ E), run_upd.
Qed.

(** The goals after [k] was told that [g] is done. *)
Record told (k g : nat) w w' : Prop := {
  td_same : (locals w', held w', topGoals w') = (locals w, held w, topGoals w);
  td_done : goals w' !! g = goals w !! g;
  td_goals j y' : goals w' !! j = Some y' -> exists y, goals w !! j = Some y /\ (j <> k -> waitees y' = waitees y) /\ (j = k -> g ∉ waitees y');
  td_V : V w ⊆ V w' }.

Lemma told_unlink k g w m c f n x :
  goals w !! k = Some x -> k <> g -> (forall j, m !! j = unlink k c (waitees x ∖ {[g]}) f n j <$> goals w !! j) -> told k g w (with_goals m w).
Proof.
  intros Hx Hkg Hm. split; cbn; [done| |..|done].
  - rewrite Hm. destruct (goals w !! g) as [z|]; [|done]. cbn. unfold unlink. rewrite (bool_decide_false (g = k)) by done.
    rewrite (bool_decide_false (g ∈ _)), andb_false_r; [by destruct z|]. rewrite elem_of_difference, elem_of_singleton. tauto.
  - intros j y' Hj. rewrite Hm in Hj. apply fmap_Some in Hj as (z & Hz & ->). exists z. split; [done|]. unfold unlink. split.
    + intros Hjk. by rewrite (bool_decide_false (j = k)).
    + intros ->. rewrite (bool_decide_true (k = k)) by done. cbn. destruct c; [apply not_elem_of_empty|].
      rewrite elem_of_difference, elem_of_singleton. tauto.
Qed.

Lemma told_shrinks k g w w1 w2 : told k g w w1 -> g ∈ locals w -> shrinks w1 w2 -> told k g w w2.
Proof.
  intros [A1 A2 A3 A4] Hg [B1 B2 B3 B4 B5 B6]. injection A1 as E1 E2 E3. injection B3 as F1 F2 F3 F4 F5 F6. split; [congruence| |eauto|by etrans].
  rewrite B2, A2; [done|]. left. by rewrite E1.
Qed.

Lemma needs_told R on pend w g xg k x n :
  INV R on pend ∅ (Some g) w -> goals w !! k = Some x -> exitCode x = ecBusy -> goals w !! g = Some xg -> exitCode xg = ecSuccess ->
  nrFailed x = 0%nat -> n ∈ needs x -> need_of n ∈ V w \/ exists h y, h ∈ waitees x ∖ {[g]} /\ goals w !! h = Some y /\ provides y n.
Proof.
  intros HI Hx Hb Hg He Hf Hn. destruct HI. destruct (i_needs k x n Hx Hb (not_elem_of_empty k) Hf Hn) as [?|(h & y & Hh & Hy & Hp)]; [by left|].
  destruct (decide (h = g)) as [->|]; [left|right; exists h, y; split_and!; [|done..]; by apply elem_of_difference; split; [|rewrite elem_of_singleton]].
  assert (y = xg) as -> by congruence. destruct (i_fin g xg Hg ltac:(congruence)) as (_ & _ & _ & Hd & _). specialize (Hd He).
  unfold done_ok in Hd. unfold provides in Hp. destruct (kind xg), n; cbn; naive_solver.
Qed.

Lemma waiteeDone_spec R on pend g xg k x w r :
  INV R on pend ∅ (Some g) w -> goals w !! k = Some x -> g ∈ waitees x -> k ∈ locals w -> g ∈ locals w ->
  goals w !! g = Some xg -> exitCode xg = r -> r <> ecBusy ->
  match waiteeDone cfg order k g r w with
  | Done _ w' => INV R on pend ∅ (Some g) w' /\ told k g w w'
  | Raised e w' => anyX e w'
  | Stuck => True
  end.
Proof.
  intros HI Hx Hg Hk Hgl Hxg Hr Hrb. destruct (waiteeDone_run k g r w x Hx Hg) as (m & Hm & E). rewrite E. clear E.
  set (ws := waitees x ∖ {[g]}) in *. set (w1 := with_goals m w). set (x1 := unlink k (gives_up r ws) ws (count_failed r x) (count_none r x) k x).
  assert (Hne : waitees x <> ∅) by (intros Ee; rewrite Ee in Hg; by apply not_elem_of_empty in Hg).
  assert (Hb : exitCode x = ecBusy).
  { destruct (decide (exitCode x = ecBusy)); [done|]. destruct HI. by destruct (i_fin k x Hx n). }
  assert (Hc : child_pid x = None).
  { destruct (child_pid x) as [p|] eqn:Hp; [|done]. destruct HI. by destruct (i_run k x p Hx Hp (not_elem_of_empty k)). }
  assert (Hq : ~ inq pend w k) by (intros Hq; destruct HI; by destruct (Hne (i_inq k x Hx Hq))).
  assert (Hkg : k <> g) by (intros ->; congruence).
  pose proof (INV_unlink cfg R on pend g w k x (gives_up r ws) _ _ m Hx Hg Hm HI) as I1. fold w1 in I1.
  pose proof (told_unlink k g w m _ _ _ x Hx Hkg Hm) as Ht. fold w1 in Ht.
  assert (Hx1 : goals w1 !! k = Some x1) by (cbn; by rewrite Hm, Hx).
  assert (Ek : exitCode x1 = ecBusy /\ kind x1 = kind x /\ locks x1 = locks x /\ nrFailed x1 = count_failed r x /\ waitees x1 = if gives_up r ws then ∅ else ws).
  { unfold x1, unlink. by rewrite (bool_decide_true (k = k)) by done. }
  destruct Ek as (Eb & Ekind & El & Ef & Ew).
  assert (Hst : st_ok (V w) x1).
  { destruct HI. pose proof (i_st k x Hx Hb (not_elem_of_empty k)) as H1. unfold st_ok in *. by rewrite Ekind, El. }
  assert (Hnd : nrFailed x1 = 0%nat -> forall n, n ∈ needs x1 -> need_of n ∈ V w \/ exists h y, h ∈ ws /\ goals w !! h = Some y /\ provides y n).
  { intros Hf n Hn. unfold needs in Hn. rewrite Ekind in Hn. fold (needs x) in Hn. rewrite Ef in Hf. unfold count_failed in Hf. case_bool_decide; [lia|].
    assert (r = ecSuccess) by (destruct r; naive_solver). subst r. by eapply needs_told. }
  assert (Hch : forall p, child_pid x1 <> Some p) by (intros p; unfold child_pid in *; rewrite Ekind, Hc; done).
  destruct (gives_up r ws) eqn:Hu.
  - pose proof (triple_drops R on pend {[k]} (Some g) w1 ws) as Hd. specialize (Hd w1). unfold mbind, M_bind.
    assert (dropping R on pend {[k]} (Some g) w1 w1) as Hd0 by (split_and!; [done|apply shrinks_refl|by intros j ->%elem_of_singleton]).
    specialize (Hd Hd0). destruct (drop_ptrs order ws w1) as [a w2|e w2|]; [|done..]. destruct Hd as (I2 & Hs & _).
    assert (Hx2 : goals w2 !! k = Some x1) by (destruct Hs as [_ B2 _ _ _ _]; rewrite B2; [done|by left]).
    assert (Hq2 : ~ inq pend w2 k) by (intros H2; by apply Hq, (sh_inq _ _ Hs)).
    assert (Hempty : nrFailed x1 = 0%nat -> ws = ∅).
    { intros Hf. rewrite Ef in Hf. unfold count_failed in Hf. unfold gives_up in Hu. case_bool_decide; [lia|]. apply orb_true_iff in Hu as [Hu|[Hu _]%andb_true_iff];
        apply bool_decide_eq_true in Hu; [done|]. naive_solver. }
    cbn [wakeUp modify]. split; [|by destruct (told_shrinks k g w w1 w2 Ht Hgl Hs); split].
    apply INV_queue with (g := k) (x := x1); [done|done|done|by rewrite union_empty_r_L| | | | | | |].
    + intros j Hj. rewrite elem_of_union, elem_of_singleton. tauto.
    + destruct I2. unfold disj, inq, asleep in *. cbn. clear -i_disj Hq2. set_solver.
    + left. cbn. by apply elem_of_union_l, elem_of_singleton.
    + by destruct I2.
    + eapply st_ok_mono; [|exact Hst]. exact (sh_V _ _ Hs).
    + intros Hf n Hn. left. destruct (Hnd Hf n Hn) as [?|(h & y & Hh & _)]; [exact (sh_V _ _ Hs _ H)|]. rewrite (Hempty Hf) in Hh. by apply not_elem_of_empty in Hh.
    + intros p Hp. by destruct (Hch p).
  - split; [|done]. rewrite <- (union_empty_r_L {[k]}) in I1.
    apply (INV_close cfg R on pend ∅ (Some g) w1 k x1 Hx1 I1).
    + intros _. right; left. rewrite Ew. unfold gives_up in Hu. apply orb_false_iff in Hu as [Hu _]. by apply bool_decide_eq_false in Hu.
    + intros _. split; [done|]. intros Hf n Hn. destruct (Hnd Hf n Hn) as [?|(h & y & Hh & Hy & Hp)]; [by left|right].
      exists h, (unlink k false ws (count_failed r x) (count_none r x) h y). rewrite Ew. split_and!; [done|cbn; by rewrite Hm, Hy|].
      eapply later_provides; [apply unlink_later|done].
    + intros p Hp. by destruct (Hch p).
Qed.

(** ** A goal is done *)

(** The loop over those that wait for [g]. *)
Definition telling R on pend (g : nat) (xg : Goal) (w0 : WK) (rest : list nat) w : Prop :=
  INV R on pend ∅ (Some g) w /\ (locals w, held w, topGoals w) = (locals w0, held w0, topGoals w0) /\ goals w !! g = Some xg /\ V w0 ⊆ V w /\
  (forall j y, goals w !! j = Some y -> g ∈ waitees y <-> j ∈ rest).

Lemma told_telling R on pend g xg w0 k rest w w' l :
  NoDup (k :: rest) -> telling R on pend g xg w0 (k :: rest) w -> told k g (with_locals l w) w' -> INV R on pend ∅ (Some g) w' -> locals w' = locals w0 ->
  telling R on pend g xg w0 rest w'.
Proof.
  intros Hnd (H1 & H2 & H3 & H4 & H5) [A1 A2 A3 A4] HI Hl. cbn in *. injection A1 as E1 E2 E3. injection H2 as F1 F2 F3. apply NoDup_cons in Hnd as [Hk _].
  split_and!; [done|by rewrite Hl, E2, E3, F2, F3|by rewrite A2|by etrans|].
  intros j y' Hy. destruct (A3 j y' Hy) as (y & Hj & Hne & He). destruct (decide (j = k)) as [->|Hjk].
  - split; [|done]. intros Hg. by destruct (He eq_refl).
  - rewrite (Hne Hjk), (H5 j y Hj), elem_of_cons. naive_solver.
Qed.

Lemma tell_all R on pend g xg w0 r rest : g ∈ locals w0 -> exitCode xg = r -> r <> ecBusy -> NoDup rest ->
  triple (telling R on pend g xg w0 rest)
    (forM (fun h => o ← lock_ptr h;
       match o with Some _ => _ ← enter h; _ ← waiteeDone cfg order h g r; leave order h | None => mret tt end) rest)
    (fun _ => telling R on pend g xg w0 []) anyX.
Proof.
  intros Hg Hr Hrb. induction rest as [|k rest IH]; intros Hnd; cbn [forM]; [by apply triple_ret|].
  apply triple_bind with (R := fun _ => telling R on pend g xg w0 rest); [|intros ?; apply IH; by apply NoDup_cons in Hnd as [_ ?]].
  intros w Hw. unfold lock_ptr. rewrite run_gets. assert (Hw' := Hw). destruct Hw' as (HI & Hs & Hxg & Hv & Hj). destruct (goals w !! k) as [x|] eqn:Hx.
  - unfold enter. rewrite run_modify. set (w1 := with_locals (k :: locals w) w). injection Hs as E1 E2 E3.
    assert (I1 : INV R on pend ∅ (Some g) w1).
    { apply INV_locals; [|done]. intros j [->|Hj']%elem_of_cons; [by eexists|]. destruct HI. eauto. }
    assert (Hgw : g ∈ waitees x) by (apply (Hj k x Hx); by left).
    pose proof (waiteeDone_spec R on pend g xg k x w1 r I1 Hx Hgw (list_elem_of_here _ _) (list_elem_of_further _ _ _ (eq_ind_r _ Hg E1)) Hxg Hr Hrb) as Hd.
    unfold mbind at 1, M_bind at 1. destruct (waiteeDone cfg order k g r w1) as [a w2|e w2|]; [|done..]. destruct Hd as [I2 Ht].
    assert (El : locals w2 = k :: locals w) by (destruct Ht as [A1 _ _ _]; by injection A1).
    pose proof (triple_leave R on pend ∅ (Some g) k (locals w) (with_locals (locals w) w2) w2
      (conj I2 (conj El (conj (fun j Hj' => False_ind _ (not_elem_of_empty j Hj')) (shrinks_refl _))))) as Hl.
    destruct (leave order k w2) as [b w3|e w3|]; [|done..]. destruct Hl as (I3 & El3 & Hs3).
    apply (told_telling R on pend g xg w0 k rest w w3 (locals w) Hnd Hw); [|done|congruence].
    apply (told_shrinks k g _ (with_locals (locals w) w2)); [|cbn; by rewrite E1|done]. by destruct Ht as [A1 A2 A3 A4]; injection A1 as F1 F2 F3; split; cbn; [congruence|..].
  - split_and!; [done..|]. intros j y Hy. rewrite (Hj j y Hy), elem_of_cons. split; [|naive_solver]. intros [->|?]; [congruence|done].
Qed.

Lemma remove_from_lookup (g : nat) (m : gmap str nat) (p : str) (k : nat) : remove_from g m !! p = Some k -> m !! p = Some k /\ k <> g.
Proof. unfold remove_from. by rewrite map_lookup_filter_Some. Qed.

Lemma INV_wake_any R on pend ex fin w a : INV R on pend ex fin w ->
  (forall k, k ∈ a <-> k ∈ awake w \/ (k ∈ waitingForAnyGoal w /\ is_Some (goals w !! k))) ->
  INV R on pend ex fin (with_any ∅ (with_awake a w)).
Proof.
  intros HI Ha. apply (INV_wake cfg R on pend ex fin w a (wantingToBuild w) ∅ (waitingForAWhile w)); [..|done|done].
  - intros k. unfold inq, asleep. cbn. rewrite Ha. clear. set_solver.
  - intros k. unfold asleep. cbn. clear. set_solver.
  - intros k y Hy. unfold inq, asleep. cbn. rewrite Ha. assert (is_Some (goals w !! k)) by (by eexists). tauto.
  - destruct HI. unfold disj in *. cbn. assert (Ha' : forall k, k ∈ a -> k ∈ awake w \/ k ∈ waitingForAnyGoal w) by (intros k Hk; apply Ha in Hk; tauto).
    clear -i_disj Ha'. destruct i_disj as (D1 & D2 & D3 & D4 & D5 & D6 & D7 & D8 & D9 & D10). split_and!; set_solver.
Qed.

Lemma removeGoal_spec R on pend g x w :
  INV R on pend ∅ (Some g) w -> goals w !! g = Some x -> exitCode x <> ecBusy -> (forall k y, goals w !! k = Some y -> g ∉ waitees y) ->
  exists w', removeGoal cfg order g (with_goals (alter (with_waiters ∅) g (goals w)) w) = Done tt w' /\ INV R on pend ∅ None w' /\
    locals w' = locals w /\ V w' = V w.
Proof.
  intros HI Hx Hb Hw. rewrite (alter_present _ _ _ _ Hx). set (x' := with_waiters ∅ x).
  unfold removeGoal. rewrite run_modify, (run_goal g x') by (cbn; by rewrite lookup_insert, decide_True). rewrite run_gets. cbn -[x' remove_from].
  set (t := if bool_decide (g ∈ topGoals w) then (if bool_decide (exitCode x = ecFailed) && negb (keepGoing cfg) then ∅ else topGoals w ∖ {[g]}) else topGoals w).
  set (w1 := with_top t (with_maps (remove_from g (derivationGoals w)) (remove_from g (substitutionGoals w)) (with_goals (<[g := x']> (goals w)) w))).
  assert (I1 : INV R on pend ∅ None w1).
  { apply INV_forget; [done..| | | | | |done].
    - intros p k. apply remove_from_lookup.
    - intros p k. apply remove_from_lookup.
    - unfold t. clear. case_bool_decide; [|done]. destruct (_ && _); set_solver.
    - unfold t. clear. case_bool_decide; [|done]. destruct (_ && _); set_solver.
    - intros k Hk Hkg. unfold t. case_bool_decide; [|by left]. destruct (bool_decide (exitCode x = ecFailed)) eqn:Ef; cbn.
      + right. split; [done|]. by apply bool_decide_eq_true in Ef.
      + left. by apply elem_of_difference; split; [|rewrite elem_of_singleton]. }
  destruct (wake_run (order (waitingForAnyGoal w)) w1) as (a & E & Ha).
  exists (with_any ∅ (with_awake a w1)). split_and!; [|apply INV_wake_any; [done|]|done|done].
  - unfold t in w1. match goal with |- (?m ≫= ?f) ?s = _ => assert (Em : m s = Done tt w1) end.
    { unfold w1. case_bool_decide; [done|]. by destruct w. }
    rewrite (run_bind _ _ _ _ _ Em), run_gets. change (waitingForAnyGoal w1) with (waitingForAnyGoal w). by rewrite (run_bind _ _ _ _ _ E).
  - intros k. rewrite Ha. by rewrite elem_of_order.
Qed.

Lemma amDone_spec R on pend g x r w :
  INV R on pend {[g]} None w -> goals w !! g = Some x -> exitCode x = ecBusy -> waitees x = ∅ -> child_pid x = None -> ~ inq pend w g ->
  r <> ecBusy -> (r = ecSuccess -> done_ok (V w) x) -> (r = ecNoSubstituters -> exists s, kind x = KSub s) -> g ∈ locals w ->
  match amDone cfg order g r w with
  | Done _ w' => INV R on pend ∅ None w' /\ locals w' = locals w
  | Raised e w' => anyX e w'
  | Stuck => True
  end.
Proof.
  intros HI Hx Hb Hw Hc Hq Hr Hd Hns Hl. unfold amDone. rewrite (run_goal _ _ _ _ Hx). rewrite (bool_decide_true (exitCode x = ecBusy)) by done.
  rewrite (bool_decide_false (r = ecBusy)) by done. unfold check. cbn [negb]. rewrite !run_ret, run_upd, (alter_present _ _ _ _ Hx).
  set (x1 := with_exit r x). set (w1 := with_goals _ w).
  pose proof (INV_exit cfg R on pend w g x r Hx Hb Hw Hc Hq Hr Hd Hns HI) as I1. fold x1 w1 in I1.
  assert (Hx1 : goals w1 !! g = Some x1) by (cbn; by rewrite lookup_insert, decide_True).
  assert (Ht : telling R on pend g x1 w1 (order (waiters x)) w1).
  { split_and!; [done|done|done|done|]. intros j y Hy. rewrite elem_of_order. split.
    - intros Hg. destruct I1. destruct (i_waitees j y g Hy Hg) as (z & Hz & _ & Hj). rewrite Hx1 in Hz. by injection Hz as <-.
    - intros Hj. cbn in Hy. apply lookup_put in Hy as [[-> ->]|[Hjg Hy]].
      + destruct HI. cbn. by apply (i_waiters g x g x Hx Hj Hx).
      + destruct HI. by apply (i_waiters j y g x Hx Hj Hy). }
  pose proof (tell_all R on pend g x1 w1 r (order (waiters x)) Hl eq_refl Hr (NoDup_order _) w1 Ht) as Hf.
  unfold mbind at 1, M_bind at 1. destruct (forM _ (order (waiters x)) w1) as [a w2|e w2|]; [|done..].
  destruct Hf as (I2 & Es & Hx2 & Hv & Hj). injection Es as El _ _. rewrite run_upd.
  destruct (removeGoal_spec R on pend g x1 w2 I2 Hx2 Hr) as (w3 & E3 & I3 & El3 & _).
  { intros k y Hy Hg. apply (Hj k y Hy) in Hg. by apply not_elem_of_nil in Hg. }
  rewrite E3. split; [done|congruence].
Qed.
End Hoare.
