(* ===== verification/GoalWork.v ===== *)
(** * A goal at work

    [at_work g x Φ]: the goal [g], in the state [x], is working; it is in no set, and [Φ] holds
    of the valid paths and the number of builds.  Rules for what a goal does on its way from being woken up to
    waiting for something or being done, after which the invariant holds without an
    exception. *)

From Stdlib Require Import ZArith Lia Ascii.
From stdpp Require Import base strings sorting numbers gmap sets list.
From S2P Require Import Prelude Effects Util Hash StorePath Derivations Wire Globals GoalData Goals GoalInv GoalSteps GoalHoare.

(** What a goal keeps while it makes others to wait for. *)
Record grown (x x' : Goal) : Prop := {
  gr_exit : exitCode x' = exitCode x; gr_link : link x' = link x; gr_hook : hook_of x' = hook_of x;
  gr_locks : locks x' = locks x; gr_failed : nrFailed x' = nrFailed x; gr_later : later x x';
  gr_kind : match kind x, kind x' with
            | KDrv d, KDrv d' => g_drv d' = g_drv d /\ d_state d' = d_state d /\ (wantedOutputs d = ∅ -> d' = d) /\ d_repair d' = d_repair d
            | KSub s, KSub s' => s' = s
            | _, _ => False
            end }.

Lemma gr_child x x' : grown x x' -> child_pid x' = child_pid x.
Proof. intros G. apply link_child, G. Qed.
Lemma grown_refl x : grown x x.
Proof. split; auto. by destruct (kind x). Qed.
Lemma grown_trans x y z : grown x y -> grown y z -> grown x z.
Proof.
  intros [A1 A2 A3 A4 A5 A6 A7] [B1 B2 B3 B4 B5 B6 B7]. split; [congruence..|by eapply later_trans|].
  destruct (kind x) as [d|s], (kind y) as [d'|s'], (kind z) as [d''|s'']; try done; [|congruence].
  destruct A7 as (? & ? & Hw & ?), B7 as (? & ? & Hw' & ?). split_and!; [congruence..| |congruence].
  intros E. rewrite <- (Hw E). apply Hw'. by rewrite (Hw E).
Qed.

Lemma covers_add outs outs' d : covers (wantedOutputs d) outs -> covers (wantedOutputs (addWantedOutputs outs' d)) outs.
Proof.
  unfold covers, addWantedOutputs. intros H. destruct (bool_decide (wantedOutputs d = ∅)) eqn:E; [done|]. apply bool_decide_eq_false in E.
  destruct (bool_decide (outs' = ∅)); [by left|]. destruct (bool_decide (outs' ⊆ wantedOutputs d)); [done|]. cbn. right. naive_solver set_solver.
Qed.
Lemma covers_add_self outs d : covers (wantedOutputs (addWantedOutputs outs d)) outs.
Proof.
  unfold covers, addWantedOutputs. destruct (bool_decide (wantedOutputs d = ∅)) eqn:E; [left; by apply bool_decide_eq_true in E|].
  destruct (bool_decide (outs = ∅)) eqn:E2; [by left|]. apply bool_decide_eq_false in E2. right. split; [done|].
  destruct (bool_decide (outs ⊆ wantedOutputs d)) eqn:E3; [by apply bool_decide_eq_true in E3|]. cbn. set_solver.
Qed.
Lemma addWanted_same outs d : let d' := addWantedOutputs outs d in
  drvPath d' = drvPath d /\ g_drv d' = g_drv d /\ d_state d' = d_state d /\ d_pid d' = d_pid d /\ d_hook d' = d_hook d /\ d_repair d' = d_repair d /\
  (wantedOutputs d = ∅ -> d' = d).
Proof.
  unfold addWantedOutputs. destruct (bool_decide (wantedOutputs d = ∅)) eqn:E; [done|]. apply bool_decide_eq_false in E.
  destruct (bool_decide (outs = ∅)), (bool_decide (outs ⊆ wantedOutputs d)); cbn; split_and!; done.
Qed.

Lemma addWanted_grown outs x : grown x (on_drv (addWantedOutputs outs) x) /\ tame x (on_drv (addWantedOutputs outs) x).
Proof.
  unfold on_drv. destruct (kind x) as [d|s] eqn:E.
  - destruct (addWanted_same outs d) as (E1 & E2 & E3 & E4 & E5 & E6 & E7).
    assert (later x (with_kind (KDrv (addWantedOutputs outs d)) x)) by (unfold later; rewrite E; cbn; auto using covers_add).
    split; split; cbn; try done; unfold link, hook_of; rewrite ?E; cbn; auto. by rewrite E4.
  - split; [apply grown_refl|]. by split.
Qed.

Section Work.
Context {St : Type} `{WO : World St} {WL : WorldLaws St} (cfg : Settings) (order : gset nat -> list nat).
Context (order_perm : forall X, order X ≡ₚ elements X).
Abbreviation WK := (Worker St).
Implicit Types w : WK.
Implicit Types x : Goal.
Implicit Types N : list need.
Implicit Types Φ : gset str -> Z -> Prop.
Local Abbreviation INV := (INV cfg).

Definition up (Φ : gset str -> Z -> Prop) : Prop := forall v v' n, v ⊆ v' -> Φ v n -> Φ v' n.

Section Goal.
Context (R : list (nat * Req)) (on : bool) (pend : gset nat) (g : nat).

Definition at_work (x : Goal) (Φ : gset str -> Z -> Prop) w : Prop :=
  INV R on pend {[g]} None w /\ ~ inq pend w g /\ locals w = [g] /\ goals w !! g = Some x /\ exitCode x = ecBusy /\ Φ (V w) (nrLocalBuilds w).
Definition rested w : Prop := INV R on pend ∅ None w /\ locals w = [g].

Lemma stable_at x Φ : up Φ -> stable (at_work x Φ).
Proof.
  intros HΦ w w' E (H1 & H2 & H3 & H4 & H5 & H6). assert (E' := E). destruct E' as (Ec & Hv & _). unfold core in Ec.
  injection Ec as E1 _ _ E4 _ E6 E7 E8 E9 _ E11 _ _. split_and!; [by eapply stable_INV| |congruence|congruence|done|rewrite E11; by eapply HΦ].
  unfold inq, asleep in *. by rewrite E6, E7, E8, E9.
Qed.

Lemma at_keeps {A} x Φ (m : M St A) Q : up Φ -> keeps wv wprocs m Q ->
  triple (at_work x Φ) (worldly m) (fun a w => at_work x Φ w /\ Q a (world w)) (okX (at_work x Φ)).
Proof. intros HΦ Hm. apply triple_worldly; [by apply stable_at|done]. Qed.
Lemma at_quiet {A} x Φ (m : M St A) Q : up Φ -> keeps wv wprocs m Q -> triple (at_work x Φ) (worldly m) (fun _ => at_work x Φ) (okX (at_work x Φ)).
Proof. intros HΦ Hm. apply triple_quiet; [by apply stable_at|by eapply keeps_quiet]. Qed.

Lemma at_deref x Φ (X : exn -> WK -> Prop) : triple (at_work x Φ) (deref g) (fun a w => at_work x Φ w /\ a = x) X.
Proof. intros w Hw. unfold deref, lock_ptr. rewrite run_gets. assert (Hw' := Hw). destruct Hw' as (_ & _ & _ & -> & _). done. Qed.
Lemma at_get_drv x d Φ (X : exn -> WK -> Prop) : kind x = KDrv d -> triple (at_work x Φ) (get_drv g) (fun a w => at_work x Φ w /\ a = d) X.
Proof. intros E w Hw. unfold get_drv. erewrite run_goal by apply Hw. by rewrite E. Qed.
Lemma at_get_sub x s Φ (X : exn -> WK -> Prop) : kind x = KSub s -> triple (at_work x Φ) (get_sub g) (fun a w => at_work x Φ w /\ a = s) X.
Proof. intros E w Hw. unfold get_sub. erewrite run_goal by apply Hw. by rewrite E. Qed.

(** Nothing else points to a child of the goal, when it has none. *)
Lemma no_child w (x : Goal) : INV R on pend {[g]} None w -> goals w !! g = Some x -> child_pid x = None -> forall p c, children w !! p = Some c -> c_goal c <> g.
Proof. intros HI Hx Hc p c Hp Hcg. destruct HI. destruct (i_child p c Hp) as (_ & y & Hy & Hyp & _). congruence. Qed.

Lemma at_upd x Φ F (X : exn -> WK -> Prop) : tame x (F x) -> (link (F x) = link x \/ child_pid x = None) ->
  triple (at_work x Φ) (upd g F) (fun _ => at_work (F x) Φ) X.
Proof.
  intros Ht Hc w (H1 & H2 & H3 & H4 & H5 & H6). cbn. rewrite (alter_present _ _ _ _ H4).
  split_and!; [|done|done|cbn; by rewrite lookup_insert, decide_True|by rewrite (t_exit _ _ Ht)|done].
  apply INV_put with (x := x); [done..| |by intros []; apply elem_of_singleton|done]. destruct Hc as [?|Hc]; [by left|right].
  split; [by apply elem_of_singleton|]. by eapply no_child.
Qed.

Lemma at_misc x Φ f (X : exn -> WK -> Prop) : up Φ -> (forall w, ext w (f w)) -> triple (at_work x Φ) (modify f) (fun _ => at_work x Φ) X.
Proof. intros HΦ Hf. apply triple_misc; [by apply stable_at|done]. Qed.

Lemma at_weaken x (Φ Ψ : gset str -> Z -> Prop) w : (forall v n, Φ v n -> Ψ v n) -> at_work x Φ w -> at_work x Ψ w.
Proof. intros H (H1 & H2 & H3 & H4 & H5 & H6). split_and!; auto. Qed.

(** ** Making goals to wait for *)

Definition laters w w' : Prop := forall j y, goals w !! j = Some y -> exists y', goals w' !! j = Some y' /\ later y y'.

Lemma met_laters w w' (z z' : Goal) n : laters w w' -> V w ⊆ V w' -> waitees z ⊆ waitees z' -> met w z n -> met w' z' n.
Proof.
  intros Hl Hv Hz [Hn|(h & y & Hh & Hy & Hp)]; [left; exact (Hv _ Hn)|right]. destruct (Hl h y Hy) as (y' & Hy' & Hl'). exists h, y'. split_and!; eauto.
Qed.

Lemma find_goal_Some (m : gmap str nat) p w h : find_goal m p w = Some h -> m !! p = Some h /\ is_Some (goals w !! h).
Proof.
  unfold find_goal. destruct (m !! p) as [k|] eqn:E; [|done]. cbn. destruct (goals w !! k) as [y|] eqn:Ey; [|done]. cbn. intros [= ->]. split; [done|by eexists].
Qed.

Lemma at_new x Φ w K d s : at_work x Φ w ->
  let k := nextGoal w in let y := new_goal K in
  child_pid y = None -> hook_of y = None -> needs y = [] -> st_ok (V w) y ->
  (forall p h, d !! p = Some h -> derivationGoals w !! p = Some h \/ (h = k /\ provides y (NDrv p))) ->
  (forall p h, s !! p = Some h -> substitutionGoals w !! p = Some h \/ (h = k /\ provides y (NSub p))) ->
  let w' := with_awake ({[k]} ∪ awake w) (with_maps d s (with_new k y w)) in
  at_work x Φ w' /\ laters w w' /\ goals w' !! k = Some y.
Proof.
  intros (H1 & H2 & H3 & H4 & H5 & H6) k y Hc Hh Hn Hs Hd Hsm w'.
  assert (Hk : goals w !! k = None) by (destruct (goals w !! k) eqn:E; [|done]; destruct H1; apply i_fresh in E; unfold k in E; lia).
  assert (Hgk : g <> k) by (intros ->; congruence).
  assert (I' : INV R on pend {[g]} None w') by (by apply INV_new).
  split_and!; [split_and!|..]; [done| |done|cbn; by rewrite lookup_insert_ne|done|done| |cbn; by rewrite lookup_insert, decide_True].
  - unfold inq, asleep in *. cbn. rewrite elem_of_union, elem_of_singleton. tauto.
  - intros j z Hz. exists z. split; [|apply later_refl]. cbn. rewrite lookup_insert_ne; [done|]. congruence.
Qed.

Lemma make_sub_run x Φ p rep w : at_work x Φ w -> exists h w' y,
  makeSubstitutionGoal p rep w = Done h w' /\ at_work x Φ w' /\ laters w w' /\ goals w' !! h = Some y /\ exitCode y = ecBusy /\ provides y (NSub p).
Proof.
  intros Hw. unfold makeSubstitutionGoal. rewrite run_gets. destruct (find_goal (substitutionGoals w) p w) as [h|] eqn:E.
  - apply find_goal_Some in E as [E [y Hy]]. exists h, w, y. assert (Hw' := Hw). destruct Hw' as (H1 & _). destruct H1.
    destruct (i_smap p h E) as [_ Hp]. destruct (Hp y Hy) as [[?|?] ?]; [|done]. split_and!; try done. intros j z Hz. eauto.
  - set (d := mkSGoal p [] [] false (mkSubstInfo [] ∅ 0 0) None 0 rep [] s_init).
    destruct (at_new x Φ w (KSub d) (derivationGoals w) (<[p := nextGoal w]> (substitutionGoals w)) Hw) as (Ha & Hl & Hg); [done|done|done| |by auto| |].
    + cbn. split; [done|by intros [? ?]].
    + intros q h Hq. apply lookup_insert_Some in Hq as [[<- <-]|[_ ?]]; [by right|by left].
    + exists (nextGoal w), (with_awake ({[nextGoal w]} ∪ awake w) (with_maps (derivationGoals w) (<[p := nextGoal w]> (substitutionGoals w)) (with_new (nextGoal w) (new_goal (KSub d)) w))), (new_goal (KSub d)). done.
Qed.

Lemma grown_st v x x' : grown x x' -> st_ok v x -> st_ok v x'.
Proof.
  intros [_ A2%link_child _ A4 _ A6 A7]. unfold st_ok, later, child_pid in *. destruct (kind x) as [d|sg], (kind x') as [d'|sg']; try done; [|by subst].
  destruct A7 as (B1 & B2 & B3 & _), A6 as [B0 _]. intros (C1 & C2 & C3). unfold loaded, outputs_valid in *. rewrite A2, A4, B0, B1, B2. split_and!; [done..|].
  destruct (d_state d); try done; destruct C3 as [C3 C4]; (split; [done|by rewrite (B3 C4)]).
Qed.
Lemma grown_needs x x' : grown x x' -> needs x' = needs x.
Proof.
  intros [_ _ _ _ _ A6 A7]. unfold needs, later in *. destruct (kind x) as [d|sg], (kind x') as [d'|sg']; try done; [|by subst].
  destruct A7 as (B1 & B2 & _ & _), A6 as [B0 _]. by rewrite B0, B1, B2.
Qed.

Lemma at_addWanted x Φ w h y outs : at_work x Φ w -> goals w !! h = Some y -> exitCode y = ecBusy ->
  let w' := with_goals (alter (on_drv (addWantedOutputs outs)) h (goals w)) w in
  (exists x', at_work x' Φ w' /\ grown x x' /\ waitees x' = waitees x) /\ laters w w' /\ goals w' !! h = Some (on_drv (addWantedOutputs outs) y).
Proof.
  intros (H1 & H2 & H3 & H4 & H5 & H6) Hy Hb w'. destruct (addWanted_grown outs y) as [Gr Ta]. set (y' := on_drv (addWantedOutputs outs) y) in *.
  assert (Ew : w' = with_goals (<[h := y']> (goals w)) w) by (unfold w'; by rewrite (alter_present _ _ _ _ Hy)).
  assert (I' : INV R on pend {[g]} None w').
  { rewrite Ew. apply INV_put with (x := y); [done..|by left; apply Gr| |done]. intros Hg. destruct H1. split; [eapply grown_st; eauto|].
    rewrite (grown_needs _ _ Gr), (gr_failed _ _ Gr). intros Hf n Hn. destruct (i_needs h y n Hy Hb Hg Hf Hn) as [?|?]; [by left|right].
    by rewrite (t_waitees _ _ Ta). }
  split_and!.
  - rewrite Ew in I' |- *. destruct (decide (h = g)) as [->|Hne].
    + assert (y = x) as -> by congruence. exists y'. split; [|split; [done|apply Ta]].
      split_and!; [done|done|done|cbn; by rewrite lookup_insert, decide_True|by rewrite (t_exit _ _ Ta)|done].
    + exists x. split; [|split; [apply grown_refl|done]]. split_and!; [done|done|done|cbn; by rewrite lookup_insert_ne|done|done].
  - intros j z Hz. rewrite Ew. destruct (put_present (goals w) h y y' j z Hy Hz) as (z' & E & [(-> & -> & ->)|[_ ->]]); eauto. exists y'. split; [done|apply Ta].
  - rewrite Ew. cbn. by rewrite lookup_insert, decide_True.
Qed.

Lemma make_drv_run x Φ p outs rep w : at_work x Φ w -> exists h w' y x',
  makeDerivationGoal p outs rep w = Done h w' /\ at_work x' Φ w' /\ grown x x' /\ waitees x' = waitees x /\ laters w w' /\
  goals w' !! h = Some y /\ exitCode y = ecBusy /\ provides y (NDrv p).
Proof.
  intros Hw. unfold makeDerivationGoal. rewrite run_gets. destruct (find_goal (derivationGoals w) p w) as [h|] eqn:E.
  - apply find_goal_Some in E as [E [y Hy]]. assert (Hw' := Hw). destruct Hw' as (H1 & _). destruct H1.
    destruct (i_dmap p h E) as [_ Hp]. destruct (Hp y Hy) as [[Hb|?] Hpr]; [|done].
    destruct (at_addWanted x Φ w h y outs Hw Hy Hb) as ((x' & Ha & Hg & Hx) & Hl & Hh). destruct (addWanted_grown outs y) as [Gr Ta].
    exists h, (with_goals (alter (on_drv (addWantedOutputs outs)) h (goals w)) w), (on_drv (addWantedOutputs outs) y), x'.
    split_and!; [by rewrite run_upd|done|done|done|done|done|by rewrite (gr_exit _ _ Gr)|by eapply later_provides; [apply Gr|]].
  - set (d := mkDGoal p outs false empty_drv ∅ ∅ ∅ None None false d_init rep).
    destruct (at_new x Φ w (KDrv d) (<[p := nextGoal w]> (derivationGoals w)) (substitutionGoals w) Hw) as (Ha & Hl & Hg); [done|done|done| | |by auto|].
    + cbn. split_and!; [split; [done|by intros [? ?]]|done|done].
    + intros q h Hq. apply lookup_insert_Some in Hq as [[<- <-]|[_ ?]]; [by right|by left].
    + exists (nextGoal w), (with_awake ({[nextGoal w]} ∪ awake w) (with_maps (<[p := nextGoal w]> (derivationGoals w)) (substitutionGoals w) (with_new (nextGoal w) (new_goal (KDrv d)) w))), (new_goal (KDrv d)), x.
      split_and!; try done. apply grown_refl.
Qed.

(** Waiting for some goals: all of [N] are met by them. *)
Definition waiting (x : Goal) (N : list need) (Φ : gset str -> Z -> Prop) w : Prop := exists x',
  grown x x' /\ at_work x' Φ w /\ (forall n, n ∈ N -> met w x' n) /\ (N <> [] -> waitees x' <> ∅).

Lemma add_edge_spec x Φ w h y : at_work x Φ w -> child_pid x = None -> goals w !! h = Some y -> exitCode y = ecBusy -> exists w' x' y',
  addWaitee g h w = Done tt w' /\ at_work x' Φ w' /\ grown x x' /\ waitees x ⊆ waitees x' /\ h ∈ waitees x' /\ laters w w' /\
  goals w' !! h = Some y' /\ later y y'.
Proof.
  intros (H1 & H2 & H3 & H4 & H5 & H6) Hc Hy Hb. destruct (add_edge_lookup g h w 0) as [E _]. set (w' := with_goals _ w) in E.
  assert (Hm : forall k, goals w' !! k = add_edge g h k <$> goals w !! k) by (intros k; apply add_edge_lookup).
  assert (Hlt : forall k z, later z (add_edge g h k z)) by (intros k z; exact (later_refl z)).
  exists w', (add_edge g h g x), (add_edge g h h y). split_and!; [done| | | | | | |done].
  - split_and!; [|done|done|by rewrite Hm, H4|done|done]. exact (INV_edge cfg R on pend {[g]} w g x h y _ (elem_of_singleton_2 _ _ eq_refl) H4 H5 H2 Hc Hy Hb Hm H1).
  - split; try done. cbn. by destruct (kind x).
  - cbn. rewrite (bool_decide_true (g = g)) by done. apply union_subseteq_r.
  - cbn. rewrite (bool_decide_true (g = g)) by done. by apply elem_of_union_l, elem_of_singleton.
  - intros j z Hz. exists (add_edge g h j z). split; [by rewrite Hm, Hz|done].
  - by rewrite Hm, Hy.
Qed.

Lemma waiting_edge x N Φ w w' h y n x1 : child_pid x = None -> (forall n, n ∈ N -> met w x1 n) -> grown x x1 ->
  laters w w' -> V w ⊆ V w' -> (exists x2, at_work x2 Φ w' /\ grown x1 x2 /\ waitees x2 = waitees x1) ->
  goals w' !! h = Some y -> exitCode y = ecBusy -> provides y n ->
  exists w'', addWaitee g h w' = Done tt w'' /\ waiting x (n :: N) Φ w''.
Proof.
  intros Hc HN G1 Hl Hv (x2 & Ha & G2 & E2) Hy Hb Hp. assert (Hc2 : child_pid x2 = None) by (by rewrite (gr_child _ _ G2), (gr_child _ _ G1)).
  destruct (add_edge_spec x2 Φ w' h y Ha Hc2 Hy Hb) as (w'' & x3 & y' & E & Ha' & G3 & Hs & Hh & Hl' & Hy' & Hl'').
  exists w''. split; [done|]. exists x3. split_and!; [eapply grown_trans; [exact G1|by eapply grown_trans]|done| |intros _ E3; rewrite E3 in Hh; by apply not_elem_of_empty in Hh].
  assert (Hv' : V w' ⊆ V w'') by (cbn in E; by injection E as <-).
  intros k [->|Hk]%elem_of_cons; [right; exists h, y'; split_and!; [done|done|by eapply later_provides]|].
  apply (met_laters w' w'' x2); [done|done|done|]. apply (met_laters w w' x1); [done|done|by rewrite E2|]. by apply HN.
Qed.

Lemma triple_need_path x N Φ rep p (X : exn -> WK -> Prop) : child_pid x = None ->
  triple (waiting x N Φ) (need_path g rep p) (fun _ => waiting x (NSub p :: N) Φ) X.
Proof.
  intros Hc w (x1 & G1 & Ha & HN & _). destruct (make_sub_run x1 Φ p rep w Ha) as (h & w' & y & E & Ha' & Hl & Hy & Hb & Hp).
  unfold need_path. rewrite (run_bind _ _ _ _ _ E).
  assert (Hv : V w ⊆ V w') by (clear -E; unfold makeSubstitutionGoal in E; rewrite run_gets in E; destruct (find_goal _ _ _); by injection E as <- <-).
  destruct (waiting_edge x N Φ w w' h y (NSub p) x1 Hc HN G1 Hl Hv) as (w'' & -> & ?); [|done..]. exists x1. split_and!; [done|apply grown_refl|done].
Qed.

Lemma triple_need_drv x N Φ rep i (X : exn -> WK -> Prop) : child_pid x = None ->
  triple (waiting x N Φ) (need_drv g rep i) (fun _ => waiting x (NDrv i.1 :: N) Φ) X.
Proof.
  intros Hc w (x1 & G1 & Ha & HN & _). destruct (make_drv_run x1 Φ i.1 i.2 rep w Ha) as (h & w' & y & x2 & E & Ha' & G2 & E2 & Hl & Hy & Hb & Hp).
  unfold need_drv. rewrite (run_bind _ _ _ _ _ E).
  assert (Hv : V w ⊆ V w') by (clear -E; unfold makeDerivationGoal in E; rewrite run_gets in E; destruct (find_goal _ _ _); by injection E as <- <-).
  destruct (waiting_edge x N Φ w w' h y (NDrv i.1) x1 Hc HN G1 Hl Hv) as (w'' & -> & ?); [|done..]. by exists x2.
Qed.

Lemma waiting_sub x N N' Φ w : (forall n, n ∈ N' -> n ∈ N) -> waiting x N Φ w -> waiting x N' Φ w.
Proof.
  intros H (x' & G & Ha & HN & He). exists x'. split_and!; auto. intros HN'. apply He. intros ->. destruct N' as [|n N']; [done|].
  destruct (not_elem_of_nil n (H n (list_elem_of_here _ _))).
Qed.

Lemma at_waiting x Φ w : at_work x Φ w -> waiting x [] Φ w.
Proof. intros H. exists x. split_and!; [apply grown_refl|done| |done]. by intros n ?%not_elem_of_nil. Qed.

Lemma triple_need_paths x N Φ rep l (X : exn -> WK -> Prop) : child_pid x = None ->
  triple (waiting x N Φ) (forM (need_path g rep) l) (fun _ => waiting x (map NSub l ++ N) Φ) X.
Proof.
  intros Hc. revert N. induction l as [|p l IH]; intros N; cbn [forM]; [by apply triple_ret|].
  eapply triple_bind; [by apply triple_need_path|]. intros ?. eapply triple_post; [apply IH|]. intros ? w. apply waiting_sub.
  intros n. cbn. rewrite !elem_of_cons, !elem_of_app, elem_of_cons. tauto.
Qed.
Lemma triple_need_drvs x N Φ rep l (X : exn -> WK -> Prop) : child_pid x = None ->
  triple (waiting x N Φ) (forM (need_drv g rep) l) (fun _ => waiting x (map (fun i => NDrv i.1) l ++ N) Φ) X.
Proof.
  intros Hc. revert N. induction l as [|p l IH]; intros N; cbn [forM]; [by apply triple_ret|].
  eapply triple_bind; [by apply triple_need_drv|]. intros ?. eapply triple_post; [apply IH|]. intros ? w. apply waiting_sub.
  intros n. cbn. rewrite !elem_of_cons, !elem_of_app, elem_of_cons. tauto.
Qed.

(** [if (waitees.empty()) A else B] *)
Lemma triple_no_waitees x N Φ (A B : M WK unit) (Q : unit -> WK -> Prop) X :
  (forall x', grown x x' -> waitees x' = ∅ -> triple (at_work x' (fun v n => Φ v n /\ forall k, k ∈ N -> need_of k ∈ v)) A Q X) ->
  (forall x', grown x x' -> waitees x' <> ∅ -> triple (fun w => at_work x' Φ w /\ forall k, k ∈ N -> met w x' k) B Q X) ->
  triple (waiting x N Φ) (b ← no_waitees g; if (b : bool) then A else B) Q X.
Proof.
  intros HA HB w (x' & G & Ha & HN & _). unfold no_waitees. assert (Hx : goals w !! g = Some x') by apply Ha.
  assert (E : (x0 ← deref g; mret (bool_decide (waitees x0 = ∅))) w = Done (bool_decide (waitees x' = ∅)) w) by (by rewrite (run_goal _ _ _ _ Hx)).
  rewrite (run_bind _ _ _ _ _ E). case_bool_decide as Hw; [|by apply (HB x' G Hw)].
  apply (HA x' G Hw). destruct Ha as (H1 & H2 & H3 & H4 & H5 & H6). split_and!; [done..|]. intros k Hk.
  destruct (HN k Hk) as [?|(h & y & Hh & _)]; [done|]. rewrite Hw in Hh. by apply not_elem_of_empty in Hh.
Qed.

(** Waiting for goals. *)
Lemma triple_waits x N Φ F (X : exn -> WK -> Prop) :
  tame x (F x) -> child_pid (F x) = None -> child_pid x = None -> waitees x <> ∅ -> (forall v n, Φ v n -> st_ok v (F x)) ->
  (forall n, n ∈ needs (F x) -> n ∈ N) ->
  triple (fun w => at_work x Φ w /\ forall k, k ∈ N -> met w x k) (upd g F) (fun _ => rested) X.
Proof.
  intros Ht Hc' Hc Hw Hs Hn w [Ha HN]. pose proof (at_upd x Φ F X Ht (or_intror Hc) w Ha) as Hu.
  unfold upd, modify in *. cbn in *. destruct Hu as (H1 & H2 & H3 & H4 & H5 & H6). split; [|done].
  rewrite <- (union_empty_r_L {[g]}) in H1. apply (INV_close cfg R on pend ∅ None _ g (F x) H4 H1).
  - intros _. right; left. by rewrite (t_waitees _ _ Ht).
  - intros _. split; [by eapply Hs|]. intros _ n Hnn. destruct (HN n (Hn n Hnn)) as [?|(h & y & Hh & Hy & Hp)]; [by left|right]. rewrite (t_waitees _ _ Ht).
    destruct Ha as (_ & _ & _ & Hx & _). rewrite (alter_present _ _ _ _ Hx). cbn.
    destruct (put_present (goals w) g x (F x) h y Hx Hy) as (z & E & [(-> & -> & ->)|[_ ->]]); [|by eauto].
    exists g, (F x). split_and!; [done|done|]. eapply later_provides; [apply Ht|done].
  - intros p Hp. congruence.
Qed.

(** Being done. *)
Lemma triple_amDone x Φ r : waitees x = ∅ -> child_pid x = None -> r <> ecBusy ->
  (r = ecSuccess -> forall v n, Φ v n -> done_ok v x) -> (r = ecNoSubstituters -> exists s, kind x = KSub s) ->
  triple (at_work x Φ) (amDone cfg order g r) (fun _ => rested) anyX.
Proof.
  intros Hw Hc Hr Hd Hs w (H1 & H2 & H3 & H4 & H5 & H6).
  pose proof (amDone_spec cfg order order_perm R on pend g x r w H1 H4 H5 Hw Hc H2 Hr (fun E => Hd E _ _ H6) Hs ltac:(rewrite H3; by left)) as Ha.
  destruct (amDone cfg order g r w) as [a w'|e w'|]; [|done..]. destruct Ha as [? Hl]. split; [done|congruence].
Qed.

(** Going into a set: the invariant still has the exception. *)
Definition queued (x : Goal) (Φ : gset str -> Z -> Prop) w : Prop :=
  INV R on pend {[g]} None w /\ inq pend w g /\ locals w = [g] /\ goals w !! g = Some x /\ exitCode x = ecBusy /\ waitees x = ∅ /\ child_pid x = None /\
  Φ (V w) (nrLocalBuilds w).

Lemma queued_rested x Φ w : (forall v n, Φ v n -> st_ok v x /\ (nrFailed x = 0%nat -> forall k, k ∈ needs x -> need_of k ∈ v)) -> queued x Φ w -> rested w.
Proof.
  intros Hs (H1 & H2 & H3 & H4 & H5 & H6 & H7 & H8). split; [|done]. rewrite <- (union_empty_r_L {[g]}) in H1.
  apply (INV_close cfg R on pend ∅ None _ g x H4 H1); [by left| |intros p Hp; congruence]. intros _. split; [by eapply Hs|].
  intros Hf k Hk. left. by eapply Hs.
Qed.

Lemma triple_queue x Φ f (X : exn -> WK -> Prop) : waitees x = ∅ -> child_pid x = None ->
  (forall w, at_work x Φ w -> exists a b c d, f w = with_sets a b c d w /\
    (forall k, k <> g -> (k ∈ a <-> k ∈ awake w) /\ (k ∈ b <-> k ∈ wantingToBuild w) /\ (k ∈ c <-> k ∈ waitingForAnyGoal w) /\ (k ∈ d <-> k ∈ waitingForAWhile w)) /\
    (b <> ∅ -> (maxBuildJobs cfg <= nrLocalBuilds w)%Z) /\ (disj pend w -> ~ inq pend w g -> disj pend (with_sets a b c d w)) /\ inq pend (with_sets a b c d w) g) ->
  triple (at_work x Φ) (modify f) (fun _ => queued x Φ) X.
Proof.
  intros Hw Hc Hf w Ha. cbn. destruct (Hf w Ha) as (a & b & c & d & -> & Hk & Hb & Hd & Hq). destruct Ha as (H1 & H2 & H3 & H4 & H5 & H6).
  split_and!; try done. apply (INV_queue_open cfg R on pend {[g]} None w g x a b c d); try done; [by apply elem_of_singleton|].
  apply Hd; [by destruct H1|done].
Qed.

Ltac set_goal := split_and!; [done|intros k Hk; rewrite ?elem_of_union, ?elem_of_singleton; tauto| | |].

Lemma triple_wakeUp x Φ (X : exn -> WK -> Prop) : waitees x = ∅ -> child_pid x = None -> triple (at_work x Φ) (wakeUp g) (fun _ => queued x Φ) X.
Proof.
  intros Hw Hc. apply triple_queue; [done..|]. intros w Ha. exists ({[g]} ∪ awake w), (wantingToBuild w), (waitingForAnyGoal w), (waitingForAWhile w). set_goal.
  - destruct Ha as ([] & _). done.
  - unfold disj, inq, asleep. cbn. clear. set_solver.
  - left. cbn. by apply elem_of_union_l, elem_of_singleton.
Qed.
Lemma triple_waitForAnyGoal x Φ (X : exn -> WK -> Prop) : waitees x = ∅ -> child_pid x = None -> triple (at_work x Φ) (waitForAnyGoal g) (fun _ => queued x Φ) X.
Proof.
  intros Hw Hc. apply triple_queue; [done..|]. intros w Ha. exists (awake w), (wantingToBuild w), ({[g]} ∪ waitingForAnyGoal w), (waitingForAWhile w). set_goal.
  - destruct Ha as ([] & _). done.
  - unfold disj, inq, asleep. cbn. clear. set_solver.
  - right; right; right; left. cbn. by apply elem_of_union_l, elem_of_singleton.
Qed.
Lemma triple_waitForAWhile x Φ (X : exn -> WK -> Prop) : waitees x = ∅ -> child_pid x = None -> triple (at_work x Φ) (waitForAWhile g) (fun _ => queued x Φ) X.
Proof.
  intros Hw Hc. apply triple_queue; [done..|]. intros w Ha. exists (awake w), (wantingToBuild w), (waitingForAnyGoal w), ({[g]} ∪ waitingForAWhile w). set_goal.
  - destruct Ha as ([] & _). done.
  - unfold disj, inq, asleep. cbn. clear. set_solver.
  - right; right; right; right. cbn. by apply elem_of_union_l, elem_of_singleton.
Qed.
Lemma triple_waitForBuildSlot x Φ (X : exn -> WK -> Prop) : waitees x = ∅ -> child_pid x = None -> triple (at_work x Φ) (waitForBuildSlot cfg g) (fun _ => queued x Φ) X.
Proof.
  intros Hw Hc w Ha. unfold waitForBuildSlot. rewrite run_gets. destruct (nrLocalBuilds w <? maxBuildJobs cfg)%Z eqn:E; [by apply triple_wakeUp|].
  apply Z.ltb_ge in E. pose proof (triple_queue x (fun v n => Φ v n /\ n = nrLocalBuilds w) (fun w => with_wanting ({[g]} ∪ wantingToBuild w) w) X Hw Hc) as Ht.
  assert (Ha' : at_work x (fun v n => Φ v n /\ n = nrLocalBuilds w) w) by (destruct Ha as (H1 & H2 & H3 & H4 & H5 & H6); split_and!; done).
  match type of Ht with ?P -> _ => assert (HP : P); [|specialize (Ht HP)] end.
  - intros w' Ha''. exists (awake w'), ({[g]} ∪ wantingToBuild w'), (waitingForAnyGoal w'), (waitingForAWhile w'). set_goal.
    + intros _. destruct Ha'' as (_ & _ & _ & _ & _ & _ & ->). done.
    + unfold disj, inq, asleep. cbn. clear. set_solver.
    + right; right; left. cbn. by apply elem_of_union_l, elem_of_singleton.
  - specialize (Ht w Ha'). cbn in *. destruct Ht as (H1 & H2 & H3 & H4 & H5 & H6 & H7 & H8 & _). split_and!; done.
Qed.

(** ** Locks *)

Lemma stable_queued x Φ : up Φ -> stable (queued x Φ).
Proof.
  intros HΦ w w' E (H1 & H2 & H3 & H4 & H5 & H6 & H7 & H8). assert (E' := E). destruct E' as (Ec & Hv & _). unfold core in Ec.
  injection Ec as E1 _ _ E4 _ E6 E7 E8 E9 _ E11 _ _. split_and!; [by eapply stable_INV| |congruence|congruence|done|done|done|rewrite E11; by eapply HΦ].
  unfold inq, asleep in *. by rewrite E6, E7, E8, E9.
Qed.

Lemma tame_locks x l b : tame x (with_locks_of l b x).
Proof. split; [done..|]. exact (later_refl x). Qed.
Lemma tame_refl x : tame x x.
Proof. by split. Qed.

Lemma queued_upd x Φ F (X : exn -> WK -> Prop) : tame x (F x) -> child_pid (F x) = None -> triple (queued x Φ) (upd g F) (fun _ => queued (F x) Φ) X.
Proof.
  intros Ht Hc w (H1 & H2 & H3 & H4 & H5 & H6 & H7 & H8). cbn. rewrite (alter_present _ _ _ _ H4).
  split_and!; [|done|done|cbn; by rewrite lookup_insert, decide_True|by rewrite (t_exit _ _ Ht)|by rewrite (t_waitees _ _ Ht)|done|done].
  apply INV_put with (x := x); [done..|right; split; [by apply elem_of_singleton|by eapply no_child]|by intros []; apply elem_of_singleton|done].
Qed.

Lemma queued_unlock x Φ : up Φ -> triple (queued x Φ) (unlock_goal g) (fun _ => queued (with_locks_of [] (deletePaths x) x) Φ) anyX.
Proof.
  intros HΦ w Hw. unfold unlock_goal. assert (Hx : goals w !! g = Some x) by apply Hw. rewrite (run_goal _ _ _ _ Hx).
  revert w Hw Hx. intros w Hw _. revert w Hw. eapply triple_bind; [eapply triple_any, triple_unlock_files; by apply stable_queued|]. intros ?.
  intros w Hw. assert (Hc : child_pid x = None) by apply Hw. revert w Hw. apply (queued_upd x Φ (fun x => with_locks_of [] (deletePaths x) x)); [apply tame_locks|done].
Qed.

Lemma at_unlock x Φ : up Φ -> triple (at_work x Φ) (unlock_goal g) (fun _ => at_work (with_locks_of [] (deletePaths x) x) Φ) (okX (at_work x Φ)).
Proof.
  intros HΦ. eapply triple_bind; [apply at_deref|]. intros y w [Hw ->]. revert w Hw.
  eapply triple_bind; [apply triple_unlock_files; by apply stable_at|]. intros ?.
  apply (at_upd x Φ (fun x => with_locks_of [] (deletePaths x) x)); [apply tame_locks|by left].
Qed.

Lemma at_setDeletion x Φ (X : exn -> WK -> Prop) : triple (at_work x Φ) (setDeletion_goal g) (fun _ => at_work (with_locks_of (locks x) true x) Φ) X.
Proof. apply (at_upd x Φ (fun x => with_locks_of (locks x) true x)); [apply tame_locks|by left]. Qed.

Lemma lock_all_spec x Φ ps : up Φ -> forall l,
  triple (at_work (with_locks_of l (deletePaths x) x) Φ) (lock_all g ps)
    (fun b w => exists l', at_work (with_locks_of l' (deletePaths x) x) Φ w /\ (b = false -> l' = [])) anyX.
Proof.
  intros HΦ. induction ps as [|p ps IH]; intros l; cbn [lock_all]; [apply triple_ret; intros w Hw; by exists l|].
  eapply triple_bind; [eapply triple_any, at_quiet; [done|apply law_checkInterrupt]|]. intros ?.
  eapply triple_bind with (R := fun _ => at_work (with_locks_of l (deletePaths x) x) Φ); [by apply triple_gets|]. intros locked. case_bool_decide; [by apply triple_raise|].
  eapply triple_bind; [eapply triple_any, at_quiet; [done|apply law_lockFile]|]. intros b. destruct b.
  - eapply triple_bind; [apply (at_upd _ Φ (fun x => with_locks_of (locks x ++ [lockName p]) (deletePaths x) x)); [apply tame_locks|by left]|]. intros ?.
    eapply triple_bind; [apply at_misc; [done|by intros w]|]. intros ?. apply (IH (l ++ [lockName p])).
  - eapply triple_bind; [eapply triple_any; by apply at_unlock|]. intros ?. apply triple_ret. intros w Hw. exists []. split; [exact Hw|done].
Qed.

Lemma lockPaths_spec x Φ ps : up Φ -> locks x = [] ->
  triple (at_work x Φ) (lockPaths_goal g ps) (fun b w => exists l', at_work (with_locks_of l' (deletePaths x) x) Φ w /\ (b = false -> l' = [])) anyX.
Proof.
  intros HΦ Hl. unfold lockPaths_goal. eapply triple_bind; [apply at_deref|]. intros y. apply triple_pre with (P' := fun w => at_work x Φ w /\ y = x); [|done].
  apply triple_pure. intros ->. rewrite Hl, bool_decide_true by done. unfold check. eapply triple_bind with (R := fun _ => at_work x Φ); [by apply triple_ret|]. intros ?.
  eapply triple_pre; [by apply lock_all_spec|]. intros w Hw. assert (E : with_locks_of [] (deletePaths x) x = x) by (rewrite <- Hl; by destruct x). rewrite E. exact Hw.
Qed.

(** ** Child processes *)

Definition has_child (p : Z) w : Prop := exists c, children w !! p = Some c /\ c_goal c = g.

(** Starting one, for a goal that has none. *)
Lemma start_spec x Φ (m : M St (Z * Z)) (F : Z * Z -> Goal -> Goal) :
  up Φ -> starts wv wprocs m -> child_pid x = None -> (forall r, tame x (F r x) /\ child_pid (F r x) = Some r.1 /\ forall s, kind (F r x) = KSub s -> logPipe s = r.2) ->
  (forall v n, Φ v n -> (n < max_slots cfg)%Z) -> (max_slots cfg < 2 ^ 32)%Z ->
  triple (at_work x Φ) (r ← worldly m; _ ← upd g (F r); childStarted g r.1 {[r.2]} true true)
    (fun _ w => exists r, INV R on pend {[g]} None w /\ ~ inq pend w g /\ locals w = [g] /\ goals w !! g = Some (F r x) /\ has_child r.1 w /\ (exists n, Φ (V w) n))
    (okX (at_work x Φ)).
Proof.
  intros HΦ Hm Hc HF Hn H32 w Hw. unfold worldly, zoom. unfold mbind, M_bind. specialize (Hm (world w)). assert (Hw' := Hw). destruct Hw' as (H1 & H2 & H3 & H4 & H5 & H6).
  destruct (m (world w)) as [r s|e s|]; [| |done].
  2:{ destruct Hm as (He & Hv & Hp). split; [done|]. apply (stable_at x Φ HΦ w); [by split|done]. }
  destruct Hm as (Hv & Hf & Hp). destruct (HF r) as (Ht & Hcr & Hlp). set (w1 := with_world s w).
  assert (I1 : INV R on pend {[g]} None w1).
  { apply (INV_core cfg R on pend {[g]} None w); [done|done| |done]. destruct H1. change (dom (children w) ⊆ wprocs s). rewrite Hp. etrans; [exact i_procs|apply union_subseteq_r]. }
  assert (Hch : children w !! r.1 = None) by (apply not_elem_of_dom; intros Hd; apply Hf; destruct H1; by apply i_procs).
  pose proof (at_upd x (fun _ n => n = nrLocalBuilds w) (F r) anyX Ht (or_intror Hc) w1 (conj I1 (conj H2 (conj H3 (conj H4 (conj H5 eq_refl)))))) as Hu.
  cbn in Hu |- *. set (w2 := with_goals (alter (F r) g (goals w)) w1) in *. destruct Hu as (I2 & Q2 & L2 & G2 & B2 & _).
  destruct law_time as [Hq Hnr]. specialize (Hq s). specialize (Hnr s).
  unfold childStarted, worldly, zoom, mbind, M_bind. cbn. destruct (w_time s) as [t s'|e s'|]; [|done|done]. destruct Hq as (Hv' & Hp' & _).
  set (w3 := with_world s' w2).
  assert (I3 : INV R on pend {[g]} None w3) by (apply (stable_INV cfg R on pend {[g]} None w2); [by split|done]).
  exists r. assert (Hnn : (0 <= nrLocalBuilds w < max_slots cfg)%Z) by (split; [destruct H1; destruct i_slots as [-> _]; apply Nat2Z.is_nonneg|by eapply Hn]).
  assert (Eu : u32 (nrLocalBuilds w + 1) = (nrLocalBuilds w + 1)%Z) by (apply u32_small; lia).
  split_and!; [|exact Q2|exact L2|exact G2|eexists; split; [apply lookup_insert_eq|done]|exists (nrLocalBuilds w); eapply HΦ; [|exact H6]; by etrans].
  change (nrLocalBuilds w2) with (nrLocalBuilds w). cbn. rewrite Eu.
  apply (INV_start cfg R on pend {[g]} None w3 g (F r x) r.1 (mkChild g {[r.2]} true true t)); try done; [by apply elem_of_singleton| | |exact (proj2 Hnn)].
  { split; [done|]. intros sg Hsg. by rewrite (Hlp sg Hsg). }
  change (r.1 ∈ wprocs s'). rewrite Hp', Hp. by apply elem_of_union_l, elem_of_singleton.
Qed.

(** Waiting for one that has ended. *)
Lemma end_spec x Φ p F : up Φ -> child_pid x = Some p -> tame x (F x) -> child_pid (F x) = None ->
  triple (fun w => at_work x Φ w /\ has_child p w) (status ← worldly (w_wait p); _ ← upd g F; _ ← childTerminated order p; mret status)
    (fun _ w => at_work (F x) (fun v _ => exists n, Φ v n) w) anyX.
Proof.
  intros HΦ Hp Ht Hc w [(H1 & H2 & H3 & H4 & H5 & H6) (c & Hcc & Hcg)]. unfold worldly, zoom. unfold mbind at 1, M_bind at 1.
  pose proof (law_wait p (world w)) as Hl. destruct (w_wait p (world w)) as [status s|e s|]; [|by destruct Hl|done]. destruct Hl as [Hv Hpr].
  rewrite run_upd. set (w1 := with_world s w). cbn [goals with_world]. change (goals w1) with (goals w). rewrite (alter_present _ _ _ _ H4).
  set (w2 := with_goals (<[g := F x]> (goals w)) w1).
  assert (Hb : inBuildSlot c = true /\ (0 < nrLocalBuilds w)%Z).
  { destruct H1. destruct (i_child p c Hcc) as [? _]. split; [done|]. destruct i_slots as [E _]. assert (size (children w) <> 0)%nat; [|lia].
    intros E0%map_size_empty_inv. by rewrite E0 in Hcc. }
  destruct (childTerminated_run order order_perm p c w2 Hcc (proj1 Hb) (proj2 Hb)) as (a & E & Ha). rewrite (run_bind _ _ _ _ _ E). cbn.
  assert (Ha' : forall k, k ∈ a <-> k ∈ awake w \/ (k ∈ wantingToBuild w /\ is_Some (goals w !! k))).
  { intros k. rewrite Ha. cbn. assert (is_Some (<[g:=F x]> (goals w) !! k) <-> is_Some (goals w !! k)) as Hk; [|tauto].
    destruct (decide (k = g)) as [->|]; [rewrite lookup_insert, decide_True, H4 by done; split; by eexists|by rewrite lookup_insert_ne]. }
  split_and!; [|..|by rewrite (t_exit _ _ Ht)|].
  - apply (INV_detach cfg R on pend {[g]} None w g x (F x) p a s); try done; [by apply elem_of_singleton|by exists c|].
    destruct H1. etrans; [|exact Hpr]. by apply difference_mono_r.
  - clear -Ha' H2. unfold inq, asleep in *. cbn. rewrite Ha'. set_solver.
  - done.
  - cbn. by rewrite lookup_insert, decide_True.
  - exists (nrLocalBuilds w). eapply HΦ; [|exact H6]. done.
Qed.

(** ** Reading the store *)

Lemma at_add x Φ (Ψ : gset str -> Prop) w : at_work x Φ w -> Ψ (V w) -> at_work x (fun v n => Φ v n /\ Ψ v) w.
Proof. intros (H1 & H2 & H3 & H4 & H5 & H6) H7. by split_and!. Qed.

Lemma up_and Φ (Ψ : gset str -> Prop) : up Φ -> (forall v v', v ⊆ v' -> Ψ v -> Ψ v') -> up (fun v n => Φ v n /\ Ψ v).
Proof. intros H1 H2 v v' n Hv [? ?]. split; eauto. Qed.

Lemma at_isValid x Φ p : up Φ ->
  triple (at_work x Φ) (worldly (w_isValidPath p)) (fun b w => at_work x (fun v n => Φ v n /\ (b = true -> p ∈ v)) w /\ (b = false -> p ∉ V w)) anyX.
Proof.
  intros HΦ. eapply triple_any, triple_post; [apply at_keeps; [done|apply law_isValidPath]|]. intros b w [Hw ->]. split.
  - apply (at_add x Φ (fun v => _ -> p ∈ v)); [done|]. by intros ?%bool_decide_eq_true.
  - by intros ?%bool_decide_eq_false.
Qed.

(** The assertion that a path is valid, when it is known to be. *)
Lemma at_valid_check x Φ p msg : up Φ -> (forall v n, Φ v n -> p ∈ v) -> triple (at_work x Φ) (v ← worldly (w_isValidPath p); check v msg) (fun _ => at_work x Φ) anyX.
Proof.
  intros HΦ Hp. eapply triple_bind; [eapply triple_any, at_keeps; [done|apply law_isValidPath]|]. intros b w [Hw ->].
  assert (H6 : Φ (V w) (nrLocalBuilds w)) by apply Hw. rewrite bool_decide_true by (by eapply Hp). done.
Qed.

Lemma at_closure x Φ p acc : up Φ -> triple (at_work x Φ) (worldly (w_computeFSClosure p acc)) (fun r => at_work x (fun v n => Φ v n /\ p ∈ r /\ acc ⊆ r /\ r ⊆ acc ∪ v)) anyX.
Proof.
  intros HΦ. eapply triple_any, triple_post; [apply at_keeps; [done|apply law_computeFSClosure]|]. intros r w [Hw ?].
  by apply (at_add x Φ (fun v => p ∈ r /\ acc ⊆ r /\ r ⊆ acc ∪ v)).
Qed.
End Goal.
End Work.
