(* ===== verification/GoalStates.v ===== *)
(** * The states of derivation goals keep the invariant

    Every member function that [state] of a [DerivationGoal] can point to, started on a goal in that state,
    leaves the goal waiting for something or done, and fails no assertion. *)

From Stdlib Require Import ZArith Lia Ascii.
From stdpp Require Import base strings sorting numbers gmap sets list.
From S2P Require Import Prelude Effects Util Hash StorePath Derivations Wire Globals GoalData Goals GoalInv GoalSteps GoalHoare GoalWork.

Section States.
Context {St : Type} `{WO : World St} {WL : WorldLaws St} (cfg : Settings) (order : gset nat -> list nat).
Context (order_perm : forall X, order X ≡ₚ elements X) (linux32 : bool) (NIX_BUILD_HOOK : str).
Abbreviation WK := (Worker St).
Implicit Types w : WK.
Implicit Types x : Goal.
Implicit Types N : list need.
Implicit Types Φ : gset str -> Z -> Prop.
Context (R : list (nat * Req)) (on : bool) (pend : gset nat) (g : nat).
Local Abbreviation at_work := (at_work cfg R on pend g).
Local Abbreviation rested := (rested cfg R on pend g).
Local Abbreviation waiting := (waiting cfg R on pend g).
Local Abbreviation queued := (queued cfg R on pend g).

(** A derivation goal that is not waiting and has neither child nor locks. *)
Record calm (x : Goal) (d : DGoal) : Prop := {
  ca_kind : kind x = KDrv d; ca_waitees : waitees x = ∅; ca_child : child_pid x = None; ca_locks : locks x = [] }.

Definition put_d (d : DGoal) (x : Goal) : Goal := with_kind (KDrv d) x.

Lemma calm_put x d d' : calm x d -> d_pid d' = None -> calm (put_d d' x) d'.
Proof. intros [H1 H2 H3 H4] Hp. by split. Qed.
Lemma calm_pid x d : calm x d -> d_pid d = None.
Proof. intros [H1 _ H3 _]. unfold child_pid in H3. by rewrite H1 in H3. Qed.
Lemma calm_grown x x' d : calm x d -> grown x x' -> waitees x' = ∅ -> exists d', calm x' d' /\ g_drv d' = g_drv d /\ drvPath d' = drvPath d /\
  d_state d' = d_state d /\ d_repair d' = d_repair d /\ (wantedOutputs d = ∅ -> d' = d) /\ nrFailed x' = nrFailed x.
Proof.
  intros [H1 H2 H3 H4] [A1 A2%link_child A3 A4 A5 A6 A7] Hw. unfold later in A6. rewrite H1 in A6, A7. destruct (kind x') as [d'|] eqn:E; [|done].
  destruct A7 as (B1 & B2 & B3 & B4), A6 as [B0 _]. exists d'. split_and!; try done. split; congruence.
Qed.

Lemma at_upd_drv x d f Φ (X : exn -> WK -> Prop) : kind x = KDrv d -> drvPath (f d) = drvPath d ->
  (forall outs, covers (wantedOutputs d) outs -> covers (wantedOutputs (f d)) outs) -> d_hook (f d) = d_hook d -> d_pid (f d) = d_pid d ->
  triple (at_work x Φ) (upd_drv g f) (fun _ => at_work (put_d (f d) x) Φ) X.
Proof.
  intros Hk Hp Hc Hh Hpid. assert (E : on_drv f x = put_d (f d) x) by (unfold on_drv; by rewrite Hk). rewrite <- E.
  apply (at_upd cfg R on pend g x Φ (on_drv f)); rewrite E.
  - split; try done; [unfold hook_of; cbn; by rewrite Hk|]. unfold later. by rewrite Hk.
  - left. unfold link. cbn. by rewrite Hk, Hpid.
Qed.

(** Waiting for goals, in a state that follows. *)
Lemma waits_state x d N Φ st : kind x = KDrv d -> child_pid x = None -> waitees x <> ∅ ->
  (forall v n, Φ v n -> st_ok v (put_d (with_dstate st d) x)) -> (forall n, n ∈ needs (put_d (with_dstate st d) x) -> n ∈ N) ->
  triple (fun w => at_work x Φ w /\ forall k, k ∈ N -> met w x k) (upd_drv g (with_dstate st)) (fun _ => rested) anyX.
Proof.
  intros Hk Hc Hw Hs Hn. assert (E : on_drv (with_dstate st) x = put_d (with_dstate st d) x) by (unfold on_drv; by rewrite Hk).
  apply triple_waits; rewrite ?E; try done.
  - split; try done; [unfold hook_of; cbn; by rewrite Hk|]. unfold later. by rewrite Hk.
  - unfold child_pid in *. cbn. by rewrite Hk in Hc.
Qed.

Lemma foldM_triple {A B} (P : list A -> B -> WK -> Prop) (f : B -> A -> M WK B) X l : forall done b,
  (forall done b a, triple (P done b) (f b a) (fun b' => P (done ++ [a]) b') X) ->
  triple (P done b) (foldM f b l) (fun b' => P (done ++ l) b') X.
Proof.
  induction l as [|a l IH]; intros dn b Hf; cbn [foldM]; [apply triple_ret; intros s; by rewrite app_nil_r|].
  eapply triple_bind; [apply Hf|]. intros b'. replace (dn ++ a :: l) with ((dn ++ [a]) ++ l) by (by rewrite <- app_assoc). by apply IH.
Qed.

(** ** Validity of the outputs *)

Definition outs_of (l : list (str * DerivationOutput)) (wanted : gset str) (v : gset str) : Prop :=
  forall i, i ∈ l -> wantOutput i.1 wanted = true -> out_path i.2 ∈ v.

Lemma outs_up l wanted v v' : v ⊆ v' -> outs_of l wanted v -> outs_of l wanted v'.
Proof. intros Hv H i Hi Hw. by apply Hv, H. Qed.

Lemma outs_snoc l i wanted v : outs_of l wanted v -> (wantOutput i.1 wanted = true -> out_path i.2 ∈ v) -> outs_of (l ++ [i]) wanted v.
Proof. intros H1 H2 j [Hj|Hj%list_elem_of_singleton]%elem_of_app; [auto|by subst]. Qed.

(** The first component: when no wanted output is reported invalid, they are valid; the second: when as many are
    reported valid as there are, they are. *)
Definition checked (returnValid : bool) (wanted : gset str) (l : list (str * DerivationOutput)) (acc : gset str) (v : gset str) : Prop :=
  if returnValid then (size acc <= length l)%nat /\ (size acc = length l -> outs_of l wanted v) else (acc = ∅ -> outs_of l wanted v).

Lemma checked_up rv wanted l acc v v' : v ⊆ v' -> checked rv wanted l acc v -> checked rv wanted l acc v'.
Proof. unfold checked. intros Hv. destruct rv; naive_solver eauto using outs_up. Qed.

Lemma check_output_spec x Φ wanted rv ch l acc i : up Φ ->
  triple (at_work x (fun v n => Φ v n /\ checked rv wanted l acc v)) (check_valid_output wanted rv ch acc i)
    (fun acc' => at_work x (fun v n => Φ v n /\ checked rv wanted (l ++ [i]) acc' v)) anyX.
Proof.
  intros HΦ. assert (HΦ' : up (fun v n => Φ v n /\ checked rv wanted l acc v)) by (apply up_and; [done|intros v v'; apply checked_up]).
  unfold check_valid_output. destruct (wantOutput i.1 wanted) eqn:Hw; cbn [negb].
  - eapply triple_bind; [by apply at_isValid|]. intros b. apply triple_pre with (P' := at_work x (fun v n => (Φ v n /\ checked rv wanted l acc v) /\ (b = true -> out_path i.2 ∈ v))).
    2:{ by intros w [? _]. }
    set (Φ1 := fun v n => _). assert (HΦ1 : up Φ1) by (apply up_and; [done|set_solver]).
    eapply triple_bind with (R := fun good => at_work x (fun v n => Φ1 v n /\ (good = true -> b = true))).
    + destruct b; [|by apply triple_ret; intros w Hw'; apply (at_add _ _ _ _ _ x Φ1 (fun _ => false = true -> false = true))].
      destruct ch; [|by apply triple_ret; intros w Hw'; apply (at_add _ _ _ _ _ x Φ1 (fun _ => true = true -> true = true))].
      eapply triple_any, triple_post; [eapply at_quiet; [done|apply law_pathContentsGood]|]. intros good w Hw'. by apply (at_add _ _ _ _ _ x Φ1 (fun _ => good = true -> true = true)).
    + intros good. apply triple_ret. intros w. apply at_weaken. unfold Φ1. intros v n [[[H1 H2] H3] H4]. split; [done|]. unfold checked in *. destruct rv.
      * destruct H2 as [H2 H2']. rewrite length_app. cbn [length]. assert (Hsz : size ({[out_path i.2]} ∪ acc) <= S (size acc)).
        { rewrite size_union_alt. rewrite size_singleton. assert (size (acc ∖ {[out_path i.2]}) <= size acc) by (apply subseteq_size; set_solver). lia. }
        case_bool_decide as Hg; [|split; [lia|lia]]. split; [lia|]. intros E. assert (size acc = length l) by lia. apply outs_snoc; [auto|]. auto.
      * case_bool_decide as Hg; [intros E; set_solver|]. intros E. apply outs_snoc; [auto|]. intros _. destruct good; [auto|done].
  - apply triple_ret. intros w. apply at_weaken. intros v n [H1 H2]. split; [done|]. unfold checked in *. destruct rv.
    + destruct H2 as [H2 H2']. rewrite length_app. cbn [length]. split; [lia|]. lia.
    + intros E. apply outs_snoc; [auto|congruence].
Qed.

Lemma checkPathValidity_spec x d Φ rv ch : up Φ -> kind x = KDrv d ->
  triple (at_work x Φ) (checkPathValidity g rv ch)
    (fun acc => at_work x (fun v n => Φ v n /\ checked rv (wantedOutputs d) (map_iter (outputs (g_drv d))) acc v)) anyX.
Proof.
  intros HΦ Hk. unfold checkPathValidity. eapply triple_bind; [by apply at_get_drv|]. intros d'. apply triple_pure. intros ->.
  eapply triple_pre; [apply (foldM_triple (fun l acc => at_work x (fun v n => Φ v n /\ checked rv (wantedOutputs d) l acc v)) _ _ _ []); intros; by apply check_output_spec|].
  intros w. apply at_weaken. intros v n H. split; [done|].
  assert (Hn : outs_of [] (wantedOutputs d) v) by (by intros i ?%not_elem_of_nil). unfold checked. destruct rv; [rewrite size_empty|]; auto.
Qed.

Lemma outs_valid drv wanted v : outs_of (map_iter (outputs drv)) wanted v ->
  forall n o, outputs drv !! n = Some o -> wantOutput n wanted = true -> out_path o ∈ v.
Proof. intros H n o Hn Hw. apply (H (n, o)); [|done]. by apply elem_of_map_iter. Qed.

(** ** Failures that are remembered *)

Lemma pathFailed_spec x Φ p : up Φ -> waitees x = ∅ -> child_pid x = None ->
  triple (at_work x Φ) (pathFailed cfg order g p) (fun b w => if b then rested w else at_work x Φ w) anyX.
Proof.
  intros HΦ Hw Hc. unfold pathFailed. destruct (cacheFailure cfg); cbn [negb]; [|by apply triple_ret].
  eapply triple_bind; [eapply triple_any, at_quiet; [done|apply law_hasPathFailed]|]. intros b. destruct b; cbn [negb]; [|by apply triple_ret].
  eapply triple_bind; [apply at_misc; [done|by intros w]|]. intros ?.
  eapply triple_bind; [by apply (triple_amDone cfg order order_perm R on pend g x Φ ecFailed)|]. intros ?. by apply triple_ret.
Qed.

Lemma any_failed_spec x Φ ps : up Φ -> waitees x = ∅ -> child_pid x = None ->
  triple (at_work x Φ) (any_failed cfg order g ps) (fun b w => if b then rested w else at_work x Φ w) anyX.
Proof.
  intros HΦ Hw Hc. induction ps as [|p ps IH]; cbn [any_failed]; [by apply triple_ret|].
  eapply triple_bind; [by apply pathFailed_spec|]. intros b. destruct b; [by apply triple_ret|exact IH].
Qed.

(** ** Waiting for goals, or going on *)

(** What the states rely on. *)
Definition st_rest (v : gset str) (st : DState) (d : DGoal) : Prop :=
  match st with
  | d_init | d_haveDerivation => True
  | d_outputsSubstituted => loaded v d
  | d_closureRepaired => loaded v d /\ outputs_valid v d
  | _ => loaded v d /\ wantedOutputs d = ∅
  end.
Lemma st_ok_put v x d st : st <> d_buildDone -> d_pid d = None -> locks x = [] -> st_rest v st d -> st_ok v (put_d (with_dstate st d) x).
Proof. intros H1 H2 H3 H4. unfold st_ok. cbn. rewrite H2. split_and!; [by split; [|intros [? ?]]|done|exact H4]. Qed.

Record same (d d' : DGoal) : Prop := {
  sa_drv : g_drv d' = g_drv d; sa_path : drvPath d' = drvPath d; sa_wanted : wantedOutputs d = ∅ -> d' = d; sa_repair : d_repair d' = d_repair d }.

Lemma grown_same x x' d : calm x d -> grown x x' -> exists d', kind x' = KDrv d' /\ same d d' /\ child_pid x' = None /\ locks x' = [] /\ d_pid d' = None.
Proof.
  intros [H1 H2 H3 H4] [A1 A2%link_child A3 A4 A5 A6 A7]. unfold later in A6. rewrite H1 in A6, A7. destruct (kind x') as [d'|] eqn:E; [|done].
  destruct A7 as (B1 & B2 & B3 & B4), A6 as [B0 _]. rewrite H3 in A2. exists d'. split_and!; try done; [congruence|]. unfold child_pid in A2. by rewrite E in A2.
Qed.

Lemma waits_or x d N Φ A st : calm x d -> st <> d_buildDone ->
  (forall x' d', calm x' d' -> same d d' -> nrFailed x' = nrFailed x ->
    triple (at_work x' (fun v n => Φ v n /\ forall k, k ∈ N -> need_of k ∈ v)) A (fun _ => rested) anyX) ->
  (forall v n d', Φ v n -> same d d' -> st_rest v st d') ->
  (forall d' k, same d d' -> k ∈ needs (new_goal (KDrv (with_dstate st d'))) -> k ∈ N) ->
  triple (waiting x N Φ) (b ← no_waitees g; if (b : bool) then A else upd_drv g (with_dstate st)) (fun _ => rested) anyX.
Proof.
  intros Hc Hst HA Hs Hn. apply triple_no_waitees; intros x' G Hw; destruct (grown_same x x' d Hc G) as (d' & Ek & Sa & Ec & El & Ep).
  - apply (HA x' d'); [by split|done|apply G].
  - apply (waits_state x' d' N Φ st Ek Ec Hw); [|intros k; exact (Hn d' k Sa)]. intros v n HΦ. apply st_ok_put; try done. by eapply Hs.
Qed.

Lemma at_done x d Φ r : calm x d -> r <> ecBusy -> r <> ecNoSubstituters -> (r = ecSuccess -> forall v n, Φ v n -> done_ok v x) ->
  triple (at_work x Φ) (amDone cfg order g r) (fun _ => rested) anyX.
Proof. intros [H1 H2 H3 H4] ? ? ?. by apply triple_amDone. Qed.

(** ** [init] *)

Lemma waiting_state x d N Φ st : calm x d -> N <> [] ->
  (forall v n x' d', Φ v n -> grown x x' -> kind x' = KDrv d' -> st_ok v (put_d (with_dstate st d') x')) ->
  (forall x' d' n, grown x x' -> kind x' = KDrv d' -> n ∈ needs (put_d (with_dstate st d') x') -> n ∈ N) ->
  triple (waiting x N Φ) (upd_drv g (with_dstate st)) (fun _ => rested) anyX.
Proof.
  intros [H1 H2 H3 H4] HN Hs Hn w (x' & G & Ha & Hm & He). assert (Gk := gr_kind _ _ G). rewrite H1 in Gk. destruct (kind x') as [d'|] eqn:Ek; [|done].
  apply (waits_state x' d' N Φ st Ek); [by rewrite (gr_child _ _ G)|by apply He|by intros; eapply Hs|by intros; eapply Hn|done].
Qed.

Lemma init_spec x d Φ : calm x d -> triple (at_work x Φ) (init_d cfg g) (fun _ => rested) anyX.
Proof.
  intros Hc. unfold init_d. destruct (readOnlyMode cfg); [by apply triple_raise|].
  eapply triple_bind; [by apply at_get_drv, Hc|]. intros d'. apply triple_pure. intros ->.
  eapply triple_bind; [eapply triple_pre; [apply triple_need_path; apply Hc|apply at_waiting]|]. intros ?.
  eapply waiting_state; [done|done| |].
  - intros v n x' d' _ G Ek. destruct Hc as [H1 H2 H3 H4]. pose proof (gr_child _ _ G) as Hp. rewrite H3 in Hp. unfold child_pid in Hp. rewrite Ek in Hp. cbn. rewrite Hp.
    split_and!; [split; [done|by intros [? ?]]|by rewrite (gr_locks _ _ G)|done].
  - intros x' d' n G Ek. cbn. pose proof (gr_later _ _ G) as Hl. unfold later in Hl. rewrite (ca_kind _ _ Hc), Ek in Hl. destruct Hl as [-> _]. done.
Qed.

(** ** [haveDerivation] *)

Lemma at_valid x Φ p : up Φ -> (forall v n, Φ v n -> p ∈ v) -> triple (at_work x Φ) (worldly (w_isValidPath p)) (fun b w => at_work x Φ w /\ b = true) anyX.
Proof.
  intros HΦ Hp. eapply triple_any, triple_post; [apply at_keeps; [done|apply law_isValidPath]|]. intros b w [Hw ->]. split; [done|].
  apply bool_decide_eq_true. destruct Hw as (_ & _ & _ & _ & _ & H). by eapply Hp.
Qed.

Lemma at_derivation x Φ p : up Φ -> triple (at_work x Φ) (worldly (w_derivationFromPath p)) (fun d w => at_work x Φ w /\ d = drv_of p) anyX.
Proof. intros HΦ. eapply triple_any, triple_post; [apply at_keeps; [done|apply law_derivationFromPath]|]. done. Qed.

Lemma up_elem p : up (fun v _ => p ∈ v).
Proof. intros v v' n Hv. apply Hv. Qed.

(** What is asked of [outputsSubstituted]. *)
Definition next_spec (next : M WK unit) : Prop := forall x d, calm x d -> triple (at_work x (fun v _ => loaded v d)) next (fun _ => rested) anyX.

Lemma have_spec x d next : calm x d -> next_spec next ->
  triple (at_work x (fun v _ => nrFailed x = 0%nat -> drvPath d ∈ v)) (haveDerivation_with cfg order next g) (fun _ => rested) anyX.
Proof.
  intros Hc Hnext. unfold haveDerivation_with. eapply triple_bind; [apply at_deref|]. intros x0. apply triple_pure. intros ->.
  eapply triple_bind; [by apply at_get_drv, Hc|]. intros d'. apply triple_pure. intros ->.
  destruct (nrFailed x =? 0)%nat eqn:Ef; cbn [negb]; [|by eapply at_done].
  apply Nat.eqb_eq in Ef. set (Φ := fun (v : gset str) (_ : Z) => drvPath d ∈ v). assert (HΦ : up Φ) by apply up_elem.
  apply triple_pre with (P' := at_work x Φ); [|intros w; apply at_weaken; intros v n H; exact (H Ef)].
  eapply triple_bind; [eapply triple_any, at_quiet; [done|apply law_addTempRoot]|]. intros ?.
  eapply triple_bind; [by apply at_valid|]. intros b. apply triple_pure. intros ->. unfold check at 1.
  eapply triple_bind with (R := fun _ => at_work x Φ); [by apply triple_ret|]. intros ?.
  eapply triple_bind; [by apply at_derivation|]. intros drv. apply triple_pure. intros ->.
  set (d1 := with_drv (drv_of (drvPath d)) d). eapply triple_bind; [apply (at_upd_drv x d); [apply Hc|done..]|]. intros ?. change (with_drv (drv_of (drvPath d)) d) with d1.
  assert (Hc1 : calm (put_d d1 x) d1) by (apply (calm_put x d); [done|exact (calm_pid x d Hc)]).
  eapply triple_bind; [apply triple_forM; intros i _; eapply triple_any, at_quiet; [done|apply law_addTempRoot]|]. intros ?.
  eapply triple_bind; [by apply (checkPathValidity_spec _ d1)|]. intros inv.
  destruct (bool_decide (inv = ∅) && negb (d_repair d)) eqn:Eb.
  - apply andb_prop in Eb as [Eb _]. apply bool_decide_eq_true in Eb. eapply at_done; [exact Hc1|done..|]. intros _ v n [H1 H2]. split; [done|].
    intros k o Hk Hw. by apply (outs_valid _ _ v (H2 Eb) k).
  - apply triple_pre with (P' := at_work (put_d d1 x) Φ); [|intros w; apply at_weaken; by intros v n [? _]].
    eapply triple_bind; [apply any_failed_spec; [done|apply Hc1..]|]. intros [|]; [by apply triple_ret|].
    eapply triple_bind with (R := fun _ => waiting (put_d d1 x) [] Φ).
    + destruct (useSubstitutes cfg); [|apply triple_ret, at_waiting].
      eapply triple_post; [eapply triple_pre; [apply triple_need_paths, Hc1|apply at_waiting]|]. intros ? w. apply waiting_sub. by intros k ?%not_elem_of_nil.
    + intros ?. apply waits_or with (d := d1); [done|done| |intros v n d' Hv [S1 S2 _ _]; split; [by rewrite S1, S2|by rewrite S2]|intros d' k _ []%not_elem_of_nil].
      intros x' d' Hc' [S1 S2 _ _] _. eapply triple_pre; [by apply Hnext|]. intros w. apply at_weaken. intros v n [Hv _]. split; [by rewrite S1, S2|by rewrite S2].
Qed.

(** ** [repairClosure] and [closureRepaired] *)

Lemma closures_spec {B} x Φ (f : B -> str) l : up Φ ->
  triple (at_work x Φ) (foldM (fun acc i => worldly (w_computeFSClosure (f i) acc)) ∅ l)
    (fun _ => at_work x (fun v n => Φ v n /\ forall i, i ∈ l -> f i ∈ v)) anyX.
Proof.
  intros HΦ. set (Ψ := fun (dn : list B) (b : gset str) (v : gset str) (n : Z) => Φ v n /\ (forall i, i ∈ dn -> f i ∈ b) /\ b ⊆ v).
  eapply triple_post; [eapply triple_pre; [apply (foldM_triple (fun dn b => at_work x (Ψ dn b)) _ _ l [])|]|].
  - intros dn b a. eapply triple_post; [apply at_closure, up_and; [done|intros v v' Hv [H1 H2]; split; [done|by etrans]]|].
    intros r w. apply at_weaken. intros v n ((H1 & H2 & H3) & H4 & H5 & H6). split_and!; [done| |].
    + intros i [Hi|Hi%list_elem_of_singleton]%elem_of_app; [by apply H5, H2|by subst].
    + intros y Hy. apply H6, elem_of_union in Hy as [Hy|Hy]; [by apply H3|done].
  - intros w. apply at_weaken. intros v n H. split_and!; [done| |apply empty_subseteq]. by intros i ?%not_elem_of_nil.
  - intros r w. apply at_weaken. intros v n (H1 & H2 & H3). split; [done|]. intros i Hi. by apply H3, H2.
Qed.

Lemma up_loaded d : up (fun v _ => loaded v d).
Proof. intros v v' n Hv [H1 H2]. split; [done|by apply Hv]. Qed.

Lemma repair_path_spec x Φ m p : up Φ -> child_pid x = None -> triple (waiting x [] Φ) (repair_path g m p) (fun _ => waiting x [] Φ) anyX.
Proof.
  intros HΦ Hc. unfold repair_path. eapply triple_bind with (R := fun _ => waiting x [] Φ).
  - intros w (x' & G & Ha & _ & _). revert w Ha. eapply triple_post; [eapply triple_any, at_quiet; [done|apply law_pathContentsGood]|].
    intros ? w Ha. exists x'. split_and!; [done..| |done]. by intros k ?%not_elem_of_nil.
  - intros [|]; [by apply triple_ret|]. assert (Hsub : forall n w, waiting x [n] Φ w -> waiting x [] Φ w) by (intros n w; apply waiting_sub; by intros k ?%not_elem_of_nil).
    destruct (m !! p) as [[|c q]|]; [|eapply triple_post; [by apply triple_need_drv|intros ? w; apply Hsub]|];
      (eapply triple_post; [by apply triple_need_path|intros ? w; apply Hsub]).
Qed.

Lemma repairClosure_spec x d : calm x d -> triple (at_work x (fun v _ => loaded v d)) (repairClosure cfg order g) (fun _ => rested) anyX.
Proof.
  intros Hc. unfold repairClosure. eapply triple_bind; [by apply at_get_drv, Hc|]. intros d'. apply triple_pure. intros ->.
  eapply triple_bind; [apply (closures_spec x _ (fun i : str * DerivationOutput => out_path i.2)), up_loaded|]. intros outc.
  set (Φ := fun v n => _). assert (HΦ : up Φ) by (apply up_and; [apply up_loaded|set_solver]).
  eapply triple_bind; [eapply triple_any, at_quiet; [done|apply law_computeFSClosure]|]. intros inc.
  eapply triple_bind with (R := fun _ => at_work x Φ).
  { eapply triple_post; [apply (foldM_triple (fun _ _ => at_work x Φ) _ _ _ [])|done]. intros ? b a. unfold outputs_to_drv.
    destruct (isDerivation a); [|by apply triple_ret]. eapply triple_bind; [eapply triple_any, at_quiet; [done|apply law_derivationFromPath]|]. intros ?. by apply triple_ret. }
  intros m. eapply triple_bind; [eapply triple_pre; [apply triple_forM; intros p _; apply (repair_path_spec x Φ); [done|apply Hc]|apply at_waiting]|]. intros ?.
  assert (HV : forall v n, Φ v n -> outputs_valid v d).
  { intros v n [[H1 _] H2] k o Ho. rewrite <- H1 in Ho. apply (H2 (k, o)). by apply elem_of_map_iter. }
  apply waits_or with (d := d); [done|done| | |intros d' k _ []%not_elem_of_nil].
  - intros x' d' Hc' [S1 S2 _ _] _. eapply at_done; [exact Hc'|done..|]. intros _ v n [Hv _]. unfold done_ok. rewrite (ca_kind _ _ Hc').
    unfold wanted_valid. rewrite S2. split; [apply Hv|]. intros k o Ho _. by apply (HV v n Hv k).
  - intros v n d' Hv [S1 S2 _ _]. cbn. unfold loaded, outputs_valid. rewrite S1, S2. split; [apply Hv|by apply (HV v n)].
Qed.

Lemma closureRepaired_spec x d : calm x d ->
  triple (at_work x (fun v _ => loaded v d /\ outputs_valid v d)) (closureRepaired cfg order g) (fun _ => rested) anyX.
Proof.
  intros Hc. unfold closureRepaired. eapply triple_bind; [apply at_deref|]. intros x0. apply triple_pure. intros ->.
  destruct (0 <? nrFailed x)%nat; [by apply triple_raise|]. eapply at_done; [exact Hc|done..|]. intros _ v n [[_ H1] H2].
  unfold done_ok. rewrite (ca_kind _ _ Hc). split; [done|]. intros k o Ho _. by apply (H2 k).
Qed.

(** ** [inputsRealised] *)

Lemma input_drv_spec x Φ acc i : up Φ -> (forall v n, Φ v n -> i.1 ∈ v) -> triple (at_work x Φ) (input_drv acc i) (fun _ => at_work x Φ) anyX.
Proof.
  intros HΦ Hi. unfold input_drv. eapply triple_bind; [by apply at_valid|]. intros b. apply triple_pure. intros ->. unfold check.
  eapply triple_bind with (R := fun _ => at_work x Φ); [by apply triple_ret|]. intros ?.
  eapply triple_bind; [by apply at_derivation|]. intros drv. apply triple_pure. intros ->.
  apply (foldM_triple (fun _ _ => at_work x Φ) _ _ _ []). intros ? b j. unfold input_closure. destruct (outputs _ !! j); [|by apply triple_raise].
  eapply triple_any, at_quiet; [done|apply law_computeFSClosure].
Qed.

Lemma foldM_each {A B} (P : WK -> Prop) (f : B -> A -> M WK B) X l : forall b,
  (forall b a, a ∈ l -> triple P (f b a) (fun _ => P) X) -> triple P (foldM f b l) (fun _ => P) X.
Proof.
  induction l as [|a l IH]; intros b Hf; cbn [foldM]; [by apply triple_ret|]. eapply triple_bind; [apply Hf, list_elem_of_here|]. intros b'.
  apply IH. intros c a' Ha. by apply Hf, list_elem_of_further.
Qed.

Lemma inputsRealised_spec x d : calm x d ->
  triple (at_work x (fun v _ => loaded v d /\ wantedOutputs d = ∅ /\ (nrFailed x = 0%nat -> forall i, i ∈ map_iter (inputDrvs (g_drv d)) -> i.1 ∈ v)))
    (inputsRealised cfg order g) (fun _ => rested) anyX.
Proof.
  intros Hc. unfold inputsRealised. eapply triple_bind; [apply at_deref|]. intros x0. apply triple_pure. intros ->.
  eapply triple_bind; [by apply at_get_drv, Hc|]. intros d'. apply triple_pure. intros ->.
  destruct (nrFailed x =? 0)%nat eqn:Ef; cbn [negb]; [|by eapply at_done]. apply Nat.eqb_eq in Ef.
  set (Φ := fun v n => _). assert (HΦ : up Φ) by (intros v v' n Hv (H1 & H2 & H3); split_and!; [by eapply up_loaded|done|intros ? i Hi; by apply Hv, H3]).
  eapply triple_bind with (R := fun _ => at_work x Φ).
  { apply foldM_each. intros b i Hi. apply input_drv_spec; [done|]. intros v n (_ & _ & H). by apply H. }
  intros ins. eapply triple_bind; [apply foldM_each; intros b p _; eapply triple_any, at_quiet; [done|apply law_computeFSClosure]|]. intros ins'.
  eapply triple_bind; [apply (at_upd_drv x d); [apply Hc|done..]|]. intros ?. set (d1 := with_inputs _ _ _ d).
  eapply triple_bind; [apply (at_upd_drv _ d1); done|]. intros ?. destruct Hc as [H1 H2 H3 H4].
  eapply triple_post; [apply triple_wakeUp; [done|cbn; unfold child_pid in H3; by rewrite H1 in H3]|].
  intros ? w. apply queued_rested. intros v n (L & Hw & _). split; [|by intros _ k ?%not_elem_of_nil]. apply (st_ok_put v (put_d d1 x) d1 d_tryToBuild); try done.
  unfold child_pid in H3. by rewrite H1 in H3.
Qed.

(** ** [outputsSubstituted] *)

(** Building, after the outputs could not be substituted. *)
Lemma inputs_spec x d rep : calm x d -> wantedOutputs d = ∅ -> nrFailed x = 0%nat ->
  triple (at_work x (fun v _ => loaded v d))
    (_ ← forM (need_drv g rep) (map_iter (inputDrvs (g_drv d)));
     _ ← forM (need_path g false) (set_iter (inputSrcs (g_drv d)));
     b ← no_waitees g;
     if (b : bool) then inputsRealised cfg order g else upd_drv g (with_dstate d_inputsRealised)) (fun _ => rested) anyX.
Proof.
  intros Hc Hw Hf. eapply triple_bind; [eapply triple_pre; [apply triple_need_drvs, Hc|apply at_waiting]|]. intros ?.
  eapply triple_bind; [apply triple_need_paths, Hc|]. intros ?. apply waits_or with (d := d); [done|done| | |].
  - intros x' d' Hc' S Hf'. rewrite (sa_wanted _ _ S Hw) in *. eapply triple_pre; [by apply (inputsRealised_spec x' d)|].
    intros w. apply at_weaken. intros v n [H1 H2]. split_and!; [done..|]. intros _ i Hi. apply (H2 (NDrv i.1)).
    apply elem_of_app; right. apply elem_of_app; left. by apply list_elem_of_fmap_2'  with (x := i).
  - intros v n d' Hv S. rewrite (sa_wanted _ _ S Hw). by split.
  - intros d' k S. rewrite (sa_wanted _ _ S Hw). intros Hk. apply elem_of_app; right. apply elem_of_app; left. exact Hk.
Qed.

Lemma invalid_spec x d : calm x d -> nrFailed x = 0%nat ->
  triple (at_work x (fun v _ => loaded v d))
    (invalid ← checkPathValidity g false (d_repair d);
     if bool_decide (invalid = ∅) then (if d_repair d then repairClosure cfg order g else amDone cfg order g ecSuccess)
     else
       _ ← upd_drv g (fun d => with_wanted ∅ (needRestart d) d);
       _ ← forM (need_drv g (d_repair d)) (map_iter (inputDrvs (g_drv d)));
       _ ← forM (need_path g false) (set_iter (inputSrcs (g_drv d)));
       b ← no_waitees g;
       if (b : bool) then inputsRealised cfg order g else upd_drv g (with_dstate d_inputsRealised)) (fun _ => rested) anyX.
Proof.
  intros Hc Hf. eapply triple_bind; [by apply (checkPathValidity_spec x d); [apply up_loaded|apply Hc]|]. intros inv. case_bool_decide as Hi.
  - destruct (d_repair d).
    + eapply triple_pre; [by apply (repairClosure_spec x d)|]. intros w. apply at_weaken. by intros v n [? _].
    + eapply at_done; [exact Hc|done..|]. intros _ v n [[H1 H2] H3]. unfold done_ok. rewrite (ca_kind _ _ Hc). split; [done|].
      intros k o Ho Hw. rewrite <- H1 in Ho. by apply (outs_valid _ _ v (H3 Hi) k).
  - eapply triple_pre; [|intros w; apply at_weaken; intros v n [H _]; exact H].
    eapply triple_bind; [apply (at_upd_drv x d); [apply Hc|done|by left|done..]|]. intros ?. set (d1 := with_wanted ∅ (needRestart d) d).
    apply (inputs_spec (put_d d1 x) d1 (d_repair d)); [|done|done]. apply (calm_put x d); [done|exact (calm_pid x d Hc)].
Qed.

Lemma outputsSubstituted_spec n : next_spec (outputsSubstituted cfg order n g).
Proof.
  induction n as [|n IH]; intros x d Hc; cbn [outputsSubstituted].
  all: eapply triple_bind; [apply at_deref|]; intros x0; apply triple_pure; intros ->.
  all: eapply triple_bind; [by apply at_get_drv, Hc|]; intros d'; apply triple_pure; intros ->.
  all: destruct (_ && _); [by apply triple_raise|].
  all: eapply triple_bind; [apply (at_upd cfg R on pend g x _ (with_failed 0 0)); [split; try done; exact (later_refl x)|by left]|]; intros ?.
  all: set (x1 := with_failed 0 0 x); assert (Hc1 : calm x1 d) by (by destruct Hc).
  all: destruct (needRestart d); [|by apply invalid_spec].
  all: eapply triple_bind; [by apply (at_upd_drv x1 d); [apply Hc1|..]|]; intros ?.
  1: by intros w.
  set (d1 := with_wanted (wantedOutputs d) false d). eapply triple_pre; [apply (have_spec (put_d d1 x1) d1); [apply (calm_put x1 d); [done|exact (calm_pid x d Hc)]|done]|].
  intros w. apply at_weaken. by intros v k [_ H] _.
Qed.
End States.
