(* ===== verification/GoalBuild.v ===== *)
(** * Building keeps the invariant

    [tryToBuild] and [buildDone], when no build hook is used, and with them every state of a
    derivation goal. *)

From Stdlib Require Import ZArith Lia Ascii.
From stdpp Require Import base strings sorting numbers gmap sets list.
From S2P Require Import Prelude Effects Util Hash StorePath Derivations Wire Globals GoalData Goals GoalInv GoalSteps GoalHoare GoalWork GoalStates.

Section Build.
Context {St : Type} `{WO : World St} {WL : WorldLaws St} (cfg : Settings) (order : gset nat -> list nat).
Context (order_perm : forall X, order X ≡ₚ elements X) (linux32 : bool) (NIX_BUILD_HOOK : str).
Context (no_hook : useBuildHook cfg = false \/ NIX_BUILD_HOOK = []) (jobs : (0 <= maxBuildJobs cfg < 2 ^ 32)%Z).
Abbreviation WK := (Worker St).
Implicit Types w : WK.
Implicit Types x : Goal.
Implicit Types Φ : gset str -> Z -> Prop.
Context (R : list (nat * Req)) (on : bool) (pend : gset nat) (g : nat).
Local Abbreviation at_work := (at_work cfg R on pend g).
Local Abbreviation rested := (rested cfg R on pend g).
Local Abbreviation queued := (queued cfg R on pend g).

(** ** A child that was started *)

Definition started (x : Goal) (p : Z) Φ w : Prop :=
  INV cfg R on pend {[g]} None w /\ ~ inq pend w g /\ locals w = [g] /\ goals w !! g = Some x /\ exitCode x = ecBusy /\ has_child g p w /\ exists n, Φ (V w) n.

Lemma started_rested x p Φ F (X : exn -> WK -> Prop) : tame x (F x) -> child_pid x = Some p -> link (F x) = link x -> waitees x = ∅ ->
  needs (F x) = [] -> (forall v n, Φ v n -> st_ok v (F x)) ->
  triple (started x p Φ) (upd g F) (fun _ => rested) X.
Proof.
  intros Ht Hp Hlk Hw Hn Hs w (H1 & H2 & H3 & H4 & Hb & H5 & n & H6). cbn. rewrite (alter_present _ _ _ _ H4). split; [|done].
  assert (Hp' : child_pid (F x) = Some p) by (by rewrite (link_child _ _ Hlk)).
  assert (I' : INV cfg R on pend {[g]} None (with_goals (<[g := F x]> (goals w)) w)).
  { apply INV_put with (x := x); [done..|by left|by intros []; apply elem_of_singleton|done]. }
  rewrite <- (union_empty_r_L {[g]}) in I'. apply (INV_close cfg R on pend ∅ None _ g (F x)); [cbn; by rewrite lookup_insert, decide_True|done| | |].
  - intros _. right; right. rewrite Hp'. by eexists.
  - intros _. split; [by eapply Hs|]. rewrite Hn. by intros _ k ?%not_elem_of_nil.
  - intros q Hq. rewrite (t_waitees _ _ Ht). split_and!; [done| |replace q with p by congruence; exact H5]. intros Ha. apply H2. by right; right.
Qed.

Lemma at_facts {A} x Φ (m : M WK A) Q X : (exitCode x = ecBusy -> hook_of x = None -> triple (at_work x Φ) m Q X) -> triple (at_work x Φ) m Q X.
Proof. intros H w Hw. assert (Hw' := Hw). destruct Hw' as ([] & _ & _ & H4 & H5 & _). by apply H; [|eapply i_hook|]. Qed.

Lemma max_slots_small : (max_slots cfg < 2 ^ 32)%Z.
Proof. unfold max_slots. lia. Qed.

(** ** [tryToBuild] *)

(** A goal that wants to build, perhaps with locks. *)
Record ready (x : Goal) (d : DGoal) : Prop := {
  re_kind : kind x = KDrv d; re_waitees : waitees x = ∅; re_child : child_pid x = None; re_state : d_state d = d_tryToBuild }.
Definition may_build (d : DGoal) (v : gset str) (_ : Z) : Prop := loaded v d /\ wantedOutputs d = ∅.

Lemma up_may d : up (may_build d).
Proof. intros v v' n Hv [[H1 H2] H3]. split; [split; [done|by apply Hv]|done]. Qed.

Lemma ready_locks x d l b : ready x d -> ready (with_locks_of l b x) d.
Proof. by intros []. Qed.

Lemma ready_rested x d Φ w : ready x d -> locks x = [] -> (forall v n, Φ v n -> may_build d v n) -> queued x Φ w -> rested w.
Proof.
  intros [H1 H2 H3 H4] Hl HΦ. apply queued_rested. intros v n H. unfold child_pid in H3. rewrite H1 in H3. split.
  - unfold st_ok. rewrite H1, H4, H3. split; [by split; [|intros [? ?]]|]. split; [done|by eapply HΦ].
  - intros _ k. unfold needs. rewrite H1, H4. by intros ?%not_elem_of_nil.
Qed.

Lemma startBuilder_spec x d Φ : ready x d -> up Φ -> (forall v n, Φ v n -> (n < max_slots cfg)%Z) ->
  triple (at_work x Φ) (startBuilder cfg linux32 g) (fun _ w => exists p, started (put_d (with_child (Some p) None d) x) p Φ w) (okX (at_work x Φ)).
Proof.
  intros [H1 H2 H3 H4] HΦ Hn. apply at_facts. intros Hb Hh. unfold startBuilder. eapply triple_bind; [by apply at_get_drv|]. intros d'. apply triple_pure. intros ->.
  destruct (canBuildLocally _ _ _); cbn [negb]; [|by apply triple_raise].
  eapply triple_post; [apply (start_spec cfg R on pend g x Φ (w_startBuilder g d) (fun r => on_drv (with_child (Some r.1) None)) HΦ (law_startBuilder g d) H3)|].
  - intros r. unfold on_drv. rewrite H1. split; [|done]. split; [done..|by rewrite Hh|]. unfold later. by rewrite H1.
  - done.
  - apply max_slots_small.
  - intros ? w (r & A1 & A2 & A3 & A4 & A5 & A6). exists r.1. unfold on_drv in A4. rewrite H1 in A4. by split_and!.
Qed.

Lemma build_locally_spec x d prefer : ready x d ->
  triple (at_work x (may_build d)) (build_locally cfg order linux32 g prefer) (fun _ => rested) anyX.
Proof.
  intros Hr. unfold build_locally. set (Φ n := fun v k => may_build d v k /\ k = n).
  eapply triple_bind with (R := fun n => at_work x (Φ n)).
  { apply triple_gets. intros w (H1 & H2 & H3 & H4 & H5 & H6). by split_and!. }
  intros n. assert (HΦ : up (Φ n)) by (intros v v' k Hv [? ?]; split; [by eapply up_may|done]).
  destruct (_ && _) eqn:Eb.
  - eapply triple_bind; [apply triple_waitForBuildSlot; apply Hr|]. intros ?. eapply triple_post; [by apply queued_unlock|].
    intros ? w. eapply ready_rested; [by apply ready_locks|done|]. by intros v k [? _].
  - assert (Hn : forall v k, Φ n v k -> (k < max_slots cfg)%Z).
    { intros v k [_ ->]. unfold max_slots. apply andb_false_iff in Eb as [E|E]; [apply Z.leb_gt in E; lia|].
      apply negb_false_iff, andb_true_iff in E as [_ E]. apply Z.eqb_eq in E. lia. }
    eapply triple_bind with (R := fun b w => if b : bool then exists p, started (put_d (with_child (Some p) None d) x) p (Φ n) w else rested w).
    + apply triple_try with (Y := okX (at_work x (Φ n))).
      * eapply triple_bind; [by apply startBuilder_spec|]. intros ?. by apply triple_ret.
      * intros e _. apply triple_pre with (P' := at_work x (Φ n)); [|by intros w [_ ?]].
        eapply triple_bind; [eapply triple_any; by apply at_unlock|]. intros ?.
        eapply triple_bind; [eapply triple_any, at_quiet; [done|apply law_releaseUser]|]. intros ?.
        eapply triple_bind; [apply at_misc; [done|by intros w]|]. intros ?.
        eapply triple_bind; [apply (triple_amDone cfg order order_perm R on pend g _ _ ecFailed); [apply Hr|apply Hr|done..]|]. intros ?. by apply triple_ret.
      * by intros e w _ [? _].
    + intros [|]; [|by apply triple_ret]. intros w [p Hp]. revert w Hp. destruct Hr as [H1 H2 H3 H4].
      eapply (started_rested _ p (Φ n) (on_drv (with_dstate d_buildDone))); try done. intros v k [[? ?] _]. cbn. split_and!; try done.
Qed.

Lemma any_locked_spec x Φ ps (X : exn -> WK -> Prop) : triple (at_work x Φ) (any_locked ps) (fun _ => at_work x Φ) X.
Proof.
  induction ps as [|p ps IH]; cbn [any_locked]; [by apply triple_ret|].
  eapply triple_bind with (R := fun _ => at_work x Φ); [by apply triple_gets|]. intros [|]; [by apply triple_ret|exact IH].
Qed.

Lemma clear_output_spec x Φ i : up Φ -> triple (at_work x Φ) (clear_output i) (fun _ => at_work x Φ) anyX.
Proof.
  intros HΦ. unfold clear_output. eapply triple_bind; [eapply triple_any, at_quiet; [done|apply law_isValidPath]|]. intros [|]; [by apply triple_ret|].
  eapply triple_bind; [eapply triple_any, at_quiet; [done|apply law_pathExists]|]. intros [|]; [|by apply triple_ret].
  eapply triple_any, at_quiet; [done|apply law_deletePathWrapped].
Qed.

(** With the locks. *)
(** Without a hook the build is done here. *)
Lemma hook_declined n : tryBuildHook cfg NIX_BUILD_HOOK n g = mret rpDecline.
Proof. unfold tryBuildHook. destruct no_hook as [-> | ->]; [done|]. by rewrite orb_true_r. Qed.

Lemma locked_spec n x d : ready x d ->
  triple (at_work x (may_build d))
    (valid ← checkPathValidity g true (d_repair d);
     _ ← upd_drv g (with_valid valid);
     if (size valid =? size (outputs (g_drv d)))%nat then _ ← setDeletion_goal g; amDone cfg order g ecSuccess
     else
       _ ← forM clear_output (map_iter (outputs (g_drv d)));
       failed ← any_failed cfg order g (map (fun i => out_path i.2) (map_iter (outputs (g_drv d))));
       if (failed : bool) then mret tt
       else
         _ ← upd_drv g (touch_env ($"preferLocalBuild"));
         let preferLocalBuild := str_eqb (default [] (env (g_drv d) !! ($"preferLocalBuild"))) ($"1") && canBuildLocally cfg linux32 (platform (g_drv d)) in
         reply ← (if preferLocalBuild then mret rpDecline else tryBuildHook cfg NIX_BUILD_HOOK n g);
         match reply with
         | rpAccept => upd_drv g (with_dstate d_buildDone)
         | rpPostpone => _ ← waitForAWhile g; unlock_goal g
         | rpDecline => build_locally cfg order linux32 g preferLocalBuild
         end) (fun _ => rested) anyX.
Proof.
  intros Hr. eapply triple_bind; [apply (checkPathValidity_spec cfg order order_perm R on pend g x d); [apply up_may|apply Hr]|]. intros valid.
  eapply triple_bind; [by apply (at_upd_drv cfg R on pend g x d); [apply Hr|..]|]. intros ?. set (d1 := with_valid valid d).
  assert (Hr1 : ready (put_d d1 x) d1) by (destruct Hr as [H1 H2 H3 H4]; split; try done; unfold child_pid in *; by rewrite H1 in H3).
  destruct (size valid =? _)%nat eqn:Es.
  - apply Nat.eqb_eq in Es. eapply triple_bind; [apply at_setDeletion|]. intros ?.
    apply (triple_amDone cfg order order_perm R on pend g _ _ ecSuccess); [apply Hr1|apply Hr1|done| |done].
    intros _ v k [[[H1 H2] H3] H4]. cbn in H4 |- *. split; [exact H2|]. intros o out Ho Hw. cbn in Ho. rewrite <- H1 in Ho.
    apply (outs_valid (g_drv d) (wantedOutputs d) v) with (n := o); [|done|exact Hw]. apply H4. by rewrite length_map_iter.
  - eapply triple_pre; [|intros w; apply at_weaken; intros v k [H _]; exact H].
    eapply triple_bind; [apply triple_forM; intros i _; apply clear_output_spec, up_may|]. intros ?.
    eapply triple_bind; [apply (any_failed_spec cfg order order_perm R on pend g); [apply up_may|apply Hr1..]|]. intros [|]; [by apply triple_ret|]. cbn zeta.
    eapply triple_bind; [by apply (at_upd_drv cfg R on pend g _ d1)|]. intros ?. set (d2 := touch_env _ d1). set (x2 := put_d d2 _).
    assert (Hr2 : ready x2 d2) by (destruct Hr1 as [H1 H2 H3 H4]; split; try done; unfold child_pid in *; by rewrite H1 in H3).
    set (pref := _ && _). eapply triple_bind with (R := fun r w => at_work x2 (may_build d2) w /\ r = rpDecline).
    + destruct pref; [by apply triple_ret|]. rewrite hook_declined by done. by apply triple_ret.
    + intros r. apply triple_pure. intros ->. by apply build_locally_spec.
Qed.

Lemma tryToBuild_spec n x d : ready x d -> locks x = [] ->
  triple (at_work x (may_build d)) (tryToBuild cfg order linux32 NIX_BUILD_HOOK n g) (fun _ => rested) anyX.
Proof.
  intros Hr Hl. unfold tryToBuild. eapply triple_bind; [by apply at_get_drv, Hr|]. intros d'. apply triple_pure. intros ->. cbn zeta.
  eapply triple_bind; [apply any_locked_spec|]. intros [|].
  - eapply triple_post; [apply triple_waitForAnyGoal; apply Hr|]. intros ? w. by eapply ready_rested.
  - eapply triple_bind; [by apply lockPaths_spec; [apply up_may|]|]. intros got. intros w (l & Ha & Hg). revert w Ha. destruct got; cbn [negb].
    + by apply locked_spec, ready_locks.
    + specialize (Hg eq_refl). subst l. eapply triple_post; [apply triple_waitForAWhile; apply Hr|]. intros ? w. eapply ready_rested; [by apply ready_locks|done..].
Qed.

(** ** [buildDone] *)

Lemma triple_wait {A} P (m : M WK Z) (k : M WK unit) (k' : M WK unit) (f : Z -> M WK A) Q Q' X :
  triple P (s ← m; _ ← k; _ ← k'; mret s) Q X -> (forall s, triple (Q s) (f s) Q' X) -> triple P (s ← m; _ ← k; _ ← k'; f s) Q' X.
Proof.
  intros Hm Hf w Hw. specialize (Hm w Hw). unfold mbind, M_bind in *. destruct (m w) as [s w1|e w1|]; [|done..].
  destruct (k w1) as [[] w2|e w2|]; [|done..]. destruct (k' w2) as [[] w3|e w3|]; [|done..]. exact (Hf s w3 Hm).
Qed.

Lemma build_failed_spec x d Φ status : up Φ -> waitees x = ∅ -> child_pid x = None ->
  triple (at_work x Φ) (build_failed cfg order g d false status) (fun _ => rested) anyX.
Proof.
  intros HΦ Hw Hc. unfold build_failed. eapply triple_bind; [eapply triple_any; by apply at_unlock|]. intros ?.
  eapply triple_bind; [eapply triple_any, at_quiet; [done|apply law_releaseUser]|]. intros ?. cbn zeta.
  eapply triple_bind with (R := fun _ => at_work (with_locks_of [] (deletePaths x) x) Φ).
  { destruct (_ && _); [|by apply triple_ret]. apply triple_forM. intros i _. eapply triple_any, at_quiet; [done|apply law_registerFailedPath]. }
  intros ?. eapply triple_bind; [apply at_misc; [done|by intros w]|]. intros ?. by apply (triple_amDone cfg order order_perm R on pend g _ _ ecFailed).
Qed.

Lemma with_locks_self x : with_locks_of (locks x) (deletePaths x) x = x.
Proof. by destruct x. Qed.

(** The body of the [try]: the outputs are collected and the locks are given up. *)
Lemma collect_spec x d Φ status : up Φ ->
  triple (at_work x Φ)
    (_ ← worldly (w_collectOutputs g d status); _ ← setDeletion_goal g; _ ← unlock_goal g; mret true)
    (fun b w => b = true /\ at_work (with_locks_of [] true x) (fun v n => Φ v n /\ forall o out, outputs (g_drv d) !! o = Some out -> out_path out ∈ v) w)
    (okX (fun w => exists l b, at_work (with_locks_of l b x) Φ w)).
Proof.
  intros HΦ. eapply triple_bind.
  { eapply triple_X; [apply at_keeps; [done|apply law_collectOutputs]|]. intros e w [? Ha]. split; [done|]. exists (locks x), (deletePaths x). by rewrite with_locks_self. }
  intros ?. set (Ψ := fun v : gset str => forall o out, outputs (g_drv d) !! o = Some out -> out_path out ∈ v).
  apply triple_pre with (P' := at_work x (fun v n => Φ v n /\ Ψ v)); [|intros w [Ha Ho]; by apply (at_add cfg R on pend g x Φ Ψ)].
  assert (HΨ : up (fun v n => Φ v n /\ Ψ v)) by (apply up_and; [done|intros v v' Hv H o out Ho; by apply Hv, (H o)]).
  eapply triple_bind; [apply at_setDeletion|]. intros ?. eapply triple_bind; [eapply triple_X; [by apply at_unlock|]|].
  - intros e w [? Ha]. split; [done|]. exists (locks x), true. eapply at_weaken, Ha. by intros v n [? _].
  - intros ?. by apply triple_ret.
Qed.

Lemma buildDone_rest x d Φ status : up Φ -> (forall v n, Φ v n -> loaded v d) -> drvPath d = goal_path x -> (exists d', kind x = KDrv d') -> waitees x = ∅ -> child_pid x = None ->
  triple (at_work x Φ)
    (ok ← try_catch (fun k => bool_decide (k = eBuildError))
       (_ ← worldly (w_collectOutputs g d status); _ ← setDeletion_goal g; _ ← unlock_goal g; mret true)
       (fun _ => _ ← build_failed cfg order g d false status; mret false);
     if negb ok then mret tt else _ ← worldly (w_releaseUser g); amDone cfg order g ecSuccess) (fun _ => rested) anyX.
Proof.
  intros HΦ HL Hpath [d' Hk] Hw Hc. unfold goal_path in Hpath. rewrite Hk in Hpath. set (Ψ := fun v : gset str => forall o out, outputs (g_drv d) !! o = Some out -> out_path out ∈ v).
  eapply triple_bind with (R := fun b w => if b : bool then at_work (with_locks_of [] true x) (fun v n => Φ v n /\ Ψ v) w else rested w).
  - apply triple_try with (Y := okX (fun w => exists l b, at_work (with_locks_of l b x) Φ w)); [|intros e _|by intros e w _ [? _]].
    + eapply triple_post; [by apply collect_spec|]. by intros b w [-> ?].
    + intros w (_ & l & b & Ha). revert w Ha. eapply triple_bind; [by apply build_failed_spec|]. intros ?. by apply triple_ret.
  - intros [|]; cbn [negb]; [|by apply triple_ret].
    eapply triple_bind; [eapply triple_any, at_quiet; [|apply law_releaseUser]|].
    { apply up_and; [done|intros v v' Hv H o out Ho; by apply Hv, (H o)]. }
    intros ?. apply (triple_amDone cfg order order_perm R on pend g _ _ ecSuccess); [done|done|done| |done]. intros _ v n [Hv Ho].
    destruct (HL v n Hv) as [L1 L2]. unfold done_ok. cbn. rewrite Hk. rewrite <- Hpath. split; [done|]. unfold wanted_valid. rewrite <- Hpath. intros o out Hout _.
    apply (Ho o). by rewrite L1.
Qed.

Lemma buildDone_spec x d p : kind x = KDrv d -> waitees x = ∅ -> d_pid d = Some p ->
  triple (fun w => at_work x (may_build d) w /\ has_child g p w) (buildDone cfg order g) (fun _ => rested) anyX.
Proof.
  intros Hk Hw Hp. apply triple_pre with (P' := fun w => at_work x (may_build d) w /\ has_child g p w); [|done]. intros w [Ha Hch].
  assert (Hh : d_hook d = None) by (destruct Ha as ([] & _ & _ & H4 & _); specialize (i_hook g x H4); unfold hook_of in i_hook; by rewrite Hk in i_hook).
  unfold buildDone. unfold get_drv. assert (Hx : goals w !! g = Some x) by apply Ha.
  assert (E : (x ← deref g; match kind x with KDrv d => mret d | KSub _ => raise eUndefined ($"not a derivation goal") end) w = Done d w) by (by rewrite (run_goal _ _ _ _ Hx), Hk).
  rewrite (run_bind _ _ _ _ _ E), Hh, Hp. cbn [default]. cbn zeta. clear E Hx. revert w Ha Hch. intros w Ha Hch. assert (HP := conj Ha Hch). clear Ha Hch. revert w HP.
  set (F := on_drv (fun d => with_child None (d_hook d) d)). assert (EF : F x = put_d (with_child None (d_hook d) d) x) by (unfold F, on_drv; by rewrite Hk).
  eapply triple_wait; [apply (end_spec cfg order order_perm R on pend g x (may_build d) p F); [apply up_may|unfold child_pid; by rewrite Hk|..]|].
  { rewrite EF. split; [done..|unfold hook_of; cbn; by rewrite Hk|]. unfold later. by rewrite Hk. }
  { by rewrite EF. }
  intros status. rewrite EF. clear EF F. set (x1 := put_d _ x). set (Φ := fun v _ => _). assert (HΦ : up Φ) by (intros v v' n Hv [k Hk']; exists k; by eapply up_may).
  eapply triple_bind; [eapply triple_any, at_quiet; [done|apply law_builderGone]|]. intros ?.
  apply (buildDone_rest x1 d Φ status HΦ); [by intros v n [_ [? _]]|done|by eexists|done|done].
Qed.

(** ** [DerivationGoal::work] *)

(** A goal that was woken up. *)
Definition woken (x : Goal) (v : gset str) (_ : Z) : Prop := st_ok v x /\ (nrFailed x = 0%nat -> forall k, k ∈ needs x -> need_of k ∈ v).

Lemma work_d_spec n x d : kind x = KDrv d -> waitees x = ∅ ->
  triple (fun w => at_work x (woken x) w /\ forall p, child_pid x = Some p -> has_child g p w) (work_d cfg order linux32 NIX_BUILD_HOOK n g d) (fun _ => rested) anyX.
Proof.
  intros Hk Hw w [Ha Hc]. assert (Hs : woken x (V w) (nrLocalBuilds w)) by apply Ha. unfold woken, st_ok, needs in Hs. rewrite Hk in Hs. destruct Hs as ((S1 & S2 & S3) & Hn).
  assert (Hcalm : d_state d <> d_buildDone -> calm x d).
  { intros Hd. split; auto. unfold child_pid. rewrite Hk. destruct (d_pid d) as [p|]; [|done]. destruct Hd. apply S1. by eexists. }
  assert (Hto : forall Φ : gset str -> Z -> Prop, Φ (V w) (nrLocalBuilds w) -> at_work x Φ w) by (intros Φ HΦ; destruct Ha as (H1 & H2 & H3 & H4 & H5 & _); by split_and!).
  unfold work_d. destruct (d_state d) eqn:Ed.
  - eapply (init_spec cfg R on pend g x d); [by apply Hcalm|exact Ha].
  - apply (have_spec cfg order order_perm R on pend g x d); [by apply Hcalm|apply (outputsSubstituted_spec cfg order order_perm R on pend g 1)|]. apply Hto. intros Hf.
    apply (Hn Hf (NSub (drvPath d))). by apply list_elem_of_singleton.
  - apply (outputsSubstituted_spec cfg order order_perm R on pend g 1 x d); [by apply Hcalm|]. by apply Hto.
  - apply (closureRepaired_spec cfg order order_perm R on pend g x d); [by apply Hcalm|]. by apply Hto.
  - apply (inputsRealised_spec cfg order order_perm R on pend g x d); [by apply Hcalm|]. apply Hto. destruct S3. split_and!; [done..|].
    intros Hf i Hi. apply (Hn Hf (NDrv i.1)). apply list_elem_of_fmap. by exists i.
  - destruct (Hcalm ltac:(done)) as [C1 C2 C3 C4]. apply (tryToBuild_spec n x d); [done|done|]. by apply Hto.
  - destruct (proj1 S1 eq_refl) as [p Hp]. apply (buildDone_spec x d p Hk Hw Hp). split; [by apply Hto|]. apply Hc. unfold child_pid. by rewrite Hk.
Qed.
End Build.
