(* ===== verification/GoalSubst.v ===== *)
(** * Substitution keeps the invariant

    The states of a [SubstitutionGoal]. *)

From Stdlib Require Import ZArith Lia Ascii.
From stdpp Require Import base strings sorting numbers gmap sets list.
From S2P Require Import Prelude Effects Util Hash StorePath Derivations Wire Globals GoalData Goals GoalInv GoalSteps GoalHoare GoalWork GoalStates GoalBuild.

(** ** Parsing a hash fails no assertion *)

Definition tidy {A} (r : result A) : Prop := match r with Throw e => catch_all (exn_kind e) = true | _ => True end.

Lemma tidy_bind {A B} (r : result A) (f : A -> result B) : tidy r -> (forall a, tidy (f a)) -> tidy (r ≫= f).
Proof. intros Hr Hf. destruct r; [apply Hf|done..]. Qed.
Lemma tidy_error {A} msg : tidy (error msg : result A).
Proof. done. Qed.
#[local] Hint Resolve tidy_bind tidy_error : core.

Lemma tidy_parseHash_loop s ps : forall bytes, tidy (parseHash_loop s ps bytes).
Proof.
  induction ps as [|i ps IH]; intros bytes; cbn [parseHash_loop]; [done|]. apply tidy_bind; [unfold substr; by case_match|]. intros s2. by case_match.
Qed.
Lemma tidy_foldM {A B} (f : B -> A -> result B) l : (forall b a, tidy (f b a)) -> forall b, tidy (Prelude.foldM f b l).
Proof. intros Hf. induction l as [|a l IH]; intros b; cbn; auto. Qed.
Lemma tidy_Hash_new ht : tidy (Hash_new ht).
Proof. by destruct ht. Qed.
Lemma tidy_step s n bytes c : tidy (parseHash32_step s n bytes c).
Proof. unfold parseHash32_step. case_match; [done|]. destruct (mul bytes 32 n) as [[|] b1]; [done|]. by destruct (add b1 _ n) as [[|] b2]. Qed.

Lemma tidy_parseHash16or32 ht s : tidy (parseHash16or32 ht s).
Proof.
  unfold parseHash16or32, parseHash, parseHash32. apply tidy_bind; [apply tidy_Hash_new|]. intros h. case_match; [|case_match].
  - apply tidy_bind; [apply tidy_Hash_new|]. intros h'. case_match; [done|]. apply tidy_bind; [apply tidy_parseHash_loop|done].
  - apply tidy_bind; [apply tidy_Hash_new|]. intros h'. apply tidy_bind; [apply tidy_foldM; intros; apply tidy_step|done].
  - apply tidy_bind; [by destruct ht|done].
Qed.

Section Subst.
Context {St : Type} `{WO : World St} {WL : WorldLaws St} (cfg : Settings) (order : gset nat -> list nat).
Context (order_perm : forall X, order X ≡ₚ elements X) (jobs : (0 <= maxBuildJobs cfg < 2 ^ 32)%Z).
Abbreviation WK := (Worker St).
Implicit Types w : WK.
Implicit Types x : Goal.
Implicit Types Φ : gset str -> Z -> Prop.
Context (R : list (nat * Req)) (on : bool) (pend : gset nat) (g : nat).
Local Abbreviation at_work := (at_work cfg R on pend g).
Local Abbreviation rested := (rested cfg R on pend g).
Local Abbreviation queued := (queued cfg R on pend g).

(** A substitution goal that is not waiting and has no child. *)
Record calm_s (x : Goal) (s : SGoal) : Prop := {
  cs_kind : kind x = KSub s; cs_waitees : waitees x = ∅; cs_child : s_pid s = None }.

Definition put_s (s : SGoal) (x : Goal) : Goal := with_kind (KSub s) x.

Lemma calm_put_s x s s' : calm_s x s -> s_pid s' = None -> calm_s (put_s s' x) s'.
Proof. by intros [H1 H2 H3] Hp; split. Qed.
Lemma calm_locks x s l b : calm_s x s -> calm_s (with_locks_of l b x) s.
Proof. by intros []. Qed.
Lemma calm_child x s : calm_s x s -> child_pid x = None.
Proof. intros [H1 H2 H3]. unfold child_pid. by rewrite H1. Qed.
#[local] Hint Resolve calm_child cs_waitees cs_kind calm_locks : core.

Lemma on_sub_put x s f : kind x = KSub s -> on_sub f x = put_s (f s) x.
Proof. unfold on_sub. by intros ->. Qed.
Lemma tame_sub x s s' : kind x = KSub s -> storePath s' = storePath s -> tame x (put_s s' x).
Proof. intros Hk Hp. split; [done|done|done|unfold hook_of; cbn; by rewrite Hk|]. unfold later. by rewrite Hk. Qed.

Lemma at_upd_sub x s f Φ (X : exn -> WK -> Prop) : kind x = KSub s -> storePath (f s) = storePath s -> s_pid (f s) = s_pid s -> logPipe (f s) = logPipe s ->
  triple (at_work x Φ) (upd_sub g f) (fun _ => at_work (put_s (f s) x) Φ) X.
Proof.
  intros Hk Hp Hpid Hlp. rewrite <- (on_sub_put x s f Hk). apply (at_upd cfg R on pend g x Φ (on_sub f)); rewrite (on_sub_put x s f Hk).
  - by apply (tame_sub x s).
  - left. unfold link. cbn. by rewrite Hk, Hpid, Hlp.
Qed.

Lemma sub_done x s Φ r : calm_s x s -> r <> ecBusy -> (r = ecSuccess -> forall v n, Φ v n -> storePath s ∈ v) ->
  triple (at_work x Φ) (amDone cfg order g r) (fun _ => rested) anyX.
Proof.
  intros Hc Hr Hs. apply triple_amDone; eauto. intros E v n H. unfold done_ok. rewrite (cs_kind _ _ Hc). eauto.
Qed.

Lemma sub_queued x s Φ w : calm_s x s -> s_state s <> s_finished -> s_state s <> s_referencesValid -> queued x Φ w -> rested w.
Proof.
  intros [H1 H2 H3] Hf Hr. apply queued_rested. intros v n _. unfold st_ok, needs. rewrite H1, H3. split; [by split; [|intros [? ?]]|].
  intros _ k. destruct (s_state s); try done; by intros ?%not_elem_of_nil.
Qed.

(** ** [referencesValid] *)

Definition refs_in (s : SGoal) (v : gset str) : Prop := forall p, p ∈ other_references s -> p ∈ v.

Lemma referencesValid_spec x s : calm_s x s ->
  triple (at_work x (fun v _ => nrFailed x = 0%nat -> refs_in s v)) (referencesValid cfg order g) (fun _ => rested) anyX.
Proof.
  intros Hc. unfold referencesValid. eapply triple_bind; [apply at_deref|]. intros x0. apply triple_pure. intros ->.
  eapply triple_bind; [by apply at_get_sub, Hc|]. intros s0. apply triple_pure. intros ->.
  destruct (0 <? nrFailed x)%nat eqn:Ef; [by eapply sub_done|]. apply Nat.ltb_ge in Ef. assert (nrFailed x = 0%nat) as Ef' by (clear -Ef; lia).
  set (Φ := fun v n => _). assert (HΦ : up Φ) by (intros v v' n Hv H E p Hp; by apply Hv, (H E)).
  eapply triple_bind with (R := fun _ => at_work x Φ); [apply triple_forM; intros p Hp; apply at_valid_check; [done|]; intros v n H; by apply H|]. intros ?.
  eapply triple_bind; [by apply (at_upd_sub x s); [apply Hc|..]|]. intros ?. set (s1 := with_sstate _ s).
  assert (Hc1 : calm_s (put_s s1 x) s1) by (by apply (calm_put_s x s); [|apply Hc]).
  eapply triple_post; [by apply triple_wakeUp; eauto|]. intros ? w. by eapply sub_queued.
Qed.

(** ** [tryNext] and [init] *)

Lemma tryNext_of_spec l : forall x s, calm_s x s -> triple (at_work x (fun _ _ => True)) (tryNext_of cfg order l g) (fun _ => rested) anyX.
Proof.
  induction l as [|sb l IH]; intros x s Hc; cbn [tryNext_of].
  { eapply triple_bind; [by apply at_get_sub, Hc|]. intros s0. apply triple_pure. intros ->. by eapply sub_done; [done|destruct (hasSubstitute s)..]. }
  eapply triple_bind; [by apply (at_upd_sub x s); [apply Hc|..]|]. intros ?. set (s1 := with_sub l sb s).
  assert (Hc1 : calm_s (put_s s1 x) s1) by (by apply (calm_put_s x s); [|apply Hc]).
  eapply triple_bind; [by apply at_get_sub|]. intros s0. apply triple_pure. intros ->.
  eapply triple_bind; [eapply triple_any, at_quiet; [done|apply law_querySubst]|]. intros infos.
  destruct (infos !! storePath s1) as [i|]; [|by eapply IH].
  eapply triple_bind; [by apply (at_upd_sub _ s1)|]. intros ?. set (s2 := with_info i s1). set (x2 := put_s s2 _).
  assert (Hc2 : calm_s x2 s2) by (by apply (calm_put_s (put_s s1 x) s1); [|apply Hc1]).
  eapply triple_bind; [eapply triple_pre; [apply triple_need_paths; eauto|apply at_waiting]|]. intros ?.
  apply triple_no_waitees; intros x' G Hw; pose proof (gr_kind _ _ G) as Gk; cbn in Gk; destruct (kind x') as [|s'] eqn:Ek; try done; subst s'.
  - eapply triple_pre; [apply (referencesValid_spec x' s2); split; [done|done|exact (cs_child _ _ Hc2)]|]. intros w. apply at_weaken. intros v n [_ H] _ p Hp.
    apply (H (NSub p)). apply elem_of_app; left. apply list_elem_of_fmap. by exists p.
  - apply triple_waits; rewrite ?(on_sub_put x' s2) by done; [by apply (tame_sub x' s2)|exact (cs_child _ _ Hc2)|rewrite (gr_child _ _ G); by eapply calm_child|done| |].
    + intros v n _. unfold st_ok. cbn. rewrite (cs_child _ _ Hc). by split; [|intros [? ?]].
    + intros k Hk. apply elem_of_app; left. exact Hk.
Qed.

Lemma tryNext_spec x s : calm_s x s -> triple (at_work x (fun _ _ => True)) (tryNext cfg order g) (fun _ => rested) anyX.
Proof.
  intros Hc. unfold tryNext. eapply triple_bind; [by apply at_get_sub, Hc|]. intros s0. apply triple_pure. intros ->. by eapply tryNext_of_spec.
Qed.

(** Whether the path is valid already, unless it is to be repaired. *)
Lemma already_spec x Φ (rep : bool) p : up Φ ->
  triple (at_work x Φ) (if rep then mret false else worldly (w_isValidPath p)) (fun b => at_work x (fun v n => Φ v n /\ (b = true -> p ∈ v))) anyX.
Proof.
  intros HΦ. destruct rep.
  - apply triple_ret. intros w. apply at_weaken. by intros v n H.
  - eapply triple_post; [by apply at_isValid|]. by intros b w [? _].
Qed.

Lemma init_s_spec x s : calm_s x s -> triple (at_work x (fun _ _ => True)) (init_s cfg order g) (fun _ => rested) anyX.
Proof.
  intros Hc. unfold init_s. eapply triple_bind; [by apply at_get_sub, Hc|]. intros s0. apply triple_pure. intros ->.
  eapply triple_bind; [eapply triple_any, at_quiet; [done|apply law_addTempRoot]|]. intros ?.
  eapply triple_bind; [by apply already_spec|]. intros [|].
  - eapply sub_done; [done|done|]. intros _ v n [_ H]. by apply H.
  - destruct (readOnlyMode cfg); [by apply triple_raise|]. eapply triple_pre; [|intros w; apply (at_weaken _ _ _ _ _ x _ (fun _ _ => True)); done].
    eapply triple_bind; [by apply (at_upd_sub x s); [apply Hc|..]|]. intros ?. eapply tryNext_spec. by apply (calm_put_s x s); [|apply Hc].
Qed.

(** ** [tryToRun] *)

Lemma triple_then {A} P (m : M WK A) (k : A -> M WK unit) (k' : A -> M WK unit) (f : M WK unit) Q Q' X :
  triple P (r ← m; _ ← k r; k' r) (fun _ => Q) X -> triple Q f Q' X -> triple P (r ← m; _ ← k r; _ ← k' r; f) Q' X.
Proof.
  intros Hm Hf w Hw. specialize (Hm w Hw). unfold mbind, M_bind in *. destruct (m w) as [r w1|e w1|]; [|done..].
  destruct (k r w1) as [[] w2|e w2|]; [|done..]. destruct (k' r w2) as [[] w3|e w3|]; [|done..]. exact (Hf w3 Hm).
Qed.

Lemma startSubst_spec x s Φ a b c : calm_s x s -> up Φ -> (forall v n, Φ v n -> (n < max_slots cfg)%Z) ->
  triple (at_work x Φ)
    (r ← worldly (w_startSubstituter a b c); _ ← upd_sub g (with_spid (Some r.1) r.2); _ ← childStarted g r.1 {[r.2]} true true; upd_sub g (with_sstate s_finished))
    (fun _ => rested) anyX.
Proof.
  intros Hc HΦ Hn. apply at_facts. intros Hb Hh.
  eapply triple_then with (Q := fun w => exists r, started cfg R on pend g (put_s (with_spid (Some r.1) r.2 s) x) r.1 Φ w).
  - eapply triple_any, triple_post; [apply (start_spec cfg R on pend g x Φ (w_startSubstituter a b c) (fun r => on_sub (with_spid (Some r.1) r.2)) HΦ (law_startSubstituter a b c))|].
    + by eapply calm_child.
    + intros r. rewrite (on_sub_put x s) by apply Hc. split; [|split; [done|]; cbn; by intros ? [= <-]]. by apply (tame_sub x s); [apply Hc|].
    + done.
    + by apply max_slots_small.
    + intros ? w (r & A1 & A2 & A3 & A4 & A5 & A6). rewrite (on_sub_put x s) in A4 by apply Hc. exists r. by split_and!.
  - intros w [r Hr]. revert w Hr. apply (started_rested cfg R on pend g _ r.1 Φ (on_sub (with_sstate s_finished))); try done. apply Hc.
Qed.

(** With the lock. *)
Lemma run_locked_spec x s Φ : calm_s x s -> up Φ -> (forall v n, Φ v n -> (n < max_slots cfg)%Z) ->
  triple (at_work x Φ)
    (v ← (if s_repair s then mret false else worldly (w_isValidPath (storePath s)));
     if (v : bool) then _ ← setDeletion_goal g; amDone cfg order g ecSuccess
     else
       let dest := if s_repair s then storePath s ++ $".tmp" else storePath s in
       _ ← upd_sub g (with_dest dest);
       e ← worldly (w_pathExists dest);
       _ ← (if (e : bool) then worldly (w_deletePathWrapped dest) else mret tt);
       r ← worldly (w_startSubstituter (sub s) (storePath s) dest);
       _ ← upd_sub g (with_spid (Some r.1) r.2);
       _ ← childStarted g r.1 {[r.2]} true true;
       upd_sub g (with_sstate s_finished)) (fun _ => rested) anyX.
Proof.
  intros Hc HΦ Hn. eapply triple_bind; [by apply already_spec|]. intros [|].
  - eapply triple_bind; [apply at_setDeletion|]. intros ?. eapply sub_done; [by apply calm_locks|done|]. intros _ v n [_ H]. by apply H.
  - cbn zeta. set (dest := if s_repair s then _ else _). eapply triple_pre; [|intros w; apply (at_weaken _ _ _ _ _ x _ Φ); by intros v n [? _]].
    eapply triple_bind; [by apply (at_upd_sub x s); [apply Hc|..]|]. intros ?. set (s1 := with_dest dest s).
    eapply triple_bind; [eapply triple_any, at_quiet; [done|apply law_pathExists]|]. intros e.
    eapply triple_bind with (R := fun _ => at_work (put_s s1 x) Φ).
    { destruct e; [|by apply triple_ret]. eapply triple_any, at_quiet; [done|apply law_deletePathWrapped]. }
    intros ?. apply (startSubst_spec _ s1); [|done|done]. by apply (calm_put_s x s); [|apply Hc].
Qed.

Lemma tryToRun_spec x s : calm_s x s -> s_state s = s_tryToRun -> triple (at_work x (fun _ _ => True)) (tryToRun cfg order g) (fun _ => rested) anyX.
Proof.
  intros Hc Hs. unfold tryToRun. set (Φ n := fun (_ : gset str) (k : Z) => k = n). assert (HΦ : forall n, up (Φ n)) by (intros n v v' k _ H; exact H).
  eapply triple_bind with (R := fun n => at_work x (Φ n)).
  { apply triple_gets. intros w (H1 & H2 & H3 & H4 & H5 & H6). by split_and!. }
  intros n. destruct (_ <=? n)%Z eqn:En.
  { eapply triple_post; [by apply triple_waitForBuildSlot; eauto|]. intros ? w. eapply sub_queued; [done|by rewrite Hs..]. }
  assert (Hn : forall v k, Φ n v k -> (k < max_slots cfg)%Z).
  { intros v k ->. unfold max_slots. apply Z.leb_gt in En. destruct (maxBuildJobs cfg =? 0)%Z eqn:E; [lia|]. apply Z.eqb_neq in E. lia. }
  eapply triple_bind; [eapply triple_any; by apply at_unlock|]. intros ?.
  eapply triple_bind; [apply (at_upd cfg R on pend g _ _ (with_locks_of [] false)); [apply tame_locks|by left]|]. intros ?. set (x1 := with_locks_of [] false _).
  assert (Hc1 : calm_s x1 s) by (by apply calm_locks, calm_locks).
  eapply triple_bind; [by apply at_get_sub, Hc1|]. intros s0. apply triple_pure. intros ->.
  eapply triple_bind with (R := fun _ => at_work x1 (Φ n)); [by apply triple_gets|]. intros [|].
  { eapply triple_post; [by apply triple_waitForAnyGoal; eauto|]. intros ? w. eapply sub_queued; [done|by rewrite Hs..]. }
  eapply triple_bind; [by apply lockPaths_spec|]. intros got w (l & Ha & _). revert w Ha. assert (Hc2 := calm_locks x1 s l (deletePaths x1) Hc1).
  destruct got; cbn [negb]; [by apply run_locked_spec|].
  eapply triple_post; [by apply triple_waitForAWhile; eauto|]. intros ? w. eapply sub_queued; [done|by rewrite Hs..].
Qed.

(** ** [finished] *)

Lemma verify_subst_spec x Φ dest str status : up Φ ->
  triple (at_work x Φ) (verify_subst dest str status) (fun _ => at_work x Φ) (okX (at_work x Φ)).
Proof.
  intros HΦ. unfold verify_subst. destruct (statusOk status); cbn [negb]; [|by apply triple_raise].
  eapply triple_bind; [eapply at_quiet; [done|apply law_pathExists]|]. intros [|]; cbn [negb]; [|by apply triple_raise].
  eapply triple_bind; [eapply at_quiet; [done|apply law_hashPath]|]. intros h.
  eapply triple_bind with (R := fun _ => at_work x Φ); [|intros ?; by apply triple_ret].
  destruct (str_eqb str []); [by apply triple_ret|]. destruct (str_find_from _ _ _) as [n|]; [|by apply triple_raise]. cbn zeta.
  destruct (bool_decide _); [by apply triple_raise|].
  eapply triple_bind with (R := fun _ => at_work x Φ).
  { apply triple_lift; [done|]. intros w e Ha E. split; [|done]. pose proof (tidy_parseHash16or32 (parseHashType (take n str)) (drop (S n) str)) as Ht. by rewrite E in Ht. }
  intros eh. eapply triple_bind with (R := fun _ => at_work x Φ).
  - destruct (bool_decide _); [by apply triple_ret|]. eapply triple_bind; [eapply at_quiet; [done|apply law_hashPath]|]. intros ?. by apply triple_ret.
  - intros ah. destruct (Hash_neqb eh ah); [by apply triple_raise|by apply triple_ret].
Qed.

(** What was fetched is registered. *)
Lemma register_spec x s Φ info : calm_s x s -> up Φ -> path info = storePath s ->
  triple (at_work x Φ)
    (_ ← worldly (w_canonicalisePathMetaData (destPath s));
     _ ← worldly (w_optimisePath (destPath s));
     _ ← (if s_repair s then worldly (w_replaceValidPath (storePath s) (destPath s)) else mret tt);
     _ ← worldly (w_registerValidPath info);
     _ ← setDeletion_goal g;
     _ ← worldly (w_markContentsGood (storePath s));
     amDone cfg order g ecSuccess) (fun _ => rested) anyX.
Proof.
  intros Hc HΦ Hi. eapply triple_bind; [eapply triple_any, at_quiet; [done|apply law_canonicalise]|]. intros ?.
  eapply triple_bind; [eapply triple_any, at_quiet; [done|apply law_optimisePath]|]. intros ?.
  eapply triple_bind with (R := fun _ => at_work x Φ).
  { destruct (s_repair s); [|by apply triple_ret]. eapply triple_any, at_quiet; [done|apply law_replaceValidPath]. }
  intros ?. set (Ψ := fun v (n : Z) => Φ v n /\ storePath s ∈ v). assert (HΨ : up Ψ) by (apply up_and; [done|intros v v' Hv; apply Hv]).
  eapply triple_bind with (R := fun _ => at_work x Ψ).
  { eapply triple_any, triple_post; [apply at_keeps; [done|apply law_registerValidPath]|]. intros ? w [Ha Hp]. apply (at_add cfg R on pend g x Φ (fun v => storePath s ∈ v)); [done|]. by rewrite <- Hi. }
  intros ?. eapply triple_bind; [apply at_setDeletion|]. intros ?.
  eapply triple_bind; [eapply triple_any, at_quiet; [done|apply law_markContentsGood]|]. intros ?.
  eapply sub_done; [by apply calm_locks|done|]. by intros _ v n [_ H].
Qed.

Lemma finished_spec x s p : kind x = KSub s -> waitees x = ∅ -> s_pid s = Some p ->
  triple (fun w => at_work x (fun _ _ => True) w /\ has_child g p w) (finished cfg order g) (fun _ => rested) anyX.
Proof.
  intros Hk Hw Hp w [Ha Hch]. unfold finished, get_sub. assert (Hx : goals w !! g = Some x) by apply Ha.
  assert (E : (x ← deref g; match kind x with KSub s => mret s | KDrv _ => raise eUndefined ($"not a substitution goal") end) w = Done s w) by (by rewrite (run_goal _ _ _ _ Hx), Hk).
  rewrite (run_bind _ _ _ _ _ E), Hp. cbn [default]. cbn zeta. clear E Hx. assert (HP := conj Ha Hch). clear Ha Hch. revert w HP.
  set (F := on_sub (fun s => with_spid None (logPipe s) s)). assert (EF : F x = put_s (with_spid None (logPipe s) s) x) by (by apply (on_sub_put x s (fun s => with_spid None (logPipe s) s))).
  eapply triple_wait; [apply (end_spec cfg order order_perm R on pend g x _ p F); [done|unfold child_pid; by rewrite Hk|rewrite EF; by apply (tame_sub x s)|by rewrite EF]|].
  intros status. rewrite EF. clear EF F. set (s1 := with_spid _ _ s). set (x1 := put_s s1 x). set (Φ := fun _ _ => _). assert (HΦ : up Φ) by done.
  assert (Hc1 : calm_s x1 s1) by done.
  eapply triple_bind with (R := fun _ => at_work x1 Φ).
  { destruct (statusOk status); [|by apply triple_ret]. eapply triple_any, at_quiet; [done|apply law_readSubstituter]. }
  intros expected. eapply triple_bind with (R := fun _ => at_work x1 Φ).
  { apply triple_try with (Y := okX (at_work x1 Φ)); [|intros e _; apply triple_ret; by intros w [_ ?]|by intros e w _ [? _]].
    eapply triple_bind; [by apply verify_subst_spec|]. intros ?. by apply triple_ret. }
  intros [h|]; [by apply (register_spec x1 s1)|].
  eapply triple_bind; [by apply (at_upd_sub x1 s1)|]. intros ?. set (s2 := with_sstate _ s1). assert (Hc2 : calm_s (put_s s2 x1) s2) by done.
  eapply triple_post; [by apply triple_wakeUp; eauto|]. intros ? w. by eapply sub_queued.
Qed.

Lemma work_s_spec x s : kind x = KSub s -> waitees x = ∅ ->
  triple (fun w => at_work x (woken x) w /\ forall p, child_pid x = Some p -> has_child g p w) (work_s cfg order g s) (fun _ => rested) anyX.
Proof.
  intros Hk Hw w [Ha Hc]. assert (Hs : woken x (V w) (nrLocalBuilds w)) by apply Ha. unfold woken, st_ok, needs in Hs. rewrite Hk in Hs. destruct Hs as (S1 & Hn).
  assert (Hcalm : s_state s <> s_finished -> calm_s x s).
  { intros Hd. split; auto. destruct (s_pid s) as [p|]; [|done]. destruct Hd. apply S1. by eexists. }
  assert (Hto : forall Φ : gset str -> Z -> Prop, Φ (V w) (nrLocalBuilds w) -> at_work x Φ w) by (intros Φ HΦ; destruct Ha as (H1 & H2 & H3 & H4 & H5 & _); by split_and!).
  unfold work_s. destruct (s_state s) eqn:Ed.
  - apply (init_s_spec x s); [by apply Hcalm|by apply Hto].
  - apply (tryNext_spec x s); [by apply Hcalm|by apply Hto].
  - apply (referencesValid_spec x s); [by apply Hcalm|]. apply Hto. intros Hf p Hp. apply (Hn Hf (NSub p)). apply list_elem_of_fmap. by exists p.
  - apply (tryToRun_spec x s); [by apply Hcalm|done|by apply Hto].
  - destruct (proj1 S1 eq_refl) as [p Hp]. apply (finished_spec x s p Hk Hw Hp). split; [by apply Hto|]. apply Hc. unfold child_pid. by rewrite Hk.
Qed.
End Subst.
