(* ===== verification/GoalRun.v ===== *)
(** * The loop of the worker keeps the invariant

    [Worker::run] and [Worker::waitForInput], when there are no build hooks and no timeouts: only the assertion
    that some goal is awake can fail, and when there is nothing to wait for every goal that is not done waits for a goal that is not done, for any
    goal to finish, or for a build slot that does not exist. *)

From Stdlib Require Import ZArith Lia Ascii.
From stdpp Require Import base strings sorting numbers gmap sets list relations.
From S2P Require Import Prelude Effects Util Hash StorePath Derivations Wire Globals GoalData Goals GoalInv GoalSteps GoalHoare GoalWork GoalStates GoalBuild GoalSubst.

Section Run.
Context {St : Type} `{WO : World St} {WL : WorldLaws St} (cfg : Settings) (order : gset nat -> list nat).
Context (order_perm : forall X, order X ≡ₚ elements X) (linux32 : bool) (NIX_BUILD_HOOK : str).
Context (no_hook : useBuildHook cfg = false \/ NIX_BUILD_HOOK = []) (jobs : (0 <= maxBuildJobs cfg < 2 ^ 32)%Z).
Context (no_silence : maxSilentTime cfg = 0%Z) (no_timeout : buildTimeout cfg = 0%Z).
Abbreviation WK := (Worker St).
Implicit Types w : WK.
Implicit Types x : Goal.
Implicit Types pend : gset nat.
Context (R : list (nat * Req)) (on : bool).
Local Abbreviation INV := (INV cfg).

(** No code of a goal is running; [pend] are the goals that will be visited. *)
Definition idle pend w : Prop := INV R on pend ∅ None w /\ locals w = [].

Lemma stable_idle pend : stable (idle pend).
Proof.
  intros w w' E [H1 H2]. split; [by eapply stable_INV|]. destruct E as (Ec & _). unfold core in Ec. injection Ec as _ _ _ E4 _ _ _ _ _ _ _ _ _. by rewrite E4.
Qed.

Lemma idle_quiet {A} pend (m : M St A) Q : keeps wv wprocs m Q -> triple (idle pend) (worldly m) (fun _ => idle pend) anyX.
Proof. intros Hm. eapply triple_any, triple_quiet; [apply stable_idle|by eapply keeps_quiet]. Qed.

(** ** Working through the goals that are awake *)

Lemma INV_unpend pend ex fin w g : (goals w !! g = None \/ g ∈ ex) -> INV R on ({[g]} ∪ pend) ex fin w -> INV R on pend ex fin w.
Proof.
  intros Hg I. assert (Hq : forall k, inq pend w k -> inq ({[g]} ∪ pend) w k) by (intros k; unfold inq; rewrite elem_of_union; tauto).
  destruct I. split; try assumption; eauto.
  - clear -i_disj. unfold disj in *. set_solver.
  - intros k x Hx Hb. destruct (i_fin k x Hx Hb) as (? & ? & ? & ? & ?). split_and!; auto.
  - intros k x Hx Hb He. destruct (i_acc k x Hx Hb He) as [Hk|?]; [left|by right]. unfold inq in *. rewrite elem_of_union, elem_of_singleton in Hk.
    destruct Hk as [?|[[->|?]|?]]; [tauto| |tauto..]. destruct Hg; [congruence|done].
Qed.

Lemma INV_take ex fin w : INV R on ∅ ex fin w -> INV R on (awake w) ex fin (with_awake ∅ w).
Proof.
  intros I. assert (Hq : forall k, inq (awake w) (with_awake ∅ w) k <-> inq ∅ w k) by (intros k; unfold inq, asleep; cbn; rewrite elem_of_empty; tauto).
  destruct I. split; try assumption.
  - intros k. rewrite Hq. auto.
  - clear -i_disj. unfold disj in *. cbn. set_solver.
  - intros k x Hx. rewrite Hq. eauto.
  - intros k x Hx Hb. rewrite Hq. exact (i_fin k x Hx Hb).
  - intros k x Hx Hb He. rewrite Hq. exact (i_acc k x Hx Hb He).
Qed.

Lemma work_goal_spec pend n g x : waitees x = ∅ ->
  triple (fun w => at_work cfg R on pend g x (woken x) w /\ forall p, child_pid x = Some p -> has_child g p w)
    (work_goal cfg order linux32 NIX_BUILD_HOOK n g) (fun _ => rested cfg R on pend g) anyX.
Proof.
  intros Hw w [Ha Hc]. unfold work_goal. rewrite (run_goal g x) by apply Ha. destruct (kind x) as [d|s] eqn:Ek.
  - exact (work_d_spec cfg order order_perm linux32 NIX_BUILD_HOOK no_hook jobs R on pend g n x d Ek Hw w (conj Ha Hc)).
  - exact (work_s_spec cfg order order_perm jobs R on pend g x s Ek Hw w (conj Ha Hc)).
Qed.

(** What is known of a goal when it is visited. *)
Lemma visit pend g x w : g ∉ pend -> idle ({[g]} ∪ pend) w -> goals w !! g = Some x ->
  waitees x = ∅ /\ at_work cfg R on pend g x (woken x) (with_locals [g] w) /\ forall p, child_pid x = Some p -> has_child g p (with_locals [g] w).
Proof.
  intros Hg [HI Hl] Hx. assert (Hq : inq ({[g]} ∪ pend) w g) by (right; left; by apply elem_of_union_l, elem_of_singleton).
  assert (I0 : INV R on pend {[g]} None w).
  { apply (INV_unpend pend {[g]} None w g); [right; by apply elem_of_singleton|]. rewrite <- (union_empty_r_L {[g]}) at 2. by apply INV_open. }
  destruct HI. assert (Hw : waitees x = ∅) by (by eapply i_inq).
  assert (Hb : exitCode x = ecBusy).
  { destruct (decide (exitCode x = ecBusy)) as [|Hb]; [done|]. destruct (i_fin g x Hx Hb) as (_ & _ & ? & _). done. }
  split_and!; [done| |].
  - split_and!; try done.
    + apply INV_locals; [|done]. intros k ->%list_elem_of_singleton. by eexists.
    + change (~ inq pend w g). clear -i_disj Hg. unfold inq, asleep, disj in *. set_solver.
    + split; [exact (i_st g x Hx Hb (not_elem_of_empty g))|]. intros Hf k Hk. destruct (i_needs g x k Hx Hb (not_elem_of_empty g) Hf Hk) as [?|(h & y & Hh & _)]; [done|].
      rewrite Hw in Hh. by apply not_elem_of_empty in Hh.
  - intros p Hp. destruct (i_run g x p Hx Hp (not_elem_of_empty g)) as (_ & _ & ?). done.
Qed.

Lemma work_one_spec n pend g : g ∉ pend ->
  triple (idle ({[g]} ∪ pend))
    (o ← lock_ptr g; match o with Some _ => _ ← enter g; _ ← work_goal cfg order linux32 NIX_BUILD_HOOK n g; leave order g | None => mret tt end)
    (fun _ => idle pend) anyX.
Proof.
  intros Hg w Hi. unfold lock_ptr. rewrite run_gets. destruct (goals w !! g) as [x|] eqn:Hx.
  - destruct (visit pend g x w Hg Hi Hx) as (Hw & Ha & Hc). unfold enter. rewrite run_modify. destruct Hi as [_ Hl]. rewrite Hl.
    set (w1 := with_locals [g] w) in *. clearbody w1. revert w1 Ha Hc. intros w1 Ha Hc. assert (HP := conj Ha Hc). clear Ha Hc Hl Hx w. revert w1 HP.
    eapply triple_bind; [by apply work_goal_spec|]. intros ? w [HI Hl].
    pose proof (triple_leave cfg order order_perm R on pend ∅ None g [] (with_locals [] w) w) as Ht.
    match type of Ht with ?P -> _ => assert P as HP by (split_and!; [done|done|by intros k ?%not_elem_of_empty|apply shrinks_refl]); specialize (Ht HP) end.
    destruct (leave order g w) as [? w'|e w'|]; [|done..]. by destruct Ht as (? & ? & _).
  - destruct Hi as [HI Hl]. split; [|done]. eapply INV_unpend; [|done]. by left.
Qed.

(** The goals that were not visited are forgotten when no goal is left at the top. *)
Definition settled w : Prop := exists pend, idle pend w /\ (topGoals w = ∅ \/ pend = ∅).

Lemma work_all_spec n gs : NoDup gs -> triple (idle (list_to_set gs)) (work_all cfg order linux32 NIX_BUILD_HOOK n gs) (fun _ => settled) anyX.
Proof.
  induction gs as [|g gs IH]; intros Hnd; cbn [work_all]; [apply triple_ret; intros w Hw; exists ∅; by split; [|right]|].
  apply NoDup_cons in Hnd as [Hg Hnd]. eapply triple_bind; [eapply idle_quiet, law_checkInterrupt|]. intros ?.
  intros w Hw. assert (Hone := work_one_spec n (list_to_set gs) g ltac:(by rewrite elem_of_list_to_set) w Hw). unfold lock_ptr in *. rewrite run_gets in Hone |- *.
  unfold mbind at 1, M_bind at 1. set (m := match goals w !! g with Some _ => _ | None => _ end) in *. destruct (m w) as [? w'|e w'|]; [|done..].
  rewrite run_gets. case_bool_decide as Ht; [|by apply IH]. exists (list_to_set gs). by split; [|left].
Qed.

Lemma work_awake_spec n : triple settled (work_awake cfg order linux32 NIX_BUILD_HOOK n) (fun _ w => settled w /\ (awake w = ∅ \/ topGoals w = ∅)) anyX.
Proof.
  induction n as [|n IH]; cbn [work_awake]; intros w Hw; rewrite run_gets; cbn [id].
  all: destruct (bool_decide (awake w = ∅)) eqn:Ea; cbn [orb]; [apply bool_decide_eq_true in Ea; by split; [|left]|].
  all: destruct (bool_decide (topGoals w = ∅)) eqn:Et; [apply bool_decide_eq_true in Et; by split; [|right]|].
  1: done.
  apply bool_decide_eq_false in Et. destruct Hw as (pend & [HI Hl] & [?| ->]); [done|]. rewrite run_modify.
  assert (Hi : idle (list_to_set (order (awake w))) (with_awake ∅ w)).
  { split; [|done]. replace (list_to_set (order (awake w))) with (awake w); [by apply INV_take|]. apply set_eq. intros k. by rewrite elem_of_list_to_set, (elem_of_order order order_perm). }
  revert Hi. generalize (with_awake ∅ w). eapply triple_bind; [apply work_all_spec, (NoDup_order order order_perm)|]. intros ?. exact IH.
Qed.

(** ** Waiting for input *)

(** Looking after the child [pid] of [g], with descriptors [l] that are ready. *)
Definition tending (pid : Z) (g : nat) (l : list Z) w : Prop :=
  INV R on ∅ ∅ None w /\ locals w = [g] /\ (exists c, children w !! pid = Some c /\ c_goal c = g) /\
  forall x s, goals w !! g = Some x -> kind x = KSub s -> forall fd, fd ∈ l -> fd = logPipe s.

Lemma stable_tending pid g l : stable (tending pid g l).
Proof.
  intros w w' E (H1 & H2 & H3 & H4). split; [by eapply stable_INV|]. destruct E as (Ec & _). unfold core in Ec.
  injection Ec as E1 _ _ E4 _ _ _ _ _ E10 _ _ _. by rewrite E1, E4, E10.
Qed.

Lemma tending_goal pid g l w : tending pid g l w -> exists x, goals w !! g = Some x /\ exitCode x = ecBusy /\ child_pid x = Some pid.
Proof.
  intros (HI & _ & (c & Hc & Hg) & _). destruct HI. destruct (i_child pid c Hc) as (_ & x & Hx & Hp & _). rewrite Hg in Hx. exists x. split_and!; [done| |done].
  destruct (decide (exitCode x = ecBusy)) as [|Hb]; [done|]. destruct (i_fin g x Hx Hb) as (_ & ? & _). congruence.
Qed.

Lemma tending_wake pid g l (X : exn -> WK -> Prop) : triple (tending pid g l) (wakeUp g) (fun _ => tending pid g l) X.
Proof.
  intros w Ht. destruct (tending_goal pid g l w Ht) as (x & Hx & Hb & Hp). destruct Ht as (HI & Hl & Hc & Hf). cbn. split_and!; [|done..].
  assert (HI' := HI). destruct HI'. destruct (i_run g x pid Hx Hp (not_elem_of_empty g)) as (Hw & Ha & Hch).
  eapply (INV_queue cfg R on ∅ ∅ None w g x ({[g]} ∪ awake w) (wantingToBuild w) (waitingForAnyGoal w) (waitingForAWhile w)); try done.
  - by apply INV_open.
  - intros k Hk. rewrite elem_of_union, elem_of_singleton. tauto.
  - clear -i_disj Ha. unfold disj, asleep in *. cbn. set_solver.
  - left. cbn. by apply elem_of_union_l, elem_of_singleton.
  - exact (i_st g x Hx Hb (not_elem_of_empty g)).
  - exact (fun Hf n => i_needs g x n Hx Hb (not_elem_of_empty g) Hf).
  - intros q Hq. split; [done|]. destruct (i_run g x q Hx Hq (not_elem_of_empty g)) as (_ & _ & ?). done.
Qed.

Lemma INV_child w pid c c' : children w !! pid = Some c -> c_goal c' = c_goal c -> inBuildSlot c' = inBuildSlot c -> c_fds c' ⊆ c_fds c ->
  INV R on ∅ ∅ None w -> INV R on ∅ ∅ None (with_children (<[pid := c']> (children w)) (nrLocalBuilds w) w).
Proof.
  intros Hc Hg Hs Hf I. destruct I. split; try assumption; cbn.
  - intros k x p Hx Hp He. destruct (i_run k x p Hx Hp He) as (? & ? & d & Hd & Hk). split_and!; [done..|]. cbn.
    destruct (decide (p = pid)) as [->|]; [exists c'; rewrite lookup_insert, decide_True by done; split; [done|congruence]|exists d; by rewrite lookup_insert_ne].
  - intros p d Hd. apply lookup_insert_Some in Hd as [[<- <-]|[_ Hd]]; [|eauto]. destruct (i_child pid c Hc) as (? & x & Hx & Hp & Hlp).
    split; [congruence|]. exists x. rewrite Hg. split; [done|]. split; [done|]. intros sg Hsg. etrans; [exact Hf|by apply Hlp].
  - rewrite map_size_insert_Some by (by eexists). done.
  - rewrite dom_insert_lookup_L; [done|by eexists].
Qed.

Lemma tending_upd_child pid g l F (X : exn -> WK -> Prop) :
  (forall c, c_goal (F c) = c_goal c /\ inBuildSlot (F c) = inBuildSlot c /\ c_fds (F c) ⊆ c_fds c) ->
  triple (tending pid g l) (upd_child pid F) (fun _ => tending pid g l) X.
Proof.
  intros HF w (HI & Hl & (c & Hc & Hg) & Hf). destruct (HF c) as (F1 & F2 & F3). cbn.
  assert (E : alter F pid (children w) = <[pid := F c]> (children w)).
  { apply map_eq. intros k. destruct (decide (k = pid)) as [->|]; [by rewrite lookup_alter, lookup_insert, Hc, decide_True, decide_True|by rewrite lookup_alter_ne, lookup_insert_ne]. }
  rewrite E. split_and!; [by eapply INV_child|done| |done]. exists (F c). cbn. rewrite lookup_insert, decide_True by done. split; [done|congruence].
Qed.

Lemma handle_fd_spec pid g l after fd : fd ∈ l -> triple (tending pid g l) (handle_fd g pid after fd) (fun _ => tending pid g l) anyX.
Proof.
  intros Hfd. unfold handle_fd. eapply triple_bind; [eapply triple_any, triple_quiet; [apply stable_tending|apply law_read]|]. intros [| |data]; [by apply triple_ret|..].
  - eapply triple_bind with (R := fun _ => tending pid g l); [|intros ?; apply tending_upd_child; intros c; cbn; split_and!; [done|done|apply subseteq_difference_l; done]].
    intros w Ht. destruct (tending_goal pid g l w Ht) as (x & Hx & _). unfold handleEOF. rewrite (run_goal _ _ _ _ Hx).
    destruct (kind x) as [|s]; [by apply tending_wake|]. destruct (fd =? logPipe s)%Z; [by apply tending_wake|done].
  - eapply triple_bind with (R := fun _ => tending pid g l); [|intros ?; by apply tending_upd_child].
    intros w Ht. destruct (tending_goal pid g l w Ht) as (x & Hx & _). unfold handleChildOutput. rewrite (run_goal _ _ _ _ Hx).
    revert w Ht Hx. intros w Ht Hx. assert (HP : tending pid g l w /\ goals w !! g = Some x) by done. clear Ht Hx. revert w HP.
    eapply triple_bind with (R := fun _ => tending pid g l); [|intros ?; eapply triple_any, triple_quiet; [apply stable_tending|apply law_childOutput]].
    intros w [Ht Hx]. destruct (kind x) as [|s] eqn:Ek; [done|]. destruct Ht as (H1 & H2 & H3 & H4). rewrite (H4 x s Hx Ek fd Hfd), Z.eqb_refl. done.
Qed.

Lemma elem_of_sorted_Z k (X : gset Z) : k ∈ sorted_Z X <-> k ∈ X.
Proof. unfold sorted_Z. by rewrite merge_sort_Permutation, elem_of_elements. Qed.

Lemma handle_child_spec ready before after pid : triple (idle ∅) (handle_child cfg order ready before after pid) (fun _ => idle ∅) anyX.
Proof.
  unfold handle_child. eapply triple_bind; [eapply idle_quiet, law_checkInterrupt|]. intros ? w Hw. rewrite run_gets.
  destruct (children w !! pid) as [c|] eqn:Hc; [|done]. set (g := c_goal c). set (l := sorted_Z (c_fds c ∩ ready)).
  assert (exists x, goals w !! g = Some x /\ owns pid c x) as (x & Hx & Ho) by (destruct Hw as [[] _]; by destruct (i_child pid c Hc) as (_ & ?)).
  unfold lock_ptr. rewrite run_gets, Hx. unfold check. rewrite bool_decide_true by (by eexists). rewrite run_ret. unfold enter. rewrite run_modify.
  assert (Ht : tending pid g l (with_locals (g :: locals w) w)).
  { destruct Hw as [HI Hl]. rewrite Hl. split_and!; [|done|by exists c|].
    - apply INV_locals; [|done]. intros k ->%list_elem_of_singleton. by eexists.
    - intros y s Hy Hs fd Hfd. cbn in Hy. rewrite Hx in Hy. injection Hy as <-. apply elem_of_sorted_Z, elem_of_intersection in Hfd as [Hfd _].
      destruct Ho as [_ Ho]. by apply (Ho s Hs), elem_of_singleton in Hfd. }
  revert Ht. generalize (with_locals (g :: locals w) w). eapply triple_bind; [apply triple_forM; intros fd Hfd; by apply handle_fd_spec|]. intros ?.
  eapply triple_bind with (R := fun _ => tending pid g l); [by apply triple_gets|]. intros c'.
  eapply triple_bind with (R := fun _ => tending pid g l).
  { unfold silent. rewrite no_silence. cbn. destruct c'; by apply triple_ret. }
  intros ?. rewrite no_timeout. cbn [Z.eqb negb andb]. eapply triple_bind with (R := fun _ => tending pid g l); [by apply triple_ret|].
  intros ? w1 (HI & Hl & _). pose proof (triple_leave cfg order order_perm R on ∅ ∅ None g [] (with_locals [] w1) w1) as Ht.
  match type of Ht with ?P -> _ => assert P as HP by (split_and!; [done|done|by intros k ?%not_elem_of_empty|apply shrinks_refl]); specialize (Ht HP) end.
  destruct (leave order g w1) as [? w'|e w'|]; [|done..]. by destruct Ht as (? & ? & _).
Qed.

Lemma wake_sleepers_spec after : triple (idle ∅) (wake_sleepers cfg order after) (fun _ => idle ∅) anyX.
Proof.
  intros w Hw. unfold wake_sleepers. rewrite run_gets. cbn [id]. destruct (_ && _); [|done]. rewrite run_modify.
  set (w1 := with_times after (lastWait w) w). assert (Hi : idle ∅ w1) by (by apply (stable_idle ∅ w)). destruct Hi as [HI Hl].
  destruct (wake_run (order (waitingForAWhile w)) w1) as (a & E & Ha). rewrite (run_bind _ _ _ _ _ E). cbn. split; [|done].
  assert (Ha' : forall k, k ∈ a <-> k ∈ awake w \/ (k ∈ waitingForAWhile w /\ is_Some (goals w !! k))) by (intros k; by rewrite Ha, (elem_of_order order order_perm)).
  apply (INV_wake cfg R on ∅ ∅ None w1 a (wantingToBuild w) (waitingForAnyGoal w) ∅); [..|done|done].
  - intros k. unfold inq, asleep. cbn. rewrite Ha'. clear. set_solver.
  - intros k. unfold asleep. cbn. clear. set_solver.
  - intros k y Hy. unfold inq, asleep. cbn. rewrite Ha'. assert (is_Some (goals w !! k)) by (by eexists). tauto.
  - destruct HI. unfold disj in *. cbn in *. assert (Hs : forall k, k ∈ a -> k ∈ awake w \/ k ∈ waitingForAWhile w) by (intros k Hk; apply Ha' in Hk; tauto).
    clear -i_disj Hs. destruct i_disj as (D1 & D2 & D3 & D4 & D5 & D6 & D7 & D8 & D9 & D10). split_and!; set_solver.
Qed.

Lemma waitForInput_spec : triple (idle ∅) (waitForInput cfg order) (fun _ => idle ∅) anyX.
Proof.
  unfold waitForInput. eapply triple_bind; [eapply idle_quiet, (proj1 law_time)|]. intros before.
  eapply triple_bind with (R := fun _ => idle ∅); [by apply triple_gets|]. intros w0. cbn zeta.
  eapply triple_bind; [apply triple_misc; [apply stable_idle|by intros w]|]. intros ?.
  eapply triple_bind; [eapply idle_quiet, law_select|]. intros [ready|]; [|by apply triple_ret].
  eapply triple_bind; [eapply idle_quiet, (proj1 law_time)|]. intros after.
  eapply triple_bind; [apply triple_misc; [apply stable_idle|by intros w]|]. intros ?.
  eapply triple_bind with (R := fun _ => idle ∅); [by apply triple_gets|]. intros pids.
  eapply triple_bind; [apply triple_forM; intros pid _; apply handle_child_spec|]. intros ?. apply wake_sleepers_spec.
Qed.

(** ** [run] *)

(** No goal is awake, no child runs and no goal waits for a while: nothing can happen any more. *)
Record stalled w : Prop := { sl_top : topGoals w <> ∅; sl_awake : awake w = ∅; sl_children : children w = ∅; sl_while : waitingForAWhile w = ∅ }.

(** What the loop throws then. *)
Definition stop_exn : exn :=
  if (maxBuildJobs cfg =? 0)%Z then Exn eError ($"unable to start any build; either increase `--max-jobs' or enable distributed builds")
  else Exn eAssertion ($"!awake.empty()").
Lemma loop_wait_stop w : stalled w -> loop_wait cfg order w = Raised stop_exn w.
Proof.
  intros [_ Ha Hc Hw]. unfold loop_wait, stop_exn. rewrite run_gets. cbn [id]. rewrite !bool_decide_true by done. cbn [negb orb andb].
  by destruct (maxBuildJobs cfg =? 0)%Z.
Qed.
Lemma loop_wait_input w : topGoals w <> ∅ -> awake w = ∅ -> ~ stalled w -> loop_wait cfg order w = waitForInput cfg order w.
Proof.
  intros Ht Ha Hs. unfold loop_wait. rewrite run_gets. cbn [id]. case_bool_decide as Hc; cbn [negb orb]; [|done].
  case_bool_decide as Hw; [|done]. by destruct Hs.
Qed.

Definition loopX (e : exn) w : Prop := catch_all (exn_kind e) = true \/ (e = Exn eAssertion ($"!awake.empty()") /\ stalled w).

Lemma anyX_loopX e w : anyX e w -> loopX e w.
Proof. intros [? _]. by left. Qed.

(** The first half of a round. *)
Lemma round_spec n : triple (idle ∅) (_ ← worldly w_checkInterrupt; work_awake cfg order linux32 NIX_BUILD_HOOK n)
  (fun _ w => settled w /\ (awake w = ∅ \/ topGoals w = ∅)) anyX.
Proof.
  eapply triple_bind; [eapply idle_quiet, law_checkInterrupt|]. intros ?. eapply triple_pre; [apply work_awake_spec|]. intros w Hw. exists ∅. by split; [|right].
Qed.

Lemma settled_idle w : settled w -> topGoals w <> ∅ -> idle ∅ w.
Proof. by intros (pend & Hi & [?| ->]). Qed.

Lemma stalled_dec w : Decision (stalled w).
Proof.
  destruct (decide (topGoals w <> ∅ /\ awake w = ∅ /\ children w = ∅ /\ waitingForAWhile w = ∅)) as [(? & ? & ? & ?)|H]; [by left|].
  right. intros []. by apply H.
Qed.

Lemma run_loop_spec n : triple (idle ∅) (run_loop cfg order linux32 NIX_BUILD_HOOK n) (fun _ w => settled w /\ topGoals w = ∅) loopX.
Proof.
  induction n as [|n IH]; [by intros w|]. intros w Hw. pose proof (round_spec (S n) w Hw) as Hr. cbn [run_loop]. unfold mbind, M_bind in Hr |- *.
  destruct (worldly w_checkInterrupt w) as [[] w1|e w1|]; [|by apply anyX_loopX|done].
  destruct (work_awake cfg order linux32 NIX_BUILD_HOOK (S n) w1) as [[] w2|e w2|]; [|by apply anyX_loopX|done]. cbn [gets id]. destruct Hr as [Hs Ha].
  case_bool_decide as Ht; [done|]. destruct Ha as [Ha|]; [|done]. destruct (stalled_dec w2) as [Hst|Hst].
  - rewrite loop_wait_stop by done. unfold stop_exn. destruct (maxBuildJobs cfg =? 0)%Z; [by left|by right].
  - rewrite loop_wait_input by done. pose proof (waitForInput_spec w2 (settled_idle w2 Hs Ht)) as Hi.
    destruct (waitForInput cfg order w2) as [[] w3|e w3|]; [|by apply anyX_loopX|done]. by apply IH.
Qed.
End Run.
