(* ===== verification/GoalTop.v ===== *)
(** * [buildPaths]: what the scheduler promises

    From the empty worker to the end of [run]: the goals of the requests are made and held, and when none of them failed the outputs
    that were asked for are valid. *)

From Stdlib Require Import ZArith Lia Ascii.
From stdpp Require Import base strings sorting numbers gmap sets list relations.
From S2P Require Import Prelude Effects Util Hash StorePath Derivations Wire Globals GoalData Goals GoalInv GoalWorld GoalSteps GoalHoare GoalWork GoalStates GoalBuild GoalSubst GoalRun.

(** No timeouts, and no build hook: the setting is off or the variable [NIX_BUILD_HOOK] is not set.  The default settings are of this kind
    when the variable is not set. *)
Record plain (cfg : Settings) (NIX_BUILD_HOOK : str) : Prop := {
  pl_hook : useBuildHook cfg = false \/ NIX_BUILD_HOOK = []; pl_jobs : (0 <= maxBuildJobs cfg < 2 ^ 32)%Z;
  pl_silence : maxSilentTime cfg = 0%Z; pl_timeout : buildTimeout cfg = 0%Z }.

Section Top.
Context {St : Type} `{WO : World St} {WL : WorldLaws St} (cfg : Settings) (order : gset nat -> list nat).
Context (order_perm : forall X, order X ≡ₚ elements X) (linux32 : bool) (NIX_BUILD_HOOK : str) (Hplain : plain cfg NIX_BUILD_HOOK).
Abbreviation WK := (Worker St).
Implicit Types w : WK.
Implicit Types x : Goal.
Implicit Types R : list (nat * Req).
Local Abbreviation INV := (INV cfg).

(** ** Making the goals *)

(** Before the loop: no goal has worked. *)
Definition fresh_goals R w : Prop :=
  INV R false ∅ ∅ None w /\ locals w = [] /\ topGoals w = ∅ /\ forall g x, goals w !! g = Some x -> exitCode x = ecBusy.

Lemma fresh_new ind locked st : fresh_goals [] (Worker_new ind locked st).
Proof.
  clear. split_and!; try done. unfold Worker_new. split; cbn; try done; try set_solver.
  - intros g [Hg|[Hg|[Hg|[Hg|Hg]]]]; by apply not_elem_of_empty in Hg.
  - split; [done|]. unfold max_slots. lia.
Qed.

Lemma fresh_make R w K d s :
  let k := nextGoal w in let y := new_goal K in
  child_pid y = None -> hook_of y = None -> needs y = [] -> st_ok (V w) y ->
  (forall p h, d !! p = Some h -> derivationGoals w !! p = Some h \/ (h = k /\ provides y (NDrv p))) ->
  (forall p h, s !! p = Some h -> substitutionGoals w !! p = Some h \/ (h = k /\ provides y (NSub p))) ->
  fresh_goals R w -> fresh_goals R (with_awake ({[k]} ∪ awake w) (with_maps d s (with_new k y w))).
Proof.
  intros k y Hc Hh Hn Hs Hd Hsm (HI & Hl & Ht & Hb). split_and!; [by apply INV_new|done|done|].
  intros g x Hx. cbn in Hx. apply lookup_insert_Some in Hx as [[_ <-]|[_ Hx]]; [done|by eapply Hb].
Qed.

Definition serves_at (g : nat) (r : Req) w : Prop := exists x, goals w !! g = Some x /\ serves x r.

Lemma make_drv_top R p outs rep w : fresh_goals R w ->
  exists g w', makeDerivationGoal p outs rep w = Done g w' /\ fresh_goals R w' /\
    exists x d, goals w' !! g = Some x /\ kind x = KDrv d /\ drvPath d = p /\ covers (wantedOutputs d) outs.
Proof.
  intros Hf. unfold makeDerivationGoal. rewrite run_gets. destruct (find_goal (derivationGoals w) p w) as [h|] eqn:E.
  - apply find_goal_Some in E as [E [y Hy]]. exists h, (with_goals (alter (on_drv (addWantedOutputs outs)) h (goals w)) w). split; [done|].
    destruct Hf as (HI & Hl & Ht & Hb). destruct (addWanted_grown outs y) as [Gr Ta]. rewrite (alter_present _ _ _ _ Hy). set (y' := on_drv _ y) in *. split.
    + split_and!; [|done|done|].
      * apply INV_put with (x := y); [done|by eapply Hb|done|left; apply Gr| |done]. intros He. destruct HI. split; [eapply grown_st; eauto|].
        rewrite (grown_needs _ _ Gr), (gr_failed _ _ Gr). intros Hf n Hn. destruct (i_needs h y n Hy (Hb h y Hy) He Hf Hn) as [?|?]; [by left|right].
        by rewrite (t_waitees _ _ Ta).
      * intros g x Hx. cbn in Hx. apply lookup_insert_Some in Hx as [[_ <-]|[_ Hx]]; [rewrite (t_exit _ _ Ta)|]; by eapply Hb.
    + destruct HI. destruct (i_dmap p h E) as [_ Hp]. destruct (Hp y Hy) as [_ Hpr]. unfold provides in Hpr. destruct (kind y) as [d|] eqn:Ek; [|done].
      exists y', (addWantedOutputs outs d). cbn. rewrite lookup_insert, decide_True by done. unfold y', on_drv. rewrite Ek.
      destruct (addWanted_same outs d) as (E1 & _). split_and!; [done|done|congruence|apply covers_add_self].
  - set (d := mkDGoal p outs false empty_drv ∅ ∅ ∅ None None false d_init rep).
    eexists _, (with_awake ({[nextGoal w]} ∪ awake w) (with_maps (<[p := nextGoal w]> (derivationGoals w)) (substitutionGoals w) (with_new (nextGoal w) (new_goal (KDrv d)) w))).
    split; [done|]. split.
    + apply fresh_make; [done|done|done| | |by auto|done].
      * cbn. split_and!; [split; [done|by intros [? ?]]|done|done].
      * intros q h Hq. apply lookup_insert_Some in Hq as [[<- <-]|[_ ?]]; [by right|by left].
    + exists (new_goal (KDrv d)), d. cbn. rewrite lookup_insert, decide_True by done. split_and!; try done. unfold covers.
      destruct (decide (outs = ∅)); [by left|by right].
Qed.

Lemma make_sub_top R p rep w : fresh_goals R w ->
  exists g w', makeSubstitutionGoal p rep w = Done g w' /\ fresh_goals R w' /\ exists x s, goals w' !! g = Some x /\ kind x = KSub s /\ storePath s = p.
Proof.
  intros Hf. unfold makeSubstitutionGoal. rewrite run_gets. destruct (find_goal (substitutionGoals w) p w) as [h|] eqn:E.
  - apply find_goal_Some in E as [E [y Hy]]. exists h, w. split_and!; [done|done|]. destruct Hf as ([] & _). destruct (i_smap p h E) as [_ Hp].
    destruct (Hp y Hy) as [_ Hpr]. unfold provides in Hpr. destruct (kind y) as [|s] eqn:Ek; [done|]. by exists y, s.
  - set (s := mkSGoal p [] [] false (mkSubstInfo [] ∅ 0 0) None 0 rep [] s_init).
    eexists _, (with_awake ({[nextGoal w]} ∪ awake w) (with_maps (derivationGoals w) (<[p := nextGoal w]> (substitutionGoals w)) (with_new (nextGoal w) (new_goal (KSub s)) w))).
    split; [done|]. split.
    + apply fresh_make; [done|done|done| |by auto| |done].
      * cbn. split; [done|by intros [? ?]].
      * intros q h Hq. apply lookup_insert_Some in Hq as [[<- <-]|[_ ?]]; [by right|by left].
    + exists (new_goal (KSub s)), s. cbn. by rewrite lookup_insert, decide_True.
Qed.

Lemma hold_spec R w g i : fresh_goals R w -> serves_at g i w -> fresh_goals ((g, i) :: R) (with_held ({[g]} ∪ held w) w).
Proof.
  intros (HI & Hl & Ht & Hb) (x & Hx & Hs). split_and!; [|done|done|done]. destruct HI. split; try assumption; cbn.
  - intros k [->%elem_of_singleton|Hk]%elem_of_union; [by eexists|auto].
  - rewrite Ht. apply empty_subseteq.
  - done.
  - intros k j [[= -> ->]|Hk]%elem_of_cons; [split; [by apply elem_of_union_l, elem_of_singleton|by exists x]|].
    destruct (i_reqs k j Hk) as [? ?]. split; [by apply elem_of_union_r|done].
  - intros k [->%elem_of_singleton|Hk]%elem_of_union; [exists i; apply list_elem_of_here|].
    destruct (i_asked k Hk) as [j Hj]. exists j. by apply list_elem_of_further.
Qed.

Lemma make_top_spec R rep i w : fresh_goals R w -> exists g w', make_top rep i w = Done tt w' /\ fresh_goals ((g, RBuild i) :: R) w'.
Proof.
  intros Hf. unfold make_top. set (i2 := parseDrvPathWithOutputs i). cbn zeta. destruct (isDerivation i2.1) eqn:Ed.
  - destruct (make_drv_top R i2.1 i2.2 rep w Hf) as (g & w' & E & Hf' & x & d & Hx & Hk & Hp & Hc). exists g, (with_held ({[g]} ∪ held w') w').
    rewrite (run_bind _ _ _ _ _ E). split; [done|]. apply hold_spec; [done|]. exists x. split; [done|]. unfold serves. rewrite Hk. done.
  - destruct (make_sub_top R i rep w Hf) as (g & w' & E & Hf' & x & s & Hx & Hk & Hp). exists g, (with_held ({[g]} ∪ held w') w').
    rewrite (run_bind _ _ _ _ _ E). split; [done|]. apply hold_spec; [done|]. exists x. split; [done|]. unfold serves. rewrite Hk. done.
Qed.

Lemma make_tops_spec rep l : forall R w, fresh_goals R w -> exists R' w', forM (make_top rep) l w = Done tt w' /\ fresh_goals R' w' /\
  (forall r, r ∈ R -> r ∈ R') /\ forall i, i ∈ l -> exists g, (g, RBuild i) ∈ R'.
Proof.
  induction l as [|i l IH]; intros R w Hf; cbn [forM].
  - exists R, w. split_and!; try done. by intros i ?%not_elem_of_nil.
  - destruct (make_top_spec R rep i w Hf) as (g & w1 & E & Hf1). destruct (IH ((g, RBuild i) :: R) w1 Hf1) as (R' & w' & E' & Hf' & HR & Hi).
    exists R', w'. rewrite (run_bind _ _ _ _ _ E). split_and!; [done|done|intros r Hr; by apply HR, list_elem_of_further|].
    intros j [->|Hj]%elem_of_cons; [exists g; apply HR, list_elem_of_here|by apply Hi].
Qed.

(** The loop starts with the goals that are held at the top. *)
Lemma start_loop R w : fresh_goals R w -> idle cfg R true ∅ (with_top (held w ∪ topGoals w) w).
Proof.
  intros (HI & Hl & Ht & Hb). rewrite Ht, union_empty_r_L. split; [|done]. destruct HI. split; try assumption; cbn; [done|by left|].
  intros g x _ Hx. left. by eapply Hb.
Qed.

(** ** The end of [run] *)

(** The assertions after the loop, which only matter with [keepGoing]. *)
Definition end_asserts : list str :=
  [ $"!settings.keepGoing || awake.empty()"; $"!settings.keepGoing || wantingToBuild.empty()"; $"!settings.keepGoing || children.empty()" ].
Definition runX (e : exn) w : Prop :=
  loopX e w \/ (keepGoing cfg = true /\ exn_kind e = eAssertion /\ exn_msg e ∈ end_asserts).

(** When [run] returns, no goal is left at the top. *)
Definition ended R w : Prop := settled cfg R true w /\ topGoals w = ∅.

Lemma end_check R b msg : msg ∈ end_asserts -> triple (ended R) (check (negb (keepGoing cfg) || b) msg) (fun _ => ended R) (runX).
Proof.
  intros Hm w Hw. unfold check. destruct (keepGoing cfg) eqn:Ek; cbn [negb orb]; [|done]. destruct b; [done|]. right. done.
Qed.

Lemma run_spec R n w : fresh_goals R w ->
  match run cfg order linux32 NIX_BUILD_HOOK n (held w) w with Done _ w' => ended R w' | Raised e w' => runX e w' | Stuck => True end.
Proof.
  intros Hf. unfold run. rewrite run_modify. apply start_loop in Hf. revert Hf. generalize (with_top (held w ∪ topGoals w) w). destruct Hplain as [P1 P2 P3 P4].
  eapply triple_bind; [eapply triple_X; [by apply (run_loop_spec cfg order order_perm linux32 NIX_BUILD_HOOK)|intros e w'; by left]|].
  intros ?. eapply triple_bind with (R := fun _ => ended R); [by apply triple_gets|]. intros w1.
  eapply triple_bind; [apply end_check; unfold end_asserts; set_solver|]. intros ?. eapply triple_bind; [apply end_check; unfold end_asserts; set_solver|]. intros ?.
  apply end_check. unfold end_asserts. set_solver.
Qed.

(** At the end a request was served unless some goal that is held has failed. *)
Definition failed_held w : Prop := exists h y, h ∈ held w /\ goals w !! h = Some y /\ exitCode y = ecFailed.

Lemma ended_request R w g r : ended R w -> (g, r) ∈ R -> exists x, goals w !! g = Some x /\ serves x r /\
  (failed_held w \/ exitCode x = ecSuccess /\ done_ok (V w) x \/ exitCode x = ecNoSubstituters /\ exists s, kind x = KSub s).
Proof.
  intros [(pend & [[] _] & _) Ht] Hr. destruct (i_reqs g r Hr) as (Hh & x & Hx & Hs). exists x. split_and!; [done..|].
  destruct (decide (exitCode x = ecBusy)) as [Hb|Hb].
  - left. destruct (i_top g x eq_refl Hh Hx (or_introl Hb)) as [Hg|?]; [|done]. rewrite Ht in Hg. by apply not_elem_of_empty in Hg.
  - destruct (i_fin g x Hx Hb) as (_ & _ & _ & Hd & Hn). destruct (exitCode x) eqn:Ee; [done|right; left; auto| |right; right; auto].
    left. by exists g, x.
Qed.

Lemma failed_foldl w l : forall acc, foldl (failed_goal w) acc l = ∅ -> acc = ∅ /\ forall h y, h ∈ l -> goals w !! h = Some y -> exitCode y <> ecFailed.
Proof.
  induction l as [|k l IH]; intros acc E; cbn [foldl] in E; [split; [done|]; by intros h y ?%not_elem_of_nil|]. apply IH in E as [E Hl]. unfold failed_goal in E.
  destruct (goals w !! k) as [z|] eqn:Hz.
  - case_bool_decide as Hf; [set_solver|]. split; [done|]. intros h y [->|Hh]%elem_of_cons Hy; [congruence|by eapply Hl].
  - split; [done|]. intros h y [->|Hh]%elem_of_cons Hy; [congruence|by eapply Hl].
Qed.

Lemma build_goals_spec n paths rep ind locked st :
  exists R, (forall i, i ∈ paths -> exists g, (g, RBuild i) ∈ R) /\
  match build_goals cfg order linux32 NIX_BUILD_HOOK n paths rep (Worker_new ind locked st) with
  | Done r w => ended R w /\ (r = Built -> ~ failed_held w)
  | Raised e w => runX e w
  | Stuck => True
  end.
Proof.
  destruct (make_tops_spec rep (set_iter paths) [] _ (fresh_new ind locked st)) as (R & w & E & Hf & _ & Hi). exists R. split; [intros i Hip; by apply Hi, elem_of_set_iter|].
  unfold build_goals. rewrite (run_bind _ _ _ _ _ E), run_gets. pose proof (run_spec R n w Hf) as Hr. unfold mbind at 1, M_bind at 1.
  destruct (run cfg order linux32 NIX_BUILD_HOOK n (held w) w) as [? w'|e w'|]; [|done..]. rewrite run_gets. cbn [id]. cbn zeta. split; [done|].
  intros Hb (h & y & Hh & Hy & Hfy). case_bool_decide as Ef; [|done]. apply failed_foldl in Ef as [_ Ef]. apply (Ef h y); [|done|done].
  apply (elem_of_order order order_perm). destruct Hr as [(pend & [[] _] & _) _]. destruct (i_asked h Hh) as [r Hr]. destruct Hf as ([] & _). by destruct (i_reqs0 h r Hr).
Qed.

(** ** Leaving the scope of the worker *)

Lemma INV_unhold R on pend w : INV R on pend ∅ None w -> INV [] false pend ∅ None (with_strong ∅ [] ∅ w).
Proof.
  intros []. split; try assumption; cbn; try done; try (by intros g ?%not_elem_of_empty); try (by intros g ?%not_elem_of_nil); try (by intros g i ?%not_elem_of_nil).
Qed.

Lemma unwind_spec R on pend w : INV R on pend ∅ None w -> match unwind order w with Done _ w' => V w ⊆ V w' | Raised e _ => catch_all (exn_kind e) = true | Stuck => True end.
Proof.
  intros HI. unfold unwind. rewrite run_modify. apply INV_unhold in HI. set (w1 := with_strong ∅ [] ∅ w) in *. rewrite run_gets. change (V w) with (V w1).
  assert (Hd : dropping cfg [] false pend ∅ None w1 w1) by (split_and!; [done|apply shrinks_refl|by intros k ?%not_elem_of_empty]). clearbody w1. clear HI w.
  generalize (dom (goals w1)) as gs. intros gs. assert (HP := Hd). revert HP. generalize w1 at 2 3 as w2. clear Hd.
  cut (triple (dropping cfg [] false pend ∅ None w1) (_ ← drop_ptrs order gs; h ← gets w_hook; match h with Some h => worldly (w_dropHook h) | None => mret tt end) (fun _ w' => V w1 ⊆ V w') (okX (fun _ : WK => True))).
  { intros Ht w2 HP. specialize (Ht w2 HP). revert Ht. case_match; [done|by intros [? _]|done]. }
  eapply triple_bind; [apply (triple_drops cfg order order_perm)|]. intros ?.
  eapply triple_bind with (R := fun _ => dropping cfg [] false pend ∅ None w1); [by apply triple_gets|]. intros [h|].
  - eapply triple_post; [eapply triple_any, triple_quiet; [apply stable_dropping|apply law_dropHook]|]. by intros ? w2 (_ & [] & _).
  - apply triple_ret. by intros w2 (_ & [] & _).
Qed.

(** ** The theorems *)

Lemma wantOutput_covers o wanted outs : covers wanted outs -> wantOutput o outs = true -> wantOutput o wanted = true.
Proof.
  unfold covers, wantOutput. intros [->|[Ho Hs]]; [by rewrite (bool_decide_true (∅ = ∅))|]. rewrite (bool_decide_false (outs = ∅)) by done. cbn [orb].
  intros Hi%bool_decide_eq_true. apply orb_true_iff; right. apply bool_decide_eq_true. by apply Hs.
Qed.

Lemma built_request R w i : ended R w -> ~ failed_held w -> (exists g, (g, RBuild i) ∈ R) -> let i2 := parseDrvPathWithOutputs i in isDerivation i2.1 = true ->
  i2.1 ∈ V w /\ forall o out, outputs (drv_of i2.1) !! o = Some out -> wantOutput o i2.2 = true -> out_path out ∈ V w.
Proof.
  intros He Hf [g Hr] i2 Hd. destruct (ended_request R w g _ He Hr) as (x & Hx & Hs & Hcase). unfold serves in Hs. fold i2 in Hs.
  destruct (kind x) as [d|s] eqn:Ek; [|by destruct Hs as [Hs _]; rewrite Hd in Hs]. destruct Hs as (_ & Hp & Hc).
  destruct Hcase as [?|[[_ Hok]|[_ [s Hs]]]]; [done| |done]. unfold done_ok in Hok. rewrite Ek, Hp in Hok. destruct Hok as [Hv Hw]. split; [done|].
  intros o out Ho Hwo. apply (Hw o out); [by rewrite Hp|]. by eapply wantOutput_covers.
Qed.

Lemma substitute_goal_spec n p rep ind locked st :
  match substitute_goal cfg order linux32 NIX_BUILD_HOOK n p rep (Worker_new ind locked st) with
  | Done r w => exists R, ended R w /\ (r = Built -> p ∈ V w)
  | Raised e w => exists R, runX e w
  | Stuck => True
  end.
Proof.
  destruct (make_sub_top [] p rep _ (fresh_new ind locked st)) as (g & w & E & Hf & x & s & Hx & Hk & Hp). unfold substitute_goal. rewrite (run_bind _ _ _ _ _ E).
  assert (Hh : held w = ∅). { unfold makeSubstitutionGoal in E. cbn in E. by injection E as _ <-. }
  unfold hold. rewrite run_modify, Hh, union_empty_r_L. apply (hold_spec [] w g (RFetch p)) in Hf; [|exists x; split; [done|unfold serves; by rewrite Hk]].
  rewrite Hh, union_empty_r_L in Hf. set (R := [(g, RFetch p)]) in *. set (w1 := with_held {[g]} w) in *. pose proof (run_spec R n w1 Hf) as Hr.
  change (held w1) with ({[g]} : gset nat) in Hr. unfold mbind at 1, M_bind at 1. destruct (run cfg order linux32 NIX_BUILD_HOOK n {[g]} w1) as [? w'|e w'|]; [|by exists R|done].
  destruct (ended_request R w' g (RFetch p) Hr (list_elem_of_here _ _)) as (y & Hy & Hs & Hcase). rewrite (run_goal _ _ _ _ Hy), run_gets. exists R. split; [done|].
  case_bool_decide as Ee; [|done]. intros _. unfold serves in Hs. destruct (kind y) as [|sg] eqn:Ek; [done|].
  assert (Hok : done_ok (V w') y).
  { destruct Hr as [(pend & [[] _] & _) _]. destruct (i_fin g y Hy) as (_ & _ & _ & Hd & _); [by rewrite Ee|]. by apply Hd. }
  unfold done_ok in Hok. rewrite Ek in Hok. by rewrite <- Hs.
Qed.

(** ** When nothing can happen *)

(** [g] waits for [h], which is not done. *)
Definition waits w (g h : nat) : Prop := exists x y, goals w !! g = Some x /\ h ∈ waitees x /\ goals w !! h = Some y /\ exitCode y = ecBusy.

(** What a goal that is not awake can wait for besides other goals: any goal to finish, or a build slot when there are none. *)
Definition blocked w (g : nat) : Prop := g ∈ waitingForAnyGoal w \/ (maxBuildJobs cfg = 0%Z /\ g ∈ wantingToBuild w).
#[local] Instance blocked_dec w g : Decision (blocked w g).
Proof. unfold blocked. apply _. Defined.

Lemma stalled_waits R w g x : idle cfg R true ∅ w -> stalled w -> goals w !! g = Some x -> exitCode x = ecBusy -> ~ blocked w g ->
  exists h y, waits w g h /\ goals w !! h = Some y /\ exitCode y = ecBusy.
Proof.
  intros [HI _] [_ Ha Hc Hw] Hx Hb Hg. destruct HI. destruct (i_acc g x Hx Hb (not_elem_of_empty g)) as [Hq|[Hwt|[p Hp]]].
  - exfalso. unfold inq, asleep in Hq. rewrite Ha, Hw, !elem_of_empty in Hq. destruct Hq as [?|[?|[Hq|[Hq|?]]]]; try done; apply Hg; [right|by left].
    split; [|done]. assert (Hne : wantingToBuild w <> ∅) by (intros E; rewrite E in Hq; by apply not_elem_of_empty in Hq).
    apply i_wanting in Hne. destruct i_slots as [E _]. rewrite Hc, map_size_empty in E. destruct (pl_jobs _ _ Hplain). lia.
  - apply set_choose_L in Hwt as [h Hh]. destruct (i_waitees g x h Hx Hh) as (y & Hy & [Hby|?] & _); [|done]. exists h, y. split_and!; [by exists x, y|done..].
  - destruct (i_run g x p Hx Hp (not_elem_of_empty g)) as (_ & _ & c & Hcc & _). rewrite Hc in Hcc. by rewrite lookup_empty in Hcc.
Qed.

Lemma stalled_cause R w : idle cfg R true ∅ w -> stalled w -> (forall g, ~ tc (waits w) g g) -> exists g x, goals w !! g = Some x /\ exitCode x = ecBusy /\ blocked w g.
Proof.
  intros HI Hd Hirr. destruct (set_choose_L (topGoals w)) as [t Ht]; [apply Hd|]. assert (exists x, goals w !! t = Some x /\ exitCode x = ecBusy) as (x & Hx & Hb).
  { destruct HI as [[] _]. destruct (i_held t (i_tops t Ht)) as [x Hx]. exists x. split; [done|]. by destruct (i_tbusy t x Ht Hx). }
  assert (Hsn : sn (waits w) t).
  { apply tc_finite_sn; [exact Hirr|]. exists (elements (dom (goals w))). intros h Hh. apply elem_of_elements, elem_of_dom.
    assert (Hlast : forall a b, tc (waits w) a b -> is_Some (goals w !! b)) by (induction 1 as [a b (? & ? & _ & _ & ? & _)|]; [by eexists|done]). by eapply Hlast. }
  clear Ht. revert x Hx Hb. induction Hsn as [g _ IH]. intros x Hx Hb. destruct (decide (blocked w g)) as [?|Hn]; [by exists g, x|].
  destruct (stalled_waits R w g x HI Hd Hx Hb Hn) as (h & y & Hwt & Hy & Hby). by eapply (IH h).
Qed.

(** ** The states of the loop *)

Inductive phase : Set := Head | Wait.

(** The states in which the loop of [run], called by [build_goals], begins a round, and those in which the round has worked through the
    goals that were awake. *)
Inductive at_loop (ind : Z) (paths : gset str) (repair : bool) (locked : gset str) (st : St) : phase -> WK -> Prop :=
  | al_start w : forM (make_top repair) (set_iter paths) (Worker_new ind locked st) = Done tt w ->
      at_loop ind paths repair locked st Head (with_top (held w ∪ topGoals w) w)
  | al_work n w w' : at_loop ind paths repair locked st Head w ->
      (_ ← worldly w_checkInterrupt; work_awake cfg order linux32 NIX_BUILD_HOOK n : M WK unit) w = Done tt w' -> topGoals w' <> ∅ ->
      at_loop ind paths repair locked st Wait w'
  | al_wait w w' : at_loop ind paths repair locked st Wait w -> loop_wait cfg order w = Done tt w' -> at_loop ind paths repair locked st Head w'.

Lemma at_loop_idle ind paths repair locked st : exists R, forall ph w, at_loop ind paths repair locked st ph w ->
  idle cfg R true ∅ w /\ (ph = Wait -> topGoals w <> ∅ /\ awake w = ∅).
Proof.
  destruct (make_tops_spec repair (set_iter paths) [] _ (fresh_new ind locked st)) as (R & w0 & E0 & Hf & _). exists R. destruct Hplain as [P1 P2 P3 P4].
  intros ph w. induction 1 as [w E|n w w' _ [IH _] E Ht|w w' _ [IH Hw] E].
  - rewrite E0 in E. injection E as <-. split; [by apply start_loop|done].
  - pose proof (round_spec cfg order order_perm linux32 NIX_BUILD_HOOK P1 P2 R true n w IH) as Hr. rewrite E in Hr. destruct Hr as [Hs Ha].
    split; [by apply settled_idle|]. intros _. split; [done|]. by destruct Ha.
  - split; [|done]. destruct (Hw eq_refl) as [Ht Ha]. destruct (stalled_dec w) as [Hs|Hs]; [by rewrite (loop_wait_stop cfg order w Hs) in E|].
    rewrite (loop_wait_input cfg order w Ht Ha Hs) in E. pose proof (waitForInput_spec cfg order order_perm NIX_BUILD_HOOK P1 P2 P3 P4 R true w IH) as Hi. by rewrite E in Hi.
Qed.

(** The assertion of the loop fails in such a state. *)
Lemma run_loop_stops ind paths repair locked st n : forall w e w', at_loop ind paths repair locked st Head w ->
  run_loop cfg order linux32 NIX_BUILD_HOOK n w = Raised e w' -> catch_all (exn_kind e) = true \/ (at_loop ind paths repair locked st Wait w' /\ stalled w' /\ e = stop_exn cfg).
Proof.
  destruct (at_loop_idle ind paths repair locked st) as [R HR]. destruct Hplain as [P1 P2 P3 P4].
  induction n as [|n IH]; intros w e w' Hw E; [done|]. pose proof (round_spec cfg order order_perm linux32 NIX_BUILD_HOOK P1 P2 R true (S n) w (proj1 (HR _ _ Hw))) as Hr.
  pose proof (al_work ind paths repair locked st (S n) w) as Hstep. cbn [run_loop] in E. unfold mbind, M_bind in Hr, E, Hstep.
  destruct (worldly w_checkInterrupt w) as [[] w1|e1 w1|]; [|injection E as <- _; left; apply Hr|done].
  destruct (work_awake cfg order linux32 NIX_BUILD_HOOK (S n) w1) as [[] w2|e2 w2|]; [|injection E as <- _; left; apply Hr|done]. cbn [gets id] in E.
  case_bool_decide as Ht; [done|]. specialize (Hstep w2 Hw eq_refl Ht). destruct (HR _ _ Hstep) as [Hi Ha]. destruct (Ha eq_refl) as [_ Ha'].
  destruct (stalled_dec w2) as [Hs|Hs]; [rewrite (loop_wait_stop cfg order w2 Hs) in E; injection E as <- <-; by right|].
  pose proof (al_wait ind paths repair locked st w2) as Hnext. rewrite (loop_wait_input cfg order w2 Ht Ha' Hs) in E, Hnext.
  pose proof (waitForInput_spec cfg order order_perm NIX_BUILD_HOOK P1 P2 P3 P4 R true w2 Hi) as Hq.
  destruct (waitForInput cfg order w2) as [[] w3|e3 w3|]; [|injection E as <- _; left; apply Hq|done]. by eapply IH, E; apply Hnext.
Qed.

Lemma build_goals_stops ind paths repair locked st n w :
  build_goals cfg order linux32 NIX_BUILD_HOOK n paths repair (Worker_new ind locked st) = Raised (Exn eAssertion ($"!awake.empty()")) w ->
  at_loop ind paths repair locked st Wait w /\ stalled w.
Proof.
  unfold build_goals, run. destruct (make_tops_spec repair (set_iter paths) [] _ (fresh_new ind locked st)) as (R & w0 & E0 & _ & _). rewrite (run_bind _ _ _ _ _ E0), run_gets.
  unfold mbind, M_bind, modify. pose proof (run_loop_stops ind paths repair locked st n _ (Exn eAssertion ($"!awake.empty()")) w (al_start ind paths repair locked st w0 E0)) as Hl.
  destruct (run_loop _ _ _ _ n _) as [[] w1|e1 w1|]; [|intros [= -> ->]; by destruct (Hl eq_refl) as [?|(? & ? & _)]|done]. clear Hl.
  cbn [gets id]. unfold check. repeat (destruct (_ || _); [|intros E; by injection E]). done.
Qed.
End Top.

Section Claims.
Context {St : Type} `{WO : World St} {WL : WorldLaws St}.

(** C2: when [buildPaths] succeeds, in a build without hooks (the setting is off or [NIX_BUILD_HOOK] is not set) and timeouts, every derivation that was asked for is valid, and so is each of its outputs that was asked for. *)
Theorem buildPaths_built (cfg : Settings) order linux32 hook n ind paths repair (s s' : St) i :
  plain cfg hook -> (forall X, order X ≡ₚ elements X) ->
  buildPaths cfg order linux32 hook n ind paths repair s = Done Built s' -> i ∈ paths ->
  let i2 := parseDrvPathWithOutputs i in isDerivation i2.1 = true ->
  i2.1 ∈ wv s' /\ forall o out, outputs (drv_of i2.1) !! o = Some out -> wantOutput o i2.2 = true -> out_path out ∈ wv s'.
Proof.
  intros Hp Ho E Hi i2 Hd. unfold buildPaths, with_worker in E.
  destruct (build_goals_spec cfg order Ho linux32 hook Hp n paths repair ind ∅ s) as (R & HR & Hb).
  destruct (build_goals cfg order linux32 hook n paths repair (Worker_new ind ∅ s)) as [r w|e w|]; [|by destruct (catch_all _); [destruct (unwind order w)|]|done].
  destruct Hb as [He Hf]. assert (Hu : exists pend, INV cfg R true pend ∅ None w) by (destruct He as [(pend & [HI _] & _) _]; by exists pend). destruct Hu as [pend Hu].
  pose proof (unwind_spec cfg order Ho R true pend w Hu) as Hv. destruct (unwind order w) as [? w'|? ?|]; [|done|done]. injection E as -> <-.
  destruct (built_request cfg R w i He (Hf eq_refl) (HR i Hi) Hd) as [H1 H2]. split; [by apply Hv|]. intros o out Hout Hw. by apply Hv, (H2 o).
Qed.

(** C17: when [ensurePath] succeeds, without hooks (the setting is off or [NIX_BUILD_HOOK] is not set) and timeouts, the path is valid. *)
Theorem ensurePath_valid (cfg : Settings) order linux32 hook n ind p (s s' : St) :
  plain cfg hook -> (forall X, order X ≡ₚ elements X) -> ensurePath cfg order linux32 hook n ind p s = Done Built s' -> p ∈ wv s'.
Proof.
  intros Hp Ho. unfold ensurePath. pose proof (law_isValidPath p s) as Hv. unfold mbind, M_bind. destruct (w_isValidPath p s) as [b s1|e s1|]; [|done..].
  destruct Hv as (_ & _ & ->). case_bool_decide as Hb; [by intros [= <-]|]. unfold with_worker. pose proof (substitute_goal_spec cfg order Ho linux32 hook Hp n p false ind ∅ s1) as Hs.
  destruct (substitute_goal cfg order linux32 hook n p false (Worker_new ind ∅ s1)) as [r w|e w|]; [|by destruct (catch_all _); [destruct (unwind order w)|]|done].
  destruct Hs as (R & He & Hr). assert (exists pend, INV cfg R true pend ∅ None w) as [pend Hu] by (destruct He as [(pend & [HI _] & _) _]; by exists pend).
  pose proof (unwind_spec cfg order Ho R true pend w Hu) as Hw. destruct (unwind order w) as [? w'|? ?|]; [|done|done]. intros [= -> <-]. by apply Hw, Hr.
Qed.

(** C4: in a build without hooks and timeouts no assertion of the scheduler fails, but the one that some goal is awake and, with [keepGoing],
    those after the loop; nothing that was destroyed is used, and no counter wraps around. *)
Theorem build_goals_asserts (cfg : Settings) order linux32 hook n ind paths repair locked (s : St) e w :
  plain cfg hook -> (forall X, order X ≡ₚ elements X) ->
  build_goals cfg order linux32 hook n paths repair (Worker_new ind locked s) = Raised e w ->
  catch_all (exn_kind e) = true \/ e = Exn eAssertion ($"!awake.empty()") \/ (keepGoing cfg = true /\ exn_kind e = eAssertion /\ exn_msg e ∈ end_asserts).
Proof.
  intros Hp Ho E. destruct (build_goals_spec cfg order Ho linux32 hook Hp n paths repair ind locked s) as (R & _ & Hb). rewrite E in Hb.
  destruct Hb as [[?|[? _]]|?]; auto.
Qed.

(** C5: no wake-up is lost, in a build without hooks and timeouts: in a state in which the loop of [run] has no goal that is awake, no child
    and no goal that waits for a while, so that it fails the assertion that a goal is awake, or throws that no build can be started when
    [maxBuildJobs] is zero, goals wait for each other in a circle, or some goal waits for any other goal to finish, or [maxBuildJobs] is zero and
    a goal wants to build; and the assertion only fails in such a state. *)
Theorem build_goals_deadlock (cfg : Settings) order linux32 hook ind paths repair locked (s : St) w :
  plain cfg hook -> (forall X, order X ≡ₚ elements X) ->
  (at_loop cfg order linux32 hook ind paths repair locked s Wait w -> children w = ∅ -> waitingForAWhile w = ∅ ->
     loop_wait cfg order w = Raised (stop_exn cfg) w /\
     ((forall g, ~ tc (waits w) g g) -> exists g x, goals w !! g = Some x /\ exitCode x = ecBusy /\ blocked cfg w g)) /\
  (forall n, build_goals cfg order linux32 hook n paths repair (Worker_new ind locked s) = Raised (Exn eAssertion ($"!awake.empty()")) w ->
     at_loop cfg order linux32 hook ind paths repair locked s Wait w /\ children w = ∅ /\ waitingForAWhile w = ∅).
Proof.
  intros Hp Ho. split.
  - intros Hl Hc Hw. destruct (at_loop_idle cfg order Ho linux32 hook Hp ind paths repair locked s) as [R HR]. destruct (HR _ _ Hl) as [Hi Hs].
    destruct (Hs eq_refl) as [Ht Ha]. assert (Hst : stalled w) by done. split; [by apply loop_wait_stop|]. by eapply stalled_cause.
  - intros n E. by destruct (build_goals_stops cfg order Ho linux32 hook Hp ind paths repair locked s n w E) as (? & []).
Qed.

(** C16: whenever the loop of [run] begins or ends a round, in a build without hooks and timeouts: there are as many build slots taken as child processes, one
    at most when [maxBuildJobs] is zero (a substitution, or a build that prefers to be local) and [maxBuildJobs] otherwise; child processes and the goals
    that have one correspond; waiting is recorded on both sides; no goal that has not finished is forgotten: it is in one of the sets of the
    worker, or waits for a goal that has not finished, or has a child process; and a goal only wants to build when the slots are taken. *)
Theorem worker_invariant (cfg : Settings) order linux32 hook ind paths repair locked (s : St) ph w :
  plain cfg hook -> (forall X, order X ≡ₚ elements X) -> at_loop cfg order linux32 hook ind paths repair locked s ph w ->
  (nrLocalBuilds w = Z.of_nat (size (children w)) /\ (nrLocalBuilds w <= Z.max 1 (maxBuildJobs cfg))%Z) /\
  (forall p c, children w !! p = Some c -> inBuildSlot c = true /\ exists x, goals w !! c_goal c = Some x /\ exitCode x = ecBusy /\ child_pid x = Some p) /\
  (forall g x p, goals w !! g = Some x -> child_pid x = Some p -> exists c, children w !! p = Some c /\ c_goal c = g) /\
  (forall g x h, goals w !! g = Some x -> h ∈ waitees x -> exists y, goals w !! h = Some y /\ exitCode y = ecBusy /\ g ∈ waiters y) /\
  (forall g x h y, goals w !! g = Some x -> goals w !! h = Some y -> g ∈ waiters y -> h ∈ waitees x) /\
  (forall g x, goals w !! g = Some x -> exitCode x = ecBusy -> g ∈ awake w \/ asleep w g \/ waitees x <> ∅ \/ is_Some (child_pid x)) /\
  (wantingToBuild w <> ∅ -> (maxBuildJobs cfg <= nrLocalBuilds w)%Z).
Proof.
  intros Hp Ho Hl. destruct (at_loop_idle cfg order Ho linux32 hook Hp ind paths repair locked s) as [R HR]. destruct (HR _ _ Hl) as [[[] _] _]. split_and!.
  - apply i_slots.
  - apply i_slots.
  - intros p c Hc. destruct (i_child p c Hc) as (Hs & x & Hx & Hpid & _). split; [done|]. exists x. split_and!; [done| |done].
    destruct (decide (exitCode x = ecBusy)) as [|Hb]; [done|]. destruct (i_fin _ x Hx Hb) as (_ & ? & _). congruence.
  - intros g x p Hx Hpid. by destruct (i_run g x p Hx Hpid (not_elem_of_empty g)) as (_ & _ & ?).
  - intros g x h Hx Hh. destruct (i_waitees g x h Hx Hh) as (y & Hy & [?|?] & ?); [|done]. by exists y.
  - intros g x h y Hx Hy Hg. by eapply i_waiters.
  - intros g x Hx Hb. destruct (i_acc g x Hx Hb (not_elem_of_empty g)) as [[?|[?%not_elem_of_empty|?]]|[?|?]]; tauto.
  - done.
Qed.
End Claims.

(** ** Concrete builds *)

Definition run_on (cfg : Settings) (paths : gset str) (s : TW) : outcome TW build_result :=
  buildPaths (WO := TW_world drvs1) cfg elements true [] 50 0 paths false s.
Definition final (o : outcome TW build_result) : TW := match o with Done _ s | Raised _ s => s | Stuck => world1 ∅ ∅ 1 end.
Definition cfg1 : Settings := cfg_of false false 1 0 0 false [].
(** [--keep-going --fallback], with a substituter. *)
Definition cfg2 : Settings := cfg_of true true 1 0 0 false [ $"subst" ].

Lemma cfg_plain keep fallback jobs cache subst : (0 <= jobs < 2 ^ 32)%Z -> plain (cfg_of keep fallback jobs 0 0 cache subst) [].
Proof. split; [by right|done..]. Qed.
Lemma one_job : (0 <= 1 < 2 ^ 32)%Z.
Proof. by split. Qed.
Lemma elements_order (X : gset nat) : elements X ≡ₚ elements X.
Proof. done. Qed.

Definition end1 : TW := Eval vm_compute in final (run_on cfg1 {[ $"/s/b.drv" ]} (world1 ∅ ∅ 1)).

Lemma buildPaths_built_witness : $"/s/b" ∈ tw_valid end1.
Proof.
  refine (proj2 (buildPaths_built (WO := TW_world drvs1) (WL := TW_laws drvs1) cfg1 elements true [] 50 0 {[ $"/s/b.drv" ]} false (world1 ∅ ∅ 1) end1 ($"/s/b.drv") _ elements_order _ _ _)
    ($"out") (mkDerivationOutput ($"/s/b") [] []) _ _).
  - apply cfg_plain. by split.
  - vm_compute. reflexivity.
  - by apply elem_of_singleton.
  - vm_compute. reflexivity.
  - vm_compute. reflexivity.
  - vm_compute. reflexivity.
Defined.

Definition fetched : TW := Eval vm_compute in
  match ensurePath (WO := TW_world drvs1) cfg2 elements true [] 50 0 ($"/s/q") (world1 {[ $"/s/q" := ∅ ]} ∅ 1) with Done _ s | Raised _ s => s | Stuck => world1 ∅ ∅ 1 end.

Lemma ensurePath_valid_witness : $"/s/q" ∈ tw_valid fetched.
Proof.
  apply (ensurePath_valid (WO := TW_world drvs1) (WL := TW_laws drvs1) cfg2 elements true [] 50 0 ($"/s/q") (world1 {[ $"/s/q" := ∅ ]} ∅ 1) fetched); [apply cfg_plain; by split|exact elements_order|].
  vm_compute. reflexivity.
Defined.

(** The state of the worker in which a build stops. *)
Definition stopped (cfg : Settings) (paths : gset str) (s : TW) : outcome (Worker TW) build_result :=
  build_goals (WO := TW_world drvs1) cfg elements true [] 50 paths false (Worker_new 0 ∅ s).
Definition stop_state (o : outcome (Worker TW) build_result) : Worker TW :=
  match o with Done _ w | Raised _ w => w | Stuck => Worker_new 0 ∅ (world1 ∅ ∅ 1) end.

Definition cfg0 : Settings := cfg_of false false 0 0 0 false [].
Definition no_jobs : Worker TW := Eval vm_compute in stop_state (stopped cfg0 {[ $"/s/a.drv" ]} (world1 ∅ ∅ 1)).

Definition unable : exn := Exn eError ($"unable to start any build; either increase `--max-jobs' or enable distributed builds").

Lemma build_goals_asserts_witness : catch_all (exn_kind unable) = true \/ unable = Exn eAssertion ($"!awake.empty()") \/
  (keepGoing cfg0 = true /\ exn_kind unable = eAssertion /\ exn_msg unable ∈ end_asserts).
Proof.
  apply (build_goals_asserts (WO := TW_world drvs1) (WL := TW_laws drvs1) cfg0 elements true [] 50 0 {[ $"/s/a.drv" ]} false ∅ (world1 ∅ ∅ 1) unable no_jobs); [apply cfg_plain; by split|exact elements_order|].
  vm_compute. reflexivity.
Defined.

(** A substituter that fails for [/s/a], which is asked for together with the derivation that makes it. *)
Definition world2 : TW := world1 {[ $"/s/a" := ∅ ]} {[ $"/s/a" := 256%Z ]} 1.
Definition paths2 : gset str := {[ $"/s/a"; $"/s/a.drv" ]}.
Definition locked_out : Worker TW := Eval vm_compute in stop_state (stopped cfg2 paths2 world2).

Lemma build_goals_deadlock_witness : exists g x, goals locked_out !! g = Some x /\ exitCode x = ecBusy /\ blocked cfg2 locked_out g.
Proof.
  pose proof (build_goals_deadlock (WO := TW_world drvs1) (WL := TW_laws drvs1) cfg2 elements true [] 0 paths2 false ∅ world2 locked_out
    (cfg_plain true true 1 false [ $"subst" ] one_job) elements_order) as [H1 H2].
  destruct (H2 50%nat) as (Hl & Hc & Hw); [vm_compute; reflexivity|]. apply (H1 Hl Hc Hw).
  assert (Hno : forall g h, ~ waits locked_out g h).
  { assert (Hm : map_Forall (fun _ x => waitees x = ∅) (goals locked_out)) by (refine (bool_decide_unpack _ _); vm_compute; exact I).
    intros g h (x & y & Hx & Hh & _). rewrite (Hm g x Hx) in Hh. by apply not_elem_of_empty in Hh. }
  intros g Ht. destruct Ht as [? ? H|? ? ? H _]; exact (Hno _ _ H).
Defined.

(** The first round of the build of [/s/b.drv]: its builder waits for the one of [/s/a.drv]. *)
Definition made1 : Worker TW := Eval vm_compute in
  match forM (make_top false) (set_iter {[ $"/s/b.drv" ]}) (Worker_new 0 ∅ (world1 ∅ ∅ 1)) with
  | Done _ w | Raised _ w => w | Stuck => Worker_new 0 ∅ (world1 ∅ ∅ 1) end.
Definition building : Worker TW := Eval vm_compute in
  match (_ ← worldly (w_checkInterrupt (World := TW_world drvs1)); work_awake (WO := TW_world drvs1) cfg1 elements true [] 50) (with_top (held made1 ∪ topGoals made1) made1) with
  | Done _ w | Raised _ w => w | Stuck => made1 end.

Lemma worker_invariant_witness : nrLocalBuilds building = 1%Z /\ nrLocalBuilds building = Z.of_nat (size (children building)) /\ (nrLocalBuilds building <= 1)%Z.
Proof.
  split; [reflexivity|].
  refine (proj1 (worker_invariant (WO := TW_world drvs1) (WL := TW_laws drvs1) cfg1 elements true [] 0 {[ $"/s/b.drv" ]} false ∅ (world1 ∅ ∅ 1) Wait building _ elements_order _)).
  - apply cfg_plain. by split.
  - eapply (al_work (WO := TW_world drvs1) cfg1 elements true [] 0 {[ $"/s/b.drv" ]} false ∅ (world1 ∅ ∅ 1) 50 (with_top (held made1 ∪ topGoals made1) made1)).
    + apply al_start. vm_compute. reflexivity.
    + vm_compute. reflexivity.
    + refine (bool_decide_unpack _ _). vm_compute. exact I.
Defined.

(** A substitution goal that fails at the top keeps the lock on its path as long as the caller holds the goal; a derivation goal for the same
    path then waits for ever for another goal to finish, and the build ends in a failed assertion instead of building the path. *)
Example failed_substitution_blocks : exists s, run_on cfg2 paths2 world2 = Raised (Exn eAssertion ($"!awake.empty()")) s.
Proof. eexists. vm_compute. reflexivity. Qed.

(** The status of a failed build depends on the build that failed last: a fixed-output derivation that fails after one that can never succeed makes the
    failure look transient. *)
Theorem last_failure_decides : exists s s',
  run_on (cfg_of true false 2 0 0 false []) {[ $"/s/b.drv" ]} (world1 ∅ {[ $"/s/a.drv" := 256%Z ]} 1) = Done (BuildFailed {[ $"/s/b.drv" ]} 100) s /\
  run_on (cfg_of true false 2 0 0 false []) {[ $"/s/b.drv"; $"/s/f.drv" ]} (world1 ∅ {[ $"/s/a.drv" := 256%Z; $"/s/f.drv" := 256%Z ]} 1) =
    Done (BuildFailed {[ $"/s/b.drv"; $"/s/f.drv" ]} 1) s'.
Proof. eexists _, _. split; vm_compute; reflexivity. Qed.
