(* ===== verification/GoalEdges.v ===== *)
(** * Two corners of the scheduler (src/src/libstore/build.cc)

    What [buildPaths] does with a path that nobody can produce, and what [waitForInput]
    does with a build that exceeds both of its limits at once; both for every world. *)

From Stdlib Require Import ZArith Lia Ascii.
From stdpp Require Import base strings sorting numbers gmap sets list.
From S2P Require Import Prelude Effects Util Hash StorePath Derivations Wire Globals GoalData Goals GoalInv GoalWorld GoalSteps GoalHoare GoalTop.

Section Edges.
Context {St : Type} `{WO : World St} (cfg : Settings) (order : gset nat -> list nat).
Context (order_perm : forall X, order X ≡ₚ elements X) (linux32 : bool) (NIX_BUILD_HOOK : str).
Abbreviation WK := (Worker St).
Implicit Types w : WK.
Implicit Types x : Goal.

Lemma order_empty : order ∅ = [].
Proof using order_perm. apply Permutation_nil_r. by rewrite order_perm, elements_empty. Qed.
Lemma order_singleton g : order {[g]} = [g].
Proof using order_perm. apply Permutation_singleton_r. by rewrite order_perm, elements_singleton. Qed.

Lemma run_worldly {A B} (m : M St A) (f : A -> M WK B) w a s : m (world w) = Done a s -> (worldly m ≫= f) w = f a (with_world s w).
Proof. intros E. apply run_bind. by apply run_zoom. Qed.

Lemma run_assoc {S A B C} (m : M S A) (f : A -> M S B) (g : B -> M S C) s : ((m ≫= f) ≫= g) s = (m ≫= (fun a => f a ≫= g)) s.
Proof. unfold mbind, M_bind. by destruct (m s). Qed.

Lemma run_ret_r {S} (m : M S unit) s : (m ≫= fun _ => mret tt) s = m s.
Proof. unfold mbind, M_bind. by destruct (m s) as [[]| |]. Qed.

(** ** A goal that nobody waits for is done *)

(** What [amDone] leaves of a goal without waiters. *)
Lemma amDone_alone g x r w : goals w !! g = Some x -> exitCode x = ecBusy -> waiters x = ∅ -> r <> ecBusy ->
  exists a t, amDone cfg order g r w = Done tt
    (with_any ∅ (with_awake a (with_top t (with_maps (remove_from g (derivationGoals w)) (remove_from g (substitutionGoals w))
      (with_goals (<[g := with_waiters ∅ (with_exit r x)]> (goals w)) w))))) /\
    (forall k, k ∈ a <-> k ∈ awake w \/ (k ∈ waitingForAnyGoal w /\ (k = g \/ is_Some (goals w !! k)))) /\
    t = if bool_decide (g ∈ topGoals w) then (if bool_decide (r = ecFailed) && negb (keepGoing cfg) then ∅ else topGoals w ∖ {[g]}) else topGoals w.
Proof.
  intros Hx Hb Hw Hr. unfold amDone. rewrite (run_goal _ _ _ _ Hx), (bool_decide_true (exitCode x = ecBusy)) by done.
  rewrite (bool_decide_false (r = ecBusy)) by done. unfold check. cbn [negb]. rewrite !run_ret, run_upd, (alter_present _ _ _ _ Hx), Hw, order_empty.
  cbn [forM]. rewrite run_ret, run_upd. cbn [goals with_goals]. erewrite alter_present by apply lookup_insert_eq. rewrite insert_insert_eq.
  set (x1 := with_waiters ∅ (with_exit r x)). unfold removeGoal. rewrite run_modify, (run_goal g x1) by apply lookup_insert_eq. rewrite run_gets.
  set (t := if bool_decide (g ∈ topGoals w) then _ else _).
  set (w1 := with_top t (with_maps (remove_from g (derivationGoals w)) (remove_from g (substitutionGoals w)) (with_goals (<[g := x1]> (goals w)) w))).
  destruct (wake_run (order (waitingForAnyGoal w)) w1) as (a & E & Ha). exists a, t. split_and!; [|intros k|done].
  - match goal with |- (?m ≫= ?f) ?s = _ => assert (Em : m s = Done tt w1) end.
    { unfold w1, t. cbn. case_bool_decide; [done|]. by destruct w. }
    rewrite (run_bind _ _ _ _ _ Em), run_gets. change (waitingForAnyGoal w1) with (waitingForAnyGoal w). by rewrite (run_bind _ _ _ _ _ E).
  - rewrite Ha, (elem_of_order order order_perm). cbn. rewrite lookup_insert_is_Some'. naive_solver.
Qed.

(** ** Cancelling *)

(** A local build that is running: its child is the one of a goal nobody waits for. *)
Record building_alone (pid : Z) (c : Child) (x : Goal) (d : DGoal) w : Prop := {
  ba_child : children w !! pid = Some c; ba_slot : inBuildSlot c = true; ba_slots : (0 < nrLocalBuilds w)%Z;
  ba_goal : goals w !! c_goal c = Some x; ba_kind : kind x = KDrv d; ba_pid : d_pid d = Some pid; ba_hook : d_hook d = None;
  ba_busy : exitCode x = ecBusy; ba_waiters : waiters x = ∅ }.

Lemma cancel_alone pid c x d w s : building_alone pid c x d w -> w_kill pid (world w) = Done tt s ->
  exists w' x' d', cancel cfg order (c_goal c) w = Done tt w' /\ goals w' !! c_goal c = Some x' /\ kind x' = KDrv d' /\ d_pid d' = None /\ d_hook d' = None /\
    exitCode x' = ecFailed.
Proof.
  intros [B1 B2 B3 B4 B5 B6 B7 B8 B9] Hk. unfold cancel. rewrite (run_goal _ _ _ _ B4), B5, B6, B7. unfold killChild.
  destruct (childTerminated_run order order_perm pid c w B1 B2 B3) as (a & E & _).
  rewrite !run_assoc, (run_bind _ _ _ _ _ E), (run_worldly _ _ (detached pid a (goals w) w) _ _ Hk), run_ret.
  unfold upd_drv. rewrite run_upd. erewrite alter_present by exact B4. set (x1 := on_drv _ x). set (w1 := with_goals _ _).
  assert (Ex1 : x1 = with_kind (KDrv (with_child None None d)) x) by (unfold x1, on_drv; by rewrite B5).
  destruct (amDone_alone (c_goal c) x1 ecFailed w1) as (a' & t & E' & _); [apply lookup_insert_eq|by rewrite Ex1..|done|].
  rewrite E'. eexists _, _, (with_child None None d). split; [done|]. cbn [goals with_any with_awake with_top with_maps with_sets with_strong with_goals].
  split; [apply lookup_insert_eq|]. rewrite Ex1. by split_and!.
Qed.

Lemma cancel_done g x d w : goals w !! g = Some x -> kind x = KDrv d -> d_pid d = None -> d_hook d = None -> exitCode x <> ecBusy ->
  exists w', cancel cfg order g w = Raised (Exn eAssertion ($"exitCode == ecBusy")) w'.
Proof.
  intros Hx Hk Hp Hh Hb. unfold cancel. rewrite (run_goal _ _ _ _ Hx), Hk, Hp, Hh. unfold killChild. rewrite !run_assoc, !run_ret. unfold upd_drv. rewrite run_upd.
  erewrite alter_present by exact Hx. unfold amDone. erewrite run_goal by apply lookup_insert_eq. unfold on_drv. rewrite Hk. cbn [exitCode with_kind].
  rewrite (bool_decide_false (exitCode x = ecBusy)) by done. by eexists.
Qed.

(** ** A path that nobody can produce *)

(** As long as [I] holds of the world, the path is not valid and no substituter has it. *)
Record absent (I : St -> Prop) (p : str) : Prop := {
  ab_interrupt s : I s -> exists s', w_checkInterrupt s = Done tt s' /\ I s';
  ab_root s : I s -> exists s', w_addTempRoot p s = Done tt s' /\ I s';
  ab_valid s : I s -> exists s', w_isValidPath p s = Done false s' /\ I s';
  ab_query (u : str) s : u ∈ substituters cfg -> I s -> exists (infos : SubstitutablePathInfos) s', w_querySubstitutablePathInfos u {[p]} s = Done infos s' /\ infos !! p = None /\ I s' }.

(** The worker with one substitution goal, of number 0. *)
Definition only (ind : Z) (x : Goal) (loc : list nat) (top aw : gset nat) (m m' : gmap str nat) (s : St) : WK :=
  mkWorker {[0 := x]} 1 {[0]} loc top aw ∅ ∅ ∅ ∅ 0 m m' 0 ind false None ∅ s.
(** A goal for [p] that has found nothing. *)
Definition looking (p : str) (x : Goal) : Prop :=
  waitees x = ∅ /\ waiters x = ∅ /\ locks x = [] /\ exitCode x = ecBusy /\ exists d, kind x = KSub d /\ storePath d = p /\ hasSubstitute d = false /\ s_pid d = None.

Context (I : St -> Prop) (p : str) (Hab : absent I p) (ind : Z).

Lemma run_get_sub {B} x d (f : SGoal -> M WK B) w : goals w !! 0 = Some x -> kind x = KSub d -> (get_sub 0 ≫= f) w = f d w.
Proof. intros Hx Hk. unfold get_sub. rewrite run_assoc, (run_goal _ _ _ _ Hx), Hk. by rewrite run_ret. Qed.

Lemma upd_only F x loc top aw m m' s {B} (f : unit -> M WK B) : (upd 0 F ≫= f) (only ind x loc top aw m m' s) = f tt (only ind (F x) loc top aw m m' s).
Proof. rewrite run_upd. unfold only, with_goals. cbn [goals nextGoal held locals topGoals awake wantingToBuild waitingForAnyGoal waitingForAWhile children nrLocalBuilds derivationGoals substitutionGoals lastWokenUp lastWait permanentFailure w_hook lockedPaths world]. by rewrite alter_singleton. Qed.

(** Asking the substituters. *)
Lemma tryNext_only l : forall x loc top aw m m' s, (forall y, y ∈ l -> y ∈ substituters cfg) -> looking p x -> I s ->
  exists x' s', tryNext_of cfg order l 0 (only ind x loc top aw m m' s) = amDone cfg order 0 ecNoSubstituters (only ind x' loc top aw m m' s') /\ looking p x' /\ I s'.
Proof.
  induction l as [|y l IH]; intros x loc top aw m m' s Hl Hx Hs; cbn [tryNext_of].
  - pose proof Hx as (_ & _ & _ & _ & d & Hk & _ & Hn & _). exists x, s. rewrite (run_get_sub x d) by done. by rewrite Hn.
  - destruct Hx as (X1 & X2 & X3 & X4 & d & Hk & Hp & Hn & Hpid). unfold upd_sub. rewrite upd_only.
    set (x1 := on_sub _ x). assert (Hk1 : kind x1 = KSub (with_sub l y d)) by (unfold x1, on_sub; by rewrite Hk).
    assert (Hx1 : looking p x1) by (unfold x1, on_sub; rewrite Hk; split_and!; [done..|]; by exists (with_sub l y d)).
    rewrite (run_get_sub x1 _) by done. destruct (ab_query _ _ Hab y s) as (infos & s1 & E & Hi & Hs1); [apply Hl; by left|done|].
    cbn [storePath with_sub]. rewrite Hp, (run_worldly _ _ (only ind x1 loc top aw m m' s) _ _ E), Hi. apply (IH x1); [|done|done]. intros z Hz. apply Hl. by right.
Qed.

Context (Hro : readOnlyMode cfg = false).

(** The goal is done. *)
Definition gone (x : Goal) : Prop :=
  waitees x = ∅ /\ locks x = [] /\ exitCode x = ecNoSubstituters /\ exists d, kind x = KSub d /\ s_pid d = None.

Lemma amDone_only x loc m m' s : looking p x ->
  exists x' n n', amDone cfg order 0 ecNoSubstituters (only ind x loc {[0]} ∅ m m' s) = Done tt (only ind x' loc ∅ ∅ n n' s) /\ gone x'.
Proof.
  intros (X1 & X2 & X3 & X4 & d & X5 & X6 & X7 & X8).
  destruct (amDone_alone 0 x ecNoSubstituters (only ind x loc {[0]} ∅ m m' s)) as (a & t & E & Ha & Et); [done..|]. rewrite E.
  assert (a = ∅) as ->. { apply set_eq. intros k. rewrite Ha. cbn. rewrite !elem_of_empty. tauto. }
  assert (t = ∅) as -> by (rewrite Et; vm_compute; reflexivity).
  exists (with_waiters ∅ (with_exit ecNoSubstituters x)), (remove_from 0 m), (remove_from 0 m'). split; [|split_and!; [done..|by exists d]].
  cbn [goals only derivationGoals substitutionGoals]. rewrite insert_singleton_eq. reflexivity.
Qed.

Lemma work_only n loc m m' s : I s ->
  exists x' k k' s', work_goal cfg order linux32 NIX_BUILD_HOOK n 0 (only ind (SubstitutionGoal p false) loc {[0]} ∅ m m' s) = Done tt (only ind x' loc ∅ ∅ k k' s') /\ gone x' /\ I s'.
Proof.
  intros Hs. set (x := SubstitutionGoal p false). set (w := only ind x loc {[0]} ∅ m m' s). unfold work_goal. rewrite (run_goal 0 x) by done. cbn [kind x SubstitutionGoal new_goal work_s s_state].
  unfold init_s. erewrite run_get_sub by done. cbn [storePath s_repair]. destruct (ab_root _ _ Hab s Hs) as (s1 & E1 & H1). rewrite (run_worldly _ _ w _ _ E1).
  destruct (ab_valid _ _ Hab s1 H1) as (s2 & E2 & H2). rewrite (run_worldly _ _ (with_world s1 w) _ _ E2), Hro.
  change (with_world s2 (with_world s1 w)) with (only ind x loc {[0]} ∅ m m' s2). unfold upd_sub. rewrite upd_only. set (x1 := on_sub _ x).
  unfold tryNext. erewrite run_get_sub by done. cbn [subs with_subs].
  destruct (tryNext_only (substituters cfg) x1 loc {[0]} ∅ m m' s2) as (x2 & s3 & E3 & H3 & H4); [done|split_and!; [done..|by eexists]|done|].
  rewrite E3. destruct (amDone_only x2 loc m m' s3 H3) as (x3 & k & k' & E4 & H5). rewrite E4. by exists x3, k, k', s3.
Qed.

Lemma leave_only x top k k' s : leave order 0 (only ind x [0] top ∅ k k' s) = Done tt (only ind x [] top ∅ k k' s).
Proof.
  unfold leave. rewrite run_modify. unfold drop_ptrs. rewrite run_gets, order_singleton. cbn [forM]. rewrite run_ret_r. cbn [drop_ptr]. rewrite run_gets.
  cbn [id goals with_locals with_strong only]. rewrite lookup_singleton_eq. unfold strong. cbn [held with_locals with_strong only topGoals].
  rewrite (bool_decide_true (0 ∈ _)) by (apply elem_of_union_l, elem_of_singleton; done). done.
Qed.

Lemma run_only n s : I s -> exists x k k' s', run cfg order linux32 NIX_BUILD_HOOK (S (S n)) {[0]} (only ind (SubstitutionGoal p false) [] ∅ {[0]} ∅ {[p := 0]} s) =
  Done tt (only ind x [] ∅ ∅ k k' s') /\ gone x /\ I s'.
Proof.
  intros Hs. set (x := SubstitutionGoal p false). unfold run. rewrite run_modify.
  change (with_top _ _) with (only ind x [] {[0]} {[0]} ∅ {[p := 0]} s). cbn [run_loop].
  destruct (ab_interrupt _ _ Hab s Hs) as (s1 & E1 & H1). destruct (ab_interrupt _ _ Hab s1 H1) as (s2 & E2 & H2).
  destruct (work_only (S (S n)) [0] ∅ {[p := 0]} s2 H2) as (x' & k & k' & s3 & E3 & H3 & H4). exists x', k, k', s3. split; [|done].
  assert (Ea : work_awake cfg order linux32 NIX_BUILD_HOOK (S (S n)) (only ind x [] {[0]} {[0]} ∅ {[p := 0]} s1) = Done tt (only ind x' [] ∅ ∅ k k' s3)).
  { cbn [work_awake]. rewrite run_gets. change (bool_decide (awake (id _) = ∅) || bool_decide (topGoals (id _) = ∅)) with false. cbv iota.
    rewrite run_modify. change (awake (id _)) with ({[0]} : gset nat). rewrite order_singleton. cbn [work_all].
    change (with_awake ∅ _) with (only ind x [] {[0]} ∅ ∅ {[p := 0]} s1). rewrite !run_assoc.
    rewrite (run_worldly _ _ (only ind x [] {[0]} ∅ ∅ {[p := 0]} s1) _ _ E2). unfold lock_ptr. rewrite run_assoc, run_gets. cbn [goals with_world only]. rewrite lookup_singleton_eq.
    unfold enter. rewrite !run_assoc, run_modify. change (with_locals _ _) with (only ind x [0] {[0]} ∅ ∅ {[p := 0]} s2).
    fold x in E3. rewrite run_assoc, (run_bind _ _ (only ind x [0] {[0]} ∅ ∅ {[p := 0]} s2) _ _ E3), (run_bind _ _ _ _ _ (leave_only x' ∅ k k' s3)), run_assoc, run_gets. reflexivity. }
  rewrite run_assoc, (run_worldly _ _ (only ind x [] {[0]} {[0]} ∅ {[p := 0]} s) _ _ E1).
  change (with_world s1 _) with (only ind x [] {[0]} {[0]} ∅ {[p := 0]} s1). rewrite run_assoc, (run_bind _ _ _ _ _ Ea). by destruct (keepGoing cfg).
Qed.

Lemma unwind_only x k k' s : gone x -> exists w, unwind order (only ind x [] ∅ ∅ k k' s) = Done tt w /\ world w = s.
Proof.
  intros (X1 & X2 & X3 & d & X4 & X5). unfold unwind. rewrite run_modify, run_gets. cbn [goals with_strong only]. rewrite dom_singleton_L.
  unfold drop_ptrs. rewrite run_assoc, run_gets, order_singleton. cbn [forM]. rewrite run_assoc. cbn [drop_ptr]. rewrite run_assoc, run_gets.
  cbn [id goals with_strong only]. rewrite lookup_singleton_eq. unfold strong. cbn [held topGoals locals goals with_strong only].
  rewrite (bool_decide_false (0 ∈ _ ∪ _)) by (clear; set_solver). rewrite (bool_decide_false (0 ∈ [])) by apply not_elem_of_nil.
  rewrite (bool_decide_false (map_Exists _ _)).
  2:{ intros (i & y & Hy & Hi). apply lookup_singleton_Some in Hy as [_ <-]. rewrite X1 in Hi. by apply not_elem_of_empty in Hi. }
  cbn [orb]. rewrite run_assoc, run_modify. unfold destroy. rewrite X4, X5, X1, X2, order_empty. by eexists.
Qed.
End Edges.

(** C38: a path that cannot be had counts as built.  Let [p] be a path that is not a derivation, that is not valid and that no substituter has, whatever
    the state of the world while [buildPaths] runs ([absent]).  Then [buildPaths] for [p] returns and reports success, and [p] is still not valid. *)
Theorem no_substituter_built {St} `{WO : World St} cfg order linux32 NIX_BUILD_HOOK n ind (I : St -> Prop) p s :
  (forall X, order X ≡ₚ elements X) -> readOnlyMode cfg = false -> isDerivation (parseDrvPathWithOutputs p).1 = false -> absent cfg I p -> I s ->
  exists s' s2, buildPaths cfg order linux32 NIX_BUILD_HOOK (S (S n)) ind {[p]} false s = Done Built s' /\ I s' /\ w_isValidPath p s' = Done false s2.
Proof.
  intros Ho Hro Hd Hab Hs. destruct (run_only cfg order Ho linux32 NIX_BUILD_HOOK I p Hab ind Hro n s Hs) as (x & k & k' & s' & E & Hx & Hs').
  destruct (unwind_only order Ho ind x k k' s' Hx) as (w & Eu & Hw). destruct (ab_valid _ _ _ Hab s' Hs') as (s2 & E2 & _). exists s', s2. split; [|done].
  unfold buildPaths, with_worker, build_goals. assert (set_iter {[p]} = [p]) as -> by (apply Permutation_singleton_r; by rewrite set_iter_perm, elements_singleton).
  assert (Em : forM (make_top false) [p] (Worker_new ind ∅ s) = Done tt (only ind (SubstitutionGoal p false) [] ∅ {[0]} ∅ {[p := 0]} s))
    by (cbn [forM]; unfold make_top; cbv zeta; rewrite Hd; reflexivity).
  rewrite (run_bind _ _ _ _ _ Em), run_gets. cbn [held only]. rewrite (run_bind _ _ _ _ _ E), run_gets, order_singleton by done.
  cbn [foldl]. unfold failed_goal. cbn [id goals only]. rewrite lookup_singleton_eq. destruct Hx as (_ & _ & Hx & _). rewrite Hx.
  rewrite (bool_decide_false (ecNoSubstituters = ecFailed)) by done. rewrite bool_decide_true by done. unfold mret, M_ret. by rewrite Eu, Hw.
Qed.

(** C40: a build that exceeds both limits at once ends the program.  When [waitForInput] comes to the child of a running local build, of a goal nobody
    waits for, that has written nothing for [maxSilentTime] seconds or more, and waiting has taken [buildTimeout] seconds or more, then the goal is cancelled
    for its silence and then cancelled again, and the second time fails the assertion that the goal is not done. *)
Theorem both_timeouts_assert {St} `{WO : World St} cfg order ready before after pid c x d (w : Worker St) s1 s2 :
  (forall X, order X ≡ₚ elements X) -> building_alone pid c x d w -> c_fds c ∩ ready = ∅ ->
  w_checkInterrupt (world w) = Done tt s1 -> w_kill pid s1 = Done tt s2 ->
  silent cfg after c = true -> buildTimeout cfg <> 0%Z -> (buildTimeout cfg <= after - before)%Z ->
  exists w', handle_child cfg order ready before after pid w = Raised (Exn eAssertion ($"exitCode == ecBusy")) w'.
Proof.
  intros Ho Hb Hf Hi Hk Hs Ht0 Ht. pose proof Hb as [B1 B2 B3 B4 B5 B6 B7 B8 B9]. unfold handle_child. rewrite (run_worldly _ _ _ _ _ Hi), run_gets. cbn [children with_world]. rewrite B1.
  unfold lock_ptr. rewrite run_gets. cbn [goals with_world]. rewrite B4. cbn [check]. rewrite (bool_decide_true (is_Some (Some x))) by (by eexists).
  unfold check. rewrite run_ret. unfold enter. rewrite run_modify. rewrite Hf. change (sorted_Z ∅) with (@nil Z). cbn [forM]. rewrite run_ret, run_gets.
  cbn [children with_world with_locals with_strong]. rewrite B1, Hs. set (w1 := with_locals _ _).
  destruct (cancel_alone cfg order Ho pid c x d w1 s2) as (w' & x' & d' & E & Hx' & Hk' & Hp' & Hh' & He); [by split|done|].
  rewrite (run_bind _ _ _ _ _ E), (proj2 (Z.eqb_neq _ _) Ht0), (proj2 (Z.leb_le _ _) Ht). cbn [negb andb].
  destruct (cancel_done cfg order (c_goal c) x' d' w') as (w2 & E2); [done..|by rewrite He|]. rewrite (run_raise _ _ _ _ _ E2). by exists w2.
Qed.

(** ** Runs *)

Definition limits : Settings := cfg_of false false 1 10 10 false [].
(** The build of [/s/a.drv] has started. *)
Definition started : Worker TW := Eval vm_compute in
  match (_ ← forM (make_top false) (set_iter {[ $"/s/a.drv" ]}); work_awake (WO := TW_world drvs1) limits elements true [] 50)
    (with_top {[0%nat]} (Worker_new 0 ∅ (world1 ∅ ∅ 10))) with
  | Done _ w | Raised _ w => w | Stuck => Worker_new 0 ∅ (world1 ∅ ∅ 10) end.
Definition started_goal : Goal := default (SubstitutionGoal [] false) (goals started !! 0).
Definition started_drv : DGoal := match kind started_goal with KDrv d => d | KSub _ => mkDGoal [] ∅ false empty_drv ∅ ∅ ∅ None None false d_init false end.
Definition started_child : Child := default (mkChild 0 ∅ false false 0) (children started !! 1%Z).

Lemma both_timeouts_assert_witness :
  exists w', handle_child (WO := TW_world drvs1) limits elements ∅ 1000 1010 1 started = Raised (Exn eAssertion ($"exitCode == ecBusy")) w'.
Proof.
  eapply (both_timeouts_assert (WO := TW_world drvs1) limits elements ∅ 1000 1010 1 started_child started_goal started_drv started).
  - done.
  - split; vm_compute; reflexivity.
  - vm_compute. reflexivity.
  - vm_compute. reflexivity.
  - vm_compute. reflexivity.
  - vm_compute. reflexivity.
  - discriminate.
  - vm_compute. discriminate.
Defined.

(** The whole build, in which the pipe of the builder is closed at the same time. *)
Example both_timeouts_run : exists s, run_on limits {[ $"/s/a.drv" ]} (world1 ∅ ∅ 10) = Raised (Exn eAssertion ($"exitCode == ecBusy")) s.
Proof. eexists. vm_compute. reflexivity. Qed.

Definition without (p : str) (s : TW) : Prop := (p ∉ tw_valid s) /\ tw_subst s !! p = None.

Lemma TW_absent cfg p : absent (WO := TW_world drvs1) cfg (without p) p.
Proof.
  split.
  - intros s Hs. by exists s.
  - intros s Hs. by exists s.
  - intros s Hs. exists s. split; [|done]. cbn. unfold gets. by rewrite bool_decide_false by apply Hs.
  - intros u s _ Hs. eexists _, s. split; [reflexivity|]. split; [|done]. rewrite lookup_fmap, map_lookup_filter. by rewrite (proj2 Hs).
Qed.

Lemma no_substituter_built_witness : exists s' s2,
  buildPaths (WO := TW_world drvs1) cfg2 elements true [] 2 0 {[ $"/s/zzz" ]} false (world1 ∅ ∅ 1) = Done Built s' /\ without ($"/s/zzz") s' /\
  w_isValidPath (World := TW_world drvs1) ($"/s/zzz") s' = Done false s2.
Proof.
  apply (no_substituter_built (WO := TW_world drvs1) cfg2 elements true [] 0 0 (without ($"/s/zzz")) ($"/s/zzz") (world1 ∅ ∅ 1)).
  - done.
  - reflexivity.
  - vm_compute. reflexivity.
  - apply TW_absent.
  - split; [refine (bool_decide_unpack _ _); vm_compute; exact Logic.I|reflexivity].
Defined.
