(* ===== verification/BuildOutputs.v ===== *)
(** * After the builder (src/src/libstore/build.cc)

    What [DerivationGoal::buildDone] does with the outputs of a build, in the [try] of
    that function: [collectOutputs] moves the outputs of a chroot or of a repair into place, rejects
    outputs that others can have changed, undoes the rewriting of hashes, looks
    at the exit status of the builder, and lets [computeClosure] check, scan and register the outputs.  It is
    the operation [w_collectOutputs] of the scheduler, on the state of a process that
    writes to the store ([StoreFiles.v]).

    The theorems: [computeClosure] returns exactly when every output is there, has the
    hash it was declared with, refers only to what it may and the outputs do not refer to each other in a cycle; then every output is
    registered with the hash and size of its archive and with exactly the
    references that occur in it, and otherwise nothing is registered.  [collectOutputs] makes the outputs
    valid when it returns, and never makes a path invalid, as the scheduler relies on. *)

From Stdlib Require Import ZArith Lia Ascii Relations.
From stdpp Require Import base strings sorting numbers gmap sets list.
From S2P Require Import Globals GoalData Goals.
From S2P Require Import Prelude Effects Util Serialise Hash FileSystem FileOps Archive References StorePath Derivations Closure LocalStore GCRoots GC PathLocks StoreFiles Optimise AddToStore Export Verify.

(** ** Rewriting hashes *)

(** The inner loop; the search goes on where the last string was replaced. *)
Fixpoint rewrite_loop (fuel : nat) (a b s : str) (j : nat) : result str :=
  match fuel with
  | O => NoFuel
  | S fuel =>
      match find_from a s j with
      | None => Ok s
      | Some j => rewrite_loop fuel a b (take j s ++ b ++ drop (j + length b) s) j
      end
  end.
Definition rewriteHashes (s : str) (rewrites : gmap str str) : result str :=
  foldM (fun s i =>
    _ ← assert_ (length i.1 =? length i.2)%nat;
    rewrite_loop (S (S (length s))) i.1 i.2 s 0) s (map_iter rewrites).

(** ** References that are allowed *)

Definition parseReferenceSpecifiers (store : str) (drv : Derivation) (attr : str) : result (gset str) :=
  foldM (fun result i =>
    if isStorePath store i then Ok ({[i]} ∪ result)
    else match outputs drv !! i with
         | Some o => Ok ({[out_path o]} ∪ result)
         | None => throw eBuildError ($"derivation contains an illegal reference specifier `" ++ i ++ $"'")
         end) ∅ (tokenizeString attr [" "%char; TAB; NL; CR]).

(** ** The outputs *)

(** What [startBuilder] leaves in the goal for [buildDone]; a [buildUser] of 0 is none. *)
Record Builder : Type := mkBuilder {
  useChroot : bool; chrootRootDir : str;
  redirectedOutputs : gset str; redirectedBadOutputs : gmap str str; rewritesFromTmp : gmap str str;
  buildUser : Z; keepFailed : bool }.

(** The members of the goal that change: [tmpDir] and the directory of [autoDelChroot]. *)
Record bstate : Type := mkB { b_s : sstate; b_tmpDir : str; b_autoDelChroot : option str }.
Definition set_b (s : sstate) (b : bstate) : bstate := mkB s (b_tmpDir b) (b_autoDelChroot b).
Definition on_b {A} (m : M sstate A) : M bstate A := zoom b_s set_b m.

Definition childSetupFailed : Z := 189.

Section Outputs.
Context (E : Env) `{HA : HashAlgo}.
Context (can_link_symlink : bool) (emlink_link emlink_rename : FileSys -> str -> bool) (rand : FileSys -> Z).
Context (partial : FileSys -> str -> FileSys).
(** The program [nix-setuid-helper get-ownership], and [strsignal]. *)
Context (getOwnership : str -> M sstate unit) (strsignal : Z -> str).
Abbreviation store := (nixStore E).

(** [hashFile], which opens the file. *)
Definition hash_file (ht : HashType) (p : str) : M sstate Hash :=
  lift (fun s =>
    match follow E maxLinks (s_fs s) p with
    | Some q => match s_fs s !! q with
                | Some (IReg _ data) => hashFile ht (mkFd data (sched E p))
                | Some IDir => throw eSysError ($"reading file `" ++ p ++ $"'")
                | _ => throw eSysError ($"opening file `" ++ p ++ $"'")
                end
    | None => throw eSysError ($"opening file `" ++ p ++ $"'")
    end).

(** The check of a fixed output. *)
Definition is_plain_file (st : inode) : bool := match st with IReg m _ => (Z.land m S_IXUSR =? 0)%Z | _ => false end.
Definition check_fixed (o : DerivationOutput) (st : inode) : M sstate unit :=
  match out_hash o with
  | [] => mret tt
  | _ =>
      '(recursive, ht, h) ← lift (fun _ => parseHashInfo o);
      if negb recursive && negb (is_plain_file st)
      then raise eBuildError ($"output path `" ++ out_path o ++ $" should be a non-executable regular file")
      else
        h2 ← (if (recursive : bool) then '(h2, _) ← hash_path E ht (out_path o); mret h2 else hash_file ht (out_path o));
        if Hash_neqb h h2 then raise eBuildError ($"output path `" ++ out_path o ++ $"' should have another hash") else mret tt
  end.

(** [allowedReferences] *)
Definition check_allowed (drv : Derivation) (refs : gset str) : result unit :=
  match env drv !! ($"allowedReferences") with
  | None => Ok tt
  | Some attr =>
      allowed ← parseReferenceSpecifiers store drv attr;
      match base.filter (fun i => i ∉ allowed) (set_iter refs) with
      | [] => Ok tt
      | i :: _ => throw eBuildError ($"output is not allowed to refer to path `" ++ i ++ $"'")
      end
  end.

(** One iteration of the first loop of [computeClosure], with [allReferences] and
    [contentHashes]. *)
Abbreviation scanned := (gmap str (gset str) * gmap str (Hash * Z))%type.
Definition scan_output (d : DGoal) (acc : scanned) (i : str * DerivationOutput) : M sstate scanned :=
  let path := out_path i.2 in
  e ← gets (fun s => pathExists (s_fs s) path);
  if negb e then raise eBuildError ($"builder for `" ++ drvPath d ++ $"' failed to produce output path `" ++ path ++ $"'")
  else
    st ← lift (fun s => lstat (s_fs s) path);
    _ ← check_fixed i.2 st;
    _ ← on_fattr (canonicalisePathMetaData E path);
    '(references, hash) ← lift (fun s => scanForReferences (s_fs s) (sched E) (S (size (s_fs s))) path (allPaths d));
    _ ← lift (fun _ => check_allowed (g_drv d) references);
    _ ← optimisePath E can_link_symlink emlink_link emlink_rename rand path;
    _ ← markContentsGood path;
    mret (<[path := references]> acc.1, <[path := hash]> acc.2).

(** [registerValidPaths] *)
Definition register_all (infos : list ValidPathInfo) : M sstate unit :=
  update (fun s =>
    ls ← registerValidPaths store (readFile E (s_fs s)) (now E) (S (size (all_paths (ls_db (s_ls s))) + length infos)) (s_ls s) infos;
    Ok (set_sls ls s)).

Definition output_info (d : DGoal) (acc : scanned) (i : str * DerivationOutput) : ValidPathInfo :=
  let path := out_path i.2 in
  let hash := default (Hash_default, 0%Z) (acc.2 !! path) in
  mkValidPathInfo path (drvPath d) hash.1 (default ∅ (acc.1 !! path)) 0 hash.2 0.

Definition computeClosure (d : DGoal) : M sstate unit :=
  allValid ← (match d_hook d with
              | Some _ => Goals.foldM (fun allValid i => v ← isValid (out_path i.2); mret (allValid && (v : bool))) true (map_iter (outputs (g_drv d)))
              | None => mret false
              end);
  if (allValid : bool) then mret tt
  else
    acc ← Goals.foldM (scan_output d) (∅, ∅) (map_iter (outputs (g_drv d)));
    register_all (map (output_info d acc) (map_iter (outputs (g_drv d)))).

(** ** Moving outputs into place *)

Definition replaceValidPath (storePath tmpPath : str) : M sstate unit :=
  r ← gets (fun s => rand (s_fs s));
  let oldPath := storePath ++ $".old-" ++ pid E ++ "-"%char :: int2String r in
  e ← gets (fun s => pathExists (s_fs s) storePath);
  _ ← (if (e : bool) then try_catch (fun _ => true) (rename_object storePath oldPath) (fun _ => mret tt) else mret tt);
  _ ← rename_object tmpPath storePath;
  e ← gets (fun s => pathExists (s_fs s) oldPath);
  if (e : bool) then on_del (deletePathWrapped (st_nlink E) (st_blocks E) (useHelper E) oldPath) else mret tt.

(** [addHashRewrite], with [rewritesToTmp] and [rewritesFromTmp]. *)
Definition addHashRewrite (drvPath path : str) (rewrites : gmap str str * gmap str str) : M sstate (str * (gmap str str * gmap str str)) :=
  let n := length store in
  if (length path <? n + 1)%nat || (length path <? n + 33)%nat then raise eOutOfRange ($"basic_string::basic_string")
  else
    let h1 := take 32 (drop (n + 1) path) in
    h ← lift (fun _ => h ← hashString htSHA256 ($"rewrite:" ++ drvPath ++ $":" ++ path); printHash32 h);
    let h2 := take 32 h in
    let p := store ++ $"/" ++ h2 ++ drop (n + 33) path in
    e ← gets (fun s => pathExists (s_fs s) p);
    _ ← (if (e : bool) then on_del (deletePathWrapped (st_nlink E) (st_blocks E) (useHelper E) p) else mret tt);
    _ ← lift (fun _ => assert_ (length path =? length p)%nat);
    mret (p, (<[h1 := h2]> rewrites.1, <[h2 := h1]> rewrites.2)).

(** Rewriting the hashes in an output: the new objects belong to this process. *)
Definition new_attrs (path : str) (s : sstate) : sstate :=
  set_fattr (s_fs s, fun k => if underb path k then mkAttr (euid E) (now E) (Z.land 511 (Z.lnot (umask E))) else s_attr s k) s.
Definition rewrite_output (b : Builder) (path : str) : M sstate unit :=
  sink ← lift (fun s => dumpPath (s_fs s) (sched E) (fun _ => true) (S (size (s_fs s))) path (mkStringSink []));
  _ ← on_del (deletePath (st_nlink E) (st_blocks E) path);
  dump ← lift (fun _ => rewriteHashes (ss_s sink) (rewritesFromTmp b));
  _ ← modify (new_attrs path);
  on_fs (restore_dump E partial path dump).

(** Whether others than the build user can have changed an object. *)
Definition enabled (b : Builder) : bool := negb (buildUser b =? 0)%Z.
Definition suspicious (b : Builder) (st : inode) (a : attr) : bool :=
  (negb (is_lnk st) && negb (Z.land (st_perm st a) 18 =? 0)%Z) || (enabled b && negb (a_uid a =? buildUser b)%Z).

(** One iteration of the loop of [buildDone]. *)
Definition clean_output (b : Builder) (d : DGoal) (i : str * DerivationOutput) : M sstate unit :=
  let path := out_path i.2 in
  if decide (path ∈ validPaths d) then mret tt
  else
    e ← gets (fun s => pathExists (s_fs s) (chrootRootDir b ++ path));
    _ ← (if useChroot b && e then
           if d_repair d then replaceValidPath path (chrootRootDir b ++ path)
           else rename_object (chrootRootDir b ++ path) path
         else mret tt);
    let redirected := default [] (redirectedBadOutputs b !! path) in
    e ← gets (fun s => pathExists (s_fs s) redirected);
    _ ← (if d_repair d && negb (str_eqb redirected []) && e then replaceValidPath path redirected else mret tt);
    e ← gets (fun s => pathExists (s_fs s) path);
    if negb e then mret tt
    else
      st ← lift (fun s => lstat (s_fs s) path);
      a ← gets (fun s => s_attr s path);
      if suspicious b st a
      then raise eBuildError ($"suspicious ownership or permission on `" ++ path ++ $"'; rejecting this build output")
      else
        _ ← (if bool_decide (rewritesFromTmp b = ∅) then mret tt else rewrite_output b path);
        if enabled b && negb (privileged E) then getOwnership path else mret tt.

(** ** [buildDone] *)

(** [chmod(tmpDir, 0755)], whose result is ignored. *)
Definition sys_chmod755 (path : str) (s : sstate) : sstate :=
  match follow E maxLinks (s_fs s) path with
  | Some q => set_fattr (set_perm 493 q (s_fs s, s_attr s)) s
  | None => s
  end.
Definition deleteTmpDir (b : Builder) (force : bool) : M bstate unit :=
  tmp ← gets b_tmpDir;
  if str_eqb tmp [] then mret tt
  else
    _ ← on_b (if keepFailed b && negb force then
                _ ← (if enabled b && negb (privileged E) then getOwnership tmp else mret tt);
                modify (sys_chmod755 tmp)
              else on_del (deletePathWrapped (st_nlink E) (st_blocks E) (useHelper E) tmp));
    modify (fun s => mkB (b_s s) [] (b_autoDelChroot s)).

(** [autoDelChroot.reset()]: the destructor ignores errors. *)
Definition resetChroot : M bstate unit :=
  c ← gets b_autoDelChroot;
  match c with
  | None => mret tt
  | Some p =>
      _ ← on_b (try_catch (fun _ => true) (on_del (deletePath (st_nlink E) (st_blocks E) p)) (fun _ => mret tt));
      modify (fun s => mkB (b_s s) (b_tmpDir s) None)
  end.

(** The [try] of [buildDone], up to the locks. *)
Definition collectOutputs (b : Builder) (d : DGoal) (status : Z) : M bstate unit :=
  _ ← on_b (forM (clean_output b d) (map_iter (outputs (g_drv d))));
  _ ← (if negb (statusOk status) then
         _ ← deleteTmpDir b false;
         if WIFEXITED status && (WEXITSTATUS status =? childSetupFailed)%Z
         then raise eError ($"failed to set up the build environment for `" ++ drvPath d ++ $"'")
         else raise eBuildError ($"builder for `" ++ drvPath d ++ $"' " ++ statusToString strsignal status)
       else mret tt);
  _ ← resetChroot;
  _ ← on_b (forM (fun p => on_del (deletePath (st_nlink E) (st_blocks E) p)) (set_iter (redirectedOutputs b)));
  _ ← on_b (computeClosure d);
  deleteTmpDir b true.
End Outputs.

(** * Rewriting hashes ends *)

Section Rewrite.
Context (a b : str) (Hlen : length a = length b) (Hne : a <> b).

Lemma replaced s j : a `prefix_of` drop j s -> (j <= length s)%nat ->
  let s' := take j s ++ b ++ drop (j + length b) s in length s' = length s /\ ~ a `prefix_of` drop j s'.
Proof.
  intros [r Hr] Hj s'. assert (length (drop j s) = (length b + length r)%nat) as Hl by (rewrite Hr, length_app; lia). rewrite length_drop in Hl. split.
  - unfold s'. rewrite !length_app, length_take, length_drop. lia.
  - unfold s'. rewrite drop_app_ge by (rewrite length_take; lia). rewrite length_take, Nat.min_l, Nat.sub_diag, drop_0 by lia. intros [r' Hr'].
    apply app_inj_1 in Hr' as [Hab _]; [by rewrite Hab in Hne|done].
Qed.

Lemma rewrite_loop_ends fuel : forall s j, ~ a `prefix_of` drop j s -> (j <= length s < j + fuel)%nat ->
  exists s', rewrite_loop fuel a b s j = Ok s' /\ length s' = length s.
Proof.
  induction fuel as [|fuel IH]; intros s j Hn Hf; cbn [rewrite_loop]; [lia|]. destruct (find_from a s j) as [k|] eqn:Ek; [|by eexists].
  apply find_from_Some in Ek as (H1 & H2 & H3 & _). destruct (replaced s k H3 H2) as [Hl Hp].
  assert (j <> k) by (by intros ->). destruct (IH _ k Hp) as (s' & -> & Hl'); [lia|]. exists s'. split; [done|lia].
Qed.

(** The loop ends, and the string keeps its length. *)
Lemma rewrite_all s : exists s', rewrite_loop (S (S (length s))) a b s 0 = Ok s' /\ length s' = length s.
Proof.
  remember (S (length s)) as n eqn:En. cbn [rewrite_loop]. destruct (find_from a s 0) as [k|] eqn:Ek; [|by eexists]. apply find_from_Some in Ek as (_ & H2 & H3 & _).
  destruct (replaced s k H3 H2) as [Hl Hp]. destruct (rewrite_loop_ends n _ k Hp) as (s' & -> & Hl'); [lia|]. exists s'. split; [done|lia].
Qed.
End Rewrite.

(** [rewriteHashes] ends when every hash is replaced by another one of the same length, and then the result is as long as the string; a hash that is replaced
    by itself and occurs would be replaced for ever. *)
Theorem rewriteHashes_ends s rewrites : map_Forall (fun a b => length a = length b /\ a <> b) rewrites ->
  exists s', rewriteHashes s rewrites = Ok s' /\ length s' = length s.
Proof.
  intros Hr. unfold rewriteHashes. assert (forall i, i ∈ map_iter rewrites -> length i.1 = length i.2 /\ i.1 <> i.2) as Hl by (intros [x y] Hi%elem_of_map_iter; by apply Hr).
  revert s Hl. induction (map_iter rewrites) as [|[x y] l IH]; intros s Hl; cbn [foldM]; [by eexists|].
  destruct (Hl (x, y) ltac:(left)) as [H1 H2]. cbn [fst snd] in *. rewrite (proj2 (Nat.eqb_eq _ _) H1). cbn [assert_]. rewrite bind_ret.
  destruct (rewrite_all x y H1 H2 s) as (s1 & -> & L1). rewrite bind_ret. destruct (IH s1) as (s' & -> & L'); [intros i Hi; apply Hl; by right|].
  exists s'. split; [done|lia].
Qed.

Theorem rewrite_self_loops a s fuel : a `prefix_of` s -> rewrite_loop fuel a a s 0 = NoFuel.
Proof.
  intros Hp. induction fuel as [|fuel IH]; cbn [rewrite_loop]; [done|].
  assert (find_from a s 0 = Some 0%nat) as ->. { unfold find_from. cbn. rewrite drop_0. destruct s; cbn [find_str]; by rewrite decide_True. }
  replace (take 0 s ++ a ++ drop (0 + length a) s) with s; [done|]. destruct Hp as [r ->]. cbn. by rewrite drop_app_length.
Qed.

(** * What [computeClosure] checks, on trees *)

Definition tree_at (s : sstate) (p : str) : option node := tree_of (s_fs s) (fun _ => true) (S (size (s_fs s))) p.

Section Spec.
Context (store : str) `{HA : HashAlgo}.

(** The bytes whose hash a fixed output declares: those of its archive, or those of the file. *)
Definition fixed_bytes (recursive : bool) (t : node) : option str :=
  if recursive then Some (enc_archive t) else match t with NReg false c => Some c | _ => None end.
Definition fixed_okb (o : DerivationOutput) (t : node) : bool :=
  match out_hash o with
  | [] => true
  | _ =>
      match parseHashInfo o with
      | Ok (recursive, ht, h) =>
          match fixed_bytes recursive t, hashTypeSize ht with
          | Some bytes, Some n => Hash_eqb h (hash_of_bytes ht n bytes)
          | _, _ => false
          end
      | _ => false
      end
  end.

(** The candidates whose hash part occurs in the archive. *)
Definition mentions (t : node) (p : str) : Prop :=
  match path_hash p with Some h => h ∈ windows (enc_archive t) 0 | None => False end.
#[export] Instance mentions_dec t p : Decision (mentions t p).
Proof. unfold mentions. destruct (path_hash p); apply _. Defined.
Definition refs_in (candidates : gset str) (t : node) : gset str := filter (mentions t) candidates.

Definition allowed_okb (drv : Derivation) (refs : gset str) : bool :=
  match env drv !! ($"allowedReferences") with
  | None => true
  | Some attr => match parseReferenceSpecifiers store drv attr with Ok allowed => bool_decide (refs ⊆ allowed) | _ => false end
  end.

Definition output_good (d : DGoal) (s : sstate) (o : DerivationOutput) : bool :=
  match tree_at s (out_path o) with
  | Some t => fixed_okb o t && allowed_okb (g_drv d) (refs_in (allPaths d) t)
  | None => false
  end.

(** What is registered for an output. *)
Definition closure_info (d : DGoal) (s : sstate) (i : str * DerivationOutput) : ValidPathInfo :=
  let t := default (NDir []) (tree_at s (out_path i.2)) in
  path_info (out_path i.2) (drvPath d) t (refs_in (allPaths d) t).
End Spec.

Lemma parse_specifiers_kind store drv attr :
  match parseReferenceSpecifiers store drv attr with Throw e => exn_kind e = eBuildError | NoFuel => False | Ok _ => True end.
Proof.
  unfold parseReferenceSpecifiers. generalize (∅ : gset str). induction (tokenizeString _ _) as [|i l IH]; intros acc; cbn [foldM]; [done|].
  destruct (isStorePath store i); [apply IH|]. destruct (outputs drv !! i); [apply IH|done].
Qed.

Lemma check_allowed_run E drv refs :
  if allowed_okb (nixStore E) drv refs then check_allowed E drv refs = Ok tt
  else exists msg, check_allowed E drv refs = Throw (Exn eBuildError msg).
Proof.
  unfold allowed_okb, check_allowed. destruct (env drv !! _) as [attr|]; [|done].
  pose proof (parse_specifiers_kind (nixStore E) drv attr) as Hk.
  destruct (parseReferenceSpecifiers _ drv attr) as [allowed|[k msg]|]; [|cbn in Hk; subst k; by exists msg|done].
  rewrite bind_ret. destruct (base.filter (fun i => i ∉ allowed) (set_iter refs)) as [|i l] eqn:Ef.
  - rewrite bool_decide_eq_true_2; [done|]. intros p Hp. destruct (decide (p ∈ allowed)); [done|]. exfalso.
    assert (p ∈ base.filter (fun i => i ∉ allowed) (set_iter refs)) as H by (apply list_elem_of_filter; split; [done|by apply elem_of_set_iter]).
    rewrite Ef in H. by apply not_elem_of_nil in H.
  - rewrite bool_decide_eq_false_2; [by eexists|]. intros Hs. assert (i ∈ base.filter (fun i => i ∉ allowed) (set_iter refs)) as H by (rewrite Ef; left).
    apply list_elem_of_filter in H as [Hn Hi%elem_of_set_iter]. by apply Hn, Hs.
Qed.

Lemma known_size ht : ht <> htUnknown -> exists n, hashTypeSize ht = Some n.
Proof. destruct ht; try done; intros _; by eexists. Qed.

Section Scan.
Context (E : Env) `{HA : HashAlgo} {HL : HashAlgoLaws}.
Context (can_link_symlink : bool) (emlink_link emlink_rename : FileSys -> str -> bool) (rand : FileSys -> Z).
Context (HE : env_ok E) (Hplain : forall p, sched_plain (sched E p)).
Abbreviation store := (nixStore E).
Abbreviation scan := (scan_output E can_link_symlink emlink_link emlink_rename rand).

(** The scan finds the candidates that the archive mentions. *)
Lemma scan_refs s p t refs :
  refs_ok refs -> tree_at s p = Some t -> node_bounded t ->
  scanForReferences (s_fs s) (sched E) (S (size (s_fs s))) p refs = Ok (refs_in refs t, (nar_hash t, nar_size t)).
Proof.
  intros Hr Ht Hb. destruct (scanForReferences_run (s_fs s) (sched E) _ p t refs Hr (eo_sched E HE) Ht Hb) as (found & -> & Hf).
  unfold nar_hash, nar_size. do 3 f_equal. apply set_eq. intros q. rewrite Hf. unfold refs_in. rewrite elem_of_filter, (Logic.and_comm (mentions t q)). unfold mentions.
  apply and_iff_compat_l. split.
  - intros (h & Hh & Hb32 & Ho). rewrite Hh. apply elem_of_windows. split; [|done]. split; [|done]. unfold path_hash in Hh.
    destruct (baseNameOf q) as [b| |]; try done. destruct (str_find _ b) as [pos|]; [|done]. cbn [mbind option_bind] in Hh.
    destruct (Nat.eqb_spec (length (take pos b)) refLength); by simplify_eq.
  - destruct (path_hash q) as [h|]; [|done]. intros [[_ Hb32] Ho]%elem_of_windows. by exists h.
Qed.

(** The declared hash of an output can be read. *)
Definition hash_info_ok (o : DerivationOutput) : Prop := out_hash o = [] \/ exists x, parseHashInfo o = Ok x.

Lemma parseHashInfo_known o recursive ht h : parseHashInfo o = Ok (recursive, ht, h) -> exists n, hashTypeSize ht = Some n.
Proof.
  unfold parseHashInfo. case_bool_decide as Hu; [done|]. intros (h' & _ & [= _ <- _])%bind_Ok. by apply known_size.
Qed.

Lemma tree_root s p t : tree_at s p = Some t -> exists st, s_fs s !! p = Some st /\
  is_plain_file st = (match t with NReg false _ => true | _ => false end) /\ forall c, t = NReg false c -> exists m, st = IReg m c.
Proof.
  unfold tree_at. cbn [tree_of]. intros Ht. destruct (s_fs s !! p) as [[m c| |tg|]|]; try done; eexists; (split; [done|]).
  - injection Ht as <-. cbn. destruct (Z.land m S_IXUSR =? 0)%Z; cbn; (split; [done|]); intros c' [=]; subst; by eexists.
  - destruct (readDirectory _ _); [|done|done]. destruct (mapM _ _); [|done]. injection Ht as <-. done.
  - injection Ht as <-. done.
Qed.

Lemma check_fixed_run s o t st : tree_at s (out_path o) = Some t -> node_bounded t -> s_fs s !! out_path o = Some st -> hash_info_ok o ->
  if fixed_okb o t then check_fixed E o st s = Done tt s else exists msg, check_fixed E o st s = Raised (Exn eBuildError msg) s.
Proof.
  intros Ht Hb Hst Hi. unfold fixed_okb, check_fixed. destruct (out_hash o) as [|c l] eqn:Eh; [done|].
  destruct Hi as [Hi|[[[recursive ht] h] Hi]]; [by rewrite Hi in Eh|]. rewrite Hi. rewrite (run_lift _ _ _ (recursive, ht, h)) by done. cbv beta iota.
  destruct (parseHashInfo_known _ _ _ _ Hi) as [n Hn]. rewrite Hn.
  destruct (tree_root _ _ _ Ht) as (st' & Hst' & Hpf & Hreg). assert (st' = st) as -> by congruence. rewrite Hpf.
  destruct recursive; cbn [negb andb fixed_bytes].
  - rewrite (run_bind _ _ _ (hash_of_bytes ht n (enc_archive t)) s).
    + unfold Hash_neqb. destruct (Hash_eqb h _); [done|by eexists].
    + unfold hash_path. erewrite run_lift by (apply hashPath_run; [exact Hn|apply HE|exact Ht|exact Hb]). done.
  - destruct t as [x c'|tg|es]; cbn; [destruct x|..]; cbn; try by eexists. destruct (Hreg c' eq_refl) as [m ->].
    rewrite (run_bind _ _ _ (hash_of_bytes ht n c') s).
    + unfold Hash_neqb. destruct (Hash_eqb h _); [done|by eexists].
    + unfold hash_file, lift. rewrite follow_here by congruence. rewrite Hst. by rewrite (proj1 (hashFile_correct ht n c' _ Hn (Hplain _))).
Qed.

(** ** One output *)

(** From [s] to [s'] only metadata has changed, and only below the paths in [D]. *)
Record settled (D : str -> Prop) (s s' : sstate) : Prop := {
  se_ls : s_ls s' = s_ls s;
  se_locked : s_locked s' = s_locked s;
  se_temp : s_temp s' = s_temp s;
  se_wf : fs_wf (s_fs s) -> fs_wf (s_fs s');
  se_tree : forall p, tree_at s' p = tree_at s p;
  se_dom : dom (s_fs s') = dom (s_fs s);
  se_other : forall k, s_fs s' !! k = Some IOther -> s_fs s !! k = Some IOther;
  se_uid : forall k, a_uid (s_attr s' k) = a_uid (s_attr s k) \/ a_uid (s_attr s' k) = euid E;
  se_same : forall k, ~ D k -> s_fs s' !! k = s_fs s !! k /\ s_attr s' k = s_attr s k }.

Lemma settled_refl D s : settled D s s.
Proof. by split; auto. Qed.

Lemma settled_trans D s1 s2 s3 : settled D s1 s2 -> settled D s2 s3 -> settled D s1 s3.
Proof.
  intros [A1 A2 A3 A4 A5 A6 A7 A8 A9] [B1 B2 B3 B4 B5 B6 B7 B8 B9]. split; try congruence; auto.
  - intros k. destruct (B8 k) as [-> | ->]; [done|by right].
  - intros k Hk. destruct (A9 k Hk) as [<- <-]. by apply B9.
Qed.

Lemma settled_mono (D D' : str -> Prop) s s' : settled D s s' -> (forall k, D k -> D' k) -> settled D' s s'.
Proof. intros [A1 A2 A3 A4 A5 A6 A7 A8 A9] HD. split; auto. Qed.

(** The metadata of a store object. *)
Definition canonical_at (s : sstate) (k : str) : Prop := forall i, s_fs s !! k = Some i ->
  a_uid (s_attr s k) = euid E /\ (is_lnk i = false -> i <> IOther -> a_mtime (s_attr s k) = mtimeStore /\ (st_perm i (s_attr s k) = 292%Z \/ st_perm i (s_attr s k) = 365%Z)).

Lemma canoned_canonical (D : str -> Prop) s s' k : (forall k, Decision (D k)) -> canoned E D (s_fs s, s_attr s) (s_fs s', s_attr s') ->
  (D k \/ canonical_at s k) -> canonical_at s' k.
Proof.
  intros Hdec Hc HD i Hi. destruct (Hc k) as [H1 H2]. cbn [fst snd] in *. destruct (decide (D k)) as [Hk|Hk].
  - destruct (H1 Hk) as [Hf Ha]. rewrite Hi in Hf. destruct (s_fs s !! k) as [j|]; [|done]. injection Hf as ->. rewrite Ha.
    unfold canon_attr. cbn [a_uid a_mtime a_dmode]. rewrite (eo_lchown E HE). cbn [orb]. split; [done|]. destruct j; cbn; try done; intros _ _; rewrite orb_true_r; (split; [done|]); apply perm_canonical.
  - destruct (H2 Hk) as [Hf ->]. rewrite Hf in Hi. destruct HD as [?|HD]; [done|by apply HD].
Qed.

Lemma canoned_settled p s s' : canoned E (under p) (s_fs s, s_attr s) (s_fs s', s_attr s') ->
  s_ls s' = s_ls s -> s_locked s' = s_locked s -> s_temp s' = s_temp s -> settled (under p) s s'.
Proof.
  intros Hc H1 H2 H3.
  assert (dom (s_fs s') = dom (s_fs s)) as Hd by (apply (canoned_dom E (under p) _ _ _ Hc)).
  split; try done.
  - apply (canoned_wf E (under p) _ _ _ Hc).
  - intros q. unfold tree_at. rewrite <- (size_dom (s_fs s')), Hd, size_dom. apply (canoned_tree E p _ _ _ _ _ Hc).
  - intros k Hk. destruct (Hc k) as [Hu Hn]. cbn [fst snd] in *. destruct (decide (under p k)) as [Hk'|Hk'].
    + destruct (Hu Hk') as [Hf _]. rewrite Hk in Hf. by destruct (s_fs s !! k) as [[]|].
    + by destruct (Hn Hk') as [<- _].
  - intros k. destruct (Hc k) as [Hu Hn]. cbn [fst snd] in *. destruct (decide (under p k)) as [Hk'|Hk'].
    + destruct (Hu Hk') as [_ Ha]. destruct (s_fs s !! k); rewrite Ha; [|by left]. cbn. rewrite (eo_lchown E HE). by right.
    + destruct (Hn Hk') as [_ ->]. by left.
  - intros k Hk. by apply (Hc k).
Qed.

(** What an output needs to be looked at: that it is a store path, that it can be read and that the process may
    take it over. *)
Record out_ready (s : sstate) (o : DerivationOutput) : Prop := {
  oy_store : isStorePath store (out_path o) = true;
  oy_plain : isDerivation (out_path o) = false;
  oy_hash : hash_info_ok o;
  oy_tree : s_fs s !! out_path o = None \/ exists t, tree_at s (out_path o) = Some t /\ node_bounded t;
  oy_other : forall k, under (out_path o) k -> s_fs s !! k <> Some IOther;
  oy_owned : owned E s (out_path o) }.

Lemma settled_ready D s s' o : settled D s s' -> out_ready s o -> out_ready s' o.
Proof.
  intros Hs [A1 A2 A3 A4 A5 A6]. split; try done.
  - destruct A4 as [Hn|(t & Ht & Hb)]; [left|right].
    + apply not_elem_of_dom. rewrite (se_dom _ _ _ Hs). by apply not_elem_of_dom.
    + exists t. by rewrite (se_tree _ _ _ Hs).
  - intros k Hk Ho. by apply (A5 k Hk), (se_other _ _ _ Hs).
  - intros k Hk. destruct (A6 k Hk) as [?|Hu]; [by left|right]. by destruct (se_uid _ _ _ Hs k) as [-> | ->].
Qed.

Lemma settled_good D s s' d o : settled D s s' -> output_good store d s' o = output_good store d s o.
Proof. intros Hs. unfold output_good. by rewrite (se_tree _ _ _ Hs). Qed.

Lemma tree_none s p : s_fs s !! p = None -> tree_at s p = None.
Proof. intros Hn. unfold tree_at. cbn [tree_of]. by rewrite Hn. Qed.

Lemma tree_some s p t : tree_at s p = Some t -> s_fs s !! p <> None.
Proof. intros Ht Hn. by rewrite (tree_none s p Hn) in Ht. Qed.

(** What the loop records for an output. *)
Definition records (d : DGoal) (s : sstate) (acc acc' : gmap str (gset str) * gmap str (Hash * Z)) (o : DerivationOutput) : Prop :=
  exists t, tree_at s (out_path o) = Some t /\
    acc' = (<[out_path o := refs_in (allPaths d) t]> acc.1, <[out_path o := (nar_hash t, nar_size t)]> acc.2).

Lemma scan_output_run d acc i s : refs_ok (allPaths d) -> fs_wf (s_fs s) -> out_ready s i.2 ->
  let D := under (out_path i.2) in
  if output_good store d s i.2
  then exists acc' s', scan d acc i s = Done acc' s' /\ records d s acc acc' i.2 /\ settled D s s' /\
    (forall k, D k \/ canonical_at s k -> canonical_at s' k)
  else exists msg s', scan d acc i s = Raised (Exn eBuildError msg) s' /\ settled D s s'.
Proof.
  intros Hr Hwf [A1 A2 A3 A4 A5 A6] D. unfold scan_output. rewrite run_gets. unfold pathExists, output_good.
  destruct A4 as [Hn|(t & Ht & Hb)].
  { rewrite (tree_none _ _ Hn), bool_decide_eq_false_2 by (intros H; by apply H). eexists _, s. split; [done|apply settled_refl]. }
  rewrite Ht, bool_decide_eq_true_2 by exact (tree_some _ _ _ Ht). cbn [negb].
  destruct (tree_root _ _ _ Ht) as (st & Hst & _). rewrite (run_lift _ _ _ st) by (unfold lstat; by rewrite Hst).
  pose proof (check_fixed_run s i.2 t st Ht Hb Hst A3) as Hf. destruct (fixed_okb i.2 t); cbn [andb].
  2:{ destruct Hf as [msg Hf]. rewrite (run_raise _ _ _ _ _ Hf). eexists _, s. split; [done|apply settled_refl]. }
  rewrite (run_bind _ _ _ _ _ Hf).
  destruct (canonicalise_run E (out_path i.2) (s_fs s, s_attr s)) as ([fs1 at1] & E1 & C1); [apply HE|done| | | |left; apply HE|].
  { intros E0. rewrite E0 in A1. apply (isStorePath_child store _ (eo_abs E HE)) in A1 as (n & E1 & _). symmetry in E1. by apply child_nonnil in E1. }
  { exact (tree_some _ _ _ Ht). }
  { intros k j Hk Hj. split; [intros ->; by apply (A5 k)|]. destruct (A6 k Hk); [by left|right; by left]. }
  rewrite (run_bind _ _ _ _ _ (run_zoom (fun s => (s_fs s, s_attr s)) set_fattr _ s _ _ E1)). set (s1 := set_fattr (fs1, at1) s).
  assert (settled D s s1) as Hs1 by (by apply canoned_settled).
  rewrite (run_lift _ _ _ (refs_in (allPaths d) t, (nar_hash t, nar_size t))) by (apply scan_refs; [done|by rewrite (se_tree _ _ _ Hs1)|done]). cbv beta iota.
  pose proof (check_allowed_run E (g_drv d) (refs_in (allPaths d) t)) as Ha. destruct (allowed_okb _ _ _).
  2:{ destruct Ha as [msg Ha]. exists msg, s1. split; [|done]. apply run_raise. unfold lift. by rewrite Ha. }
  rewrite (run_lift _ _ _ tt) by done. unfold optimisePath. rewrite (eo_plain E HE), run_ret. unfold markContentsGood. rewrite run_modify.
  eexists _, _. split; [done|]. split; [by exists t|]. split.
  - destruct Hs1 as [B1 B2 B3 B4 B5 B6 B7 B8 B9]. by split.
  - intros k Hk. exact (canoned_canonical D s s1 k _ C1 Hk).
Qed.

(** ** All outputs *)

Abbreviation below l := (fun k => exists i : str * DerivationOutput, i ∈ l /\ under (out_path i.2) k).

(** The maps hold what is registered. *)
Definition scanned_as (d : DGoal) (s : sstate) (acc : gmap str (gset str) * gmap str (Hash * Z)) (i : str * DerivationOutput) : Prop :=
  output_info d acc i = closure_info d s i /\ output_good store d s i.2 = true.

Lemma records_scanned d s acc acc' (i : str * DerivationOutput) : output_good store d s i.2 = true -> records d s acc acc' i.2 -> scanned_as d s acc' i.
Proof.
  intros Hg (t & Ht & ->). split; [|done]. unfold output_info, closure_info. cbn [fst snd]. rewrite !lookup_insert_eq, Ht. done.
Qed.

Lemma records_kept d s acc acc' (i j : str * DerivationOutput) : scanned_as d s acc j -> records d s acc acc' i.2 -> scanned_as d s acc' j.
Proof.
  intros [Hi Hg] (t & Ht & ->). split; [|done]. destruct (decide (out_path i.2 = out_path j.2)) as [Ep|Ep].
  - unfold output_info, closure_info. cbn [fst snd]. rewrite <- Ep, !lookup_insert_eq, Ht. done.
  - rewrite <- Hi. unfold output_info. cbn [fst snd]. by rewrite !lookup_insert_ne.
Qed.

Lemma scanned_settled D d s s' acc (i : str * DerivationOutput) : settled D s s' -> scanned_as d s' acc i <-> scanned_as d s acc i.
Proof. intros Hs. unfold scanned_as, closure_info, output_good. by rewrite (se_tree _ _ _ Hs). Qed.

Lemma scan_all d : refs_ok (allPaths d) -> forall l acc s, fs_wf (s_fs s) -> (forall i, i ∈ l -> out_ready s i.2) ->
  match Goals.foldM (scan d) acc l s with
  | Done acc' s' => settled (below l) s s' /\ (forall k, below l k \/ canonical_at s k -> canonical_at s' k) /\
      (forall i, i ∈ l -> scanned_as d s acc' i) /\ forall i, scanned_as d s acc i -> scanned_as d s acc' i
  | Raised e s' => exn_kind e = eBuildError /\ settled (below l) s s' /\ exists i, i ∈ l /\ output_good store d s i.2 = false
  | Stuck => False
  end.
Proof.
  intros Hr. induction l as [|i l IH]; intros acc s Hwf Hl; cbn [Goals.foldM].
  { cbn. split_and!; [apply settled_refl| | |done]; [intros k [(i & Hi & _)|?]; [|done]|intros i Hi]; by apply not_elem_of_nil in Hi. }
  pose proof (scan_output_run d acc i s Hr Hwf (Hl i ltac:(left))) as H. cbv zeta in H.
  assert (Hhead : forall k, under (out_path i.2) k -> below (i :: l) k) by (intros k Hk; exists i; split; [left|done]).
  destruct (output_good store d s i.2) eqn:Hg.
  2:{ destruct H as (msg & s' & E1 & Hs). rewrite (run_raise _ _ _ _ _ E1). split_and!; [done|by apply (settled_mono _ _ _ _ Hs)|]. exists i. split; [left|done]. }
  destruct H as (acc1 & s1 & E1 & Hrec & Hs & Hcan). rewrite (run_bind _ _ _ _ _ E1).
  specialize (IH acc1 s1 (se_wf _ _ _ Hs Hwf) ltac:(intros j Hj; apply (settled_ready _ s _ _ Hs), Hl; by right)).
  assert (Hmono : forall s', settled (below l) s1 s' -> settled (below (i :: l)) s s').
  { intros s' Hs'. eapply settled_trans; [by apply (settled_mono _ _ _ _ Hs)|]. apply (settled_mono _ _ _ _ Hs'). intros k (j & Hj & Hk). exists j. split; [by right|done]. }
  destruct (Goals.foldM _ acc1 l s1) as [acc' s'|e s'|]; [| |done].
  - destruct IH as (I1 & I2 & I3 & I4). split_and!; [by apply Hmono| | |].
    + intros k Hk. apply I2. destruct Hk as [(j & [-> |Hj]%elem_of_cons & Hk)|Hk]; [right; apply Hcan; by left|left; by exists j|right; apply Hcan; by right].
    + intros j [-> |Hj]%elem_of_cons; apply (proj1 (scanned_settled _ d s s1 acc' _ Hs)); [|by apply I3].
      apply I4, (proj2 (scanned_settled _ d s s1 acc1 i Hs)). by apply (records_scanned d s acc).
    + intros j Hj. apply (proj1 (scanned_settled _ d s s1 acc' j Hs)), I4, (proj2 (scanned_settled _ d s s1 acc1 j Hs)). by apply (records_kept d s acc acc1 i).
  - destruct IH as (I1 & I2 & j & Hj & Hb). split_and!; [done|by apply Hmono|]. exists j. split; [by right|]. by rewrite <- (settled_good _ s s1 d _ Hs).
Qed.

(** ** Registration *)

Abbreviation outs d := (map_iter (outputs (g_drv d))).

(** The state after the build: the inputs are valid and the outputs can be looked at. *)
Record closure_pre (d : DGoal) (s : sstate) : Prop := {
  cp_hook : d_hook d = None;
  cp_wf : fs_wf (s_fs s);
  cp_ls : ls_ok store (s_ls s);
  cp_next : (db_next (ls_db (s_ls s)) + Z.of_nat (size (outputs (g_drv d))) <= 2 ^ 31)%Z;
  cp_refs : refs_ok (allPaths d);
  cp_known : forall p, p ∈ allPaths d -> p ∈ all_paths (ls_db (s_ls s)) \/ exists i, i ∈ outs d /\ out_path i.2 = p;
  cp_out : forall i, i ∈ outs d -> out_ready s i.2 }.

Abbreviation infos d s := (map (closure_info d s) (outs d)).

(** Two outputs refer to each other. *)
Definition cyclic (d : DGoal) (s : sstate) : Prop := exists p, clos_trans str (batch_ref (s_ls s) (infos d s)) p p.

(** The outputs have been registered, read-only and otherwise as the builder left them. *)
Record outputs_registered (d : DGoal) (s s' : sstate) : Prop := {
  or_reg : registration store (now E) (infos d s) (s_ls s) (s_ls s');
  or_wf : fs_wf (s_fs s');
  or_tree : forall p, tree_at s' p = tree_at s p;
  or_canonical : forall i k, i ∈ outs d -> under (out_path i.2) k -> canonical_at s' k;
  or_same : forall k, (forall i, i ∈ outs d -> ~ under (out_path i.2) k) -> s_fs s' !! k = s_fs s !! k /\ s_attr s' k = s_attr s k;
  or_locks : s_locked s' = s_locked s /\ s_temp s' = s_temp s }.

Lemma closure_info_path d s i : path (closure_info d s i) = out_path i.2.
Proof. done. Qed.

Lemma infos_fit d s : closure_pre d s -> Forall (info_fits store) (infos d s) /\ Forall plain_info (infos d s) /\ batch_closed (s_ls s) (infos d s).
Proof.
  intros [P1 P2 P3 P4 P5 P6 P7]. split_and!.
  - apply Forall_map, Forall_forall. intros i Hi. split; [apply (P7 i Hi)|]. by apply hash_of_bytes_ok.
  - apply Forall_map, Forall_forall. intros i Hi. split; [done|apply (P7 i Hi)].
  - intros j q (i & -> & Hi)%list_elem_of_fmap Hq. cbn in Hq. unfold refs_in in Hq. apply elem_of_filter in Hq as [_ Hq].
    destruct (P6 q Hq) as [?|(k & Hk & <-)]; [by left|right]. exists (closure_info d s k). split; [|done]. apply list_elem_of_fmap. by exists k.
Qed.

Lemma register_all_run d s s1 : closure_pre d s -> s_ls s1 = s_ls s ->
  match register_all E (infos d s) s1 with
  | Done _ s' => (exists ls, s' = set_sls ls s1 /\ registration store (now E) (infos d s) (s_ls s) ls) /\ ~ cyclic d s
  | Raised e s' => exn_kind e = eBuildError /\ s' = s1 /\ cyclic d s
  | Stuck => False
  end.
Proof.
  intros Hp Hls. destruct (infos_fit d s Hp) as (F1 & F2 & F3). unfold register_all, update. rewrite Hls.
  pose proof (registerValidPaths_outcome store (readFile E (s_fs s1)) (now E) (S (size (all_paths (ls_db (s_ls s))) + length (infos d s))) (s_ls s) (infos d s)
    (cp_ls d s Hp) F1 F2 F3) as H. rewrite length_map, length_map_iter in H. specialize (H (cp_next d s Hp)). rewrite <- (length_map_iter (outputs (g_drv d))), <- (length_map (closure_info d s)) in H.
  destruct (registerValidPaths _ _ _ _ _ _) as [ls'|e|]; cbn [mbind result_bind]; [| |done].
  - destruct H as [Hr Hn]. split; [by exists ls'|]. intros [p Hc]. by apply (Hn p).
  - destruct H as [He Hc]. done.
Qed.

Lemma computeClosure_outcome d s : closure_pre d s ->
  match computeClosure E can_link_symlink emlink_link emlink_rename rand d s with
  | Done _ s' => outputs_registered d s s' /\ (forall i, i ∈ outs d -> output_good store d s i.2 = true) /\ ~ cyclic d s
  | Raised e s' => exn_kind e = eBuildError /\ settled (below (outs d)) s s' /\
      ((exists i, i ∈ outs d /\ output_good store d s i.2 = false) \/ cyclic d s)
  | Stuck => False
  end.
Proof.
  intros Hp. unfold computeClosure. rewrite (cp_hook d s Hp), run_ret.
  pose proof (scan_all d (cp_refs d s Hp) (outs d) (∅, ∅) s (cp_wf d s Hp) (cp_out d s Hp)) as H.
  destruct (Goals.foldM _ _ _ s) as [acc s1|e s1|] eqn:Es; [| |done].
  - destruct H as (H1 & H2 & H3 & _). rewrite (run_bind _ _ _ _ _ Es).
    assert (map (output_info d acc) (outs d) = infos d s) as -> by (apply map_ext_in; intros i Hi%list_elem_of_In; by apply H3).
    pose proof (register_all_run d s s1 Hp (se_ls _ _ _ H1)) as Hr. destruct (register_all _ _ s1) as [u s'|e s'|]; [| |done].
    + destruct Hr as [(ls & -> & Hr) Hc]. split_and!; [|intros i Hi; by apply H3|done]. split; [done|apply H1, Hp|apply H1| | |split; apply H1].
      * intros i k Hi Hk. apply (H2 k). left. by exists i.
      * intros k Hk. apply (se_same _ _ _ H1). intros (i & Hi & Hu). by apply (Hk i).
    + destruct Hr as (He & -> & Hc). split_and!; [done|done|by right].
  - destruct H as (H1 & H2 & H3). rewrite (run_raise _ _ _ _ _ Es). split_and!; [done|done|by left].
Qed.
End Scan.

(** * What [collectOutputs] does *)

Section Collect.
Context (E : Env) `{HA : HashAlgo} {HL : HashAlgoLaws}.
Context (can_link_symlink : bool) (emlink_link emlink_rename : FileSys -> str -> bool) (rand : FileSys -> Z).
Context (partial : FileSys -> str -> FileSys) (getOwnership : str -> M sstate unit) (strsignal : Z -> str).
Context (HE : env_ok E) (Hplain : forall p, sched_plain (sched E p)).
Abbreviation collect := (collectOutputs E can_link_symlink emlink_link emlink_rename rand partial getOwnership strsignal).
Abbreviation outs d := (map_iter (outputs (g_drv d))).

(** A build outside a chroot of outputs that were all missing, without the setuid helper. *)
Record plain_build (b : Builder) (d : DGoal) (s : bstate) : Prop := {
  pb_chroot : useChroot b = false;
  pb_repair : d_repair d = false;
  pb_redirected : redirectedOutputs b = ∅;
  pb_rewrites : rewritesFromTmp b = ∅;
  pb_user : enabled b = true -> privileged E = true;
  pb_auto : b_autoDelChroot s = None;
  pb_tmp : b_tmpDir s <> [] -> s_fs (b_s s) !! b_tmpDir s <> None;
  pb_apart : forall i, i ∈ outs d -> ~ under (out_path i.2) (b_tmpDir s) }.

(** An output that others can have changed. *)
Definition suspect (b : Builder) (d : DGoal) (s : sstate) (i : str * DerivationOutput) : bool :=
  bool_decide (out_path i.2 ∉ validPaths d) &&
  match s_fs s !! out_path i.2 with Some st => suspicious b st (s_attr s (out_path i.2)) | None => false end.

(** An object that only its owner, the build user if there is one, could have changed. *)
Definition untouched (b : Builder) (st : inode) (a : attr) : Prop :=
  (is_lnk st = false -> Z.testbit (st_perm st a) 1 = false /\ Z.testbit (st_perm st a) 4 = false) /\ (buildUser b <> 0%Z -> a_uid a = buildUser b).

Lemma suspicious_untouched b st a : suspicious b st a = false -> untouched b st a.
Proof.
  unfold suspicious, untouched, enabled. intros [H1 H2]%orb_false_iff. split.
  - intros Hl. rewrite Hl in H1. cbn in H1. apply negb_false_iff, Z.eqb_eq in H1. set (p := st_perm st a) in *.
    pose proof (f_equal (fun z => Z.testbit z 1) H1) as B1. pose proof (f_equal (fun z => Z.testbit z 4) H1) as B4. cbv beta in B1, B4.
    rewrite Z.land_spec, Z.bits_0 in B1, B4. change (Z.testbit 18 1) with true in B1. change (Z.testbit 18 4) with true in B4. by rewrite andb_true_r in B1, B4.
  - intros Hu. destruct (Z.eqb_spec (buildUser b) 0) as [|_]; [done|]. cbn in H2. apply negb_false_iff, Z.eqb_eq in H2. done.
Qed.

Lemma clean_output_run b d s i : plain_build b d s ->
  let m := clean_output E rand partial getOwnership b d i in
  if suspect b d (b_s s) i then exists msg, m (b_s s) = Raised (Exn eBuildError msg) (b_s s) else m (b_s s) = Done tt (b_s s).
Proof.
  intros [P1 P2 P3 P4 P5 P6 P7 P8] m. unfold m, clean_output, suspect. destruct (decide (out_path i.2 ∈ validPaths d)) as [Hv|Hv].
  { by rewrite bool_decide_eq_false_2 by (intros Hn; by apply Hn). }
  rewrite bool_decide_eq_true_2 by done. cbn [andb]. rewrite P1, P2, P4. rewrite run_gets. cbn [andb]. rewrite run_ret, run_gets, run_ret, run_gets.
  unfold pathExists. destruct (s_fs (b_s s) !! out_path i.2) as [st|] eqn:Est.
  2:{ by rewrite bool_decide_eq_false_2 by (intros Hn; by apply Hn). }
  rewrite bool_decide_eq_true_2 by done. cbn [negb]. rewrite (run_lift _ _ _ st) by (unfold lstat; by rewrite Est). rewrite run_gets.
  destruct (suspicious b st _); [by eexists|]. rewrite bool_decide_eq_true_2 by done. rewrite run_ret.
  destruct (enabled b); [|done]. by rewrite P5.
Qed.

Lemma clean_run b d s : plain_build b d s -> forall l,
  let m := forM (clean_output E rand partial getOwnership b d) l in
  if existsb (suspect b d (b_s s)) l then exists msg, m (b_s s) = Raised (Exn eBuildError msg) (b_s s) else m (b_s s) = Done tt (b_s s).
Proof.
  intros Hp. induction l as [|i l IH]; cbv zeta; cbn [forM existsb]; [done|].
  pose proof (clean_output_run b d s i Hp) as H. cbv zeta in H. destruct (suspect b d (b_s s) i); cbn [orb].
  - destruct H as [msg H]. exists msg. by apply run_raise.
  - rewrite (run_bind _ _ _ _ _ H). exact IH.
Qed.

(** The directory of the build is gone. *)
Definition without_dir (tmp : str) (s : sstate) : sstate := if str_eqb tmp [] then s else set_sfs (without tmp (s_fs s)) s.

Lemma deleteTmpDir_gone b (s : bstate) : fs_wf (s_fs (b_s s)) -> (b_tmpDir s <> [] -> s_fs (b_s s) !! b_tmpDir s <> None) ->
  deleteTmpDir E getOwnership b true s = Done tt (mkB (without_dir (b_tmpDir s) (b_s s)) [] (b_autoDelChroot s)).
Proof.
  intros Hwf Ht. unfold deleteTmpDir, without_dir. rewrite run_gets. destruct (str_eqb (b_tmpDir s) []) eqn:E0.
  { unfold str_eqb in E0. apply bool_decide_eq_true in E0. destruct s as [s0 t c]. cbn in *. by subst. }
  unfold str_eqb in E0. apply bool_decide_eq_false in E0. cbn [negb]. rewrite andb_false_r.
  rewrite (run_bind _ _ s tt (set_b (set_sfs (without (b_tmpDir s) (s_fs (b_s s))) (b_s s)) s)); [done|]. unfold on_b, zoom, on_del, zoom.
  pose proof (deletePathWrapped_spec (st_nlink E) (st_blocks E) (useHelper E) (s_fs (b_s s)) 0 (b_tmpDir s) Hwf E0) as H.
  destruct (deletePathWrapped _ _ _ _ _) as [[] [fs x]|e [fs x]|]; [by destruct H as (_ & -> & _)| |done].
  exfalso. destruct H as (_ & Hn & _). by apply Ht in E0.
Qed.

(** A failed build: whether the directory is deleted or kept, the database stays. *)
Lemma deleteTmpDir_kept b d (s : bstate) : plain_build b d s -> fs_wf (s_fs (b_s s)) ->
  exists s', deleteTmpDir E getOwnership b false s = Done tt s' /\ s_ls (b_s s') = s_ls (b_s s).
Proof.
  intros [P1 P2 P3 P4 P5 P6 P7 P8] Hwf. destruct (keepFailed b) eqn:Ek.
  - unfold deleteTmpDir. rewrite run_gets. destruct (str_eqb _ _); [by exists s|]. rewrite Ek. cbn [negb andb].
    assert (enabled b && negb (privileged E) = false) as -> by (destruct (enabled b); [by rewrite P5|done]).
    unfold on_b, zoom, mbind, M_bind, mret, M_ret, modify. eexists. split; [done|]. cbn. unfold sys_chmod755. by destruct (follow _ _ _ _).
  - pose proof (deleteTmpDir_gone b s Hwf P7) as H. exists (mkB (without_dir (b_tmpDir s) (b_s s)) [] (b_autoDelChroot s)). split.
    + rewrite <- H. unfold deleteTmpDir. by rewrite Ek.
    + cbn. unfold without_dir. by destruct (str_eqb _ _).
Qed.

(** The ways a build can be rejected, and the exception of each. *)
Definition rejected (b : Builder) (d : DGoal) (status : Z) (s : sstate) (e : exn) : Prop :=
  (existsb (suspect b d s) (outs d) = true /\ exn_kind e = eBuildError) \/
  (statusOk status = false /\ exn_kind e = if WIFEXITED status && (WEXITSTATUS status =? childSetupFailed)%Z then eError else eBuildError) \/
  ((exists i, i ∈ outs d /\ output_good (nixStore E) d s i.2 = false) \/ cyclic d s) /\ exn_kind e = eBuildError.

Lemma collectOutputs_outcome b d status s : closure_pre E d (b_s s) -> plain_build b d s ->
  match collect b d status s with
  | Done _ s' => existsb (suspect b d (b_s s)) (outs d) = false /\ statusOk status = true /\
      (forall i, i ∈ outs d -> output_good (nixStore E) d (b_s s) i.2 = true) /\
      exists s1, outputs_registered E d (b_s s) s1 /\ s' = mkB (without_dir (b_tmpDir s) s1) [] None
  | Raised e s' => rejected b d status (b_s s) e /\ s_ls (b_s s') = s_ls (b_s s)
  | Stuck => False
  end.
Proof.
  intros Hc Hp. pose proof Hp as [P1 P2 P3 P4 P5 P6 P7 P8]. unfold collectOutputs, rejected.
  pose proof (clean_run b d s Hp (outs d)) as H. cbv zeta in H. destruct (existsb _ _).
  { destruct H as [msg H]. erewrite run_raise by (unfold on_b, zoom; rewrite H; done). split; [by left|done]. }
  rewrite (run_bind _ _ s tt s) by (unfold on_b, zoom; rewrite H; by destruct s).
  destruct (statusOk status) eqn:Est; cbn [negb].
  2:{ destruct (deleteTmpDir_kept b d s Hp (cp_wf E d (b_s s) Hc)) as (s' & E1 & L1).
      destruct (_ && _); (erewrite run_raise; [|rewrite (run_bind _ _ _ _ _ E1); reflexivity]); (split; [right; by left|done]). }
  rewrite run_ret. unfold resetChroot. rewrite (run_bind _ _ s tt s) by (rewrite run_gets; by rewrite P6).
  rewrite P3. rewrite (run_bind _ _ s tt s) by (by destruct s).
  pose proof (computeClosure_outcome E can_link_symlink emlink_link emlink_rename rand HE Hplain d (b_s s) Hc) as Hcl.
  unfold on_b at 1. destruct (computeClosure _ _ _ _ _ d (b_s s)) as [[] s1|e s1|] eqn:Ec; [| |done].
  - rewrite (run_bind _ _ _ _ _ (run_zoom b_s set_b _ s _ _ Ec)). destruct Hcl as (Hr & Hg & _).
    rewrite deleteTmpDir_gone; cbn [b_s b_tmpDir b_autoDelChroot set_b].
    + split_and!; [done|done|done|]. exists s1. split; [done|]. by rewrite P6.
    + apply (or_wf E d _ _ Hr).
    + intros Hn. destruct (or_same E d _ _ Hr (b_tmpDir s)) as [-> _]; [exact P8|by apply P7].
  - erewrite run_raise by (unfold zoom; rewrite Ec; done). destruct Hcl as (He & Hs & Hb). split; [right; right; done|]. apply Hs.
Qed.
End Collect.

(** * Theorems *)

Section Theorems.
Context (E : Env) `{HA : HashAlgo} {HL : HashAlgoLaws}.
Context (can_link_symlink : bool) (emlink_link emlink_rename : FileSys -> str -> bool) (rand : FileSys -> Z).
Context (partial : FileSys -> str -> FileSys) (getOwnership : str -> M sstate unit) (strsignal : Z -> str).
Context (HE : env_ok E).
Abbreviation outs d := (map_iter (outputs (g_drv d))).

Lemma output_tree d s i : output_good (nixStore E) d s i.2 = true -> exists t, tree_at s (out_path i.2) = Some t /\
  closure_info d s i = path_info (out_path i.2) (drvPath d) t (refs_in (allPaths d) t).
Proof. unfold output_good, closure_info. destruct (tree_at s (out_path i.2)) as [t|]; [|done]. intros _. by exists t. Qed.

(** The hashes that are registered are those of the objects. *)
Lemma registered_consistent d s s' : closure_pre E d s -> outputs_registered E d s s' -> (forall i, i ∈ outs d -> output_good (nixStore E) d s i.2 = true) ->
  consistent s -> consistent s'.
Proof.
  intros Hp Hr Hg Hc k r Hk. destruct (rn_new _ _ _ _ _ (or_reg E d s s' Hr) k r Hk) as [Hold|(j & (i & -> & Hi)%list_elem_of_fmap & -> & _)].
  - destruct (Hc k r Hold) as (t & Ht & H). exists t. split; [|done]. change (tree_at s' (r_path r) = Some t). by rewrite (or_tree E d s s' Hr).
  - destruct (output_tree d s i (Hg i Hi)) as (t & Ht & ->). exists t. split; [change (tree_at s' (out_path i.2) = Some t); by rewrite (or_tree E d s s' Hr)|].
    destruct (oy_tree E s i.2 (cp_out E d s Hp i Hi)) as [Hn|(t' & Ht' & Hb)]; [by rewrite (tree_none s _ Hn) in Ht|].
    assert (t' = t) as -> by congruence. split_and!; [done|done|]. cbn. destruct (nar_size t =? 0)%Z; auto.
Qed.

(** The references of the outputs. *)
Lemma registered_refs d s s' i t : outputs_registered E d s s' -> i ∈ outs d -> (forall j, j ∈ outs d -> out_path j.2 = out_path i.2 -> tree_at s (out_path j.2) = Some t) ->
  out_path i.2 ∉ all_paths (ls_db (s_ls s)) ->
  forall q, db_ref (ls_db (s_ls s')) (out_path i.2) q <-> q ∈ refs_in (allPaths d) t.
Proof.
  intros Hr Hi Ht Hn q. rewrite (rn_refs _ _ _ _ _ (or_reg E d s s' Hr)). split.
  - intros [(a & b & Ha & _)|(x & (j & -> & Hj)%list_elem_of_fmap & Hp & Hq)]; [destruct Hn; apply elem_of_all_paths; by exists a|].
    unfold closure_info in Hq. rewrite (Ht j Hj Hp) in Hq. exact Hq.
  - intros Hq. right. exists (closure_info d s i). split; [apply list_elem_of_fmap; by exists i|]. split; [done|]. unfold closure_info. by rewrite (Ht i Hi eq_refl).
Qed.

Lemma registered_valid d s s' p : outputs_registered E d s s' ->
  p ∈ all_paths (ls_db (s_ls s')) <-> p ∈ all_paths (ls_db (s_ls s)) \/ exists n o, outputs (g_drv d) !! n = Some o /\ out_path o = p.
Proof.
  intros Hr. rewrite (rn_valid _ _ _ _ _ (or_reg E d s s' Hr)). apply or_iff_compat_l. split.
  - intros (x & ([n o] & -> & Hi)%list_elem_of_fmap & <-). apply elem_of_map_iter in Hi. by exists n, o.
  - intros (n & o & Ho & <-). exists (closure_info d s (n, o)). split; [|done]. apply list_elem_of_fmap. exists (n, o). split; [done|]. by apply elem_of_map_iter.
Qed.

(** C9: the outputs of a build are registered exactly as they are.  [computeClosure] returns if and only
    if every output exists, a fixed output has the declared hash, every reference is an allowed one, and the
    outputs do not refer to each other in a cycle; otherwise it throws a [BuildError] and nothing is
    registered.  When it returns, the valid paths have grown by exactly the outputs; an output that was
    not valid refers to exactly the inputs and outputs whose hash parts occur in its
    archive; its objects are read-only, belong to the process and have the canonical time; no tree has
    changed, and the registered hashes are still those of the objects. *)
Theorem computeClosure_exact d s :
  (forall p, sched_plain (sched E p)) -> closure_pre E d s ->
  match computeClosure E can_link_symlink emlink_link emlink_rename rand d s with
  | Done _ s' =>
      (forall n o, outputs (g_drv d) !! n = Some o -> exists t, tree_at s (out_path o) = Some t /\
         fixed_okb o t = true /\ allowed_okb (nixStore E) (g_drv d) (refs_in (allPaths d) t) = true /\
         (forall k, under (out_path o) k -> canonical_at E s' k) /\
         (out_path o ∉ all_paths (ls_db (s_ls s)) -> forall q, db_ref (ls_db (s_ls s')) (out_path o) q <-> q ∈ allPaths d /\ mentions t q)) /\
      (forall p, p ∈ all_paths (ls_db (s_ls s')) <-> p ∈ all_paths (ls_db (s_ls s)) \/ exists n o, outputs (g_drv d) !! n = Some o /\ out_path o = p) /\
      (forall p, tree_at s' p = tree_at s p) /\ (consistent s -> consistent s') /\ ~ cyclic d s
  | Raised e s' => exn_kind e = eBuildError /\ s_ls s' = s_ls s /\ (forall p, tree_at s' p = tree_at s p) /\
      ((exists n o, outputs (g_drv d) !! n = Some o /\ output_good (nixStore E) d s o = false) \/ cyclic d s)
  | Stuck => False
  end.
Proof.
  intros Hpl Hp. pose proof (computeClosure_outcome E can_link_symlink emlink_link emlink_rename rand HE Hpl d s Hp) as H.
  destruct (computeClosure _ _ _ _ _ _ _) as [u s'|e s'|]; [| |done].
  - destruct H as (Hr & Hg & Hc). split_and!; [|intros p; by apply registered_valid|apply Hr|by apply (registered_consistent d)|done].
    intros n o Ho. apply elem_of_map_iter in Ho. destruct (output_tree d s (n, o) (Hg _ Ho)) as (t & Ht & _). cbn [snd] in Ht. exists t.
    pose proof (Hg _ Ho) as Hgo. unfold output_good in Hgo. cbn [snd] in Hgo. rewrite Ht in Hgo. apply andb_true_iff in Hgo as [H1 H2].
    split_and!; [done|done|done|intros k Hk; by apply (or_canonical E d s s' Hr (n, o))|]. intros Hn q.
    rewrite (registered_refs d s s' (n, o) t Hr Ho) by (done || (intros j _ ->; done)). unfold refs_in. rewrite elem_of_filter. apply Logic.and_comm.
  - destruct H as (He & Hs & Hb). split_and!; [done|apply Hs|apply Hs|]. destruct Hb as [([n o] & Hi & Hb)|Hb]; [left|by right].
    exists n, o. split; [by apply elem_of_map_iter|done].
Qed.

(** C10: after a build outside a chroot, whose outputs were all missing before.  When [collectOutputs] returns,
    the builder exited with 0, no output could have been changed by others than the build
    user, every output passed the checks and is valid, no path has become invalid, and the directory of the
    build is gone.  Otherwise the database is as before, and the exception says why: a [BuildError], by which the goal fails, or an
    [Error] when the builder could not be set up. *)
Theorem collectOutputs_exact b d status s :
  (forall p, sched_plain (sched E p)) -> closure_pre E d (b_s s) -> plain_build E b d s ->
  match collectOutputs E can_link_symlink emlink_link emlink_rename rand partial getOwnership strsignal b d status s with
  | Done _ s' =>
      statusOk status = true /\
      (forall n o, outputs (g_drv d) !! n = Some o ->
         (forall st, out_path o ∉ validPaths d -> s_fs (b_s s) !! out_path o = Some st -> untouched b st (s_attr (b_s s) (out_path o))) /\
         output_good (nixStore E) d (b_s s) o = true /\ out_path o ∈ all_paths (ls_db (s_ls (b_s s')))) /\
      all_paths (ls_db (s_ls (b_s s))) ⊆ all_paths (ls_db (s_ls (b_s s'))) /\
      exists s1, outputs_registered E d (b_s s) s1 /\ s' = mkB (without_dir (b_tmpDir s) s1) [] None
  | Raised e s' => s_ls (b_s s') = s_ls (b_s s) /\ rejected E b d status (b_s s) e
  | Stuck => False
  end.
Proof.
  intros Hpl Hc Hp. pose proof (collectOutputs_outcome E can_link_symlink emlink_link emlink_rename rand partial getOwnership strsignal HE Hpl b d status s Hc Hp) as H.
  destruct (collectOutputs _ _ _ _ _ _ _ _ _ _ _ _) as [u s'|e s'|]; [|by destruct H|done].
  destruct H as (Hsu & Hst & Hg & s1 & Hr & ->). cbn [b_s].
  assert (s_ls (without_dir (b_tmpDir s) s1) = s_ls s1) as -> by (unfold without_dir; by destruct (str_eqb _ _)).
  split_and!; [done| | |by exists s1].
  - intros n o Ho. split_and!.
    + intros st Hv Hobj. apply suspicious_untouched. destruct (suspicious b st _) eqn:Ex; [|done].
      assert (existsb (suspect b d (b_s s)) (outs d) = true) as H; [|congruence]. apply existsb_exists. exists (n, o).
      split; [by apply list_elem_of_In, elem_of_map_iter|]. unfold suspect. cbn [snd]. by rewrite bool_decide_eq_true_2, Hobj, Ex.
    + apply (Hg (n, o)). by apply elem_of_map_iter.
    + apply (registered_valid d (b_s s) s1 _ Hr). right. by exists n, o.
  - intros p Hv. apply (registered_valid d (b_s s) s1 _ Hr). by left.
Qed.
End Theorems.

(** ** A build *)

Definition dep_path : str := $"/nix/store/11111111111111111111111111111111-dep".
Definition bin_path : str := $"/nix/store/00000000000000000000000000000000-hello".
Definition doc_path : str := $"/nix/store/22222222222222222222222222222222-hello-doc".
Definition build_drv : Derivation :=
  mkDerivation {[$"out" := mkDerivationOutput bin_path [] []; $"doc" := mkDerivationOutput doc_path [] []]} ∅ ∅ [] [] [] ∅.
Definition build_goal : DGoal :=
  mkDGoal ($"/nix/store/33333333333333333333333333333333-hello.drv") ∅ false build_drv {[dep_path]} {[dep_path; bin_path; doc_path]} ∅ None None false d_buildDone false.
Definition build_fs : FileSys :=
  list_to_map [($"/nix", IDir); ($"/nix/store", IDir); (dep_path, IReg 292 ($"dep")); ($"/tmp", IDir); ($"/tmp/b", IDir); ($"/tmp/b/x", IReg 420 ($"log"));
    (bin_path, IDir); (bin_path ++ $"/hello", IReg 493 ($"exec " ++ dep_path ++ $" " ++ doc_path)); (doc_path, IReg 420 ($"hello"))].
Definition dep_info : ValidPathInfo := mkValidPathInfo dep_path [] sample_hash ∅ 0 120 0.
Definition build_db : LocalStore :=
  match registerValidPaths (HA := checksum_algo) sample_store no_files 1000 0 empty_store [dep_info] with Ok st => st | _ => empty_store end.
Definition build_state (fs : FileSys) : bstate := mkB (mkS build_db fs sample_attr ∅ None 0 ∅) ($"/tmp/b") None.
Definition plain_builder : Builder := mkBuilder false [] ∅ ∅ ∅ 0 false.
Definition build_run (b : Builder) (d : DGoal) (status : Z) (fs : FileSys) : outcome bstate unit :=
  collectOutputs sample_env (HA := checksum_algo) false (fun _ _ => false) (fun _ _ => false) (fun _ => 0%Z) (fun fs _ => fs) (fun _ => mret tt) (fun _ => [])
    b d status (build_state fs).

(** When some outputs are already valid, they are built again under another name ([addHashRewrite]) and thrown away afterwards.  A builder that does not make one
    of them again is not reported as a failed build: [deletePath] throws a [SysError], which the handler of [buildDone] does not catch,
    so that all builds are given up. *)
Theorem redirected_missing :
  let d := with_valid {[doc_path]} build_goal in
  let fs := delete doc_path build_fs in
  match addHashRewrite sample_env (HA := checksum_algo) (drvPath d) doc_path (∅, ∅) (b_s (build_state fs)) with
  | Done (p, rewrites) _ =>
      match build_run (mkBuilder false [] {[p]} ∅ rewrites.2 0 false) d 0 fs with Raised e _ => exn_kind e = eSysError | _ => False end
  | _ => False
  end.
Proof. vm_compute. reflexivity. Qed.

Lemma build_db_ok : ls_ok sample_store build_db.
Proof.
  apply (rn_ok _ 1000 [dep_info] empty_store). eapply (registerValidPaths_spec (HA := checksum_algo) sample_store no_files 1000 0).
  - apply empty_store_ok.
  - apply Forall_singleton. split; [vm_compute; reflexivity|apply sample_hash_ok].
  - vm_compute. discriminate.
  - vm_compute. reflexivity.
Qed.

Lemma build_no_other k : build_fs !! k <> Some IOther.
Proof.
  intros Hk. assert (forallb (fun ki : str * inode => match ki.2 with IOther => false | _ => true end) (map_to_list build_fs) = true) as H by (vm_compute; reflexivity).
  rewrite forallb_forall in H. apply (elem_of_map_to_list build_fs k IOther), list_elem_of_In, H in Hk. done.
Qed.

Lemma build_outs (P : str * DerivationOutput -> Prop) :
  P ($"out", mkDerivationOutput bin_path [] []) -> P ($"doc", mkDerivationOutput doc_path [] []) ->
  forall i, i ∈ map_iter (outputs (g_drv build_goal)) -> P i.
Proof.
  intros H1 H2. apply Forall_forall. assert (map_iter (outputs (g_drv build_goal)) =
    [($"doc", mkDerivationOutput doc_path [] []); ($"out", mkDerivationOutput bin_path [] [])]) as -> by (vm_compute; reflexivity). by repeat constructor.
Qed.

Definition bin_tree : node := NDir [($"hello", NReg true ($"exec " ++ dep_path ++ $" " ++ doc_path))].
Lemma build_ready p t : isStorePath ($"/nix/store") p = true -> isDerivation p = false ->
  tree_at (b_s (build_state build_fs)) p = Some t -> node_bounded t -> out_ready sample_env (b_s (build_state build_fs)) (mkDerivationOutput p [] []).
Proof. intros H1 H2 H3 H4. split; [done|done|by left|right; by exists t|intros k _; apply build_no_other|intros k _; by left]. Qed.

Lemma build_all p : p ∈ allPaths build_goal -> p = dep_path \/ p = bin_path \/ p = doc_path.
Proof. change (allPaths build_goal) with ({[dep_path; bin_path; doc_path]} : gset str). rewrite !elem_of_union, !elem_of_singleton. tauto. Qed.

Lemma build_pre : closure_pre sample_env build_goal (b_s (build_state build_fs)).
Proof.
  split.
  - reflexivity.
  - apply fs_wfb_ok. vm_compute. reflexivity.
  - exact build_db_ok.
  - vm_compute. discriminate.
  - split; [intros p [-> |[-> | ->]]%build_all; vm_compute; discriminate|]. intros p q [-> |[-> | ->]]%build_all [-> |[-> | ->]]%build_all He; try reflexivity; vm_compute in He; discriminate He.
  - intros p [-> |[-> | ->]]%build_all; [left|right|right].
    + refine (bool_decide_unpack _ _). vm_compute. exact I.
    + exists ($"out", mkDerivationOutput bin_path [] []). split; [|done]. apply elem_of_map_iter. vm_compute. reflexivity.
    + exists ($"doc", mkDerivationOutput doc_path [] []). split; [|done]. apply elem_of_map_iter. vm_compute. reflexivity.
  - apply build_outs; [apply (build_ready bin_path bin_tree)|apply (build_ready doc_path (NReg false ($"hello")))]; try (vm_compute; reflexivity).
    vm_compute. split; [reflexivity|split; [reflexivity|exact I]].
Qed.

Lemma build_plain : plain_build sample_env plain_builder build_goal (build_state build_fs).
Proof.
  split; try reflexivity; [intros _; vm_compute; discriminate|].
  apply build_outs; intros [r Hr]%under_prefix; vm_compute in Hr; discriminate Hr.
Qed.

Lemma collectOutputs_exact_witness :
  exists s', build_run plain_builder build_goal 0 build_fs = Done tt s' /\ bin_path ∈ all_paths (ls_db (s_ls (b_s s'))).
Proof.
  pose proof (collectOutputs_exact sample_env (HA := checksum_algo) (HL := checksum_laws) false (fun _ _ => false) (fun _ _ => false) (fun _ => 0%Z) (fun fs _ => fs) (fun _ => mret tt) (fun _ => [])
    sample_env_ok plain_builder build_goal 0 (build_state build_fs) (fun p => Forall_nil_2 _) build_pre build_plain) as H.
  fold (build_run plain_builder build_goal 0 build_fs) in H.
  assert (done_b (build_run plain_builder build_goal 0 build_fs) = true) as Hd by (vm_compute; reflexivity).
  destruct (build_run plain_builder build_goal 0 build_fs) as [[] s'|e s'|]; [|discriminate Hd|discriminate Hd].
  exists s'. split; [reflexivity|]. destruct H as (_ & H & _). apply (H ($"out") (mkDerivationOutput bin_path [] [])). vm_compute. reflexivity.
Defined.

Definition closure_run : outcome sstate unit :=
  computeClosure sample_env (HA := checksum_algo) false (fun _ _ => false) (fun _ _ => false) (fun _ => 0%Z) build_goal (b_s (build_state build_fs)).

Lemma computeClosure_exact_witness :
  exists s', closure_run = Done tt s' /\ forall q, db_ref (ls_db (s_ls s')) bin_path q <-> q ∈ allPaths build_goal /\ mentions bin_tree q.
Proof.
  pose proof (computeClosure_exact sample_env (HA := checksum_algo) (HL := checksum_laws) false (fun _ _ => false) (fun _ _ => false) (fun _ => 0%Z)
    sample_env_ok build_goal (b_s (build_state build_fs)) (fun p => Forall_nil_2 _) build_pre) as H.
  fold closure_run in H. assert (done_b closure_run = true) as Hd by (vm_compute; reflexivity).
  destruct closure_run as [[] s'|e s'|]; [|discriminate Hd|discriminate Hd]. exists s'. split; [reflexivity|]. destruct H as (H & _).
  destruct (H ($"out") (mkDerivationOutput bin_path [] []) ltac:(vm_compute; reflexivity)) as (t & Ht & _ & _ & _ & Hr).
  assert (tree_at (b_s (build_state build_fs)) bin_path = Some bin_tree) as Hb by (vm_compute; reflexivity).
  change (out_path _) with bin_path in Ht. rewrite Hb in Ht. injection Ht as <-. apply Hr. refine (bool_decide_unpack _ _). vm_compute. exact I.
Defined.
