(* ===== verification/Daemon.v ===== *)
(** * The daemon (src/src/nix-daemon/nix-daemon.cc)

    The process that serves one connection: it greets the client, opens the store and
    performs one operation after the other on it.  What operations write to standard
    error or to a sink is sent as messages of its own before the result; what they read
    from a source is requested from the client.  Signals that tell the daemon that the
    client has died are not modelled: the client stays. *)

From Stdlib Require Import ZArith Lia Ascii.
From stdpp Require Import base strings sorting numbers gmap sets list.
From S2P Require Import Prelude Effects Util Serialise Hash FileSystem FileOps Archive StorePath GCRoots GC Globals Wire.

(** ** State *)

Record Daemon (St : Type) : Type := mkDaemon {
  d_from : Sock; d_to : Out; d_store : option St; canSendStderr : bool; d_settings : Settings; d_verbosity : Z; d_logType : Z }.
Arguments mkDaemon {_} _ _ _ _ _ _ _.
Arguments d_from {_} _.
Arguments d_to {_} _.
Arguments d_store {_} _.
Arguments canSendStderr {_} _.
Arguments d_settings {_} _.
Arguments d_verbosity {_} _.
Arguments d_logType {_} _.

(** The sink that collects the contents of a dump of one regular file. *)
Record RetrieveRegularNARSink : Type := mkRetrieve { rr_regular : bool; rr_s : str }.
#[export] Instance RetrieveRegularNARSink_sink : ParseSink RetrieveRegularNARSink := {|
  createDirectory _ k := Ok (mkRetrieve false (rr_s k)); createRegularFile _ k := Ok k; isExecutable k := Ok k; preallocateContents _ k := Ok k;
  receiveContents d k := Ok (mkRetrieve (rr_regular k) (rr_s k ++ d)); createSymlink _ _ k := Ok (mkRetrieve false (rr_s k)) |}.

(** The source that saves everything read from another one. *)
Record SavingSourceAdapter (S : Type) : Type := mkSaving { sa_orig : S; sa_s : str }.
Arguments mkSaving {_} _ _.
Arguments sa_orig {_} _.
Arguments sa_s {_} _.
#[export] Instance SavingSourceAdapter_source {S} `{Source S} : Source (SavingSourceAdapter S) := fun n s =>
  '(d, o) ← source_read n (sa_orig s);
  Ok (d, mkSaving o (sa_s s ++ d)).

Section Daemon.
Context {St : Type} `{StoreOps St} (nixStore : str).
(** [e.status] of an exception. *)
Context (exn_status : exn -> Z).
(** [new LocalStore(reserveSpace)]. *)
Context (openStore : bool -> result St).
Abbreviation D := (Daemon St).

Definition dread {A} (f : Sock -> result (A * Sock)) : M D A := fun d =>
  match f (d_from d) with
  | Ok (a, s) => Done a (mkDaemon s (d_to d) (d_store d) (canSendStderr d) (d_settings d) (d_verbosity d) (d_logType d))
  | Throw e => Raised e d
  | NoFuel => Stuck
  end.
Definition set_to (o : Out) (d : D) : D := mkDaemon (d_from d) o (d_store d) (canSendStderr d) (d_settings d) (d_verbosity d) (d_logType d).
Definition dwrite (f : Out -> result Out) : M D unit := update (fun d => o ← f (d_to d); Ok (set_to o d)).
Definition dflush : M D unit := dwrite (BufferedSink_flush send).
Definition set_canSend (b : bool) (d : D) : D := mkDaemon (d_from d) (d_to d) (d_store d) b (d_settings d) (d_verbosity d) (d_logType d).
Definition set_dstore (st : St) (d : D) : D := mkDaemon (d_from d) (d_to d) (Some st) (canSendStderr d) (d_settings d) (d_verbosity d) (d_logType d).
Definition set_options (s : Settings) (verbosity logType : Z) (d : D) : D :=
  mkDaemon (d_from d) (d_to d) (d_store d) (canSendStderr d) s verbosity logType.

(** ** Tunnels *)

(** When the protocol does not allow it, the message goes to the daemon's own standard
    error. *)
Definition tunnelStderr (msg : str) : M D unit :=
  c ← gets canSendStderr;
  if (c : bool) then
    _ ← dwrite (writeInt STDERR_NEXT);
    _ ← dwrite (writeString msg);
    dflush
  else mret tt.

Definition startWork : M D unit := modify (set_canSend true).

Definition stopWork_ok : M D unit :=
  _ ← modify (set_canSend false);
  dwrite (writeInt STDERR_LAST).
Definition stopWork_error (msg : str) (status : Z) : M D unit :=
  _ ← modify (set_canSend false);
  _ ← dwrite (writeInt STDERR_ERROR);
  _ ← dwrite (writeString msg);
  if negb (status =? 0)%Z then dwrite (writeInt status) else mret tt.

Definition TunnelSink_write (data : str) : M D unit :=
  _ ← dwrite (writeInt STDERR_WRITE);
  dwrite (writeString data).

Definition TunnelSource_readUnbuffered (len : nat) : M D str :=
  _ ← modify (set_canSend false);
  _ ← dwrite (writeInt STDERR_READ);
  _ ← dwrite (writeInt (Z.of_nat len));
  _ ← dflush;
  s ← dread (readString_max len);
  _ ← startWork;
  match s with [] => raise eEndOfFile ($"unexpected end-of-file") | _ => mret s end.

Definition TunnelSource_new : BufferedSource unit := mkBufferedSource default_bufSize 0 0 [] tt.

(** [BufferedSource::read], which fills an empty buffer first. *)
Definition TunnelSource_read (len : nat) (b : BufferedSource unit) : M D (str * BufferedSource unit) :=
  b ← (if (bsrc_bufPosIn b =? 0)%nat then
         s ← TunnelSource_readUnbuffered (bsrc_bufSize b);
         mret (mkBufferedSource (bsrc_bufSize b) (length s) (bsrc_bufPosOut b) s tt)
       else mret b);
  lift (fun _ => BufferedSource_read (fun _ _ => NoFuel) len b).

(** ** Operations *)

(** Running an operation of the store with the tunnels for standard error, sink and
    source. *)
Fixpoint perform {A} (sc : script St A) (b : BufferedSource unit) : M D A :=
  match sc with
  | SEnd (Done a st) => _ ← modify (set_dstore st); mret a
  | SEnd (Raised e st) => _ ← modify (set_dstore st); rethrow e
  | SEnd Stuck => stuck
  | SLog msg k => _ ← tunnelStderr msg; perform k b
  | SData d k => _ ← TunnelSink_write d; perform k b
  | SRead n k => fun s =>
      match TunnelSource_read n b s with
      | Done (d, b) s => perform (k (Ok d)) b s
      | Raised e s => if bool_decide (exn_kind e = eBlocked) then Raised e s else perform (k (Throw e)) b s
      | Stuck => Stuck
      end
  end.

(** An operation between [startWork] and [stopWork]. *)
Definition work {A} (act : storeOp St A) : M D A :=
  _ ← startWork;
  o ← gets d_store;
  match o with
  | None => raise eUndefined ($"no store")
  | Some st =>
      r ← perform (act st) TunnelSource_new;
      _ ← stopWork_ok;
      mret r
  end.

Definition b2z (b : bool) : Z := if b then 1 else 0.
Definition int_bool (n : Z) : bool := negb (n =? 0)%Z.
Definition readBool {S} `{Source S} (s : S) : result (bool * S) := '(n, s) ← readInt s; Ok (int_bool n, s).
Definition readFlag {S} `{Source S} (s : S) : result (bool * S) := '(n, s) ← readInt s; Ok ((n =? 1)%Z, s).

(** The conversion to an enumeration type. *)
Definition action_num (a : GCAction) : Z := match a with gcReturnLive => 0 | gcReturnDead => 1 | gcDeleteDead => 2 | gcDeleteSpecific => 3 end.
Definition action_of (n : Z) : option GCAction :=
  match n with 0%Z => Some gcReturnLive | 1%Z => Some gcReturnDead | 2%Z => Some gcDeleteDead | 3%Z => Some gcDeleteSpecific | _ => None end.

Definition write_subst (i : SubstitutablePathInfo) (sizes : bool) (to : Out) : result Out :=
  to ← writeString (sub_deriver i) to;
  to ← writeStringSet (sub_references i) to;
  to ← writeLongLong (sub_downloadSize i) to;
  if sizes then writeLongLong (sub_narSize i) to else Ok to.

(** The daemon runs in the root directory. *)
Definition daemon_absPath (p : str) : result str := absPath ($"/") p [].

Definition add_from_dump (regular : bool) (dump baseName : str) (recursive : bool) (ht : HashType) : storeOp St str := fun st =>
  if negb regular then SEnd (Raised (Exn eError ($"regular file expected")) st)
  else so_addToStoreFromDump dump baseName recursive ht st.

(** The dump that follows, up to its end, and whether it is one of a regular file when
    it has to be. *)
Definition read_dump (recursive : bool) (from : Sock) : result ((bool * str) * Sock) :=
  let fuel := length (sk_in from) in
  if recursive then
    '(_, s) ← parseDump fuel tt (mkSaving from []);
    Ok ((true, sa_s s), sa_orig s)
  else
    '(k, from) ← parseDump fuel (mkRetrieve true []) from;
    Ok ((rr_regular k, rr_s k), from).

Definition perform_addToStore : M D unit :=
  baseName ← dread readString;
  fixed ← dread readFlag;
  recursive ← dread readFlag;
  s ← dread readString;
  let s := if negb fixed then $"sha256" else s in
  let recursive := if negb fixed then true else recursive in
  let hashAlgo := parseHashType s in
  dump ← dread (read_dump recursive);
  path ← work (add_from_dump dump.1 dump.2 baseName recursive hashAlgo);
  dwrite (writeString path).

Definition collect (o : GCOptions) : storeOp St GCResults := fun st =>
  if ignoreLiveness o then SEnd (Raised (Exn eError ($"you are not allowed to ignore liveness")) st)
  else so_collectGarbage o st.

Definition perform_collectGarbage (clientVersion : Z) : M D unit :=
  a ← dread readInt;
  paths ← dread (readStorePathSet nixStore);
  ignore ← dread readBool;
  maxFreed ← dread readLongLong;
  _ ← dread readInt;
  _ ← (if (5 <=? GET_PROTOCOL_MINOR clientVersion)%Z then _ ← dread readInt; _ ← dread readInt; mret tt else mret tt);
  match action_of a with
  | None => raise eUndefined ($"not a value of the enumeration")
  | Some a =>
      results ← work (collect (mkGCOptions a ignore paths maxFreed));
      _ ← dwrite (writeStringSet (res_paths results));
      _ ← dwrite (writeLongLong (bytesFreed results));
      dwrite (writeLongLong 0)
  end.

(** The overrides of the client, under names of their own. *)
Fixpoint read_overrides (n : nat) (s : Settings) (from : Sock) : result (Settings * Sock) :=
  match n with
  | O => Ok (s, from)
  | S n =>
      '(name, from) ← readString from;
      '(value, from) ← readString from;
      read_overrides n (set ($"untrusted-" ++ name) value s) from
  end.

(** The settings change together at the end: an exception before that ends the
    process. *)
Definition perform_setOptions (clientVersion : Z) : M D unit :=
  let minor := GET_PROTOCOL_MINOR clientVersion in
  s ← gets d_settings;
  logType ← gets d_logType;
  let '(mkSettings a b c d e f g h _ _ _ bv _ bc ro sys _ bt subs bh pt rs fm wal sb us ug ch dc i26 kl cl cf pi cr ko kd ao ek m ov) := s in
  kf ← dread readBool;
  kg ← dread readBool;
  tf ← dread readBool;
  verbosity ← dread readInt;
  mj ← dread readInt;
  ms ← dread readInt;
  bh ← (if (2 <=? minor)%Z then dread readBool else mret bh);
  '(bv, logType, pt) ← (if (4 <=? minor)%Z then bv ← dread readInt; lt ← dread readInt; pt ← dread readBool; mret (bv, lt, pt) else mret (bv, logType, pt));
  bc ← (if (6 <=? minor)%Z then dread readInt else mret bc);
  us ← (if (10 <=? minor)%Z then dread readBool else mret us);
  let s := mkSettings a b c d e f g h kf kg tf bv mj bc ro sys ms bt subs bh pt rs fm wal sb us ug ch dc i26 kl cl cf pi cr ko kd ao ek m ov in
  s ← (if (12 <=? minor)%Z then n ← dread readInt; dread (read_overrides (Z.to_nat n) s) else mret s);
  _ ← modify (set_options s verbosity logType);
  _ ← startWork;
  stopWork_ok.

Definition write_roots (roots : gmap str str) (to : Out) : result Out :=
  to ← writeInt (Z.of_nat (size roots)) to;
  foldM (fun to i => to ← writeString i.1 to; writeString i.2 to) to (map_iter roots).

Definition write_substs (infos : SubstitutablePathInfos) (to : Out) : result Out :=
  to ← writeInt (Z.of_nat (size infos)) to;
  foldM (fun to i => to ← writeString i.1 to; write_subst i.2 true to) to (map_iter infos).

Definition write_pathInfo (info : ValidPathInfo) (to : Out) : result Out :=
  to ← writeString (deriver info) to;
  to ← writeString (printHash (vhash info)) to;
  to ← writeStringSet (references info) to;
  to ← writeInt (registrationTime info) to;
  writeLongLong (narSize info) to.

Definition read_path {A} (k : str -> M D A) : M D A := path ← dread (readStorePath nixStore); k path.
Definition read_paths {A} (k : gset str -> M D A) : M D A := paths ← dread (readStorePathSet nixStore); k paths.

Definition performOp (clientVersion : Z) (n : Z) : M D unit :=
  match wop_of n with
  | Some wopIsValidPath => read_path (fun path => r ← work (so_isValidPath path); dwrite (writeInt (b2z r)))
  | Some wopQueryValidPaths => read_paths (fun paths => r ← work (so_queryValidPaths paths); dwrite (writeStringSet r))
  | Some wopHasSubstitutes => read_path (fun path =>
      r ← work (so_querySubstitutablePaths {[path]}); dwrite (writeInt (b2z (bool_decide (path ∈ r)))))
  | Some wopQuerySubstitutablePaths => read_paths (fun paths => r ← work (so_querySubstitutablePaths paths); dwrite (writeStringSet r))
  | Some wopQueryPathHash => read_path (fun path => r ← work (so_queryPathHash path); dwrite (writeString (printHash r)))
  | Some wopQueryReferences => read_path (fun path => r ← work (so_queryReferences path); dwrite (writeStringSet r))
  | Some wopQueryReferrers => read_path (fun path => r ← work (so_queryReferrers path); dwrite (writeStringSet r))
  | Some wopQueryDerivationOutputs => read_path (fun path => r ← work (so_queryDerivationOutputs path); dwrite (writeStringSet r))
  | Some wopQueryDerivationOutputNames => read_path (fun path => r ← work (so_queryDerivationOutputNames path); dwrite (writeStringSet r))
  | Some wopQueryDeriver => read_path (fun path => r ← work (so_queryDeriver path); dwrite (writeString r))
  | Some wopQueryPathFromHashPart => hashPart ← dread readString; r ← work (so_queryPathFromHashPart hashPart); dwrite (writeString r)
  | Some wopAddToStore => perform_addToStore
  | Some wopAddTextToStore =>
      suffix ← dread readString; s ← dread readString;
      read_paths (fun refs => r ← work (so_addTextToStore suffix s refs); dwrite (writeString r))
  | Some wopExportPath => read_path (fun path => sign ← dread readFlag; _ ← work (so_exportPath path sign); dwrite (writeInt 1))
  | Some wopImportPaths => r ← work (so_importPaths true); dwrite (writeStrings r)
  | Some wopBuildPaths => read_paths (fun drvs => _ ← work (so_buildPaths drvs); dwrite (writeInt 1))
  | Some wopEnsurePath => read_path (fun path => _ ← work (so_ensurePath path); dwrite (writeInt 1))
  | Some wopAddTempRoot => read_path (fun path => _ ← work (so_addTempRoot path); dwrite (writeInt 1))
  | Some wopAddIndirectRoot => p ← dread readString; path ← lift (fun _ => daemon_absPath p); _ ← work (so_addIndirectRoot path); dwrite (writeInt 1)
  | Some wopSyncWithGC => _ ← work so_syncWithGC; dwrite (writeInt 1)
  | Some wopFindRoots => r ← work so_findRoots; dwrite (write_roots r)
  | Some wopCollectGarbage => perform_collectGarbage clientVersion
  | Some wopSetOptions => perform_setOptions clientVersion
  | Some wopQuerySubstitutablePathInfo =>
      p ← dread readString; path ← lift (fun _ => daemon_absPath p);
      infos ← work (so_querySubstitutablePathInfos {[path]});
      match (infos : SubstitutablePathInfos) !! path with
      | None => dwrite (writeInt 0)
      | Some i => _ ← dwrite (writeInt 1); dwrite (write_subst i (7 <=? GET_PROTOCOL_MINOR clientVersion)%Z)
      end
  | Some wopQuerySubstitutablePathInfos => read_paths (fun paths => infos ← work (so_querySubstitutablePathInfos paths); dwrite (write_substs infos))
  | Some wopQueryAllValidPaths => r ← work so_queryAllValidPaths; dwrite (writeStringSet r)
  | Some wopQueryFailedPaths => r ← work so_queryFailedPaths; dwrite (writeStringSet r)
  | Some wopClearFailedPaths => paths ← dread readStringSet; _ ← work (so_clearFailedPaths paths); dwrite (writeInt 1)
  | Some wopQueryPathInfo => read_path (fun path => info ← work (so_queryPathInfo path); dwrite (write_pathInfo info))
  | Some wopQuit | None => raise eError ($"invalid operation " ++ int2String n)
  end.

(** ** The connection *)

Definition is_EndOfFile (k : exn_class) : bool := bool_decide (k = eEndOfFile).

(** One request; [false]: the loop is left. *)
Definition process_op (clientVersion : Z) (body : M D unit) : M D bool :=
  try_catch is_Error (_ ← body; mret true) (fun e =>
    errorAllowed ← gets canSendStderr;
    _ ← stopWork_error (exn_msg e) (if (8 <=? GET_PROTOCOL_MINOR clientVersion)%Z then exn_status e else 0);
    mret errorAllowed).

Definition after_op (again : M D unit) (go : bool) : M D unit :=
  if negb go then mret tt
  else
    _ ← dflush;
    c ← gets canSendStderr;
    if (c : bool) then raise eAssertion ($"!canSendStderr") else again.

(** Every request has at least the eight bytes of its number. *)
Fixpoint process_loop (fuel : nat) (clientVersion : Z) : M D unit :=
  match fuel with
  | O => stuck
  | S fuel =>
      o ← try_catch is_EndOfFile (n ← dread readInt; mret (Some n)) (fun _ => mret None);
      match o with
      | None => mret tt
      | Some op =>
          go ← process_op clientVersion (performOp clientVersion op);
          after_op (process_loop fuel clientVersion) go
      end
  end.

(** Opening the store; an error is sent to the client. *)
Definition start_store (reserveSpace : bool) : M D bool :=
  try_catch is_Error
    (st ← lift (fun _ => openStore reserveSpace);
     _ ← modify (set_dstore st);
     _ ← stopWork_ok;
     _ ← dflush;
     mret true)
    (fun e => _ ← stopWork_error (exn_msg e) 0; _ ← dflush; mret false).

Definition processConnection (fuel : nat) : M D unit :=
  magic ← dread readInt;
  if negb (magic =? WORKER_MAGIC_1)%Z then raise eError ($"protocol mismatch")
  else
    _ ← dwrite (writeInt WORKER_MAGIC_2);
    _ ← dwrite (writeInt PROTOCOL_VERSION);
    _ ← dflush;
    clientVersion ← dread readInt;
    reserveSpace ← (if (11 <=? GET_PROTOCOL_MINOR clientVersion)%Z then dread readBool else mret true);
    _ ← startWork;
    ok ← start_store reserveSpace;
    if (ok : bool) then process_loop fuel clientVersion else mret tt.

(** The child process of [daemonLoop]: it catches every exception and exits, which
    flushes [to]. *)
Definition is_exception (k : exn_class) : bool := is_Error k || bool_decide (k = eOutOfRange) || bool_decide (k = eBadAlloc).
Definition serve (fuel : nat) : M D unit :=
  _ ← try_catch is_exception (processConnection fuel) (fun _ => mret tt);
  dflush.

(** What the daemon has sent when it has received [input] and the client waits, and
    whether it is still there. *)
Definition connect (s : Settings) (verbosity logType : Z) (input : str) : D :=
  mkDaemon (mkSock input true) (flushed []) None false s verbosity logType.
Definition reply_to (s : Settings) (verbosity logType : Z) (input : str) : str * bool :=
  match serve (S (length input)) (connect s verbosity logType input) with
  | Done _ d => (bs_under (d_to d), false)
  | Raised e d => (bs_under (d_to d), bool_decide (exn_kind e = eBlocked))
  | Stuck => ([], true)
  end.
End Daemon.
