(* ===== verification/Remote.v ===== *)
(** * The store behind a daemon (src/src/libstore/remote-store.cc)

    The client side of the worker protocol: every operation of the store sends a
    request, lets the daemon's messages through ([processStderr]) and reads the
    result.  The other side of the connection is a function: what the daemon has sent
    by the time it waits for more, given everything that was sent to it.  What has
    not been flushed has not been sent; reading what will never come is the exception
    [eBlocked]. *)

From Stdlib Require Import ZArith Lia Ascii.
From stdpp Require Import base strings sorting numbers gmap sets list.
From S2P Require Import Prelude Effects Util Serialise Hash FileSystem FileOps Archive StorePath GCRoots GC Globals Wire Daemon.

Record Client (K Q : Type) : Type := mkClient {
  c_to : Out; c_read : nat; initialised : bool; daemonVersion : Z; c_stderr : str; c_sink : K; c_source : Q }.
Arguments mkClient {_ _} _ _ _ _ _ _ _.
Arguments c_to {_ _} _.
Arguments c_read {_ _} _.
Arguments initialised {_ _} _.
Arguments daemonVersion {_ _} _.
Arguments c_stderr {_ _} _.
Arguments c_sink {_ _} _.
Arguments c_source {_ _} _.

Section Remote.
(** The sink and the source that the caller of [exportPath] or [importPaths] passes. *)
Context {K Q : Type} `{Sink K} `{Source Q}.
(** The other side, [NIX_REMOTE], [connectToDaemon] and the settings. *)
Context (nixStore : str) (peer : str -> str * bool) (remoteMode : str) (connectToDaemon : result unit).
Context (settings : Settings) (verbosity logType : Z).
(** A bound on the number of messages before a result. *)
Context (fuel : nat).
Abbreviation C := (Client K Q).

Definition cread {A} (f : Sock -> result (A * Sock)) : M C A := fun c =>
  let '(out, open) := peer (bs_under (c_to c)) in
  match f (mkSock (drop (c_read c) out) open) with
  | Ok (a, s) => Done a (mkClient (c_to c) (length out - length (sk_in s)) (initialised c) (daemonVersion c) (c_stderr c) (c_sink c) (c_source c))
  | Throw e => Raised e c
  | NoFuel => Stuck
  end.
Definition set_cto (o : Out) (c : C) : C := mkClient o (c_read c) (initialised c) (daemonVersion c) (c_stderr c) (c_sink c) (c_source c).
Definition cwrite (f : Out -> result Out) : M C unit := update (fun c => o ← f (c_to c); Ok (set_cto o c)).
Definition cflush : M C unit := cwrite (BufferedSink_flush send).
Definition set_version (i : bool) (v : Z) (c : C) : C := mkClient (c_to c) (c_read c) i v (c_stderr c) (c_sink c) (c_source c).
Definition add_stderr (s : str) (c : C) : C := mkClient (c_to c) (c_read c) (initialised c) (daemonVersion c) (c_stderr c ++ s) (c_sink c) (c_source c).
Definition to_sink (s : str) : M C unit := update (fun c =>
  k ← sink_write (c_sink c) s;
  Ok (mkClient (c_to c) (c_read c) (initialised c) (daemonVersion c) (c_stderr c) k (c_source c))).
Definition from_source (n : nat) : M C str := fun c =>
  match source_read n (c_source c) with
  | Ok (d, q) => Done d (mkClient (c_to c) (c_read c) (initialised c) (daemonVersion c) (c_stderr c) (c_sink c) q)
  | Throw e => Raised e c
  | NoFuel => Stuck
  end.

(** ** Messages *)

Definition stderr_msg (sink source : bool) (msg : Z) : M C unit :=
  if (msg =? STDERR_WRITE)%Z then
    s ← cread readString;
    if negb sink then raise eError ($"no sink") else to_sink s
  else if (msg =? STDERR_READ)%Z then
    if negb source then raise eError ($"no source")
    else
      len ← cread readInt;
      d ← from_source (Z.to_nat len);
      _ ← cwrite (writeString d);
      cflush
  else
    s ← cread readString;
    modify (add_stderr s).

Fixpoint processStderr_loop (n : nat) (sink source : bool) : M C unit :=
  match n with
  | O => stuck
  | S n =>
      msg ← cread readInt;
      if (msg =? STDERR_NEXT)%Z || (msg =? STDERR_READ)%Z || (msg =? STDERR_WRITE)%Z then
        _ ← stderr_msg sink source msg;
        processStderr_loop n sink source
      else if (msg =? STDERR_ERROR)%Z then
        error ← cread readString;
        v ← gets daemonVersion;
        _ ← (if (8 <=? GET_PROTOCOL_MINOR v)%Z then cread readInt else mret 1%Z);
        raise eError error
      else if negb (msg =? STDERR_LAST)%Z then raise eError ($"protocol error processing standard error")
      else mret tt
  end.
(** The exit status that an error carries is read; exceptions of the model have none. *)
Definition processStderr_with (sink source : bool) : M C unit := _ ← cflush; processStderr_loop fuel sink source.
Definition processStderr : M C unit := processStderr_with false false.

(** ** The connection *)

Definition write_overrides (m : SettingsMap) (to : Out) : result Out :=
  to ← writeInt (Z.of_nat (size m)) to;
  foldM (fun to i => to ← writeString i.1 to; writeString i.2 to) to (map_iter m).

Definition write_options (v : Z) (to : Out) : result Out :=
  let minor := GET_PROTOCOL_MINOR v in
  to ← writeInt (b2z (keepFailed settings)) to;
  to ← writeInt (b2z (keepGoing settings)) to;
  to ← writeInt (b2z (tryFallback settings)) to;
  to ← writeInt verbosity to;
  to ← writeInt (maxBuildJobs settings) to;
  to ← writeInt (maxSilentTime settings) to;
  to ← (if (2 <=? minor)%Z then writeInt (b2z (useBuildHook settings)) to else Ok to);
  to ← (if (4 <=? minor)%Z then
          to ← writeInt (buildVerbosity settings) to;
          to ← writeInt logType to;
          writeInt (b2z (printBuildTrace settings)) to
        else Ok to);
  to ← (if (6 <=? minor)%Z then writeInt (buildCores settings) to else Ok to);
  to ← (if (10 <=? minor)%Z then writeInt (b2z (useSubstitutes settings)) to else Ok to);
  if (12 <=? minor)%Z then write_overrides (getOverrides settings) to else Ok to.

Definition setOptions : M C unit :=
  _ ← cwrite (writeInt (wop_num wopSetOptions));
  v ← gets daemonVersion;
  _ ← cwrite (write_options v);
  processStderr.

Definition greet (reserveSpace : bool) : M C unit :=
  _ ← cwrite (writeInt WORKER_MAGIC_1);
  _ ← cflush;
  magic ← cread readInt;
  if negb (magic =? WORKER_MAGIC_2)%Z then raise eError ($"protocol mismatch")
  else
    v ← cread readInt;
    _ ← modify (set_version true v);
    if negb (GET_PROTOCOL_MAJOR v =? GET_PROTOCOL_MAJOR PROTOCOL_VERSION)%Z then raise eError ($"Nix daemon protocol version not supported")
    else
      _ ← cwrite (writeInt PROTOCOL_VERSION);
      _ ← (if (11 <=? GET_PROTOCOL_MINOR v)%Z then cwrite (writeInt (b2z reserveSpace)) else mret tt);
      processStderr.

Definition openConnection (reserveSpace : bool) : M C unit :=
  i ← gets initialised;
  if (i : bool) then mret tt
  else
    v ← gets daemonVersion;
    _ ← modify (set_version true v);
    if negb (str_eqb remoteMode ($"daemon")) then raise eError ($"invalid setting for NIX_REMOTE, `" ++ remoteMode ++ $"'")
    else
      _ ← lift (fun _ => connectToDaemon);
      _ ← try_catch is_Error (greet reserveSpace) (fun e => raise eError ($"cannot start worker (" ++ exn_msg e ++ $")"));
      setOptions.

(** ** Operations *)

(** A request: its number, then the arguments. *)
Definition request (op : WorkerOp) (args : Out -> result Out) : M C unit :=
  _ ← openConnection true;
  _ ← cwrite (writeInt (wop_num op));
  cwrite args.
Definition no_args (to : Out) : result Out := Ok to.

(** A path that may be empty. *)
Definition readOptPath (from : Sock) : result (str * Sock) :=
  '(p, from) ← readString from;
  match p with [] => Ok ([], from) | _ => _ ← assertStorePath nixStore p; Ok (p, from) end.

Definition remote_isValidPath (path : str) : M C bool :=
  _ ← request wopIsValidPath (writeString path);
  _ ← processStderr;
  reply ← cread readInt;
  mret (int_bool reply).

(** Collecting the elements for which the daemon answers yes. *)
Fixpoint filter_paths (f : str -> M C bool) (paths : list str) (res : gset str) : M C (gset str) :=
  match paths with
  | [] => mret res
  | p :: paths => b ← f p; filter_paths f paths (if (b : bool) then {[p]} ∪ res else res)
  end.

Definition remote_queryValidPaths (paths : gset str) : M C (gset str) :=
  _ ← openConnection true;
  v ← gets daemonVersion;
  if (GET_PROTOCOL_MINOR v <? 12)%Z then filter_paths remote_isValidPath (set_iter paths) ∅
  else
    _ ← request wopQueryValidPaths (writeStringSet paths);
    _ ← processStderr;
    cread (readStorePathSet nixStore).

Definition remote_queryAllValidPaths : M C (gset str) :=
  _ ← request wopQueryAllValidPaths no_args;
  _ ← processStderr;
  cread (readStorePathSet nixStore).

Definition hasSubstitutes (path : str) : M C bool :=
  _ ← request wopHasSubstitutes (writeString path);
  _ ← processStderr;
  n ← cread readInt;
  mret (int_bool n).

Definition remote_querySubstitutablePaths (paths : gset str) : M C (gset str) :=
  _ ← openConnection true;
  v ← gets daemonVersion;
  if (GET_PROTOCOL_MINOR v <? 12)%Z then filter_paths hasSubstitutes (set_iter paths) ∅
  else
    _ ← request wopQuerySubstitutablePaths (writeStringSet paths);
    _ ← processStderr;
    cread (readStorePathSet nixStore).

Definition read_subst (sizes : bool) (from : Sock) : result (SubstitutablePathInfo * Sock) :=
  '(d, from) ← readOptPath from;
  '(refs, from) ← readStorePathSet nixStore from;
  '(dl, from) ← readLongLong from;
  '(nar, from) ← (if sizes then readLongLong from else Ok (0%Z, from));
  Ok (mkSubstInfo d refs dl nar, from).

Fixpoint read_substs (count : nat) (infos : SubstitutablePathInfos) (from : Sock) : result (SubstitutablePathInfos * Sock) :=
  match count with
  | O => Ok (infos, from)
  | S count =>
      '(path, from) ← readStorePath nixStore from;
      '(info, from) ← read_subst true from;
      read_substs count (<[path := info]> infos) from
  end.

Fixpoint query_substs (v : Z) (paths : list str) (infos : SubstitutablePathInfos) : M C SubstitutablePathInfos :=
  match paths with
  | [] => mret infos
  | p :: paths =>
      _ ← request wopQuerySubstitutablePathInfo (writeString p);
      _ ← processStderr;
      reply ← cread readInt;
      if (reply =? 0)%Z then query_substs v paths infos
      else info ← cread (read_subst (7 <=? GET_PROTOCOL_MINOR v)%Z); query_substs v paths (<[p := info]> infos)
  end.

Definition remote_querySubstitutablePathInfos (paths : gset str) (infos : SubstitutablePathInfos) : M C SubstitutablePathInfos :=
  if bool_decide (paths = ∅) then mret infos
  else
    _ ← openConnection true;
    v ← gets daemonVersion;
    if (GET_PROTOCOL_MINOR v <? 3)%Z then mret infos
    else if (GET_PROTOCOL_MINOR v <? 12)%Z then query_substs v (set_iter paths) infos
    else
      _ ← request wopQuerySubstitutablePathInfos (writeStringSet paths);
      _ ← processStderr;
      count ← cread readInt;
      cread (read_substs (Z.to_nat count) infos).

Definition readHash (from : Sock) : result (Hash * Sock) :=
  '(s, from) ← readString from; h ← parseHash htSHA256 s; Ok (h, from).

(** [id] is not initialised. *)
Definition remote_queryPathInfo (indeterminate : Z) (path : str) : M C ValidPathInfo :=
  _ ← request wopQueryPathInfo (writeString path);
  _ ← processStderr;
  deriver ← cread readOptPath;
  hash ← cread readHash;
  references ← cread (readStorePathSet nixStore);
  registrationTime ← cread readInt;
  narSize ← cread readLongLong;
  mret (mkValidPathInfo path deriver hash references registrationTime narSize indeterminate).

Definition remote_queryPathHash (path : str) : M C Hash :=
  _ ← request wopQueryPathHash (writeString path); _ ← processStderr; cread readHash.

(** The result is added to the set that the caller passes. *)
Definition remote_queryReferences (path : str) (references : gset str) : M C (gset str) :=
  _ ← request wopQueryReferences (writeString path); _ ← processStderr;
  references2 ← cread (readStorePathSet nixStore); mret (references ∪ references2).
Definition remote_queryReferrers (path : str) (referrers : gset str) : M C (gset str) :=
  _ ← request wopQueryReferrers (writeString path); _ ← processStderr;
  referrers2 ← cread (readStorePathSet nixStore); mret (referrers ∪ referrers2).
Definition remote_queryDeriver (path : str) : M C str :=
  _ ← request wopQueryDeriver (writeString path); _ ← processStderr; cread readOptPath.
Definition remote_queryDerivationOutputs (path : str) : M C (gset str) :=
  _ ← request wopQueryDerivationOutputs (writeString path); _ ← processStderr; cread (readStorePathSet nixStore).
Definition remote_queryDerivationOutputNames (path : str) : M C (gset str) :=
  _ ← request wopQueryDerivationOutputNames (writeString path); _ ← processStderr; cread readStringSet.
Definition remote_queryPathFromHashPart (hashPart : str) : M C str :=
  _ ← request wopQueryPathFromHashPart (writeString hashPart); _ ← processStderr; cread readOptPath.

Definition no_repair (repair : bool) : M C unit :=
  if repair then raise eError ($"repairing is not supported when building through the Nix daemon") else mret tt.

(** The file system of the client; an error while dumping leaves what has been
    written so far. *)
Definition remote_addToStore (fs : FileSys) (sched : str -> list io_choice) (dfuel : nat) (cwd : str)
    (srcPath : str) (recursive : bool) (hashAlgo : HashType) (filter : str -> bool) (repair : bool) : M C str :=
  _ ← no_repair repair;
  _ ← openConnection true;
  srcPath ← lift (fun _ => absPath cwd srcPath []);
  _ ← cwrite (writeInt (wop_num wopAddToStore));
  base ← lift (fun _ => baseNameOf srcPath);
  _ ← cwrite (writeString base);
  _ ← cwrite (writeInt (if bool_decide (hashAlgo = htSHA256) && recursive then 0 else 1));
  _ ← cwrite (writeInt (if recursive then 1 else 0));
  algo ← lift (fun _ => printHashType hashAlgo);
  _ ← cwrite (writeString algo);
  _ ← cwrite (dumpPath fs sched filter dfuel srcPath);
  _ ← processStderr;
  cread (readStorePath nixStore).

Definition remote_addTextToStore (name s : str) (references : gset str) (repair : bool) : M C str :=
  _ ← no_repair repair;
  _ ← request wopAddTextToStore (fun to => to ← writeString name to; to ← writeString s to; writeStringSet references to);
  _ ← processStderr;
  cread (readStorePath nixStore).

Definition remote_exportPath (path : str) (sign : bool) : M C unit :=
  _ ← request wopExportPath (fun to => to ← writeString path to; writeInt (if sign then 1 else 0) to);
  _ ← processStderr_with true false;
  _ ← cread readInt;
  mret tt.

Definition remote_importPaths (requireSignature : bool) : M C (list str) :=
  _ ← request wopImportPaths no_args;
  _ ← processStderr_with false true;
  cread (readStorePathList nixStore).

(** The operations that only report that they are done. *)
Definition command (op : WorkerOp) (args : Out -> result Out) : M C unit :=
  _ ← request op args; _ ← processStderr; _ ← cread readInt; mret tt.
Definition remote_buildPaths (drvPaths : gset str) (repair : bool) : M C unit :=
  _ ← no_repair repair; command wopBuildPaths (writeStringSet drvPaths).
Definition remote_ensurePath (path : str) : M C unit := command wopEnsurePath (writeString path).
Definition remote_addTempRoot (path : str) : M C unit := command wopAddTempRoot (writeString path).
Definition remote_addIndirectRoot (path : str) : M C unit := command wopAddIndirectRoot (writeString path).
Definition remote_syncWithGC : M C unit := command wopSyncWithGC no_args.
Definition remote_clearFailedPaths (paths : gset str) : M C unit := command wopClearFailedPaths (writeStringSet paths).

Fixpoint read_roots (count : nat) (result : gmap str str) (from : Sock) : Prelude.result (gmap str str * Sock) :=
  match count with
  | O => Ok (result, from)
  | S count =>
      '(link, from) ← readString from;
      '(target, from) ← readStorePath nixStore from;
      read_roots count (<[link := target]> result) from
  end.
Definition remote_findRoots : M C (gmap str str) :=
  _ ← request wopFindRoots no_args;
  _ ← processStderr;
  count ← cread readInt;
  cread (read_roots (Z.to_nat count) ∅).

Definition write_gc (o : GCOptions) (v : Z) (to : Out) : result Out :=
  to ← writeInt (action_num (action o)) to;
  to ← writeStringSet (pathsToDelete o) to;
  to ← writeInt (b2z (ignoreLiveness o)) to;
  to ← writeLongLong (maxFreed o) to;
  to ← writeInt 0 to;
  if (5 <=? GET_PROTOCOL_MINOR v)%Z then to ← writeInt 0 to; writeInt 0 to else Ok to.

Definition remote_collectGarbage (o : GCOptions) : M C GCResults :=
  _ ← openConnection false;
  _ ← cwrite (writeInt (wop_num wopCollectGarbage));
  v ← gets daemonVersion;
  _ ← cwrite (write_gc o v);
  _ ← processStderr;
  paths ← cread readStringSet;
  bytesFreed ← cread readLongLong;
  _ ← cread readLongLong;
  mret (mkGCResults paths bytesFreed).

Definition remote_queryFailedPaths : M C (gset str) :=
  _ ← request wopQueryFailedPaths no_args; _ ← processStderr; cread (readStorePathSet nixStore).
End Remote.
