(* ===== verification/RemoteConn.v ===== *)
(** * A request over a connection

    The daemon and the client take turns: [resumes h k] says that the daemon, after it
    has received the bytes [h], goes on as [k] says with whatever is received next.
    [run_script] is the heart of the protocol: while the daemon performs an operation
    and the client lets its messages through, both go through the operation in step,
    and the client sees what it would have seen had the operation been performed in
    its own process. *)

From Stdlib Require Import ZArith Lia Ascii.
From stdpp Require Import base strings sorting numbers gmap sets list.
From S2P Require Import Prelude Effects Util Serialise Hash FileSystem FileOps Archive StorePath GCRoots GC Globals Wire Daemon Remote.

(** ** Performing an operation in the process of the caller *)

(** What the operation writes to standard error is added to [e], what it writes to
    the sink goes to [k], and it reads from the source through a buffer. *)
Inductive runs {St A K Q : Type} `{Sink K} `{Source Q} (sink source : bool) :
    script St A -> BufferedSource Q -> str -> K -> outcome St A -> BufferedSource Q -> str -> K -> Prop :=
| runs_end r b e k : runs sink source (SEnd r) b e k r b e k
| runs_log msg sc b e k r b' e' k' : chunk_ok msg ->
    runs sink source sc b (e ++ msg) k r b' e' k' -> runs sink source (SLog msg sc) b e k r b' e' k'
| runs_data d sc b e k k1 r b' e' k' : sink = true -> chunk_ok d -> sink_write k d = Ok k1 ->
    runs sink source sc b e k1 r b' e' k' -> runs sink source (SData d sc) b e k r b' e' k'
| runs_buffered n sc d b b1 e k r b' e' k' : bsrc_bufPosIn b <> 0%nat ->
    BufferedSource_read source_read n b = Ok (d, b1) ->
    runs sink source (sc (Ok d)) b1 e k r b' e' k' -> runs sink source (SRead n sc) b e k r b' e' k'
| runs_read n sc x q d b b1 e k r b' e' k' : source = true -> bsrc_bufPosIn b = 0%nat -> bsrc_bufPosOut b = 0%nat ->
    bsrc_bufSize b = default_bufSize ->
    source_read default_bufSize (bsrc_under b) = Ok (x, q) -> x <> [] -> (length x <= default_bufSize)%nat ->
    BufferedSource_read source_read n b = Ok (d, b1) ->
    runs sink source (sc (Ok d)) b1 e k r b' e' k' -> runs sink source (SRead n sc) b e k r b' e' k'.

(** The daemon's side of a buffer: the same without what is below it. *)
Definition forget {Q} (b : BufferedSource Q) : BufferedSource unit :=
  mkBufferedSource (bsrc_bufSize b) (bsrc_bufPosIn b) (bsrc_bufPosOut b) (bsrc_buffer b) tt.

Lemma read_forget {Q} (rd : nat -> Q -> result (str * Q)) n (b : BufferedSource Q) d b1 :
  bsrc_bufPosIn b <> 0%nat -> BufferedSource_read rd n b = Ok (d, b1) ->
  BufferedSource_read (fun _ _ => NoFuel) n (forget b) = Ok (d, forget b1) /\ bsrc_under b1 = bsrc_under b.
Proof.
  intros Hb. unfold BufferedSource_read. cbn [bsrc_bufPosIn forget]. destruct (Nat.eqb_spec (bsrc_bufPosIn b) 0) as [|_]; [done|].
  cbn [mbind result_bind bsrc_bufPosIn bsrc_bufPosOut bsrc_buffer bsrc_bufSize bsrc_under forget].
  destruct (_ =? _)%nat; intros [= <- <-]; split; done.
Qed.

Lemma read_filled {Q} (rd : nat -> Q -> result (str * Q)) n (b : BufferedSource Q) x q :
  bsrc_bufPosIn b = 0%nat -> rd (bsrc_bufSize b) (bsrc_under b) = Ok (x, q) -> x <> [] ->
  BufferedSource_read rd n b = BufferedSource_read rd n (mkBufferedSource (bsrc_bufSize b) (length x) (bsrc_bufPosOut b) x q).
Proof.
  intros Hb E Hx. unfold BufferedSource_read at 1. rewrite Hb. cbn [Nat.eqb]. rewrite E. cbn [mbind result_bind].
  unfold BufferedSource_read. cbn [bsrc_bufPosIn]. destruct (Nat.eqb_spec (length x) 0) as [Hl|]; [|done]. by destruct x.
Qed.

(** ** Messages *)

Definition msg_next (m : str) : str := enc_int STDERR_NEXT ++ enc_string m.
Definition msg_write (d : str) : str := enc_int STDERR_WRITE ++ enc_string d.
Definition msg_read (n : nat) : str := enc_int STDERR_READ ++ enc_int (Z.of_nat n).
Definition msg_last : str := enc_int STDERR_LAST.
Definition msg_error (m : str) (status : Z) : str := enc_int STDERR_ERROR ++ enc_string m ++ enc_int status.

(** A constant of the protocol. *)
Lemma const_writes (n : Z) : (0 <=? n)%Z && (n <? 2 ^ 32)%Z = true -> writes (fun o : Out => writeInt n o) (enc_int n).
Proof. intros Hn. reflect. apply writeInt_writes. lia. Qed.
Lemma const_reads (n : Z) : (0 <=? n)%Z && (n <? 2 ^ 32)%Z = true -> reads (fun o : Sock => readInt o) (enc_int n) n.
Proof. intros Hn. reflect. apply readInt_reads. lia. Qed.

(** ** The daemon *)

Section DaemonSteps.
Context {St : Type} `{StoreOps St}.
Abbreviation D := (Daemon St).

(** A daemon with the input [x], the store [st] and the settings [s]. *)
Definition dm (x : str) (o : Out) (st : St) (can : bool) (s : Settings * Z * Z) : D :=
  mkDaemon (mkSock x true) o (Some st) can s.1.1 s.1.2 s.2.

Lemma dread_run {A} (f : Sock -> result (A * Sock)) e a x o st can s :
  reads f e a -> dread f (dm (e ++ x) o st can s) = Done a (dm x o st can s).
Proof.
  intros Hf. destruct (Hf (mkSock (e ++ x) true) x eq_refl eq_refl) as ([i b] & E & Hb & Hi). cbn in Hb, Hi. subst. unfold dread. cbn [d_from dm]. by rewrite E.
Qed.

Lemma dwrite_run (f : Out -> result Out) w x o l st can s :
  writes f w -> sink_rep o l -> exists o', dwrite f (dm x o st can s) = Done tt (dm x o' st can s) /\ sink_rep o' (l ++ w).
Proof. intros Hf Hl. destruct (Hf o l Hl) as (o' & E & R). exists o'. split; [|done]. unfold dwrite, update. cbn [d_to dm]. by rewrite E. Qed.

Lemma dflush_run x o l st can s : sink_rep o l -> dflush (dm x o st can s) = Done tt (dm x (flushed l) st can s).
Proof. intros Hl. unfold dflush, dwrite, update. cbn [d_to dm]. by rewrite (flush_sent o l Hl). Qed.

(** A message of two fields. *)
Lemma dwrite2_run (f g : Out -> result Out) w1 w2 x o l st can s :
  writes f w1 -> writes g w2 -> sink_rep o l ->
  exists o', (dwrite f ≫= fun _ => dwrite g) (dm x o st can s) = Done tt (dm x o' st can s) /\ sink_rep o' (l ++ w1 ++ w2).
Proof.
  intros Hf Hg Hl. destruct (dwrite_run f w1 x o l st can s Hf Hl) as (o1 & E1 & R1).
  destruct (dwrite_run g w2 x o1 _ st can s Hg R1) as (o2 & E2 & R2). exists o2. rewrite (run_bind _ _ _ _ _ E1). split; [done|]. by rewrite app_assoc.
Qed.

Lemma tunnelStderr_run m x o l st s : chunk_ok m -> sink_rep o l ->
  tunnelStderr m (dm x o st true s) = Done tt (dm x (flushed (l ++ msg_next m)) st true s).
Proof.
  intros Hm Hl. unfold tunnelStderr. rewrite (run_bind _ _ _ true (dm x o st true s)) by done.
  destruct (dwrite_run (writeInt STDERR_NEXT) _ x o l st true s (const_writes STDERR_NEXT eq_refl) Hl) as (o1 & E1 & R1).
  rewrite (run_bind _ _ _ _ _ E1). destruct (dwrite_run (writeString m) _ x o1 _ st true s (writeString_writes m Hm) R1) as (o2 & E2 & R2).
  rewrite (run_bind _ _ _ _ _ E2). rewrite <- app_assoc in R2. by apply dflush_run.
Qed.

Lemma TunnelSink_run d o l : chunk_ok d -> sink_rep o l ->
  exists o', sink_rep o' (l ++ msg_write d) /\ forall x st s, TunnelSink_write d (dm x o st true s) = Done tt (dm x o' st true s).
Proof.
  intros Hd Hl. destruct (const_writes STDERR_WRITE eq_refl o l Hl) as (o1 & E1 & R1). destruct (writeString_writes d Hd o1 _ R1) as (o2 & E2 & R2).
  exists o2. split; [by rewrite <- app_assoc in R2|]. intros x st s. unfold TunnelSink_write, mbind, M_bind, dwrite, update. cbn [d_to dm]. rewrite E1.
  cbn [mbind result_bind d_to dm set_to]. by rewrite E2.
Qed.

Lemma stopWork_ok_run x o l st s : sink_rep o l ->
  exists o', stopWork_ok (dm x o st true s) = Done tt (dm x o' st false s) /\ sink_rep o' (l ++ msg_last).
Proof.
  intros Hl. unfold stopWork_ok. rewrite (run_bind _ _ _ tt (dm x o st false s)) by done.
  apply dwrite_run; [|done]. by apply const_writes.
Qed.

Lemma stopWork_error_run m status x o l st s : chunk_ok m -> (0 < status < 2 ^ 32)%Z -> sink_rep o l ->
  exists o', stopWork_error m status (dm x o st true s) = Done tt (dm x o' st false s) /\ sink_rep o' (l ++ msg_error m status).
Proof.
  intros Hm Hs Hl. unfold stopWork_error. rewrite (run_bind _ _ _ tt (dm x o st false s)) by done.
  destruct (dwrite_run (writeInt STDERR_ERROR) _ x o l st false s (const_writes STDERR_ERROR eq_refl) Hl) as (o1 & E1 & R1).
  rewrite (run_bind _ _ _ _ _ E1). destruct (Z.eqb_spec status 0) as [|_]; [lia|]. cbn [negb].
  destruct (dwrite2_run (writeString m) (writeInt status) _ _ x o1 _ st false s (writeString_writes m Hm) (writeInt_writes status ltac:(lia)) R1) as (o2 & E2 & R2).
  exists o2. split; [done|]. by rewrite <- app_assoc in R2.
Qed.

(** Asking for input: what the daemon has sent when it waits, and how it goes on when
    the answer comes. *)
Lemma tunnel_ask n x o l st s : (0 < n)%nat -> (Z.of_nat n < 2 ^ 32)%Z -> sink_rep o l ->
  TunnelSource_readUnbuffered n (dm x o st true s) =
    (dread (readString_max n) ≫= fun x => startWork ≫= fun _ => match x with [] => raise eEndOfFile ($"unexpected end-of-file") | _ => mret x end)
      (dm x (flushed (l ++ msg_read n)) st false s).
Proof.
  intros H0 Hn Hl. unfold TunnelSource_readUnbuffered. rewrite (run_bind _ _ _ tt (dm x o st false s)) by done.
  destruct (dwrite_run (writeInt STDERR_READ) _ x o l st false s (const_writes STDERR_READ eq_refl) Hl) as (o1 & E1 & R1).
  rewrite (run_bind _ _ _ _ _ E1). destruct (dwrite_run (writeInt (Z.of_nat n)) _ x o1 _ st false s (writeInt_writes (Z.of_nat n) ltac:(lia)) R1) as (o2 & E2 & R2).
  rewrite (run_bind _ _ _ _ _ E2). rewrite <- app_assoc in R2. by rewrite (run_bind _ _ _ _ _ (dflush_run x o2 _ st false s R2)).
Qed.

Lemma readString_max_reads y n : chunk_ok y -> (length y <= n)%nat -> reads (fun s : Sock => readString_max n s) (enc_string y) y.
Proof.
  intros Hy Hn s rest Hs Hr. destruct (readString_reads y Hy s rest Hs Hr) as (s' & E & R). exists s'. split; [|done]. rewrite <- E.
  unfold readString_max, readString. unfold enc_string in Hr. rewrite <- app_assoc in Hr.
  destruct (readInt_reads (Z.of_nat (length y)) ltac:(unfold chunk_ok in Hy; lia) s _ Hs Hr) as (s1 & E1 & _). rewrite E1. cbn [mbind result_bind].
  destruct (Z.ltb_spec (Z.of_nat n) (Z.of_nat (length y))); [lia|done].
Qed.
End DaemonSteps.

(** ** The two sides *)

Section Conn.
Context {St : Type} `{StoreOps St} {K Q : Type} `{Sink K} `{Source Q}.
Context (nixStore : str) (exn_status : exn -> Z) (openStore : bool -> result St) (s0 : Settings * Z * Z).
Context (exn_status_ok : forall e, (0 < exn_status e < 2 ^ 32)%Z).
Abbreviation D := (Daemon St).
Abbreviation C := (Client K Q).
Abbreviation peer := (reply_to nixStore exn_status openStore s0.1.1 s0.1.2 s0.2).
Abbreviation loop := (process_loop nixStore exn_status).
Abbreviation waiting := (Exn eBlocked ($"waiting for data")).

(** The daemon has received [h] and goes on as [k] with what comes next; [k] has enough
    fuel for it. *)
Definition resumes (h : str) (k : nat -> str -> outcome D unit) : Prop := forall x, exists f, (length x < f)%nat /\
  processConnection nixStore exn_status openStore (S (length (h ++ x))) (connect s0.1.1 s0.1.2 s0.2 (h ++ x)) = k f x.

(** The daemon has received [h], has sent [l] and waits for the next request. *)
Definition serving (h l : str) (st : St) (s : Settings * Z * Z) : Prop :=
  resumes h (fun f x => loop f PROTOCOL_VERSION (dm x (flushed l) st false s)).

(** The daemon in the middle of an operation. *)
Definition op_then {A} (f : nat) (m : M D A) (wr : A -> M D unit) : M D unit :=
  process_op exn_status PROTOCOL_VERSION (r ← (r ← m; _ ← stopWork_ok; mret r); wr r) ≫= after_op (loop f PROTOCOL_VERSION).

Lemma resumes_step h k k' : (forall f x, (length x < f)%nat -> exists f', (length x < f')%nat /\ k f x = k' f' x) -> resumes h k -> resumes h k'.
Proof. intros Hk Hr x. destruct (Hr x) as (f & Hf & E). destruct (Hk f x Hf) as (f' & Hf' & E'). exists f'. split; [done|]. by rewrite E, E'. Qed.
Lemma resumes_ext h k k' : (forall f x, k f x = k' f x) -> resumes h k -> resumes h k'.
Proof. intros Hk. apply resumes_step. intros f x Hf. exists f. auto. Qed.

(** Receiving more. *)
Lemma resumes_app h y k : resumes h k -> resumes (h ++ y) (fun f x => k (f + length y)%nat (y ++ x)).
Proof.
  intros Hr x. destruct (Hr (y ++ x)) as (f & Hf & E). rewrite length_app in Hf. exists (f - length y)%nat. split; [lia|].
  rewrite <- app_assoc. replace (f - length y + length y)%nat with f by lia. done.
Qed.

(** What the client finds when the daemon waits. *)
Lemma resumes_waiting h k l : (forall f, (0 < f)%nat -> exists d, k f [] = Raised waiting d /\ d_to d = flushed l) -> resumes h k -> peer h = (l, true).
Proof.
  intros Hk Hr. destruct (Hr []) as (f & Hf & E). rewrite app_nil_r in E. destruct (Hk f Hf) as (d & Ek & Hd). rewrite Ek in E.
  unfold reply_to, serve. unfold mbind at 1, M_bind at 1, try_catch. rewrite E. cbn beta iota. change (is_exception (exn_kind waiting)) with false.
  cbn beta iota. by rewrite Hd.
Qed.

Lemma serving_waiting h l st s : serving h l st s -> peer h = (l, true).
Proof. apply (resumes_waiting _ _ l). intros [|f] Hf; [lia|]. by eexists. Qed.

(** ** The client *)

(** A client that has sent [h], has read [n] bytes, and has nothing left to flush. *)
Definition cl (h : str) (n : nat) (e : str) (k : K) (q : Q) : C := mkClient (flushed h) n true PROTOCOL_VERSION e k q.

Lemma cread_run {A} (f : Sock -> result (A * Sock)) d a h l rest e k q :
  reads f d a -> peer h = (l ++ d ++ rest, true) -> cread peer f (cl h (length l) e k q) = Done a (cl h (length (l ++ d)) e k q).
Proof.
  intros Hf Hp. unfold cread, cl. cbn [c_to c_read flushed bs_under]. rewrite Hp.
  destruct (Hf (mkSock (drop (length l) (l ++ d ++ rest)) true) rest eq_refl) as ([i b] & E & _ & Hi).
  { cbn. by rewrite drop_app_length. }
  rewrite E. cbn in Hi. subst i. cbn [sk_in]. do 2 f_equal. rewrite !length_app. lia.
Qed.

Lemma cwrite_run (f : Out -> result Out) w h n e k q o l :
  writes f w -> sink_rep o l -> exists o', cwrite f (set_cto o (cl h n e k q)) = Done tt (set_cto o' (cl h n e k q)) /\ sink_rep o' (l ++ w).
Proof. intros Hf Hl. destruct (Hf o l Hl) as (o' & E & R). exists o'. split; [|done]. unfold cwrite, update. cbn [c_to set_cto]. by rewrite E. Qed.

Lemma cflush_run h n e k q o l : sink_rep o l -> cflush (set_cto o (cl h n e k q)) = Done tt (cl l n e k q).
Proof. intros Hl. unfold cflush, cwrite, update. cbn [c_to set_cto]. by rewrite (flush_sent o l Hl). Qed.

(** One message. *)
Abbreviation stderr_loop := (processStderr_loop peer).

Lemma stderr_next n sink source m h l rest e k q : chunk_ok m -> peer h = (l ++ msg_next m ++ rest, true) ->
  stderr_loop (S n) sink source (cl h (length l) e k q) = stderr_loop n sink source (cl h (length (l ++ msg_next m)) (e ++ m) k q).
Proof.
  intros Hm Hp. unfold msg_next in Hp. rewrite <- app_assoc in Hp. cbn [processStderr_loop].
  rewrite (run_bind _ _ _ _ _ (cread_run readInt _ _ h l _ e k q (const_reads STDERR_NEXT eq_refl) Hp)). cbn [Z.eqb orb STDERR_NEXT Pos.eqb].
  rewrite app_assoc in Hp.
  unfold stderr_msg. cbn [Z.eqb orb STDERR_NEXT STDERR_WRITE STDERR_READ Pos.eqb].
  pose proof (cread_run readString _ _ h (l ++ enc_int STDERR_NEXT) rest e k q (readString_reads m Hm) Hp) as E.
  unfold mbind at 1, M_bind at 1. unfold mbind at 1, M_bind at 1. rewrite E. rewrite <- app_assoc. reflexivity.
Qed.

Lemma stderr_write n source d h l rest e k k1 q : chunk_ok d -> sink_write k d = Ok k1 -> peer h = (l ++ msg_write d ++ rest, true) ->
  stderr_loop (S n) true source (cl h (length l) e k q) = stderr_loop n true source (cl h (length (l ++ msg_write d)) e k1 q).
Proof.
  intros Hd Hk Hp. unfold msg_write in Hp. rewrite <- app_assoc in Hp. cbn [processStderr_loop].
  rewrite (run_bind _ _ _ _ _ (cread_run readInt _ _ h l _ e k q (const_reads STDERR_WRITE eq_refl) Hp)). cbn [Z.eqb orb STDERR_NEXT STDERR_WRITE STDERR_READ Pos.eqb].
  rewrite app_assoc in Hp. unfold stderr_msg. cbn [Z.eqb orb STDERR_NEXT STDERR_WRITE STDERR_READ Pos.eqb negb].
  pose proof (cread_run readString _ _ h (l ++ enc_int STDERR_WRITE) rest e k q (readString_reads d Hd) Hp) as E.
  unfold mbind at 1, M_bind at 1. unfold mbind at 1, M_bind at 1. rewrite E. unfold to_sink, update. cbn [c_sink cl]. rewrite Hk, <- app_assoc. reflexivity.
Qed.

(** The answer is sent before the next message is read. *)
Lemma stderr_read n sink m x q1 h l rest e k q : (Z.of_nat m < 2 ^ 32)%Z -> source_read m q = Ok (x, q1) -> chunk_ok x -> peer h = (l ++ msg_read m ++ rest, true) ->
  stderr_loop (S n) sink true (cl h (length l) e k q) = stderr_loop n sink true (cl (h ++ enc_string x) (length (l ++ msg_read m)) e k q1).
Proof.
  intros Hm Hq Hx Hp. unfold msg_read in Hp. rewrite <- app_assoc in Hp. cbn [processStderr_loop].
  rewrite (run_bind _ _ _ _ _ (cread_run readInt _ _ h l _ e k q (const_reads STDERR_READ eq_refl) Hp)). cbn [Z.eqb orb STDERR_NEXT STDERR_WRITE STDERR_READ Pos.eqb].
  rewrite app_assoc in Hp. unfold stderr_msg. cbn [Z.eqb orb STDERR_NEXT STDERR_WRITE STDERR_READ Pos.eqb negb].
  pose proof (cread_run readInt _ _ h (l ++ enc_int STDERR_READ) rest e k q (readInt_reads (Z.of_nat m) ltac:(lia)) Hp) as E.
  destruct (cwrite_run (writeString x) _ h (length ((l ++ enc_int STDERR_READ) ++ enc_int (Z.of_nat m))) e k q1 (flushed h) h (writeString_writes x Hx) (sink_rep_flushed h))
    as (o' & E2 & R2). pose proof (cflush_run h (length ((l ++ enc_int STDERR_READ) ++ enc_int (Z.of_nat m))) e k q1 o' _ R2) as E3.
  unfold mbind at 1, M_bind at 1. unfold mbind at 1, M_bind at 1. rewrite E. unfold mbind at 1, M_bind at 1. unfold from_source at 1. cbn [c_source cl].
  rewrite Nat2Z.id, Hq. unfold mbind at 1, M_bind at 1. change (mkClient _ _ _ _ _ _ q1) with (set_cto (flushed h) (cl h (length ((l ++ enc_int STDERR_READ) ++ enc_int (Z.of_nat m))) e k q1)).
  rewrite E2, E3. by rewrite <- app_assoc.
Qed.

Lemma stderr_last n sink source h l rest e k q : peer h = (l ++ msg_last ++ rest, true) ->
  stderr_loop (S n) sink source (cl h (length l) e k q) = Done tt (cl h (length (l ++ msg_last)) e k q).
Proof.
  intros Hp. cbn [processStderr_loop]. by rewrite (run_bind _ _ _ _ _ (cread_run readInt _ _ h l _ e k q (const_reads STDERR_LAST eq_refl) Hp)).
Qed.

Lemma stderr_error n sink source m status h l rest e k q : chunk_ok m -> (0 < status < 2 ^ 32)%Z -> peer h = (l ++ msg_error m status ++ rest, true) ->
  stderr_loop (S n) sink source (cl h (length l) e k q) = Raised (Exn eError m) (cl h (length (l ++ msg_error m status)) e k q).
Proof.
  intros Hm Hs Hp. unfold msg_error in Hp. rewrite <- app_assoc in Hp. cbn [processStderr_loop].
  rewrite (run_bind _ _ _ _ _ (cread_run readInt _ _ h l _ e k q (const_reads STDERR_ERROR eq_refl) Hp)). cbn [Z.eqb orb STDERR_NEXT STDERR_WRITE STDERR_READ STDERR_ERROR Pos.eqb].
  rewrite app_assoc, <- (app_assoc (enc_string m)) in Hp.
  rewrite (run_bind _ _ _ _ _ (cread_run readString _ _ h _ _ e k q (readString_reads m Hm) Hp)). rewrite app_assoc in Hp.
  rewrite (run_bind _ _ _ PROTOCOL_VERSION (cl h _ e k q)) by done. cbn [Z.leb Z.compare PROTOCOL_VERSION GET_PROTOCOL_MINOR Z.land Pos.land Pos.compare Pos.compare_cont].
  rewrite (run_bind _ _ _ _ _ (cread_run readInt _ _ h _ _ e k q (readInt_reads status ltac:(lia)) Hp)). unfold raise, msg_error. by rewrite <- !app_assoc.
Qed.

(** ** An operation *)

(** The daemon sends the result [a] as the bytes [rep]. *)
Definition sends {A} (wr : A -> M D unit) (a : A) (rep : str) : Prop := forall x o l st s, sink_rep o l ->
  exists o', wr a (dm x o st false s) = Done tt (dm x o' st false s) /\ sink_rep o' (l ++ rep).

(** An outcome that the protocol can carry. *)
Definition carried {A} (wr : A -> M D unit) (rep : A -> str) (r : outcome St A) : Prop :=
  match r with
  | Done a _ => sends wr a (rep a)
  | Raised er _ => is_Error (exn_kind er) = true /\ chunk_ok (exn_msg er)
  | Stuck => False
  end.

(** What the client sees of an operation with the outcome [r]: from the bytes that the
    daemon sends, the messages lead it to where the result is to be read, or to the
    exception; and the daemon waits for the next request. *)
Definition seen {A} (sink source : bool) (rep : A -> str) (r : outcome St A) (s : Settings * Z * Z) (h l e : str) (k : K) (q : Q) (e' : str) (k' : K) (q' : Q) : Prop :=
  (exists seg, peer h = (l ++ seg, true)) /\
  exists h' l' n,
    (forall fuel, (n <= fuel)%nat -> stderr_loop fuel sink source (cl h (length l) e k q) =
      match r with
      | Raised er _ => Raised (Exn eError (exn_msg er)) (cl h' (length l') e' k' q')
      | _ => Done tt (cl h' (length l') e' k' q')
      end) /\
    match r with
    | Done a st' => serving h' (l' ++ rep a) st' s
    | Raised _ st' => serving h' l' st' s
    | Stuck => True
    end.

(** A message that leads to a state from which the rest is seen. *)
Lemma seen_message {A} sink source (rep : A -> str) r s h l e k q m h1 e1 k1 q1 e' k' q' :
  (exists rest, peer h = (l ++ m ++ rest, true)) ->
  (forall n, stderr_loop (S n) sink source (cl h (length l) e k q) = stderr_loop n sink source (cl h1 (length (l ++ m)) e1 k1 q1)) ->
  seen sink source rep r s h1 (l ++ m) e1 k1 q1 e' k' q' -> seen sink source rep r s h l e k q e' k' q'.
Proof.
  intros [rest Hp] Hm (_ & h' & l' & n & E & Hs). split; [by eexists|]. exists h', l', (S n). split; [|done].
  intros [|fuel] Hf; [lia|]. rewrite Hm. apply E. lia.
Qed.

Lemma finish_ok {A} f (a : A) wr rep x o l st st' s : sink_rep o l -> sends wr a rep ->
  op_then f (_ ← modify (set_dstore st'); mret a) wr (dm x o st true s) = loop f PROTOCOL_VERSION (dm x (flushed (l ++ msg_last ++ rep)) st' false s).
Proof.
  intros Hl Hw. destruct (stopWork_ok_run x o l st' s Hl) as (o1 & E1 & R1). destruct (Hw x o1 _ st' s R1) as (o2 & E2 & R2).
  unfold op_then, process_op. unfold mbind at 1, M_bind at 1, try_catch. rewrite <- app_assoc in R2.
  assert (E : (r ← (r ← (_ ← modify (set_dstore st'); mret a); _ ← stopWork_ok; mret r); wr r) (dm x o st true s) = Done tt (dm x o2 st' false s)).
  { rewrite <- E2. apply run_bind. rewrite (run_bind _ _ _ a (dm x o st' true s)) by done. by rewrite (run_bind _ _ _ _ _ E1). }
  rewrite (run_bind _ _ _ _ _ E). unfold after_op. cbn [negb mret M_ret]. rewrite (run_bind _ _ _ _ _ (dflush_run x o2 _ st' false s R2)). done.
Qed.

Lemma finish_error {A} f er (wr : A -> M D unit) x o l st st' s : sink_rep o l -> is_Error (exn_kind er) = true -> chunk_ok (exn_msg er) ->
  op_then f (_ ← modify (set_dstore st'); rethrow er) wr (dm x o st true s) =
    loop f PROTOCOL_VERSION (dm x (flushed (l ++ msg_error (exn_msg er) (exn_status er))) st' false s).
Proof.
  intros Hl He Hm. destruct (stopWork_error_run (exn_msg er) (exn_status er) x o l st' s Hm (exn_status_ok er) Hl) as (o1 & E1 & R1).
  unfold op_then, process_op. unfold mbind at 1, M_bind at 1, try_catch.
  match goal with |- context [match ?m (dm x o st true s) with _ => _ end] => change (m (dm x o st true s)) with (Raised (A := bool) er (dm x o st' true s)) end.
  cbn beta iota. rewrite He.
  rewrite (run_bind _ _ _ true (dm x o st' true s)) by done. change (8 <=? GET_PROTOCOL_MINOR PROTOCOL_VERSION)%Z with true. cbn match.
  rewrite (run_bind _ _ _ _ _ E1). unfold after_op. cbn [negb mret M_ret]. by rewrite (run_bind _ _ _ _ _ (dflush_run x o1 _ st' false s R1)).
Qed.

Definition mid_op {A} (h : str) (sc : script St A) (b : BufferedSource Q) (wr : A -> M D unit) (o : Out) (st : St) (s : Settings * Z * Z) : Prop :=
  resumes h (fun f x => op_then f (perform sc (forget b)) wr (dm x o st true s)).

(** The daemon takes a step of the script. *)
Lemma mid_op_step {A} h (sc sc' : script St A) b b' wr o o' st s :
  (forall x, perform sc (forget b) (dm x o st true s) = perform sc' (forget b') (dm x o' st true s)) -> mid_op h sc b wr o st s -> mid_op h sc' b' wr o' st s.
Proof.
  intros Hx. apply resumes_ext. intros f x. unfold op_then, process_op, mbind, M_bind, try_catch. by rewrite Hx.
Qed.

Lemma bufSize_range : (0 < default_bufSize)%nat /\ (Z.of_nat default_bufSize < 2 ^ 32)%Z.
Proof. unfold default_bufSize. lia. Qed.
Lemma short_chunk x : (length x <= default_bufSize)%nat -> chunk_ok x.
Proof. unfold chunk_ok, default_bufSize. lia. Qed.

#[local] Opaque default_bufSize.

(** The daemon asks for input: it waits, and goes on when the answer arrives. *)
Lemma tunnel_read_ask {A} h n (sc : result str -> script St A) b wr o l st s x d b1 :
  bsrc_bufPosIn b = 0%nat -> bsrc_bufPosOut b = 0%nat -> bsrc_bufSize b = default_bufSize -> x <> [] -> (length x <= default_bufSize)%nat ->
  BufferedSource_read (fun _ _ => NoFuel) n (forget (mkBufferedSource (bsrc_bufSize b) (length x) (bsrc_bufPosOut b) x (bsrc_under b))) = Ok (d, forget b1) ->
  sink_rep o l -> mid_op h (SRead n sc) b wr o st s ->
  peer h = (l ++ msg_read default_bufSize, true) /\ mid_op (h ++ enc_string x) (sc (Ok d)) b1 wr (flushed (l ++ msg_read default_bufSize)) st s.
Proof.
  intros Hb Hbo Hz Hx Hxl Hd Hl Hmid.
  assert (Hask : forall y, TunnelSource_readUnbuffered default_bufSize (dm y o st true s) = _) by
    (intros y; apply (tunnel_ask default_bufSize y o l st s); [apply bufSize_range|apply bufSize_range|done]).
  split.
  - eapply resumes_waiting; [|exact Hmid]. intros f Hf. unfold op_then, process_op, mbind, M_bind, try_catch. cbn [perform].
    unfold TunnelSource_read, mbind, M_bind. cbn [bsrc_bufPosIn forget bsrc_bufSize]. rewrite Hb, Hz. cbn [Nat.eqb]. rewrite Hask. eexists. split; reflexivity.
  - eapply resumes_step; [|apply (resumes_app _ (enc_string x)), Hmid]. intros f y Hf. exists (f + length (enc_string x))%nat. split; [lia|].
    unfold op_then, process_op, mbind, M_bind, try_catch. cbn [perform].
    assert (E : TunnelSource_read n (forget b) (dm (enc_string x ++ y) o st true s) = Done (d, forget b1) (dm y (flushed (l ++ msg_read default_bufSize)) st true s)); [|by rewrite E].
    unfold TunnelSource_read. cbn [bsrc_bufPosIn forget bsrc_bufSize]. rewrite Hb, Hz.
    assert (Er : TunnelSource_readUnbuffered default_bufSize (dm (enc_string x ++ y) o st true s) = Done x (dm y (flushed (l ++ msg_read default_bufSize)) st true s)).
    { rewrite Hask. rewrite (run_bind _ _ _ _ _ (dread_run _ _ x y _ st false s (readString_max_reads x default_bufSize ltac:(by apply short_chunk) Hxl))).
      by destruct x. }
    rewrite (run_bind _ _ _ (forget (mkBufferedSource (bsrc_bufSize b) (length x) (bsrc_bufPosOut b) x (bsrc_under b))) (dm y (flushed (l ++ msg_read default_bufSize)) st true s)).
    + unfold lift. by rewrite Hd.
    + cbn [Nat.eqb]. rewrite (run_bind _ _ _ _ _ Er). unfold forget. cbn. by rewrite Hz.
Qed.

Lemma run_script {A} sink source (sc : script St A) b e k r b' e' k' (wr : A -> M D unit) rep :
  runs sink source sc b e k r b' e' k' -> carried wr rep r -> forall h o l st s,
  sink_rep o l -> mid_op h sc b wr o st s -> seen sink source rep r s h l e k (bsrc_under b) e' k' (bsrc_under b').
Proof.
  intros Hr Hc. induction Hr as [r b e k|m sc b e k r b' e' k' Hm Hr IH|d sc b e k k1 r b' e' k' -> Hd Hk Hr IH
    |n sc d b b1 e k r b' e' k' Hb Hd Hr IH|n sc x q d b b1 e k r b' e' k' -> Hb Hbo Hz Hx Hx0 Hxl Hd Hr IH]; intros h o l st s Hl Hmid.
  - destruct r as [a st'|er st'|]; [| |done].
    + assert (Hs : serving h (l ++ msg_last ++ rep a) st' s).
      { eapply resumes_ext; [|exact Hmid]. intros f x. exact (finish_ok f a wr (rep a) x o l st st' s Hl Hc). }
      pose proof (serving_waiting h _ st' s Hs) as Hp. split; [exists (msg_last ++ rep a); exact Hp|]. exists h, (l ++ msg_last), 1%nat. split; [|by rewrite <- app_assoc].
      intros [|fuel] Hf; [lia|]. exact (stderr_last fuel sink source h l (rep a) e k (bsrc_under b) Hp).
    + destruct Hc as [He Hc]. assert (Hs : serving h (l ++ msg_error (exn_msg er) (exn_status er)) st' s).
      { eapply resumes_ext; [|exact Hmid]. intros f x. exact (finish_error f er wr x o l st st' s Hl He Hc). }
      pose proof (serving_waiting h _ st' s Hs) as Hp. split; [eexists; exact Hp|]. exists h, (l ++ msg_error (exn_msg er) (exn_status er)), 1%nat. split; [|done].
      intros [|fuel] Hf; [lia|]. apply (stderr_error fuel _ _ _ _ h l []); [exact Hc|apply exn_status_ok|]. rewrite app_nil_r. exact Hp.
  - specialize (IH Hc h (flushed (l ++ msg_next m)) (l ++ msg_next m) st s (sink_rep_flushed _)).
    assert (Hi : seen sink source rep r s h (l ++ msg_next m) (e ++ m) k (bsrc_under b) e' k' (bsrc_under b')).
    { apply IH. eapply mid_op_step; [|exact Hmid]. intros x. cbn [perform]. by rewrite (run_bind _ _ _ _ _ (tunnelStderr_run m x o l st s Hm Hl)). }
    pose proof Hi as ((seg & Hp) & _). rewrite <- app_assoc in Hp. eapply seen_message; [by eexists|intros n; by apply (stderr_next n _ _ m h l seg)|exact Hi].
  - destruct (TunnelSink_run (St := St) d o l Hd Hl) as (o1 & R1 & E1).
    assert (Hi : seen true source rep r s h (l ++ msg_write d) e k1 (bsrc_under b) e' k' (bsrc_under b')).
    { eapply (IH Hc h o1 (l ++ msg_write d) st s R1). eapply mid_op_step; [|exact Hmid]. intros x. cbn [perform]. by rewrite (run_bind _ _ _ _ _ (E1 x st s)). }
    pose proof Hi as ((seg & Hp) & _). rewrite <- app_assoc in Hp. eapply seen_message; [by eexists|intros n; by apply (stderr_write n _ d h l seg)|exact Hi].
  - destruct (read_forget source_read n b d b1 Hb Hd) as [Hd' <-]. apply (IH Hc h o l st s Hl). eapply mid_op_step; [|exact Hmid]. intros x.
    cbn [perform]. unfold TunnelSource_read. destruct (Nat.eqb_spec (bsrc_bufPosIn (forget b)) 0) as [|_]; [done|].
    rewrite (run_bind _ _ _ (forget b) (dm x o st true s)) by done. unfold lift. by rewrite Hd'.
  - rewrite (read_filled source_read n b x q Hb) in Hd; [|by rewrite Hz|done].
    assert (Hn0 : length x <> 0%nat) by (by destruct x).
    destruct (read_forget source_read n (mkBufferedSource (bsrc_bufSize b) (length x) (bsrc_bufPosOut b) x q) d b1 Hn0 Hd) as [Hd' Hq]. cbn [bsrc_under] in Hq.
    destruct (tunnel_read_ask h n sc b wr o l st s x d b1) as (Hp & Hmid'); [done..|]. rewrite Hq in IH.
    eapply seen_message; [exists []; by rewrite app_nil_r| |apply (IH Hc (h ++ enc_string x) (flushed (l ++ msg_read default_bufSize)) _ st s (sink_rep_flushed _) Hmid')].
    intros m. apply (stderr_read m sink default_bufSize x q h l []); [apply bufSize_range|done|by apply short_chunk|by rewrite app_nil_r].
Qed.
End Conn.
