(* ===== verification/RemoteOps.v ===== *)
(** * The operations of the remote store

    Each operation of [StoreAPI] as data: what the local store does for it, the bytes
    of its request and of its result, and the two ends that produce and consume them. *)

From Stdlib Require Import ZArith Lia Ascii.
From stdpp Require Import base strings sorting numbers gmap sets list.
From S2P Require Import Prelude Effects Util Serialise Hash FileSystem FileOps Archive StorePath GCRoots GC Globals Wire Daemon Remote RemoteConn.

Inductive op : Type :=
| OIsValidPath (path : str) | OQueryValidPaths (paths : gset str) | OQueryAllValidPaths | OQueryPathInfo (path : str) | OQueryPathHash (path : str)
| OQueryReferences (path : str) | OQueryReferrers (path : str) | OQueryDeriver (path : str) | OQueryDerivationOutputs (path : str)
| OQueryDerivationOutputNames (path : str) | OQueryPathFromHashPart (hashPart : str) | OQuerySubstitutablePaths (paths : gset str)
| OQuerySubstitutablePathInfos (paths : gset str) | OAddToStore (srcPath : str) (recursive : bool) (hashAlgo : HashType) (filter : str -> bool)
| OAddTextToStore (name s : str) (refs : gset str) | OExportPath (path : str) (sign : bool) | OImportPaths | OBuildPaths (drvPaths : gset str)
| OEnsurePath (path : str) | OAddTempRoot (path : str) | OAddIndirectRoot (path : str) | OSyncWithGC | OFindRoots
| OCollectGarbage (options : GCOptions) | OQueryFailedPaths | OClearFailedPaths (paths : gset str).

Definition op_result (o : op) : Type :=
  match o with
  | OIsValidPath _ => bool
  | OQueryPathInfo _ => ValidPathInfo
  | OQueryPathHash _ => Hash
  | OQueryDeriver _ | OQueryPathFromHashPart _ | OAddToStore _ _ _ _ | OAddTextToStore _ _ _ => str
  | OQuerySubstitutablePathInfos _ => SubstitutablePathInfos
  | OImportPaths => list str
  | OExportPath _ _ | OBuildPaths _ | OEnsurePath _ | OAddTempRoot _ | OAddIndirectRoot _ | OSyncWithGC | OClearFailedPaths _ => unit
  | OFindRoots => gmap str str
  | OCollectGarbage _ => GCResults
  | OQueryValidPaths _ | OQueryAllValidPaths | OQueryReferences _ | OQueryReferrers _ | OQueryDerivationOutputs _ | OQueryDerivationOutputNames _
  | OQuerySubstitutablePaths _ | OQueryFailedPaths => gset str
  end.

Definition op_code (o : op) : WorkerOp :=
  match o with
  | OIsValidPath _ => wopIsValidPath | OQueryValidPaths _ => wopQueryValidPaths | OQueryAllValidPaths => wopQueryAllValidPaths
  | OQueryPathInfo _ => wopQueryPathInfo | OQueryPathHash _ => wopQueryPathHash | OQueryReferences _ => wopQueryReferences
  | OQueryReferrers _ => wopQueryReferrers | OQueryDeriver _ => wopQueryDeriver | OQueryDerivationOutputs _ => wopQueryDerivationOutputs
  | OQueryDerivationOutputNames _ => wopQueryDerivationOutputNames | OQueryPathFromHashPart _ => wopQueryPathFromHashPart
  | OQuerySubstitutablePaths _ => wopQuerySubstitutablePaths | OQuerySubstitutablePathInfos _ => wopQuerySubstitutablePathInfos
  | OAddToStore _ _ _ _ => wopAddToStore | OAddTextToStore _ _ _ => wopAddTextToStore | OExportPath _ _ => wopExportPath
  | OImportPaths => wopImportPaths | OBuildPaths _ => wopBuildPaths | OEnsurePath _ => wopEnsurePath | OAddTempRoot _ => wopAddTempRoot
  | OAddIndirectRoot _ => wopAddIndirectRoot | OSyncWithGC => wopSyncWithGC | OFindRoots => wopFindRoots | OCollectGarbage _ => wopCollectGarbage
  | OQueryFailedPaths => wopQueryFailedPaths | OClearFailedPaths _ => wopClearFailedPaths
  end.

(** Whether the caller passes a sink or a source. *)
Definition op_sink (o : op) : bool := match o with OExportPath _ _ => true | _ => false end.
Definition op_source (o : op) : bool := match o with OImportPaths => true | _ => false end.

Section Ops.
Context {St : Type} `{StoreOps St} {K Q : Type} `{Sink K} `{Source Q}.
Context (nixStore : str) (peer : str -> str * bool) (remoteMode : str) (connectToDaemon : result unit) (settings : Settings) (verbosity logType : Z).
(** The file system of the client. *)
Context (fs : FileSys) (sched : str -> list io_choice) (dfuel : nat) (cwd : str) (indeterminate : Z).
Abbreviation D := (Daemon St).
Abbreviation C := (Client K Q).

(** The name and the tree that [addToStore] sends. *)
Definition source_of (srcPath : str) (filter : str -> bool) : option (str * node) :=
  match absPath cwd srcPath [] with
  | Ok p => match baseNameOf p, tree_of fs filter dfuel p with Ok b, Some t => Some (b, t) | _, _ => None end
  | _ => None
  end.

(** What the store adds: the dump, or the contents of a regular file. *)
Definition dump_of (recursive : bool) (t : node) : bool * str :=
  if recursive then (true, enc_archive t) else match t with NReg _ c => (true, c) | _ => (false, []) end.

Definition local (o : op) : storeOp St (op_result o) :=
  match o with
  | OIsValidPath p => so_isValidPath p
  | OQueryValidPaths ps => so_queryValidPaths ps
  | OQueryAllValidPaths => so_queryAllValidPaths
  | OQueryPathInfo p => so_queryPathInfo p
  | OQueryPathHash p => so_queryPathHash p
  | OQueryReferences p => so_queryReferences p
  | OQueryReferrers p => so_queryReferrers p
  | OQueryDeriver p => so_queryDeriver p
  | OQueryDerivationOutputs p => so_queryDerivationOutputs p
  | OQueryDerivationOutputNames p => so_queryDerivationOutputNames p
  | OQueryPathFromHashPart s => so_queryPathFromHashPart s
  | OQuerySubstitutablePaths ps => so_querySubstitutablePaths ps
  | OQuerySubstitutablePathInfos ps => so_querySubstitutablePathInfos ps
  | OAddToStore p recursive ht filter =>
      match source_of p filter with
      | Some (b, t) => add_from_dump (dump_of recursive t).1 (dump_of recursive t).2 b recursive ht
      | None => fun st => SEnd Stuck
      end
  | OAddTextToStore name s refs => so_addTextToStore name s refs
  | OExportPath p sign => so_exportPath p sign
  | OImportPaths => so_importPaths true
  | OBuildPaths ps => so_buildPaths ps
  | OEnsurePath p => so_ensurePath p
  | OAddTempRoot p => so_addTempRoot p
  | OAddIndirectRoot p => so_addIndirectRoot p
  | OSyncWithGC => so_syncWithGC
  | OFindRoots => so_findRoots
  | OCollectGarbage options => collect options
  | OQueryFailedPaths => so_queryFailedPaths
  | OClearFailedPaths ps => so_clearFailedPaths ps
  end.

(** The method of [RemoteStore]. *)
Definition remote (fuel : nat) (o : op) : M C (op_result o) :=
  match o with
  | OIsValidPath p => remote_isValidPath peer remoteMode connectToDaemon settings verbosity logType fuel p
  | OQueryValidPaths ps => remote_queryValidPaths nixStore peer remoteMode connectToDaemon settings verbosity logType fuel ps
  | OQueryAllValidPaths => remote_queryAllValidPaths nixStore peer remoteMode connectToDaemon settings verbosity logType fuel
  | OQueryPathInfo p => remote_queryPathInfo nixStore peer remoteMode connectToDaemon settings verbosity logType fuel indeterminate p
  | OQueryPathHash p => remote_queryPathHash peer remoteMode connectToDaemon settings verbosity logType fuel p
  | OQueryReferences p => remote_queryReferences nixStore peer remoteMode connectToDaemon settings verbosity logType fuel p ∅
  | OQueryReferrers p => remote_queryReferrers nixStore peer remoteMode connectToDaemon settings verbosity logType fuel p ∅
  | OQueryDeriver p => remote_queryDeriver nixStore peer remoteMode connectToDaemon settings verbosity logType fuel p
  | OQueryDerivationOutputs p => remote_queryDerivationOutputs nixStore peer remoteMode connectToDaemon settings verbosity logType fuel p
  | OQueryDerivationOutputNames p => remote_queryDerivationOutputNames peer remoteMode connectToDaemon settings verbosity logType fuel p
  | OQueryPathFromHashPart s => remote_queryPathFromHashPart nixStore peer remoteMode connectToDaemon settings verbosity logType fuel s
  | OQuerySubstitutablePaths ps => remote_querySubstitutablePaths nixStore peer remoteMode connectToDaemon settings verbosity logType fuel ps
  | OQuerySubstitutablePathInfos ps => remote_querySubstitutablePathInfos nixStore peer remoteMode connectToDaemon settings verbosity logType fuel ps ∅
  | OAddToStore p recursive ht filter =>
      remote_addToStore nixStore peer remoteMode connectToDaemon settings verbosity logType fuel fs sched dfuel cwd p recursive ht filter false
  | OAddTextToStore name s refs => remote_addTextToStore nixStore peer remoteMode connectToDaemon settings verbosity logType fuel name s refs false
  | OExportPath p sign => remote_exportPath peer remoteMode connectToDaemon settings verbosity logType fuel p sign
  | OImportPaths => remote_importPaths nixStore peer remoteMode connectToDaemon settings verbosity logType fuel true
  | OBuildPaths ps => remote_buildPaths peer remoteMode connectToDaemon settings verbosity logType fuel ps false
  | OEnsurePath p => remote_ensurePath peer remoteMode connectToDaemon settings verbosity logType fuel p
  | OAddTempRoot p => remote_addTempRoot peer remoteMode connectToDaemon settings verbosity logType fuel p
  | OAddIndirectRoot p => remote_addIndirectRoot peer remoteMode connectToDaemon settings verbosity logType fuel p
  | OSyncWithGC => remote_syncWithGC peer remoteMode connectToDaemon settings verbosity logType fuel
  | OFindRoots => remote_findRoots nixStore peer remoteMode connectToDaemon settings verbosity logType fuel
  | OCollectGarbage options => remote_collectGarbage peer remoteMode connectToDaemon settings verbosity logType fuel options
  | OQueryFailedPaths => remote_queryFailedPaths nixStore peer remoteMode connectToDaemon settings verbosity logType fuel
  | OClearFailedPaths ps => remote_clearFailedPaths peer remoteMode connectToDaemon settings verbosity logType fuel ps
  end.
End Ops.

(** ** Dumps on the wire *)

(** The saving source: what was saved and what remains is everything. *)
#[program] Definition Saving_laws {S} `{SourceLaws S} (total : str) : SourceLaws (SavingSourceAdapter S) := {|
  source_ok s := source_ok (sa_orig s) /\ sa_s s ++ source_rem (sa_orig s) = total; source_rem s := source_rem (sa_orig s) |}.
Next Obligation.
  intros S SS LS total n s [Ho Ht] Hn Hr. destruct (source_read_some n (sa_orig s) Ho Hn Hr) as (d & s' & E & Hd & Hl & Er & O').
  exists d, (mkSaving s' (sa_s s ++ d)). unfold source_read, SavingSourceAdapter_source. rewrite E. split_and!; try done. cbn. by rewrite <- Ht, Er, <- app_assoc.
Qed.

(** The sink that expects a regular file. *)
Lemma retrieve_blocks bs : forall b s, run_events (map EvContents bs) (mkRetrieve b s) = Ok (mkRetrieve b (s ++ concat bs)).
Proof.
  induction bs as [|d bs IH]; intros b s; cbn; [by rewrite app_nil_r|]. unfold run_events in IH. rewrite IH. by rewrite <- app_assoc.
Qed.
Lemma retrieve_events es : forall k, exists k', run_events es k = Ok k' /\ (rr_regular k = false -> rr_regular k' = false).
Proof.
  induction es as [|e es IH]; intros k; [by eexists|]. unfold run_events. cbn [foldM].
  assert (exists k1, run_event k e = Ok k1 /\ (rr_regular k = false -> rr_regular k1 = false)) as (k1 & E & Hk) by (destruct e; by eexists).
  rewrite E. destruct (IH k1) as (k' & E' & Hk'). exists k'. split; [done|]. auto.
Qed.
Lemma retrieve_node t : exists k, run_events (node_events [] t) (mkRetrieve true []) = Ok k /\
  rr_regular k = (dump_of false t).1 /\ (rr_regular k = true -> rr_s k = (dump_of false t).2).
Proof.
  destruct t as [x c|tg|es]; cbn [node_events dump_of fst snd].
  - exists (mkRetrieve true c). split; [|done]. assert (E : run_events (map EvContents (blocks c)) (mkRetrieve true []) = Ok (mkRetrieve true c)).
    { rewrite retrieve_blocks. unfold blocks. by rewrite concat_blocks_loop. }
    destruct x; exact E.
  - by eexists.
  - unfold run_events. cbn [foldM run_event createDirectory RetrieveRegularNARSink_sink mbind result_bind rr_s].
    destruct (retrieve_events (concat (map (fun e => node_events (child [] e.1) e.2) es)) (mkRetrieve false [])) as (k & E & Hk).
    exists k. split; [exact E|]. rewrite Hk by done. done.
Qed.

Lemma read_dump_reads recursive t : node_bounded t -> exists d,
  reads (read_dump recursive) (enc_archive t) ((dump_of recursive t).1, d) /\ ((dump_of recursive t).1 = true -> d = (dump_of recursive t).2).
Proof.
  intros Hb. assert (Hf : forall x : str, (node_fuel t <= length (enc_archive t ++ x))%nat).
  { intros x. unfold enc_archive. rewrite !length_app. pose proof (node_fuel_length t). lia. }
  destruct recursive.
  - exists (enc_archive t). split; [|done]. intros s rest Ho Hr. assert (Hi : sk_in s = enc_archive t ++ rest) by exact Hr. unfold read_dump.
    destruct (parseDump_parses (K := unit) (H1 := Saving_laws (enc_archive t ++ rest)) t (length (sk_in s)) Hb ltac:(rewrite Hi; apply Hf) (mkSaving s []) rest)
      as (s' & [O' T'] & R' & E); [by split|exact Hr|]. rewrite E. cbn [source_rem Saving_laws] in R'. rewrite R' in T'. apply app_inv_tail in T'.
    assert (run_events (node_events [] t) tt = Ok tt) as ->.
    { clear. generalize (node_events [] t). intros es. induction es as [|e es IH]; [done|]. unfold run_events. cbn [foldM]. by destruct e. }
    cbn. exists (sa_orig s'). rewrite T'. done.
  - destruct (retrieve_node t) as (k & E & Hk & Hs). exists (rr_s k). split; [|by rewrite <- Hk]. intros s rest Ho Hr. assert (Hi : sk_in s = enc_archive t ++ rest) by exact Hr. unfold read_dump.
    destruct (parseDump_parses (K := RetrieveRegularNARSink) (S := Sock) t (length (sk_in s)) Hb ltac:(rewrite Hi; apply Hf) s rest Ho Hr) as (s' & O' & R' & E').
    rewrite E', E. cbn [mbind result_bind]. exists s'. by rewrite Hk.
Qed.
