(* ===== verification/RemoteSpec.v ===== *)
(** * The remote store refines the local store

    For every operation, the client that sends it to the daemon gets the outcome that
    the operation has on the daemon's store, and the store changes accordingly; nothing
    waits for ever. *)

From Stdlib Require Import ZArith Lia Ascii.
From stdpp Require Import base strings sorting numbers gmap sets list.
From S2P Require Import Prelude Effects Util Serialise Hash FileSystem FileOps Archive StorePath GCRoots GC Globals Wire Daemon Remote RemoteConn RemoteOps.

(** ** What the protocol can carry *)

Section Carry.
Context (nixStore : str) (fs : FileSys) (dfuel : nat) (cwd : str).
Abbreviation path_ok := (store_path_ok nixStore).
Abbreviation paths_ok := (store_paths_ok nixStore).
Definition opt_path_ok (p : str) : Prop := p = [] \/ path_ok p.

(** Requests. *)
Definition op_ok (o : op) : Prop :=
  match o with
  | OIsValidPath p | OQueryPathInfo p | OQueryPathHash p | OQueryReferences p | OQueryReferrers p | OQueryDeriver p | OQueryDerivationOutputs p
  | OQueryDerivationOutputNames p | OExportPath p _ | OEnsurePath p | OAddTempRoot p => path_ok p
  | OQueryValidPaths ps | OQuerySubstitutablePaths ps | OBuildPaths ps => paths_ok ps
  | OQuerySubstitutablePathInfos ps => paths_ok ps /\ ps <> ∅
  | OQueryPathFromHashPart s => chunk_ok s
  | OAddToStore p recursive ht filter =>
      (match source_of fs dfuel cwd p filter with Some (b, t) => chunk_ok b /\ node_bounded t | None => False end) /\ ht <> htUnknown
  | OAddTextToStore name s refs => chunk_ok name /\ chunk_ok s /\ paths_ok refs
  | OAddIndirectRoot p => chunk_ok p /\ daemon_absPath p = Ok p
  | OCollectGarbage options => paths_ok (pathsToDelete options) /\ (0 <= maxFreed options < 2 ^ 64)%Z
  | OClearFailedPaths ps => strings_ok ps
  | OQueryAllValidPaths | OImportPaths | OSyncWithGC | OFindRoots | OQueryFailedPaths => True
  end.

Definition hash_carried (h : Hash) : Prop := hash_ok h /\ type h = htSHA256.
Definition subst_ok (i : SubstitutablePathInfo) : Prop :=
  opt_path_ok (sub_deriver i) /\ paths_ok (sub_references i) /\ (0 <= sub_downloadSize i < 2 ^ 64)%Z /\ (0 <= sub_narSize i < 2 ^ 64)%Z.

(** Results: what the client checks, and what fits the format. *)
Definition reply_ok (o : op) : op_result o -> Prop :=
  match o with
  | OIsValidPath _ | OExportPath _ _ | OBuildPaths _ | OEnsurePath _ | OAddTempRoot _ | OAddIndirectRoot _ | OSyncWithGC | OClearFailedPaths _ => fun _ => True
  | OQueryPathInfo p => fun r => path r = p /\ opt_path_ok (deriver r) /\ hash_carried (vhash r) /\ paths_ok (references r) /\
      (0 <= registrationTime r < 2 ^ 32)%Z /\ (0 <= narSize r < 2 ^ 64)%Z
  | OQueryPathHash _ => fun r => hash_carried r
  | OQueryDeriver _ | OQueryPathFromHashPart _ => fun r => opt_path_ok r
  | OAddToStore _ _ _ _ | OAddTextToStore _ _ _ => fun r => path_ok r
  | OQuerySubstitutablePathInfos _ => fun r => (Z.of_nat (size r) < 2 ^ 32)%Z /\ Forall (fun i => path_ok i.1 /\ subst_ok i.2) (map_iter r)
  | OImportPaths => fun r => (Z.of_nat (length r) < 2 ^ 32)%Z /\ Forall path_ok r
  | OFindRoots => fun r => (Z.of_nat (size r) < 2 ^ 32)%Z /\ Forall (fun i => chunk_ok i.1 /\ path_ok i.2) (map_iter r)
  | OCollectGarbage _ => fun r => strings_ok (res_paths r) /\ (0 <= bytesFreed r < 2 ^ 64)%Z
  | OQueryDerivationOutputNames _ => fun r => strings_ok r
  | OQueryValidPaths _ | OQueryAllValidPaths | OQueryReferences _ | OQueryReferrers _ | OQueryDerivationOutputs _
  | OQuerySubstitutablePaths _ | OQueryFailedPaths => fun r => paths_ok r
  end.

(** ** The bytes *)

Definition enc_set (ps : gset str) : str := enc_strings (set_iter ps).

Definition enc_args (o : op) : str :=
  match o with
  | OIsValidPath p | OQueryPathInfo p | OQueryPathHash p | OQueryReferences p | OQueryReferrers p | OQueryDeriver p | OQueryDerivationOutputs p
  | OQueryDerivationOutputNames p | OEnsurePath p | OAddTempRoot p | OAddIndirectRoot p | OQueryPathFromHashPart p => enc_string p
  | OQueryValidPaths ps | OQuerySubstitutablePaths ps | OBuildPaths ps | OQuerySubstitutablePathInfos ps | OClearFailedPaths ps => enc_set ps
  | OAddToStore p recursive ht filter =>
      match source_of fs dfuel cwd p filter, printHashType ht with
      | Some (b, t), Ok algo => enc_string b ++ enc_int (if bool_decide (ht = htSHA256) && recursive then 0 else 1) ++ enc_int (if recursive then 1 else 0) ++
          enc_string algo ++ enc_archive t
      | _, _ => []
      end
  | OAddTextToStore name s refs => enc_string name ++ enc_string s ++ enc_set refs
  | OExportPath p sign => enc_string p ++ enc_int (if sign then 1 else 0)
  | OCollectGarbage o => enc_int (action_num (action o)) ++ enc_set (pathsToDelete o) ++ enc_int (b2z (ignoreLiveness o)) ++ enc_longlong (maxFreed o) ++
      enc_int 0 ++ enc_int 0 ++ enc_int 0
  | OQueryAllValidPaths | OImportPaths | OSyncWithGC | OFindRoots | OQueryFailedPaths => []
  end.

Definition enc_subst (i : SubstitutablePathInfo) : str :=
  enc_string (sub_deriver i) ++ enc_set (sub_references i) ++ enc_longlong (sub_downloadSize i) ++ enc_longlong (sub_narSize i).

Definition enc_reply (o : op) : op_result o -> str :=
  match o with
  | OIsValidPath _ => fun r => enc_int (b2z r)
  | OExportPath _ _ | OBuildPaths _ | OEnsurePath _ | OAddTempRoot _ | OAddIndirectRoot _ | OSyncWithGC | OClearFailedPaths _ => fun _ => enc_int 1
  | OQueryPathInfo p => fun r => enc_string (deriver r) ++ enc_string (printHash (vhash r)) ++ enc_set (references r) ++ enc_int (registrationTime r) ++ enc_longlong (narSize r)
  | OQueryPathHash _ => fun r => enc_string (printHash r)
  | OQueryDeriver _ | OQueryPathFromHashPart _ | OAddToStore _ _ _ _ | OAddTextToStore _ _ _ => fun r => enc_string r
  | OQuerySubstitutablePathInfos _ => fun r => enc_int (Z.of_nat (size r)) ++ concat (map (fun i => enc_string i.1 ++ enc_subst i.2) (map_iter r))
  | OImportPaths => fun r => enc_strings r
  | OFindRoots => fun r => enc_int (Z.of_nat (size r)) ++ concat (map (fun i => enc_string i.1 ++ enc_string i.2) (map_iter r))
  | OCollectGarbage _ => fun r => enc_set (res_paths r) ++ enc_longlong (bytesFreed r) ++ enc_longlong 0
  | OQueryDerivationOutputNames _ | OQueryValidPaths _ | OQueryAllValidPaths | OQueryReferences _ | OQueryReferrers _ | OQueryDerivationOutputs _
  | OQuerySubstitutablePaths _ | OQueryFailedPaths => fun r => enc_set r
  end.

(** The client does not learn the number of a row. *)
Definition view (indeterminate : Z) (o : op) : op_result o -> op_result o :=
  match o with
  | OQueryPathInfo p => fun r => mkValidPathInfo (path r) (deriver r) (vhash r) (references r) (registrationTime r) (narSize r) indeterminate
  | _ => fun r => r
  end.
End Carry.

(** ** The daemon's end *)

Section DaemonEnd.
Context {St : Type} `{StoreOps St} (nixStore : str) (fs : FileSys) (dfuel : nat) (cwd : str).
Abbreviation D := (Daemon St).

Definition wr (o : op) : op_result o -> M D unit :=
  match o with
  | OIsValidPath _ => fun r => dwrite (writeInt (b2z r))
  | OExportPath _ _ | OBuildPaths _ | OEnsurePath _ | OAddTempRoot _ | OAddIndirectRoot _ | OSyncWithGC | OClearFailedPaths _ => fun _ => dwrite (writeInt 1)
  | OQueryPathInfo p => fun r => dwrite (write_pathInfo r)
  | OQueryPathHash _ => fun r => dwrite (writeString (printHash r))
  | OQueryDeriver _ | OQueryPathFromHashPart _ | OAddToStore _ _ _ _ | OAddTextToStore _ _ _ => fun r => dwrite (writeString r)
  | OQuerySubstitutablePathInfos _ => fun r => dwrite (write_substs r)
  | OImportPaths => fun r => dwrite (writeStrings r)
  | OFindRoots => fun r => dwrite (write_roots r)
  | OCollectGarbage _ => fun r =>
      _ ← dwrite (writeStringSet (res_paths r)); _ ← dwrite (writeLongLong (bytesFreed r)); dwrite (writeLongLong 0)
  | OQueryDerivationOutputNames _ | OQueryValidPaths _ | OQueryAllValidPaths | OQueryReferences _ | OQueryReferrers _ | OQueryDerivationOutputs _
  | OQuerySubstitutablePaths _ | OQueryFailedPaths => fun r => dwrite (writeStringSet r)
  end.

Lemma readFlag_reads n : (0 <=? n)%Z && (n <? 2 ^ 32)%Z = true -> reads (fun s : Sock => readFlag s) (enc_int n) (n =? 1)%Z.
Proof. intros Hn s rest Hs Hr. destruct (const_reads n Hn s rest Hs Hr) as (s' & E & R). exists s'. unfold readFlag. by rewrite E. Qed.
Lemma readBool_reads b : reads (fun s : Sock => readBool s) (enc_int (b2z b)) b.
Proof.
  intros s rest Hs Hr. destruct (const_reads (b2z b) ltac:(by destruct b) s rest Hs Hr) as (s' & E & R). exists s'. unfold readBool. rewrite E. by destruct b.
Qed.

Lemma dget_run {A B} (f : Sock -> result (A * Sock)) (k : A -> M D B) e a x o st can s :
  reads f e a -> (dread f ≫= k) (dm (e ++ x) o st can s) = k a (dm x o st can s).
Proof. intros Hf. apply run_bind. by apply dread_run. Qed.

(** The request of [addToStore]. *)
Lemma perform_addToStore_args p recursive ht filter x o st s : op_ok nixStore fs dfuel cwd (OAddToStore p recursive ht filter) ->
  perform_addToStore (dm (enc_args fs dfuel cwd (OAddToStore p recursive ht filter) ++ x) o st false s) =
  (work (local fs dfuel cwd (OAddToStore p recursive ht filter)) ≫= wr (OAddToStore p recursive ht filter)) (dm x o st false s).
Proof.
  intros [Hs Hht]. cbn [enc_args local wr]. destruct (source_of fs dfuel cwd p filter) as [[b t]|]; [|done]. destruct Hs as [Hb Ht].
  destruct (printHashType ht) as [algo| |] eqn:Ea; [|by destruct ht..]. pose proof (parse_print_hashType ht algo Ea) as Hp.
  assert (Halgo : chunk_ok algo) by (destruct ht; inversion Ea; by vm_compute).
  destruct (read_dump_reads recursive t Ht) as (d & Hd & Hreg).
  unfold perform_addToStore. rewrite <- !app_assoc. rewrite (dget_run readString _ _ _ _ o st false s (readString_reads b Hb)).
  rewrite (dget_run readFlag _ _ _ _ o st false s (readFlag_reads (if bool_decide (ht = htSHA256) && recursive then 0 else 1) ltac:(by destruct (bool_decide (ht = htSHA256)), recursive))).
  rewrite (dget_run readFlag _ _ _ _ o st false s (readFlag_reads (if recursive then 1 else 0) ltac:(by destruct recursive))).
  rewrite (dget_run readString _ _ _ _ o st false s (readString_reads algo Halgo)).
  assert (Hrec : (if negb ((if bool_decide (ht = htSHA256) && recursive then 0 else 1) =? 1)%Z then true else ((if recursive then 1 else 0) =? 1)%Z) = recursive).
  { by destruct (bool_decide _), recursive. }
  assert (Halg : parseHashType (if negb ((if bool_decide (ht = htSHA256) && recursive then 0 else 1) =? 1)%Z then $"sha256" else algo) = ht).
  { case_bool_decide as Hsha; cbn [andb]; [|exact Hp]. destruct recursive; [by subst|exact Hp]. }
  rewrite Hrec, Halg. rewrite (dget_run (read_dump recursive) _ _ _ _ o st false s Hd). cbn [fst snd].
  destruct (dump_of recursive t) as [[] d0]; [|done]. by rewrite Hreg.
Qed.

Lemma perform_collectGarbage_args opts x o st s : op_ok nixStore fs dfuel cwd (OCollectGarbage opts) ->
  perform_collectGarbage nixStore PROTOCOL_VERSION (dm (enc_args fs dfuel cwd (OCollectGarbage opts) ++ x) o st false s) =
  (work (local fs dfuel cwd (OCollectGarbage opts)) ≫= wr (OCollectGarbage opts)) (dm x o st false s).
Proof.
  intros [Hp Hm]. destruct opts as [a ig ps mf]. cbn [enc_args local wr action pathsToDelete ignoreLiveness maxFreed] in *. unfold perform_collectGarbage. rewrite <- !app_assoc.
  rewrite (dget_run readInt _ _ _ _ o st false s (const_reads (action_num a) ltac:(by destruct a))).
  rewrite (dget_run _ _ _ _ _ o st false s (readStorePathSet_reads nixStore ps Hp)).
  rewrite (dget_run readBool _ _ _ _ o st false s (readBool_reads ig)). rewrite (dget_run readLongLong _ _ _ _ o st false s (readLongLong_reads mf Hm)).
  rewrite (dget_run readInt _ _ _ _ o st false s (const_reads 0 eq_refl)). change (5 <=? GET_PROTOCOL_MINOR PROTOCOL_VERSION)%Z with true. cbn match.
  rewrite (run_bind _ _ _ tt (dm x o st false s)).
  - by destruct a.
  - rewrite (dget_run readInt _ _ _ _ o st false s (const_reads 0 eq_refl)). by rewrite (dget_run readInt _ _ _ _ o st false s (const_reads 0 eq_refl)).
Qed.

(** The daemon reads a request that the client can send, and performs it. *)
Lemma performOp_args op x o st s : op_ok nixStore fs dfuel cwd op ->
  performOp nixStore PROTOCOL_VERSION (wop_num (op_code op)) (dm (enc_args fs dfuel cwd op ++ x) o st false s) =
  (work (local fs dfuel cwd op) ≫= wr op) (dm x o st false s).
Proof.
  intros Ho. unfold performOp. rewrite wop_of_num. unfold read_path, read_paths.
  destruct op as [p|ps| |p|p|p|p|p|p|p|y|ps|ps|p r ht f|n y ps|p sign| |ps|p|p|p| | |opts| |ps]; cbn beta iota delta [op_code]; cbn [op_ok] in Ho.
  all: lazymatch goal with
  | |- perform_addToStore _ = _ => exact (perform_addToStore_args p r ht f x o st s Ho)
  | |- perform_collectGarbage _ _ _ = _ => exact (perform_collectGarbage_args opts x o st s Ho)
  | _ => cbn beta iota delta [enc_args enc_set]; rewrite <- ?app_assoc
  end.
  all: lazymatch type of Ho with
  | store_path_ok nixStore _ => rewrite (dget_run _ _ _ _ _ o st false s (readStorePath_reads nixStore p Ho))
  | store_paths_ok nixStore _ => rewrite (dget_run _ _ _ _ _ o st false s (readStorePathSet_reads nixStore ps Ho))
  | store_paths_ok nixStore _ /\ _ <> ∅ => rewrite (dget_run _ _ _ _ _ o st false s (readStorePathSet_reads nixStore ps (proj1 Ho)))
  | strings_ok _ => rewrite (dget_run _ _ _ _ _ o st false s (readStringSet_reads ps (proj1 Ho) (proj2 Ho)))
  | _ => idtac
  end.
  all: lazymatch goal with
  | |- context [readFlag] => rewrite (dget_run readFlag _ _ _ _ o st false s (readFlag_reads (if sign then 1 else 0) ltac:(by destruct sign))); by destruct sign
  | |- context [daemon_absPath] => destruct Ho as [Hc Ha]; rewrite (dget_run readString _ _ _ _ o st false s (readString_reads p Hc));
      rewrite (run_bind _ _ _ p (dm x o st false s)); [reflexivity|unfold lift; by rewrite Ha]
  | |- context [so_addTextToStore] => destruct Ho as (Hn & Hy & Hps); rewrite (dget_run readString _ _ _ _ o st false s (readString_reads n Hn));
      rewrite (dget_run readString _ _ _ _ o st false s (readString_reads y Hy)); rewrite (dget_run _ _ _ _ _ o st false s (readStorePathSet_reads nixStore ps Hps)); reflexivity
  | |- context [so_queryPathFromHashPart] => rewrite (dget_run readString _ _ _ _ o st false s (readString_reads y Ho)); reflexivity
  | _ => reflexivity
  end.
Qed.

(** The daemon sends the results that the client accepts. *)
Lemma sends_dwrite {A} (f : A -> Out -> result Out) a w : writes (f a) w -> sends (St := St) (fun r => dwrite (f r)) a w.
Proof. intros Hf x o l st s Hl. by apply dwrite_run. Qed.

Lemma write_opt_path p : opt_path_ok nixStore p -> chunk_ok p.
Proof. intros [-> |[_ ?]]; [|done]. unfold chunk_ok. cbn. lia. Qed.
Lemma writeSet_writes ps : strings_ok ps -> writes (fun o : Out => writeStringSet ps o) (enc_set ps).
Proof. intros [H1 H2]. by apply writeStringSet_writes. Qed.
Lemma write_hash h : hash_carried h -> chunk_ok (printHash h).
Proof.
  intros [[W Ht] _]. unfold chunk_ok. rewrite length_printHash. pose proof (wf_size h W). unfold maxHashSize in *. lia.
Qed.

Lemma write_subst_writes i : subst_ok nixStore i -> writes (fun o : Out => write_subst i true o) (enc_subst i).
Proof.
  intros (Hd & Hr & Hs & Hn). unfold write_subst, enc_subst. apply (writes_bind (writeString (sub_deriver i))); [by apply writeString_writes, write_opt_path|].
  apply (writes_bind (writeStringSet (sub_references i))); [eapply writeSet_writes, store_paths_strings, Hr|].
  apply (writes_bind (writeLongLong (sub_downloadSize i))); by apply writeLongLong_writes.
Qed.

Lemma wr_sends op r : reply_ok nixStore op r -> sends (St := St) (wr op) r (enc_reply op r).
Proof.
  destruct op; cbn [reply_ok wr enc_reply op_result] in *; intros Hr.
  all: try lazymatch goal with
  | |- sends (fun _ => dwrite (writeInt 1)) _ _ => apply (sends_dwrite (fun _ => writeInt 1)); by apply const_writes
  | |- sends (fun r => dwrite (writeStringSet r)) _ _ => apply (sends_dwrite writeStringSet), writeSet_writes; first [exact Hr|exact (store_paths_strings _ _ Hr)]
  end.
  - apply (sends_dwrite (fun r => writeInt (b2z r))). apply const_writes. by destruct r.
  - destruct Hr as (_ & Hd & Hh & Hs & Ht & Hn). apply (sends_dwrite write_pathInfo). unfold write_pathInfo.
    apply (writes_bind (writeString (deriver r))); [by apply writeString_writes, write_opt_path|].
    apply (writes_bind (writeString (printHash (vhash r)))); [by apply writeString_writes, write_hash|].
    apply (writes_bind (writeStringSet (references r))); [eapply writeSet_writes, store_paths_strings, Hs|].
    apply (writes_bind (writeInt (registrationTime r))); [by apply writeInt_writes|by apply writeLongLong_writes].
  - apply (sends_dwrite (fun r => writeString (printHash r))). by apply writeString_writes, write_hash.
  - apply (sends_dwrite writeString). by apply writeString_writes, write_opt_path.
  - apply (sends_dwrite writeString). by apply writeString_writes, write_opt_path.
  - destruct Hr as [Hn Hf]. apply (sends_dwrite write_substs). unfold write_substs. apply (writes_bind (writeInt _)); [apply writeInt_writes; lia|].
    apply (writes_foldM (fun to i => to ← writeString i.1 to; write_subst i.2 true to)). intros i Hi. rewrite Forall_forall in Hf. destruct (Hf i Hi) as [[_ Hk] Hs].
    apply (writes_bind (writeString i.1)); [by apply writeString_writes|by apply write_subst_writes].
  - apply (sends_dwrite writeString). by apply writeString_writes, Hr.
  - apply (sends_dwrite writeString). by apply writeString_writes, Hr.
  - destruct Hr as [Hn Hf]. apply (sends_dwrite writeStrings). apply writeStrings_writes; [done|]. eapply Forall_impl; [exact Hf|]. by intros p [_ ?].
  - destruct Hr as [Hn Hf]. apply (sends_dwrite write_roots). unfold write_roots. apply (writes_bind (writeInt _)); [apply writeInt_writes; lia|].
    apply (writes_foldM (fun to i => to ← writeString i.1 to; writeString i.2 to)). intros i Hi. rewrite Forall_forall in Hf. destruct (Hf i Hi) as [Hk [_ Ht]].
    apply (writes_bind (writeString i.1)); by apply writeString_writes.
  - destruct Hr as [Hs Hb]. intros x o l st s Hl. destruct (dwrite_run (St := St) (writeStringSet (res_paths r)) _ x o l st false s (writeSet_writes _ Hs) Hl) as (o1 & E1 & R1).
    rewrite (run_bind _ _ _ _ _ E1).
    destruct (dwrite2_run (St := St) (writeLongLong (bytesFreed r)) (writeLongLong 0) _ _ x o1 _ st false s (writeLongLong_writes (bytesFreed r) Hb) (writeLongLong_writes 0 ltac:(lia)) R1)
      as (o2 & E2 & R2). exists o2. split; [done|]. by rewrite <- app_assoc in R2.
Qed.
End DaemonEnd.

(** ** The client's end *)

Section ClientEnd.
Context {St : Type} `{StoreOps St} {K Q : Type} `{Sink K} `{Source Q}.
Context (nixStore : str) (exn_status : exn -> Z) (openStore : bool -> result St) (s0 : Settings * Z * Z).
Context (fs : FileSys) (sched : str -> list io_choice) (dfuel : nat) (cwd : str) (indeterminate : Z).
Context (remoteMode : str) (connectToDaemon : result unit) (settings : Settings) (verbosity logType : Z).
(** Reads of the client's files may be interrupted but do not fail. *)
Context (sched_good : forall p, sched_ok (sched p)).
Abbreviation C := (Client K Q).
Abbreviation peer := (reply_to nixStore exn_status openStore s0.1.1 s0.1.2 s0.2).

(** What follows the messages. *)
Definition rd (o : op) : M C (op_result o) :=
  match o with
  | OIsValidPath _ => reply ← cread peer readInt; mret (int_bool reply)
  | OExportPath _ _ | OBuildPaths _ | OEnsurePath _ | OAddTempRoot _ | OAddIndirectRoot _ | OSyncWithGC | OClearFailedPaths _ => _ ← cread peer readInt; mret tt
  | OQueryPathInfo p =>
      d ← cread peer (readOptPath nixStore); h ← cread peer readHash; r ← cread peer (readStorePathSet nixStore); t ← cread peer readInt;
      n ← cread peer readLongLong; mret (mkValidPathInfo p d h r t n indeterminate)
  | OQueryPathHash _ => cread peer readHash
  | OQueryDeriver _ | OQueryPathFromHashPart _ => cread peer (readOptPath nixStore)
  | OAddToStore _ _ _ _ | OAddTextToStore _ _ _ => cread peer (readStorePath nixStore)
  | OQuerySubstitutablePathInfos _ => count ← cread peer readInt; cread peer (read_substs nixStore (Z.to_nat count) ∅)
  | OImportPaths => cread peer (readStorePathList nixStore)
  | OFindRoots => count ← cread peer readInt; cread peer (read_roots nixStore (Z.to_nat count) ∅)
  | OCollectGarbage _ => p ← cread peer readStringSet; b ← cread peer readLongLong; _ ← cread peer readLongLong; mret (mkGCResults p b)
  | OQueryReferences _ | OQueryReferrers _ => r ← cread peer (readStorePathSet nixStore); mret (∅ ∪ r)
  | OQueryDerivationOutputNames _ => cread peer readStringSet
  | OQueryValidPaths _ | OQueryAllValidPaths | OQueryDerivationOutputs _ | OQuerySubstitutablePaths _ | OQueryFailedPaths =>
      cread peer (readStorePathSet nixStore)
  end.

Lemma readOptPath_reads p : opt_path_ok nixStore p -> reads (fun s : Sock => readOptPath nixStore s) (enc_string p) p.
Proof.
  intros Hp s rest Hs Hr. destruct (readString_reads p (write_opt_path nixStore p Hp) s rest Hs Hr) as (s' & E & R). exists s'.
  unfold readOptPath. rewrite E. cbn [mbind result_bind]. destruct Hp as [-> |[Hi _]]; [done|]. unfold assertStorePath. rewrite Hi. by destruct p.
Qed.
Lemma readHash_reads h : hash_carried h -> reads (fun s : Sock => readHash s) (enc_string (printHash h)) h.
Proof.
  intros Hh s rest Hs Hr. destruct (readString_reads (printHash h) (write_hash h Hh) s rest Hs Hr) as (s' & E & R). exists s'.
  unfold readHash. rewrite E. cbn [mbind result_bind]. destruct Hh as [Hok Ht]. pose proof (parse_print_hash16 h Hok) as Hp. rewrite Ht in Hp. by rewrite Hp.
Qed.

Lemma read_subst_reads i : subst_ok nixStore i -> reads (fun s : Sock => read_subst nixStore true s) (enc_subst i) i.
Proof.
  intros (Hd & Hr & Hs & Hn). unfold read_subst, enc_subst. destruct i as [d r dl n]. cbn [sub_deriver sub_references sub_downloadSize sub_narSize] in *.
  apply (reads_bind (readOptPath nixStore) _ _ _ d); [by apply readOptPath_reads|]. apply (reads_bind (readStorePathSet nixStore) _ _ _ r); [by apply readStorePathSet_reads|].
  apply (reads_bind readLongLong _ _ _ dl); [by apply readLongLong_reads|]. rewrite <- (app_nil_r (enc_longlong n)).
  apply (reads_bind readLongLong _ _ _ n); [by apply readLongLong_reads|apply reads_ret].
Qed.

Lemma read_substs_reads l : Forall (fun i => store_path_ok nixStore i.1 /\ subst_ok nixStore i.2) l -> NoDup l.*1 -> forall m : SubstitutablePathInfos,
  reads (fun s : Sock => read_substs nixStore (length l) m s) (concat (map (fun i => enc_string i.1 ++ enc_subst i.2) l)) (foldl (fun m i => <[i.1 := i.2]> m) m l).
Proof.
  induction 1 as [|i l [Hp Hi] _ IH]; intros Hnd m; [apply reads_ret|]. cbn [length map concat foldl read_substs]. rewrite <- app_assoc.
  apply (reads_bind (readStorePath nixStore) _ _ _ i.1); [by apply readStorePath_reads|]. apply (reads_bind (read_subst nixStore true) _ _ _ i.2); [by apply read_subst_reads|].
  apply IH. by apply NoDup_cons in Hnd as [_ ?].
Qed.
Lemma read_roots_reads l : Forall (fun i => chunk_ok i.1 /\ store_path_ok nixStore i.2) l -> forall m : gmap str str,
  reads (fun s : Sock => read_roots nixStore (length l) m s) (concat (map (fun i => enc_string i.1 ++ enc_string i.2) l)) (foldl (fun m i => <[i.1 := i.2]> m) m l).
Proof.
  induction 1 as [|i l [Hp Hi] _ IH]; intros m; [apply reads_ret|]. cbn [length map concat foldl read_roots]. rewrite <- app_assoc.
  apply (reads_bind readString _ _ _ i.1); [by apply readString_reads|]. apply (reads_bind (readStorePath nixStore) _ _ _ i.2); [by apply readStorePath_reads|]. apply IH.
Qed.

(** Reading the entries of a map in their order gives the map. *)
Lemma cget_run {A B} (f : Sock -> result (A * Sock)) (g : A -> M C B) d a h l rest e k q :
  reads f d a -> peer h = (l ++ d ++ rest, true) ->
  (cread peer f ≫= g) (cl h (length l) e k q) = g a (cl h (length (l ++ d)) e k q) /\ peer h = ((l ++ d) ++ rest, true).
Proof. intros Hf Hp. split; [|by rewrite <- app_assoc]. apply run_bind. by eapply cread_run. Qed.

(** Reading the next field with [f], by the fact [R], from what [P] says is there. *)
Ltac cget f R P :=
  match goal with |- context [cl ?h (length ?l) ?e ?k ?q] =>
    rewrite (run_bind _ _ _ _ _ (cread_run nixStore exn_status openStore s0 f _ _ h l _ e k q R P)); rewrite app_assoc in P
  end.

(** The client reads the result that the daemon sends. *)
Lemma rd_run op r h l e k q : reply_ok nixStore op r -> peer h = (l ++ enc_reply op r, true) ->
  rd op (cl h (length l) e k q) = Done (view indeterminate op r) (cl h (length (l ++ enc_reply op r)) e k q).
Proof.
  intros Hr Hp. assert (Hp' : peer h = (l ++ enc_reply op r ++ [], true)) by (by rewrite app_nil_r). clear Hp.
  destruct op; cbn [reply_ok rd enc_reply op_result view] in *.
  all: lazymatch goal with
  | |- (cread peer readInt ≫= fun _ => mret tt) _ = _ => destruct (cget_run readInt (fun _ => mret tt) _ _ h l [] e k q (const_reads 1 eq_refl) Hp') as [E _]; rewrite E; by destruct r
  | |- cread peer (readStorePathSet nixStore) _ = _ => exact (cread_run nixStore exn_status openStore s0 _ _ _ h l [] e k q (readStorePathSet_reads nixStore r Hr) Hp')
  | |- cread peer (readOptPath nixStore) _ = _ => exact (cread_run nixStore exn_status openStore s0 _ _ _ h l [] e k q (readOptPath_reads r Hr) Hp')
  | |- cread peer (readStorePath nixStore) _ = _ => exact (cread_run nixStore exn_status openStore s0 _ _ _ h l [] e k q (readStorePath_reads nixStore r Hr) Hp')
  | |- (cread peer (readStorePathSet nixStore) ≫= fun r => mret (∅ ∪ r)) _ = _ =>
      destruct (cget_run (readStorePathSet nixStore) (fun r => mret (∅ ∪ r)) _ _ h l [] e k q (readStorePathSet_reads nixStore r Hr) Hp') as [E _]; rewrite E; by rewrite (left_id_L ∅ (∪))
  | _ => idtac
  end.
  - destruct (cget_run readInt (fun reply => mret (int_bool reply)) _ _ h l [] e k q (const_reads (b2z r) ltac:(by destruct r)) Hp') as [E _]. rewrite E. by destruct r.
  - destruct Hr as (<- & Hd & Hh & Hs & Ht & Hn). rewrite <- !app_assoc in Hp'.
    cget (readOptPath nixStore) (readOptPath_reads (deriver r) Hd) Hp'. cget readHash (readHash_reads (vhash r) Hh) Hp'.
    cget (readStorePathSet nixStore (S := Sock)) (readStorePathSet_reads nixStore (references r) Hs) Hp'. cget (readInt (S := Sock)) (readInt_reads (registrationTime r) Ht) Hp'.
    cget (readLongLong (S := Sock)) (readLongLong_reads (narSize r) Hn) Hp'. unfold enc_set. by rewrite <- !app_assoc.
  - exact (cread_run nixStore exn_status openStore s0 _ _ _ h l [] e k q (readHash_reads r Hr) Hp').
  - destruct Hr as [H1' H2']. exact (cread_run nixStore exn_status openStore s0 _ _ _ h l [] e k q (readStringSet_reads r H1' H2') Hp').
  - destruct Hr as [Hn Hf]. rewrite <- !app_assoc in Hp'. cget (readInt (S := Sock)) (readInt_reads (Z.of_nat (size r)) (conj (Nat2Z.is_nonneg _) Hn)) Hp'. rewrite Nat2Z.id.
    rewrite <- length_map_iter at 1. rewrite (cread_run nixStore exn_status openStore s0 (read_substs nixStore _ ∅) _ _ h _ [] e k q (read_substs_reads (map_iter r) Hf (NoDup_map_iter r) ∅) Hp').
    rewrite foldl_map_iter. by rewrite <- !app_assoc.
  - destruct Hr as [Hn Hf]. exact (cread_run nixStore exn_status openStore s0 _ _ _ h l [] e k q (readStorePathList_reads nixStore r Hn Hf) Hp').
  - destruct Hr as [Hn Hf]. rewrite <- !app_assoc in Hp'. cget (readInt (S := Sock)) (readInt_reads (Z.of_nat (size r)) (conj (Nat2Z.is_nonneg _) Hn)) Hp'. rewrite Nat2Z.id.
    rewrite <- length_map_iter at 1. rewrite (cread_run nixStore exn_status openStore s0 (read_roots nixStore _ ∅) _ _ h _ [] e k q (read_roots_reads (map_iter r) Hf ∅) Hp').
    assert (Ef : foldl (fun (m : gmap str str) i => <[i.1:=i.2]> m) ∅ (map_iter r) = r) by exact (foldl_map_iter r).
    rewrite Ef. by rewrite <- !app_assoc.
  - destruct Hr as [[Hs1 Hs2] Hb]. rewrite <- !app_assoc in Hp'. unfold enc_set in Hp'.
    cget (readStringSet (S := Sock)) (readStringSet_reads (res_paths r) Hs1 Hs2) Hp'. cget (readLongLong (S := Sock)) (readLongLong_reads (bytesFreed r) Hb) Hp'.
    cget (readLongLong (S := Sock)) (readLongLong_reads 0 ltac:(lia)) Hp'. destruct r. unfold enc_set. by rewrite <- !app_assoc.
Qed.

(** ** Sending a request *)

Abbreviation open := (openConnection peer remoteMode connectToDaemon settings verbosity logType).
Abbreviation requests := (request peer remoteMode connectToDaemon settings verbosity logType).

Lemma open_run fuel b h n e k q : open fuel b (cl h n e k q) = Done tt (cl h n e k q).
Proof. done. Qed.

(** What is written before a flush. *)
Definition cwrites (m : M C unit) (w : str) : Prop := forall h n e k q o l, sink_rep o l ->
  exists o', m (set_cto o (cl h n e k q)) = Done tt (set_cto o' (cl h n e k q)) /\ sink_rep o' (l ++ w).
Lemma cwrites_cwrite f w : writes f w -> cwrites (cwrite f) w.
Proof. intros Hf h n e k q o l Hl. by apply cwrite_run. Qed.
Lemma cwrites_bind m1 m2 w1 w2 : cwrites m1 w1 -> cwrites m2 w2 -> cwrites (_ ← m1; m2) (w1 ++ w2).
Proof.
  intros H1' H2' h n e k q o l Hl. destruct (H1' h n e k q o l Hl) as (o1 & E1 & R1). destruct (H2' h n e k q o1 _ R1) as (o2 & E2 & R2).
  exists o2. rewrite (run_bind _ _ _ _ _ E1). split; [done|]. by rewrite <- app_assoc in R2.
Qed.
Lemma cwrites_gets {A} (m : A -> M C unit) (f : C -> A) a w : (forall h n e k q o, f (set_cto o (cl h n e k q)) = a) -> cwrites (m a) w -> cwrites (x ← gets f; m x) w.
Proof.
  intros Hf Hm h n e k q o l Hl. destruct (Hm h n e k q o l Hl) as (o1 & E1 & R1). exists o1. split; [|done]. rewrite <- E1.
  rewrite <- (Hf h n e k q o). done.
Qed.
Lemma cwrites_request fuel op args w : writes args w -> cwrites (requests fuel op args) (enc_int (wop_num op) ++ w).
Proof.
  intros Hw h n e k q o l Hl. assert (Ho : open fuel true (set_cto o (cl h n e k q)) = Done tt (set_cto o (cl h n e k q))) by done.
  unfold request. rewrite (run_bind _ _ _ _ _ Ho). apply cwrites_bind; [|by apply cwrites_cwrite|done].
  apply cwrites_cwrite, writeInt_writes, wop_num_range.
Qed.

(** The messages are processed when everything has been sent. *)
Lemma processStderr_run {B} fuel m w sink source (g : M C B) h n e k q : cwrites m w ->
  (_ ← m; _ ← processStderr_with peer fuel sink source; g) (cl h n e k q) =
  (_ ← processStderr_loop peer fuel sink source; g) (cl (h ++ w) n e k q).
Proof.
  intros Hm. destruct (Hm h n e k q (flushed h) h (sink_rep_flushed h)) as (o1 & E1 & R1). rewrite (run_bind _ _ _ _ _ E1).
  unfold processStderr_with. unfold mbind at 1, M_bind at 1. by rewrite (run_bind _ _ _ _ _ (cflush_run h n e k q o1 _ R1)).
Qed.

Abbreviation remotely := (remote nixStore peer remoteMode connectToDaemon settings verbosity logType fs sched dfuel cwd indeterminate).

Lemma cwrites_lift {A} (r : result A) a (m : A -> M C unit) w : r = Ok a -> cwrites (m a) w -> cwrites (x ← lift (fun _ => r); m x) w.
Proof. intros -> Hm. exact Hm. Qed.

Lemma addToStore_request fuel p recursive ht filter h n e k q : op_ok nixStore fs dfuel cwd (OAddToStore p recursive ht filter) ->
  remotely fuel (OAddToStore p recursive ht filter) (cl h n e k q) =
  (_ ← processStderr_loop peer fuel false false; rd (OAddToStore p recursive ht filter))
    (cl (h ++ enc_int (wop_num wopAddToStore) ++ enc_args fs dfuel cwd (OAddToStore p recursive ht filter)) n e k q).
Proof.
  intros [Hs Hht]. cbn [enc_args remote rd]. unfold source_of in *. destruct (absPath cwd p []) as [src| |] eqn:Ep; [|done..].
  destruct (baseNameOf src) as [b| |] eqn:Eb; [|done..]. destruct (tree_of fs filter dfuel src) as [t|] eqn:Et; [|done]. destruct Hs as [Hb Ht].
  destruct (printHashType ht) as [algo| |] eqn:Ea; [|by destruct ht..].
  assert (Halgo : chunk_ok algo) by (destruct ht; inversion Ea; by vm_compute).
  set (m := (_ ← cwrite (writeInt (wop_num wopAddToStore));
    _ ← cwrite (writeString b);
    _ ← cwrite (writeInt (if bool_decide (ht = htSHA256) && recursive then 0 else 1));
    _ ← cwrite (writeInt (if recursive then 1 else 0));
    _ ← cwrite (writeString algo);
    cwrite (dumpPath fs sched filter dfuel src)) : M C unit).
  rewrite <- (processStderr_run fuel m).
  - unfold remote_addToStore. rewrite (run_bind _ _ _ tt (cl h n e k q)) by done. rewrite (run_bind _ _ _ _ _ (open_run fuel true h n e k q)).
    rewrite (run_bind _ _ _ src (cl h n e k q)) by (unfold lift; by rewrite Ep). unfold m, lift. rewrite Eb, Ea. unfold mbind, M_bind, mret, M_ret.
    destruct (cwrite (writeInt (wop_num wopAddToStore)) (cl h n e k q)) as [[] c1| |]; [|done..].
    destruct (cwrite (writeString b) c1) as [[] c2| |]; [|done..]. destruct (cwrite _ c2) as [[] c3| |]; [|done..]. destruct (cwrite _ c3) as [[] c4| |]; [|done..].
    destruct (cwrite (writeString algo) c4) as [[] c5| |]; done.
  - unfold m. repeat (apply cwrites_bind); apply cwrites_cwrite.
    + by apply const_writes.
    + by apply writeString_writes.
    + apply const_writes. by destruct (bool_decide (ht = htSHA256)), recursive.
    + apply const_writes. by destruct recursive.
    + by apply writeString_writes.
    + exact (dumpPath_writes fs sched filter sched_good dfuel src t Et Ht).
Qed.

Lemma write_gc_writes o : op_ok nixStore fs dfuel cwd (OCollectGarbage o) ->
  writes (fun to : Out => write_gc o PROTOCOL_VERSION to) (enc_args fs dfuel cwd (OCollectGarbage o)).
Proof.
  intros [Hp Hm]. unfold write_gc. cbn [enc_args]. apply (writes_bind (writeInt _)); [apply const_writes; by destruct (action o)|].
  apply (writes_bind (writeStringSet _)); [eapply writeSet_writes, store_paths_strings, Hp|]. apply (writes_bind (writeInt _)); [apply const_writes; by destruct (ignoreLiveness o)|].
  apply (writes_bind (writeLongLong _)); [by apply writeLongLong_writes|]. apply (writes_bind (writeInt 0)); [by apply const_writes|].
  apply (writes_bind (writeInt 0)); by apply const_writes.
Qed.

Lemma collectGarbage_request fuel o h n e k q : op_ok nixStore fs dfuel cwd (OCollectGarbage o) ->
  remotely fuel (OCollectGarbage o) (cl h n e k q) =
  (_ ← processStderr_loop peer fuel false false; rd (OCollectGarbage o)) (cl (h ++ enc_int (wop_num wopCollectGarbage) ++ enc_args fs dfuel cwd (OCollectGarbage o)) n e k q).
Proof.
  intros Ho. rewrite <- (processStderr_run fuel (_ ← cwrite (writeInt (wop_num wopCollectGarbage)); cwrite (write_gc o PROTOCOL_VERSION))).
  - cbn [remote rd]. unfold remote_collectGarbage. rewrite (run_bind _ _ _ _ _ (open_run fuel false h n e k q)).
    destruct (cwrites_cwrite _ _ (const_writes (wop_num wopCollectGarbage) eq_refl) h n e k q (flushed h) h (sink_rep_flushed h)) as (o1 & E1 & R1).
    assert (E2 : cwrite (writeInt (wop_num wopCollectGarbage)) (cl h n e k q) = Done tt (set_cto o1 (cl h n e k q))) by exact E1.
    unfold mbind, M_bind. rewrite E2. reflexivity.
  - apply cwrites_bind; apply cwrites_cwrite; [by apply const_writes|by apply write_gc_writes].
Qed.

Lemma request_case fuel op args w h n e k q : writes args w ->
  remotely fuel op (cl h n e k q) =
    (_ ← requests fuel (op_code op) args; _ ← processStderr_with peer fuel (op_sink op) (op_source op); rd op) (cl h n e k q) ->
  remotely fuel op (cl h n e k q) =
    (_ ← processStderr_loop peer fuel (op_sink op) (op_source op); rd op) (cl (h ++ enc_int (wop_num (op_code op)) ++ w) n e k q).
Proof. intros Hw ->. apply processStderr_run. by apply cwrites_request. Qed.

(** The client sends the request that the daemon reads. *)
Lemma remote_request fuel op h n e k q : op_ok nixStore fs dfuel cwd op ->
  remotely fuel op (cl h n e k q) =
  (_ ← processStderr_loop peer fuel (op_sink op) (op_source op); rd op) (cl (h ++ enc_int (wop_num (op_code op)) ++ enc_args fs dfuel cwd op) n e k q).
Proof.
  intros Ho.
  destruct op as [p|ps| |p|p|p|p|p|p|p|y|ps|ps|p r ht f|nm y ps|p sign| |ps|p|p|p| | |opts| |ps].
  all: lazymatch goal with
  | |- remotely _ (OAddToStore ?p ?r ?ht ?f) _ = _ => exact (addToStore_request fuel p r ht f h n e k q Ho)
  | |- remotely _ (OCollectGarbage ?opts) _ = _ => exact (collectGarbage_request fuel opts h n e k q Ho)
  | _ => idtac
  end; cbn [op_ok] in Ho; cbn beta iota delta [enc_args op_sink op_source op_code].
  all: lazymatch goal with
  | |- context [enc_string ?p ++ enc_int (if ?sign then 1 else 0)] => eapply (request_case fuel (OExportPath p sign)); [|reflexivity];
      apply (writes_bind (writeString p)); [by apply writeString_writes, Ho|apply const_writes; by destruct sign]
  | |- remotely _ (OAddTextToStore ?nm ?y ?ps) _ = _ => destruct Ho as (Hn & Hy & Hps); eapply (request_case fuel (OAddTextToStore nm y ps)); [|reflexivity];
      apply (writes_bind (writeString nm)); [by apply writeString_writes|]; apply (writes_bind (writeString y)); [by apply writeString_writes|];
      exact (writeSet_writes ps (store_paths_strings _ ps Hps))
  | |- remotely _ ?o _ = (_ ≫= _) (cl (_ ++ _ ++ enc_string ?x) _ _ _ _) => apply (request_case fuel o (writeString x) (enc_string x)); [|reflexivity];
      apply writeString_writes; first [exact Ho|apply Ho]
  | |- remotely _ (OQuerySubstitutablePathInfos ?ps) _ = _ => apply (request_case fuel (OQuerySubstitutablePathInfos ps) (writeStringSet ps) (enc_set ps));
      [exact (writeSet_writes ps (store_paths_strings _ ps (proj1 Ho)))|cbn [remote]; unfold remote_querySubstitutablePathInfos; rewrite bool_decide_false by apply Ho; reflexivity]
  | |- remotely _ ?o _ = (_ ≫= _) (cl (_ ++ _ ++ enc_set ?x) _ _ _ _) => apply (request_case fuel o (writeStringSet x) (enc_set x)); [|reflexivity];
      apply writeSet_writes; first [exact Ho|exact (store_paths_strings _ _ Ho)]
  | |- remotely _ ?o _ = _ => apply (request_case fuel o no_args []); [apply writes_nil|reflexivity]
  end.
Qed.
End ClientEnd.
