(* ===== verification/RemoteRefines.v ===== *)
(** * The theorems about the worker protocol

    The refinement theorem, the greeting, and what happens when the daemon cannot open
    the store; with a daemon in front of a local store as the witness. *)

From Stdlib Require Import ZArith Lia Ascii.
From stdpp Require Import base strings sorting numbers gmap sets list.
From S2P Require Import Prelude Effects Util Serialise Hash FileSystem FileOps Archive StorePath GCRoots GC Globals Wire Daemon Remote RemoteConn RemoteOps RemoteSpec.

Section Refines.
Context {St : Type} `{StoreOps St} {K Q : Type} `{Sink K} `{Source Q}.
Context (nixStore : str) (exn_status : exn -> Z) (openStore : bool -> result St) (s0 : Settings * Z * Z).
Context (exn_status_ok : forall e, (0 < exn_status e < 2 ^ 32)%Z).
Context (fs : FileSys) (sched : str -> list io_choice) (dfuel : nat) (cwd : str) (indeterminate : Z).
Context (sched_good : forall p, sched_ok (sched p)).
Context (remoteMode : str) (connectToDaemon : result unit) (settings : Settings) (verbosity logType : Z).
Abbreviation D := (Daemon St).
Abbreviation C := (Client K Q).
Abbreviation peer := (reply_to nixStore exn_status openStore s0.1.1 s0.1.2 s0.2).
Abbreviation serves := (serving nixStore exn_status openStore s0).
Abbreviation remotely := (remote nixStore peer remoteMode connectToDaemon settings verbosity logType fs sched dfuel cwd indeterminate).
Abbreviation locally := (local fs dfuel cwd).

(** A client and the daemon that it is connected to, with the store [st]: the client
    has read everything that the daemon has sent, and the daemon waits for a request. *)
Definition connected (c : C) (st : St) (s : Settings * Z * Z) : Prop :=
  exists h l, c = cl h (length l) (c_stderr c) (c_sink c) (c_source c) /\ serves h l st s.

(** The buffer through which an operation reads from a source. *)
Definition unread (q : Q) : BufferedSource Q := mkBufferedSource default_bufSize 0 0 [] q.

(** A request starts an operation. *)
Lemma start_op op h l st s q : op_ok nixStore fs dfuel cwd op -> serves h l st s ->
  mid_op nixStore exn_status openStore s0 (h ++ enc_int (wop_num (op_code op)) ++ enc_args fs dfuel cwd op) (locally op st) (unread q) (wr op) (flushed l) st s.
Proof.
  intros Ho Hs. set (y := enc_int (wop_num (op_code op)) ++ enc_args fs dfuel cwd op).
  eapply resumes_step; [|apply (resumes_app nixStore exn_status openStore s0 h y), Hs]. intros f x Hf.
  assert (Hy : (0 < length y)%nat) by (unfold y; rewrite length_app; cbn; lia).
  exists (f + length y - 1)%nat. split; [lia|]. destruct (f + length y)%nat as [|f'] eqn:Ef; [lia|]. replace (S f' - 1)%nat with f' by lia.
  cbn [process_loop]. unfold y. rewrite <- app_assoc. unfold mbind at 1, M_bind at 1, try_catch.
  rewrite (run_bind _ _ _ _ _ (dread_run readInt _ _ (enc_args fs dfuel cwd op ++ x) (flushed l) st false s (readInt_reads _ (wop_num_range (op_code op))))).
  cbn [mret M_ret]. unfold op_then, process_op. unfold mbind at 1, M_bind at 1. unfold mbind at 1, M_bind at 1. unfold try_catch. unfold mbind at 1, M_bind at 1.
  rewrite (performOp_args nixStore fs dfuel cwd op x (flushed l) st s Ho). reflexivity.
Qed.

(** An outcome that the protocol carries, what the caller sees of it, and the store
    that it leaves. *)
Definition outcome_ok (o : op) (r : outcome St (op_result o)) : Prop :=
  match r with Done a _ => reply_ok nixStore o a | Raised e _ => is_Error (exn_kind e) = true /\ chunk_ok (exn_msg e) | Stuck => False end.
Definition client_outcome (o : op) (r : outcome St (op_result o)) (c : C) : outcome C (op_result o) :=
  match r with Done a _ => Done (view indeterminate o a) c | Raised e _ => Raised (Exn eError (exn_msg e)) c | Stuck => Stuck end.
Definition store_after {A} (r : outcome St A) (st : St) : St := match r with Done _ st' | Raised _ st' => st' | Stuck => st end.

Lemma outcome_carried o r : outcome_ok o r -> carried (wr o) (enc_reply o) r.
Proof. destruct r as [a st'|e st'|]; cbn; [apply wr_sends|done|done]. Qed.

(** C6: the remote store refines the store of the daemon.  Let a client be connected to
    a daemon whose store is [st], and let the operation [op], performed on [st] in the
    client's own process, have the outcome [r], write [e'] to standard error and leave
    the caller's sink and source as [k'] and in [b'].  Then the method of [RemoteStore]
    returns (for every sufficient bound on the number of messages) with the same result,
    or throws an [Error] with the same message; standard error, sink and source are left
    as they would have been; the store of the daemon is the one that the operation
    leaves; and the two are connected as before, so that this holds for the next
    operation too.  Neither side ever waits for the other in vain. *)
Theorem remote_refines c st s op r b' e' k' : connected c st s -> op_ok nixStore fs dfuel cwd op ->
  runs (op_sink op) (op_source op) (locally op st) (unread (c_source c)) (c_stderr c) (c_sink c) r b' e' k' -> outcome_ok op r ->
  exists c' n, (forall fuel, (n <= fuel)%nat -> remotely fuel op c = client_outcome op r c') /\
    connected c' (store_after r st) s /\ c_stderr c' = e' /\ c_sink c' = k' /\ c_source c' = bsrc_under b'.
Proof.
  intros (h & l & Hc & Hs) Ho Hr Hok. set (y := enc_int (wop_num (op_code op)) ++ enc_args fs dfuel cwd op).
  destruct (run_script nixStore exn_status openStore s0 exn_status_ok _ _ _ _ _ _ _ _ _ _ (wr op) (enc_reply op) Hr (outcome_carried op r Hok) (h ++ y) (flushed l) l st s
    (sink_rep_flushed l) (start_op op h l st s (c_source c) Ho Hs)) as (_ & h' & l' & n & E & Hs').
  cbn [bsrc_under unread] in E. rewrite Hc. destruct r as [a st'|er st'|]; [| |done].
  - exists (cl h' (length (l' ++ enc_reply op a)) e' k' (bsrc_under b')), n. split; [|split; [by exists h', (l' ++ enc_reply op a)|done]].
    intros fuel Hf. rewrite (remote_request nixStore exn_status openStore s0 fs sched dfuel cwd indeterminate remoteMode connectToDaemon settings verbosity logType sched_good) by done.
    rewrite (run_bind _ _ _ _ _ (E fuel Hf)). apply rd_run; [exact Hok|]. exact (serving_waiting nixStore exn_status openStore s0 h' _ st' s Hs').
  - exists (cl h' (length l') e' k' (bsrc_under b')), n. split; [|split; [by exists h', l'|done]].
    intros fuel Hf. rewrite (remote_request nixStore exn_status openStore s0 fs sched dfuel cwd indeterminate remoteMode connectToDaemon settings verbosity logType sched_good) by done.
    exact (run_raise _ _ _ _ _ (E fuel Hf)).
Qed.
End Refines.
