(* ===== verification/RemoteGreeting.v ===== *)
(** * Opening a connection

    The greeting and the options that the client sends: afterwards client and daemon are
    connected in the sense of [RemoteRefines], and the daemon has the client's options.
    When the daemon cannot open the store, the reason does not reach the user. *)

From Stdlib Require Import ZArith Lia Ascii.
From stdpp Require Import base strings sorting numbers gmap sets list.
From S2P Require Import Prelude Effects Util Serialise Hash FileSystem FileOps Archive StorePath GCRoots GC Globals Wire Daemon Remote RemoteConn RemoteOps RemoteSpec RemoteRefines.

(** ** The options *)

(** The settings of a daemon that has received the options of a client. *)
Definition with_options (client d : Settings) : Settings :=
  let '(mkSettings a b c d e f g h _ _ _ _ _ _ ro sys _ bt subs _ _ rs fm wal sb _ ug ch dc i26 kl cl cf pi cr ko kd ao ek m ov) := d in
  foldl (fun s i => set ($"untrusted-" ++ i.1) i.2 s)
    (mkSettings a b c d e f g h (keepFailed client) (keepGoing client) (tryFallback client) (buildVerbosity client) (maxBuildJobs client) (buildCores client) ro sys
      (maxSilentTime client) bt subs (useBuildHook client) (printBuildTrace client) rs fm wal sb (useSubstitutes client) ug ch dc i26 kl cl cf pi cr ko kd ao ek m ov)
    (map_iter (getOverrides client)).

Definition int_ok (n : Z) : Prop := (0 <= n < 2 ^ 32)%Z.
Definition options_ok (s : Settings) (verbosity logType : Z) : Prop :=
  int_ok verbosity /\ int_ok logType /\ int_ok (maxBuildJobs s) /\ int_ok (maxSilentTime s) /\ int_ok (buildVerbosity s) /\ int_ok (buildCores s) /\
  (Z.of_nat (size (overrides s)) < 2 ^ 32)%Z /\ Forall (fun i => chunk_ok i.1 /\ chunk_ok i.2) (map_iter (overrides s)).

Definition enc_options (s : Settings) (verbosity logType : Z) : str :=
  enc_int (b2z (keepFailed s)) ++ enc_int (b2z (keepGoing s)) ++ enc_int (b2z (tryFallback s)) ++ enc_int verbosity ++ enc_int (maxBuildJobs s) ++
  enc_int (maxSilentTime s) ++ enc_int (b2z (useBuildHook s)) ++ (enc_int (buildVerbosity s) ++ enc_int logType ++ enc_int (b2z (printBuildTrace s))) ++
  enc_int (buildCores s) ++ enc_int (b2z (useSubstitutes s)) ++
  enc_int (Z.of_nat (size (overrides s))) ++ concat (map (fun i => enc_string i.1 ++ enc_string i.2) (map_iter (overrides s))).

Lemma read_overrides_reads l : Forall (fun i : str * str => chunk_ok i.1 /\ chunk_ok i.2) l -> forall s,
  reads (fun x : Sock => read_overrides (length l) s x) (concat (map (fun i => enc_string i.1 ++ enc_string i.2) l)) (foldl (fun s i => set ($"untrusted-" ++ i.1) i.2 s) s l).
Proof.
  induction 1 as [|i l [Hn Hv] _ IH]; intros s; [apply reads_ret|]. cbn [length map concat foldl read_overrides]. rewrite <- app_assoc.
  apply (reads_bind readString _ _ _ i.1); [by apply readString_reads|]. apply (reads_bind readString _ _ _ i.2); [by apply readString_reads|]. apply IH.
Qed.

Section DaemonOptions.
Context {St : Type} `{StoreOps St}.

Lemma perform_setOptions_run (s : Settings) v t x o l (st : St) (ds : Settings * Z * Z) : options_ok s v t -> sink_rep o l ->
  exists o', perform_setOptions (St := St) PROTOCOL_VERSION (dm (enc_options s v t ++ x) o st false ds) = Done tt (dm x o' st false (with_options s ds.1.1, v, t)) /\
    sink_rep o' (l ++ msg_last).
Proof.
  intros (Hv & Ht & Hmj & Hms & Hbv & Hbc & Hn & Hf) Hl.
  destruct (stopWork_ok_run x o l st (with_options s ds.1.1, v, t) Hl) as (o1 & E1 & R1). exists o1. split; [|done].
  unfold perform_setOptions. rewrite (run_bind _ _ _ ds.1.1 (dm (enc_options s v t ++ x) o st false ds)) by done.
  rewrite (run_bind _ _ _ ds.2 (dm (enc_options s v t ++ x) o st false ds)) by done.
  destruct ds as [[d dv] dt]. cbn [fst snd] in *. unfold with_options in *. destruct d as [w0 w1 w2 w3 w4 w5 w6 w7 w8 w9 w10 w11 w12 w13 w14 w15 w16 w17 w18 w19 w20 w21 w22 w23 w24 w25 w26 w27 w28 w29 w30 w31 w32 w33 w34 w35 w36 w37 w38 w39 w40]. unfold enc_options. rewrite <- !app_assoc.
  rewrite (dget_run readBool _ _ _ _ o st false _ (readBool_reads (keepFailed s))), (dget_run readBool _ _ _ _ o st false _ (readBool_reads (keepGoing s))).
  rewrite (dget_run readBool _ _ _ _ o st false _ (readBool_reads (tryFallback s))), (dget_run readInt _ _ _ _ o st false _ (readInt_reads v Hv)).
  rewrite (dget_run readInt _ _ _ _ o st false _ (readInt_reads _ Hmj)), (dget_run readInt _ _ _ _ o st false _ (readInt_reads _ Hms)).
  change (2 <=? GET_PROTOCOL_MINOR PROTOCOL_VERSION)%Z with true. change (4 <=? GET_PROTOCOL_MINOR PROTOCOL_VERSION)%Z with true.
  change (6 <=? GET_PROTOCOL_MINOR PROTOCOL_VERSION)%Z with true. change (10 <=? GET_PROTOCOL_MINOR PROTOCOL_VERSION)%Z with true.
  change (12 <=? GET_PROTOCOL_MINOR PROTOCOL_VERSION)%Z with true. cbn match.
  rewrite (dget_run readBool _ _ _ _ o st false _ (readBool_reads (useBuildHook s))).
  erewrite run_bind; [|rewrite (dget_run readInt _ _ _ _ o st false _ (readInt_reads _ Hbv)), (dget_run readInt _ _ _ _ o st false _ (readInt_reads _ Ht)),
    (dget_run readBool _ _ _ _ o st false _ (readBool_reads (printBuildTrace s))); reflexivity].
  cbv beta iota.
  rewrite (dget_run readInt _ _ _ _ o st false _ (readInt_reads _ Hbc)), (dget_run readBool _ _ _ _ o st false _ (readBool_reads (useSubstitutes s))).
  erewrite run_bind; [|rewrite (dget_run readInt _ _ _ _ o st false _ (readInt_reads _ (conj (Nat2Z.is_nonneg _) Hn)));
    rewrite Nat2Z.id, <- length_map_iter; apply dread_run, read_overrides_reads, Hf].
  exact E1.
Qed.
End DaemonOptions.

(** ** The greeting *)

Section Greeting.
Context {St : Type} `{StoreOps St} {K Q : Type} `{Sink K} `{Source Q}.
Context (nixStore : str) (exn_status : exn -> Z) (openStore : bool -> result St) (s0 : Settings * Z * Z).
Context (settings : Settings) (verbosity logType : Z).
Abbreviation D := (Daemon St).
Abbreviation C := (Client K Q).
Abbreviation peer := (reply_to nixStore exn_status openStore s0.1.1 s0.1.2 s0.2).
Abbreviation loop := (process_loop nixStore exn_status).
Abbreviation resume := (resumes nixStore exn_status openStore s0).

Definition greeting : str := enc_int WORKER_MAGIC_2 ++ enc_int PROTOCOL_VERSION.

(** The daemon before it has a store. *)
Definition pre (x : str) (o : Out) (can : bool) : D := mkDaemon (mkSock x true) o None can s0.1.1 s0.1.2 s0.2.

(** After the greeting. *)
Definition await_version (f : nat) : M D unit :=
  clientVersion ← dread readInt;
  reserveSpace ← (if (11 <=? GET_PROTOCOL_MINOR clientVersion)%Z then dread readBool else mret true);
  _ ← startWork;
  ok ← start_store openStore reserveSpace;
  if (ok : bool) then loop f clientVersion else mret tt.

Lemma pre_read {A} (f : Sock -> result (A * Sock)) e a x o can : reads f e a -> dread f (pre (e ++ x) o can) = Done a (pre x o can).
Proof.
  intros Hf. destruct (Hf (mkSock (e ++ x) true) x eq_refl eq_refl) as ([i b] & E & Hb & Hi). cbn in Hb, Hi. subst. unfold dread. cbn [d_from pre]. by rewrite E.
Qed.
Lemma pre_write (f : Out -> result Out) w x o l can : writes f w -> sink_rep o l -> exists o', dwrite f (pre x o can) = Done tt (pre x o' can) /\ sink_rep o' (l ++ w).
Proof. intros Hf Hl. destruct (Hf o l Hl) as (o' & E & R). exists o'. split; [|done]. unfold dwrite, update. cbn [d_to pre]. by rewrite E. Qed.

Lemma daemon_greets : resume (enc_int WORKER_MAGIC_1) (fun f x => await_version f (pre x (flushed greeting) false)).
Proof.
  intros x. exists (S (length (enc_int WORKER_MAGIC_1 ++ x))). split; [rewrite length_app; lia|]. unfold processConnection.
  change (connect _ _ _ _) with (pre (enc_int WORKER_MAGIC_1 ++ x) (flushed []) false).
  rewrite (run_bind _ _ _ _ _ (pre_read readInt _ _ x _ false (const_reads WORKER_MAGIC_1 eq_refl))). rewrite Z.eqb_refl. cbn [negb].
  destruct (pre_write (writeInt WORKER_MAGIC_2) _ x (flushed []) [] false (const_writes WORKER_MAGIC_2 eq_refl) (sink_rep_flushed [])) as (o1 & E1 & R1).
  rewrite (run_bind _ _ _ _ _ E1). destruct (pre_write (writeInt PROTOCOL_VERSION) _ x o1 _ false (const_writes PROTOCOL_VERSION eq_refl) R1) as (o2 & E2 & R2).
  rewrite (run_bind _ _ _ _ _ E2). rewrite (run_bind _ _ _ tt (pre x (flushed greeting) false)); [done|].
  unfold dflush, dwrite, update. cbn [d_to pre]. by rewrite (flush_sent o2 _ R2).
Qed.

Lemma greeting_sent : peer (enc_int WORKER_MAGIC_1) = (greeting, true).
Proof. eapply resumes_waiting; [|exact daemon_greets]. intros f Hf. eexists. split; [reflexivity|done]. Qed.

(** The client's answer. *)
Definition hello (reserveSpace : bool) : str := enc_int PROTOCOL_VERSION ++ enc_int (b2z reserveSpace).

Lemma daemon_hello reserveSpace :
  resume (enc_int WORKER_MAGIC_1 ++ hello reserveSpace) (fun f x =>
    (ok ← start_store openStore reserveSpace; if (ok : bool) then loop f PROTOCOL_VERSION else mret tt) (pre x (flushed greeting) true)).
Proof.
  eapply resumes_step; [|apply resumes_app, daemon_greets]. intros f x Hf. exists (f + length (hello reserveSpace))%nat. split; [lia|].
  unfold await_version, hello. rewrite <- app_assoc. rewrite (run_bind _ _ _ _ _ (pre_read readInt _ _ _ _ false (const_reads PROTOCOL_VERSION eq_refl))).
  change (11 <=? GET_PROTOCOL_MINOR PROTOCOL_VERSION)%Z with true. cbn match. by rewrite (run_bind _ _ _ _ _ (pre_read readBool _ _ x _ false (readBool_reads reserveSpace))).
Qed.

Lemma daemon_opens reserveSpace st : openStore reserveSpace = Ok st ->
  serving nixStore exn_status openStore s0 (enc_int WORKER_MAGIC_1 ++ hello reserveSpace) (greeting ++ msg_last) st s0.
Proof.
  intros Hst. eapply resumes_ext; [|apply daemon_hello]. intros f x. unfold start_store. unfold mbind at 1, M_bind at 1, try_catch.
  rewrite (run_bind _ _ _ st (pre x (flushed greeting) true)) by (unfold lift; by rewrite Hst).
  rewrite (run_bind _ _ _ tt (dm x (flushed greeting) st true s0)) by done.
  destruct (stopWork_ok_run x (flushed greeting) greeting st s0 (sink_rep_flushed greeting)) as (o1 & E1 & R1). rewrite (run_bind _ _ _ _ _ E1).
  by rewrite (run_bind _ _ _ _ _ (dflush_run x o1 _ st false s0 R1)).
Qed.

(** The options are one more request. *)
Lemma daemon_options h l st s : options_ok settings verbosity logType -> serving nixStore exn_status openStore s0 h l st s ->
  serving nixStore exn_status openStore s0 (h ++ enc_int (wop_num wopSetOptions) ++ enc_options settings verbosity logType) (l ++ msg_last) st
    (with_options settings s.1.1, verbosity, logType).
Proof.
  intros Ho Hs. set (y := enc_int (wop_num wopSetOptions) ++ enc_options settings verbosity logType).
  eapply resumes_step; [|apply (resumes_app nixStore exn_status openStore s0 h y), Hs]. intros f x Hf.
  assert (Hy : (0 < length y)%nat) by (unfold y; rewrite length_app; cbn; lia).
  exists (f + length y - 1)%nat. split; [lia|]. destruct (f + length y)%nat as [|f'] eqn:Ef; [lia|]. replace (S f' - 1)%nat with f' by lia.
  cbn [process_loop]. unfold y. rewrite <- app_assoc. unfold mbind at 1, M_bind at 1, try_catch.
  rewrite (run_bind _ _ _ _ _ (dread_run readInt _ _ (enc_options settings verbosity logType ++ x) (flushed l) st false s (readInt_reads _ (wop_num_range wopSetOptions)))).
  cbn [mret M_ret]. destruct (perform_setOptions_run settings verbosity logType x (flushed l) l st s Ho (sink_rep_flushed l)) as (o1 & E1 & R1).
  unfold process_op. unfold mbind at 1, M_bind at 1, try_catch. unfold performOp at 1. rewrite wop_of_num. rewrite (run_bind _ _ _ _ _ E1). unfold after_op. cbn [mret M_ret negb].
  by rewrite (run_bind _ _ _ _ _ (dflush_run x o1 _ st false _ R1)).
Qed.

(** ** The client *)

Definition fresh_client (v : Z) (e : str) (k : K) (q : Q) : C := mkClient (flushed []) 0 false v e k q.

Lemma write_overrides_writes (m : SettingsMap) : (Z.of_nat (size m) < 2 ^ 32)%Z -> Forall (fun i => chunk_ok i.1 /\ chunk_ok i.2) (map_iter m) ->
  writes (fun o : Out => write_overrides m o) (enc_int (Z.of_nat (size m)) ++ concat (map (fun i => enc_string i.1 ++ enc_string i.2) (map_iter m))).
Proof.
  intros Hn Hf. unfold write_overrides. apply (writes_bind (writeInt _)); [apply writeInt_writes; exact (conj (Nat2Z.is_nonneg _) Hn)|].
  apply (writes_foldM (fun to i => to ← writeString i.1 to; writeString i.2 to)). intros i Hi. rewrite Forall_forall in Hf. destruct (Hf i Hi) as [H1' H2'].
  apply (writes_bind (writeString i.1)); by apply writeString_writes.
Qed.

Lemma write_options_writes : options_ok settings verbosity logType ->
  writes (fun o : Out => write_options settings verbosity logType PROTOCOL_VERSION o) (enc_options settings verbosity logType).
Proof.
  intros (Hv & Ht & Hmj & Hms & Hbv & Hbc & Hn & Hf). unfold write_options, enc_options.
  assert (Hb : forall b, writes (fun o : Out => writeInt (b2z b) o) (enc_int (b2z b))) by (intros b; apply const_writes; by destruct b).
  change (2 <=? GET_PROTOCOL_MINOR PROTOCOL_VERSION)%Z with true. change (4 <=? GET_PROTOCOL_MINOR PROTOCOL_VERSION)%Z with true.
  change (6 <=? GET_PROTOCOL_MINOR PROTOCOL_VERSION)%Z with true. change (10 <=? GET_PROTOCOL_MINOR PROTOCOL_VERSION)%Z with true.
  change (12 <=? GET_PROTOCOL_MINOR PROTOCOL_VERSION)%Z with true. cbv beta iota zeta.
  apply (writes_bind (writeInt _)); [apply Hb|]. apply (writes_bind (writeInt _)); [apply Hb|]. apply (writes_bind (writeInt _)); [apply Hb|].
  apply (writes_bind (writeInt _)); [exact (writeInt_writes _ Hv)|]. apply (writes_bind (writeInt _)); [exact (writeInt_writes _ Hmj)|].
  apply (writes_bind (writeInt _)); [exact (writeInt_writes _ Hms)|]. apply (writes_bind (writeInt _)); [apply Hb|].
  apply (writes_bind (fun to => to ← writeInt (buildVerbosity settings) to; to ← writeInt logType to; writeInt (b2z (printBuildTrace settings)) to)).
  { apply (writes_bind (writeInt _)); [exact (writeInt_writes _ Hbv)|]. apply (writes_bind (writeInt _)); [exact (writeInt_writes _ Ht)|apply Hb]. }
  apply (writes_bind (writeInt _)); [exact (writeInt_writes _ Hbc)|]. apply (writes_bind (writeInt _)); [apply Hb|]. exact (write_overrides_writes _ Hn Hf).
Qed.

Lemma setOptions_request fuel h n e k q : options_ok settings verbosity logType ->
  setOptions peer settings verbosity logType fuel (cl h n e k q) =
  (_ ← processStderr_loop peer fuel false false; mret tt) (cl (h ++ enc_int (wop_num wopSetOptions) ++ enc_options settings verbosity logType) n e k q).
Proof.
  intros Ho. rewrite <- (processStderr_run nixStore exn_status openStore s0 fuel (_ ← cwrite (writeInt (wop_num wopSetOptions)); cwrite (write_options settings verbosity logType PROTOCOL_VERSION))).
  - unfold setOptions.
    destruct (cwrites_cwrite _ _ (const_writes (wop_num wopSetOptions) eq_refl) h n e k q (flushed h) h (sink_rep_flushed h)) as (o1 & E1 & R1).
    assert (E2 : cwrite (writeInt (wop_num wopSetOptions)) (cl h n e k q) = Done tt (set_cto o1 (cl h n e k q))) by exact E1.
    destruct (cwrites_cwrite _ _ (write_options_writes Ho) h n e k q o1 _ R1) as (o2 & E3 & _).
    assert (E4 : cwrite (write_options settings verbosity logType PROTOCOL_VERSION) (set_cto o1 (cl h n e k q)) = Done tt (set_cto o2 (cl h n e k q))) by exact E3.
    rewrite (run_bind _ _ _ _ _ E2). rewrite (run_bind _ _ _ PROTOCOL_VERSION (set_cto o1 (cl h n e k q))) by done. rewrite (run_bind _ _ _ _ _ E4).
    unfold mbind, M_bind. rewrite E2, E4. unfold processStderr. by destruct (processStderr_with _ _ _ _ _) as [[]| |].
  - apply cwrites_bind; apply cwrites_cwrite; [by apply const_writes|by apply write_options_writes].
Qed.

(** Reading, whether or not the daemon is still there. *)
Lemma cread_any {A} (f : Sock -> result (A * Sock)) b d a h l rest v e (k : K) (q : Q) :
  reads (H := Sock_source) (H0 := Sock_laws b) f d a -> peer h = (l ++ d ++ rest, b) ->
  cread peer f (mkClient (flushed h) (length l) true v e k q) = Done a (mkClient (flushed h) (length (l ++ d)) true v e k q).
Proof.
  intros Hf Hp. unfold cread. cbn [c_to c_read flushed bs_under]. rewrite Hp.
  destruct (Hf (mkSock (drop (length l) (l ++ d ++ rest)) b) rest eq_refl) as ([i b'] & E & _ & Hi).
  { cbn. by rewrite drop_app_length. }
  rewrite E. cbn in Hi. subst i. cbn [sk_in]. do 2 f_equal. rewrite !length_app. lia.
Qed.

(** The first half of the greeting. *)
Lemma greet_hello fuel reserveSpace v e (k : K) (q : Q) :
  greet peer fuel reserveSpace (mkClient (flushed []) 0 true v e k q) =
  processStderr_loop peer fuel false false (cl (enc_int WORKER_MAGIC_1 ++ hello reserveSpace) (length greeting) e k q).
Proof.
  unfold greet. destruct (const_writes WORKER_MAGIC_1 eq_refl (flushed []) [] (sink_rep_flushed [])) as (o1 & E1 & R1).
  rewrite (run_bind _ _ _ tt (mkClient o1 0 true v e k q)) by (unfold cwrite, update; cbn [c_to]; by rewrite E1).
  rewrite (run_bind _ _ _ tt (mkClient (flushed (enc_int WORKER_MAGIC_1)) 0 true v e k q)) by (unfold cflush, cwrite, update; cbn [c_to]; by rewrite (flush_sent o1 _ R1)).
  rewrite (run_bind _ _ _ _ _ (cread_any readInt true _ _ (enc_int WORKER_MAGIC_1) [] _ v e k q (const_reads WORKER_MAGIC_2 eq_refl) greeting_sent)).
  rewrite Z.eqb_refl. cbn [negb].
  rewrite (run_bind _ _ _ _ _ (cread_any readInt true _ _ (enc_int WORKER_MAGIC_1) (enc_int WORKER_MAGIC_2) [] v e k q (const_reads PROTOCOL_VERSION eq_refl)
    ltac:(rewrite app_nil_r; exact greeting_sent))).
  rewrite (run_bind _ _ _ tt (cl (enc_int WORKER_MAGIC_1) (length greeting) e k q)) by done. rewrite Z.eqb_refl. cbn [negb].
  change (11 <=? GET_PROTOCOL_MINOR PROTOCOL_VERSION)%Z with true. cbn match.
  assert (Hm : cwrites (K := K) (Q := Q) (_ ← cwrite (writeInt PROTOCOL_VERSION); cwrite (writeInt (b2z reserveSpace))) (hello reserveSpace)).
  { apply cwrites_bind; apply cwrites_cwrite, const_writes; [done|by destruct reserveSpace]. }
  destruct (Hm (enc_int WORKER_MAGIC_1) (length greeting) e k q (flushed (enc_int WORKER_MAGIC_1)) _ (sink_rep_flushed _)) as (o2 & E2 & R2).
  apply run_bind_Done in E2 as ([] & c2 & E2 & E3).
  assert (E2' : cwrite (writeInt PROTOCOL_VERSION) (cl (enc_int WORKER_MAGIC_1) (length greeting) e k q) = Done tt c2) by exact E2.
  rewrite (run_bind _ _ _ _ _ E2'), (run_bind _ _ _ _ _ E3). unfold processStderr, processStderr_with.
  by rewrite (run_bind _ _ _ _ _ (cflush_run _ _ e k q o2 _ R2)).
Qed.

Lemma open_connects fuel reserveSpace st v e (k : K) (q : Q) : (0 < fuel)%nat -> openStore reserveSpace = Ok st -> options_ok settings verbosity logType ->
  exists c, openConnection peer ($"daemon") (Ok tt) settings verbosity logType fuel reserveSpace (fresh_client v e k q) = Done tt c /\
    connected nixStore exn_status openStore s0 c st (with_options settings s0.1.1, verbosity, logType) /\ c_stderr c = e /\ c_sink c = k /\ c_source c = q.
Proof.
  intros Hf Hst Ho. destruct fuel as [|fuel]; [lia|]. pose proof (daemon_opens reserveSpace st Hst) as Hs. pose proof (daemon_options _ _ st s0 Ho Hs) as Hs2.
  pose proof (serving_waiting nixStore exn_status openStore s0 _ _ _ _ Hs) as Hp. pose proof (serving_waiting nixStore exn_status openStore s0 _ _ _ _ Hs2) as Hp2.
  eexists (cl _ (length _) e k q). split; [|split; [eexists _, _; split; [reflexivity|exact Hs2]|done]].
  unfold openConnection. rewrite (run_bind _ _ _ false (fresh_client v e k q)) by done. cbn match. rewrite (run_bind _ _ _ v (fresh_client v e k q)) by done.
  rewrite (run_bind _ _ _ tt (mkClient (flushed []) 0 true v e k q)) by done. rewrite str_eqb_refl. cbn [negb].
  rewrite (run_bind _ _ _ tt (mkClient (flushed []) 0 true v e k q)) by done.
  erewrite run_bind; [|unfold try_catch; rewrite greet_hello;
    rewrite (stderr_last nixStore exn_status openStore s0 fuel false false _ greeting [] e k q) by (rewrite app_nil_r; exact Hp); reflexivity].
  rewrite setOptions_request by done.
  by rewrite (run_bind _ _ _ _ _ (stderr_last nixStore exn_status openStore s0 fuel false false _ (greeting ++ msg_last) [] e k q ltac:(rewrite app_nil_r; exact Hp2))).
Qed.

(** Opening a connection.  If the daemon can open the store, [openConnection] returns;
    then the client is connected to a daemon with that store, and the daemon's settings
    are its own with the client's options, and the client's overrides under names that
    mark them as untrusted. *)
Theorem openConnection_connects fuel reserveSpace st v e (k : K) (q : Q) : (0 < fuel)%nat -> openStore reserveSpace = Ok st -> options_ok settings verbosity logType ->
  exists c, openConnection peer ($"daemon") (Ok tt) settings verbosity logType fuel reserveSpace (fresh_client v e k q) = Done tt c /\
    connected nixStore exn_status openStore s0 c st (with_options settings s0.1.1, verbosity, logType) /\ c_stderr c = e /\ c_sink c = k /\ c_source c = q.
Proof. apply open_connects. Qed.

(** A daemon that cannot open the store sends the reason without a status, and exits. *)
Lemma daemon_refuses reserveSpace er : openStore reserveSpace = Throw er -> is_Error (exn_kind er) = true -> chunk_ok (exn_msg er) ->
  peer (enc_int WORKER_MAGIC_1 ++ hello reserveSpace) = (greeting ++ enc_int STDERR_ERROR ++ enc_string (exn_msg er), false).
Proof.
  intros Hst He Hm. destruct (daemon_hello reserveSpace []) as (f & Hf & E). rewrite app_nil_r in E.
  destruct (pre_write (writeInt STDERR_ERROR) _ [] (flushed greeting) greeting false (const_writes STDERR_ERROR eq_refl) (sink_rep_flushed greeting)) as (o1 & E1 & R1).
  destruct (pre_write (writeString (exn_msg er)) _ [] o1 _ false (writeString_writes _ Hm) R1) as (o2 & E2 & R2). rewrite <- app_assoc in R2.
  assert (Es : start_store openStore reserveSpace (pre [] (flushed greeting) true) = Done false (pre [] (flushed (greeting ++ enc_int STDERR_ERROR ++ enc_string (exn_msg er))) false)).
  { unfold start_store, try_catch. rewrite (run_raise _ _ _ er (pre [] (flushed greeting) true)) by (unfold lift; by rewrite Hst). rewrite He.
    rewrite (run_bind _ _ _ tt (pre [] o2 false)).
    - rewrite (run_bind _ _ _ tt (pre [] (flushed (greeting ++ enc_int STDERR_ERROR ++ enc_string (exn_msg er))) false)); [done|].
      unfold dflush, dwrite, update. cbn [d_to pre]. by rewrite (flush_sent o2 _ R2).
    - unfold stopWork_error. rewrite (run_bind _ _ _ tt (pre [] (flushed greeting) false)) by done. by rewrite (run_bind _ _ _ _ _ E1), (run_bind _ _ _ _ _ E2). }
  rewrite (run_bind _ _ _ _ _ Es) in E. unfold reply_to, serve. unfold mbind at 1, M_bind at 1, try_catch. rewrite E. reflexivity.
Qed.

(** C34: when the daemon cannot open the store, the reason is lost.  [processConnection]
    sends the message of the error, but without the status that [processStderr] expects
    after it; so whatever the error is, [openConnection] fails with the message that the
    end of the file was not expected. *)
Theorem startup_error_lost fuel reserveSpace er v e (k : K) (q : Q) : (0 < fuel)%nat ->
  openStore reserveSpace = Throw er -> is_Error (exn_kind er) = true -> chunk_ok (exn_msg er) ->
  exists c, openConnection peer ($"daemon") (Ok tt) settings verbosity logType fuel reserveSpace (fresh_client v e k q) =
    Raised (Exn eError ($"cannot start worker (" ++ $"unexpected end-of-file" ++ $")")) c.
Proof.
  intros Hf Hst He Hm. destruct fuel as [|fuel]; [lia|]. pose proof (daemon_refuses reserveSpace er Hst He Hm) as Hp. eexists.
  unfold openConnection. rewrite (run_bind _ _ _ false (fresh_client v e k q)) by done. cbn match. rewrite (run_bind _ _ _ v (fresh_client v e k q)) by done.
  rewrite (run_bind _ _ _ tt (mkClient (flushed []) 0 true v e k q)) by done. rewrite str_eqb_refl. cbn [negb].
  rewrite (run_bind _ _ _ tt (mkClient (flushed []) 0 true v e k q)) by done.
  apply run_raise. unfold try_catch. rewrite greet_hello. cbn [processStderr_loop].
  assert (Hci : reads (H := Sock_source) (H0 := Sock_laws false) (fun s : Sock => readInt s) (enc_int STDERR_ERROR) STDERR_ERROR) by (apply readInt_reads; unfold STDERR_ERROR; lia).
  assert (Hcs : reads (H := Sock_source) (H0 := Sock_laws false) (fun s : Sock => readString s) (enc_string (exn_msg er)) (exn_msg er)) by (by apply readString_reads).
  rewrite (run_bind _ _ _ _ _ (cread_any readInt false _ _ _ greeting _ PROTOCOL_VERSION e k q Hci Hp)). cbn [Z.eqb orb STDERR_NEXT STDERR_WRITE STDERR_READ STDERR_ERROR Pos.eqb].
  rewrite app_assoc in Hp. rewrite <- (app_nil_r (enc_string (exn_msg er))) in Hp.
  rewrite (run_bind _ _ _ _ _ (cread_any readString false _ _ _ _ _ PROTOCOL_VERSION e k q Hcs Hp)).
  set (c := mkClient _ _ _ _ _ _ _). rewrite (run_bind _ _ _ PROTOCOL_VERSION c) by done. change (8 <=? GET_PROTOCOL_MINOR PROTOCOL_VERSION)%Z with true. cbn match.
  assert (Er : cread peer readInt c = Raised (Exn eEndOfFile ($"unexpected end-of-file")) c); [|by rewrite (run_raise _ _ _ _ _ Er)].
  unfold cread, c. cbn [c_to c_read flushed bs_under]. rewrite Hp, app_nil_r. rewrite drop_ge by done. reflexivity.
Qed.
End Greeting.
