(* ===== verification/RemoteLocal.v ===== *)
(** * A daemon in front of a local store

    The queries of [LocalStore] as operations that a daemon can perform, and a session:
    a client opens a connection and asks a question. *)

From Stdlib Require Import ZArith Lia Ascii.
From stdpp Require Import base strings sorting numbers gmap sets list.
From S2P Require Import Prelude Effects Util Serialise Hash FileSystem FileOps Archive StorePath Closure LocalStore GCRoots GC Globals Wire Daemon Remote RemoteConn RemoteOps RemoteSpec RemoteRefines RemoteGreeting.

(** A query does not change the store. *)
Definition query {A} (f : LocalStore -> result A) : storeOp LocalStore A := fun st =>
  SEnd (match f st with Ok a => Done a st | Throw e => Raised e st | NoFuel => Stuck end).
(** The operations that need more than the database. *)
Definition not_here {A} : storeOp LocalStore A := fun st => SEnd (Raised (Exn eError ($"operation not supported")) st).

#[local] Instance local_queries (nixStore : str) : StoreOps LocalStore := {|
  so_isValidPath p := query (fun st => ls_isValidPath st p);
  so_queryValidPaths ps := query (fun st => queryValidPaths st ps);
  so_queryAllValidPaths := query (fun st => Ok (queryAllValidPaths st));
  so_queryPathInfo p := query (fun st => queryPathInfo nixStore st p);
  so_queryPathHash p := query (fun st => queryPathHash nixStore st p);
  so_queryReferences p := query (fun st => ls_queryReferences nixStore st p);
  so_queryReferrers p := query (fun st => ls_queryReferrers nixStore st p);
  so_queryDeriver p := query (fun st => queryDeriver nixStore st p);
  so_queryDerivationOutputs p := query (fun st => ls_queryDerivationOutputs st p);
  so_queryDerivationOutputNames p := query (fun st => queryDerivationOutputNames st p);
  so_queryPathFromHashPart s := query (fun st => queryPathFromHashPart nixStore st s);
  so_querySubstitutablePaths _ := not_here; so_querySubstitutablePathInfos _ := not_here;
  so_addToStoreFromDump _ _ _ _ := not_here; so_addTextToStore _ _ _ := not_here; so_exportPath _ _ := not_here; so_importPaths _ := not_here;
  so_buildPaths _ := not_here; so_ensurePath _ := not_here; so_addTempRoot _ := not_here; so_addIndirectRoot _ := not_here; so_syncWithGC := not_here;
  so_findRoots := not_here; so_collectGarbage _ := not_here;
  so_queryFailedPaths := query (fun st => Ok (queryFailedPaths st));
  so_clearFailedPaths ps := fun st => SEnd (Done tt (clearFailedPaths st ps)) |}.

Module Session.
Definition settings : Settings := set ($"build-cores") ($"4") (Settings_default ($"x86_64-linux")).
Definition options : Settings * Z * Z := (settings, 3%Z, 0%Z).
Definition status (e : exn) : Z := 1.
Definition opens (reserveSpace : bool) : result LocalStore := Ok sample_db.
Definition fails (reserveSpace : bool) : result LocalStore := error ($"disk is full").
#[export] Instance ops : StoreOps LocalStore := local_queries sample_store.
Definition client : Client StringSink StringSource := fresh_client 0 [] (mkStringSink []) (mkStringSource [] 0).
Definition peer := reply_to sample_store status opens settings 3 0.
Definition start (fuel : nat) : M (Client StringSink StringSource) unit := openConnection peer ($"daemon") (Ok tt) settings 3 0 fuel true.
Definition references (fuel : nat) (p : str) := remote_queryReferences (K := StringSink) (Q := StringSource) sample_store peer ($"daemon") (Ok tt) settings 3 0 fuel p ∅.

Lemma options_fit : options_ok settings 3 0.
Proof.
  assert (Hi : forall n, (0 <=? n)%Z && (n <? 2 ^ 32)%Z = true -> int_ok n) by (intros n Hn; reflect; unfold int_ok; lia).
  do 6 (split; [by apply Hi|]). split; [reflexivity|].
  assert (Em : map_iter (overrides settings) = [($"build-cores", $"4")]) by (vm_compute; reflexivity). rewrite Em.
  repeat constructor; reflexivity.
Qed.
Lemma status_ok e : (0 < status e < 2 ^ 32)%Z.
Proof. unfold status. lia. Qed.
End Session.
#[local] Existing Instance Session.ops.

Lemma openConnection_connects_witness :
  exists c, Session.start 5 Session.client = Done tt c /\
    connected sample_store Session.status Session.opens Session.options c sample_db (with_options Session.settings Session.settings, 3, 0)%Z.
Proof.
  destruct (openConnection_connects sample_store Session.status Session.opens Session.options Session.settings 3 0 5 true sample_db 0 [] (mkStringSink []) (mkStringSource [] 0)
    ltac:(lia) eq_refl Session.options_fit) as (c & E & Hc & _). exists c. split; [exact E|exact Hc].
Defined.

Lemma startup_error_lost_witness :
  exists c, openConnection (K := StringSink) (Q := StringSource) (reply_to sample_store Session.status Session.fails Session.settings 3 0) ($"daemon") (Ok tt) Session.settings 3 0 5 true Session.client =
    Raised (Exn eError ($"cannot start worker (unexpected end-of-file)")) c.
Proof.
  exact (startup_error_lost sample_store Session.status Session.fails Session.options Session.settings 3 0 5 true (Exn eError ($"disk is full")) 0 [] (mkStringSink []) (mkStringSource [] 0)
    ltac:(lia) eq_refl eq_refl ltac:(vm_compute; reflexivity)).
Defined.

(** A client connects and asks for the references of a path. *)
Lemma remote_refines_witness :
  exists c c' n, Session.start 5 Session.client = Done tt c /\ (forall fuel, (n <= fuel)%nat -> Session.references fuel path_a c = Done {[path_a; path_b]} c').
Proof.
  destruct (open_connects sample_store Session.status Session.opens Session.options Session.settings 3 0 5 true sample_db 0 [] (mkStringSink []) (mkStringSource [] 0)
    ltac:(lia) eq_refl Session.options_fit) as (c & E & Hc & He & Hk & Hq).
  destruct (remote_refines (K := StringSink) (Q := StringSource) sample_store Session.status Session.opens Session.options Session.status_ok ∅ (fun _ => []) 0 [] 0 ltac:(intros p; apply sched_ok_nil) ($"daemon") (Ok tt)
    Session.settings 3 0 c sample_db _ (OQueryReferences path_a) (Done {[path_a; path_b]} sample_db) (unread (c_source c)) (c_stderr c) (c_sink c) Hc) as (c' & n & E' & _).
  - split; [reflexivity|vm_compute; reflexivity].
  - assert (El : local ∅ 0 [] (OQueryReferences path_a) sample_db = SEnd (Done {[path_a; path_b]} sample_db)) by (vm_compute; reflexivity). rewrite El. constructor.
  - split; [reflexivity|]. assert (Es : set_iter {[path_a; path_b]} = [path_a; path_b]) by (vm_compute; reflexivity).
    change (Forall (store_path_ok sample_store) (set_iter {[path_a; path_b]})). rewrite Es.
    constructor; [split; reflexivity|]. constructor; [split; reflexivity|constructor].
  - exists c, c', n. split; [exact E|exact E'].
Defined.
