(* ===== verification/NixExpr.v ===== *)
(** * Expressions and the binding of variables (src/src/libexpr/nixexpr.cc, nixexpr.hh)

    The syntax trees of the expression language and [bindVars], which finds for each
    variable the number of environments to go up and the place in the environment
    where evaluation will look.  Binding a bound expression again changes nothing;
    the evaluator's theorems use "binding [e] gives [e]" as their notion of a bound
    expression. *)

From Stdlib Require Import ZArith Lia Ascii Relations.
From stdpp Require Import base strings sorting numbers gmap sets list.
From S2P Require Import Prelude Effects Util.

(** ** Symbols

    A [Symbol] is a pointer into the symbol table, which has one copy of each
    string.  So a symbol is its string, compared by address: an injective function. *)

Class SymbolTable : Type := sym_addr : str -> N.
Class SymbolLaws `{SymbolTable} : Prop := sym_addr_inj :: Inj (=) (=) sym_addr.
Definition sym_ltb `{SymbolTable} (a b : str) : bool := (sym_addr a <? sym_addr b)%N.

(** ** Syntax *)

Record Pos : Type := mkPos { pos_file : str; pos_line : Z; pos_column : Z }.
Definition noPos : Pos := mkPos [] 0 0.
Definition showPos (p : Pos) : str :=
  if (pos_line p =? 0)%Z then $"undefined position"
  else $"`" ++ pos_file p ++ ":"%char :: int2String (pos_line p) ++ ":"%char :: int2String (pos_column p) ++ $"'".

Record VarRef : Type := mkVarRef { var_name : str; fromWith : bool; level : nat; displ : nat }.

(** The attributes of a set are a [std::map] from symbols: a list in the order of the
    symbols.  An attribute has an expression or is inherited. *)
Inductive Expr : Type :=
| ExprInt (n : Z)
| ExprString (s : str)
| ExprPath (s : str)
| ExprVar (info : VarRef)
| ExprSelect (e : Expr) (attrPath : list str) (def : option Expr)
| ExprOpHasAttr (e : Expr) (attrPath : list str)
| ExprAttrs (recursive : bool) (attrs : list (str * AttrDef))
| ExprList (elems : list Expr)
| ExprLambda (f : Lambda)
| ExprLet (attrs : list (str * AttrDef)) (body : Expr)
| ExprWith (pos : Pos) (attrs body : Expr) (prevWith : nat)
| ExprIf (cond then_ else_ : Expr)
| ExprAssert (pos : Pos) (cond body : Expr)
| ExprOpNot (e : Expr)
| ExprApp (e1 e2 : Expr)
| ExprOpEq (e1 e2 : Expr)
| ExprOpNEq (e1 e2 : Expr)
| ExprOpAnd (e1 e2 : Expr)
| ExprOpOr (e1 e2 : Expr)
| ExprOpImpl (e1 e2 : Expr)
| ExprOpUpdate (e1 e2 : Expr)
| ExprOpConcatLists (e1 e2 : Expr)
| ExprConcatStrings (es : list Expr)
with AttrDef : Type :=
| AttrE (e : Expr) (pos : Pos) (def_displ : nat)
| AttrInherited (var : VarRef) (pos : Pos) (def_displ : nat)
with Lambda : Type :=
| mkLambda (pos : Pos) (arg : str) (matchAttrs : bool) (formals : list Formal) (ellipsis : bool) (body : Expr)
with Formal : Type :=
| mkFormal (name : str) (def : option Expr).

Definition def_displ (d : AttrDef) : nat := match d with AttrE _ _ n | AttrInherited _ _ n => n end.
Definition formal_name (f : Formal) : str := match f with mkFormal name _ => name end.
Definition formal_def (f : Formal) : option Expr := match f with mkFormal _ def => def end.

Fixpoint showAttrPath_in (s : str) (attrPath : list str) : str :=
  match attrPath with
  | [] => s
  | i :: attrPath => showAttrPath_in ((match s with [] => s | _ => s ++ $"." end) ++ i) attrPath
  end.
Definition showAttrPath (attrPath : list str) : str := showAttrPath_in [] attrPath.

(** ** Static environments *)

Inductive Frame : Type :=
| FWith
| FVars (vars : gmap str nat).
Abbreviation StaticEnv := (list Frame).

(** [newEnv.vars[name] = displ++] for each name. *)
Fixpoint add_vars (names : list str) (n : nat) (vars : gmap str nat) : gmap str nat :=
  match names with
  | [] => vars
  | x :: names => add_vars names (S n) (<[x := n]> vars)
  end.

Definition attrs_frame (attrs : list (str * AttrDef)) : Frame := FVars (add_vars attrs.*1 0 ∅).
Definition lambda_vars (arg : str) (matchAttrs : bool) (formals : list Formal) : list str :=
  (match arg with [] => [] | _ => [arg] end) ++ (if matchAttrs then formal_name <$> formals else []).
Definition lambda_frame (arg : str) (matchAttrs : bool) (formals : list Formal) : Frame :=
  FVars (add_vars (lambda_vars arg matchAttrs formals) 0 ∅).

(** [VarRef::bind] *)
Fixpoint bind_loop (v : VarRef) (env : StaticEnv) (lvl : nat) (withLevel : option nat) : result VarRef :=
  match env with
  | [] =>
      match withLevel with
      | None => throw eEvalError ($"undefined variable `" ++ var_name v ++ $"'")
      | Some l => Ok (mkVarRef (var_name v) true l (displ v))
      end
  | FWith :: env => bind_loop v env (S lvl) (match withLevel with None => Some lvl | _ => withLevel end)
  | FVars vars :: env =>
      match vars !! var_name v with
      | Some d => Ok (mkVarRef (var_name v) false lvl d)
      | None => bind_loop v env (S lvl) withLevel
      end
  end.
Definition bind (env : StaticEnv) (v : VarRef) : result VarRef := bind_loop v env 0 None.

(** The number of levels up to the nearest enclosing [with], or 0. *)
Fixpoint prevWith_loop (env : StaticEnv) (lvl : nat) : nat :=
  match env with
  | [] => 0
  | FWith :: _ => lvl
  | FVars _ :: env => prevWith_loop env (S lvl)
  end.

(** A loop over a list that replaces its elements. *)
Definition mapR {A B} (f : A -> result B) : list A -> result (list B) :=
  fix go l := match l with [] => Ok [] | a :: l => b ← f a; bs ← go l; Ok (b :: bs) end.
Definition optR {A B} (f : A -> result B) (o : option A) : result (option B) :=
  match o with None => Ok None | Some a => b ← f a; Ok (Some b) end.
(** The same with the index. *)
Definition imapR {A B} (f : nat -> A -> result B) : nat -> list A -> result (list B) :=
  fix go n l := match l with [] => Ok [] | a :: l => b ← f n a; bs ← go (S n) l; Ok (b :: bs) end.

Fixpoint bindVars (env : StaticEnv) (e : Expr) : result Expr :=
  match e with
  | ExprInt _ | ExprString _ | ExprPath _ => Ok e
  | ExprVar info => info ← bind env info; Ok (ExprVar info)
  | ExprSelect e p def => e ← bindVars env e; def ← optR (bindVars env) def; Ok (ExprSelect e p def)
  | ExprOpHasAttr e p => e ← bindVars env e; Ok (ExprOpHasAttr e p)
  | ExprAttrs true attrs =>
      attrs' ← imapR (fun n xd => d ← bind_def env (attrs_frame attrs :: env) (Some n) xd.2; Ok (xd.1, d)) 0 attrs;
      Ok (ExprAttrs true attrs')
  | ExprAttrs false attrs =>
      attrs ← mapR (fun xd => d ← bind_def env env None xd.2; Ok (xd.1, d)) attrs; Ok (ExprAttrs false attrs)
  | ExprList elems => elems ← mapR (bindVars env) elems; Ok (ExprList elems)
  | ExprLambda f => f ← bind_lambda env f; Ok (ExprLambda f)
  | ExprLet attrs body =>
      attrs' ← imapR (fun n xd => d ← bind_def env (attrs_frame attrs :: env) (Some n) xd.2; Ok (xd.1, d)) 0 attrs;
      body ← bindVars (attrs_frame attrs :: env) body;
      Ok (ExprLet attrs' body)
  | ExprWith pos attrs body _ =>
      attrs ← bindVars env attrs; body ← bindVars (FWith :: env) body; Ok (ExprWith pos attrs body (prevWith_loop env 1))
  | ExprIf c t f => c ← bindVars env c; t ← bindVars env t; f ← bindVars env f; Ok (ExprIf c t f)
  | ExprAssert pos c b => c ← bindVars env c; b ← bindVars env b; Ok (ExprAssert pos c b)
  | ExprOpNot e => e ← bindVars env e; Ok (ExprOpNot e)
  | ExprApp a b => a ← bindVars env a; b ← bindVars env b; Ok (ExprApp a b)
  | ExprOpEq a b => a ← bindVars env a; b ← bindVars env b; Ok (ExprOpEq a b)
  | ExprOpNEq a b => a ← bindVars env a; b ← bindVars env b; Ok (ExprOpNEq a b)
  | ExprOpAnd a b => a ← bindVars env a; b ← bindVars env b; Ok (ExprOpAnd a b)
  | ExprOpOr a b => a ← bindVars env a; b ← bindVars env b; Ok (ExprOpOr a b)
  | ExprOpImpl a b => a ← bindVars env a; b ← bindVars env b; Ok (ExprOpImpl a b)
  | ExprOpUpdate a b => a ← bindVars env a; b ← bindVars env b; Ok (ExprOpUpdate a b)
  | ExprOpConcatLists a b => a ← bindVars env a; b ← bindVars env b; Ok (ExprOpConcatLists a b)
  | ExprConcatStrings es => es ← mapR (bindVars env) es; Ok (ExprConcatStrings es)
  end
with bind_def (env newEnv : StaticEnv) (n : option nat) (d : AttrDef) : result AttrDef :=
  match d with
  | AttrE e pos k => e ← bindVars newEnv e; Ok (AttrE e pos (default k n))
  | AttrInherited v pos k => v ← bind env v; Ok (AttrInherited v pos (default k n))
  end
with bind_lambda (env : StaticEnv) (f : Lambda) : result Lambda :=
  match f with
  | mkLambda pos arg matchAttrs formals ellipsis body =>
      formals' ← (if matchAttrs then mapR (bind_formal (lambda_frame arg matchAttrs formals :: env)) formals else Ok formals);
      body ← bindVars (lambda_frame arg matchAttrs formals :: env) body;
      Ok (mkLambda pos arg matchAttrs formals' ellipsis body)
  end
with bind_formal (env : StaticEnv) (f : Formal) : result Formal :=
  match f with
  | mkFormal name def => def ← optR (bindVars env) def; Ok (mkFormal name def)
  end.

(** * Lemmas *)

(** ** Induction on expressions *)

Definition def_all (P : Expr -> Prop) (d : AttrDef) : Prop := match d with AttrE e _ _ => P e | AttrInherited _ _ _ => True end.
Definition opt_all (P : Expr -> Prop) (o : option Expr) : Prop := match o with Some e => P e | None => True end.

(** [P] holds of the immediate subexpressions. *)
Definition subs_all (P : Expr -> Prop) (e : Expr) : Prop :=
  match e with
  | ExprInt _ | ExprString _ | ExprPath _ | ExprVar _ => True
  | ExprSelect e _ def => P e /\ opt_all P def
  | ExprOpHasAttr e _ | ExprOpNot e => P e
  | ExprAttrs _ attrs => Forall (fun xd => def_all P xd.2) attrs
  | ExprList es | ExprConcatStrings es => Forall P es
  | ExprLambda (mkLambda _ _ _ formals _ body) => Forall (fun f => opt_all P (formal_def f)) formals /\ P body
  | ExprLet attrs body => Forall (fun xd => def_all P xd.2) attrs /\ P body
  | ExprIf a b c => P a /\ P b /\ P c
  | ExprWith _ a b _ | ExprAssert _ a b | ExprApp a b | ExprOpEq a b | ExprOpNEq a b | ExprOpAnd a b
  | ExprOpOr a b | ExprOpImpl a b | ExprOpUpdate a b | ExprOpConcatLists a b => P a /\ P b
  end.

Section Induction.
Context (P : Expr -> Prop) (H : forall e, subs_all P e -> P e).

Lemma expr_subs_ind : forall e, P e.
Proof.
  fix IH 1. intros e. apply H.
  destruct e as [| | | |e p def|e p|r attrs|elems|f|attrs body|pos a b n|a b c|pos a b|e|a b|a b|a b|a b|a b|a b|a b|a b|es]; cbn;
    try exact I; try (split_and!; apply IH); try apply IH.
  - split; [apply IH|]. destruct def as [e'|]; [apply IH|exact I].
  - induction attrs as [|[x d] attrs IHl]; constructor; [|exact IHl]. destruct d as [e pos n|]; [apply IH|exact I].
  - induction elems as [|e l IHl]; constructor; [apply IH|exact IHl].
  - destruct f as [pos arg m formals el body]. split; [|apply IH].
    induction formals as [|[x [e|]] l IHl]; constructor; [apply IH|exact IHl|exact I|exact IHl].
  - split; [|apply IH]. induction attrs as [|[x d] attrs IHl]; constructor; [|exact IHl]. destruct d as [e pos n|]; [apply IH|exact I].
  - induction es as [|e l IHl]; constructor; [apply IH|exact IHl].
Qed.
End Induction.

(** ** Binding again *)

Lemma mapR_Ok {A B} (f : A -> result B) l l' : mapR f l = Ok l' <-> Forall2 (fun a b => f a = Ok b) l l'.
Proof.
  revert l'. induction l as [|a l IH]; intros l'; cbn.
  - split; [intros [= <-]; constructor|]. intros Hl. by inversion Hl.
  - split.
    + intros Hl. inv_ok. constructor; [done|by apply IH].
    + intros Hl. inversion Hl as [|? b ? bs Hb Hbs]; subst. rewrite Hb, bind_ret. apply IH in Hbs. by rewrite Hbs, bind_ret.
Qed.

Lemma imapR_cons {A B} (f : nat -> A -> result B) n a l : imapR f n (a :: l) = (b ← f n a; bs ← imapR f (S n) l; Ok (b :: bs)).
Proof. done. Qed.

Lemma imapR_Ok {A B} (f : nat -> A -> result B) l : forall n l',
  imapR f n l = Ok l' <-> length l' = length l /\ forall i a b, l !! i = Some a -> l' !! i = Some b -> f (n + i)%nat a = Ok b.
Proof.
  induction l as [|a l IH]; intros n l'.
  - cbn. split; [by intros [= <-]|]. intros [Hl _]. by apply nil_length_inv in Hl as ->.
  - rewrite imapR_cons. split.
    + intros (b & Hb & Hl)%bind_Ok. apply bind_Ok in Hl as (bs & Hl & [= <-]). apply IH in Hl as [Hlen Hi]. cbn. split; [lia|]. intros [|i] a' b' Ha' Hb'; cbn in *; simplify_eq.
      * by rewrite Nat.add_0_r.
      * rewrite <- Nat.add_succ_comm. by apply Hi.
    + intros [Hlen Hi]. destruct l' as [|b l']; [done|]. assert (f n a = Ok b) as -> by (rewrite <- (Nat.add_0_r n); by apply (Hi 0%nat)).
      rewrite bind_ret. assert (imapR f (S n) l = Ok l') as Hr.
      { apply IH. cbn in Hlen. split; [lia|]. intros i a' b' Ha Hb. rewrite Nat.add_succ_comm. by apply (Hi (S i)). }
      by rewrite Hr, bind_ret.
Qed.

Lemma bind_loop_name v env l w v' : bind_loop v env l w = Ok v' -> var_name v' = var_name v.
Proof.
  revert l w. induction env as [|[|vars] env IH]; intros l w; cbn.
  - destruct w; [|done]. by intros [= <-].
  - apply IH.
  - destruct (vars !! _); [by intros [= <-]|apply IH].
Qed.

Lemma bind_loop_again v v' env : forall l w, var_name v' = var_name v -> bind_loop v env l w = Ok v' -> bind_loop v' env l w = Ok v'.
Proof.
  induction env as [|[|vars] env IH]; intros l w En; cbn.
  - destruct w; [|done]. by intros [= <-].
  - by apply IH.
  - rewrite En. destruct (vars !! _); [by intros [= <-]|by apply IH].
Qed.

Lemma bind_again env v v' : bind env v = Ok v' -> bind env v' = Ok v'.
Proof. intros Hb. eapply bind_loop_again; [|exact Hb]. by eapply bind_loop_name. Qed.

Definition again (e : Expr) : Prop := forall env e', bindVars env e = Ok e' -> bindVars env e' = Ok e'.

Lemma bind_def_again env env' n d d' :
  def_all again d ->
  bind_def env env' n d = Ok d' -> bind_def env env' n d' = Ok d'.
Proof.
  destruct d as [e pos k|v pos k]; cbn; intros Hd Hb; inv_ok; cbn.
  - erewrite Hd by done. rewrite bind_ret. by destruct n.
  - erewrite bind_again by done. rewrite bind_ret. by destruct n.
Qed.

(** The names in a tree do not change. *)
Lemma bind_defs_names env env' n attrs attrs' :
  imapR (fun n (xd : str * AttrDef) => d ← bind_def env env' (Some n) xd.2; Ok (xd.1, d)) n attrs = Ok attrs' -> attrs'.*1 = attrs.*1.
Proof.
  intros [Hlen Hi]%imapR_Ok. apply list_eq_same_length with (length attrs'); [by rewrite length_fmap|by rewrite length_fmap|].
  intros i x y _ Hx Hy. apply list_lookup_fmap_Some in Hx as ([] & -> & Hx), Hy as ([] & -> & Hy).
  specialize (Hi i _ _ Hy Hx). cbn in Hi. by inv_ok.
Qed.

Lemma bind_formals_names env formals formals' :
  mapR (bind_formal env) formals = Ok formals' -> formal_name <$> formals' = formal_name <$> formals.
Proof.
  intros Hf%mapR_Ok. induction Hf as [|[x o] [y o'] l l' Hb _ IH]; [done|]. cbn in *. inv_ok. by f_equal.
Qed.


Lemma mapR_again env es es' : Forall again es -> mapR (bindVars env) es = Ok es' -> mapR (bindVars env) es' = Ok es'.
Proof.
  rewrite !mapR_Ok. intros Ha Hm. induction Hm as [|e e' es es' He Hm IH]; [constructor|].
  apply Forall_cons in Ha as [Ha1 Ha]. constructor; [by eapply Ha1|by apply IH].
Qed.

Lemma optR_again env o o' : opt_all again o -> optR (bindVars env) o = Ok o' -> optR (bindVars env) o' = Ok o'.
Proof. destruct o as [e|]; cbn; intros Ha Hm; inv_ok; [|done]. cbn. by erewrite Ha. Qed.

Lemma defs_again env env' n attrs attrs' : Forall (fun (xd : str * AttrDef) => def_all again xd.2) attrs ->
  imapR (fun n (xd : str * AttrDef) => d ← bind_def env env' (Some n) xd.2; Ok (xd.1, d)) n attrs = Ok attrs' ->
  imapR (fun n (xd : str * AttrDef) => d ← bind_def env env' (Some n) xd.2; Ok (xd.1, d)) n attrs' = Ok attrs'.
Proof.
  intros Ha [Hlen Hi]%imapR_Ok. apply imapR_Ok. split; [done|]. intros i a b Ha' Hb'. simplify_eq.
  destruct (lookup_lt_is_Some_2 attrs i) as [[x d] Hxd]; [rewrite <- Hlen; by eapply lookup_lt_Some|].
  specialize (Hi i _ _ Hxd Ha'). rewrite Forall_lookup in Ha. specialize (Ha i _ Hxd). cbn in *. inv_ok. cbn. by erewrite bind_def_again.
Qed.

Lemma plain_defs_again env attrs attrs' : Forall (fun (xd : str * AttrDef) => def_all again xd.2) attrs ->
  mapR (fun (xd : str * AttrDef) => d ← bind_def env env None xd.2; Ok (xd.1, d)) attrs = Ok attrs' ->
  mapR (fun (xd : str * AttrDef) => d ← bind_def env env None xd.2; Ok (xd.1, d)) attrs' = Ok attrs'.
Proof.
  rewrite !mapR_Ok. intros Ha Hm. induction Hm as [|[x d] e' es es' He Hm IH]; [constructor|].
  apply Forall_cons in Ha as [Ha1 Ha]. constructor; [|by apply IH]. cbn in *. inv_ok. cbn. by erewrite bind_def_again.
Qed.

Lemma formals_again env formals formals' : Forall (fun f => opt_all again (formal_def f)) formals ->
  mapR (bind_formal env) formals = Ok formals' -> mapR (bind_formal env) formals' = Ok formals'.
Proof.
  rewrite !mapR_Ok. intros Hf H. induction H as [|[y o] f' l l' Ho _ IH]; [constructor|].
  apply Forall_cons in Hf as [Hf1 Hf]. constructor; [|by apply IH]. cbn in *. inv_ok. cbn. by erewrite optR_again.
Qed.

Lemma lambda_again env f f' : subs_all again (ExprLambda f) -> bind_lambda env f = Ok f' -> bind_lambda env f' = Ok f'.
Proof.
  destruct f as [pos arg [] formals el body]; intros [Hf Hb] Hl; cbn in Hl; inv_ok.
  - assert (lambda_frame arg true x = lambda_frame arg true formals) as Ef.
    { unfold lambda_frame, lambda_vars. by erewrite bind_formals_names. }
    cbn. rewrite Ef. assert (mapR (bind_formal (lambda_frame arg true formals :: env)) x = Ok x) as ->.
    { by apply (formals_again _ formals). }
    rewrite bind_ret. by erewrite Hb.
  - cbn. by erewrite Hb.
Qed.

(** Binding a bound expression again changes nothing. *)
Lemma bindVars_again : forall e env e', bindVars env e = Ok e' -> bindVars env e' = Ok e'.
Proof.
  apply (expr_subs_ind again). intros e Hs env e' Hb.
  destruct e as [| | | |e p def|e p|[] attrs|elems|f|attrs body|pos a b n|a b c|pos a b|e|a b|a b|a b|a b|a b|a b|a b|a b|es];
    cbn in Hs, Hb; destruct_and?; inv_ok; try done; cbn [bindVars];
    try (repeat match goal with Hs : again ?e, Hb : bindVars _ ?e = Ok _ |- _ => rewrite (Hs _ _ Hb), bind_ret; clear Hb end; done).
  - by erewrite bind_again.
  - repeat match goal with Hs : again ?e, Hb : bindVars _ ?e = Ok _ |- _ => rewrite (Hs _ _ Hb), bind_ret; clear Hb end. by erewrite optR_again.
  - assert (attrs_frame x = attrs_frame attrs) as Ef by (unfold attrs_frame; by erewrite bind_defs_names). rewrite Ef. by erewrite defs_again.
  - by erewrite plain_defs_again.
  - by erewrite mapR_again.
  - by erewrite lambda_again.
  - assert (attrs_frame x = attrs_frame attrs) as Ef by (unfold attrs_frame; by erewrite bind_defs_names). rewrite Ef.
    erewrite defs_again by done. rewrite bind_ret. by match goal with Hs : again ?e, Hb : bindVars _ ?e = Ok _ |- _ => rewrite (Hs _ _ Hb), bind_ret end.
  - by erewrite mapR_again.
Qed.
