(* ===== verification/Eval.v ===== *)
(** * The evaluator (src/src/libexpr/eval.cc, eval-inline.hh, eval.hh, value.hh)

    Values, environments and attribute sets are objects in memory that are shared and
    updated in place, so the state has a list of each and a pointer is an index.
    Evaluation writes its result into a value that it is given, as the code does: a
    thunk is overwritten by its value, and what is written before an exception stays.
    A null or dangling pointer, an index out of range, and reading a member of the
    union other than the one last written raise [eUndefined], which no handler
    catches.

    The evaluator recurs through [eval], [callFunction], [coerceToString] and
    [eqValues]; each is defined from an [Evaluator], a record of the four (and of a
    bound for the loops of built-in functions), and
    [evaluator n] unrolls the recursion [n] times.  The built-in functions, and adding
    a source file to the store, are parameters. *)

From Stdlib Require Import ZArith Lia Ascii Relations.
From stdpp Require Import base strings sorting numbers gmap sets list.
From S2P Require Import Prelude Effects Util Serialise Hash FileSystem References StorePath Derivations NixExpr.

(** ** Values *)

(** [tUninit] is the 0 of a value that has been allocated and not written. *)
Inductive ValueType : Type :=
| tUninit | tInt | tBool | tString | tPath | tNull | tAttrs | tList | tThunk | tApp | tLambda | tBlackhole | tPrimOp | tPrimOpApp.
#[export] Instance ValueType_eq_dec : EqDecision ValueType.
Proof. solve_decision. Defined.

(** A built-in function; its name stands for the pointer to it. *)
Record PrimOp : Type := mkPrimOp { primop_name : str; arity : nat }.

(** The member of the union that was written last.  A context that is a null pointer
    is the empty list; the elements of a list that were not written are null. *)
Inductive Payload : Type :=
| PNone
| PInt (n : Z)
| PBool (b : bool)
| PString (s : str) (context : list str)
| PPath (s : str)
| PAttrs (b : nat)
| PList (elems : list (option nat))
| PThunk (env : nat) (e : Expr)
| PApp (l r : nat)
| PLambda (env : nat) (f : Lambda)
| PPrimOp (op : PrimOp)
| PPrimOpApp (l r : nat).
Record Value : Type := mkValue { vtype : ValueType; payload : Payload }.

Record Attr : Type := mkBinding { b_name : str; b_value : nat; b_pos : Pos }.
Record EvalEnv : Type := mkEvalEnv { env_up : option nat; env_prevWith : nat; env_values : list (option nat) }.

(** [c_str()] of a string. *)
Fixpoint c_str (s : str) : str :=
  match s with
  | [] => []
  | c :: s => if char_eqb c NUL then [] else c :: c_str s
  end.

Definition showType (t : ValueType) : result str :=
  match t with
  | tInt => Ok ($"an integer")
  | tBool => Ok ($"a boolean")
  | tString => Ok ($"a string")
  | tPath => Ok ($"a path")
  | tNull => Ok ($"null")
  | tAttrs => Ok ($"an attribute set")
  | tList => Ok ($"a list")
  | tThunk => Ok ($"a thunk")
  | tApp => Ok ($"a function application")
  | tLambda => Ok ($"a function")
  | tBlackhole => Ok ($"a black hole")
  | tPrimOp => Ok ($"a built-in function")
  | tPrimOpApp => Ok ($"a partially applied built-in function")
  | tUninit => throw eAbort ($"abort")
  end.

(** ** Attribute sets *)

Section Bindings.
Context `{SymbolTable}.

(** [Bindings::find]: [lower_bound] gives the first attribute that is not before the
    name (the attributes are sorted). *)
Fixpoint find_attr (l : list Attr) (name : str) : option Attr :=
  match l with
  | [] => None
  | a :: l => if sym_ltb (b_name a) name then find_attr l name else if str_eqb (b_name a) name then Some a else None
  end.

Definition attr_le (a b : Attr) : Prop := (sym_addr (b_name a) <= sym_addr (b_name b))%N.
#[export] Instance attr_le_dec a b : Decision (attr_le a b).
Proof. unfold attr_le. apply _. Defined.
Definition sort_attrs (l : list Attr) : list Attr := merge_sort attr_le l.

(** The merge in [ExprOpUpdate::eval]. *)
Fixpoint update_merge (l1 : list Attr) : list Attr -> list Attr :=
  match l1 with
  | [] => fun l2 => l2
  | i :: l1' =>
      fix go l2 :=
        match l2 with
        | [] => i :: l1'
        | j :: l2' =>
            if str_eqb (b_name i) (b_name j) then j :: update_merge l1' l2'
            else if sym_ltb (b_name i) (b_name j) then i :: update_merge l1' l2
            else j :: go l2'
        end
  end.
End Bindings.

(** ** Memory *)

Record EvalState (St : Type) : Type := mkEvalState {
  es_values : list Value; es_envs : list EvalEnv; es_bindings : list (list Attr); srcToStore : gmap str str; es_store : St }.
Arguments mkEvalState {_} _ _ _ _ _.
Arguments es_values {_} _.
Arguments es_envs {_} _.
Arguments es_bindings {_} _.
Arguments srcToStore {_} _.
Arguments es_store {_} _.

Section Memory.
Context {St : Type}.
Abbreviation ES := (EvalState St).

Definition set_values (l : list Value) (s : ES) : ES := mkEvalState l (es_envs s) (es_bindings s) (srcToStore s) (es_store s).
Definition set_envs (l : list EvalEnv) (s : ES) : ES := mkEvalState (es_values s) l (es_bindings s) (srcToStore s) (es_store s).
Definition set_bindings (l : list (list Attr)) (s : ES) : ES := mkEvalState (es_values s) (es_envs s) l (srcToStore s) (es_store s).
Definition set_srcToStore (m : gmap str str) (s : ES) : ES := mkEvalState (es_values s) (es_envs s) (es_bindings s) m (es_store s).
Definition set_store (st : St) (s : ES) : ES := mkEvalState (es_values s) (es_envs s) (es_bindings s) (srcToStore s) st.

Definition undefined {A} : M ES A := raise eUndefined ($"undefined behaviour").
Definition some {A} (o : option A) : M ES A := match o with Some a => mret a | None => undefined end.

Definition deref (v : nat) : M ES Value := o ← gets (fun s => es_values s !! v); some o.
Definition assign (v : nat) (x : Value) : M ES unit := _ ← deref v; modify (fun s => set_values (<[v := x]> (es_values s)) s).
Definition typeOf (v : nat) : M ES ValueType := x ← deref v; mret (vtype x).
Definition setType (v : nat) (t : ValueType) : M ES unit := x ← deref v; assign v (mkValue t (payload x)).
Definition copyValue (src dst : nat) : M ES unit := x ← deref src; assign dst x.

Definition allocValue : M ES nat :=
  v ← gets (fun s => length (es_values s)); _ ← modify (fun s => set_values (es_values s ++ [mkValue tUninit PNone]) s); mret v.

Definition derefEnv (e : nat) : M ES EvalEnv := o ← gets (fun s => es_envs s !! e); some o.
Definition assignEnv (e : nat) (x : EvalEnv) : M ES unit := modify (fun s => set_envs (<[e := x]> (es_envs s)) s).
Definition allocEnv (size : nat) : M ES nat :=
  e ← gets (fun s => length (es_envs s)); _ ← modify (fun s => set_envs (es_envs s ++ [mkEvalEnv None 0 (replicate size None)]) s); mret e.
Definition setUp (e : nat) (u : nat) : M ES unit := x ← derefEnv e; assignEnv e (mkEvalEnv (Some u) (env_prevWith x) (env_values x)).
Definition setPrevWith (e : nat) (n : nat) : M ES unit := x ← derefEnv e; assignEnv e (mkEvalEnv (env_up x) n (env_values x)).
Definition setValue (e i v : nat) : M ES unit :=
  x ← derefEnv e; _ ← some (env_values x !! i); assignEnv e (mkEvalEnv (env_up x) (env_prevWith x) (<[i := Some v]> (env_values x))).

Definition getBindings (b : nat) : M ES (list Attr) := o ← gets (fun s => es_bindings s !! b); some o.
Definition setBindings (b : nat) (l : list Attr) : M ES unit := modify (fun s => set_bindings (<[b := l]> (es_bindings s)) s).
Definition allocBindings : M ES nat :=
  b ← gets (fun s => length (es_bindings s)); _ ← modify (fun s => set_bindings (es_bindings s ++ [[]]) s); mret b.

(** [v.attrs], [v.list], [v.boolean], ... *)
Definition attrsOf (v : nat) : M ES nat := x ← deref v; match payload x with PAttrs b => mret b | _ => undefined end.
Definition bindingsOf (v : nat) : M ES (list Attr) := b ← attrsOf v; getBindings b.
Definition listOf (v : nat) : M ES (list (option nat)) := x ← deref v; match payload x with PList l => mret l | _ => undefined end.
Definition boolOf (v : nat) : M ES bool := x ← deref v; match payload x with PBool b => mret b | _ => undefined end.
Definition intOf (v : nat) : M ES Z := x ← deref v; match payload x with PInt n => mret n | _ => undefined end.
Definition stringOf (v : nat) : M ES (str * list str) := x ← deref v; match payload x with PString s c => mret (s, c) | _ => undefined end.
Definition pathOf (v : nat) : M ES str := x ← deref v; match payload x with PPath s => mret s | _ => undefined end.
Definition elemOf (l : list (option nat)) (n : nat) : M ES nat := o ← some (l !! n); some o.

Definition mkInt (v : nat) (n : Z) : M ES unit := assign v (mkValue tInt (PInt n)).
Definition mkBool (v : nat) (b : bool) : M ES unit := assign v (mkValue tBool (PBool b)).
Definition mkPath (v : nat) (s : str) : M ES unit := assign v (mkValue tPath (PPath (c_str s))).
Definition mkString (v : nat) (s : str) (context : gset str) : M ES unit :=
  assign v (mkValue tString (PString (c_str s) (c_str <$> set_iter context))).
Definition mkApp (v l r : nat) : M ES unit := assign v (mkValue tApp (PApp l r)).
Definition mkThunk (v env : nat) (e : Expr) : M ES unit := assign v (mkValue tThunk (PThunk env e)).
Definition mkAttrs (v : nat) : M ES unit := b ← allocBindings; assign v (mkValue tAttrs (PAttrs b)).
Definition mkList (v n : nat) : M ES unit := assign v (mkValue tList (PList (replicate n None))).
Definition setElem (v n c : nat) : M ES unit :=
  x ← deref v;
  match payload x with
  | PList l => _ ← some (l !! n); assign v (mkValue (vtype x) (PList (<[n := Some c]> l)))
  | _ => undefined
  end.
(** [v.attrs->push_back(Attr(name, c, pos))] *)
Definition push_attr (v : nat) (a : Attr) : M ES unit := b ← attrsOf v; l ← getBindings b; setBindings b (l ++ [a]).
Definition allocAttr (vAttrs : nat) (name : str) : M ES nat := v ← allocValue; _ ← push_attr vAttrs (mkBinding name v noPos); mret v.

Definition throwEvalError {A} (msg : str) : M ES A := raise eEvalError msg.
Definition throwTypeError {A} (msg : str) : M ES A := raise eTypeError msg.
(** [throwTypeError("... %1% ...", showType(v))] *)
Definition wrongType {A} (before : str) (t : ValueType) (after : str) : M ES A :=
  n ← lift (fun _ => showType t); throwTypeError (before ++ n ++ after).
(** [catch (Error & e) { addErrorPrefix(e, ...); throw; }] *)
Definition prefix_errors {A} (msg : str) (m : M ES A) : M ES A :=
  try_catch is_Error m (fun e => rethrow (Exn (exn_kind e) (msg ++ exn_msg e))).
Definition on_store {A} (m : M St A) : M ES A := zoom es_store set_store m.

(** ** Looking up variables *)

Fixpoint goUp (n : nat) (env : nat) : M ES nat :=
  match n with
  | O => mret env
  | S n => x ← derefEnv env; u ← some (env_up x); goUp n u
  end.

(** The loop for a variable of a [with]; each round goes up. *)
Fixpoint lookupWith `{SymbolTable} (fuel : nat) (env : nat) (name : str) : M ES nat :=
  match fuel with
  | O => stuck
  | S fuel =>
      x ← derefEnv env;
      o ← some (env_values x !! 0%nat);
      c ← some o;
      l ← bindingsOf c;
      match find_attr l name with
      | Some j => mret (b_value j)
      | None =>
          if (env_prevWith x =? 0)%nat then throwEvalError ($"undefined variable `" ++ name ++ $"'")
          else env ← goUp (env_prevWith x) env; lookupWith fuel env name
      end
  end.

(** [None] is a null pointer: the value is not initialised yet. *)
Definition lookupVar `{SymbolTable} (env : nat) (var : VarRef) : M ES (option nat) :=
  env ← goUp (level var) env;
  if fromWith var then
    n ← gets (fun s => length (es_envs s));
    v ← lookupWith n env (var_name var);
    mret (Some v)
  else
    x ← derefEnv env;
    some (env_values x !! displ var).

(** The lookups whose result is stored or read at once; a null pointer would be
    undefined behaviour at the latest when the value is used. *)
Definition lookupNow `{SymbolTable} (env : nat) (var : VarRef) : M ES nat := o ← lookupVar env var; some o.

Definition newThunk (env : nat) (e : Expr) : M ES nat := v ← allocValue; _ ← mkThunk v env e; mret v.

(** A constant has its value in the syntax tree, where it is never changed: here it
    is a new one each time. *)
Definition maybeThunk `{SymbolTable} (env : nat) (e : Expr) : M ES nat :=
  match e with
  | ExprVar info =>
      o ← lookupVar env info;
      match o with Some v => mret v | None => newThunk env e end
  | ExprString s => v ← allocValue; _ ← assign v (mkValue tString (PString (c_str s) [])); mret v
  | ExprInt n => v ← allocValue; _ ← mkInt v n; mret v
  | ExprPath s => v ← allocValue; _ ← mkPath v s; mret v
  | _ => newThunk env e
  end.
End Memory.

(** ** Evaluation *)

Record Evaluator (St : Type) : Type := mkEvaluator {
  r_eval : nat -> Expr -> nat -> M (EvalState St) unit;
  r_call : nat -> nat -> nat -> M (EvalState St) unit;
  r_coerce : nat -> gset str -> bool -> bool -> M (EvalState St) (str * gset str);
  r_eq : nat -> nat -> M (EvalState St) bool;
  r_fuel : nat }.
Arguments mkEvaluator {_} _ _ _ _ _.
Arguments r_eval {_} _ _ _ _.
Arguments r_call {_} _ _ _ _.
Arguments r_coerce {_} _ _ _ _ _.
Arguments r_eq {_} _ _ _.
Arguments r_fuel {_} _.

Definition sOverrides : str := $"__overrides".
Definition sOutPath : str := $"outPath".
Definition sType : str := $"type".

Section Evaluation.
Context `{SymbolTable} {St : Type}.
Abbreviation ES := (EvalState St).
(** A built-in function, given the recursive calls, its arguments and the result. *)
Context (primOpFun : Evaluator St -> str -> list nat -> nat -> M ES unit).
(** [settings.readOnlyMode ? computeStorePathForPath(path).first : store->addToStore(...)] *)
Context (addSource : str -> M St str).

Section Step.
Context (R : Evaluator St).

Definition forceValue (v : nat) : M ES unit :=
  x ← deref v;
  match vtype x with
  | tThunk =>
      match payload x with
      | PThunk env e =>
          _ ← setType v tBlackhole;
          try_catch is_Error (r_eval R env e v) (fun ex => _ ← setType v tThunk; rethrow ex)
      | _ => undefined
      end
  | tApp => match payload x with PApp l r => r_call R l r v | _ => undefined end
  | tBlackhole => throwEvalError ($"infinite recursion encountered")
  | _ => mret tt
  end.

Definition forceAttrs (v : nat) : M ES unit :=
  _ ← forceValue v; t ← typeOf v;
  if decide (t = tAttrs) then mret tt else wrongType ($"value is ") t ($" while an attribute set was expected").
Definition forceList (v : nat) : M ES unit :=
  _ ← forceValue v; t ← typeOf v;
  if decide (t = tList) then mret tt else wrongType ($"value is ") t ($" while a list was expected").
Definition forceInt (v : nat) : M ES Z :=
  _ ← forceValue v; t ← typeOf v;
  if decide (t = tInt) then intOf v else wrongType ($"value is ") t ($" while an integer was expected").
Definition forceBool (v : nat) : M ES bool :=
  _ ← forceValue v; t ← typeOf v;
  if decide (t = tBool) then boolOf v else wrongType ($"value is ") t ($" while a Boolean was expected").
Definition forceFunction (v : nat) : M ES unit :=
  _ ← forceValue v; t ← typeOf v;
  if decide (t = tLambda \/ t = tPrimOp \/ t = tPrimOpApp) then mret tt else wrongType ($"value is ") t ($" while a function was expected").
Definition forceString (v : nat) : M ES (str * list str) :=
  _ ← forceValue v; t ← typeOf v;
  if decide (t = tString) then stringOf v else wrongType ($"value is ") t ($" while a string was expected").
Definition forceStringNoCtx (v : nat) : M ES str :=
  sc ← forceString v;
  match sc.2 with
  | [] => mret sc.1
  | c :: _ => throwEvalError ($"the string `" ++ sc.1 ++ $"' is not allowed to refer to a store path (such as `" ++ c ++ $"')")
  end.

Definition evalBool (env : nat) (e : Expr) : M ES bool :=
  v ← allocValue; _ ← r_eval R env e v; t ← typeOf v;
  if decide (t = tBool) then boolOf v else wrongType ($"value is ") t ($" while a Boolean was expected").
Definition evalAttrs (env : nat) (e : Expr) (v : nat) : M ES unit :=
  _ ← r_eval R env e v; t ← typeOf v;
  if decide (t = tAttrs) then mret tt else wrongType ($"value is ") t ($" while an attribute set was expected").

(** *** Attribute sets *)

Fixpoint rec_attrs (env env2 v : nat) (hasOverrides : bool) (n : nat) (attrs : list (str * AttrDef)) : M ES unit :=
  match attrs with
  | [] => mret tt
  | (x, AttrInherited var pos _) :: attrs =>
      vAttr ← lookupNow env var;
      _ ← setValue env2 n vAttr;
      _ ← push_attr v (mkBinding x vAttr pos);
      rec_attrs env env2 v hasOverrides (S n) attrs
  | (x, AttrE e pos _) :: attrs =>
      vAttr ← (if hasOverrides then newThunk env2 e else maybeThunk env2 e);
      _ ← setValue env2 n vAttr;
      _ ← push_attr v (mkBinding x vAttr pos);
      rec_attrs env env2 v hasOverrides (S n) attrs
  end.

(** [attrs.find(name)] *)
Fixpoint find_def (attrs : list (str * AttrDef)) (name : str) : option AttrDef :=
  match attrs with
  | [] => None
  | (x, d) :: attrs => if str_eqb x name then Some d else find_def attrs name
  end.

Definition override_one (env2 v : nat) (attrs : list (str * AttrDef)) (i : Attr) : M ES unit :=
  match find_def attrs (b_name i) with
  | Some d =>
      b ← attrsOf v; l ← getBindings b; _ ← some (l !! def_displ d);
      _ ← setBindings b (<[def_displ d := i]> l);
      setValue env2 (def_displ d) (b_value i)
  | None => push_attr v i
  end.

Definition apply_overrides (env2 v : nat) (attrs : list (str * AttrDef)) (overrides : AttrDef) : M ES unit :=
  l ← bindingsOf v;
  o ← some (l !! def_displ overrides);
  _ ← forceAttrs (b_value o);
  overs ← bindingsOf (b_value o);
  _ ← forM (override_one env2 v attrs) overs;
  b ← attrsOf v; l ← getBindings b; setBindings b (sort_attrs l).

Fixpoint plain_attrs (env v : nat) (attrs : list (str * AttrDef)) : M ES unit :=
  match attrs with
  | [] => mret tt
  | (x, AttrInherited var pos _) :: attrs =>
      vAttr ← lookupNow env var; _ ← push_attr v (mkBinding x vAttr pos); plain_attrs env v attrs
  | (x, AttrE e pos _) :: attrs =>
      vAttr ← maybeThunk env e; _ ← push_attr v (mkBinding x vAttr pos); plain_attrs env v attrs
  end.

Definition eval_attrs (env : nat) (recursive : bool) (attrs : list (str * AttrDef)) (v : nat) : M ES unit :=
  _ ← mkAttrs v;
  if recursive then
    env2 ← allocEnv (length attrs);
    _ ← setUp env2 env;
    let overrides := find_def attrs sOverrides in
    _ ← rec_attrs env env2 v (bool_decide (is_Some overrides)) 0 attrs;
    match overrides with
    | Some d => apply_overrides env2 v attrs d
    | None => mret tt
    end
  else plain_attrs env v attrs.

Fixpoint let_attrs (env env2 : nat) (n : nat) (attrs : list (str * AttrDef)) : M ES unit :=
  match attrs with
  | [] => mret tt
  | (x, AttrInherited var pos _) :: attrs => vAttr ← lookupNow env var; _ ← setValue env2 n vAttr; let_attrs env env2 (S n) attrs
  | (x, AttrE e pos _) :: attrs => vAttr ← maybeThunk env2 e; _ ← setValue env2 n vAttr; let_attrs env env2 (S n) attrs
  end.

(** *** Lists *)

Fixpoint eval_elems (env v : nat) (n : nat) (elems : list Expr) : M ES unit :=
  match elems with
  | [] => mret tt
  | e :: elems => c ← maybeThunk env e; _ ← setElem v n c; eval_elems env v (S n) elems
  end.

(** The elements of the lists and the last list that is not empty. *)
Fixpoint force_lists (lists : list nat) (nonEmpty : option nat) (elems : list (option nat)) : M ES (option nat * list (option nat)) :=
  match lists with
  | [] => mret (nonEmpty, elems)
  | v :: lists =>
      _ ← forceList v;
      l ← listOf v;
      force_lists lists (match l with [] => nonEmpty | _ => Some v end) (elems ++ l)
  end.
Definition concatLists (v : nat) (lists : list nat) : M ES unit :=
  r ← force_lists lists None [];
  match r with
  | (Some w, elems) =>
      l ← listOf w;
      if (length elems =? length l)%nat then copyValue w v else assign v (mkValue tList (PList elems))
  | (None, elems) => assign v (mkValue tList (PList elems))
  end.

(** *** Selection *)

Definition with_pos {A} (attrPath : list str) (pos : option Pos) (m : M ES A) : M ES A :=
  match pos with
  | Some p => prefix_errors ($"while evaluating the attribute `" ++ showAttrPath attrPath ++ $"' at " ++ showPos p ++ $":" ++ [NL]) m
  | None => m
  end.

(** One component: the attribute, or [None] when there is a default to use. *)
Definition select_attr (attrPath : list str) (hasDef : bool) (vAttrs : nat) (i : str) : M ES (option Attr) :=
  if hasDef then
    _ ← forceValue vAttrs; t ← typeOf vAttrs;
    if decide (t = tAttrs) then l ← bindingsOf vAttrs; mret (find_attr l i) else mret None
  else
    _ ← forceAttrs vAttrs; l ← bindingsOf vAttrs;
    match find_attr l i with
    | Some j => mret (Some j)
    | None => throwEvalError ($"attribute `" ++ showAttrPath attrPath ++ $"' missing")
    end.

Fixpoint select_loop (env v : nat) (def : option Expr) (attrPath p : list str) (vAttrs : nat) (pos : option Pos) : M ES unit :=
  match p with
  | [] => _ ← with_pos attrPath pos (forceValue vAttrs); copyValue vAttrs v
  | i :: p =>
      r ← with_pos attrPath pos (select_attr attrPath (bool_decide (is_Some def)) vAttrs i);
      match r, def with
      | Some j, _ => select_loop env v def attrPath p (b_value j) (Some (b_pos j))
      | None, Some d => with_pos attrPath pos (r_eval R env d v)
      | None, None => undefined
      end
  end.

Fixpoint hasAttr_loop (v : nat) (p : list str) (vAttrs : nat) : M ES unit :=
  match p with
  | [] => mkBool v true
  | i :: p =>
      _ ← forceValue vAttrs; t ← typeOf vAttrs;
      if decide (t = tAttrs) then
        l ← bindingsOf vAttrs;
        match find_attr l i with Some j => hasAttr_loop v p (b_value j) | None => mkBool v false end
      else mkBool v false
  end.

(** *** Functions *)

(** The arguments of a partial application, and the built-in function. *)
Fixpoint primop_args (fuel : nat) (v : nat) : M ES (list nat * PrimOp) :=
  match fuel with
  | O => stuck
  | S fuel =>
      x ← deref v;
      match vtype x with
      | tPrimOpApp =>
          match payload x with
          | PPrimOpApp l r => a ← primop_args fuel l; mret (a.1 ++ [r], a.2)
          | _ => undefined
          end
      | tPrimOp => match payload x with PPrimOp op => mret ([], op) | _ => undefined end
      | _ => raise eAssertion ($"assertion failed")
      end
  end.

Definition call_primop (fun_ arg v : nat) : M ES unit :=
  n ← gets (fun s => length (es_values s));
  a ← primop_args n fun_;
  if (arity a.2 =? S (length a.1))%nat then
    prefix_errors ($"while evaluating the builtin function `" ++ primop_name a.2 ++ $"':" ++ [NL])
      (primOpFun R (primop_name a.2) (a.1 ++ [arg]) v)
  else
    left ← allocValue;
    _ ← copyValue fun_ left;
    assign v (mkValue tPrimOpApp (PPrimOpApp left arg)).

(** The formal arguments; the number of attributes used. *)
Fixpoint match_formals (pos : Pos) (env2 : nat) (n : nat) (formals : list Formal) (args : list Attr) (attrsUsed : nat) : M ES nat :=
  match formals with
  | [] => mret attrsUsed
  | mkFormal name def :: formals =>
      match find_attr args name, def with
      | Some j, _ => _ ← setValue env2 n (b_value j); match_formals pos env2 (S n) formals args (S attrsUsed)
      | None, Some d => c ← maybeThunk env2 d; _ ← setValue env2 n c; match_formals pos env2 (S n) formals args attrsUsed
      | None, None => throwTypeError ($"function at " ++ showPos pos ++ $" called without required argument `" ++ name ++ $"'")
      end
  end.

Definition bind_args (f : Lambda) (env2 arg : nat) : M ES unit :=
  match f with
  | mkLambda pos x false _ _ _ => setValue env2 0 arg
  | mkLambda pos x true formals ellipsis _ =>
      _ ← forceAttrs arg;
      _ ← (match x with [] => mret tt | _ => setValue env2 0 arg end);
      args ← bindingsOf arg;
      used ← match_formals pos env2 (match x with [] => 0 | _ => 1 end) formals args 0;
      if negb ellipsis && negb (used =? length args)%nat
      then throwTypeError ($"function at " ++ showPos pos ++ $" called with unexpected argument")
      else mret tt
  end.

Definition callFunction_step (fun_ arg v : nat) : M ES unit :=
  x ← deref fun_;
  match vtype x with
  | tPrimOp | tPrimOpApp => call_primop fun_ arg v
  | tLambda =>
      match payload x with
      | PLambda env ((mkLambda pos x matchAttrs formals _ body) as f) =>
          env2 ← allocEnv (length (lambda_vars x matchAttrs formals));
          _ ← setUp env2 env;
          _ ← bind_args f env2 arg;
          prefix_errors ($"while evaluating the function at " ++ showPos pos ++ $":" ++ [NL]) (r_eval R env2 body v)
      | _ => undefined
      end
  | t => wrongType ($"attempt to call something which is not a function but ") t []
  end.

(** *** Strings *)

Fixpoint concat_strings (env : nat) (es : list Expr) (isPath : option bool) (s : str) (context : gset str) : M ES (bool * str * gset str) :=
  match es with
  | [] => mret (default false isPath, s, context)
  | e :: es =>
      vStr ← allocValue;
      _ ← r_eval R env e vStr;
      t ← typeOf vStr;
      let isPath := default (bool_decide (t = tPath)) isPath in
      sc ← r_coerce R vStr context false (negb isPath);
      concat_strings env es (Some isPath) (s ++ sc.1) sc.2
  end.

Definition eval_concat (env : nat) (es : list Expr) (v : nat) : M ES unit :=
  r ← concat_strings env es None [] ∅;
  let '(isPath, s, context) := r in
  if isPath && negb (bool_decide (context = ∅))
  then throwEvalError ($"a string that refers to a store path cannot be appended to a path, in `" ++ s ++ $"'")
  else if (isPath : bool) then mkPath v s else mkString v s context.

(** *** Expressions *)

(** [!(a) || b] and the like evaluate the second operand only when needed. *)
Definition eval_update (env : nat) (e1 e2 : Expr) (v : nat) : M ES unit :=
  v1 ← allocValue; v2 ← allocValue;
  _ ← evalAttrs env e1 v1;
  _ ← evalAttrs env e2 v2;
  l1 ← bindingsOf v1; l2 ← bindingsOf v2;
  match l1, l2 with
  | [], _ => copyValue v2 v
  | _, [] => copyValue v1 v
  | _, _ => _ ← mkAttrs v; b ← attrsOf v; setBindings b (update_merge l1 l2)
  end.

Definition eval_step (env : nat) (e : Expr) (v : nat) : M ES unit :=
  match e with
  | ExprInt n => mkInt v n
  | ExprString s => assign v (mkValue tString (PString (c_str s) []))
  | ExprPath s => mkPath v s
  | ExprVar info => v2 ← lookupNow env info; _ ← forceValue v2; copyValue v2 v
  | ExprSelect e p def => vTmp ← allocValue; _ ← r_eval R env e vTmp; select_loop env v def p p vTmp None
  | ExprOpHasAttr e p => vTmp ← allocValue; _ ← r_eval R env e vTmp; hasAttr_loop v p vTmp
  | ExprAttrs r attrs => eval_attrs env r attrs v
  | ExprList elems => _ ← mkList v (length elems); eval_elems env v 0 elems
  | ExprLambda f => assign v (mkValue tLambda (PLambda env f))
  | ExprLet attrs body =>
      env2 ← allocEnv (length attrs);
      _ ← setUp env2 env;
      _ ← let_attrs env env2 0 attrs;
      r_eval R env2 body v
  | ExprWith pos attrs body prevWith =>
      env2 ← allocEnv 1;
      _ ← setUp env2 env;
      _ ← setPrevWith env2 prevWith;
      c ← allocValue;
      _ ← setValue env2 0 c;
      _ ← evalAttrs env attrs c;
      r_eval R env2 body v
  | ExprIf c t f => b ← evalBool env c; if (b : bool) then r_eval R env t v else r_eval R env f v
  | ExprAssert pos c body =>
      b ← evalBool env c;
      if negb b then raise eAssertionError ($"assertion failed at " ++ showPos pos) else r_eval R env body v
  | ExprOpNot e => b ← evalBool env e; mkBool v (negb b)
  | ExprApp e1 e2 =>
      vFun ← allocValue; _ ← r_eval R env e1 vFun;
      arg ← maybeThunk env e2;
      r_call R vFun arg v
  | ExprOpEq e1 e2 =>
      v1 ← allocValue; _ ← r_eval R env e1 v1; v2 ← allocValue; _ ← r_eval R env e2 v2;
      b ← r_eq R v1 v2; mkBool v b
  | ExprOpNEq e1 e2 =>
      v1 ← allocValue; _ ← r_eval R env e1 v1; v2 ← allocValue; _ ← r_eval R env e2 v2;
      b ← r_eq R v1 v2; mkBool v (negb b)
  | ExprOpAnd e1 e2 => b ← evalBool env e1; b ← (if (b : bool) then evalBool env e2 else mret false); mkBool v b
  | ExprOpOr e1 e2 => b ← evalBool env e1; b ← (if (b : bool) then mret true else evalBool env e2); mkBool v b
  | ExprOpImpl e1 e2 => b ← evalBool env e1; b ← (if negb b then mret true else evalBool env e2); mkBool v b
  | ExprOpUpdate e1 e2 => eval_update env e1 e2 v
  | ExprOpConcatLists e1 e2 =>
      v1 ← allocValue; _ ← r_eval R env e1 v1; v2 ← allocValue; _ ← r_eval R env e2 v2;
      concatLists v [v1; v2]
  | ExprConcatStrings es => eval_concat env es v
  end.

(** *** Coercion and comparison *)

(** [copyToStore]: the store path of a source, which is remembered. *)
Definition copySource (path : str) : M ES str :=
  m ← gets srcToStore;
  match default [] (m !! path) with
  | [] =>
      dstPath ← on_store (addSource path);
      _ ← modify (fun s => set_srcToStore (<[path := dstPath]> (srcToStore s)) s);
      mret dstPath
  | dstPath => mret dstPath
  end.

Definition coerce_path (p : str) (context : gset str) (copyToStore : bool) : M ES (str * gset str) :=
  path ← lift (fun _ => canonPath p);
  if negb copyToStore then mret (path, context)
  else if isDerivation path then throwEvalError ($"file names are not allowed to end in `" ++ drvExtension ++ $"'")
  else dstPath ← copySource path; mret (dstPath, {[dstPath]} ∪ context).

(** No separator after an empty list, nor after the last element. *)
Fixpoint coerce_list (elems : list (option nat)) (context : gset str) (coerceMore copyToStore : bool) (res : str) : M ES (str * gset str) :=
  match elems with
  | [] => mret (res, context)
  | o :: elems =>
      c ← some o;
      sc ← r_coerce R c context coerceMore copyToStore;
      x ← deref c;
      empty ← (if decide (vtype x = tList) then l ← listOf c; mret (bool_decide (l = [])) else mret false);
      let sep := match elems with [] => [] | _ => if (empty : bool) then [] else $" " end in
      coerce_list elems sc.2 coerceMore copyToStore (res ++ sc.1 ++ sep)
  end.

Definition coerceToString_step (v : nat) (context : gset str) (coerceMore copyToStore : bool) : M ES (str * gset str) :=
  _ ← forceValue v;
  t ← typeOf v;
  match t, coerceMore with
  | tString, _ => sc ← stringOf v; mret (sc.1, list_to_set sc.2 ∪ context)
  | tPath, _ => p ← pathOf v; coerce_path p context copyToStore
  | tAttrs, _ =>
      l ← bindingsOf v;
      match find_attr l sOutPath with
      | Some i => r_coerce R (b_value i) context coerceMore copyToStore
      | None => throwTypeError ($"cannot coerce an attribute set (except a derivation) to a string")
      end
  | tBool, true => b ← boolOf v; mret (if (b : bool) then $"1" else [], context)
  | tInt, true => n ← intOf v; mret (int2String n, context)
  | tNull, true => mret ([], context)
  | tList, true => l ← listOf v; coerce_list l context coerceMore copyToStore []
  | _, _ => wrongType ($"cannot coerce ") t ($" to a string")
  end.

Definition isDerivation_v (v : nat) : M ES bool :=
  t ← typeOf v;
  if decide (t = tAttrs) then
    l ← bindingsOf v;
    match find_attr l sType with
    | None => mret false
    | Some i =>
        _ ← forceValue (b_value i);
        t ← typeOf (b_value i);
        if decide (t = tString) then s ← forceStringNoCtx (b_value i); mret (str_eqb s ($"derivation")) else mret false
    end
  else mret false.

Fixpoint eq_lists (l1 l2 : list (option nat)) : M ES bool :=
  match l1, l2 with
  | o1 :: l1, o2 :: l2 => c1 ← some o1; c2 ← some o2; b ← r_eq R c1 c2; if (b : bool) then eq_lists l1 l2 else mret false
  | _, _ => mret true
  end.
Fixpoint eq_attrs (l1 l2 : list Attr) : M ES bool :=
  match l1, l2 with
  | i :: l1, j :: l2 =>
      if str_eqb (b_name i) (b_name j)
      then b ← r_eq R (b_value i) (b_value j); if (b : bool) then eq_attrs l1 l2 else mret false
      else mret false
  | _, _ => mret true
  end.

Definition eq_sets (v1 v2 : nat) : M ES bool :=
  d1 ← isDerivation_v v1;
  d2 ← (if (d1 : bool) then isDerivation_v v2 else mret false);
  l1 ← bindingsOf v1; l2 ← bindingsOf v2;
  match (if (d2 : bool) then find_attr l1 sOutPath else None), (if (d2 : bool) then find_attr l2 sOutPath else None) with
  | Some i, Some j => r_eq R (b_value i) (b_value j)
  | _, _ => if (length l1 =? length l2)%nat then eq_attrs l1 l2 else mret false
  end.

Definition eqValues_step (v1 v2 : nat) : M ES bool :=
  _ ← forceValue v1;
  _ ← forceValue v2;
  if (v1 =? v2)%nat then mret true
  else
    t1 ← typeOf v1; t2 ← typeOf v2;
    if decide (t1 = t2) then
      match t1 with
      | tInt => a ← intOf v1; b ← intOf v2; mret (bool_decide (a = b))
      | tBool => a ← boolOf v1; b ← boolOf v2; mret (bool_decide (a = b))
      | tString => a ← stringOf v1; b ← stringOf v2; mret (bool_decide (a = b))
      | tPath => a ← pathOf v1; b ← pathOf v2; mret (bool_decide (a = b))
      | tNull => mret true
      | tList => l1 ← listOf v1; l2 ← listOf v2; if (length l1 =? length l2)%nat then eq_lists l1 l2 else mret false
      | tAttrs => eq_sets v1 v2
      | tLambda | tPrimOp | tPrimOpApp => mret false
      | _ =>
          n1 ← lift (fun _ => showType t1); n2 ← lift (fun _ => showType t2);
          throwEvalError ($"cannot compare " ++ n1 ++ $" with " ++ n2)
      end
    else mret false.

(** *** Forcing with a context, and to a path *)

Definition forceStringCtx (v : nat) (context : gset str) : M ES (str * gset str) :=
  sc ← forceString v; mret (sc.1, list_to_set sc.2 ∪ context).

Definition coerceToPath (v : nat) (context : gset str) : M ES (str * gset str) :=
  sc ← r_coerce R v context false false;
  match sc.1 with
  | c :: _ => if char_eqb c slash then mret sc else throwEvalError ($"string `" ++ sc.1 ++ $"' doesn't represent an absolute path")
  | [] => throwEvalError ($"string `" ++ sc.1 ++ $"' doesn't represent an absolute path")
  end.

Definition step : Evaluator St := mkEvaluator eval_step callFunction_step coerceToString_step eqValues_step (S (r_fuel R)).
End Step.

Definition no_fuel : Evaluator St := mkEvaluator (fun _ _ _ => stuck) (fun _ _ _ => stuck) (fun _ _ _ _ => stuck) (fun _ _ => stuck) 0.
Fixpoint evaluator (n : nat) : Evaluator St := match n with O => no_fuel | S n => step (evaluator n) end.

Definition eval (n : nat) : nat -> Expr -> nat -> M ES unit := r_eval (evaluator n).
Definition callFunction (n : nat) : nat -> nat -> nat -> M ES unit := r_call (evaluator n).
Definition coerceToString (n : nat) : nat -> gset str -> bool -> bool -> M ES (str * gset str) := r_coerce (evaluator n).
Definition eqValues (n : nat) : nat -> nat -> M ES bool := r_eq (evaluator n).

Fixpoint strictForceValue (n : nat) (v : nat) : M ES unit :=
  match n with
  | O => stuck
  | S n =>
      _ ← forceValue (evaluator n) v;
      t ← typeOf v;
      match t with
      | tAttrs => l ← bindingsOf v; forM (fun i => strictForceValue n (b_value i)) l
      | tList => l ← listOf v; forM (fun o => c ← some o; strictForceValue n c) l
      | _ => mret tt
      end
  end.

(** The actual arguments that [autoCallFunction] finds in [args]. *)
Fixpoint auto_args (actualArgs : nat) (formals : list Formal) (args : list Attr) : M ES unit :=
  match formals with
  | [] => mret tt
  | mkFormal name def :: formals =>
      match find_attr args name, def with
      | Some j, _ => _ ← push_attr actualArgs j; auto_args actualArgs formals args
      | None, None => throwTypeError ($"cannot auto-call a function that has an argument without a default value (`" ++ name ++ $"')")
      | None, Some _ => auto_args actualArgs formals args
      end
  end.
Definition autoCallFunction (n : nat) (args : list Attr) (fun_ res : nat) : M ES unit :=
  _ ← forceValue (evaluator n) fun_;
  x ← deref fun_;
  match vtype x with
  | tLambda =>
      match payload x with
      | PLambda env (mkLambda pos _ true formals _ _) =>
          actualArgs ← allocValue;
          _ ← mkAttrs actualArgs;
          _ ← auto_args actualArgs formals args;
          b ← attrsOf actualArgs; l ← getBindings b; _ ← setBindings b (sort_attrs l);
          callFunction n fun_ actualArgs res
      | PLambda _ _ => copyValue fun_ res
      | _ => undefined
      end
  | _ => copyValue fun_ res
  end.
End Evaluation.
