(* ===== verification/Primops.v ===== *)
(** * The built-in functions (src/src/libexpr/primops.cc)

    Each built-in function is given the recursive calls, pointers to its arguments and
    the value for the result, as in the code.  What the evaluator uses of the store,
    the file system and the process is the class [EvalStore].  Parsing files, XML
    output and filtering sources are a parameter. *)

From Stdlib Require Import ZArith Lia Ascii Relations.
From stdpp Require Import base strings sorting numbers gmap sets list.
From S2P Require Import Prelude Effects Util Hash Names StorePath Derivations NixExpr Eval.

(** The operations of the store and of the system that built-in functions call. *)
Class EvalStore (St : Type) : Type := {
  storeDir : str;
  getEnvVar : str -> str;
  path_exists : str -> M St bool;
  read_file : str -> M St str;
  resolve_path : str -> M St str;  (** [canonPath(path, true)] *)
  is_valid : str -> M St bool;
  add_text : str -> str -> gset str -> M St str;  (** [computeStorePathForText] in read-only mode, else [addTextToStore] *)
  fs_closure : str -> M St (gset str);
  output_names : str -> M St (gset str);
  hash_modulo_of : Derivation -> M St Hash;
  write_drv : Derivation -> str -> M St str;
  remember_hash : str -> Hash -> M St unit }.

(** [decodeContext]; [std::string::npos + 1] is 0. *)
Definition decodeContext (s : str) : result (str * str) :=
  match s with
  | [] => throw eOutOfRange ($"basic_string::at")
  | c :: _ =>
      if char_eqb c "!"%char then
        match str_find_from "!"%char s 1 with
        | Some index => Ok (drop (S index) s, take (index - 1) (drop 1 s))
        | None => Ok (s, drop 1 s)
        end
      else Ok (s, [])
  end.

Definition is_int (n : Z) : bool := (- 2 ^ 31 <=? n)%Z && (n <? 2 ^ 31)%Z.

Section Primops.
Context `{SymbolTable} {St : Type} `{EvalStore St} `{HashAlgo}.
Abbreviation ES := (EvalState St).

(** Reading [args[i]]. *)
Definition argOf (args : list nat) (i : nat) : M ES nat := some (args !! i).

(** A signed result that does not fit is undefined in C++. *)
Definition mkIntExact (v : nat) (n : Z) : M ES unit := if is_int n then mkInt v n else raise eOverflow ($"signed integer overflow").

Definition sortBindings (v : nat) : M ES unit := b ← attrsOf v; l ← getBindings b; setBindings b (sort_attrs l).

Section Prims.
Context (R : Evaluator St).

(** ** Types of values *)

Definition prim_isType (p : ValueType -> bool) (args : list nat) (v : nat) : M ES unit :=
  a ← argOf args 0; _ ← forceValue R a; t ← typeOf a; mkBool v (p t).
Definition prim_isNull : list nat -> nat -> M ES unit := prim_isType (fun t => bool_decide (t = tNull)).
Definition prim_isFunction : list nat -> nat -> M ES unit := prim_isType (fun t => bool_decide (t = tLambda)).
Definition prim_isInt : list nat -> nat -> M ES unit := prim_isType (fun t => bool_decide (t = tInt)).
Definition prim_isString : list nat -> nat -> M ES unit := prim_isType (fun t => bool_decide (t = tString)).
Definition prim_isBool : list nat -> nat -> M ES unit := prim_isType (fun t => bool_decide (t = tBool)).
Definition prim_isAttrs : list nat -> nat -> M ES unit := prim_isType (fun t => bool_decide (t = tAttrs)).
Definition prim_isList : list nat -> nat -> M ES unit := prim_isType (fun t => bool_decide (t = tList)).

(** ** The closure of an operator *)

(** [CompareValues]: whether the first comes before the second. *)
Definition compareValues (v1 v2 : Value) : result bool :=
  if decide (vtype v1 = vtype v2) then
    match vtype v1, payload v1, payload v2 with
    | tInt, PInt a, PInt b => Ok (a <? b)%Z
    | tString, PString a _, PString b _ => Ok (str_ltb a b)
    | tPath, PPath a, PPath b => Ok (str_ltb a b)
    | t, _, _ => n ← showType t; throw eEvalError ($"cannot compare " ++ n ++ $" with " ++ n)
    end
  else throw eEvalError ($"cannot compare values of different types").

(** [doneKeys.find(key) != doneKeys.end()].  The keys in the set have one type, so
    whether a comparison throws depends only on the first one that is made. *)
Fixpoint key_seen (key : Value) (doneKeys : list Value) : result bool :=
  match doneKeys with
  | [] => Ok false
  | k :: doneKeys =>
      lt ← compareValues k key;
      gt ← compareValues key k;
      if negb lt && negb gt then Ok true else key_seen key doneKeys
  end.

(** The values that the operator returns are forced. *)
Fixpoint closure_new (elems : list (option nat)) : M ES (list nat) :=
  match elems with
  | [] => mret []
  | o :: elems => c ← some o; _ ← forceValue R c; l ← closure_new elems; mret (c :: l)
  end.

Fixpoint genericClosure_loop (fuel : nat) (op : nat) (workSet : list nat) (doneKeys : list Value) (res : list Value) : M ES (list Value) :=
  match workSet with
  | [] => mret res
  | e :: workSet =>
      match fuel with
      | O => stuck
      | S fuel =>
          _ ← forceAttrs R e;
          l ← bindingsOf e;
          match find_attr l ($"key") with
          | None => throwEvalError ($"attribute `key' required")
          | Some key =>
              _ ← forceValue R (b_value key);
              k ← deref (b_value key);
              seen ← lift (fun _ => key_seen k doneKeys);
              if (seen : bool) then genericClosure_loop fuel op workSet doneKeys res
              else
                x ← deref e;
                call ← allocValue;
                _ ← mkApp call op e;
                _ ← forceList R call;
                elems ← listOf call;
                new ← closure_new elems;
                genericClosure_loop fuel op (workSet ++ new) (doneKeys ++ [k]) (res ++ [x])
          end
      end
  end.

(** [*(v.list.elems[n++] = state.allocValue()) = x] *)
Fixpoint fill_values (v : nat) (n : nat) (xs : list Value) : M ES unit :=
  match xs with
  | [] => mret tt
  | x :: xs => c ← allocValue; _ ← setElem v n c; _ ← assign c x; fill_values v (S n) xs
  end.

Definition prim_genericClosure (args : list nat) (v : nat) : M ES unit :=
  a ← argOf args 0;
  _ ← forceAttrs R a;
  l ← bindingsOf a;
  match find_attr l ($"startSet") with
  | None => throwEvalError ($"attribute `startSet' required")
  | Some startSet =>
      _ ← forceList R (b_value startSet);
      elems ← listOf (b_value startSet);
      workSet ← fold_right (fun o m => c ← some o; w ← m; mret (c :: w)) (mret []) elems;
      l ← bindingsOf a;
      match find_attr l ($"operator") with
      | None => throwEvalError ($"attribute `operator' required")
      | Some op =>
          _ ← forceValue R (b_value op);
          res ← genericClosure_loop (r_fuel R) (b_value op) workSet [] [];
          _ ← mkList v (length res);
          fill_values v 0 res
      end
  end.

(** ** Errors *)

Definition prim_abort (args : list nat) (v : nat) : M ES unit :=
  a ← argOf args 0; sc ← r_coerce R a ∅ false true;
  raise eEvalAbort ($"evaluation aborted with the following error message: `" ++ sc.1 ++ $"'").
Definition prim_throw (args : list nat) (v : nat) : M ES unit :=
  a ← argOf args 0; sc ← r_coerce R a ∅ false true; raise eThrownError ($"user-thrown exception: " ++ sc.1).
Definition prim_addErrorContext (args : list nat) (v : nat) : M ES unit :=
  a0 ← argOf args 0; a1 ← argOf args 1;
  try_catch is_Error (_ ← forceValue R a1; copyValue a1 v)
    (fun e => sc ← r_coerce R a0 ∅ false true; rethrow (Exn (exn_kind e) (sc.1 ++ [NL] ++ exn_msg e))).

(** [AssertionError] and its subclass [ThrownError]. *)
Definition is_AssertionError (k : exn_class) : bool := match k with eAssertionError | eThrownError => true | _ => false end.
Definition prim_tryEval (args : list nat) (v : nat) : M ES unit :=
  a ← argOf args 0;
  _ ← mkAttrs v;
  _ ← try_catch is_AssertionError
    (_ ← forceValue R a; _ ← push_attr v (mkBinding ($"value") a noPos); c ← allocAttr v ($"success"); mkBool c true)
    (fun _ => c ← allocAttr v ($"value"); _ ← mkBool c false; c ← allocAttr v ($"success"); mkBool c false);
  sortBindings v.

Definition prim_getEnv (args : list nat) (v : nat) : M ES unit :=
  a ← argOf args 0; name ← forceStringNoCtx R a; mkString v (getEnvVar name) ∅.
(** What is printed is not modelled. *)
Definition prim_trace (args : list nat) (v : nat) : M ES unit :=
  a0 ← argOf args 0; a1 ← argOf args 1; _ ← forceValue R a0; _ ← forceValue R a1; copyValue a1 v.

(** ** Paths *)

Definition noContext (path : str) (context : gset str) : M ES unit :=
  if bool_decide (context = ∅) then mret tt else throwEvalError ($"string `" ++ path ++ $"' cannot refer to other paths").

Definition prim_toPath (args : list nat) (v : nat) : M ES unit :=
  a ← argOf args 0; sc ← coerceToPath R a ∅; p ← lift (fun _ => canonPath sc.1); mkString v p sc.2.
Definition prim_storePath (args : list nat) (v : nat) : M ES unit :=
  a ← argOf args 0; sc ← coerceToPath R a ∅;
  path ← (if isStorePath storeDir sc.1 then mret sc.1 else on_store (resolve_path sc.1));
  if negb (isInStore storeDir path) then throwEvalError ($"path `" ++ path ++ $"' is not in the Nix store")
  else
    path2 ← lift (fun _ => toStorePath storeDir path);
    valid ← on_store (is_valid path2);
    if negb valid then throwEvalError ($"store path `" ++ path2 ++ $"' is not valid")
    else mkString v path ({[path2]} ∪ sc.2).
Definition prim_pathExists (args : list nat) (v : nat) : M ES unit :=
  a ← argOf args 0; sc ← coerceToPath R a ∅; _ ← noContext sc.1 sc.2; b ← on_store (path_exists sc.1); mkBool v b.
Definition prim_baseNameOf (args : list nat) (v : nat) : M ES unit :=
  a ← argOf args 0; sc ← r_coerce R a ∅ false true; p ← lift (fun _ => baseNameOf sc.1); mkString v p sc.2.
Definition prim_dirOf (args : list nat) (v : nat) : M ES unit :=
  a ← argOf args 0; sc ← coerceToPath R a ∅; dir ← lift (fun _ => dirOf sc.1);
  t ← typeOf a;
  if decide (t = tPath) then mkPath v dir else mkString v dir sc.2.
Definition prim_readFile (args : list nat) (v : nat) : M ES unit :=
  a ← argOf args 0; sc ← coerceToPath R a ∅; _ ← noContext sc.1 sc.2; s ← on_store (read_file sc.1); mkString v s ∅.

(** ** Creating files *)

(** The references of a text: [path.at(0)] throws on an empty string. *)
Fixpoint text_refs (name : str) (context : list str) (refs : gset str) : result (gset str) :=
  match context with
  | [] => Ok refs
  | [] :: _ => throw eOutOfRange ($"basic_string::at")
  | (c :: p) :: context =>
      let path := if char_eqb c "="%char then p else c :: p in
      if isDerivation path then throw eEvalError ($"in `toFile': the file `" ++ name ++ $"' cannot refer to derivation outputs")
      else text_refs name context ({[path]} ∪ refs)
  end.
Definition prim_toFile (args : list nat) (v : nat) : M ES unit :=
  a0 ← argOf args 0; a1 ← argOf args 1;
  name ← forceStringNoCtx R a0;
  sc ← forceStringCtx R a1 ∅;
  refs ← lift (fun _ => text_refs name (set_iter sc.2) ∅);
  storePath ← on_store (add_text name sc.1 refs);
  mkString v storePath {[storePath]}.

(** ** Attribute sets *)

Fixpoint fill_strings (v : nat) (n : nat) (names : list str) : M ES unit :=
  match names with
  | [] => mret tt
  | x :: names => c ← allocValue; _ ← setElem v n c; _ ← mkString c x ∅; fill_strings v (S n) names
  end.
Definition prim_attrNames (args : list nat) (v : nat) : M ES unit :=
  a ← argOf args 0;
  _ ← forceAttrs R a;
  l ← bindingsOf a; _ ← mkList v (length l);
  l ← bindingsOf a;
  fill_strings v 0 (set_iter (list_to_set (b_name <$> l) : gset str)).

Definition prim_getAttr (args : list nat) (v : nat) : M ES unit :=
  a0 ← argOf args 0; a1 ← argOf args 1;
  attr ← forceStringNoCtx R a0;
  _ ← forceAttrs R a1;
  l ← bindingsOf a1;
  match find_attr l attr with
  | None => throwEvalError ($"attribute `" ++ attr ++ $"' missing")
  | Some i => _ ← forceValue R (b_value i); copyValue (b_value i) v
  end.
Definition prim_hasAttr (args : list nat) (v : nat) : M ES unit :=
  a0 ← argOf args 0; a1 ← argOf args 1;
  attr ← forceStringNoCtx R a0;
  _ ← forceAttrs R a1;
  l ← bindingsOf a1;
  mkBool v (bool_decide (is_Some (find_attr l attr))).

Fixpoint force_names (elems : list (option nat)) : M ES (list str) :=
  match elems with
  | [] => mret []
  | o :: elems => c ← some o; _ ← forceStringNoCtx R c; s ← stringOf c; l ← force_names elems; mret (s.1 :: l)
  end.
Definition prim_removeAttrs (args : list nat) (v : nat) : M ES unit :=
  a0 ← argOf args 0; a1 ← argOf args 1;
  _ ← forceAttrs R a0; _ ← forceList R a1;
  elems ← listOf a1; names ← force_names elems;
  _ ← mkAttrs v;
  l ← bindingsOf a0;
  forM (fun i => if bool_decide (b_name i ∈ names) then mret tt else push_attr v i) l.

Fixpoint list_attrs (v : nat) (elems : list (option nat)) (seen : list str) : M ES unit :=
  match elems with
  | [] => mret tt
  | o :: elems =>
      v2 ← some o;
      _ ← forceAttrs R v2;
      l ← bindingsOf v2;
      match find_attr l ($"name") with
      | None => throwTypeError ($"`name' attribute missing in a call to `listToAttrs'")
      | Some j =>
          name ← forceStringNoCtx R (b_value j);
          l ← bindingsOf v2;
          match find_attr l ($"value") with
          | None => throwTypeError ($"`value' attribute missing in a call to `listToAttrs'")
          | Some j2 =>
              if bool_decide (name ∈ seen) then list_attrs v elems seen
              else _ ← push_attr v (mkBinding name (b_value j2) (b_pos j2)); list_attrs v elems (name :: seen)
          end
      end
  end.
Definition prim_listToAttrs (args : list nat) (v : nat) : M ES unit :=
  a ← argOf args 0;
  _ ← forceList R a;
  _ ← mkAttrs v;
  elems ← listOf a;
  _ ← list_attrs v elems [];
  sortBindings v.

Definition prim_intersectAttrs (args : list nat) (v : nat) : M ES unit :=
  a0 ← argOf args 0; a1 ← argOf args 1;
  _ ← forceAttrs R a0; _ ← forceAttrs R a1;
  _ ← mkAttrs v;
  l0 ← bindingsOf a0; l1 ← bindingsOf a1;
  forM (fun i => match find_attr l1 (b_name i) with Some j => push_attr v j | None => mret tt end) l0.

Definition prim_functionArgs (args : list nat) (v : nat) : M ES unit :=
  a ← argOf args 0;
  _ ← forceValue R a;
  x ← deref a;
  if decide (vtype x = tLambda) then
    match payload x with
    | PLambda _ (mkLambda _ _ matchAttrs formals _ _) =>
        _ ← mkAttrs v;
        if negb matchAttrs then mret tt
        else
          _ ← forM (fun f => c ← allocAttr v (formal_name f); mkBool c (bool_decide (is_Some (formal_def f)))) formals;
          sortBindings v
    | _ => undefined
    end
  else throwTypeError ($"`functionArgs' requires a function").

(** ** Lists *)

Definition elemAt (list : nat) (n : Z) (v : nat) : M ES unit :=
  _ ← forceList R list;
  l ← listOf list;
  if (n <? 0)%Z || (Z.of_nat (length l) <=? n)%Z then raise eError ($"list index " ++ int2String n ++ $" is out of bounds")
  else c ← elemOf l (Z.to_nat n); _ ← forceValue R c; copyValue c v.
Definition prim_elemAt (args : list nat) (v : nat) : M ES unit :=
  a0 ← argOf args 0; a1 ← argOf args 1; n ← forceInt R a1; elemAt a0 n v.
Definition prim_head (args : list nat) (v : nat) : M ES unit := a ← argOf args 0; elemAt a 0 v.

Fixpoint copy_elems (v n : nat) (elems : list (option nat)) : M ES unit :=
  match elems with
  | [] => mret tt
  | o :: elems => c ← some o; _ ← setElem v n c; copy_elems v (S n) elems
  end.
Definition prim_tail (args : list nat) (v : nat) : M ES unit :=
  a ← argOf args 0;
  _ ← forceList R a;
  l ← listOf a;
  if bool_decide (l = []) then raise eError ($"`tail' called on an empty list")
  else _ ← mkList v (length l - 1); l ← listOf a; copy_elems v 0 (drop 1 l).

Fixpoint map_elems (f v n : nat) (elems : list (option nat)) : M ES unit :=
  match elems with
  | [] => mret tt
  | o :: elems => e ← some o; c ← allocValue; _ ← setElem v n c; _ ← mkApp c f e; map_elems f v (S n) elems
  end.
Definition prim_map (args : list nat) (v : nat) : M ES unit :=
  a0 ← argOf args 0; a1 ← argOf args 1;
  _ ← forceFunction R a0; _ ← forceList R a1;
  l ← listOf a1; _ ← mkList v (length l);
  l ← listOf a1; map_elems a0 v 0 l.

Fixpoint filter_elems (f : nat) (elems : list (option nat)) : M ES (list (option nat) * bool) :=
  match elems with
  | [] => mret ([], true)
  | o :: elems =>
      e ← some o;
      res ← allocValue;
      _ ← r_call R f e res;
      b ← forceBool R res;
      r ← filter_elems f elems;
      mret (if (b : bool) then (Some e :: r.1, r.2) else (r.1, false))
  end.
Definition prim_filter (args : list nat) (v : nat) : M ES unit :=
  a0 ← argOf args 0; a1 ← argOf args 1;
  _ ← forceFunction R a0; _ ← forceList R a1;
  l ← listOf a1;
  r ← filter_elems a0 l;
  if (r.2 : bool) then copyValue a1 v else assign v (mkValue tList (PList r.1)).

Fixpoint find_elem (x : nat) (elems : list (option nat)) : M ES bool :=
  match elems with
  | [] => mret false
  | o :: elems => c ← some o; b ← r_eq R x c; if (b : bool) then mret true else find_elem x elems
  end.
Definition prim_elem (args : list nat) (v : nat) : M ES unit :=
  a0 ← argOf args 0; a1 ← argOf args 1;
  _ ← forceList R a1; l ← listOf a1; b ← find_elem a0 l; mkBool v b.

Definition prim_concatLists (args : list nat) (v : nat) : M ES unit :=
  a ← argOf args 0; _ ← forceList R a; l ← listOf a;
  lists ← fold_right (fun o m => c ← some o; w ← m; mret (c :: w)) (mret []) l;
  concatLists R v lists.
Definition prim_length (args : list nat) (v : nat) : M ES unit :=
  a ← argOf args 0; _ ← forceList R a; l ← listOf a; mkInt v (i32 (Z.of_nat (length l))).

(** ** Arithmetic; the order of the operands of [+] and the like is not specified *)

Definition prim_arith (f : Z -> Z -> Z) (args : list nat) (v : nat) : M ES unit :=
  a0 ← argOf args 0; a1 ← argOf args 1; n ← forceInt R a0; m ← forceInt R a1; mkIntExact v (f n m).
Definition prim_add : list nat -> nat -> M ES unit := prim_arith Z.add.
Definition prim_sub : list nat -> nat -> M ES unit := prim_arith Z.sub.
Definition prim_mul : list nat -> nat -> M ES unit := prim_arith Z.mul.
Definition prim_div (args : list nat) (v : nat) : M ES unit :=
  a0 ← argOf args 0; a1 ← argOf args 1;
  i2 ← forceInt R a1;
  if (i2 =? 0)%Z then throwEvalError ($"division by zero")
  else n ← forceInt R a0; mkIntExact v (Z.quot n i2).
Definition prim_lessThan (args : list nat) (v : nat) : M ES unit :=
  a0 ← argOf args 0; a1 ← argOf args 1; n ← forceInt R a0; m ← forceInt R a1; mkBool v (n <? m)%Z.

(** ** Strings *)

Definition prim_toString (args : list nat) (v : nat) : M ES unit :=
  a ← argOf args 0; sc ← r_coerce R a ∅ true false; mkString v sc.1 sc.2.
(** A negative length is converted to an unsigned one, which is larger than any
    string. *)
Definition substring (s : str) (start len : Z) : str :=
  if (Z.of_nat (length s) <=? start)%Z then []
  else let r := drop (Z.to_nat start) s in if (len <? 0)%Z then r else take (Z.to_nat len) r.
Definition prim_substring (args : list nat) (v : nat) : M ES unit :=
  a0 ← argOf args 0; a1 ← argOf args 1; a2 ← argOf args 2;
  start ← forceInt R a0; len ← forceInt R a1;
  sc ← r_coerce R a2 ∅ false true;
  if (start <? 0)%Z then throwEvalError ($"negative start position in `substring'")
  else mkString v (substring sc.1 start len) sc.2.
Definition prim_stringLength (args : list nat) (v : nat) : M ES unit :=
  a ← argOf args 0; sc ← r_coerce R a ∅ false true; mkInt v (i32 (Z.of_nat (length sc.1))).
Definition prim_unsafeDiscardStringContext (args : list nat) (v : nat) : M ES unit :=
  a ← argOf args 0; sc ← r_coerce R a ∅ false true; mkString v sc.1 ∅.
Fixpoint discard_outputs (context : list str) (context2 : gset str) : result (gset str) :=
  match context with
  | [] => Ok context2
  | [] :: _ => throw eOutOfRange ($"basic_string::at")
  | (c :: p) :: context => discard_outputs context ({[(if char_eqb c "="%char then "~"%char else c) :: p]} ∪ context2)
  end.
Definition prim_unsafeDiscardOutputDependency (args : list nat) (v : nat) : M ES unit :=
  a ← argOf args 0; sc ← r_coerce R a ∅ false true;
  context2 ← lift (fun _ => discard_outputs (set_iter sc.2) ∅);
  mkString v sc.1 context2.

(** ** Versions *)

Definition prim_parseDrvName (args : list nat) (v : nat) : M ES unit :=
  a ← argOf args 0;
  name ← forceStringNoCtx R a;
  let parsed := DrvName_new name in
  _ ← mkAttrs v;
  c ← allocAttr v ($"name"); _ ← mkString c (Names.name parsed) ∅;
  c ← allocAttr v ($"version"); _ ← mkString c (version parsed) ∅;
  sortBindings v.
Definition prim_compareVersions (args : list nat) (v : nat) : M ES unit :=
  a0 ← argOf args 0; a1 ← argOf args 1;
  v1 ← forceStringNoCtx R a0; v2 ← forceStringNoCtx R a1;
  n ← lift (fun _ => compareVersions v1 v2); mkInt v n.
End Prims.
End Primops.
