(* ===== verification/PrimDerivation.v ===== *)
(** * Instantiating derivations ([prim_derivationStrict] of src/src/libexpr/primops.cc)

    The built-in function that turns an attribute set into a store derivation.  The
    theorem says that the output paths are determined by the derivation with its
    output paths left out, or by the declared hash, and that leaving them out of the result gives that back. *)

From Stdlib Require Import ZArith Lia Ascii Relations.
From stdpp Require Import base strings sorting numbers gmap sets list.
From S2P Require Import Prelude Effects Util Hash StorePath Derivations NixExpr Eval Primops.

Definition sName : str := $"name".
Definition sSystem : str := $"system".
Definition sDrvPath : str := $"drvPath".
Definition sIgnoreNulls : str := $"__ignoreNulls".

Definition empty_drv : Derivation := mkDerivation ∅ ∅ ∅ [] [] [] ∅.
Definition put_outputs (o : gmap str DerivationOutput) (d : Derivation) : Derivation :=
  mkDerivation o (inputDrvs d) (inputSrcs d) (platform d) (builder d) (args d) (env d).
Definition put_inputDrvs (i : gmap str (gset str)) (d : Derivation) : Derivation :=
  mkDerivation (outputs d) i (inputSrcs d) (platform d) (builder d) (args d) (env d).
Definition put_inputSrcs (i : gset str) (d : Derivation) : Derivation :=
  mkDerivation (outputs d) (inputDrvs d) i (platform d) (builder d) (args d) (env d).
Definition put_platform (p : str) (d : Derivation) : Derivation :=
  mkDerivation (outputs d) (inputDrvs d) (inputSrcs d) p (builder d) (args d) (env d).
Definition put_builder (b : str) (d : Derivation) : Derivation :=
  mkDerivation (outputs d) (inputDrvs d) (inputSrcs d) (platform d) b (args d) (env d).
Definition put_args (a : list str) (d : Derivation) : Derivation :=
  mkDerivation (outputs d) (inputDrvs d) (inputSrcs d) (platform d) (builder d) a (env d).
Definition put_env (e : gmap str str) (d : Derivation) : Derivation :=
  mkDerivation (outputs d) (inputDrvs d) (inputSrcs d) (platform d) (builder d) (args d) e.

(** The local variables of the function. *)
Record DrvBuild : Type := mkDrvBuild {
  db_drv : Derivation; db_name : str; db_outputHash : str; db_outputHashAlgo : str; db_recursive : bool; db_outputs : gset str }.
Definition with_drv (f : Derivation -> Derivation) (b : DrvBuild) : DrvBuild :=
  mkDrvBuild (f (db_drv b)) (db_name b) (db_outputHash b) (db_outputHashAlgo b) (db_recursive b) (db_outputs b).

(** The attribute [outputs]. *)
Fixpoint parse_outputs (tokens : list str) (outs : gset str) : result (gset str) :=
  match tokens with
  | [] => if bool_decide (outs = ∅) then throw eEvalError ($"derivation cannot have an empty set of outputs") else Ok outs
  | j :: tokens =>
      if bool_decide (j ∈ outs) then throw eEvalError ($"duplicate derivation output `" ++ j ++ $"'")
      else if str_eqb j ($"drv") then throw eEvalError ($"invalid derivation output name `drv'")
      else parse_outputs tokens ({[j]} ∪ outs)
  end.
Definition token_seps : str := [" "%char; TAB; NL; CR].

(** An attribute other than [args], coerced to [s]. *)
Definition drv_attr (b : DrvBuild) (key s : str) : result DrvBuild :=
  let b := with_drv (fun d => put_env (<[key := s]> (env d)) d) b in
  if str_eqb key ($"builder") then Ok (with_drv (put_builder s) b)
  else if str_eqb key sSystem then Ok (with_drv (put_platform s) b)
  else if str_eqb key sName then Ok (mkDrvBuild (db_drv b) s (db_outputHash b) (db_outputHashAlgo b) (db_recursive b) (db_outputs b))
  else if str_eqb key ($"outputHash") then Ok (mkDrvBuild (db_drv b) (db_name b) s (db_outputHashAlgo b) (db_recursive b) (db_outputs b))
  else if str_eqb key ($"outputHashAlgo") then Ok (mkDrvBuild (db_drv b) (db_name b) (db_outputHash b) s (db_recursive b) (db_outputs b))
  else if str_eqb key ($"outputHashMode") then
    if str_eqb s ($"recursive") then Ok (mkDrvBuild (db_drv b) (db_name b) (db_outputHash b) (db_outputHashAlgo b) true (db_outputs b))
    else if str_eqb s ($"flat") then Ok (mkDrvBuild (db_drv b) (db_name b) (db_outputHash b) (db_outputHashAlgo b) false (db_outputs b))
    else throw eEvalError ($"invalid value `" ++ s ++ $"' for `outputHashMode' attribute")
  else if str_eqb key ($"outputs") then
    outs ← parse_outputs (tokenizeString s token_seps) ∅;
    Ok (mkDrvBuild (db_drv b) (db_name b) (db_outputHash b) (db_outputHashAlgo b) (db_recursive b) outs)
  else Ok b.

(** The loop over the outputs of the masked derivation. *)
Definition fill_output `{HashAlgo} (nixStore : str) (h : Hash) (drvName : str) (d : Derivation) (i : str * DerivationOutput) : result Derivation :=
  match out_path i.2 with
  | [] =>
      outPath ← makeOutputPath nixStore i.1 h drvName;
      Ok (put_outputs (<[i.1 := mkDerivationOutput outPath (out_hashAlgo i.2) (out_hash i.2)]> (outputs d)) (put_env (<[i.1 := outPath]> (env d)) d))
  | _ => Ok d
  end.

(** The derivation without its output paths. *)
Definition blank_output (d : Derivation) (i : str) : Derivation :=
  put_outputs (<[i := mkDerivationOutput [] [] []]> (outputs d)) (put_env (<[i := []]> (env d)) d).
Definition blank_outputs (d : Derivation) (outs : gset str) : Derivation := foldl blank_output d (set_iter outs).

Definition fixed_output `{HashAlgo} (nixStore : str) (b : DrvBuild) : result Derivation :=
  if negb (size (db_outputs b) =? 1)%nat || negb (bool_decide (set_iter (db_outputs b) !! 0%nat = Some ($"out")))
  then error ($"multiple outputs are not supported in fixed-output derivations")
  else
    let ht := parseHashType (db_outputHashAlgo b) in
    if bool_decide (ht = htUnknown) then throw eEvalError ($"unknown hash algorithm `" ++ db_outputHashAlgo b ++ $"'")
    else
      h ← parseHash16or32 ht (db_outputHash b);
      let outputHashAlgo := (if db_recursive b then $"r:" else []) ++ db_outputHashAlgo b in
      outPath ← makeFixedOutputPath nixStore (db_recursive b) ht h (db_name b);
      let d := db_drv b in
      Ok (put_outputs (<[$"out" := mkDerivationOutput outPath outputHashAlgo (printHash h)]> (outputs d)) (put_env (<[$"out" := outPath]> (env d)) d)).

Section Strict.
Context `{SymbolTable} {St : Type} `{EvalStore St} `{HashAlgo}.
Abbreviation ES := (EvalState St).
Context (R : Evaluator St).

(** The command-line arguments. *)
Fixpoint drv_args (elems : list (option nat)) (context : gset str) (acc : list str) : M ES (list str * gset str) :=
  match elems with
  | [] => mret (acc, context)
  | o :: elems => c ← some o; sc ← r_coerce R c context true true; drv_args elems sc.2 (acc ++ [sc.1])
  end.

Definition drv_attribute (ignoreNulls : bool) (b : DrvBuild) (context : gset str) (i : Attr) : M ES (DrvBuild * gset str) :=
  skip ← (if ignoreNulls then _ ← forceValue R (b_value i); t ← typeOf (b_value i); mret (bool_decide (t = tNull)) else mret false);
  if (skip : bool) then mret (b, context)
  else if str_eqb (b_name i) ($"args") then
    _ ← forceList R (b_value i);
    elems ← listOf (b_value i);
    a ← drv_args elems context [];
    mret (with_drv (fun d => put_args (args d ++ a.1) d) b, a.2)
  else
    sc ← r_coerce R (b_value i) context true true;
    b ← lift (fun _ => drv_attr b (b_name i) sc.1);
    mret (b, sc.2).

Fixpoint drv_attributes (ignoreNulls : bool) (posDrvName : Pos) (attrs : list Attr) (b : DrvBuild) (context : gset str) : M ES (DrvBuild * gset str) :=
  match attrs with
  | [] => mret (b, context)
  | i :: attrs =>
      if str_eqb (b_name i) sIgnoreNulls then drv_attributes ignoreNulls posDrvName attrs b context
      else
        bc ← prefix_errors ($"while instantiating the derivation named `" ++ db_name b ++ $"' at " ++ showPos posDrvName ++ $":" ++ [NL] ++
                            $"while evaluating the derivation attribute `" ++ b_name i ++ $"' at " ++ showPos (b_pos i) ++ $":" ++ [NL])
               (drv_attribute ignoreNulls b context i);
        drv_attributes ignoreNulls posDrvName attrs bc.1 bc.2
  end.

(** What the context adds to the inputs. *)
Fixpoint closure_inputs (refs : list str) (d : Derivation) : M ES Derivation :=
  match refs with
  | [] => mret d
  | j :: refs =>
      let d := put_inputSrcs ({[j]} ∪ inputSrcs d) d in
      if isDerivation j then outs ← on_store (output_names j); closure_inputs refs (put_inputDrvs (<[j := outs]> (inputDrvs d)) d)
      else closure_inputs refs d
  end.
Fixpoint context_inputs (context : list str) (d : Derivation) : M ES Derivation :=
  match context with
  | [] => mret d
  | [] :: _ => raise eOutOfRange ($"basic_string::at")
  | ((c :: p) as path) :: context =>
      d ← (if char_eqb c "="%char then refs ← on_store (fs_closure p); closure_inputs (set_iter refs) d
           else if char_eqb c "~"%char then mret (put_inputSrcs ({[p]} ∪ inputSrcs d) d)
           else if char_eqb c "!"%char then
             ctx ← lift (fun _ => decodeContext path);
             mret (put_inputDrvs (<[ctx.1 := {[ctx.2]} ∪ default ∅ (inputDrvs d !! ctx.1)]> (inputDrvs d)) d)
           else if isDerivation path then outs ← on_store (output_names path); mret (put_inputDrvs (<[path := outs]> (inputDrvs d)) d)
           else mret (put_inputSrcs ({[path]} ∪ inputSrcs d) d));
      context_inputs context d
  end.

(** The checks, the output paths, and writing the derivation. *)
Definition drv_outputs (b : DrvBuild) : M ES Derivation :=
  let drv := db_drv b in
  if str_eqb (builder drv) [] then throwEvalError ($"required attribute `builder' missing")
  else if str_eqb (platform drv) [] then throwEvalError ($"required attribute `system' missing")
  else
    _ ← lift (fun _ => checkStoreName (db_name b));
    if isDerivation (db_name b) then throwEvalError ($"derivation names are not allowed to end in `" ++ drvExtension ++ $"'")
    else if negb (str_eqb (db_outputHash b) []) then lift (fun _ => fixed_output storeDir b)
    else
      let masked := blank_outputs drv (db_outputs b) in
      h ← on_store (hash_modulo_of masked);
      lift (fun _ => foldM (fill_output storeDir h (db_name b)) masked (map_iter (outputs masked))).

Definition instantiate (b : DrvBuild) : M ES (str * Derivation) :=
  drv ← drv_outputs b;
  drvPath ← on_store (write_drv drv (db_name b));
  h ← on_store (hash_modulo_of drv);
  _ ← on_store (remember_hash drvPath h);
  mret (drvPath, drv).

Definition prim_derivationStrict (args : list nat) (v : nat) : M ES unit :=
  a ← argOf args 0;
  _ ← forceAttrs R a;
  l ← bindingsOf a;
  match find_attr l sName with
  | None => throwEvalError ($"required attribute `name' missing")
  | Some attr =>
      drvName ← prefix_errors ($"while evaluating the derivation attribute `name' at " ++ showPos (b_pos attr) ++ $":" ++ [NL]) (forceStringNoCtx R (b_value attr));
      ignoreNulls ← (match find_attr l sIgnoreNulls with Some i => forceBool R (b_value i) | None => mret false end);
      bc ← drv_attributes ignoreNulls (b_pos attr) l (mkDrvBuild empty_drv drvName [] [] false {[$"out"]}) ∅;
      drv ← context_inputs (set_iter bc.2) (db_drv bc.1);
      r ← instantiate (with_drv (fun _ => drv) bc.1);
      _ ← mkAttrs v;
      c ← allocAttr v sDrvPath; _ ← mkString c r.1 {[("="%char : ascii) :: r.1]};
      _ ← forM (fun i => c ← allocAttr v i.1; mkString c (out_path i.2) {[$"!" ++ i.1 ++ $"!" ++ r.1]}) (map_iter (outputs r.2));
      sortBindings v
  end.
End Strict.

(** ** The output paths *)

Section Outputs.
Context `{HashAlgo} (nixStore : str).

Definition no_output : DerivationOutput := mkDerivationOutput [] [] [].

Lemma drv_eq d d' : (forall k, outputs d !! k = outputs d' !! k) -> (forall k, env d !! k = env d' !! k) ->
  inputDrvs d = inputDrvs d' -> inputSrcs d = inputSrcs d' -> platform d = platform d' -> builder d = builder d' -> args d = args d' -> d = d'.
Proof. destruct d, d'. cbn. intros H1 H2. intros. f_equal; try done; by apply map_eq. Qed.

(** Only the outputs and their variables differ. *)
Definition same_rest (d d' : Derivation) : Prop :=
  inputDrvs d = inputDrvs d' /\ inputSrcs d = inputSrcs d' /\ platform d = platform d' /\ builder d = builder d' /\ args d = args d'.
Lemma same_rest_trans d d1 d2 : same_rest d d1 -> same_rest d1 d2 -> same_rest d d2.
Proof. unfold same_rest. intros (-> & -> & -> & -> & ->). done. Qed.

Lemma blank_list_spec l : forall d k,
  outputs (foldl blank_output d l) !! k = (if bool_decide (k ∈ l) then Some no_output else outputs d !! k) /\
  env (foldl blank_output d l) !! k = (if bool_decide (k ∈ l) then Some [] else env d !! k) /\ same_rest (foldl blank_output d l) d.
Proof.
  induction l as [|i l IH]; intros d k; [done|]. cbn [foldl]. destruct (IH (blank_output d i) k) as (-> & -> & Hr). split_and!; [| |done].
  - destruct (decide (k ∈ l)) as [Hk|Hk]; [rewrite !bool_decide_eq_true_2 by (try done; by right); done|]. rewrite (bool_decide_eq_false_2 (k ∈ l)) by done.
    cbn. destruct (decide (k = i)) as [-> |Hne]; [rewrite lookup_insert_eq, bool_decide_eq_true_2 by left; done|].
    rewrite lookup_insert_ne by done. rewrite bool_decide_eq_false_2; [done|]. by intros [->|?]%elem_of_cons.
  - destruct (decide (k ∈ l)) as [Hk|Hk]; [rewrite !bool_decide_eq_true_2 by (try done; by right); done|]. rewrite (bool_decide_eq_false_2 (k ∈ l)) by done.
    cbn. destruct (decide (k = i)) as [-> |Hne]; [rewrite lookup_insert_eq, bool_decide_eq_true_2 by left; done|].
    rewrite lookup_insert_ne by done. rewrite bool_decide_eq_false_2; [done|]. by intros [->|?]%elem_of_cons.
Qed.

Lemma blank_outputs_spec d outs k :
  outputs (blank_outputs d outs) !! k = (if bool_decide (k ∈ outs) then Some no_output else outputs d !! k) /\
  env (blank_outputs d outs) !! k = (if bool_decide (k ∈ outs) then Some [] else env d !! k) /\ same_rest (blank_outputs d outs) d.
Proof.
  unfold blank_outputs. destruct (blank_list_spec (set_iter outs) d k) as (-> & -> & Hr).
  by rewrite (bool_decide_ext (k ∈ set_iter outs) (k ∈ outs)) by apply elem_of_set_iter.
Qed.

(** The loop that fills in the output paths. *)
Lemma fill_outputs_spec h name l : forall d d', NoDup l.*1 -> Forall (fun i => i.2 = no_output) l -> foldM (fill_output nixStore h name) d l = Ok d' ->
  same_rest d' d /\ forall k,
    (k ∈ l.*1 -> exists p, makeOutputPath nixStore k h name = Ok p /\ outputs d' !! k = Some (mkDerivationOutput p [] []) /\ env d' !! k = Some p) /\
    (k ∉ l.*1 -> outputs d' !! k = outputs d !! k /\ env d' !! k = env d !! k).
Proof.
  induction l as [|[i o] l IH]; intros d d' Hnd Hno Hf.
  - cbn in Hf. inv_ok. split; [done|]. intros k. split; [by intros ?%not_elem_of_nil|done].
  - cbn [foldM] in Hf. apply Forall_cons in Hno as [Ho Hno]. cbn in Ho. subst o. cbn in Hnd. apply NoDup_cons in Hnd as [Hi Hnd].
    apply bind_Ok in Hf as (d1 & H1 & Hf). cbn in H1. inv_ok. destruct (IH _ _ Hnd Hno Hf) as [Hr Hk]. split; [by eapply same_rest_trans|].
    intros k. destruct (Hk k) as [Hin Hout]. split.
    + intros [-> |Hkl]%elem_of_cons; [|by apply Hin]. destruct (Hout Hi) as [-> ->]. cbn. rewrite !lookup_insert_eq. eauto.
    + intros [Hne Hkl]%not_elem_of_cons. destruct (Hout Hkl) as [-> ->]. cbn. by rewrite !lookup_insert_ne by done.
Qed.

Lemma filled_outputs h name d outs d' : outputs d = ∅ ->
  foldM (fill_output nixStore h name) (blank_outputs d outs) (map_iter (outputs (blank_outputs d outs))) = Ok d' ->
  blank_outputs d' outs = blank_outputs d outs /\ same_rest d' d /\
  (forall k, k ∈ outs -> exists p, makeOutputPath nixStore k h name = Ok p /\ outputs d' !! k = Some (mkDerivationOutput p [] []) /\ env d' !! k = Some p) /\
  (forall k, k ∉ outs -> outputs d' !! k = None /\ env d' !! k = env d !! k).
Proof.
  intros He Hf. set (m := blank_outputs d outs) in *. assert (Hm : forall k, outputs m !! k = if bool_decide (k ∈ outs) then Some no_output else None).
  { intros k. unfold m. destruct (blank_outputs_spec d outs k) as (-> & _). by rewrite He, lookup_empty. }
  assert (Hkeys : forall k, k ∈ (map_iter (outputs m)).*1 <-> k ∈ outs).
  { intros k. rewrite list_elem_of_fmap. split.
    - intros ([k' o] & -> & Ho%elem_of_map_iter). rewrite Hm in Ho. cbn. by case_bool_decide.
    - intros Hk. exists (k, no_output). split; [done|]. apply elem_of_map_iter. rewrite Hm. by rewrite bool_decide_eq_true_2. }
  destruct (fill_outputs_spec h name (map_iter (outputs m)) m d') as [Hr Hk].
  - apply NoDup_map_iter.
  - apply Forall_forall. intros [k o] Ho%elem_of_map_iter. rewrite Hm in Ho. cbn. case_bool_decide; congruence.
  - done.
  - assert (Hr' : same_rest d' d) by (eapply same_rest_trans; [exact Hr|apply (blank_outputs_spec d outs [])]).
    split_and!; [|done| |].
    + apply drv_eq; try (by destruct (blank_outputs_spec d' outs []) as (_ & _ & Ha), Hr as (?&?&?&?&?), Ha as (?&?&?&?&?); congruence).
      * intros k. destruct (blank_outputs_spec d' outs k) as (-> & _). rewrite Hm. case_bool_decide as Hko; [done|].
        destruct (Hk k) as [_ Hn]. destruct Hn as [-> _]; [by rewrite Hkeys|]. rewrite Hm. by rewrite bool_decide_eq_false_2.
      * intros k. destruct (blank_outputs_spec d' outs k) as (_ & -> & _). destruct (blank_outputs_spec d outs k) as (_ & Hm2 & _). fold m in Hm2. rewrite Hm2.
        case_bool_decide as Hko; [done|]. destruct (Hk k) as [_ Hn]. destruct Hn as [_ ->]; [by rewrite Hkeys|]. by rewrite Hm2.
    + intros k Hko. apply Hk. by rewrite Hkeys.
    + intros k Hko. destruct (Hk k) as [_ Hn]. destruct Hn as [-> ->]; [by rewrite Hkeys|]. rewrite Hm. rewrite bool_decide_eq_false_2 by done. split; [done|].
      unfold m. destruct (blank_outputs_spec d outs k) as (_ & -> & _). by rewrite bool_decide_eq_false_2.
Qed.
End Outputs.

Section Instantiate.
Context `{SymbolTable} {St : Type} `{EvalStore St} `{HashAlgo}.
Abbreviation ES := (EvalState St).

Lemma on_store_inv {A} (m : M St A) (s s' : ES) a : on_store m s = Done a s' -> exists st, m (es_store s) = Done a st /\ s' = set_store st s.
Proof. unfold on_store, zoom. destruct (m (es_store s)) as [a' st| |]; [|done..]. intros [= <- <-]. eauto. Qed.
Lemma lift_inv {S A} (r : S -> result A) (s s' : S) a : lift r s = Done a s' -> r s = Ok a /\ s' = s.
Proof. unfold lift. destruct (r s); [|done..]. by intros [= <- <-]. Qed.

Lemma drv_outputs_run b (s s' : ES) drv : db_outputHash b = [] -> drv_outputs b s = Done drv s' ->
  exists h st, hash_modulo_of (blank_outputs (db_drv b) (db_outputs b)) (es_store s) = Done h st /\ s' = set_store st s /\
    foldM (fill_output storeDir h (db_name b)) (blank_outputs (db_drv b) (db_outputs b)) (map_iter (outputs (blank_outputs (db_drv b) (db_outputs b)))) = Ok drv.
Proof.
  intros Hh Hr. unfold drv_outputs in Hr. destruct (str_eqb (builder _) _); [done|]. destruct (str_eqb (platform _) _); [done|].
  apply run_bind_Done in Hr as ([] & s1 & [_ ->]%lift_inv & Hr). destruct (isDerivation _); [done|]. rewrite Hh in Hr. cbn [negb] in Hr. rewrite str_eqb_refl in Hr.
  cbn [negb] in Hr. apply run_bind_Done in Hr as (h & s2 & (st & Hm & ->)%on_store_inv & [Hr ->]%lift_inv). eauto.
Qed.

(** A fixed output. *)
Lemma fixed_output_inv b drv : fixed_output storeDir b = Ok drv -> db_outputs b = {[ $"out" ]} /\ exists h p,
  let ht := parseHashType (db_outputHashAlgo b) in
  ht <> htUnknown /\ parseHash16or32 ht (db_outputHash b) = Ok h /\ makeFixedOutputPath storeDir (db_recursive b) ht h (db_name b) = Ok p /\
  drv = put_outputs (<[$"out" := mkDerivationOutput p ((if db_recursive b then $"r:" else []) ++ db_outputHashAlgo b) (printHash h)]> (outputs (db_drv b)))
          (put_env (<[$"out" := p]> (env (db_drv b))) (db_drv b)).
Proof.
  unfold fixed_output. intros Hr. destruct (negb (_ =? _)%nat || _) eqn:Eo; [done|]. cbn zeta in Hr. case_bool_decide as Ht; [done|]. inv_ok.
  apply orb_false_iff in Eo as [Hsz%negb_false_iff%Nat.eqb_eq Hout%negb_false_iff%bool_decide_eq_true]. split; [|by eexists _, _].
  apply list_elem_of_lookup_2, elem_of_set_iter in Hout. apply size_1_elem_of in Hsz as [z Hz]. apply leibniz_equiv in Hz. rewrite Hz in Hout |- *.
  by apply elem_of_singleton in Hout as <-.
Qed.

Lemma drv_outputs_fixed b (s s' : ES) drv : db_outputHash b <> [] -> drv_outputs b s = Done drv s' -> fixed_output storeDir b = Ok drv.
Proof.
  intros Hh Hr. unfold drv_outputs in Hr. destruct (str_eqb (builder _) _); [done|]. destruct (str_eqb (platform _) _); [done|].
  apply run_bind_Done in Hr as ([] & s1 & [_ ->]%lift_inv & Hr). destruct (isDerivation _); [done|]. destruct (db_outputHash b); [done|]. by apply lift_inv in Hr as [? _].
Qed.

Lemma fixed_blank (d : Derivation) o p : blank_outputs (put_outputs (<[$"out" := o]> (outputs d)) (put_env (<[$"out" := p]> (env d)) d)) {[ $"out" ]} = blank_outputs d {[ $"out" ]}.
Proof.
  set (d' := put_outputs _ _). apply drv_eq; try (by destruct (blank_outputs_spec d' {[ $"out" ]} []) as (_ & _ & Ha), (blank_outputs_spec d {[ $"out" ]} []) as (_ & _ & Hb);
    destruct Ha as (?&?&?&?&?), Hb as (?&?&?&?&?); cbn in *; congruence).
  - intros k. destruct (blank_outputs_spec d' {[ $"out" ]} k) as (-> & _). destruct (blank_outputs_spec d {[ $"out" ]} k) as (-> & _).
    case_bool_decide as Hk; [done|]. cbn. rewrite lookup_insert_ne; [done|]. intros <-. by apply Hk, elem_of_singleton.
  - intros k. destruct (blank_outputs_spec d' {[ $"out" ]} k) as (_ & -> & _). destruct (blank_outputs_spec d {[ $"out" ]} k) as (_ & -> & _).
    case_bool_decide as Hk; [done|]. cbn. rewrite lookup_insert_ne; [done|]. intros <-. by apply Hk, elem_of_singleton.
Qed.

(** C35: the output paths of a derivation that is instantiated.  Let [b] be what the attributes and the context determined, and let instantiation
    return [drv].  Leaving the output paths out of [drv] (in the outputs and in the environment) gives the same as leaving them out of [b]; the
    outputs of [drv] are the declared ones, and nothing else of the derivation was changed.  Without [outputHash], each output has the path that
    [makeOutputPath] gives for the hash of the derivation without its output paths, also in the environment.  With [outputHash], the only
    output is [out], the declared hash is one of the declared type, and the path is the fixed-output path of that hash, mode and name. *)
Theorem instantiate_outputs b (s s' : ES) drvPath drv :
  outputs (db_drv b) = ∅ -> instantiate b s = Done (drvPath, drv) s' ->
  blank_outputs drv (db_outputs b) = blank_outputs (db_drv b) (db_outputs b) /\
  (db_outputHash b = [] -> exists h st, hash_modulo_of (blank_outputs drv (db_outputs b)) (es_store s) = Done h st /\
    forall k, k ∈ db_outputs b -> exists p, makeOutputPath storeDir k h (db_name b) = Ok p /\
      outputs drv !! k = Some (mkDerivationOutput p [] []) /\ env drv !! k = Some p) /\
  (db_outputHash b <> [] -> db_outputs b = {[ $"out" ]} /\ exists h p, let ht := parseHashType (db_outputHashAlgo b) in
    ht <> htUnknown /\ parseHash16or32 ht (db_outputHash b) = Ok h /\ makeFixedOutputPath storeDir (db_recursive b) ht h (db_name b) = Ok p /\
    outputs drv !! ($"out") = Some (mkDerivationOutput p ((if db_recursive b then $"r:" else []) ++ db_outputHashAlgo b) (printHash h)) /\ env drv !! ($"out") = Some p) /\
  (forall k, k ∉ db_outputs b -> outputs drv !! k = None /\ env drv !! k = env (db_drv b) !! k) /\
  inputDrvs drv = inputDrvs (db_drv b) /\ inputSrcs drv = inputSrcs (db_drv b) /\ platform drv = platform (db_drv b) /\
  builder drv = builder (db_drv b) /\ args drv = args (db_drv b).
Proof.
  intros Ho Hr. unfold instantiate in Hr. apply run_bind_Done in Hr as (drv' & s1 & Hd & Hr).
  apply run_bind_Done in Hr as (p & s2 & _ & Hr). apply run_bind_Done in Hr as (h' & s3 & _ & Hr). apply run_bind_Done in Hr as ([] & s4 & _ & Hr).
  injection Hr as -> -> _. destruct (decide (db_outputHash b = [])) as [Hh|Hh].
  - apply drv_outputs_run in Hd as (h & st & Hm & -> & Hf); [|done].
    destruct (filled_outputs storeDir h (db_name b) _ _ _ Ho Hf) as (Em & Hs & Hin & Hout). rewrite Em. split_and!; [done|by eauto|done|done|apply Hs..].
  - apply drv_outputs_fixed, fixed_output_inv in Hd as (Eo & h & q & Ht & Hp & Hq & ->); [|done]. rewrite Eo. split_and!; try done; [apply fixed_blank| |].
    + intros _. split; [done|]. exists h, q. cbn. by rewrite !lookup_insert_eq.
    + intros k Hk. cbn. rewrite !lookup_insert_ne, Ho by (intros <-; by apply Hk, elem_of_singleton). done.
Qed.
End Instantiate.
