(* ===== verification/BaseEnv.v ===== *)
(** * The base environment (src/src/libexpr/primops.cc, eval.cc)

    The table of built-in functions and [createBaseEnv], which puts them and the
    global constants into the environment that expressions are bound in. *)

From Stdlib Require Import ZArith Lia Ascii Relations.
From stdpp Require Import base strings sorting numbers gmap sets list.
From S2P Require Import Prelude Effects Util Hash StorePath Derivations NixExpr Eval Primops PrimDerivation.

(** [string(name, 0, 2) == "__" ? string(name, 2) : name] *)
Definition public_name (name : str) : str := if str_eqb (take 2 name) ($"__") then drop 2 name else name.

Section BaseEnv.
Context `{SymbolTable} {St : Type} `{EvalStore St} `{HashAlgo}.
Abbreviation ES := (EvalState St).
Abbreviation Prim := (Evaluator St -> list nat -> nat -> M ES unit).

(** [prim_import], [prim_toXML] and [prim_filterSource]. *)
Context (prim_import prim_toXML prim_filterSource : Prim).

Definition misc_primops : list (str * nat * Prim) :=
  [ ($"import", 1%nat, prim_import); ($"isNull", 1%nat, prim_isNull); ($"__isFunction", 1%nat, prim_isFunction);
    ($"__isString", 1%nat, prim_isString); ($"__isInt", 1%nat, prim_isInt); ($"__isBool", 1%nat, prim_isBool);
    ($"__genericClosure", 1%nat, prim_genericClosure); ($"abort", 1%nat, prim_abort); ($"throw", 1%nat, prim_throw);
    ($"__addErrorContext", 2%nat, prim_addErrorContext); ($"__tryEval", 1%nat, prim_tryEval);
    ($"__getEnv", 1%nat, prim_getEnv); ($"__trace", 2%nat, prim_trace) ].
Definition path_primops : list (str * nat * Prim) :=
  [ ($"__toPath", 1%nat, prim_toPath); ($"__storePath", 1%nat, prim_storePath); ($"__pathExists", 1%nat, prim_pathExists);
    ($"baseNameOf", 1%nat, prim_baseNameOf); ($"dirOf", 1%nat, prim_dirOf); ($"__readFile", 1%nat, prim_readFile);
    ($"__toXML", 1%nat, prim_toXML); ($"__toFile", 2%nat, prim_toFile); ($"__filterSource", 2%nat, prim_filterSource) ].
Definition attr_primops : list (str * nat * Prim) :=
  [ ($"__attrNames", 1%nat, prim_attrNames); ($"__getAttr", 2%nat, prim_getAttr); ($"__hasAttr", 2%nat, prim_hasAttr);
    ($"__isAttrs", 1%nat, prim_isAttrs); ($"removeAttrs", 2%nat, prim_removeAttrs); ($"__listToAttrs", 1%nat, prim_listToAttrs);
    ($"__intersectAttrs", 2%nat, prim_intersectAttrs); ($"__functionArgs", 1%nat, prim_functionArgs) ].
Definition list_primops : list (str * nat * Prim) :=
  [ ($"__isList", 1%nat, prim_isList); ($"__elemAt", 2%nat, prim_elemAt); ($"__head", 1%nat, prim_head); ($"__tail", 1%nat, prim_tail);
    ($"map", 2%nat, prim_map); ($"__filter", 2%nat, prim_filter); ($"__elem", 2%nat, prim_elem);
    ($"__concatLists", 1%nat, prim_concatLists); ($"__length", 1%nat, prim_length) ].
Definition other_primops : list (str * nat * Prim) :=
  [ ($"__add", 2%nat, prim_add); ($"__sub", 2%nat, prim_sub); ($"__mul", 2%nat, prim_mul); ($"__div", 2%nat, prim_div);
    ($"__lessThan", 2%nat, prim_lessThan); ($"toString", 1%nat, prim_toString); ($"__substring", 3%nat, prim_substring);
    ($"__stringLength", 1%nat, prim_stringLength); ($"__unsafeDiscardStringContext", 1%nat, prim_unsafeDiscardStringContext);
    ($"__unsafeDiscardOutputDependency", 1%nat, prim_unsafeDiscardOutputDependency);
    ($"__parseDrvName", 1%nat, prim_parseDrvName); ($"__compareVersions", 2%nat, prim_compareVersions);
    ($"derivationStrict", 1%nat, prim_derivationStrict) ].
Definition primops : list (str * nat * Prim) := misc_primops ++ path_primops ++ attr_primops ++ list_primops ++ other_primops.

(** Calling the function that a [PrimOp] points to. *)
Fixpoint find_primop (table : list (str * nat * Prim)) (name : str) : option Prim :=
  match table with
  | [] => None
  | (x, _, f) :: table => if str_eqb (public_name x) name then Some f else find_primop table name
  end.
Definition primOpFun (R : Evaluator St) (name : str) (args : list nat) (v : nat) : M ES unit :=
  match find_primop primops name with Some f => f R args v | None => undefined end.

(** [baseEnvDispl] and [staticBaseEnv.vars]. *)
Definition BaseVars : Type := nat * gmap str nat.

Definition add_global (baseEnv : nat) (name : str) (v2 : nat) (bv : BaseVars) : M ES BaseVars :=
  _ ← setValue baseEnv bv.1 v2;
  x ← derefEnv baseEnv;
  o ← some (env_values x !! 0%nat); builtins ← some o;
  _ ← push_attr builtins (mkBinding (public_name name) v2 noPos);
  mret (S bv.1, <[name := bv.1]> bv.2).
Definition addConstant (baseEnv : nat) (name : str) (v : nat) (bv : BaseVars) : M ES BaseVars :=
  v2 ← allocValue; _ ← copyValue v v2; add_global baseEnv name v2 bv.
Definition addPrimOp (baseEnv : nat) (name : str) (arity : nat) (bv : BaseVars) : M ES BaseVars :=
  v ← allocValue; _ ← assign v (mkValue tPrimOp (PPrimOp (mkPrimOp (public_name name) arity))); add_global baseEnv name v bv.
Fixpoint addPrimOps (baseEnv : nat) (table : list (str * nat * Prim)) (bv : BaseVars) : M ES BaseVars :=
  match table with
  | [] => mret bv
  | (name, n, _) :: table => bv ← addPrimOp baseEnv name n bv; addPrimOps baseEnv table bv
  end.

(** [time(0)], [settings.thisSystem], [nixVersion], and the expression in
    corepkgs/derivation.nix; [parseExprFromFile] binds it after parsing. *)
Context (currentTime : Z) (thisSystem nixVersion : str) (derivation_nix : Expr).

(** The constants are written to one local variable. *)
Definition createBaseEnv : M ES (nat * StaticEnv) :=
  baseEnv ← allocEnv 128;
  v ← allocValue;
  _ ← mkAttrs v; bv ← addConstant baseEnv ($"builtins") v (0%nat, ∅);
  _ ← mkBool v true; bv ← addConstant baseEnv ($"true") v bv;
  _ ← mkBool v false; bv ← addConstant baseEnv ($"false") v bv;
  _ ← setType v tNull; bv ← addConstant baseEnv ($"null") v bv;
  _ ← mkInt v (i32 currentTime); bv ← addConstant baseEnv ($"__currentTime") v bv;
  _ ← mkString v thisSystem ∅; bv ← addConstant baseEnv ($"__currentSystem") v bv;
  _ ← mkString v nixVersion ∅; bv ← addConstant baseEnv ($"__nixVersion") v bv;
  _ ← mkInt v 1; bv ← addConstant baseEnv ($"__langVersion") v bv;
  bv ← addPrimOps baseEnv primops bv;
  e ← lift (fun _ => bindVars [FVars bv.2] derivation_nix);
  _ ← mkThunk v baseEnv e; bv ← addConstant baseEnv ($"derivation") v bv;
  x ← derefEnv baseEnv;
  o ← some (env_values x !! 0%nat); builtins ← some o;
  _ ← sortBindings builtins;
  mret (baseEnv, [FVars bv.2]).

(** [EvalState::EvalState], and evaluating an expression that has been parsed. *)
Definition eval_toplevel (addSource : str -> M St str) (n : nat) (e : Expr) : M ES nat :=
  b ← createBaseEnv;
  e ← lift (fun _ => bindVars b.2 e);
  v ← allocValue;
  _ ← eval primOpFun addSource n b.1 e v;
  mret v.
End BaseEnv.
