(* ===== verification/EvalLocal.v ===== *)
(** * The evaluator on a local store

    What the evaluator uses of the store, on the tables of the local store and in
    read-only mode; and that the store accepts the derivations that the evaluator
    instantiates: [checkDerivationOutputs] recomputes the output paths from the
    derivation alone and finds the same. *)

From Stdlib Require Import ZArith Lia Ascii Relations.
From stdpp Require Import base strings sorting numbers gmap sets list.
From S2P Require Import Prelude Effects Util Hash FileSystem StorePath Derivations Closure LocalStore NixExpr Eval Primops PrimDerivation.

(** ** Hashing again *)

Section Again.
Context `{HA : HashAlgo} (valid : str -> bool) (readFile : str -> result str).

(** One input of [hashDerivationModulo]. *)
Definition hash_input (fuel : nat) : gmap str (gset str) * gmap str Hash -> str * gset str -> result (gmap str (gset str) * gmap str Hash) :=
  fun '(inputs2, memo) '(p, outs) =>
  let h := default Hash_default (memo !! p) in
  let memo := <[p := h]> memo in
  '(h, memo) ←
    (if bool_decide (type h = htUnknown) then
       _ ← assert_ (valid p); contents ← readFile p; drv2 ← parseDerivation contents;
       '(h, memo) ← hashDerivationModulo valid readFile fuel drv2 memo;
       Ok (h, <[p := h]> memo)
     else Ok (h, memo));
  Ok (<[printHash h := outs]> inputs2, memo).

Lemma hashDerivationModulo_step fuel drv memo : hashDerivationModulo valid readFile (S fuel) drv memo =
  if isFixedOutputDrv drv then h ← fixed_hash drv; Ok (h, memo)
  else '(inputs2, memo) ← foldM (hash_input fuel) (∅, memo) (map_iter (inputDrvs drv));
    h ← hashString htSHA256 (unparseDerivation (with_inputDrvs drv inputs2)); Ok (h, memo).
Proof. done. Qed.

Definition known (memo : gmap str Hash) (p : str) (h : Hash) : Prop := memo !! p = Some h /\ type h <> htUnknown.
Definition knows_more (memo memo' : gmap str Hash) : Prop := forall p h, known memo p h -> known memo' p h.

(** What the table knows is kept, and afterwards it knows the input. *)
Definition keeps_known (fuel : nat) : Prop := forall drv memo h memo', hashDerivationModulo valid readFile fuel drv memo = Ok (h, memo') -> type h <> htUnknown /\ knows_more memo memo'.

Lemma hash_input_known fuel inputs memo p outs inputs' memo' : keeps_known fuel -> hash_input fuel (inputs, memo) (p, outs) = Ok (inputs', memo') ->
  exists h, inputs' = <[printHash h := outs]> inputs /\ known memo' p h /\ knows_more memo memo'.
Proof.
  intros Hk E. unfold hash_input in E. set (h0 := default Hash_default (memo !! p)) in E.
  assert (Hm : knows_more memo (<[p := h0]> memo)).
  { intros q h [Hq Ht]. split; [|done]. destruct (decide (q = p)) as [-> |Hne]; [rewrite lookup_insert_eq; unfold h0; by rewrite Hq|by rewrite lookup_insert_ne]. }
  apply bind_Ok in E as ([h memo1] & E & E2). injection E2 as <- <-. destruct (bool_decide (type h0 = htUnknown)) eqn:Et; reflect.
  - apply bind_Ok in E as ([] & _ & E). apply bind_Ok in E as (c & _ & E). apply bind_Ok in E as (drv2 & _ & E). apply bind_Ok in E as ([h2 memo2] & E & E2). injection E2 as <- <-.
    destruct (Hk _ _ _ _ E) as [Ht Hm2]. exists h2. split_and!; [done|split; [apply lookup_insert_eq|done]|].
    intros q hq Hq. destruct (decide (q = p)) as [-> |Hne].
    + destruct Hq as [Hq Hqt]. unfold h0 in Et. rewrite Hq in Et. done.
    + destruct (Hm2 q hq (Hm q hq Hq)) as [Hq2 Hqt]. split; [by rewrite lookup_insert_ne|done].
  - injection E as <- <-. exists h0. split_and!; [done|split; [apply lookup_insert_eq|done]|done].
Qed.

Lemma hash_inputs_known fuel l : keeps_known fuel -> forall inputs memo inputs' memo', foldM (hash_input fuel) (inputs, memo) l = Ok (inputs', memo') ->
  knows_more memo memo' /\ exists hs, Forall2 (fun i h => known memo' i.1 h) l hs /\
    inputs' = foldl (fun m ih => <[printHash ih.2 := ih.1.2]> m) inputs (zip l hs).
Proof.
  intros Hk. induction l as [|[p outs] l IH]; intros inputs memo inputs' memo' E; cbn [foldM] in E.
  - injection E as <- <-. split; [by intros q hq|]. exists []. by split; [constructor|].
  - apply bind_Ok in E as ([inputs1 memo1] & E1 & E). destruct (hash_input_known _ _ _ _ _ _ _ Hk E1) as (h & -> & Hh & Hm1).
    destruct (IH _ _ _ _ E) as (Hm2 & hs & Hhs & ->). split; [intros q hq Hq; by apply Hm2, Hm1|]. exists (h :: hs). split; [constructor; [by apply Hm2|done]|done].
Qed.

Lemma keeps_known_all fuel : keeps_known fuel.
Proof.
  induction fuel as [|fuel IH]; intros drv memo h memo' E; [done|]. rewrite hashDerivationModulo_step in E. destruct (isFixedOutputDrv drv).
  - apply bind_Ok in E as (h' & Eh & [= <- <-]). split; [|by intros q hq]. unfold fixed_hash in Eh. destruct (map_iter (outputs drv)) as [|[id o] l]; [done|].
    apply hashString_type in Eh. by rewrite Eh.
  - apply bind_Ok in E as ([inputs2 memo2] & Ei & E). apply bind_Ok in E as (h' & Eh & [= <- <-]). apply hashString_type in Eh. rewrite Eh. split; [done|].
    by apply (hash_inputs_known _ _ IH) in Ei as [? _].
Qed.

Lemma hash_input_again fuel inputs memo p outs h : known memo p h -> hash_input fuel (inputs, memo) (p, outs) = Ok (<[printHash h := outs]> inputs, memo).
Proof.
  intros [Hp Ht]. unfold hash_input. rewrite Hp. cbn [default]. rewrite bool_decide_eq_false_2 by done. cbn [mbind result_bind]. change (id h) with h. by rewrite (insert_id memo).
Qed.

(** Hashing a derivation a second time gives the same, whatever the bound. *)
Lemma hashDerivationModulo_again fuel fuel' drv memo h memo' : hashDerivationModulo valid readFile fuel drv memo = Ok (h, memo') ->
  hashDerivationModulo valid readFile (S fuel') drv memo' = Ok (h, memo').
Proof.
  destruct fuel as [|fuel]; [done|]. rewrite !hashDerivationModulo_step. destruct (isFixedOutputDrv drv).
  - intros E. apply bind_Ok in E as (h' & -> & [= <- <-]). done.
  - intros E. apply bind_Ok in E as ([inputs2 memo2] & Ei & E). apply bind_Ok in E as (h' & Eh & [= <- <-]).
    destruct (hash_inputs_known _ _ (keeps_known_all fuel) _ _ _ _ Ei) as (_ & hs & Hhs & Ei2).
    assert (Hre : foldM (hash_input fuel') (∅, memo2) (map_iter (inputDrvs drv)) = Ok (inputs2, memo2)).
    { rewrite Ei2. generalize (∅ : gmap str (gset str)). clear -Hhs. induction Hhs as [|[p outs] h l hs Hh _ IH]; intros m; [done|]. cbn [foldM].
      rewrite (hash_input_again _ _ _ _ _ _ Hh). cbn [mbind result_bind]. apply IH. }
    rewrite Hre. cbn [mbind result_bind]. by rewrite Eh.
Qed.
End Again.

(** ** Hashes that are parsed *)

Lemma parseHash_loop_bytes s n : forall ps bytes bytes', Forall byte bytes -> Forall (fun i => (i < n)%nat) ps -> parseHash_loop s ps bytes = Ok bytes' ->
  Forall byte bytes' /\ length bytes' = length bytes /\ drop n bytes' = drop n bytes.
Proof.
  induction ps as [|i ps IH]; intros bytes bytes' Hb Hp E; cbn [parseHash_loop] in E; [by injection E as <-|]. apply Forall_cons in Hp as [Hi Hp].
  apply bind_Ok in E as (s2 & _ & E). destruct (negb _ || negb _); [done|]. apply IH in E as (H1 & H2 & H3); [|apply Forall_insert; [done|unfold byte, u8; apply Z.mod_pos_bound; lia]|done].
  split_and!; [done|by rewrite H2, length_insert|]. rewrite H3. by rewrite drop_insert_lt by lia.
Qed.

Lemma Hash_new_ok ht h : Hash_new ht = Ok h -> hash_ok h /\ type h = ht.
Proof.
  intros E. destruct (hashTypeSize ht) as [n|] eqn:En; [|unfold Hash_new in E; by rewrite En in E]. pose proof (hashTypeSize_bound _ _ En). rewrite (Hash_new_known _ _ En) in E. assert (h = mkHash n (replicate maxHashSize 0%Z) ht) as -> by congruence. split; [|done]. split; [|done].
  split; cbn [hash hashSize]; [apply length_replicate|apply Forall_replicate; unfold byte; lia|lia|apply drop_replicate].
Qed.

Lemma parseHash16or32_ok ht s h : parseHash16or32 ht s = Ok h -> hash_ok h /\ type h = ht.
Proof.
  intros E. unfold parseHash16or32 in E. apply bind_Ok in E as (h0 & E0 & E). destruct (Hash_new_ok _ _ E0) as [[W Hht] Ht].
  destruct (_ =? _)%nat; [|destruct (_ =? _)%Z].
  - unfold parseHash in E. rewrite E0 in E. cbn [mbind result_bind] in E. destruct (negb _); [done|]. apply bind_Ok in E as (bytes & Eb & [= <-]).
    assert (Hseq : Forall (fun i => (i < hashSize h0)%nat) (seq 0 (hashSize h0))) by (apply Forall_forall; intros j Hj; apply elem_of_seq in Hj; lia).
    destruct (parseHash_loop_bytes s (hashSize h0) _ _ _ (wf_bytes _ W) Hseq Eb) as (H1 & H2 & H3).
    split; [|done]. split; [|done]. split; cbn; [by rewrite H2; apply W|done|apply W|rewrite H3; apply W].
  - pose proof (parseHash32_cases ht (hashSize h0) s ltac:(by rewrite <- Ht)) as HC. rewrite E in HC. destruct HC as (_ & _ & ->).
    split; [|done]. split; [|cbn; by rewrite <- Ht]. pose proof (wf_size _ W). unfold hash_of_val. split; cbn [hash hashSize].
    + rewrite length_app, le_bytes_length, length_replicate. lia.
    + apply Forall_app. split; [apply le_bytes_byte|apply Forall_replicate; unfold byte; lia].
    + done.
    + rewrite drop_app_length' by (by rewrite le_bytes_length). done.
  - apply bind_Ok in E as (t & _ & E). done.
Qed.

(** ** The store of the evaluator *)

Section Local.
Context `{SymbolTable} `{HA : HashAlgo} (nixStore : str) (environ : str -> str) (fs : FileSys) (readFile : str -> result str) (fuel dfuel : nat).

(** Running code that changes the state only when it succeeds, and has a result. *)
Definition with_result {S A} (f : S -> result (A * S)) : M S A := fun s =>
  match f s with Ok (a, s') => Done a s' | Throw e => Raised e s | NoFuel => Stuck end.

#[local] Existing Instance LocalStore_api.

(** The queries of the local store; in read-only mode nothing is added. *)
#[local] Instance local_eval_store : EvalStore LocalStore := {|
  storeDir := nixStore;
  getEnvVar := environ;
  path_exists p := mret (pathExists fs p);
  read_file p := lift (fun _ => readFile p);
  resolve_path p := lift (fun _ => canonPath_fuel (isLink fs) (readLink fs) fuel true p);
  is_valid p := lift (fun st => ls_isValidPath st p);
  add_text n t r := lift (fun _ => computeStorePathForText nixStore n t r);
  fs_closure p := lift (fun st => computeFSClosure (St := LocalStore) (H := LocalStore_api nixStore) fuel st false false p ∅);
  output_names p := lift (fun st => queryDerivationOutputNames st p);
  hash_modulo_of drv := with_result (fun st =>
    '(h, memo) ← hashDerivationModulo (valid_in st) readFile dfuel drv (ls_memo st); Ok (h, mkLocalStore (ls_db st) memo));
  write_drv drv name := with_result (fun st => writeDerivation nixStore true (fun _ _ _ _ _ => NoFuel) st drv name false);
  remember_hash p h := modify (fun st => mkLocalStore (ls_db st) (<[p := h]> (ls_memo st))) |}.

Abbreviation ES := (EvalState LocalStore).

(** The copy that the store makes is the one that was hashed. *)
Lemma mask_blank drv outs : (forall k, k ∈ outs <-> is_Some (outputs drv !! k)) -> (forall k o, outputs drv !! k = Some o -> out_hashAlgo o = [] /\ out_hash o = []) ->
  mask_outputs drv = blank_outputs drv outs.
Proof.
  intros Ho Hn. destruct (blank_outputs_spec drv outs []) as (_ & _ & Hr). apply drv_eq; try (by destruct Hr as (?&?&?&?&?)).
  - intros k. destruct (blank_outputs_spec drv outs k) as (-> & _). cbn. rewrite lookup_fmap. destruct (outputs drv !! k) as [[p a h]|] eqn:E.
    + rewrite bool_decide_eq_true_2 by (apply Ho; by eexists). destruct (Hn _ _ E) as [Ea Eh]. cbn in *. by subst.
    + rewrite bool_decide_eq_false_2; [done|]. rewrite Ho, E. by intros [].
  - intros k. destruct (blank_outputs_spec drv outs k) as (_ & -> & _). cbn.
    assert (Hl : forall l (e : gmap str str), foldl (fun e (i : str * DerivationOutput) => <[fst i := []]> e) e l !! k = if bool_decide (k ∈ l.*1) then Some [] else e !! k).
    { induction l as [|[x o] l IH]; intros e; [done|]. cbn [foldl fst]. rewrite IH. cbn. case_bool_decide as H1; [rewrite bool_decide_eq_true_2 by (by right); done|].
      destruct (decide (k = x)) as [-> |Hne]; [rewrite lookup_insert_eq, bool_decide_eq_true_2 by left; done|]. rewrite lookup_insert_ne by done.
      rewrite bool_decide_eq_false_2; [done|]. by intros [->|?]%elem_of_cons. }
    rewrite Hl. rewrite (bool_decide_ext (k ∈ (map_iter (outputs drv)).*1) (k ∈ outs)); [done|]. rewrite Ho, list_elem_of_fmap. split.
    + intros ([x o] & -> & Hx%elem_of_map_iter). by eexists.
    + intros [o Eo]. exists (k, o). split; [done|by apply elem_of_map_iter].
Qed.

Lemma drv_suffix name : isDerivation (name ++ drvExtension) = true /\ take (length (name ++ drvExtension) - length drvExtension) (name ++ drvExtension) = name.
Proof.
  unfold isDerivation, hasSuffix. rewrite length_app, Nat.add_sub, take_app_length, drop_app_length, str_eqb_refl.
  split; [|done]. rewrite andb_true_r. apply Nat.leb_le. lia.
Qed.

Lemma check_output_ok drv drvPath id p a h : env drv !! id = Some p -> check_output drv drvPath id p (mkDerivationOutput p a h) = Ok tt.
Proof. intros He. unfold check_output. cbn [out_path]. rewrite str_eqb_refl, bool_decide_eq_true_2 by done. done. Qed.

Lemma accepted_paths drv drvPath name h : (forall k o, outputs drv !! k = Some o -> exists p, makeOutputPath nixStore k h name = Ok p /\ o = mkDerivationOutput p [] [] /\ env drv !! k = Some p) ->
  foldM (fun _ i => outPath ← makeOutputPath nixStore (fst i) h name; check_output drv drvPath (fst i) outPath (snd i)) tt (map_iter (outputs drv)) = Ok tt.
Proof.
  intros Ho. assert (Hl : forall l, Forall (fun i => outputs drv !! i.1 = Some i.2) l ->
    foldM (fun _ i => outPath ← makeOutputPath nixStore (fst i) h name; check_output drv drvPath (fst i) outPath (snd i)) tt l = Ok tt).
  { induction l as [|[k o] l IH]; intros Hf; [done|]. apply Forall_cons in Hf as [Hk Hf]. cbn in Hk. destruct (Ho k o Hk) as (p & Ep & -> & He). cbn [foldM fst snd].
    rewrite Ep. cbn [mbind result_bind]. rewrite check_output_ok by done. cbn [mbind result_bind]. by apply IH. }
  apply Hl, Forall_forall. intros [k o] Hk. by apply elem_of_map_iter.
Qed.

Lemma accepted_masked b (s s' : ES) drvPath drv : db_outputHash b = [] -> outputs (db_drv b) = ∅ -> dfuel <> 0%nat -> drv_outputs b s = Done drv s' ->
  storePathToName nixStore drvPath = Ok (db_name b ++ drvExtension) -> exists st, checkDerivationOutputs nixStore readFile dfuel (es_store s') drvPath drv = Ok st.
Proof.
  intros Hh Ho Hd Hr Hn. destruct (drv_outputs_run b s s' drv Hh Hr) as (h & st & Hm & -> & Hf).
  destruct (filled_outputs nixStore h (db_name b) _ _ _ Ho Hf) as (Em & _ & Hin & Hout).
  assert (Houts : forall k o, outputs drv !! k = Some o -> exists p, makeOutputPath nixStore k h (db_name b) = Ok p /\ o = mkDerivationOutput p [] [] /\ env drv !! k = Some p).
  { intros k o Hk. destruct (decide (k ∈ db_outputs b)) as [Hk'|Hk']; [|destruct (Hout k Hk'); congruence]. destruct (Hin k Hk') as (p & Ep & Eo & Ee). exists p. by simplify_eq. }
  assert (Hmask : mask_outputs drv = blank_outputs (db_drv b) (db_outputs b)).
  { rewrite <- Em. apply mask_blank; [|by intros k o (p & _ & -> & _)%Houts]. intros k. split.
    - intros (p & _ & -> & _)%Hin. by eexists.
    - intros [o Eo]. destruct (decide (k ∈ db_outputs b)) as [?|Hk']; [done|]. destruct (Hout k Hk'). congruence. }
  assert (Hfix : isFixedOutputDrv drv = false).
  { unfold isFixedOutputDrv. destruct (map_iter (outputs drv)) as [|[k o] [|]] eqn:E; [done| |done].
    assert (outputs drv !! k = Some o) as (p & _ & -> & _)%Houts by (apply elem_of_map_iter; rewrite E; left). by rewrite andb_false_r. }
  cbn in Hm. unfold with_result in Hm. destruct (hashDerivationModulo _ _ _ _ _) as [[h' memo]| |] eqn:Ehash; [|done..]. cbn in Hm. injection Hm as -> <-.
  destruct (drv_suffix (db_name b)) as [Es Et]. destruct dfuel as [|fuel']; [done|]. eapply hashDerivationModulo_again with (fuel' := fuel') in Ehash.
  unfold checkDerivationOutputs. rewrite Hn. cbn [mbind result_bind]. rewrite Es. cbn [assert_ mbind result_bind]. rewrite Et, Hfix, Hmask.
  change (valid_in (es_store (set_store (mkLocalStore (ls_db (es_store s)) memo) s))) with (valid_in (es_store s)). cbn [es_store set_store ls_memo].
  rewrite Ehash. cbn [mbind result_bind]. rewrite accepted_paths by done. by eexists.
Qed.

Lemma fixed_hashInfo recursive algo p h : parseHashType algo <> htUnknown -> hash_ok h -> type h = parseHashType algo ->
  parseHashInfo (mkDerivationOutput p ((if recursive : bool then $"r:" else []) ++ algo) (printHash h)) = Ok (recursive, parseHashType algo, h).
Proof.
  intros Hne Hok Ht. assert (Hret : forall (r : bool) ht, parseHash ht (printHash h) = Ok h -> (x ← parseHash ht (printHash h); Ok (r, ht, x)) = Ok (r, ht, h)) by (by intros r ht ->).
  pose proof (parse_print_hash16 h Hok) as Hp. rewrite Ht in Hp. revert Hne Hp. unfold parseHashType at 1.
  destruct (str_eqb algo ($"md5")) eqn:E1; [|destruct (str_eqb algo ($"sha1")) eqn:E2; [|destruct (str_eqb algo ($"sha256")) eqn:E3; [|done]]]; intros _; reflect; subst algo;
    intros Hp; lazymatch type of Hp with parseHash (parseHashType ?a) _ = _ => let v := eval vm_compute in (parseHashType a) in change (parseHashType a) with v in Hp |- * end;
    (destruct recursive; [exact (Hret true _ Hp)|exact (Hret false _ Hp)]).
Qed.

Lemma accepted_fixed b (s s' : ES) drvPath drv : db_outputHash b <> [] -> outputs (db_drv b) = ∅ -> drv_outputs b s = Done drv s' ->
  storePathToName nixStore drvPath = Ok (db_name b ++ drvExtension) -> exists st, checkDerivationOutputs nixStore readFile dfuel (es_store s') drvPath drv = Ok st.
Proof.
  intros Hh Ho Hr Hn. unfold drv_outputs in Hr. destruct (str_eqb (builder _) _); [done|]. destruct (str_eqb (platform _) _); [done|].
  apply run_bind_Done in Hr as ([] & s1 & [_ ->]%lift_inv & Hr). destruct (isDerivation (db_name b)); [done|]. rewrite str_eqb_ne in Hr by done. cbn [negb] in Hr.
  apply lift_inv in Hr as [Hr ->]. unfold fixed_output in Hr. destruct (_ || _); [done|]. set (ht := parseHashType (db_outputHashAlgo b)) in *.
  destruct (bool_decide (ht = htUnknown)) eqn:Eht; [done|]. apply bind_Ok in Hr as (h & Ehash & Hr). apply bind_Ok in Hr as (p & Ep & [= <-]).
  destruct (parseHash16or32_ok _ _ _ Ehash) as [Hok Hty]. destruct (drv_suffix (db_name b)) as [Es Et].
  set (o := mkDerivationOutput p ((if db_recursive b then $"r:" else []) ++ db_outputHashAlgo b) (printHash h)).
  set (drv := put_outputs (<[$"out" := o]> (outputs (db_drv b))) (put_env (<[$"out" := p]> (env (db_drv b))) (db_drv b))).
  assert (Hlen : printHash h <> []).
  { intros E. apply (f_equal length) in E. rewrite length_printHash in E. destruct Hok as [_ Hs]. apply hashTypeSize_bound in Hs. cbn in E. lia. }
  assert (Hout : outputs drv !! ($"out") = Some o) by apply lookup_insert_eq.
  assert (Hfix : isFixedOutputDrv drv = true).
  { unfold isFixedOutputDrv. assert (map_iter (outputs drv) = [($"out", o)]) as ->.
    { cbn. rewrite Ho. unfold map_iter. by rewrite insert_empty, map_to_list_singleton. }
    cbn [out_hash o]. rewrite str_eqb_refl. rewrite str_eqb_ne by done. done. }
  assert (Hinfo : parseHashInfo o = Ok (db_recursive b, ht, h)).
  { unfold o. apply fixed_hashInfo; [by apply bool_decide_eq_false in Eht|done|by rewrite Hty]. }
  unfold checkDerivationOutputs. rewrite Hn. cbn [mbind result_bind]. rewrite Es. cbn [assert_ mbind result_bind]. rewrite Et, Hfix, Hout, Hinfo. cbn [mbind result_bind].
  cbn in Ep. rewrite Ep. cbn [mbind result_bind]. unfold o. rewrite check_output_ok by (cbn; apply lookup_insert_eq). by eexists.
Qed.

(** C7: the store accepts what the evaluator instantiates.  If the last part of
    [prim_derivationStrict] computes [drv], with or without [outputHash], then
    [checkDerivationOutputs], which the store runs when the derivation is registered
    under a path with the right name, returns: the output paths and the environment
    variables that it recomputes from [drv] alone are those in [drv]. *)
Theorem instantiated_accepted b (s s' : ES) drvPath drv : outputs (db_drv b) = ∅ -> dfuel <> 0%nat -> drv_outputs b s = Done drv s' ->
  storePathToName nixStore drvPath = Ok (db_name b ++ drvExtension) -> exists st, checkDerivationOutputs nixStore readFile dfuel (es_store s') drvPath drv = Ok st.
Proof. intros. destruct (decide (db_outputHash b = [])); [by eapply accepted_masked|by eapply accepted_fixed]. Qed.
End Local.

(** ** Witnesses *)

Module SampleDrv.
#[export] Instance symbols : SymbolTable := fun s => Npos (encode s).
#[export] Instance store : EvalStore LocalStore :=
  local_eval_store (HA := checksum_algo) sample_store (fun _ => []) ∅ (fun p => error p) 10 3.
(** A derivation with two outputs. *)
Definition build : DrvBuild :=
  mkDrvBuild (mkDerivation ∅ ∅ {[ $"/nix/store/src" ]} ($"i686-linux") ($"/bin/sh") [ $"-e" ] {[ $"system" := $"i686-linux" ]}) ($"hello") [] [] false {[ $"out"; $"doc" ]}.
(** One with a fixed output. *)
Definition fixed : DrvBuild :=
  mkDrvBuild (mkDerivation ∅ ∅ ∅ ($"i686-linux") ($"/bin/sh") [] ∅) ($"hello.tar") (replicate 32 "0"%char) ($"md5") false {[ $"out" ]}.
Definition state : EvalState LocalStore := mkEvalState [] [] [] ∅ empty_store.
Definition is_done {S A} (o : outcome S A) : bool := match o with Done _ _ => true | _ => false end.
Definition drvPath : str := match instantiate (H1 := checksum_algo) build state with Done (p, _) _ => p | _ => [] end.
Definition drv : Derivation := match instantiate (H1 := checksum_algo) build state with Done (_, d) _ => d | _ => empty_drv end.
End SampleDrv.

#[local] Existing Instance SampleDrv.symbols.
#[local] Existing Instance SampleDrv.store.
#[local] Existing Instance checksum_algo.

Lemma instantiate_outputs_witness : blank_outputs SampleDrv.drv {[ $"out"; $"doc" ]} = blank_outputs (db_drv SampleDrv.build) {[ $"out"; $"doc" ]} /\
  exists d p h, instantiate SampleDrv.fixed SampleDrv.state <> Stuck /\ outputs d !! ($"out") = Some (mkDerivationOutput p ($"md5") (printHash h)) /\
    parseHash16or32 htMD5 (db_outputHash SampleDrv.fixed) = Ok h /\ makeFixedOutputPath sample_store false htMD5 h ($"hello.tar") = Ok p.
Proof.
  split.
  - assert (Hd : SampleDrv.is_done (instantiate SampleDrv.build SampleDrv.state) = true) by (vm_compute; reflexivity).
    destruct (instantiate SampleDrv.build SampleDrv.state) as [[p d] s'|ex s'|] eqn:E; [|discriminate Hd..].
    unfold SampleDrv.drv. rewrite E. exact (proj1 (instantiate_outputs SampleDrv.build SampleDrv.state s' p d eq_refl E)).
  - assert (Hd : SampleDrv.is_done (instantiate SampleDrv.fixed SampleDrv.state) = true) by (vm_compute; reflexivity).
    destruct (instantiate SampleDrv.fixed SampleDrv.state) as [[p d] s'|ex s'|] eqn:E; [|discriminate Hd..].
    destruct (instantiate_outputs SampleDrv.fixed SampleDrv.state s' p d eq_refl E) as (_ & _ & Hf & _).
    destruct (Hf ltac:(discriminate)) as (_ & h & q & _ & H1 & H2 & H3 & _). exists d, q, h. split_and!; [discriminate|exact H3|exact H1|exact H2].
Defined.

Lemma instantiated_accepted_witness :
  exists drv s' st, drv_outputs SampleDrv.build SampleDrv.state = Done drv s' /\
    checkDerivationOutputs sample_store (fun p => error p) 3 (es_store s') SampleDrv.drvPath drv = Ok st.
Proof.
  assert (Hd : SampleDrv.is_done (drv_outputs SampleDrv.build SampleDrv.state) = true) by (vm_compute; reflexivity).
  destruct (drv_outputs SampleDrv.build SampleDrv.state) as [d s'|ex s'|] eqn:E; [|discriminate Hd..].
  destruct (instantiated_accepted sample_store (fun _ => []) ∅ (fun p => error p) 10 3 SampleDrv.build SampleDrv.state s' SampleDrv.drvPath d eq_refl ltac:(lia) E
    ltac:(vm_compute; reflexivity)) as [st Hst]. exists d, s', st. split; [reflexivity|exact Hst].
Defined.
