(* ===== verification/EvalMemory.v ===== *)
(** * The memory of the evaluator

    What it means that the memory is well formed, and that the operations on it keep
    it so.  A world says which static environment each environment was made for, and
    which values will not be written any more; [keeps D] says what an operation may
    have changed. *)

From Stdlib Require Import ZArith Lia Ascii Relations.
From stdpp Require Import base strings sorting numbers gmap sets list.
From S2P Require Import Prelude Effects Util NixExpr Eval.

(** ** Expressions that can be evaluated *)

Section ExprOk.
Context `{SymbolTable}.

Fixpoint sorted_names (l : list str) : bool :=
  match l with [] => true | x :: l => forallb (sym_ltb x) l && sorted_names l end.

(** The attributes are sorted by name, as in a [std::map], and a function that does
    not match attributes has an argument. *)
Fixpoint expr_ok (e : Expr) : bool :=
  match e with
  | ExprInt _ | ExprString _ | ExprPath _ | ExprVar _ => true
  | ExprSelect e _ def => expr_ok e && match def with Some d => expr_ok d | None => true end
  | ExprOpHasAttr e _ | ExprOpNot e => expr_ok e
  | ExprAttrs _ attrs => sorted_names attrs.*1 && forallb (fun xd => def_ok xd.2) attrs
  | ExprList es | ExprConcatStrings es => forallb expr_ok es
  | ExprLambda f => lambda_ok f
  | ExprLet attrs body => sorted_names attrs.*1 && forallb (fun xd => def_ok xd.2) attrs && expr_ok body
  | ExprIf a b c => expr_ok a && expr_ok b && expr_ok c
  | ExprWith _ a b _ | ExprAssert _ a b | ExprApp a b | ExprOpEq a b | ExprOpNEq a b | ExprOpAnd a b
  | ExprOpOr a b | ExprOpImpl a b | ExprOpUpdate a b | ExprOpConcatLists a b => expr_ok a && expr_ok b
  end
with def_ok (d : AttrDef) : bool := match d with AttrE e _ _ => expr_ok e | AttrInherited _ _ _ => true end
with lambda_ok (f : Lambda) : bool :=
  match f with
  | mkLambda _ arg matchAttrs formals _ body =>
      (matchAttrs || negb (str_eqb arg [])) && forallb formal_ok formals && expr_ok body
  end
with formal_ok (f : Formal) : bool := match f with mkFormal _ (Some d) => expr_ok d | _ => true end.

(** Bound in a static environment. *)
Definition bound (S : StaticEnv) (e : Expr) : Prop := bindVars S e = Ok e /\ expr_ok e = true.
End ExprOk.

Definition whnf (t : ValueType) : bool :=
  match t with tUninit | tThunk | tApp | tBlackhole => false | _ => true end.

Record world : Type := mkWorld { w_env : gmap nat StaticEnv; w_frozen : gset nat }.

(** What may be incomplete for a moment: the environment that is being filled, or the
    list that is being built. *)
Inductive hole : Type := HEnv (e : nat) | HVal (v : nat).

Section Memory.
Context `{SymbolTable} {St : Type} (allowed : PrimOp -> Prop).
Abbreviation ES := (EvalState St).
Implicit Types (W : world) (s : ES) (X : option hole).

(** A pointer to a value that has been written. *)
Definition ptr s (c : nat) : Prop := exists x, es_values s !! c = Some x /\ vtype x <> tUninit.

Definition sorted_attrs (l : list Attr) : Prop := sorted_names (b_name <$> l) = true.
Definition attrs_ok s (l : list Attr) : Prop := sorted_attrs l /\ Forall (fun a => ptr s (b_value a)) l.

(** A built-in function applied to [n] arguments. *)
Inductive partial W s : nat -> nat -> PrimOp -> Prop :=
| partial_op c op : c ∈ w_frozen W -> es_values s !! c = Some (mkValue tPrimOp (PPrimOp op)) -> allowed op -> (0 < arity op)%nat -> partial W s c 0 op
| partial_app c l r n op : c ∈ w_frozen W -> es_values s !! c = Some (mkValue tPrimOpApp (PPrimOpApp l r)) ->
    ptr s r -> partial W s l n op -> (S n < arity op)%nat -> partial W s c (S n) op.

Definition value_ok W s (x : Value) : Prop :=
  match vtype x with
  | tInt => exists n, payload x = PInt n
  | tBool => exists b, payload x = PBool b
  | tString => exists t c, payload x = PString t c
  | tPath => exists t, payload x = PPath t
  | tAttrs => exists b l, payload x = PAttrs b /\ es_bindings s !! b = Some l /\ attrs_ok s l
  | tList => exists l, payload x = PList l /\ Forall (fun o => exists c, o = Some c /\ ptr s c) l
  | tThunk => exists env e S, payload x = PThunk env e /\ w_env W !! env = Some S /\ bound S e
  | tApp => exists l r, payload x = PApp l r /\ ptr s l /\ ptr s r
  | tLambda => exists env f S, payload x = PLambda env f /\ w_env W !! env = Some S /\ bound S (ExprLambda f)
  | tPrimOp => exists op, payload x = PPrimOp op /\ allowed op /\ (0 < arity op)%nat
  | tPrimOpApp => exists l r n op, payload x = PPrimOpApp l r /\ ptr s r /\ partial W s l n op /\ (S n < arity op)%nat
  | tNull | tUninit | tBlackhole => True
  end.

(** The environment at [e] fits [S]; only the one at [X] may have places that are not
    initialised. *)
Definition env_ok X W s (e : nat) (S : StaticEnv) : Prop :=
  exists x F up, es_envs s !! e = Some x /\ S = F :: up /\
    (up = [] \/ exists u, env_up x = Some u /\ (u < e)%nat /\ w_env W !! u = Some up) /\
    match F with
    | FVars vars => forall y d, vars !! y = Some d ->
        exists o, env_values x !! d = Some o /\ match o with Some c => ptr s c | None => X = Some (HEnv e) end
    | FWith => env_prevWith x = prevWith_loop up 1 /\
        exists c v, env_values x !! 0%nat = Some (Some c) /\ c ∈ w_frozen W /\ es_values s !! c = Some v /\ vtype v = tAttrs
    end.

Record wf X W s : Prop := {
  wf_values : forall c x, es_values s !! c = Some x -> X <> Some (HVal c) -> value_ok W s x;
  wf_envs : forall e S, w_env W !! e = Some S -> env_ok X W s e S;
  wf_frozen : forall c, c ∈ w_frozen W -> exists x, es_values s !! c = Some x /\ whnf (vtype x) = true;
  wf_hole : forall c, X = Some (HVal c) -> (c < length (es_values s))%nat /\ c ∉ w_frozen W }.

(** The objects that may change. *)
Record footprint : Type := mkFootprint { d_val : nat -> Prop; d_env : nat -> Prop; d_bnd : nat -> Prop }.
Definition none : footprint := mkFootprint (fun _ => False) (fun _ => False) (fun _ => False).
Definition at_val (v : nat) : footprint := mkFootprint (fun c => c = v) (fun _ => False) (fun _ => False).
Definition at_env (e : nat) : footprint := mkFootprint (fun _ => False) (fun c => c = e) (fun _ => False).
Definition at_bnd (b : nat) : footprint := mkFootprint (fun _ => False) (fun _ => False) (fun c => c = b).

Record keeps (D : footprint) W s W' s' : Prop := {
  k_env : w_env W ⊆ w_env W';
  k_frozen : w_frozen W ⊆ w_frozen W';
  k_new : forall c, c ∈ w_frozen W' -> c ∈ w_frozen W \/ (length (es_values s) <= c)%nat;
  k_newenv : forall e S, w_env W' !! e = Some S -> w_env W !! e = Some S \/ (length (es_envs s) <= e)%nat;
  k_len : (length (es_values s) <= length (es_values s'))%nat;
  k_elen : (length (es_envs s) <= length (es_envs s'))%nat;
  k_blen : (length (es_bindings s) <= length (es_bindings s'))%nat;
  k_ptr : forall c, ptr s c -> ptr s' c;
  k_whnf : forall c x, es_values s !! c = Some x -> whnf (vtype x) = true -> ~ d_val D c -> es_values s' !! c = Some x;
  k_envs : forall e x, es_envs s !! e = Some x -> ~ d_env D e -> es_envs s' !! e = Some x;
  k_bnd : forall b l, es_bindings s !! b = Some l -> ~ d_bnd D b -> es_bindings s' !! b = Some l }.

Lemma keeps_refl D W s : keeps D W s W s.
Proof. split; auto. Qed.

(** What may change only matters for the objects that were there, and for values only
    when they were evaluated. *)
Lemma keeps_trans D D' W s W1 s1 W2 s2 :
  keeps D W s W1 s1 -> keeps D' W1 s1 W2 s2 ->
  (forall c x, es_values s !! c = Some x -> whnf (vtype x) = true -> d_val D' c -> d_val D c) ->
  (forall c, (c < length (es_envs s))%nat -> d_env D' c -> d_env D c) ->
  (forall c, (c < length (es_bindings s))%nat -> d_bnd D' c -> d_bnd D c) ->
  keeps D W s W2 s2.
Proof.
  intros [K1 K2 K3 KN K4 K5 K6 K7 K8 K9 K10] [L1 L2 L3 LN L4 L5 L6 L7 L8 L9 L10] HV HE HB. split.
  - by etrans.
  - by etrans.
  - intros c Hc. destruct (L3 c Hc) as [Hc'|Hc']; [by apply K3|right; lia].
  - intros e S HS. destruct (LN e S HS) as [HS'|Hle]; [by apply KN|right; lia].
  - lia.
  - lia.
  - lia.
  - auto.
  - intros c x Hx Hw Hd. apply L8; [by apply K8|done|]. intros Hd'. by eapply Hd, HV.
  - intros c x Hx Hd. apply L9; [by apply K9|]. intros Hd'. apply Hd, HE; [by eapply lookup_lt_Some|done].
  - intros c x Hx Hd. apply L10; [by apply K10|]. intros Hd'. apply Hd, HB; [by eapply lookup_lt_Some|done].
Qed.

Lemma keeps_weaken D D' W s W' s' :
  keeps D W s W' s' ->
  (forall c x, es_values s !! c = Some x -> whnf (vtype x) = true -> d_val D c -> d_val D' c) ->
  (forall c, (c < length (es_envs s))%nat -> d_env D c -> d_env D' c) ->
  (forall c, (c < length (es_bindings s))%nat -> d_bnd D c -> d_bnd D' c) ->
  keeps D' W s W' s'.
Proof. intros K HV HE HB. by apply (keeps_trans D' D W s W s W' s' (keeps_refl _ _ _) K). Qed.

(** ** What is known stays true *)

Definition avoids (D : footprint) W : Prop := forall c, c ∈ w_frozen W -> ~ d_val D c.

Lemma partial_keeps D W s W' s' c n op : keeps D W s W' s' -> avoids D W -> partial W s c n op -> partial W' s' c n op.
Proof.
  intros K Ha. induction 1 as [c op Hc Hx Hp Hn|c l r n op Hc Hx Hr _ IH Hn].
  - apply partial_op; [by apply (k_frozen _ _ _ _ _ K)|apply (k_whnf _ _ _ _ _ K); [done|done|by apply Ha]|done|done].
  - apply (partial_app _ _ _ l r); [by apply (k_frozen _ _ _ _ _ K)|apply (k_whnf _ _ _ _ _ K); [done|done|by apply Ha]| |done|done].
    by apply (k_ptr _ _ _ _ _ K).
Qed.

Lemma attrs_ok_keeps D W s W' s' l : keeps D W s W' s' -> attrs_ok s l -> attrs_ok s' l.
Proof. intros K [H1 H2]. split; [done|]. eapply Forall_impl; [exact H2|]. intros a. apply (k_ptr _ _ _ _ _ K). Qed.

Definition bindings_kept s s' : Prop :=
  forall b l, es_bindings s !! b = Some l -> attrs_ok s l -> exists l', es_bindings s' !! b = Some l' /\ attrs_ok s' l'.

Lemma bindings_kept_same D W s W' s' : keeps D W s W' s' -> (forall b, ~ d_bnd D b) -> bindings_kept s s'.
Proof. intros K Hd b l Hb Hl. exists l. split; [apply (k_bnd _ _ _ _ _ K); [done|apply Hd]|by eapply attrs_ok_keeps]. Qed.

Lemma value_ok_keeps D W s W' s' x : keeps D W s W' s' -> avoids D W -> bindings_kept s s' -> value_ok W s x -> value_ok W' s' x.
Proof.
  intros K Ha Hb. unfold value_ok. pose proof (k_ptr _ _ _ _ _ K) as Hp. pose proof (k_env _ _ _ _ _ K) as He.
  destruct (vtype x); try done.
  - intros (b & l & Hx & Hl & Hok). destruct (Hb b l Hl Hok) as (l' & Hl' & Hok'). eauto.
  - intros (l & Hx & Hl). exists l. split; [done|]. eapply Forall_impl; [exact Hl|]. intros o (c & -> & Hc). eauto.
  - intros (env & e & S & Hx & HS & Hbd). exists env, e, S. split_and!; [done|by eapply lookup_weaken|done].
  - intros (l & r & Hx & Hl & Hr). exists l, r. split_and!; [done|by apply Hp|by apply Hp].
  - intros (env & f & S & Hx & HS & Hbd). exists env, f, S. split_and!; [done|by eapply lookup_weaken|done].
  - intros (l & r & n & op & Hx & Hr & Hl & Hn). exists l, r, n, op. split_and!; [done|by apply Hp|by eapply partial_keeps|done].
Qed.

Lemma env_ok_keeps X D W s W' s' e S : keeps D W s W' s' -> avoids D W -> ~ d_env D e -> env_ok X W s e S -> env_ok X W' s' e S.
Proof.
  intros K Ha Hd (x & F & up & Hx & -> & Hup & HF). exists x, F, up. split_and!; [by apply (k_envs _ _ _ _ _ K)|done| |].
  - destruct Hup as [?|(u & Hu & Hlt & HW)]; [by left|right]. exists u. split_and!; [done|done|]. eapply lookup_weaken; [done|apply K].
  - destruct F as [|vars].
    + destruct HF as [Hp (c & v & Hc & Hf & Hv & Ht)]. split; [done|]. exists c, v. split_and!; [done|by apply (k_frozen _ _ _ _ _ K)| |done].
      apply (k_whnf _ _ _ _ _ K); [done|by rewrite Ht|by apply Ha].
    + intros y d Hy. destruct (HF y d Hy) as (o & Ho & Hc). exists o. split; [done|]. destruct o; [by apply (k_ptr _ _ _ _ _ K)|done].
Qed.

Lemma wf_keeps X D W s W' s' : wf X W s -> keeps D W s W' s' -> avoids D W -> bindings_kept s s' ->
  (forall c x, es_values s' !! c = Some x -> X <> Some (HVal c) -> es_values s !! c = Some x \/ value_ok W' s' x) ->
  (forall e S, w_env W' !! e = Some S -> (w_env W !! e = Some S /\ ~ d_env D e) \/ env_ok X W' s' e S) ->
  (forall c, c ∈ w_frozen W' -> c ∈ w_frozen W \/ exists x, es_values s' !! c = Some x /\ whnf (vtype x) = true) ->
  wf X W' s'.
Proof.
  intros [F1 F2 F3 F4] K Ha Hb HV HE HF. split.
  - intros c x Hx HX. destruct (HV c x Hx HX) as [Hx'|?]; [|done]. eapply value_ok_keeps; [done|done|done|by eapply F1].
  - intros e S HS. destruct (HE e S HS) as [[HS' Hd]|?]; [|done]. eapply env_ok_keeps; [done|done|done|by apply F2].
  - intros c Hc. destruct (HF c Hc) as [Hc'|?]; [|done]. destruct (F3 c Hc') as (x & Hx & Hw). exists x. split; [|done].
    apply (k_whnf _ _ _ _ _ K); [done|done|by apply Ha].
  - intros c HX. destruct (F4 c HX) as [H1 H2]. pose proof (k_len _ _ _ _ _ K). split; [lia|].
    intros Hc. destruct (k_new _ _ _ _ _ K c Hc); [done|lia].
Qed.

(** ** The operations *)

Lemma ptr_assign s v x c : vtype x <> tUninit -> ptr s c -> ptr (set_values (<[v := x]> (es_values s)) s) c.
Proof.
  intros Hx (y & Hy & Ht). destruct (decide (c = v)) as [-> |Hne].
  - exists x. split; [|done]. cbn. apply list_lookup_insert_eq. by eapply lookup_lt_Some.
  - exists y. split; [|done]. cbn. by rewrite list_lookup_insert_ne.
Qed.

Lemma assign_keeps W s v x : vtype x <> tUninit -> keeps (at_val v) W s W (set_values (<[v := x]> (es_values s)) s).
Proof.
  intros Hx. split; cbn; try done; try (by left).
  - by rewrite length_insert.
  - intros c. by apply ptr_assign.
  - intros c y Hy _ Hd. by rewrite list_lookup_insert_ne by (by apply not_eq_sym).
Qed.

Lemma assign_wf X W s v x : wf X W s -> v ∉ w_frozen W -> vtype x <> tUninit -> value_ok W s x ->
  wf X W (set_values (<[v := x]> (es_values s)) s).
Proof.
  intros Hwf Hv Hx Hok. pose proof (assign_keeps W s v x Hx) as K. assert (avoids (at_val v) W) as Ha by (intros c Hc ->; done).
  assert (Hb : bindings_kept s (set_values (<[v := x]> (es_values s)) s)) by (eapply bindings_kept_same; [exact K|by intros b []]).
  eapply wf_keeps; [exact Hwf|exact K|done|done| | |by left].
  - intros c y Hy _. destruct (decide (c = v)) as [-> |Hne].
    + right. cbn in Hy. apply list_lookup_insert_Some in Hy as [(_ & <- & _)|[? _]]; [|done]. by eapply value_ok_keeps.
    + left. cbn in Hy. by rewrite list_lookup_insert_ne in Hy.
  - intros e S HS. left. split; [done|by intros []].
Qed.

Lemma alloc_keeps W s : keeps none W s W (set_values (es_values s ++ [mkValue tUninit PNone]) s).
Proof.
  split; cbn; try done; try (by left).
  - rewrite length_app. lia.
  - intros c (x & Hx & Ht). exists x. split; [by apply lookup_app_l_Some|done].
  - intros c x Hx _ _. by apply lookup_app_l_Some.
Qed.

Lemma alloc_wf X W s : wf X W s -> wf X W (set_values (es_values s ++ [mkValue tUninit PNone]) s).
Proof.
  intros Hwf. pose proof (alloc_keeps W s) as K. eapply wf_keeps; [exact Hwf|exact K|by intros c _ []| | | |by left].
  - eapply bindings_kept_same; [exact K|by intros b []].
  - intros c x Hx _. cbn in Hx. apply lookup_app_Some in Hx as [?|[_ Hx]]; [by left|right].
    apply list_lookup_singleton_Some in Hx as [_ <-]. done.
  - intros e S HS. left. split; [done|by intros []].
Qed.

Lemma allocEnv_keeps W s x : keeps none W s W (set_envs (es_envs s ++ [x]) s).
Proof.
  split; cbn; try done; try (by left).
  - rewrite length_app. lia.
  - intros c y Hx _. by apply lookup_app_l_Some.
Qed.

Lemma allocEnv_wf X W s x : wf X W s -> wf X W (set_envs (es_envs s ++ [x]) s).
Proof.
  intros Hwf. pose proof (allocEnv_keeps W s x) as K. eapply wf_keeps; [exact Hwf|exact K|by intros c _ []| |by left| |by left].
  - eapply bindings_kept_same; [exact K|by intros b []].
  - intros e S HS. left. split; [done|by intros []].
Qed.

Lemma setEnv_keeps W s e x : keeps (at_env e) W s W (set_envs (<[e := x]> (es_envs s)) s).
Proof.
  split; cbn; try done; try (by left).
  - by rewrite length_insert.
  - intros c y Hy Hd. by rewrite list_lookup_insert_ne by (by apply not_eq_sym).
Qed.

(** An environment without a type, or one that still fits. *)
Lemma setEnv_wf X W s e x : wf X W s -> (forall S, w_env W !! e = Some S -> env_ok X W (set_envs (<[e := x]> (es_envs s)) s) e S) ->
  wf X W (set_envs (<[e := x]> (es_envs s)) s).
Proof.
  intros Hwf He. pose proof (setEnv_keeps W s e x) as K. eapply wf_keeps; [exact Hwf|exact K|by intros c _ []| |by left| |by left].
  - eapply bindings_kept_same; [exact K|by intros b []].
  - intros e' S HS. destruct (decide (e' = e)) as [-> |Hne]; [right; by apply He|left; by split].
Qed.

Lemma allocBindings_keeps W s : keeps none W s W (set_bindings (es_bindings s ++ [[]]) s).
Proof.
  split; cbn; try done; try (by left).
  - rewrite length_app. lia.
  - intros c y Hx _. by apply lookup_app_l_Some.
Qed.

Lemma allocBindings_wf X W s : wf X W s -> wf X W (set_bindings (es_bindings s ++ [[]]) s).
Proof.
  intros Hwf. pose proof (allocBindings_keeps W s) as K. eapply wf_keeps; [exact Hwf|exact K|by intros c _ []| |by left| |by left].
  - eapply bindings_kept_same; [exact K|by intros b []].
  - intros e S HS. left. split; [done|by intros []].
Qed.

Lemma setBindings_keeps W s b l : keeps (at_bnd b) W s W (set_bindings (<[b := l]> (es_bindings s)) s).
Proof.
  split; cbn; try done; try (by left).
  - by rewrite length_insert.
  - intros c y Hy Hd. by rewrite list_lookup_insert_ne by (by apply not_eq_sym).
Qed.

Lemma setBindings_wf X W s b l : wf X W s -> attrs_ok s l -> wf X W (set_bindings (<[b := l]> (es_bindings s)) s).
Proof.
  intros Hwf Hl. pose proof (setBindings_keeps W s b l) as K. eapply wf_keeps; [exact Hwf|exact K|by intros c _ []| |by left| |by left].
  - intros b' l' Hb' Hl'. destruct (decide (b' = b)) as [-> |Hne].
    + exists l. split; [cbn; apply list_lookup_insert_eq; by eapply lookup_lt_Some|done].
    + exists l'. split; [cbn; by rewrite list_lookup_insert_ne|done].
  - intros e S HS. left. split; [done|by intros []].
Qed.

(** ** Changes of the world *)

Lemma type_env_keeps D W0 s0 W s e S : keeps D W0 s0 W s -> w_env W !! e = None -> (length (es_envs s0) <= e)%nat ->
  keeps D W0 s0 (mkWorld (<[e := S]> (w_env W)) (w_frozen W)) s.
Proof.
  intros [K1 K2 K3 KN K4 K5 K6 K7 K8 K9 K10] He Hle. split; cbn; auto.
  - etrans; [exact K1|by apply insert_subseteq].
  - intros e' S' HS. apply lookup_insert_Some in HS as [[<- _]|[_ HS]]; [by right|by apply KN].
Qed.

Lemma type_env_wf X W s e S : wf X W s -> w_env W !! e = None -> env_ok X (mkWorld (<[e := S]> (w_env W)) (w_frozen W)) s e S ->
  wf X (mkWorld (<[e := S]> (w_env W)) (w_frozen W)) s.
Proof.
  intros [F1 F2 F3 F4] He Hok. assert (Hsub : w_env W ⊆ <[e := S]> (w_env W)) by (by apply insert_subseteq).
  assert (forall c' n op, partial W s c' n op -> partial (mkWorld (<[e := S]> (w_env W)) (w_frozen W)) s c' n op) as Hpart.
  { induction 1 as [c' op Hc Hx' Hp Hn|c' l r n op Hc Hx' Hr _ IH Hn]; [by apply partial_op|by apply (partial_app _ _ _ l r)]. }
  split; [| |done|done].
  - intros c y Hy HX. specialize (F1 c y Hy HX). unfold value_ok in *. destruct (vtype y); try done.
    + destruct F1 as (env & e' & S' & H1 & H2 & H3). exists env, e', S'. split_and!; [done|by eapply lookup_weaken|done].
    + destruct F1 as (env & e' & S' & H1 & H2 & H3). exists env, e', S'. split_and!; [done|by eapply lookup_weaken|done].
    + destruct F1 as (l & r & n & op & H1 & H2 & H3 & H4). exists l, r, n, op. auto.
  - intros e' S' HS. cbn in HS. apply lookup_insert_Some in HS as [[<- <-]|[Hne HS]]; [done|].
    destruct (F2 e' S' HS) as (y & F & up & H1 & H2 & H3 & H4). exists y, F, up. split_and!; [done|done| |done].
    destruct H3 as [?|(u & Hu & Hlt & HW)]; [by left|right]. exists u. split_and!; [done|done|by eapply lookup_weaken].
Qed.

Lemma freeze_wf X W s c x : wf X W s -> X <> Some (HVal c) -> es_values s !! c = Some x -> whnf (vtype x) = true -> wf X (mkWorld (w_env W) ({[c]} ∪ w_frozen W)) s.
Proof.
  intros [F1 F2 F3 F4] Hhole Hx Hw.
  assert (forall c' n op, partial W s c' n op -> partial (mkWorld (w_env W) ({[c]} ∪ w_frozen W)) s c' n op) as Hpart.
  { induction 1 as [c' op Hc Hx' Hp Hn|c' l r n op Hc Hx' Hr _ IH Hn].
    - apply partial_op; [cbn; set_solver|done|done|done].
    - apply (partial_app _ _ _ l r); [cbn; set_solver|done|done|done|done]. }
  split.
  - intros c' y Hy HX. specialize (F1 c' y Hy HX). unfold value_ok in *. destruct (vtype y); try done.
    destruct F1 as (l & r & n & op & H1 & H2 & H3 & H4). exists l, r, n, op. auto.
  - intros e S HS. destruct (F2 e S HS) as (y & F & up & H1 & H2 & H3 & H4). exists y, F, up. split_and!; [done|done|done|].
    destruct F; [|done]. destruct H4 as [Hp (c' & v & Hc & Hf & Hv)]. split; [done|]. exists c', v. split_and!; [done|cbn; set_solver|by destruct Hv..].
  - intros c' Hc'. cbn in Hc'. apply elem_of_union in Hc' as [->%elem_of_singleton|Hc']; [by exists x|by apply F3].
  - intros c' HX. destruct (F4 c' HX). split; [done|]. cbn. set_solver.
Qed.

Lemma freeze_keeps s0 W0 D W s c : keeps D W0 s0 W s -> (length (es_values s0) <= c)%nat ->
  keeps D W0 s0 (mkWorld (w_env W) ({[c]} ∪ w_frozen W)) s.
Proof.
  intros [K1 K2 K3 KN K4 K5 K6 K7 K8 K9 K10] Hc. split; cbn; auto.
  - set_solver.
  - intros c' Hc'. apply elem_of_union in Hc' as [->%elem_of_singleton|Hc']; [by right|by apply K3].
Qed.

(** An environment may be left uninitialised, and when all its places are filled it
    is initialised. *)
Lemma wf_weaken W s e0 : wf None W s -> wf (Some (HEnv e0)) W s.
Proof.
  intros [F1 F2 F3 F4]. split; [intros c x Hx _; by apply (F1 c)| |done|done]. intros e S HS. destruct (F2 e S HS) as (x & F & up & H1 & H2 & H3 & H4).
  exists x, F, up. split_and!; [done|done|done|]. destruct F; [done|]. intros y d Hy. destruct (H4 y d Hy) as ([c|] & Ho & Hc); [by exists (Some c)|done].
Qed.

Lemma wf_filled W s e x : wf (Some (HEnv e)) W s -> es_envs s !! e = Some x -> (forall o, o ∈ env_values x -> o <> None) -> wf None W s.
Proof.
  intros [F1 F2 F3 F4] Hx Hfill. split; [intros c y Hy _; by apply (F1 c)| |done|done]. intros e' S HS. destruct (F2 e' S HS) as (y & F & up & H1 & H2 & H3 & H4).
  exists y, F, up. split_and!; [done|done|done|]. destruct F; [done|]. intros z d Hz. destruct (H4 z d Hz) as ([c|] & Ho & Hc); [by exists (Some c)|].
  injection Hc as ->. rewrite H1 in Hx. injection Hx as ->. exfalso. apply list_elem_of_lookup_2 in Ho. by apply (Hfill None Ho).
Qed.

(** A list may be left incomplete, and is then written. *)
Lemma wf_open W s v x : wf None W s -> (v < length (es_values s))%nat -> v ∉ w_frozen W -> vtype x <> tUninit ->
  wf (Some (HVal v)) W (set_values (<[v := x]> (es_values s)) s).
Proof.
  intros Hwf Hv Hfr Hx. pose proof (assign_keeps W s v x Hx) as K. assert (avoids (at_val v) W) as Ha by (intros c Hc ->; done).
  assert (Hwf1 : wf (Some (HVal v)) W s).
  { destruct Hwf as [F1 F2 F3 F4]. split; [intros c y Hy _; by apply (F1 c)| |done|by intros c [= <-]]. intros e S HS.
    destruct (F2 e S HS) as (y & F & up & H1 & H2 & H3 & H4). exists y, F, up. split_and!; [done|done|done|]. destruct F; [done|].
    intros z d Hz. destruct (H4 z d Hz) as ([c|] & Ho & Hc); [by exists (Some c)|done]. }
  eapply wf_keeps; [exact Hwf1|exact K|done|eapply bindings_kept_same; [exact K|by intros b []]| | |by left].
  - intros c y Hy HX. left. cbn in Hy. rewrite list_lookup_insert_ne in Hy; [done|]. by intros ->.
  - intros e S HS. left. split; [done|by intros []].
Qed.

Lemma wf_rewrite W s v x : wf (Some (HVal v)) W s -> vtype x <> tUninit -> wf (Some (HVal v)) W (set_values (<[v := x]> (es_values s)) s).
Proof.
  intros Hwf Hx. destruct (wf_hole _ _ _ Hwf v eq_refl) as [Hv Hfr].
  pose proof (assign_keeps W s v x Hx) as K. assert (avoids (at_val v) W) as Ha by (intros c Hc ->; done).
  eapply wf_keeps; [exact Hwf|exact K|done|eapply bindings_kept_same; [exact K|by intros b []]| | |by left].
  - intros c y Hy HX. left. cbn in Hy. rewrite list_lookup_insert_ne in Hy; [done|]. by intros ->.
  - intros e S HS. left. split; [done|by intros []].
Qed.

Lemma wf_close W s v x : wf (Some (HVal v)) W s -> es_values s !! v = Some x -> value_ok W s x -> wf None W s.
Proof.
  intros [F1 F2 F3 F4] Hx Hok. split; [|intros e S HS|done|done].
  - intros c y Hy _. destruct (decide (c = v)) as [-> |Hne]; [congruence|]. apply (F1 c); [done|]. by intros [= ->].
  - destruct (F2 e S HS) as (y & F & up & H1 & H2 & H3 & H4). exists y, F, up. split_and!; [done|done|done|]. destruct F; [done|].
    intros z d Hz. destruct (H4 z d Hz) as ([c|] & Ho & Hc); [by exists (Some c)|done].
Qed.

Lemma untyped X W s e : wf X W s -> (length (es_envs s) <= e)%nat -> w_env W !! e = None.
Proof.
  intros Hwf He. destruct (w_env W !! e) as [S|] eqn:ES; [|done]. destruct (wf_envs _ _ _ Hwf e S ES) as (x & _ & _ & Hx & _).
  apply lookup_lt_Some in Hx. lia.
Qed.
End Memory.

Section Reading.
Context {St : Type}.
Abbreviation ES := (EvalState St).
Implicit Types s : ES.

(** ** Reading *)

Lemma run_some {A B} (o : option A) a (f : A -> M ES B) s : o = Some a -> (some o ≫= f) s = f a s.
Proof. by intros ->. Qed.
Lemma run_deref {B} v x (f : Value -> M ES B) s : es_values s !! v = Some x -> (deref v ≫= f) s = f x s.
Proof. intros Hx. unfold deref, mbind, M_bind, gets. by rewrite Hx. Qed.
Lemma run_typeOf {B} v x (f : ValueType -> M ES B) s : es_values s !! v = Some x -> (typeOf v ≫= f) s = f (vtype x) s.
Proof. intros Hx. unfold typeOf. unfold mbind at 1, M_bind at 1. by rewrite (run_deref v x). Qed.
Lemma run_derefEnv {B} e x (f : EvalEnv -> M ES B) s : es_envs s !! e = Some x -> (derefEnv e ≫= f) s = f x s.
Proof. intros Hx. unfold derefEnv, mbind, M_bind, gets. by rewrite Hx. Qed.
Lemma run_attrsOf {B} v x b (f : nat -> M ES B) s : es_values s !! v = Some x -> payload x = PAttrs b -> (attrsOf v ≫= f) s = f b s.
Proof. intros Hx Hp. unfold attrsOf. unfold mbind at 1, M_bind at 1. rewrite (run_deref v x) by done. by rewrite Hp. Qed.
Lemma run_getBindings {B} b l (f : list Attr -> M ES B) s : es_bindings s !! b = Some l -> (getBindings b ≫= f) s = f l s.
Proof. intros Hx. unfold getBindings, mbind, M_bind, gets. by rewrite Hx. Qed.
Lemma run_bindingsOf {B} v x b l (f : list Attr -> M ES B) s :
  es_values s !! v = Some x -> payload x = PAttrs b -> es_bindings s !! b = Some l -> (bindingsOf v ≫= f) s = f l s.
Proof.
  intros Hx Hp Hb. unfold bindingsOf. unfold mbind at 1, M_bind at 1. rewrite (run_attrsOf v x b) by done.
  unfold getBindings, mbind, M_bind, gets. by rewrite Hb.
Qed.
End Reading.
