(* ===== verification/EvalScope.v ===== *)
(** * Scoping

    [bindVars] and [lookupVar] together implement lexical scoping: a variable is the
    innermost one bound by a function, a [let] or a [rec]; if there is none, it is an
    attribute of the innermost [with] that has it. *)

From Stdlib Require Import ZArith Lia Ascii Relations.
From stdpp Require Import base strings sorting numbers gmap sets list.
From S2P Require Import Prelude Effects Util NixExpr Eval EvalMemory.

(** ** The static side *)

Definition is_with (F : Frame) : bool := match F with FWith => true | _ => false end.
Definition frame_has (x : str) (F : Frame) : Prop := match F with FVars vars => is_Some (vars !! x) | FWith => False end.

(** Where the loop of [bind] finds the variable. *)
Lemma bind_loop_cases v S : forall l w v', bind_loop v S l w = Ok v' ->
  (exists i vars d, v' = mkVarRef (var_name v) false (l + i) d /\ S !! i = Some (FVars vars) /\ vars !! var_name v = Some d /\
     Forall (fun F => ~ frame_has (var_name v) F) (take i S)) \/
  (exists k, v' = mkVarRef (var_name v) true k (displ v) /\ Forall (fun F => ~ frame_has (var_name v) F) S /\
     (w = Some k \/ (w = None /\ exists i, k = (l + i)%nat /\ S !! i = Some FWith /\ Forall (fun F => is_with F = false) (take i S)))).
Proof.
  induction S as [|[|vars] S IH]; intros l w v' Hb; cbn in Hb.
  - destruct w as [k|]; [|done]. injection Hb as <-. right. exists k. split_and!; [done|constructor|by left].
  - apply IH in Hb as [(i & vars & d & -> & Hi & Hd & Ht)|(k & -> & Hn & Hw)].
    + left. exists (Datatypes.S i), vars, d. rewrite Nat.add_succ_comm. split_and!; [done|done|done|]. constructor; [tauto|done].
    + right. exists k. split_and!; [done|constructor; [tauto|done]|]. destruct w as [k'|].
      * destruct Hw as [Hw|[Hw _]]; [by left|done].
      * right. split; [done|]. destruct Hw as [[= <-]|[? _]]; [|done]. exists 0%nat. by rewrite Nat.add_0_r.
  - destruct (vars !! var_name v) as [d|] eqn:Ed.
    + injection Hb as <-. left. exists 0%nat, vars, d. rewrite Nat.add_0_r. split_and!; [done|done|done|constructor].
    + apply IH in Hb as [(i & vars' & d & -> & Hi & Hd & Ht)|(k & -> & Hn & Hw)].
      * left. exists (Datatypes.S i), vars', d. rewrite Nat.add_succ_comm. split_and!; [done|done|done|]. constructor; [|done]. cbn. rewrite Ed. by intros [].
      * right. exists k. split_and!; [done|constructor; [|done]; cbn; rewrite Ed; by intros []|].
        destruct Hw as [?|(-> & i & -> & Hi & Ht)]; [by left|right]. split; [done|]. exists (Datatypes.S i). rewrite Nat.add_succ_comm. split_and!; [done|done|by constructor].
Qed.

(** The variable is not bound and there is no [with]. *)
Lemma bind_loop_fails v S : forall l w ex, bind_loop v S l w = Throw ex ->
  w = None /\ Forall (fun F => ~ frame_has (var_name v) F /\ is_with F = false) S /\
  ex = Exn eEvalError ($"undefined variable `" ++ var_name v ++ $"'").
Proof.
  induction S as [|[|vars] S IH]; intros l w ex Hb; cbn in Hb.
  - destruct w; [done|]. injection Hb as <-. by split_and!.
  - apply IH in Hb as (Hw & _). by destruct w.
  - destruct (vars !! var_name v) as [d|] eqn:Ed; [done|]. apply IH in Hb as (-> & Hn & ->). split_and!; [done| |done].
    constructor; [|done]. cbn. rewrite Ed. split; [by intros []|done].
Qed.

Lemma prevWith_loop_spec S : forall l, (0 < l)%nat ->
  (prevWith_loop S l = 0%nat /\ Forall (fun F => is_with F = false) S) \/
  (exists i, prevWith_loop S l = (l + i)%nat /\ S !! i = Some FWith /\ Forall (fun F => is_with F = false) (take i S)).
Proof.
  induction S as [|[|vars] S IH]; intros l Hl; cbn.
  - left. by split.
  - right. exists 0%nat. rewrite Nat.add_0_r. by split_and!.
  - destruct (IH (Datatypes.S l)) as [[-> Hn]|(i & -> & Hi & Hn)]; [lia|left; split; [done|by constructor]|right].
    exists (Datatypes.S i). split_and!; [lia|done|by constructor].
Qed.

Section Scope.
Context `{SymbolTable} {St : Type} (allowed : PrimOp -> Prop).
Abbreviation ES := (EvalState St).
Implicit Types (W : world) (s : ES) (X : option hole).
Abbreviation wf := (wf allowed).

(** ** The run-time side *)

Lemma goUp_run X W s : forall n env S, wf X W s -> w_env W !! env = Some S -> (n < length S)%nat ->
  exists e, goUp n env s = Done e s /\ w_env W !! e = Some (drop n S) /\ (n + e <= env)%nat.
Proof.
  induction n as [|n IH]; intros env S Hwf HS Hn; [exists env; by rewrite drop_0|].
  destruct (wf_envs _ _ _ _ Hwf env S HS) as (x & F & up & Hx & -> & Hup & _). cbn in Hn.
  destruct Hup as [-> |(u & Hu & Hlt & HW)]; [cbn in Hn; lia|].
  cbn [goUp]. rewrite (run_derefEnv _ x) by done. rewrite (run_some _ u) by done.
  destruct (IH u up Hwf HW) as (e & He & HWe & Hle); [lia|]. exists e. split_and!; [done|done|lia].
Qed.

(** The attributes of a [with]. *)
Lemma with_attrs X W s env up : wf X W s -> w_env W !! env = Some (FWith :: up) ->
  exists x c v b l, es_envs s !! env = Some x /\ env_prevWith x = prevWith_loop up 1 /\ env_values x !! 0%nat = Some (Some c) /\
    es_values s !! c = Some v /\ payload v = PAttrs b /\ es_bindings s !! b = Some l /\ attrs_ok s l.
Proof.
  intros Hwf HS. destruct (wf_envs _ _ _ _ Hwf env _ HS) as (x & F & up' & Hx & [= <- <-] & Hup & Hp & c & v & Hc & Hfr & Hv & Ht).
  assert (Hh : X <> Some (HVal c)) by (intros HX; by destruct (wf_hole _ _ _ _ Hwf c HX)).
  pose proof (wf_values _ _ _ _ Hwf c v Hv Hh) as Hok. unfold value_ok in Hok. rewrite Ht in Hok. destruct Hok as (b & l & Hb & Hl & Ha).
  exists x, c, v, b, l. by split_and!.
Qed.

(** ** The reference definition *)

(** What a frame of the environment binds a name to. *)
Definition frame_lookup s (env : nat) (F : Frame) (x : str) : option nat :=
  e ← es_envs s !! env;
  match F with
  | FVars vars => d ← vars !! x; o ← env_values e !! d; o
  | FWith =>
      o ← env_values e !! 0%nat; c ← o; v ← es_values s !! c;
      match payload v with PAttrs b => l ← es_bindings s !! b; b_value <$> find_attr l x | _ => None end
  end.

Definition scope : Type := list (bool * (str -> option nat)).
Fixpoint scope_of s (env : nat) (S : StaticEnv) : scope :=
  match S with
  | [] => []
  | F :: up => (is_with F, frame_lookup s env F) :: match es_envs s !! env ≫= env_up with Some u => scope_of s u up | None => [] end
  end.

(** The innermost frame of a kind that has the name. *)
Fixpoint innermost (withs : bool) (sc : scope) (x : str) : option nat :=
  match sc with
  | [] => None
  | (w, f) :: sc =>
      if Bool.eqb w withs then match f x with Some c => Some c | None => innermost withs sc x end
      else innermost withs sc x
  end.
Definition resolve_name (sc : scope) (x : str) : option nat :=
  match innermost false sc x with Some c => Some c | None => innermost true sc x end.

(** ** Going up *)

Lemma scope_goUp X W s n : forall env S e, wf X W s -> w_env W !! env = Some S -> (n < length S)%nat -> goUp n env s = Done e s ->
  scope_of s e (drop n S) = drop n (scope_of s env S).
Proof.
  induction n as [|n IH]; intros env S e Hwf HS Hn He; [by injection He as <-|].
  destruct (wf_envs _ _ _ _ Hwf env S HS) as (x & F & up & Hx & -> & Hup & _). cbn in Hn.
  destruct Hup as [-> |(u & Hu & Hlt & HW)]; [cbn in Hn; lia|].
  cbn [goUp] in He. rewrite (run_derefEnv _ x), (run_some _ u) in He by done. cbn. rewrite Hx. cbn. rewrite Hu. apply IH; [done|done|lia|done].
Qed.

Lemma scope_length X W s : forall S env, wf X W s -> w_env W !! env = Some S -> length (scope_of s env S) = length S.
Proof.
  induction S as [|F up IH]; intros env Hwf HS; [done|]. destruct (wf_envs _ _ _ _ Hwf env _ HS) as (x & F' & up' & Hx & [= <- <-] & Hup & _).
  cbn. rewrite Hx. cbn. destruct Hup as [-> |(u & -> & _ & HW)]; [by destruct (env_up x)|]. f_equal. by apply IH.
Qed.

(** Frames of the other kind, or without the name, do not matter. *)
Lemma innermost_skip withs sc x i : Forall (fun wf => wf.1 = withs -> wf.2 x = None) (take i sc) -> innermost withs sc x = innermost withs (drop i sc) x.
Proof.
  revert i. induction sc as [|[w f] sc IH]; intros [|i] Ht; try done. cbn in *. apply Forall_cons in Ht as [Hf Ht]. cbn in Hf.
  destruct (Bool.eqb_spec w withs) as [Ew|Ew]; [rewrite Hf by done|]; by apply IH.
Qed.

Lemma scope_frames X W s : forall S env (P : Frame -> Prop) (Q : bool * (str -> option nat) -> Prop) i, wf X W s -> w_env W !! env = Some S ->
  Forall P (take i S) -> (forall env F up, w_env W !! env = Some (F :: up) -> P F -> Q (is_with F, frame_lookup s env F)) ->
  Forall Q (take i (scope_of s env S)).
Proof.
  induction S as [|F up IH]; intros env P Q [|i] Hwf HS HP HQ; try constructor.
  - cbn in HP. apply Forall_cons in HP as [HP _]. by eapply HQ.
  - cbn in HP. apply Forall_cons in HP as [_ HP]. destruct (wf_envs _ _ _ _ Hwf env _ HS) as (x & F' & up' & Hx & [= <- <-] & Hup & _).
    rewrite Hx. cbn. destruct Hup as [-> |(u & -> & _ & HW)]; [destruct (env_up x), i; constructor|]. by eapply IH.
Qed.

Lemma frame_absent s env F x : ~ frame_has x F -> is_with F = false -> frame_lookup s env F x = None.
Proof.
  destruct F as [|vars]; [by intros _ Hw; discriminate Hw|]. cbn [frame_has]. unfold frame_lookup. intros Hn _. destruct (es_envs s !! env) as [e|]; [|done]. cbn.
  destruct (vars !! x) eqn:E; [|done]. destruct Hn. by eexists.
Qed.

(** ** Looking up *)

Abbreviation undefined_variable x := (Exn eEvalError ($"undefined variable `" ++ x ++ $"'")).

(** The scope above the innermost frame. *)
Lemma scope_tail X W s env F up : wf X W s -> w_env W !! env = Some (F :: up) ->
  scope_of s env (F :: up) = (is_with F, frame_lookup s env F) :: drop 1 (scope_of s env (F :: up)) /\
  (forall (P : Frame -> Prop) (Q : bool * (str -> option nat) -> Prop) i, Forall P (take i up) ->
    (forall env F up, w_env W !! env = Some (F :: up) -> P F -> Q (is_with F, frame_lookup s env F)) ->
    Forall Q (take i (drop 1 (scope_of s env (F :: up))))).
Proof.
  intros Hwf HS. destruct (wf_envs _ _ _ _ Hwf env _ HS) as (e & F' & up' & He & [= <- <-] & Hup & _).
  cbn [scope_of]. rewrite He. cbn. rewrite drop_0. split; [done|]. intros P Q i HP HQ.
  destruct Hup as [-> |(u & -> & _ & HW)]; [destruct (env_up e), i; constructor|]. by eapply scope_frames.
Qed.

Lemma lookupWith_run X W s x : forall fuel env up, wf X W s -> w_env W !! env = Some (FWith :: up) -> (env < fuel)%nat ->
  lookupWith fuel env x s =
    match innermost true (scope_of s env (FWith :: up)) x with Some c => Done c s | None => Raised (undefined_variable x) s end.
Proof.
  induction fuel as [|fuel IH]; intros env up Hwf HS Hf; [lia|].
  destruct (with_attrs X W s env up Hwf HS) as (e & c & v & b & l & He & Hp & Hc & Hv & Hb & Hl & _).
  cbn [lookupWith]. rewrite (run_derefEnv _ e), (run_some _ (Some c)), (run_some _ c), (run_bindingsOf c v b l) by done.
  destruct (scope_tail X W s env FWith up Hwf HS) as [Es Hfr]. rewrite Es.
  assert (Efl : frame_lookup s env FWith x = b_value <$> find_attr l x).
  { unfold frame_lookup. rewrite He. cbn. rewrite Hc. cbn. rewrite Hv. cbn. rewrite Hb. cbn. by rewrite Hl. }
  cbn [innermost is_with Bool.eqb]. rewrite Efl. destruct (find_attr l x) as [j|]; [done|]. cbn [fmap option_fmap option_map]. rewrite Hp.
  destruct (prevWith_loop_spec up 1) as [[-> Hn]|(i & -> & Hi & Hn)]; [lia| |].
  - rewrite (innermost_skip true _ x (length up)).
    + assert (drop (length up) (drop 1 (scope_of s env (FWith :: up))) = []) as ->; [|done].
      apply drop_ge. rewrite length_drop, (scope_length X W) by done. cbn. lia.
    + apply (Hfr (fun F => is_with F = false)); [by rewrite firstn_all|]. cbn. intros env' F up' _ ->. done.
  - destruct (goUp_run X W s (1 + i) env (FWith :: up) Hwf HS) as (e1 & E1 & HW1 & Hle); [cbn; apply lookup_lt_Some in Hi; lia|].
    replace ((1 + i =? 0)%nat) with false by done. rewrite (run_bind _ _ _ _ _ E1).
    pose proof (scope_goUp X W s (1 + i) env _ e1 Hwf HS ltac:(cbn; apply lookup_lt_Some in Hi; lia) E1) as Hs1.
    cbn [drop Nat.add] in HW1. change (drop (1 + i) (FWith :: up)) with (drop i up) in Hs1. rewrite (drop_S _ _ _ Hi) in HW1, Hs1.
    rewrite (IH e1 _ Hwf HW1) by lia. rewrite Hs1.
    rewrite (innermost_skip true (drop 1 _) x i); [by rewrite drop_drop|].
    apply (Hfr (fun F => is_with F = false)); [done|]. cbn. intros env' F up' _ ->. done.
Qed.

(** A variable that is bound in an initialised environment. *)
Lemma frame_found W s env vars x d up : wf None W s -> w_env W !! env = Some (FVars vars :: up) -> vars !! x = Some d ->
  exists e c, es_envs s !! env = Some e /\ env_values e !! d = Some (Some c) /\ ptr s c /\ frame_lookup s env (FVars vars) x = Some c.
Proof.
  intros Hwf HS Hd. destruct (wf_envs _ _ _ _ Hwf env _ HS) as (e & F & up' & He & [= <- <-] & _ & HF).
  destruct (HF x d Hd) as ([c|] & Hc & Hp); [|done]. exists e, c. split_and!; [done|done|done|]. unfold frame_lookup. rewrite He. cbn. rewrite Hd. cbn. by rewrite Hc.
Qed.

Lemma lookupVar_run W s env S v v' : wf None W s -> w_env W !! env = Some S -> bind S v = Ok v' ->
  lookupVar env v' s =
    match resolve_name (scope_of s env S) (var_name v) with
    | Some c => Done (Some c) s
    | None => Raised (undefined_variable (var_name v)) s
    end.
Proof.
  intros Hwf HS Hb. unfold resolve_name.
  assert (Habs : forall i, Forall (fun F => ~ frame_has (var_name v) F) (take i S) ->
    innermost false (scope_of s env S) (var_name v) = innermost false (drop i (scope_of s env S)) (var_name v)).
  { intros i Hi. apply innermost_skip. eapply scope_frames; [done|done|exact Hi|]. cbn. intros env' F up _ HF Hw. by apply frame_absent. }
  destruct (bind_loop_cases _ _ _ _ _ Hb) as [(i & vars & d & -> & Hi & Hd & Ht)|(k & -> & Hn & [?|(_ & i & -> & Hi & Ht)])]; [|done|]; unfold lookupVar; cbn [level fromWith var_name displ Nat.add];
    destruct (goUp_run None W s i env S Hwf HS) as (e1 & E1 & HW1 & Hle); try (by eapply lookup_lt_Some); rewrite (run_bind _ _ _ _ _ E1);
    pose proof (scope_goUp None W s i env _ e1 Hwf HS ltac:(by eapply lookup_lt_Some) E1) as Hs1; rewrite (drop_S _ _ _ Hi) in HW1, Hs1.
  - destruct (frame_found W s e1 vars (var_name v) d _ Hwf HW1 Hd) as (e & c & He & Hc & _ & Hfl).
    rewrite (run_derefEnv _ e) by done. rewrite Hc. rewrite (Habs i Ht), <- Hs1.
    destruct (scope_tail None W s e1 _ _ Hwf HW1) as [-> _]. cbn [innermost is_with Bool.eqb]. by rewrite Hfl.
  - destruct (wf_envs _ _ _ _ Hwf e1 _ HW1) as (e & _ & _ & He & _).
    unfold mbind at 1, M_bind at 1, gets. unfold mbind, M_bind. rewrite (lookupWith_run None W s (var_name v) _ e1 _ Hwf HW1) by (by eapply lookup_lt_Some). rewrite Hs1.
    rewrite (Habs (length S)) by (by rewrite firstn_all). assert (drop (length S) (scope_of s env S) = []) as -> by (apply drop_ge; by rewrite (scope_length None W)).
    cbn [innermost]. rewrite (innermost_skip true (scope_of s env S) _ i).
    + by destruct (innermost true _ _).
    + eapply scope_frames; [done|done|exact Ht|]. cbn. by intros env' F up _ ->.
Qed.

Lemma find_attr_Some l x a : find_attr l x = Some a -> a ∈ l /\ b_name a = x.
Proof.
  induction l as [|b l IH]; cbn; [done|]. destruct (sym_ltb (b_name b) x).
  - intros Hf. destruct (IH Hf). split; [by right|done].
  - destruct (str_eqb (b_name b) x) eqn:E; [|done]. intros [= ->]. reflect. split; [by left|done].
Qed.

(** What is found is a value that has been written. *)
Lemma scope_ptr X W s w x c : forall S env, wf X W s -> w_env W !! env = Some S -> innermost w (scope_of s env S) x = Some c -> ptr s c.
Proof.
  induction S as [|F up IH]; intros env Hwf HS Hi; [done|].
  pose proof (wf_envs _ _ _ _ Hwf env _ HS) as (e & F' & up' & He & [= <- <-] & Hup & HF).
  assert (frame_lookup s env F x = Some c -> ptr s c) as Hfr.
  { unfold frame_lookup. rewrite He. cbn. destruct F as [|vars].
    - destruct (with_attrs X W s env up Hwf HS) as (e' & c' & v & b & l & He' & _ & Hc & Hv & Hb & Hl & Ha). simplify_eq.
      rewrite Hc. cbn. rewrite Hv. cbn. rewrite Hb. cbn. rewrite Hl. cbn. destruct (find_attr l x) as [a|] eqn:Ef; [|done]. intros [= <-].
      apply find_attr_Some in Ef as [Hin _]. destruct Ha as [_ Ha]. rewrite Forall_forall in Ha. by apply Ha.
    - destruct (vars !! x) as [d|] eqn:Ed; [|done]. cbn. destruct (HF x d Ed) as (o & -> & Ho). cbn. intros ->. done. }
  assert (innermost w (match es_envs s !! env ≫= env_up with Some u => scope_of s u up | None => [] end) x = Some c -> ptr s c) as Hrest.
  { rewrite He. cbn. destruct Hup as [-> |(u & -> & _ & HW)]; [by destruct (env_up e)|]. by apply IH. }
  cbn in Hi. destruct (Bool.eqb (is_with F) w); [|by apply Hrest]. destruct (frame_lookup s env F x) as [c'|]; [|by apply Hrest].
  injection Hi as ->. by apply Hfr.
Qed.

(** A lookup, also while an environment is being filled. *)
Lemma lookupVar_safe X W s env S v : wf X W s -> w_env W !! env = Some S -> bind S v = Ok v ->
  (exists o, lookupVar env v s = Done o s /\ match o with Some c => ptr s c | None => exists e1, X = Some (HEnv e1) /\ (e1 <= env)%nat end) \/
  lookupVar env v s = Raised (undefined_variable (var_name v)) s.
Proof.
  intros Hwf HS Hb. destruct (bind_loop_cases _ _ _ _ _ Hb) as [(i & vars & d & Ev & Hi & Hd & _)|(k & Ev & _ & [?|(_ & i & -> & Hi & _)])]; [|done|];
    unfold lookupVar; destruct (goUp_run X W s i env S Hwf HS) as (e1 & E1 & HW1 & Hle); try (by eapply lookup_lt_Some);
    rewrite Ev; cbn [level fromWith var_name displ Nat.add]; rewrite (run_bind _ _ _ _ _ E1);
    rewrite (drop_S _ _ _ Hi) in HW1.
  - left. destruct (wf_envs _ _ _ _ Hwf e1 _ HW1) as (e & F & up & He & [= <- <-] & _ & HF). destruct (HF _ d Hd) as (o & Ho & Hp).
    exists o. rewrite (run_derefEnv _ e) by done. rewrite Ho. split; [done|]. destruct o; [done|]. exists e1. split; [done|lia].
  - destruct (wf_envs _ _ _ _ Hwf e1 _ HW1) as (e & _ & _ & He & _).
    unfold mbind at 1 4, M_bind at 1 3, gets. unfold mbind, M_bind. rewrite (lookupWith_run X W s (var_name v) _ e1 _ Hwf HW1) by (by eapply lookup_lt_Some).
    destruct (innermost true _ _) as [c|] eqn:Ei; [left|by right]. exists (Some c). split; [done|by eapply scope_ptr].
Qed.

(** C8: a variable that [bind] accepts is found at run time according to lexical
    scope: it is the one of the innermost function, [let] or [rec] that binds the
    name, and if there is none the attribute of the innermost [with] that has the
    name; if there is none either, the error "undefined variable" is raised.  [bind]
    rejects it, with the same error, only when no frame binds it and there is no
    [with]. *)
Theorem lookupVar_lexical W s env S v : wf None W s -> w_env W !! env = Some S ->
  match bind S v with
  | Ok v' => lookupVar env v' s =
      match resolve_name (scope_of s env S) (var_name v) with
      | Some c => Done (Some c) s
      | None => Raised (undefined_variable (var_name v)) s
      end
  | Throw ex => ex = undefined_variable (var_name v) /\ resolve_name (scope_of s env S) (var_name v) = None /\
      Forall (fun F => is_with F = false) S
  | NoFuel => False
  end.
Proof.
  intros Hwf HS. destruct (bind S v) as [v'|ex|] eqn:Eb.
  - by apply (lookupVar_run W).
  - destruct (bind_loop_fails _ _ _ _ _ Eb) as (_ & Hn & ->). split_and!; [done| |by eapply Forall_impl; [exact Hn|]; cbn; tauto].
    assert (forall w, innermost w (scope_of s env S) (var_name v) = None) as Hi; [|unfold resolve_name; by rewrite !Hi].
    intros w. rewrite (innermost_skip _ _ _ (length S)).
    + by rewrite drop_ge by (by rewrite (scope_length None W)).
    + eapply scope_frames; [done|done|rewrite firstn_all; exact Hn|]. cbn. intros env' F up _ [HF Hw] _. by apply frame_absent.
  - unfold bind in Eb. exfalso. clear -Eb. revert Eb. generalize 0%nat (None : option nat). induction S as [|[|vars] S IH]; intros l w; cbn.
    + by destruct w.
    + apply IH.
    + destruct (vars !! _); [done|apply IH].
Qed.
End Scope.
