(* ===== verification/EvalSafe.v ===== *)
(** * The evaluator does not go wrong

    Evaluation of a bound expression keeps the memory well formed and never reads
    through a null or dangling pointer, out of the bounds of an environment, or the
    wrong member of a value; and it leaves a value that is evaluated.  The built-in
    functions are assumed to do the same, given that the evaluator they call does. *)

From Stdlib Require Import ZArith Lia Ascii Relations.
From stdpp Require Import base strings sorting numbers gmap sets list.
From S2P Require Import Prelude Effects Util StorePath Derivations NixExpr Eval EvalMemory EvalScope.

Section Safe.
Context `{SymbolTable} {St : Type} (allowed : PrimOp -> Prop).
Abbreviation ES := (EvalState St).
Implicit Types (W : world) (s : ES) (X : option hole) (D : footprint).
Abbreviation wf := (wf allowed).
Abbreviation value_ok := (value_ok allowed).

(** The exceptions that C++ code can throw and catch: not a failed assertion, a call of [abort], or undefined behaviour of the memory.
    The overflow of a signed integer, which built-in functions for arithmetic have, is not about the memory and is among them. *)
Definition orderly (k : exn_class) : bool := match k with eUndefined | eAssertion | eAbort | eBadAlloc | eBlocked => false | _ => true end.

(** ** Safe runs

    [safely X D W0 s0 s m Q]: from [s], [m] does not go wrong; if it returns, the
    memory is well formed, nothing but [D] has changed since [s0], and [Q] holds. *)

Definition safely {A} X D W0 s0 s (m : M ES A) (Q : A -> world -> ES -> Prop) : Prop :=
  match m s with
  | Done a s' => exists W', wf X W' s' /\ keeps D W0 s0 W' s' /\ Q a W' s'
  | Raised ex s' => orderly (exn_kind ex) = true /\ (length (es_values s0) <= length (es_values s'))%nat
  | Stuck => True
  end.

(** [D1] is in [D], as far as it concerns what was there in [s]. *)
Definition within D1 D s : Prop :=
  (forall c x, es_values s !! c = Some x -> whnf (vtype x) = true -> d_val D1 c -> d_val D c) /\
  (forall c, (c < length (es_envs s))%nat -> d_env D1 c -> d_env D c) /\
  (forall c, (c < length (es_bindings s))%nat -> d_bnd D1 c -> d_bnd D c).

Lemma within_refl D s : within D D s.
Proof. by repeat split. Qed.
Lemma within_none D s : within none D s.
Proof. by split_and!. Qed.
Lemma within_fresh_val D W0 s0 W s v : keeps D W0 s0 W s -> (length (es_values s) <= v)%nat -> within (at_val v) D s0.
Proof.
  intros K Hv. split_and!; [|done|done]. intros c x Hx _ ->. apply lookup_lt_Some in Hx. pose proof (k_len _ _ _ _ _ K). lia.
Qed.
Lemma within_fresh_env D W0 s0 W s e : keeps D W0 s0 W s -> (length (es_envs s) <= e)%nat -> within (at_env e) D s0.
Proof. intros K Hv. split_and!; [done| |done]. intros c Hc ->. pose proof (k_elen _ _ _ _ _ K). lia. Qed.
Lemma within_fresh_bnd D W0 s0 W s b : keeps D W0 s0 W s -> (length (es_bindings s) <= b)%nat -> within (at_bnd b) D s0.
Proof. intros K Hv. split_and!; [done|done|]. intros c Hc ->. pose proof (k_blen _ _ _ _ _ K). lia. Qed.
Lemma within_unevaluated D s v x : es_values s !! v = Some x -> whnf (vtype x) = false -> within (at_val v) D s.
Proof. intros Hv Hw. split_and!; [|done|done]. intros c y Hy Hw' ->. congruence. Qed.

Lemma keeps_within D D1 W0 s0 W s W' s' : keeps D W0 s0 W s -> keeps D1 W s W' s' -> within D1 D s0 -> keeps D W0 s0 W' s'.
Proof. intros K K1 (HV & HE & HB). by apply (keeps_trans D D1 W0 s0 W s W' s'). Qed.

Lemma safely_bind {A B} X1 X2 D1 D W0 s0 W s (m : M ES A) (f : A -> M ES B) Q Q' :
  safely X1 D1 W s s m Q -> keeps D W0 s0 W s -> within D1 D s0 ->
  (forall a W' s', wf X1 W' s' -> keeps D1 W s W' s' -> keeps D W0 s0 W' s' -> Q a W' s' -> safely X2 D W0 s0 s' (f a) Q') ->
  safely X2 D W0 s0 s (m ≫= f) Q'.
Proof.
  intros Hm K HD Hf. unfold safely in Hm |- *. unfold mbind, M_bind. destruct (m s) as [a s'|ex s'|]; [|split; [by apply Hm|]|done].
  - destruct Hm as (W' & Hwf & K1 & HQ). apply (Hf a W' s' Hwf K1); [by eapply keeps_within|done].
  - etrans; [apply K|apply Hm].
Qed.

Lemma safely_leaf {A} X D1 D W0 s0 W s (m : M ES A) Q Q' :
  safely X D1 W s s m Q -> keeps D W0 s0 W s -> within D1 D s0 ->
  (forall a W' s', wf X W' s' -> keeps D1 W s W' s' -> keeps D W0 s0 W' s' -> Q a W' s' -> Q' a W' s') ->
  safely X D W0 s0 s m Q'.
Proof.
  intros Hm K HD HQ'. unfold safely in Hm |- *. destruct (m s) as [a s'|ex s'|]; [|split; [by apply Hm|]|done].
  - destruct Hm as (W' & Hwf & K1 & HQ). assert (keeps D W0 s0 W' s') as K' by (by eapply keeps_within). exists W'. split_and!; [done|done|by apply HQ'].
  - etrans; [apply K|apply Hm].
Qed.

Lemma safely_ret {A} X D W0 s0 W s (a : A) (Q : A -> world -> ES -> Prop) : wf X W s -> keeps D W0 s0 W s -> Q a W s -> safely X D W0 s0 s (mret a) Q.
Proof. intros. by exists W. Qed.

Lemma safely_raise {A} X D W0 s0 W s k msg (Q : A -> world -> ES -> Prop) : orderly k = true -> keeps D W0 s0 W s -> safely X D W0 s0 s (raise k msg) Q.
Proof. intros Hk K. split; [done|apply K]. Qed.

Lemma safely_bind_raise {A B} X D W0 s0 W s k msg (f : A -> M ES B) Q : orderly k = true -> keeps D W0 s0 W s -> safely X D W0 s0 s (raise k msg ≫= f) Q.
Proof. intros Hk K. split; [done|apply K]. Qed.

Lemma safely_prefix {A} X D W0 s0 s msg (m : M ES A) Q : safely X D W0 s0 s m Q -> safely X D W0 s0 s (prefix_errors msg m) Q.
Proof.
  unfold safely, prefix_errors, try_catch. destruct (m s) as [a s'|ex s'|]; [done| |done]. intros [Hk Hl].
  destruct (is_Error (exn_kind ex)); by split.
Qed.

(** ** Evaluated values *)

(** The evaluated value at a pointer. *)
Definition value_at s (v : nat) : Prop := exists x, es_values s !! v = Some x /\ whnf (vtype x) = true.

Lemma value_at_ptr s v : value_at s v -> ptr s v.
Proof. intros (x & Hx & Hw). exists x. split; [done|]. by destruct (vtype x). Qed.
Lemma value_at_keeps D W s W' s' v : keeps D W s W' s' -> ~ d_val D v -> value_at s v -> value_at s' v.
Proof. intros K Hd (x & Hx & Hw). exists x. split; [by apply (k_whnf _ _ _ _ _ K)|done]. Qed.

(** ** Writing *)

(** Only values have changed. *)
Definition only_values s s' : Prop := es_envs s' = es_envs s /\ es_bindings s' = es_bindings s.
Lemma only_values_trans s s1 s2 : only_values s s1 -> only_values s1 s2 -> only_values s s2.
Proof. intros [E1 E2] [E3 E4]. split; congruence. Qed.

(** A place for a result. *)
Definition dest W s (v : nat) : Prop := (v < length (es_values s))%nat /\ v ∉ w_frozen W.

Lemma dest_keeps D W s W' s' v : keeps D W s W' s' -> dest W s v -> dest W' s' v.
Proof.
  intros K [H1 H2]. pose proof (k_len _ _ _ _ _ K). split; [lia|]. intros Hv. destruct (k_new _ _ _ _ _ K v Hv) as [?|?]; [done|lia].
Qed.

Lemma frozen_lt X W s c : wf X W s -> c ∈ w_frozen W -> (c < length (es_values s))%nat.
Proof. intros Hwf Hc. destruct (wf_frozen _ _ _ _ Hwf c Hc) as (x & Hx & _). by eapply lookup_lt_Some. Qed.

Lemma dest_unevaluated X W s v x : wf X W s -> es_values s !! v = Some x -> whnf (vtype x) = false -> dest W s v.
Proof.
  intros Hwf Hx Hw. split; [by eapply lookup_lt_Some|]. intros Hv. destruct (wf_frozen _ _ _ _ Hwf v Hv) as (y & Hy & Hw'). congruence.
Qed.

Lemma safely_alloc {B} X X' D W0 s0 W s (f : nat -> M ES B) Q : wf X W s -> keeps D W0 s0 W s ->
  (forall v s1, wf X W s1 -> keeps none W s W s1 -> keeps D W0 s0 W s1 -> dest W s1 v -> es_values s1 !! v = Some (mkValue tUninit PNone) ->
    v = length (es_values s) -> only_values s s1 -> safely X' D W0 s0 s1 (f v) Q) ->
  safely X' D W0 s0 s (allocValue ≫= f) Q.
Proof.
  intros Hwf K Hf. assert (allocValue s = Done (length (es_values s)) (set_values (es_values s ++ [mkValue tUninit PNone]) s)) as E1 by done.
  unfold safely. rewrite (run_bind _ _ _ _ _ E1). apply Hf.
  - by apply alloc_wf.
  - apply alloc_keeps.
  - eapply keeps_within; [exact K|apply alloc_keeps|apply within_none].
  - split; [cbn; rewrite length_app; cbn; lia|]. intros Hv. apply (frozen_lt _ _ _ _ Hwf) in Hv. lia.
  - cbn. by rewrite lookup_app_r, Nat.sub_diag by lia.
  - done.
  - done.
Qed.

Lemma run_assign v x s : (v < length (es_values s))%nat -> assign v x s = Done tt (set_values (<[v := x]> (es_values s)) s).
Proof. intros [y Hy]%lookup_lt_is_Some. unfold assign. by rewrite (run_deref v y). Qed.

Lemma safely_assign X D W0 s0 W s v x Q : wf X W s -> keeps D W0 s0 W s -> dest W s v -> within (at_val v) D s0 -> vtype x <> tUninit -> value_ok W s x ->
  (forall s1, wf X W s1 -> keeps (at_val v) W s W s1 -> keeps D W0 s0 W s1 -> es_values s1 !! v = Some x -> only_values s s1 -> Q tt W s1) ->
  safely X D W0 s0 s (assign v x) Q.
Proof.
  intros Hwf K [Hv Hfr] HD Hx Hok HQ. unfold safely. rewrite run_assign by done. exists W. 
  pose proof (assign_keeps W s v x Hx) as K1. assert (keeps D W0 s0 W (set_values (<[v := x]> (es_values s)) s)) as K2 by (by eapply keeps_within).
  assert (wf X W (set_values (<[v := x]> (es_values s)) s)) as Hwf1 by (by apply assign_wf).
  split_and!; [done|done|]. apply HQ; [done|done|done|by apply list_lookup_insert_eq|done].
Qed.

Lemma safely_assign_bind {B} X X' D W0 s0 W s v x (f : unit -> M ES B) Q :
  wf X W s -> keeps D W0 s0 W s -> dest W s v -> within (at_val v) D s0 -> vtype x <> tUninit -> value_ok W s x ->
  (forall s1, wf X W s1 -> keeps (at_val v) W s W s1 -> keeps D W0 s0 W s1 -> es_values s1 !! v = Some x -> only_values s s1 ->
    safely X' D W0 s0 s1 (f tt) Q) ->
  safely X' D W0 s0 s (assign v x ≫= f) Q.
Proof.
  intros Hwf K Hv HD Hx Hok Hf. eapply (safely_bind X X' (at_val v) D W0 s0 W s (assign v x) f).
  - apply (safely_assign X (at_val v) W s W s v x (fun _ W' s1 => W' = W /\ es_values s1 !! v = Some x /\ only_values s s1));
      [done|apply keeps_refl|done|apply within_refl|done|done|done].
  - done.
  - done.
  - intros [] W' s' Hwf' K1 K2 (-> & H1 & H2). by apply Hf.
Qed.

(** The same for a result that is known to be evaluated. *)
Lemma safely_result X W s v x : wf X W s -> dest W s v -> whnf (vtype x) = true -> value_ok W s x ->
  safely X (at_val v) W s s (assign v x) (fun _ _ s' => value_at s' v).
Proof.
  intros Hwf Hv Hw Hok. eapply safely_assign; [done|apply keeps_refl|done|apply within_refl|by destruct (vtype x)|done|].
  intros s1 _ _ _ Hx _. by exists x.
Qed.

(** ** Variables and thunks *)

(** An environment that is being filled is above the one that is looked in. *)
Lemma lookupNow_safe X D W0 s0 W s env S v : wf X W s -> keeps D W0 s0 W s -> w_env W !! env = Some S -> bind S v = Ok v ->
  (forall e, X = Some (HEnv e) -> (env < e)%nat) ->
  safely X D W0 s0 s (lookupNow env v) (fun c W' s' => W' = W /\ s' = s /\ ptr s c).
Proof.
  intros Hwf K HS Hb HX. unfold safely, lookupNow. unfold mbind, M_bind.
  destruct (lookupVar_safe allowed X W s env S v Hwf HS Hb) as [(o & -> & Ho)| ->].
  - destruct o as [c|]; [by exists W|]. destruct Ho as (e1 & HX1 & Hle). specialize (HX e1 HX1). lia.
  - split; [done|apply K].
Qed.

Lemma newValue_safe X W s x : wf X W s -> vtype x <> tUninit -> value_ok W s x ->
  safely X none W s s (v ← allocValue; _ ← assign v x; mret v) (fun c W' s' => W' = W /\ ptr s' c /\ es_values s' !! c = Some x /\ only_values s s').
Proof.
  intros Hwf Hx Hok. eapply safely_alloc; [done|apply keeps_refl|]. intros v s1 Hwf1 K1 _ Hv Hv1 -> O1.
  eapply safely_assign_bind; [done|done|done|eapply (within_fresh_val _ W s W s); [apply keeps_refl|lia]|done| |].
  - eapply value_ok_keeps; [exact K1|by intros c _ []|eapply bindings_kept_same; [exact K1|by intros b []]|done].
  - intros s2 Hwf2 K2 K2' Hx2 O2. apply (safely_ret _ _ _ _ W); [done|done|]. split_and!; [done|by exists x|done|by eapply only_values_trans].
Qed.

Lemma newThunk_safe X W s env S e : wf X W s -> w_env W !! env = Some S -> bound S e ->
  safely X none W s s (newThunk env e) (fun c W' s' => W' = W /\ ptr s' c /\ only_values s s').
Proof.
  intros Hwf HS Hb. eapply safely_leaf; [apply (newValue_safe X W s (mkValue tThunk (PThunk env e)))|apply keeps_refl|apply within_refl|].
  - done.
  - done.
  - exists env, e, S. done.
  - intros c W' s' _ _ _ (H1 & H2 & _ & H3). done.
Qed.

Lemma maybeThunk_safe X W s env S e : wf X W s -> w_env W !! env = Some S -> bound S e ->
  safely X none W s s (maybeThunk env e) (fun c W' s' => W' = W /\ ptr s' c /\ only_values s s').
Proof.
  intros Hwf HS Hb.
  assert (forall x, vtype x <> tUninit -> value_ok W s x ->
    safely X none W s s (v ← allocValue; _ ← assign v x; mret v) (fun c W' s' => W' = W /\ ptr s' c /\ only_values s s')) as Hnew.
  { intros x Hx Hok. eapply safely_leaf; [by apply newValue_safe|apply keeps_refl|apply within_refl|]. intros c W' s' _ _ _ (H1 & H2 & _ & H3). done. }
  destruct e as [n|t|t|info| | | | | | | | | | | | | | | | | | | ]; try (by eapply newThunk_safe).
  - apply (Hnew (mkValue tInt (PInt n))); [done|by eexists].
  - apply (Hnew (mkValue tString (PString (c_str t) []))); [done|by eexists _, _].
  - apply (Hnew (mkValue tPath (PPath (c_str t)))); [done|by eexists].
  - cbn [maybeThunk]. assert (bind S info = Ok info) as Hi by (destruct Hb as [Hb _]; cbn in Hb; by inv_ok).
    unfold safely, mbind, M_bind. destruct (lookupVar_safe allowed X W s env S info Hwf HS Hi) as [(o & -> & Ho)| ->]; [|done].
    destruct o as [c|]; [exists W; split_and!; [done|apply keeps_refl|done|done|done]|]. by eapply newThunk_safe.
Qed.

(** ** New environments *)

Definition type_env W (e : nat) (S : StaticEnv) : world := mkWorld (<[e := S]> (w_env W)) (w_frozen W).

(** The new environment has no type yet. *)
Lemma safely_allocEnv {B} X' D W0 s0 W s env S n (f : nat -> M ES B) Q :
  wf None W s -> keeps D W0 s0 W s -> w_env W !! env = Some S ->
  (forall e s1, (env < e)%nat -> (length (es_envs s) <= e)%nat -> w_env W !! e = None -> wf None W s1 -> keeps D W0 s0 W s1 -> keeps none W s W s1 ->
    es_envs s1 !! e = Some (mkEvalEnv (Some env) 0 (replicate n None)) -> es_values s1 = es_values s -> safely X' D W0 s0 s1 (f e) Q) ->
  safely X' D W0 s0 s (e ← allocEnv n; _ ← setUp e env; f e) Q.
Proof.
  intros Hwf K HS Hf. set (e := length (es_envs s)). set (s1 := set_envs (es_envs s ++ [mkEvalEnv None 0 (replicate n None)]) s).
  set (x := mkEvalEnv (Some env) 0 (replicate n None)). set (s2 := set_envs (<[e := x]> (es_envs s1)) s1).
  assert (He1 : es_envs s1 !! e = Some (mkEvalEnv None 0 (replicate n None))) by (cbn; by rewrite lookup_app_r, Nat.sub_diag by done).
  assert (He2 : es_envs s2 !! e = Some x) by (cbn; apply list_lookup_insert_eq; by eapply lookup_lt_Some).
  assert (Hu : w_env W !! e = None) by (by apply (untyped allowed None W s)).
  assert (Henv : (env < e)%nat) by (destruct (wf_envs _ _ _ _ Hwf env S HS) as (y & _ & _ & Hy & _); by eapply lookup_lt_Some).
  assert (Hrun : (e ← allocEnv n; _ ← setUp e env; f e) s = f e s2).
  { rewrite (run_bind _ _ _ e s1) by done. unfold setUp. unfold mbind at 1, M_bind at 1. by rewrite (run_derefEnv _ _ _ _ He1). }
  assert (Hwf2 : wf None W s2).
  { apply setEnv_wf; [by apply allocEnv_wf|]. intros S' HS'. congruence. }
  assert (K2 : keeps none W s W s2).
  { eapply keeps_within; [apply allocEnv_keeps|apply setEnv_keeps|]. split_and!; [done| |done]. cbn. intros c Hc ->. unfold e in Hc. lia. }
  unfold safely. rewrite Hrun. apply (Hf e s2); [done|done|done|done|by eapply keeps_within; [exact K|exact K2|apply within_none]|done|done|done].
Qed.

(** Giving it a type, and filling it. *)
Lemma type_env_hole W s e env S n vars : wf None W s -> w_env W !! e = None -> (env < e)%nat -> w_env W !! env = Some S ->
  es_envs s !! e = Some (mkEvalEnv (Some env) 0 (replicate n None)) -> (forall y d, vars !! y = Some d -> (d < n)%nat) ->
  wf (Some (HEnv e)) (type_env W e (FVars vars :: S)) s.
Proof.
  intros Hwf Hu Hlt HS He Hd. apply type_env_wf; [by apply wf_weaken|done|]. exists (mkEvalEnv (Some env) 0 (replicate n None)), (FVars vars), S. split_and!; [done|done| |].
  - right. exists env. split_and!; [done|done|]. cbn. by rewrite lookup_insert_ne by lia.
  - intros y d Hy. exists None. split; [|done]. cbn. apply lookup_replicate. split; [done|]. by eapply Hd.
Qed.

Lemma safely_newEnv {B} X' D W0 s0 W s env S n vars (f : nat -> M ES B) Q :
  wf None W s -> keeps D W0 s0 W s -> w_env W !! env = Some S -> (forall y d, vars !! y = Some d -> (d < n)%nat) ->
  (forall e W1 s1, (env < e)%nat -> (length (es_envs s) <= e)%nat -> w_frozen W1 = w_frozen W -> w_env W1 !! e = Some (FVars vars :: S) -> wf (Some (HEnv e)) W1 s1 ->
    keeps D W0 s0 W1 s1 -> keeps none W s W1 s1 -> es_envs s1 !! e = Some (mkEvalEnv (Some env) 0 (replicate n None)) -> es_values s1 = es_values s ->
    safely X' D W0 s0 s1 (f e) Q) ->
  safely X' D W0 s0 s (e ← allocEnv n; _ ← setUp e env; f e) Q.
Proof.
  intros Hwf K HS Hd Hf. eapply safely_allocEnv; [done|done|done|]. intros e s1 Hlt Hle Hu Hwf1 K1 K1' He Ev.
  pose proof (k_elen _ _ _ _ _ K). apply (Hf e (type_env W e (FVars vars :: S)) s1); [done|done|done|cbn; apply lookup_insert_eq|by eapply type_env_hole| | |done|done].
  - apply type_env_keeps; [done|done|lia].
  - by apply type_env_keeps.
Qed.

Definition set_place (x : EvalEnv) (i c : nat) : EvalEnv := mkEvalEnv (env_up x) (env_prevWith x) (<[i := Some c]> (env_values x)).

Lemma run_setValue e i c x s : es_envs s !! e = Some x -> (i < length (env_values x))%nat ->
  setValue e i c s = Done tt (set_envs (<[e := set_place x i c]> (es_envs s)) s).
Proof.
  intros Hx [o Ho]%lookup_lt_is_Some. unfold setValue. rewrite (run_derefEnv _ x) by done. by rewrite (run_some _ o).
Qed.

Lemma setValue_wf X W s e i c x vars up : wf X W s -> es_envs s !! e = Some x -> (i < length (env_values x))%nat -> ptr s c -> w_env W !! e = Some (FVars vars :: up) ->
  wf X W (set_envs (<[e := set_place x i c]> (es_envs s)) s).
Proof.
  intros Hwf Hx Hi Hc HS. apply setEnv_wf; [done|]. intros S' HS'. rewrite HS in HS'. injection HS' as <-.
  destruct (wf_envs _ _ _ _ Hwf e _ HS) as (y & F & up' & Hy & [= <- <-] & Hup & HF). simplify_eq.
  exists (set_place x i c), (FVars vars), up. split_and!; [cbn; apply list_lookup_insert_eq; by eapply lookup_lt_Some|done|done|].
  intros z d Hz. cbn. destruct (decide (d = i)) as [-> |Hne].
  - exists (Some c). split; [by apply list_lookup_insert_eq|done].
  - rewrite list_lookup_insert_ne by done. by apply (HF z d).
Qed.

(** Filling an environment from the left. *)
Record filling W s (e : nat) (n m : nat) (x : EvalEnv) : Prop := {
  fi_env : es_envs s !! e = Some x;
  fi_len : length (env_values x) = (n + m)%nat;
  fi_done : forall i, (i < n)%nat -> exists c, env_values x !! i = Some (Some c);
  fi_type : exists vars up, w_env W !! e = Some (FVars vars :: up) }.

Lemma filling_full W s e n x : filling W s e n 0 x -> wf (Some (HEnv e)) W s -> wf None W s.
Proof.
  intros [Fe Fl Fd _] Hwf. eapply wf_filled; [done|done|]. intros o (i & Ho)%list_elem_of_lookup_1. destruct (Fd i) as (c & Hc); [|congruence].
  apply lookup_lt_Some in Ho. lia.
Qed.

Lemma filling_same W s s' e n m x : es_envs s' = es_envs s -> filling W s e n m x -> filling W s' e n m x.
Proof. intros E [Fe Fl Fd Ft]. split; [by rewrite E|done|done|done]. Qed.

Lemma safely_fill {B} X' D W0 s0 W s e n m x c (f : unit -> M ES B) Q :
  wf (Some (HEnv e)) W s -> keeps D W0 s0 W s -> within (at_env e) D s0 -> filling W s e n (Datatypes.S m) x -> ptr s c ->
  (forall s1, wf (Some (HEnv e)) W s1 -> keeps (at_env e) W s W s1 -> keeps D W0 s0 W s1 -> filling W s1 e (Datatypes.S n) m (set_place x n c) ->
    es_values s1 = es_values s -> es_bindings s1 = es_bindings s -> safely X' D W0 s0 s1 (f tt) Q) ->
  safely X' D W0 s0 s (setValue e n c ≫= f) Q.
Proof.
  intros Hwf K HD [Fe Fl Fd (vars & up & Ft)] Hc Hf. unfold safely. rewrite (run_bind _ _ _ _ _ (run_setValue e n c x s Fe ltac:(lia))).
  apply Hf; [eapply setValue_wf; [done|done|lia|done|exact Ft]|apply setEnv_keeps|eapply keeps_within; [exact K|apply setEnv_keeps|done]| |done|done].
  split.
  - cbn. apply list_lookup_insert_eq. by eapply lookup_lt_Some.
  - cbn. rewrite length_insert. lia.
  - intros i Hi. cbn. destruct (decide (i = n)) as [-> |Hne]; [exists c; apply list_lookup_insert_eq; lia|].
    rewrite list_lookup_insert_ne by done. apply Fd. lia.
  - by exists vars, up.
Qed.

(** ** Attribute definitions *)

Definition def_bound (S S2 : StaticEnv) (d : AttrDef) : Prop :=
  match d with AttrE e _ _ => bound S2 e | AttrInherited v _ _ => bind S v = Ok v end.

Lemma add_vars_bound names n vars y d k : add_vars names n vars !! y = Some d -> (forall z i, vars !! z = Some i -> (i < n)%nat) ->
  k = (n + length names)%nat -> (d < k)%nat.
Proof.
  revert n vars. induction names as [|x names IH]; intros n vars Hd Hv Hk; cbn in *; [specialize (Hv _ _ Hd); lia|].
  eapply IH; [exact Hd| |lia]. intros z i Hz. apply lookup_insert_Some in Hz as [[_ <-]|[_ Hz]]; [lia|]. specialize (Hv _ _ Hz). lia.
Qed.

Lemma let_attrs_safe env e S S2 : forall rest n W s x, (env < e)%nat -> wf (Some (HEnv e)) W s -> w_env W !! env = Some S -> w_env W !! e = Some S2 ->
  filling W s e n (length rest) x -> Forall (fun xd => def_bound S S2 xd.2) rest ->
  safely None (at_env e) W s s (let_attrs env e n rest) (fun _ W' s' => w_frozen W' = w_frozen W /\ w_env W' = w_env W).
Proof.
  induction rest as [|[y d] rest IH]; intros n W s x Hlt Hwf HS HS2 Hfi Hb.
  - cbn [let_attrs]. apply (safely_ret _ _ _ _ W); [by eapply filling_full|apply keeps_refl|done].
  - apply Forall_cons in Hb as [Hd Hb]. cbn in Hd.
    assert (Hstep : forall c s1, wf (Some (HEnv e)) W s1 -> keeps (at_env e) W s W s1 -> filling W s1 e n (Datatypes.S (length rest)) x -> ptr s1 c ->
      safely None (at_env e) W s s1 (_ ← setValue e n c; let_attrs env e (Datatypes.S n) rest) (fun _ W' s' => w_frozen W' = w_frozen W /\ w_env W' = w_env W)).
    { intros c s1 Hwf1 K1 Hfi1 Hc. eapply safely_fill; [done|done|apply within_refl|exact Hfi1|done|]. intros s2 Hwf2 K2 K2' Hfi2 _ _.
      eapply safely_leaf; [by eapply IH|done|apply within_refl|done]. }
    destruct d as [ex pos k|v pos k]; cbn [let_attrs].
    + eapply safely_bind; [by eapply maybeThunk_safe|apply keeps_refl|apply within_none|]. intros c W' s1 Hwf1 K1 K1' (-> & Hc & [O1 O2]).
      apply Hstep; [done|done|by eapply filling_same|done].
    + eapply safely_bind; [eapply lookupNow_safe; [done|apply keeps_refl|done|done|by intros e' [= <-]]|apply keeps_refl|apply within_none|].
      intros c W' s1 Hwf1 K1 K1' (-> & -> & Hc). by apply Hstep.
Qed.
End Safe.
