(* ===== verification/EvalForce.v ===== *)
(** * Forcing values

    The assumption on the recursive calls, and that forcing a value is then safe. *)

From Stdlib Require Import ZArith Lia Ascii Relations.
From stdpp Require Import base strings sorting numbers gmap sets list.
From S2P Require Import Prelude Effects Util StorePath Derivations NixExpr Eval EvalMemory EvalScope EvalSafe.

Section Force.
Context `{SymbolTable} {St : Type} (allowed : PrimOp -> Prop).
Abbreviation ES := (EvalState St).
Implicit Types (W : world) (s : ES) (X : option hole) (D : footprint).
Abbreviation wf := (wf allowed).
Abbreviation value_ok := (value_ok allowed).
Abbreviation safely := (safely allowed).

(** What the recursive calls are assumed to do. *)
Record safe_evaluator (R : Evaluator St) : Prop := {
  se_eval : forall W env S e v s, wf None W s -> w_env W !! env = Some S -> bound S e -> dest W s v ->
    safely None (at_val v) W s s (r_eval R env e v) (fun _ _ s' => value_at s' v);
  se_call : forall W f a v s, wf None W s -> ptr s f -> ptr s a -> dest W s v ->
    safely None (at_val v) W s s (r_call R f a v) (fun _ _ s' => value_at s' v);
  se_coerce : forall W v context more copy s, wf None W s -> ptr s v ->
    safely None none W s s (r_coerce R v context more copy) (fun _ _ s' => value_at s' v);
  se_eq : forall W v1 v2 s, wf None W s -> ptr s v1 -> ptr s v2 ->
    safely None none W s s (r_eq R v1 v2) (fun _ _ _ => True) }.

Context (R : Evaluator St) (HR : safe_evaluator R).

Lemma force_thunk_safe W s v env e S : wf None W s -> es_values s !! v = Some (mkValue tThunk (PThunk env e)) -> w_env W !! env = Some S -> bound S e ->
  safely None none W s s (_ ← setType v tBlackhole; try_catch is_Error (r_eval R env e v) (fun ex => _ ← setType v tThunk; rethrow ex)) (fun _ _ s' => value_at s' v).
Proof.
  intros Hwf Hv HS Hb. set (x := mkValue tBlackhole (PThunk env e)). set (s1 := set_values (<[v := x]> (es_values s)) s).
  assert (Hd : dest W s v) by (by eapply (dest_unevaluated allowed None)).
  assert (E1 : setType v tBlackhole s = Done tt s1).
  { unfold setType. rewrite (run_deref _ _ _ _ Hv). by apply run_assign, Hd. }
  assert (K1 : keeps (at_val v) W s W s1) by (by apply assign_keeps).
  assert (Hwf1 : wf None W s1) by (apply assign_wf; [done|apply Hd|done|done]).
  assert (Hw : within (at_val v) none s) by (by eapply within_unevaluated).
  pose proof (se_eval R HR W env S e v s1 Hwf1 HS Hb (dest_keeps _ _ _ _ _ _ K1 Hd)) as Hs.
  unfold EvalSafe.safely in Hs |- *. rewrite (run_bind _ _ _ _ _ E1). unfold try_catch.
  destruct (r_eval R env e v s1) as [a s'|ex s'|]; [|destruct Hs as [Hk Hl]|done].
  - destruct Hs as (W' & Hwf' & K2 & HQ). exists W'. split_and!; [done| |done].
    eapply keeps_within; [eapply keeps_within; [apply (keeps_refl none)|exact K1|exact Hw]|exact K2|exact Hw].
  - assert (Hl1 : (length (es_values s) <= length (es_values s'))%nat) by (unfold s1 in Hl; cbn in Hl; by rewrite length_insert in Hl).
    destruct (is_Error (exn_kind ex)); [|done]. destruct (lookup_lt_is_Some_2 (es_values s') v) as [y Hy]; [destruct Hd; lia|].
    assert (setType v tThunk s' = Done tt (set_values (<[v := mkValue tThunk (payload y)]> (es_values s')) s')) as E2.
    { unfold setType. rewrite (run_deref _ _ _ _ Hy). apply run_assign. by eapply lookup_lt_Some. }
    rewrite (run_bind _ _ _ _ _ E2). cbn. split; [done|]. by rewrite length_insert.
Qed.

Lemma forceValue_safe W s v : wf None W s -> ptr s v -> safely None none W s s (forceValue R v) (fun _ _ s' => value_at s' v).
Proof.
  intros Hwf (x & Hx & Ht). pose proof (wf_values _ _ _ _ Hwf v x Hx ltac:(done)) as Hok. unfold EvalMemory.value_ok in Hok. unfold forceValue.
  unfold EvalSafe.safely. rewrite (run_deref _ _ _ _ Hx).
  assert (whnf (vtype x) = true -> safely None none W s s (mret tt) (fun _ _ s' => value_at s' v)) as Hret.
  { intros Hw. exists W. split_and!; [done|apply keeps_refl|by exists x]. }
  destruct x as [[] p]; try done; try (by apply Hret); cbn [vtype payload] in *.
  - destruct Hok as (env & e & S & -> & HS & Hb). by eapply force_thunk_safe.
  - destruct Hok as (l & r & -> & Hl & Hr).
    eapply (safely_leaf allowed None (at_val v) none W s W s); [apply (se_call R HR W l r v s); [done|done|done|by eapply (dest_unevaluated allowed None)]|apply keeps_refl|by eapply within_unevaluated|done].
Qed.

(** Forcing to a type. *)
Definition typed_at W s (v : nat) (t : ValueType) : Prop := exists x, es_values s !! v = Some x /\ vtype x = t /\ value_ok W s x.

Lemma typed_at_value W s v t : typed_at W s v t -> whnf t = true -> value_at s v.
Proof. intros (x & Hx & <- & _) Hw. by exists x. Qed.

Lemma wrongType_safe {A} X D W0 s0 W s a t b (Q : A -> world -> ES -> Prop) : keeps D W0 s0 W s -> t <> tUninit -> safely X D W0 s0 s (wrongType a t b) Q.
Proof. intros K Ht. unfold wrongType. destruct t; try done; (split; [done|apply K]). Qed.

Lemma force_typed_safe {A} W s v t a b (m : M ES A) Q : wf None W s -> ptr s v ->
  (forall W' s', wf None W' s' -> keeps none W s W' s' -> typed_at W' s' v t -> safely None none W s s' m Q) ->
  safely None none W s s (_ ← forceValue R v; t' ← typeOf v; if decide (t' = t) then m else wrongType a t' b) Q.
Proof.
  intros Hwf Hv Hm. eapply safely_bind; [by apply forceValue_safe|apply keeps_refl|apply within_none|].
  intros [] W' s' Hwf' K' _ (x & Hx & Hw). unfold EvalSafe.safely. rewrite (run_typeOf _ _ _ _ Hx). destruct (decide (vtype x = t)) as [Ht|Hne].
  - apply (Hm W'); [done|done|]. exists x. split_and!; [done|done|by eapply wf_values].
  - eapply (wrongType_safe None none W s W'); [done|]. by destruct (vtype x).
Qed.

Lemma forceAttrs_safe W s v : wf None W s -> ptr s v -> safely None none W s s (forceAttrs R v) (fun _ W' s' => typed_at W' s' v tAttrs).
Proof. intros Hwf Hv. apply force_typed_safe; [done|done|]. intros W' s' Hwf' K' Ht. by apply (safely_ret _ _ _ _ _ W'). Qed.
Lemma forceList_safe W s v : wf None W s -> ptr s v -> safely None none W s s (forceList R v) (fun _ W' s' => typed_at W' s' v tList).
Proof. intros Hwf Hv. apply force_typed_safe; [done|done|]. intros W' s' Hwf' K' Ht. by apply (safely_ret _ _ _ _ _ W'). Qed.

(** A member of a value of known type. *)
Lemma intOf_run W s v : typed_at W s v tInt -> exists n, intOf v s = Done n s.
Proof. intros (x & Hx & Ht & Hok). unfold EvalMemory.value_ok in Hok. rewrite Ht in Hok. destruct Hok as [n Hn]. exists n. unfold intOf. rewrite (run_deref _ _ _ _ Hx). by rewrite Hn. Qed.
Lemma boolOf_run W s v : typed_at W s v tBool -> exists n, boolOf v s = Done n s.
Proof. intros (x & Hx & Ht & Hok). unfold EvalMemory.value_ok in Hok. rewrite Ht in Hok. destruct Hok as [n Hn]. exists n. unfold boolOf. rewrite (run_deref _ _ _ _ Hx). by rewrite Hn. Qed.
Lemma stringOf_run W s v : typed_at W s v tString -> exists n, stringOf v s = Done n s.
Proof. intros (x & Hx & Ht & Hok). unfold EvalMemory.value_ok in Hok. rewrite Ht in Hok. destruct Hok as (t & c & Hn). exists (t, c). unfold stringOf. rewrite (run_deref _ _ _ _ Hx). by rewrite Hn. Qed.
Lemma pathOf_run W s v : typed_at W s v tPath -> exists n, pathOf v s = Done n s.
Proof. intros (x & Hx & Ht & Hok). unfold EvalMemory.value_ok in Hok. rewrite Ht in Hok. destruct Hok as [n Hn]. exists n. unfold pathOf. rewrite (run_deref _ _ _ _ Hx). by rewrite Hn. Qed.
Lemma listOf_run W s v : typed_at W s v tList -> exists l, listOf v s = Done l s /\ Forall (fun o => exists c, o = Some c /\ ptr s c) l.
Proof. intros (x & Hx & Ht & Hok). unfold EvalMemory.value_ok in Hok. rewrite Ht in Hok. destruct Hok as (l & Hn & Hl). exists l. unfold listOf. rewrite (run_deref _ _ _ _ Hx). by rewrite Hn. Qed.
Lemma bindingsOf_run W s v : typed_at W s v tAttrs -> exists l, bindingsOf v s = Done l s /\ attrs_ok s l.
Proof.
  intros (x & Hx & Ht & Hok). unfold EvalMemory.value_ok in Hok. rewrite Ht in Hok. destruct Hok as (b & l & Hn & Hb & Hl). exists l. split; [|done].
  unfold bindingsOf. rewrite (run_attrsOf _ _ _ _ _ Hx Hn). unfold getBindings, mbind, M_bind, gets. by rewrite Hb.
Qed.
End Force.
