(* ===== verification/EvalAttrs.v ===== *)
(** * Building attribute sets

    Evaluating an attribute set is safe, with or without [rec], and so is the
    application of [__overrides]; attributes stay sorted, so that they are found. *)

From Stdlib Require Import ZArith Lia Ascii Relations.
From stdpp Require Import base strings sorting numbers gmap sets list.
From S2P Require Import Prelude Effects Util StorePath Derivations NixExpr Eval EvalMemory EvalScope EvalSafe EvalForce.

Section Sorted.
Context `{SymbolTable}.

Lemma sorted_names_spec l : sorted_names l = true <-> StronglySorted (fun a b => (sym_addr a < sym_addr b)%N) l.
Proof.
  induction l as [|x l IH]; cbn; [split; [constructor|done]|]. rewrite andb_true_iff, IH, forallb_Forall.
  split.
  - intros [Hf Hs]. constructor; [done|]. eapply Forall_impl; [exact Hf|]. intros y. unfold sym_ltb. apply N.ltb_lt.
  - intros Hs. inversion Hs as [|? ? Hs' Hf]; subst. split; [|done]. eapply Forall_impl; [exact Hf|]. intros y. unfold sym_ltb. apply N.ltb_lt.
Qed.

Lemma sorted_names_prefix l k : sorted_names (l ++ k) = true -> sorted_names l = true.
Proof.
  induction l as [|x l IH]; cbn; [done|]. rewrite !andb_true_iff, forallb_app, andb_true_iff. intros [[H1 _] H2]. split; [done|by apply IH].
Qed.

Lemma sorted_names_NoDup l : sorted_names l = true -> NoDup l.
Proof.
  induction l as [|x l IH]; cbn; [constructor|]. rewrite andb_true_iff, forallb_Forall. intros [Hf Hs]. constructor; [|by apply IH].
  rewrite Forall_forall in Hf. intros Hx%Hf. unfold sym_ltb in Hx. apply N.ltb_lt in Hx. lia.
Qed.

Lemma sort_attrs_sorted `{!SymbolLaws} l : NoDup (b_name <$> l) -> sorted_attrs (sort_attrs l).
Proof.
  intros Hnd. unfold sorted_attrs, sort_attrs. rewrite sorted_names_spec.
  assert (StronglySorted attr_le (merge_sort attr_le l)) as Hs.
  { apply Sorted_StronglySorted; [intros a b c; unfold attr_le; lia|]. apply Sorted_merge_sort. intros a b. unfold attr_le. lia. }
  assert (NoDup (b_name <$> merge_sort attr_le l)) as Hnd' by (by rewrite (merge_sort_Permutation attr_le l)).
  induction Hs as [|a k Hs IH Hf]; [constructor|]. cbn in *. apply NoDup_cons in Hnd' as [Hn Hnd']. constructor; [by apply IH|].
  apply Forall_fmap. eapply Forall_impl; [apply Forall_and; split; [exact Hf|apply Forall_forall; intros b Hb; exact Hb]|].
  intros b [Hle Hin]. cbn in *. assert (sym_addr (b_name a) <> sym_addr (b_name b)) as Hne.
  { intros E%sym_addr_inj. apply Hn. rewrite E. by apply list_elem_of_fmap_2. }
  unfold attr_le in Hle. lia.
Qed.
End Sorted.

Section Attrs.
Context `{SymbolTable} `{!SymbolLaws} {St : Type} (allowed : PrimOp -> Prop).
Abbreviation ES := (EvalState St).
Implicit Types (W : world) (s : ES) (X : option hole) (D : footprint).
Abbreviation wf := (wf allowed).
Abbreviation value_ok := (value_ok allowed).
Abbreviation safely := (safely allowed).
Abbreviation attrs_value b := (mkValue tAttrs (PAttrs b)).

Lemma attrs_at X W s v b l : wf X W s -> X <> Some (HVal v) -> es_values s !! v = Some (attrs_value b) -> es_bindings s !! b = Some l -> attrs_ok s l.
Proof. intros Hwf HX Hv Hb. destruct (wf_values _ _ _ _ Hwf v _ Hv HX) as (b' & l' & [= <-] & Hl & Ha). congruence. Qed.

Lemma safely_push {B} X X' D W0 s0 W s v b l a (f : unit -> M ES B) Q :
  wf X W s -> X <> Some (HVal v) -> keeps D W0 s0 W s -> within (at_bnd b) D s0 -> es_values s !! v = Some (attrs_value b) -> es_bindings s !! b = Some l ->
  sorted_attrs (l ++ [a]) -> ptr s (b_value a) ->
  (forall s1, wf X W s1 -> keeps (at_bnd b) W s W s1 -> keeps D W0 s0 W s1 -> es_values s1 = es_values s -> es_envs s1 = es_envs s ->
    es_bindings s1 !! b = Some (l ++ [a]) -> safely X' D W0 s0 s1 (f tt) Q) ->
  safely X' D W0 s0 s (push_attr v a ≫= f) Q.
Proof.
  intros Hwf HX K HD Hv Hb Hs Ha Hf.
  assert (E1 : push_attr v a s = Done tt (set_bindings (<[b := l ++ [a]]> (es_bindings s)) s)).
  { unfold push_attr. rewrite (run_attrsOf _ _ b _ _ Hv), (run_getBindings _ _ _ _ Hb) by done. done. }
  unfold EvalSafe.safely. rewrite (run_bind _ _ _ _ _ E1). apply Hf; [|apply setBindings_keeps| |done|done|].
  - apply setBindings_wf; [done|]. destruct (attrs_at _ _ _ _ _ _ Hwf HX Hv Hb) as [_ Hp]. split; [done|]. apply Forall_app. by split; [|constructor].
  - eapply keeps_within; [exact K|apply setBindings_keeps|done].
  - cbn. apply list_lookup_insert_eq. by eapply lookup_lt_Some.
Qed.

(** ** Without [rec] *)

Lemma plain_attrs_safe env S v b : forall rest W s l, wf None W s -> w_env W !! env = Some S -> es_values s !! v = Some (attrs_value b) ->
  es_bindings s !! b = Some l -> sorted_names ((b_name <$> l) ++ rest.*1) = true -> Forall (fun xd => def_bound S S xd.2) rest ->
  safely None (at_bnd b) W s s (plain_attrs env v rest) (fun _ _ s' => value_at s' v).
Proof.
  induction rest as [|[y d] rest IH]; intros W s l Hwf HS Hv Hb Hs Hd.
  - apply (safely_ret _ _ _ _ _ W); [done|apply keeps_refl|]. by exists (attrs_value b).
  - apply Forall_cons in Hd as [Hd1 Hd]. cbn in Hd1.
    assert (Hstep : forall c pos s1, wf None W s1 -> keeps none W s W s1 -> ptr s1 c ->
      safely None (at_bnd b) W s s1 (_ ← push_attr v (mkBinding y c pos); plain_attrs env v rest) (fun _ _ s' => value_at s' v)).
    { intros c pos s1 Hwf1 K1 Hc. assert (Hs' : sorted_names ((b_name <$> l ++ [mkBinding y c pos]) ++ rest.*1) = true).
      { rewrite fmap_app, <- app_assoc. exact Hs. }
      pose proof (k_whnf _ _ _ _ _ K1 v _ Hv eq_refl (fun F => F)) as Hv1. pose proof (k_bnd _ _ _ _ _ K1 b l Hb (fun F => F)) as Hb1.
      eapply safely_push; [done|done|eapply keeps_within; [apply keeps_refl|exact K1|apply within_none]|apply within_refl|done|done|by eapply sorted_names_prefix|done|].
      intros s2 Hwf2 K2 K2' Ev _ Hb2. eapply safely_leaf; [eapply IH; [done|done|by rewrite Ev|done|done|done]|done|apply within_refl|done]. }
    destruct d as [ex pos k|var pos k]; cbn [plain_attrs].
    + eapply safely_bind; [by eapply maybeThunk_safe|apply keeps_refl|apply within_none|]. intros c W' s1 Hwf1 K1 K1' (-> & Hc & _). by apply Hstep.
    + eapply safely_bind; [eapply lookupNow_safe; [done|apply keeps_refl|done|done|done]|apply keeps_refl|apply within_none|].
      intros c W' s1 Hwf1 K1 K1' (-> & -> & Hc). by apply Hstep.
Qed.

(** ** With [rec] *)

Definition at_rec (e b : nat) : footprint := mkFootprint (fun _ => False) (fun c => c = e) (fun c => c = b).

Lemma within_rec_env e b s : within (at_env e) (at_rec e b) s.
Proof. by split_and!. Qed.
Lemma within_rec_bnd e b s : within (at_bnd b) (at_rec e b) s.
Proof. by split_and!. Qed.

(** The set and the environment after the loop. *)
Definition rec_done W s (v b e : nat) (names : list str) (n : nat) : Prop :=
  es_values s !! v = Some (attrs_value b) /\ (exists l, es_bindings s !! b = Some l /\ b_name <$> l = names) /\
  exists x, es_envs s !! e = Some x /\ length (env_values x) = n.

Lemma rec_attrs_safe env e S S2 v b over : forall rest n W s x l, (env < e)%nat -> wf (Some (HEnv e)) W s -> w_env W !! env = Some S -> w_env W !! e = Some S2 ->
  filling W s e n (length rest) x -> Forall (fun xd => def_bound S S2 xd.2) rest ->
  es_values s !! v = Some (attrs_value b) -> es_bindings s !! b = Some l -> sorted_names ((b_name <$> l) ++ rest.*1) = true ->
  safely None (at_rec e b) W s s (rec_attrs env e v over n rest)
    (fun _ W' s' => W' = W /\ rec_done W' s' v b e ((b_name <$> l) ++ rest.*1) (n + length rest)).
Proof.
  induction rest as [|[y d] rest IH]; intros n W s x l Hlt Hwf HS HS2 Hfi Hbd Hv Hb Hs.
  - apply (safely_ret _ _ _ _ _ W); [by eapply filling_full|apply keeps_refl|]. split; [done|]. rewrite app_nil_r. split_and!; [done|by exists l|].
    exists x. split; [apply Hfi|]. by rewrite (fi_len _ _ _ _ _ _ Hfi).
  - apply Forall_cons in Hbd as [Hd1 Hd]. cbn in Hd1.
    assert (Hstep : forall c pos s1, wf (Some (HEnv e)) W s1 -> keeps none W s W s1 -> filling W s1 e n (Datatypes.S (length rest)) x -> ptr s1 c ->
      safely None (at_rec e b) W s s1 (_ ← setValue e n c; _ ← push_attr v (mkBinding y c pos); rec_attrs env e v over (Datatypes.S n) rest)
        (fun _ W' s' => W' = W /\ rec_done W' s' v b e ((b_name <$> l) ++ y :: rest.*1) (n + Datatypes.S (length rest)))).
    { intros c pos s1 Hwf1 K1 Hfi1 Hc.
      eapply safely_fill; [done|eapply keeps_within; [apply keeps_refl|exact K1|apply within_none]|apply within_rec_env|exact Hfi1|done|].
      intros s2 Hwf2 K2 K2' Hfi2 Ev2 Eb2.
      pose proof (k_whnf _ _ _ _ _ K1 v _ Hv eq_refl (fun F => F)) as Hv1. pose proof (k_bnd _ _ _ _ _ K1 b l Hb (fun F => F)) as Hb1.
      assert (Hs' : sorted_names ((b_name <$> l ++ [mkBinding y c pos]) ++ rest.*1) = true) by (rewrite fmap_app, <- app_assoc; exact Hs).
      eapply safely_push; [done|done|exact K2'|apply within_rec_bnd|by rewrite Ev2|by rewrite Eb2|by eapply sorted_names_prefix|by apply (k_ptr _ _ _ _ _ K2)|].
      intros s3 Hwf3 K3 K3' Ev3 Ee3 Hb3. eapply safely_leaf; [eapply IH; [done|done|done|done|by eapply filling_same|done|by rewrite Ev3, Ev2|done|done]|done|apply within_refl|].
      intros a W' s' _ _ _ [-> Hdone]. split; [done|]. rewrite Nat.add_succ_r. rewrite fmap_app, <- app_assoc in Hdone. exact Hdone. }
    destruct d as [ex pos k|var pos k]; cbn [rec_attrs].
    + eapply (safely_bind allowed (Some (HEnv e)) None none (at_rec e b) W s W s _ _ (fun c W' s' => W' = W /\ ptr s' c /\ only_values s s'));
        [destruct over; [by eapply newThunk_safe|by eapply maybeThunk_safe]|apply keeps_refl|apply within_none|].
      intros c W' s1 Hwf1 K1 K1' (-> & Hc & [O1 O2]). apply Hstep; [done|done|by eapply filling_same|done].
    + eapply safely_bind; [eapply lookupNow_safe; [done|apply keeps_refl|done|done|by intros e' [= <-]]|apply keeps_refl|apply within_none|].
      intros c W' s1 Hwf1 K1 K1' (-> & -> & Hc). by apply Hstep.
Qed.

(** ** Overrides *)

Lemma find_def_Some attrs y d : find_def attrs y = Some d -> exists i, attrs !! i = Some (y, d).
Proof.
  induction attrs as [|[x d'] attrs IH]; cbn; [done|]. destruct (str_eqb x y) eqn:E.
  - intros [= ->]. reflect. subst. by exists 0%nat.
  - intros Hf. destruct (IH Hf) as [i Hi]. by exists (Datatypes.S i).
Qed.
Lemma find_def_None attrs y : find_def attrs y = None -> y ∉ attrs.*1.
Proof.
  induction attrs as [|[x d'] attrs IH]; cbn; [set_solver|]. destruct (str_eqb x y) eqn:E; [done|]. reflect. intros Hf [-> |Hy]%elem_of_cons; [done|]. by apply IH.
Qed.

Definition override_list (attrs : list (str * AttrDef)) (l : list Attr) (i : Attr) : list Attr :=
  match find_def attrs (b_name i) with Some d => <[def_displ d := i]> l | None => l ++ [i] end.
Definition override_env (attrs : list (str * AttrDef)) (x : EvalEnv) (i : Attr) : EvalEnv :=
  match find_def attrs (b_name i) with Some d => set_place x (def_displ d) (b_value i) | None => x end.

Section Overrides.
Context (attrs : list (str * AttrDef)) (displs : forall i y d, attrs !! i = Some (y, d) -> def_displ d = i).
Context (v b e : nat).

Definition overridden (l : list Attr) (x : EvalEnv) (s : ES) : ES := set_envs (<[e := x]> (es_envs s)) (set_bindings (<[b := l]> (es_bindings s)) s).

Lemma override_one_run s l x i : es_values s !! v = Some (attrs_value b) -> (b < length (es_bindings s))%nat -> (e < length (es_envs s))%nat ->
  (length attrs <= length l)%nat -> length (env_values x) = length attrs ->
  override_one e v attrs i (overridden l x s) = Done tt (overridden (override_list attrs l i) (override_env attrs x i) s).
Proof.
  intros Hv Hb He Hl Hx. unfold override_one, override_list, override_env.
  assert (Hv' : es_values (overridden l x s) !! v = Some (attrs_value b)) by done.
  assert (Hb' : es_bindings (overridden l x s) !! b = Some l) by (cbn; by apply list_lookup_insert_eq).
  destruct (find_def attrs (b_name i)) as [d|] eqn:Ef.
  - apply find_def_Some in Ef as [k Hk]. pose proof (displs _ _ _ Hk) as Ed. pose proof (lookup_lt_Some _ _ _ Hk) as Hlt.
    rewrite (run_attrsOf _ _ b _ _ Hv'), (run_getBindings _ _ _ _ Hb') by done.
    destruct (lookup_lt_is_Some_2 l (def_displ d)) as [a Ha]; [lia|]. rewrite (run_some _ a) by done.
    rewrite (run_bind _ _ _ tt (overridden (<[def_displ d := i]> l) x s)); [|unfold setBindings, modify, overridden; cbn; by rewrite list_insert_insert_eq].
    rewrite (run_setValue _ _ _ x); [|cbn; by apply list_lookup_insert_eq|lia]. unfold overridden. cbn. by rewrite list_insert_insert_eq.
  - unfold push_attr. rewrite (run_attrsOf _ _ b _ _ Hv'), (run_getBindings _ _ _ _ Hb') by done.
    unfold setBindings, modify, overridden. cbn. by rewrite list_insert_insert_eq.
Qed.

Lemma override_list_length l i : (length l <= length (override_list attrs l i))%nat.
Proof. unfold override_list. destruct (find_def _ _); [by rewrite length_insert|rewrite length_app; lia]. Qed.
Lemma override_env_length x i : length (env_values (override_env attrs x i)) = length (env_values x).
Proof. unfold override_env. destruct (find_def _ _); [cbn; by rewrite length_insert|done]. Qed.

Lemma override_all_run overs : forall s l x, es_values s !! v = Some (attrs_value b) -> (b < length (es_bindings s))%nat -> (e < length (es_envs s))%nat ->
  (length attrs <= length l)%nat -> length (env_values x) = length attrs ->
  forM (override_one e v attrs) overs (overridden l x s) = Done tt (overridden (foldl (override_list attrs) l overs) (foldl (override_env attrs) x overs) s).
Proof.
  induction overs as [|i overs IH]; intros s l x Hv Hb He Hl Hx; [done|]. cbn [forM foldl].
  rewrite (run_bind _ _ _ _ _ (override_one_run s l x i Hv Hb He Hl Hx)). apply IH; [done|done|done| |by rewrite override_env_length].
  pose proof (override_list_length l i). lia.
Qed.

(** The names after overriding, and the places of the environment. *)
Lemma override_names overs : forall l extra, b_name <$> l = attrs.*1 ++ extra ->
  b_name <$> foldl (override_list attrs) l overs = attrs.*1 ++ extra ++ filter (fun y => find_def attrs y = None) (b_name <$> overs).
Proof.
  induction overs as [|i overs IH]; intros l extra Hl; [cbn; by rewrite app_nil_r|]. rewrite fmap_cons. cbn [foldl]. destruct (find_def attrs (b_name i)) as [d|] eqn:Ef.
  - rewrite filter_cons_False by congruence. unfold override_list at 2. rewrite Ef. apply IH. apply find_def_Some in Ef as [k Hk].
    rewrite (displs _ _ _ Hk), list_fmap_insert, Hl. apply list_insert_id. apply lookup_app_l_Some. by rewrite list_lookup_fmap, Hk.
  - rewrite filter_cons_True by done. unfold override_list at 2. rewrite Ef. rewrite (IH _ (extra ++ [b_name i])); [by rewrite <- app_assoc|].
    rewrite fmap_app, Hl. by rewrite <- app_assoc.
Qed.

Lemma override_values overs : forall l (P : Attr -> Prop), Forall P l -> Forall P overs -> Forall P (foldl (override_list attrs) l overs).
Proof.
  induction overs as [|i overs IH]; intros l P Hl Ho; [done|]. apply Forall_cons in Ho as [Hi Ho]. cbn. apply IH; [|done]. unfold override_list.
  destruct (find_def attrs (b_name i)); [by apply Forall_insert|]. apply Forall_app. by split; [|constructor].
Qed.

Lemma override_places overs : forall x d o, env_values (foldl (override_env attrs) x overs) !! d = Some o ->
  env_values x !! d = Some o \/ exists i, i ∈ overs /\ o = Some (b_value i).
Proof.
  induction overs as [|i overs IH]; intros x d o Ho; [by left|]. cbn in Ho. apply IH in Ho as [Ho|(j & Hj & ->)]; [|right; exists j; split; [by right|done]].
  unfold override_env in Ho. destruct (find_def attrs (b_name i)) as [k|]; [|by left]. cbn in Ho.
  apply list_lookup_insert_Some in Ho as [(_ & <- & _)|[_ Ho]]; [right; exists i; split; [by left|done]|by left].
Qed.

Lemma override_shape overs : forall x, env_up (foldl (override_env attrs) x overs) = env_up x /\
  length (env_values (foldl (override_env attrs) x overs)) = length (env_values x).
Proof.
  induction overs as [|i overs IH]; intros x; [done|]. cbn. destruct (IH (override_env attrs x i)) as [-> ->]. rewrite override_env_length. split; [|done].
  unfold override_env. by destruct (find_def attrs (b_name i)).
Qed.

Lemma overridden_wf W s vars up x l overs : wf None W s -> w_env W !! e = Some (FVars vars :: up) -> es_envs s !! e = Some x -> (b < length (es_bindings s))%nat ->
  length (env_values x) = length attrs -> Forall (fun a => ptr s (b_value a)) l -> Forall (fun a => ptr s (b_value a)) overs ->
  NoDup (b_name <$> foldl (override_list attrs) l overs) ->
  wf None W (overridden (sort_attrs (foldl (override_list attrs) l overs)) (foldl (override_env attrs) x overs) s).
Proof.
  intros Hwf HS Hx Hb Hlen Hl Ho Hnd. unfold overridden. set (s1 := set_bindings _ s).
  assert (Hwf1 : wf None W s1).
  { apply setBindings_wf; [done|]. split; [by apply sort_attrs_sorted|]. unfold sort_attrs. rewrite merge_sort_Permutation. by apply override_values. }
  apply (setEnv_wf allowed None W s1); [done|]. intros S' HS'. simplify_eq.
  destruct (wf_envs _ _ _ _ Hwf e _ HS) as (y & F & up' & Hy & [= <- <-] & Hup & HF). simplify_eq.
  destruct (override_shape overs x) as [Eu El]. eexists _, (FVars vars), up.
  split_and!; [cbn; apply list_lookup_insert_eq; by eapply lookup_lt_Some|done|by rewrite Eu|].
  intros z d Hz. destruct (HF z d Hz) as ([c|] & Hc & Hp); [|done].
  destruct (lookup_lt_is_Some_2 (env_values (foldl (override_env attrs) x overs)) d) as [o Hod]; [rewrite El; by eapply lookup_lt_Some|].
  exists o. split; [done|]. destruct (override_places _ _ _ _ Hod) as [Hod'|(i & Hi & ->)]; [by simplify_eq|].
  rewrite Forall_forall in Ho. by apply (Ho i).
Qed.
End Overrides.
End Attrs.
