(* ===== verification/EvalSound.v ===== *)
(** * Safety of the evaluator

    Each construct is safe when the recursive calls are; by induction on the number of
    unrollings, the evaluator is.  The built-in functions that occur in memory are
    assumed to be safe in the same sense. *)

From Stdlib Require Import ZArith Lia Ascii Relations.
From stdpp Require Import base strings sorting numbers gmap sets list.
From S2P Require Import Prelude Effects Util StorePath Derivations NixExpr Eval EvalMemory EvalScope EvalSafe EvalForce EvalAttrs.

Section Sound.
Context `{SymbolTable} `{!SymbolLaws} {St : Type} (allowed : PrimOp -> Prop).
Abbreviation ES := (EvalState St).
Implicit Types (W : world) (s : ES) (X : option hole) (D : footprint).
Abbreviation wf := (wf allowed).
Abbreviation value_ok := (value_ok allowed).
Abbreviation safely := (safely allowed).
Abbreviation typed_at := (typed_at allowed).
Abbreviation attrs_value b := (mkValue tAttrs (PAttrs b)).
Context (R : Evaluator St) (HR : safe_evaluator allowed R).

(** ** Attribute sets *)

Lemma overridden_same b e l x s : es_bindings s !! b = Some l -> es_envs s !! e = Some x -> overridden b e l x s = s.
Proof. intros Hb He. destruct s. unfold overridden. cbn in *. by rewrite !list_insert_id. Qed.

Lemma overridden_keeps W s b e l x : keeps (at_rec e b) W s W (overridden b e l x s).
Proof.
  apply (keeps_within (at_rec e b) (at_env e) W s W (set_bindings (<[b := l]> (es_bindings s)) s)); [|apply (setEnv_keeps W (set_bindings (<[b := l]> (es_bindings s)) s) e x)|by split_and!].
  apply (keeps_within (at_rec e b) (at_bnd b) W s W s); [apply keeps_refl|apply setBindings_keeps|by split_and!].
Qed.

Lemma rec_done_keeps W s W' s' v b e names n : keeps none W s W' s' -> rec_done W s v b e names n -> rec_done W' s' v b e names n.
Proof.
  intros K (Hv & (l & Hl & Hn) & x & Hx & Hlen). split_and!; [apply (k_whnf _ _ _ _ _ K); [done|done|tauto]| |].
  - exists l. split; [apply (k_bnd _ _ _ _ _ K); [done|tauto]|done].
  - exists x. split; [apply (k_envs _ _ _ _ _ K); [done|tauto]|done].
Qed.

Section RecAttrs.
Context (attrs : list (str * AttrDef)) (displs : forall i y d, attrs !! i = Some (y, d) -> def_displ d = i) (sorted : sorted_names attrs.*1 = true).

Lemma override_NoDup l overs : b_name <$> l = attrs.*1 -> sorted_attrs overs -> NoDup (b_name <$> foldl (override_list attrs) l overs).
Proof.
  intros Hl Hs. rewrite (override_names attrs displs overs l []) by (by rewrite app_nil_r). cbn [app]. apply NoDup_app. split_and!.
  - by apply sorted_names_NoDup.
  - intros y Hy [Hf _]%list_elem_of_filter. by apply find_def_None in Hf.
  - apply NoDup_filter. by apply sorted_names_NoDup.
Qed.

Lemma apply_overrides_safe W s v b e vars up d : wf None W s -> w_env W !! e = Some (FVars vars :: up) -> rec_done W s v b e attrs.*1 (length attrs) ->
  find_def attrs sOverrides = Some d -> safely None (at_rec e b) W s s (apply_overrides R e v attrs d) (fun _ _ s' => value_at s' v).
Proof.
  intros Hwf HS Hdone Hd. pose proof Hdone as (Hv & (l & Hb & Hn) & x & Hx & Hlen).
  assert (Hll : length l = length attrs) by (by rewrite <- (length_fmap b_name l), Hn, length_fmap).
  unfold apply_overrides. unfold EvalSafe.safely. rewrite (run_bindingsOf _ _ b l _ _ Hv) by done.
  apply find_def_Some in Hd as [k Hk]. pose proof (displs _ _ _ Hk) as Edk. pose proof (lookup_lt_Some _ _ _ Hk) as Hlt.
  destruct (lookup_lt_is_Some_2 l (def_displ d)) as [o Ho]; [lia|]. rewrite (run_some _ o) by done.
  destruct (attrs_at allowed None _ _ _ _ _ Hwf ltac:(done) Hv Hb) as [_ Hp]. rewrite Forall_forall in Hp.
  eapply (safely_bind allowed None None none (at_rec e b) W s W s);
    [apply (forceAttrs_safe allowed R HR W s (b_value o)); [done|apply Hp; by eapply list_elem_of_lookup_2]|apply keeps_refl|apply within_none|].
  intros [] W1 s1 Hwf1 K1 K1' Ht. destruct (bindingsOf_run allowed W1 s1 _ Ht) as (overs & Eo & Hso & Hpo).
  destruct (rec_done_keeps _ _ _ _ _ _ _ _ _ K1 Hdone) as (Hv1 & (l1 & Hb1 & Hn1) & x1 & Hx1 & Hlen1).
  assert (Hl1 : length l1 = length attrs) by (by rewrite <- (length_fmap b_name l1), Hn1, length_fmap).
  destruct (attrs_at allowed None _ _ _ _ _ Hwf1 ltac:(done) Hv1 Hb1) as [_ Hp1].
  assert (HS1 : w_env W1 !! e = Some (FVars vars :: up)) by (eapply lookup_weaken; [exact HS|apply K1]).
  set (lf := foldl (override_list attrs) l1 overs). set (xf := foldl (override_env attrs) x1 overs).
  assert (Hloop : forM (override_one e v attrs) overs s1 = Done tt (overridden b e lf xf s1)).
  { rewrite <- (overridden_same b e l1 x1 s1 Hb1 Hx1) at 1. apply override_all_run; [done|done|by eapply lookup_lt_Some|by eapply lookup_lt_Some|lia|done]. }
  unfold EvalSafe.safely. rewrite (run_bind _ _ _ _ _ Eo), (run_bind _ _ _ _ _ Hloop).
  assert (Hvf : es_values (overridden b e lf xf s1) !! v = Some (attrs_value b)) by done.
  assert (Hbf : es_bindings (overridden b e lf xf s1) !! b = Some lf) by (cbn; apply list_lookup_insert_eq; by eapply lookup_lt_Some).
  rewrite (run_attrsOf _ _ b _ _ Hvf), (run_getBindings _ _ _ _ Hbf) by done.
  assert (Hend : setBindings b (sort_attrs lf) (overridden b e lf xf s1) = Done tt (overridden b e (sort_attrs lf) xf s1)).
  { unfold setBindings, modify, overridden. cbn. by rewrite list_insert_insert_eq. }
  rewrite Hend. exists W1. split_and!.
  - eapply overridden_wf; [done|exact HS1|done|by eapply lookup_lt_Some|done|done|done|by apply override_NoDup].
  - eapply keeps_within; [exact K1'|apply overridden_keeps|apply within_refl].
  - by exists (attrs_value b).
Qed.
End RecAttrs.

(** The definitions of a [rec] or a [let] that is bound. *)
Lemma bound_defs S attrs : imapR (fun n (xd : str * AttrDef) => d ← bind_def S (attrs_frame attrs :: S) (Some n) xd.2; Ok (xd.1, d)) 0 attrs = Ok attrs ->
  forallb (fun xd => def_ok xd.2) attrs = true ->
  Forall (fun xd => def_bound S (attrs_frame attrs :: S) xd.2) attrs /\ forall i y d, attrs !! i = Some (y, d) -> def_displ d = i.
Proof.
  intros [_ Hi]%imapR_Ok Hok. rewrite forallb_Forall, Forall_lookup in Hok. split.
  - apply Forall_lookup. intros i [y d] Hl. specialize (Hi i _ _ Hl Hl). specialize (Hok i _ Hl). cbn in *. destruct d as [e pos k|v pos k]; cbn in *; inv_ok; done.
  - intros i y d Hl. specialize (Hi i _ _ Hl Hl). destruct d as [e pos k|v pos k]; cbn in *; inv_ok; done.
Qed.
Lemma bound_plain_defs S attrs : mapR (fun (xd : str * AttrDef) => d ← bind_def S S None xd.2; Ok (xd.1, d)) attrs = Ok attrs ->
  forallb (fun xd => def_ok xd.2) attrs = true -> Forall (fun xd => def_bound S S xd.2) attrs.
Proof.
  intros Hi%mapR_Ok Hok. rewrite forallb_Forall, Forall_lookup in Hok. apply Forall_lookup. intros i [y d] Hl. specialize (Hok i _ Hl).
  destruct (Forall2_lookup_l _ _ _ _ _ Hi Hl) as (? & Hl' & Hb). simplify_eq. cbn in *. destruct d as [e pos k|v pos k]; cbn in *; inv_ok; done.
Qed.

Lemma attrs_frame_bound attrs vars y d : attrs_frame attrs = FVars vars -> vars !! y = Some d -> (d < length attrs)%nat.
Proof. intros [= <-] Hd. eapply add_vars_bound; [exact Hd|by intros z i Hz|]. by rewrite length_fmap. Qed.

Lemma mkAttrs_safe X W s v : wf X W s -> dest W s v ->
  safely X (at_val v) W s s (mkAttrs v) (fun _ W' s' => W' = W /\ exists b, es_values s' !! v = Some (attrs_value b) /\ es_bindings s' !! b = Some [] /\ (length (es_bindings s) <= b)%nat).
Proof.
  intros Hwf Hv. set (b := length (es_bindings s)). set (s1 := set_bindings (es_bindings s ++ [[]]) s).
  assert (Hb1 : es_bindings s1 !! b = Some []) by (cbn; by rewrite lookup_app_r, Nat.sub_diag by done).
  unfold mkAttrs, EvalSafe.safely. rewrite (run_bind _ _ _ b s1) by done.
  eapply (safely_assign allowed X (at_val v) W s W s1); [by apply allocBindings_wf|eapply keeps_within; [apply keeps_refl|apply allocBindings_keeps|apply within_none]|exact Hv|apply within_refl|done| |].
  - exists b, []. split_and!; [done|done|]. by split.
  - intros s2 _ _ _ Hx [_ Eb]. split; [done|]. exists b. by rewrite Eb.
Qed.

Lemma eval_attrs_safe W s env S r attrs v : wf None W s -> w_env W !! env = Some S -> bound S (ExprAttrs r attrs) -> dest W s v ->
  safely None (at_val v) W s s (eval_attrs R env r attrs v) (fun _ _ s' => value_at s' v).
Proof.
  intros Hwf HS [Hb Hok] Hv. cbn in Hok. apply andb_true_iff in Hok as [Hsorted Hdefs]. unfold eval_attrs.
  eapply safely_bind; [by apply mkAttrs_safe|apply keeps_refl|apply within_refl|]. intros [] W1 s1 Hwf1 K1 K1' (-> & b & Hv1 & Hb1 & Hbl).
  destruct r; cbn in Hb; inv_ok.
  - destruct (bound_defs S attrs H1 Hdefs) as [Hbd Hdispl]. destruct (attrs_frame attrs) as [|vars] eqn:EF; [done|].
    eapply (safely_newEnv allowed None (at_val v) W s W s1 env S (length attrs) vars); [done|done|done|by intros y d; apply attrs_frame_bound|].
    intros e W2 s2 Hlt Hle Ef HSe Hwf2 K2 K2' He Ev. assert (HS2 : w_env W2 !! env = Some S) by (eapply lookup_weaken; [exact HS|apply K2]).
    assert (Hrec : within (at_rec e b) (at_val v) s).
    { split_and!; [done| |]; cbn; intros c Hc ->; [pose proof (k_elen _ _ _ _ _ K1)|]; lia. }
    eapply safely_bind; [eapply (rec_attrs_safe allowed env e S (FVars vars :: S) v b _ attrs 0 W2 s2)|exact K2|exact Hrec|].
    + done.
    + done.
    + done.
    + done.
    + split; [exact He|cbn; by rewrite length_replicate|intros i Hi; lia|by eexists _, _].
    + done.
    + by rewrite Ev.
    + by apply (k_bnd _ _ _ _ _ K2' b []); [|tauto].
    + done.
    + intros [] W3 s3 Hwf3 K3 K3' (-> & Hdone). destruct (find_def attrs sOverrides) as [d|] eqn:Eo.
      * eapply safely_leaf; [eapply (apply_overrides_safe attrs Hdispl Hsorted W2 s3); [done|exact HSe|exact Hdone|done]|exact K3'|exact Hrec|done].
      * apply (safely_ret _ _ _ _ _ W2); [done|done|]. destruct Hdone as [Hvd _]. by exists (attrs_value b).
  - eapply safely_leaf; [eapply (plain_attrs_safe allowed env S v b attrs W s1 []); [done|done|done|done|done|by apply bound_plain_defs]|done| |done].
    split_and!; [done|done|]. cbn. intros c Hc ->. lia.
Qed.

(** ** Copying and lists *)

Lemma copyValue_safe W s c v : wf None W s -> value_at s c -> dest W s v ->
  safely None (at_val v) W s s (copyValue c v) (fun _ _ s' => value_at s' v).
Proof.
  intros Hwf (x & Hx & Hw) Hv. unfold copyValue, EvalSafe.safely. rewrite (run_deref _ _ _ _ Hx).
  apply (safely_result allowed None W s v x); [done|done|done|]. by eapply wf_values.
Qed.

(** The first [n] elements have been written. *)
Definition elems_ok s (n : nat) (l : list (option nat)) : Prop := forall i o, (i < n)%nat -> l !! i = Some o -> exists c, o = Some c /\ ptr s c.

Lemma elems_ok_keeps D W s W' s' n l : keeps D W s W' s' -> elems_ok s n l -> elems_ok s' n l.
Proof. intros K Hl i o Hi Ho. destruct (Hl i o Hi Ho) as (c & -> & Hc). exists c. split; [done|by apply (k_ptr _ _ _ _ _ K)]. Qed.

Lemma eval_elems_safe env S v : forall rest n W s l, wf (Some (HVal v)) W s -> w_env W !! env = Some S -> Forall (bound S) rest ->
  es_values s !! v = Some (mkValue tList (PList l)) -> length l = (n + length rest)%nat -> elems_ok s n l ->
  safely None (at_val v) W s s (eval_elems env v n rest) (fun _ _ s' => value_at s' v).
Proof.
  induction rest as [|e rest IH]; intros n W s l Hwf HS Hb Hv Hlen Hl.
  - apply (safely_ret _ _ _ _ _ W); [|apply keeps_refl|by eexists]. eapply wf_close; [done|exact Hv|]. exists l. split; [done|].
    apply Forall_lookup. intros i o Ho. apply (Hl i o); [|done]. apply lookup_lt_Some in Ho. cbn in Hlen. lia.
  - apply Forall_cons in Hb as [Hb1 Hb]. cbn [eval_elems]. cbn in Hlen.
    eapply safely_bind; [by eapply maybeThunk_safe|apply keeps_refl|apply within_none|]. intros c W' s1 Hwf1 K1 K1' (-> & Hc & _).
    pose proof (k_whnf _ _ _ _ _ K1 v _ Hv eq_refl (fun F => F)) as Hv1. pose proof (wf_hole _ _ _ _ Hwf1 v eq_refl) as Hd1.
    destruct (lookup_lt_is_Some_2 l n) as [o Ho]; [lia|]. set (x := mkValue tList (PList (<[n := Some c]> l))).
    assert (E1 : setElem v n c s1 = Done tt (set_values (<[v := x]> (es_values s1)) s1)).
    { unfold setElem. rewrite (run_deref _ _ _ _ Hv1). cbn [payload]. rewrite (run_some _ o) by done. by apply run_assign, Hd1. }
    assert (K2 : keeps (at_val v) W s1 W (set_values (<[v := x]> (es_values s1)) s1)) by (by apply assign_keeps).
    unfold EvalSafe.safely. rewrite (run_bind _ _ _ _ _ E1). eapply (safely_leaf allowed None (at_val v) (at_val v) W s W); [eapply (IH (Datatypes.S n) W _ (<[n := Some c]> l))|eapply keeps_within; [exact K1'|exact K2|apply within_refl]|apply within_refl|done].
    + by apply wf_rewrite.
    + done.
    + done.
    + cbn. apply list_lookup_insert_eq, Hd1.
    + rewrite length_insert. lia.
    + intros i o' Hi Ho'. apply list_lookup_insert_Some in Ho' as [(-> & <- & _)|[Hne Ho']].
      * exists c. split; [done|by apply (k_ptr _ _ _ _ _ K2)].
      * eapply elems_ok_keeps; [exact K2|by eapply elems_ok_keeps|  |exact Ho']. lia.
Qed.

Lemma eval_list_safe W s env S elems v : wf None W s -> w_env W !! env = Some S -> Forall (bound S) elems -> dest W s v ->
  safely None (at_val v) W s s (_ ← mkList v (length elems); eval_elems env v 0 elems) (fun _ _ s' => value_at s' v).
Proof.
  intros Hwf HS Hb Hv. set (x := mkValue tList (PList (replicate (length elems) None))). unfold mkList.
  assert (K1 : keeps (at_val v) W s W (set_values (<[v := x]> (es_values s)) s)) by (by apply assign_keeps).
  unfold EvalSafe.safely. rewrite (run_bind _ _ _ _ _ (run_assign v x s ltac:(apply Hv))).
  eapply (safely_leaf allowed None (at_val v) (at_val v) W s W); [eapply (eval_elems_safe env S v elems 0 W _ (replicate (length elems) None))|exact K1|apply within_refl|done].
  - apply wf_open; [done|apply Hv|apply Hv|done].
  - done.
  - done.
  - cbn. apply list_lookup_insert_eq, Hv.
  - by rewrite length_replicate.
  - intros i o Hi. lia.
Qed.

(** ** Booleans and sets as operands *)

Lemma value_typed W s v : wf None W s -> value_at s v -> exists t, typed_at W s v t /\ whnf t = true.
Proof. intros Hwf (x & Hx & Hw). exists (vtype x). split; [|done]. exists x. split_and!; [done|done|]. by eapply wf_values. Qed.

Lemma evalBool_safe W s env S e : wf None W s -> w_env W !! env = Some S -> bound S e ->
  safely None none W s s (evalBool R env e) (fun _ _ _ => True).
Proof.
  intros Hwf HS Hb. unfold evalBool. eapply safely_alloc; [done|apply keeps_refl|]. intros v s1 Hwf1 K1 _ Hv _ Ev _.
  eapply safely_bind; [by eapply (se_eval _ _ HR W env S e v s1)|done|eapply (within_fresh_val _ W s W s); [apply keeps_refl|lia]|].
  intros [] W2 s2 Hwf2 K2 K2' (x & Hx & Hw). unfold EvalSafe.safely. rewrite (run_typeOf _ _ _ _ Hx). destruct (decide (vtype x = tBool)) as [Ht|Hne].
  - destruct (boolOf_run allowed W2 s2 v) as [n En]; [exists x; split_and!; [done|done|by eapply wf_values]|]. rewrite En. by exists W2.
  - eapply (wrongType_safe allowed None none W s W2); [done|]. by destruct (vtype x).
Qed.

Lemma evalAttrs_safe W s env S e v : wf None W s -> w_env W !! env = Some S -> bound S e -> dest W s v ->
  safely None (at_val v) W s s (evalAttrs R env e v) (fun _ W' s' => typed_at W' s' v tAttrs).
Proof.
  intros Hwf HS Hb Hv. unfold evalAttrs. eapply safely_bind; [by eapply (se_eval _ _ HR)|apply keeps_refl|apply within_refl|].
  intros [] W2 s2 Hwf2 K2 K2' (x & Hx & Hw). unfold EvalSafe.safely. rewrite (run_typeOf _ _ _ _ Hx). destruct (decide (vtype x = tAttrs)) as [Ht|Hne].
  - exists W2. split_and!; [done|done|]. exists x. split_and!; [done|done|by eapply wf_values].
  - eapply (wrongType_safe allowed None (at_val v) W s W2); [done|]. by destruct (vtype x).
Qed.
End Sound.
