(* ===== verification/EvalOps.v ===== *)
(** * Operators and functions

    Merging, concatenation, selection, calls, coercion and comparison are safe; and
    the merge of two attribute sets is their union that prefers the second. *)

From Stdlib Require Import ZArith Lia Ascii Relations.
From stdpp Require Import base strings sorting numbers gmap sets list.
From S2P Require Import Prelude Effects Util StorePath Derivations NixExpr Eval EvalMemory EvalScope EvalSafe EvalForce EvalAttrs EvalSound.

(** ** The merge *)

Section Merge.
Context `{SymbolTable} `{!SymbolLaws}.

Lemma sorted_attrs_cons a l : sorted_attrs (a :: l) <-> Forall (fun b => sym_ltb (b_name a) (b_name b) = true) l /\ sorted_attrs l.
Proof.
  unfold sorted_attrs. cbn. rewrite andb_true_iff, forallb_Forall, Forall_fmap. done.
Qed.

Lemma sym_ltb_trans a b c : sym_ltb a b = true -> sym_ltb b c = true -> sym_ltb a c = true.
Proof. unfold sym_ltb. rewrite !N.ltb_lt. lia. Qed.
Lemma sym_ltb_irrefl a : sym_ltb a a = false.
Proof. apply N.ltb_irrefl. Qed.
Lemma sym_ltb_total a b : a <> b -> sym_ltb a b = false -> sym_ltb b a = true.
Proof.
  intros Hne. unfold sym_ltb. rewrite N.ltb_ge, N.ltb_lt. intros Hle. assert (sym_addr a <> sym_addr b) as Hn by (by intros ?%sym_addr_inj). lia.
Qed.

Lemma update_merge_cons i l1 j l2 : update_merge (i :: l1) (j :: l2) =
  if str_eqb (b_name i) (b_name j) then j :: update_merge l1 l2
  else if sym_ltb (b_name i) (b_name j) then i :: update_merge l1 (j :: l2) else j :: update_merge (i :: l1) l2.
Proof. done. Qed.
Lemma update_merge_nil_r l1 : update_merge l1 [] = l1.
Proof. by destruct l1. Qed.

Lemma update_merge_elem a l1 : forall l2, a ∈ update_merge l1 l2 -> a ∈ l1 \/ a ∈ l2.
Proof.
  induction l1 as [|i l1 IH1]; intros l2; [by right|]. induction l2 as [|j l2 IH2]; [by left|]. rewrite update_merge_cons.
  destruct (str_eqb _ _); [|destruct (sym_ltb _ _)]; intros [-> |Ha]%elem_of_cons.
  - right. by left.
  - destruct (IH1 _ Ha); [left; by right|right; by right].
  - left. by left.
  - destruct (IH1 _ Ha); [left; by right|by right].
  - right. by left.
  - destruct (IH2 Ha); [by left|right; by right].
Qed.

Lemma update_merge_below x l1 l2 : Forall (fun b => sym_ltb x (b_name b) = true) l1 -> Forall (fun b => sym_ltb x (b_name b) = true) l2 ->
  Forall (fun b => sym_ltb x (b_name b) = true) (update_merge l1 l2).
Proof.
  rewrite !Forall_forall. intros H1 H2 a Ha. destruct (update_merge_elem a l1 l2 Ha); auto.
Qed.

Lemma update_merge_sorted l1 : forall l2, sorted_attrs l1 -> sorted_attrs l2 -> sorted_attrs (update_merge l1 l2).
Proof.
  induction l1 as [|i l1 IH1]; intros l2; [done|]. induction l2 as [|j l2 IH2]; intros S1 S2; [done|]. rewrite update_merge_cons.
  pose proof S1 as [F1 S1']%sorted_attrs_cons. pose proof S2 as [F2 S2']%sorted_attrs_cons.
  destruct (str_eqb (b_name i) (b_name j)) eqn:E; [|destruct (sym_ltb (b_name i) (b_name j)) eqn:L]; reflect; apply sorted_attrs_cons.
  - split; [|by apply IH1]. apply update_merge_below; [by rewrite <- E|done].
  - split; [|by apply IH1]. apply update_merge_below; [done|]. constructor; [done|]. eapply Forall_impl; [exact F2|]. intros b. by apply sym_ltb_trans.
  - split; [|by apply IH2]. apply update_merge_below; [|done]. apply sym_ltb_total in L; [|done]. constructor; [done|].
    eapply Forall_impl; [exact F1|]. intros b. by apply sym_ltb_trans.
Qed.

Lemma find_attr_above l x : Forall (fun b => sym_ltb x (b_name b) = true) l -> find_attr l x = None.
Proof.
  destruct l as [|a l]; [done|]. intros [Ha _]%Forall_cons. cbn. unfold sym_ltb in *. apply N.ltb_lt in Ha.
  replace (sym_addr (b_name a) <? sym_addr x)%N with false by (symmetry; apply N.ltb_ge; lia).
  destruct (str_eqb (b_name a) x) eqn:E; [|done]. reflect. subst. lia.
Qed.

Lemma find_attr_cons a l x : sorted_attrs (a :: l) -> find_attr (a :: l) x = if str_eqb (b_name a) x then Some a else find_attr l x.
Proof.
  intros [Hf _]%sorted_attrs_cons. cbn. destruct (str_eqb (b_name a) x) eqn:E; reflect; [subst; by rewrite sym_ltb_irrefl|].
  destruct (sym_ltb (b_name a) x) eqn:L; [done|]. symmetry. apply find_attr_above. apply sym_ltb_total in L; [|done].
  eapply Forall_impl; [exact Hf|]. intros b. by apply sym_ltb_trans.
Qed.

Lemma merge_find x l1 : forall l2, sorted_attrs l1 -> sorted_attrs l2 ->
  find_attr (update_merge l1 l2) x = match find_attr l2 x with Some a => Some a | None => find_attr l1 x end.
Proof.
  induction l1 as [|i l1 IH1]; intros l2; [cbn; by destruct (find_attr l2 x)|]. induction l2 as [|j l2 IH2]; intros S1 S2; [done|].
  pose proof S1 as [F1 S1']%sorted_attrs_cons. pose proof S2 as [F2 S2']%sorted_attrs_cons.
  pose proof (update_merge_sorted (i :: l1) (j :: l2) S1 S2) as SM. rewrite update_merge_cons in SM |- *. rewrite (find_attr_cons j l2) by done. rewrite (find_attr_cons i l1) by done.
  destruct (str_eqb (b_name i) (b_name j)) eqn:E; [|destruct (sym_ltb (b_name i) (b_name j)) eqn:L]; rewrite find_attr_cons by done; reflect.
  - rewrite IH1 by done. rewrite E. by destruct (str_eqb (b_name j) x).
  - rewrite IH1 by done. rewrite (find_attr_cons j l2) by done. destruct (str_eqb (b_name i) x) eqn:Ei; [|done]. reflect. subst x.
    rewrite str_eqb_ne by congruence. rewrite find_attr_above; [done|]. eapply Forall_impl; [exact F2|]. intros b. by apply sym_ltb_trans.
  - rewrite IH2 by done. rewrite (find_attr_cons i l1) by done. by destruct (str_eqb (b_name j) x).
Qed.

(** The merge of the operator [//] on sorted attribute sets is the union that
    prefers the second operand: looking a name up in the result finds the attribute of
    the second set if it has one, and that of the first set otherwise; and the result is
    sorted without duplicates, which the binary search of later lookups relies on. *)
Theorem update_merge_find l1 l2 : sorted_attrs l1 -> sorted_attrs l2 ->
  sorted_attrs (update_merge l1 l2) /\
  forall x, find_attr (update_merge l1 l2) x = match find_attr l2 x with Some a => Some a | None => find_attr l1 x end.
Proof. intros S1 S2. split; [by apply update_merge_sorted|]. intros x. by apply merge_find. Qed.
End Merge.

Section Ops.
Context `{SymbolTable} `{!SymbolLaws} {St : Type} (allowed : PrimOp -> Prop).
Abbreviation ES := (EvalState St).
Implicit Types (W : world) (s : ES) (X : option hole) (D : footprint).
Abbreviation wf := (wf allowed).
Abbreviation value_ok := (value_ok allowed).
Abbreviation safely := (safely allowed).
Abbreviation typed_at := (typed_at allowed).
Abbreviation attrs_value b := (mkValue tAttrs (PAttrs b)).
Context (R : Evaluator St) (HR : safe_evaluator allowed R).

(** ** Combinators *)

Lemma typed_keeps D W s W' s' v t : wf None W' s' -> keeps D W s W' s' -> whnf t = true -> ~ d_val D v -> typed_at W s v t -> typed_at W' s' v t.
Proof.
  intros Hwf K Hw Hd (x & Hx & <- & _). exists x. assert (es_values s' !! v = Some x) as Hx' by (by apply (k_whnf _ _ _ _ _ K)).
  split_and!; [done|done|by eapply wf_values].
Qed.

Lemma typed_ptr W s v t : typed_at W s v t -> t <> tUninit -> ptr s v.
Proof. intros (x & Hx & <- & _) Ht. by exists x. Qed.

Lemma safely_typeOf {B} X D W0 s0 W s v (f : ValueType -> M ES B) Q : wf None W s -> value_at s v ->
  (forall t, typed_at W s v t -> whnf t = true -> safely X D W0 s0 s (f t) Q) -> safely X D W0 s0 s (typeOf v ≫= f) Q.
Proof.
  intros Hwf (x & Hx & Hw) Hf. unfold EvalSafe.safely. rewrite (run_typeOf _ _ _ _ Hx). apply Hf; [|done].
  exists x. split_and!; [done|done|by eapply wf_values].
Qed.

Lemma safely_run {A B} X D W0 s0 s (m : M ES A) a (f : A -> M ES B) Q : m s = Done a s -> safely X D W0 s0 s (f a) Q -> safely X D W0 s0 s (m ≫= f) Q.
Proof. intros E Hf. unfold EvalSafe.safely. by rewrite (run_bind _ _ _ _ _ E). Qed.

Lemma safely_force {B} D W0 s0 W s v (f : unit -> M ES B) Q : wf None W s -> keeps D W0 s0 W s -> ptr s v ->
  (forall W' s', wf None W' s' -> keeps none W s W' s' -> keeps D W0 s0 W' s' -> value_at s' v -> safely None D W0 s0 s' (f tt) Q) ->
  safely None D W0 s0 s (forceValue R v ≫= f) Q.
Proof. intros Hwf K Hv Hf. eapply safely_bind; [by apply forceValue_safe|done|apply within_none|]. intros [] W' s'. apply Hf. Qed.

Lemma safely_evalNew {B} D W0 s0 W s env S e (f : nat -> M ES B) Q : wf None W s -> keeps D W0 s0 W s -> w_env W !! env = Some S -> bound S e ->
  (forall v W' s', wf None W' s' -> keeps none W s W' s' -> keeps D W0 s0 W' s' -> value_at s' v -> (length (es_values s) <= v)%nat ->
    safely None D W0 s0 s' (f v) Q) ->
  safely None D W0 s0 s (v ← allocValue; _ ← r_eval R env e v; f v) Q.
Proof.
  intros Hwf K HS Hb Hf. eapply safely_alloc; [done|done|]. intros v s1 Hwf1 K1 K1' Hv _ Ev _.
  assert (Hfresh : forall D', within (at_val v) D' s) by (intros D'; eapply (within_fresh_val _ W s W s); [apply keeps_refl|lia]).
  assert (Hfresh0 : within (at_val v) D s0) by (eapply within_fresh_val; [exact K|lia]).
  eapply safely_bind; [by eapply (se_eval _ _ HR W env S e v s1)|done|done|]. intros [] W2 s2 Hwf2 K2 K2' Hat.
  apply (Hf v W2 s2); [done|by eapply keeps_within|done|done|lia].
Qed.

Lemma find_attr_ptr s l x j : attrs_ok s l -> find_attr l x = Some j -> ptr s (b_value j).
Proof. intros [_ Hl] Hj. apply find_attr_Some in Hj as [Hj _]. by eapply Forall_forall in Hl. Qed.

(** ** Merging and concatenation *)

Lemma new_set_safe W s v l : wf None W s -> dest W s v -> attrs_ok s l ->
  safely None (at_val v) W s s (_ ← mkAttrs v; b ← attrsOf v; setBindings b l) (fun _ _ s' => value_at s' v).
Proof.
  intros Hwf Hv Hl. eapply safely_bind; [by apply mkAttrs_safe|apply keeps_refl|apply within_refl|].
  intros [] W1 s1 Hwf1 K1 K1' (-> & b & Hv1 & Hb1 & Hbl). unfold EvalSafe.safely. rewrite (run_attrsOf _ _ b _ _ Hv1) by done.
  unfold setBindings, modify. exists W. split_and!; [apply setBindings_wf; [done|by eapply attrs_ok_keeps]| |by exists (attrs_value b)].
  eapply keeps_within; [exact K1|apply setBindings_keeps|]. split_and!; [done|done|]. cbn. intros c Hc ->. lia.
Qed.

Lemma update_merge_ok s l1 l2 : attrs_ok s l1 -> attrs_ok s l2 -> attrs_ok s (update_merge l1 l2).
Proof.
  intros [S1 F1] [S2 F2]. split; [by apply update_merge_sorted|]. rewrite Forall_forall in F1, F2. apply Forall_forall. intros a Ha.
  destruct (update_merge_elem a l1 l2 Ha); auto.
Qed.

Lemma eval_update_safe W s env S e1 e2 v : wf None W s -> w_env W !! env = Some S -> bound S e1 -> bound S e2 -> dest W s v ->
  safely None (at_val v) W s s (eval_update R env e1 e2 v) (fun _ _ s' => value_at s' v).
Proof.
  intros Hwf HS Hb1 Hb2 Hv. unfold eval_update. eapply safely_alloc; [done|apply keeps_refl|]. intros v1 s1 Hwf1 K1 K1' Hv1 _ Ev1 _.
  eapply safely_alloc; [done|done|]. intros v2 s2 Hwf2 K2 K2' Hv2 _ Ev2 _. pose proof (k_len _ _ _ _ _ K1).
  assert (Hne : v1 <> v2) by (destruct Hv1; lia).
  eapply safely_bind; [eapply (evalAttrs_safe allowed R HR W s2 env S e1 v1); [done|done|done|exact (dest_keeps _ _ _ _ _ _ K2 Hv1)]|done|eapply (within_fresh_val _ W s W s); [apply keeps_refl|lia]|].
  intros [] W3 s3 Hwf3 K3 K3' Ht1.
  eapply safely_bind; [eapply (evalAttrs_safe allowed R HR W3 s3 env S e2 v2); [done|eapply lookup_weaken; [exact HS|apply K3]|done|exact (dest_keeps _ _ _ _ _ _ K3 Hv2)]|done|eapply (within_fresh_val _ W s W s); [apply keeps_refl|lia]|].
  intros [] W4 s4 Hwf4 K4 K4' Ht2. apply (typed_keeps _ _ _ _ _ v1 tAttrs Hwf4 K4 eq_refl Hne) in Ht1. pose proof (dest_keeps _ _ _ _ _ _ K4' Hv) as Hv4.
  destruct (bindingsOf_run _ _ _ _ Ht1) as (l1 & E1 & Hl1). destruct (bindingsOf_run _ _ _ _ Ht2) as (l2 & E2 & Hl2).
  eapply safely_run; [exact E1|]. eapply safely_run; [exact E2|].
  assert (Hcopy : forall c, typed_at W4 s4 c tAttrs -> safely None (at_val v) W s s4 (copyValue c v) (fun _ _ s' => value_at s' v)).
  { intros c Hc. eapply safely_leaf; [apply (copyValue_safe allowed W4 s4 c v); [done|by eapply typed_at_value|done]|done|apply within_refl|done]. }
  destruct l1 as [|i l1]; [by apply Hcopy|]. destruct l2 as [|j l2]; [by apply Hcopy|].
  eapply safely_leaf; [apply (new_set_safe W4 s4 v); [done|done|by apply update_merge_ok]|done|apply within_refl|done].
Qed.

Definition elems_ptr s (l : list (option nat)) : Prop := Forall (fun o => exists c, o = Some c /\ ptr s c) l.
Lemma elems_ptr_keeps D W s W' s' l : keeps D W s W' s' -> elems_ptr s l -> elems_ptr s' l.
Proof. intros K Hl. eapply Forall_impl; [exact Hl|]. intros o (c & -> & Hc). exists c. split; [done|by apply (k_ptr _ _ _ _ _ K)]. Qed.

Lemma force_lists_safe : forall lists W s nonEmpty elems, wf None W s -> Forall (ptr s) lists -> elems_ptr s elems ->
  (forall w, nonEmpty = Some w -> typed_at W s w tList) ->
  safely None none W s s (force_lists R lists nonEmpty elems) (fun r W' s' => elems_ptr s' r.2 /\ forall w, r.1 = Some w -> typed_at W' s' w tList).
Proof.
  induction lists as [|v lists IH]; intros W s nonEmpty elems Hwf Hp He Hw; cbn [force_lists].
  - by apply (safely_ret _ _ _ _ _ W); [|apply keeps_refl|].
  - apply Forall_cons in Hp as [Hv Hp]. eapply safely_bind; [by apply (forceList_safe allowed R HR W s v)|apply keeps_refl|apply within_none|].
    intros [] W1 s1 Hwf1 K1 K1' Ht. destruct (listOf_run _ _ _ _ Ht) as (l & El & Hl). eapply safely_run; [exact El|].
    eapply safely_leaf; [apply (IH W1 s1)|exact K1|apply within_none|done].
    + done.
    + eapply Forall_impl; [exact Hp|apply (k_ptr _ _ _ _ _ K1)].
    + apply Forall_app. split; [by eapply elems_ptr_keeps|done].
    + intros w Ew. destruct l; [|by injection Ew as <-]. eapply typed_keeps; [done|exact K1|done|tauto|by apply Hw].
Qed.

Lemma concatLists_safe W s v lists : wf None W s -> Forall (ptr s) lists -> dest W s v ->
  safely None (at_val v) W s s (concatLists R v lists) (fun _ _ s' => value_at s' v).
Proof.
  intros Hwf Hp Hv. unfold concatLists. eapply safely_bind; [apply (force_lists_safe lists W s None []); [done|done|constructor|done]|apply keeps_refl|apply within_none|].
  intros [o elems] W1 s1 Hwf1 K1 K1' [He Hw]. cbn in He, Hw. pose proof (dest_keeps _ _ _ _ _ _ K1 Hv) as Hv1.
  assert (Hnew : safely None (at_val v) W s s1 (assign v (mkValue tList (PList elems))) (fun _ _ s' => value_at s' v)).
  { eapply safely_leaf; [apply (safely_result allowed None W1 s1 v); [done|done|done|by eexists]|done|apply within_refl|done]. }
  destruct o as [w|]; [|done]. specialize (Hw w eq_refl). destruct (listOf_run _ _ _ _ Hw) as (l & El & _). eapply safely_run; [exact El|].
  destruct (_ =? _)%nat; [|done].
  eapply safely_leaf; [apply (copyValue_safe allowed W1 s1 w v); [done|by eapply typed_at_value|done]|done|apply within_refl|done].
Qed.

(** ** Selection *)

Lemma with_pos_safe {A} X D W0 s0 s path pos (m : M ES A) Q : safely X D W0 s0 s m Q -> safely X D W0 s0 s (with_pos path pos m) Q.
Proof. intros Hm. destruct pos; [by apply safely_prefix|done]. Qed.

Lemma select_attr_safe W s path hasDef v i : wf None W s -> ptr s v ->
  safely None none W s s (select_attr R path hasDef v i) (fun r _ s' => (r = None -> hasDef = true) /\ forall j, r = Some j -> ptr s' (b_value j)).
Proof.
  intros Hwf Hv. unfold select_attr. destruct hasDef.
  - eapply safely_force; [done|apply keeps_refl|done|]. intros W1 s1 Hwf1 K1 _ Hat. eapply safely_typeOf; [done|done|]. intros t Ht _.
    destruct (decide (t = tAttrs)) as [-> |Hne]; [|by apply (safely_ret _ _ _ _ _ W1)].
    destruct (bindingsOf_run _ _ _ _ Ht) as (l & El & Hl). eapply safely_run; [exact El|]. apply (safely_ret _ _ _ _ _ W1); [done|done|].
    split; [done|]. intros j. by apply find_attr_ptr.
  - eapply safely_bind; [by apply (forceAttrs_safe allowed R HR W s v)|apply keeps_refl|apply within_none|]. intros [] W1 s1 Hwf1 K1 _ Ht.
    destruct (bindingsOf_run _ _ _ _ Ht) as (l & El & Hl). eapply safely_run; [exact El|]. destruct (find_attr l i) as [j|] eqn:Ej.
    + apply (safely_ret _ _ _ _ _ W1); [done|done|]. split; [done|]. intros j' [= <-]. by eapply find_attr_ptr.
    + by apply (safely_raise _ _ _ _ _ W1).
Qed.

Lemma select_loop_safe env S v def path : forall p W s c pos, wf None W s -> w_env W !! env = Some S -> (forall d, def = Some d -> bound S d) -> ptr s c -> dest W s v ->
  safely None (at_val v) W s s (select_loop R env v def path p c pos) (fun _ _ s' => value_at s' v).
Proof.
  induction p as [|i p IH]; intros W s c pos Hwf HS Hd Hc Hv; cbn [select_loop].
  - eapply safely_bind; [apply with_pos_safe; by apply forceValue_safe|apply keeps_refl|apply within_none|]. intros [] W1 s1 Hwf1 K1 K1' Hat.
    eapply safely_leaf; [apply (copyValue_safe allowed W1 s1 c v); [done|done|by eapply dest_keeps]|done|apply within_refl|done].
  - eapply safely_bind; [apply with_pos_safe; by apply select_attr_safe|apply keeps_refl|apply within_none|]. intros r W1 s1 Hwf1 K1 K1' [Hn Hj].
    pose proof (dest_keeps _ _ _ _ _ _ K1 Hv) as Hv1. assert (HS1 : w_env W1 !! env = Some S) by (eapply lookup_weaken; [exact HS|apply K1]).
    destruct r as [j|]; [eapply safely_leaf; [eapply (IH W1 s1); [done|done|done|by apply Hj|done]|done|apply within_refl|done]|].
    specialize (Hn eq_refl). apply bool_decide_eq_true in Hn as [d Ed]. rewrite Ed.
    eapply safely_leaf; [apply with_pos_safe; eapply (se_eval _ _ HR W1 env S d v s1); [done|done|by apply Hd|done]|done|apply within_refl|done].
Qed.

Lemma mkBool_safe W s v b : wf None W s -> dest W s v -> safely None (at_val v) W s s (mkBool v b) (fun _ _ s' => value_at s' v).
Proof. intros Hwf Hv. apply safely_result; [done|done|done|by eexists]. Qed.

Lemma hasAttr_loop_safe v : forall p W s c, wf None W s -> ptr s c -> dest W s v ->
  safely None (at_val v) W s s (hasAttr_loop R v p c) (fun _ _ s' => value_at s' v).
Proof.
  induction p as [|i p IH]; intros W s c Hwf Hc Hv; cbn [hasAttr_loop]; [by apply mkBool_safe|].
  eapply safely_force; [done|apply keeps_refl|done|]. intros W1 s1 Hwf1 K1 K1' Hat. pose proof (dest_keeps _ _ _ _ _ _ K1 Hv) as Hv1.
  assert (Hb : forall b, safely None (at_val v) W s s1 (mkBool v b) (fun _ _ s' => value_at s' v)).
  { intros b. eapply safely_leaf; [by apply (mkBool_safe W1 s1)|done|apply within_refl|done]. }
  eapply safely_typeOf; [done|done|]. intros t Ht _. destruct (decide (t = tAttrs)) as [-> |Hne]; [|apply Hb].
  destruct (bindingsOf_run _ _ _ _ Ht) as (l & El & Hl). eapply safely_run; [exact El|]. destruct (find_attr l i) as [j|] eqn:Ej; [|apply Hb].
  eapply safely_leaf; [apply (IH W1 s1); [done|by eapply find_attr_ptr|done]|done|apply within_refl|done].
Qed.
End Ops.
