(* ===== verification/EvalCalls.v ===== *)
(** * Calls

    Calling a lambda or a built-in function is safe, and so are the constructs that
    make an environment.  The built-in functions are a parameter; what is assumed of
    them is [safe_primops]. *)

From Stdlib Require Import ZArith Lia Ascii Relations.
From stdpp Require Import base strings sorting numbers gmap sets list.
From S2P Require Import Prelude Effects Util StorePath Derivations NixExpr Eval EvalMemory EvalScope EvalSafe EvalForce EvalAttrs EvalSound EvalOps.

Section Calls.
Context `{SymbolTable} `{!SymbolLaws} {St : Type} (allowed : PrimOp -> Prop).
Abbreviation ES := (EvalState St).
Implicit Types (W : world) (s : ES) (X : option hole) (D : footprint).
Abbreviation wf := (wf allowed).
Abbreviation value_ok := (value_ok allowed).
Abbreviation safely := (safely allowed).
Abbreviation typed_at := (typed_at allowed).
Abbreviation partial := (partial allowed).
Context (primOpFun : Evaluator St -> str -> list nat -> nat -> M ES unit).

(** What the evaluator relies on: a built-in function that is given as many arguments
    as it takes is safe when the evaluator that it calls is. *)
Definition safe_primops : Prop := forall R op, safe_evaluator allowed R -> allowed op ->
  forall W s args v, wf None W s -> Forall (ptr s) args -> length args = arity op -> dest W s v ->
  safely None (at_val v) W s s (primOpFun R (primop_name op) args v) (fun _ _ s' => value_at s' v).

Context (R : Evaluator St) (HR : safe_evaluator allowed R) (HP : safe_primops).

(** ** Built-in functions *)

(** A built-in function that has [n] of its arguments. *)
Definition applied W s (x : Value) (n : nat) (op : PrimOp) : Prop :=
  (x = mkValue tPrimOp (PPrimOp op) /\ n = 0%nat /\ allowed op /\ (0 < arity op)%nat) \/
  (exists l r m, x = mkValue tPrimOpApp (PPrimOpApp l r) /\ n = S m /\ ptr s r /\ partial W s l m op /\ (S m < arity op)%nat).

Lemma applied_partial W s c x n op : c ∈ w_frozen W -> es_values s !! c = Some x -> applied W s x n op -> partial W s c n op.
Proof. intros Hc Hx [(-> & -> & Ha & Hn)|(l & r & m & -> & -> & Hr & Hp & Hn)]; [by apply partial_op|by apply (partial_app _ _ _ _ l r)]. Qed.
Lemma applied_arity W s x n op : applied W s x n op -> (n < arity op)%nat.
Proof. intros [(_ & -> & _ & ?)|(l & r & m & _ & -> & _ & _ & ?)]; done. Qed.
Lemma applied_keeps D W s W' s' x n op : keeps D W s W' s' -> avoids D W -> applied W s x n op -> applied W' s' x n op.
Proof.
  intros K Ha [?|(l & r & m & -> & -> & Hr & Hp & Hn)]; [by left|right]. exists l, r, m. split_and!; [done|done|by apply (k_ptr _ _ _ _ _ K)|by eapply partial_keeps|done].
Qed.
Lemma value_applied W s x : value_ok W s x -> vtype x = tPrimOp \/ vtype x = tPrimOpApp -> exists n op, applied W s x n op.
Proof.
  unfold EvalMemory.value_ok. destruct x as [t p]. cbn. intros Hok [-> | ->].
  - destruct Hok as (op & -> & Ha & Hn). exists 0%nat, op. left. done.
  - destruct Hok as (l & r & m & op & -> & Hr & Hp & Hn). exists (S m), op. right. by exists l, r, m.
Qed.

Definition args_result s (n : nat) (op : PrimOp) (r : outcome ES (list nat * PrimOp)) : Prop :=
  r = Stuck \/ exists args, r = Done (args, op) s /\ length args = n /\ Forall (ptr s) args /\ allowed op.

Lemma partial_args W s c n op : partial W s c n op -> forall fuel, args_result s n op (primop_args fuel c s).
Proof.
  induction 1 as [c op Hc Hx Ha Hn|c l r n op Hc Hx Hr _ IH Hn]; intros [|fuel]; try (by left); cbn [primop_args]; rewrite (run_deref _ _ _ _ Hx); cbn.
  - right. exists []. done.
  - destruct (IH fuel) as [E|(args & E & Hl & Hp & Ha)]; unfold mbind, M_bind; rewrite E; [by left|right].
    exists (args ++ [r]). split_and!; [done|rewrite length_app; cbn; lia|by apply Forall_app; split; [|constructor]|done].
Qed.

Lemma applied_args W s c x n op fuel : es_values s !! c = Some x -> applied W s x n op -> args_result s n op (primop_args fuel c s).
Proof.
  intros Hx Ha. destruct fuel as [|fuel]; [by left|]. cbn [primop_args]. rewrite (run_deref _ _ _ _ Hx).
  destruct Ha as [(-> & -> & Ha & Hn)|(l & r & m & -> & -> & Hr & Hp & Hn)]; cbn.
  - right. exists []. done.
  - destruct (partial_args _ _ _ _ _ Hp fuel) as [E|(args & E & Hl & Hps & Ha)]; unfold mbind, M_bind; rewrite E; [by left|right].
    exists (args ++ [r]). split_and!; [done|rewrite length_app; cbn; lia|by apply Forall_app; split; [|constructor]|done].
Qed.

Lemma partial_app_safe W s f x n op arg v : wf None W s -> es_values s !! f = Some x -> applied W s x n op -> (S n < arity op)%nat -> ptr s arg -> dest W s v ->
  safely None (at_val v) W s s (left ← allocValue; _ ← copyValue f left; assign v (mkValue tPrimOpApp (PPrimOpApp left arg))) (fun _ _ s' => value_at s' v).
Proof.
  intros Hwf Hf Ha Hn Harg Hv. assert (Hw : whnf (vtype x) = true) by (destruct Ha as [(-> & _)|(? & ? & ? & -> & _)]; done).
  eapply safely_alloc; [done|apply keeps_refl|]. intros c s1 Hwf1 K1 K1' Hc _ Ec _.
  assert (Hf1 : es_values s1 !! f = Some x) by (apply (k_whnf _ _ _ _ _ K1); [done|done|tauto]).
  unfold EvalSafe.safely, copyValue. unfold mbind at 1, M_bind at 1. rewrite (run_deref _ _ _ _ Hf1). change (safely None (at_val v) W s s1 (_ ← assign c x; assign v (mkValue tPrimOpApp (PPrimOpApp c arg))) (fun _ _ s' => value_at s' v)).
  eapply safely_assign_bind; [done|done|done|eapply (within_fresh_val _ W s W s); [apply keeps_refl|lia]|by destruct (vtype x)|by eapply wf_values|].
  intros s2 Hwf2 K2 K2' Hc2 _. set (W2 := mkWorld (w_env W) ({[c]} ∪ w_frozen W)).
  assert (Hfw : wf None W2 s2) by (by eapply freeze_wf). assert (HK : keeps (at_val v) W s W2 s2) by (apply freeze_keeps; [done|lia]).
  eapply safely_leaf; [apply (safely_result allowed None W2 s2 v); [exact Hfw|exact (dest_keeps _ _ _ _ _ _ HK Hv)|done|]|exact HK|apply within_refl|done].
  exists c, arg, n, op. split_and!; [done|by apply (k_ptr _ _ _ _ _ HK)| |done].
  eapply applied_partial; [cbn; set_solver|exact Hc2|]. eapply applied_keeps; [exact HK| |done]. intros c' Hc' ->. by destruct Hv.
Qed.

Lemma call_primop_safe W s f x arg v : wf None W s -> es_values s !! f = Some x -> vtype x = tPrimOp \/ vtype x = tPrimOpApp -> ptr s arg -> dest W s v ->
  safely None (at_val v) W s s (call_primop primOpFun R f arg v) (fun _ _ s' => value_at s' v).
Proof.
  intros Hwf Hf Ht Harg Hv. destruct (value_applied W s x) as (n & op & Ha); [by eapply wf_values|done|]. pose proof (applied_arity _ _ _ _ _ Ha) as Hn.
  unfold call_primop. eapply safely_run; [done|]. destruct (applied_args _ _ _ _ _ _ (length (es_values s)) Hf Ha) as [E|(args & E & Hl & Hp & Hal)].
  - unfold EvalSafe.safely, mbind, M_bind. by rewrite E.
  - eapply safely_run; [exact E|]. cbn [fst snd]. rewrite Hl. destruct (Nat.eqb_spec (arity op) (S n)) as [Ear|Hne].
    + apply safely_prefix. eapply HP; [done|done|done|by apply Forall_app; split; [|constructor]|rewrite length_app; cbn; lia|done].
    + eapply partial_app_safe; [done|done|done|lia|done|done].
Qed.

(** ** Lambdas *)

Definition formal_bound (S : StaticEnv) (f : Formal) : Prop := forall d, formal_def f = Some d -> bound S d.

Lemma bound_lambda S pos x matchAttrs formals ellipsis body : bound S (ExprLambda (mkLambda pos x matchAttrs formals ellipsis body)) ->
  bound (lambda_frame x matchAttrs formals :: S) body /\ (matchAttrs = false -> x <> []) /\
  (matchAttrs = true -> Forall (formal_bound (lambda_frame x matchAttrs formals :: S)) formals).
Proof.
  intros [Hb Hok]. cbn in Hb, Hok. rewrite !andb_true_iff in Hok. destruct Hok as [[Hx Hf] Hbody]. rewrite forallb_Forall, Forall_forall in Hf.
  destruct matchAttrs; cbn in Hx; inv_ok; (split_and!; [done| |]); try done.
  - intros _. match goal with Hm : mapR _ _ = _ |- _ => apply mapR_Ok in Hm; rename Hm into HF2 end. apply Forall_lookup. intros i [y o] Hl d Hd. cbn in Hd. subst o.
    destruct (Forall2_lookup_l _ _ _ _ _ HF2 Hl) as (? & Hl' & Hbd). simplify_eq. cbn in Hbd. inv_ok. split; [done|].
    apply (Hf (mkFormal y (Some d))). by eapply list_elem_of_lookup_2.
  - intros _ ->. done.
Qed.

Lemma match_formals_safe pos e S2 : forall rest n used args W s x, wf (Some (HEnv e)) W s -> w_env W !! e = Some S2 -> filling W s e n (length rest) x ->
  attrs_ok s args -> Forall (formal_bound S2) rest ->
  safely None (at_env e) W s s (match_formals pos e n rest args used) (fun _ W' s' => w_env W' = w_env W).
Proof.
  induction rest as [|[y def] rest IH]; intros n used args W s x Hwf HS Hfi Hargs Hb; cbn [match_formals].
  - apply (safely_ret _ _ _ _ _ W); [by eapply filling_full|apply keeps_refl|done].
  - apply Forall_cons in Hb as [Hd Hb].
    assert (Hstep : forall c u s1, wf (Some (HEnv e)) W s1 -> keeps (at_env e) W s W s1 -> filling W s1 e n (Datatypes.S (length rest)) x -> ptr s1 c ->
      safely None (at_env e) W s s1 (_ ← setValue e n c; match_formals pos e (Datatypes.S n) rest args u) (fun _ W' s' => w_env W' = w_env W)).
    { intros c u s1 Hwf1 K1 Hfi1 Hc. eapply safely_fill; [done|done|apply within_refl|exact Hfi1|done|]. intros s2 Hwf2 K2 K2' Hfi2 _ _.
      eapply safely_leaf; [eapply (IH _ _ _ W s2); [done|done|done|by eapply attrs_ok_keeps|done]|done|apply within_refl|done]. }
    destruct (find_attr args y) as [j|] eqn:Ej; [|destruct def as [d|]].
    + apply Hstep; [done|apply keeps_refl|done|by eapply find_attr_ptr].
    + eapply safely_bind; [eapply (maybeThunk_safe allowed _ W s e S2 d); [done|done|by apply Hd]|apply keeps_refl|apply within_none|].
      intros c W' s1 Hwf1 K1 K1' (-> & Hc & [O1 O2]). apply Hstep; [done|done|by eapply filling_same|done].
    + apply (safely_raise _ _ _ _ _ W); [done|apply keeps_refl].
Qed.

(** The environment of the call, with a type and empty. *)
Lemma lambda_env W s e env S x matchAttrs formals vars : wf None W s -> w_env W !! e = None -> (env < e)%nat -> w_env W !! env = Some S ->
  es_envs s !! e = Some (mkEvalEnv (Some env) 0 (replicate (length (lambda_vars x matchAttrs formals)) None)) -> lambda_frame x matchAttrs formals = FVars vars ->
  let W' := type_env W e (FVars vars :: S) in
  wf (Some (HEnv e)) W' s /\ filling W' s e 0 (length (lambda_vars x matchAttrs formals)) (mkEvalEnv (Some env) 0 (replicate (length (lambda_vars x matchAttrs formals)) None)).
Proof.
  intros Hwf Hu Hlt HS He [= <-] W'. split.
  - eapply type_env_hole; [done|done|done|done|done|]. intros y d Hd. eapply add_vars_bound; [exact Hd|by intros z i Hz|done].
  - split; [done|cbn; by rewrite length_replicate|intros i Hi; lia|]. eexists _, _. cbn. apply lookup_insert_eq.
Qed.

Lemma untyped_keeps D W s W' s' e : keeps D W s W' s' -> w_env W !! e = None -> (e < length (es_envs s))%nat -> w_env W' !! e = None.
Proof. intros K Hu Hlt. destruct (w_env W' !! e) as [S|] eqn:E; [|done]. destruct (k_newenv _ _ _ _ _ K e S E); [congruence|lia]. Qed.

Lemma safely_eta {A} X D W0 s0 s (m : M ES A) Q : safely X D W0 s0 s (m ≫= mret) Q -> safely X D W0 s0 s m Q.
Proof. unfold EvalSafe.safely, mbind, M_bind. by destruct (m s). Qed.

Section Lambda.
Context (D : footprint) (W0 : world) (s0 : ES) (env e : nat) (S : StaticEnv).
Context (fresh : (length (es_envs s0) <= e)%nat) (above : (env < e)%nat).

Lemma within_new : within (at_env e) D s0.
Proof. eapply (within_fresh_env _ W0 s0 W0 s0); [apply keeps_refl|done]. Qed.

(** With a name for the whole argument, its place is filled first. *)
Lemma fill_formals_safe pos x formals W s args arg : wf None W s -> keeps D W0 s0 W s -> w_env W !! e = None -> w_env W !! env = Some S ->
  es_envs s !! e = Some (mkEvalEnv (Some env) 0 (replicate (length (lambda_vars x true formals)) None)) ->
  Forall (formal_bound (lambda_frame x true formals :: S)) formals -> ptr s arg -> attrs_ok s args -> bindingsOf arg s = Done args s -> forall {B} (f : list Attr -> nat -> M ES B) Q,
  (forall used W' s', wf None W' s' -> keeps D W0 s0 W' s' -> w_env W' !! e = Some (lambda_frame x true formals :: S) -> safely None D W0 s0 s' (f args used) Q) ->
  safely None D W0 s0 s (_ ← (match x with [] => mret tt | _ => setValue e 0 arg end); args ← bindingsOf arg;
    used ← match_formals pos e (match x with [] => 0 | _ => 1 end) formals args 0; f args used) Q.
Proof.
  intros Hwf K Hu HS He Hb Harg Hargs Hrun B f Q Hf. destruct (lambda_frame x true formals) as [|vars] eqn:EF; [done|].
  destruct (lambda_env W s e env S x true formals vars Hwf Hu above HS He EF) as [Hwf1 Hfi]. set (W1 := type_env W e (FVars vars :: S)) in *.
  assert (HS1 : w_env W1 !! e = Some (FVars vars :: S)) by (cbn; apply lookup_insert_eq).
  assert (K1 : keeps D W0 s0 W1 s) by (by apply type_env_keeps).
  assert (Hrest : forall n y s1, wf (Some (HEnv e)) W1 s1 -> keeps D W0 s0 W1 s1 -> filling W1 s1 e n (length formals) y -> attrs_ok s1 args -> bindingsOf arg s1 = Done args s1 ->
    safely None D W0 s0 s1 (args ← bindingsOf arg; used ← match_formals pos e n formals args 0; f args used) Q).
  { intros n y s1 Hwf2 K2 Hfi2 Ha2 Hr2. eapply safely_run; [exact Hr2|]. eapply safely_bind; [by eapply (match_formals_safe pos e _ formals n 0 args W1 s1 y)|done|apply within_new|].
    intros used W' s' Hwf' _ K' EW. apply (Hf used W' s'); [done|done|]. by rewrite EW. }
  destruct x as [|a x].
  - eapply safely_run; [done|]. cbn in Hfi. rewrite length_fmap in Hfi. by eapply Hrest.
  - cbn [lambda_vars app length] in Hfi. eapply safely_fill; [exact Hwf1|exact K1|apply within_new|exact Hfi|done|]. intros s1 Hwf2 K2 K2' Hfi2 Ev Eb.
    rewrite length_fmap in Hfi2. eapply Hrest; [done|done|exact Hfi2|exact (attrs_ok_keeps _ _ _ _ _ _ K2 Hargs)|]. clear -Hrun Ev Eb.
    unfold bindingsOf, attrsOf, deref, getBindings, mbind, M_bind, gets in Hrun |- *. rewrite Ev. destruct (es_values s !! arg) as [y|]; [|done]. cbn in Hrun |- *.
    destruct (payload y); try done. cbn in Hrun |- *. rewrite Eb. destruct (es_bindings s !! b); [|done]. by injection Hrun as ->.
Qed.

Lemma bind_args_safe pos x matchAttrs formals ellipsis body arg W s : wf None W s -> keeps D W0 s0 W s -> w_env W !! e = None -> w_env W !! env = Some S ->
  es_envs s !! e = Some (mkEvalEnv (Some env) 0 (replicate (length (lambda_vars x matchAttrs formals)) None)) ->
  bound S (ExprLambda (mkLambda pos x matchAttrs formals ellipsis body)) -> ptr s arg ->
  safely None D W0 s0 s (bind_args R (mkLambda pos x matchAttrs formals ellipsis body) e arg) (fun _ W' s' => w_env W' !! e = Some (lambda_frame x matchAttrs formals :: S)).
Proof.
  intros Hwf K Hu HS He (_ & Hx & Hb)%bound_lambda Harg. destruct matchAttrs; unfold bind_args.
  - eapply safely_bind; [by apply (forceAttrs_safe allowed R HR W s arg)|exact K|apply within_none|]. intros [] W1 s1 Hwf1 K1 K1' Ht.
    destruct (bindingsOf_run _ _ _ _ Ht) as (args & El & Hl).
    eapply fill_formals_safe; [done|done|by eapply untyped_keeps; [exact K1| |eapply lookup_lt_Some]|eapply lookup_weaken; [exact HS|apply K1]|by apply (k_envs _ _ _ _ _ K1); [|tauto]|by apply Hb|by eapply typed_ptr|done|done|].
    intros used W' s' Hwf' K' HS'. destruct (_ && _); [by apply (safely_raise _ _ _ _ _ W')|by apply (safely_ret _ _ _ _ _ W')].
  - destruct (lambda_frame x false formals) as [|vars] eqn:EF; [done|].
    destruct (lambda_env W s e env S x false formals vars Hwf Hu above HS He EF) as [Hwf1 Hfi]. specialize (Hx eq_refl). destruct x as [|a x]; [done|]. cbn [lambda_vars app length] in Hfi.
    apply safely_eta. eapply safely_fill; [exact Hwf1|by apply type_env_keeps|apply within_new|exact Hfi|done|]. intros s1 Hwf2 K2 K2' Hfi2 _ _.
    eapply safely_ret; [by eapply filling_full|done|]. cbn. apply lookup_insert_eq.
Qed.
End Lambda.

(** ** Calls *)

Lemma callFunction_safe W s f arg v : wf None W s -> ptr s f -> ptr s arg -> dest W s v ->
  safely None (at_val v) W s s (callFunction_step primOpFun R f arg v) (fun _ _ s' => value_at s' v).
Proof.
  intros Hwf (x & Hx & Hxt) Harg Hv. pose proof (wf_values _ _ _ _ Hwf f x Hx ltac:(done)) as Hok. unfold callFunction_step.
  unfold EvalSafe.safely. rewrite (run_deref _ _ _ _ Hx). destruct (vtype x) eqn:Et;
    try (by apply (wrongType_safe allowed None (at_val v) W s W); [apply keeps_refl|]).
  - unfold EvalMemory.value_ok in Hok. rewrite Et in Hok. destruct Hok as (env & fn & S & Ep & HS & Hb). rewrite Ep. destruct fn as [pos y matchAttrs formals ellipsis body].
    eapply (safely_allocEnv allowed None (at_val v) W s W s); [done|apply keeps_refl|exact HS|]. intros e s1 Hlt Hle Hu Hwf1 K1 K1' He Ev.
    unfold EvalSafe.safely, mbind at 1, M_bind at 1.
    pose proof (bind_args_safe (at_val v) W s env e S Hle Hlt pos y matchAttrs formals ellipsis body arg W s1 Hwf1 K1 Hu HS He Hb (k_ptr _ _ _ _ _ K1 _ Harg)) as Hargs.
    unfold EvalSafe.safely in Hargs. destruct (bind_args _ _ _ _ s1) as [[] s2|ex s2|]; [|done|done]. destruct Hargs as (W2 & Hwf2 & K2 & HS2).
    eapply (safely_leaf allowed None (at_val v) (at_val v) W s W2 s2);
      [apply safely_prefix; eapply (se_eval _ _ HR W2 e _ body v s2); [done|exact HS2|by apply bound_lambda in Hb as [Hb _]|exact (dest_keeps _ _ _ _ _ _ K2 Hv)]|done|apply within_refl|done].
  - eapply call_primop_safe; [done|done|by left|done|done].
  - eapply call_primop_safe; [done|done|by right|done|done].
Qed.

(** ** Constructs that make an environment *)

Lemma eval_let_safe W s env S attrs body v : wf None W s -> w_env W !! env = Some S -> bound S (ExprLet attrs body) -> dest W s v ->
  safely None (at_val v) W s s (env2 ← allocEnv (length attrs); _ ← setUp env2 env; _ ← let_attrs env env2 0 attrs; r_eval R env2 body v) (fun _ _ s' => value_at s' v).
Proof.
  intros Hwf HS [Hb Hok] Hv. cbn in Hb, Hok. rewrite !andb_true_iff in Hok. destruct Hok as [[Hsorted Hdefs] Hbody]. inv_ok.
  match goal with Hm : imapR _ _ _ = _ |- _ => destruct (bound_defs S attrs Hm Hdefs) as [Hbd Hdispl] end. destruct (attrs_frame attrs) as [|vars] eqn:EF; [done|].
  eapply (safely_newEnv allowed None (at_val v) W s W s env S (length attrs) vars); [done|apply keeps_refl|done|by intros y d; apply attrs_frame_bound|].
  intros e W2 s2 Hlt Hle Ef HSe Hwf2 K2 K2' He Ev. assert (HS2 : w_env W2 !! env = Some S) by (eapply lookup_weaken; [exact HS|apply K2]).
  eapply safely_bind; [eapply (let_attrs_safe allowed env e S (FVars vars :: S) attrs 0 W2 s2); [done|done|done|done| |done]|exact K2|by eapply (within_fresh_env _ W s W s); [apply keeps_refl|]|].
  - split; [exact He|cbn; by rewrite length_replicate|intros i Hi; lia|by eexists _, _].
  - intros [] W3 s3 Hwf3 K3 K3' [_ EW].
    eapply safely_leaf; [eapply (se_eval _ _ HR W3 e (FVars vars :: S) body v s3); [done|by rewrite EW|done|exact (dest_keeps _ _ _ _ _ _ K3' Hv)]|done|apply within_refl|done].
Qed.

(** Writing an environment that has no type. *)
Lemma setEnv_untyped D W0 s0 W s e x : wf None W s -> keeps D W0 s0 W s -> w_env W !! e = None -> (length (es_envs s0) <= e)%nat ->
  let s' := set_envs (<[e := x]> (es_envs s)) s in wf None W s' /\ keeps D W0 s0 W s'.
Proof.
  intros Hwf K Hu Hle s'. split; [apply setEnv_wf; [done|intros S' HS'; congruence]|].
  eapply keeps_within; [exact K|apply setEnv_keeps|]. eapply (within_fresh_env _ W0 s0 W0 s0); [apply keeps_refl|done].
Qed.

(** The attributes of a [with] are evaluated before its environment is used. *)
Lemma with_env W s e env S c x : wf None W s -> w_env W !! e = None -> (env < e)%nat -> w_env W !! env = Some S ->
  es_envs s !! e = Some (mkEvalEnv (Some env) (prevWith_loop S 1) [Some c]) -> es_values s !! c = Some x -> vtype x = tAttrs ->
  wf None (type_env (mkWorld (w_env W) ({[c]} ∪ w_frozen W)) e (FWith :: S)) s.
Proof.
  intros Hwf Hu Hlt HS He Hc Ht. assert (Hwf1 : wf None (mkWorld (w_env W) ({[c]} ∪ w_frozen W)) s) by (eapply freeze_wf; [done|done|done|by rewrite Ht]).
  apply type_env_wf; [done|done|]. exists (mkEvalEnv (Some env) (prevWith_loop S 1) [Some c]), FWith, S. split_and!; [done|done| |done|].
  - right. exists env. split_and!; [done|done|]. cbn. by rewrite lookup_insert_ne by lia.
  - exists c, x. split_and!; [done|cbn; set_solver|done|done].
Qed.

Lemma eval_with_safe W s env S pos attrs body prevWith v : wf None W s -> w_env W !! env = Some S -> bound S (ExprWith pos attrs body prevWith) -> dest W s v ->
  safely None (at_val v) W s s (env2 ← allocEnv 1; _ ← setUp env2 env; _ ← setPrevWith env2 prevWith; c ← allocValue; _ ← setValue env2 0 c;
    _ ← evalAttrs R env attrs c; r_eval R env2 body v) (fun _ _ s' => value_at s' v).
Proof.
  intros Hwf HS [Hb Hok] Hv. cbn in Hb, Hok. rewrite andb_true_iff in Hok. destruct Hok as [Hoka Hokb]. inv_ok.
  eapply (safely_allocEnv allowed None (at_val v) W s W s); [done|apply keeps_refl|exact HS|]. intros e s1 Hlt Hle Hu Hwf1 K1 K1' He Ev. cbn in He.
  unfold setPrevWith. unfold EvalSafe.safely, mbind at 1, M_bind at 1. rewrite (run_derefEnv _ _ _ _ He).
  unfold assignEnv, modify. cbn [env_up env_values]. set (x2 := mkEvalEnv (Some env) (prevWith_loop S 1) [None]).
  destruct (setEnv_untyped (at_val v) W s W s1 e x2 Hwf1 K1 Hu Hle) as [Hwf2 K2]. set (s2 := set_envs (<[e := x2]> (es_envs s1)) s1) in *.
  assert (He2 : es_envs s2 !! e = Some x2) by (apply list_lookup_insert_eq; by eapply lookup_lt_Some).
  eapply (safely_alloc allowed None None (at_val v) W s W s2); [exact Hwf2|exact K2|]. intros c s3 Hwf3 K3 K3' Hc _ Ec [O3 _].
  rewrite <- O3 in He2. unfold EvalSafe.safely. rewrite (run_bind _ _ _ _ _ (run_setValue e 0 c x2 s3 He2 ltac:(cbn; lia))).
  destruct (setEnv_untyped (at_val v) W s W s3 e (set_place x2 0 c) Hwf3 K3' Hu Hle) as [Hwf4 K4].
  set (s4 := set_envs (<[e := set_place x2 0 c]> (es_envs s3)) s3) in *.
  assert (He4 : es_envs s4 !! e = Some (set_place x2 0 c)) by (apply list_lookup_insert_eq; by eapply lookup_lt_Some).
  assert (Hcl : (length (es_values s) <= c)%nat) by (rewrite Ec; exact (k_len _ _ _ _ _ K2)).
  eapply (safely_bind allowed None None (at_val c) (at_val v) W s W s4);
    [eapply (evalAttrs_safe allowed R HR W s4 env S attrs c); [exact Hwf4|done|done|exact Hc]|exact K4|eapply (within_fresh_val _ W s W s); [apply keeps_refl|lia]|].
  intros [] W5 s5 Hwf5 K5 K5' (x & Hx & Ht & _).
  assert (He5 : es_envs s5 !! e = Some (set_place x2 0 c)) by (apply (k_envs _ _ _ _ _ K5); [done|tauto]).
  assert (Hu5 : w_env W5 !! e = None) by (eapply untyped_keeps; [exact K5|done|by eapply lookup_lt_Some]).
  assert (HS5 : w_env W5 !! env = Some S) by (eapply lookup_weaken; [exact HS|apply K5']).
  pose proof (with_env W5 s5 e env S c x Hwf5 Hu5 Hlt HS5 He5 Hx Ht) as Hwf6. set (W6 := type_env _ _ _) in Hwf6.
  assert (K6 : keeps (at_val v) W s W6 s5) by (apply type_env_keeps; [by apply freeze_keeps|done|done]).
  eapply safely_leaf; [eapply (se_eval _ _ HR W6 e (FWith :: S) body v s5); [done|cbn; apply lookup_insert_eq|done|exact (dest_keeps _ _ _ _ _ _ K6 Hv)]|exact K6|apply within_refl|done].
Qed.
End Calls.
