(* ===== verification/EvalStep.v ===== *)
(** * The evaluator does not go wrong

    Coercion and comparison are safe, hence every expression is when the recursive
    calls are; by induction on the number of unrollings, the evaluator is. *)

From Stdlib Require Import ZArith Lia Ascii Relations.
From stdpp Require Import base strings sorting numbers gmap sets list.
From S2P Require Import Prelude Effects Util StorePath Derivations NixExpr Eval EvalMemory EvalScope EvalSafe EvalForce EvalAttrs EvalSound EvalOps EvalCalls.

(** ** Binding keeps what the parser guarantees *)

Section BindOk.
Context `{SymbolTable}.

Definition stays_ok (e : Expr) : Prop := forall S e', bindVars S e = Ok e' -> expr_ok e = true -> expr_ok e' = true.

Lemma mapR_stays_ok S es es' : Forall stays_ok es -> mapR (bindVars S) es = Ok es' -> forallb expr_ok es = true -> forallb expr_ok es' = true.
Proof.
  rewrite mapR_Ok. intros Ha Hm. induction Hm as [|e e' es es' He Hm IH]; [done|]. apply Forall_cons in Ha as [Ha1 Ha]. cbn. rewrite !andb_true_iff.
  intros [? ?]. split; [by eapply Ha1|by apply IH].
Qed.

Lemma def_stays_ok S S' n d d' : def_all stays_ok d -> bind_def S S' n d = Ok d' -> def_ok d = true -> def_ok d' = true.
Proof. destruct d as [e pos k|v pos k]; cbn; intros Hd Hb Hok; inv_ok; [by eapply Hd|done]. Qed.

Lemma defs_stay_ok S S' attrs : forall n attrs', Forall (fun (xd : str * AttrDef) => def_all stays_ok xd.2) attrs ->
  imapR (fun n (xd : str * AttrDef) => d ← bind_def S S' (Some n) xd.2; Ok (xd.1, d)) n attrs = Ok attrs' ->
  forallb (fun xd => def_ok xd.2) attrs = true -> forallb (fun xd => def_ok xd.2) attrs' = true.
Proof.
  induction attrs as [|[x d] attrs IH]; intros n attrs' Ha Hm; [by injection Hm as <-|]. rewrite imapR_cons in Hm.
  apply bind_Ok in Hm as ([y d'] & Hd & Hm). apply bind_Ok in Hm as (l' & Hm & [= <-]). apply Forall_cons in Ha as [Ha1 Ha]. cbn in *.
  rewrite !andb_true_iff. intros [? ?]. inv_ok. split; [by eapply def_stays_ok|by eapply IH].
Qed.

Lemma plain_defs_stay_ok S attrs attrs' : Forall (fun (xd : str * AttrDef) => def_all stays_ok xd.2) attrs ->
  mapR (fun (xd : str * AttrDef) => d ← bind_def S S None xd.2; Ok (xd.1, d)) attrs = Ok attrs' ->
  attrs'.*1 = attrs.*1 /\ (forallb (fun xd => def_ok xd.2) attrs = true -> forallb (fun xd => def_ok xd.2) attrs' = true).
Proof.
  rewrite mapR_Ok. intros Ha Hm. induction Hm as [|[x d] [y d'] es es' He Hm IH]; [done|]. apply Forall_cons in Ha as [Ha1 Ha]. destruct (IH Ha) as [E1 E2].
  cbn in *. inv_ok. split; [by f_equal|]. rewrite !andb_true_iff. intros [? ?]. split; [by eapply def_stays_ok|auto].
Qed.

Lemma formals_stay_ok S formals formals' : Forall (fun f => opt_all stays_ok (formal_def f)) formals -> mapR (bind_formal S) formals = Ok formals' ->
  forallb formal_ok formals = true -> forallb formal_ok formals' = true.
Proof.
  rewrite mapR_Ok. intros Hf Hm. induction Hm as [|[y o] f' l l' Ho _ IH]; [done|]. apply Forall_cons in Hf as [Hf1 Hf]. cbn in *. inv_ok.
  rewrite !andb_true_iff. intros [? ?]. split; [|by apply IH]. destruct o as [e|]; cbn in *; inv_ok; [by eapply Hf1|done].
Qed.

Lemma bindVars_ok : forall e, stays_ok e.
Proof.
  apply expr_subs_ind. intros e Hs S e' Hb Hok.
  destruct e as [| | | |e p def|e p|[] attrs|elems|f|attrs body|pos a b n|a b c|pos a b|e|a b|a b|a b|a b|a b|a b|a b|a b|es];
    cbn in Hs, Hb, Hok; destruct_and?; inv_ok; try done; cbn; rewrite ?andb_true_iff in *; destruct_and?;
    try (split_and!; match goal with Hs : stays_ok ?e |- expr_ok _ = true => by eapply Hs end);
    try (match goal with Hs : stays_ok ?e |- expr_ok _ = true => by eapply Hs end); try (by eapply mapR_stays_ok).
  - split; [by match goal with Hs : stays_ok ?e |- expr_ok _ = true => eapply Hs end|].
    destruct def as [d|]; match goal with Ho : optR _ _ = _ |- _ => cbn in Ho end; inv_ok; [|done]. by match goal with Hs : opt_all _ _ |- expr_ok _ = true => eapply Hs end.
  - split; [by erewrite bind_defs_names|by eapply defs_stay_ok].
  - edestruct plain_defs_stay_ok as [-> E2]; [exact Hs|done|]. auto.
  - destruct f as [pos arg [] formals el body]; destruct Hs as [Hf Hbd]; cbn in *; inv_ok; cbn; rewrite ?andb_true_iff in *; destruct_and?;
      split_and!; try done; [by eapply formals_stay_ok|by eapply Hbd|by eapply Hbd].
  - split_and!; [by erewrite bind_defs_names|by eapply defs_stay_ok|]. by match goal with Hs : stays_ok ?e |- expr_ok _ = true => eapply Hs end.
Qed.

Lemma bindVars_bound S e e' : bindVars S e = Ok e' -> expr_ok e = true -> bound S e'.
Proof. intros Hb Hok. split; [by eapply bindVars_again|by eapply bindVars_ok]. Qed.
End BindOk.

Section Steps.
Context `{SymbolTable} `{!SymbolLaws} {St : Type} (allowed : PrimOp -> Prop).
Abbreviation ES := (EvalState St).
Implicit Types (W : world) (s : ES) (X : option hole) (D : footprint).
Abbreviation wf := (wf allowed).
Abbreviation value_ok := (value_ok allowed).
Abbreviation safely := (safely allowed).
Abbreviation typed_at := (typed_at allowed).
Context (primOpFun : Evaluator St -> str -> list nat -> nat -> M ES unit) (addSource : str -> M St str).

(** Adding a source to the store may fail, but not go wrong. *)
Definition safe_source : Prop := forall p st ex st', addSource p st = Raised ex st' -> orderly (exn_kind ex) = true.

Context (HP : safe_primops allowed primOpFun) (HA : safe_source).

Section Recursive.
Context (R : Evaluator St) (HR : safe_evaluator allowed R).

(** ** Coercion *)

Lemma same_memory X W s s' : es_values s' = es_values s -> es_envs s' = es_envs s -> es_bindings s' = es_bindings s -> wf X W s -> wf X W s' /\ keeps none W s W s'.
Proof.
  intros E1 E2 E3 Hwf. assert (K : keeps none W s W s').
  { split; rewrite ?E1, ?E2, ?E3; try done; try (by left). intros c (x & Hx & Ht). exists x. by rewrite E1. }
  split; [|done]. eapply wf_keeps; [exact Hwf|exact K|by intros c _ []|eapply bindings_kept_same; [exact K|by intros b []]| | |by left].
  - intros c x Hx _. left. by rewrite <- E1.
  - intros e S HS. left. split; [done|by intros []].
Qed.

Lemma copySource_safe W s path : wf None W s -> safely None none W s s (copySource addSource path) (fun _ _ _ => True).
Proof.
  intros Hwf. unfold copySource. eapply safely_run; [done|]. destruct (default [] (srcToStore s !! path)); [|by apply (safely_ret _ _ _ _ _ W); [|apply keeps_refl|]].
  unfold on_store, zoom, EvalSafe.safely, mbind, M_bind. destruct (addSource path (es_store s)) as [d st|ex st|] eqn:E; [|split; [by eapply HA|done]|done].
  edestruct (same_memory None W s) as [Hwf' K]; [| | |done|exists W; split_and!; [exact Hwf'|exact K|done]]; done.
Qed.

Lemma coerce_path_safe W s p context copy : wf None W s -> safely None none W s s (coerce_path addSource p context copy) (fun _ _ _ => True).
Proof.
  intros Hwf. unfold coerce_path. destruct (is_abs p) eqn:Ep.
  - eapply safely_run; [unfold lift; by rewrite canonPath_abs|]. destruct (negb copy); [by apply (safely_ret _ _ _ _ _ W); [|apply keeps_refl|]|].
    destruct (isDerivation _); [apply (safely_raise _ _ _ _ _ W); [done|apply keeps_refl]|].
    eapply safely_bind; [by apply copySource_safe|apply keeps_refl|apply within_none|]. intros d W' s' Hwf' K' _ _. by apply (safely_ret _ _ _ _ _ W').
  - unfold EvalSafe.safely, mbind, M_bind, lift, canonPath, canonPath_fuel. rewrite Ep. done.
Qed.

Lemma elems_Forall s o l : elems_ptr s (o :: l) -> exists c, o = Some c /\ ptr s c /\ elems_ptr s l.
Proof. intros [(c & -> & Hc) Hl]%Forall_cons. by exists c. Qed.

Lemma coerce_list_safe : forall l W s context more copy res, wf None W s -> elems_ptr s l ->
  safely None none W s s (coerce_list R l context more copy res) (fun _ _ _ => True).
Proof.
  induction l as [|o l IH]; intros W s context more copy res Hwf Hl; cbn [coerce_list]; [by apply (safely_ret _ _ _ _ _ W); [|apply keeps_refl|]|].
  apply elems_Forall in Hl as (c & -> & Hc & Hl). eapply safely_run; [done|].
  eapply safely_bind; [by apply (se_coerce _ _ HR W c context more copy s)|apply keeps_refl|apply within_none|]. intros sc W1 s1 Hwf1 K1 _ (x & Hx & Hw).
  unfold EvalSafe.safely. rewrite (run_deref _ _ _ _ Hx).
  assert (Hrest : forall b : bool, safely None none W s s1 (coerce_list R l sc.2 more copy (res ++ sc.1 ++ match l with [] => [] | _ => if b then [] else $" " end)) (fun _ _ _ => True)).
  { intros b. eapply safely_leaf; [apply (IH W1 s1); [done|by eapply elems_ptr_keeps]|done|apply within_none|done]. }
  destruct (decide (vtype x = tList)) as [Ht|Hne]; [|eapply safely_run; [done|]; apply Hrest].
  assert (Hty : typed_at W1 s1 c tList) by (exists x; split_and!; [done|done|by eapply wf_values]).
  destruct (listOf_run _ _ _ _ Hty) as (l' & El & _). eapply safely_run; [|apply Hrest]. by rewrite (run_bind _ _ _ _ _ El).
Qed.

Lemma coerceToString_safe W s v context more copy : wf None W s -> ptr s v ->
  safely None none W s s (coerceToString_step addSource R v context more copy) (fun _ _ s' => value_at s' v).
Proof.
  intros Hwf Hv. unfold coerceToString_step. eapply safely_force; [done|done|apply keeps_refl|done|]. intros W1 s1 Hwf1 K1 K1' Hat.
  eapply safely_typeOf; [done|done|]. intros t Ht Hw.
  assert (Hval : forall W' s', keeps none W1 s1 W' s' -> value_at s' v) by (intros W' s' K'; eapply value_at_keeps; [exact K'|tauto|done]).
  assert (Hret : forall r : str * gset str, safely None none W s s1 (mret r) (fun _ _ s' => value_at s' v)) by (intros r; by apply (safely_ret _ _ _ _ _ W1)).
  assert (Hwrong : safely None none W s s1 (wrongType ($"cannot coerce ") t ($" to a string")) (fun (_ : str * gset str) _ s' => value_at s' v)).
  { apply (wrongType_safe allowed None none W s W1); [done|]. by destruct t. }
  assert (Hleaf : forall m : M ES (str * gset str), safely None none W1 s1 s1 m (fun _ _ _ => True) -> safely None none W s s1 m (fun _ _ s' => value_at s' v)).
  { intros m Hm. eapply safely_leaf; [exact Hm|done|apply within_none|]. intros r W' s' _ K' _ _. by eapply Hval. }
  assert (Hattrs : forall m, t = tAttrs -> safely None none W s s1 (l ← bindingsOf v;
    match find_attr l sOutPath with Some i => r_coerce R (b_value i) context m copy
    | None => throwTypeError ($"cannot coerce an attribute set (except a derivation) to a string") end) (fun _ _ s' => value_at s' v)).
  { intros m ->. destruct (bindingsOf_run _ _ _ _ Ht) as (l & El & Hl). eapply safely_run; [exact El|].
    destruct (find_attr l sOutPath) as [j|] eqn:Ej; [|by apply (safely_raise _ _ _ _ _ W1)]. apply Hleaf.
    eapply safely_leaf; [apply (se_coerce _ _ HR W1); [done|by eapply find_attr_ptr]|apply keeps_refl|apply within_none|done]. }
  destruct t; try done; destruct more; try done.
  - destruct (intOf_run _ _ _ _ Ht) as [n En]. by eapply safely_run; [exact En|].
  - destruct (boolOf_run _ _ _ _ Ht) as [n En]. by eapply safely_run; [exact En|].
  - destruct (stringOf_run _ _ _ _ Ht) as [n En]. by eapply safely_run; [exact En|].
  - destruct (stringOf_run _ _ _ _ Ht) as [n En]. by eapply safely_run; [exact En|].
  - destruct (pathOf_run _ _ _ _ Ht) as [n En]. eapply safely_run; [exact En|]. by apply Hleaf, coerce_path_safe.
  - destruct (pathOf_run _ _ _ _ Ht) as [n En]. eapply safely_run; [exact En|]. by apply Hleaf, coerce_path_safe.
  - by apply Hattrs.
  - by apply Hattrs.
  - destruct (listOf_run _ _ _ _ Ht) as (l & El & Hl). eapply safely_run; [exact El|]. by apply Hleaf, coerce_list_safe.
Qed.

(** ** Comparison *)

Lemma isDerivation_safe W s v : wf None W s -> value_at s v -> safely None none W s s (isDerivation_v R v) (fun _ _ _ => True).
Proof.
  intros Hwf Hat. unfold isDerivation_v. eapply safely_typeOf; [done|done|]. intros t Ht _.
  assert (Hno : forall W' s', wf None W' s' -> keeps none W s W' s' -> safely None none W s s' (mret false) (fun _ _ _ => True)) by (intros W' s' ? ?; by apply (safely_ret _ _ _ _ _ W')).
  destruct (decide (t = tAttrs)) as [-> |Hne]; [|by apply (Hno W); [|apply keeps_refl]].
  destruct (bindingsOf_run _ _ _ _ Ht) as (l & El & Hl). eapply safely_run; [exact El|].
  destruct (find_attr l sType) as [j|] eqn:Ej; [|by apply (Hno W); [|apply keeps_refl]]. pose proof (find_attr_ptr _ _ _ _ Hl Ej) as Hj.
  eapply safely_force; [done|done|apply keeps_refl|done|]. intros W1 s1 Hwf1 K1 _ Hat1. eapply safely_typeOf; [done|done|]. intros t1 Ht1 _.
  destruct (decide (t1 = tString)) as [-> |Hne]; [|by apply (Hno W1)].
  unfold forceStringNoCtx, forceString. eapply (safely_bind _ None None none none W s W1 s1 _ _ (fun _ _ _ => True)); [|exact K1|apply within_none|].
  - eapply (safely_bind _ None None none none W1 s1 W1 s1 _ _ (fun _ _ _ => True)); [|apply keeps_refl|apply within_none|].
    + apply (force_typed_safe allowed R HR W1 s1 (b_value j) tString) with (Q := fun _ _ _ => True); [done|by apply value_at_ptr|].
      intros W2 s2 Hwf2 K2 Ht2. destruct (stringOf_run _ _ _ _ Ht2) as [n En]. unfold EvalSafe.safely. rewrite En. by exists W2.
    + intros [r c] W2 s2 Hwf2 K2 _ _. destruct c; [by apply (safely_ret _ _ _ _ _ W2)|by apply (safely_raise _ _ _ _ _ W2)].
  - intros r W2 s2 Hwf2 _ K2 _. by apply (safely_ret _ _ _ _ _ W2).
Qed.

Lemma eq_lists_safe : forall l1 l2 W s, wf None W s -> elems_ptr s l1 -> elems_ptr s l2 -> safely None none W s s (eq_lists R l1 l2) (fun _ _ _ => True).
Proof.
  induction l1 as [|o1 l1 IH]; intros [|o2 l2] W s Hwf H1 H2; cbn [eq_lists]; try (by apply (safely_ret _ _ _ _ _ W); [|apply keeps_refl|]).
  apply elems_Forall in H1 as (c1 & -> & Hc1 & H1). apply elems_Forall in H2 as (c2 & -> & Hc2 & H2). do 2 (eapply safely_run; [done|]).
  eapply safely_bind; [by apply (se_eq _ _ HR W c1 c2 s)|apply keeps_refl|apply within_none|]. intros b W1 s1 Hwf1 K1 _ _.
  destruct b; [|by apply (safely_ret _ _ _ _ _ W1)]. eapply safely_leaf; [apply (IH l2 W1 s1); [done|by eapply elems_ptr_keeps..]|done|apply within_none|done].
Qed.

Lemma eq_attrs_safe : forall l1 l2 W s, wf None W s -> Forall (fun a => ptr s (b_value a)) l1 -> Forall (fun a => ptr s (b_value a)) l2 ->
  safely None none W s s (eq_attrs R l1 l2) (fun _ _ _ => True).
Proof.
  induction l1 as [|i l1 IH]; intros [|j l2] W s Hwf H1 H2; cbn [eq_attrs]; try (by apply (safely_ret _ _ _ _ _ W); [|apply keeps_refl|]).
  apply Forall_cons in H1 as [Hi H1]. apply Forall_cons in H2 as [Hj H2]. destruct (str_eqb _ _); [|by apply (safely_ret _ _ _ _ _ W); [|apply keeps_refl|]].
  eapply safely_bind; [by apply (se_eq _ _ HR W (b_value i) (b_value j) s)|apply keeps_refl|apply within_none|]. intros b W1 s1 Hwf1 K1 _ _.
  destruct b; [|by apply (safely_ret _ _ _ _ _ W1)]. pose proof (k_ptr _ _ _ _ _ K1) as Hp.
  eapply safely_leaf; [apply (IH l2 W1 s1); [done|eapply Forall_impl; [exact H1|intros a; apply Hp]|eapply Forall_impl; [exact H2|intros a; apply Hp]]|done|apply within_none|done].
Qed.

Lemma eq_sets_safe W s v1 v2 : wf None W s -> typed_at W s v1 tAttrs -> typed_at W s v2 tAttrs -> safely None none W s s (eq_sets R v1 v2) (fun _ _ _ => True).
Proof.
  intros Hwf Ht1 Ht2. unfold eq_sets.
  eapply safely_bind; [apply (isDerivation_safe W s v1); [done|by eapply typed_at_value]|apply keeps_refl|apply within_none|]. intros d1 W1 s1 Hwf1 K1 _ _.
  apply (typed_keeps _ _ _ _ _ _ v1 tAttrs Hwf1 K1 eq_refl ltac:(tauto)) in Ht1. apply (typed_keeps _ _ _ _ _ _ v2 tAttrs Hwf1 K1 eq_refl ltac:(tauto)) in Ht2.
  eapply (safely_bind allowed None None none none W s W1 s1) with (Q := fun _ _ _ => True); [|exact K1|apply within_none|].
  { destruct d1; [apply (isDerivation_safe W1 s1 v2); [done|by eapply typed_at_value]|by apply (safely_ret _ _ _ _ _ W1); [|apply keeps_refl|]]. }
  intros d2 W2 s2 Hwf2 K2 K2' _.
  apply (typed_keeps _ _ _ _ _ _ v1 tAttrs Hwf2 K2 eq_refl ltac:(tauto)) in Ht1. apply (typed_keeps _ _ _ _ _ _ v2 tAttrs Hwf2 K2 eq_refl ltac:(tauto)) in Ht2.
  destruct (bindingsOf_run _ _ _ _ Ht1) as (l1 & E1 & Hl1). destruct (bindingsOf_run _ _ _ _ Ht2) as (l2 & E2 & Hl2).
  eapply safely_run; [exact E1|]. eapply safely_run; [exact E2|].
  assert (Hall : safely None none W s s2 (if (length l1 =? length l2)%nat then eq_attrs R l1 l2 else mret false) (fun _ _ _ => True)).
  { destruct (_ =? _)%nat; [|by apply (safely_ret _ _ _ _ _ W2)]. eapply safely_leaf; [apply (eq_attrs_safe l1 l2 W2 s2); [done|apply Hl1|apply Hl2]|done|apply within_none|done]. }
  destruct d2; [|exact Hall]. destruct (find_attr l1 sOutPath) as [i|] eqn:Ei; [|exact Hall]. destruct (find_attr l2 sOutPath) as [j|] eqn:Ej; [|exact Hall].
  eapply safely_leaf; [apply (se_eq _ _ HR W2 (b_value i) (b_value j) s2); [done|exact (find_attr_ptr _ _ _ _ Hl1 Ei)|exact (find_attr_ptr _ _ _ _ Hl2 Ej)]|done|apply within_none|done].
Qed.

Lemma eqValues_safe W s v1 v2 : wf None W s -> ptr s v1 -> ptr s v2 -> safely None none W s s (eqValues_step R v1 v2) (fun _ _ _ => True).
Proof.
  intros Hwf H1 H2. unfold eqValues_step. eapply safely_force; [done|done|apply keeps_refl|done|]. intros W1 s1 Hwf1 K1 _ Hat1.
  eapply safely_force; [done|done|done|by apply (k_ptr _ _ _ _ _ K1)|]. intros W2 s2 Hwf2 K2 K2' Hat2. apply (value_at_keeps _ _ _ _ _ _ K2 ltac:(tauto)) in Hat1.
  assert (Hret : forall b : bool, safely None none W s s2 (mret b) (fun _ _ _ => True)) by (intros b; by apply (safely_ret _ _ _ _ _ W2)).
  destruct (v1 =? v2)%nat; [apply Hret|]. eapply safely_typeOf; [done|exact Hat1|]. intros t1 Ht1 Hw1. eapply safely_typeOf; [done|exact Hat2|]. intros t2 Ht2 _.
  destruct (decide (t1 = t2)) as [<-|Hne]; [|apply Hret]. destruct t1; try done.
  - destruct (intOf_run _ _ _ _ Ht1) as [a Ea]. destruct (intOf_run _ _ _ _ Ht2) as [b Eb]. eapply safely_run; [exact Ea|]. by eapply safely_run; [exact Eb|].
  - destruct (boolOf_run _ _ _ _ Ht1) as [a Ea]. destruct (boolOf_run _ _ _ _ Ht2) as [b Eb]. eapply safely_run; [exact Ea|]. by eapply safely_run; [exact Eb|].
  - destruct (stringOf_run _ _ _ _ Ht1) as [a Ea]. destruct (stringOf_run _ _ _ _ Ht2) as [b Eb]. eapply safely_run; [exact Ea|]. by eapply safely_run; [exact Eb|].
  - destruct (pathOf_run _ _ _ _ Ht1) as [a Ea]. destruct (pathOf_run _ _ _ _ Ht2) as [b Eb]. eapply safely_run; [exact Ea|]. by eapply safely_run; [exact Eb|].
  - eapply safely_leaf; [by apply (eq_sets_safe W2 s2)|done|apply within_none|done].
  - destruct (listOf_run _ _ _ _ Ht1) as (l1 & E1 & Hl1). destruct (listOf_run _ _ _ _ Ht2) as (l2 & E2 & Hl2).
    eapply safely_run; [exact E1|]. eapply safely_run; [exact E2|]. destruct (_ =? _)%nat; [|apply Hret].
    eapply safely_leaf; [by apply (eq_lists_safe l1 l2 W2 s2)|done|apply within_none|done].
Qed.

(** ** String interpolation *)

Lemma concat_strings_safe env S : forall es W s isPath r context, wf None W s -> w_env W !! env = Some S -> Forall (bound S) es ->
  safely None none W s s (concat_strings R env es isPath r context) (fun _ _ _ => True).
Proof.
  induction es as [|e es IH]; intros W s isPath r context Hwf HS Hb; cbn [concat_strings]; [by apply (safely_ret _ _ _ _ _ W); [|apply keeps_refl|]|].
  apply Forall_cons in Hb as [He Hb]. eapply safely_evalNew; [done|done|apply keeps_refl|done|done|]. intros c W1 s1 Hwf1 K1 _ Hat _.
  eapply safely_typeOf; [done|done|]. intros t Ht _.
  eapply safely_bind; [apply (se_coerce _ _ HR W1 c); [done|by apply value_at_ptr]|done|apply within_none|]. intros sc W2 s2 Hwf2 K2 K2' _.
  eapply safely_leaf; [apply (IH W2 s2); [done|eapply lookup_weaken; [exact HS|apply K2']|done]|done|apply within_none|done].
Qed.

Lemma eval_concat_safe W s env S es v : wf None W s -> w_env W !! env = Some S -> Forall (bound S) es -> dest W s v ->
  safely None (at_val v) W s s (eval_concat R env es v) (fun _ _ s' => value_at s' v).
Proof.
  intros Hwf HS Hb Hv. unfold eval_concat. eapply safely_bind; [by eapply concat_strings_safe|apply keeps_refl|apply within_none|].
  intros [[isPath r] context] W1 s1 Hwf1 K1 K1' _. pose proof (dest_keeps _ _ _ _ _ _ K1 Hv) as Hv1.
  destruct (isPath && _); [by apply (safely_raise _ _ _ _ _ W1)|]. destruct isPath.
  - eapply safely_leaf; [apply (safely_result allowed None W1 s1 v); [done|done|done|by eexists]|done|apply within_refl|done].
  - eapply safely_leaf; [apply (safely_result allowed None W1 s1 v); [done|done|done|by eexists _, _]|done|apply within_refl|done].
Qed.

(** ** Expressions *)

Lemma bound_list S es : mapR (bindVars S) es = Ok es -> forallb expr_ok es = true -> Forall (bound S) es.
Proof.
  intros Hi%mapR_Ok Hok. rewrite forallb_Forall, Forall_lookup in Hok. apply Forall_lookup. intros i e Hl.
  destruct (Forall2_lookup_l _ _ _ _ _ Hi Hl) as (e' & Hl' & Hb). simplify_eq. split; [done|by eapply Hok].
Qed.

Ltac bound_subs Hb := destruct Hb as [Hb Hok]; cbn in Hb, Hok; rewrite ?andb_true_iff in Hok; inv_ok; destruct_and?; try discriminate.

Lemma bool_op_safe W s v (m : M ES bool) : wf None W s -> dest W s v -> safely None none W s s m (fun _ _ _ => True) ->
  forall g : bool -> bool, safely None (at_val v) W s s (b ← m; mkBool v (g b)) (fun _ _ s' => value_at s' v).
Proof.
  intros Hwf Hv Hm g. eapply safely_bind; [exact Hm|apply keeps_refl|apply within_none|]. intros b W1 s1 Hwf1 K1 K1' _.
  eapply safely_leaf; [apply (mkBool_safe allowed W1 s1 v); [done|exact (dest_keeps _ _ _ _ _ _ K1 Hv)]|done|apply within_refl|done].
Qed.

Lemma eval_bool2_safe W s env S e1 e2 v (m : bool -> M ES bool) : wf None W s -> w_env W !! env = Some S -> bound S e1 -> bound S e2 -> dest W s v ->
  (forall b, m b = evalBool R env e2 \/ exists d, m b = mret d) ->
  safely None (at_val v) W s s (b ← evalBool R env e1; b ← m b; mkBool v b) (fun _ _ s' => value_at s' v).
Proof.
  intros Hwf HS H1 H2 Hv Hm. eapply safely_bind; [by eapply (evalBool_safe allowed R HR W s)|apply keeps_refl|apply within_none|]. intros b W1 s1 Hwf1 K1 K1' _.
  eapply safely_leaf; [apply (bool_op_safe W1 s1 v) with (g := fun b => b); [done|exact (dest_keeps _ _ _ _ _ _ K1 Hv)|]|done|apply within_refl|done].
  destruct (Hm b) as [-> |[d ->]]; [|by apply (safely_ret _ _ _ _ _ W1); [|apply keeps_refl|]]. eapply evalBool_safe; [done|done|eapply lookup_weaken; [exact HS|apply K1]|done].
Qed.

Lemma eval_eq_safe W s env S e1 e2 v (g : bool -> bool) : wf None W s -> w_env W !! env = Some S -> bound S e1 -> bound S e2 -> dest W s v ->
  safely None (at_val v) W s s (v1 ← allocValue; _ ← r_eval R env e1 v1; v2 ← allocValue; _ ← r_eval R env e2 v2; b ← r_eq R v1 v2; mkBool v (g b)) (fun _ _ s' => value_at s' v).
Proof.
  intros Hwf HS H1 H2 Hv. eapply safely_evalNew; [done|done|apply keeps_refl|done|done|]. intros v1 W1 s1 Hwf1 K1 K1' Hat1 _.
  eapply safely_evalNew; [done|done|done|eapply lookup_weaken; [exact HS|apply K1]|done|]. intros v2 W2 s2 Hwf2 K2 K2' Hat2 _.
  eapply safely_leaf; [eapply (bool_op_safe W2 s2 v); [done|exact (dest_keeps _ _ _ _ _ _ K2' Hv)|]|done|apply within_refl|done].
  apply (se_eq _ _ HR W2 v1 v2 s2); [done|apply (k_ptr _ _ _ _ _ K2)|]; by apply value_at_ptr.
Qed.

Lemma eval_concatLists_safe W s env S e1 e2 v : wf None W s -> w_env W !! env = Some S -> bound S e1 -> bound S e2 -> dest W s v ->
  safely None (at_val v) W s s (v1 ← allocValue; _ ← r_eval R env e1 v1; v2 ← allocValue; _ ← r_eval R env e2 v2; concatLists R v [v1; v2]) (fun _ _ s' => value_at s' v).
Proof.
  intros Hwf HS H1 H2 Hv. eapply safely_evalNew; [done|done|apply keeps_refl|done|done|]. intros v1 W1 s1 Hwf1 K1 K1' Hat1 _.
  eapply safely_evalNew; [done|done|done|eapply lookup_weaken; [exact HS|apply K1]|done|]. intros v2 W2 s2 Hwf2 K2 K2' Hat2 _.
  eapply safely_leaf; [apply (concatLists_safe allowed R HR W2 s2 v); [done| |exact (dest_keeps _ _ _ _ _ _ K2' Hv)]|done|apply within_refl|done].
  repeat constructor; [apply (k_ptr _ _ _ _ _ K2)|]; by apply value_at_ptr.
Qed.

Lemma eval_app_safe W s env S e1 e2 v : wf None W s -> w_env W !! env = Some S -> bound S e1 -> bound S e2 -> dest W s v ->
  safely None (at_val v) W s s (vFun ← allocValue; _ ← r_eval R env e1 vFun; arg ← maybeThunk env e2; r_call R vFun arg v) (fun _ _ s' => value_at s' v).
Proof.
  intros Hwf HS H1 H2 Hv. eapply safely_evalNew; [done|done|apply keeps_refl|done|done|]. intros f W1 s1 Hwf1 K1 K1' Hat1 _.
  eapply safely_bind; [eapply (maybeThunk_safe allowed None W1 s1); [done|eapply lookup_weaken; [exact HS|apply K1]|done]|done|apply within_none|].
  intros arg W2 s2 Hwf2 K2 K2' (-> & Harg & _).
  eapply safely_leaf; [apply (se_call _ _ HR W1 f arg v s2); [done|apply (k_ptr _ _ _ _ _ K2); by apply value_at_ptr|done|exact (dest_keeps _ _ _ _ _ _ K2' Hv)]|done|apply within_refl|done].
Qed.

(** Evaluating one of two expressions. *)
Lemma eval_if_safe W s env S c t (m : bool -> M ES unit) v : wf None W s -> w_env W !! env = Some S -> bound S c -> dest W s v ->
  (forall b W' s', wf None W' s' -> w_env W' !! env = Some S -> dest W' s' v -> safely None (at_val v) W' s' s' (m b) (fun _ _ s' => value_at s' v)) ->
  t = (b ← evalBool R env c; m b) -> safely None (at_val v) W s s t (fun _ _ s' => value_at s' v).
Proof.
  intros Hwf HS Hc Hv Hm ->. eapply safely_bind; [by eapply (evalBool_safe allowed R HR W s)|apply keeps_refl|apply within_none|]. intros b W1 s1 Hwf1 K1 K1' _.
  eapply safely_leaf; [apply (Hm b W1 s1); [done|eapply lookup_weaken; [exact HS|apply K1]|exact (dest_keeps _ _ _ _ _ _ K1 Hv)]|done|apply within_refl|done].
Qed.

Lemma eval_step_safe W env S e v s : wf None W s -> w_env W !! env = Some S -> bound S e -> dest W s v ->
  safely None (at_val v) W s s (eval_step R env e v) (fun _ _ s' => value_at s' v).
Proof.
  intros Hwf HS Hb Hv. destruct e as [n|t|t|info|e path def|e path|r attrs|es|f|attrs body|pos attrs body pw|c t f|pos c body|e|e1 e2|e1 e2|e1 e2|e1 e2|e1 e2|e1 e2|e1 e2|e1 e2|es]; cbn [eval_step].
  - apply safely_result; [done|done|done|by eexists].
  - apply safely_result; [done|done|done|by eexists _, _].
  - apply safely_result; [done|done|done|by eexists].
  - bound_subs Hb. eapply safely_bind; [by eapply (lookupNow_safe allowed None none W s W s); [|apply keeps_refl| | |]|apply keeps_refl|apply within_none|].
    intros c W' s' Hwf' _ _ (-> & -> & Hc). eapply safely_force; [done|done|apply keeps_refl|done|]. intros W1 s1 Hwf1 K1 K1' Hat.
    eapply safely_leaf; [apply (copyValue_safe allowed W1 s1 c v); [done|done|exact (dest_keeps _ _ _ _ _ _ K1 Hv)]|done|apply within_refl|done].
  - bound_subs Hb. eapply safely_evalNew; [done|done|apply keeps_refl|done|done|]. intros c W1 s1 Hwf1 K1 K1' Hat _.
    eapply safely_leaf; [eapply (select_loop_safe allowed R HR env S v def path path W1 s1 c None)|done|apply within_refl|done];
      [done|eapply lookup_weaken; [exact HS|apply K1]| |by apply value_at_ptr|exact (dest_keeps _ _ _ _ _ _ K1 Hv)].
    intros d ->. match goal with Ho : optR _ _ = _ |- _ => cbn in Ho end. by inv_ok.
  - bound_subs Hb. eapply safely_evalNew; [done|done|apply keeps_refl|done|done|]. intros c W1 s1 Hwf1 K1 K1' Hat _.
    eapply safely_leaf; [apply (hasAttr_loop_safe allowed R HR v path W1 s1 c); [done|by apply value_at_ptr|exact (dest_keeps _ _ _ _ _ _ K1 Hv)]|done|apply within_refl|done].
  - by eapply eval_attrs_safe.
  - bound_subs Hb. eapply eval_list_safe; [done|done|by apply bound_list|done].
  - apply safely_result; [done|done|done|by eexists _, _, _].
  - by eapply eval_let_safe.
  - by eapply eval_with_safe.
  - bound_subs Hb. eapply (eval_if_safe W s env S c _ (fun b : bool => if b then r_eval R env t v else r_eval R env f v)); [done|done|done|done| |done].
    intros b W' s' Hwf' HS' Hv'. destruct b; by eapply (se_eval _ _ HR).
  - bound_subs Hb. eapply (eval_if_safe W s env S c _ (fun b => if negb b then raise eAssertionError ($"assertion failed at " ++ showPos pos) else r_eval R env body v)); [done|done|done|done| |done].
    intros b W' s' Hwf' HS' Hv'. destruct b; [by eapply (se_eval _ _ HR)|by apply (safely_raise _ _ _ _ _ W'); [|apply keeps_refl]].
  - bound_subs Hb. apply (bool_op_safe W s v); [done|done|by eapply evalBool_safe].
  - bound_subs Hb. by eapply eval_app_safe.
  - bound_subs Hb. by eapply (eval_eq_safe W s env S e1 e2 v (fun b => b)).
  - bound_subs Hb. by eapply (eval_eq_safe W s env S e1 e2 v negb).
  - bound_subs Hb. eapply (eval_bool2_safe W s env S e1 e2 v (fun b : bool => if b then evalBool R env e2 else mret false)); try done. intros []; eauto.
  - bound_subs Hb. eapply (eval_bool2_safe W s env S e1 e2 v (fun b : bool => if b then mret true else evalBool R env e2)); try done. intros []; eauto.
  - bound_subs Hb. eapply (eval_bool2_safe W s env S e1 e2 v (fun b : bool => if negb b then mret true else evalBool R env e2)); try done. intros []; eauto.
  - bound_subs Hb. by eapply eval_update_safe.
  - bound_subs Hb. by eapply eval_concatLists_safe.
  - bound_subs Hb. eapply eval_concat_safe; [done|done|by apply bound_list|done].
Qed.
End Recursive.

(** ** The evaluator *)

Lemma step_safe R : safe_evaluator allowed R -> safe_evaluator allowed (step primOpFun addSource R).
Proof.
  intros HR. split; cbn.
  - intros. by eapply eval_step_safe.
  - intros. by apply callFunction_safe.
  - intros. by apply coerceToString_safe.
  - intros. by apply eqValues_safe.
Qed.

Lemma evaluator_safe n : safe_evaluator allowed (evaluator primOpFun addSource n).
Proof. induction n as [|n IH]; [done|]. by apply step_safe. Qed.

(** Evaluation does not go wrong.  Let the memory be well formed, [e] be an
    expression as the parser makes it and [bindVars] succeed on it for the static
    environment of [env].  Then [eval] of the result never reads through a null or
    dangling pointer, past the end of an environment, or a member of a value that was
    not written, and fails no assertion (in the model: its exceptions are [orderly]); when it returns, the
    memory is well formed again, the result is evaluated, and values that had been
    evaluated before, other than the result, are as they were.  This is for all built-in
    functions that are themselves safe given a safe evaluator. *)
Theorem eval_safe W s env S e e' v n :
  wf None W s -> w_env W !! env = Some S -> expr_ok e = true -> bindVars S e = Ok e' ->
  (v < length (es_values s))%nat -> v ∉ w_frozen W ->
  match eval primOpFun addSource n env e' v s with
  | Done _ s' => (exists W', wf None W' s') /\ (exists x, es_values s' !! v = Some x /\ whnf (vtype x) = true) /\
      forall c x, c <> v -> es_values s !! c = Some x -> whnf (vtype x) = true -> es_values s' !! c = Some x
  | Raised ex _ => orderly (exn_kind ex) = true
  | Stuck => True
  end.
Proof.
  intros Hwf HS Hok Hb Hv Hfr.
  pose proof (se_eval _ _ (evaluator_safe n) W env S e' v s Hwf HS (bindVars_bound _ _ _ Hb Hok) (conj Hv Hfr)) as Hs. unfold EvalSafe.safely in Hs. unfold eval.
  destruct (r_eval _ env e' v s) as [a s'|ex s'|]; [|by destruct Hs|done]. destruct Hs as (W' & Hwf' & K & Hat). split_and!; [by exists W'|done|].
  intros c x Hne Hc Hw. by apply (k_whnf _ _ _ _ _ K).
Qed.
End Steps.
