(* ===== verification/PrimSafe.v ===== *)
(** * Safe built-in functions

    The built-in functions that do not catch exceptions, and that write their result
    only after they have read their arguments, satisfy what the evaluator assumes of
    them. *)

From Stdlib Require Import ZArith Lia Ascii Relations.
From stdpp Require Import base strings sorting numbers gmap sets list.
From S2P Require Import Prelude Effects Util Hash Names StorePath Derivations NixExpr Eval Primops PrimDerivation BaseEnv EvalMemory EvalScope EvalSafe EvalForce EvalAttrs EvalSound EvalOps EvalCalls EvalStep.

(** The operations of the store and the system may fail, but not go wrong. *)
Definition no_undefined {St A} (m : M St A) : Prop := forall st ex st', m st = Raised ex st' -> orderly (exn_kind ex) = true.
Class EvalStoreLaws (St : Type) `{EvalStore St} : Prop := {
  path_exists_law p : no_undefined (path_exists p);
  read_file_law p : no_undefined (read_file p);
  resolve_path_law p : no_undefined (resolve_path p);
  is_valid_law p : no_undefined (is_valid p);
  add_text_law n t r : no_undefined (add_text n t r) }.

Section PrimSafe.
Context `{SymbolTable} `{!SymbolLaws} {St : Type} `{EvalStoreLaws St} `{HashAlgo} (allowed : PrimOp -> Prop).
Abbreviation ES := (EvalState St).
Implicit Types (W : world) (s : ES) (D : footprint).
Abbreviation wf := (wf allowed).
Abbreviation value_ok := (value_ok allowed).
Abbreviation safely := (safely allowed).
Abbreviation typed_at := (typed_at allowed).
Context (R : Evaluator St) (HR : safe_evaluator allowed R).

(** ** Steps *)

Lemma safely_none {A B} D W0 s0 W s (m : M ES A) (f : A -> M ES B) Q Q' : safely None none W s s m Q -> keeps D W0 s0 W s ->
  (forall a W' s', wf None W' s' -> keeps none W s W' s' -> keeps D W0 s0 W' s' -> Q a W' s' -> safely None D W0 s0 s' (f a) Q') ->
  safely None D W0 s0 s (m ≫= f) Q'.
Proof. intros Hm K Hf. eapply safely_bind; [exact Hm|done|apply within_none|exact Hf]. Qed.

(** The result is written last. *)
Lemma safely_finish W0 s0 W s v x : wf None W s -> keeps (at_val v) W0 s0 W s -> dest W0 s0 v -> whnf (vtype x) = true -> value_ok W s x ->
  safely None (at_val v) W0 s0 s (assign v x) (fun _ _ s' => value_at s' v).
Proof.
  intros Hwf K Hv Hw Hok. eapply safely_leaf; [apply (safely_result allowed None W s v x); [done|exact (dest_keeps _ _ _ _ _ _ K Hv)|done|done]|done|apply within_refl|done].
Qed.
Lemma finish_copy W0 s0 W s c v : wf None W s -> keeps (at_val v) W0 s0 W s -> dest W0 s0 v -> value_at s c ->
  safely None (at_val v) W0 s0 s (copyValue c v) (fun _ _ s' => value_at s' v).
Proof.
  intros Hwf K Hv Hc. eapply safely_leaf; [apply (copyValue_safe allowed W s c v); [done|done|exact (dest_keeps _ _ _ _ _ _ K Hv)]|done|apply within_refl|done].
Qed.
Lemma finish_bool W0 s0 W s v b : wf None W s -> keeps (at_val v) W0 s0 W s -> dest W0 s0 v ->
  safely None (at_val v) W0 s0 s (mkBool v b) (fun _ _ s' => value_at s' v).
Proof. intros. eapply safely_finish; [done|done|done|done|by eexists]. Qed.
Lemma finish_int W0 s0 W s v n : wf None W s -> keeps (at_val v) W0 s0 W s -> dest W0 s0 v ->
  safely None (at_val v) W0 s0 s (mkInt v n) (fun _ _ s' => value_at s' v).
Proof. intros. eapply safely_finish; [done|done|done|done|by eexists]. Qed.
Lemma finish_intExact W0 s0 W s v n : wf None W s -> keeps (at_val v) W0 s0 W s -> dest W0 s0 v ->
  safely None (at_val v) W0 s0 s (mkIntExact v n) (fun _ _ s' => value_at s' v).
Proof. intros. unfold mkIntExact. destruct (is_int n); [by eapply finish_int|by apply (safely_raise _ _ _ _ _ W)]. Qed.
Lemma finish_string W0 s0 W s v t c : wf None W s -> keeps (at_val v) W0 s0 W s -> dest W0 s0 v ->
  safely None (at_val v) W0 s0 s (mkString v t c) (fun _ _ s' => value_at s' v).
Proof. intros. eapply safely_finish; [done|done|done|done|by eexists _, _]. Qed.
Lemma finish_path W0 s0 W s v t : wf None W s -> keeps (at_val v) W0 s0 W s -> dest W0 s0 v ->
  safely None (at_val v) W0 s0 s (mkPath v t) (fun _ _ s' => value_at s' v).
Proof. intros. eapply safely_finish; [done|done|done|done|by eexists]. Qed.

Lemma safely_arg {B} D W0 s0 s args i (f : nat -> M ES B) Q : Forall (ptr s) args -> (i < length args)%nat ->
  (forall a, args !! i = Some a -> ptr s a -> safely None D W0 s0 s (f a) Q) -> safely None D W0 s0 s (argOf args i ≫= f) Q.
Proof.
  intros Ha Hi Hf. destruct (lookup_lt_is_Some_2 args i Hi) as [a Ea]. eapply safely_run; [unfold argOf; by rewrite Ea|]. apply Hf; [done|]. by eapply Forall_lookup_1.
Qed.

Lemma safely_lift {A B} D W0 s0 W s (r : result A) (f : A -> M ES B) Q : keeps D W0 s0 W s -> (forall ex, r = Throw ex -> orderly (exn_kind ex) = true) ->
  (forall a, r = Ok a -> safely None D W0 s0 s (f a) Q) -> safely None D W0 s0 s (lift (fun _ => r) ≫= f) Q.
Proof. intros K He Hf. unfold EvalSafe.safely, mbind, M_bind, lift. destruct r as [a|ex|]; [by apply Hf|split; [by apply He|apply K]|done]. Qed.

Lemma safely_store {A B} D W0 s0 W s (m : M St A) (f : A -> M ES B) Q : wf None W s -> keeps D W0 s0 W s -> no_undefined m ->
  (forall a s', wf None W s' -> keeps D W0 s0 W s' -> es_values s' = es_values s -> safely None D W0 s0 s' (f a) Q) -> safely None D W0 s0 s (on_store m ≫= f) Q.
Proof.
  intros Hwf K Hm Hf. unfold EvalSafe.safely, on_store, zoom, mbind, M_bind. destruct (m (es_store s)) as [a st|ex st|] eqn:E; [|split; [by eapply Hm|apply K]|done].
  destruct (same_memory allowed None W s (set_store st s)) as [Hwf' K']; [done..|]. apply Hf; [done| |done]. eapply keeps_within; [exact K|exact K'|apply within_none].
Qed.

(** ** Forcing *)

Lemma forceInt_safe W s v : wf None W s -> ptr s v -> safely None none W s s (forceInt R v) (fun _ _ _ => True).
Proof.
  intros Hwf Hv. apply force_typed_safe; [done|done|done|]. intros W' s' Hwf' K Ht. destruct (intOf_run _ _ _ _ Ht) as [n En].
  unfold EvalSafe.safely. rewrite En. by exists W'.
Qed.
Lemma forceBool_safe W s v : wf None W s -> ptr s v -> safely None none W s s (forceBool R v) (fun _ _ _ => True).
Proof.
  intros Hwf Hv. apply force_typed_safe; [done|done|done|]. intros W' s' Hwf' K Ht. destruct (boolOf_run _ _ _ _ Ht) as [n En].
  unfold EvalSafe.safely. rewrite En. by exists W'.
Qed.
Lemma forceString_safe W s v : wf None W s -> ptr s v -> safely None none W s s (forceString R v) (fun _ _ _ => True).
Proof.
  intros Hwf Hv. apply force_typed_safe; [done|done|done|]. intros W' s' Hwf' K Ht. destruct (stringOf_run _ _ _ _ Ht) as [n En].
  unfold EvalSafe.safely. rewrite En. by exists W'.
Qed.
Lemma forceStringNoCtx_safe W s v : wf None W s -> ptr s v -> safely None none W s s (forceStringNoCtx R v) (fun _ _ _ => True).
Proof.
  intros Hwf Hv. eapply safely_none; [by apply forceString_safe|apply keeps_refl|]. intros [t c] W' s' Hwf' K _ _.
  destruct c; [by apply (safely_ret _ _ _ _ _ W')|by apply (safely_raise _ _ _ _ _ W')].
Qed.
Lemma forceStringCtx_safe W s v c : wf None W s -> ptr s v -> safely None none W s s (forceStringCtx R v c) (fun _ _ _ => True).
Proof. intros Hwf Hv. eapply safely_none; [by apply forceString_safe|apply keeps_refl|]. intros r W' s' Hwf' K _ _. by apply (safely_ret _ _ _ _ _ W'). Qed.
Lemma forceFunction_safe W s v : wf None W s -> ptr s v -> safely None none W s s (forceFunction R v) (fun _ _ s' => value_at s' v).
Proof.
  intros Hwf Hv. unfold forceFunction. eapply safely_force; [done|done|apply keeps_refl|done|]. intros W' s' Hwf' K _ Hat.
  eapply safely_typeOf; [done|done|]. intros t Ht Hw. destruct (decide _); [by apply (safely_ret _ _ _ _ _ W')|]. apply (wrongType_safe allowed None none W s W'); [done|]. by destruct t.
Qed.
Lemma coerceToPath_safe W s v c : wf None W s -> ptr s v -> safely None none W s s (coerceToPath R v c) (fun _ _ s' => value_at s' v).
Proof.
  intros Hwf Hv. eapply safely_none; [by apply (se_coerce _ _ HR)|apply keeps_refl|]. intros [t ctx] W' s' Hwf' K _ Hat. cbn.
  destruct t as [|a t]; [by apply (safely_raise _ _ _ _ _ W')|]. destruct (char_eqb a slash); [by apply (safely_ret _ _ _ _ _ W')|by apply (safely_raise _ _ _ _ _ W')].
Qed.

(** ** The functions *)

Definition prim_ok (n : nat) (f : list nat -> nat -> M ES unit) : Prop := forall W s args v,
  wf None W s -> Forall (ptr s) args -> length args = n -> dest W s v -> safely None (at_val v) W s s (f args v) (fun _ _ s' => value_at s' v).

Ltac prim_args := intros W s args v Hwf Hargs Hlen Hv; repeat (eapply safely_arg; [exact Hargs|lia|let a := fresh "a" in let Ha := fresh "Ha" in intros a _ Ha]).

Lemma isType_ok p : prim_ok 1 (prim_isType R p).
Proof.
  prim_args. eapply safely_force; [done|done|apply keeps_refl|done|]. intros W1 s1 Hwf1 K1 K1' Hat. eapply safely_typeOf; [done|done|]. intros t _ _. by eapply finish_bool.
Qed.

Lemma abort_ok : prim_ok 1 (prim_abort R).
Proof. prim_args. eapply safely_none; [by apply (se_coerce _ _ HR)|apply keeps_refl|]. intros sc W1 s1 Hwf1 K1 K1' _. by apply (safely_raise _ _ _ _ _ W1). Qed.
Lemma throw_ok : prim_ok 1 (prim_throw R).
Proof. prim_args. eapply safely_none; [by apply (se_coerce _ _ HR)|apply keeps_refl|]. intros sc W1 s1 Hwf1 K1 K1' _. by apply (safely_raise _ _ _ _ _ W1). Qed.
Lemma getEnv_ok : prim_ok 1 (prim_getEnv R).
Proof. prim_args. eapply safely_none; [by apply forceStringNoCtx_safe|apply keeps_refl|]. intros t W1 s1 Hwf1 K1 K1' _. by eapply finish_string. Qed.
Lemma trace_ok : prim_ok 2 (prim_trace R).
Proof.
  prim_args. eapply safely_force; [done|done|apply keeps_refl|done|]. intros W1 s1 Hwf1 K1 K1' _.
  eapply safely_force; [done|done|done|by apply (k_ptr _ _ _ _ _ K1)|]. intros W2 s2 Hwf2 K2 K2' Hat. by eapply finish_copy.
Qed.

Lemma canonPath_law p ex : canonPath p = Throw ex -> orderly (exn_kind ex) = true.
Proof. destruct (is_abs p) eqn:Ep; [by rewrite canonPath_abs|]. unfold canonPath, canonPath_fuel. rewrite Ep. by intros [= <-]. Qed.

Lemma toPath_ok : prim_ok 1 (prim_toPath R).
Proof.
  prim_args. eapply safely_none; [by apply coerceToPath_safe|apply keeps_refl|]. intros sc W1 s1 Hwf1 K1 K1' _.
  eapply safely_lift; [done|apply canonPath_law|]. intros p _. by eapply finish_string.
Qed.
Lemma noContext_safe {B} D W0 s0 W s p c (f : unit -> M ES B) Q : keeps D W0 s0 W s -> safely None D W0 s0 s (f tt) Q -> safely None D W0 s0 s (noContext p c ≫= f) Q.
Proof. intros K Hf. unfold noContext. destruct (bool_decide _); [by eapply safely_run|]. by apply (safely_bind_raise _ _ _ _ _ W). Qed.
Lemma pathExists_ok : prim_ok 1 (prim_pathExists R).
Proof.
  prim_args. eapply safely_none; [by apply coerceToPath_safe|apply keeps_refl|]. intros sc W1 s1 Hwf1 K1 K1' _. eapply noContext_safe; [done|].
  eapply safely_store; [done|done|apply path_exists_law|]. intros b s2 Hwf2 K2 _. by eapply finish_bool.
Qed.
Lemma readFile_ok : prim_ok 1 (prim_readFile R).
Proof.
  prim_args. eapply safely_none; [by apply coerceToPath_safe|apply keeps_refl|]. intros sc W1 s1 Hwf1 K1 K1' _. eapply noContext_safe; [done|].
  eapply safely_store; [done|done|apply read_file_law|]. intros b s2 Hwf2 K2 _. by eapply finish_string.
Qed.
Lemma toStorePath_law dir p ex : toStorePath dir p = Throw ex -> orderly (exn_kind ex) = true.
Proof. unfold toStorePath. repeat case_match; intros Hx; try done; by injection Hx as <-. Qed.
Lemma storePath_ok : prim_ok 1 (prim_storePath R).
Proof.
  prim_args. eapply safely_none; [by apply coerceToPath_safe|apply keeps_refl|]. intros sc W1 s1 Hwf1 K1 K1' _.
  assert (Hrest : forall path s2, wf None W1 s2 -> keeps (at_val v) W s W1 s2 -> safely None (at_val v) W s s2
    (if negb (isInStore storeDir path) then throwEvalError ($"path `" ++ path ++ $"' is not in the Nix store")
     else path2 ← lift (fun _ => toStorePath storeDir path); valid ← on_store (is_valid path2);
       if negb valid then throwEvalError ($"store path `" ++ path2 ++ $"' is not valid") else mkString v path ({[path2]} ∪ sc.2)) (fun _ _ s' => value_at s' v)).
  { intros path s2 Hwf2 K2. destruct (negb (isInStore _ _)); [by apply (safely_raise _ _ _ _ _ W1)|]. eapply safely_lift; [done|apply toStorePath_law|]. intros path2 _.
    eapply safely_store; [done|done|apply is_valid_law|]. intros b s3 Hwf3 K3 _. destruct (negb b); [by apply (safely_raise _ _ _ _ _ W1)|by eapply finish_string]. }
  destruct (isStorePath storeDir sc.1); [eapply safely_run; [done|]; by apply Hrest|].
  eapply safely_store; [done|done|apply resolve_path_law|]. intros path s2 Hwf2 K2 _. by apply Hrest.
Qed.
Lemma baseNameOf_ok : prim_ok 1 (prim_baseNameOf R).
Proof.
  prim_args. eapply safely_none; [by apply (se_coerce _ _ HR)|apply keeps_refl|]. intros sc W1 s1 Hwf1 K1 K1' _.
  eapply safely_lift; [done|unfold baseNameOf; case_match; by intros ? [= <-]|]. intros p _. by eapply finish_string.
Qed.
Lemma dirOf_ok : prim_ok 1 (prim_dirOf R).
Proof.
  prim_args. eapply safely_none; [by apply coerceToPath_safe|apply keeps_refl|]. intros sc W1 s1 Hwf1 K1 K1' Hat.
  eapply safely_lift; [done|unfold dirOf; case_match; by intros ? [= <-]|]. intros p _. eapply safely_typeOf; [done|done|]. intros t _ _.
  destruct (decide _); [by eapply finish_path|by eapply finish_string].
Qed.
Lemma text_refs_law n l : forall r ex, text_refs n l r = Throw ex -> orderly (exn_kind ex) = true.
Proof. induction l as [|[|c p] l IH]; intros r ex; cbn; [done|by intros [= <-]|]. destruct (isDerivation _); [by intros [= <-]|apply IH]. Qed.
Lemma toFile_ok : prim_ok 2 (prim_toFile R).
Proof.
  prim_args. eapply safely_none; [by apply forceStringNoCtx_safe|apply keeps_refl|]. intros n W1 s1 Hwf1 K1 K1' _.
  eapply safely_none; [apply forceStringCtx_safe; [done|by apply (k_ptr _ _ _ _ _ K1)]|done|]. intros sc W2 s2 Hwf2 K2 K2' _.
  eapply safely_lift; [done|apply text_refs_law|]. intros refs _. eapply safely_store; [done|done|apply add_text_law|]. intros p s3 Hwf3 K3 _. by eapply finish_string.
Qed.

Lemma getAttr_ok : prim_ok 2 (prim_getAttr R).
Proof.
  prim_args. eapply safely_none; [by apply forceStringNoCtx_safe|apply keeps_refl|]. intros n W1 s1 Hwf1 K1 K1' _.
  eapply safely_none; [apply (forceAttrs_safe allowed R HR W1 s1); [done|by apply (k_ptr _ _ _ _ _ K1)]|done|]. intros [] W2 s2 Hwf2 K2 K2' Ht.
  destruct (bindingsOf_run _ _ _ _ Ht) as (l & El & Hl). eapply safely_run; [exact El|]. destruct (find_attr l n) as [j|] eqn:Ej; [|by apply (safely_raise _ _ _ _ _ W2)].
  eapply safely_force; [done|done|done|by eapply find_attr_ptr|]. intros W3 s3 Hwf3 K3 K3' Hat. by eapply finish_copy.
Qed.
Lemma hasAttr_ok : prim_ok 2 (prim_hasAttr R).
Proof.
  prim_args. eapply safely_none; [by apply forceStringNoCtx_safe|apply keeps_refl|]. intros n W1 s1 Hwf1 K1 K1' _.
  eapply safely_none; [apply (forceAttrs_safe allowed R HR W1 s1); [done|by apply (k_ptr _ _ _ _ _ K1)]|done|]. intros [] W2 s2 Hwf2 K2 K2' Ht.
  destruct (bindingsOf_run _ _ _ _ Ht) as (l & El & Hl). eapply safely_run; [exact El|]. by eapply finish_bool.
Qed.

(** *** Lists *)

Lemma elemAt_safe W0 s0 W s c n v : wf None W s -> keeps (at_val v) W0 s0 W s -> ptr s c -> dest W0 s0 v ->
  safely None (at_val v) W0 s0 s (elemAt R c n v) (fun _ _ s' => value_at s' v).
Proof.
  intros Hwf K Hc Hv. unfold elemAt. eapply safely_none; [by apply (forceList_safe allowed R HR W s c)|done|]. intros [] W1 s1 Hwf1 K1 K1' Ht.
  destruct (listOf_run _ _ _ _ Ht) as (l & El & Hl). eapply safely_run; [exact El|].
  destruct ((n <? 0)%Z || _) eqn:En; [by apply (safely_raise _ _ _ _ _ W1)|]. apply orb_false_iff in En as [E1 E2]. apply Z.ltb_ge in E1. apply Z.leb_gt in E2.
  destruct (lookup_lt_is_Some_2 l (Z.to_nat n)) as [o Ho]; [lia|]. destruct (Forall_lookup_1 _ _ _ _ Hl Ho) as (e & -> & He).
  eapply safely_run; [unfold elemOf; by rewrite (run_some _ _ _ _ Ho)|]. eapply safely_force; [done|done|done|done|]. intros W2 s2 Hwf2 K2 K2' Hat. by eapply finish_copy.
Qed.
Lemma elemAt_ok : prim_ok 2 (prim_elemAt R).
Proof.
  prim_args. eapply safely_none; [by apply forceInt_safe|apply keeps_refl|]. intros n W1 s1 Hwf1 K1 K1' _. eapply elemAt_safe; [done|done|by apply (k_ptr _ _ _ _ _ K1)|done].
Qed.
Lemma head_ok : prim_ok 1 (prim_head R).
Proof. prim_args. eapply elemAt_safe; [done|apply keeps_refl|done|done]. Qed.

Lemma filter_elems_safe f : forall l W s, wf None W s -> ptr s f -> elems_ptr s l -> safely None none W s s (filter_elems R f l) (fun r _ s' => elems_ptr s' r.1).
Proof.
  induction l as [|o l IH]; intros W s Hwf Hf Hl; cbn [filter_elems]; [apply (safely_ret _ _ _ _ _ W); [done|apply keeps_refl|constructor]|].
  apply elems_Forall in Hl as (e & -> & He & Hl). eapply safely_run; [done|]. eapply safely_alloc; [done|apply keeps_refl|]. intros c s1 Hwf1 K1 _ Hc _ Ec _.
  eapply safely_bind; [apply (se_call _ _ HR W f e c s1); [done|by apply (k_ptr _ _ _ _ _ K1)|by apply (k_ptr _ _ _ _ _ K1)|done]|done|eapply (within_fresh_val _ W s W s); [apply keeps_refl|lia]|].
  intros [] W2 s2 Hwf2 _ K2 Hat. eapply safely_none; [apply forceBool_safe; [done|by apply value_at_ptr]|done|]. intros b W3 s3 Hwf3 _ K3 _.
  eapply safely_none; [apply (IH W3 s3); [done|by apply (k_ptr _ _ _ _ _ K3)|by eapply elems_ptr_keeps]|done|]. intros [r same] W4 s4 Hwf4 _ K4 Hr. cbn in Hr.
  apply (safely_ret _ _ _ _ _ W4); [done|done|]. destruct b; [|done]. constructor; [|done]. exists e. split; [done|by apply (k_ptr _ _ _ _ _ K4)].
Qed.
Lemma filter_ok : prim_ok 2 (prim_filter R).
Proof.
  prim_args. eapply safely_none; [by apply forceFunction_safe|apply keeps_refl|]. intros [] W1 s1 Hwf1 K1 K1' Hat.
  eapply safely_none; [apply (forceList_safe allowed R HR W1 s1); [done|by apply (k_ptr _ _ _ _ _ K1)]|done|]. intros [] W2 s2 Hwf2 K2 K2' Ht.
  destruct (listOf_run _ _ _ _ Ht) as (l & El & Hl). eapply safely_run; [exact El|].
  eapply safely_none; [apply (filter_elems_safe a l W2 s2); [done|by apply (k_ptr _ _ _ _ _ K2'), Ha|done]|done|]. intros [r same] W3 s3 Hwf3 K3 K3' Hr. cbn in Hr |- *. destruct same.
  - eapply finish_copy; [done|done|done|]. eapply typed_at_value; [eapply (typed_keeps allowed none W2 s2); [done|done| |tauto|done]|]; done.
  - eapply safely_finish; [done|done|done|done|by eexists].
Qed.

Lemma find_elem_safe x : forall l W s, wf None W s -> ptr s x -> elems_ptr s l -> safely None none W s s (find_elem R x l) (fun _ _ _ => True).
Proof.
  induction l as [|o l IH]; intros W s Hwf Hx Hl; cbn [find_elem]; [by apply (safely_ret _ _ _ _ _ W); [|apply keeps_refl|]|].
  apply elems_Forall in Hl as (e & -> & He & Hl). eapply safely_run; [done|]. eapply safely_none; [by apply (se_eq _ _ HR)|apply keeps_refl|]. intros b W1 s1 Hwf1 K1 _ _.
  destruct b; [by apply (safely_ret _ _ _ _ _ W1)|]. eapply safely_leaf; [apply (IH W1 s1); [done|by apply (k_ptr _ _ _ _ _ K1)|by eapply elems_ptr_keeps]|done|apply within_none|done].
Qed.
Lemma elem_ok : prim_ok 2 (prim_elem R).
Proof.
  prim_args. eapply safely_none; [by apply (forceList_safe allowed R HR W s a0)|apply keeps_refl|]. intros [] W1 s1 Hwf1 K1 K1' Ht.
  destruct (listOf_run _ _ _ _ Ht) as (l & El & Hl). eapply safely_run; [exact El|].
  eapply safely_none; [apply find_elem_safe; [done|by apply (k_ptr _ _ _ _ _ K1)|done]|done|]. intros b W2 s2 Hwf2 K2 K2' _. by eapply finish_bool.
Qed.

Lemma pointers_run l s : elems_ptr s l -> exists lists, fold_right (fun o (m : M ES (list nat)) => c ← some o; w ← m; mret (c :: w)) (mret []) l s = Done lists s /\ Forall (ptr s) lists.
Proof.
  induction l as [|o l IH]; [exists []; by split; [|constructor]|]. intros (c & -> & Hc & Hl)%elems_Forall. destruct (IH Hl) as (lists & E & Hp).
  exists (c :: lists). cbn [fold_right]. rewrite (run_some _ c) by done. rewrite (run_bind _ _ _ _ _ E). split; [done|by constructor].
Qed.
Lemma concatLists_ok : prim_ok 1 (prim_concatLists R).
Proof.
  prim_args. eapply safely_none; [by apply (forceList_safe allowed R HR W s a)|apply keeps_refl|]. intros [] W1 s1 Hwf1 K1 K1' Ht.
  destruct (listOf_run _ _ _ _ Ht) as (l & El & Hl). eapply safely_run; [exact El|]. destruct (pointers_run _ _ Hl) as (lists & Ep & Hp). eapply safely_run; [exact Ep|].
  eapply safely_leaf; [apply (concatLists_safe allowed R HR W1 s1 v lists); [done|done|exact (dest_keeps _ _ _ _ _ _ K1' Hv)]|done|apply within_refl|done].
Qed.
Lemma length_ok : prim_ok 1 (prim_length R).
Proof.
  prim_args. eapply safely_none; [by apply (forceList_safe allowed R HR W s a)|apply keeps_refl|]. intros [] W1 s1 Hwf1 K1 K1' Ht.
  destruct (listOf_run _ _ _ _ Ht) as (l & El & Hl). eapply safely_run; [exact El|]. by eapply finish_int.
Qed.

(** *** Numbers and strings *)

Lemma arith_ok f : prim_ok 2 (prim_arith R f).
Proof.
  prim_args. eapply safely_none; [by apply forceInt_safe|apply keeps_refl|]. intros n W1 s1 Hwf1 K1 K1' _.
  eapply safely_none; [apply forceInt_safe; [done|by apply (k_ptr _ _ _ _ _ K1)]|done|]. intros m W2 s2 Hwf2 K2 K2' _. by eapply finish_intExact.
Qed.
Lemma div_ok : prim_ok 2 (prim_div R).
Proof.
  prim_args. eapply safely_none; [by apply forceInt_safe|apply keeps_refl|]. intros n W1 s1 Hwf1 K1 K1' _. destruct (n =? 0)%Z; [by apply (safely_raise _ _ _ _ _ W1)|].
  eapply safely_none; [apply forceInt_safe; [done|by apply (k_ptr _ _ _ _ _ K1)]|done|]. intros m W2 s2 Hwf2 K2 K2' _. by eapply finish_intExact.
Qed.
Lemma lessThan_ok : prim_ok 2 (prim_lessThan R).
Proof.
  prim_args. eapply safely_none; [by apply forceInt_safe|apply keeps_refl|]. intros n W1 s1 Hwf1 K1 K1' _.
  eapply safely_none; [apply forceInt_safe; [done|by apply (k_ptr _ _ _ _ _ K1)]|done|]. intros m W2 s2 Hwf2 K2 K2' _. by eapply finish_bool.
Qed.
Lemma toString_ok : prim_ok 1 (prim_toString R).
Proof. prim_args. eapply safely_none; [by apply (se_coerce _ _ HR)|apply keeps_refl|]. intros sc W1 s1 Hwf1 K1 K1' _. by eapply finish_string. Qed.
Lemma substring_ok : prim_ok 3 (prim_substring R).
Proof.
  prim_args. eapply safely_none; [by apply forceInt_safe|apply keeps_refl|]. intros n W1 s1 Hwf1 K1 K1' _.
  eapply safely_none; [apply forceInt_safe; [done|by apply (k_ptr _ _ _ _ _ K1)]|done|]. intros m W2 s2 Hwf2 K2 K2' _.
  eapply safely_none; [apply (se_coerce _ _ HR); [done|by apply (k_ptr _ _ _ _ _ K2')]|done|]. intros sc W3 s3 Hwf3 K3 K3' _.
  destruct (n <? 0)%Z; [by apply (safely_raise _ _ _ _ _ W3)|by eapply finish_string].
Qed.
Lemma stringLength_ok : prim_ok 1 (prim_stringLength R).
Proof. prim_args. eapply safely_none; [by apply (se_coerce _ _ HR)|apply keeps_refl|]. intros sc W1 s1 Hwf1 K1 K1' _. by eapply finish_int. Qed.
Lemma discardContext_ok : prim_ok 1 (prim_unsafeDiscardStringContext R).
Proof. prim_args. eapply safely_none; [by apply (se_coerce _ _ HR)|apply keeps_refl|]. intros sc W1 s1 Hwf1 K1 K1' _. by eapply finish_string. Qed.
Lemma discard_outputs_law l : forall r ex, discard_outputs l r = Throw ex -> orderly (exn_kind ex) = true.
Proof. induction l as [|[|c p] l IH]; intros r ex; cbn; [done|by intros [= <-]|apply IH]. Qed.
Lemma discardOutput_ok : prim_ok 1 (prim_unsafeDiscardOutputDependency R).
Proof.
  prim_args. eapply safely_none; [by apply (se_coerce _ _ HR)|apply keeps_refl|]. intros sc W1 s1 Hwf1 K1 K1' _.
  eapply safely_lift; [done|apply discard_outputs_law|]. intros c _. by eapply finish_string.
Qed.
Lemma compareVersions_law fuel : forall a b ex, compareVersions_loop fuel a b = Throw ex -> False.
Proof. induction fuel as [|fuel IH]; intros a b ex; cbn; [done|]. repeat case_match; try done; apply IH. Qed.
Lemma compareVersions_ok : prim_ok 2 (prim_compareVersions R).
Proof.
  prim_args. eapply safely_none; [by apply forceStringNoCtx_safe|apply keeps_refl|]. intros n W1 s1 Hwf1 K1 K1' _.
  eapply safely_none; [apply forceStringNoCtx_safe; [done|by apply (k_ptr _ _ _ _ _ K1)]|done|]. intros m W2 s2 Hwf2 K2 K2' _.
  eapply safely_lift; [done|by intros ex ?%compareVersions_law|]. intros c _. by eapply finish_int.
Qed.
End PrimSafe.

(** ** The table *)

Section Table.
Context `{SymbolTable} `{!SymbolLaws} {St : Type} `{EvalStoreLaws St} `{HashAlgo}.
Abbreviation ES := (EvalState St).
Abbreviation Prim := (Evaluator St -> list nat -> nat -> M ES unit).
Context (prim_import prim_toXML prim_filterSource : Prim).
Abbreviation all_primops := (primOpFun prim_import prim_toXML prim_filterSource).

Definition safe_table : list (str * nat * Prim) :=
  [ ($"isNull", 1%nat, prim_isNull); ($"isFunction", 1%nat, prim_isFunction); ($"isString", 1%nat, prim_isString); ($"isInt", 1%nat, prim_isInt);
    ($"isBool", 1%nat, prim_isBool); ($"isAttrs", 1%nat, prim_isAttrs); ($"isList", 1%nat, prim_isList);
    ($"abort", 1%nat, prim_abort); ($"throw", 1%nat, prim_throw); ($"getEnv", 1%nat, prim_getEnv); ($"trace", 2%nat, prim_trace);
    ($"toPath", 1%nat, prim_toPath); ($"storePath", 1%nat, prim_storePath); ($"pathExists", 1%nat, prim_pathExists);
    ($"baseNameOf", 1%nat, prim_baseNameOf); ($"dirOf", 1%nat, prim_dirOf); ($"readFile", 1%nat, prim_readFile); ($"toFile", 2%nat, prim_toFile);
    ($"getAttr", 2%nat, prim_getAttr); ($"hasAttr", 2%nat, prim_hasAttr); ($"elemAt", 2%nat, prim_elemAt); ($"head", 1%nat, prim_head);
    ($"filter", 2%nat, prim_filter); ($"elem", 2%nat, prim_elem); ($"concatLists", 1%nat, prim_concatLists); ($"length", 1%nat, prim_length);
    ($"add", 2%nat, prim_add); ($"sub", 2%nat, prim_sub); ($"mul", 2%nat, prim_mul); ($"div", 2%nat, prim_div); ($"lessThan", 2%nat, prim_lessThan);
    ($"toString", 1%nat, prim_toString); ($"substring", 3%nat, prim_substring); ($"stringLength", 1%nat, prim_stringLength);
    ($"unsafeDiscardStringContext", 1%nat, prim_unsafeDiscardStringContext);
    ($"unsafeDiscardOutputDependency", 1%nat, prim_unsafeDiscardOutputDependency); ($"compareVersions", 2%nat, prim_compareVersions) ].

Definition is_safe (op : PrimOp) : Prop := (primop_name op, arity op) ∈ safe_table.*1.

Lemma safe_table_ok allowed R : safe_evaluator allowed R ->
  Forall (fun xnf => find_primop (primops prim_import prim_toXML prim_filterSource) xnf.1.1 = Some xnf.2 /\ prim_ok allowed xnf.1.2 (xnf.2 R)) safe_table.
Proof.
  intros HR. repeat (constructor; [split; [reflexivity|]; cbn [fst snd]|]); [..|constructor].
  all: first [ apply isType_ok | apply abort_ok | apply throw_ok | apply getEnv_ok | apply trace_ok | apply toPath_ok | apply storePath_ok | apply pathExists_ok
    | apply baseNameOf_ok | apply dirOf_ok | apply readFile_ok | apply toFile_ok | apply getAttr_ok | apply hasAttr_ok | apply elemAt_ok | apply head_ok | apply filter_ok
    | apply elem_ok | apply concatLists_ok | apply length_ok | apply arith_ok | apply div_ok | apply lessThan_ok | apply toString_ok | apply substring_ok
    | apply stringLength_ok | apply discardContext_ok | apply discardOutput_ok | apply compareVersions_ok ]; exact HR.
Qed.

Lemma primops_safe : safe_primops is_safe all_primops.
Proof.
  intros R [name n] HR Hop W s args v Hwf Hargs Hlen Hv. unfold is_safe in Hop. cbn [primop_name arity] in Hop, Hlen. apply list_elem_of_fmap in Hop as ([[x k] f] & [= -> ->] & Hin).
  pose proof (safe_table_ok is_safe R HR) as Ht. rewrite Forall_forall in Ht. destruct (Ht _ Hin) as [Hf Hok]. cbn [fst snd] in Hf, Hok.
  unfold primOpFun. cbn [primop_name]. rewrite Hf. by apply Hok.
Qed.
End Table.

(** ** A witness *)

Module Sample.
#[export] Instance symbols : SymbolTable := fun s => Npos (encode s).
#[export] Instance symbols_inj : SymbolLaws.
Proof. intros x y [= E]. by apply (inj encode) in E. Qed.

(** A store that has nothing. *)
#[export] Instance store : EvalStore unit := {|
  storeDir := $"/nix/store"; getEnvVar _ := []; path_exists _ := mret false; read_file _ := raise eSysError ($"opening file"); resolve_path p := mret p;
  is_valid _ := mret false; add_text n _ _ := mret n; fs_closure _ := mret ∅; output_names _ := mret ∅; hash_modulo_of _ := raise eError ($"no store");
  write_drv _ _ := raise eError ($"no store"); remember_hash _ _ := mret tt |}.
#[export] Instance store_laws : EvalStoreLaws unit.
Proof. split; intros; intros st ex st' E; by inversion E. Qed.

Definition no_prim : Evaluator unit -> list nat -> nat -> M (EvalState unit) unit := fun _ _ _ => raise eError ($"not available").

Definition source (p : str) : M unit str := mret p.
Lemma source_safe : safe_source source.
Proof. intros p st ex st' E. discriminate E. Qed.

(** An environment with [add], one of a [with] that has [x], and a place for a result. *)
Definition state : EvalState unit :=
  mkEvalState
    [mkValue tPrimOp (PPrimOp (mkPrimOp ($"add") 2)); mkValue tAttrs (PAttrs 0); mkValue tInt (PInt 7); mkValue tUninit PNone]
    [mkEvalEnv None 0 [Some 0%nat]; mkEvalEnv (Some 0%nat) 0 [Some 1%nat]] [[mkBinding ($"x") 2 noPos]] ∅ tt.
Definition static : StaticEnv := [FVars {[ $"add" := 0%nat ]}].
Definition W : world := mkWorld (<[1%nat := FWith :: static]> {[ 0%nat := static ]}) {[ 1%nat ]}.
(** [add x 3] *)
Definition var (x : str) : Expr := ExprVar (mkVarRef x false 0 0).
Definition expr : Expr := ExprApp (ExprApp (var ($"add")) (var ($"x"))) (ExprInt 3).

Lemma state_wf allowed : allowed (mkPrimOp ($"add") 2) -> wf allowed None W state.
Proof.
  intros Ha. assert (Hp : forall c, c = 0%nat \/ c = 1%nat \/ c = 2%nat -> ptr state c) by (by intros c [-> |[-> | ->]]; eexists).
  split.
  - intros [|[|[|[|c]]]] x Hx _; cbn in Hx; simplify_eq; cbn.
    + eexists. split; [done|]. split; [done|cbn; lia].
    + eexists _, _. split; [done|]. split; [done|]. split; [done|]. constructor; [|done]. apply Hp. auto.
    + by eexists.
    + done.
  - intros e S HS. cbn in HS. apply lookup_insert_Some in HS as [[<- <-]|[_ [<- <-]%lookup_singleton_Some]].
    + eexists _, _, _. split_and!; [done|done| |split; [done|]].
      * right. exists 0%nat. split_and!; [done|lia|done].
      * eexists _, _. split_and!; [done|by apply (proj2 (elem_of_singleton (C := gset nat) 1%nat 1%nat))|done|done].
    + eexists _, _, _. split_and!; [done|done|by left|]. intros y d [<- <-]%lookup_singleton_Some. eexists. split; [done|]. apply Hp. auto.
  - intros c Hc. cbn in Hc. apply elem_of_singleton in Hc as ->. by eexists.
  - done.
Qed.
End Sample.

#[local] Existing Instance Sample.symbols.
#[local] Existing Instance Sample.symbols_inj.
#[local] Existing Instance Sample.store.
#[local] Existing Instance Sample.store_laws.
#[local] Existing Instance checksum_algo.

Lemma eval_safe_witness :
  match eval (primOpFun Sample.no_prim Sample.no_prim Sample.no_prim) Sample.source 10 1
          (ExprApp (ExprApp (ExprVar (mkVarRef ($"add") false 1 0)) (ExprVar (mkVarRef ($"x") true 0 0))) (ExprInt 3)) 3 Sample.state with
  | Done _ s' => es_values s' !! 3%nat = Some (mkValue tInt (PInt 10)) /\ exists W', wf is_safe None W' s'
  | _ => False
  end.
Proof.
  pose proof (eval_safe is_safe (primOpFun Sample.no_prim Sample.no_prim Sample.no_prim) Sample.source
    (primops_safe Sample.no_prim Sample.no_prim Sample.no_prim) Sample.source_safe Sample.W Sample.state 1 (FWith :: Sample.static) Sample.expr
    (ExprApp (ExprApp (ExprVar (mkVarRef ($"add") false 1 0)) (ExprVar (mkVarRef ($"x") true 0 0))) (ExprInt 3)) 3 10
    (Sample.state_wf is_safe ltac:(unfold is_safe; apply (bool_decide_unpack _); vm_compute; exact I)) eq_refl eq_refl ltac:(vm_compute; reflexivity) ltac:(cbn; lia)
    ltac:(apply (bool_decide_unpack _); vm_compute; exact I)) as Hs.
  revert Hs. vm_compute (eval _ _ _ _ _ _ _). intros Hs. split; [reflexivity|]. exact (proj1 Hs).
Defined.

Lemma lookupVar_lexical_witness :
  bind (FWith :: Sample.static) (mkVarRef ($"x") false 0 0) = Ok (mkVarRef ($"x") true 0 0) /\
  lookupVar 1 (mkVarRef ($"x") true 0 0) Sample.state = Done (Some 2%nat) Sample.state.
Proof.
  split; [reflexivity|].
  pose proof (lookupVar_lexical (fun _ => True) Sample.W Sample.state 1 (FWith :: Sample.static) (mkVarRef ($"x") false 0 0) (Sample.state_wf _ I) eq_refl) as Hl.
  exact Hl.
Defined.

(** [{ b = 1; a = 2; } // { b = 3; }] on the symbols of the sample. *)
Lemma update_merge_find_witness :
  let l1 := [mkBinding ($"b") 1 noPos; mkBinding ($"a") 2 noPos] in let l2 := [mkBinding ($"b") 3 noPos] in
  find_attr (update_merge l1 l2) ($"b") = Some (mkBinding ($"b") 3 noPos) /\ find_attr (update_merge l1 l2) ($"a") = Some (mkBinding ($"a") 2 noPos).
Proof.
  intros l1 l2. destruct (update_merge_find (H := Sample.symbols) l1 l2 ltac:(vm_compute; reflexivity) ltac:(vm_compute; reflexivity)) as [_ H].
  rewrite !H. split; vm_compute; reflexivity.
Defined.
