(* ===== verification/EvalApprox.v ===== *)
(** * Evaluation that stops at some built-in functions

    [approx m' m]: wherever [m'] gives an outcome, [m] gives the same.  The evaluator
    respects this, so evaluation with a table of built-in functions in which some are
    replaced by [stuck] tells what evaluation with the whole table does, as long as it
    does not call these. *)

From Stdlib Require Import ZArith Lia Ascii Relations.
From stdpp Require Import base strings sorting numbers gmap sets list.
From S2P Require Import Prelude Effects Util Hash Names StorePath Derivations NixExpr Eval Primops PrimDerivation BaseEnv.

(** ** Monadic code *)

Definition approx {S A} (m' m : M S A) : Prop := forall s, m' s = Stuck \/ m' s = m s.

Section Approx.
Context {S : Type}.

Lemma approx_refl {A} (m : M S A) : approx m m.
Proof. by right. Qed.
Lemma approx_stuck {A} (m : M S A) : approx stuck m.
Proof. by left. Qed.
Lemma approx_bind {A B} (m' m : M S A) (f' f : A -> M S B) : approx m' m -> (forall a, approx (f' a) (f a)) -> approx (m' ≫= f') (m ≫= f).
Proof.
  intros Hm Hf s. unfold mbind, M_bind. destruct (Hm s) as [-> | ->]; [by left|]. destruct (m s) as [a s'|ex s'|]; [apply Hf|by right..].
Qed.
Lemma approx_try {A} p (m' m : M S A) (h' h : exn -> M S A) : approx m' m -> (forall e, approx (h' e) (h e)) -> approx (try_catch p m' h') (try_catch p m h).
Proof.
  intros Hm Hh s. unfold try_catch. destruct (Hm s) as [-> | ->]; [by left|]. destruct (m s) as [a s'|ex s'|]; [by right| |by right].
  destruct (p (exn_kind ex)); [apply Hh|by right].
Qed.
Lemma approx_forM {A} (f' f : A -> M S unit) l : (forall a, approx (f' a) (f a)) -> approx (forM f' l) (forM f l).
Proof. intros Hf. induction l as [|a l IH]; cbn [forM]; [apply approx_refl|]. apply approx_bind; [apply Hf|]. intros _. exact IH. Qed.
End Approx.

Lemma approx_prefix {St A} msg (m' m : M (EvalState St) A) : approx m' m -> approx (prefix_errors msg m') (prefix_errors msg m).
Proof. intros Hm. apply approx_try; [done|]. intros e. apply approx_refl. Qed.

Create HintDb approx.

(** Code that differs in the calls it makes only. *)
Ltac approx_step :=
  lazymatch goal with
  | |- approx ?m ?m => apply approx_refl
  | |- approx (_ ≫= _) (_ ≫= _) => apply approx_bind; [|intros ?]
  | |- approx (prefix_errors _ _) (prefix_errors _ _) => apply approx_prefix
  | |- approx (try_catch _ _ _) (try_catch _ _ _) => apply approx_try; [|intros ?]
  | |- approx (forM _ _) (forM _ _) => apply approx_forM; intros ?
  | |- approx (match ?x with _ => _ end) (match ?x with _ => _ end) => destruct x
  | |- approx (let _ := _ in _) _ => cbn zeta
  end.
Ltac approx_go := repeat (first [solve [auto with approx nocore] | approx_step]).

(** ** The evaluator *)

Section Evaluators.
Context `{SymbolTable} {St : Type}.
Abbreviation ES := (EvalState St).

Record approx_evaluator (R' R : Evaluator St) : Prop := {
  ap_eval env e v : approx (r_eval R' env e v) (r_eval R env e v);
  ap_call f a v : approx (r_call R' f a v) (r_call R f a v);
  ap_coerce v c more copy : approx (r_coerce R' v c more copy) (r_coerce R v c more copy);
  ap_eq v1 v2 : approx (r_eq R' v1 v2) (r_eq R v1 v2) }.

Section Functions.
Context (R' R : Evaluator St) (HR : approx_evaluator R' R).
#[local] Hint Resolve ap_eval ap_call ap_coerce ap_eq HR : approx.

Lemma ap_forceValue v : approx (forceValue R' v) (forceValue R v).
Proof. unfold forceValue. approx_go. Qed.
#[local] Hint Resolve ap_forceValue : approx.
Lemma ap_forceAttrs v : approx (forceAttrs R' v) (forceAttrs R v).
Proof. unfold forceAttrs. approx_go. Qed.
Lemma ap_forceList v : approx (forceList R' v) (forceList R v).
Proof. unfold forceList. approx_go. Qed.
Lemma ap_forceInt v : approx (forceInt R' v) (forceInt R v).
Proof. unfold forceInt. approx_go. Qed.
Lemma ap_forceBool v : approx (forceBool R' v) (forceBool R v).
Proof. unfold forceBool. approx_go. Qed.
Lemma ap_forceFunction v : approx (forceFunction R' v) (forceFunction R v).
Proof. unfold forceFunction. approx_go. Qed.
Lemma ap_forceString v : approx (forceString R' v) (forceString R v).
Proof. unfold forceString. approx_go. Qed.
#[local] Hint Resolve ap_forceAttrs ap_forceList ap_forceInt ap_forceBool ap_forceFunction ap_forceString : approx.
Lemma ap_forceStringNoCtx v : approx (forceStringNoCtx R' v) (forceStringNoCtx R v).
Proof. unfold forceStringNoCtx. approx_go. Qed.
Lemma ap_forceStringCtx v c : approx (forceStringCtx R' v c) (forceStringCtx R v c).
Proof. unfold forceStringCtx. approx_go. Qed.
Lemma ap_coerceToPath v c : approx (coerceToPath R' v c) (coerceToPath R v c).
Proof. unfold coerceToPath. approx_go. Qed.
Lemma ap_evalBool env e : approx (evalBool R' env e) (evalBool R env e).
Proof. unfold evalBool. approx_go. Qed.
Lemma ap_evalAttrs env e v : approx (evalAttrs R' env e v) (evalAttrs R env e v).
Proof. unfold evalAttrs. approx_go. Qed.
#[local] Hint Resolve ap_forceStringNoCtx ap_forceStringCtx ap_coerceToPath ap_evalBool ap_evalAttrs : approx.

(** *** Expressions *)

Lemma ap_eval_attrs env r attrs v : approx (eval_attrs R' env r attrs v) (eval_attrs R env r attrs v).
Proof. unfold eval_attrs, apply_overrides. approx_go. Qed.
Lemma ap_force_lists ls : forall o l, approx (force_lists R' ls o l) (force_lists R ls o l).
Proof. induction ls as [|v ls IH]; intros o l; cbn [force_lists]; approx_go. Qed.
#[local] Hint Resolve ap_force_lists : approx.
Lemma ap_concatLists v ls : approx (concatLists R' v ls) (concatLists R v ls).
Proof. unfold concatLists. approx_go. Qed.
Lemma ap_with_pos {A} p o (m' m : M ES A) : approx m' m -> approx (with_pos p o m') (with_pos p o m).
Proof. intros Hm. unfold with_pos. approx_go. Qed.
Lemma ap_select_attr p b v i : approx (select_attr R' p b v i) (select_attr R p b v i).
Proof. unfold select_attr. approx_go. Qed.
#[local] Hint Resolve ap_with_pos ap_select_attr : approx.
Lemma ap_select_loop env v def ap p : forall va pos, approx (select_loop R' env v def ap p va pos) (select_loop R env v def ap p va pos).
Proof. induction p as [|i p IH]; intros va pos; cbn [select_loop]; approx_go. Qed.
Lemma ap_hasAttr_loop v p : forall va, approx (hasAttr_loop R' v p va) (hasAttr_loop R v p va).
Proof. induction p as [|i p IH]; intros va; cbn [hasAttr_loop]; approx_go. Qed.
Lemma ap_concat_strings env es : forall b r c, approx (concat_strings R' env es b r c) (concat_strings R env es b r c).
Proof. induction es as [|e es IH]; intros b r c; cbn [concat_strings]; approx_go. Qed.
#[local] Hint Resolve ap_concat_strings : approx.
Lemma ap_eval_concat env es v : approx (eval_concat R' env es v) (eval_concat R env es v).
Proof. unfold eval_concat. approx_go. Qed.
Lemma ap_eval_update env e1 e2 v : approx (eval_update R' env e1 e2 v) (eval_update R env e1 e2 v).
Proof. unfold eval_update. approx_go. Qed.
#[local] Hint Resolve ap_eval_attrs ap_concatLists ap_select_loop ap_hasAttr_loop ap_eval_concat ap_eval_update : approx.
Lemma ap_eval_step env e v : approx (eval_step R' env e v) (eval_step R env e v).
Proof. destruct e; cbn [eval_step]; approx_go. Qed.
Lemma ap_bind_args f env2 arg : approx (bind_args R' f env2 arg) (bind_args R f env2 arg).
Proof. unfold bind_args. approx_go. Qed.

(** *** Coercion and comparison *)

Lemma ap_coerce_list l : forall c more copy res, approx (coerce_list R' l c more copy res) (coerce_list R l c more copy res).
Proof. induction l as [|o l IH]; intros c more copy res; cbn [coerce_list]; approx_go. Qed.
#[local] Hint Resolve ap_bind_args ap_coerce_list : approx.
Lemma ap_coerceToString addSource v c more copy : approx (coerceToString_step addSource R' v c more copy) (coerceToString_step addSource R v c more copy).
Proof. unfold coerceToString_step. approx_go. Qed.
Lemma ap_isDerivation v : approx (isDerivation_v R' v) (isDerivation_v R v).
Proof. unfold isDerivation_v. approx_go. Qed.
Lemma ap_eq_lists l1 : forall l2, approx (eq_lists R' l1 l2) (eq_lists R l1 l2).
Proof. induction l1 as [|o l1 IH]; intros [|o2 l2]; cbn [eq_lists]; approx_go. Qed.
Lemma ap_eq_attrs l1 : forall l2, approx (eq_attrs R' l1 l2) (eq_attrs R l1 l2).
Proof. induction l1 as [|o l1 IH]; intros [|o2 l2]; cbn [eq_attrs]; approx_go. Qed.
#[local] Hint Resolve ap_isDerivation ap_eq_lists ap_eq_attrs : approx.
Lemma ap_eq_sets v1 v2 : approx (eq_sets R' v1 v2) (eq_sets R v1 v2).
Proof. unfold eq_sets. approx_go. Qed.
#[local] Hint Resolve ap_eq_sets : approx.
Lemma ap_eqValues v1 v2 : approx (eqValues_step R' v1 v2) (eqValues_step R v1 v2).
Proof. unfold eqValues_step. approx_go. Qed.
End Functions.

(** *** Unrolling *)

Definition approx_table (P' P : Evaluator St -> str -> list nat -> nat -> M ES unit) : Prop :=
  forall R' R name args v, approx_evaluator R' R -> approx (P' R' name args v) (P R name args v).

Lemma ap_step P' P addSource R' R : approx_table P' P -> approx_evaluator R' R -> approx_evaluator (step P' addSource R') (step P addSource R).
Proof.
  intros HP HR. split; cbn [step r_eval r_call r_coerce r_eq].
  - intros env e v. by apply ap_eval_step.
  - intros f a v. unfold callFunction_step, call_primop. pose proof HR as [HE _ _ _]. pose proof (ap_bind_args R' R HR) as Hb. pose proof (fun n x y => HP R' R n x y HR) as HP'. approx_go.
  - intros v c more copy. by apply ap_coerceToString.
  - intros v1 v2. by apply ap_eqValues.
Qed.

Lemma ap_evaluator P' P addSource n : approx_table P' P -> approx_evaluator (evaluator P' addSource n) (evaluator P addSource n).
Proof. intros HP. induction n as [|n IH]; cbn [evaluator]; [split; intros; apply approx_refl|by apply ap_step]. Qed.
End Evaluators.

#[export] Hint Resolve ap_eval ap_call ap_coerce ap_eq ap_forceValue ap_forceAttrs ap_forceList ap_forceInt ap_forceBool ap_forceFunction ap_forceString
  ap_forceStringNoCtx ap_forceStringCtx ap_coerceToPath ap_concatLists : approx.

(** ** The built-in functions that are safe *)

Section Prims.
Context `{SymbolTable} {St : Type} `{EvalStore St} `{HashAlgo}.
Abbreviation ES := (EvalState St).
Abbreviation Prim := (Evaluator St -> list nat -> nat -> M ES unit).

Definition approx_prim (f : Prim) : Prop := forall R' R args v, approx_evaluator R' R -> approx (f R' args v) (f R args v).

Lemma ap_filter_elems (R' R : Evaluator St) f l : approx_evaluator R' R -> approx (filter_elems R' f l) (filter_elems R f l).
Proof. intros HR. induction l as [|o l IH]; cbn [filter_elems]; approx_go. Qed.
Lemma ap_find_elem (R' R : Evaluator St) x l : approx_evaluator R' R -> approx (find_elem R' x l) (find_elem R x l).
Proof. intros HR. induction l as [|o l IH]; cbn [find_elem]; approx_go. Qed.
End Prims.
#[export] Hint Resolve ap_filter_elems ap_find_elem : approx.
