(* ===== verification/EvalBase.v ===== *)
(** * Evaluation in the base environment

    What [createBaseEnv] makes is well formed, and so evaluation in it does not go
    wrong, as long as it calls no built-in function but those of [safe_table]. *)

From Stdlib Require Import ZArith Lia Ascii Relations.
From stdpp Require Import base strings sorting numbers gmap sets list.
From S2P Require Import Prelude Effects Util Hash Names StorePath Derivations NixExpr Eval Primops PrimDerivation BaseEnv EvalMemory EvalScope EvalSafe EvalForce EvalAttrs EvalSound EvalOps EvalCalls EvalStep PrimSafe EvalApprox.

(** ** The cautious table *)

Section Cautious.
Context `{SymbolTable} `{!SymbolLaws} {St : Type} `{EvalStoreLaws St} `{HashAlgo}.
Abbreviation ES := (EvalState St).
Abbreviation Prim := (Evaluator St -> list nat -> nat -> M ES unit).
Context (prim_import prim_toXML prim_filterSource : Prim).
Abbreviation all_primops := (primOpFun prim_import prim_toXML prim_filterSource).

Definition safe_names : list (str * nat) := (safe_table (St := St)).*1.
(** The built-in functions, of which the safe ones can be called. *)
Definition cautious (R : Evaluator St) (name : str) (args : list nat) (v : nat) : M ES unit :=
  if bool_decide (name ∈ safe_names.*1) then all_primops R name args v else stuck.

Lemma safe_table_approx : Forall (fun xnf => approx_prim xnf.2) safe_table.
Proof.
  repeat (constructor; [cbn [snd]|]); [..|constructor]; intros R' R args v HR.
  all: cbv beta delta [prim_isNull prim_isFunction prim_isString prim_isInt prim_isBool prim_isAttrs prim_isList prim_isType prim_abort prim_throw
    prim_getEnv prim_trace prim_toPath prim_storePath prim_pathExists prim_baseNameOf prim_dirOf prim_readFile prim_toFile prim_getAttr prim_hasAttr
    prim_elemAt prim_head elemAt prim_filter prim_elem prim_concatLists prim_length prim_add prim_sub prim_mul prim_arith prim_div prim_lessThan
    prim_toString prim_substring prim_stringLength prim_unsafeDiscardStringContext prim_unsafeDiscardOutputDependency prim_compareVersions].
  all: approx_go.
Qed.

Lemma safe_table_found : Forall (fun xnf => find_primop (primops prim_import prim_toXML prim_filterSource) xnf.1.1 = Some xnf.2) safe_table.
Proof. repeat (constructor; [reflexivity|]). constructor. Qed.

Lemma cautious_cases R name args v : (cautious R name args v = stuck /\ name ∉ safe_names.*1) \/
  exists n f, (name, n, f) ∈ safe_table /\ cautious R name args v = f R args v /\ all_primops R name args v = f R args v.
Proof.
  unfold cautious. case_bool_decide as Hn; [right|by left]. apply list_elem_of_fmap in Hn as ([x n] & -> & Hn). apply list_elem_of_fmap in Hn as ([[y k] f] & [= -> ->] & Hin).
  exists k, f. pose proof safe_table_found as Ht. rewrite Forall_forall in Ht. specialize (Ht _ Hin). cbn [fst snd] in Ht |- *. unfold primOpFun. by rewrite Ht.
Qed.

Lemma cautious_approx : approx_table cautious all_primops.
Proof.
  intros R' R name args v HR. destruct (cautious_cases R' name args v) as [[-> _]|(n & f & Hin & -> & _)]; [apply approx_stuck|].
  pose proof safe_table_found as Ht. rewrite Forall_forall in Ht. specialize (Ht _ Hin). cbn [fst snd] in Ht. unfold primOpFun. rewrite Ht.
  pose proof safe_table_approx as Ha. rewrite Forall_forall in Ha. by apply (Ha _ Hin).
Qed.

(** The built-in functions of the base environment. *)
Definition base_ops : list (str * nat) := (fun xnf => (public_name xnf.1.1, xnf.1.2)) <$> primops prim_import prim_toXML prim_filterSource.
Definition is_base (op : PrimOp) : Prop := (primop_name op, arity op) ∈ base_ops.

Lemma base_arity name n k : (name, n) ∈ base_ops -> (name, k) ∈ safe_names -> n = k.
Proof.
  assert (Hb : forallb (fun xn : str * nat => forallb (fun yk : str * nat => negb (str_eqb xn.1 yk.1) || (xn.2 =? yk.2)%nat) safe_names) base_ops = true) by (vm_compute; reflexivity).
  rewrite forallb_Forall, Forall_forall in Hb. intros Hn%Hb Hk. rewrite forallb_Forall, Forall_forall in Hn. apply Hn in Hk. cbn in Hk.
  rewrite str_eqb_refl in Hk. by apply Nat.eqb_eq in Hk.
Qed.
Lemma base_arity_pos op : is_base op -> (0 < arity op)%nat.
Proof.
  assert (Hb : forallb (fun xn : str * nat => (0 <? xn.2)%nat) base_ops = true) by (vm_compute; reflexivity).
  rewrite forallb_Forall, Forall_forall in Hb. intros Ho%Hb. by apply Nat.ltb_lt in Ho.
Qed.

Lemma cautious_safe : safe_primops is_base cautious.
Proof.
  intros R [name n] HR Hop W s args v Hwf Hargs Hlen Hv. cbn [primop_name arity] in *. destruct (cautious_cases R name args v) as [[-> _]|(k & f & Hin & -> & _)]; [done|].
  pose proof (safe_table_ok prim_import prim_toXML prim_filterSource is_base R HR) as Ht. rewrite Forall_forall in Ht. destruct (Ht _ Hin) as [_ Hok]. cbn [fst snd] in Hok.
  apply Hok; [done|done| |done]. rewrite Hlen. eapply base_arity; [exact Hop|]. by apply (list_elem_of_fmap_2 fst _ (name, k, f)).
Qed.
End Cautious.

(** ** Binding fails only with an undefined variable *)

Definition throws_only (k : exn_class) {A} (r : result A) : Prop := forall ex, r = Throw ex -> exn_kind ex = k.

Lemma throws_bind {A B} k (r : result A) (f : A -> result B) : throws_only k r -> (forall a, throws_only k (f a)) -> throws_only k (r ≫= f).
Proof. intros Hr Hf ex. destruct r as [a|e|]; cbn; [apply Hf|intros [= <-]; by apply Hr|done]. Qed.
Lemma throws_Ok {A} k (a : A) : throws_only k (Ok a).
Proof. done. Qed.
Lemma throws_mapR {A B} k (f : A -> result B) l : Forall (fun a => throws_only k (f a)) l -> throws_only k (mapR f l).
Proof. induction 1 as [|a l Ha _ IH]; cbn [mapR]; [done|]. apply throws_bind; [done|]. intros b. by apply throws_bind. Qed.
Lemma throws_imapR {A B} k (f : nat -> A -> result B) l : Forall (fun a => forall n, throws_only k (f n a)) l -> forall n, throws_only k (imapR f n l).
Proof. induction 1 as [|a l Ha _ IH]; intros n; [done|]. rewrite imapR_cons. apply throws_bind; [done|]. intros b. by apply throws_bind. Qed.
Lemma throws_bind_loop v env : forall lvl w, throws_only eEvalError (bind_loop v env lvl w).
Proof. induction env as [|F env IH]; intros lvl w; cbn [bind_loop]; repeat case_match; try done; try apply IH. intros ex [= <-]. done. Qed.

Ltac throws_go := repeat first [apply throws_Ok | apply throws_bind; [|intros ?] | apply throws_bind_loop | solve [eauto]].

Lemma throws_defs S S' n (d : AttrDef) : def_all (fun e => forall S, throws_only eEvalError (bindVars S e)) d -> throws_only eEvalError (bind_def S S' n d).
Proof. intros Hd. destruct d as [e pos k|v pos k]; cbn in *; throws_go. Qed.
Lemma throws_opt S o : opt_all (fun e => forall S, throws_only eEvalError (bindVars S e)) o -> throws_only eEvalError (optR (bindVars S) o).
Proof. intros Hd. destruct o; cbn in *; throws_go. Qed.

Lemma bindVars_throws e : forall S, throws_only eEvalError (bindVars S e).
Proof.
  induction e as [e Hs] using expr_subs_ind. intros S.
  destruct e as [| | | |e p def|e p|[] attrs|elems|f|attrs body|pos a b n|a b c|pos a b|e|a b|a b|a b|a b|a b|a b|a b|a b|es]; cbn in Hs; destruct_and?; cbn [bindVars]; throws_go.
  - by apply throws_opt.
  - apply throws_imapR. eapply Forall_impl; [exact Hs|]. intros xd Hd n. apply throws_bind; [by apply throws_defs|done].
  - apply throws_mapR. eapply Forall_impl; [exact Hs|]. intros xd Hd. apply throws_bind; [by apply throws_defs|done].
  - apply throws_mapR. eapply Forall_impl; [exact Hs|]. intros e He. apply He.
  - destruct f as [pos arg m formals el body]. destruct Hs as [Hf Hb]. cbn. apply throws_bind; [|intros ?; throws_go]. destruct m; [|done].
    apply throws_mapR. eapply Forall_impl; [exact Hf|]. intros [x o] Ho. cbn in *. apply throws_bind; [by apply throws_opt|done].
  - apply throws_imapR. eapply Forall_impl; [exact H|]. intros xd Hd n. apply throws_bind; [by apply throws_defs|done].
  - apply throws_mapR. eapply Forall_impl; [exact Hs|]. intros e He. apply He.
Qed.

(** ** Variables that are not used *)

(** Whether a variable called [x] occurs. *)
Fixpoint mentions (x : str) (e : Expr) : bool :=
  match e with
  | ExprInt _ | ExprString _ | ExprPath _ => false
  | ExprVar v => str_eqb (var_name v) x
  | ExprSelect e _ def => mentions x e || match def with Some d => mentions x d | None => false end
  | ExprOpHasAttr e _ | ExprOpNot e => mentions x e
  | ExprAttrs _ attrs => existsb (fun xd => def_mentions x xd.2) attrs
  | ExprList es | ExprConcatStrings es => existsb (mentions x) es
  | ExprLambda f => lambda_mentions x f
  | ExprLet attrs body => existsb (fun xd => def_mentions x xd.2) attrs || mentions x body
  | ExprIf a b c => mentions x a || (mentions x b || mentions x c)
  | ExprWith _ a b _ | ExprAssert _ a b | ExprApp a b | ExprOpEq a b | ExprOpNEq a b | ExprOpAnd a b
  | ExprOpOr a b | ExprOpImpl a b | ExprOpUpdate a b | ExprOpConcatLists a b => mentions x a || mentions x b
  end
with def_mentions (x : str) (d : AttrDef) : bool := match d with AttrE e _ _ => mentions x e | AttrInherited v _ _ => str_eqb (var_name v) x end
with lambda_mentions (x : str) (f : Lambda) : bool :=
  match f with mkLambda _ _ _ formals _ body => existsb (formal_mentions x) formals || mentions x body end
with formal_mentions (x : str) (f : Formal) : bool := match f with mkFormal _ (Some d) => mentions x d | _ => false end.

Section Unused.
Context (x : str).

(** Static environments that differ in [x] only. *)
Definition frame_but (F G : Frame) : Prop :=
  match F, G with
  | FWith, FWith => True
  | FVars m, FVars m' => forall y, y <> x -> m !! y = m' !! y
  | _, _ => False
  end.
Abbreviation env_but := (Forall2 frame_but).
Lemma frame_but_refl F : frame_but F F.
Proof. by destruct F. Qed.

Lemma bind_loop_but S S' : env_but S S' -> forall v lvl w, str_eqb (var_name v) x = false -> bind_loop v S lvl w = bind_loop v S' lvl w.
Proof.
  induction 1 as [|F G S S' HF _ IH]; intros v lvl w Hv; cbn [bind_loop]; [done|]. destruct F as [|m], G as [|m']; try done; [by rewrite IH|].
  rewrite (HF (var_name v)) by (intros E; by rewrite E, str_eqb_refl in Hv). destruct (m' !! var_name v); [done|by apply IH].
Qed.
Lemma prevWith_but S S' : env_but S S' -> forall n, prevWith_loop S n = prevWith_loop S' n.
Proof. induction 1 as [|F G S S' HF _ IH]; intros n; cbn [prevWith_loop]; [done|]. destruct F, G; try done; apply IH. Qed.

Lemma mapR_ext {A B} (f g : A -> result B) l : Forall (fun a => f a = g a) l -> mapR f l = mapR g l.
Proof. induction 1 as [|a l Ha _ IH]; cbn [mapR]; [done|]. by rewrite Ha, IH. Qed.
Lemma imapR_ext {A B} (f g : nat -> A -> result B) l : Forall (fun a => forall n, f n a = g n a) l -> forall n, imapR f n l = imapR g n l.
Proof. induction 1 as [|a l Ha _ IH]; intros n; [done|]. by rewrite !imapR_cons, Ha, IH. Qed.
Lemma existsb_Forall {A} (f : A -> bool) l : existsb f l = false -> Forall (fun a => f a = false) l.
Proof. induction l as [|a l IH]; cbn; [constructor|]. intros [? ?]%orb_false_iff. constructor; auto. Qed.

Definition unused (e : Expr) : Prop := mentions x e = false -> forall S S', env_but S S' -> bindVars S e = bindVars S' e.

Lemma def_unused S S' T T' n d : env_but S S' -> env_but T T' -> def_all unused d -> def_mentions x d = false -> bind_def S T n d = bind_def S' T' n d.
Proof. intros HS HT Hd Hm. destruct d as [e pos k|v pos k]; cbn in *; [by rewrite (Hd Hm T T')|]. unfold bind. by rewrite (bind_loop_but S S'). Qed.
Lemma opt_unused S S' o : env_but S S' -> opt_all unused o -> match o with Some d => mentions x d | None => false end = false -> optR (bindVars S) o = optR (bindVars S') o.
Proof. intros HS Ho Hm. destruct o as [e|]; cbn in *; [by rewrite (Ho Hm S S')|done]. Qed.

Lemma defs_both (attrs : list (str * AttrDef)) : Forall (fun xd => def_all unused xd.2) attrs -> existsb (fun xd => def_mentions x xd.2) attrs = false ->
  Forall (fun xd => def_all unused xd.2 /\ def_mentions x xd.2 = false) attrs.
Proof. intros H1 H2%existsb_Forall. apply Forall_and. by split. Qed.
Lemma subs_both es : Forall unused es -> existsb (mentions x) es = false -> Forall (fun e => unused e /\ mentions x e = false) es.
Proof. intros H1 H2%existsb_Forall. apply Forall_and. by split. Qed.

Lemma bindVars_unused e : unused e.
Proof.
  induction e as [e Hs] using expr_subs_ind. intros Hm S S' HS. assert (Hc : forall F, env_but (F :: S) (F :: S')) by (intros F; constructor; [apply frame_but_refl|done]).
  destruct e as [| | |v|e p def|e p|[] attrs|elems|f|attrs body|pos a b n|a b c|pos a b|e|a b|a b|a b|a b|a b|a b|a b|a b|es]; cbn in Hs, Hm; cbn [bindVars];
    rewrite ?orb_false_iff in Hm; destruct_and?; rewrite <- ?(prevWith_but S S' HS); try done;
    repeat match goal with Hu : unused ?e, Hf : mentions x ?e = false |- _ => rewrite ?(Hu Hf S S' HS), ?(Hu Hf _ _ (Hc _)); clear Hu end; try done.
  - unfold bind. by rewrite (bind_loop_but S S').
  - by rewrite (opt_unused S S' def).
  - erewrite imapR_ext; [done|]. eapply Forall_impl; [exact (defs_both attrs Hs Hm)|]. intros xd [H1 H2] n. by rewrite (def_unused S S' _ _ _ _ HS (Hc _) H1 H2).
  - erewrite mapR_ext; [done|]. eapply Forall_impl; [exact (defs_both attrs Hs Hm)|]. intros xd [H1 H2]. by rewrite (def_unused S S' _ _ _ _ HS HS H1 H2).
  - erewrite mapR_ext; [done|]. eapply Forall_impl; [exact (subs_both _ Hs Hm)|]. intros e [H1 H2]. by apply H1.
  - destruct f as [pos arg m formals el body]. destruct Hs as [Hf Hb]. cbn in Hm |- *. apply orb_false_iff in Hm as [Hm1 Hm2]. rewrite (Hb Hm2 _ _ (Hc _)).
    destruct m; [|done]. erewrite mapR_ext; [done|]. apply existsb_Forall in Hm1. eapply Forall_impl; [exact (proj2 (Forall_and _ _) (conj Hf Hm1))|].
    intros [y o] [H1 H2]. cbn in *. by rewrite (opt_unused _ _ o (Hc _)).
  - erewrite imapR_ext; [done|]. eapply Forall_impl; [eapply defs_both; eassumption|]. intros xd [U1 U2] n. by rewrite (def_unused S S' _ _ _ _ HS (Hc _) U1 U2).
  - erewrite mapR_ext; [done|]. eapply Forall_impl; [exact (subs_both _ Hs Hm)|]. intros e [H1 H2]. by apply H1.
Qed.
End Unused.

(** ** What [createBaseEnv] makes *)

Section Base.
Context `{SymbolTable} `{!SymbolLaws} {St : Type} `{EvalStoreLaws St} `{HashAlgo}.
Abbreviation ES := (EvalState St).
Abbreviation Prim := (Evaluator St -> list nat -> nat -> M ES unit).
Context (prim_import prim_toXML prim_filterSource : Prim) (st : St).
Abbreviation is_base := (is_base prim_import prim_toXML prim_filterSource).

Definition empty_state : ES := mkEvalState [] [] [] ∅ st.

(** The memory while the base environment is filled: the values, the ones that the environment has, and the attributes of [builtins]. *)
Definition mem (vals : list Value) (cs : list nat) (attrs : list Attr) : ES :=
  mkEvalState vals [mkEvalEnv None 0 ((Some <$> cs) ++ replicate (128 - length cs) None)] [attrs] ∅ st.

(** A value that does not depend on the memory, or [builtins]. *)
Definition global_ok (x : Value) : Prop :=
  match vtype x with
  | tInt => exists n, payload x = PInt n
  | tBool => exists b, payload x = PBool b
  | tString => exists t c, payload x = PString t c
  | tNull => True
  | tAttrs => payload x = PAttrs 0
  | tPrimOp => exists op, payload x = PPrimOp op /\ is_base op
  | _ => False
  end.

Record filled (ok : Value -> Prop) (vals : list Value) (cs : list nat) (attrs : list Attr) (vars : gmap str nat) (names : list str) : Prop := {
  fl_values : Forall ok vals;
  fl_builtins : cs !! 0%nat = Some 1%nat /\ vals !! 1%nat = Some (mkValue tAttrs (PAttrs 0));
  fl_cs : Forall (fun c => (c < length vals)%nat) cs;
  fl_attrs : Forall (fun a => (b_value a < length vals)%nat) attrs;
  fl_names : b_name <$> attrs = names;
  fl_vars : forall y d, vars !! y = Some d -> (d < length cs)%nat }.

Lemma place_next (cs : list nat) c : (length cs < 128)%nat ->
  <[length cs := Some c]> ((Some <$> cs) ++ replicate (128 - length cs) None) = (Some <$> (cs ++ [c])) ++ replicate (128 - length (cs ++ [c])) None.
Proof.
  intros Hl. rewrite length_app, fmap_app, <- app_assoc. cbn [length fmap list_fmap app]. replace (128 - length cs)%nat with (S (128 - (length cs + 1))) by lia.
  cbn [replicate]. rewrite insert_app_r_alt by (by rewrite length_fmap). rewrite length_fmap, Nat.sub_diag. done.
Qed.

(** [add_global] with the next value. *)
Lemma run_add_global ok vals cs attrs vars names name x : filled ok vals cs attrs vars names -> ok x -> (length cs < 128)%nat ->
  add_global 0 name (length vals) (length cs, vars) (mem (vals ++ [x]) cs attrs) =
    Done (S (length cs), <[name := length cs]> vars) (mem (vals ++ [x]) (cs ++ [length vals]) (attrs ++ [mkBinding (public_name name) (length vals) noPos])) /\
  filled ok (vals ++ [x]) (cs ++ [length vals]) (attrs ++ [mkBinding (public_name name) (length vals) noPos]) (<[name := length cs]> vars) (names ++ [public_name name]).
Proof.
  intros [F1 [F2 F2'] F3 F4 F5 F6] Hx Hl. split.
  - unfold add_global. cbn [fst snd]. erewrite run_bind; [|eapply run_setValue; [done|cbn; rewrite length_app, length_fmap, length_replicate; lia]].
    cbn [es_envs mem set_envs list_insert]. unfold set_place. cbn [env_up env_prevWith env_values]. rewrite place_next by done.
    erewrite run_derefEnv; [|done]. cbn [env_values]. destruct cs as [|c cs]; [done|]. injection F2 as ->.
    erewrite run_some; [|done]. erewrite run_some; [|done].
    assert (Hb : (vals ++ [x]) !! 1%nat = Some (mkValue tAttrs (PAttrs 0))) by (by apply lookup_app_l_Some).
    erewrite run_bind; [|unfold push_attr; erewrite run_attrsOf; [|exact Hb|done]; erewrite run_getBindings; [reflexivity|done]]. done.
  - assert (Hlen : length (vals ++ [x]) = S (length vals)) by (rewrite length_app; cbn; lia). split.
    + apply Forall_app. by split; [|constructor].
    + split; by apply lookup_app_l_Some.
    + rewrite Hlen. apply Forall_app. split; [eapply Forall_impl; [exact F3|]; cbn; lia|]. constructor; [lia|done].
    + rewrite Hlen. apply Forall_app. split; [eapply Forall_impl; [exact F4|]; cbn; lia|]. constructor; [cbn; lia|done].
    + by rewrite fmap_app, F5.
    + rewrite length_app. cbn. intros y d [[_ <-]|[_ Hd%F6]]%lookup_insert_Some; lia.
Qed.

Lemma run_alloc vals cs attrs : allocValue (mem vals cs attrs) = Done (length vals) (mem (vals ++ [mkValue tUninit PNone]) cs attrs).
Proof. done. Qed.
Lemma run_write vals cs attrs c y x : vals !! c = Some y -> assign c x (mem vals cs attrs) = Done tt (mem (<[c := x]> vals) cs attrs).
Proof. intros Hc. rewrite run_assign; [done|]. by eapply lookup_lt_Some. Qed.
Lemma write_last (vals : list Value) u x : <[length vals := x]> (vals ++ [u]) = vals ++ [x].
Proof. rewrite insert_app_r_alt by done. by rewrite Nat.sub_diag. Qed.

(** A step that adds the names [new]. *)
Definition adds (ok : Value -> Prop) (new : list str) (f : BaseVars -> M ES BaseVars) : Prop := forall vals cs attrs vars names,
  filled ok vals cs attrs vars names -> (length cs + length new <= 128)%nat ->
  exists vals' cs' attrs' vars', f (length cs, vars) (mem vals cs attrs) = Done (length cs', vars') (mem vals' cs' attrs') /\
    filled ok vals' cs' attrs' vars' (names ++ new) /\ length cs' = (length cs + length new)%nat /\ exists x, vals' !! 0%nat = Some x.

Lemma filled_zero ok vals cs attrs vars names : filled ok vals cs attrs vars names -> exists x, vals !! 0%nat = Some x /\ ok x.
Proof.
  intros [F1 [_ F2] _ _ _ _]. destruct vals as [|x vals]; [done|]. exists x. split; [done|]. by apply Forall_cons in F1 as [? _].
Qed.

Lemma run_addConstant ok vals cs attrs vars names name x : filled ok vals cs attrs vars names -> vals !! 0%nat = Some x -> ok x -> (length cs < 128)%nat ->
  addConstant 0 name 0 (length cs, vars) (mem vals cs attrs) =
    Done (S (length cs), <[name := length cs]> vars) (mem (vals ++ [x]) (cs ++ [length vals]) (attrs ++ [mkBinding (public_name name) (length vals) noPos])).
Proof.
  intros Hf Hx Hok Hl. unfold addConstant. rewrite (run_bind _ _ _ _ _ (run_alloc vals cs attrs)).
  erewrite run_bind; [|unfold copyValue; erewrite run_deref; [|cbn; apply lookup_app_l_Some, Hx]; eapply run_write, list_lookup_middle; reflexivity].
  rewrite write_last. by destruct (run_add_global ok vals cs attrs vars names name x Hf Hok Hl) as [-> _].
Qed.

Lemma addConstant_adds ok name : adds ok [public_name name] (addConstant 0 name 0).
Proof.
  intros vals cs attrs vars names Hf Hl. cbn in Hl. destruct (filled_zero _ _ _ _ _ _ Hf) as (x & Hx & Hok).
  destruct (run_add_global ok vals cs attrs vars names name x Hf Hok) as [_ Hf']; [lia|]. eexists _, _, _, _. split_and!; [|exact Hf'|by rewrite length_app|].
  - rewrite (run_addConstant ok _ _ _ _ names name x) by (done || lia). rewrite length_app. cbn. by rewrite Nat.add_1_r.
  - exists x. by apply lookup_app_l_Some.
Qed.

Lemma addPrimOp_adds (ok : Value -> Prop) name n : ok (mkValue tPrimOp (PPrimOp (mkPrimOp (public_name name) n))) -> adds ok [public_name name] (addPrimOp 0 name n).
Proof.
  intros Hop vals cs attrs vars names Hf Hl. cbn in Hl. destruct (filled_zero _ _ _ _ _ _ Hf) as (x & Hx & _).
  destruct (run_add_global ok vals cs attrs vars names name _ Hf Hop) as [Hr Hf']; [lia|]. eexists _, _, _, _. split_and!; [|exact Hf'|by rewrite length_app|].
  - unfold addPrimOp. rewrite (run_bind _ _ _ _ _ (run_alloc vals cs attrs)). erewrite run_bind; [|eapply run_write, list_lookup_middle; reflexivity].
    rewrite write_last, Hr. rewrite length_app. cbn. by rewrite Nat.add_1_r.
  - exists x. by apply lookup_app_l_Some.
Qed.

Lemma adds_app (ok : Value -> Prop) l k f g : adds ok l f -> adds ok k g -> adds ok (l ++ k) (fun bv => f bv ≫= g).
Proof.
  intros Hf Hg vals cs attrs vars names Hm Hl. rewrite length_app in Hl. destruct (Hf vals cs attrs vars names Hm) as (v1 & c1 & a1 & r1 & E1 & Hm1 & L1 & _); [lia|].
  destruct (Hg v1 c1 a1 r1 (names ++ l) Hm1) as (v2 & c2 & a2 & r2 & E2 & Hm2 & L2 & Hz); [lia|]. exists v2, c2, a2, r2. rewrite (run_bind _ _ _ _ _ E1).
  rewrite app_assoc, length_app. split_and!; [done|done|lia|done].
Qed.

Lemma addPrimOps_adds (ok : Value -> Prop) (table : list (str * nat * Prim)) :
  Forall (fun xnf => ok (mkValue tPrimOp (PPrimOp (mkPrimOp (public_name xnf.1.1) xnf.1.2)))) table ->
  adds ok ((fun xnf => public_name xnf.1.1) <$> table) (addPrimOps 0 table).
Proof.
  induction 1 as [|[[x n] f] table Hx _ IH]; cbn [addPrimOps fmap list_fmap].
  - intros vals cs attrs vars names Hm Hl. exists vals, cs, attrs, vars. rewrite app_nil_r. destruct (filled_zero _ _ _ _ _ _ Hm) as (x & ? & _). split_and!; [done|done|cbn; lia|by exists x].
  - exact (adds_app ok [public_name x] _ _ _ (addPrimOp_adds ok x n Hx) IH).
Qed.

(** Writing the local variable of [createBaseEnv] before a constant is added. *)
Definition writes (ok : Value -> Prop) (m : M ES unit) : Prop := forall vals cs attrs y, vals !! 0%nat = Some y ->
  exists x, ok x /\ m (mem vals cs attrs) = Done tt (mem (<[0%nat := x]> vals) cs attrs).

Lemma writes_assign (ok : Value -> Prop) x : ok x -> writes ok (assign 0 x).
Proof. intros Hx vals cs attrs y Hy. exists x. split; [done|by eapply run_write]. Qed.
Lemma writes_setType (ok : Value -> Prop) t : (forall p, ok (mkValue t p)) -> writes ok (setType 0 t).
Proof.
  intros Ht vals cs attrs y Hy. exists (mkValue t (payload y)). split; [done|]. unfold setType. erewrite run_deref; [|exact Hy]. by eapply run_write.
Qed.

Lemma filled_write (ok : Value -> Prop) vals cs attrs vars names x : ok x -> filled ok vals cs attrs vars names -> filled ok (<[0%nat := x]> vals) cs attrs vars names.
Proof.
  intros Hx [F1 [F2 F2'] F3 F4 F5 F6]. split; rewrite ?length_insert; try done; [by apply Forall_insert|]. split; [done|]. by rewrite list_lookup_insert_ne.
Qed.

Lemma stage {B} (P : outcome ES B -> Prop) (ok : Value -> Prop) new m f (k : BaseVars -> M ES B) vals cs attrs vars names bv : writes ok m -> adds ok new f ->
  filled ok vals cs attrs vars names -> bv = (length cs, vars) -> (length cs + length new <= 128)%nat ->
  (forall vals' cs' attrs' vars', filled ok vals' cs' attrs' vars' (names ++ new) -> length cs' = (length cs + length new)%nat ->
     P (k (length cs', vars') (mem vals' cs' attrs'))) ->
  P ((m ≫= fun _ => f bv ≫= k) (mem vals cs attrs)).
Proof.
  intros Hm Hf Hfl -> Hl HP. destruct (filled_zero _ _ _ _ _ _ Hfl) as (y & Hy & _). destruct (Hm vals cs attrs y Hy) as (x & Hx & E).
  destruct (Hf _ cs attrs vars names (filled_write ok _ _ _ _ _ x Hx Hfl) Hl) as (v' & c' & a' & r' & E' & Hf' & L' & _).
  rewrite (run_bind _ _ _ _ _ E), (run_bind _ _ _ _ _ E'). by apply HP.
Qed.

Definition constants : list str := [ $"builtins"; $"true"; $"false"; $"null"; $"currentTime"; $"currentSystem"; $"nixVersion"; $"langVersion" ].
Definition base_names : list str := constants ++ ((fun xnf => public_name xnf.1.1) <$> primops prim_import prim_toXML prim_filterSource).

Lemma base_names_distinct : NoDup (base_names ++ [ $"derivation" ]).
Proof. refine (bool_decide_unpack _ _). vm_compute. exact I. Qed.

Lemma primops_ok : Forall (fun xnf => global_ok (mkValue tPrimOp (PPrimOp (mkPrimOp (public_name xnf.1.1) xnf.1.2)))) (primops prim_import prim_toXML prim_filterSource).
Proof.
  apply Forall_forall. intros xnf Hx. cbn. eexists. split; [done|]. by apply (list_elem_of_fmap_2 (fun xnf => (public_name xnf.1.1, xnf.1.2)) _ xnf).
Qed.

Context (currentTime : Z) (thisSystem nixVersion : str) (derivation_nix : Expr).
Abbreviation createBaseEnv := (createBaseEnv prim_import prim_toXML prim_filterSource currentTime thisSystem nixVersion derivation_nix).

(** The state in which derivation.nix is bound, and what follows. *)
Definition base_tail (vals : list Value) (cs : list nat) (attrs : list Attr) (vars : gmap str nat) : outcome ES (nat * StaticEnv) :=
  (e ← lift (fun _ => bindVars [FVars vars] derivation_nix);
   _ ← mkThunk 0 0 e; bv ← addConstant 0 ($"derivation") 0 (length cs, vars);
   x ← derefEnv 0; o ← some (env_values x !! 0%nat); builtins ← some o; _ ← sortBindings builtins; mret (0%nat, [FVars bv.2])) (mem vals cs attrs).
Definition base_reached (o : outcome ES (nat * StaticEnv)) : Prop := exists vals cs attrs vars,
  filled global_ok vals cs attrs vars base_names /\ length cs = length base_names /\ o = base_tail vals cs attrs vars.

Ltac constant := eapply (stage base_reached global_ok); [first [apply writes_assign; cbn; eauto | by apply writes_setType]|apply addConstant_adds|eassumption|reflexivity|cbn in *; lia|];
  let H1 := fresh in let H2 := fresh in intros ? ? ? ? H1 H2; cbn [length] in H2.

Lemma createBaseEnv_reached : base_reached (createBaseEnv empty_state).
Proof.
  set (A := mkValue tAttrs (PAttrs 0)). set (a0 := mkBinding ($"builtins") 1 noPos).
  assert (Hf : filled global_ok [A; A] [1%nat] [a0] {[ $"builtins" := 0%nat ]} [ $"builtins" ]).
  { split; try done; try (by repeat constructor). intros y d [_ <-]%lookup_singleton_Some. cbn. lia. }
  unfold createBaseEnv. do 3 (erewrite run_bind; [|reflexivity]).
  erewrite run_bind; [|instantiate (1 := mem [A; A] [1%nat] [a0]); instantiate (1 := (1%nat, {[ $"builtins" := 0%nat ]})); reflexivity].
  constant. constant. constant. constant. constant. constant. constant.
  edestruct (addPrimOps_adds global_ok _ primops_ok) as (v' & c' & a' & r' & E & Hf' & L & _); [eassumption|cbn in *; lia|]. rewrite (run_bind _ _ _ _ _ E).
  exists v', c', a', r'. split_and!; [exact Hf'|cbn in *; lia|done].
Qed.

(** *** The memory at the end *)

Definition base_world (vars : gmap str nat) : world := mkWorld {[ 0%nat := [FVars vars] ]} ∅.
Definition derivation_thunk (e : Expr) : Value := mkValue tThunk (PThunk 0 e).
Definition final_ok (e : Expr) (x : Value) : Prop := global_ok x \/ x = derivation_thunk e.

Lemma final_written e x : final_ok e x -> vtype x <> tUninit.
Proof. intros [Hx| ->]; [|done]. unfold global_ok in Hx. by destruct (vtype x). Qed.

Lemma filled_wf e vals cs attrs vars names : filled (final_ok e) vals cs attrs vars names -> NoDup names -> bound [FVars vars] e ->
  wf is_base None (base_world vars) (mem vals cs (sort_attrs attrs)).
Proof.
  intros [F1 [F2 F2'] F3 F4 F5 F6] Hnd Hb.
  assert (Hptr : forall c, (c < length vals)%nat -> ptr (mem vals cs (sort_attrs attrs)) c).
  { intros c [x Hx]%lookup_lt_is_Some. exists x. split; [done|]. eapply final_written, (Forall_lookup_1 _ _ _ _ F1 Hx). }
  split.
  - intros c x Hx _. destruct (Forall_lookup_1 _ _ _ _ F1 Hx) as [Hg| ->]; [|eexists _, _, _; split_and!; [done|apply lookup_singleton_eq|done]].
    unfold global_ok in Hg. unfold EvalMemory.value_ok. destruct (vtype x); try done.
    + exists 0%nat, (sort_attrs attrs). split_and!; [done|done|]. split; [apply sort_attrs_sorted; by rewrite F5|].
      apply Forall_forall. intros a Ha. apply Hptr. rewrite Forall_forall in F4. apply F4. unfold sort_attrs in Ha. by rewrite merge_sort_Permutation in Ha.
    + destruct Hg as (op & -> & Hop). exists op. split_and!; [done|done|by eapply base_arity_pos].
  - intros env S HS. cbn in HS. apply lookup_singleton_Some in HS as [<- <-]. eexists _, (FVars vars), []. split_and!; [done|done|by left|]. intros y d Hd%F6.
    destruct (lookup_lt_is_Some_2 cs d Hd) as [c Hc]. exists (Some c). cbn. split; [|apply Hptr; exact (Forall_lookup_1 _ _ _ _ F3 Hc)].
    apply lookup_app_l_Some. by rewrite list_lookup_fmap, Hc.
  - intros c Hc. by apply not_elem_of_empty in Hc.
  - done.
Qed.

Lemma createBaseEnv_wf : expr_ok derivation_nix = true -> mentions ($"derivation") derivation_nix = false ->
  match createBaseEnv empty_state with
  | Done r s => exists vars, r = (0%nat, [FVars vars]) /\ wf is_base None (base_world vars) s
  | Raised ex _ => exn_kind ex = eEvalError
  | Stuck => True
  end.
Proof.
  intros Hok Hown. destruct createBaseEnv_reached as (vals & cs & attrs & vars & Hf & Hl & ->). unfold base_tail, mbind at 1, M_bind at 1, lift.
  destruct (bindVars [FVars vars] derivation_nix) as [e|ex|] eqn:Eb; [|by eapply bindVars_throws|done].
  assert (Hf1 : filled (final_ok e) vals cs attrs vars base_names).
  { destruct Hf. split; try done. eapply Forall_impl; [eassumption|]. intros x Hx. by left. }
  destruct (filled_zero _ _ _ _ _ _ Hf1) as (y & Hy & _). rewrite (run_bind _ _ _ _ _ (run_write vals cs attrs 0 y (derivation_thunk e) Hy)).
  assert (HT : final_ok e (derivation_thunk e)) by (by right). apply (filled_write _ _ _ _ _ _ _ HT) in Hf1. set (vals1 := <[0%nat := _]> vals) in *.
  assert (HT0 : vals1 !! 0%nat = Some (derivation_thunk e)) by (apply list_lookup_insert_eq; by eapply lookup_lt_Some). assert (Hlt : (length cs < 128)%nat) by (cbn in Hl; lia).
  destruct (run_add_global _ _ _ _ _ _ ($"derivation") _ Hf1 HT Hlt) as [_ Hf2].
  rewrite (run_bind _ _ _ _ _ (run_addConstant _ _ _ _ _ _ ($"derivation") _ Hf1 HT0 HT Hlt)).
  set (vals2 := vals1 ++ _) in *. set (cs2 := cs ++ _) in *. set (attrs2 := attrs ++ _) in *. set (vars2 := <[_ := _]> vars) in *.
  pose proof (fl_builtins _ _ _ _ _ _ Hf2) as [B1 B2]. erewrite run_derefEnv; [|done]. cbn [env_values].
  erewrite run_some; [|apply lookup_app_l_Some; rewrite list_lookup_fmap, B1; done]. erewrite run_some; [|done].
  erewrite run_bind; [|unfold sortBindings; erewrite run_attrsOf; [|exact B2|done]; erewrite run_getBindings; [|done]; reflexivity].
  exists vars2. split; [done|]. apply (filled_wf e _ _ _ _ _ Hf2 base_names_distinct). eapply bindVars_bound; [|exact Hok].
  rewrite <- Eb. symmetry. apply (bindVars_unused ($"derivation")); [done|]. constructor; [|done]. intros z Hz. unfold vars2. by rewrite lookup_insert_ne.
Qed.

(** ** Evaluation *)

Context (addSource : str -> M St str).
Abbreviation eval_toplevel := (eval_toplevel prim_import prim_toXML prim_filterSource currentTime thisSystem nixVersion derivation_nix addSource).

(** [eval_toplevel] with the cautious table: it gives no outcome when a built-in function is called that is not in [safe_table]. *)
Definition cautious_toplevel (n : nat) (e : Expr) : M ES nat :=
  b ← createBaseEnv;
  e ← lift (fun _ => bindVars b.2 e);
  v ← allocValue;
  _ ← eval (cautious prim_import prim_toXML prim_filterSource) addSource n b.1 e v;
  mret v.

Lemma cautious_toplevel_approx n e : approx (cautious_toplevel n e) (eval_toplevel n e).
Proof.
  unfold cautious_toplevel, BaseEnv.eval_toplevel. do 3 (apply approx_bind; [apply approx_refl|intros ?]). apply approx_bind; [|intros ?; apply approx_refl].
  apply ap_eval, ap_evaluator, cautious_approx.
Qed.

(** What a run leaves. *)
Definition sound_end (o : outcome ES nat) : Prop :=
  match o with
  | Done v s => (exists W, wf is_base None W s) /\ exists x, es_values s !! v = Some x /\ whnf (vtype x) = true
  | Raised ex _ => orderly (exn_kind ex) = true
  | Stuck => True
  end.

Lemma cautious_toplevel_sound n e : expr_ok derivation_nix = true -> mentions ($"derivation") derivation_nix = false -> safe_source addSource -> expr_ok e = true ->
  sound_end (cautious_toplevel n e empty_state).
Proof.
  intros Hd Hm Hs He. pose proof (createBaseEnv_wf Hd Hm) as Hb. unfold cautious_toplevel, mbind at 1, M_bind at 1.
  destruct (createBaseEnv empty_state) as [r s|ex s|]; [|by cbn; rewrite Hb|done]. destruct Hb as (vars & -> & Hwf). cbn [fst snd]. unfold lift at 1, mbind at 1, M_bind at 1.
  destruct (bindVars [FVars vars] e) as [e'|ex|] eqn:Eb; [|by cbn; rewrite (bindVars_throws e [FVars vars] ex Eb)|done].
  erewrite run_bind; [|done]. set (s1 := set_values _ s). assert (Hv : (length (es_values s) < length (es_values s1))%nat) by (cbn; rewrite length_app; cbn; lia).
  pose proof (eval_safe is_base _ addSource (cautious_safe prim_import prim_toXML prim_filterSource) Hs (base_world vars) s1 0 [FVars vars] e e' (length (es_values s)) n
    (alloc_wf _ _ _ _ Hwf) (lookup_singleton_eq _ _) He Eb Hv (not_elem_of_empty _)) as Hr. unfold mbind, M_bind.
  destruct (eval _ _ n 0 e' _ s1) as [a s'|ex s'|]; [|done..]. destruct Hr as (HW & Hx & _). by split.
Qed.
End Base.

(** C3: evaluation of an expression in the base environment does not go wrong.  Let [e] be an expression as the parser makes it, and let the
    evaluation not run out of fuel and not call a built-in function outside [safe_table], which has 37 of the 52 (in the model: the run with the
    cautious table has an outcome).  Then [eval_toplevel], with the whole table, ends the same way: it returns a value that is evaluated and leaves a
    well-formed memory, or throws an exception that is neither a null or dangling pointer, an index out of range or a member of a value that was not
    written (undefined behaviour), nor a failed assertion of the evaluator or a call of [abort]; an overflow of [int] in the
    arithmetic functions is an exception of its own and is not excluded ([orderly]).  Of derivation.nix only this is used: that it is
    an expression of the parser, and has no variable called [derivation]. *)
Theorem eval_toplevel_safe `{SymbolTable} `{!SymbolLaws} {St : Type} `{EvalStoreLaws St} `{HashAlgo}
    (prim_import prim_toXML prim_filterSource : Evaluator St -> list nat -> nat -> M (EvalState St) unit)
    (st : St) (currentTime : Z) (thisSystem nixVersion : str) (derivation_nix : Expr) (addSource : str -> M St str) (n : nat) (e : Expr) :
  let run := eval_toplevel prim_import prim_toXML prim_filterSource currentTime thisSystem nixVersion derivation_nix addSource n e (empty_state st) in
  let cautious_run := cautious_toplevel prim_import prim_toXML prim_filterSource currentTime thisSystem nixVersion derivation_nix addSource n e (empty_state st) in
  expr_ok derivation_nix = true -> mentions ($"derivation") derivation_nix = false -> safe_source addSource -> expr_ok e = true -> cautious_run <> Stuck ->
  run = cautious_run /\
  match run with
  | Done v s => (exists W, wf (is_base prim_import prim_toXML prim_filterSource) None W s) /\ exists x, es_values s !! v = Some x /\ whnf (vtype x) = true
  | Raised ex _ => orderly (exn_kind ex) = true
  | Stuck => False
  end.
Proof.
  intros run cautious_run Hd Hm Hs He Hc.
  pose proof (cautious_toplevel_sound prim_import prim_toXML prim_filterSource st currentTime thisSystem nixVersion derivation_nix addSource n e Hd Hm Hs He) as Hr.
  pose proof (cautious_toplevel_approx prim_import prim_toXML prim_filterSource currentTime thisSystem nixVersion derivation_nix addSource n e (empty_state st)) as Ha.
  fold run cautious_run in Hr, Ha. clearbody run cautious_run. destruct Ha as [Ha|<-]; [by destruct (Hc Ha)|]. split; [reflexivity|].
  destruct cautious_run; [exact Hr|exact Hr|by destruct Hc].
Qed.

(** ** A witness *)

#[local] Existing Instance Sample.symbols.
#[local] Existing Instance Sample.symbols_inj.
#[local] Existing Instance Sample.store.
#[local] Existing Instance Sample.store_laws.
#[local] Existing Instance checksum_algo.

(** src/corepkgs/derivation.nix; the attributes are in the order of the symbols. *)
Definition def_le (a b : str * AttrDef) : Prop := (sym_addr a.1 <= sym_addr b.1)%N.
#[local] Instance def_le_dec a b : Decision (def_le a b).
Proof. unfold def_le. apply _. Defined.
Definition sort_defs (l : list (str * AttrDef)) : list (str * AttrDef) := merge_sort def_le l.
Definition select (e : Expr) (x : str) : Expr := ExprSelect e [x] None.
Definition attr (x : str) (e : Expr) : str * AttrDef := (x, AttrE e noPos 0).
Definition inherited (x : str) : str * AttrDef := (x, AttrInherited (mkVarRef x false 0 0) noPos 0).
Definition builtin (x : str) : Expr := select (Sample.var ($"builtins")) x.
Definition derivation_file : Expr := Eval vm_compute in
  ExprLambda (mkLambda noPos ($"drvAttrs") true [mkFormal ($"outputs") (Some (ExprList [ExprString ($"out")]))] true
    (ExprLet (sort_defs
       [ attr ($"strict") (ExprApp (Sample.var ($"derivationStrict")) (Sample.var ($"drvAttrs")));
         attr ($"commonAttrs") (ExprOpUpdate (Sample.var ($"drvAttrs")) (ExprOpUpdate (ExprApp (builtin ($"listToAttrs")) (Sample.var ($"outputsList")))
           (ExprAttrs false (sort_defs
             [ attr ($"all") (ExprApp (ExprApp (Sample.var ($"map")) (ExprLambda (mkLambda noPos ($"x") false [] false (select (Sample.var ($"x")) ($"value"))))) (Sample.var ($"outputsList")));
               inherited ($"drvAttrs") ]))));
         attr ($"outputToAttrListElement") (ExprLambda (mkLambda noPos ($"outputName") false [] false (ExprAttrs false (sort_defs
           [ attr ($"name") (Sample.var ($"outputName"));
             attr ($"value") (ExprOpUpdate (Sample.var ($"commonAttrs")) (ExprAttrs false (sort_defs
               [ attr ($"outPath") (ExprApp (ExprApp (builtin ($"getAttr")) (Sample.var ($"outputName"))) (Sample.var ($"strict")));
                 attr ($"drvPath") (select (Sample.var ($"strict")) ($"drvPath")); attr ($"type") (ExprString ($"derivation")); inherited ($"outputName") ]))) ]))));
         attr ($"outputsList") (ExprApp (ExprApp (Sample.var ($"map")) (Sample.var ($"outputToAttrListElement"))) (Sample.var ($"outputs"))) ])
       (select (ExprApp (builtin ($"head")) (Sample.var ($"outputsList"))) ($"value")))).

(** [builtins.add (builtins.length [ 1 2 ]) 3] *)
Definition sum_program : Expr :=
  ExprApp (ExprApp (builtin ($"add")) (ExprApp (builtin ($"length")) (ExprList [ExprInt 1; ExprInt 2]))) (ExprInt 3).

Definition sum_run : outcome (EvalState unit) nat :=
  eval_toplevel Sample.no_prim Sample.no_prim Sample.no_prim 0 ($"x86_64-linux") ($"1.5") derivation_file Sample.source 20 sum_program (empty_state tt).

Lemma eval_toplevel_safe_witness : match sum_run with
  | Done v s => es_values s !! v = Some (mkValue tInt (PInt 5)) /\ exists W, wf (is_base Sample.no_prim Sample.no_prim Sample.no_prim) None W s
  | _ => False
  end.
Proof.
  assert (Hv : match sum_run with Done v s => es_values s !! v = Some (mkValue tInt (PInt 5)) | _ => False end) by (vm_compute; reflexivity).
  assert (Hr : match sum_run with Done v s => exists W, wf (is_base Sample.no_prim Sample.no_prim Sample.no_prim) None W s | _ => True end).
  { unfold sum_run. edestruct (eval_toplevel_safe (H := Sample.symbols) (H1 := Sample.store) (H3 := checksum_algo) Sample.no_prim Sample.no_prim Sample.no_prim tt 0 ($"x86_64-linux") ($"1.5")
      derivation_file Sample.source 20 sum_program) as [_ Hr]; [vm_compute; reflexivity..|exact Sample.source_safe|vm_compute; reflexivity|vm_compute; discriminate|].
    revert Hr. cbn zeta. generalize (eval_toplevel Sample.no_prim Sample.no_prim Sample.no_prim 0 ($"x86_64-linux") ($"1.5") derivation_file Sample.source 20 sum_program (empty_state tt)).
    intros [v s|ex s|]; [intros [HW _]; exact HW|intros _; exact I|intros []]. }
  revert Hv Hr. generalize sum_run. intros [v s|ex s|]; [|intros []..]. intros Hv Hr. exact (conj Hv Hr).
Defined.
