(* ===== verification/PrimBounds.v ===== *)
(** * Built-in functions at the edges

    Division over the whole range of integers, the substring function, and what is left
    of a thunk whose evaluation fails. *)

From Stdlib Require Import ZArith Lia Ascii Relations.
From stdpp Require Import base strings sorting numbers gmap sets list.
From S2P Require Import Prelude Effects Util Hash StorePath Derivations NixExpr Eval Primops PrimDerivation BaseEnv EvalMemory EvalScope EvalSafe PrimSafe.

Section Bounds.
Context `{SymbolTable} {St : Type} `{EvalStore St}.
Abbreviation ES := (EvalState St).
Implicit Types s : ES.

(** ** Integers *)

Definition int_at s (a : nat) (n : Z) : Prop := es_values s !! a = Some (mkValue tInt (PInt n)) /\ is_int n = true.

Lemma is_int_spec n : is_int n = true <-> (- 2 ^ 31 <= n < 2 ^ 31)%Z.
Proof. unfold is_int. rewrite andb_true_iff, Z.leb_le, Z.ltb_lt. done. Qed.

Lemma forceInt_run R s a n : int_at s a n -> forceInt R a s = Done n s.
Proof.
  intros [Ha _]. unfold forceInt. rewrite (run_bind _ _ _ tt s); [|unfold forceValue; by rewrite (run_deref _ _ _ _ Ha)].
  rewrite (run_typeOf _ _ _ _ Ha). cbn [vtype]. rewrite decide_True by done. unfold intOf. by rewrite (run_deref _ _ _ _ Ha).
Qed.

Lemma quot_range n m : (- 2 ^ 31 <= n < 2 ^ 31)%Z -> (m <> 0)%Z -> (- 2 ^ 31 <= Z.quot n m < 2 ^ 31)%Z <-> ~ (n = - 2 ^ 31 /\ m = -1)%Z.
Proof.
  intros Hn Hm. split.
  - intros Hq [-> ->]. change (Z.quot (- 2 ^ 31) (-1))%Z with (2 ^ 31)%Z in Hq. lia.
  - intros Hne. destruct (decide (m = -1)%Z) as [-> |Hm1]; [change (-1)%Z with (- (1))%Z; rewrite Z.quot_opp_r, Z.quot_1_r by lia; lia|].
    destruct (decide (m = 1)%Z) as [-> |Hm2]; [rewrite Z.quot_1_r; lia|].
    assert (Ha : (Z.abs (Z.quot n m) <= 2 ^ 30)%Z).
    { rewrite <- Z.quot_abs by done. rewrite Z.quot_div_nonneg by lia. apply Z.div_le_upper_bound; [lia|]. nia. }
    lia.
Qed.

(** C36: [prim_div] over the whole range of integers: dividing by zero is an error;
    the one quotient that does not fit, the smallest integer divided by -1, is not
    guarded against, and overflows; otherwise the result is the quotient rounded
    towards zero, and nothing else changes. *)
Theorem prim_div_range R s a0 a1 v n m : int_at s a0 n -> int_at s a1 m -> (v < length (es_values s))%nat ->
  prim_div R [a0; a1] v s =
    if (m =? 0)%Z then Raised (Exn eEvalError ($"division by zero")) s
    else if (n =? - 2 ^ 31)%Z && (m =? -1)%Z then Raised (Exn eOverflow ($"signed integer overflow")) s
    else Done tt (set_values (<[v := mkValue tInt (PInt (Z.quot n m))]> (es_values s)) s).
Proof.
  intros Hn0 Hm0 Hv. unfold prim_div. rewrite (run_bind _ _ _ a0 s), (run_bind _ _ _ a1 s) by done. rewrite (run_bind _ _ _ _ _ (forceInt_run R s a1 m Hm0)).
  destruct (Z.eqb_spec m 0) as [-> |Hm]; [done|]. rewrite (run_bind _ _ _ _ _ (forceInt_run R s a0 n Hn0)). unfold mkIntExact.
  pose proof (proj1 (is_int_spec n) (proj2 Hn0)) as Hn. pose proof (quot_range n m Hn Hm) as Hq. rewrite <- is_int_spec in Hq.
  destruct ((n =? - 2 ^ 31)%Z && (m =? -1)%Z) eqn:E.
  - apply andb_true_iff in E as [->%Z.eqb_eq ->%Z.eqb_eq]. done.
  - apply andb_false_iff in E. rewrite (proj2 Hq); [by apply run_assign|]. intros [-> ->]. by destruct E.
Qed.

(** ** Thunks *)

(** C37: when the evaluation of a thunk throws an [Error] after something else was written to the value, [forceValue] marks the value as a
    thunk again although its environment and expression have been overwritten; the exception is passed on, and to force the value a second time,
    as a program can with [tryEval], is undefined behaviour. *)
Theorem force_failed_thunk R s v env e s1 ex x : es_values s !! v = Some (mkValue tThunk (PThunk env e)) ->
  r_eval R env e v (set_values (<[v := mkValue tBlackhole (PThunk env e)]> (es_values s)) s) = Raised ex s1 -> is_Error (exn_kind ex) = true ->
  es_values s1 !! v = Some x -> (forall env e, payload x <> PThunk env e) ->
  exists s2, forceValue R v s = Raised ex s2 /\ forceValue R v s2 = Raised (Exn eUndefined ($"undefined behaviour")) s2.
Proof.
  intros Hv He Hk Hx Hp. set (s2 := set_values (<[v := mkValue tThunk (payload x)]> (es_values s1)) s1). exists s2.
  assert (Hset : forall t y (u : ES), es_values u !! v = Some y -> setType v t u = Done tt (set_values (<[v := mkValue t (payload y)]> (es_values u)) u)).
  { intros t y u Hy. unfold setType. rewrite (run_deref _ _ _ _ Hy). apply run_assign. by eapply lookup_lt_Some. }
  split.
  - unfold forceValue. rewrite (run_deref _ _ _ _ Hv). cbn [vtype payload]. rewrite (run_bind _ _ _ _ _ (Hset tBlackhole _ _ Hv)). unfold try_catch. cbn [payload]. rewrite He, Hk.
    by rewrite (run_bind _ _ _ _ _ (Hset tThunk _ _ Hx)).
  - assert (Hv2 : es_values s2 !! v = Some (mkValue tThunk (payload x))) by (cbn; apply list_lookup_insert_eq; by eapply lookup_lt_Some).
    unfold forceValue. rewrite (run_deref _ _ _ _ Hv2). cbn [vtype payload]. destruct (payload x) eqn:Ex; try done. by destruct (Hp env0 e0).
Qed.
End Bounds.

(** ** A program *)

#[local] Existing Instance Sample.symbols.
#[local] Existing Instance Sample.symbols_inj.
#[local] Existing Instance Sample.store.
#[local] Existing Instance checksum_algo.

Lemma prim_div_range_witness :
  let s := mkEvalState [mkValue tInt (PInt (- 2 ^ 31)); mkValue tInt (PInt (-1)); mkValue tUninit PNone] [] [] ∅ tt in
  prim_div (no_fuel (St := unit)) [0%nat; 1%nat] 2 s = Raised (Exn eOverflow ($"signed integer overflow")) s.
Proof. intros s. apply (prim_div_range no_fuel s 0 1 2 (- 2 ^ 31) (-1)); [by split|by split|cbn; lia]. Defined.

Module Retry.
Definition builtin (x : str) : Expr := ExprSelect (Sample.var ($"builtins")) [x] None.
Definition try_x : Expr := ExprSelect (ExprApp (builtin ($"tryEval")) (Sample.var ($"x"))) [$"success"] None.
(** [let x = builtins.listToAttrs [ (throw "a") ]; in (builtins.tryEval x).success ==
    (builtins.tryEval x).success] *)
Definition program : Expr :=
  ExprLet [($"x", AttrE (ExprApp (builtin ($"listToAttrs")) (ExprList [ExprApp (Sample.var ($"throw")) (ExprString ($"a"))])) noPos 0)]
    (ExprOpEq try_x try_x).
Definition run (n : nat) (e : Expr) : outcome (EvalState unit) nat :=
  eval_toplevel Sample.no_prim Sample.no_prim Sample.no_prim 0 ($"x86_64-linux") ($"1.6") (ExprInt 0) Sample.source n e (mkEvalState [] [] [] ∅ tt).
End Retry.

(** The value of [x] in this program, in the base environment. *)
Definition retry_expr : Expr := ExprApp (Retry.builtin ($"listToAttrs")) (ExprList [ExprApp (Sample.var ($"throw")) (ExprString ($"a"))]).
Definition retry_made : outcome (EvalState unit) nat := Eval vm_compute in
  (b ← createBaseEnv Sample.no_prim Sample.no_prim Sample.no_prim 0 ($"x86_64-linux") ($"1.6") (ExprInt 0);
   e ← lift (fun _ => bindVars b.2 retry_expr); newThunk b.1 e) (mkEvalState [] [] [] ∅ tt).
Definition retry_state : EvalState unit := match retry_made with Done _ s | Raised _ s => s | Stuck => mkEvalState [] [] [] ∅ tt end.
Definition retry_thunk : nat := match retry_made with Done v _ => v | _ => 0%nat end.
Definition retry_bound : Expr := match es_values retry_state !! retry_thunk with Some (mkValue _ (PThunk _ e)) => e | _ => ExprInt 0 end.
Definition retry_eval : Evaluator unit := evaluator (primOpFun Sample.no_prim Sample.no_prim Sample.no_prim) Sample.source 12.
Definition retry_failed : outcome (EvalState unit) unit := Eval vm_compute in
  r_eval retry_eval 0 retry_bound retry_thunk
    (set_values (<[retry_thunk := mkValue tBlackhole (PThunk 0 retry_bound)]> (es_values retry_state)) retry_state).
Definition retry_exn : exn := match retry_failed with Raised ex _ => ex | _ => Exn eError [] end.
Definition retry_left : EvalState unit := match retry_failed with Done _ s | Raised _ s => s | Stuck => retry_state end.
Definition retry_value : Value := default (mkValue tUninit PNone) (es_values retry_left !! retry_thunk).

Lemma force_failed_thunk_witness : exn_kind retry_exn = eThrownError /\ vtype retry_value = tAttrs /\
  exists s2, forceValue retry_eval retry_thunk retry_state = Raised retry_exn s2 /\
    forceValue retry_eval retry_thunk s2 = Raised (Exn eUndefined ($"undefined behaviour")) s2.
Proof.
  split; [reflexivity|]. split; [reflexivity|].
  apply (force_failed_thunk retry_eval retry_state retry_thunk 0 retry_bound retry_left retry_exn retry_value).
  - vm_compute. reflexivity.
  - vm_compute. reflexivity.
  - vm_compute. reflexivity.
  - vm_compute. reflexivity.
  - intros env e. vm_compute. discriminate.
Defined.

(** A program that makes the evaluator use memory that is not there.  [x] is
    [listToAttrs] of a list whose element throws.  [listToAttrs] writes an empty set to
    the result before it forces the element; the exception makes [forceValue] mark the
    value as a thunk again, but its environment and expression have been overwritten.
    [tryEval] catches the exception, and the second [tryEval x] evaluates what is left. *)
Example retry_undefined : exists s, Retry.run 12 Retry.program = Raised (Exn eUndefined ($"undefined behaviour")) s.
Proof. eexists. vm_compute. reflexivity. Qed.
